(* ===== verification/_CoqProject ===== *)
-Q . S2P
Prelude.v
Machine.v
Host.v
Loops.v
Intervals.v
BpsSplit.v
CheckedMath.v
TokenIface.v
TokenContract.v
Escrow.v
EscrowProps.v
EscrowVault.v
Vesting.v
RoyaltySplits.v
LibraryDeposits.v
Milestones.v
Awards.v
LibraryFines.v
Signing.v
Disbursements.v
AvailabilityCalc.v
AvailabilityProps.v
AvailabilityRanges.v
AvailabilityService.v
Availability.v
Slots.v
SlotsProps.v
SlotsTheorems.v
FinesLedger.v
RateLimits.v
Idempotency.v
Outbox.v
OutboxEffects.v
OutboxQueue.v
OutboxWebhooks.v
OutboxSettlements.v
OutboxTyping.v
Scheduling.v
SchedulingProps.v
SchedulingTheorems.v
Decisions.v
DecisionsProps.v
DecisionsTheorems.v
Versions.v
Reviews.v
ReviewsTheorems.v
Applications.v
ApplicationsProps.v
ApplicationsTheorems.v
Rematch.v
RematchProps.v
RematchTheorems.v
Matching.v
MatchingProps.v
MatchingTheorems.v
Cohorts.v
CohortsTheorems.v
Calendar.v
CalendarTheorems.v
Retention.v
ScholarshipAdmin.v
ScholarshipAdminTheorems.v
Programs.v
Eligibility.v
EligibilityTheorems.v
Physical.v
Migration.v
MigrationTheorems.v
MentorContracts.v
MentorContractsTheorems.v
Conduct.v
ConductTheorems.v
AgreementExport.v
AgreementExportTheorems.v
Agreements.v
AgreementsTheorems.v
Identity.v
IdentityTheorems.v
MentorIdentity.v
MentorIdentityTheorems.v
