(* ===== verification/Prelude.v ===== *)
(** * ChainVerse on-chain contracts: a verification library

    The repository holds a family of Soroban smart contracts (Rust, under
    [src/contracts/]) for an education platform: a token, contracts that hold tokens for
    others (escrows, multi-signature vaults, refundable library deposits, vesting grants),
    contracts that account for money paid elsewhere (royalty splits, signed library fines and
    their payment ledger, scholarship milestones, awards and disbursement intents), the
    calendar of the mentorships (availability, slots and bookings), their agreements and seats,
    the identity and eligibility of the people involved, the infrastructure the
    scholarship contracts share (idempotency keys, rate limits, the event outbox) and
    registers of commitments and roles.  This library models the contracts that decide who is
    paid what and who is booked when, together with the shared code they rely on, and proves
    what makes each of them correct.

    ** How a contract is modelled

    [Host.v] models the host of a contract.  An entry point [pub fn f(env, ..) -> Result<T, E>]
    is an action of the monad [Contract]: it reads an [Env] (ledger time, own address, who
    authorised the invocation, ledger number, network) and threads a [World] (external token ledger, own storage, event
    log); it ends [Done], [Failed] with the contract's error, or [Trapped] (a panic: a missing
    authorisation, an overflow of a plain operator, an [unwrap]).  [invoke] is the boundary of
    the host: a call that does not return leaves the world it started from.  Definitions follow
    the order of the code's reads, checks and writes, so the error a call reports is the one
    the code reports.  [reachable] is the set of worlds a deployment can get into by calls of
    any entry point, by anyone, at any time and in any order, interleaved with changes of the
    external ledger that [rely] allows; the invariants below are proved over it with
    [reachable_inv].  [upgrade], where a contract has it, is a definition like the others but
    no step of [reachable]: what a deployment does after its code is replaced is the
    replacement's affair.

    Storage is one record per contract, with a [gmap] per key constructor of its [DataKey] and
    an [option] per singleton key.  The time to live of storage entries ([extend_ttl]) is not
    modelled: entries do not expire.  Amounts are [Z] with the widths of the code written out
    ([Machine.v]): [checked_*] operations fail outside the type, plain operators trap there
    (the workspace is built with overflow checks), [as] casts wrap.  A precondition [valid]
    of a call says only that its arguments are of their declared width and, where tokens are
    held, that a contract does not authorise calls of itself (the host forbids re-entry).
    Loops over a collection are structural recursion ([for_in] where the body has effects).
    The [while] loops of the code are [Loops.while] with fuel computed from the arguments: one
    iteration more than the sum of the lists' lengths for the walk over two lists of ranges,
    [GRID_FUEL] for the search grid (2051, the scan limit of the code and its last rounds), the
    limit and two for a sweep, the limit and one for a page of entries.  A loop that ran out
    of fuel would be [None] and trap the call; the termination theorems
    ([find_slots_terminates], [prune_exact], [get_entries_slice], [available_ranges_exact])
    show that it never does.

    A contract that reads another one does so through a class of queries on the ledger
    ([consult]); [AvailabilityService.v] is that interface for availability, which
    [Availability.v] implements and [Slots.v] is verified against.  Statements about all the
    calls of a sequence count the returned ones with [accepted].

    Code outside the repository is a parameter: the host's [sha256] and XDR encodings, the
    ed25519 crate, and the external token contracts, which enter as the type class
    [TokenLedger].  The named hypotheses on them are: a transfer moves exactly its amount
    ([TokenLaws]), a covered transfer is honoured ([TokenLive], only where a theorem promises
    that a payment succeeds), the hash of a counter-derived identifier has no collisions
    ([collision_free], for contracts that name records that way; the hash is read there as an
    abstract injective function), hashes are 32 bytes and encodings injective ([Signing.v]).
    Each is met by a concrete instance in the runs that instantiate the theorems.

    ** The files

    - [Prelude.v] (this file): tactics, sums over maps and lists, [result].
    - [Machine.v]: machine integers, casts, truncated division, big-endian encodings.
    - [Loops.v]: loops with fuel, their invariants and their termination by a measure;
      [Intervals.v]: ranges of instants, sorted lists of them and what they cover.
    - [Host.v]: environment, world, actions, invocations, reachability; inversion of
      successful runs ([run_inv]), forward execution ([run_fwd] with the hints of
      [contract]); counter-derived identifiers.
    - [BpsSplit.v]: reference split of an amount by basis points, the remainder to the last.
    - [CheckedMath.v] ([shared/src/math.rs]): checked helpers, [mul_div], the debt account.
    - [TokenIface.v]: the token interface of the clients, its laws, a reference
      implementation [BalanceMap].
    - [TokenContract.v] ([token/src/lib.rs], [royalty.rs]): the token; it implements
      [TokenIface] when it charges no royalty (Module [AsLedger]).
    - [Escrow.v] ([escrow/src/*.rs]): storage, transition table, fees and every entry point;
      [EscrowProps.v]: the abstract specification [spec_step] (records, accrued fees,
      holdings, amounts paid), the refinement and the escrow's properties.
    - [EscrowVault.v] ([escrow-vault/src/lib.rs]): vaults released by a quorum of votes.
    - [Vesting.v] ([common/vesting.rs]): grants, the vesting curve, claims, revocation.
    - [RoyaltySplits.v] ([royalty-splits/src/lib.rs]): manifests, distribution, withdrawal.
    - [LibraryDeposits.v] ([library-deposits/src/lib.rs]): deposits, refunds and charges.
    - [Milestones.v] ([scholarship-milestones/src/lib.rs]): schedules of milestones.
    - [Awards.v] ([scholarship-awards/src/lib.rs]): versioned award lifecycle, reservations.
    - [LibraryFines.v] ([library-fines/src/lib.rs], first contract of the file): assessments
      signed by the institution, nonces, caps, waivers.
    - [FinesLedger.v] ([library-fines/src/], second contract): the append-only ledger of
      assessments, waivers and payments, and the life of a settlement.
    - [Signing.v] ([shared/src/signing.rs]): the domain-separated signing envelope.
    - [Disbursements.v] ([scholarship-disbursements/src/lib.rs]): payout wallets, ownership
      challenges and disbursement intents; it signs through [Signing.v].
    - [AvailabilityCalc.v] ([mentorship-availability/src/lib.rs]): the pure calendar
      arithmetic; [AvailabilityProps.v]: sorting, merging and normalising; [AvailabilityRanges.v]:
      local time against UTC and the reference reading of a schedule;
      [AvailabilityService.v]: the interface other contracts consult; [Availability.v]: storage,
      entry points and theorems.
    - [Slots.v] ([mentorship-slots/src/lib.rs]): policies, blackouts, the slot search and
      bookings; [SlotsProps.v]: the invariant and the search loops; [SlotsTheorems.v]: the
      properties, alone and composed with [Availability.v].
    - [Scheduling.v] ([mentorship-scheduling/src/lib.rs]): agreement anchors, booked sessions,
      confirmations and the reschedule workflow; [SchedulingProps.v]: what each call
      does and the invariant; [SchedulingTheorems.v]: the properties.
    - [Decisions.v] ([scholarship-decisions/src/lib.rs]): the committee, programs, decisions by
      vote, reservations of budget and appeals; [DecisionsProps.v],
      [DecisionsTheorems.v]: effects, invariant and properties.
    - [Applications.v] ([scholarship-applications/src/lib.rs]): consents, the applications and
      their statuses, reviewer pools and assignments, privacy requests and exports;
      [ApplicationsProps.v], [ApplicationsTheorems.v] as above.
    - [Rematch.v] ([mentorship-rematch/src/lib.rs]): registered matches, requests to change the
      mentor, their review, the successor match and its hand-over; [RematchProps.v],
      [RematchTheorems.v] as above.
    - [Versions.v]: what [Applications], [Reviews] and [Eligibility] share, documents stored under versions
      without gaps.
    - [Reviews.v] ([scholarship-reviews/src/lib.rs]): published rubrics, reviews scored against
      them, aggregates and the comparison of applicants; [ReviewsTheorems.v].
    - [Matching.v] ([mentorship-matching/src/lib.rs]): participants and programs, proposals of a
      pair, their approvals, adjustments and expiry; [MatchingProps.v],
      [MatchingTheorems.v].
    - [Cohorts.v] ([mentorship-cohorts/src/lib.rs]): cohorts, their coordinators and
      enrollments; [CohortsTheorems.v].
    - [Calendar.v] ([mentorship-calendar/src/lib.rs]): connections to external calendars and
      their busy windows, normalised by [AvailabilityCalc]; [CalendarTheorems.v].
    - [RateLimits.v] ([scholarship-rate-limits/src/lib.rs]): limits per actor, action and
      window, service grants.
    - [Idempotency.v] ([scholarship-idempotency/src/lib.rs]): keys, their transitions, the
      bound on pending ones.
    - [Outbox.v] ([scholarship-outbox/src/lib.rs], [webhook_signing.rs]): the queue, the webhook
      endpoints and the settlement register; [OutboxEffects.v]: what each call does;
      [OutboxQueue.v], [OutboxWebhooks.v], [OutboxSettlements.v]: the theorems of each
      register; [OutboxTyping.v]: no call traps.
    - [Programs.v] ([scholarship-programs/src/lib.rs]): application windows and the inventory of
      awards; model and properties in one file.
    - [Eligibility.v] ([scholarship-eligibility/src/lib.rs]): rules, attestations of issuers, the
      evaluations; [EligibilityTheorems.v].
    - [ScholarshipAdmin.v] ([scholarship-admin/src/lib.rs]): flags, parameters, pins;
      [Retention.v]: the window of kept versions its registers share; [ScholarshipAdminTheorems.v].
    - [Migration.v] ([scholarship-migration/src/lib.rs]): runs over legacy records;
      [MigrationTheorems.v].
    - [Identity.v] ([scholarship-identity/src/lib.rs]): claims of issuers about applicants;
      [IdentityTheorems.v]: effects, invariant and properties.
    - [MentorIdentity.v] ([mentorship-identity/src/lib.rs]): attestations about mentors and their
      verification; [MentorIdentityTheorems.v].
    - [MentorContracts.v] ([mentorship-contracts/src/lib.rs]): versions of terms, seats and their
      queue; [MentorContractsTheorems.v].
    - [Conduct.v] ([mentorship-conduct/src/lib.rs]): policies, acceptances, engagements, breaches;
      [ConductTheorems.v].
    - [Agreements.v] ([mentorship-agreements/src/*.rs]): blocks, agreements, acceptances,
      amendments and the composed storage keys; [AgreementsTheorems.v].
    - [AgreementExport.v] ([mentorship-agreement-export/src/lib.rs]): the exported record, grants,
      quotas and the audit log; [AgreementExportTheorems.v].
    - [Physical.v] ([library-physical/src/lib.rs]): lost and damaged items, in one file.

    In each contract file the record [Store] is the storage, the definitions named as the
    Rust functions are the entry points and helpers, [Call]/[exec] is the dispatch,
    [valid] the typing of arguments, [inv] the invariant and the Module [Runs] holds concrete
    deployments on which the theorems are instantiated.

    ** What the theorems show

    - Money is there: the escrow, the vault and the deposit contract hold at least what they
      owe in every token, in every reachable world; only the initialisation of the token and
      the migration of legacy balances bring tokens into being, in exact amounts; royalty
      balances reconcile with what was distributed and withdrawn; a loan's debt is the sum of
      its fines.
    - Nobody is paid twice or too much: escrow payouts are bounded by the amount created, a
      vesting grant has one payment, and the payments logged are the tokens moved, an intent is executed once to a verified wallet, a nonce
      and a challenge work once, award payments stay below the award.
    - Histories: transition tables, versions and terms are respected by every call, and
      closed records never change (escrows, deposits, schedules, awards, intents).
    - Calls that must succeed do: refunds of expired escrows, votes, releases of deposits,
      vested claims, declined offers, idempotent retries.
    - Exact behaviour on every branch: token transfers, fine assessments, waivers, milestone
      releases, wallet proofs, [mul_div], the vesting curve against its closed formula.
    - Signatures bind what they sign: the fine payload is injective, the signing envelope and
      the webhook digest are injective up to a collision of the hash.
    - Time: availability queries return exactly the instants the reference reading of a
      schedule gives, local times are read once; bookings of one participant never collide
      and are accepted only outside the buffers and within the daily limit, offered slots can be booked, booked time is available time; every search ends; sessions
      of a participant never overlap, also after reschedules, which need both parties and keep
      the trace to the slot first booked.
    - Votes and budgets: the outcome of a decision is the plurality of the votes of distinct
      members, an appeal is decided by a disjoint panel, a member has one vote per application;
      the reserved and awarded amounts of a program are its reservations and stay within its
      budget.
    - Applications: one per applicant and program, submitted only under the terms in force;
      published results are final and the loads of reviewers are their open assignments.
    - Rematches: at most one open request per active match, a match ends once, a superseded
      match and its successor point at each other, and only after the mentee approved.
    - Reviews: totals and aggregates are the documented means, never overflow, and only further
      reviews change them; the comparison of applicants is a total preorder.
    - Matches, cohorts: a match holds exactly the terms both parties approved, a pair has one
      open proposal; seats are counted and bounded, a reference is enrolled and leaves once.
    - Agreements and seats: nobody is bound by an agreement he has not accepted, old terms govern
      until an amendment both approved is activated, nonces are not replayed, storage keys do not
      collide; programs are never oversold and their queue is first come, first served; the
      acceptance of a policy is proved by a record only the participant can make and nothing
      changes; an engagement starts as the gate of the code says; exports
      are counted, limited and audited.
    - Identity and eligibility: a verification is a claim in force, claims and approvals last
      until their expiry or withdrawal and a withdrawal lasts; the evaluation of a subject is its
      eligibility under the latest rule; published rules, flags and parameters are not rewritten;
      awards reserved are counted; a legacy record is mapped once, verbatim; an incident is
      charged once.
    - External calendars: queries show exactly the imported time, once, in canonical windows.
    - Logs and counters: ledger entries are append-only and balances are their sums; events
      leave the queue only once published; deliveries have no gaps; a key has one outcome; a
      window admits no more than its limit; no well-typed call of the outbox panics.

    ** What modelling showed

    Theorems also record where the code falls short of its documentation: replaying
    [migrate_balances] after the holders have spent mints the difference
    ([TokenContract.supply_conserved], [TokenContract.migrate_balances_resets]); a resolution below the
    disputed amount strands the rest ([EscrowProps.resolve_strands]); a claim before the end
    forfeits what has not vested ([Vesting.claim_final]); the due date of a milestone is never
    checked ([Milestones.release_branches]); a wallet change makes pending installments
    unpayable ([Disbursements.wallet_change_final]); bookings fill a participant's register for
    ever ([SlotsTheorems.full_for_ever]); rate-limit counters are never given back
    ([RateLimits.bucket_ceiling]); expired idempotency keys stay in flight
    ([Idempotency.create_outcome]); anyone can prune the outbox ([OutboxQueue.prune_exact]);
    resolving a settlement leaves the alert count ([OutboxSettlements.verdict_final]); a late
    approval moves a session into the past ([SchedulingTheorems.approve_exact]); the votes of a
    removed member still count ([DecisionsTheorems.decision_sound]); a seed near the
    largest 64-bit number makes an assignment panic ([ApplicationsTheorems.assign_exact]); a
    correction approved after an erasure replaces its tombstone
    ([ApplicationsTheorems.process_exact]); reviews of different rubrics can never be re-scored
    ([ReviewsTheorems.mixed_never_aggregates]); an agreed match is expired by a new proposal of
    its pair ([MatchingTheorems.match_proposal_lifecycle]); revoked calendar connections keep
    their place for ever ([CalendarTheorems.places_never_freed]); the retry of a rematch request fails once the match
    has ended ([RematchTheorems.request_retry]); anyone can overwrite the pin of a workflow
    ([ScholarshipAdminTheorems.pin_until_pinned_again]); archived legacy records keep their row
    ([MigrationTheorems.offer_retried]); an optional policy lifts the gate of the mandatory one
    before it, and a retired one closes it ([ConductTheorems.publication_exact]), and one party's call is enough to activate
    ([ConductTheorems.activation_gate]); refused rate-limit checks leave no event
    ([RateLimits.check_outcome]); two amendments
    can put the end of an agreement before its start, and it becomes active on two different
    hashes ([AgreementsTheorems.Runs.range_can_invert]); any address can issue a provider's claim
    ([IdentityTheorems.anyone_can_issue]) and the limit on active claims can be passed
    ([IdentityTheorems.Runs.ceiling_can_break]).

    ** Not modelled, and why

    Contracts whose source holds leftovers of an unresolved merge (staking, chv_token,
    library_licensing, mentorship-applications, scholarship-finance, payout-automation, reward,
    the root of library-rights) have no single reading, nor have those that do not type-check as
    they stand (mentorship-capacity, mentorship-conflicts, scholarship-review-workflow).  The
    other registers of commitments and roles, the analytics, dashboards and notifications, and the
    test harnesses hold no funds and decide no bookings.  Further on would come the registry,
    timelock and pause modules of library-rights, certificates and the records of payment. *)
From Stdlib Require Export ZArith Lia Bool.
From stdpp Require Export base tactics option list gmap strings fin_maps.

#[global] Open Scope Z_scope.

(** ** Hint databases and small tactics *)

Create HintDb contract.

(** Turn the boolean comparisons of the code into propositions. *)
Ltac bool_prop :=
  repeat match goal with
  | H : context [negb _ = false] |- _ => rewrite negb_false_iff in H
  | H : context [negb _ = true] |- _ => rewrite negb_true_iff in H
  | H : (_ && _) = true |- _ => apply andb_true_iff in H; destruct H
  | H : (_ || _) = false |- _ => apply orb_false_iff in H; destruct H
  | H : (_ && _) = false |- _ => apply andb_false_iff in H
  | H : (_ || _) = true |- _ => apply orb_true_iff in H
  | H : (_ <? _) = true |- _ => apply Z.ltb_lt in H
  | H : (_ <? _) = false |- _ => apply Z.ltb_ge in H
  | H : (_ <=? _) = true |- _ => apply Z.leb_le in H
  | H : (_ <=? _) = false |- _ => apply Z.leb_gt in H
  | H : (_ =? _) = true |- _ => apply Z.eqb_eq in H
  | H : (_ =? _) = false |- _ => apply Z.eqb_neq in H
  | H : bool_decide _ = true |- _ => apply bool_decide_eq_true in H
  | H : bool_decide _ = false |- _ => apply bool_decide_eq_false in H
  end.

(** Split every [match]/[if] of the goal and close what the arithmetic or
    the constructors decide. *)
Ltac cases := repeat (case_match || case_decide); simplify_eq/=; try done; try lia.

(** ** Sums over finite maps

    [map_sum f m] adds [f k v] over the entries of [m].  Balances,
    liabilities and reservation counts of the contracts are such sums. *)
Section MapSum.
Context {K V : Type} `{Countable K}.
Implicit Types (m : gmap K V) (f g : K → V → Z).

Definition map_sum f m : Z := map_fold (λ k v acc, f k v + acc) 0 m.

Lemma map_sum_empty f : map_sum f ∅ = 0.
Proof. unfold map_sum. by rewrite map_fold_empty. Qed.

Lemma map_sum_insert_new f m k v :
  m !! k = None → map_sum f (<[k:=v]> m) = f k v + map_sum f m.
Proof.
  intros Hk. unfold map_sum. rewrite map_fold_insert_L; [done| |done].
  intros; lia.
Qed.

(** The contribution of the entry at [k], zero when there is none. *)
Definition at_key f m k : Z := match m !! k with Some v => f k v | None => 0 end.

Lemma map_sum_delete f m k : map_sum f (delete k m) = map_sum f m - at_key f m k.
Proof.
  unfold at_key. destruct (m !! k) as [v|] eqn:Hk.
  - rewrite <-(insert_delete_id m k v Hk) at 2.
    rewrite map_sum_insert_new; [lia|]. apply lookup_delete_eq.
  - rewrite delete_id by done. lia.
Qed.

Lemma map_sum_insert f m k v :
  map_sum f (<[k:=v]> m) = map_sum f m - at_key f m k + f k v.
Proof.
  rewrite <-insert_delete_eq, map_sum_insert_new by apply lookup_delete_eq.
  rewrite map_sum_delete. lia.
Qed.

Lemma map_sum_ext f g m :
  (∀ k v, m !! k = Some v → f k v = g k v) → map_sum f m = map_sum g m.
Proof.
  induction m as [|k v m Hk IH] using map_ind; intros Hfg.
  - by rewrite !map_sum_empty.
  - rewrite !map_sum_insert_new by done. rewrite (Hfg k v) by apply lookup_insert_eq.
    rewrite IH; [done|]. intros k' v' Hk'. apply Hfg.
    rewrite lookup_insert_ne; [done|]. intros ->. congruence.
Qed.

Lemma map_sum_nonneg f m :
  (∀ k v, m !! k = Some v → 0 ≤ f k v) → 0 ≤ map_sum f m.
Proof.
  induction m as [|k v m Hk IH] using map_ind; intros Hf.
  - by rewrite map_sum_empty.
  - rewrite map_sum_insert_new by done.
    pose proof (Hf k v (lookup_insert_eq _ _ _)).
    enough (0 ≤ map_sum f m) by lia. apply IH. intros k' v' Hk'. apply Hf.
    rewrite lookup_insert_ne; [done|]. intros ->. congruence.
Qed.

Lemma map_sum_zero f m : (∀ k v, m !! k = Some v → f k v = 0) → map_sum f m = 0.
Proof.
  induction m as [|k v m Hk IH] using map_ind; intros Hf; [apply map_sum_empty|].
  rewrite map_sum_insert_new, (Hf k v) by (done || apply lookup_insert_eq). apply IH. intros k' v' Hk'. apply (Hf k').
  rewrite lookup_insert_ne; [done|]. intros ->. congruence.
Qed.

Lemma at_key_le_map_sum f m k :
  (∀ k v, m !! k = Some v → 0 ≤ f k v) → at_key f m k ≤ map_sum f m.
Proof.
  intros Hf. pose proof (map_sum_delete f m k) as Hd.
  enough (0 ≤ map_sum f (delete k m)) by lia.
  apply map_sum_nonneg. intros k' v' [_ Hk']%lookup_delete_Some. by apply (Hf k').
Qed.

(** Two sums that differ at one key only. *)
Lemma map_sum_change f g m k :
  (∀ k' v, k' ≠ k → f k' v = g k' v) → map_sum f m = map_sum g m + at_key f m k - at_key g m k.
Proof.
  intros Hfg. pose proof (map_sum_delete f m k) as Hf. pose proof (map_sum_delete g m k) as Hg.
  rewrite (map_sum_ext f g) in Hf; [lia|].
  intros k' v' [Hk' _]%lookup_delete_Some. by apply Hfg.
Qed.

End MapSum.

(** ** Sums over lists *)
Section ListSum.
Context {A : Type}.
Implicit Types (l : list A) (f : A → Z).

Definition list_sum f l : Z := foldr (λ x acc, f x + acc) 0 l.

Lemma list_sum_nil f : list_sum f [] = 0.
Proof. done. Qed.

Lemma list_sum_cons f x l : list_sum f (x :: l) = f x + list_sum f l.
Proof. done. Qed.

Lemma list_sum_app f l1 l2 : list_sum f (l1 ++ l2) = list_sum f l1 + list_sum f l2.
Proof. induction l1 as [|x l1 IH]; simpl; [done|]. rewrite IH. lia. Qed.

Lemma list_sum_nonneg f l : Forall (λ x, 0 ≤ f x) l → 0 ≤ list_sum f l.
Proof. induction 1; simpl; lia. Qed.

Lemma list_sum_ext f g l : (∀ x, x ∈ l → f x = g x) → list_sum f l = list_sum g l.
Proof.
  induction l as [|x l IH]; intros Hfg; [done|]. simpl.
  rewrite Hfg by set_solver. rewrite IH; [done|]. set_solver.
Qed.

Lemma list_sum_insert f l i x y :
  l !! i = Some x → list_sum f (<[i:=y]> l) = list_sum f l - f x + f y.
Proof.
  revert i. induction l as [|z l IH]; intros [|i] Hi; simplify_eq/=; [lia|].
  rewrite (IH i) by done. lia.
Qed.

End ListSum.

(** ** Fallible computations: [Result<A, E>] *)
Inductive result (E A : Type) := Ok (a : A) | Err (err : E).
Arguments Ok {_ _} _.
Arguments Err {_ _} _.

Definition result_bind {E A B} (r : result E A) (k : A → result E B) : result E B :=
  match r with Ok a => k a | Err err => Err err end.
(** [o.ok_or(err)] *)
Definition option_ok_or {E A} (o : option A) (err : E) : result E A :=
  match o with Some a => Ok a | None => Err err end.

Notation "'let?' x := r 'in' k" := (result_bind r (λ x, k))
  (at level 10, x name, r at level 100, k at level 200).

Lemma result_bind_Ok {E A B} (r : result E A) (k : A → result E B) b :
  result_bind r k = Ok b ↔ ∃ a, r = Ok a ∧ k a = Ok b.
Proof. destruct r; naive_solver. Qed.

Lemma Ok_inj {E A} (x y : A) : (Ok x : result E A) = Ok y → x = y.
Proof. by intros [=]. Qed.

Lemma option_ok_or_Ok {E A} (o : option A) (err : E) a :
  option_ok_or o err = Ok a ↔ o = Some a.
Proof. destruct o; naive_solver. Qed.

(** ** Pointwise changes of a function

    [bumped f f' k n]: [f'] is [f] with [n] more at [k].  [at_most_drops f f' k n]:
    [f'] is at least [f] with [n] less at [k]. *)
Definition bumped {K} `{EqDecision K} (f f' : K → Z) (k : K) (n : Z) : Prop :=
  ∀ x, f' x = f x + (if bool_decide (x = k) then n else 0).
Definition at_most_drops {K} `{EqDecision K} (f f' : K → Z) (k : K) (n : Z) : Prop :=
  ∀ x, f x - (if bool_decide (x = k) then n else 0) ≤ f' x.

Lemma at_most_drops_trans {K} `{EqDecision K} (f g h : K → Z) k m n :
  at_most_drops f g k m → at_most_drops g h k n → at_most_drops f h k (m + n).
Proof.
  intros H1 H2 x. specialize (H1 x). specialize (H2 x). case_bool_decide; lia.
Qed.

(** The boolean test [x ∈ l] of [Vec::contains]. *)
Definition contains {A} `{EqDecision A} (l : list A) (x : A) : bool := bool_decide (x ∈ l).

Lemma contains_true {A} `{EqDecision A} (l : list A) x : contains l x = true ↔ x ∈ l.
Proof. apply bool_decide_eq_true. Qed.
