(* ===== verification/Machine.v ===== *)
(** * Machine integers

    The contracts compute on [u32], [u64], [u128], [i64] and [i128].  An integer is a
    [Z] and the width is written out where the code meets it: the [checked_*]
    methods of the Rust standard library return [None] outside the range of the
    type, the plain operators panic there (the workspace is compiled with
    [overflow-checks = true]), and [as] casts wrap.  [/] and [%] truncate
    toward zero.  Big-endian encodings ([to_be_bytes]) close the file. *)
From S2P Require Import Prelude.

Definition u32_max : Z := 4294967295.
Definition u64_max : Z := 18446744073709551615.
Definition u128_max : Z := 340282366920938463463374607431768211455.
Definition i64_max : Z := 9223372036854775807.
Definition i64_min : Z := -9223372036854775808.
Definition i128_max : Z := 170141183460469231731687303715884105727.
Definition i128_min : Z := -170141183460469231731687303715884105728.

(** [x] clipped to a range: the common shape of the [checked_*] methods. *)
Definition in_range (lo hi x : Z) : bool := (lo <=? x) && (x <=? hi).
Definition checked (lo hi x : Z) : option Z := if in_range lo hi x then Some x else None.

Abbreviation u32 := (in_range 0 u32_max) (only parsing).
Abbreviation u64 := (in_range 0 u64_max) (only parsing).
Abbreviation i128 := (in_range i128_min i128_max) (only parsing).

Definition checked_add_u32 (a b : Z) : option Z := checked 0 u32_max (a + b).
Definition checked_sub_u32 (a b : Z) : option Z := checked 0 u32_max (a - b).
Definition checked_add_u64 (a b : Z) : option Z := checked 0 u64_max (a + b).
Definition checked_sub_u64 (a b : Z) : option Z := checked 0 u64_max (a - b).
Definition checked_mul_u64 (a b : Z) : option Z := checked 0 u64_max (a * b).
Definition checked_add_i64 (a b : Z) : option Z := checked i64_min i64_max (a + b).
Definition checked_sub_i64 (a b : Z) : option Z := checked i64_min i64_max (a - b).
Definition checked_mul_i64 (a b : Z) : option Z := checked i64_min i64_max (a * b).
Definition checked_add_i128 (a b : Z) : option Z := checked i128_min i128_max (a + b).
Definition checked_sub_i128 (a b : Z) : option Z := checked i128_min i128_max (a - b).
Definition checked_mul_i128 (a b : Z) : option Z := checked i128_min i128_max (a * b).
Definition checked_mul_u128 (a b : Z) : option Z := checked 0 u128_max (a * b).
Definition checked_sub_u128 (a b : Z) : option Z := checked 0 u128_max (a - b).
Definition saturating_sub_u32 (a b : Z) : Z := Z.max 0 (a - b).
Definition saturating_add_u32 (a b : Z) : Z := Z.min u32_max (a + b).
Definition saturating_add_u64 (a b : Z) : Z := Z.min u64_max (a + b).
Definition saturating_sub_u64 (a b : Z) : Z := Z.max 0 (a - b).
Definition saturating_mul_u64 (a b : Z) : Z := Z.min u64_max (a * b).

(** [checked_div] of [i128]: [None] for a zero divisor and for [MIN / -1]. *)
Definition checked_div_i128 (a b : Z) : option Z :=
  if b =? 0 then None else checked i128_min i128_max (Z.quot a b).
(** [checked_div] of [u128]. *)
Definition checked_div_u128 (a b : Z) : option Z := if b =? 0 then None else Some (Z.quot a b).

(** [/] on [u64] traps on a zero divisor. *)
Definition checked_div_u64 (a b : Z) : option Z := if b =? 0 then None else Some (Z.quot a b).

(** The [as] casts between [i128] and [u128] reinterpret the two's complement
    bits. *)
Definition as_u128 (x : Z) : Z := x mod (u128_max + 1).
Definition as_i128 (x : Z) : Z :=
  let y := x mod (u128_max + 1) in if y <=? i128_max then y else y - (u128_max + 1).

(** [as i32] of an [i64] keeps the low bits. *)
Definition as_i32 (x : Z) : Z :=
  let y := x mod (u32_max + 1) in if y <=? 2147483647 then y else y - (u32_max + 1).

(** [as u32] keeps the low bits; [as i64] reinterprets a [u64]. *)
Definition as_u32 (x : Z) : Z := x mod (u32_max + 1).
Definition as_i64 (x : Z) : Z :=
  let y := x mod (u64_max + 1) in if y <=? i64_max then y else y - (u64_max + 1).

Lemma in_range_iff lo hi x : in_range lo hi x = true ↔ lo ≤ x ≤ hi.
Proof. unfold in_range. rewrite andb_true_iff, Z.leb_le, Z.leb_le. done. Qed.

Lemma checked_Some lo hi x y : checked lo hi x = Some y ↔ y = x ∧ lo ≤ x ≤ hi.
Proof.
  unfold checked. destruct (in_range lo hi x) eqn:Hx.
  - apply in_range_iff in Hx. split; [by intros [= ->]|by intros [-> _]].
  - split; [done|]. intros [_ Hr%in_range_iff]. congruence.
Qed.

Lemma checked_None lo hi x : checked lo hi x = None ↔ ¬ (lo ≤ x ≤ hi).
Proof.
  unfold checked. rewrite <-in_range_iff. by destruct (in_range lo hi x).
Qed.

Lemma checked_in lo hi x : lo ≤ x ≤ hi → checked lo hi x = Some x.
Proof. intros. by apply checked_Some. Qed.

Lemma as_u128_small x : 0 ≤ x ≤ u128_max → as_u128 x = x.
Proof. intros. unfold as_u128. apply Z.mod_small. lia. Qed.

Lemma as_i128_small x : 0 ≤ x ≤ i128_max → as_i128 x = x.
Proof.
  intros. unfold as_i128. rewrite Z.mod_small by (unfold u128_max, i128_max in *; lia).
  by rewrite (proj2 (Z.leb_le _ _)) by lia.
Qed.

Lemma as_i64_small x : 0 ≤ x ≤ i64_max → as_i64 x = x.
Proof.
  intros. unfold as_i64. rewrite Z.mod_small by (unfold u64_max, i64_max in *; lia).
  by rewrite (proj2 (Z.leb_le _ _)) by lia.
Qed.

Lemma as_i32_small x : -2147483648 ≤ x ≤ 2147483647 → as_i32 x = x.
Proof.
  intros. unfold as_i32, u32_max. destruct (Z.leb_spec (x mod (4294967295 + 1)) 2147483647);
    Z.div_mod_to_equations; lia.
Qed.

Lemma as_u32_small x : 0 ≤ x ≤ u32_max → as_u32 x = x.
Proof. intros. unfold as_u32. apply Z.mod_small. lia. Qed.

Lemma checked_div_u64_Some a b : 0 ≤ a → 0 < b → checked_div_u64 a b = Some (a / b).
Proof.
  intros. unfold checked_div_u64. rewrite (proj2 (Z.eqb_neq _ _)) by lia.
  by rewrite Z.quot_div_nonneg by lia.
Qed.

(** Expose the bounds behind successful checked operations; [range_lia] is [lia]
    knowing the numeric values of the bounds. *)
Ltac unfold_ops :=
  unfold checked_add_u32, checked_sub_u32, checked_add_u64, checked_sub_u64, checked_mul_u64, checked_add_i64, checked_sub_i64, checked_mul_i64, checked_add_i128,
    checked_sub_i128, checked_mul_i128,
    checked_mul_u128, checked_sub_u128 in *.
Ltac checked_prop :=
  unfold_ops;
  repeat match goal with
  | H : checked _ _ _ = Some _ |- _ => apply checked_Some in H; destruct H as [-> H]
  | H : checked _ _ _ = None |- _ => apply checked_None in H
  | H : in_range _ _ _ = true |- _ => apply in_range_iff in H
  end.
Ltac range_lia :=
  unfold u32_max, u64_max, u128_max, i64_max, i64_min, i128_max, i128_min in *; lia.

(** ** Truncated division of non-negative numbers *)

Lemma quot_floor a b : 0 ≤ a → 0 < b → Z.quot a b = a / b.
Proof. intros. apply Z.quot_div_nonneg; lia. Qed.

Lemma rem_mod a b : 0 ≤ a → 0 < b → Z.rem a b = a mod b.
Proof. intros. apply Z.rem_mod_nonneg; lia. Qed.

Lemma bps_share_bounds amount bps :
  0 ≤ amount → 0 ≤ bps ≤ 10000 → 0 ≤ amount * bps / 10000 ≤ amount.
Proof. intros. split; [apply Z.div_pos; nia|]. apply Z.div_le_upper_bound; nia. Qed.

(** ** Big-endian encodings *)

(** The [n] bytes of [x], most significant first, each byte a number below 256. *)
Fixpoint be_bytes (n : nat) (x : Z) : list Z :=
  match n with
  | O => []
  | S n' => be_bytes n' (x / 256) ++ [x mod 256]
  end.

(** [to_be_bytes] of a signed type encodes the two's complement bits. *)
Definition be_i128 (x : Z) : list Z := be_bytes 16 (as_u128 x).

Definition of_be_bytes (l : list Z) : Z := foldl (λ acc b, acc * 256 + b) 0 l.

Lemma length_be_bytes n x : length (be_bytes n x) = n.
Proof.
  revert x. induction n as [|n IH]; intros x; simpl; [done|].
  rewrite length_app, IH. simpl. lia.
Qed.

Lemma of_be_bytes_be_bytes n x : of_be_bytes (be_bytes n x) = x mod 256 ^ Z.of_nat n.
Proof.
  revert x. induction n as [|n IH]; intros x.
  - by rewrite Z.mod_1_r.
  - simpl be_bytes. unfold of_be_bytes in *. rewrite foldl_app, IH. simpl.
    rewrite Nat2Z.inj_succ, Z.pow_succ_r by lia.
    rewrite Z.rem_mul_r by (try apply Z.pow_nonzero; lia). lia.
Qed.

Lemma be_bytes_inj n x y :
  0 ≤ x < 256 ^ Z.of_nat n → 0 ≤ y < 256 ^ Z.of_nat n →
  be_bytes n x = be_bytes n y → x = y.
Proof.
  intros Hx Hy Heq. apply (f_equal of_be_bytes) in Heq.
  rewrite !of_be_bytes_be_bytes, !Z.mod_small in Heq by done. done.
Qed.

Lemma as_u128_inj x y :
  i128_min ≤ x ≤ i128_max → i128_min ≤ y ≤ i128_max → as_u128 x = as_u128 y → x = y.
Proof.
  unfold as_u128. intros Hx Hy Heq.
  apply (f_equal (λ z, z - (x mod (u128_max + 1)))) in Heq.
  rewrite !(Z.mod_eq _ (u128_max + 1)) in Heq by (unfold u128_max; lia).
  unfold u128_max, i128_max, i128_min in *.
  assert (x / 340282366920938463463374607431768211456 = 0 ∨
          x / 340282366920938463463374607431768211456 = -1) by
    (Z.div_mod_to_equations; lia).
  assert (y / 340282366920938463463374607431768211456 = 0 ∨
          y / 340282366920938463463374607431768211456 = -1) by
    (Z.div_mod_to_equations; lia).
  lia.
Qed.

Lemma be_i128_inj x y :
  i128_min ≤ x ≤ i128_max → i128_min ≤ y ≤ i128_max → be_i128 x = be_i128 y → x = y.
Proof.
  intros Hx Hy Heq. apply as_u128_inj; [done..|].
  apply (be_bytes_inj 16); [| |exact Heq];
    unfold as_u128, u128_max; apply Z.mod_pos_bound; lia.
Qed.

(** The bytes of a string literal [b"..."]. *)
Definition str_bytes (s : string) : list Z :=
  (λ a, Z.of_N (Ascii.N_of_ascii a)) <$> String.list_ascii_of_string s.

(** Cancel a fixed-width field at the front of two encodings. *)
Lemma be_app_inj n x y (k l : list Z) :
  0 ≤ x < 256 ^ Z.of_nat n → 0 ≤ y < 256 ^ Z.of_nat n →
  be_bytes n x ++ k = be_bytes n y ++ l → x = y ∧ k = l.
Proof.
  intros Hx Hy Heq. apply app_inj_1 in Heq as [Heq ->]; [|by rewrite !length_be_bytes].
  split; [by apply (be_bytes_inj n)|done].
Qed.

Lemma be_i128_app_inj x y (k l : list Z) :
  i128_min ≤ x ≤ i128_max → i128_min ≤ y ≤ i128_max →
  be_i128 x ++ k = be_i128 y ++ l → x = y ∧ k = l.
Proof.
  intros Hx Hy Heq. apply app_inj_1 in Heq as [Heq ->];
    [|by unfold be_i128; rewrite !length_be_bytes].
  split; [by apply be_i128_inj|done].
Qed.
