(* ===== verification/Host.v ===== *)
(** * The contract host

    A Soroban contract runs inside a host that gives it a ledger timestamp, the
    set of addresses that authorised the invocation, key-value storage and an
    event stream, and that discards every effect of an invocation that returns
    an error or traps.  A contract entry point is an action of the state monad
    [Contract]: it reads the environment, threads a [World] (external token
    ledger, own storage, event log) and ends with a value, a contract error or
    a trap (a panic).  An action that fails still carries the world it reached:
    only [invoke], the host's boundary, restores the world before the call. *)
From S2P Require Import Prelude Machine.

(** ** Identities *)

(** An account or contract address. *)
Record Address := addr { addr_id : N }.

#[export] Instance Address_eq_dec : EqDecision Address.
Proof. solve_decision. Defined.
#[export] Instance Address_countable : Countable Address.
Proof. apply (inj_countable' addr_id addr). by intros []. Defined.

(** A [BytesN<32>] is the 256-bit number its bytes write big-endian; a [Symbol]
    is its text. *)
Abbreviation BytesN32 := Z (only parsing).
Abbreviation Symbol := string (only parsing).
Abbreviation Bytes := (list Z) (only parsing).

Definition bytes32 (x : BytesN32) : bool := in_range 0 (2 ^ 256 - 1) x.
Definition to_array (x : BytesN32) : Bytes := be_bytes 32 x.

(** ** Environment, world and actions *)

Record Env := mkEnvAt {
  timestamp : Z;               (* env.ledger().timestamp() *)
  self : Address;              (* env.current_contract_address() *)
  authorized : Address → bool; (* whose authorisation the invocation carries *)
  ledger_sequence : Z;         (* env.ledger().sequence() *)
  network : BytesN32           (* env.ledger().network_id() *)
}.
(** For contracts that read neither the ledger's number nor the network. *)
Abbreviation mkEnv t s a := (mkEnvAt t s a 0 0).

Record World (L S Ev : Type) := mkWorld { ledger : L; store : S; log : list Ev }.
Arguments mkWorld {_ _ _} _ _ _.
Arguments ledger {_ _ _} _.
Arguments store {_ _ _} _.
Arguments log {_ _ _} _.

Inductive outcome (W E A : Type) :=
| Done (w : W) (a : A)
| Failed (w : W) (err : E)
| Trapped.
Arguments Done {_ _ _} _ _.
Arguments Failed {_ _ _} _ _.
Arguments Trapped {_ _ _}.

Definition Contract (L S Ev E A : Type) : Type :=
  Env → World L S Ev → outcome (World L S Ev) E A.

Section Actions.
Context {L S Ev E : Type}.
Abbreviation M := (Contract L S Ev E).

Definition ret {A} (a : A) : M A := λ _ w, Done w a.
Definition fail {A} (err : E) : M A := λ _ w, Failed w err.
Definition trap {A} : M A := λ _ _, Trapped.
Definition bind {A B} (m : M A) (k : A → M B) : M B := λ e w,
  match m e w with
  | Done w' a => k a e w'
  | Failed w' err => Failed w' err
  | Trapped => Trapped
  end.

(** [if c { return Err(err) }] *)
Definition reject_if (c : bool) (err : E) : M unit := if c then fail err else ret tt.
(** [o.ok_or(err)?] *)
Definition ok_or {A} (o : option A) (err : E) : M A :=
  match o with Some a => ret a | None => fail err end.
(** [r?] for a pure fallible call with the same error type. *)
Definition lift {A} (r : result E A) : M A :=
  match r with Ok a => ret a | Err err => fail err end.
(** An arithmetic operator compiled with overflow checks, or [unwrap]. *)
Definition or_trap {A} (o : option A) : M A :=
  match o with Some a => ret a | None => trap end.

Definition now : M Z := λ e w, Done w (timestamp e).
Definition me : M Address := λ e w, Done w (self e).
Definition ledger_number : M Z := λ e w, Done w (ledger_sequence e).
Definition network_id : M BytesN32 := λ e w, Done w (network e).
(** Reading and writing the contract's own storage. *)
Definition load {A} (f : S → A) : M A := λ _ w, Done w (f (store w)).
Definition save (f : S → S) : M unit := λ _ w,
  Done (mkWorld (ledger w) (f (store w)) (log w)) tt.
(** Reading the state of other contracts: a cross-contract call that changes nothing. *)
Definition consult {A} (f : L → A) : M A := λ _ w, Done w (f (ledger w)).
(** [env.events().publish(..)] *)
Definition publish (ev : Ev) : M unit := λ _ w,
  Done (mkWorld (ledger w) (store w) (log w ++ [ev])) tt.
(** [a.require_auth()]: traps unless [a] authorised the invocation. *)
Definition require_auth (a : Address) : M unit := λ e w,
  if authorized e a then Done w tt else Trapped.

(** The admin check the contracts share: the stored admin, the comparison,
    the authorisation. *)
Definition require_admin_of (get : S → option Address) (not_init not_admin : E)
    (caller : Address) : M unit :=
  bind (load get) (λ o,
  bind (ok_or o not_init) (λ admin,
  bind (reject_if (negb (bool_decide (caller = admin))) not_admin) (λ _,
  require_auth caller))).

(** An entry point whose value the caller drops. *)
Definition ignore {A} (m : M A) : M unit := bind m (λ _, ret tt).

(** [for x in l { acc = body(x, acc)?; }] *)
Fixpoint for_in {A B} (l : list A) (acc : B) (body : A → B → M B) : M B :=
  match l with
  | [] => ret acc
  | x :: l => bind (body x acc) (λ acc, for_in l acc body)
  end.

(** ** The invocation boundary *)

Inductive response (A : Type) := Returned (a : A) | Errored (err : E) | Panicked.

Definition invoke {A} (m : M A) (e : Env) (w : World L S Ev) :
    World L S Ev * response A :=
  match m e w with
  | Done w' a => (w', Returned A a)
  | Failed _ err => (w, Errored A err)
  | Trapped => (w, Panicked A)
  end.

Lemma invoke_returned {A} (m : M A) e w w' a :
  invoke m e w = (w', Returned A a) ↔ m e w = Done w' a.
Proof. unfold invoke. destruct (m e w); naive_solver. Qed.

Lemma invoke_pair {A} (m : M A) e w r : (invoke m e w).2 = r → invoke m e w = ((invoke m e w).1, r).
Proof. intros <-. apply surjective_pairing. Qed.

Lemma invoke_rollback {A} (m : M A) e w w' r :
  invoke m e w = (w', r) → (∀ a, r ≠ Returned A a) → w' = w.
Proof. unfold invoke. destruct (m e w); naive_solver. Qed.

(** Inversion of a successful run, one lemma per primitive. *)
Lemma bind_done {A B} (m : M A) (k : A → M B) e w w' b :
  bind m k e w = Done w' b ↔ ∃ w1 a, m e w = Done w1 a ∧ k a e w1 = Done w' b.
Proof. unfold bind. destruct (m e w); naive_solver. Qed.

Lemma ret_done {A} (a : A) e w w' b :
  (ret a : M A) e w = Done w' b ↔ w' = w ∧ b = a.
Proof. unfold ret. naive_solver. Qed.

Lemma reject_if_done c err e w w' u :
  (reject_if c err : M unit) e w = Done w' u ↔ c = false ∧ w' = w.
Proof. destruct c, u; unfold reject_if, ret, fail; naive_solver. Qed.

Lemma ok_or_done {A} (o : option A) err e w w' a :
  (ok_or o err : M A) e w = Done w' a ↔ o = Some a ∧ w' = w.
Proof. destruct o; unfold ok_or, ret, fail; naive_solver. Qed.

Lemma lift_done {A} (r : result E A) e w w' a :
  (lift r : M A) e w = Done w' a ↔ r = Ok a ∧ w' = w.
Proof. destruct r; unfold lift, ret, fail; naive_solver. Qed.

Lemma or_trap_done {A} (o : option A) e w w' a :
  (or_trap o : M A) e w = Done w' a ↔ o = Some a ∧ w' = w.
Proof. destruct o; unfold or_trap, ret, trap; naive_solver. Qed.

Lemma load_done {A} (f : S → A) e w w' a :
  (load f : M A) e w = Done w' a ↔ a = f (store w) ∧ w' = w.
Proof. unfold load. naive_solver. Qed.

Lemma consult_done {A} (f : L → A) e w w' a :
  (consult f : M A) e w = Done w' a ↔ a = f (ledger w) ∧ w' = w.
Proof. unfold consult. naive_solver. Qed.

Lemma now_done e w w' a : (now : M Z) e w = Done w' a ↔ a = timestamp e ∧ w' = w.
Proof. unfold now. naive_solver. Qed.

Lemma me_done e w w' a : (me : M Address) e w = Done w' a ↔ a = self e ∧ w' = w.
Proof. unfold me. naive_solver. Qed.

Lemma ledger_number_done e w w' a :
  (ledger_number : M Z) e w = Done w' a ↔ a = ledger_sequence e ∧ w' = w.
Proof. unfold ledger_number. naive_solver. Qed.

Lemma network_id_done e w w' a :
  (network_id : M BytesN32) e w = Done w' a ↔ a = network e ∧ w' = w.
Proof. unfold network_id. naive_solver. Qed.

Lemma save_done f e w w' u :
  (save f : M unit) e w = Done w' u ↔ w' = mkWorld (ledger w) (f (store w)) (log w).
Proof. unfold save. destruct u. naive_solver. Qed.

Lemma publish_done ev e w w' u :
  (publish ev : M unit) e w = Done w' u ↔ w' = mkWorld (ledger w) (store w) (log w ++ [ev]).
Proof. unfold publish. destruct u. naive_solver. Qed.

Lemma require_auth_done a e w w' u :
  (require_auth a : M unit) e w = Done w' u ↔ authorized e a = true ∧ w' = w.
Proof. unfold require_auth. destruct (authorized e a), u; naive_solver. Qed.

Lemma require_admin_of_done get ni na caller e w w' u :
  (require_admin_of get ni na caller : M unit) e w = Done w' u ↔
    get (store w) = Some caller ∧ authorized e caller = true ∧ w' = w.
Proof.
  unfold require_admin_of, load, bind, ok_or, reject_if, ret, fail, require_auth.
  destruct u, (get (store w)) as [a|]; simpl; [|naive_solver].
  case_bool_decide; simpl; [|naive_solver].
  destruct (authorized e caller); naive_solver.
Qed.
End Actions.
Arguments Returned {_ _} _.
Arguments Errored {_ _} _.
Arguments Panicked {_ _}.

Declare Scope contract_scope.
Delimit Scope contract_scope with contract.
Notation "x <- m ;; k" := (bind m (λ x, k))
  (at level 100, m at next level, right associativity) : contract_scope.
Notation "m ;;; k" := (bind m (λ _, k))
  (at level 100, right associativity) : contract_scope.
#[global] Open Scope contract_scope.

Ltac is_constructor_unit x := match x with tt => idtac end.

(** Take a successful run apart, primitive by primitive, leaving the guards as
    hypotheses and the final world in terms of the first. *)
Ltac run_inv :=
  repeat match goal with
  | H : bind _ _ _ _ = Done _ _ |- _ =>
      let w1 := fresh "w" in let a := fresh "x" in let H1 := fresh "Hrun" in
      apply bind_done in H as (w1 & a & H1 & H)
  | H : ret _ _ _ = Done _ _ |- _ =>
      let Hr := fresh "Hret" in apply ret_done in H as [-> Hr];
      match type of Hr with
      | ?x = _ => first [subst x | is_constructor_unit x; clear Hr | idtac]
      end
  | H : reject_if _ _ _ _ = Done _ _ |- _ => apply reject_if_done in H as [H ->]
  | H : ok_or _ _ _ _ = Done _ _ |- _ => apply ok_or_done in H as [H ->]
  | H : lift _ _ _ = Done _ _ |- _ => apply lift_done in H as [H ->]
  | H : or_trap _ _ _ = Done _ _ |- _ => apply or_trap_done in H as [H ->]
  | H : require_auth _ _ _ = Done _ _ |- _ => apply require_auth_done in H as [H ->]
  | H : require_admin_of _ _ _ _ _ _ = Done _ _ |- _ =>
      let Ha := fresh "Hadmin" in apply require_admin_of_done in H as (Ha & H & ->)
  | H : now _ _ = Done _ _ |- _ => apply now_done in H as [-> ->]
  | H : me _ _ = Done _ _ |- _ => apply me_done in H as [-> ->]
  | H : ledger_number _ _ = Done _ _ |- _ => apply ledger_number_done in H as [-> ->]
  | H : network_id _ _ = Done _ _ |- _ => apply network_id_done in H as [-> ->]
  | H : load _ _ _ = Done _ _ |- _ => apply load_done in H as [-> ->]
  | H : consult _ _ _ = Done _ _ |- _ => apply consult_done in H as [-> ->]
  | H : save _ _ _ = Done _ _ |- _ => apply save_done in H as ->
  | H : publish _ _ _ = Done _ _ |- _ => apply publish_done in H as ->
  | H : fail _ _ _ = Done _ _ |- _ => discriminate H
  | H : trap _ _ = Done _ _ |- _ => discriminate H
  | u : unit |- _ => destruct u
  end.

(** ** Running an action forward

    [run_fwd] executes the leading primitives of a goal [m e w = r], deciding each guard
    from the hypotheses; the hints of [contract] say how each primitive succeeds. *)
Section Forward.
Context {L S Ev E : Type}.
Abbreviation M := (Contract L S Ev E).
Implicit Types (e : Env) (w : World L S Ev).

Lemma bind_run {A B} (m : M A) (k : A → M B) e w w1 a r :
  m e w = Done w1 a → k a e w1 = r → bind m k e w = r.
Proof. intros Hm Hk. unfold bind. by rewrite Hm. Qed.

Lemma bind_bind_run {A B C} (m : M A) (k : A → M B) (k' : B → M C) e w r :
  bind m (λ x, bind (k x) k') e w = r → bind (bind m k) k' e w = r.
Proof. intros <-. unfold bind. by destruct (m e w). Qed.

Lemma ret_run {A} (a : A) e w : (ret a : M A) e w = Done w a.
Proof. done. Qed.

Lemma reject_if_run c err e w : c = false → (reject_if c err : M unit) e w = Done w tt.
Proof. by intros ->. Qed.

Lemma ok_or_run {A} (o : option A) err e w a :
  o = Some a → (ok_or o err : M A) e w = Done w a.
Proof. by intros ->. Qed.

Lemma lift_run {A} (r : result E A) e w a : r = Ok a → (lift r : M A) e w = Done w a.
Proof. by intros ->. Qed.

Lemma or_trap_run {A} (o : option A) e w a : o = Some a → (or_trap o : M A) e w = Done w a.
Proof. by intros ->. Qed.

Lemma load_run {A} (f : S → A) e w : (load f : M A) e w = Done w (f (store w)).
Proof. done. Qed.

Lemma consult_run {A} (f : L → A) e w : (consult f : M A) e w = Done w (f (ledger w)).
Proof. done. Qed.

Lemma now_run e w : (now : M Z) e w = Done w (timestamp e).
Proof. done. Qed.

Lemma me_run e w : (me : M Address) e w = Done w (self e).
Proof. done. Qed.

Lemma ledger_number_run e w : (ledger_number : M Z) e w = Done w (ledger_sequence e).
Proof. done. Qed.

Lemma network_id_run e w : (network_id : M BytesN32) e w = Done w (network e).
Proof. done. Qed.

Lemma save_run f e w :
  (save f : M unit) e w = Done (mkWorld (ledger w) (f (store w)) (log w)) tt.
Proof. done. Qed.

Lemma publish_run ev e w :
  (publish ev : M unit) e w = Done (mkWorld (ledger w) (store w) (log w ++ [ev])) tt.
Proof. done. Qed.

Lemma require_auth_run a e w :
  authorized e a = true → (require_auth a : M unit) e w = Done w tt.
Proof. intros Ha. unfold require_auth. by rewrite Ha. Qed.

Lemma require_admin_of_run get ni na caller e w :
  get (store w) = Some caller → authorized e caller = true →
  (require_admin_of get ni na caller : M unit) e w = Done w tt.
Proof. intros. by apply require_admin_of_done. Qed.

(** The first failing guard decides the error. *)
Lemma bind_fail {A B} (m : M A) (k : A → M B) e w w1 err :
  m e w = Failed w1 err → bind m k e w = Failed w1 err.
Proof. intros Hm. unfold bind. by rewrite Hm. Qed.

Lemma reject_if_fail c err e w : c = true → (reject_if c err : M unit) e w = Failed w err.
Proof. by intros ->. Qed.

Lemma invoke_fail {A} (m : M A) e w w' err :
  m e w = Failed w' err → invoke m e w = (w, Errored err).
Proof. intros Hm. unfold invoke. by rewrite Hm. Qed.

Lemma invoke_run {A} (m : M A) e w w' a :
  m e w = Done w' a → invoke m e w = (w', Returned a).
Proof. by intros Hm%invoke_returned. Qed.
End Forward.

#[export] Hint Resolve ret_run reject_if_run ok_or_run lift_run or_trap_run load_run consult_run now_run
  me_run ledger_number_run network_id_run save_run publish_run require_auth_run require_admin_of_run bind_fail reject_if_fail : contract.

(** Decide a boolean guard of the code from the hypotheses. *)
Ltac decide_guard :=
  simpl;
  repeat match goal with
  | |- (_ || _) = false => apply orb_false_intro
  | |- negb _ = false => apply negb_false_iff
  | |- negb _ = true => apply negb_true_iff
  | |- bool_decide _ = true => apply bool_decide_eq_true_2
  | |- bool_decide _ = false => apply bool_decide_eq_false_2
  | |- (_ <? _) = false => apply Z.ltb_ge
  | |- (_ <=? _) = false => apply Z.leb_gt
  | |- (_ <? _) = true => apply Z.ltb_lt
  | |- (_ <=? _) = true => apply Z.leb_le
  | |- (_ =? _) = true => apply Z.eqb_eq
  | |- (_ =? _) = false => apply Z.eqb_neq
  end;
  first [done | lia | congruence | by intros ->].

#[export] Hint Extern 0 (_ = Ok _) => first [eassumption | reflexivity] : contract.
#[export] Hint Extern 1 (_ = false) => decide_guard : contract.
#[export] Hint Extern 1 (_ = true) => decide_guard : contract.
#[export] Hint Extern 1 (_ = Some _) =>
  first [eassumption | simpl; eassumption | unfold_ops; simpl; apply checked_in; range_lia]
  : contract.

Ltac run_fwd :=
  cbv beta zeta;
  repeat first [ eapply bind_run; [solve [eauto 3 with contract nocore]|cbv beta zeta]
               | apply bind_bind_run; cbv beta zeta ];
  try solve [eauto 3 with contract nocore].

(** ** Calls that never trap

    [safe m e w]: run from [w], the action returns or fails with a contract error.  [safe_step]
    walks the leading actions of a goal, keeping what each has established. *)
Section Safe.
Context {L S Ev E : Type}.
Abbreviation M := (Contract L S Ev E).

Definition safe {A} (m : M A) (e : Env) (w : World L S Ev) : Prop := m e w ≠ Trapped.

Lemma bind_safe {A B} (m : M A) (k : A → M B) e w :
  safe m e w → (∀ w' a, m e w = Done w' a → safe (k a) e w') → safe (bind m k) e w.
Proof. unfold safe, bind. intros Hm Hk. destruct (m e w) eqn:Hw; naive_solver. Qed.

Lemma ret_safe {A} (a : A) e w : safe (ret a : M A) e w.
Proof. done. Qed.
Lemma fail_safe {A} err e w : safe (fail err : M A) e w.
Proof. done. Qed.
Lemma reject_if_safe c err e w : safe (reject_if c err : M unit) e w.
Proof. by destruct c. Qed.
Lemma ok_or_safe {A} (o : option A) err e w : safe (ok_or o err : M A) e w.
Proof. by destruct o. Qed.
Lemma lift_safe {A} (r : result E A) e w : safe (lift r : M A) e w.
Proof. by destruct r. Qed.
Lemma load_safe {A} (f : S → A) e w : safe (load f : M A) e w.
Proof. done. Qed.
Lemma consult_safe {A} (f : L → A) e w : safe (consult f : M A) e w.
Proof. done. Qed.
Lemma now_safe e w : safe (now : M Z) e w.
Proof. done. Qed.
Lemma ledger_number_safe e w : safe (ledger_number : M Z) e w.
Proof. done. Qed.
Lemma save_safe f e w : safe (save f : M unit) e w.
Proof. done. Qed.
Lemma publish_safe ev e w : safe (publish ev : M unit) e w.
Proof. done. Qed.
Lemma or_trap_safe {A} (o : option A) e w : is_Some o → safe (or_trap o : M A) e w.
Proof. by intros [a ->]. Qed.

Lemma for_in_safe {A B} (l : list A) (acc : B) (body : A → B → M B) e w :
  (∀ x acc w, x ∈ l → safe (body x acc) e w) → safe (for_in l acc body) e w.
Proof.
  revert acc w. induction l as [|x l IH]; intros acc w Hb; [done|]. apply bind_safe.
  - apply Hb. by left.
  - intros w' acc' _. apply IH. intros y acc'' w'' Hy. apply Hb. by right.
Qed.

Lemma safe_response {A} (m : M A) e w : safe m e w → (invoke m e w).2 ≠ Panicked.
Proof. unfold safe, invoke. by destruct (m e w). Qed.
End Safe.

Create HintDb safe.
#[export] Hint Resolve ret_safe fail_safe reject_if_safe ok_or_safe lift_safe load_safe
  consult_safe now_safe ledger_number_safe save_safe publish_safe for_in_safe : safe.

Ltac safe_step :=
  cbv beta zeta;
  repeat (lazymatch goal with
          | |- safe (bind _ _) _ _ =>
              apply bind_safe;
              [solve [eauto 2 with safe nocore | safe_step]
              |let w := fresh "w" in let a := fresh "x" in let H := fresh "Hrun" in
               intros w a H; run_inv]
          end; cbv beta zeta);
  try solve [eauto 2 with safe nocore].

(** ** Transition systems

    A deployed contract evolves by invocations of its entry points, in any
    order, by any caller, at any time, and by changes of the external ledger
    that [rely] allows. *)
Section System.
Context {L S Ev E Call : Type}.
Context (exec : Call → Contract L S Ev E unit) (valid : Env → Call → Prop).
Context (address : Address) (rely : L → L → Prop) (init : World L S Ev → Prop).

Inductive reachable : World L S Ev → Prop :=
| reach_init w : init w → reachable w
| reach_call w c e :
    reachable w → self e = address → valid e c → reachable (invoke (exec c) e w).1
| reach_ledger w l :
    reachable w → rely (ledger w) l → reachable (mkWorld l (store w) (log w)).

(** An invariant is established initially, kept by every call that returns
    and by every change of the ledger; failed calls are rolled back. *)
Lemma reachable_inv (I : World L S Ev → Prop) :
  (∀ w, init w → I w) →
  (∀ c e w w' u, self e = address → valid e c → I w → exec c e w = Done w' u → I w') →
  (∀ w l, I w → rely (ledger w) l → I (mkWorld l (store w) (log w))) →
  ∀ w, reachable w → I w.
Proof.
  intros Hinit Hcall Hrely w. induction 1 as [w Hw|w c e Hr IH He Hv|w l Hr IH Hl].
  - by apply Hinit.
  - unfold invoke. destruct (exec c e w) as [w' u| |] eqn:Hx; simpl; [|done..].
    by apply (Hcall c e w w' u).
  - by apply Hrely.
Qed.

(** A sequence of invocations, each with its environment. *)
Definition run_calls (calls : list (Env * Call)) (w : World L S Ev) : World L S Ev :=
  foldl (λ w ec, (invoke (exec ec.2) ec.1 w).1) w calls.

Lemma reachable_run calls w :
  reachable w → Forall (λ ec, self ec.1 = address ∧ valid ec.1 ec.2) calls →
  reachable (run_calls calls w).
Proof.
  intros Hw Hcalls. revert w Hw. induction Hcalls as [|[e c] calls [He Hv] _ IH];
    intros w Hw; simpl; [done|]. by apply IH, reach_call.
Qed.

(** How many of the calls that [p] selects returned in a sequence of invocations. *)
Definition has_returned {A} (r : @response E A) : bool :=
  match r with Returned _ => true | _ => false end.

Fixpoint accepted (p : Env → Call → bool) (calls : list (Env * Call)) (w : World L S Ev) : Z :=
  match calls with
  | [] => 0
  | (e, c) :: calls =>
      let r := invoke (exec c) e w in
      (if p e c && has_returned r.2 then 1 else 0) + accepted p calls r.1
  end.

(** A measure [f] of the world: [R] relates what one call may do to it to the call being one of
    the selected ones or not.  Used with [R] an equation the measure counts the calls, with
    [R] an inequality it bounds them. *)
Lemma accepted_sum (R : Z → Z → Prop) (I : World L S Ev → Prop) (f : World L S Ev → Z)
    (p : Env → Call → bool) (calls : list (Env * Call)) w :
  (∀ x, R x x) → (∀ x y z, R x y → R y z → R x z) → (∀ x y n, R x y → R (x + n) (y + n)) →
  (∀ e c w w' u, I w → (e, c) ∈ calls → exec c e w = Done w' u →
    I w' ∧ R (f w + (if p e c then 1 else 0)) (f w')) →
  I w → I (run_calls calls w) ∧ R (f w + accepted p calls w) (f (run_calls calls w)).
Proof.
  intros Hrefl Htrans Hadd. revert w.
  induction calls as [|[e c] calls IH]; intros w Hstep Hw; simpl; [by rewrite Z.add_0_r|].
  assert (I (invoke (exec c) e w).1 ∧
    R (f w + (if p e c && has_returned (invoke (exec c) e w).2 then 1 else 0)) (f (invoke (exec c) e w).1))
    as [HI Hf].
  { specialize (Hstep e c w). unfold invoke. destruct (exec c e w) as [w' u| |]; simpl.
    - rewrite andb_true_r. apply (Hstep w' u); [done|by left|done].
    - by rewrite andb_false_r, Z.add_0_r.
    - by rewrite andb_false_r, Z.add_0_r. }
  destruct (IH (invoke (exec c) e w).1) as [HI' Hf']; [|done|].
  { intros e' c' w0 w1 u' H0 Hin. apply Hstep; [done|by right]. }
  split; [done|]. rewrite Z.add_assoc. eapply Htrans; [|exact Hf']. by apply Hadd.
Qed.

(** A measure that the selected calls raise by one when they return, and that no other call
    changes, counts them. *)
Lemma accepted_counts (I : World L S Ev → Prop) (f : World L S Ev → Z)
    (p : Env → Call → bool) (calls : list (Env * Call)) w :
  (∀ e c w w' u, I w → (e, c) ∈ calls → exec c e w = Done w' u →
    I w' ∧ f w' = f w + (if p e c then 1 else 0)) →
  I w → I (run_calls calls w) ∧ f (run_calls calls w) = f w + accepted p calls w.
Proof.
  intros Hstep Hw. destruct (accepted_sum eq I f p calls w) as [HI Hf]; [done|lia|lia| |done|done].
  intros e c w0 w1 u H0 Hin Hrun. by destruct (Hstep e c w0 w1 u H0 Hin Hrun).
Qed.

(** A measure that the selected calls raise by at least one, and that no call lowers, bounds
    their number. *)
Lemma accepted_at_most (I : World L S Ev → Prop) (f : World L S Ev → Z)
    (p : Env → Call → bool) (calls : list (Env * Call)) w :
  (∀ e c w w' u, I w → (e, c) ∈ calls → exec c e w = Done w' u →
    I w' ∧ f w + (if p e c then 1 else 0) ≤ f w') →
  I w → I (run_calls calls w) ∧ f w + accepted p calls w ≤ f (run_calls calls w).
Proof. intros Hstep Hw. apply (accepted_sum Z.le I f p calls w); [done|lia|lia|done|done]. Qed.

(** What every call of a sequence keeps, the sequence keeps. *)
Lemma run_calls_inv (I : World L S Ev → Prop) (calls : list (Env * Call)) w :
  (∀ e c w w' u, I w → (e, c) ∈ calls → exec c e w = Done w' u → I w') → I w → I (run_calls calls w).
Proof.
  intros Hstep Hw. apply (accepted_counts I (λ _, 0) (λ _ _, false) calls w); [|done].
  intros e c w0 w1 u H0 Hin Hrun. split; [by eapply Hstep|done].
Qed.

(** A measure that some calls raise by one and others lower by one is their difference. *)
Lemma accepted_balance (I : World L S Ev → Prop) (f : World L S Ev → Z)
    (p q : Env → Call → bool) (calls : list (Env * Call)) w :
  (∀ e c w w' u, I w → (e, c) ∈ calls → exec c e w = Done w' u →
    I w' ∧ f w' = f w + (if p e c then 1 else 0) - (if q e c then 1 else 0)) →
  I w → I (run_calls calls w) ∧ f (run_calls calls w) = f w + accepted p calls w - accepted q calls w.
Proof.
  revert w. induction calls as [|[e c] calls IH]; intros w Hstep Hw; simpl; [split; [done|lia]|].
  assert (I (invoke (exec c) e w).1 ∧ f (invoke (exec c) e w).1 = f w +
    (if p e c && has_returned (invoke (exec c) e w).2 then 1 else 0) -
    (if q e c && has_returned (invoke (exec c) e w).2 then 1 else 0)) as [HI Hf].
  { specialize (Hstep e c w). unfold invoke. destruct (exec c e w) as [w' u| |]; simpl; rewrite ?andb_true_r, ?andb_false_r; [|split; [done|lia]..].
    apply (Hstep w' u); [done|by left|done]. }
  destruct (IH (invoke (exec c) e w).1) as [HI' Hf']; [|done|].
  { intros e' c' w0 w1 u' H0 Hin. apply Hstep; [done|by right]. }
  split; [done|]. rewrite Hf', Hf. lia.
Qed.

Lemma accepted_nonneg p calls w : 0 ≤ accepted p calls w.
Proof.
  revert w. induction calls as [|[e c] calls IH]; intros w; simpl; [done|].
  specialize (IH (invoke (exec c) e w).1). destruct (_ && _); lia.
Qed.
End System.

(** A contract cannot authorise an invocation of itself: the host refuses
    re-entry, so its own signature never accompanies a call it receives. *)
Definition no_self_auth (e : Env) : Prop := authorized e (self e) = false.

Lemma ignore_done {L S Ev E A} (m : Contract L S Ev E A) e w w' u :
  ignore m e w = Done w' u ↔ ∃ a, m e w = Done w' a.
Proof.
  unfold ignore. rewrite bind_done. destruct u. split.
  - intros (w1 & a & Hm & [-> _]%ret_done). by exists a.
  - intros [a Hm]. exists w', a. done.
Qed.

(** ** Derived identifiers

    Several contracts name a record by the hash of a counter followed by other
    data.  What they rely on is that the hash has no collisions. *)
Definition collision_free (hash : Bytes → BytesN32) : Prop :=
  ∀ x y, hash x = hash y → x = y.

Lemma counter_id_inj hash n n' x y :
  collision_free hash → 0 ≤ n ≤ u64_max → 0 ≤ n' ≤ u64_max →
  hash (be_bytes 8 n ++ x) = hash (be_bytes 8 n' ++ y) → n = n'.
Proof.
  intros Hh Hn Hn' Heq. apply Hh, app_inj_1 in Heq as [Heq _];
    [|by rewrite !length_be_bytes].
  apply (be_bytes_inj 8); [| |done]; range_lia.
Qed.

(** A collision-free function, for concrete runs. *)
Definition demo_hash (x : Bytes) : BytesN32 := Z.pos (encode x).
Definition demo_xdr (a : Address) : Bytes := [Z.of_N (addr_id a)].
Lemma demo_hash_free : collision_free demo_hash.
Proof. intros x y [= Heq]. by apply (inj encode). Qed.
