(* ===== verification/Loops.v ===== *)
(** * Loops

    A [while] loop of the code is [while fuel cond body s] on the tuple [s] of its mutable
    variables; the body returns [None] where the code traps.  [while_total] is the rule the
    termination proofs use: an invariant and a measure that every iteration decreases give a
    final state, whatever fuel above the measure is supplied.  [fold_opt] is a [for] loop
    whose body may trap; [page_loop] is the pagination loop the queries share. *)
From S2P Require Import Prelude.

Section While.
Context {S : Type}.

Fixpoint while (fuel : nat) (cond : S → bool) (body : S → option S) (s : S) : option S :=
  match fuel with
  | O => None
  | Datatypes.S fuel => if cond s then s' ← body s; while fuel cond body s' else Some s
  end.

Lemma while_total (cond : S → bool) (body : S → option S) (I : S → Prop) (m : S → nat) :
  (∀ s, I s → cond s = true → ∃ s', body s = Some s' ∧ I s' ∧ (m s' < m s)%nat) →
  ∀ fuel s, I s → (m s < fuel)%nat →
  ∃ s', while fuel cond body s = Some s' ∧ I s' ∧ cond s' = false.
Proof.
  intros Hstep fuel. induction fuel as [|fuel IH]; intros s Hs Hm; [lia|]. simpl.
  destruct (cond s) eqn:Hc; [|by exists s].
  destruct (Hstep s Hs Hc) as (s' & Hb & Hs' & Hlt). rewrite Hb. simpl. apply IH; [done|lia].
Qed.

(** What a loop that returns has established. *)
Lemma while_inv (cond : S → bool) (body : S → option S) (I : S → Prop) :
  (∀ s s', I s → cond s = true → body s = Some s' → I s') →
  ∀ fuel s s', I s → while fuel cond body s = Some s' → I s' ∧ cond s' = false.
Proof.
  intros Hstep fuel. induction fuel as [|fuel IH]; intros s s' Hs Hw; [done|]. simpl in Hw.
  destruct (cond s) eqn:Hc; [|by simplify_eq].
  apply bind_Some in Hw as (s1 & Hb & Hw). by eapply IH, Hw; eauto.
Qed.
End While.

Section FoldOpt.
Context {A B : Type}.

Fixpoint fold_opt (f : B → A → option B) (l : list A) (b : B) : option B :=
  match l with
  | [] => Some b
  | x :: l => b' ← f b x; fold_opt f l b'
  end.

Lemma fold_opt_inv (f : B → A → option B) (I : list A → B → Prop) l b :
  I [] b →
  (∀ done x b, x ∈ l → I done b → ∃ b', f b x = Some b' ∧ I (done ++ [x]) b') →
  ∃ b', fold_opt f l b = Some b' ∧ I l b'.
Proof.
  enough (∀ done l b, I done b →
    (∀ done x b, x ∈ l → I done b → ∃ b', f b x = Some b' ∧ I (done ++ [x]) b') →
    ∃ b', fold_opt f l b = Some b' ∧ I (done ++ l) b') as Hgen by (apply (Hgen [])).
  clear. intros done l. revert done. induction l as [|x l IH]; intros done b Hb Hstep; simpl.
  - exists b. by rewrite app_nil_r.
  - destruct (Hstep done x b) as (b' & -> & Hb'); [by left|done|]. simpl.
    destruct (IH (done ++ [x]) b') as (b'' & -> & Hb''); [done| |].
    + intros. apply Hstep; [by right|done].
    + exists b''. by rewrite <-app_assoc in Hb''.
Qed.

(** What a [for] loop that returns has kept. *)
Lemma fold_opt_keeps (f : B → A → option B) (I : B → Prop) l b b' :
  (∀ x b b', x ∈ l → I b → f b x = Some b' → I b') → I b → fold_opt f l b = Some b' → I b'.
Proof.
  revert b. induction l as [|x l IH]; intros b Hstep Hb Hl; simplify_eq/=; [done|].
  apply bind_Some in Hl as (b1 & Hf & Hl). apply (IH b1); [|by eapply Hstep, Hf; [left|]|done].
  intros y c c' Hy. apply Hstep. by right.
Qed.
End FoldOpt.

Section Pages.
Context {A : Type}.
Implicit Types (l out : list A).

(** [for (index, x) in l.iter().enumerate()]: skip the first [skip], stop at [limit]. *)
Fixpoint page_loop l (index skip limit : Z) out : list A :=
  match l with
  | [] => out
  | x :: l =>
      if index <? skip then page_loop l (index + 1) skip limit out
      else if limit <=? Z.of_nat (length out) then out
      else page_loop l (index + 1) skip limit (out ++ [x])
  end.

Lemma page_loop_take l index skip limit out :
  skip ≤ index → Z.of_nat (length out) ≤ limit →
  page_loop l index skip limit out = out ++ take (Z.to_nat limit - length out) l.
Proof.
  revert index out. induction l as [|x l IH]; intros index out Hs Hl; simpl.
  { by rewrite take_nil, app_nil_r. }
  rewrite (proj2 (Z.ltb_ge _ _)) by done. destruct (Z.leb_spec limit (Z.of_nat (length out))).
  - replace (Z.to_nat limit - length out)%nat with 0%nat by lia. by rewrite app_nil_r.
  - rewrite IH by (rewrite ?length_app; simpl; lia). rewrite <-app_assoc, length_app. simpl.
    by replace (Z.to_nat limit - length out)%nat with (S (Z.to_nat limit - (length out + 1)))%nat
      by lia.
Qed.

Lemma page_loop_drop l index skip limit :
  0 ≤ limit → index ≤ skip →
  page_loop l index skip limit [] = take (Z.to_nat limit) (drop (Z.to_nat (skip - index)) l).
Proof.
  intros Hl. revert index. induction l as [|x l IH]; intros index Hi; simpl.
  { by rewrite drop_nil, take_nil. }
  destruct (Z.ltb_spec index skip).
  - rewrite IH by lia. by replace (Z.to_nat (skip - index)) with (S (Z.to_nat (skip - (index + 1)))) by lia.
  - replace (Z.to_nat (skip - index)) with 0%nat by lia. simpl.
    destruct (Z.leb_spec limit (Z.of_nat 0)); [by replace (Z.to_nat limit) with 0%nat by lia|].
    rewrite page_loop_take by (simpl; lia). simpl.
    destruct (Z.to_nat limit) as [|n] eqn:Hn; [lia|]. by rewrite Nat.sub_succ, Nat.sub_0_r.
Qed.
End Pages.
