(* ===== verification/Intervals.v ===== *)
(** * Ranges of instants

    Half-open ranges [start_ts <= t < end_ts] and lists of them as sets of instants.  A list
    is [canonical] when its ranges are non-empty, sorted and separated by gaps; canonical
    lists are determined by the instants they cover.  The operations the calendar code uses
    on such lists (clipping, selection sort, merging, subtraction) are stated here with the
    set they compute. *)
From Stdlib Require Import Sorted.
From S2P Require Import Prelude.

(** [AvailableRange] of mentorship-availability, mirrored by mentorship-slots. *)
Record AvailableRange := mkRange { start_ts : Z; end_ts : Z }.
#[export] Instance AvailableRange_eq_dec : EqDecision AvailableRange.
Proof. solve_decision. Defined.

Definition in_range_of (t : Z) (r : AvailableRange) : Prop := start_ts r ≤ t < end_ts r.
Definition covers (l : list AvailableRange) (t : Z) : Prop := ∃ r, r ∈ l ∧ in_range_of t r.

Definition nonempty (r : AvailableRange) : Prop := start_ts r < end_ts r.
Definition before (r r' : AvailableRange) : Prop := end_ts r < start_ts r'.
Definition canonical (l : list AvailableRange) : Prop :=
  StronglySorted before l ∧ Forall nonempty l.

(** Two half-open intervals do not meet. *)
Definition apart (a b c d : Z) : Prop := b ≤ c ∨ d ≤ a.

Lemma apart_sym a b c d : apart a b c d → apart c d a b.
Proof. unfold apart. tauto. Qed.

(** ** Covering *)

Lemma covers_nil t : ¬ covers [] t.
Proof. intros (r & Hr & _). by apply elem_of_nil in Hr. Qed.

Lemma covers_cons r l t : covers (r :: l) t ↔ in_range_of t r ∨ covers l t.
Proof.
  unfold covers. split.
  - intros (x & Hx & Ht). apply elem_of_cons in Hx as [->|Hx]; [by left|right; by exists x].
  - intros [Ht|(x & Hx & Ht)]; [exists r|exists x]; (split; [|done]); set_solver.
Qed.

Lemma covers_app k l t : covers (k ++ l) t ↔ covers k t ∨ covers l t.
Proof.
  unfold covers. setoid_rewrite elem_of_app. naive_solver.
Qed.

Lemma covers_one r t : covers [r] t ↔ in_range_of t r.
Proof.
  rewrite covers_cons. split; [intros [?|?%covers_nil]; done|by left].
Qed.

Lemma covers_perm k l t : k ≡ₚ l → covers k t ↔ covers l t.
Proof. intros Hp. unfold covers. by setoid_rewrite Hp. Qed.

Lemma canonical_nil : canonical [].
Proof. split; constructor. Qed.

Lemma canonical_one r : nonempty r → canonical [r].
Proof. split; repeat constructor; done. Qed.

Lemma canonical_cons r l :
  canonical (r :: l) ↔ nonempty r ∧ Forall (before r) l ∧ canonical l.
Proof.
  unfold canonical. split.
  - intros [Hs Hn]. apply StronglySorted_inv in Hs as [Hs Hf]. by inv Hn.
  - intros (Hn & Hf & Hs & Hl). split; by constructor.
Qed.

Lemma canonical_app k l :
  canonical (k ++ l) ↔
    canonical k ∧ canonical l ∧ ∀ r r', r ∈ k → r' ∈ l → before r r'.
Proof.
  induction k as [|r k IH]; simpl.
  - split; [|by intros (_ & ? & _)]. intros Hl. split_and!; [apply canonical_nil|done|].
    intros r r' Hr. by apply elem_of_nil in Hr.
  - rewrite !canonical_cons, IH, Forall_app, !Forall_forall. set_solver.
Qed.

(** In a canonical list an uninterrupted stretch of instants lies in one range. *)
Lemma canonical_convex l a b :
  canonical l → a < b → (∀ t, a ≤ t < b → covers l t) →
  ∃ r, r ∈ l ∧ start_ts r ≤ a ∧ b ≤ end_ts r.
Proof.
  intros Hl Hab Hcov. induction l as [|r l IH].
  { destruct (Hcov a) as (r & Hr & _); [lia|]. by apply elem_of_nil in Hr. }
  apply canonical_cons in Hl as (Hn & Hf & Hl). rewrite Forall_forall in Hf.
  unfold before, nonempty in *.
  assert (Hlater : ∀ t, covers l t → end_ts r < t).
  { intros t (r' & Hr' & Ht). specialize (Hf r' Hr'). unfold in_range_of in Ht. lia. }
  destruct (proj1 (covers_cons r l a) (Hcov a ltac:(lia))) as [Ha|Ha].
  - unfold in_range_of in Ha. exists r. split_and!; [set_solver|lia|].
    destruct (Z_le_gt_dec b (end_ts r)) as [|Hgt]; [done|exfalso].
    destruct (proj1 (covers_cons r l (end_ts r)) (Hcov (end_ts r) ltac:(lia))) as [Hr|Hr].
    + unfold in_range_of in Hr. lia.
    + apply Hlater in Hr. lia.
  - pose proof (Hlater a Ha). destruct IH as (r' & Hr' & Hb); [done| |].
    + intros t Ht. destruct (proj1 (covers_cons r l t) (Hcov t Ht)) as [Hr|Hr]; [|done].
      unfold in_range_of in Hr. lia.
    + exists r'. split; [set_solver|done].
Qed.

Lemma in_range_first r : nonempty r → in_range_of (start_ts r) r.
Proof. unfold nonempty, in_range_of. lia. Qed.

(** The first range of a canonical list is read off the covered instants. *)
Lemma canonical_head r l r' l' :
  canonical (r :: l) → canonical (r' :: l') →
  (∀ t, covers (r :: l) t ↔ covers (r' :: l') t) → r = r'.
Proof.
  intros Hc Hc' Heq. pose proof Hc as (Hn & Hf & Hl)%canonical_cons.
  pose proof Hc' as (Hn' & Hf' & Hl')%canonical_cons. rewrite Forall_forall in Hf, Hf'.
  assert (Hmin : ∀ r0 l0, nonempty r0 → (∀ x, x ∈ l0 → before r0 x) → ∀ t, covers (r0 :: l0) t →
    start_ts r0 ≤ t ∧ (t < end_ts r0 ∨ end_ts r0 < t)).
  { unfold nonempty, before. intros r0 l0 Hn0 Hf0 t [Ht|(x & Hx & Ht)]%covers_cons;
      unfold in_range_of in Ht; [lia|]. specialize (Hf0 x Hx). lia. }
  assert (covers (r :: l) (start_ts r)) as H1 by (apply covers_cons; left; by apply in_range_first).
  assert (covers (r' :: l') (start_ts r')) as H2
    by (apply covers_cons; left; by apply in_range_first).
  pose proof (Hmin r' l' Hn' Hf' _ (proj1 (Heq _) H1)).
  pose proof (Hmin r l Hn Hf _ (proj2 (Heq _) H2)).
  assert (start_ts r = start_ts r') as Hstart by lia.
  assert (end_ts r = end_ts r') as Hend.
  { unfold nonempty in *. destruct (Z.lt_trichotomy (end_ts r) (end_ts r')) as [Hlt|[Heq'|Hlt]];
      [|done|]; exfalso.
    - assert (covers (r' :: l') (end_ts r)) as Hx.
      { apply covers_cons. left. unfold in_range_of. lia. }
      apply Heq, (Hmin r l Hn Hf) in Hx. lia.
    - assert (covers (r :: l) (end_ts r')) as Hx.
      { apply covers_cons. left. unfold in_range_of. lia. }
      apply Heq, (Hmin r' l' Hn' Hf') in Hx. lia. }
  destruct r, r'. simpl in *. by subst.
Qed.

Lemma canonical_unique l l' :
  canonical l → canonical l' → (∀ t, covers l t ↔ covers l' t) → l = l'.
Proof.
  revert l'. induction l as [|r l IH]; intros [|r' l'] Hl Hl' Heq; [done|..].
  - apply canonical_cons in Hl' as (Hn & _). exfalso.
    apply (covers_nil (start_ts r')), Heq, covers_cons. left. by apply in_range_first.
  - apply canonical_cons in Hl as (Hn & _). exfalso.
    apply (covers_nil (start_ts r)), Heq, covers_cons. left. by apply in_range_first.
  - pose proof (canonical_head _ _ _ _ Hl Hl' Heq) as <-. f_equal.
    apply canonical_cons in Hl as (Hn & Hf & Hl). apply canonical_cons in Hl' as (_ & Hf' & Hl').
    apply IH; [done..|]. intros t. specialize (Heq t). rewrite !covers_cons in Heq.
    rewrite Forall_forall in Hf, Hf'. unfold before in *.
    split; intros Ht; pose proof Ht as (x & Hx & Hin); unfold in_range_of in *.
    + specialize (Hf x Hx). destruct (proj1 Heq (or_intror Ht)) as [Hr|]; [lia|done].
    + specialize (Hf' x Hx). destruct (proj2 Heq (or_intror Ht)) as [Hr|]; [lia|done].
Qed.

(** ** Replacing each range by ranges inside it *)

Lemma covers_bind (f : AvailableRange → list AvailableRange) l t :
  covers (l ≫= f) t ↔ ∃ r, r ∈ l ∧ covers (f r) t.
Proof. unfold covers. setoid_rewrite list_elem_of_bind. naive_solver. Qed.


Lemma canonical_nonempty l r : canonical l → r ∈ l → nonempty r.
Proof. intros [_ Hn]. rewrite Forall_forall in Hn. apply Hn. Qed.

(** A canonical list that covers only instants of one range lies inside it. *)
Lemma inside_one l r r' :
  canonical l → (∀ t, covers l t → in_range_of t r) → r' ∈ l →
  start_ts r ≤ start_ts r' ∧ end_ts r' ≤ end_ts r.
Proof.
  intros Hl Hsub Hr'. pose proof (canonical_nonempty l r' Hl Hr') as Hn. unfold nonempty in Hn.
  assert (in_range_of (start_ts r') r) as H1.
  { apply Hsub. exists r'. unfold in_range_of. split; [done|lia]. }
  assert (in_range_of (end_ts r' - 1) r) as H2.
  { apply Hsub. exists r'. unfold in_range_of. split; [done|lia]. }
  unfold in_range_of in *. lia.
Qed.

Lemma canonical_bind (f : AvailableRange → list AvailableRange) l :
  canonical l →
  (∀ r, r ∈ l → canonical (f r) ∧ ∀ t, covers (f r) t → in_range_of t r) →
  canonical (l ≫= f).
Proof.
  induction l as [|r l IH]; intros Hl Hf; simpl; [apply canonical_nil|].
  apply canonical_cons in Hl as (Hn & Hb & Hl). rewrite Forall_forall in Hb.
  apply canonical_app. destruct (Hf r) as [Hfr Hin]; [by left|]. split_and!; [done| |].
  - apply IH; [done|]. intros x Hx. apply Hf. by right.
  - intros a b Ha (x & Hb' & Hx)%list_elem_of_bind.
    destruct (Hf x) as [Hfx Hinx]; [by right|].
    pose proof (inside_one _ _ _ Hfr Hin Ha). pose proof (inside_one _ _ _ Hfx Hinx Hb').
    specialize (Hb x Hx). unfold before in *. lia.
Qed.
