(* ===== verification/BpsSplit.v ===== *)
(** * Splitting an amount by basis points

    Royalty manifests and milestone schedules divide an amount by basis points that
    add up to 10,000, the last share taking what rounding left.  [split] is the
    reference definition both implementations are compared with. *)
From S2P Require Import Prelude Machine.

(** ** The reference split *)

Definition FULL_BPS : Z := 10000.

(** Every share but the last is the floor of [amount * bps / 10000]; the last is
    what the others left. *)
Fixpoint split (amount : Z) (shares : list Z) (so_far : Z) : list Z :=
  match shares with
  | [] => []
  | [_] => [amount - so_far]
  | b :: rest => let s := amount * b / FULL_BPS in s :: split amount rest (so_far + s)
  end.

Lemma split_length amount shares so_far : length (split amount shares so_far) = length shares.
Proof.
  revert so_far. induction shares as [|b [|b' rest] IH]; intros so_far; [done|done|].
  change (split amount (b :: b' :: rest) so_far) with
    (amount * b / FULL_BPS :: split amount (b' :: rest) (so_far + amount * b / FULL_BPS)).
  cbn [length]. f_equal. apply IH.
Qed.

Lemma split_sum amount shares so_far :
  shares ≠ [] → list_sum id (split amount shares so_far) = amount - so_far.
Proof.
  revert so_far. induction shares as [|b [|b' rest] IH]; intros so_far Hne; [done|simpl; lia|].
  change (split amount (b :: b' :: rest) so_far) with
    (amount * b / FULL_BPS :: split amount (b' :: rest) (so_far + amount * b / FULL_BPS)).
  rewrite list_sum_cons, IH by done. unfold id. lia.
Qed.

(** The shares are non-negative as long as what was given out is covered by the
    basis points still to come. *)
Lemma split_nonneg amount shares so_far :
  0 ≤ amount → Forall (λ b, 0 ≤ b) shares →
  FULL_BPS * so_far ≤ amount * (FULL_BPS - list_sum id shares) →
  Forall (λ s, 0 ≤ s) (split amount shares so_far).
Proof.
  intros Ha Hs. revert so_far. induction Hs as [|b rest Hb Hrest IH]; intros so_far Hle; [constructor|].
  destruct rest as [|b' rest].
  - constructor; [|constructor]. simpl in Hle. unfold id, FULL_BPS in *. nia.
  - change (split amount (b :: b' :: rest) so_far) with
      (amount * b / FULL_BPS :: split amount (b' :: rest) (so_far + amount * b / FULL_BPS)).
    constructor; [apply Z.div_pos; unfold FULL_BPS; nia|]. apply IH.
    rewrite list_sum_cons in Hle. unfold id at 1 in Hle.
    pose proof (Z.mul_div_le (amount * b) FULL_BPS ltac:(unfold FULL_BPS; lia)). nia.
Qed.

(** All shares of a full split are non-negative and add up to the amount. *)
Lemma split_full amount shares :
  0 ≤ amount → shares ≠ [] → Forall (λ b, 0 ≤ b) shares → list_sum id shares = FULL_BPS →
  Forall (λ s, 0 ≤ s) (split amount shares 0) ∧ list_sum id (split amount shares 0) = amount.
Proof.
  intros Ha Hne Hpos Hsum. split.
  - apply split_nonneg; [done|done|]. rewrite Hsum. lia.
  - rewrite split_sum by done. lia.
Qed.
