(* ===== verification/CheckedMath.v ===== *)
(** * Checked arithmetic and debt accounting ([contracts/shared/src/math.rs])

    The typed checked primitives, the multiply-then-divide routine [mul_div]
    with its rounding mode, and the [DebtAccount] state machine.  A method on
    [&mut self] returns the account it leaves behind together with its result,
    so that what an early return leaves in place is part of the model. *)
From S2P Require Import Prelude Machine.

Inductive MathError :=
| Overflow | Underflow | DivideByZero | NegativeResult | NegativeAmount.

Inductive Rounding := Down | Up.

#[export] Instance MathError_eq_dec : EqDecision MathError.
Proof. solve_decision. Defined.

(** ** Checked primitives *)

Definition add_u32 (a b : Z) : result MathError Z :=
  option_ok_or (checked_add_u32 a b) Overflow.
Definition sub_u32 (a b : Z) : result MathError Z :=
  option_ok_or (checked_sub_u32 a b) Underflow.
Definition add_u64 (a b : Z) : result MathError Z :=
  option_ok_or (checked_add_u64 a b) Overflow.
Definition sub_u64 (a b : Z) : result MathError Z :=
  option_ok_or (checked_sub_u64 a b) Underflow.
Definition add_i128 (a b : Z) : result MathError Z :=
  option_ok_or (checked_add_i128 a b) Overflow.
Definition sub_i128 (a b : Z) : result MathError Z :=
  option_ok_or (checked_sub_i128 a b) Underflow.
Definition mul_i128 (a b : Z) : result MathError Z :=
  option_ok_or (checked_mul_i128 a b) Overflow.
Definition div_i128 (a b : Z) : result MathError Z :=
  if b =? 0 then Err DivideByZero else option_ok_or (checked_div_i128 a b) Overflow.

Definition require_non_negative (amount : Z) : result MathError Z :=
  if amount <? 0 then Err NegativeAmount else Ok amount.

Definition mul_div (a b denominator : Z) (rounding : Rounding) : result MathError Z :=
  let? _ := require_non_negative a in
  let? _ := require_non_negative b in
  if denominator <=? 0 then
    Err (if denominator =? 0 then DivideByZero else NegativeAmount)
  else
    let? product := mul_i128 a b in
    let quotient := Z.quot product denominator in
    match rounding with
    | Down => Ok quotient
    | Up => if Z.rem product denominator =? 0 then Ok quotient else add_i128 quotient 1
    end.

Definition basis_points (amount bps : Z) (rounding : Rounding) : result MathError Z :=
  mul_div amount bps 10000 rounding.

(** What [mul_div] promises: the exact quotient of the mathematical product,
    rounded the stated way, or the error that names the reason. *)
Definition mul_div_spec (a b d : Z) (rounding : Rounding) : result MathError Z :=
  if (a <? 0) || (b <? 0) then Err NegativeAmount
  else if d =? 0 then Err DivideByZero
  else if d <? 0 then Err NegativeAmount
  else if i128_max <? a * b then Err Overflow
  else Ok (match rounding with Down => a * b / d | Up => - ((- (a * b)) / d) end).

Lemma ceil_div p d : 0 < d →
  - ((- p) / d) = if p mod d =? 0 then p / d else p / d + 1.
Proof.
  intros Hd. destruct (Z.eqb_spec (p mod d) 0) as [H0|H0].
  - rewrite Z.div_opp_l_z by (done || lia). lia.
  - rewrite Z.div_opp_l_nz by (done || lia). lia.
Qed.

Lemma mul_div_correct a b d rounding :
  i128 a = true → i128 b = true → mul_div a b d rounding = mul_div_spec a b d rounding.
Proof.
  intros Ha%in_range_iff Hb%in_range_iff.
  unfold mul_div, mul_div_spec, require_non_negative, mul_i128, checked_mul_i128.
  destruct (Z.ltb_spec a 0); [done|]. destruct (Z.ltb_spec b 0); [done|]. simpl.
  destruct (Z.leb_spec d 0).
  { destruct (Z.eqb_spec d 0); [done|]. by rewrite (proj2 (Z.ltb_lt _ _)) by lia. }
  rewrite (proj2 (Z.eqb_neq d 0)), (proj2 (Z.ltb_ge d 0)) by lia.
  assert (0 ≤ a * b) by nia.
  destruct (Z.ltb_spec i128_max (a * b)) as [Ho|Ho].
  { rewrite (proj2 (checked_None _ _ _)); [done|]. lia. }
  rewrite checked_in by range_lia. simpl.
  rewrite quot_floor, rem_mod by lia. destruct rounding; [done|].
  rewrite ceil_div by lia. destruct (Z.eqb_spec ((a * b) mod d) 0) as [|Hr]; [done|].
  unfold add_i128, checked_add_i128. rewrite checked_in; [done|].
  assert (d ≠ 1) by (intros ->; by rewrite Z.mod_1_r in Hr).
  assert (a * b / d ≤ a * b / 2) by (apply Z.div_le_compat_l; lia).
  assert (0 ≤ a * b / d) by (apply Z.div_pos; lia).
  assert (2 * (a * b / 2) ≤ a * b) by (apply Z.mul_div_le; lia).
  range_lia.
Qed.

(** C22: [mul_div] is the exact multiply-then-divide routine: for every pair of
    [i128] operands and every denominator it returns the floor or the ceiling of
    [a * b / d] as the rounding mode says, [Overflow] exactly when the product
    leaves [i128] (the final increment never does), and the typed error of the
    first bad argument otherwise; [basis_points] is that routine over 10,000. *)
Theorem mul_div_exact a b d rounding :
  i128 a = true → i128 b = true →
  mul_div a b d rounding = mul_div_spec a b d rounding ∧
  basis_points a b rounding = mul_div_spec a b 10000 rounding.
Proof. intros. split; by apply mul_div_correct. Qed.

Lemma mul_div_exact_witness :
  mul_div 7 3 10 Up = Ok 3 ∧ mul_div i128_max 2 2 Down = Err Overflow.
Proof.
  split.
  - destruct (mul_div_exact 7 3 10 Up) as [H _]; [reflexivity|reflexivity|exact H].
  - destruct (mul_div_exact i128_max 2 2 Down) as [H _]; [reflexivity|reflexivity|exact H].
Defined.

(** ** Debt accounts *)

Record DebtAccount := mkDebt { deposit_of : Z; outstanding : Z }.

Definition new : DebtAccount := mkDebt 0 0.

(** Run a fallible step; an error leaves the account as it is at that point. *)
Definition attempt {A B} (acct : DebtAccount) (r : result MathError A)
    (k : A → DebtAccount * result MathError B) : DebtAccount * result MathError B :=
  match r with Ok a => k a | Err err => (acct, Err err) end.

Definition deposit (self : DebtAccount) (amount : Z) : DebtAccount * result MathError unit :=
  attempt self (require_non_negative amount) (λ _,
  attempt self (add_i128 (deposit_of self) amount) (λ d,
  (mkDebt d (outstanding self), Ok tt))).

Definition charge (self : DebtAccount) (amount : Z) : DebtAccount * result MathError unit :=
  attempt self (require_non_negative amount) (λ _,
  attempt self (add_i128 (outstanding self) amount) (λ o,
  (mkDebt (deposit_of self) o, Ok tt))).

Definition pay (self : DebtAccount) (amount : Z) : DebtAccount * result MathError unit :=
  attempt self (require_non_negative amount) (λ _,
  if outstanding self <? amount then (self, Err NegativeResult) else
  attempt self (sub_i128 (outstanding self) amount) (λ o,
  (mkDebt (deposit_of self) o, Ok tt))).

Definition waive (self : DebtAccount) (amount : Z) : DebtAccount * result MathError unit :=
  attempt self (require_non_negative amount) (λ _,
  if outstanding self <? amount then (self, Err NegativeResult) else
  attempt self (sub_i128 (outstanding self) amount) (λ o,
  (mkDebt (deposit_of self) o, Ok tt))).

Definition pay_from_deposit (self : DebtAccount) (amount : Z) :
    DebtAccount * result MathError Z :=
  attempt self (require_non_negative amount) (λ _,
  if (outstanding self <? amount) || (deposit_of self <? amount)
  then (self, Err NegativeResult) else
  attempt self (sub_i128 (deposit_of self) amount) (λ d,
  let self := mkDebt d (outstanding self) in
  attempt self (sub_i128 (outstanding self) amount) (λ o,
  (mkDebt (deposit_of self) o, Ok amount)))).

Definition withdraw (self : DebtAccount) (amount : Z) : DebtAccount * result MathError unit :=
  attempt self (require_non_negative amount) (λ _,
  if 0 <? outstanding self then (self, Err NegativeResult) else
  if deposit_of self <? amount then (self, Err NegativeResult) else
  attempt self (sub_i128 (deposit_of self) amount) (λ d,
  (mkDebt d (outstanding self), Ok tt))).

Definition is_well_formed (self : DebtAccount) : bool :=
  (0 <=? deposit_of self) && (0 <=? outstanding self).

(** ** The contract of a debt account: an unbounded double-entry ledger *)

Inductive DebtOp :=
| Deposit (n : Z) | Charge (n : Z) | Pay (n : Z) | Waive (n : Z)
| PayFromDeposit (n : Z) | Withdraw (n : Z).

Definition apply (self : DebtAccount) (op : DebtOp) : DebtAccount * bool :=
  let ok {A} (p : DebtAccount * result MathError A) :=
    (p.1, match p.2 with Ok _ => true | Err _ => false end) in
  match op with
  | Deposit n => ok (deposit self n)
  | Charge n => ok (charge self n)
  | Pay n => ok (pay self n)
  | Waive n => ok (waive self n)
  | PayFromDeposit n => ok (pay_from_deposit self n)
  | Withdraw n => ok (withdraw self n)
  end.

Definition op_amount (op : DebtOp) : Z :=
  match op with
  | Deposit n | Charge n | Pay n | Waive n | PayFromDeposit n | Withdraw n => n
  end.

(** The amounts the accepted operations moved, by kind. *)
Record Totals := mkTotals {
  deposited : Z; charged : Z; paid : Z; waived : Z; settled : Z; withdrawn : Z }.

Definition record_op (t : Totals) (op : DebtOp) : Totals :=
  match op with
  | Deposit n => mkTotals (deposited t + n) (charged t) (paid t) (waived t) (settled t) (withdrawn t)
  | Charge n => mkTotals (deposited t) (charged t + n) (paid t) (waived t) (settled t) (withdrawn t)
  | Pay n => mkTotals (deposited t) (charged t) (paid t + n) (waived t) (settled t) (withdrawn t)
  | Waive n => mkTotals (deposited t) (charged t) (paid t) (waived t + n) (settled t) (withdrawn t)
  | PayFromDeposit n => mkTotals (deposited t) (charged t) (paid t) (waived t) (settled t + n) (withdrawn t)
  | Withdraw n => mkTotals (deposited t) (charged t) (paid t) (waived t) (settled t) (withdrawn t + n)
  end.

Fixpoint run (self : DebtAccount) (t : Totals) (ops : list DebtOp) : DebtAccount * Totals :=
  match ops with
  | [] => (self, t)
  | op :: ops =>
      let '(self', ok) := apply self op in
      run self' (if ok then record_op t op else t) ops
  end.

(** When the ledger allows an operation, and the account it leads to. *)
Definition allowed (self : DebtAccount) (op : DebtOp) : bool :=
  (0 <=? op_amount op) &&
  match op with
  | Deposit n => deposit_of self + n <=? i128_max
  | Charge n => outstanding self + n <=? i128_max
  | Pay n | Waive n => n <=? outstanding self
  | PayFromDeposit n => (n <=? outstanding self) && (n <=? deposit_of self)
  | Withdraw n => (outstanding self =? 0) && (n <=? deposit_of self)
  end.

Definition posted (self : DebtAccount) (op : DebtOp) : DebtAccount :=
  match op with
  | Deposit n => mkDebt (deposit_of self + n) (outstanding self)
  | Charge n => mkDebt (deposit_of self) (outstanding self + n)
  | Pay n | Waive n => mkDebt (deposit_of self) (outstanding self - n)
  | PayFromDeposit n => mkDebt (deposit_of self - n) (outstanding self - n)
  | Withdraw n => mkDebt (deposit_of self - n) (outstanding self)
  end.

Definition account_ok (self : DebtAccount) : Prop :=
  0 ≤ deposit_of self ≤ i128_max ∧ 0 ≤ outstanding self ≤ i128_max.

Lemma apply_posted self op :
  account_ok self →
  apply self op = if allowed self op then (posted self op, true) else (self, false).
Proof.
  destruct self as [d o]. intros [Hd Ho]. simpl in Hd, Ho.
  destruct op as [n|n|n|n|n|n]; unfold allowed; simpl;
    unfold deposit, charge, pay, waive, pay_from_deposit, withdraw, attempt,
      require_non_negative, add_i128, sub_i128; unfold_ops; unfold checked, in_range; simpl;
    repeat match goal with
    | |- context [?x <? ?y] => destruct (Z.ltb_spec x y)
    | |- context [?x <=? ?y] => destruct (Z.leb_spec x y)
    | |- context [?x =? ?y] => destruct (Z.eqb_spec x y)
    end; simpl; try done; range_lia.
Qed.

Lemma posted_ok self op :
  account_ok self → allowed self op = true → account_ok (posted self op).
Proof.
  destruct self as [d o], op; unfold allowed, account_ok; simpl; intros ? ?;
    bool_prop; lia.
Qed.

(** The account agrees with the totals of the accepted operations. *)
Definition reconciled (self : DebtAccount) (t : Totals) : Prop :=
  outstanding self = charged t - paid t - waived t - settled t ∧
  deposit_of self = deposited t - withdrawn t - settled t.

Lemma posted_reconciled self t op :
  reconciled self t → reconciled (posted self op) (record_op t op).
Proof. destruct self, t, op; unfold reconciled; simpl; lia. Qed.

Lemma run_spec ops self t :
  account_ok self → reconciled self t →
  account_ok (run self t ops).1 ∧ reconciled (run self t ops).1 (run self t ops).2.
Proof.
  revert self t. induction ops as [|op ops IH]; intros self t Hok Hrec; [done|].
  simpl. rewrite apply_posted by done.
  destruct (allowed self op) eqn:Ha; [|by apply IH].
  apply IH; [by apply posted_ok|by apply posted_reconciled].
Qed.

(** whatever sequence of deposits, charges, payments, waivers, settlements
    from the deposit and withdrawals is applied to a new account, the balances
    satisfy the conservation identity over the accepted amounts, never go
    negative and never leave [i128]. *)
Theorem debt_conservation ops :
  let '(acct, t) := run new (mkTotals 0 0 0 0 0 0) ops in
  outstanding acct = charged t - paid t - waived t - settled t ∧
  deposit_of acct = deposited t - withdrawn t - settled t ∧
  is_well_formed acct = true ∧
  i128 (deposit_of acct) = true ∧ i128 (outstanding acct) = true.
Proof.
  pose proof (run_spec ops new (mkTotals 0 0 0 0 0 0)) as Hrun.
  destruct (run new _ ops) as [acct t]. simpl in Hrun.
  destruct Hrun as [[Hd Ho] [H1 H2]]; [split; simpl; range_lia|done|].
  split_and!; [done..|unfold is_well_formed|apply in_range_iff|apply in_range_iff].
  - rewrite andb_true_iff, !Z.leb_le. lia.
  - range_lia.
  - range_lia.
Qed.

(** every operation is total and all-or-nothing: on a well-formed account it
    applies exactly the posting its double-entry specification allows, and on
    every other input it reports an error and leaves both balances untouched. *)
Theorem debt_all_or_nothing d o op :
  0 ≤ d ≤ i128_max → 0 ≤ o ≤ i128_max →
  apply (mkDebt d o) op =
    if allowed (mkDebt d o) op then (posted (mkDebt d o) op, true) else (mkDebt d o, false).
Proof. intros. by apply apply_posted. Qed.

Lemma debt_all_or_nothing_witness :
  apply (mkDebt 50 30) (PayFromDeposit 40) = (mkDebt 50 30, false) ∧
  apply (mkDebt 50 30) (PayFromDeposit 30) = (mkDebt 20 0, true).
Proof.
  split.
  - rewrite (debt_all_or_nothing 50 30 (PayFromDeposit 40)) by (vm_compute; split; discriminate).
    reflexivity.
  - rewrite (debt_all_or_nothing 50 30 (PayFromDeposit 30)) by (vm_compute; split; discriminate).
    reflexivity.
Defined.
