(* ===== verification/TokenIface.v ===== *)
(** * The token interface

    Escrows, vaults, deposits and vesting grants hold tokens of external token
    contracts they call through [token::Client].  [TokenLedger] is what those
    clients may rely on: a ledger of balances per token and holder, and a
    transfer that either moves exactly [amount] or traps.  The clients' theorems
    are proved against the laws of [TokenLaws]; [BalanceMap] is the reference
    implementation, and [TokenContract.v] shows when the repository's own token
    implements the interface. *)
From S2P Require Import Prelude Machine Host.

Class TokenLedger (L : Type) := {
  token_balance : L → Address → Address → Z;
  token_transfer : L → Address → Address → Address → Z → option L }.

(** How much a transfer of [n] from [a] to [b] changes the balance of [h]. *)
Definition moved (a b h : Address) (n : Z) : Z :=
  (if bool_decide (h = b) then n else 0) - (if bool_decide (h = a) then n else 0).

Class TokenLaws (L : Type) `{TokenLedger L} : Prop := {
  transfer_moves l t a b n l' t' h :
    token_transfer l t a b n = Some l' →
    token_balance l' t' h =
      token_balance l t' h + (if bool_decide (t' = t) then moved a b h n else 0);
  transfer_covered l t a b n l' :
    token_transfer l t a b n = Some l' → 0 ≤ n ≤ token_balance l t a }.

(** A token that never refuses a covered transfer. *)
Class TokenLive (L : Type) `{TokenLedger L} : Prop :=
  transfer_live l t a b n :
    0 ≤ n ≤ token_balance l t a → is_Some (token_transfer l t a b n).

(** [token::Client::new(env, &t).transfer(&a, &b, &n)]: the token requires the
    authorisation of [a], which a contract gives for itself. *)
Definition token_call {L S Ev E} `{TokenLedger L} (t a b : Address) (n : Z) :
    Contract L S Ev E unit := λ e w,
  if bool_decide (a = self e) || authorized e a then
    match token_transfer (ledger w) t a b n with
    | Some l => Done (mkWorld l (store w) (log w)) tt
    | None => Trapped
    end
  else Trapped.

Lemma token_call_done {L S Ev E} `{TokenLedger L} t a b n e (w w' : World L S Ev) u :
  (token_call t a b n : Contract L S Ev E unit) e w = Done w' u ↔
    (bool_decide (a = self e) || authorized e a) = true ∧
    ∃ l, token_transfer (ledger w) t a b n = Some l ∧ w' = mkWorld l (store w) (log w).
Proof.
  unfold token_call. destruct u, (_ || _); [|naive_solver].
  destruct (token_transfer _ _ _ _ _); naive_solver.
Qed.

Lemma token_call_run {L S Ev E} `{TokenLedger L} t b n e (w : World L S Ev) l :
  token_transfer (ledger w) t (self e) b n = Some l →
  (token_call t (self e) b n : Contract L S Ev E unit) e w =
    Done (mkWorld l (store w) (log w)) tt.
Proof. intros Hl. unfold token_call. by rewrite bool_decide_eq_true_2, Hl by done. Qed.

(** [token::Client::new(env, &t).balance(&h)] *)
Definition balance_call {L S Ev E} `{TokenLedger L} (t h : Address) : Contract L S Ev E Z :=
  λ e w, Done w (token_balance (ledger w) t h).

Lemma balance_call_done {L S Ev E} `{TokenLedger L} t h e (w w' : World L S Ev) a :
  (balance_call t h : Contract L S Ev E Z) e w = Done w' a ↔
    a = token_balance (ledger w) t h ∧ w' = w.
Proof. unfold balance_call. naive_solver. Qed.

Lemma balance_call_run {L S Ev E} `{TokenLedger L} t h e (w : World L S Ev) :
  (balance_call t h : Contract L S Ev E Z) e w = Done w (token_balance (ledger w) t h).
Proof. done. Qed.

#[export] Hint Resolve token_call_run balance_call_run : contract.

(** [run_inv] for contracts that call tokens. *)
Ltac token_inv :=
  repeat (run_inv; match goal with
  | H : token_call _ _ _ _ _ _ = Done _ _ |- _ =>
      let Ha := fresh "Hauth" in let l := fresh "l" in let Hl := fresh "Hmove" in
      apply token_call_done in H as (Ha & l & Hl & ->);
      try match type of Ha with (bool_decide (?x = ?x) || _) = true => clear Ha end
  | H : balance_call _ _ _ _ = Done _ _ |- _ => apply balance_call_done in H as [-> ->]
  end); run_inv.

(** A change of the ledger by other contracts and accounts: the balances of
    [me] can only grow, because only [me] authorises its outgoing transfers. *)
Definition ledger_rely {L} `{TokenLedger L} (me : Address) (l l' : L) : Prop :=
  ∀ t, token_balance l t me ≤ token_balance l' t me.

(** What a transfer does to the balances of [this] contract. *)
Section Held.
Context {L : Type} `{!TokenLedger L, !TokenLaws L}.

Definition held (this : Address) (l : L) (t : Address) : Z := token_balance l t this.

Lemma transfer_out l l' tok this b n :
  token_transfer l tok this b n = Some l' →
  0 ≤ n ∧ at_most_drops (held this l) (held this l') tok n.
Proof.
  intros Ht. pose proof (transfer_covered _ _ _ _ _ _ Ht). split; [lia|].
  intros t. unfold held. rewrite (transfer_moves _ _ _ _ _ _ _ _ Ht). unfold moved.
  rewrite (bool_decide_eq_true_2 (this = this)) by done.
  repeat case_bool_decide; lia.
Qed.

Lemma transfer_in l l' tok a this n :
  a ≠ this → token_transfer l tok a this n = Some l' →
  0 ≤ n ∧ bumped (held this l) (held this l') tok n.
Proof.
  intros Ha Ht. pose proof (transfer_covered _ _ _ _ _ _ Ht). split; [lia|].
  intros t. unfold held. rewrite (transfer_moves _ _ _ _ _ _ _ _ Ht). unfold moved.
  repeat case_bool_decide; simplify_eq; lia.
Qed.

Lemma authorized_not_self e a :
  no_self_auth e → authorized e a = true → a ≠ self e.
Proof. unfold no_self_auth. intros Hn Ha ->. congruence. Qed.
End Held.

(** ** The reference ledger *)
Module BalanceMap.
Abbreviation t := (gmap (Address * Address) Z).

Definition balance (l : t) (tok h : Address) : Z := default 0 (l !! (tok, h)).

Definition transfer (l : t) (tok a b : Address) (n : Z) : option t :=
  if (n <? 0) || (balance l tok a <? n) then None
  else
    let l1 := <[(tok, a) := balance l tok a - n]> l in
    Some (<[(tok, b) := balance l1 tok b + n]> l1).

#[global] Instance ledger : TokenLedger t :=
  {| token_balance := balance; token_transfer := transfer |}.

Lemma balance_insert (l : t) tok a x tok' h :
  balance (<[(tok, a) := x]> l) tok' h =
    if bool_decide (tok' = tok ∧ h = a) then x else balance l tok' h.
Proof.
  unfold balance. case_bool_decide as Heq.
  - destruct Heq as [-> ->]. by rewrite lookup_insert_eq.
  - rewrite lookup_insert_ne; [done|]. naive_solver.
Qed.

#[global] Instance laws : TokenLaws t.
Proof.
  split; intros l tok a b n l'; simpl; unfold transfer.
  - intros tok' h. destruct (_ || _); [done|]. intros [= <-].
    rewrite !balance_insert. unfold moved. repeat case_bool_decide; naive_solver lia.
  - destruct (_ || _) eqn:Hc; [done|]. intros _. bool_prop. lia.
Qed.

#[global] Instance live : TokenLive t.
Proof.
  intros l tok a b n Hn. simpl in *. unfold transfer.
  rewrite (proj2 (Z.ltb_ge _ _)), (proj2 (Z.ltb_ge _ _)) by lia. by eexists.
Qed.
End BalanceMap.
