(* ===== verification/TokenContract.v ===== *)
(** * The platform token ([contracts/token/src/lib.rs], [royalty.rs])

    Balances, allowances, pause, admin handover and the royalty taken from a
    transfer.  [balances] is the persistent storage of the balances and
    [legacy_balances] the instance storage [migrate_balances] reads: empty in a
    fresh deployment, the balances of an older one that was upgraded
    ([upgraded]).  [code] is the contract code [upgrade] replaces.  TTL
    extensions change no value and
    are not modelled. *)
From S2P Require Import Prelude Machine Host TokenIface.

Inductive TokenError :=
| AlreadyInitialized | NotInitialized | InsufficientBalance | InsufficientAllowance
| AllowanceNotFound | AllowanceExpired | InvalidAmount | Unauthorized
| RoyaltyBpsTooHigh | ArithmeticOverflow | ContractPaused | NoPendingAdmin
| SupplyCapExceeded.

Definition MAX_SUPPLY : Z := 1000000000 * 10 ^ 7.

Record RoyaltyConfig := mkRoyalty { recipient : Address; bps : Z }.
Record Allowance := mkAllowance { amount : Z; expires_at : option Z }.

Inductive Event :=
| EvInit (admin : Address) (total_supply : Z)
| EvTransfer (from to : Address) (amount : Z)
| EvApproval (owner spender : Address) (amount : Z) (expires_at : option Z)
| EvAllowanceRevoked (owner spender : Address)
| EvPaused (admin : Address) | EvUnpaused (admin : Address)
| EvAdminProposed (current_admin new_admin : Address) | EvAdminNew (new_admin : Address)
| EvUpgraded (new_wasm_hash : BytesN32).

Record Store := mkStore {
  admin : option Address;
  balances : gmap Address Z;
  legacy_balances : gmap Address Z;
  total_supply : option Z;
  initialized : bool;
  pending_admin : option Address;
  paused : option bool;
  royalty : option RoyaltyConfig;
  allowances : gmap (Address * Address) Allowance;
  code : option BytesN32 }.

Definition empty_store : Store :=
  mkStore None ∅ ∅ None false None None None ∅ None.

Definition put_admin (a : Address) (s : Store) : Store :=
  mkStore (Some a) (balances s) (legacy_balances s) (total_supply s) (initialized s)
    (pending_admin s) (paused s) (royalty s) (allowances s) (code s).
Definition put_balances (b : gmap Address Z) (s : Store) : Store :=
  mkStore (admin s) b (legacy_balances s) (total_supply s) (initialized s)
    (pending_admin s) (paused s) (royalty s) (allowances s) (code s).
Definition put_total_supply (n : Z) (s : Store) : Store :=
  mkStore (admin s) (balances s) (legacy_balances s) (Some n) (initialized s)
    (pending_admin s) (paused s) (royalty s) (allowances s) (code s).
Definition put_initialized (s : Store) : Store :=
  mkStore (admin s) (balances s) (legacy_balances s) (total_supply s) true
    (pending_admin s) (paused s) (royalty s) (allowances s) (code s).
Definition put_pending_admin (o : option Address) (s : Store) : Store :=
  mkStore (admin s) (balances s) (legacy_balances s) (total_supply s) (initialized s)
    o (paused s) (royalty s) (allowances s) (code s).
Definition put_paused (b : bool) (s : Store) : Store :=
  mkStore (admin s) (balances s) (legacy_balances s) (total_supply s) (initialized s)
    (pending_admin s) (Some b) (royalty s) (allowances s) (code s).
Definition put_royalty (r : RoyaltyConfig) (s : Store) : Store :=
  mkStore (admin s) (balances s) (legacy_balances s) (total_supply s) (initialized s)
    (pending_admin s) (paused s) (Some r) (allowances s) (code s).
Definition put_allowances (m : gmap (Address * Address) Allowance) (s : Store) : Store :=
  mkStore (admin s) (balances s) (legacy_balances s) (total_supply s) (initialized s)
    (pending_admin s) (paused s) (royalty s) m (code s).
Definition put_code (h : BytesN32) (s : Store) : Store :=
  mkStore (admin s) (balances s) (legacy_balances s) (total_supply s) (initialized s)
    (pending_admin s) (paused s) (royalty s) (allowances s) (Some h).

Abbreviation M := (Contract unit Store Event TokenError).
Abbreviation W := (World unit Store Event).

(** ** Queries *)

Definition balance (user : Address) (s : Store) : Z :=
  match balances s !! user with Some value => value | None => 0 end.

Definition is_paused (s : Store) : bool := default false (paused s).

Definition get_royalty (s : Store) : option RoyaltyConfig := royalty s.

Definition allowance (owner spender : Address) (e : Env) (s : Store) : Z :=
  match allowances s !! (owner, spender) with
  | Some allow =>
      match expires_at allow with
      | Some exp => if exp <? timestamp e then 0 else amount allow
      | None => amount allow
      end
  | None => 0
  end.

(** ** Internal helpers *)

Definition require_admin (caller : Address) : M unit :=
  require_admin_of admin NotInitialized Unauthorized caller.

Definition set_balance (user : Address) (balance : Z) : M unit :=
  save (λ s, put_balances (<[user := balance]> (balances s)) s).

Definition apply_transfer (from to : Address) (amount : Z) : M unit :=
  reject_if (amount <=? 0) InvalidAmount ;;;
  reject_if (MAX_SUPPLY <? amount) SupplyCapExceeded ;;;
  reject_if (bool_decide (from = to)) InvalidAmount ;;;
  from_balance <- load (balance from) ;;
  reject_if (from_balance <? amount) InsufficientBalance ;;;
  royalty <- load get_royalty ;;
  royalty_amount <-
    match royalty with
    | Some config =>
        value <- ok_or (checked_mul_i128 amount (bps config)) ArithmeticOverflow ;;
        ret (Z.quot value 10000)
    | None => ret 0
    end ;;
  proceeds <- ok_or (checked_sub_i128 amount royalty_amount) ArithmeticOverflow ;;
  let recipient := recipient <$> royalty in
  from_after <- ok_or (checked_sub_i128 from_balance amount) ArithmeticOverflow ;;
  to_balance <- load (balance to) ;;
  let to_credit := if bool_decide (recipient = Some to) then amount else proceeds in
  to_after <- ok_or (checked_add_i128 to_balance to_credit) ArithmeticOverflow ;;
  set_balance from from_after ;;;
  set_balance to to_after ;;;
  match recipient with
  | Some recipient =>
      if (0 <? royalty_amount) && negb (bool_decide (recipient = to)) then
        recipient_balance <- load (balance recipient) ;;
        recipient_after <-
          ok_or (checked_add_i128 recipient_balance royalty_amount) ArithmeticOverflow ;;
        set_balance recipient recipient_after
      else ret tt
  | None => ret tt
  end ;;;
  publish (EvTransfer from to amount).

(** ** Entry points *)

Definition initialize (admin : Address) (total_supply : Z) : M unit :=
  done <- load initialized ;;
  reject_if done AlreadyInitialized ;;;
  reject_if (total_supply <=? 0) InvalidAmount ;;;
  reject_if (MAX_SUPPLY <? total_supply) SupplyCapExceeded ;;;
  require_auth admin ;;;
  save (put_admin admin) ;;;
  save (put_total_supply total_supply) ;;;
  set_balance admin total_supply ;;;
  save (put_admin admin) ;;;
  save (put_paused false) ;;;
  save put_initialized ;;;
  publish (EvInit admin total_supply).

Definition transfer (from to : Address) (amount : Z) : M unit :=
  stopped <- load is_paused ;;
  reject_if stopped ContractPaused ;;;
  require_auth from ;;;
  apply_transfer from to amount.

Definition pause (admin : Address) : M unit :=
  require_admin admin ;;;
  save (put_paused true) ;;;
  publish (EvPaused admin).

Definition unpause (admin : Address) : M unit :=
  require_admin admin ;;;
  save (put_paused false) ;;;
  publish (EvUnpaused admin).

Definition propose_admin (current_admin new_admin : Address) : M unit :=
  require_admin current_admin ;;;
  save (put_pending_admin (Some new_admin)) ;;;
  publish (EvAdminProposed current_admin new_admin).

Definition accept_admin (new_admin : Address) : M unit :=
  o <- load pending_admin ;;
  pending <- ok_or o NoPendingAdmin ;;
  reject_if (negb (bool_decide (pending = new_admin))) Unauthorized ;;;
  require_auth new_admin ;;;
  save (put_admin new_admin) ;;;
  save (put_pending_admin None) ;;;
  publish (EvAdminNew new_admin).

Definition upgrade (admin : Address) (new_wasm_hash : BytesN32) : M unit :=
  require_admin admin ;;;
  save (put_code new_wasm_hash) ;;;
  publish (EvUpgraded new_wasm_hash).

Fixpoint migrate_holders (holders : list Address) : M unit :=
  match holders with
  | [] => ret tt
  | holder :: holders =>
      legacy <- load (λ s, legacy_balances s !! holder) ;;
      match legacy with
      | Some balance => set_balance holder balance
      | None => ret tt
      end ;;;
      migrate_holders holders
  end.

Definition migrate_balances (admin : Address) (holders : list Address) : M unit :=
  require_admin admin ;;;
  migrate_holders holders.

Definition set_royalty (admin recipient : Address) (bps : Z) : M unit :=
  require_admin admin ;;;
  reject_if (10000 <? bps) RoyaltyBpsTooHigh ;;;
  save (put_royalty (mkRoyalty recipient bps)).

Definition approve (owner spender : Address) (amount : Z) (expires_at : option Z) : M unit :=
  reject_if (amount <=? 0) InvalidAmount ;;;
  reject_if (MAX_SUPPLY <? amount) SupplyCapExceeded ;;;
  require_auth owner ;;;
  save (λ s, put_allowances
    (<[(owner, spender) := mkAllowance amount expires_at]> (allowances s)) s) ;;;
  publish (EvApproval owner spender amount expires_at).

Definition expired (exp : option Z) (now : Z) : bool :=
  match exp with Some exp => exp <? now | None => false end.

Definition transfer_from (spender from to : Address) (amt : Z) : M unit :=
  stopped <- load is_paused ;;
  reject_if stopped ContractPaused ;;;
  require_auth spender ;;;
  o <- load (λ s, allowances s !! (from, spender)) ;;
  allow <- ok_or o AllowanceNotFound ;;
  t <- now ;;
  reject_if (expired (expires_at allow) t) AllowanceExpired ;;;
  reject_if (amount allow <? amt) InsufficientAllowance ;;;
  apply_transfer from to amt ;;;
  left_over <- or_trap (checked_sub_i128 (amount allow) amt) ;;
  if left_over =? 0 then
    save (λ s, put_allowances (delete (from, spender) (allowances s)) s)
  else
    save (λ s, put_allowances
      (<[(from, spender) := mkAllowance left_over (expires_at allow)]> (allowances s)) s).

Definition revoke_allowance (owner spender : Address) : M unit :=
  require_auth owner ;;;
  save (λ s, put_allowances (delete (owner, spender) (allowances s)) s) ;;;
  publish (EvAllowanceRevoked owner spender).

(** ** The calls of the deployed contract *)

Inductive Call :=
| CInitialize (admin : Address) (total_supply : Z)
| CTransfer (from to : Address) (amount : Z)
| CPause (admin : Address) | CUnpause (admin : Address)
| CProposeAdmin (current_admin new_admin : Address) | CAcceptAdmin (new_admin : Address)
| CMigrateBalances (admin : Address) (holders : list Address)
| CSetRoyalty (admin recipient : Address) (bps : Z)
| CApprove (owner spender : Address) (amount : Z) (expires_at : option Z)
| CTransferFrom (spender from to : Address) (amount : Z)
| CRevokeAllowance (owner spender : Address).

Definition exec (c : Call) : M unit :=
  match c with
  | CInitialize a n => initialize a n
  | CTransfer a b n => transfer a b n
  | CPause a => pause a
  | CUnpause a => unpause a
  | CProposeAdmin a b => propose_admin a b
  | CAcceptAdmin a => accept_admin a
  | CMigrateBalances a hs => migrate_balances a hs
  | CSetRoyalty a r n => set_royalty a r n
  | CApprove a b n x => approve a b n x
  | CTransferFrom s a b n => transfer_from s a b n
  | CRevokeAllowance a b => revoke_allowance a b
  end.

(** Arguments of the types the entry points declare. *)
Definition valid (c : Call) : Prop :=
  match c with
  | CInitialize _ n | CTransfer _ _ n | CApprove _ _ n _ | CTransferFrom _ _ _ n => i128 n = true
  | CSetRoyalty _ _ n => u32 n = true
  | _ => True
  end.

(** ** Supply and non-negativity *)

Abbreviation total := (map_sum (λ _ v, v)).

Lemma at_key_balance s a : at_key (λ _ v, v) (balances s) a = balance a s.
Proof. done. Qed.

(** What every store keeps, whatever is migrated: no negative balance, in either storage,
    and a royalty of at most the whole amount. *)
Record sane (s : Store) : Prop := {
  sane_nonneg a v : balances s !! a = Some v → 0 ≤ v;
  sane_legacy a v : legacy_balances s !! a = Some v → 0 ≤ v;
  sane_bps c : royalty s = Some c → 0 ≤ bps c ≤ 10000 }.

(** Without legacy balances: the balances are non-negative, and once the token is initialised
    they sum to the total supply. *)
Record inv (s : Store) : Prop := {
  inv_legacy : legacy_balances s = ∅;
  inv_nonneg a v : balances s !! a = Some v → 0 ≤ v;
  inv_bps c : royalty s = Some c → 0 ≤ bps c ≤ 10000;
  inv_supply :
    if initialized s
    then ∃ T, total_supply s = Some T ∧ 0 < T ≤ MAX_SUPPLY ∧ total (balances s) = T
    else balances s = ∅ }.

Lemma inv_sane s : inv s → sane s.
Proof.
  intros [Hl Hn Hb _]. split; [done| |done]. intros a v. by rewrite Hl, lookup_empty.
Qed.

Lemma sane_balance_nonneg s a : sane s → 0 ≤ balance a s.
Proof.
  intros Hs. unfold balance. destruct (balances s !! a) eqn:Ha; [|lia].
  by apply (sane_nonneg s Hs a).
Qed.

Lemma inv_balance_nonneg s a : inv s → 0 ≤ balance a s.
Proof. intros Hs%inv_sane. by apply sane_balance_nonneg. Qed.

Lemma inv_balance_le s a : inv s → balance a s ≤ MAX_SUPPLY.
Proof.
  intros Hs. rewrite <-at_key_balance.
  assert (at_key (λ _ v, v) (balances s) a ≤ total (balances s)) as Hle.
  { apply at_key_le_map_sum. intros k v. apply (inv_nonneg s Hs). }
  pose proof (inv_supply s Hs) as Hsup. destruct (initialized s).
  - destruct Hsup as (T & _ & HT & <-). lia.
  - rewrite Hsup, map_sum_empty in *. unfold MAX_SUPPLY. lia.
Qed.

(** The royalty of a transfer of [n], and the balances after it. *)
Definition royalty_amount (s : Store) (n : Z) : Z :=
  match royalty s with Some c => n * bps c / 10000 | None => 0 end.

Definition royalty_to (s : Store) (to : Address) (n : Z) : option Address :=
  match royalty s with
  | Some c => if (0 <? royalty_amount s n) && negb (bool_decide (recipient c = to))
              then Some (recipient c) else None
  | None => None
  end.

Definition add_balance (a : Address) (n : Z) (m : gmap Address Z) : gmap Address Z :=
  <[a := default 0 (m !! a) + n]> m.

Definition credit (s : Store) (to : Address) (n : Z) : Z :=
  if bool_decide (recipient <$> royalty s = Some to) then n else n - royalty_amount s n.

Definition after_transfer (s : Store) (from to : Address) (n : Z) : gmap Address Z :=
  let m := add_balance to (credit s to n) (add_balance from (- n) (balances s)) in
  match royalty_to s to n with
  | Some r => add_balance r (royalty_amount s n) m
  | None => m
  end.

Lemma total_add_balance a n m : total (add_balance a n m) = total m + n.
Proof.
  unfold add_balance. rewrite map_sum_insert. unfold at_key. destruct (m !! a); simpl; lia.
Qed.

Lemma royalty_amount_bounds s n : sane s → 0 ≤ n → 0 ≤ royalty_amount s n ≤ n.
Proof.
  intros Hs Hn. unfold royalty_amount. destruct (royalty s) as [c|] eqn:Hc; [|lia].
  apply bps_share_bounds; [done|]. by apply (sane_bps s Hs).
Qed.

(** The three postings of a transfer cancel. *)
Lemma total_after_transfer s from to n :
  sane s → 0 ≤ n → total (after_transfer s from to n) = total (balances s).
Proof.
  intros Hs Hn. pose proof (royalty_amount_bounds s n Hs Hn).
  assert (royalty s = None → royalty_amount s n = 0) as H0.
  { unfold royalty_amount. by intros ->. }
  unfold after_transfer, credit, royalty_to.
  destruct (royalty s) as [c|]; simpl in *.
  - destruct (Z.ltb_spec 0 (royalty_amount s n)); simpl;
      repeat case_bool_decide; simplify_eq/=; rewrite ?total_add_balance; try lia; naive_solver.
  - rewrite !total_add_balance, H0; [lia|done].
Qed.

Lemma default_add_balance m a n b :
  default 0 (add_balance a n m !! b) =
    default 0 (m !! b) + (if bool_decide (b = a) then n else 0).
Proof.
  unfold add_balance. case_bool_decide as Hb.
  - subst. rewrite lookup_insert_eq. done.
  - rewrite lookup_insert_ne by done. lia.
Qed.

Lemma add_balance_nonneg m a n :
  (∀ k v, m !! k = Some v → 0 ≤ v) → 0 ≤ default 0 (m !! a) + n →
  ∀ k v, add_balance a n m !! k = Some v → 0 ≤ v.
Proof.
  intros Hm Ha k v. unfold add_balance.
  destruct (decide (k = a)) as [->|Hk].
  - rewrite lookup_insert_eq. by intros [= <-].
  - rewrite lookup_insert_ne by done. apply Hm.
Qed.

Lemma default_balance s a : default 0 (balances s !! a) = balance a s.
Proof. done. Qed.

Lemma add_balance_insert m a x n :
  x = default 0 (m !! a) + n → <[a := x]> m = add_balance a n m.
Proof. by intros ->. Qed.

(** The exact outcome of the internal transfer, branch by branch: with the
    invariant, its checked additions never overflow. *)
Definition transfer_outcome (w : W) (from to : Address) (n : Z) : outcome W TokenError unit :=
  if n <=? 0 then Failed w InvalidAmount
  else if MAX_SUPPLY <? n then Failed w SupplyCapExceeded
  else if bool_decide (from = to) then Failed w InvalidAmount
  else if balance from (store w) <? n then Failed w InsufficientBalance
  else Done (mkWorld (ledger w) (put_balances (after_transfer (store w) from to n) (store w))
               (log w ++ [EvTransfer from to n])) tt.

(** The royalty expression of the code computes [royalty_amount]. *)
Lemma royalty_step s n e w :
  sane s → 0 < n ≤ MAX_SUPPLY →
  match royalty s with
  | Some config =>
      value <- ok_or (checked_mul_i128 n (bps config)) ArithmeticOverflow ;;
      ret (Z.quot value 10000)
  | None => ret 0
  end e w = Done (E := TokenError) (w : W) (royalty_amount s n).
Proof.
  intros Hs Hn. unfold royalty_amount. destruct (royalty s) as [c|] eqn:Hc; [|done].
  pose proof (sane_bps s Hs c Hc). unfold checked_mul_i128, bind.
  rewrite checked_in by (unfold MAX_SUPPLY, i128_min, i128_max in *; nia).
  simpl. unfold ret. by rewrite quot_floor by nia.
Qed.

Lemma after_transfer_royalty s from to n :
  after_transfer s from to n =
    let m := add_balance to (credit s to n) (add_balance from (- n) (balances s)) in
    match recipient <$> get_royalty s with
    | Some r => if (0 <? royalty_amount s n) && negb (bool_decide (r = to))
                then add_balance r (royalty_amount s n) m else m
    | None => m
    end.
Proof. unfold after_transfer, royalty_to, get_royalty. destruct (royalty s); cases. Qed.

Lemma apply_transfer_run from to n e (w : W) :
  inv (store w) → apply_transfer from to n e w = transfer_outcome w from to n.
Proof.
  intros Hs. destruct w as [l s ev]. simpl in Hs.
  unfold apply_transfer, transfer_outcome, reject_if. unfold bind at 1. simpl.
  destruct (Z.leb_spec n 0); [done|]. unfold bind at 1. simpl.
  destruct (Z.ltb_spec MAX_SUPPLY n); [done|]. unfold bind at 1. simpl.
  case_bool_decide as Hft; [done|]. unfold bind at 1, load at 1. simpl.
  unfold bind at 1. simpl. destruct (Z.ltb_spec (balance from s) n); [done|].
  unfold bind at 1, load at 1. simpl. unfold bind at 1.
  unfold get_royalty at 1. rewrite royalty_step by (lia || by apply inv_sane).
  pose proof (royalty_amount_bounds s n (inv_sane s Hs) ltac:(lia)) as Hr.
  pose proof (inv_balance_le s from Hs). pose proof (inv_balance_le s to Hs).
  pose proof (inv_balance_nonneg s to Hs).
  assert (MAX_SUPPLY < 2 ^ 60) by done.
  unfold_ops. unfold bind at 1. rewrite checked_in by range_lia. simpl.
  unfold bind at 1. rewrite checked_in by range_lia. simpl.
  unfold load at 1. unfold bind at 1. simpl.
  assert (0 ≤ (if bool_decide (recipient <$> get_royalty s = Some to) then n
               else n - royalty_amount s n) ≤ n) by (case_bool_decide; lia).
  unfold bind at 1. rewrite checked_in by range_lia. simpl.
  unfold set_balance, save. unfold bind at 1. simpl. unfold bind at 1. simpl.
  change (if bool_decide (recipient <$> get_royalty s = Some to) then n
          else n - royalty_amount s n) with (credit s to n) in *.
  rewrite (add_balance_insert _ from _ (- n)) by (rewrite default_balance; lia).
  rewrite (add_balance_insert _ to _ (credit s to n))
    by (rewrite default_add_balance, bool_decide_eq_false_2, default_balance by done; lia).
  rewrite after_transfer_royalty. cbv zeta.
  set (m := add_balance to _ _).
  destruct (recipient <$> get_royalty s) as [r|]; [|done].
  destruct (0 <? royalty_amount s n) eqn:Hpos; simpl; [|done].
  case_bool_decide as Hrt; simpl; [done|].
  assert (0 ≤ balance r s ≤ MAX_SUPPLY) by
    (split; [by apply inv_balance_nonneg|by apply inv_balance_le]).
  assert (i128_min ≤ default 0 (m !! r) + royalty_amount s n ≤ i128_max).
  { unfold m. rewrite !default_add_balance, default_balance. repeat case_bool_decide; range_lia. }
  unfold bind, load. simpl. rewrite <-default_balance. simpl. rewrite checked_in by done. done.
Qed.

(** A transfer that succeeds is this posting, also where the balances are not bounded by the
    supply and the checked additions could fail. *)
Lemma apply_transfer_done from to n e (w w' : W) u :
  sane (store w) →
  apply_transfer from to n e w = Done w' u →
  0 < n ≤ MAX_SUPPLY ∧ n ≤ balance from (store w) ∧ from ≠ to ∧
  w' = mkWorld (ledger w) (put_balances (after_transfer (store w) from to n) (store w))
         (log w ++ [EvTransfer from to n]).
Proof.
  intros Hs Hrun. destruct w as [l s ev]. simpl in Hs.
  unfold apply_transfer in Hrun. run_inv. bool_prop.
  rewrite royalty_step in * by (done || lia). simplify_eq.
  unfold set_balance in *. run_inv. checked_prop. simpl in *.
  split_and!; [lia..|done|]. rewrite after_transfer_royalty. cbv zeta.
  change (if bool_decide (recipient <$> get_royalty s = Some to) then n
          else n - royalty_amount s n) with (credit s to n) in *.
  rewrite (add_balance_insert _ from _ (- n)) in * by (rewrite default_balance; lia).
  rewrite (add_balance_insert _ to _ (credit s to n)) in *
    by (rewrite default_add_balance, bool_decide_eq_false_2, default_balance by done; lia).
  destruct (recipient <$> get_royalty s) as [r|]; [|by run_inv].
  destruct ((0 <? royalty_amount s n) && negb (bool_decide (r = to))); run_inv; [|done].
  by checked_prop.
Qed.

Lemma sane_after_transfer s from to n :
  sane s → 0 < n ≤ balance from s → sane (put_balances (after_transfer s from to n) s).
Proof.
  intros Hs Hn. pose proof (royalty_amount_bounds s n Hs ltac:(lia)) as Hr.
  assert (0 ≤ credit s to n) by (unfold credit; case_bool_decide; lia).
  split; simpl; [|apply (sane_legacy s Hs)|apply (sane_bps s Hs)].
  unfold after_transfer.
  assert (∀ k v, add_balance to (credit s to n) (add_balance from (- n) (balances s)) !! k
            = Some v → 0 ≤ v) as Hm.
  { apply add_balance_nonneg.
    - apply add_balance_nonneg; [apply (sane_nonneg s Hs)|]. rewrite default_balance. lia.
    - rewrite default_add_balance, default_balance. pose proof (sane_balance_nonneg s to Hs).
      case_bool_decide; subst; lia. }
  destruct (royalty_to s to n) as [r|]; [|done]. apply add_balance_nonneg; [done|].
  destruct (_ !! r) eqn:Hlr; simpl; [|lia]. apply Hm in Hlr. lia.
Qed.

Lemma inv_after_transfer s from to n :
  inv s → 0 < n ≤ balance from s → inv (put_balances (after_transfer s from to n) s).
Proof.
  intros Hs Hn. destruct (sane_after_transfer s from to n (inv_sane s Hs) Hn) as [H1 _ H3].
  split; [apply (inv_legacy s Hs)|done..|]. simpl.
  pose proof (inv_supply s Hs) as Hsup. destruct (initialized s).
  - destruct Hsup as (T & HT & Hb & Hsum). exists T.
    rewrite total_after_transfer by (lia || by apply inv_sane). done.
  - unfold balance in Hn. rewrite Hsup, lookup_empty in Hn. lia.
Qed.

(** ** Every entry point keeps the invariant *)

Lemma inv_unchanged s s' :
  inv s → balances s' = balances s → legacy_balances s' = legacy_balances s →
  total_supply s' = total_supply s → initialized s' = initialized s →
  royalty s' = royalty s → inv s'.
Proof.
  intros [H1 H2 H3 H4] Eb El Et Ei Er. split; rewrite ?Eb, ?El, ?Et, ?Ei, ?Er; done.
Qed.

(** ** Migration

    [migrate_balances] sets the balance of each listed holder that has a legacy entry to that
    entry, whatever the balance was. *)
Definition restore (legacy m : gmap Address Z) (h : Address) : gmap Address Z :=
  match legacy !! h with Some v => <[h := v]> m | None => m end.

(** What a migration adds to the sum of the balances: for each listed holder, once, the legacy
    entry less the present balance. *)
Definition restored (holders : list Address) (legacy m : gmap Address Z) : Z :=
  map_sum (λ h v, if contains holders h then v - default 0 (m !! h) else 0) legacy.

Lemma migrate_holders_run holders e (w : W) :
  migrate_holders holders e w =
    Done (mkWorld (ledger w) (put_balances
      (foldl (restore (legacy_balances (store w))) (balances (store w)) holders) (store w))
      (log w)) tt.
Proof.
  revert w. induction holders as [|h hs IH]; intros [l [] ev]; [done|]. simpl.
  unfold bind at 1, load. simpl. unfold bind, set_balance, save, ret, restore. simpl.
  destruct (_ !! h); by rewrite IH.
Qed.

Lemma restore_lookup legacy m holders a :
  foldl (restore legacy) m holders !! a =
    if contains holders a then match legacy !! a with Some v => Some v | None => m !! a end
    else m !! a.
Proof.
  revert m. induction holders as [|h hs IH]; intros m; simpl; [done|]. rewrite IH.
  assert (restore legacy m h !! a = if bool_decide (a = h)
    then match legacy !! a with Some v => Some v | None => m !! a end else m !! a) as ->.
  { unfold restore. case_bool_decide; subst; destruct (legacy !! h) eqn:Hh; rewrite ?Hh; try done.
    - by rewrite lookup_insert_eq.
    - by rewrite lookup_insert_ne. }
  unfold contains. repeat case_bool_decide; try set_solver; by destruct (legacy !! a).
Qed.

Lemma restored_total legacy m holders :
  total (foldl (restore legacy) m holders) = total m + restored holders legacy m.
Proof.
  revert m. induction holders as [|h hs IH]; intros m; simpl.
  { unfold restored. rewrite (map_sum_zero (λ h v, if contains [] h then _ else _)); [lia|].
    intros h v _. unfold contains. by rewrite bool_decide_eq_false_2 by set_solver. }
  rewrite IH. unfold restored.
  rewrite (map_sum_change (λ x v, if contains (h :: hs) x then _ else _)
    (λ x v, if contains hs x then v - default 0 (restore legacy m h !! x) else 0) _ h).
  - unfold restore, at_key. destruct (legacy !! h) as [v|]; [|lia].
    rewrite map_sum_insert. unfold at_key. rewrite lookup_insert_eq. simpl.
    rewrite (proj2 (contains_true (h :: hs) h)) by set_solver.
    destruct (m !! h), (contains hs h); simpl; lia.
  - intros x v Hx. unfold contains. simpl.
    rewrite (bool_decide_ext (x ∈ h :: hs) (x ∈ hs)) by set_solver.
    assert (restore legacy m h !! x = m !! x) as ->; [|done].
    unfold restore. destruct (legacy !! h); [by rewrite lookup_insert_ne|done].
Qed.

Lemma migrate_holders_nop holders e (w : W) :
  legacy_balances (store w) = ∅ → migrate_holders holders e w = Done w tt.
Proof.
  intros Hl. rewrite migrate_holders_run, Hl. destruct w as [l [] ev]; simpl in *. do 3 f_equal.
  induction holders as [|h hs IH]; simpl; [done|]. unfold restore at 2. by rewrite lookup_empty.
Qed.

Lemma inv_initialize s a n :
  inv s → initialized s = false → 0 < n ≤ MAX_SUPPLY →
  inv (put_initialized (put_paused false (put_admin a
        (put_balances (<[a := n]> (balances s)) (put_total_supply n (put_admin a s)))))).
Proof.
  intros Hs Hi Hn. pose proof (inv_supply s Hs) as Hb. rewrite Hi in Hb.
  split; simpl.
  - apply (inv_legacy s Hs).
  - intros b v. rewrite Hb, lookup_insert. case_decide; [intros [= <-]; lia|].
    by rewrite lookup_empty.
  - apply (inv_bps s Hs).
  - exists n. rewrite map_sum_insert, Hb, map_sum_empty. unfold at_key.
    rewrite lookup_empty. split_and!; lia || done.
Qed.

Lemma token_exec_inv c e (w w' : W) u :
  valid c → inv (store w) → exec c e w = Done w' u → inv (store w').
Proof.
  intros Hv Hs Hrun. destruct c; simpl in Hv, Hrun.
  - unfold initialize, set_balance in Hrun. run_inv. bool_prop. simpl.
    by apply inv_initialize.
  - unfold transfer in Hrun. run_inv.
    apply apply_transfer_done in Hrun as (? & ? & ? & ->); [|by apply inv_sane].
    apply inv_after_transfer; [done|lia].
  - unfold pause, require_admin in Hrun. run_inv. simpl. (eapply inv_unchanged; [eassumption|done..]).
  - unfold unpause, require_admin in Hrun. run_inv. simpl. (eapply inv_unchanged; [eassumption|done..]).
  - unfold propose_admin, require_admin in Hrun. run_inv. simpl. (eapply inv_unchanged; [eassumption|done..]).
  - unfold accept_admin in Hrun. run_inv. simpl. (eapply inv_unchanged; [eassumption|done..]).
  - unfold migrate_balances, require_admin in Hrun. run_inv.
    rewrite migrate_holders_nop in Hrun by apply (inv_legacy _ Hs). by simplify_eq.
  - unfold set_royalty, require_admin in Hrun. run_inv. bool_prop. checked_prop. simpl.
    destruct Hs. split; simpl; try done. intros c [= <-]. simpl. lia.
  - unfold approve in Hrun. run_inv. simpl. (eapply inv_unchanged; [eassumption|done..]).
  - unfold transfer_from in Hrun. run_inv.
    match goal with H : apply_transfer _ _ _ _ _ = _ |- _ =>
      apply apply_transfer_done in H as (? & ? & ? & ->); [|by apply inv_sane] end.
    assert (inv (put_balances (after_transfer (store w) from to amount0) (store w)))
      as Hmid by (apply inv_after_transfer; [done|lia]).
    simpl in Hrun. case_match; run_inv; (eapply inv_unchanged; [exact Hmid|done..]).
  - unfold revoke_allowance in Hrun. run_inv. simpl. (eapply inv_unchanged; [eassumption|done..]).
Qed.

(** ** Accounting

    A deployment is fresh, or an older one that was upgraded: its balances are still in the
    instance storage and sum to its supply. *)
Record upgraded (s : Store) : Prop := {
  up_balances : balances s = ∅;
  up_initialized : initialized s = true;
  up_sane : sane s;
  up_supply : ∃ T, total_supply s = Some T ∧ 0 < T ≤ MAX_SUPPLY ∧ total (legacy_balances s) = T }.

(** Fresh books satisfy [inv]; upgraded ones keep the legacy entries they started with. *)
Definition books (s : Store) : Prop :=
  inv s ∨ sane s ∧ initialized s = true ∧
    ∃ T, total_supply s = Some T ∧ 0 < T ≤ MAX_SUPPLY ∧ total (legacy_balances s) = T.

Lemma books_sane s : books s → sane s.
Proof. intros [Hi|[Hs _]]; [by apply inv_sane|done]. Qed.

(** The tokens a call that returns brings into being. *)
Definition issued (c : Call) (s : Store) : Z :=
  match c with
  | CInitialize _ n => n
  | CMigrateBalances _ holders => restored holders (legacy_balances s) (balances s)
  | _ => 0
  end.

Fixpoint issued_by (calls : list (Env * Call)) (w : W) : Z :=
  match calls with
  | [] => 0
  | (e, c) :: calls =>
      let r := invoke (exec c) e w in
      (if has_returned r.2 then issued c (store w) else 0) + issued_by calls r.1
  end.

Lemma sane_migrated s holders :
  sane s → sane (put_balances (foldl (restore (legacy_balances s)) (balances s) holders) s).
Proof.
  intros [H1 H2 H3]. split; simpl; [|done..]. intros a v. rewrite restore_lookup.
  destruct (contains holders a); [|apply H1].
  destruct (legacy_balances s !! a) as [x|] eqn:Hx; [|apply H1].
  intros [= <-]. by apply (H2 a).
Qed.

Lemma sane_unchanged s s' :
  sane s → balances s' = balances s → legacy_balances s' = legacy_balances s →
  royalty s' = royalty s → sane s'.
Proof. intros [H1 H2 H3] Eb El Er. split; rewrite ?Eb, ?El, ?Er; done. Qed.

(** What one call does to the books. *)
Lemma exec_issues c e (w w' : W) u :
  valid c → sane (store w) → (initialized (store w) = false → balances (store w) = ∅) →
  exec c e w = Done w' u →
  sane (store w') ∧ legacy_balances (store w') = legacy_balances (store w) ∧
  (initialized (store w) = true →
     initialized (store w') = true ∧ total_supply (store w') = total_supply (store w)) ∧
  total (balances (store w')) = total (balances (store w)) + issued c (store w).
Proof.
  intros Hv Hs H0 Hrun. destruct c; simpl in Hv, Hrun; unfold issued.
  - unfold initialize, set_balance in Hrun. run_inv. bool_prop. simpl in *.
    rewrite map_sum_insert, H0 by done. unfold at_key. rewrite lookup_empty, map_sum_empty.
    split_and!; [|done|congruence|lia].
    split; simpl; [|apply (sane_legacy _ Hs)|apply (sane_bps _ Hs)].
    intros a v. rewrite lookup_insert, lookup_empty. case_decide; [intros [= <-]; lia|done].
  - unfold transfer in Hrun. run_inv.
    apply apply_transfer_done in Hrun as (? & ? & ? & ->); [|done]. simpl.
    rewrite total_after_transfer by (done || lia).
    split_and!; [apply sane_after_transfer; [done|lia]|done|done|lia].
  - unfold pause, require_admin in Hrun. run_inv. simpl.
    split_and!; [by eapply sane_unchanged|done|done|lia].
  - unfold unpause, require_admin in Hrun. run_inv. simpl.
    split_and!; [by eapply sane_unchanged|done|done|lia].
  - unfold propose_admin, require_admin in Hrun. run_inv. simpl.
    split_and!; [by eapply sane_unchanged|done|done|lia].
  - unfold accept_admin in Hrun. run_inv. simpl.
    split_and!; [by eapply sane_unchanged|done|done|lia].
  - unfold migrate_balances, require_admin in Hrun. run_inv.
    rewrite migrate_holders_run in Hrun. injection Hrun as <-. simpl.
    rewrite restored_total. split_and!; [by apply sane_migrated|done|done|lia].
  - unfold set_royalty, require_admin in Hrun. run_inv. bool_prop. checked_prop. simpl.
    split_and!; [|done|done|lia].
    split; simpl; [apply (sane_nonneg _ Hs)|apply (sane_legacy _ Hs)|].
    intros c [= <-]. simpl. lia.
  - unfold approve in Hrun. run_inv. simpl.
    split_and!; [by eapply sane_unchanged|done|done|lia].
  - unfold transfer_from in Hrun. run_inv.
    match goal with H : apply_transfer _ _ _ _ _ = _ |- _ =>
      apply apply_transfer_done in H as (? & ? & ? & ->); [|done] end.
    pose proof (sane_after_transfer (store w) from to amount0 Hs ltac:(lia)) as Hmid.
    pose proof (total_after_transfer (store w) from to amount0 Hs ltac:(lia)).
    simpl in Hrun. case_match; run_inv; simpl;
      (split_and!; [eapply sane_unchanged; [exact Hmid|done..]|done|done|lia]).
  - unfold revoke_allowance in Hrun. run_inv. simpl.
    split_and!; [by eapply sane_unchanged|done|done|lia].
Qed.

Lemma exec_books c e (w w' : W) u :
  valid c → books (store w) → exec c e w = Done w' u →
  books (store w') ∧ legacy_balances (store w') = legacy_balances (store w) ∧
  total (balances (store w')) = total (balances (store w)) + issued c (store w).
Proof.
  intros Hv Hb Hrun.
  destruct (exec_issues c e w w' u) as (Hs & Hl & Hi & Ht); [done|by apply books_sane| |done|].
  { destruct Hb as [Hb|(_ & Hi & _)]; intros H0; [|congruence].
    pose proof (inv_supply _ Hb) as H. by rewrite H0 in H. }
  split; [|done]. destruct Hb as [Hb|(_ & H0 & HT)]; [left; by eapply token_exec_inv|].
  right. destruct (Hi H0) as [Hi' Hts]. by rewrite Hi', Hts, Hl.
Qed.

Lemma run_calls_issues calls (w : W) :
  (∀ e c, (e, c) ∈ calls → valid c) → books (store w) →
  let w' := run_calls exec calls w in
  books (store w') ∧ legacy_balances (store w') = legacy_balances (store w) ∧
  total (balances (store w')) = total (balances (store w)) + issued_by calls w.
Proof.
  revert w. induction calls as [|[e c] calls IH]; intros w Hv Hb; simpl; [split_and!; [done..|lia]|].
  assert (books (store (invoke (exec c) e w).1) ∧
    legacy_balances (store (invoke (exec c) e w).1) = legacy_balances (store w) ∧
    total (balances (store (invoke (exec c) e w).1)) = total (balances (store w)) +
      if has_returned (invoke (exec c) e w).2 then issued c (store w) else 0) as (Hb1 & Hl1 & Ht1).
  { unfold invoke. destruct (exec c e w) as [w1 u| |] eqn:Hrun; simpl; [|split_and!; [done..|lia]..].
    apply (exec_books c e w w1 u); [apply (Hv e); by left|done|done]. }
  destruct (IH (invoke (exec c) e w).1) as (Hb' & Hl' & Ht'); [|done|].
  { intros e' c' Hin. apply (Hv e'). by right. }
  split; [done|]. split; [by rewrite Hl', Hl1|]. rewrite Ht', Ht1. lia.
Qed.

(** ** Properties *)

Section Deployed.
Context (address : Address).

(** A fresh deployment: empty storage. *)
Definition fresh (w : W) : Prop := store w = empty_store.
Definition token_reachable : W → Prop :=
  reachable exec (λ _, valid) address (λ _ _, True) fresh.
(** The same from a fresh or an upgraded deployment. *)
Definition books_reachable : W → Prop :=
  reachable exec (λ _, valid) address (λ _ _, True) (λ w, fresh w ∨ upgraded (store w)).

Lemma inv_empty : inv empty_store.
Proof.
  split; simpl; [done| |done|done]. intros a v. by rewrite lookup_empty.
Qed.

Lemma reachable_token_inv w : token_reachable w → inv (store w).
Proof.
  apply (reachable_inv _ _ _ _ _ (λ w, inv (store w))).
  - intros w0 ->. apply inv_empty.
  - intros c e w0 w1 u _ Hv Hs. by apply token_exec_inv.
  - done.
Qed.

Lemma reachable_books w : books_reachable w → books (store w).
Proof.
  apply (reachable_inv _ _ _ _ _ (λ w, books (store w))).
  - intros w0 [->|[_ ? ? ?]]; [left; apply inv_empty|by right].
  - intros c e w0 w1 u _ Hv Hs Hrun. by eapply exec_books.
  - done.
Qed.
End Deployed.

Lemma inv_balanced s :
  inv s → initialized s = true →
  ∃ T, total_supply s = Some T ∧ 0 < T ≤ MAX_SUPPLY ∧ total (balances s) = T ∧
    ∀ a, balance a s ≤ T.
Proof.
  intros Hs Hi. pose proof (inv_supply _ Hs) as Hsup.
  rewrite Hi in Hsup. destruct Hsup as (T & HT & Hb & Hsum). exists T.
  split_and!; [done|lia..|done|]. intros a.
  rewrite <-Hsum, <-at_key_balance. apply at_key_le_map_sum. intros k v. apply (inv_nonneg _ Hs).
Qed.

(** C8: where tokens come from.  Take any world reachable from a fresh deployment or from an
    upgraded one (its balances still in the legacy storage), and any further calls, by anyone,
    whatever the royalty.
    - The sum of the balances changes by exactly what the calls that return issue: the supply of
      an [initialize], and for a [migrate_balances] the legacy entries of the listed holders less
      their balances at that moment.  Transfers, delegated transfers and every other call issue
      nothing.  No balance is negative.
    - Without legacy entries nothing is ever migrated: once initialised, the balances sum to the
      total supply, at most [MAX_SUPPLY].
    - Before any migration of an upgraded deployment the balances are empty; a migration that
      lists every legacy holder then makes them sum to the total supply.  Migrating again after
      the holders have spent is not neutral: it issues the difference. *)
Theorem supply_conserved address (w : W) calls :
  books_reachable address w → (∀ e c, (e, c) ∈ calls → valid c) →
  let w' := run_calls exec calls w in
  total (balances (store w')) = total (balances (store w)) + issued_by calls w ∧
  (∀ a, 0 ≤ balance a (store w')) ∧
  (legacy_balances (store w) = ∅ → initialized (store w') = true →
     ∃ T, total_supply (store w') = Some T ∧ 0 < T ≤ MAX_SUPPLY ∧
       total (balances (store w')) = T ∧ ∀ a, balance a (store w') ≤ T) ∧
  (initialized (store w') = true → balances (store w') = ∅ →
     ∀ e adm holders w'' u, migrate_balances adm holders e w' = Done w'' u →
     (∀ h, is_Some (legacy_balances (store w') !! h) → h ∈ holders) →
     ∃ T, total_supply (store w'') = Some T ∧ 0 < T ≤ MAX_SUPPLY ∧ total (balances (store w'')) = T).
Proof.
  intros Hb%reachable_books Hv w'. destruct (run_calls_issues calls w Hv Hb) as (Hb' & Hl & Ht).
  fold w' in Hb', Hl, Ht. split; [done|]. split.
  { intros a. by apply sane_balance_nonneg, books_sane. }
  split.
  - intros H0 Hi. destruct Hb' as [Hb'|(_ & _ & T & _ & HT & Hsum)]; [by apply inv_balanced|].
    rewrite Hl, H0, map_sum_empty in Hsum. lia.
  - intros Hi H0 e adm holders w'' u Hrun Hall. unfold migrate_balances, require_admin in Hrun.
    run_inv. rewrite migrate_holders_run in Hrun. injection Hrun as <-. simpl.
    rewrite restored_total, H0, map_sum_empty. destruct Hb' as [Hb'|(_ & _ & T & HT & Hm & Hsum)].
    + destruct (inv_balanced _ Hb' Hi) as (T & _ & HT & Hsum & _).
      rewrite H0, map_sum_empty in Hsum. lia.
    + exists T. split_and!; [done|lia..|]. rewrite <-Hsum. simpl. unfold restored.
      apply map_sum_ext. intros h v Hh.
      rewrite (proj2 (contains_true _ _)) by by apply Hall. rewrite lookup_empty. simpl. lia.
Qed.

(** the exact behaviour of [transfer] in every reachable state.  A paused
    token and an unauthorised sender are refused first; then the four argument
    errors in order; otherwise the call succeeds, debits [amount], credits the
    recipient net of the royalty and the royalty recipient with the rest.  The
    [ArithmeticOverflow] branches of the code are unreachable. *)
Theorem transfer_exact address (w : W) e from to n :
  token_reachable address w →
  transfer from to n e w =
    (if is_paused (store w) then Failed w ContractPaused
     else if negb (authorized e from) then Trapped
     else transfer_outcome w from to n) ∧
  ∀ a, default 0 (after_transfer (store w) from to n !! a) =
    balance a (store w) - (if bool_decide (a = from) then n else 0)
    + (if bool_decide (a = to) then credit (store w) to n else 0)
    + (if bool_decide (royalty_to (store w) to n = Some a)
       then royalty_amount (store w) n else 0).
Proof.
  intros Hs%reachable_token_inv. split.
  - unfold transfer, bind at 1, load. destruct (is_paused (store w)); [done|].
    unfold bind at 1, reject_if, ret. unfold bind at 1, require_auth.
    destruct (authorized e from); [|done]. by apply apply_transfer_run.
  - intros a. unfold after_transfer. destruct (royalty_to (store w) to n) as [r|].
    + rewrite !default_add_balance, default_balance. repeat case_bool_decide; simplify_eq; lia.
    + rewrite !default_add_balance, default_balance. repeat case_bool_decide; simplify_eq; lia.
Qed.

(** a delegated transfer needs an unexpired allowance of at least its
    amount, consumes exactly that amount of it (removing it at zero), moves the
    owner's tokens exactly as [transfer] does, and touches no other allowance. *)
Theorem transfer_from_spends_allowance address (w w' : W) e spender from to n u :
  token_reachable address w →
  transfer_from spender from to n e w = Done w' u →
  ∃ allow, allowances (store w) !! (from, spender) = Some allow ∧
    expired (expires_at allow) (timestamp e) = false ∧ authorized e spender = true ∧
    0 < n ≤ amount allow ∧ n ≤ balance from (store w) ∧
    balances (store w') = after_transfer (store w) from to n ∧
    (∀ e', timestamp e' = timestamp e →
       allowance from spender e' (store w') = amount allow - n) ∧
    ∀ k, k ≠ (from, spender) → allowances (store w') !! k = allowances (store w) !! k.
Proof.
  intros Hs%reachable_token_inv Hrun. unfold transfer_from in Hrun. run_inv.
  match goal with H : apply_transfer _ _ _ _ _ = _ |- _ =>
    apply apply_transfer_done in H as (Hn & Hf & Hne & ->); [|by apply inv_sane] end.
  match goal with H : allowances _ !! _ = Some ?a |- _ => rename a into allow, H into Hallow end.
  bool_prop. checked_prop. exists allow. split; [done|]. split; [done|]. split; [done|].
  split; [lia|]. split; [lia|]. simpl in *.
  destruct (Z.eqb_spec (amount allow - n) 0) as [H0|H0]; run_inv; simpl; (split; [done|]); split.
  - intros e' _. unfold allowance. simpl. rewrite lookup_delete_eq. lia.
  - intros k Hk. by rewrite lookup_delete_ne.
  - intros e' He. unfold allowance. simpl. rewrite lookup_insert_eq. simpl.
    rewrite He. unfold expired in *. destruct (expires_at allow) as [x|]; [|done].
    by rewrite (proj2 (Z.ltb_ge _ _)) by lia.
  - intros k Hk. by rewrite lookup_insert_ne.
Qed.

(** ** The token as a [TokenLedger]

    A family of deployed tokens with no royalty configured implements the
    interface the other contracts rely on.  With a royalty it does not: see
    [royalty_breaks_interface]. *)
Module AsLedger.
Record t := mk {
  tokens : gmap Address Store;
  plain : map_Forall (λ _ s, inv s ∧ royalty s = None) tokens }.

Definition host (tok : Address) : Env := mkEnv 0 tok (λ _, true).

Definition balance_of (l : t) (tok h : Address) : Z :=
  match tokens l !! tok with Some s => balance h s | None => 0 end.

(** The token checks the authorisation of [a]; [token_call] has done so. *)
Definition call (s : Store) (tok a b : Address) (n : Z) : option Store :=
  match transfer a b n (host tok) (mkWorld tt s []) with
  | Done w _ => Some (store w)
  | _ => None
  end.

Lemma call_Some s tok a b n s' :
  inv s → call s tok a b n = Some s' →
  0 < n ≤ balance a s ∧ a ≠ b ∧ s' = put_balances (after_transfer s a b n) s.
Proof.
  intros Hs. unfold call. destruct (transfer a b n _ _) as [w u| |] eqn:Ht; [|done..].
  intros [= <-]. unfold transfer in Ht. run_inv.
  apply apply_transfer_done in Ht as (? & ? & ? & ->); [|by apply inv_sane]. simpl in *.
  split_and!; done || lia.
Qed.

Lemma plain_insert (l : t) tok a b n s s' :
  tokens l !! tok = Some s → call s tok a b n = Some s' →
  map_Forall (λ _ s, inv s ∧ royalty s = None) (<[tok := s']> (tokens l)).
Proof.
  intros Hs Hc. destruct (plain l tok s Hs) as [Hi Hr].
  destruct (call_Some s tok a b n s' Hi Hc) as (Hn & _ & ->).
  apply map_Forall_insert_2; [|apply plain].
  split; [|done]. by apply inv_after_transfer.
Qed.

Definition with_eq {A B} (o : option A) (k : ∀ a, o = Some a → option B) : option B :=
  match o as o' return (∀ a, o' = Some a → option B) → option B with
  | Some a => λ k, k a eq_refl
  | None => λ _, None
  end k.

Lemma with_eq_Some {A B} (o : option A) (k : ∀ a, o = Some a → option B) b :
  with_eq o k = Some b → ∃ a H, k a H = Some b.
Proof. destruct o as [a|]; simpl; [|done]. intros Hk. by exists a, eq_refl. Qed.

Definition transfer_of (l : t) (tok a b : Address) (n : Z) : option t :=
  with_eq (tokens l !! tok) (λ s Hs,
  with_eq (call s tok a b n) (λ s' Hc,
  Some (mk (<[tok := s']> (tokens l)) (plain_insert l tok a b n s s' Hs Hc)))).

#[global] Instance ledger : TokenLedger t :=
  {| token_balance := balance_of; token_transfer := transfer_of |}.

Lemma transfer_of_Some l tok a b n l' :
  transfer_of l tok a b n = Some l' →
  ∃ s s', tokens l !! tok = Some s ∧ call s tok a b n = Some s' ∧
    tokens l' = <[tok := s']> (tokens l).
Proof.
  intros (s & Hs & (s' & Hc & [= <-])%with_eq_Some)%with_eq_Some. by exists s, s'.
Qed.

(** One transfer, seen through the interface. *)
Lemma transfer_of_moves (l l' : t) tok a b n :
  transfer_of l tok a b n = Some l' →
  0 < n ≤ balance_of l tok a ∧ a ≠ b ∧
  ∀ tok' h, balance_of l' tok' h =
    balance_of l tok' h + (if bool_decide (tok' = tok) then moved a b h n else 0).
Proof.
  intros (s & s' & Hs & Hc & Hl')%transfer_of_Some.
  destruct (plain l tok s Hs) as [Hi Hr].
  destruct (call_Some s tok a b n s' Hi Hc) as (Hn & Hab & ->).
  unfold balance_of. rewrite Hs. split; [lia|]. split; [done|]. intros tok' h. rewrite Hl'.
  case_bool_decide as Ht; [subst; rewrite lookup_insert_eq, Hs|
    rewrite lookup_insert_ne by done; lia].
  unfold balance. simpl.
  assert (after_transfer s a b n = add_balance b n (add_balance a (- n) (balances s))) as ->.
  { unfold after_transfer, royalty_to, credit, royalty_amount. rewrite Hr. simpl.
    by rewrite Z.sub_0_r. }
  change (match ?m !! h with Some v => v | None => 0 end) with (default 0 (m !! h)).
  rewrite !default_add_balance. unfold moved.
  repeat case_bool_decide; simplify_eq; lia.
Qed.

#[global] Instance laws : TokenLaws t.
Proof.
  split.
  - intros l tok a b n l' tok' h (_ & _ & Hm)%transfer_of_moves. apply Hm.
  - intros l tok a b n l' (Hn & _ & _)%transfer_of_moves. simpl. lia.
Qed.
End AsLedger.

(** the repository's token implements the interface its clients rely on, as
    long as it charges no royalty: a transfer that returns moves exactly
    [amount] from the sender to a different recipient, changes no other balance
    of any token, and was covered by the sender's balance. *)
Theorem plain_token_is_ledger (l l' : AsLedger.t) tok a b n :
  token_transfer l tok a b n = Some l' →
  0 < n ≤ token_balance l tok a ∧ a ≠ b ∧
  ∀ tok' h, token_balance l' tok' h =
    token_balance l tok' h + (if bool_decide (tok' = tok) then moved a b h n else 0).
Proof. apply AsLedger.transfer_of_moves. Qed.

(** ** Concrete runs *)
Definition alice : Address := addr 1.
Definition bob : Address := addr 2.
Definition carol : Address := addr 3.
Definition token_address : Address := addr 99.
Definition any_auth : Env := mkEnv 1000 token_address (λ _, true).
Definition w_fresh : W := mkWorld tt empty_store [].
Definition call_w (c : Call) (w : W) : W := (invoke (exec c) any_auth w).1.
Definition w_init : W := call_w (CInitialize alice 1000) w_fresh.
Definition w_royalty : W := call_w (CSetRoyalty alice carol 500) w_init.
Definition w_approved : W := call_w (CApprove alice bob 300 None) w_init.

Lemma w_init_reachable : token_reachable token_address w_init.
Proof. apply reach_call; [by apply reach_init|done|done]. Qed.
Lemma w_royalty_reachable : token_reachable token_address w_royalty.
Proof. apply reach_call; [apply w_init_reachable|done|done]. Qed.
Lemma w_approved_reachable : token_reachable token_address w_approved.
Proof. apply reach_call; [apply w_init_reachable|done|done]. Qed.

(** An upgraded deployment, whose fifty tokens are Bob's legacy entry. *)
Definition w_upgraded : W :=
  mkWorld tt (mkStore (Some alice) ∅ {[bob := 50]} (Some 50) true None None None ∅ None) [].

Lemma w_upgraded_reachable : books_reachable token_address w_upgraded.
Proof.
  apply reach_init. right. split; simpl; [done|done| |].
  - split; simpl; [done| |done]. intros a v [_ <-]%lookup_singleton_Some. lia.
  - exists 50. split; [done|]. split; [unfold MAX_SUPPLY; lia|reflexivity].
Qed.

Lemma w_royalty_books : books_reachable token_address w_royalty.
Proof. do 2 (apply reach_call; [|done|done]). apply reach_init. by left. Qed.

Definition migrate_twice : list (Env * Call) :=
  [(any_auth, CMigrateBalances alice [bob]); (any_auth, CTransfer bob carol 20);
   (any_auth, CMigrateBalances alice [bob])].

(** A transfer under a royalty keeps the sum at the supply; migrating a second time after Bob
    has spent twenty tokens issues twenty. *)
Lemma supply_conserved_witness :
  total (balances (store (run_calls exec [(any_auth, CTransfer alice bob 200)] w_royalty))) = 1000 ∧
  issued_by migrate_twice w_upgraded = 70 ∧
  total (balances (store (run_calls exec migrate_twice w_upgraded))) = 70 ∧
  (∃ w'', migrate_balances alice [bob] any_auth w_upgraded = Done w'' tt ∧
     total (balances (store w'')) = 50).
Proof.
  destruct (supply_conserved token_address w_royalty [(any_auth, CTransfer alice bob 200)])
    as (_ & _ & Hs & _);
    [apply w_royalty_books|intros e c [[= -> ->]|[]%not_elem_of_nil]%elem_of_cons; reflexivity|].
  destruct (supply_conserved token_address w_upgraded migrate_twice) as (Ht & _ & _ & _).
  { apply w_upgraded_reachable. }
  { intros e c Hin. unfold migrate_twice in Hin.
    repeat (apply elem_of_cons in Hin as [[= -> ->]|Hin]; [reflexivity || exact I|]).
    by apply not_elem_of_nil in Hin. }
  destruct (supply_conserved token_address w_upgraded []) as (_ & _ & _ & Hm).
  { apply w_upgraded_reachable. }
  { intros e c []%not_elem_of_nil. }
  split; [|split; [vm_compute; reflexivity|split; [rewrite Ht; vm_compute; reflexivity|]]].
  - destruct Hs as (T & HT & _ & -> & _); [reflexivity|reflexivity|].
    vm_compute in HT. by injection HT as <-.
  - destruct (migrate_balances alice [bob] any_auth w_upgraded) as [w'' []| |] eqn:Hrun;
      [|vm_compute in Hrun; discriminate Hrun..].
    exists w''. split; [done|].
    destruct (Hm eq_refl eq_refl any_auth alice [bob] w'' tt Hrun) as (T & HT & _ & ->).
    { intros h [v Hv]. simpl in Hv. apply lookup_singleton_Some in Hv as [<- _]. by left. }
    injection Hrun as <-. vm_compute in HT. by injection HT as <-.
Defined.

Lemma transfer_exact_witness :
  transfer alice bob 200 any_auth w_royalty = transfer_outcome w_royalty alice bob 200 ∧
  default 0 (after_transfer (store w_royalty) alice bob 200 !! bob) = 190.
Proof.
  destruct (transfer_exact token_address w_royalty any_auth alice bob 200) as [H1 H2];
    [apply w_royalty_reachable|].
  split; [exact H1|rewrite H2; reflexivity].
Defined.

Lemma transfer_from_spends_allowance_witness :
  ∃ w' : W, allowance alice bob any_auth (store w') = 200 ∧ balance carol (store w') = 100.
Proof.
  exists (call_w (CTransferFrom bob alice carol 100) w_approved).
  destruct (transfer_from_spends_allowance token_address w_approved
    (call_w (CTransferFrom bob alice carol 100) w_approved) any_auth bob alice carol 100 tt)
    as (allow & Ha & _ & _ & _ & _ & Hb & Hall & _);
    [apply w_approved_reachable|vm_compute; reflexivity|].
  split.
  - rewrite (Hall any_auth) by reflexivity.
    vm_compute in Ha. injection Ha as <-. reflexivity.
  - reflexivity.
Defined.

Lemma w_init_plain :
  map_Forall (λ _ s, inv s ∧ royalty s = None) ({[token_address := store w_init]} : gmap Address Store).
Proof.
  apply map_Forall_singleton. split; [|reflexivity].
  exact (reachable_token_inv token_address w_init w_init_reachable).
Qed.

Definition plain_ledger : AsLedger.t := AsLedger.mk {[token_address := store w_init]} w_init_plain.

Lemma plain_token_is_ledger_witness :
  ∃ l', token_transfer plain_ledger token_address alice bob 10 = Some l' ∧
    token_balance l' token_address bob = 10.
Proof.
  destruct (token_transfer plain_ledger token_address alice bob 10) as [l'|] eqn:Ht;
    [|vm_compute in Ht; discriminate Ht].
  exists l'. split; [reflexivity|].
  destruct (plain_token_is_ledger plain_ledger l' token_address alice bob 10 Ht) as (_ & _ & Hm).
  rewrite Hm. reflexivity.
Defined.

(** ** What modelling showed *)

(** With a royalty configured the token moves less than [amount] to the
    recipient, so the law [transfer_moves] its clients need is false of it. *)
Lemma royalty_breaks_interface :
  ∃ w', transfer alice bob 200 any_auth w_royalty = Done w' tt ∧
    balance bob (store w') = balance bob (store w_royalty) + 190.
Proof. eexists. split; [vm_compute; reflexivity|vm_compute; reflexivity]. Qed.

(** [migrate_balances] never consumes the legacy entry it copies: every
    successful call sets each listed holder's balance to the legacy amount
    again, whatever the holder has spent since.  Running it twice mints. *)
Theorem migrate_balances_resets (w w' : W) e adm holders h v u :
  migrate_balances adm holders e w = Done w' u →
  h ∈ holders → legacy_balances (store w) !! h = Some v →
  balance h (store w') = v ∧ legacy_balances (store w') !! h = Some v.
Proof.
  intros Hrun Hin Hl. unfold migrate_balances, require_admin in Hrun. run_inv.
  rewrite migrate_holders_run in Hrun. injection Hrun as <-. simpl. split; [|done].
  rewrite <-default_balance. simpl. by rewrite restore_lookup, (proj2 (contains_true _ _) Hin), Hl.
Qed.

Definition w_legacy : W :=
  mkWorld tt (mkStore (Some alice) {[carol := 50]} {[bob := 50]} (Some 50) true None None
    None ∅ None) [].

(** Bob has already moved his 50 migrated tokens to Carol; the second migration
    gives him 50 more, and the balances sum to twice the supply. *)
Lemma migrate_balances_resets_witness :
  ∃ w' : W, balance bob (store w') = 50 ∧ total (balances (store w')) = 100 ∧
    total_supply (store w') = Some 50.
Proof.
  exists (call_w (CMigrateBalances alice [bob]) w_legacy).
  split; [|split; vm_compute; reflexivity].
  apply (migrate_balances_resets w_legacy _ any_auth alice [bob] bob 50 tt);
    [vm_compute; reflexivity|constructor|reflexivity].
Defined.
