(* ===== verification/Escrow.v ===== *)
(** * The two-party escrow ([contracts/escrow/src])

    A buyer creates an escrow for a seller ([create.rs]), funds it ([fund.rs]),
    and releases it in full or in part ([release.rs]) before its expiration, is
    refunded after it ([refund.rs]), or disputes it ([dispute.rs]) for the
    arbiter to resolve ([resolve.rs]).  Protocol fees accrue per token and are
    withdrawn by the admin ([lib.rs]).  [storage.rs] is the [Store]. *)
From S2P Require Import Prelude Machine Host TokenIface.

Inductive EscrowError :=
| NotFound | NotPending | Expired | Unauthorized | TokenNotAllowed | NotExpired
| AlreadyReleased | InvalidAmount | InvalidRecipient | InvalidExpiration
| AlreadyDisputed | DisputeResolutionNotImplemented | NoFeesAvailable | ContractPaused
| InvalidEscrowState | NoArbiterConfigured | NotDisputed | InvalidAllocation.

Inductive EscrowStatus := Created | Funded | Completed | Cancelled | Disputed.

#[export] Instance EscrowStatus_eq_dec : EqDecision EscrowStatus.
Proof. solve_decision. Defined.

Record Escrow := mkEscrow {
  buyer : Address;
  seller : Address;
  token : Address;
  amount : Z;
  original_amount : Z;
  status : EscrowStatus;
  expiration : Z }.

Record FeeRecord := mkFeeRecord {
  fee_escrow_id : Z; fee_token : Address; fee_amount : Z; fee_timestamp : Z }.

Inductive Event :=
| EvAdminChanged (old_admin : option Address) (admin : Address)
| EvCreated (escrow_id : Z) (buyer seller token : Address) (amount : Z)
| EvReleased (escrow_id : Z) (seller : Address) (amount : Z)
| EvFunded (escrow_id : Z) (actor token : Address) (amount : Z) (resulting : EscrowStatus)
| EvDisputed (escrow_id : Z) (actor token : Address) (amount : Z) (resulting : EscrowStatus)
| EvPartialReleased (escrow_id : Z) (actor token : Address) (amount : Z)
    (resulting : EscrowStatus)
| EvResolved (escrow_id : Z) (arbiter : Address) (buyer_amount seller_amount fee_amount : Z)
    (reason_hash : BytesN32)
| EvRefunded (escrow_id : Z) (buyer : Address) (amount : Z)
| EvFeeCollected (escrow_id : Z) (token : Address) (amount : Z)
| EvFeeWithdrawn (recipient token : Address) (amount : Z)
| EvUpgraded (new_wasm_hash : BytesN32).

(** ** Storage ([storage.rs]) *)

Definition DEFAULT_PROTOCOL_FEE_BPS : Z := 100.

(** The instance keys with a value of their own. *)
Record Config := mkConfig {
  admin : option Address;
  arbiter : option Address;
  protocol_fee_bps : option Z;
  code : option BytesN32 }.

Record Store := mkStore {
  config : Config;
  escrows : gmap Z Escrow;
  escrow_count : option Z;
  total_volume : option Z;
  whitelisted : gmap Address bool;
  protocol_fees : gmap Address Z;
  token_index : gmap Address (list Z);
  buyer_index : gmap Address (list Z);
  seller_index : gmap Address (list Z);
  fee_history : option (list FeeRecord) }.

Definition empty_store : Store :=
  mkStore (mkConfig None None None None) ∅ None None ∅ ∅ ∅ ∅ ∅ None.

Definition put_config (c : Config) (s : Store) : Store :=
  mkStore c (escrows s) (escrow_count s) (total_volume s) (whitelisted s)
    (protocol_fees s) (token_index s) (buyer_index s) (seller_index s) (fee_history s).
Definition put_escrows (m : gmap Z Escrow) (s : Store) : Store :=
  mkStore (config s) m (escrow_count s) (total_volume s) (whitelisted s)
    (protocol_fees s) (token_index s) (buyer_index s) (seller_index s) (fee_history s).
Definition put_count (n : Z) (s : Store) : Store :=
  mkStore (config s) (escrows s) (Some n) (total_volume s) (whitelisted s)
    (protocol_fees s) (token_index s) (buyer_index s) (seller_index s) (fee_history s).
Definition put_volume (n : Z) (s : Store) : Store :=
  mkStore (config s) (escrows s) (escrow_count s) (Some n) (whitelisted s)
    (protocol_fees s) (token_index s) (buyer_index s) (seller_index s) (fee_history s).
Definition put_whitelisted (m : gmap Address bool) (s : Store) : Store :=
  mkStore (config s) (escrows s) (escrow_count s) (total_volume s) m
    (protocol_fees s) (token_index s) (buyer_index s) (seller_index s) (fee_history s).
Definition put_fees (m : gmap Address Z) (s : Store) : Store :=
  mkStore (config s) (escrows s) (escrow_count s) (total_volume s) (whitelisted s)
    m (token_index s) (buyer_index s) (seller_index s) (fee_history s).
Definition put_token_index (m : gmap Address (list Z)) (s : Store) : Store :=
  mkStore (config s) (escrows s) (escrow_count s) (total_volume s) (whitelisted s)
    (protocol_fees s) m (buyer_index s) (seller_index s) (fee_history s).
Definition put_buyer_index (m : gmap Address (list Z)) (s : Store) : Store :=
  mkStore (config s) (escrows s) (escrow_count s) (total_volume s) (whitelisted s)
    (protocol_fees s) (token_index s) m (seller_index s) (fee_history s).
Definition put_seller_index (m : gmap Address (list Z)) (s : Store) : Store :=
  mkStore (config s) (escrows s) (escrow_count s) (total_volume s) (whitelisted s)
    (protocol_fees s) (token_index s) (buyer_index s) m (fee_history s).
Definition put_fee_history (l : list FeeRecord) (s : Store) : Store :=
  mkStore (config s) (escrows s) (escrow_count s) (total_volume s) (whitelisted s)
    (protocol_fees s) (token_index s) (buyer_index s) (seller_index s) (Some l).

Definition get_admin (s : Store) : option Address := admin (config s).
Definition set_admin_key (a : Address) (s : Store) : Store :=
  put_config (mkConfig (Some a) (arbiter (config s)) (protocol_fee_bps (config s))
                (code (config s))) s.
Definition get_arbiter (s : Store) : option Address := arbiter (config s).
Definition set_arbiter_key (a : Address) (s : Store) : Store :=
  put_config (mkConfig (admin (config s)) (Some a) (protocol_fee_bps (config s))
                (code (config s))) s.
Definition get_protocol_fee_bps (s : Store) : Z :=
  default DEFAULT_PROTOCOL_FEE_BPS (protocol_fee_bps (config s)).
Definition set_protocol_fee_bps_key (n : Z) (s : Store) : Store :=
  put_config (mkConfig (admin (config s)) (arbiter (config s)) (Some n)
                (code (config s))) s.
Definition set_code (h : BytesN32) (s : Store) : Store :=
  put_config (mkConfig (admin (config s)) (arbiter (config s)) (protocol_fee_bps (config s))
                (Some h)) s.

Definition load_escrow (id : Z) (s : Store) : option Escrow := escrows s !! id.
Definition save_escrow_key (id : Z) (escrow : Escrow) (s : Store) : Store :=
  put_escrows (<[id := escrow]> (escrows s)) s.
Definition is_token_whitelisted (token : Address) (s : Store) : bool :=
  default false (whitelisted s !! token).
Definition whitelist_token_key (token : Address) (s : Store) : Store :=
  put_whitelisted (<[token := true]> (whitelisted s)) s.
Definition get_total_volume (s : Store) : Z := default 0 (total_volume s).
Definition get_escrow_count (s : Store) : Z := default 0 (escrow_count s).
Definition get_protocol_fee (token : Address) (s : Store) : Z :=
  default 0 (protocol_fees s !! token).
Definition get_token_index (token : Address) (s : Store) : list Z :=
  default [] (token_index s !! token).
Definition get_buyer_index (buyer : Address) (s : Store) : list Z :=
  default [] (buyer_index s !! buyer).
Definition get_seller_index (seller : Address) (s : Store) : list Z :=
  default [] (seller_index s !! seller).
Definition append_to_token_index (token : Address) (id : Z) (s : Store) : Store :=
  put_token_index (<[token := get_token_index token s ++ [id]]> (token_index s)) s.
Definition append_to_buyer_index (buyer : Address) (id : Z) (s : Store) : Store :=
  put_buyer_index (<[buyer := get_buyer_index buyer s ++ [id]]> (buyer_index s)) s.
Definition append_to_seller_index (seller : Address) (id : Z) (s : Store) : Store :=
  put_seller_index (<[seller := get_seller_index seller s ++ [id]]> (seller_index s)) s.
Definition append_fee_record (r : FeeRecord) (s : Store) : Store :=
  put_fee_history (default [] (fee_history s) ++ [r]) s.

Definition with_status (st : EscrowStatus) (esc : Escrow) : Escrow :=
  mkEscrow (buyer esc) (seller esc) (token esc) (amount esc) (original_amount esc)
    st (expiration esc).
Definition with_amount (n : Z) (esc : Escrow) : Escrow :=
  mkEscrow (buyer esc) (seller esc) (token esc) n (original_amount esc)
    (status esc) (expiration esc).

(** ** The transition table ([escrow_state.rs]) *)

Definition allowed_from (from : EscrowStatus) : list EscrowStatus :=
  match from with
  | Created => [Funded; Cancelled]
  | Funded => [Completed; Cancelled; Disputed]
  | Disputed => [Completed; Cancelled]
  | _ => []
  end.

Definition assert_transition_allowed (from to : EscrowStatus) : result EscrowError unit :=
  if contains (allowed_from from) to then Ok tt else Err InvalidEscrowState.

(** ** Fees ([release.rs]) *)

Definition compute_fee_and_payout (amount fee_bps : Z) : result EscrowError (Z * Z) :=
  if amount <? 0 then Err InvalidAmount
  else
    let amount_u := as_u128 amount in
    let? fee_u := option_ok_or
      (v ← checked_mul_u128 amount_u fee_bps; checked_div_u128 v 10000) InvalidAmount in
    let? payout_u := option_ok_or (checked_sub_u128 amount_u fee_u) InvalidAmount in
    Ok (as_i128 fee_u, as_i128 payout_u).

Section Contract.
Context {L : Type} `{TokenLedger L}.
Abbreviation M := (Contract L Store Event EscrowError).

Definition require_admin_addr (admin : Address) : M unit :=
  require_admin_of get_admin Unauthorized Unauthorized admin.

Definition require_admin : M Address :=
  o <- load get_admin ;;
  admin <- ok_or o Unauthorized ;;
  require_auth admin ;;;
  ret admin.

Definition next_escrow_id : M Z :=
  count <- load get_escrow_count ;;
  next <- or_trap (checked_add_u64 count 1) ;;
  save (put_count next) ;;;
  ret next.

Definition add_to_total_volume (amount : Z) : M unit :=
  volume <- load get_total_volume ;;
  volume <- or_trap (checked_add_i128 volume amount) ;;
  save (put_volume volume).

Definition accumulate_protocol_fee (token : Address) (fee : Z) : M unit :=
  current <- load (get_protocol_fee token) ;;
  current <- or_trap (checked_add_i128 current fee) ;;
  save (λ s, put_fees (<[token := current]> (protocol_fees s)) s).

Definition decrement_protocol_fee (token : Address) (fee : Z) : M Z :=
  current <- load (get_protocol_fee token) ;;
  if current <? fee then trap
  else
    remaining <- or_trap (checked_sub_i128 current fee) ;;
    save (λ s, put_fees (<[token := remaining]> (protocol_fees s)) s) ;;;
    ret remaining.

Definition authorize_releaser (caller buyer : Address) : M unit :=
  require_auth caller ;;;
  if bool_decide (caller = buyer) then ret tt
  else
    admin <- load get_admin ;;
    if bool_decide (admin = Some caller) then ret tt else fail Unauthorized.

(** *** Entry points *)

Definition set_admin (admin : Address) : M unit :=
  old_admin <- load get_admin ;;
  match old_admin with
  | Some current_admin => require_auth current_admin
  | None => require_auth admin
  end ;;;
  save (set_admin_key admin) ;;;
  publish (EvAdminChanged old_admin admin).

Definition whitelist_token (admin tok : Address) : M unit :=
  require_admin_addr admin ;;;
  save (whitelist_token_key tok).

Definition create_escrow (buyer seller tok : Address) (amt expiration : Z) : M Z :=
  reject_if (amt <=? 0) InvalidAmount ;;;
  t <- now ;;
  reject_if (expiration <=? t) InvalidExpiration ;;;
  reject_if (bool_decide (buyer = seller)) InvalidRecipient ;;;
  require_auth buyer ;;;
  allowed <- load (is_token_whitelisted tok) ;;
  reject_if (negb allowed) TokenNotAllowed ;;;
  escrow_id <- next_escrow_id ;;
  save (save_escrow_key escrow_id
    (mkEscrow buyer seller tok amt amt Created expiration)) ;;;
  save (append_to_token_index tok escrow_id) ;;;
  save (append_to_buyer_index buyer escrow_id) ;;;
  save (append_to_seller_index seller escrow_id) ;;;
  publish (EvCreated escrow_id buyer seller tok amt) ;;;
  ret escrow_id.

Definition fund_escrow (caller : Address) (escrow_id : Z) : M unit :=
  require_auth caller ;;;
  o <- load (load_escrow escrow_id) ;;
  escrow <- ok_or o NotFound ;;
  reject_if (negb (bool_decide (caller = buyer escrow))) Unauthorized ;;;
  reject_if (negb (bool_decide (status escrow = Created))) InvalidEscrowState ;;;
  t <- now ;;
  reject_if (expiration escrow <=? t) Expired ;;;
  this <- me ;;
  token_call (token escrow) (buyer escrow) this (amount escrow) ;;;
  save (save_escrow_key escrow_id (with_status Funded escrow)) ;;;
  add_to_total_volume (amount escrow) ;;;
  publish (EvFunded escrow_id caller (token escrow) (amount escrow) Funded).

Definition release_escrow (caller : Address) (escrow_id : Z) : M unit :=
  o <- load (load_escrow escrow_id) ;;
  escrow <- ok_or o NotFound ;;
  authorize_releaser caller (buyer escrow) ;;;
  t <- now ;;
  reject_if (expiration escrow <=? t) Expired ;;;
  reject_if (bool_decide (status escrow = Completed)) AlreadyReleased ;;;
  reject_if (negb (bool_decide (status escrow = Funded))) InvalidEscrowState ;;;
  fee_bps <- load get_protocol_fee_bps ;;
  split <- lift (compute_fee_and_payout (amount escrow) fee_bps) ;;
  let fee := split.1 in
  let seller_amount := split.2 in
  this <- me ;;
  token_call (token escrow) this (seller escrow) seller_amount ;;;
  accumulate_protocol_fee (token escrow) fee ;;;
  save (append_fee_record (mkFeeRecord escrow_id (token escrow) fee t)) ;;;
  publish (EvFeeCollected escrow_id (token escrow) fee) ;;;
  save (save_escrow_key escrow_id (with_amount 0 (with_status Completed escrow))) ;;;
  publish (EvReleased escrow_id (seller escrow) seller_amount).

Definition partial_release (caller : Address) (escrow_id release_amount : Z) : M unit :=
  reject_if (release_amount <=? 0) InvalidAmount ;;;
  o <- load (load_escrow escrow_id) ;;
  escrow <- ok_or o NotFound ;;
  reject_if (bool_decide (status escrow = Completed)) AlreadyReleased ;;;
  reject_if (negb (bool_decide (status escrow = Funded))) InvalidEscrowState ;;;
  authorize_releaser caller (buyer escrow) ;;;
  t <- now ;;
  reject_if (expiration escrow <=? t) Expired ;;;
  reject_if (amount escrow <? release_amount) InvalidAmount ;;;
  fee_bps <- load get_protocol_fee_bps ;;
  split <- lift (compute_fee_and_payout release_amount fee_bps) ;;
  let fee := split.1 in
  let seller_amount := split.2 in
  this <- me ;;
  token_call (token escrow) this (seller escrow) seller_amount ;;;
  accumulate_protocol_fee (token escrow) fee ;;;
  save (append_fee_record (mkFeeRecord escrow_id (token escrow) fee t)) ;;;
  publish (EvFeeCollected escrow_id (token escrow) fee) ;;;
  remaining <- or_trap (checked_sub_i128 (amount escrow) release_amount) ;;
  let st := if remaining =? 0 then Completed else status escrow in
  save (save_escrow_key escrow_id (with_status st (with_amount remaining escrow))) ;;;
  publish (EvReleased escrow_id (seller escrow) seller_amount) ;;;
  publish (EvPartialReleased escrow_id caller (token escrow) release_amount st).

Definition refund_escrow (caller : Address) (escrow_id : Z) : M unit :=
  require_auth caller ;;;
  o <- load (load_escrow escrow_id) ;;
  escrow <- ok_or o NotFound ;;
  reject_if (negb (bool_decide (caller = buyer escrow))) Unauthorized ;;;
  reject_if (negb (bool_decide (status escrow = Funded))) InvalidEscrowState ;;;
  t <- now ;;
  reject_if (t <? expiration escrow) NotExpired ;;;
  this <- me ;;
  token_call (token escrow) this (buyer escrow) (amount escrow) ;;;
  lift (assert_transition_allowed (status escrow) Cancelled) ;;;
  save (save_escrow_key escrow_id (with_amount 0 (with_status Cancelled escrow))) ;;;
  publish (EvRefunded escrow_id (buyer escrow) (amount escrow)).

Definition dispute (caller : Address) (escrow_id : Z) : M unit :=
  require_auth caller ;;;
  o <- load (load_escrow escrow_id) ;;
  escrow <- ok_or o NotFound ;;
  reject_if (negb (bool_decide (caller = buyer escrow))) Unauthorized ;;;
  reject_if (bool_decide (status escrow = Disputed)) AlreadyDisputed ;;;
  reject_if (negb (bool_decide (status escrow = Funded))) InvalidEscrowState ;;;
  lift (assert_transition_allowed (status escrow) Disputed) ;;;
  save (save_escrow_key escrow_id (with_status Disputed escrow)) ;;;
  publish (EvDisputed escrow_id caller (token escrow) (amount escrow) Disputed).

Definition set_arbiter (admin arbiter : Address) : M unit :=
  require_admin_addr admin ;;;
  save (set_arbiter_key arbiter).

Definition pay_if_positive (tok from to : Address) (amt : Z) : M unit :=
  if 0 <? amt then token_call tok from to amt else ret tt.

Definition resolve_dispute (arbiter : Address)
    (escrow_id buyer_amount seller_amount fee_amount : Z) (reason_hash : BytesN32) : M unit :=
  o <- load get_arbiter ;;
  configured <- ok_or o NoArbiterConfigured ;;
  reject_if (negb (bool_decide (configured = arbiter))) Unauthorized ;;;
  require_auth arbiter ;;;
  o <- load (load_escrow escrow_id) ;;
  escrow <- ok_or o NotFound ;;
  reject_if (negb (bool_decide (status escrow = Disputed))) NotDisputed ;;;
  lift (assert_transition_allowed (status escrow) Completed) ;;;
  reject_if ((buyer_amount <? 0) || (seller_amount <? 0) || (fee_amount <? 0))
    InvalidAllocation ;;;
  total <- ok_or (v ← checked_add_i128 buyer_amount seller_amount;
                  checked_add_i128 v fee_amount) InvalidAllocation ;;
  reject_if (amount escrow <? total) InvalidAllocation ;;;
  this <- me ;;
  pay_if_positive (token escrow) this (buyer escrow) buyer_amount ;;;
  pay_if_positive (token escrow) this (seller escrow) seller_amount ;;;
  (if 0 <? fee_amount then accumulate_protocol_fee (token escrow) fee_amount else ret tt) ;;;
  save (save_escrow_key escrow_id (with_amount 0 (with_status Completed escrow))) ;;;
  publish (EvResolved escrow_id arbiter buyer_amount seller_amount fee_amount reason_hash).

Definition MAX_FEE_BPS : Z := 5000.

Definition set_protocol_fee_bps (admin : Address) (bps : Z) : M unit :=
  require_admin_addr admin ;;;
  reject_if (MAX_FEE_BPS <? bps) Unauthorized ;;;
  save (set_protocol_fee_bps_key bps).

Definition withdraw_fees (caller tok recipient : Address) (amt : Z) : M unit :=
  require_admin_addr caller ;;;
  reject_if (amt <=? 0) InvalidAmount ;;;
  accrued <- load (get_protocol_fee tok) ;;
  reject_if (accrued <? amt) NoFeesAvailable ;;;
  this <- me ;;
  token_call tok this recipient amt ;;;
  decrement_protocol_fee tok amt ;;;
  publish (EvFeeWithdrawn recipient tok amt).

Definition upgrade (new_wasm_hash : BytesN32) : M unit :=
  require_admin ;;;
  save (set_code new_wasm_hash) ;;;
  publish (EvUpgraded new_wasm_hash).

(** Aliases of older call sites: the escrow's buyer is the caller. *)
Definition release_funds (escrow_id : Z) : M unit :=
  o <- load (load_escrow escrow_id) ;;
  escrow <- ok_or o NotFound ;;
  release_escrow (buyer escrow) escrow_id.

Definition refund_buyer (escrow_id : Z) : M unit :=
  o <- load (load_escrow escrow_id) ;;
  escrow <- ok_or o NotFound ;;
  refund_escrow (buyer escrow) escrow_id.

Inductive Call :=
| CSetAdmin (admin : Address)
| CWhitelist (admin tok : Address)
| CCreate (buyer seller tok : Address) (amt expiration : Z)
| CFund (caller : Address) (id : Z)
| CRelease (caller : Address) (id : Z)
| CPartialRelease (caller : Address) (id amt : Z)
| CRefund (caller : Address) (id : Z)
| CDispute (caller : Address) (id : Z)
| CSetArbiter (admin arbiter : Address)
| CResolve (arbiter : Address) (id buyer_amount seller_amount fee_amount : Z)
    (reason_hash : BytesN32)
| CSetFeeBps (admin : Address) (bps : Z)
| CWithdrawFees (caller tok recipient : Address) (amt : Z).

Definition exec (c : Call) : M unit :=
  match c with
  | CSetAdmin a => set_admin a
  | CWhitelist a t => whitelist_token a t
  | CCreate b s t n x => ignore (create_escrow b s t n x)
  | CFund a id => fund_escrow a id
  | CRelease a id => release_escrow a id
  | CPartialRelease a id n => partial_release a id n
  | CRefund a id => refund_escrow a id
  | CDispute a id => dispute a id
  | CSetArbiter a b => set_arbiter a b
  | CResolve a id b s f h => resolve_dispute a id b s f h
  | CSetFeeBps a n => set_protocol_fee_bps a n
  | CWithdrawFees a t r n => withdraw_fees a t r n
  end.

Definition valid (e : Env) (c : Call) : Prop :=
  no_self_auth e ∧
  match c with
  | CCreate _ _ _ n _ => i128 n = true
  | CPartialRelease _ _ n => i128 n = true
  | CSetFeeBps _ n => u32 n = true
  | _ => True
  end.

End Contract.
