(* ===== verification/EscrowProps.v ===== *)
(** * The escrow refines its specification

    The specification of [Escrow.v] is a small transition system on a [View] of
    a world: the escrow records, the accrued fees and the tokens held per token,
    and the gross amount paid out of each escrow according to the event log.
    Every successful call is one step of it ([exec_refines]); solvency, the
    lifecycle and the payout bound are proved on the specification by rule
    induction and hold of every reachable world. *)
From S2P Require Import Prelude Machine Host TokenIface Escrow.

(** What an event says was paid out of escrow [id]. *)
Definition paid_by (id : Z) (ev : Event) : Z :=
  match ev with
  | EvReleased i _ n | EvRefunded i _ n | EvFeeCollected i _ n => if i =? id then n else 0
  | EvResolved i _ b s f _ => if i =? id then b + s + f else 0
  | _ => 0
  end.

Record View := mkView {
  v_escrows : gmap Z Escrow;
  v_fees : Address → Z;
  v_held : Address → Z;
  v_paid : Z → Z }.

(** The amount an escrow still owes: what it locks while funded or disputed. *)
Definition live (esc : Escrow) : Z :=
  match status esc with Funded | Disputed => amount esc | _ => 0 end.

Inductive spec_step (v v' : View) : Prop :=
| sp_stutter :
    v_escrows v' = v_escrows v → (∀ t, v_fees v' t = v_fees v t) →
    (∀ t, v_held v t ≤ v_held v' t) → (∀ i, v_paid v' i = v_paid v i) → spec_step v v'
| sp_create id esc :
    v_escrows v !! id = None → status esc = Created →
    0 < amount esc ≤ i128_max → original_amount esc = amount esc →
    v_escrows v' = <[id := esc]> (v_escrows v) → (∀ t, v_fees v' t = v_fees v t) →
    (∀ t, v_held v t ≤ v_held v' t) → (∀ i, v_paid v' i = v_paid v i) → spec_step v v'
| sp_fund id esc :
    v_escrows v !! id = Some esc → status esc = Created →
    v_escrows v' = <[id := with_status Funded esc]> (v_escrows v) →
    (∀ t, v_fees v' t = v_fees v t) →
    bumped (v_held v) (v_held v') (token esc) (amount esc) →
    (∀ i, v_paid v' i = v_paid v i) → spec_step v v'
| sp_release id esc gross fee st :
    v_escrows v !! id = Some esc → status esc = Funded →
    0 ≤ fee ≤ gross → gross ≤ amount esc →
    st = (if gross =? amount esc then Completed else Funded) →
    v_escrows v' = <[id := with_status st (with_amount (amount esc - gross) esc)]> (v_escrows v) →
    bumped (v_fees v) (v_fees v') (token esc) fee →
    at_most_drops (v_held v) (v_held v') (token esc) (gross - fee) →
    bumped (v_paid v) (v_paid v') id gross → spec_step v v'
| sp_refund id esc :
    v_escrows v !! id = Some esc → status esc = Funded →
    v_escrows v' = <[id := with_amount 0 (with_status Cancelled esc)]> (v_escrows v) →
    (∀ t, v_fees v' t = v_fees v t) →
    at_most_drops (v_held v) (v_held v') (token esc) (amount esc) →
    bumped (v_paid v) (v_paid v') id (amount esc) → spec_step v v'
| sp_dispute id esc :
    v_escrows v !! id = Some esc → status esc = Funded →
    v_escrows v' = <[id := with_status Disputed esc]> (v_escrows v) →
    (∀ t, v_fees v' t = v_fees v t) → (∀ t, v_held v t ≤ v_held v' t) →
    (∀ i, v_paid v' i = v_paid v i) → spec_step v v'
| sp_resolve id esc to_buyer to_seller fee :
    v_escrows v !! id = Some esc → status esc = Disputed →
    0 ≤ to_buyer → 0 ≤ to_seller → 0 ≤ fee → to_buyer + to_seller + fee ≤ amount esc →
    v_escrows v' = <[id := with_amount 0 (with_status Completed esc)]> (v_escrows v) →
    bumped (v_fees v) (v_fees v') (token esc) fee →
    at_most_drops (v_held v) (v_held v') (token esc) (to_buyer + to_seller) →
    bumped (v_paid v) (v_paid v') id (to_buyer + to_seller + fee) → spec_step v v'
| sp_withdraw tok n :
    v_escrows v' = v_escrows v → 0 < n ≤ v_fees v tok →
    bumped (v_fees v) (v_fees v') tok (- n) →
    at_most_drops (v_held v) (v_held v') tok n →
    (∀ i, v_paid v' i = v_paid v i) → spec_step v v'.

(** What the contract owes in token [t]: the live escrows and the accrued fees. *)
Definition owed (t : Address) (esc : Escrow) : Z :=
  if bool_decide (token esc = t) then live esc else 0.
Definition liability (v : View) (t : Address) : Z :=
  map_sum (λ _ esc, owed t esc) (v_escrows v) + v_fees v t.

(** The accounting of one escrow against what was paid out of it. *)
Definition accounted (esc : Escrow) (paid : Z) : Prop :=
  0 ≤ amount esc ∧ original_amount esc ≤ i128_max ∧ 0 ≤ paid ∧
  match status esc with
  | Created => paid = 0 ∧ amount esc = original_amount esc
  | Funded | Disputed => paid + amount esc = original_amount esc
  | Completed | Cancelled => amount esc = 0 ∧ paid ≤ original_amount esc
  end.

Record vinv (v : View) : Prop := {
  vinv_accounted id esc : v_escrows v !! id = Some esc → accounted esc (v_paid v id);
  vinv_unpaid id : v_escrows v !! id = None → v_paid v id = 0;
  vinv_fees t : 0 ≤ v_fees v t;
  vinv_solvent t : liability v t ≤ v_held v t }.

Lemma owed_nonneg v t : vinv v → ∀ id esc, v_escrows v !! id = Some esc → 0 ≤ owed t esc.
Proof.
  intros Hv id esc He. destruct (vinv_accounted v Hv id esc He) as (Ha & _).
  unfold owed, live. case_bool_decide; [|lia]. destruct (status esc); lia.
Qed.

(** A step that replaces escrow [id] keeps the invariant when the replacement is
    accounted for and what the record stops owing is covered by the change of
    fees and holdings. *)
Lemma vinv_replace v v' id esc esc' fee paid :
  vinv v → v_escrows v !! id = Some esc →
  v_escrows v' = <[id := esc']> (v_escrows v) → token esc' = token esc →
  accounted esc' (v_paid v id + paid) → 0 ≤ fee →
  bumped (v_fees v) (v_fees v') (token esc) fee →
  (∀ t, v_held v t + (if bool_decide (t = token esc) then live esc' - live esc + fee else 0)
        ≤ v_held v' t) →
  bumped (v_paid v) (v_paid v') id paid → vinv v'.
Proof.
  intros Hv He Hes Htok Hacc Hfee Hfees Hheld Hpaid. split.
  - intros i e. rewrite Hes, Hpaid. destruct (decide (i = id)) as [->|Hne].
    + rewrite lookup_insert_eq, bool_decide_eq_true_2 by done. by intros [= <-].
    + rewrite lookup_insert_ne, bool_decide_eq_false_2, Z.add_0_r by done.
      apply (vinv_accounted v Hv).
  - intros i. rewrite Hes, lookup_insert. case_decide; [done|]. intros Hi.
    rewrite Hpaid, bool_decide_eq_false_2 by done. rewrite (vinv_unpaid v Hv i Hi). done.
  - intros t. rewrite Hfees. pose proof (vinv_fees v Hv t). case_bool_decide; lia.
  - intros t. unfold liability. rewrite Hes, map_sum_insert. unfold at_key. rewrite He.
    pose proof (vinv_solvent v Hv t) as Hs. unfold liability in Hs.
    specialize (Hfees t). specialize (Hheld t). unfold owed in *. rewrite Htok.
    repeat case_bool_decide; simplify_eq; lia.
Qed.

(** A step that leaves the records alone. *)
Lemma vinv_same_records v v' :
  vinv v → v_escrows v' = v_escrows v → (∀ i, v_paid v' i = v_paid v i) →
  (∀ t, 0 ≤ v_fees v' t) → (∀ t, v_fees v' t - v_fees v t ≤ v_held v' t - v_held v t) →
  vinv v'.
Proof.
  intros Hv Hes Hp Hf Hh. split; [| |done|].
  - intros i e. rewrite Hes, Hp. apply (vinv_accounted v Hv).
  - intros i. rewrite Hes, Hp. apply (vinv_unpaid v Hv).
  - intros t. pose proof (vinv_solvent v Hv t). specialize (Hh t). unfold liability in *.
    rewrite Hes. lia.
Qed.

(** A step that adds a created escrow. *)
Lemma vinv_created v v' id esc :
  vinv v → v_escrows v !! id = None → status esc = Created →
  0 < amount esc ≤ i128_max → original_amount esc = amount esc →
  v_escrows v' = <[id := esc]> (v_escrows v) → (∀ t, v_fees v' t = v_fees v t) →
  (∀ t, v_held v t ≤ v_held v' t) → (∀ i, v_paid v' i = v_paid v i) → vinv v'.
Proof.
  intros Hv Hn Hst Ha Ho Hes Hf Hh Hp. split.
  - intros i e. rewrite Hes, Hp, lookup_insert.
    case_decide; [intros [= <-]; subst|apply (vinv_accounted v Hv)].
    unfold accounted. rewrite Hst, (vinv_unpaid v Hv _ Hn). lia.
  - intros i. rewrite Hes, Hp, lookup_insert. case_decide; [done|]. apply (vinv_unpaid v Hv).
  - intros t. rewrite Hf. apply (vinv_fees v Hv).
  - intros t. unfold liability. rewrite Hes, Hf, map_sum_insert_new by done.
    pose proof (vinv_solvent v Hv t). pose proof (Hh t). unfold liability in *.
    assert (owed t esc = 0) as ->; [|lia]. unfold owed, live. rewrite Hst. by case_bool_decide.
Qed.

(** The arithmetic side conditions of [vinv_replace], from the step's own. *)
Ltac replace_side Hst Hf Hh Hp :=
  try done; try lia;
  unfold bumped, at_most_drops in *;
  try (let x := fresh in intros x; try specialize (Hf x); try specialize (Hh x);
       try specialize (Hp x));
  unfold accounted, live; simpl; rewrite ?Hst; simpl;
  repeat match goal with
  | |- context [Z.eqb ?a ?b] => destruct (Z.eqb_spec a b)
  | |- context [bool_decide _] => case_bool_decide
  end; simpl; try lia.

Lemma vinv_step v v' : vinv v → spec_step v v' → vinv v'.
Proof.
  intros Hv Hstep. destruct Hstep as
    [Hes Hf Hh Hp|id esc Hn Hst Ha Ho Hes Hf Hh Hp|id esc He Hst Hes Hf Hh Hp
    |id esc gross fee st He Hst Hfee Hg -> Hes Hf Hh Hp|id esc He Hst Hes Hf Hh Hp
    |id esc He Hst Hes Hf Hh Hp|id esc b s fee He Hst H1 H2 H3 H4 Hes Hf Hh Hp
    |tok n Hes Hn Hf Hh Hp].
  1: { apply (vinv_same_records v v' Hv Hes Hp); intros t; rewrite Hf;
       [apply (vinv_fees v Hv)|specialize (Hh t); lia]. }
  1: by apply (vinv_created v v' id esc).
  all: try (destruct (vinv_accounted v Hv id esc He) as (A1 & A2 & A3 & A4); rewrite Hst in A4).
  - apply (vinv_replace v v' id esc _ 0 0 Hv He Hes eq_refl); replace_side Hst Hf Hh Hp.
  - apply (vinv_replace v v' id esc _ fee gross Hv He Hes eq_refl); replace_side Hst Hf Hh Hp.
  - apply (vinv_replace v v' id esc _ 0 (amount esc) Hv He Hes eq_refl); replace_side Hst Hf Hh Hp.
  - apply (vinv_replace v v' id esc _ 0 0 Hv He Hes eq_refl); replace_side Hst Hf Hh Hp.
  - apply (vinv_replace v v' id esc _ fee (b + s + fee) Hv He Hes eq_refl); replace_side Hst Hf Hh Hp.
  - apply (vinv_same_records v v' Hv Hes Hp); intros t; pose proof (vinv_fees v Hv t);
      specialize (Hf t); specialize (Hh t); simpl in *; case_bool_decide; subst; lia.
Qed.

Section Refinement.
Context {L : Type} `{!TokenLedger L, !TokenLaws L}.
Abbreviation W := (World L Store Event).

Definition view (this : Address) (w : W) : View :=
  mkView (escrows (store w)) (λ t, get_protocol_fee t (store w))
    (held this (ledger w))
    (λ id, list_sum (paid_by id) (log w)).

(** What the storage maintains besides the records' own accounting. *)
Record wf (s : Store) : Prop := {
  wf_bps : 0 ≤ get_protocol_fee_bps s ≤ MAX_FEE_BPS;
  wf_count : 0 ≤ get_escrow_count s;
  wf_ids id esc : escrows s !! id = Some esc → 0 < id ≤ get_escrow_count s;
  wf_amounts id esc : escrows s !! id = Some esc → 0 ≤ amount esc ≤ i128_max;
  wf_fees t : 0 ≤ get_protocol_fee t s }.

Lemma compute_fee_and_payout_Ok amt fee_bps p :
  0 ≤ amt ≤ i128_max → 0 ≤ fee_bps ≤ 10000 →
  compute_fee_and_payout amt fee_bps = Ok p →
  p = (amt * fee_bps / 10000, amt - amt * fee_bps / 10000).
Proof.
  intros Ha Hb. unfold compute_fee_and_payout.
  rewrite (proj2 (Z.ltb_ge _ _)) by lia. rewrite as_u128_small by range_lia.
  unfold checked_mul_u128. destruct (checked 0 u128_max _) as [v|] eqn:Hv; [|done].
  apply checked_Some in Hv as [-> Hv]. simpl.
  pose proof (bps_share_bounds amt fee_bps ltac:(lia) Hb).
  rewrite quot_floor by nia. unfold checked_sub_u128. rewrite checked_in by range_lia. simpl.
  intros [= <-]. by rewrite !as_i128_small by range_lia.
Qed.

(** *** Effects of the storage helpers *)

Lemma next_escrow_id_done e (w w' : W) id :
  next_escrow_id e w = Done w' id →
  id = get_escrow_count (store w) + 1 ∧
  w' = mkWorld (ledger w) (put_count id (store w)) (log w).
Proof. unfold next_escrow_id. intros Hrun. run_inv. checked_prop. done. Qed.

Lemma add_to_total_volume_done n e (w w' : W) u :
  add_to_total_volume n e w = Done w' u →
  ∃ v, w' = mkWorld (ledger w) (put_volume v (store w)) (log w).
Proof. unfold add_to_total_volume. intros Hrun. run_inv. by eexists. Qed.

Definition add_fee (tok : Address) (n : Z) (s : Store) : Store :=
  put_fees (<[tok := get_protocol_fee tok s + n]> (protocol_fees s)) s.

Lemma get_add_fee tok n s : bumped (λ t, get_protocol_fee t s)
  (λ t, get_protocol_fee t (add_fee tok n s)) tok n.
Proof.
  intros t. unfold add_fee, get_protocol_fee. simpl. case_bool_decide; subst.
  - by rewrite lookup_insert_eq.
  - rewrite lookup_insert_ne by done. lia.
Qed.

Lemma accumulate_done tok n e (w w' : W) u :
  accumulate_protocol_fee tok n e w = Done w' u →
  w' = mkWorld (ledger w) (add_fee tok n (store w)) (log w).
Proof. unfold accumulate_protocol_fee. intros Hrun. run_inv. checked_prop. done. Qed.

Lemma decrement_done tok n e (w w' : W) r :
  decrement_protocol_fee tok n e w = Done w' r →
  w' = mkWorld (ledger w) (add_fee tok (- n) (store w)) (log w).
Proof.
  unfold decrement_protocol_fee. intros Hrun. run_inv.
  destruct (_ <? _); run_inv. checked_prop. done.
Qed.

Lemma authorize_releaser_done caller b e (w w' : W) u :
  authorize_releaser caller b e w = Done w' u →
  w' = w ∧ authorized e caller = true ∧ (caller = b ∨ get_admin (store w) = Some caller).
Proof.
  unfold authorize_releaser. intros Hrun. run_inv.
  case_bool_decide; run_inv; [naive_solver|]. case_bool_decide; run_inv; naive_solver.
Qed.

(** A payment out of the contract, possibly skipped when it is zero. *)
Lemma pay_if_positive_done tok b n e (w w' : W) u :
  0 ≤ n → pay_if_positive tok (self e) b n e w = Done w' u →
  ∃ l, w' = mkWorld l (store w) (log w) ∧
    at_most_drops (held (self e) (ledger w)) (held (self e) l) tok n.
Proof.
  intros Hn. unfold pay_if_positive. destruct (Z.ltb_spec 0 n); intros Hrun.
  - apply token_call_done in Hrun as (_ & l & Ht & ->). exists l. split; [done|].
    by apply transfer_out in Ht as [_ ?].
  - run_inv. exists (ledger w). split; [by destruct w|]. intros t. case_bool_decide; lia.
Qed.
End Refinement.

(** [token_inv] extended with the escrow's helpers. *)
Ltac escrow_inv :=
  repeat (token_inv; match goal with
  | H : next_escrow_id _ _ = Done _ _ |- _ => apply next_escrow_id_done in H as [-> ->]
  | H : add_to_total_volume _ _ _ = Done _ _ |- _ =>
      apply add_to_total_volume_done in H as [? ->]
  | H : accumulate_protocol_fee _ _ _ _ = Done _ _ |- _ => apply accumulate_done in H as ->
  | H : decrement_protocol_fee _ _ _ _ = Done _ _ |- _ => apply decrement_done in H as ->
  | H : authorize_releaser _ _ _ _ = Done _ _ |- _ =>
      apply authorize_releaser_done in H as (-> & ? & ?)
  end); token_inv; bool_prop; simpl in *.

Section Simulation.
Context {L : Type} `{!TokenLedger L, !TokenLaws L}.
Abbreviation W := (World L Store Event).

(** Discharge the pointwise side conditions of a specification step. *)
Ltac view_done :=
  solve [ done
        | intros ?; unfold bumped, at_most_drops in *; simpl;
          rewrite ?list_sum_app; simpl; try lia;
          repeat case_bool_decide; simplify_eq; rewrite ?Z.eqb_refl; lia ].

Lemma fresh_id s : wf s → escrows s !! (get_escrow_count s + 1) = None.
Proof.
  intros Hwf. destruct (_ !! _) eqn:He; [|done]. pose proof (wf_ids s Hwf _ _ He). lia.
Qed.

(** The specification step of a release, shared by the full and the partial
    one: [gross] leaves the escrow, the fee accrues, the rest is paid out. *)
Lemma release_view this (w : W) l s new id esc gross fee st :
  wf (store w) → load_escrow id (store w) = Some esc → status esc = Funded →
  fee = gross * get_protocol_fee_bps (store w) / 10000 → 0 ≤ gross ≤ amount esc →
  st = (if gross =? amount esc then Completed else Funded) →
  escrows s = <[id := with_status st (with_amount (amount esc - gross) esc)]>
                (escrows (store w)) →
  protocol_fees s = protocol_fees (add_fee (token esc) fee (store w)) →
  at_most_drops (held this (ledger w)) (held this l) (token esc) (gross - fee) →
  (∀ i, list_sum (paid_by i) new = if i =? id then gross else 0) →
  spec_step (view this w) (view this (mkWorld l s (log w ++ new))).
Proof.
  intros Hwf Hesc Hst Hfee Hg Hst' He Hp Hheld Hnew.
  apply (sp_release _ _ id esc gross fee st); simpl; try done; try lia.
  - subst fee. apply bps_share_bounds; [lia|].
    pose proof (wf_bps _ Hwf). unfold MAX_FEE_BPS in *. lia.
  - intros t. unfold get_protocol_fee. rewrite Hp. apply get_add_fee.
  - intros i. rewrite list_sum_app, Hnew.
    destruct (Z.eqb_spec i id); case_bool_decide; lia.
Qed.

Lemma fee_split (s : Store) id esc amt p :
  wf s → load_escrow id s = Some esc → 0 ≤ amt ≤ amount esc →
  compute_fee_and_payout amt (get_protocol_fee_bps s) = Ok p →
  p = (amt * get_protocol_fee_bps s / 10000, amt - amt * get_protocol_fee_bps s / 10000).
Proof.
  intros Hwf Hesc Ha. pose proof (wf_amounts _ Hwf _ _ Hesc). pose proof (wf_bps _ Hwf).
  apply compute_fee_and_payout_Ok; unfold MAX_FEE_BPS in *; lia.
Qed.

Lemma release_simulated caller id e (w w' : W) u :
  wf (store w) → release_escrow caller id e w = Done w' u →
  spec_step (view (self e) w) (view (self e) w').
Proof.
  intros Hwf Hrun. unfold release_escrow in Hrun. escrow_inv.
  match goal with H : load_escrow _ _ = Some ?x |- _ => rename x into esc, H into Hesc end.
  pose proof (wf_amounts _ Hwf _ _ Hesc).
  match goal with H : compute_fee_and_payout _ _ = Ok _ |- _ =>
    eapply fee_split in H as ->; [|done|done|lia] end.
  match goal with H : token_transfer _ _ _ _ _ = Some _ |- _ =>
    apply transfer_out in H as [_ Hheld] end.
  rewrite <-app_assoc. eapply release_view with (gross := amount esc); try done; try lia.
  - simpl. by rewrite Z.eqb_refl, Z.sub_diag.
  - intros i. simpl. rewrite (Z.eqb_sym id i). destruct (Z.eqb_spec i id); lia.
Qed.

Lemma partial_release_simulated caller id n e (w w' : W) u :
  wf (store w) → partial_release caller id n e w = Done w' u →
  spec_step (view (self e) w) (view (self e) w').
Proof.
  intros Hwf Hrun. unfold partial_release in Hrun. escrow_inv.
  match goal with H : load_escrow _ _ = Some ?x |- _ => rename x into esc, H into Hesc end.
  match goal with H : compute_fee_and_payout _ _ = Ok _ |- _ =>
    eapply fee_split in H as ->; [|done|done|lia] end.
  match goal with H : token_transfer _ _ _ _ _ = Some _ |- _ =>
    apply transfer_out in H as [_ Hheld] end.
  checked_prop. rewrite <-!app_assoc.
  eapply release_view with (gross := n); try done; try lia.
  - simpl. do 2 f_equal.
    destruct (Z.eqb_spec (amount esc - n) 0), (Z.eqb_spec n (amount esc)); done || lia.
  - intros i. simpl. rewrite (Z.eqb_sym id i). destruct (Z.eqb_spec i id); lia.
Qed.

(** What a successful resolution does to the view. *)
Lemma resolve_effect a id b s f h e (w w' : W) u :
  resolve_dispute a id b s f h e w = Done w' u →
  ∃ esc, load_escrow id (store w) = Some esc ∧ status esc = Disputed ∧
    0 ≤ b ∧ 0 ≤ s ∧ 0 ≤ f ∧ b + s + f ≤ amount esc ∧
    escrows (store w') = <[id := with_amount 0 (with_status Completed esc)]> (escrows (store w)) ∧
    bumped (v_fees (view (self e) w)) (v_fees (view (self e) w')) (token esc) f ∧
    at_most_drops (held (self e) (ledger w)) (held (self e) (ledger w')) (token esc) (b + s) ∧
    bumped (v_paid (view (self e) w)) (v_paid (view (self e) w')) id (b + s + f).
Proof.
  intros Hrun. unfold resolve_dispute in Hrun. escrow_inv.
  match goal with H : load_escrow _ _ = Some ?x |- _ => rename x into esc, H into Hesc end.
  match goal with H : (_ ≫= _) = Some _ |- _ =>
    apply bind_Some in H as (? & ? & ?) end. checked_prop.
  match goal with H : pay_if_positive _ _ (buyer esc) _ _ _ = _ |- _ =>
    apply pay_if_positive_done in H as (l1 & -> & Hb); [|lia] end.
  match goal with H : pay_if_positive _ _ (seller esc) _ _ _ = _ |- _ =>
    apply pay_if_positive_done in H as (l2 & -> & Hs); [|lia] end. simpl in *.
  match goal with H : (if 0 <? f then _ else _) _ _ = Done ?w3 _ |- _ =>
    assert (∃ st, w3 = mkWorld l2 st (log w) ∧ escrows st = escrows (store w) ∧
      bumped (λ t, get_protocol_fee t (store w)) (λ t, get_protocol_fee t st) (token esc) f)
      as (st & -> & Hesc' & Hfee) end.
  { destruct (Z.ltb_spec 0 f); escrow_inv; eexists; (split; [done|]); split; [done| |done|].
    - apply get_add_fee.
    - intros t. case_bool_decide; lia. }
  exists esc. simpl. rewrite Hesc'. split_and!; try done.
  - by eapply at_most_drops_trans.
  - intros i. rewrite list_sum_app. simpl. rewrite (Z.eqb_sym id i).
    destruct (Z.eqb_spec i id); case_bool_decide; lia.
Qed.

Lemma resolve_simulated a id b s f h e (w w' : W) u :
  resolve_dispute a id b s f h e w = Done w' u →
  spec_step (view (self e) w) (view (self e) w').
Proof.
  intros (esc & He & Hst & ? & ? & ? & ? & ? & ? & ? & ?)%resolve_effect.
  by apply (sp_resolve _ _ id esc b s f).
Qed.

(** Every successful call is one step of the specification. *)
Lemma exec_simulated c e (w w' : W) u :
  valid e c → wf (store w) → exec c e w = Done w' u →
  spec_step (view (self e) w) (view (self e) w').
Proof.
  intros [Hself Hv] Hwf Hrun. destruct c; simpl in Hrun, Hv.
  - unfold set_admin in Hrun. escrow_inv. destruct (get_admin (store w)); escrow_inv;
      apply sp_stutter; view_done.
  - unfold whitelist_token, require_admin_addr in Hrun. escrow_inv.
    apply sp_stutter; view_done.
  - apply ignore_done in Hrun as [id Hrun]. unfold create_escrow in Hrun. escrow_inv.
    apply (sp_create _ _ (get_escrow_count (store w) + 1)
      (mkEscrow buyer seller tok amt amt Created expiration)); simpl; try view_done.
    + by apply fresh_id.
    + checked_prop. lia.
  - unfold fund_escrow in Hrun. escrow_inv.
    match goal with H : load_escrow _ _ = Some ?x |- _ => rename x into esc, H into Hesc end.
    match goal with H : token_transfer _ _ _ _ _ = Some _ |- _ =>
      apply transfer_in in H as [_ Hheld]; [|subst; by apply authorized_not_self] end.
    apply (sp_fund _ _ id esc); simpl; try view_done.
  - by eapply release_simulated.
  - by eapply partial_release_simulated.
  - unfold refund_escrow in Hrun. escrow_inv.
    match goal with H : load_escrow _ _ = Some ?x |- _ => rename x into esc, H into Hesc end.
    match goal with H : token_transfer _ _ _ _ _ = Some _ |- _ =>
      apply transfer_out in H as [_ Hheld] end.
    apply (sp_refund _ _ id esc); simpl; try view_done.
    intros i. rewrite list_sum_app. simpl. rewrite (Z.eqb_sym id i).
    destruct (Z.eqb_spec i id); case_bool_decide; lia.
  - unfold dispute in Hrun. escrow_inv.
    match goal with H : load_escrow _ _ = Some ?x |- _ => rename x into esc, H into Hesc end.
    apply (sp_dispute _ _ id esc); simpl; try view_done.
  - unfold set_arbiter, require_admin_addr in Hrun. escrow_inv. apply sp_stutter; view_done.
  - by eapply resolve_simulated.
  - unfold set_protocol_fee_bps, require_admin_addr in Hrun. escrow_inv.
    apply sp_stutter; view_done.
  - unfold withdraw_fees, require_admin_addr in Hrun. escrow_inv.
    match goal with H : token_transfer _ _ _ _ _ = Some _ |- _ =>
      apply transfer_out in H as [_ Hheld] end.
    apply (sp_withdraw _ _ tok amt); simpl; try view_done. apply get_add_fee.
Qed.
End Simulation.

(** ** The invariant of reachable worlds *)
Section Invariant.
Context {L : Type} `{!TokenLedger L, !TokenLaws L}.
Abbreviation W := (World L Store Event).

(** The part of [wf] the specification does not see: the configured fee and
    the allocation of identifiers. *)
Record cfg (s : Store) : Prop := {
  cfg_bps : 0 ≤ get_protocol_fee_bps s ≤ MAX_FEE_BPS;
  cfg_count : 0 ≤ get_escrow_count s;
  cfg_ids id : is_Some (escrows s !! id) → 0 < id ≤ get_escrow_count s }.

Definition inv (this : Address) (w : W) : Prop := cfg (store w) ∧ vinv (view this w).

Lemma inv_wf this w : inv this w → wf (store w).
Proof.
  intros [Hc Hv]. split; [apply Hc|apply Hc| | |apply (vinv_fees _ Hv)].
  - intros id esc He. apply (cfg_ids _ Hc). by rewrite He.
  - intros id esc He. destruct (vinv_accounted _ Hv id esc He) as (A1 & A2 & A3 & A4).
    destruct (status esc); lia.
Qed.

Lemma cfg_keep s s' :
  cfg s → get_protocol_fee_bps s' = get_protocol_fee_bps s →
  escrow_count s' = escrow_count s →
  (∀ id, is_Some (escrows s' !! id) → is_Some (escrows s !! id)) → cfg s'.
Proof.
  intros [H1 H2 H3] Hb Hc Hd. split; rewrite ?Hb; unfold get_escrow_count in *;
    rewrite ?Hc; eauto.
Qed.

Lemma insert_known (m : gmap Z Escrow) id esc esc' i :
  m !! id = Some esc → is_Some (<[id := esc']> m !! i) → is_Some (m !! i).
Proof. intros Hm. rewrite lookup_insert. case_decide; subst; rewrite ?Hm; eauto. Qed.

Ltac cfg_done :=
  eapply cfg_keep; [eassumption|done|done|];
  intros ?; simpl; try done; (eapply insert_known; done).

Lemma pay_store tok a b n e (w w' : W) u :
  pay_if_positive tok a b n e w = Done w' u → store w' = store w.
Proof. unfold pay_if_positive. destruct (0 <? n); intros Hrun; token_inv; done. Qed.

Lemma resolve_cfg a id b s f h e (w w' : W) u :
  cfg (store w) → resolve_dispute a id b s f h e w = Done w' u → cfg (store w').
Proof.
  intros Hc Hrun. unfold resolve_dispute in Hrun. escrow_inv.
  repeat match goal with
  | H : pay_if_positive _ _ _ _ _ _ = _ |- _ => apply pay_store in H
  end.
  match goal with H : load_escrow _ _ = Some ?x |- _ => rename x into esc, H into Hesc end.
  destruct (0 <? f); escrow_inv;
    repeat match goal with H : store _ = store _ |- _ => rewrite H end; cfg_done.
Qed.

Lemma exec_cfg c e (w w' : W) u :
  valid e c → cfg (store w) → exec c e w = Done w' u → cfg (store w').
Proof.
  intros [_ Hv] Hc Hrun. destruct c; simpl in Hrun, Hv.
  - unfold set_admin in Hrun. escrow_inv. destruct (get_admin (store w)); escrow_inv; cfg_done.
  - unfold whitelist_token, require_admin_addr in Hrun. escrow_inv. cfg_done.
  - apply ignore_done in Hrun as [id Hrun]. unfold create_escrow in Hrun. escrow_inv.
    destruct Hc as [H1 H2 H3]. split; try done; unfold get_escrow_count in *; simpl; [lia|].
    intros i. rewrite lookup_insert. case_decide; [lia|]. intros Hi. apply H3 in Hi. lia.
  - unfold fund_escrow in Hrun. escrow_inv. cfg_done.
  - unfold release_escrow in Hrun. escrow_inv. cfg_done.
  - unfold partial_release in Hrun. escrow_inv. cfg_done.
  - unfold refund_escrow in Hrun. escrow_inv. cfg_done.
  - unfold dispute in Hrun. escrow_inv. cfg_done.
  - unfold set_arbiter, require_admin_addr in Hrun. escrow_inv. cfg_done.
  - by eapply resolve_cfg.
  - unfold set_protocol_fee_bps, require_admin_addr in Hrun. escrow_inv. checked_prop.
    destruct Hc as [H1 H2 H3]. split; try done. unfold get_protocol_fee_bps. simpl. lia.
  - unfold withdraw_fees, require_admin_addr in Hrun. escrow_inv. cfg_done.
Qed.

(** A freshly deployed escrow contract: nothing stored, nothing emitted. *)
Definition fresh_store : Store :=
  mkStore (mkConfig None None None None) ∅ None None ∅ ∅ ∅ ∅ ∅ None.
Definition deployed (this : Address) (w : W) : Prop :=
  store w = fresh_store ∧ log w = [] ∧ ∀ t, 0 ≤ held this (ledger w) t.

Abbreviation Reach this := (reachable exec valid this (ledger_rely this) (deployed this)).

Lemma escrow_inv_reachable this w : Reach this w → inv this w.
Proof.
  apply reachable_inv.
  - intros w0 (Hs & Hl & Hh). split; rewrite ?Hs.
    + split; [done|done|]. by intros id [? He].
    + split; unfold liability, view; simpl; rewrite ?Hs, ?Hl; simpl; try done.
  - intros c e w0 w1 u <- Hv Hi Hrun. pose proof (inv_wf _ _ Hi) as Hwf. split.
    + eapply exec_cfg; [done| |done]. apply Hi.
    + eapply vinv_step; [apply Hi|]. by eapply exec_simulated.
  - intros w0 l [Hc Hv] Hl. split; [done|]. apply (vinv_step (view this w0)); [done|].
    by apply sp_stutter.
Qed.

(** A call is a step of the specification or changes nothing. *)
Lemma invoke_simulated this w c e :
  Reach this w → self e = this → valid e c →
  match invoke (exec c) e w with
  | (w', Returned _) => spec_step (view this w) (view this w')
  | (w', _) => w' = w
  end.
Proof.
  intros Hr <- Hv. unfold invoke. destruct (exec c e w) eqn:Hx; try done.
  eapply exec_simulated; [done| |done]. by eapply inv_wf, escrow_inv_reachable.
Qed.

(** What a live escrow owes is in the contract's hands. *)
Lemma escrow_covered this w id esc :
  inv this w → load_escrow id (store w) = Some esc →
  0 ≤ live esc ≤ held this (ledger w) (token esc).
Proof.
  intros [_ Hv] Hid. pose proof (owed_nonneg _ (token esc) Hv) as Hn.
  pose proof (vinv_solvent _ Hv (token esc)) as Hs.
  pose proof (vinv_fees _ Hv (token esc)) as Hf.
  pose proof (at_key_le_map_sum (λ _ esc', owed (token esc) esc') (escrows (store w)) id Hn) as Hk.
  specialize (Hn id esc Hid). unfold at_key, liability in *. simpl in *.
  unfold load_escrow in Hid. rewrite Hid in Hk. 
  assert (owed (token esc) esc = live esc) as Heq
    by (unfold owed; by rewrite bool_decide_eq_true_2).
  rewrite Heq in Hk, Hn. lia.
Qed.

(** ** Properties *)

(** C3: Refinement.  In every reachable world, a call that returns is one step of the
    specification [spec_step] on the view of the world (escrow records, accrued fees,
    holdings, gross amount paid per escrow), and a call that fails or traps changes
    nothing. *)
Theorem exec_refines this w c e :
  Reach this w → self e = this → valid e c →
  match invoke (exec c) e w with
  | (w', Returned _) => spec_step (view this w) (view this w')
  | (w', _) => w' = w
  end.
Proof.
  apply invoke_simulated.
Qed.

(** C1: Solvency.  In every reachable world, whatever calls were made in whatever order,
    the contract holds, in every token, at least the amounts of all its funded and
    disputed escrows in that token plus the protocol fees accrued in it. *)
Theorem escrow_solvent this w t :
  Reach this w → liability (view this w) t ≤ held this (ledger w) t.
Proof. intros [_ Hv]%escrow_inv_reachable. apply (vinv_solvent _ Hv). Qed.

(** C12: No overpayment.  In every reachable world the payments, refunds, resolutions and
    fees the event log reports for an escrow add up to at most the amount it was created
    for; while it is funded or disputed they are exactly what the original amount lacks
    in the remaining one, before funding they are zero, and an escrow that is completed
    or cancelled keeps nothing. *)
Theorem payouts_bounded this w id esc :
  Reach this w → load_escrow id (store w) = Some esc →
  let paid := list_sum (paid_by id) (log w) in
  0 ≤ paid ≤ original_amount esc ∧
  match status esc with
  | Created => paid = 0 ∧ amount esc = original_amount esc
  | Funded | Disputed => paid = original_amount esc - amount esc
  | Completed | Cancelled => amount esc = 0
  end.
Proof.
  intros [_ Hv]%escrow_inv_reachable Hid. destruct (vinv_accounted _ Hv id esc Hid) as (A1 & A2 & A3 & A4).
  simpl in *. destruct (status esc); lia.
Qed.

(** What a step may do to one escrow record. *)
Definition evolves (esc esc' : Escrow) : Prop :=
  buyer esc' = buyer esc ∧ seller esc' = seller esc ∧ token esc' = token esc ∧
  original_amount esc' = original_amount esc ∧ expiration esc' = expiration esc ∧
  amount esc' ≤ amount esc ∧
  (status esc' = status esc ∨ status esc' ∈ allowed_from (status esc)) ∧
  (allowed_from (status esc) = [] → esc' = esc).

Lemma spec_step_evolves v v' id esc :
  vinv v → spec_step v v' → v_escrows v !! id = Some esc →
  ∃ esc', v_escrows v' !! id = Some esc' ∧ evolves esc esc'.
Proof.
  intros Hv Hstep Hid.
  assert (Hkeep : ∀ e, evolves e e) by (intros; unfold evolves; naive_solver lia).
  destruct (vinv_accounted v Hv id esc Hid) as (A1 & _).
  destruct Hstep as
    [Hes|i e Hn _ _ _ Hes|i e He Hst Hes|i e gross fee st He Hst Hfee Hg -> Hes
    |i e He Hst Hes|i e He Hst Hes|i e b s f He Hst _ _ _ _ Hes|tok n Hes];
    rewrite Hes; try (exists esc; split; [done|apply Hkeep]);
    rewrite lookup_insert; case_decide; subst;
    try (exists esc; split; [done|apply Hkeep]); simplify_eq.
  all: eexists; split; [done|]; unfold evolves; simpl; rewrite ?Hst; repeat split; try lia; try done.
  all: try (right; unfold allowed_from; set_solver).
  destruct (_ =? _); [right; set_solver|by left].
Qed.

(** Lifecycle.  From every reachable world, any call leaves each existing escrow in
    place with its parties, token, original amount and expiration unchanged, never raises
    its remaining amount, and moves its status only along the code's transition table
    [allowed_from]; completed and cancelled escrows therefore never change. *)
Theorem escrow_lifecycle this w c e id esc :
  Reach this w → self e = this → valid e c → load_escrow id (store w) = Some esc →
  ∃ esc', load_escrow id (store (invoke (exec c) e w).1) = Some esc' ∧ evolves esc esc'.
Proof.
  intros Hr He Hv Hid. pose proof (escrow_inv_reachable _ _ Hr) as [Hc Hi].
  pose proof (invoke_simulated this w c e Hr He Hv) as Hs.
  destruct (invoke (exec c) e w) as [w' [u| |]]; simpl;
    [by apply (spec_step_evolves _ _ _ _ Hi Hs)| |]; subst;
    exists esc; split; try done; unfold evolves; naive_solver lia.
Qed.

(** Refunds cannot be blocked.  In every reachable world, with tokens that honour
    covered transfers, the buyer of a funded escrow whose expiration has passed is
    refunded by [refund_escrow]: the call returns, the buyer receives exactly the whole
    remaining amount, and the escrow is cancelled with nothing left. *)
Theorem refund_always_possible `{!TokenLive L} this w e id esc :
  Reach this w → self e = this → no_self_auth e →
  load_escrow id (store w) = Some esc → status esc = Funded →
  expiration esc ≤ timestamp e → authorized e (buyer esc) = true →
  ∃ w', invoke (refund_escrow (buyer esc) id) e w = (w', Returned tt) ∧
    load_escrow id (store w') = Some (with_amount 0 (with_status Cancelled esc)) ∧
    token_balance (ledger w') (token esc) (buyer esc) =
      token_balance (ledger w) (token esc) (buyer esc) + amount esc.
Proof.
  intros Hr <- Hn Hid Hst Hexp Hauth.
  pose proof (escrow_covered (self e) w id esc (escrow_inv_reachable _ _ Hr) Hid) as Hcov.
  unfold live in Hcov. rewrite Hst in Hcov.
  destruct (transfer_live (ledger w) (token esc) (self e) (buyer esc) (amount esc))
    as [l Hl]; [done|].
  eexists. split; [|split].
  - apply invoke_run. unfold refund_escrow. run_fwd.
    eapply bind_run; [by rewrite Hst|]. run_fwd.
  - simpl. apply lookup_insert_eq.
  - simpl. rewrite (transfer_moves _ _ _ _ _ _ _ _ Hl), bool_decide_eq_true_2 by done.
    unfold moved. rewrite bool_decide_eq_true_2 by done.
    rewrite bool_decide_eq_false_2; [lia|]. by apply authorized_not_self.
Qed.

(** Resolutions may strand funds.  When the arbiter allocates less than the disputed
    amount, what is left stays in the contract while the escrow owes nothing any more:
    the contract's holdings in excess of its liabilities grow by at least the difference. *)
Theorem resolve_strands this w w' e a id b s f h :
  Reach this w → self e = this →
  invoke (resolve_dispute a id b s f h) e w = (w', Returned tt) →
  ∃ esc, load_escrow id (store w) = Some esc ∧
    held this (ledger w) (token esc) - liability (view this w) (token esc)
      + (amount esc - (b + s + f))
    ≤ held this (ledger w') (token esc) - liability (view this w') (token esc).
Proof.
  intros Hr <- Hrun%invoke_returned.
  apply resolve_effect in Hrun
    as (esc & Hid & Hst & Hb & Hs & Hf & Hle & Hes & Hfee & Hheld & Hpaid).
  exists esc. split; [done|]. unfold liability. simpl in *. rewrite Hes, map_sum_insert.
  unfold load_escrow in Hid. unfold at_key. rewrite Hid.
  specialize (Hfee (token esc)). specialize (Hheld (token esc)). simpl in Hfee.
  rewrite bool_decide_eq_true_2 in Hfee, Hheld by done. rewrite Hfee.
  unfold owed. simpl. rewrite bool_decide_eq_true_2 by done.
  unfold live. simpl. rewrite Hst. lia.
Qed.
End Invariant.

(** ** Concrete runs *)
Module Runs.
Definition this : Address := addr 0.
Definition the_admin : Address := addr 1.
Definition ann : Address := addr 2.
Definition sam : Address := addr 3.
Definition tok : Address := addr 4.
Definition judge : Address := addr 5.
Definition at_time (t : Z) (a : Address) : Env := mkEnv t this (λ b, bool_decide (a = b)).

Abbreviation W := (World BalanceMap.t Store Event).
Definition w0 : W := mkWorld {[(tok, ann) := 5000]} fresh_store [].

Definition setup : list (Env * Call) :=
  [(at_time 1 the_admin, CSetAdmin the_admin);
   (at_time 1 the_admin, CWhitelist the_admin tok);
   (at_time 1 the_admin, CSetArbiter the_admin judge);
   (at_time 2 ann, CCreate ann sam tok 1000 100);
   (at_time 3 ann, CFund ann 1)].
Definition w_funded : W := run_calls exec setup w0.
Definition w_part : W :=
  run_calls exec (setup ++ [(at_time 4 ann, CPartialRelease ann 1 400)]) w0.
Definition w_disputed : W :=
  run_calls exec (setup ++ [(at_time 4 ann, CDispute ann 1)]) w0.

Lemma escrow_w0_deployed : deployed this w0.
Proof.
  split; [done|]. split; [done|]. intros t. unfold held. simpl. unfold BalanceMap.balance.
  destruct (_ !! _) as [n|] eqn:Hn; [|done]. apply lookup_singleton_Some in Hn as [? <-]. done.
Qed.

Ltac reach :=
  apply reachable_run; [apply reach_init, escrow_w0_deployed|];
  repeat constructor; vm_compute; reflexivity.
Lemma w_part_reach : reachable exec valid this (ledger_rely this) (deployed this) w_part.
Proof. reach. Qed.
Lemma w_disputed_reach :
  reachable exec valid this (ledger_rely this) (deployed this) w_disputed.
Proof. reach. Qed.

Lemma exec_refines_witness :
  spec_step (view this w_part)
    (view this (invoke (exec (CRelease ann 1)) (at_time 5 ann) w_part).1).
Proof.
  pose proof (exec_refines this w_part (CRelease ann 1) (at_time 5 ann) w_part_reach
    eq_refl (conj eq_refl I)) as Hstep.
  assert (Hr : (invoke (exec (CRelease ann 1)) (at_time 5 ann) w_part).2 = Returned tt)
    by (vm_compute; reflexivity).
  destruct (invoke (exec (CRelease ann 1)) (at_time 5 ann) w_part) as [w' r].
  simpl in *. subst r. exact Hstep.
Defined.

Lemma escrow_solvent_witness :
  liability (view this w_part) tok = 604 ∧
  liability (view this w_part) tok ≤ held this (ledger w_part) tok.
Proof. split; [reflexivity|apply (escrow_solvent this w_part tok), w_part_reach]. Defined.

Lemma payouts_bounded_witness :
  list_sum (paid_by 1) (log w_part) = 400 ∧
  0 ≤ list_sum (paid_by 1) (log w_part) ≤ 1000.
Proof.
  destruct (payouts_bounded this w_part 1 (mkEscrow ann sam tok 600 1000 Funded 100))
    as [Hb _]; [apply w_part_reach|vm_compute; reflexivity|].
  split; [vm_compute; reflexivity|exact Hb].
Defined.

Lemma escrow_lifecycle_witness :
  ∃ esc, load_escrow 1
    (store (invoke (exec (CDispute ann 1)) (at_time 5 ann) w_part).1) = Some esc ∧
    evolves (mkEscrow ann sam tok 600 1000 Funded 100) esc.
Proof.
  apply (escrow_lifecycle this w_part (CDispute ann 1) (at_time 5 ann) 1);
    [apply w_part_reach|reflexivity|split; reflexivity|vm_compute; reflexivity].
Defined.

Lemma refund_always_possible_witness :
  ∃ w' : W, token_balance (ledger w') tok ann =
    token_balance (ledger w_part) tok ann + 600.
Proof.
  destruct (refund_always_possible this w_part (at_time 100 ann) 1
    (mkEscrow ann sam tok 600 1000 Funded 100)) as (w' & _ & _ & Hb);
    [apply w_part_reach|reflexivity|reflexivity|vm_compute; reflexivity|reflexivity
    |vm_compute; congruence
    |reflexivity|].
  exists w'. exact Hb.
Defined.

Lemma resolve_strands_witness :
  let w' := (invoke (resolve_dispute judge 1 0 300 0 7) (at_time 5 judge) w_disputed).1 in
  700 ≤ held this (ledger w') tok - liability (view this w') tok.
Proof.
  destruct (resolve_strands this w_disputed
    (invoke (resolve_dispute judge 1 0 300 0 7) (at_time 5 judge) w_disputed).1
    (at_time 5 judge) judge 1 0 300 0 7) as (esc & He & Hle);
    [apply w_disputed_reach|reflexivity|vm_compute; reflexivity|].
  vm_compute in He. injection He as <-. vm_compute. discriminate.
Defined.
End Runs.
