(* ===== verification/EscrowVault.v ===== *)
(** * The multi-approver vault ([contracts/escrow-vault/src/lib.rs])

    A depositor locks tokens for a recipient under a set of approvers and a
    threshold; the approval that reaches the threshold releases the tokens, an
    approver may take a vote back before that, and the admin may cancel a pending
    vault and refund it.  The host's [sha256] and the XDR encoding of an address
    are parameters; the theorems assume the hash has no collisions, which is what
    the code relies on for vault identifiers. *)
From S2P Require Import Prelude Machine Host TokenIface.

Inductive VaultError :=
| NotFound | NotPending | Unauthorized | AlreadyVoted | EmptyApprovers | DuplicateApprover
| InvalidAmount | AlreadyInitialized | NotInitialized | ConflictOfInterest | NotVoted
| InvalidThreshold | ThresholdExceedsApprovers.

Inductive VaultStatus := Pending | Released | Cancelled.
#[export] Instance VaultStatus_eq_dec : EqDecision VaultStatus.
Proof. solve_decision. Defined.

Record Vault := mkVault {
  depositor : Address;
  recipient : Address;
  token : Address;
  amount : Z;
  approvers : list Address;
  approvals : Z;
  threshold : Z;
  status : VaultStatus }.

Inductive Event :=
| EvVaultNew (id : BytesN32) (depositor : Address) (amount : Z)
| EvEmergencyCancel (id : BytesN32) (reason : string)
| EvUpgraded (new_wasm_hash : BytesN32).

(** The keys [Admin], [VaultCount], [Vault(id)] and [Voted(id, approver)]. *)
Record Store := mkStore {
  admin : option Address;
  vault_count : option Z;
  vaults : gmap Z Vault;
  voted : gset (Z * Address);
  code : option BytesN32 }.

Definition put_admin (a : Address) (s : Store) : Store :=
  mkStore (Some a) (vault_count s) (vaults s) (voted s) (code s).
Definition put_count (n : Z) (s : Store) : Store :=
  mkStore (admin s) (Some n) (vaults s) (voted s) (code s).
Definition put_vault (id : BytesN32) (v : Vault) (s : Store) : Store :=
  mkStore (admin s) (vault_count s) (<[id := v]> (vaults s)) (voted s) (code s).
Definition put_voted (id : BytesN32) (a : Address) (s : Store) : Store :=
  mkStore (admin s) (vault_count s) (vaults s) ({[(id, a)]} ∪ voted s) (code s).
Definition remove_voted (id : BytesN32) (a : Address) (s : Store) : Store :=
  mkStore (admin s) (vault_count s) (vaults s) (voted s ∖ {[(id, a)]}) (code s).
Definition put_code (h : BytesN32) (s : Store) : Store :=
  mkStore (admin s) (vault_count s) (vaults s) (voted s) (Some h).

Definition has_voted (id : BytesN32) (a : Address) (s : Store) : bool :=
  bool_decide ((id, a) ∈ voted s).

Definition with_approvals (n : Z) (v : Vault) : Vault :=
  mkVault (depositor v) (recipient v) (token v) (amount v) (approvers v) n (threshold v)
    (status v).
Definition with_status (st : VaultStatus) (v : Vault) : Vault :=
  mkVault (depositor v) (recipient v) (token v) (amount v) (approvers v) (approvals v)
    (threshold v) st.

(** The scan of [create_vault] for an approver listed twice. *)
Fixpoint has_duplicate (l : list Address) : bool :=
  match l with
  | [] => false
  | a :: l => existsb (λ b, bool_decide (a = b)) l || has_duplicate l
  end.

(** Removes duplicates, keeping first occurrences; [seen] holds the addresses met. *)
Fixpoint deduplicate_from (seen : gset Address) (l : list Address) : list Address :=
  match l with
  | [] => []
  | a :: l =>
      if bool_decide (a ∈ seen) then deduplicate_from seen l
      else a :: deduplicate_from ({[a]} ∪ seen) l
  end.
Definition deduplicate (l : list Address) : list Address := deduplicate_from ∅ l.

Section Contract.
Context {L : Type} `{TokenLedger L}.
Context (sha256 : Bytes → BytesN32) (to_xdr : Address → Bytes).
Abbreviation M := (Contract L Store Event VaultError).

Definition set_admin (a : Address) : M unit :=
  o <- load admin ;;
  reject_if (bool_decide (is_Some o)) AlreadyInitialized ;;;
  require_auth a ;;;
  save (put_admin a).

Definition upgrade (new_wasm_hash : BytesN32) : M unit :=
  o <- load admin ;;
  a <- ok_or o NotInitialized ;;
  require_auth a ;;;
  save (put_code new_wasm_hash) ;;;
  publish (EvUpgraded new_wasm_hash).

Definition next_vault_nonce : M Z :=
  nonce <- load (λ s, default 0 (vault_count s)) ;;
  next <- or_trap (checked_add_u64 nonce 1) ;;
  save (put_count next) ;;;
  ret next.

(** The hashed identifier: nonce, ledger time and depositor. *)
Definition vault_id (nonce t : Z) (depositor : Address) : BytesN32 :=
  sha256 (be_bytes 8 nonce ++ be_bytes 8 t ++ to_xdr depositor).

Definition create_vault (depositor recipient tok : Address) (amt : Z)
    (approvers : list Address) (threshold : Z) : M BytesN32 :=
  reject_if (bool_decide (approvers = [])) EmptyApprovers ;;;
  reject_if (has_duplicate approvers) DuplicateApprover ;;;
  reject_if (contains approvers depositor || contains approvers recipient)
    ConflictOfInterest ;;;
  let unique_approvers := deduplicate approvers in
  reject_if (amt <=? 0) InvalidAmount ;;;
  reject_if (threshold =? 0) InvalidThreshold ;;;
  reject_if (Z.of_nat (length unique_approvers) <? threshold) ThresholdExceedsApprovers ;;;
  require_auth depositor ;;;
  this <- me ;;
  token_call tok depositor this amt ;;;
  nonce <- next_vault_nonce ;;
  t <- now ;;
  let id := vault_id nonce t depositor in
  save (put_vault id
    (mkVault depositor recipient tok amt unique_approvers 0 threshold Pending)) ;;;
  publish (EvVaultNew id depositor amt) ;;;
  ret id.

Definition approve_vault (id : BytesN32) (caller : Address) : M unit :=
  require_auth caller ;;;
  o <- load (λ s, vaults s !! id) ;;
  vault <- ok_or o NotFound ;;
  reject_if (negb (bool_decide (status vault = Pending))) NotPending ;;;
  reject_if (bool_decide (caller = depositor vault) || bool_decide (caller = recipient vault))
    ConflictOfInterest ;;;
  reject_if (negb (contains (approvers vault) caller)) Unauthorized ;;;
  already <- load (has_voted id caller) ;;
  reject_if already AlreadyVoted ;;;
  save (put_voted id caller) ;;;
  n <- or_trap (checked_add_u32 (approvals vault) 1) ;;
  let vault := with_approvals n vault in
  this <- me ;;
  vault <- (if threshold vault <=? n then
              token_call (token vault) this (recipient vault) (amount vault) ;;;
              ret (with_status Released vault)
            else ret vault) ;;
  save (put_vault id vault).

Definition revoke_approval (id : BytesN32) (caller : Address) : M unit :=
  require_auth caller ;;;
  o <- load (λ s, vaults s !! id) ;;
  vault <- ok_or o NotFound ;;
  reject_if (negb (bool_decide (status vault = Pending))) NotPending ;;;
  already <- load (has_voted id caller) ;;
  reject_if (negb already) NotVoted ;;;
  save (remove_voted id caller) ;;;
  save (put_vault id (with_approvals (saturating_sub_u32 (approvals vault) 1) vault)).

Definition emergency_cancel (id : BytesN32) (reason : string) : M unit :=
  o <- load admin ;;
  a <- ok_or o NotInitialized ;;
  require_auth a ;;;
  o <- load (λ s, vaults s !! id) ;;
  vault <- ok_or o NotFound ;;
  reject_if (negb (bool_decide (status vault = Pending))) NotPending ;;;
  save (put_vault id (with_status Cancelled vault)) ;;;
  this <- me ;;
  token_call (token vault) this (depositor vault) (amount vault) ;;;
  publish (EvEmergencyCancel id reason).

Inductive Call :=
| CSetAdmin (a : Address)
| CCreate (depositor recipient tok : Address) (amt : Z) (approvers : list Address)
    (threshold : Z)
| CApprove (id : BytesN32) (caller : Address)
| CRevoke (id : BytesN32) (caller : Address)
| CCancel (id : BytesN32) (reason : string).

Definition exec (c : Call) : M unit :=
  match c with
  | CSetAdmin a => set_admin a
  | CCreate d r t n aps k => ignore (create_vault d r t n aps k)
  | CApprove id a => approve_vault id a
  | CRevoke id a => revoke_approval id a
  | CCancel id r => emergency_cancel id r
  end.

Definition valid (e : Env) (c : Call) : Prop :=
  no_self_auth e ∧ u64 (timestamp e) = true ∧
  match c with CCreate _ _ _ _ _ k => u32 k = true | _ => True end.
End Contract.

(** ** Approver lists *)

Lemma has_duplicate_NoDup l : has_duplicate l = false → NoDup l.
Proof.
  induction l as [|a l IH]; simpl; [constructor|]. intros [Hl Hd]%orb_false_iff.
  constructor; [|by apply IH]. intros Hin. apply not_true_iff_false in Hl. apply Hl.
  apply existsb_exists. exists a. rewrite <-list_elem_of_In, bool_decide_eq_true. done.
Qed.

Lemma deduplicate_from_NoDup seen l :
  NoDup l → (∀ a, a ∈ l → a ∉ seen) → deduplicate_from seen l = l.
Proof.
  intros Hl. revert seen. induction Hl as [|a l Ha Hl IH]; intros seen Hs; simpl; [done|].
  rewrite bool_decide_eq_false_2 by set_solver. f_equal. apply IH. set_solver.
Qed.

Lemma deduplicate_NoDup l : NoDup l → deduplicate l = l.
Proof. intros. apply deduplicate_from_NoDup; set_solver. Qed.

(** Votes for vault [id] among [l]. *)
Definition votes (s : Store) (id : BytesN32) (l : list Address) : Z :=
  list_sum (λ a, if has_voted id a s then 1 else 0) l.

Lemma votes_bounds s id l : 0 ≤ votes s id l ≤ Z.of_nat (length l).
Proof.
  unfold votes. induction l as [|a l IH]; simpl; [lia|]. destruct (has_voted id a s); lia.
Qed.

Lemma has_voted_put id a i b s :
  has_voted i b (put_voted id a s) = bool_decide (i = id ∧ b = a) || has_voted i b s.
Proof.
  unfold has_voted. simpl. apply eq_bool_prop_intro.
  rewrite orb_True, !bool_decide_spec, elem_of_union, elem_of_singleton. naive_solver.
Qed.

Lemma has_voted_remove id a i b s :
  has_voted i b (remove_voted id a s) = negb (bool_decide (i = id ∧ b = a)) && has_voted i b s.
Proof.
  unfold has_voted. simpl. apply eq_bool_prop_intro.
  rewrite andb_True, negb_True, !bool_decide_spec, elem_of_difference, elem_of_singleton.
  naive_solver.
Qed.

(** A change of one vote changes the count by [n] when the voter is listed once. *)
Lemma votes_change s s' id a l n :
  NoDup l → a ∈ l →
  (∀ b, b ≠ a → has_voted id b s' = has_voted id b s) →
  (if has_voted id a s' then 1 else 0) = (if has_voted id a s then 1 else 0) + n →
  votes s' id l = votes s id l + n.
Proof.
  intros Hl. unfold votes. induction Hl as [|x l Hx Hl IH]; [by intros ?%elem_of_nil|].
  intros Hin Hb Ha. simpl. apply elem_of_cons in Hin as [->|Hin].
  - rewrite Ha. rewrite (list_sum_ext _ (λ b, if has_voted id b s then 1 else 0)); [lia|].
    intros b Hbl. rewrite Hb; [done|]. by intros ->.
  - rewrite (Hb x) by (by intros ->). rewrite IH by done. lia.
Qed.

Lemma votes_ext s s' id l :
  (∀ b, b ∈ l → has_voted id b s' = has_voted id b s) → votes s' id l = votes s id l.
Proof. intros Hb. apply list_sum_ext. intros b Hin. by rewrite Hb. Qed.

(** ** The invariant *)
Section Invariant.
Context {L : Type} `{!TokenLedger L, !TokenLaws L}.
Context (sha256 : Bytes → BytesN32) (to_xdr : Address → Bytes).
Context (sha256_inj : collision_free sha256).
Abbreviation W := (World L Store Event).
Abbreviation exec := (exec sha256 to_xdr).

Record vault_ok (s : Store) (id : BytesN32) (v : Vault) : Prop := {
  ok_amount : 0 < amount v;
  ok_unique : NoDup (approvers v);
  ok_conflict : depositor v ∉ approvers v ∧ recipient v ∉ approvers v;
  ok_threshold : 0 < threshold v ≤ Z.of_nat (length (approvers v));
  ok_votes : approvals v = votes s id (approvers v);
  ok_status : if bool_decide (status v = Released) then approvals v = threshold v
              else approvals v < threshold v }.

(** The tokens a vault locks. *)
Definition pending_amount (v : Vault) : Z :=
  match status v with Pending => amount v | _ => 0 end.
Definition locked_in (t : Address) (v : Vault) : Z :=
  if bool_decide (token v = t) then pending_amount v else 0.
Definition locked (t : Address) (s : Store) : Z := map_sum (λ _ v, locked_in t v) (vaults s).
Definition count (s : Store) : Z := default 0 (vault_count s).

Record inv (this : Address) (w : W) : Prop := {
  inv_vaults id v : vaults (store w) !! id = Some v → vault_ok (store w) id v;
  inv_voted id a : has_voted id a (store w) = true →
    ∃ v, vaults (store w) !! id = Some v ∧ a ∈ approvers v;
  inv_count : 0 ≤ count (store w) ≤ u64_max;
  inv_ids id : is_Some (vaults (store w) !! id) →
    ∃ n t d, id = vault_id sha256 to_xdr n t d ∧ 0 < n ≤ count (store w);
  inv_solvent t : locked t (store w) ≤ held this (ledger w) t }.

Lemma vault_id_inj n t d n' t' d' :
  0 ≤ n ≤ u64_max → 0 ≤ n' ≤ u64_max →
  vault_id sha256 to_xdr n t d = vault_id sha256 to_xdr n' t' d' → n = n'.
Proof.
  intros Hn Hn'. by apply counter_id_inj.
Qed.

(** An identifier made from a new nonce is not in use. *)
Lemma fresh_vault_id this w t d :
  inv this w → count (store w) + 1 ≤ u64_max →
  vaults (store w) !! vault_id sha256 to_xdr (count (store w) + 1) t d = None.
Proof.
  intros Hi Hc. destruct (_ !! _) as [v|] eqn:Hv; [|done].
  destruct (inv_ids _ _ Hi _ (mk_is_Some _ _ Hv)) as (n & t' & d' & Heq & Hn).
  pose proof (inv_count _ _ Hi). apply vault_id_inj in Heq; lia.
Qed.

Lemma vault_ok_ext s s' id v :
  (∀ a, has_voted id a s' = has_voted id a s) → vault_ok s id v → vault_ok s' id v.
Proof.
  intros Hv [H1 H2 H3 H4 H5 H6]. split; try done. rewrite H5. symmetry.
  apply votes_ext. intros; apply Hv.
Qed.

Lemma locked_put t s s' id v' :
  vaults s' = <[id := v']> (vaults s) →
  locked t s' = locked t s - at_key (λ _ v, locked_in t v) (vaults s) id + locked_in t v'.
Proof. unfold locked. intros ->. by rewrite map_sum_insert. Qed.

(** Replacing vault [id], changing at most its own votes. *)
Lemma inv_update this (w w' : W) id v v' :
  inv this w → vaults (store w) !! id = Some v →
  vaults (store w') = <[id := v']> (vaults (store w)) →
  vault_count (store w') = vault_count (store w) → token v' = token v →
  (∀ i a, i ≠ id → has_voted i a (store w') = has_voted i a (store w)) →
  (∀ a, has_voted id a (store w') = true → a ∈ approvers v') →
  vault_ok (store w') id v' →
  (∀ t, held this (ledger w) t +
        (if bool_decide (t = token v) then pending_amount v' - pending_amount v else 0)
        ≤ held this (ledger w') t) →
  inv this w'.
Proof.
  intros Hi Hv Hvs Hc Htok Hother Hown Hok Hheld. split; unfold count in *; rewrite ?Hvs, ?Hc.
  - intros i x. rewrite lookup_insert. case_decide; [intros [= <-]; by subst|].
    intros Hx. eapply vault_ok_ext; [|by apply (inv_vaults _ _ Hi)]. intros a.
    by apply Hother.
  - intros i a. rewrite lookup_insert. case_decide as Hii.
    + subst. intros Ha. exists v'. split; [done|by apply Hown].
    + rewrite (Hother i) by done. apply (inv_voted _ _ Hi).
  - apply (inv_count _ _ Hi).
  - intros i Hx. apply (inv_ids _ _ Hi). rewrite lookup_insert in Hx.
    case_decide; [subst; by rewrite Hv|done].
  - intros t. rewrite (locked_put t (store w) _ id v' Hvs). unfold at_key. rewrite Hv.
    pose proof (inv_solvent _ _ Hi t). specialize (Hheld t).
    unfold locked_in. rewrite Htok. repeat case_bool_decide; simplify_eq; lia.
Qed.

Lemma vault_covered this w id v :
  inv this w → vaults (store w) !! id = Some v → status v = Pending →
  0 ≤ amount v ≤ held this (ledger w) (token v).
Proof.
  intros Hi Hv Hst. pose proof (ok_amount _ _ _ (inv_vaults _ _ Hi _ _ Hv)).
  split; [lia|]. etrans; [|apply (inv_solvent _ _ Hi)].
  unfold locked. pose proof (at_key_le_map_sum (λ _ x, locked_in (token v) x)
    (vaults (store w)) id) as Hk. unfold at_key in Hk. rewrite Hv in Hk.
  unfold locked_in at 2 in Hk. rewrite bool_decide_eq_true_2 in Hk by done.
  unfold pending_amount in Hk at 1. rewrite Hst in Hk. apply Hk.
  intros i x Hx. unfold locked_in, pending_amount.
  pose proof (ok_amount _ _ _ (inv_vaults _ _ Hi _ _ Hx)).
  case_bool_decide; [|done]. destruct (status x); lia.
Qed.

Lemma vault_create_inv d r tok n aps k e (w w' : W) u :
  valid e (CCreate d r tok n aps k) → inv (self e) w →
  create_vault sha256 to_xdr d r tok n aps k e w = Done w' u →
  vaults (store w) !! u = None ∧ inv (self e) w'.
Proof.
  intros (Hself & Ht & Hk) Hi Hrun. unfold create_vault, next_vault_nonce in Hrun.
  token_inv. bool_prop. checked_prop. simpl in *.
  match goal with H : bool_decide _ = true ∨ _ |- _ => clear H end.
  match goal with H : has_duplicate _ = false |- _ => apply has_duplicate_NoDup in H as Hnd end.
  rewrite (deduplicate_NoDup _ Hnd) in *.
  match goal with H : token_transfer _ _ _ _ _ = Some _ |- _ =>
    apply transfer_in in H as [_ Hheld]; [|by apply authorized_not_self] end.
  change (default 0 (vault_count (store w))) with (count (store w)) in *.
  assert (Hfresh := fresh_vault_id (self e) w (timestamp e) d Hi ltac:(lia)).
  set (id := vault_id _ _ _ _ _) in *. split; [done|].
  assert (Hnone : ∀ a, has_voted id a (store w) = false).
  { intros a. destruct (has_voted id a (store w)) eqn:Ha; [|done].
    apply (inv_voted _ _ Hi) in Ha as (v & Hv & _). congruence. }
  split; simpl.
  - intros i x. rewrite lookup_insert. case_decide as Hii;
      [|intros Hx; by eapply vault_ok_ext, (inv_vaults _ _ Hi)].
    intros [= <-]. subst i. split; simpl; try done; [|lia| |].
    + split; intros ?%contains_true; congruence.
    + symmetry. unfold votes. etrans; [apply (list_sum_ext _ (λ _, 0))|].
      * intros a _. unfold has_voted in *. simpl. by rewrite Hnone.
      * clear. induction aps; simpl; lia.
    + lia.
  - intros i a Ha. rewrite lookup_insert. case_decide; [|by apply (inv_voted _ _ Hi)].
    subst. unfold has_voted in *. simpl in *. by rewrite Hnone in Ha.
  - unfold count in *. simpl. pose proof (inv_count _ _ Hi). unfold count in *. lia.
  - intros i Hx. unfold count at 1. simpl. rewrite lookup_insert in Hx.
    case_decide; [subst; do 3 eexists; split; [reflexivity|]|].
    + pose proof (inv_count _ _ Hi). lia.
    + destruct (inv_ids _ _ Hi i Hx) as (n' & t' & d' & -> & Hn').
      do 3 eexists. split; [done|]. lia.
  - intros t. match goal with |- locked t ?s' ≤ _ =>
      rewrite (locked_put t (store w) s' id _ eq_refl) end. unfold at_key. rewrite Hfresh.
    pose proof (inv_solvent _ _ Hi t). rewrite (Hheld t). unfold locked_in, pending_amount.
    simpl. repeat case_bool_decide; simplify_eq; lia.
Qed.

Lemma approve_inv id a e (w w' : W) u :
  inv (self e) w → approve_vault id a e w = Done w' u → inv (self e) w'.
Proof.
  intros Hi Hrun. unfold approve_vault in Hrun. token_inv. bool_prop. checked_prop. simpl in *.
  match goal with H : vaults _ !! _ = Some ?x |- _ => rename x into v, H into Hv end.
  destruct (inv_vaults _ _ Hi _ _ Hv) as [H1 H2 [H3 H3'] H4 H5 H6].
  match goal with H : status v = Pending |- _ => rename H into Hst end.
  match goal with H : contains _ _ = true |- _ => apply contains_true in H as Hin end.
  match goal with H : has_voted id a _ = false |- _ => rename H into Hnv end.
  rewrite Hst in H6. simpl in H6.
  assert (Hvotes : votes (put_voted id a (store w)) id (approvers v) = approvals v + 1).
  { rewrite H5. apply (votes_change _ _ _ a); [done|done| |].
    - intros b Hb. rewrite has_voted_put, bool_decide_eq_false_2; naive_solver.
    - rewrite has_voted_put, bool_decide_eq_true_2, Hnv by done. done. }
  assert (Hown : ∀ b, has_voted id b (put_voted id a (store w)) = true → b ∈ approvers v).
  { intros b. rewrite has_voted_put, orb_true_iff, bool_decide_eq_true.
    intros [[_ ->]|Hb]; [done|].
    apply (inv_voted _ _ Hi) in Hb as (v' & Hv' & Hb). by simplify_eq. }
  destruct (Z.leb_spec (threshold v) (approvals v + 1)); token_inv.
  - match goal with H : token_transfer _ _ _ _ _ = Some _ |- _ =>
      apply transfer_out in H as [_ Hheld] end.
    eapply (inv_update _ w); [done|done|reflexivity|done|done| |done| |]; simpl.
    + intros i b Hne. unfold has_voted. simpl. apply bool_decide_ext. set_solver.
    + split; simpl; try done. lia.
    + intros t. specialize (Hheld t). unfold pending_amount. rewrite Hst. simpl in *.
      case_bool_decide; lia.
  - eapply (inv_update _ w); [done|done|reflexivity|done|done| |done| |]; simpl.
    + intros i b Hne. unfold has_voted. simpl. apply bool_decide_ext. set_solver.
    + split; simpl; try done. rewrite Hst. simpl. lia.
    + intros t. unfold pending_amount. simpl. case_bool_decide; lia.
Qed.

Lemma revoke_inv id a e (w w' : W) u :
  inv (self e) w → revoke_approval id a e w = Done w' u → inv (self e) w'.
Proof.
  intros Hi Hrun. unfold revoke_approval in Hrun. token_inv. bool_prop. simpl in *.
  match goal with H : vaults _ !! _ = Some ?x |- _ => rename x into v, H into Hv end.
  destruct (inv_vaults _ _ Hi _ _ Hv) as [H1 H2 [H3 H3'] H4 H5 H6].
  match goal with H : status v = Pending |- _ => rename H into Hst end.
  match goal with H : has_voted id a _ = true |- _ => rename H into Hyes end.
  rewrite Hst in H6. simpl in H6.
  destruct (inv_voted _ _ Hi _ _ Hyes) as (v2 & Hv2 & Hin).
  rewrite Hv in Hv2. injection Hv2 as <-.
  assert (Hvotes : votes (remove_voted id a (store w)) id (approvers v) = approvals v + - 1).
  { rewrite H5. apply (votes_change _ _ _ a); [done|done| |].
    - intros b Hb. rewrite has_voted_remove, bool_decide_eq_false_2; naive_solver.
    - rewrite has_voted_remove, bool_decide_eq_true_2, Hyes by done. done. }
  pose proof (votes_bounds (remove_voted id a (store w)) id (approvers v)).
  eapply (inv_update _ w); [done|done|reflexivity|done|done| | | |]; simpl.
  - intros i b Hne. unfold has_voted. simpl. apply bool_decide_ext. set_solver.
  - intros b. unfold has_voted. simpl. rewrite bool_decide_eq_true. intros [Hb _]%elem_of_difference.
    destruct (inv_voted _ _ Hi id b) as (v' & Hv' & Hb'); [by apply bool_decide_eq_true|].
    by simplify_eq.
  - split; simpl; try done; unfold saturating_sub_u32.
    + etrans; [|symmetry; exact Hvotes]. lia.
    + rewrite Hst. simpl. lia.
  - intros t. unfold pending_amount. simpl. case_bool_decide; lia.
Qed.

Lemma cancel_inv id r e (w w' : W) u :
  inv (self e) w → emergency_cancel id r e w = Done w' u → inv (self e) w'.
Proof.
  intros Hi Hrun. unfold emergency_cancel in Hrun. token_inv. bool_prop. simpl in *.
  match goal with H : vaults _ !! _ = Some ?x |- _ => rename x into v, H into Hv end.
  destruct (inv_vaults _ _ Hi _ _ Hv) as [H1 H2 [H3 H3'] H4 H5 H6].
  match goal with H : status v = Pending |- _ => rename H into Hst end.
  rewrite Hst in H6. simpl in H6.
  match goal with H : token_transfer _ _ _ _ _ = Some _ |- _ =>
    apply transfer_out in H as [_ Hheld] end.
  eapply (inv_update _ w); [done|done|reflexivity|done|done|done| | |]; simpl.
  - intros b Hb. destruct (inv_voted _ _ Hi id b Hb) as (v' & Hv' & Hb'). by simplify_eq.
  - split; done.
  - intros t. specialize (Hheld t). unfold pending_amount. rewrite Hst. simpl.
    case_bool_decide; lia.
Qed.

Lemma vault_exec_inv c e (w w' : W) u :
  valid e c → inv (self e) w → exec c e w = Done w' u → inv (self e) w'.
Proof.
  intros Hv Hi Hrun. destruct c; simpl in Hrun.
  - unfold set_admin in Hrun. token_inv. destruct Hi as [H1 H2 H3 H4 H5]. split; try done.
    intros id v Hid. eapply vault_ok_ext; [|by apply H1]. done.
  - apply ignore_done in Hrun as [id Hrun]. by eapply vault_create_inv.
  - by eapply approve_inv.
  - by eapply revoke_inv.
  - by eapply cancel_inv.
Qed.

Definition deployed (this : Address) (w : W) : Prop :=
  store w = mkStore None None ∅ ∅ None ∧ ∀ t, 0 ≤ held this (ledger w) t.
Abbreviation Reach this := (reachable exec valid this (ledger_rely this) (deployed this)).

Lemma vault_inv_reachable this w : Reach this w → inv this w.
Proof.
  apply reachable_inv.
  - intros w0 [Hs Hh]. split; rewrite ?Hs; simpl.
    + done.
    + intros id a. unfold has_voted. rewrite bool_decide_eq_true. simpl. set_solver.
    + done.
    + intros id [? Hid]. done.
    + intros t. apply Hh.
  - intros c e w0 w1 u <- Hv Hi Hrun. by eapply vault_exec_inv.
  - intros w0 l [H1 H2 H3 H4 H5] Hl. split; try done. intros t. specialize (H5 t).
    specialize (Hl t). unfold held in *. simpl. lia.
Qed.

(** What a call may do to one vault. *)
Definition evolves (v v' : Vault) : Prop :=
  depositor v' = depositor v ∧ recipient v' = recipient v ∧ token v' = token v ∧
  amount v' = amount v ∧ approvers v' = approvers v ∧ threshold v' = threshold v ∧
  (status v ≠ Pending → v' = v).

Lemma vault_evolves_put (m : gmap Z Vault) id v v' i x :
  m !! id = Some v → status v = Pending → evolves v v' → m !! i = Some x →
  ∃ x', <[id := v']> m !! i = Some x' ∧ evolves x x'.
Proof.
  intros Hv Hst Hev Hx. rewrite lookup_insert. case_decide; subst.
  - simplify_eq. by exists v'.
  - exists x. unfold evolves. naive_solver.
Qed.

Lemma vault_exec_evolves c e (w w' : W) u i x :
  valid e c → inv (self e) w → exec c e w = Done w' u → vaults (store w) !! i = Some x →
  ∃ x', vaults (store w') !! i = Some x' ∧ evolves x x'.
Proof.
  intros Hv Hi Hrun Hx. destruct c; simpl in Hrun.
  - unfold set_admin in Hrun. token_inv. exists x. unfold evolves. naive_solver.
  - apply ignore_done in Hrun as [id Hrun].
    pose proof (vault_create_inv _ _ _ _ _ _ _ _ _ _ Hv Hi Hrun) as [Hfresh _].
    unfold create_vault, next_vault_nonce in Hrun. token_inv. simpl in *.
    exists x. split; [|unfold evolves; naive_solver].
    rewrite lookup_insert_ne; [done|]. intros Heq. rewrite Heq in Hfresh. congruence.
  - unfold approve_vault in Hrun. token_inv. bool_prop. simpl in *.
    destruct (_ <=? _); token_inv; (eapply vault_evolves_put; [done|done| |done]); split_and!; done.
  - unfold revoke_approval in Hrun. token_inv. bool_prop. simpl in *.
    eapply vault_evolves_put; [done|done| |done]. split_and!; done.
  - unfold emergency_cancel in Hrun. token_inv. bool_prop. simpl in *.
    eapply vault_evolves_put; [done|done| |done]. split_and!; done.
Qed.

(** ** Properties *)

(** C7: Quorum.  In every reachable world the approval count of a vault is the number of
    its approvers whose vote is recorded; approvers are distinct and neither the depositor
    nor the recipient is among them; a released vault has exactly [threshold] such votes
    and every other vault has fewer. *)
Theorem vault_quorum this w id v :
  Reach this w → vaults (store w) !! id = Some v →
  approvals v = votes (store w) id (approvers v) ∧ NoDup (approvers v) ∧
  depositor v ∉ approvers v ∧ recipient v ∉ approvers v ∧ 0 < threshold v ∧
  (status v = Released → approvals v = threshold v) ∧
  (status v ≠ Released → approvals v < threshold v).
Proof.
  intros Hr%vault_inv_reachable Hv. destruct (inv_vaults _ _ Hr _ _ Hv) as [H1 H2 [H3 H3'] H4 H5 H6].
  split_and!; try done; [lia|..]; intros Hst; case_bool_decide; done.
Qed.

(** Solvency.  In every reachable world the contract holds in every token at least
    the sum of the amounts of its pending vaults in that token. *)
Theorem vault_solvent this w t :
  Reach this w → locked t (store w) ≤ held this (ledger w) t.
Proof. intros Hr%vault_inv_reachable. apply (inv_solvent _ _ Hr). Qed.

(** Immutability.  From every reachable world any call (a creation included, which
    therefore never reuses an identifier) leaves each existing vault in place with its
    parties, token, amount, approvers and threshold, and leaves a vault that is no longer
    pending exactly as it is. *)
Theorem vault_immutable this w c e id v :
  Reach this w → self e = this → valid e c → vaults (store w) !! id = Some v →
  ∃ v', vaults (store (invoke (exec c) e w).1) !! id = Some v' ∧ evolves v v'.
Proof.
  intros Hr%vault_inv_reachable <- Hv Hid. unfold invoke.
  destruct (exec c e w) eqn:Hx; simpl; [by eapply vault_exec_evolves|..];
    exists v; unfold evolves; naive_solver.
Qed.

(** Release on quorum.  In every reachable world, with tokens that honour covered
    transfers, the vote of an approver who has not voted yet is accepted on a pending
    vault; when it reaches the threshold the vault is released and the recipient receives
    exactly the vault's amount, otherwise it stays pending with one more approval. *)
Theorem vote_accepted `{!TokenLive L} this w e id v a :
  Reach this w → self e = this → no_self_auth e →
  vaults (store w) !! id = Some v → status v = Pending → recipient v ≠ this →
  a ∈ approvers v → has_voted id a (store w) = false → authorized e a = true →
  threshold v ≤ u32_max →
  ∃ w', invoke (approve_vault id a) e w = (w', Returned tt) ∧
    if threshold v =? approvals v + 1 then
      vaults (store w') !! id = Some (with_status Released (with_approvals (threshold v) v)) ∧
      token_balance (ledger w') (token v) (recipient v) =
        token_balance (ledger w) (token v) (recipient v) + amount v
    else vaults (store w') !! id = Some (with_approvals (approvals v + 1) v).
Proof.
  intros Hr%vault_inv_reachable <- Hn Hv Hst Hrec Ha Hnv Hauth Hmax.
  destruct (inv_vaults _ _ Hr _ _ Hv) as [H1 H2 [H3 H3'] H4 H5 H6]. rewrite Hst in H6.
  simpl in H6. pose proof (votes_bounds (store w) id (approvers v)) as Hb.
  pose proof (vault_covered (self e) w id v Hr Hv Hst) as Hcov.
  destruct (transfer_live (ledger w) (token v) (self e) (recipient v) (amount v))
    as [l Hl]; [exact Hcov|].
  assert (contains (approvers v) a = true) by by apply contains_true.
  assert (a ≠ depositor v ∧ a ≠ recipient v) as [? ?] by (split; by intros ->).
  destruct (Z.eqb_spec (threshold v) (approvals v + 1)) as [Heq|Hne].
  - eexists. split; [apply invoke_run; unfold approve_vault; run_fwd|].
    { simpl. rewrite (proj2 (Z.leb_le _ _)) by lia. run_fwd. }
    simpl. rewrite Heq. split; [by rewrite lookup_insert_eq|].
    rewrite (transfer_moves _ _ _ _ _ _ _ _ Hl), bool_decide_eq_true_2 by done.
    unfold moved. rewrite bool_decide_eq_true_2, bool_decide_eq_false_2 by done. lia.
  - eexists. split; [apply invoke_run; unfold approve_vault; run_fwd|].
    { simpl. rewrite (proj2 (Z.leb_gt _ _)) by lia. run_fwd. }
    simpl. by rewrite lookup_insert_eq.
Qed.
End Invariant.

(** ** Concrete runs *)
Module Runs.
Abbreviation sha256 := demo_hash.
Abbreviation to_xdr := demo_xdr.
Abbreviation sha256_inj := demo_hash_free.

Definition this : Address := addr 0.
Definition boss : Address := addr 1.
Definition dora : Address := addr 2.
Definition rex : Address := addr 3.
Definition v1 : Address := addr 4.
Definition v2 : Address := addr 5.
Definition v3 : Address := addr 6.
Definition tok : Address := addr 9.
Definition at_time (t : Z) (a : Address) : Env := mkEnv t this (λ b, bool_decide (a = b)).

Abbreviation W := (World BalanceMap.t Store Event).
Definition w0 : W := mkWorld {[(tok, dora) := 700]} (mkStore None None ∅ ∅ None) [].
Definition id1 : BytesN32 := vault_id sha256 to_xdr 1 10 dora.
Definition setup : list (Env * Call) :=
  [(at_time 10 dora, CCreate dora rex tok 500 [v1; v2; v3] 2);
   (at_time 11 v1, CApprove id1 v1)].
Definition w1 : W := run_calls (exec sha256 to_xdr) setup w0.
Definition w2 : W := run_calls (exec sha256 to_xdr) (setup ++ [(at_time 12 v3, CApprove id1 v3)]) w0.
Definition the_vault (n : Z) (st : VaultStatus) : Vault :=
  mkVault dora rex tok 500 [v1; v2; v3] n 2 st.

Lemma vault_w0_deployed : deployed this w0.
Proof.
  split; [done|]. intros t. unfold held. simpl. unfold BalanceMap.balance.
  destruct (_ !! _) as [n|] eqn:Hn; [|done]. apply lookup_singleton_Some in Hn as [? <-]. done.
Qed.

Ltac reach :=
  apply reachable_run; [apply reach_init, vault_w0_deployed|];
  repeat constructor; vm_compute; reflexivity.
Abbreviation Reach := (reachable (exec sha256 to_xdr) valid this (ledger_rely this) (deployed this)).
Lemma vault_w1_reach : Reach w1.
Proof. reach. Qed.
Lemma vault_w2_reach : Reach w2.
Proof. reach. Qed.

Lemma vault_quorum_witness :
  status (the_vault 2 Released) = Released ∧ votes (store w2) id1 [v1; v2; v3] = 2.
Proof.
  destruct (vault_quorum sha256 to_xdr sha256_inj this w2 id1 (the_vault 2 Released)) as [Hv _];
    [apply vault_w2_reach|vm_compute; reflexivity|]. split; [reflexivity|symmetry; exact Hv].
Defined.

Lemma vault_solvent_witness :
  locked tok (store w1) = 500 ∧ locked tok (store w1) ≤ held this (ledger w1) tok.
Proof.
  split; [vm_compute; reflexivity|].
  apply (vault_solvent sha256 to_xdr sha256_inj this w1 tok), vault_w1_reach.
Defined.

Lemma vault_immutable_witness :
  ∃ v, vaults (store (invoke (exec sha256 to_xdr (CCancel id1 "late")) (at_time 13 boss) w2).1)
    !! id1 = Some v ∧ evolves (the_vault 2 Released) v.
Proof.
  apply (vault_immutable sha256 to_xdr sha256_inj this w2 (CCancel id1 "late")
    (at_time 13 boss) id1);
    [apply vault_w2_reach|reflexivity|split; [reflexivity|split; [reflexivity|exact I]]
    |vm_compute; reflexivity].
Defined.

Lemma vote_accepted_witness :
  ∃ w' : W, token_balance (ledger w') tok rex = token_balance (ledger w1) tok rex + 500.
Proof.
  destruct (vote_accepted sha256 to_xdr sha256_inj this w1 (at_time 12 v3) id1
    (the_vault 1 Pending) v3) as (w' & _ & _ & Hb);
    [apply vault_w1_reach|reflexivity|reflexivity|vm_compute; reflexivity|reflexivity
    |vm_compute; congruence|vm_compute; right; right; left|vm_compute; reflexivity
    |vm_compute; reflexivity|vm_compute; congruence|].
  exists w'. exact Hb.
Defined.
End Runs.
