(* ===== verification/Vesting.v ===== *)
(** * Vesting grants ([contracts/common/vesting.rs])

    The admin grants a schedule, the beneficiary claims the vested part once, the
    admin may revoke an unclaimed grant after a timelock.  The store has the
    persistent keys [init], [admin], [token], [gov], [cnt] and [sched]; sums of
    times and the product of the linear formula are the checked operators of the
    Rust code, so they trap on overflow. *)
From S2P Require Import Prelude Machine Host TokenIface.

Record VestingSchedule := mkSchedule {
  beneficiary : Address;
  amount : Z;
  start_time : Z;
  cliff : Z;
  duration : Z;
  claimed : bool;
  revoked : bool;
  revoke_time : Z }.

Inductive VestingError :=
| Unauthorized | NotVested | AlreadyClaimed | InvalidSchedule | InsufficientBalance
| GrantNotFound | Revoked | InvalidTimelock | NotEnoughTimeForRevoke.

Inductive Event :=
| GrantEvent (grant_id : Z) (beneficiary : Address)
    (amount start_time cliff duration granted_at : Z) (granted_by : Address)
| CredentialIssued (grant_id : Z) (beneficiary : Address)
    (amount start_time cliff duration granted_at : Z) (granted_by : Address)
| ClaimEvent (grant_id : Z) (beneficiary : Address) (amount claimed_at : Z)
| VestingClaimed (grant_id : Z) (beneficiary : Address) (amount claimed_at : Z)
| RevokeEvent (grant_id : Z) (beneficiary : Address) (revoked_at : Z) (revoked_by : Address).

Record Store := mkStore {
  initialized : bool;
  admin : option Address;
  token : option Address;
  gov : option Address;
  cnt : option Z;
  sched : option (gmap Z VestingSchedule) }.

Definition put_cnt (n : Z) (s : Store) : Store :=
  mkStore (initialized s) (admin s) (token s) (gov s) (Some n) (sched s).
Definition put_sched (m : gmap Z VestingSchedule) (s : Store) : Store :=
  mkStore (initialized s) (admin s) (token s) (gov s) (cnt s) (Some m).

Definition set_claimed (g : VestingSchedule) : VestingSchedule :=
  mkSchedule (beneficiary g) (amount g) (start_time g) (cliff g) (duration g)
    true (revoked g) (revoke_time g).
Definition set_revoked (t : Z) (g : VestingSchedule) : VestingSchedule :=
  mkSchedule (beneficiary g) (amount g) (start_time g) (cliff g) (duration g)
    (claimed g) true t.

(** The vested amount at a time; [None] is an overflow trap. *)
Definition calculate_vested_amount (schedule : VestingSchedule) (current_time : Z) :
    option (result VestingError Z) :=
  if current_time <? start_time schedule then Some (Ok 0)
  else
    cliff_end ← checked_add_u64 (start_time schedule) (cliff schedule);
    if current_time <? cliff_end then Some (Ok 0)
    else
      vesting_end ← checked_add_u64 (start_time schedule) (duration schedule);
      if vesting_end <=? current_time then Some (Ok (amount schedule))
      else
        vested_duration ← checked_sub_u64 current_time cliff_end;
        remaining_duration ← checked_sub_u64 (duration schedule) (cliff schedule);
        if remaining_duration =? 0 then Some (Ok (amount schedule))
        else
          product ← checked_mul_u128 (as_u128 (amount schedule)) vested_duration;
          vested_amount ← checked_div_u128 product remaining_duration;
          Some (Ok (as_i128 vested_amount)).

Section Contract.
Context {L : Type} `{TokenLedger L}.
Abbreviation M := (Contract L Store Event VestingError).

Definition init (adm reward_token governance : Address) : M unit :=
  done <- load initialized ;;
  reject_if done Unauthorized ;;;
  save (λ s, mkStore true (Some adm) (Some reward_token) (Some governance) (Some 0) (sched s)).

(** The admin check of [grant_vesting] and [revoke]. *)
Definition check_admin (adm : Address) : M unit :=
  require_auth adm ;;;
  o <- load admin ;;
  stored_admin <- ok_or o Unauthorized ;;
  reject_if (negb (bool_decide (adm = stored_admin))) Unauthorized.

Definition get_vesting (grant_id : Z) : M VestingSchedule :=
  o <- load sched ;;
  schedules <- ok_or o GrantNotFound ;;
  ok_or (schedules !! grant_id) GrantNotFound.

Definition vested_at (schedule : VestingSchedule) (t : Z) : M Z :=
  r <- or_trap (calculate_vested_amount schedule t) ;;
  lift r.

Definition grant_vesting (adm beneficiary : Address)
    (amount start_time cliff duration : Z) : M Z :=
  check_admin adm ;;;
  reject_if (amount <=? 0) InvalidSchedule ;;;
  reject_if (duration <? cliff) InvalidSchedule ;;;
  grant_id <- load (λ s, default 0 (cnt s)) ;;
  next_id <- or_trap (checked_add_u64 grant_id 1) ;;
  save (λ s, put_sched (<[next_id :=
    mkSchedule beneficiary amount start_time cliff duration false false 0]>
      (default ∅ (sched s))) s) ;;;
  save (put_cnt next_id) ;;;
  t <- now ;;
  publish (GrantEvent next_id beneficiary amount start_time cliff duration t adm) ;;;
  publish (CredentialIssued next_id beneficiary amount start_time cliff duration t adm) ;;;
  ret next_id.

Definition claim (grant_id : Z) (caller : Address) : M Z :=
  require_auth caller ;;;
  o <- load sched ;;
  schedules <- ok_or o GrantNotFound ;;
  schedule <- ok_or (schedules !! grant_id) GrantNotFound ;;
  reject_if (negb (bool_decide (beneficiary schedule = caller))) Unauthorized ;;;
  reject_if (claimed schedule) AlreadyClaimed ;;;
  reject_if (revoked schedule) Revoked ;;;
  t <- now ;;
  vested_amount <- vested_at schedule t ;;
  reject_if (vested_amount =? 0) NotVested ;;;
  o <- load token ;;
  tok <- ok_or o Unauthorized ;;
  this <- me ;;
  balance <- balance_call tok this ;;
  reject_if (balance <? vested_amount) InsufficientBalance ;;;
  save (put_sched (<[grant_id := set_claimed schedule]> schedules)) ;;;
  token_call tok this caller vested_amount ;;;
  publish (ClaimEvent grant_id caller vested_amount t) ;;;
  publish (VestingClaimed grant_id caller vested_amount t) ;;;
  ret vested_amount.

Definition revoke (grant_id : Z) (adm : Address) (revoke_delay : Z) : M unit :=
  check_admin adm ;;;
  o <- load sched ;;
  schedules <- ok_or o GrantNotFound ;;
  schedule <- ok_or (schedules !! grant_id) GrantNotFound ;;
  reject_if (claimed schedule) AlreadyClaimed ;;;
  reject_if (revoked schedule) Revoked ;;;
  reject_if (revoke_delay <? 3600) InvalidTimelock ;;;
  t <- now ;;
  earliest <- or_trap (checked_add_u64 (start_time schedule) revoke_delay) ;;
  reject_if (t <? earliest) NotEnoughTimeForRevoke ;;;
  save (put_sched (<[grant_id := set_revoked t schedule]> schedules)) ;;;
  publish (RevokeEvent grant_id (beneficiary schedule) t adm).

Definition get_vested_amount (grant_id : Z) : M Z :=
  schedule <- get_vesting grant_id ;;
  t <- now ;;
  vested_at schedule t.

Definition get_info : M (Address * Address * Address) :=
  o <- load admin ;; adm <- ok_or o Unauthorized ;;
  o <- load token ;; tok <- ok_or o Unauthorized ;;
  o <- load gov ;; governance <- ok_or o Unauthorized ;;
  ret (adm, tok, governance).

Inductive Call :=
| CInit (adm reward_token governance : Address)
| CGrant (adm beneficiary : Address) (amount start_time cliff duration : Z)
| CClaim (grant_id : Z) (caller : Address)
| CRevoke (grant_id : Z) (adm : Address) (revoke_delay : Z).

Definition exec (c : Call) : M unit :=
  match c with
  | CInit a t g => init a t g
  | CGrant a b n s c d => ignore (grant_vesting a b n s c d)
  | CClaim id a => ignore (claim id a)
  | CRevoke id a d => revoke id a d
  end.

Definition valid (e : Env) (c : Call) : Prop :=
  no_self_auth e ∧ u64 (timestamp e) = true ∧
  match c with
  | CGrant _ _ n s c d => i128 n && u64 s && u64 c && u64 d = true
  | CRevoke _ _ d => u64 d = true
  | _ => True
  end.
End Contract.

(** ** The vesting curve *)

(** A schedule as [grant_vesting] stores it, whose curve never overflows. *)
Definition schedule_ok (g : VestingSchedule) : Prop :=
  0 < amount g ≤ i128_max ∧ 0 ≤ start_time g ∧ 0 ≤ cliff g ≤ duration g.
Definition no_overflow (g : VestingSchedule) : Prop :=
  start_time g + duration g ≤ u64_max ∧ amount g * (duration g - cliff g) ≤ u128_max.

(** The curve as a formula: nothing before the cliff, then linear in the time since
    the cliff, everything at the end. *)
Definition curve (g : VestingSchedule) (t : Z) : Z :=
  if t <? start_time g + cliff g then 0
  else if start_time g + duration g <=? t then amount g
  else amount g * (t - (start_time g + cliff g)) / (duration g - cliff g).

Lemma curve_bounds g t : schedule_ok g → 0 ≤ curve g t ≤ amount g.
Proof.
  intros (Ha & Hs & Hc). unfold curve.
  destruct (Z.ltb_spec t (start_time g + cliff g)); [lia|].
  destruct (Z.leb_spec (start_time g + duration g) t); [lia|].
  split; [apply Z.div_pos; nia|]. apply Z.div_le_upper_bound; nia.
Qed.

Lemma curve_mono g t t' : schedule_ok g → t ≤ t' → curve g t ≤ curve g t'.
Proof.
  intros Hok Ht. pose proof (curve_bounds g t Hok). pose proof (curve_bounds g t' Hok).
  destruct Hok as (Ha & Hs & Hc). unfold curve in *.
  destruct (Z.ltb_spec t (start_time g + cliff g)); [lia|].
  rewrite (proj2 (Z.ltb_ge t' _)) in * by lia.
  destruct (Z.leb_spec (start_time g + duration g) t').
  - destruct (Z.leb_spec (start_time g + duration g) t); lia.
  - rewrite (proj2 (Z.leb_gt _ t)) by lia. apply Z.div_le_mono; nia.
Qed.

(** The code computes the curve wherever no intermediate value overflows. *)
Lemma calculate_curve g t :
  schedule_ok g → no_overflow g → 0 ≤ t ≤ u64_max →
  calculate_vested_amount g t = Some (Ok (curve g t)).
Proof.
  intros Hok [Hn1 Hn2] Ht. pose proof (curve_bounds g t Hok) as Hb.
  destruct Hok as (Ha & Hs & Hc). unfold calculate_vested_amount, curve in *.
  destruct (Z.ltb_spec t (start_time g)).
  { by rewrite (proj2 (Z.ltb_lt t (start_time g + cliff g))) by lia. }
  unfold checked_add_u64. rewrite !checked_in by lia. simpl.
  destruct (Z.ltb_spec t (start_time g + cliff g)); [done|].
  destruct (Z.leb_spec (start_time g + duration g) t); [done|].
  unfold checked_sub_u64. rewrite !checked_in by lia. simpl.
  rewrite (proj2 (Z.eqb_neq (duration g - cliff g) 0)) by lia. rewrite as_u128_small by range_lia.
  unfold checked_mul_u128. rewrite checked_in by nia. simpl. unfold checked_div_u128.
  rewrite (proj2 (Z.eqb_neq (duration g - cliff g) 0)) by lia. simpl. rewrite quot_floor by nia.
  by rewrite as_i128_small by lia.
Qed.

(** When it does not trap, the code's value is the curve. *)
Lemma calculate_is_curve g t r :
  schedule_ok g → 0 ≤ t → calculate_vested_amount g t = Some r → r = Ok (curve g t).
Proof.
  intros (Ha & Hs & Hc) Ht. unfold calculate_vested_amount, curve.
  destruct (Z.ltb_spec t (start_time g)).
  { rewrite (proj2 (Z.ltb_lt t (start_time g + cliff g))) by lia. by intros [= <-]. }
  intros (ce & [-> K1]%checked_Some & Hr)%bind_Some.
  destruct (Z.ltb_spec t (start_time g + cliff g)); [by injection Hr as <-|].
  apply bind_Some in Hr as (ve & [-> K2]%checked_Some & Hr).
  destruct (Z.leb_spec (start_time g + duration g) t); [by injection Hr as <-|].
  apply bind_Some in Hr as (vd & [-> K3]%checked_Some & Hr).
  apply bind_Some in Hr as (rd & [-> K4]%checked_Some & Hr).
  rewrite (proj2 (Z.eqb_neq (duration g - cliff g) 0)) in Hr by lia.
  rewrite as_u128_small in Hr by range_lia.
  apply bind_Some in Hr as (p & [-> K5]%checked_Some & Hr). unfold checked_div_u128 in Hr.
  rewrite (proj2 (Z.eqb_neq (duration g - cliff g) 0)) in Hr by lia. simpl in Hr.
  rewrite quot_floor in Hr by nia. injection Hr as <-.
  rewrite as_i128_small; [done|]. split; [apply Z.div_pos; nia|].
  etrans; [apply Z.div_le_upper_bound with (q := amount g); nia|lia].
Qed.

(** ** The invariant *)
Section Invariant.
Context {L : Type} `{!TokenLedger L, !TokenLaws L}.
Abbreviation W := (World L Store Event).

Definition grants (s : Store) : gmap Z VestingSchedule := default ∅ (sched s).
Definition grant_count (s : Store) : Z := default 0 (cnt s).
(** The payments the event log reports for a grant, to whom and how much, oldest first. *)
Definition payment (id : Z) (ev : Event) : list (Address * Z) :=
  match ev with ClaimEvent i b n _ => if i =? id then [(b, n)] else [] | _ => [] end.
Definition payments (id : Z) (w : W) : list (Address * Z) := log w ≫= payment id.

(** A grant is not both claimed and revoked; a claimed one has one payment, to its beneficiary,
    of what had vested at some time; any other has none. *)
Definition grant_ok (g : VestingSchedule) (ps : list (Address * Z)) : Prop :=
  schedule_ok g ∧ ¬ (claimed g = true ∧ revoked g = true) ∧
  (if claimed g
   then ∃ t n, ps = [(beneficiary g, n)] ∧ n = curve g t ∧ 0 < n ≤ amount g
   else ps = []).

Record inv (w : W) : Prop := {
  inv_grants id g : grants (store w) !! id = Some g → grant_ok g (payments id w);
  inv_unpaid id : grants (store w) !! id = None → payments id w = [];
  inv_count : 0 ≤ grant_count (store w);
  inv_ids id : is_Some (grants (store w) !! id) → 0 < id ≤ grant_count (store w);
  inv_init : if initialized (store w) then is_Some (token (store w))
    else admin (store w) = None ∧ token (store w) = None ∧ sched (store w) = None }.

Definition evolves (g g' : VestingSchedule) : Prop :=
  beneficiary g' = beneficiary g ∧ amount g' = amount g ∧ start_time g' = start_time g ∧
  cliff g' = cliff g ∧ duration g' = duration g ∧
  ((claimed g || revoked g) = true → g' = g).

Definition grants_evolve (s s' : Store) : Prop :=
  ∀ id g, grants s !! id = Some g → ∃ g', grants s' !! id = Some g' ∧ evolves g g'.

Lemma vested_at_done g t e (w w' : W) n :
  schedule_ok g → 0 ≤ t → vested_at g t e w = Done w' n → w' = w ∧ n = curve g t.
Proof.
  intros Hok Ht Hrun. unfold vested_at in Hrun. run_inv.
  match goal with H : calculate_vested_amount _ _ = Some _ |- _ =>
    apply calculate_is_curve in H as ->; [|done..] end. by simplify_eq.
Qed.

Lemma evolve_refl s : grants_evolve s s.
Proof. intros id g Hg. exists g. unfold evolves. naive_solver. Qed.

(** Replacing an open grant by a closed one. *)
Lemma inv_close (w w' : W) id g g' ps :
  inv w → grants (store w) !! id = Some g → (claimed g || revoked g) = false →
  evolves g g' → grant_ok g' ps →
  grants (store w') = <[id := g']> (grants (store w)) → cnt (store w') = cnt (store w) →
  initialized (store w') = initialized (store w) → token (store w') = token (store w) →
  (∀ i, payments i w' = payments i w ++ if i =? id then ps else []) →
  inv w' ∧ grants_evolve (store w) (store w').
Proof.
  intros [H1 H2 H3 H4 H5] Hg Ho Hev Hok Hs Hc Hinit Htok Hp.
  assert (Hz : payments id w = []).
  { destruct (H1 _ _ Hg) as (_ & _ & Hz). destruct (claimed g); [done|exact Hz]. }
  split; [split|]; unfold grant_count in *; rewrite ?Hs, ?Hc, ?Hinit, ?Htok; try done.
  - intros i x. rewrite lookup_insert, Hp. case_decide.
    + subst. intros [= <-]. rewrite Z.eqb_refl, Hz. done.
    + rewrite (proj2 (Z.eqb_neq i id)), app_nil_r by lia. apply H1.
  - intros i. rewrite lookup_insert, Hp. case_decide; [done|].
    rewrite (proj2 (Z.eqb_neq i id)), app_nil_r by lia. apply H2.
  - intros i. rewrite lookup_insert. case_decide; [|apply H4]. intros _. subst.
    apply H4. by rewrite Hg.
  - destruct (initialized (store w)); [done|]. destruct H5 as (_ & _ & Hs').
    unfold grants in Hg. by rewrite Hs' in Hg.
  - intros i x Hx. rewrite Hs, lookup_insert. case_decide; subst; simplify_eq; [by exists g'|].
    by apply evolve_refl.
Qed.

Lemma check_admin_done a e (w w' : W) u :
  check_admin a e w = Done w' u → w' = w ∧ admin (store w) = Some a.
Proof. unfold check_admin. intros Hrun. run_inv. bool_prop. by subst. Qed.

Lemma grant_inv a b n s c d e (w w' : W) id :
  valid e (CGrant a b n s c d) → inv w → grant_vesting a b n s c d e w = Done w' id →
  inv w' ∧ grants_evolve (store w) (store w').
Proof.
  intros (_ & _ & Hv) [H1 H2 H3 H4 H5] Hrun. unfold grant_vesting in Hrun. run_inv.
  match goal with H : check_admin _ _ _ = _ |- _ => apply check_admin_done in H as [-> Hadm] end.
  bool_prop. checked_prop. simpl in *.
  assert (Hp : ∀ i ev1 ev2, payment i ev1 = [] → payment i ev2 = [] →
    ((log w ++ [ev1]) ++ [ev2]) ≫= payment i = payments i w).
  { intros i ev1 ev2 He1 He2. rewrite !bind_app. simpl. by rewrite He1, He2, !app_nil_r. }
  change (default 0 (cnt (store w))) with (grant_count (store w)) in *.
  assert (Hnew : grants (store w) !! (grant_count (store w) + 1) = None).
  { destruct (_ !! _) as [g|] eqn:Hg; [|done]. pose proof (H4 _ (mk_is_Some _ _ Hg)). lia. }
  split; [split|]; unfold payments, grant_count, grants in *; simpl.
  - intros i x. rewrite Hp by done. rewrite lookup_insert. case_decide; [|apply H1].
    intros [= <-]. subst. split_and!; simpl; [unfold schedule_ok; simpl; lia|naive_solver|by apply H2].
  - intros i. rewrite Hp by done. rewrite lookup_insert. case_decide; [done|]. apply H2.
  - lia.
  - intros i. rewrite lookup_insert. case_decide; [lia|]. intros Hi. apply H4 in Hi. lia.
  - destruct (initialized (store w)); [done|]. destruct H5. congruence.
  - intros i x Hx. unfold grants. simpl. rewrite lookup_insert_ne
      by (intros Heq; unfold grants in Hx; rewrite Heq in Hnew; congruence).
    exists x. unfold evolves. naive_solver.
Qed.

Lemma claim_effect id b e (w w' : W) n :
  u64 (timestamp e) = true → inv w → claim id b e w = Done w' n →
  ∃ g tok l, grants (store w) !! id = Some g ∧ beneficiary g = b ∧
    (claimed g || revoked g) = false ∧ n = curve g (timestamp e) ∧ 0 < n ≤ amount g ∧
    token (store w) = Some tok ∧ token_transfer (ledger w) tok (self e) b n = Some l ∧
    w' = mkWorld l (put_sched (<[id := set_claimed g]> (grants (store w))) (store w))
           ((log w ++ [ClaimEvent id b n (timestamp e)])
            ++ [VestingClaimed id b n (timestamp e)]).
Proof.
  intros Ht Hi Hrun. unfold claim in Hrun. token_inv.
  match goal with H : sched _ = Some ?m |- _ => rename m into gs, H into Hs end.
  match goal with H : gs !! id = Some ?x |- _ => rename x into g, H into Hg end.
  assert (Hgs : grants (store w) = gs) by (unfold grants; by rewrite Hs). subst gs.
  destruct (inv_grants _ Hi _ _ Hg) as (Hok & _ & _). checked_prop.
  match goal with H : vested_at _ _ _ _ = _ |- _ =>
    apply vested_at_done in H as [-> ->]; [|done|lia] end.
  pose proof (curve_bounds g (timestamp e) Hok). token_inv. bool_prop. simpl in *.
  exists g. do 2 eexists. split_and!; try done; [|lia..].
  apply orb_false_iff. by split.
Qed.

Lemma claim_inv e id b (w w' : W) n :
  u64 (timestamp e) = true → inv w → claim id b e w = Done w' n →
  inv w' ∧ grants_evolve (store w) (store w').
Proof.
  intros Ht Hi Hrun. pose proof Hi as [H1 H2 H3 H4 H5].
  destruct (claim_effect _ _ _ _ _ _ Ht Hi Hrun)
    as (g & tok & l & Hg & Hb & Ho & Hn & Hpos & Htok & Hl & ->).
  eapply (inv_close _ _ id g (set_claimed g) [(b, n)]); try done.
  - split_and!; try done. intros Hc. unfold evolves in *. simpl. congruence.
  - destruct (H1 _ _ Hg) as (Hok & _ & _). unfold grant_ok. simpl.
    apply orb_false_iff in Ho as [_ ->]. split_and!; [done|naive_solver|].
    exists (timestamp e), n. by rewrite Hb.
  - intros i. unfold payments. simpl. rewrite !bind_app. simpl. rewrite !app_nil_r.
    by rewrite (Z.eqb_sym id i).
Qed.

Lemma vesting_exec_inv c e (w w' : W) u :
  valid e c → inv w → exec c e w = Done w' u →
  inv w' ∧ grants_evolve (store w) (store w').
Proof.
  intros Hv Hi Hrun. pose proof Hi as [H1 H2 H3 H4 H5]. destruct c; simpl in Hrun.
  - unfold init in Hrun. run_inv.
    match goal with H : initialized _ = false |- _ => rewrite H in H5; destruct H5 as (_ & _ & Hs) end.
    split; [split|]; unfold grants, payments, grant_count in *; simpl; rewrite ?Hs in *; try done.
    + by intros i [? Hg].
    + intros i g Hg. unfold grants in Hg. by rewrite Hs in Hg.
  - apply ignore_done in Hrun as [id Hrun]. by eapply grant_inv.
  - apply ignore_done in Hrun as [n Hrun]. destruct Hv as (_ & Ht & _). by eapply claim_inv.
  - unfold revoke in Hrun. run_inv.
    match goal with H : check_admin _ _ _ = _ |- _ => apply check_admin_done in H as [-> Hadm] end.
    match goal with H : sched _ = Some ?m |- _ => rename m into gs, H into Hs end.
    match goal with H : gs !! _ = Some ?x |- _ => rename x into g, H into Hg end.
    assert (Hgs : grants (store w) = gs) by (unfold grants; by rewrite Hs). subst gs.
    match goal with H : claimed g = false |- _ => rename H into Hc end.
    match goal with H : revoked g = false |- _ => rename H into Hr end.
    eapply (inv_close _ _ grant_id g (set_revoked (timestamp e) g) []); try done.
    + by rewrite Hc, Hr.
    + split_and!; try done. rewrite Hc, Hr. done.
    + destruct (H1 _ _ Hg) as (Hok & _ & _). split_and!; try done; simpl; rewrite Hc; naive_solver.
    + intros i. unfold payments. simpl. rewrite !bind_app. simpl. by destruct (i =? grant_id).
Qed.

Lemma evolve_trans s1 s2 s3 :
  grants_evolve s1 s2 → grants_evolve s2 s3 → grants_evolve s1 s3.
Proof.
  intros H12 H23 id g Hg. destruct (H12 _ _ Hg) as (g2 & Hg2 & E).
  destruct (H23 _ _ Hg2) as (g3 & Hg3 & F). exists g3. split; [done|].
  unfold evolves in *. destruct E as (? & ? & ? & ? & ? & E), F as (? & ? & ? & ? & ? & F).
  split_and!; try congruence. intros Hc. rewrite (E Hc) in F. by apply F.
Qed.






Definition deployed (w : W) : Prop :=
  store w = mkStore false None None None None None ∧ log w = [].
Abbreviation Reach this := (reachable exec valid this (ledger_rely this) deployed).
(** The worlds a deployment reaches from [w]. *)
Abbreviation From this w := (reachable exec valid this (ledger_rely this) (λ v, v = w)).

Lemma vesting_inv_reachable this w : Reach this w → inv w.
Proof.
  apply reachable_inv.
  - intros w0 [Hs Hl]. split; unfold payments; rewrite ?Hs, ?Hl; try done. by intros id [? Hid].
  - intros c e w0 w1 u _ Hv Hi Hrun. by eapply vesting_exec_inv.
  - intros w0 l [H1 H2 H3 H4 H5] _. by split.
Qed.

Lemma inv_from this w w' :
  inv w → From this w w' → inv w' ∧ grants_evolve (store w) (store w').
Proof.
  intros Hi. apply (reachable_inv _ _ _ _ _
    (λ v, inv v ∧ grants_evolve (store w) (store v))).
  - intros w0 ->. split; [done|apply evolve_refl].
  - intros c e w0 w1 u _ Hv [Hi0 Hev] Hrun.
    destruct (vesting_exec_inv _ _ _ _ _ Hv Hi0 Hrun) as [Hi1 Hev1].
    split; [done|by eapply evolve_trans].
  - intros w0 l [[H1 H2 H3 H4 H5] Hev] _. split; [by split|done].
Qed.

(** ** Properties *)

(** The vesting curve.  On a granted schedule whose end and whose product
    amount × (duration − cliff) fit the machine types, [calculate_vested_amount] returns
    without trapping, at every time, the value of the reference formula [curve]; it lies
    between zero and the granted amount and never decreases with time. *)
Theorem vesting_curve g t t' :
  schedule_ok g → no_overflow g → 0 ≤ t ≤ t' → t' ≤ u64_max →
  calculate_vested_amount g t = Some (Ok (curve g t)) ∧
  0 ≤ curve g t ≤ curve g t' ∧ curve g t' ≤ amount g.
Proof.
  intros Hok Hn Ht Ht'. split; [apply calculate_curve; [done|done|lia]|].
  pose proof (curve_bounds g t Hok). pose proof (curve_bounds g t' Hok).
  pose proof (curve_mono g t t' Hok). lia.
Qed.


(** Claims are final.  A successful claim pays the beneficiary the value of the curve
    at that moment and closes the grant for ever: in every world the deployment reaches
    afterwards no claim of that grant returns, so what had not vested yet is forfeited. *)
Theorem claim_final this w e id b w' n :
  Reach this w → self e = this → u64 (timestamp e) = true →
  claim id b e w = Done w' n → b ≠ this →
  ∃ g tok, grants (store w) !! id = Some g ∧ token (store w) = Some tok ∧
    n = curve g (timestamp e) ∧ 0 < n ≤ amount g ∧
    token_balance (ledger w') tok b = token_balance (ledger w) tok b + n ∧
    ∀ w'' e' c w3 m, From this w' w'' → u64 (timestamp e') = true →
      claim id c e' w'' ≠ Done w3 m.
Proof.
  intros Hi%vesting_inv_reachable <- Ht Hrun Hb.
  destruct (claim_effect _ _ _ _ _ _ Ht Hi Hrun)
    as (g & tok & l & Hg & Hben & Ho & Hn & Hpos & Htok & Hl & Hw').
  assert (Hi' : inv w').
  { destruct (claim_inv e id b w w' n) as [Hi' _]; done. }
  exists g, tok. split_and!; try done; try lia.
  - subst w'. simpl. rewrite (transfer_moves _ _ _ _ _ _ _ _ Hl).
    rewrite bool_decide_eq_true_2 by done. unfold moved.
    rewrite bool_decide_eq_true_2, bool_decide_eq_false_2 by done. lia.
  - intros w'' e' c w3 m Hfrom Ht' Hrun'.
    destruct (inv_from _ _ _ Hi' Hfrom) as [Hi'' Hev].
    destruct (claim_effect _ _ _ _ _ _ Ht' Hi'' Hrun') as (g2 & _ & _ & Hg2 & _ & Ho2 & _).
    destruct (Hev id (set_claimed g)) as (g3 & Hg3 & _ & _ & _ & _ & _ & Hsame).
    { subst w'. unfold grants. simpl. apply lookup_insert_eq. }
    rewrite Hg2 in Hg3. injection Hg3 as <-. rewrite Hsame in Ho2 by done. done.
Qed.

(** A vested grant is paid.  In every reachable world, with tokens that honour covered
    transfers, the beneficiary of an open grant whose curve is positive and does not
    overflow is paid exactly the vested amount whenever the contract holds it. *)
Theorem claim_pays `{!TokenLive L} this w e id g tok :
  Reach this w → self e = this → u64 (timestamp e) = true →
  grants (store w) !! id = Some g → (claimed g || revoked g) = false → no_overflow g →
  0 < curve g (timestamp e) → token (store w) = Some tok →
  curve g (timestamp e) ≤ held this (ledger w) tok → authorized e (beneficiary g) = true →
  ∃ w', invoke (claim id (beneficiary g)) e w = (w', Returned (curve g (timestamp e))).
Proof.
  intros Hi%vesting_inv_reachable <- Ht Hg Ho Hn Hpos Htok Hbal Hauth. apply in_range_iff in Ht.
  destruct (inv_grants _ Hi _ _ Hg) as (Hok & _ & _).
  apply orb_false_iff in Ho as [Hc Hr].
  destruct (transfer_live (ledger w) tok (self e) (beneficiary g) (curve g (timestamp e)))
    as [l Hl]; [split; [lia|exact Hbal]|].
  unfold grants in Hg. destruct (sched (store w)) as [gs|] eqn:Hs; [|done]. simpl in Hg.
  pose proof (calculate_curve g (timestamp e) Hok Hn Ht) as Hcalc.
  eexists. apply invoke_run. unfold claim, vested_at. run_fwd.
Qed.
End Invariant.

(** ** Concrete runs *)
Module Runs.
Definition this : Address := addr 0.
Definition boss : Address := addr 1.
Definition bea : Address := addr 2.
Definition tok : Address := addr 9.
Definition at_time (t : Z) (a : Address) : Env := mkEnv t this (λ b, bool_decide (a = b)).
Abbreviation W := (World BalanceMap.t Store Event).
Definition w0 : W :=
  mkWorld {[(tok, this) := 5000]} (mkStore false None None None None None) [].
Definition setup : list (Env * Call) :=
  [(at_time 1 boss, CInit boss tok boss); (at_time 1 boss, CGrant boss bea 1000 100 50 250)].
Definition w1 : W := run_calls exec setup w0.
Definition the_grant (c : bool) : VestingSchedule := mkSchedule bea 1000 100 50 250 c false 0.

Ltac reach :=
  apply reachable_run; [apply reach_init; done|]; repeat constructor; vm_compute; reflexivity.
Abbreviation Reach := (reachable exec valid this (ledger_rely this) deployed).
Lemma vesting_w1_reach : Reach w1.
Proof. reach. Qed.

Lemma the_grant_ok c : schedule_ok (the_grant c) ∧ no_overflow (the_grant c).
Proof. unfold schedule_ok, no_overflow. simpl. range_lia. Qed.

Lemma vesting_curve_witness :
  calculate_vested_amount (the_grant false) 200 = Some (Ok 250) ∧
  curve (the_grant false) 200 ≤ curve (the_grant false) 300.
Proof.
  destruct (vesting_curve (the_grant false) 200 300) as (H1 & [_ H2] & _);
    [apply the_grant_ok|apply the_grant_ok|lia|range_lia|].
  split; [rewrite H1; reflexivity|exact H2].
Defined.



Lemma claim_final_witness :
  ∃ w' : W, claim 1 bea (at_time 200 bea) w1 = Done w' 250 ∧
    ∀ w3 m, claim 1 bea (at_time 1000 bea) w' ≠ Done w3 m.
Proof.
  destruct (claim 1 bea (at_time 200 bea) w1) as [w' n| |] eqn:Hrun;
    [|vm_compute in Hrun; discriminate Hrun..].
  exists w'.
  destruct (claim_final this w1 (at_time 200 bea) 1 bea w' n) as
    (g & t & Hg & _ & Hn & _ & _ & Hall);
    [apply vesting_w1_reach|reflexivity|reflexivity|exact Hrun|discriminate|].
  vm_compute in Hg. injection Hg as <-. split; [rewrite Hn; reflexivity|].
  intros w3 m. apply Hall; [by apply reach_init|reflexivity].
Defined.

Lemma claim_pays_witness :
  ∃ w' : W, invoke (claim 1 bea) (at_time 350 bea) w1 = (w', Returned 1000).
Proof.
  apply (claim_pays this w1 (at_time 350 bea) 1 (the_grant false) tok);
    [apply vesting_w1_reach|reflexivity|reflexivity|vm_compute; reflexivity|reflexivity
    |apply the_grant_ok|vm_compute; reflexivity|vm_compute; reflexivity
    |vm_compute; discriminate|vm_compute; reflexivity].
Defined.
End Runs.
