(* ===== verification/RoyaltySplits.v ===== *)
(** * Royalty splits ([contracts/royalty-splits/src/lib.rs])

    The admin fixes a manifest of recipients and basis-point shares and credits
    amounts along it; recipients withdraw their balances.  Only the bookkeeping is
    on chain: no token moves. *)
From S2P Require Import Prelude Machine Host BpsSplit.

Abbreviation TOTAL_BPS := FULL_BPS.
Definition MAX_RECIPIENTS : Z := 20.
Definition CONTRACT_VERSION : Z := 1.

Inductive ContractError :=
| NotInitialized | AlreadyInitialized | NotAdmin | ManifestAlreadyExists | ManifestNotFound
| EmptyManifest | TooManyRecipients | MismatchedLengths | InvalidBps | InvalidAmount
| NothingToWithdraw | Overflow.

Record SplitManifest := mkManifest { recipients : list Address; bps : list Z; created_at : Z }.
Record AssetLedger := mkLedger { total_distributed : Z; total_withdrawn : Z }.

Inductive Event :=
| SPLITNEW (manifest_id : BytesN32)
| SPLITDST (manifest_id : BytesN32) (asset : Symbol) (amount : Z)
| SPLITWD (recipient : Address) (asset : Symbol) (amount : Z).

Record Store := mkStore {
  admin : option Address;
  manifests : gmap Z SplitManifest;
  balances : gmap (Address * string) Z;
  ledgers : gmap string AssetLedger }.

Definition put_admin (a : Address) (s : Store) : Store :=
  mkStore (Some a) (manifests s) (balances s) (ledgers s).
Definition put_manifest (id : BytesN32) (m : SplitManifest) (s : Store) : Store :=
  mkStore (admin s) (<[id := m]> (manifests s)) (balances s) (ledgers s).
Definition put_balance (r : Address) (asset : Symbol) (n : Z) (s : Store) : Store :=
  mkStore (admin s) (manifests s) (<[(r, asset) := n]> (balances s)) (ledgers s).
Definition put_ledger (asset : Symbol) (l : AssetLedger) (s : Store) : Store :=
  mkStore (admin s) (manifests s) (balances s) (<[asset := l]> (ledgers s)).

Definition get_balance (recipient : Address) (asset : Symbol) (s : Store) : Z :=
  default 0 (balances s !! (recipient, asset)).
Definition get_asset_ledger (asset : Symbol) (s : Store) : AssetLedger :=
  default (mkLedger 0 0) (ledgers s !! asset).

(** The scan of [create_manifest] over the shares: a zero share is refused, the
    sum is checked. *)
Fixpoint sum_shares (l : list Z) (total : Z) : result ContractError Z :=
  match l with
  | [] => Ok total
  | share :: l =>
      if share =? 0 then Err InvalidBps
      else let? total := option_ok_or (checked_add_u32 total share) Overflow in
           sum_shares l total
  end.

Section Contract.
Context {L : Type}.
Abbreviation M := (Contract L Store Event ContractError).

Definition initialize (adm : Address) : M unit :=
  o <- load admin ;;
  reject_if (bool_decide (is_Some o)) AlreadyInitialized ;;;
  require_auth adm ;;;
  save (put_admin adm).

Definition require_admin (caller : Address) : M unit :=
  require_admin_of admin NotInitialized NotAdmin caller.

Definition create_manifest (adm : Address) (manifest_id : BytesN32)
    (recips : list Address) (shares : list Z) : M unit :=
  require_admin adm ;;;
  o <- load (λ s, manifests s !! manifest_id) ;;
  reject_if (bool_decide (is_Some o)) ManifestAlreadyExists ;;;
  reject_if (bool_decide (recips = [])) EmptyManifest ;;;
  reject_if (MAX_RECIPIENTS <? Z.of_nat (length recips)) TooManyRecipients ;;;
  reject_if (negb (length recips =? length shares)%nat) MismatchedLengths ;;;
  total <- lift (sum_shares shares 0) ;;
  reject_if (negb (total =? TOTAL_BPS)) InvalidBps ;;;
  t <- now ;;
  save (put_manifest manifest_id (mkManifest recips shares t)) ;;;
  publish (SPLITNEW manifest_id).

Definition get_manifest (manifest_id : BytesN32) : M SplitManifest :=
  o <- load (λ s, manifests s !! manifest_id) ;;
  ok_or o ManifestNotFound.

(** One round of the loop of [distribute]. *)
Definition credit_share (manifest : SplitManifest) (asset : Symbol) (amount : Z)
    (n i : nat) (distributed_so_far : Z) : M Z :=
  recipient <- ok_or (recipients manifest !! i) ManifestNotFound ;;
  share <- (if (i =? n - 1)%nat then ok_or (checked_sub_i128 amount distributed_so_far) Overflow
            else
              share_bps <- ok_or (bps manifest !! i) ManifestNotFound ;;
              raw <- ok_or (checked_mul_i128 amount share_bps) Overflow ;;
              ret (Z.quot raw TOTAL_BPS)) ;;
  distributed_so_far <- ok_or (checked_add_i128 distributed_so_far share) Overflow ;;
  current <- load (get_balance recipient asset) ;;
  new_balance <- ok_or (checked_add_i128 current share) Overflow ;;
  save (put_balance recipient asset new_balance) ;;;
  ret distributed_so_far.

Definition distribute (adm : Address) (manifest_id : BytesN32) (asset : Symbol)
    (amount : Z) : M unit :=
  require_admin adm ;;;
  reject_if (amount <=? 0) InvalidAmount ;;;
  manifest <- get_manifest manifest_id ;;
  let n := length (recipients manifest) in
  for_in (seq 0 n) 0 (credit_share manifest asset amount n) ;;;
  l <- load (get_asset_ledger asset) ;;
  total <- ok_or (checked_add_i128 (total_distributed l) amount) Overflow ;;
  save (put_ledger asset (mkLedger total (total_withdrawn l))) ;;;
  publish (SPLITDST manifest_id asset amount).

Definition withdraw (recipient : Address) (asset : Symbol) : M Z :=
  require_auth recipient ;;;
  balance <- load (get_balance recipient asset) ;;
  reject_if (balance <=? 0) NothingToWithdraw ;;;
  save (put_balance recipient asset 0) ;;;
  o <- load (λ s, ledgers s !! asset) ;;
  l <- ok_or o NothingToWithdraw ;;
  total <- ok_or (checked_add_i128 (total_withdrawn l) balance) Overflow ;;
  save (put_ledger asset (mkLedger (total_distributed l) total)) ;;;
  publish (SPLITWD recipient asset balance) ;;;
  ret balance.

Definition get_outstanding_liability (asset : Symbol) : M Z :=
  l <- load (get_asset_ledger asset) ;;
  or_trap (checked_sub_i128 (total_distributed l) (total_withdrawn l)).

Inductive Call :=
| CInitialize (adm : Address)
| CCreate (adm : Address) (manifest_id : BytesN32) (recips : list Address) (shares : list Z)
| CDistribute (adm : Address) (manifest_id : BytesN32) (asset : Symbol) (amount : Z)
| CWithdraw (recipient : Address) (asset : Symbol).

Definition exec (c : Call) : M unit :=
  match c with
  | CInitialize a => initialize a
  | CCreate a id r b => create_manifest a id r b
  | CDistribute a id s n => distribute a id s n
  | CWithdraw r s => ignore (withdraw r s)
  end.

(** Shares are [u32], amounts [i128]. *)
Definition valid (e : Env) (c : Call) : Prop :=
  match c with
  | CCreate _ _ _ b => Forall (λ x, u32 x = true) b
  | CDistribute _ _ _ n => i128 n = true
  | _ => True
  end.
End Contract.

(** ** Share lists *)

Lemma sum_shares_Ok l total n :
  Forall (λ x, u32 x = true) l → sum_shares l total = Ok n →
  n = total + list_sum id l ∧ Forall (λ x, 0 < x) l.
Proof.
  intros Hl. revert total. induction Hl as [|x l Hx Hl IH]; intros total; simpl.
  - intros [= <-]. split; [lia|constructor].
  - destruct (Z.eqb_spec x 0); [done|]. intros (t & Ht & Hr)%result_bind_Ok.
    apply option_ok_or_Ok in Ht. checked_prop. apply IH in Hr as [-> HF].
    change (id x) with x. split; [lia|]. constructor; [lia|done].
Qed.

(** Crediting the shares one by one. *)
Definition credit (asset : Symbol) (b : gmap (Address * string) Z) (rs : Address * Z) :
    gmap (Address * string) Z :=
  <[(rs.1, asset) := default 0 (b !! (rs.1, asset)) + rs.2]> b.
Definition put_balances (b : gmap (Address * string) Z) (s : Store) : Store :=
  mkStore (admin s) (manifests s) b (ledgers s).

(** What recipient [r] gets of a list of credits. *)
Definition credited (r : Address) (l : list (Address * Z)) : Z :=
  list_sum (λ rs, if bool_decide (rs.1 = r) then rs.2 else 0) l.

Lemma credit_lookup asset l b r a :
  default 0 (foldl (credit asset) b l !! (r, a)) =
    default 0 (b !! (r, a)) + (if bool_decide (a = asset) then credited r l else 0).
Proof.
  revert b. induction l as [|[x n] l IH]; intros b; [simpl; case_bool_decide; lia|].
  simpl foldl. rewrite IH. unfold credit. simpl.
  destruct (decide ((x, asset) = (r, a))) as [[= -> ->]|Hne].
  - rewrite lookup_insert_eq. simpl. unfold credited. simpl.
    rewrite !bool_decide_eq_true_2 by done. lia.
  - rewrite lookup_insert_ne by done. unfold credited. simpl.
    repeat case_bool_decide; simplify_eq; lia.
Qed.

(** The sum of the balances held in one asset. *)
Definition total_of (asset : Symbol) (b : gmap (Address * string) Z) : Z :=
  map_sum (λ k v, if bool_decide (k.2 = asset) then v else 0) b.

Lemma total_of_insert asset b r a n :
  total_of asset (<[(r, a) := n]> b) =
    total_of asset b + (if bool_decide (a = asset) then n - default 0 (b !! (r, a)) else 0).
Proof.
  unfold total_of. rewrite map_sum_insert. unfold at_key. simpl.
  destruct (b !! (r, a)); simpl; case_bool_decide; lia.
Qed.

Lemma total_of_credits asset a l b :
  total_of asset (foldl (credit a) b l) =
    total_of asset b + (if bool_decide (a = asset) then list_sum snd l else 0).
Proof.
  revert b. induction l as [|[x n] l IH]; intros b; simpl; [case_bool_decide; lia|].
  rewrite IH. unfold credit. rewrite total_of_insert. simpl. case_bool_decide; lia.
Qed.

Lemma list_sum_zip_snd {A} (l : list A) (k : list Z) :
  length l = length k → list_sum snd (zip l k) = list_sum id k.
Proof.
  revert k. induction l as [|x l IH]; intros [|y k] Hl; simplify_eq/=; [done|].
  rewrite IH by done. done.
Qed.

Section Invariant.
Context {L : Type}.
Abbreviation W := (World L Store Event).

Definition manifest_ok (m : SplitManifest) : Prop :=
  recipients m ≠ [] ∧ Z.of_nat (length (recipients m)) ≤ MAX_RECIPIENTS ∧
  length (bps m) = length (recipients m) ∧ Forall (λ b, 0 < b) (bps m) ∧
  list_sum id (bps m) = TOTAL_BPS.

Record inv (s : Store) : Prop := {
  inv_manifests i m : manifests s !! i = Some m → manifest_ok m;
  inv_balances r a : 0 ≤ get_balance r a s;
  inv_ledgers a :
    total_distributed (get_asset_ledger a s) - total_withdrawn (get_asset_ledger a s)
      = total_of a (balances s);
  inv_withdrawn a : 0 ≤ total_withdrawn (get_asset_ledger a s);
  inv_fits a : total_distributed (get_asset_ledger a s) ≤ i128_max }.

(** The loop of [distribute] from index [i] on is the reference split of what is
    left, credited in order. *)
Lemma credit_loop m asset amt n k i so_far e (w w' : W) r :
  0 ≤ amt → Forall (λ b, 0 ≤ b) (bps m) →
  length (recipients m) = n → length (bps m) = n → (i + k = n)%nat → 
  for_in (seq i k) so_far (credit_share m asset amt n) e w = Done w' r →
  w' = mkWorld (ledger w)
         (put_balances (foldl (credit asset) (balances (store w))
            (zip (drop i (recipients m)) (split amt (drop i (bps m)) so_far))) (store w))
         (log w).
Proof.
  intros Ha Hb Hn Hn'. revert i so_far w. induction k as [|k IH]; intros i so_far w Hik Hrun.
  - simpl in Hrun. run_inv. rewrite drop_ge by lia. simpl.
    destruct w as [l [] lg]. done.
  - simpl in Hrun. run_inv. unfold credit_share in Hrun0. run_inv.
    match goal with H : recipients m !! i = Some ?x |- _ => rename x into who, H into Hwho end.
    destruct (lookup_lt_is_Some_2 (bps m) i) as [share Hshare]; [lia|].
    rewrite (drop_S _ _ _ Hwho), (drop_S _ _ _ Hshare).
    pose proof (Forall_lookup_1 _ _ _ _ Hb Hshare) as Hpos. simpl in Hpos.
    apply IH in Hrun; [|lia]. simpl in Hrun. rewrite Hrun. clear Hrun.
    match goal with H : (if _ then _ else _) _ _ = Done _ _ |- _ => rename H into Hsh end.
    destruct (Nat.eqb_spec i (n - 1)).
    + run_inv. checked_prop. assert (k = 0)%nat as -> by lia.
      rewrite !(drop_ge _ (S i)) by lia. simpl. done.
    + run_inv. simplify_eq. checked_prop. unfold FULL_BPS in *.
      rewrite quot_floor by (try lia; nia).
      destruct (drop (S i) (bps m)) as [|b' rest] eqn:Hd.
      { apply (f_equal length) in Hd. rewrite length_drop in Hd. simpl in Hd. lia. }
      cbn [split zip_with foldl put_balances admin manifests ledgers balances].
      done.
Qed.

(** The credits of one distribution. *)
Definition credits (m : SplitManifest) (amt : Z) : list (Address * Z) :=
  zip (recipients m) (split amt (bps m) 0).

Lemma positive_nonneg l : Forall (λ b : Z, 0 < b) l → Forall (λ b, 0 ≤ b) l.
Proof. intros Hl. eapply Forall_impl; [done|]. simpl. lia. Qed.

Lemma credits_ok m amt :
  manifest_ok m → 0 < amt →
  Forall (λ s, 0 ≤ s) (split amt (bps m) 0) ∧ list_sum snd (credits m amt) = amt.
Proof.
  intros (Hne & _ & Hlen & Hpos & Hsum) Ha. split.
  - apply split_nonneg; [lia|by apply positive_nonneg|]. rewrite Hsum. lia.
  - unfold credits. rewrite list_sum_zip_snd by (rewrite split_length; lia).
    rewrite split_sum; [lia|]. intros Hb. rewrite Hb in Hlen.
    destruct (recipients m); done.
Qed.

Lemma credited_nonneg r (rs : list Address) (l : list Z) :
  Forall (λ s, 0 ≤ s) l → 0 ≤ credited r (zip rs l).
Proof.
  intros Hl. revert rs. induction Hl as [|x l Hx Hl IH]; intros [|y rs];
    try done; unfold credited in *; simpl. specialize (IH rs). case_bool_decide; lia.
Qed.

Lemma distribute_done a id asset amt e (w w' : W) u :
  inv (store w) → distribute a id asset amt e w = Done w' u →
  ∃ m, manifests (store w) !! id = Some m ∧ 0 < amt ∧
    admin (store w) = Some a ∧ authorized e a = true ∧
    let l := get_asset_ledger asset (store w) in
    total_distributed l + amt ≤ i128_max ∧
    w' = mkWorld (ledger w)
      (put_ledger asset (mkLedger (total_distributed l + amt) (total_withdrawn l))
        (put_balances (foldl (credit asset) (balances (store w)) (credits m amt)) (store w)))
      (log w ++ [SPLITDST id asset amt]).
Proof.
  intros Hi Hrun. unfold distribute, get_manifest, require_admin in Hrun. run_inv.
  match goal with H : manifests _ !! _ = Some ?x |- _ => rename x into m, H into Hm end.
  destruct (inv_manifests _ Hi _ _ Hm) as (Hne & Hmax & Hlen & Hpos & Hsum). bool_prop.
  match goal with H : for_in _ _ _ _ _ = _ |- _ =>
    apply credit_loop in H; [|lia|by apply positive_nonneg|done|done|done] end.
  subst. checked_prop. simpl in *. unfold get_asset_ledger in *. simpl in *.
  exists m. split_and!; try done; lia.
Qed.

Lemma withdraw_done r asset e (w w' : W) n :
  withdraw r asset e w = Done w' n →
  n = get_balance r asset (store w) ∧ 0 < n ∧ authorized e r = true ∧
  ∃ l, ledgers (store w) !! asset = Some l ∧ total_withdrawn l + n ≤ i128_max ∧
    w' = mkWorld (ledger w)
      (put_ledger asset (mkLedger (total_distributed l) (total_withdrawn l + n))
        (put_balance r asset 0 (store w))) (log w ++ [SPLITWD r asset n]).
Proof.
  intros Hrun. unfold withdraw in Hrun. run_inv. bool_prop. checked_prop. simpl in *.
  split_and!; try done. eexists. split_and!; [done|lia|done].
Qed.

Lemma get_asset_ledger_put asset l a s :
  get_asset_ledger a (put_ledger asset l s) =
    if bool_decide (a = asset) then l else get_asset_ledger a s.
Proof.
  unfold get_asset_ledger. simpl. case_bool_decide; subst;
    [by rewrite lookup_insert_eq|by rewrite lookup_insert_ne].
Qed.

Lemma splits_create_inv a id rs shares e (w w' : W) u :
  valid e (CCreate a id rs shares) → inv (store w) →
  create_manifest a id rs shares e w = Done w' u →
  manifests (store w) !! id = None ∧ inv (store w').
Proof.
  intros Hv [H1 H2 H3 H4 H5] Hrun. unfold create_manifest, require_admin in Hrun. run_inv.
  bool_prop. simpl in *.
  match goal with H : sum_shares _ _ = Ok _ |- _ =>
    apply sum_shares_Ok in H as [-> Hpos]; [|done] end.
  match goal with H : ¬ is_Some _ |- _ => apply eq_None_not_Some in H end.
  match goal with H : (_ =? _)%nat = true |- _ => apply Nat.eqb_eq in H end.
  split; [done|]. split; try done. simpl. intros i m. rewrite lookup_insert.
  case_decide; [|apply H1]. intros [= <-]. split_and!; simpl; try done; lia.
Qed.

Lemma splits_exec_inv c e (w w' : W) u :
  valid e c → inv (store w) → exec c e w = Done w' u → inv (store w').
Proof.
  intros Hv Hi Hrun. destruct c; simpl in Hrun.
  - unfold initialize in Hrun. run_inv. destruct Hi. by split.
  - by eapply splits_create_inv.
  - destruct (distribute_done _ _ _ _ _ _ _ _ Hi Hrun) as (m & Hm & Ha & _ & _ & Hmax & ->).
    destruct (credits_ok m amount (inv_manifests _ Hi _ _ Hm) Ha) as [Hnn Hsum].
    destruct Hi as [H1 H2 H3 H4 H5]. split; simpl; try done.
    + intros r a. unfold get_balance. simpl. rewrite credit_lookup.
      pose proof (H2 r a) as Hb. unfold get_balance in Hb.
      pose proof (credited_nonneg r (recipients m) _ Hnn). unfold credits.
      case_bool_decide; lia.
    + intros a. rewrite get_asset_ledger_put, total_of_credits, Hsum. specialize (H3 a).
      change (get_asset_ledger a (put_balances _ _)) with (get_asset_ledger a (store w)).
      repeat case_bool_decide; try subst a; simpl; done || lia.
    + intros a. rewrite get_asset_ledger_put. case_bool_decide; [apply H4|apply H4].
    + intros a. rewrite get_asset_ledger_put. case_bool_decide; [done|apply H5].
  - apply ignore_done in Hrun as [n Hrun].
    destruct (withdraw_done _ _ _ _ _ _ Hrun) as (Hn & Hpos & _ & l & Hl & Hmax & ->).
    destruct Hi as [H1 H2 H3 H4 H5].
    assert (Hget : get_asset_ledger asset (store w) = l)
      by (unfold get_asset_ledger; by rewrite Hl).
    split; simpl; try done.
    + intros r a. unfold get_balance. simpl. rewrite lookup_insert.
      case_decide; [done|apply H2].
    + intros a. rewrite get_asset_ledger_put, total_of_insert. specialize (H3 a).
      unfold get_balance in Hn.
      change (get_asset_ledger a (put_balance _ _ _ _)) with (get_asset_ledger a (store w)).
      repeat case_bool_decide; try subst a; simpl; rewrite ?Hget in *; done || lia.
    + intros a. rewrite get_asset_ledger_put. specialize (H4 asset) as Hx.
      case_bool_decide; [simpl; rewrite Hget in Hx; lia|apply H4].
    + intros a. rewrite get_asset_ledger_put. specialize (H5 asset) as Hx.
      case_bool_decide; [simpl; by rewrite Hget in Hx|apply H5].
Qed.

Definition deployed (w : W) : Prop := store w = mkStore None ∅ ∅ ∅.
Abbreviation Reach this := (reachable exec valid this (λ _ _, True) deployed).

Lemma splits_inv_reachable this w : Reach this w → inv (store w).
Proof.
  apply (reachable_inv _ _ _ _ _ (λ w, inv (store w))).
  - intros w0 ->. split; simpl; done.
  - intros c e w0 w1 u _ Hv. by apply splits_exec_inv.
  - done.
Qed.

Lemma balance_le_liability s r a :
  inv s → get_balance r a s ≤
    total_distributed (get_asset_ledger a s) - total_withdrawn (get_asset_ledger a s).
Proof.
  intros Hi. rewrite (inv_ledgers _ Hi). unfold total_of.
  pose proof (at_key_le_map_sum (λ (k : Address * string) v, if bool_decide (k.2 = a) then v else 0)
    (balances s) (r, a)) as Hk. unfold at_key, get_balance in *.
  assert (Hnn : ∀ (k : Address * string) v, balances s !! k = Some v →
    0 ≤ if bool_decide (k.2 = a) then v else 0).
  { clear Hk. intros [r' a'] v Hv. pose proof (inv_balances _ Hi r' a') as Hb.
    unfold get_balance in Hb. rewrite Hv in Hb. change (0 ≤ v) in Hb.
    case_bool_decide; lia. }
  specialize (Hk Hnn). destruct (balances s !! (r, a)); cbn [snd default from_option] in *;
    [rewrite bool_decide_eq_true_2 in Hk by done; exact Hk|by apply map_sum_nonneg].
Qed.

(** ** Properties *)

(** C21: Distribution is exact.  In every reachable world a successful [distribute]
    splits the amount into one non-negative share per recipient of the manifest, each but
    the last being floor(amount × bps / 10000), summing to exactly the amount; every
    recipient's balance in the asset grows by the shares at its positions, and balances in
    other assets do not change. *)
Theorem distribute_exact this w w' e a id asset amt u :
  Reach this w → distribute a id asset amt e w = Done w' u →
  ∃ m, manifests (store w) !! id = Some m ∧
    let shares := split amt (bps m) 0 in
    length shares = length (recipients m) ∧ Forall (λ s, 0 ≤ s) shares ∧
    list_sum (λ s, s) shares = amt ∧
    ∀ r x, get_balance r x (store w') = get_balance r x (store w) +
      (if bool_decide (x = asset) then credited r (zip (recipients m) shares) else 0).
Proof.
  intros Hi%splits_inv_reachable Hrun.
  destruct (distribute_done _ _ _ _ _ _ _ _ Hi Hrun) as (m & Hm & Ha & _ & _ & Hmax & ->).
  pose proof (inv_manifests _ Hi _ _ Hm) as Hok.
  destruct (credits_ok m amt Hok Ha) as [Hnn Hsum]. destruct Hok as (_ & _ & Hlen & _ & _).
  exists m. split; [done|]. cbv zeta.
  split; [by rewrite split_length|]. split; [done|]. split.
  - unfold credits in Hsum. rewrite list_sum_zip_snd in Hsum by (rewrite split_length; lia).
    exact Hsum.
  - intros r x. unfold get_balance. simpl. apply credit_lookup.
Qed.

(** Reconciliation.  In every reachable world, for every asset, the amount distributed
    minus the amount withdrawn is the sum of all recipients' balances, no balance is
    negative, and [get_outstanding_liability] returns that sum without overflowing. *)
Theorem ledger_reconciles this w e asset :
  Reach this w →
  get_outstanding_liability asset e w = Done w (total_of asset (balances (store w))) ∧
  ∀ r, 0 ≤ get_balance r asset (store w) ≤ total_of asset (balances (store w)).
Proof.
  intros Hi%splits_inv_reachable. rewrite <-(inv_ledgers _ Hi). split.
  - unfold get_outstanding_liability, bind, load, checked_sub_i128.
    pose proof (balance_le_liability _ (addr 0) asset Hi).
    pose proof (inv_balances _ Hi (addr 0) asset).
    pose proof (inv_withdrawn _ Hi asset). pose proof (inv_fits _ Hi asset).
    rewrite checked_in by range_lia. done.
  - intros r. split; [apply (inv_balances _ Hi)|by apply balance_le_liability].
Qed.

(** Withdrawals cannot be blocked.  In every reachable world a recipient with a positive
    balance who signs gets exactly that balance, is left with zero, and no other balance
    changes. *)
Theorem withdraw_succeeds this w e r asset :
  Reach this w → authorized e r = true → 0 < get_balance r asset (store w) →
  ∃ w', invoke (withdraw r asset) e w = (w', Returned (get_balance r asset (store w))) ∧
    get_balance r asset (store w') = 0 ∧
    ∀ r' a', (r', a') ≠ (r, asset) →
      get_balance r' a' (store w') = get_balance r' a' (store w).
Proof.
  intros Hi%splits_inv_reachable Hauth Hpos.
  pose proof (balance_le_liability _ r asset Hi) as Hle.
  pose proof (inv_withdrawn _ Hi asset). pose proof (inv_fits _ Hi asset).
  unfold get_asset_ledger in *. destruct (ledgers (store w) !! asset) as [l|] eqn:Hl;
    simpl in *; [|lia].
  eexists. split; [apply invoke_run; unfold withdraw; run_fwd|].
  unfold get_balance. simpl. split; [by rewrite lookup_insert_eq|].
  intros r' a' Hne. by rewrite lookup_insert_ne by congruence.
Qed.
End Invariant.

(** ** Concrete runs *)
Module Runs.
Definition this : Address := addr 0.
Definition boss : Address := addr 1.
Definition r1 : Address := addr 2.
Definition r2 : Address := addr 3.
Definition at_time (t : Z) (a : Address) : Env := mkEnv t this (λ b, bool_decide (a = b)).
Abbreviation W := (World unit Store Event).
Definition w0 : W := mkWorld tt (mkStore None ∅ ∅ ∅) [].
Definition setup : list (Env * Call) :=
  [(at_time 1 boss, CInitialize boss); (at_time 1 boss, CCreate boss 7 [r1; r2; r1] [3333; 3333; 3334])].
Definition w1 : W := run_calls exec setup w0.
Definition w2 : W := run_calls exec (setup ++ [(at_time 2 boss, CDistribute boss 7 "USD" 100)]) w0.

Ltac reach :=
  apply reachable_run; [apply reach_init; done|]; repeat constructor; vm_compute; reflexivity.
Abbreviation Reach := (reachable exec valid this (λ _ _, True) deployed).
Lemma splits_w1_reach : Reach w1.
Proof. reach. Qed.
Lemma splits_w2_reach : Reach w2.
Proof. reach. Qed.

Lemma distribute_exact_witness :
  ∃ w' : W, distribute boss 7 "USD" 100 (at_time 2 boss) w1 = Done w' tt ∧
    get_balance r1 "USD" (store w') = 67 ∧ get_balance r2 "USD" (store w') = 33.
Proof.
  destruct (distribute boss 7 "USD" 100 (at_time 2 boss) w1) as [w' []| |] eqn:Hrun;
    [|vm_compute in Hrun; discriminate Hrun..].
  destruct (distribute_exact this w1 w' (at_time 2 boss) boss 7 "USD" 100 tt)
    as (m & Hm & _ & _ & _ & Hb); [apply splits_w1_reach|exact Hrun|].
  vm_compute in Hm. injection Hm as <-. exists w'. split; [reflexivity|].
  rewrite !Hb. split; vm_compute; reflexivity.
Defined.

Lemma ledger_reconciles_witness :
  get_outstanding_liability "USD" (at_time 3 r1) w2 = Done w2 100.
Proof.
  destruct (ledger_reconciles this w2 (at_time 3 r1) "USD") as [H _]; [apply splits_w2_reach|].
  rewrite H. vm_compute. reflexivity.
Defined.

Lemma withdraw_succeeds_witness :
  ∃ w' : W, invoke (withdraw r1 "USD") (at_time 3 r1) w2 = (w', Returned 67) ∧
    get_balance r2 "USD" (store w') = 33.
Proof.
  destruct (withdraw_succeeds this w2 (at_time 3 r1) r1 "USD") as (w' & Hw & _ & Ho);
    [apply splits_w2_reach|reflexivity|vm_compute; reflexivity|].
  exists w'. split; [rewrite Hw; reflexivity|]. rewrite Ho by discriminate.
  vm_compute. reflexivity.
Defined.
End Runs.
