(* ===== verification/LibraryDeposits.v ===== *)
(** * Refundable loan deposits ([contracts/library-deposits/src/lib.rs])

    A patron locks tokens against a loan; the admin charges part or all of what
    remains to the treasury, the patron or the admin releases the rest.  [sha256]
    and the XDR encoding of addresses belong to the host and are parameters. *)
From S2P Require Import Prelude Machine Host TokenIface.

Inductive DepositError :=
| NotInitialized | AlreadyInitialized | Unauthorized | NotFound | InvalidAmount
| AlreadyClosed | InsufficientBalance | Overflow.

Inductive DepositStatus := Locked | Released | Charged.
#[export] Instance DepositStatus_eq_dec : EqDecision DepositStatus.
Proof. solve_decision. Defined.

Record Deposit := mkDeposit {
  loan_id : BytesN32;
  patron : Address;
  token : Address;
  original_amount : Z;
  remaining_amount : Z;
  status : DepositStatus }.

Inductive Event :=
| DEP_LOCK (id loan_id : BytesN32) (patron : Address) (amount : Z)
| DEP_REL (id : BytesN32) (refund : Z)
| DEP_CHG (id : BytesN32) (charge : Z).

Record Store := mkStore {
  admin : option Address;
  treasury : option Address;
  deposit_count : option Z;
  deposits : gmap Z Deposit }.

Definition put_roles (a t : Address) (s : Store) : Store :=
  mkStore (Some a) (Some t) (deposit_count s) (deposits s).
Definition put_count (n : Z) (s : Store) : Store :=
  mkStore (admin s) (treasury s) (Some n) (deposits s).
Definition save_deposit (id : BytesN32) (d : Deposit) (s : Store) : Store :=
  mkStore (admin s) (treasury s) (deposit_count s) (<[id := d]> (deposits s)).

Definition with_remaining (n : Z) (d : Deposit) : Deposit :=
  mkDeposit (loan_id d) (patron d) (token d) (original_amount d) n (status d).
Definition with_status (st : DepositStatus) (d : Deposit) : Deposit :=
  mkDeposit (loan_id d) (patron d) (token d) (original_amount d) (remaining_amount d) st.

Section Contract.
Context {L : Type} `{TokenLedger L}.
Context (sha256 : Bytes → BytesN32) (to_xdr : Address → Bytes).
Abbreviation M := (Contract L Store Event DepositError).

Definition require_admin (caller : Address) : M unit :=
  require_admin_of admin NotInitialized Unauthorized caller.

Definition load_deposit (id : BytesN32) : M Deposit :=
  o <- load (λ s, deposits s !! id) ;;
  ok_or o NotFound.

(** The hashed identifier: counter, ledger time, loan and patron. *)
Definition deposit_id (next t : Z) (loan : BytesN32) (who : Address) : BytesN32 :=
  sha256 (be_bytes 8 next ++ be_bytes 8 t ++ to_array loan ++ to_xdr who).

Definition next_deposit_id (loan : BytesN32) (who : Address) : M BytesN32 :=
  n <- load (λ s, default 0 (deposit_count s)) ;;
  next <- ok_or (checked_add_u64 n 1) Overflow ;;
  save (put_count next) ;;;
  t <- now ;;
  ret (deposit_id next t loan who).

Definition get_treasury : M Address :=
  o <- load treasury ;;
  ok_or o NotInitialized.

Definition initialize (adm treas : Address) : M unit :=
  o <- load admin ;;
  reject_if (bool_decide (is_Some o)) AlreadyInitialized ;;;
  require_auth adm ;;;
  save (put_roles adm treas).

Definition lock_deposit (who : Address) (loan : BytesN32) (token_addr : Address) (amount : Z) :
    M BytesN32 :=
  o <- load admin ;;
  ok_or o NotInitialized ;;;
  reject_if (amount <=? 0) InvalidAmount ;;;
  require_auth who ;;;
  this <- me ;;
  token_call token_addr who this amount ;;;
  id <- next_deposit_id loan who ;;
  save (save_deposit id (mkDeposit loan who token_addr amount amount Locked)) ;;;
  publish (DEP_LOCK id loan who amount) ;;;
  ret id.

Definition release_deposit (caller : Address) (id : BytesN32) : M unit :=
  deposit <- load_deposit id ;;
  reject_if (negb (bool_decide (status deposit = Locked))) AlreadyClosed ;;;
  o <- load admin ;;
  adm <- ok_or o NotInitialized ;;
  reject_if (negb (bool_decide (caller = adm)) && negb (bool_decide (caller = patron deposit)))
    Unauthorized ;;;
  require_auth caller ;;;
  let refund := remaining_amount deposit in
  this <- me ;;
  token_call (token deposit) this (patron deposit) refund ;;;
  save (save_deposit id (with_status Released (with_remaining 0 deposit))) ;;;
  publish (DEP_REL id refund).

Definition partial_charge (caller : Address) (id : BytesN32) (charge_amount : Z) : M unit :=
  require_admin caller ;;;
  reject_if (charge_amount <=? 0) InvalidAmount ;;;
  deposit <- load_deposit id ;;
  reject_if (negb (bool_decide (status deposit = Locked))) AlreadyClosed ;;;
  reject_if (remaining_amount deposit <? charge_amount) InsufficientBalance ;;;
  treas <- get_treasury ;;
  this <- me ;;
  token_call (token deposit) this treas charge_amount ;;;
  left <- ok_or (checked_sub_i128 (remaining_amount deposit) charge_amount) Overflow ;;
  save (save_deposit id (with_remaining left deposit)) ;;;
  publish (DEP_CHG id charge_amount).

Definition full_charge (caller : Address) (id : BytesN32) : M unit :=
  require_admin caller ;;;
  deposit <- load_deposit id ;;
  reject_if (negb (bool_decide (status deposit = Locked))) AlreadyClosed ;;;
  let remaining := remaining_amount deposit in
  reject_if (remaining <=? 0) InvalidAmount ;;;
  treas <- get_treasury ;;
  this <- me ;;
  token_call (token deposit) this treas remaining ;;;
  save (save_deposit id (with_status Charged (with_remaining 0 deposit))) ;;;
  publish (DEP_CHG id remaining).

Inductive Call :=
| CInitialize (adm treas : Address)
| CLock (who : Address) (loan : BytesN32) (token_addr : Address) (amount : Z)
| CRelease (caller : Address) (id : BytesN32)
| CPartialCharge (caller : Address) (id : BytesN32) (charge_amount : Z)
| CFullCharge (caller : Address) (id : BytesN32).

Definition exec (c : Call) : M unit :=
  match c with
  | CInitialize a t => initialize a t
  | CLock p l t n => ignore (lock_deposit p l t n)
  | CRelease a id => release_deposit a id
  | CPartialCharge a id n => partial_charge a id n
  | CFullCharge a id => full_charge a id
  end.

Definition valid (e : Env) (c : Call) : Prop := no_self_auth e ∧ u64 (timestamp e) = true.
End Contract.

(** ** The invariant *)
Section Invariant.
Context {L : Type} `{!TokenLedger L, !TokenLaws L}.
Context (sha256 : Bytes → BytesN32) (to_xdr : Address → Bytes).
Context (sha256_inj : collision_free sha256).
Abbreviation W := (World L Store Event).
Abbreviation exec := (exec sha256 to_xdr).

(** What the event log says left the deposit, as refunds and as charges. *)
Definition paid_out (id : BytesN32) (ev : Event) : Z :=
  match ev with
  | DEP_REL i n | DEP_CHG i n => if i =? id then n else 0
  | DEP_LOCK _ _ _ _ => 0
  end.
Definition paid (id : BytesN32) (w : W) : Z := list_sum (paid_out id) (log w).

Definition deposit_ok (d : Deposit) (p : Z) : Prop :=
  0 ≤ remaining_amount d ∧ 0 < original_amount d ∧ 0 ≤ p ∧
  remaining_amount d + p = original_amount d ∧ (status d ≠ Locked → remaining_amount d = 0).

Definition backing (t : Address) (s : Store) : Z :=
  map_sum (λ _ d, if bool_decide (token d = t) then remaining_amount d else 0) (deposits s).
Definition count (s : Store) : Z := default 0 (deposit_count s).

Record inv (this : Address) (w : W) : Prop := {
  inv_deposits id d : deposits (store w) !! id = Some d → deposit_ok d (paid id w);
  inv_unpaid id : deposits (store w) !! id = None → paid id w = 0;
  inv_count : 0 ≤ count (store w) ≤ u64_max;
  inv_ids id : is_Some (deposits (store w) !! id) →
    ∃ n t l p, id = deposit_id sha256 to_xdr n t l p ∧ 0 < n ≤ count (store w);
  inv_roles : is_Some (admin (store w)) → is_Some (treasury (store w));
  inv_backed t : backing t (store w) ≤ held this (ledger w) t }.

Lemma fresh_deposit_id this w t l p :
  inv this w → count (store w) + 1 ≤ u64_max →
  deposits (store w) !! deposit_id sha256 to_xdr (count (store w) + 1) t l p = None.
Proof.
  intros Hi Hc. destruct (_ !! _) as [v|] eqn:Hv; [|done].
  destruct (inv_ids _ _ Hi _ (mk_is_Some _ _ Hv)) as (n & t' & l' & p' & Heq & Hn).
  pose proof (inv_count _ _ Hi). apply counter_id_inj in Heq; [lia|done|lia|lia].
Qed.

(** Taking [n] out of a locked deposit. *)
Lemma inv_take this (w w' : W) id d d' n :
  inv this w → deposits (store w) !! id = Some d → 0 ≤ n →
  deposits (store w') = <[id := d']> (deposits (store w)) →
  (admin (store w'), treasury (store w'), deposit_count (store w')) =
    (admin (store w), treasury (store w), deposit_count (store w)) →
  token d' = token d → original_amount d' = original_amount d →
  remaining_amount d' = remaining_amount d - n → 0 ≤ remaining_amount d' →
  (status d' ≠ Locked → remaining_amount d' = 0) →
  at_most_drops (held this (ledger w)) (held this (ledger w')) (token d) n →
  (∀ i, paid i w' = paid i w + if i =? id then n else 0) → inv this w'.
Proof.
  intros [H1 H2 H3 H4 H5 H6] Hd Hn Hs [= Ha Ht Hc] Htok Ho Hr Hr0 Hst Hh Hp.
  split; unfold count in *; rewrite ?Ha, ?Ht, ?Hc, ?Hs; try done.
  - intros i x. rewrite lookup_insert, Hp. case_decide.
    + subst. intros [= <-]. rewrite Z.eqb_refl. destruct (H1 _ _ Hd) as (? & ? & ? & ? & ?).
      split_and!; try lia. done.
    + rewrite (proj2 (Z.eqb_neq i id)) by lia. rewrite Z.add_0_r. apply H1.
  - intros i. rewrite lookup_insert, Hp. case_decide; [done|].
    rewrite (proj2 (Z.eqb_neq i id)) by lia. rewrite Z.add_0_r. apply H2.
  - intros i. rewrite lookup_insert. case_decide; [|apply H4]. intros _. subst.
    apply H4. by rewrite Hd.
  - intros t. unfold backing. rewrite Hs, map_sum_insert. unfold at_key. rewrite Hd, Htok, Hr.
    specialize (H6 t). specialize (Hh t). unfold backing in H6.
    repeat case_bool_decide; simplify_eq; lia.
Qed.

(** What a successful taking call did. *)
Lemma paid_app i (w : W) l s ev :
  paid i (mkWorld l s (log w ++ [ev])) = paid i w + paid_out i ev.
Proof. unfold paid. simpl. rewrite list_sum_app. simpl. lia. Qed.

Lemma lock_inv p l tok n e (w w' : W) id :
  valid e (CLock p l tok n) → inv (self e) w →
  lock_deposit sha256 to_xdr p l tok n e w = Done w' id →
  deposits (store w) !! id = None ∧ inv (self e) w'.
Proof.
  intros [Hself Ht] Hi Hrun. unfold lock_deposit, next_deposit_id in Hrun.
  token_inv. bool_prop. checked_prop. simpl in *.
  match goal with H : bool_decide _ = true ∨ _ |- _ => clear H end.
  match goal with H : token_transfer _ _ _ _ _ = Some _ |- _ =>
    apply transfer_in in H as [_ Hheld]; [|by apply authorized_not_self] end.
  change (default 0 (deposit_count (store w))) with (count (store w)) in *.
  assert (Hfresh := fresh_deposit_id (self e) w (timestamp e) l p Hi ltac:(lia)).
  set (id := deposit_id _ _ _ _ _ _) in *. split; [done|].
  destruct Hi as [H1 H2 H3 H4 H5 H6]. unfold count in *.
  split; simpl; try setoid_rewrite paid_app; simpl; try setoid_rewrite Z.add_0_r.
  - intros i x. rewrite lookup_insert. case_decide; [|apply H1].
    intros [= <-]. subst i. rewrite (H2 _ Hfresh). split_and!; simpl; try lia. done.
  - intros i. rewrite lookup_insert. case_decide; [done|]. apply H2.
  - unfold count. simpl. lia.
  - intros i Hx. unfold count. simpl. rewrite lookup_insert in Hx.
    case_decide; [subst; do 4 eexists; split; [reflexivity|lia]|].
    destruct (H4 i Hx) as (n' & t' & l' & p' & -> & Hn').
    do 4 eexists. split; [done|]. lia.
  - done.
  - intros t. unfold backing in *. simpl. rewrite map_sum_insert. unfold at_key. rewrite Hfresh.
    specialize (H6 t). rewrite (Hheld t). simpl. repeat case_bool_decide; simplify_eq; lia.
Qed.

Lemma deposits_exec_inv c e (w w' : W) u :
  valid e c → inv (self e) w → exec c e w = Done w' u → inv (self e) w'.
Proof.
  intros Hv Hi Hrun. destruct c; simpl in Hrun.
  - unfold initialize in Hrun. token_inv. destruct Hi as [H1 H2 H3 H4 H5 H6]. by split.
  - apply ignore_done in Hrun as [id Hrun]. by eapply lock_inv.
  - unfold release_deposit, load_deposit in Hrun. token_inv. bool_prop. simpl in *.
    match goal with H : deposits _ !! _ = Some ?x |- _ => rename x into d, H into Hd end.
    destruct (inv_deposits _ _ Hi _ _ Hd) as (H1 & H2 & H3 & H4 & H5).
    match goal with H : token_transfer _ _ _ _ _ = Some _ |- _ =>
      apply transfer_out in H as [_ Hheld] end.
    eapply (inv_take _ w _ id d _ (remaining_amount d)); try done; simpl; try lia.
    intros i. rewrite paid_app. simpl. by rewrite (Z.eqb_sym id i).
  - unfold partial_charge, require_admin, load_deposit, get_treasury in Hrun.
    token_inv. bool_prop. checked_prop. simpl in *.
    match goal with H : deposits _ !! _ = Some ?x |- _ => rename x into d, H into Hd end.
    destruct (inv_deposits _ _ Hi _ _ Hd) as (H1 & H2 & H3 & H4 & H5).
    match goal with H : token_transfer _ _ _ _ _ = Some _ |- _ =>
      apply transfer_out in H as [_ Hheld] end.
    eapply (inv_take _ w _ id d _ charge_amount); try done; simpl; try lia.
    intros i. rewrite paid_app. simpl. by rewrite (Z.eqb_sym id i).
  - unfold full_charge, require_admin, load_deposit, get_treasury in Hrun.
    token_inv. bool_prop. simpl in *.
    match goal with H : deposits _ !! _ = Some ?x |- _ => rename x into d, H into Hd end.
    destruct (inv_deposits _ _ Hi _ _ Hd) as (H1 & H2 & H3 & H4 & H5).
    match goal with H : token_transfer _ _ _ _ _ = Some _ |- _ =>
      apply transfer_out in H as [_ Hheld] end.
    eapply (inv_take _ w _ id d _ (remaining_amount d)); try done; simpl; try lia.
    intros i. rewrite paid_app. simpl. by rewrite (Z.eqb_sym id i).
Qed.

Definition deployed (this : Address) (w : W) : Prop :=
  store w = mkStore None None None ∅ ∧ log w = [] ∧ ∀ t, 0 ≤ held this (ledger w) t.
Abbreviation Reach this := (reachable exec valid this (ledger_rely this) (deployed this)).

Lemma deposits_inv_reachable this w : Reach this w → inv this w.
Proof.
  apply reachable_inv.
  - intros w0 (Hs & Hl & Hh). split; unfold paid; rewrite ?Hs, ?Hl; try done.
    by intros id [? Hid].
  - intros c e w0 w1 u <- Hv Hi Hrun. by eapply deposits_exec_inv.
  - intros w0 l [H1 H2 H3 H4 H5 H6] Hl. split; try done. intros t. specialize (H6 t).
    specialize (Hl t). unfold held in *. simpl. lia.
Qed.

Lemma deposit_covered this w id d :
  inv this w → deposits (store w) !! id = Some d →
  0 ≤ remaining_amount d ≤ held this (ledger w) (token d).
Proof.
  intros Hi Hd. destruct (inv_deposits _ _ Hi _ _ Hd) as [H1 _]. split; [done|].
  etrans; [|apply (inv_backed _ _ Hi)]. unfold backing.
  pose proof (at_key_le_map_sum (λ _ x, if bool_decide (token x = token d)
    then remaining_amount x else 0) (deposits (store w)) id) as Hk.
  unfold at_key in Hk. rewrite Hd, (bool_decide_eq_true_2 (token d = token d)) in Hk by done.
  apply Hk. intros i x Hx. destruct (inv_deposits _ _ Hi _ _ Hx) as [Hr _].
  case_bool_decide; done.
Qed.

(** What a call may do to one deposit. *)
Definition evolves (d d' : Deposit) : Prop :=
  loan_id d' = loan_id d ∧ patron d' = patron d ∧ token d' = token d ∧
  original_amount d' = original_amount d ∧ remaining_amount d' ≤ remaining_amount d ∧
  (status d ≠ Locked → d' = d).

Lemma deposits_evolves_put (m : gmap Z Deposit) id d d' i x :
  m !! id = Some d → status d = Locked → evolves d d' → m !! i = Some x →
  ∃ x', <[id := d']> m !! i = Some x' ∧ evolves x x'.
Proof.
  intros Hd Hst Hev Hx. rewrite lookup_insert. case_decide; subst.
  - simplify_eq. by exists d'.
  - exists x. unfold evolves. naive_solver lia.
Qed.

Lemma deposits_exec_evolves c e (w w' : W) u i x :
  valid e c → inv (self e) w → exec c e w = Done w' u → deposits (store w) !! i = Some x →
  ∃ x', deposits (store w') !! i = Some x' ∧ evolves x x'.
Proof.
  intros Hv Hi Hrun Hx.
  assert (Hsame : ∀ y, evolves y y) by (unfold evolves; naive_solver lia).
  destruct c; simpl in Hrun.
  - unfold initialize in Hrun. token_inv. by exists x.
  - apply ignore_done in Hrun as [id Hrun].
    pose proof (lock_inv _ _ _ _ _ _ _ _ Hv Hi Hrun) as [Hfresh _].
    unfold lock_deposit, next_deposit_id in Hrun. token_inv. simpl in *.
    exists x. split; [|done]. rewrite lookup_insert_ne; [done|].
    intros Heq. rewrite Heq in Hfresh. congruence.
  - unfold release_deposit, load_deposit in Hrun. token_inv. bool_prop. simpl in *.
    match goal with H : deposits _ !! id = Some ?y |- _ => rename y into d, H into Hd end.
    destruct (inv_deposits _ _ Hi _ _ Hd) as [Hr _].
    eapply deposits_evolves_put; [done|done| |done]. by split_and!.
  - unfold partial_charge, require_admin, load_deposit, get_treasury in Hrun.
    token_inv. bool_prop. checked_prop. simpl in *.
    eapply deposits_evolves_put; [done|done| |done]. split_and!; simpl; try done. lia.
  - unfold full_charge, require_admin, load_deposit, get_treasury in Hrun.
    token_inv. bool_prop. simpl in *.
    eapply deposits_evolves_put; [done|done| |done]. split_and!; simpl; try done. lia.
Qed.

(** ** Properties *)

(** C20: Backing and accounting.  In every reachable world the contract holds in every token
    at least the sum of what remains on its deposits; for each deposit the remaining amount
    plus the refunds and charges the event log reports is the amount locked, both are
    non-negative, and a deposit that is not locked has nothing left. *)
Theorem deposits_backed this w :
  Reach this w →
  (∀ t, backing t (store w) ≤ held this (ledger w) t) ∧
  ∀ id d, deposits (store w) !! id = Some d →
    remaining_amount d + paid id w = original_amount d ∧
    0 ≤ remaining_amount d ∧ 0 ≤ paid id w ∧ (status d ≠ Locked → remaining_amount d = 0).
Proof.
  intros Hi%deposits_inv_reachable. split; [apply (inv_backed _ _ Hi)|].
  intros id d Hd. destruct (inv_deposits _ _ Hi _ _ Hd) as (H1 & H2 & H3 & H4 & H5). done.
Qed.

(** Immutability.  From every reachable world any call (a lock included: its
    identifier is always new) keeps each deposit's loan, patron, token and locked amount,
    never raises what remains, and leaves a released or charged deposit as it is. *)
Theorem deposit_immutable this w c e id d :
  Reach this w → self e = this → valid e c → deposits (store w) !! id = Some d →
  ∃ d', deposits (store (invoke (exec c) e w).1) !! id = Some d' ∧ evolves d d'.
Proof.
  intros Hr%deposits_inv_reachable <- Hv Hid. unfold invoke.
  destruct (exec c e w) eqn:Hx; simpl; [by eapply deposits_exec_evolves|..];
    exists d; unfold evolves; naive_solver lia.
Qed.

(** The patron can always take the rest.  In every reachable world, with tokens that
    honour covered transfers, a patron who signs gets exactly what remains on a locked
    deposit, and the deposit is closed. *)
Theorem release_always_possible `{!TokenLive L} this w e id d :
  Reach this w → self e = this → no_self_auth e → is_Some (admin (store w)) →
  deposits (store w) !! id = Some d → status d = Locked → authorized e (patron d) = true →
  ∃ w', invoke (release_deposit (patron d) id) e w = (w', Returned tt) ∧
    deposits (store w') !! id = Some (with_status Released (with_remaining 0 d)) ∧
    token_balance (ledger w') (token d) (patron d) =
      token_balance (ledger w) (token d) (patron d) + remaining_amount d.
Proof.
  intros Hi%deposits_inv_reachable <- Hn [adm Hadm] Hd Hst Hauth.
  pose proof (deposit_covered _ _ _ _ Hi Hd) as Hcov.
  destruct (transfer_live (ledger w) (token d) (self e) (patron d) (remaining_amount d))
    as [l Hl]; [exact Hcov|].
  eexists. split; [apply invoke_run; unfold release_deposit, load_deposit; run_fwd|].
  { rewrite (bool_decide_eq_true_2 (patron d = patron d)), andb_false_r by done. run_fwd. }
  simpl. split; [apply lookup_insert_eq|].
  rewrite (transfer_moves _ _ _ _ _ _ _ _ Hl), bool_decide_eq_true_2 by done.
  unfold moved. rewrite bool_decide_eq_true_2, bool_decide_eq_false_2;
    [lia|by apply authorized_not_self|done].
Qed.
End Invariant.

(** ** Concrete runs *)
Module Runs.
Definition this : Address := addr 0.
Definition boss : Address := addr 1.
Definition vault : Address := addr 2.
Definition pat : Address := addr 3.
Definition tok : Address := addr 9.
Definition at_time (t : Z) (a : Address) : Env := mkEnv t this (λ b, bool_decide (a = b)).
Abbreviation W := (World BalanceMap.t Store Event).
Abbreviation exec := (exec demo_hash demo_xdr).
Definition w0 : W := mkWorld {[(tok, pat) := 90]} (mkStore None None None ∅) [].
Definition id1 : BytesN32 := deposit_id demo_hash demo_xdr 1 5 77 pat.
Definition setup : list (Env * Call) :=
  [(at_time 1 boss, CInitialize boss vault); (at_time 5 pat, CLock pat 77 tok 60);
   (at_time 6 boss, CPartialCharge boss id1 25)].
Definition w1 : W := run_calls exec setup w0.
Definition the_deposit : Deposit := mkDeposit 77 pat tok 60 35 Locked.

Lemma deposits_w0_deployed : deployed this w0.
Proof.
  split; [done|]. split; [done|]. intros t. unfold held. simpl. unfold BalanceMap.balance.
  destruct (_ !! _) as [n|] eqn:Hn; [|done]. apply lookup_singleton_Some in Hn as [? <-]. done.
Qed.
Lemma deposits_w1_reach : reachable exec valid this (ledger_rely this) (deployed this) w1.
Proof.
  apply reachable_run; [apply reach_init, deposits_w0_deployed|].
  repeat constructor; vm_compute; reflexivity.
Qed.

Lemma deposits_backed_witness : backing tok (store w1) = 35 ∧ 35 + paid id1 w1 = 60.
Proof.
  split; [vm_compute; reflexivity|].
  destruct (deposits_backed demo_hash demo_xdr demo_hash_free this w1 deposits_w1_reach) as [_ Hd].
  destruct (Hd id1 the_deposit) as [Hp _]; [vm_compute; reflexivity|exact Hp].
Defined.

Lemma deposit_immutable_witness :
  ∃ d, deposits (store (invoke (exec (CFullCharge boss id1)) (at_time 7 boss) w1).1) !! id1
    = Some d ∧ evolves the_deposit d.
Proof.
  apply (deposit_immutable demo_hash demo_xdr demo_hash_free this w1 (CFullCharge boss id1)
    (at_time 7 boss) id1);
    [apply deposits_w1_reach|reflexivity|split; reflexivity|vm_compute; reflexivity].
Defined.

Lemma release_always_possible_witness :
  ∃ w' : W, token_balance (ledger w') tok pat = token_balance (ledger w1) tok pat + 35.
Proof.
  destruct (release_always_possible demo_hash demo_xdr demo_hash_free this w1 (at_time 8 pat)
    id1 the_deposit) as (w' & _ & _ & Hb);
    [apply deposits_w1_reach|reflexivity|reflexivity|vm_compute; eexists; reflexivity
    |vm_compute; reflexivity|reflexivity|reflexivity|].
  exists w'. exact Hb.
Defined.
End Runs.
