(* ===== verification/Milestones.v ===== *)
(** * Milestone schedules ([contracts/scholarship-milestones/src/lib.rs])

    The admin splits an award into milestones by basis points, activates the
    schedule once, may amend it while nothing is released, verifies milestones and
    releases them in order.  The store keys are [Admin] and [Schedule(award_id)]. *)
From Stdlib Require Import Sorted.
From S2P Require Import Prelude Machine Host BpsSplit.

Definition CONTRACT_VERSION : Z := 1.
Definition MAX_MILESTONES : Z := 16.
Definition BPS_DENOM_U32 : Z := 10000.
Definition BPS_DENOM_I128 : Z := 10000.

Inductive ContractError :=
| NotInitialized | AlreadyInitialized | NotAdmin | ScheduleNotFound | ScheduleAlreadyExists
| InvalidMilestoneCount | PercentagesDoNotSumTo100 | DatesNotOrdered | InvalidAmount
| ScheduleInactive | ScheduleAlreadyActive | MilestoneIndexOutOfRange | MilestoneNotVerified
| MilestoneAlreadyVerified | MilestoneAlreadyReleased | OutOfOrderRelease
| ScheduleLockedAfterDisbursement | VersionOverflow.

Inductive MilestoneKind := Enrollment | Attendance | Coursework | Completion | Custom.

Record MilestoneInput := mkInput {
  in_kind : MilestoneKind;
  in_label_hash : BytesN32;
  in_percentage_bps : Z;
  in_due_at : Z }.

Record Milestone := mkMilestone {
  index : Z;
  kind : MilestoneKind;
  label_hash : BytesN32;
  percentage_bps : Z;
  amount : Z;
  due_at : Z;
  verified : bool;
  released : bool }.

Record MilestoneSchedule := mkSchedule {
  award_id : BytesN32;
  total_amount : Z;
  currency : Symbol;
  version : Z;
  active : bool;
  created_at : Z;
  activated_at : Z;
  amended_at : Z;
  milestones : list Milestone }.

Inductive Event :=
| MSDEF (award_id : BytesN32) | MSACT (award_id : BytesN32) | MSAMD (award_id : BytesN32)
| MSVRF (award_id : BytesN32) (index : Z) | MSREL (award_id : BytesN32) (index : Z).

Record Store := mkStore { admin : option Address; schedules : gmap Z MilestoneSchedule }.

Definition put_admin (a : Address) (s : Store) : Store := mkStore (Some a) (schedules s).
Definition put_schedule (sc : MilestoneSchedule) (s : Store) : Store :=
  mkStore (admin s) (<[award_id sc := sc]> (schedules s)).

Definition set_verified (m : Milestone) : Milestone :=
  mkMilestone (index m) (kind m) (label_hash m) (percentage_bps m) (amount m) (due_at m)
    true (released m).
Definition set_released (m : Milestone) : Milestone :=
  mkMilestone (index m) (kind m) (label_hash m) (percentage_bps m) (amount m) (due_at m)
    (verified m) true.
Definition set_milestones (ms : list Milestone) (sc : MilestoneSchedule) : MilestoneSchedule :=
  mkSchedule (award_id sc) (total_amount sc) (currency sc) (version sc) (active sc)
    (created_at sc) (activated_at sc) (amended_at sc) ms.
Definition set_active (t : Z) (sc : MilestoneSchedule) : MilestoneSchedule :=
  mkSchedule (award_id sc) (total_amount sc) (currency sc) (version sc) true
    (created_at sc) t (amended_at sc) (milestones sc).

(** ** Deriving the milestones *)

(** First pass: the shares are summed and the dates compared with the previous one. *)
Fixpoint check_inputs (i bps_sum prev_due : Z) (inputs : list MilestoneInput) :
    result ContractError Z :=
  match inputs with
  | [] => Ok bps_sum
  | input :: inputs =>
      let? bps_sum := option_ok_or (checked_add_u32 bps_sum (in_percentage_bps input))
                        PercentagesDoNotSumTo100 in
      if (0 <? i) && (in_due_at input <=? prev_due) then Err DatesNotOrdered
      else check_inputs (i + 1) bps_sum (in_due_at input) inputs
  end.

(** Second pass: the amounts, the last one absorbing the remainder. *)
Fixpoint derive (total_amount count i allocated : Z) (inputs : list MilestoneInput) :
    result ContractError (list Milestone) :=
  match inputs with
  | [] => Ok []
  | input :: inputs =>
      let? amount :=
        (if i =? count - 1 then option_ok_or (checked_sub_i128 total_amount allocated) InvalidAmount
         else let? product := option_ok_or
                (checked_mul_i128 total_amount (in_percentage_bps input)) InvalidAmount in
              Ok (Z.quot product BPS_DENOM_I128)) in
      let? allocated := option_ok_or (checked_add_i128 allocated amount) InvalidAmount in
      let? rest := derive total_amount count (i + 1) allocated inputs in
      Ok (mkMilestone i (in_kind input) (in_label_hash input) (in_percentage_bps input) amount
            (in_due_at input) false false :: rest)
  end.

Definition build_milestones (total_amount : Z) (inputs : list MilestoneInput) :
    result ContractError (list Milestone) :=
  let count := Z.of_nat (length inputs) in
  if (count =? 0) || (MAX_MILESTONES <? count) then Err InvalidMilestoneCount
  else if total_amount <=? 0 then Err InvalidAmount
  else
    let? bps_sum := check_inputs 0 0 0 inputs in
    if negb (bps_sum =? BPS_DENOM_U32) then Err PercentagesDoNotSumTo100
    else derive total_amount count 0 0 inputs.

(** The running total of [released_total]. *)
Fixpoint sum_released (total : Z) (ms : list Milestone) : result ContractError Z :=
  match ms with
  | [] => Ok total
  | m :: ms =>
      if released m
      then let? total := option_ok_or (checked_add_i128 total (amount m)) InvalidAmount in
           sum_released total ms
      else sum_released total ms
  end.

Section Contract.
Context {L : Type}.
Abbreviation M := (Contract L Store Event ContractError).

Definition initialize (adm : Address) : M unit :=
  o <- load admin ;;
  reject_if (bool_decide (is_Some o)) AlreadyInitialized ;;;
  require_auth adm ;;;
  save (put_admin adm).

Definition require_admin (caller : Address) : M unit :=
  require_admin_of admin NotInitialized NotAdmin caller.

Definition load_schedule (award_id : BytesN32) : M MilestoneSchedule :=
  o <- load (λ s, schedules s !! award_id) ;;
  ok_or o ScheduleNotFound.

Definition define_schedule (adm : Address) (award_id : BytesN32) (total_amount : Z)
    (currency : Symbol) (inputs : list MilestoneInput) : M unit :=
  require_admin adm ;;;
  o <- load (λ s, schedules s !! award_id) ;;
  reject_if (bool_decide (is_Some o)) ScheduleAlreadyExists ;;;
  milestones <- lift (build_milestones total_amount inputs) ;;
  t <- now ;;
  save (put_schedule
    (mkSchedule award_id total_amount currency 1 false t 0 0 milestones)) ;;;
  publish (MSDEF award_id).

Definition activate_schedule (adm : Address) (award_id : BytesN32) : M unit :=
  require_admin adm ;;;
  schedule <- load_schedule award_id ;;
  reject_if (active schedule) ScheduleAlreadyActive ;;;
  t <- now ;;
  save (put_schedule (set_active t schedule)) ;;;
  publish (MSACT award_id).

Definition amend_schedule (adm : Address) (award_id : BytesN32) (total_amount : Z)
    (currency : Symbol) (inputs : list MilestoneInput) : M unit :=
  require_admin adm ;;;
  schedule <- load_schedule award_id ;;
  reject_if (negb (active schedule)) ScheduleInactive ;;;
  reject_if (existsb released (milestones schedule)) ScheduleLockedAfterDisbursement ;;;
  milestones <- lift (build_milestones total_amount inputs) ;;
  version <- ok_or (checked_add_u32 (version schedule) 1) VersionOverflow ;;
  t <- now ;;
  save (put_schedule
    (mkSchedule (Milestones.award_id schedule) total_amount currency version (active schedule)
       (created_at schedule) (activated_at schedule) t milestones)) ;;;
  publish (MSAMD award_id).

Definition get_schedule (award_id : BytesN32) : M MilestoneSchedule :=
  o <- load (λ s, schedules s !! award_id) ;;
  ok_or o ScheduleNotFound.

Definition get_milestone (award_id : BytesN32) (index : Z) : M Milestone :=
  schedule <- get_schedule award_id ;;
  ok_or (milestones schedule !! Z.to_nat index) MilestoneIndexOutOfRange.

Definition verify_milestone (adm : Address) (award_id : BytesN32) (index : Z) : M unit :=
  require_admin adm ;;;
  schedule <- load_schedule award_id ;;
  reject_if (negb (active schedule)) ScheduleInactive ;;;
  milestone <- ok_or (milestones schedule !! Z.to_nat index) MilestoneIndexOutOfRange ;;
  reject_if (verified milestone) MilestoneAlreadyVerified ;;;
  save (put_schedule (set_milestones
    (<[Z.to_nat index := set_verified milestone]> (milestones schedule)) schedule)) ;;;
  publish (MSVRF award_id index).

(** The loop of [release_milestone] over the earlier milestones. *)
Definition check_earlier (ms : list Milestone) (j : nat) (_ : unit) : M unit :=
  earlier <- ok_or (ms !! j) MilestoneIndexOutOfRange ;;
  reject_if (negb (released earlier)) OutOfOrderRelease.

Definition release_milestone (adm : Address) (award_id : BytesN32) (index : Z) : M unit :=
  require_admin adm ;;;
  schedule <- load_schedule award_id ;;
  reject_if (negb (active schedule)) ScheduleInactive ;;;
  milestone <- ok_or (milestones schedule !! Z.to_nat index) MilestoneIndexOutOfRange ;;
  reject_if (released milestone) MilestoneAlreadyReleased ;;;
  reject_if (negb (verified milestone)) MilestoneNotVerified ;;;
  for_in (seq 0 (Z.to_nat index)) tt (check_earlier (milestones schedule)) ;;;
  save (put_schedule (set_milestones
    (<[Z.to_nat index := set_released milestone]> (milestones schedule)) schedule)) ;;;
  publish (MSREL award_id index).

Definition released_total (award_id : BytesN32) : M Z :=
  schedule <- get_schedule award_id ;;
  lift (sum_released 0 (milestones schedule)).

Definition remaining_amount (award_id : BytesN32) : M Z :=
  schedule <- get_schedule award_id ;;
  released <- released_total (Milestones.award_id schedule) ;;
  ok_or (checked_sub_i128 (total_amount schedule) released) InvalidAmount.

Inductive Call :=
| CInitialize (adm : Address)
| CDefine (adm : Address) (award_id : BytesN32) (total_amount : Z) (currency : Symbol)
    (inputs : list MilestoneInput)
| CActivate (adm : Address) (award_id : BytesN32)
| CAmend (adm : Address) (award_id : BytesN32) (total_amount : Z) (currency : Symbol)
    (inputs : list MilestoneInput)
| CVerify (adm : Address) (award_id : BytesN32) (index : Z)
| CRelease (adm : Address) (award_id : BytesN32) (index : Z).

Definition exec (c : Call) : M unit :=
  match c with
  | CInitialize a => initialize a
  | CDefine a id n s l => define_schedule a id n s l
  | CActivate a id => activate_schedule a id
  | CAmend a id n s l => amend_schedule a id n s l
  | CVerify a id i => verify_milestone a id i
  | CRelease a id i => release_milestone a id i
  end.

Definition input_valid (x : MilestoneInput) : bool :=
  u32 (in_percentage_bps x) && u64 (in_due_at x).
Definition valid (e : Env) (c : Call) : Prop :=
  match c with
  | CDefine _ _ n _ l | CAmend _ _ n _ l =>
      i128 n = true ∧ Forall (λ x, input_valid x = true) l
  | CVerify _ _ i | CRelease _ _ i => u32 i = true
  | _ => True
  end.
End Contract.

(** ** The derived milestones *)

Definition pending (m : Milestone) : Prop := verified m = false ∧ released m = false.

Lemma check_inputs_Ok i s p l n :
  0 ≤ i → Forall (λ x, input_valid x = true) l → check_inputs i s p l = Ok n →
  n = s + list_sum id (in_percentage_bps <$> l) ∧
  Sorted Z.lt (in_due_at <$> l) ∧ (0 < i → HdRel Z.lt p (in_due_at <$> l)).
Proof.
  intros Hi Hl. revert i s p Hi. induction Hl as [|x l Hx Hl IH]; intros i s p Hi; cbn [check_inputs].
  - intros [= <-]. split_and!; [simpl; lia|constructor|constructor].
  - intros (t & Ht & Hr)%result_bind_Ok. apply option_ok_or_Ok in Ht. checked_prop.
    destruct (_ && _) eqn:Hd; [done|]. apply IH in Hr as (-> & Hs & Hh); [|lia].
    rewrite !fmap_cons. split_and!.
    + rewrite list_sum_cons. change (id (in_percentage_bps x)) with (in_percentage_bps x). lia.
    + constructor; [done|]. apply Hh. lia.
    + intros Hi0. constructor. apply andb_false_iff in Hd as [Hd|Hd]; bool_prop; lia.
Qed.

Lemma derive_Ok total count i allocated l ms :
  0 ≤ total → i + Z.of_nat (length l) = count → Forall (λ x, input_valid x = true) l →
  derive total count i allocated l = Ok ms →
  amount <$> ms = split total (in_percentage_bps <$> l) allocated ∧
  percentage_bps <$> ms = in_percentage_bps <$> l ∧ due_at <$> ms = in_due_at <$> l ∧
  index <$> ms = seqZ i (Z.of_nat (length l)) ∧ Forall pending ms.
Proof.
  intros Ht Hc Hl. revert i allocated ms Hc. induction Hl as [|x l Hx Hl IH];
    intros i allocated ms Hc; cbn [derive].
  - intros [= <-]. done.
  - intros (a & Ha & (b & Hb & (rest & Hrest & [= <-])%result_bind_Ok)%result_bind_Ok)%result_bind_Ok.
    apply option_ok_or_Ok in Hb. cbn [length] in Hc. unfold input_valid in Hx. bool_prop.
    apply IH in Hrest as (R1 & R2 & R3 & R4 & R5); [|lia]. checked_prop.
    rewrite !fmap_cons, R1, R2, R3, R4. cbn [length index amount percentage_bps due_at].
    split_and!; try done.
    + destruct l as [|y l]; cbn [length] in *.
      * rewrite (proj2 (Z.eqb_eq i (count - 1))) in Ha by lia.
        apply option_ok_or_Ok in Ha. checked_prop. done.
      * rewrite (proj2 (Z.eqb_neq i (count - 1))) in Ha by lia.
        apply result_bind_Ok in Ha as (p & Hp & [= <-]). apply option_ok_or_Ok in Hp.
        checked_prop. unfold BPS_DENOM_I128. rewrite quot_floor by (try lia; nia). done.
    + rewrite (seqZ_cons i) by lia. do 2 f_equal; lia.
    + constructor; [done|exact R5].
Qed.

(** The static part of a schedule: it reconciles to its total. *)
Record reconciled (total : Z) (ms : list Milestone) : Prop := {
  rc_count : (1 ≤ length ms)%nat ∧ Z.of_nat (length ms) ≤ MAX_MILESTONES;
  rc_total : 0 < total ≤ i128_max;
  rc_bps : Forall (λ b, 0 ≤ b) (percentage_bps <$> ms) ∧
           list_sum id (percentage_bps <$> ms) = FULL_BPS;
  rc_amounts : amount <$> ms = split total (percentage_bps <$> ms) 0;
  rc_dates : Sorted Z.lt (due_at <$> ms);
  rc_index : index <$> ms = seqZ 0 (Z.of_nat (length ms)) }.

Lemma build_milestones_Ok total l ms :
  i128 total = true → Forall (λ x, input_valid x = true) l →
  build_milestones total l = Ok ms → reconciled total ms ∧ Forall pending ms.
Proof.
  intros Ht Hl Hb. unfold build_milestones in Hb.
  destruct (_ || _) eqn:Hc; [done|]. destruct (total <=? 0) eqn:Ht0; [done|].
  apply result_bind_Ok in Hb as (n & Hn & Hb). destruct (negb _) eqn:Hsum; [done|].
  bool_prop. checked_prop.
  apply check_inputs_Ok in Hn as (-> & Hdates & _); [|lia|done].
  apply derive_Ok in Hb as (D1 & D2 & D3 & D4 & D5); [|lia|lia|done].
  assert (Hlen : length ms = length l).
  { apply (f_equal length) in D2. by rewrite !length_fmap in D2. }
  split; [|done]. split; rewrite ?D2, ?D3, ?Hlen; try done.
  - lia.
  - lia.
  - split; [|exact Hsum]. apply Forall_fmap. eapply Forall_impl; [exact Hl|].
    intros x Hx. unfold input_valid in Hx. bool_prop. checked_prop. simpl. lia.
Qed.

Lemma fmap_insert_same {A} (f : Milestone → A) (ms : list Milestone) (i : nat) m m' :
  ms !! i = Some m → f m' = f m → f <$> <[i := m']> ms = f <$> ms.
Proof.
  intros Hm Hf. rewrite list_fmap_insert, Hf. apply list_insert_id.
  by rewrite list_lookup_fmap, Hm.
Qed.

Lemma reconciled_insert total ms (i : nat) m m' :
  reconciled total ms → ms !! i = Some m → index m' = index m → amount m' = amount m →
  percentage_bps m' = percentage_bps m → due_at m' = due_at m →
  reconciled total (<[i := m']> ms).
Proof.
  intros [H1 H2 H3 H4 H5 H6] Hm Hi Ha Hb Hd.
  split; rewrite ?length_insert; rewrite ?(fmap_insert_same index ms i m m'),
    ?(fmap_insert_same amount ms i m m'), ?(fmap_insert_same percentage_bps ms i m m'),
    ?(fmap_insert_same due_at ms i m m'); done.
Qed.

(** The amounts of a reconciled schedule. *)
Lemma reconciled_amounts total ms :
  reconciled total ms → Forall (λ m, 0 ≤ amount m) ms ∧ list_sum amount ms = total.
Proof.
  intros [H1 H2 [H3 H3'] H4 H5 H6].
  destruct (split_full total (percentage_bps <$> ms)) as [Hnn Hsum];
    [lia|destruct ms; [simpl in H1; lia|done]|done|done|].
  rewrite <-H4 in Hnn, Hsum. split; [exact (proj1 (Forall_fmap amount (λ x, 0 ≤ x) ms) Hnn)|].
  rewrite <-Hsum. clear. induction ms as [|m ms IH]; [done|].
  rewrite fmap_cons, !list_sum_cons, IH. done.
Qed.

(** The released milestones are the first [k]. *)
Definition released_prefix (ms : list Milestone) (k : nat) : Prop :=
  ∀ j m, ms !! j = Some m → released m = bool_decide (j < k)%nat.

Definition released_sum (ms : list Milestone) : Z :=
  list_sum (λ m, if released m then amount m else 0) ms.

Lemma released_sum_bounds ms :
  Forall (λ m, 0 ≤ amount m) ms → 0 ≤ released_sum ms ≤ list_sum amount ms.
Proof.
  unfold released_sum. induction 1 as [|m ms Hm Hms IH]; simpl; [lia|]. destruct (released m); lia.
Qed.

Lemma sum_released_Ok t ms :
  Forall (λ m, 0 ≤ amount m) ms → 0 ≤ t → t + released_sum ms ≤ i128_max →
  sum_released t ms = Ok (t + released_sum ms).
Proof.
  intros Hms. revert t. induction Hms as [|m ms Hm Hms IH]; intros t Ht Hle.
  - unfold released_sum. simpl. f_equal. lia.
  - pose proof (released_sum_bounds _ Hms). unfold released_sum in *. simpl in *.
    destruct (released m).
    + unfold checked_add_i128. rewrite checked_in by range_lia. simpl.
      rewrite IH by lia. f_equal. lia.
    + rewrite IH by lia. f_equal.
Qed.

(** ** The invariant *)
Section Invariant.
Context {L : Type}.
Abbreviation W := (World L Store Event).

Record schedule_ok (id : BytesN32) (sc : MilestoneSchedule) : Prop := {
  sc_key : award_id sc = id;
  sc_version : 1 ≤ version sc;
  sc_reconciled : reconciled (total_amount sc) (milestones sc);
  sc_prefix : ∃ k, released_prefix (milestones sc) k;
  sc_verified : Forall (λ m, released m = true → verified m = true) (milestones sc);
  sc_inactive : active sc = false → Forall pending (milestones sc) }.

Definition inv (s : Store) : Prop :=
  ∀ id sc, schedules s !! id = Some sc → schedule_ok id sc.

(** The milestones keep what was agreed; their flags only go up. *)
Definition grows (m m' : Milestone) : Prop :=
  index m' = index m ∧ kind m' = kind m ∧ label_hash m' = label_hash m ∧
  percentage_bps m' = percentage_bps m ∧ amount m' = amount m ∧ due_at m' = due_at m ∧
  (verified m = true → verified m' = true) ∧ (released m = true → released m' = true).

(** What a call may do to one schedule: its version never goes down, and once something
    is released nothing agreed changes any more. *)
Definition evolves (sc sc' : MilestoneSchedule) : Prop :=
  award_id sc' = award_id sc ∧ version sc ≤ version sc' ∧ created_at sc' = created_at sc ∧
  (active sc = true → active sc' = true ∧ activated_at sc' = activated_at sc) ∧
  (active sc = false ∨ existsb released (milestones sc) = true →
     version sc' = version sc ∧ total_amount sc' = total_amount sc ∧
     currency sc' = currency sc ∧ Forall2 grows (milestones sc) (milestones sc')).

Lemma grows_refl m : grows m m.
Proof. unfold grows. naive_solver. Qed.

Lemma Forall2_grows_insert (ms : list Milestone) (i : nat) m m' :
  ms !! i = Some m → grows m m' → Forall2 grows ms (<[i := m']> ms).
Proof.
  intros Hm Hg. apply Forall2_same_length_lookup. split; [by rewrite length_insert|].
  intros j x y Hx Hy. destruct (decide (i = j)) as [->|Hne].
  - rewrite list_lookup_insert_eq in Hy by (by eapply lookup_lt_Some). by simplify_eq.
  - rewrite list_lookup_insert_ne in Hy by done. simplify_eq. apply grows_refl.
Qed.

Lemma Forall2_grows_refl ms : Forall2 grows ms ms.
Proof. apply Forall_Forall2_diag, Forall_true, grows_refl. Qed.

Lemma evolves_refl sc : evolves sc sc.
Proof. unfold evolves. pose proof (Forall2_grows_refl (milestones sc)). naive_solver lia. Qed.

Lemma check_earlier_done ms i n e (w w' : W) u :
  for_in (seq i n) tt (check_earlier ms) e w = Done w' u →
  w' = w ∧ ∀ j, (i ≤ j < i + n)%nat → ∃ m, ms !! j = Some m ∧ released m = true.
Proof.
  revert i w. induction n as [|n IH]; intros i w Hrun; simpl in Hrun.
  - run_inv. split; [done|lia].
  - run_inv. unfold check_earlier in Hrun0. run_inv. bool_prop.
    apply IH in Hrun as [-> Hall]. split; [done|]. intros j Hj.
    destruct (decide (j = i)) as [->|Hne]; [naive_solver|]. apply Hall. lia.
Qed.

Lemma check_earlier_run ms i n e (w : W) :
  (∀ j, (i ≤ j < i + n)%nat → ∃ m, ms !! j = Some m ∧ released m = true) →
  for_in (seq i n) tt (check_earlier ms) e w = Done w tt.
Proof.
  revert i. induction n as [|n IH]; intros i Hall; simpl; [done|].
  destruct (Hall i) as (m & Hm & Hr); [lia|].
  unfold bind, check_earlier, ok_or. rewrite Hm. unfold bind, ret, reject_if. rewrite Hr. simpl.
  apply IH. intros j Hj. apply Hall. lia.
Qed.

(** Storing a new version of schedule [id]. *)
Lemma inv_put (s : Store) id sc sc' :
  inv s → schedules s !! id = Some sc → schedule_ok id sc' → inv (put_schedule sc' s).
Proof.
  intros Hi Hsc Hok i x. simpl. rewrite lookup_insert. pose proof (sc_key _ _ Hok) as Hk.
  case_decide; [intros [= <-]; congruence|apply Hi].
Qed.

Lemma released_prefix_step ms k i m :
  released_prefix ms k → ms !! i = Some m → released m = false →
  (∀ j, (0 ≤ j < 0 + i)%nat → ∃ x, ms !! j = Some x ∧ released x = true) →
  released_prefix (<[i := set_released m]> ms) (S i).
Proof.
  intros Hk Hm Hr Hall j x Hx. destruct (decide (i = j)) as [->|Hne].
  - rewrite list_lookup_insert_eq in Hx by (by eapply lookup_lt_Some). simplify_eq.
    simpl. rewrite bool_decide_eq_true_2; [done|lia].
  - rewrite list_lookup_insert_ne in Hx by done.
    pose proof (Hk i m Hm) as Hki. rewrite Hr in Hki. symmetry in Hki. bool_prop.
    destruct (decide (j < i)%nat).
    + destruct (Hall j) as (y & Hy & Hry); [lia|]. simplify_eq. rewrite Hry.
      rewrite bool_decide_eq_true_2; [done|lia].
    + rewrite (Hk j x Hx), !bool_decide_eq_false_2; [done|lia..].
Qed.

Lemma pending_prefix ms : Forall pending ms → released_prefix ms 0.
Proof.
  intros Hms j m Hm. rewrite bool_decide_eq_false_2 by lia.
  apply (Forall_lookup_1 _ _ _ _ Hms Hm).
Qed.

Lemma pending_verified ms :
  Forall pending ms → Forall (λ m, released m = true → verified m = true) ms.
Proof. intros Hms. eapply Forall_impl; [exact Hms|]. intros m [_ Hr]. congruence. Qed.

Lemma build_ok id t cur v act c1 c2 c3 l ms :
  i128 t = true → Forall (λ x, input_valid x = true) l → build_milestones t l = Ok ms →
  1 ≤ v → schedule_ok id (mkSchedule id t cur v act c1 c2 c3 ms).
Proof.
  intros Ht Hl Hb Hv. destruct (build_milestones_Ok _ _ _ Ht Hl Hb) as [Hrec Hpend].
  split; simpl; try done; [exists 0%nat; by apply pending_prefix|by apply pending_verified].
Qed.

Definition known (s s' : Store) : Prop :=
  ∀ id sc, schedules s !! id = Some sc → ∃ sc', schedules s' !! id = Some sc' ∧ evolves sc sc'.

Lemma known_put (s : Store) id sc sc' :
  schedules s !! id = Some sc → award_id sc' = id → evolves sc sc' →
  known s (put_schedule sc' s).
Proof.
  intros Hsc Hk Hev i x Hx. simpl. rewrite Hk, lookup_insert. case_decide; subst.
  - simplify_eq. by exists sc'.
  - exists x. split; [done|apply evolves_refl].
Qed.

Lemma amend_ok a id t cur l e (w w' : W) u :
  valid e (CAmend a id t cur l) → inv (store w) →
  amend_schedule a id t cur l e w = Done w' u → inv (store w') ∧ known (store w) (store w').
Proof.
  intros [Ht Hl] Hi Hrun. unfold amend_schedule, require_admin, load_schedule in Hrun.
  run_inv. bool_prop. simpl in *.
  match goal with H : schedules _ !! id = Some ?x |- _ => rename x into sc, H into Hsc end.
  match goal with H : checked_add_u32 _ _ = _ |- _ => unfold checked_add_u32 in H; checked_prop end.
  pose proof (Hi _ _ Hsc) as Hok. pose proof (sc_key _ _ Hok) as Hk.
  pose proof (sc_version _ _ Hok). rewrite Hk. split.
  - eapply inv_put; [done|done|]. eapply build_ok; [by apply in_range_iff|done|done|lia].
  - eapply known_put; [done|done|]. unfold evolves. simpl.
    split_and!; try done; [lia|]. intros [Hx|Hx]; congruence.
Qed.

Lemma verify_ok a id i e (w w' : W) u :
  inv (store w) → verify_milestone a id i e w = Done w' u →
  inv (store w') ∧ known (store w) (store w').
Proof.
  intros Hi Hrun. unfold verify_milestone, require_admin, load_schedule in Hrun.
  run_inv. bool_prop. simpl in *.
  match goal with H : schedules _ !! id = Some ?x |- _ => rename x into sc, H into Hsc end.
  match goal with H : milestones sc !! _ = Some ?x |- _ => rename x into m, H into Hm end.
  pose proof (Hi _ _ Hsc) as Hok. destruct Hok as [Hk Hv Hrec [k Hpre] Hver Hin]. split.
  - eapply inv_put; [done|done|]. split; simpl; try done.
    + by eapply reconciled_insert.
    + exists k. intros j x Hx. apply list_lookup_insert_Some in Hx as [(<- & <- & _)|[_ Hx]];
        [apply (Hpre _ m Hm)|by apply Hpre].
    + by apply Forall_insert.
    + intros Ha. congruence.
  - eapply known_put; [done|done|]. unfold evolves. simpl. split_and!; try done.
    intros _. split_and!; try done. eapply Forall2_grows_insert; [done|].
    unfold grows. naive_solver.
Qed.

Lemma release_effect a id i e (w w' : W) u :
  inv (store w) → release_milestone a id i e w = Done w' u →
  ∃ sc m, schedules (store w) !! id = Some sc ∧ active sc = true ∧
    milestones sc !! Z.to_nat i = Some m ∧ released m = false ∧ verified m = true ∧
    (∀ j, (0 ≤ j < 0 + Z.to_nat i)%nat →
      ∃ x, milestones sc !! j = Some x ∧ released x = true) ∧
    store w' = put_schedule (set_milestones
      (<[Z.to_nat i := set_released m]> (milestones sc)) sc) (store w).
Proof.
  intros Hi Hrun. unfold release_milestone, require_admin, load_schedule in Hrun.
  run_inv. bool_prop.
  match goal with H : for_in _ _ _ _ _ = _ |- _ => apply check_earlier_done in H as [-> Hall] end.
  simpl in *. do 2 eexists. split_and!; eauto.
Qed.

Lemma release_ok a id i e (w w' : W) u :
  inv (store w) → release_milestone a id i e w = Done w' u →
  inv (store w') ∧ known (store w) (store w').
Proof.
  intros Hi Hrun. destruct (release_effect _ _ _ _ _ _ _ Hi Hrun)
    as (sc & m & Hsc & Hact & Hm & Hr & Hvm & Hall & ->).
  pose proof (Hi _ _ Hsc) as Hok. destruct Hok as [Hk Hv Hrec [k Hpre] Hver Hin]. split.
  - eapply inv_put; [done|done|]. split; simpl; try done.
    + by eapply reconciled_insert.
    + eexists. by eapply released_prefix_step.
    + by apply Forall_insert.
    + intros Ha. congruence.
  - eapply known_put; [done|done|]. unfold evolves. simpl. split_and!; try done.
    intros _. split_and!; try done. eapply Forall2_grows_insert; [done|].
    unfold grows. naive_solver.
Qed.

Lemma milestones_exec_ok c e (w w' : W) u :
  valid e c → inv (store w) → exec c e w = Done w' u →
  inv (store w') ∧ known (store w) (store w').
Proof.
  intros Hv Hi Hrun.
  assert (Hsame : ∀ s, known s s) by (intros s i x Hx; exists x; split; [done|apply evolves_refl]).
  destruct c; simpl in Hrun.
  - unfold initialize in Hrun. run_inv. split; [exact Hi|apply (Hsame (store w))].
  - unfold define_schedule, require_admin in Hrun. run_inv. bool_prop. simpl in *.
    destruct Hv as [Ht Hl].
    match goal with H : ¬ is_Some _ |- _ => apply eq_None_not_Some in H as Hnone end. split.
    + intros i x. simpl. rewrite lookup_insert. case_decide; [|apply Hi].
      intros [= <-]. subst. eapply build_ok; [done..|lia].
    + intros i x Hx. exists x. simpl. rewrite lookup_insert_ne by congruence.
      split; [done|apply evolves_refl].
  - unfold activate_schedule, require_admin, load_schedule in Hrun. run_inv. simpl in *.
    match goal with H : schedules _ !! _ = Some ?x |- _ => rename x into sc, H into Hsc end.
    pose proof (Hi _ _ Hsc) as [Hk Hver Hrec Hpre Hverif Hin]. split.
    + eapply inv_put; [done|done|]. by split.
    + eapply known_put; [done|done|]. unfold evolves. simpl.
      split_and!; try done; [congruence|]. intros _.
      split_and!; [done..|apply Forall2_grows_refl].
  - by eapply amend_ok.
  - by eapply verify_ok.
  - by eapply release_ok.
Qed.

Definition deployed (w : W) : Prop := store w = mkStore None ∅.
Abbreviation Reach this := (reachable exec valid this (λ _ _, True) deployed).

Lemma milestones_inv_reachable this w : Reach this w → inv (store w).
Proof.
  apply (reachable_inv _ _ _ _ _ (λ w, inv (store w))).
  - intros w0 ->. intros id sc. done.
  - intros c e w0 w1 u _ Hv Hi Hrun. by eapply milestones_exec_ok.
  - done.
Qed.

Lemma check_earlier_late ms i n e (w : W) :
  (i + n ≤ length ms)%nat →
  forallb released (take n (drop i ms)) = false →
  for_in (seq i n) tt (check_earlier ms) e w = Failed w OutOfOrderRelease.
Proof.
  revert i. induction n as [|n IH]; intros i Hlen Hall; [done|].
  destruct (lookup_lt_is_Some_2 ms i) as [m Hm]; [lia|].
  rewrite (drop_S _ _ _ Hm) in Hall. simpl in Hall. simpl.
  unfold bind, check_earlier, ok_or. rewrite Hm. unfold bind, ret, reject_if.
  destruct (released m); simpl in *; [|done]. apply IH; [lia|done].
Qed.

Lemma forallb_take (ms : list Milestone) n :
  (n ≤ length ms)%nat → forallb released (take n ms) = true →
  ∀ j, (0 ≤ j < 0 + n)%nat → ∃ x, ms !! j = Some x ∧ released x = true.
Proof.
  intros Hn Hall j Hj. destruct (lookup_lt_is_Some_2 ms j) as [x Hx]; [lia|].
  exists x. split; [done|]. rewrite forallb_forall in Hall. apply Hall.
  apply list_elem_of_In, list_elem_of_lookup. exists j.
  by rewrite lookup_take_lt by lia.
Qed.

Lemma released_sum_insert ms (i : nat) m :
  ms !! i = Some m → released m = false →
  released_sum (<[i := set_released m]> ms) = released_sum ms + amount m.
Proof.
  intros Hm Hr. unfold released_sum. rewrite (list_sum_insert _ _ _ m) by done.
  rewrite Hr. simpl. lia.
Qed.

Lemma totals_run this id sc e (w : W) :
  inv (store w) → self e = this → schedules (store w) !! id = Some sc →
  released_total id e w = Done w (released_sum (milestones sc)) ∧
  remaining_amount id e w = Done w (total_amount sc - released_sum (milestones sc)) ∧
  0 ≤ released_sum (milestones sc) ≤ total_amount sc.
Proof.
  intros Hi _ Hsc. pose proof (Hi _ _ Hsc) as [Hk _ Hrec _ _ _].
  destruct (reconciled_amounts _ _ Hrec) as [Hnn Hsum].
  pose proof (released_sum_bounds _ Hnn). pose proof (rc_total _ _ Hrec).
  assert (Hrun : ∀ j, j = id → released_total j e w = Done w (released_sum (milestones sc))).
  { intros j ->. unfold released_total, get_schedule, bind, load. rewrite Hsc. simpl.
    rewrite sum_released_Ok by (done || lia). done. }
  split_and!; [by apply Hrun| |lia|lia].
  unfold remaining_amount. unfold bind at 1, get_schedule at 1, bind at 1, load. rewrite Hsc.
  simpl. unfold bind. rewrite Hrun by done.
  unfold checked_sub_i128. rewrite checked_in by range_lia. done.
Qed.

(** ** Properties *)

(** C14: Schedules reconcile.  In every reachable world each stored schedule has between 1
    and 16 milestones whose basis points add up to 10,000, whose amounts are non-negative,
    are the reference split of the total and add up to it exactly, whose dates strictly
    increase and whose indices are their positions; the released ones are a prefix of the
    verified order and all verified, and before activation none is verified or released. *)
Theorem schedule_reconciles this w id sc :
  Reach this w → schedules (store w) !! id = Some sc →
  reconciled (total_amount sc) (milestones sc) ∧
  list_sum amount (milestones sc) = total_amount sc ∧
  Forall (λ m, 0 ≤ amount m) (milestones sc) ∧
  (∃ k, released_prefix (milestones sc) k) ∧
  Forall (λ m, released m = true → verified m = true) (milestones sc) ∧
  (active sc = false → Forall pending (milestones sc)).
Proof.
  intros Hi%milestones_inv_reachable Hsc. destruct (Hi _ _ Hsc) as [Hk Hv Hrec Hpre Hver Hin].
  destruct (reconciled_amounts _ _ Hrec). done.
Qed.

(** Totals.  In every reachable world [released_total] and [remaining_amount] return,
    without overflow, the sum of the released milestones' amounts and the rest of the
    total, and both are between zero and the total. *)
Theorem totals_correct this w e id sc :
  Reach this w → self e = this → schedules (store w) !! id = Some sc →
  released_total id e w = Done w (released_sum (milestones sc)) ∧
  remaining_amount id e w = Done w (total_amount sc - released_sum (milestones sc)) ∧
  0 ≤ released_sum (milestones sc) ≤ total_amount sc.
Proof. intros Hi%milestones_inv_reachable. by apply totals_run. Qed.

(** History is never rewritten.  From every reachable world any call keeps each
    schedule, its key and creation time, never lowers its version or deactivates it; once
    a milestone has been released (and before activation) its version, total, currency and
    every milestone's index, kind, label, share, amount and date stay what they are and the
    verified and released flags only go up. *)
Theorem schedule_history this w c e id sc :
  Reach this w → valid e c → schedules (store w) !! id = Some sc →
  ∃ sc', schedules (store (invoke (exec c) e w).1) !! id = Some sc' ∧ evolves sc sc'.
Proof.
  intros Hi%milestones_inv_reachable Hv Hsc. unfold invoke.
  destruct (exec c e w) eqn:Hx; simpl; try (exists sc; split; [done|apply evolves_refl]).
  destruct (milestones_exec_ok _ _ _ _ _ Hv Hi Hx) as [_ Hk]. by apply Hk.
Qed.

(** Release, on every branch.  In every reachable world, for an active schedule, an
    admin who signs and an index in range, [release_milestone] refuses a released
    milestone, then an unverified one, then one with an unreleased predecessor, and
    otherwise releases it and raises the released total by exactly its amount, whatever the
    ledger time and the milestone's date. *)
Theorem release_branches this w e a id i sc m :
  Reach this w → admin (store w) = Some a → authorized e a = true →
  schedules (store w) !! id = Some sc → active sc = true →
  milestones sc !! Z.to_nat i = Some m →
  match invoke (release_milestone a id i) e w with
  | (w', Returned _) =>
      released m = false ∧ verified m = true ∧
      forallb released (take (Z.to_nat i) (milestones sc)) = true ∧
      ∃ sc', schedules (store w') !! id = Some sc' ∧ total_amount sc' = total_amount sc ∧
        released_sum (milestones sc') = released_sum (milestones sc) + amount m
  | (w', Errored err) =>
      w' = w ∧ err = (if released m then MilestoneAlreadyReleased
                      else if verified m then OutOfOrderRelease else MilestoneNotVerified) ∧
      (released m = false → verified m = true →
       forallb released (take (Z.to_nat i) (milestones sc)) = false)
  | (_, Panicked) => False
  end.
Proof.
  intros Hi%milestones_inv_reachable Hadm Hauth Hsc Hact Hm.
  pose proof (Hi _ _ Hsc) as [Hk _ _ _ _ _].
  pose proof (lookup_lt_Some _ _ _ Hm) as Hlt.
  unfold invoke, release_milestone, require_admin, require_admin_of, load_schedule, bind, load.
  rewrite Hadm. simpl. rewrite bool_decide_eq_true_2 by done. simpl.
  unfold require_auth. rewrite Hauth. simpl. rewrite Hsc. simpl. rewrite Hact. simpl.
  rewrite Hm. simpl.
  destruct (released m) eqn:Hr; simpl; [done|]. destruct (verified m) eqn:Hv; simpl; [|done].
  destruct (forallb released (take (Z.to_nat i) (milestones sc))) eqn:Hall.
  - rewrite check_earlier_run by (apply forallb_take; [lia|done]). simpl.
    split_and!; try done. rewrite Hk. eexists. split; [apply lookup_insert_eq|].
    split; [done|]. by apply released_sum_insert.
  - rewrite check_earlier_late; [done|lia|done].
Qed.
End Invariant.

(** ** Concrete runs *)
Module Runs.
Definition this : Address := addr 0.
Definition boss : Address := addr 1.
Definition at_time (t : Z) (a : Address) : Env := mkEnv t this (λ b, bool_decide (a = b)).
Abbreviation W := (World unit Store Event).
Definition w0 : W := mkWorld tt (mkStore None ∅) [].
Definition plan : list MilestoneInput :=
  [mkInput Enrollment 1 3333 100; mkInput Coursework 2 3333 200; mkInput Completion 3 3334 300].
Definition setup : list (Env * Call) :=
  [(at_time 1 boss, CInitialize boss); (at_time 2 boss, CDefine boss 7 1000 "USD" plan);
   (at_time 3 boss, CActivate boss 7); (at_time 4 boss, CVerify boss 7 0);
   (at_time 5 boss, CVerify boss 7 1); (at_time 6 boss, CRelease boss 7 0)].
Definition w1 : W := run_calls exec setup w0.
Definition ms (i : Z) (k : MilestoneKind) (b n d : Z) (v r : bool) : Milestone :=
  mkMilestone i k (i + 1) b n d v r.
Definition sc1 : MilestoneSchedule :=
  mkSchedule 7 1000 "USD" 1 true 2 3 0
    [ms 0 Enrollment 3333 333 100 true true; ms 1 Coursework 3333 333 200 true false;
     ms 2 Completion 3334 334 300 false false].

Lemma milestones_w1_reach : reachable exec valid this (λ _ _, True) deployed w1.
Proof.
  apply reachable_run; [apply reach_init; done|]. repeat constructor; vm_compute; reflexivity.
Qed.

Lemma schedule_reconciles_witness : list_sum amount (milestones sc1) = 1000.
Proof.
  destruct (schedule_reconciles this w1 7 sc1) as (_ & Hs & _);
    [apply milestones_w1_reach|vm_compute; reflexivity|exact Hs].
Defined.

Lemma totals_correct_witness :
  released_total 7 (at_time 9 boss) w1 = Done w1 333 ∧
  remaining_amount 7 (at_time 9 boss) w1 = Done w1 667.
Proof.
  destruct (totals_correct this w1 (at_time 9 boss) 7 sc1) as (H1 & H2 & _);
    [apply milestones_w1_reach|reflexivity|vm_compute; reflexivity|].
  split; [rewrite H1|rewrite H2]; reflexivity.
Defined.

Lemma schedule_history_witness :
  ∃ sc', schedules (store (invoke (exec (CAmend boss 7 10 "USD" plan)) (at_time 9 boss) w1).1)
    !! 7 = Some sc' ∧ evolves sc1 sc'.
Proof.
  apply (schedule_history this w1 (CAmend boss 7 10 "USD" plan) (at_time 9 boss) 7);
    [apply milestones_w1_reach|split; [reflexivity|repeat constructor]|vm_compute; reflexivity].
Defined.

(** Released at time 7, long before its date 200. *)
Lemma release_branches_witness :
  ∃ w' : W, invoke (release_milestone boss 7 1) (at_time 7 boss) w1 = (w', Returned tt) ∧
    ∃ sc', schedules (store w') !! 7 = Some sc' ∧ released_sum (milestones sc') = 666.
Proof.
  pose proof (release_branches this w1 (at_time 7 boss) boss 7 1 sc1
    (ms 1 Coursework 3333 333 200 true false) milestones_w1_reach ltac:(vm_compute; reflexivity)
    ltac:(vm_compute; reflexivity) ltac:(vm_compute; reflexivity) eq_refl eq_refl) as Hb.
  destruct (invoke (release_milestone boss 7 1) (at_time 7 boss) w1) as [w' r] eqn:Hx.
  assert (Hr : r = Returned tt).
  { change r with (w', r).2. rewrite <-Hx. vm_compute. reflexivity. }
  subst r. destruct Hb as (_ & _ & _ & sc' & Hsc' & _ & Hs).
  exists w'. split; [reflexivity|]. exists sc'. split; [exact Hsc'|].
  rewrite Hs. vm_compute. reflexivity.
Defined.
End Runs.
