(* ===== verification/Awards.v ===== *)
(** * Scholarship awards ([contracts/scholarship-awards/src/lib.rs])

    An admin offers an award; the recipient accepts it before its deadline or
    declines it; anyone expires it after; the admin cancels it before payment or
    terminates it after.  Each change carries the version the caller read. *)
From S2P Require Import Prelude Machine Host.

Definition CONTRACT_VERSION : Z := 1.

Inductive ContractError :=
| NotInitialized | AlreadyInitialized | NotAdmin | AwardNotFound | AwardAlreadyExists
| InvalidAmount | InvalidDeadline | ConflictingAward | NotRecipient | OfferNotActive
| OfferExpired | InvalidTransition | PaymentAlreadyMade | NoPaymentMade | RecoveryExceedsPaid
| DisbursementExceedsAward | NoReservation | AwardNotDisburseable | OfferNotExpired
| AcceptanceNotFound | VersionConflict | VersionOverflow.

Inductive AwardStatus := Offered | Accepted | Declined | Expired | Cancelled | Terminated.
#[export] Instance AwardStatus_eq_dec : EqDecision AwardStatus.
Proof. solve_decision. Defined.

Record Award := mkAward {
  version : Z;
  id : BytesN32;
  program_id : BytesN32;
  recipient : Address;
  amount : Z;
  currency : Symbol;
  terms_version : Z;
  terms_hash : BytesN32;
  milestone_schedule_id : option BytesN32;
  offered_at : Z;
  acceptance_deadline : Z;
  status : AwardStatus;
  reserved : bool;
  paid_amount : Z;
  decided_at : Z;
  reason_code : Z }.

Record AgreementAcceptance := mkAcceptance {
  acc_award_id : BytesN32;
  acc_terms_version : Z;
  acc_terms_hash : BytesN32;
  signer : Address;
  accepted_at : Z;
  declarations_hash : BytesN32 }.

Inductive Event :=
| AWCRT (award_id : BytesN32) (recipient : Address) (amount : Z)
| AWACC (award_id : BytesN32) (recipient : Address) (at_ : Z)
| AWDEC (award_id : BytesN32) (recipient : Address)
| AWEXP (award_id : BytesN32) (recipient : Address)
| AWCAN (award_id : BytesN32) (recipient : Address) (reason_code : Z)
| AWTRM (award_id : BytesN32) (recipient : Address) (recovery : Z)
| AWDIS (award_id : BytesN32) (amount new_paid : Z).

Record Store := mkStore {
  admin : option Address;
  awards : gmap Z Award;
  active : gmap (Address * Z) Z;
  acceptances : gmap Z AgreementAcceptance;
  recoveries : gmap Z Z;
  reservations : gmap Z Z }.

Definition put_admin (a : Address) (s : Store) : Store :=
  mkStore (Some a) (awards s) (active s) (acceptances s) (recoveries s) (reservations s).
Definition put_award (a : Award) (s : Store) : Store :=
  mkStore (admin s) (<[id a := a]> (awards s)) (active s) (acceptances s) (recoveries s)
    (reservations s).
Definition put_active (r : Address) (p award_id : BytesN32) (s : Store) : Store :=
  mkStore (admin s) (awards s) (<[(r, p) := award_id]> (active s)) (acceptances s)
    (recoveries s) (reservations s).
Definition clear_active_award (r : Address) (p : BytesN32) (s : Store) : Store :=
  mkStore (admin s) (awards s) (delete (r, p) (active s)) (acceptances s)
    (recoveries s) (reservations s).
Definition put_acceptance (i : BytesN32) (x : AgreementAcceptance) (s : Store) : Store :=
  mkStore (admin s) (awards s) (active s) (<[i := x]> (acceptances s)) (recoveries s)
    (reservations s).
Definition put_recovery (i : BytesN32) (n : Z) (s : Store) : Store :=
  mkStore (admin s) (awards s) (active s) (acceptances s) (<[i := n]> (recoveries s))
    (reservations s).
Definition put_reservation (p : BytesN32) (n : Z) (s : Store) : Store :=
  mkStore (admin s) (awards s) (active s) (acceptances s) (recoveries s)
    (<[p := n]> (reservations s)).

Definition has_active_award (r : Address) (p : BytesN32) (s : Store) : bool :=
  bool_decide (is_Some (active s !! (r, p))).
Definition get_reservation (p : BytesN32) (s : Store) : Z := default 0 (reservations s !! p).
Definition get_recovery (award_id : BytesN32) (s : Store) : Z :=
  default 0 (recoveries s !! award_id).

(** The fields a call changes. *)
Definition with_version (v : Z) (a : Award) : Award :=
  mkAward v (id a) (program_id a) (recipient a) (amount a) (currency a) (terms_version a)
    (terms_hash a) (milestone_schedule_id a) (offered_at a) (acceptance_deadline a) (status a)
    (reserved a) (paid_amount a) (decided_at a) (reason_code a).
Definition decide_as (st : AwardStatus) (t : Z) (held : bool) (reason : Z) (a : Award) : Award :=
  mkAward (version a) (id a) (program_id a) (recipient a) (amount a) (currency a)
    (terms_version a) (terms_hash a) (milestone_schedule_id a) (offered_at a)
    (acceptance_deadline a) st held (paid_amount a) t reason.
Definition with_paid (n : Z) (a : Award) : Award :=
  mkAward (version a) (id a) (program_id a) (recipient a) (amount a) (currency a)
    (terms_version a) (terms_hash a) (milestone_schedule_id a) (offered_at a)
    (acceptance_deadline a) (status a) (reserved a) n (decided_at a) (reason_code a).

Definition is_legal_transition (from to : AwardStatus) : bool :=
  match from, to with
  | Offered, (Accepted | Declined | Expired | Cancelled) => true
  | Accepted, (Cancelled | Terminated) => true
  | _, _ => false
  end.

Definition advance_award_version (award : Award) (expected_version : Z) :
    result ContractError Award :=
  if negb (version award =? expected_version) then Err VersionConflict
  else let? v := option_ok_or (checked_add_u32 (version award) 1) VersionOverflow in
       Ok (with_version v award).

Section Contract.
Context {L : Type}.
Abbreviation M := (Contract L Store Event ContractError).

Definition initialize (adm : Address) : M unit :=
  o <- load admin ;;
  reject_if (bool_decide (is_Some o)) AlreadyInitialized ;;;
  require_auth adm ;;;
  save (put_admin adm).

Definition require_admin (caller : Address) : M unit :=
  require_admin_of admin NotInitialized NotAdmin caller.

Definition load_award (award_id : BytesN32) : M Award :=
  o <- load (λ s, awards s !! award_id) ;;
  ok_or o AwardNotFound.

Definition reserve (program_id : BytesN32) : M unit :=
  current <- load (get_reservation program_id) ;;
  next <- ok_or (checked_add_u32 current 1) NoReservation ;;
  save (put_reservation program_id next).

Definition release (program_id : BytesN32) : M unit :=
  current <- load (get_reservation program_id) ;;
  next <- ok_or (checked_sub_u32 current 1) NoReservation ;;
  save (put_reservation program_id next).

Definition create_award (adm : Address) (award_id program_id : BytesN32) (recipient : Address)
    (amount : Z) (currency : Symbol) (terms_version : Z) (terms_hash : BytesN32)
    (acceptance_deadline : Z) (milestone_schedule_id : option BytesN32) : M unit :=
  require_admin adm ;;;
  reject_if (amount <=? 0) InvalidAmount ;;;
  t <- now ;;
  reject_if (acceptance_deadline <=? t) InvalidDeadline ;;;
  o <- load (λ s, awards s !! award_id) ;;
  reject_if (bool_decide (is_Some o)) AwardAlreadyExists ;;;
  conflict <- load (has_active_award recipient program_id) ;;
  reject_if conflict ConflictingAward ;;;
  save (put_award (mkAward 1 award_id program_id recipient amount currency terms_version
    terms_hash milestone_schedule_id t acceptance_deadline Offered true 0 0 0)) ;;;
  save (put_active recipient program_id award_id) ;;;
  reserve program_id ;;;
  publish (AWCRT award_id recipient amount).

Definition get_award (award_id : BytesN32) : M Award := load_award award_id.

Definition is_acceptance_expired (award_id : BytesN32) : M bool :=
  award <- load_award award_id ;;
  t <- now ;;
  ret (bool_decide (status award = Offered) && (acceptance_deadline award <? t)).

Definition accept_award (caller : Address) (award_id : BytesN32) (expected_version : Z)
    (declarations_hash : BytesN32) : M unit :=
  require_auth caller ;;;
  award <- load_award award_id ;;
  reject_if (negb (bool_decide (recipient award = caller))) NotRecipient ;;;
  award <- lift (advance_award_version award expected_version) ;;
  reject_if (negb (bool_decide (status award = Offered))) OfferNotActive ;;;
  t <- now ;;
  reject_if (acceptance_deadline award <? t) OfferExpired ;;;
  reject_if (negb (is_legal_transition (status award) Accepted)) InvalidTransition ;;;
  save (put_acceptance award_id (mkAcceptance award_id (terms_version award)
    (terms_hash award) caller t declarations_hash)) ;;;
  save (put_award (decide_as Accepted t (reserved award) (reason_code award) award)) ;;;
  publish (AWACC award_id caller t).

Definition get_acceptance (award_id : BytesN32) : M AgreementAcceptance :=
  o <- load (λ s, acceptances s !! award_id) ;;
  ok_or o AcceptanceNotFound.

Definition can_disburse (award_id : BytesN32) : M bool :=
  award <- load_award award_id ;;
  ret (bool_decide (status award = Accepted) && (paid_amount award <? amount award)).

Definition decline_award (caller : Address) (award_id : BytesN32) (expected_version : Z) :
    M unit :=
  require_auth caller ;;;
  award <- load_award award_id ;;
  reject_if (negb (bool_decide (recipient award = caller))) NotRecipient ;;;
  award <- lift (advance_award_version award expected_version) ;;
  reject_if (negb (is_legal_transition (status award) Declined)) InvalidTransition ;;;
  t <- now ;;
  save (put_award (decide_as Declined t false (reason_code award) award)) ;;;
  release (program_id award) ;;;
  save (clear_active_award (recipient award) (program_id award)) ;;;
  publish (AWDEC award_id caller).

Definition expire_award (award_id : BytesN32) (expected_version : Z) : M unit :=
  award <- load_award award_id ;;
  award <- lift (advance_award_version award expected_version) ;;
  reject_if (negb (bool_decide (status award = Offered))) InvalidTransition ;;;
  t <- now ;;
  reject_if (t <=? acceptance_deadline award) OfferNotExpired ;;;
  save (put_award (decide_as Expired t false (reason_code award) award)) ;;;
  release (program_id award) ;;;
  save (clear_active_award (recipient award) (program_id award)) ;;;
  publish (AWEXP award_id (recipient award)).

Definition cancel_award (adm : Address) (award_id : BytesN32) (expected_version reason : Z) :
    M unit :=
  require_admin adm ;;;
  award <- load_award award_id ;;
  award <- lift (advance_award_version award expected_version) ;;
  reject_if (0 <? paid_amount award) PaymentAlreadyMade ;;;
  reject_if (negb (is_legal_transition (status award) Cancelled)) InvalidTransition ;;;
  t <- now ;;
  save (put_award (decide_as Cancelled t false reason award)) ;;;
  release (program_id award) ;;;
  save (clear_active_award (recipient award) (program_id award)) ;;;
  publish (AWCAN award_id (recipient award) reason).

Definition terminate_award (adm : Address) (award_id : BytesN32)
    (expected_version reason recovery_amount : Z) : M unit :=
  require_admin adm ;;;
  award <- load_award award_id ;;
  award <- lift (advance_award_version award expected_version) ;;
  reject_if (paid_amount award =? 0) NoPaymentMade ;;;
  reject_if ((recovery_amount <? 0) || (paid_amount award <? recovery_amount))
    RecoveryExceedsPaid ;;;
  reject_if (negb (is_legal_transition (status award) Terminated)) InvalidTransition ;;;
  t <- now ;;
  save (put_award (decide_as Terminated t false reason award)) ;;;
  save (put_recovery award_id recovery_amount) ;;;
  release (program_id award) ;;;
  save (clear_active_award (recipient award) (program_id award)) ;;;
  publish (AWTRM award_id (recipient award) recovery_amount).

Definition record_disbursement (adm : Address) (award_id : BytesN32)
    (expected_version amt : Z) : M unit :=
  require_admin adm ;;;
  reject_if (amt <=? 0) InvalidAmount ;;;
  award <- load_award award_id ;;
  award <- lift (advance_award_version award expected_version) ;;
  reject_if (negb (bool_decide (status award = Accepted))) AwardNotDisburseable ;;;
  new_paid <- ok_or (checked_add_i128 (paid_amount award) amt) DisbursementExceedsAward ;;
  reject_if (amount award <? new_paid) DisbursementExceedsAward ;;;
  save (put_award (with_paid new_paid award)) ;;;
  publish (AWDIS award_id amt new_paid).

Inductive Call :=
| CInitialize (adm : Address)
| CCreate (adm : Address) (award_id program_id : BytesN32) (recipient : Address)
    (amount : Z) (currency : Symbol) (terms_version : Z) (terms_hash : BytesN32)
    (acceptance_deadline : Z) (milestone_schedule_id : option BytesN32)
| CAccept (caller : Address) (award_id : BytesN32) (expected : Z) (declarations : BytesN32)
| CDecline (caller : Address) (award_id : BytesN32) (expected : Z)
| CExpire (award_id : BytesN32) (expected : Z)
| CCancel (adm : Address) (award_id : BytesN32) (expected reason : Z)
| CTerminate (adm : Address) (award_id : BytesN32) (expected reason recovery : Z)
| CRecord (adm : Address) (award_id : BytesN32) (expected amt : Z).

Definition exec (c : Call) : M unit :=
  match c with
  | CInitialize a => initialize a
  | CCreate a i p r n cu tv th d ms => create_award a i p r n cu tv th d ms
  | CAccept a i v h => accept_award a i v h
  | CDecline a i v => decline_award a i v
  | CExpire i v => expire_award i v
  | CCancel a i v r => cancel_award a i v r
  | CTerminate a i v r n => terminate_award a i v r n
  | CRecord a i v n => record_disbursement a i v n
  end.

Definition valid (e : Env) (c : Call) : Prop :=
  match c with CCreate _ _ _ _ n _ _ _ _ _ => i128 n = true | _ => True end.
End Contract.

(** ** The invariant *)

(** The states that hold a reservation. *)
Definition is_open (st : AwardStatus) : bool :=
  match st with Offered | Accepted => true | _ => false end.

(** The recipient accepted exactly the terms of the award, in time. *)
Definition signed (s : Store) (a : Award) : Prop :=
  ∃ acc, acceptances s !! id a = Some acc ∧ acc_award_id acc = id a ∧
    acc_terms_version acc = terms_version a ∧ acc_terms_hash acc = terms_hash a ∧
    signer acc = recipient a ∧ accepted_at acc ≤ acceptance_deadline a.

Record award_ok (s : Store) (i : BytesN32) (a : Award) : Prop := {
  aw_key : id a = i;
  aw_version : 1 ≤ version a;
  aw_amount : 0 < amount a ≤ i128_max;
  aw_paid : 0 ≤ paid_amount a ≤ amount a;
  aw_reserved : reserved a = is_open (status a);
  aw_status : match status a with
    | Offered | Declined | Expired => paid_amount a = 0 ∧ acceptances s !! i = None
    | Accepted => signed s a
    | Cancelled => paid_amount a = 0
    | Terminated => 0 < paid_amount a ∧ signed s a ∧ 0 ≤ get_recovery i s ≤ paid_amount a
    end }.

(** How many awards of a program hold a reservation. *)
Definition reserved_in (p : BytesN32) (m : gmap Z Award) : Z :=
  map_sum (λ _ a, if reserved a && (program_id a =? p) then 1 else 0) m.

Record inv (s : Store) : Prop := {
  inv_awards i a : awards s !! i = Some a → award_ok s i a;
  inv_active r p i : active s !! (r, p) = Some i ↔
    ∃ a, awards s !! i = Some a ∧ recipient a = r ∧ program_id a = p ∧ reserved a = true;
  inv_reservations p : get_reservation p s = reserved_in p (awards s);
  inv_fits p : get_reservation p s ≤ u32_max;
  inv_unsigned i : awards s !! i = None → acceptances s !! i = None }.

Lemma signed_ext s s' a :
  acceptances s' !! id a = acceptances s !! id a → signed s a → signed s' a.
Proof. unfold signed. by intros ->. Qed.

Lemma award_ok_ext s s' i a :
  acceptances s' !! i = acceptances s !! i → recoveries s' !! i = recoveries s !! i →
  award_ok s i a → award_ok s' i a.
Proof.
  intros Ha Hr [H1 H2 H3 H4 H5 H6]. split; try done. subst i.
  pose proof (signed_ext s s' a Ha). unfold get_recovery in *.
  destruct (status a); rewrite ?Ha, ?Hr; naive_solver.
Qed.

Lemma reserved_in_insert p m i a a' :
  m !! i = Some a → program_id a' = program_id a →
  reserved_in p (<[i := a']> m) = reserved_in p m +
    (if program_id a =? p then Z.b2z (reserved a') - Z.b2z (reserved a) else 0).
Proof.
  intros Ha Hp. unfold reserved_in. rewrite map_sum_insert. unfold at_key. rewrite Ha, Hp.
  destruct (program_id a =? p), (reserved a), (reserved a'); simpl; lia.
Qed.

Lemma reserved_in_pos m i a :
  m !! i = Some a → reserved a = true → 1 ≤ reserved_in (program_id a) m.
Proof.
  intros Ha Hr. unfold reserved_in.
  pose proof (at_key_le_map_sum (λ _ x, if reserved x && (program_id x =? program_id a) then 1 else 0)
    m i) as Hk. unfold at_key in Hk. rewrite Ha, Hr, Z.eqb_refl in Hk. apply Hk.
  intros j x _. by destruct (reserved x && (program_id x =? program_id a)).
Qed.

(** Replacing an award; [held] tells whether it keeps its reservation and pointer. *)
Lemma inv_replace (s s' : Store) i a a' (held : bool) :
  inv s → awards s !! i = Some a → reserved a = true → reserved a' = held →
  recipient a' = recipient a → program_id a' = program_id a → award_ok s' i a' →
  awards s' = <[i := a']> (awards s) →
  active s' = (if held then active s else delete (recipient a, program_id a) (active s)) →
  (∀ p, get_reservation p s' = get_reservation p s -
        (if held then 0 else if program_id a =? p then 1 else 0)) →
  (∀ j, j ≠ i → acceptances s' !! j = acceptances s !! j ∧
                recoveries s' !! j = recoveries s !! j) →
  inv s'.
Proof.
  intros [H1 H2 H3 H4 H5] Ha Hr Hheld Hrec Hprog Hok Haw Hact Hres Hother.
  split; rewrite ?Haw.
  - intros j x. rewrite lookup_insert. case_decide as Hij; [by intros [= <-]; subst|].
    intros Hx. destruct (Hother j) as [E1 E2]; [done|]. by eapply award_ok_ext, H1.
  - intros r p j. transitivity (∃ x, awards s !! j = Some x ∧ recipient x = r ∧
      program_id x = p ∧ reserved x = true ∧ (j = i → held = true)).
    + rewrite Hact. destruct held.
      * rewrite H2. naive_solver.
      * rewrite lookup_delete_Some, H2. split; [|].
        -- intros (Hne & x & Hx & <- & <- & Hrx). exists x. split_and!; try done.
           intros ->. rewrite Ha in Hx. injection Hx as <-. done.
        -- intros (x & Hx & <- & <- & Hrx & Hji). split; [|by exists x].
           intros [= E1 E2].
           assert (Hact1 : active s !! (recipient a, program_id a) = Some i) by (apply H2; by exists a).
           assert (Hact2 : active s !! (recipient x, program_id x) = Some j) by (apply H2; by exists x).
           rewrite <-E1, <-E2 in Hact2. assert (j = i) by congruence. by apply Hji in H.
    + split.
      * intros (x & Hx & Hxr & Hxp & Hrx & Hji). destruct (decide (j = i)) as [->|Hne].
        -- exists a'. rewrite lookup_insert_eq. simplify_eq. rewrite Hrec, Hprog.
           split_and!; try done. by apply Hji.
        -- exists x. by rewrite lookup_insert_ne.
      * intros (x & Hx & Hxr & Hxp & Hrx). destruct (decide (j = i)) as [->|Hne].
        -- rewrite lookup_insert_eq in Hx. simplify_eq. exists a.
           by split_and!.
        -- rewrite lookup_insert_ne in Hx by done. exists x. naive_solver.
  - intros p. rewrite Hres, H3, (reserved_in_insert _ _ _ a) by done. rewrite Hr, Hheld.
    destruct held, (program_id a =? p); simpl; lia.
  - intros p. rewrite Hres. specialize (H4 p). destruct held; [lia|].
    destruct (program_id a =? p); lia.
  - intros j. rewrite lookup_insert. case_decide; [done|]. intros Hj.
    destruct (Hother j) as [E1 _]; [done|]. rewrite E1. by apply H5.
Qed.

Lemma advance_done a v a' :
  advance_award_version a v = Ok a' →
  version a = v ∧ v + 1 ≤ u32_max ∧ a' = with_version (v + 1) a.
Proof.
  unfold advance_award_version. destruct (negb _) eqn:Hv; [done|]. bool_prop. subst v.
  intros (x & Hx & [= <-])%result_bind_Ok. apply option_ok_or_Ok in Hx. checked_prop.
  split_and!; [done|lia|done].
Qed.

Section Invariant.
Context {L : Type}.
Abbreviation W := (World L Store Event).

Lemma release_done p e (w w' : W) u :
  release p e w = Done w' u →
  w' = mkWorld (ledger w) (put_reservation p (get_reservation p (store w) - 1) (store w)) (log w).
Proof. unfold release. intros Hrun. run_inv. checked_prop. done. Qed.

Lemma reserve_done p e (w w' : W) u :
  reserve p e w = Done w' u →
  get_reservation p (store w) + 1 ≤ u32_max ∧
  w' = mkWorld (ledger w) (put_reservation p (get_reservation p (store w) + 1) (store w)) (log w).
Proof. unfold reserve. intros Hrun. run_inv. checked_prop. split; [lia|done]. Qed.

Lemma get_reservation_put p n q s :
  get_reservation q (put_reservation p n s) = if q =? p then n else get_reservation q s.
Proof.
  unfold get_reservation. simpl. destruct (Z.eqb_spec q p); subst;
    [by rewrite lookup_insert_eq|by rewrite lookup_insert_ne].
Qed.

(** What a call may do to one award: nothing, or one new version of it that keeps the
    offer and either moves the status legally or records a payment. *)
Definition same_offer (a a' : Award) : Prop :=
  id a' = id a ∧ program_id a' = program_id a ∧ recipient a' = recipient a ∧
  amount a' = amount a ∧ currency a' = currency a ∧ terms_version a' = terms_version a ∧
  terms_hash a' = terms_hash a ∧ milestone_schedule_id a' = milestone_schedule_id a ∧
  offered_at a' = offered_at a ∧ acceptance_deadline a' = acceptance_deadline a.
Definition evolves (a a' : Award) : Prop :=
  a' = a ∨
  (same_offer a a' ∧ version a' = version a + 1 ∧
   ((is_legal_transition (status a) (status a') = true ∧ paid_amount a' = paid_amount a) ∨
    (status a = Accepted ∧ status a' = Accepted ∧ paid_amount a < paid_amount a'))).

Definition known (s s' : Store) : Prop :=
  ∀ i a, awards s !! i = Some a → ∃ a', awards s' !! i = Some a' ∧ evolves a a'.

Lemma known_replace s s' i a a' :
  awards s !! i = Some a → awards s' = <[i := a']> (awards s) → evolves a a' → known s s'.
Proof.
  intros Ha Hs Hev j x Hx. rewrite Hs, lookup_insert. case_decide; subst.
  - simplify_eq. by exists a'.
  - exists x. split; [done|by left].
Qed.
End Invariant.

(** Name the award a call reads and the version it moves to. *)
Ltac award_inv :=
  run_inv; simpl in *;
  repeat match goal with
  | H : advance_award_version _ _ = Ok _ |- _ =>
      apply advance_done in H; destruct H as (<- & ? & ->)
  | H : release _ _ _ = Done _ _ |- _ => apply release_done in H as ->
  end; bool_prop; simpl in *;
  match goal with H : awards _ !! _ = Some ?x |- _ => rename x into a, H into Ha end.

Section Steps.
Context {L : Type}.
Abbreviation W := (World L Store Event).
Abbreviation preserved w w' := (inv (store w') ∧ known (store w) (store w')).

Lemma create_ok adm i p r n cu tv th d ms e (w w' : W) u :
  i128 n = true → inv (store w) →
  create_award adm i p r n cu tv th d ms e w = Done w' u → preserved w w'.
Proof.
  intros Hn [H1 H2 H3 H4 H5] Hrun. unfold create_award, require_admin in Hrun.
  run_inv. simpl in *. bool_prop. checked_prop.
  match goal with H : reserve _ _ _ = _ |- _ => apply reserve_done in H as [Hmax ->] end.
  match goal with H : ¬ is_Some _ |- _ => apply eq_None_not_Some in H as Hnone end.
  match goal with H : has_active_award _ _ _ = false |- _ => rename H into Hnoact end.
  unfold has_active_award in Hnoact. bool_prop. apply eq_None_not_Some in Hnoact. simpl in *.
  set (a := mkAward _ _ _ _ _ _ _ _ _ _ _ _ _ _ _ _).
  change (get_reservation p _) with (get_reservation p (store w)) in *.
  split; [split|]; simpl.
  - intros j x. rewrite lookup_insert. case_decide; [|intros Hx; by eapply award_ok_ext, H1].
    intros [= <-]. subst j. split; simpl; try done; [lia|lia|]. split; [done|]. by apply H5.
  - intros r' p' j. rewrite lookup_insert. case_decide as Hk.
    + injection Hk as <- <-. split.
      * intros [= <-]. exists a. by rewrite lookup_insert_eq.
      * intros (x & Hx & Hxr & Hxp & Hrx). destruct (decide (j = i)) as [->|Hne]; [done|].
        rewrite lookup_insert_ne in Hx by done. exfalso.
        assert (active (store w) !! (r, p) = Some j) by (apply H2; by exists x). congruence.
    + rewrite H2. split; intros (x & Hx & Hxr & Hxp & Hrx).
      * exists x. rewrite lookup_insert_ne by congruence. done.
      * destruct (decide (j = i)) as [->|Hne].
        -- by rewrite lookup_insert_eq in Hx; simplify_eq.
        -- rewrite lookup_insert_ne in Hx by done. by exists x.
  - intros q. change (get_reservation q _) with
      (get_reservation q (put_reservation p (get_reservation p (store w) + 1) (store w))).
    rewrite get_reservation_put. unfold reserved_in. rewrite map_sum_insert_new by done.
    specialize (H3 q) as H3q. unfold reserved_in in H3q. simpl. rewrite (Z.eqb_sym p q).
    destruct (Z.eqb_spec q p); [subst|]; lia.
  - intros q. change (get_reservation q _) with
      (get_reservation q (put_reservation p (get_reservation p (store w) + 1) (store w))).
    rewrite get_reservation_put. specialize (H4 q). destruct (q =? p); lia.
  - intros j. rewrite lookup_insert. case_decide; [done|apply H5].
  - intros j x Hx. exists x. simpl. rewrite lookup_insert_ne by congruence.
    split; [done|by left].
Qed.

(** A call that rewrote award [i] from [a] to [a']. *)
Lemma replace_ok (s s' : Store) i a a' held :
  inv s → awards s !! i = Some a → reserved a = true → reserved a' = held →
  same_offer a a' → version a' = version a + 1 →
  (is_legal_transition (status a) (status a') = true ∧ paid_amount a' = paid_amount a ∨
   status a = Accepted ∧ status a' = Accepted ∧ paid_amount a < paid_amount a') →
  award_ok s' i a' →
  awards s' = <[i := a']> (awards s) →
  active s' = (if held : bool then active s
                       else delete (recipient a, program_id a) (active s)) →
  (∀ p, get_reservation p s' = get_reservation p s -
        (if held then 0 else if program_id a =? p then 1 else 0)) →
  (∀ j, j ≠ i → acceptances s' !! j = acceptances s !! j ∧
                recoveries s' !! j = recoveries s !! j) →
  inv s' ∧ known s s'.
Proof.
  intros Hi Ha Hr Hh Hsame Hver Hch Hok Hs Hact Hres Hother.
  pose proof Hsame as (? & ? & ? & _). split; [by eapply inv_replace|].
  eapply known_replace; [done|done|]. right. by split_and!.
Qed.

Lemma open_reserved (s : Store) i a :
  inv s → awards s !! i = Some a → is_open (status a) = true →
  id a = i ∧ reserved a = true.
Proof.
  intros Hi Ha Hst. destruct (inv_awards _ Hi _ _ Ha) as [H1 _ _ _ H5 _]. split; congruence.
Qed.

Lemma put_reservation_drop p n s :
  get_reservation p (put_reservation n (get_reservation n s - 1) s) =
    get_reservation p s - (if n =? p then 1 else 0).
Proof.
  unfold get_reservation. simpl. rewrite lookup_insert.
  destruct (Z.eqb_spec n p); case_decide; subst; done || (simpl; lia).
Qed.

Lemma accept_ok c i v h e (w w' : W) u :
  inv (store w) → accept_award c i v h e w = Done w' u → preserved w w'.
Proof.
  intros Hi Hrun. unfold accept_award, load_award in Hrun. award_inv.
  match goal with H : status a = Offered |- _ => rename H into Hst end.
  destruct (open_reserved _ _ _ Hi Ha) as [Hid Hr]; [by rewrite Hst|].
  destruct (inv_awards _ Hi _ _ Ha) as [H1 H2 H3 H4 H5 H6]. rewrite Hst in H6.
  eapply (replace_ok (store w) _ i a (decide_as Accepted (timestamp e) (reserved a)
    (reason_code a) (with_version (version a + 1) a)) true); simpl; try done; try (by subst i).
  - left. by rewrite Hst.
  - split; simpl; try done; [lia|].
    exists (mkAcceptance i (terms_version a) (terms_hash a) c (timestamp e) h).
    simpl. rewrite Hid, lookup_insert_eq. by split_and!.
  - intros p. by rewrite Z.sub_0_r.
  - intros j Hj. by rewrite lookup_insert_ne.
Qed.

Lemma record_ok adm i v n e (w w' : W) u :
  inv (store w) → record_disbursement adm i v n e w = Done w' u → preserved w w'.
Proof.
  intros Hi Hrun. unfold record_disbursement, load_award, require_admin in Hrun.
  award_inv. checked_prop.
  match goal with H : status a = Accepted |- _ => rename H into Hst end.
  destruct (open_reserved _ _ _ Hi Ha) as [Hid Hr]; [by rewrite Hst|].
  destruct (inv_awards _ Hi _ _ Ha) as [H1 H2 H3 H4 H5 H6]. rewrite Hst in H6.
  eapply (replace_ok (store w) _ i a (with_paid (paid_amount a + n)
    (with_version (version a + 1) a)) true); simpl; try done; try (by subst i).
  - right. split_and!; [done|done|lia].
  - split; simpl; try done; [lia|lia|]. rewrite Hst. exact H6.
  - intros p. by rewrite Z.sub_0_r.
Qed.

(** The calls that close an award share all but the closing status. *)
Lemma close_ok (s s' : Store) i a st t reason :
  inv s → awards s !! i = Some a → is_legal_transition (status a) st = true →
  is_open st = false →
  (let a' := decide_as st t false reason (with_version (version a + 1) a) in
   award_ok s' i a' ∧ awards s' = <[id a := a']> (awards s)) →
  active s' = delete (recipient a, program_id a) (active s) →
  reservations s' = reservations (put_reservation (program_id a)
    (get_reservation (program_id a) s - 1) s) →
  (∀ j, j ≠ i → acceptances s' !! j = acceptances s !! j ∧
                recoveries s' !! j = recoveries s !! j) →
  inv s' ∧ known s s'.
Proof.
  intros Hi Ha Hleg Hst [Hok Hs] Hact Hres Hother.
  destruct (open_reserved _ _ _ Hi Ha) as [Hid Hr]; [by destruct (status a), st|].
  rewrite Hid in Hs.
  eapply (replace_ok s s' i a _ false); [done|done|done| | | | |exact Hok|exact Hs|..]; try done.
  - by left.
  - intros p. rewrite <-put_reservation_drop. unfold get_reservation at 1. by rewrite Hres.
Qed.

Lemma decline_ok c i v e (w w' : W) u :
  inv (store w) → decline_award c i v e w = Done w' u → preserved w w'.
Proof.
  intros Hi Hrun. unfold decline_award, load_award in Hrun. award_inv.
  destruct (inv_awards _ Hi _ _ Ha) as [H1 H2 H3 H4 H5 H6].
  eapply (close_ok (store w) _ i a Declined); try done. split; [|done].
  split; simpl; try done; [lia|]. by destruct (status a).
Qed.

Lemma expire_ok i v e (w w' : W) u :
  inv (store w) → expire_award i v e w = Done w' u → preserved w w'.
Proof.
  intros Hi Hrun. unfold expire_award, load_award in Hrun. award_inv.
  match goal with H : status a = Offered |- _ => rename H into Hst end.
  destruct (inv_awards _ Hi _ _ Ha) as [H1 H2 H3 H4 H5 H6]. rewrite Hst in H6.
  eapply (close_ok (store w) _ i a Expired); try done; [by rewrite Hst|]. split; [|done].
  split; simpl; try done; lia.
Qed.

Lemma cancel_ok adm i v r e (w w' : W) u :
  inv (store w) → cancel_award adm i v r e w = Done w' u → preserved w w'.
Proof.
  intros Hi Hrun. unfold cancel_award, load_award, require_admin in Hrun. award_inv.
  destruct (inv_awards _ Hi _ _ Ha) as [K1 K2 K3 K4 K5 K6].
  eapply (close_ok (store w) _ i a Cancelled); try done. split; [|done].
  split; simpl; try done; lia.
Qed.

Lemma terminate_ok adm i v r n e (w w' : W) u :
  inv (store w) → terminate_award adm i v r n e w = Done w' u → preserved w w'.
Proof.
  intros Hi Hrun. unfold terminate_award, load_award, require_admin in Hrun. award_inv.
  destruct (inv_awards _ Hi _ _ Ha) as [K1 K2 K3 K4 K5 K6].
  match goal with H : is_legal_transition _ _ = true |- _ => rename H into Hleg end.
  assert (Hst : status a = Accepted) by (by destruct (status a)). rewrite Hst in K6.
  eapply (close_ok (store w) _ i a Terminated); try done.
  - split; [|done]. split; simpl; try done; [lia|]. split_and!; [lia|by subst i| |];
      unfold get_recovery; simpl; rewrite lookup_insert_eq; simpl; lia.
  - intros j Hj. simpl. by rewrite lookup_insert_ne.
Qed.

Lemma awards_exec_ok c e (w w' : W) u :
  valid e c → inv (store w) → exec c e w = Done w' u → preserved w w'.
Proof.
  intros Hv Hi Hrun. destruct c; simpl in Hrun.
  - unfold initialize in Hrun. run_inv. destruct Hi as [H1 H2 H3 H4 H5].
    split; [split; try done; intros i a Ha; by eapply award_ok_ext, H1|].
    intros i a Ha. exists a. split; [done|by left].
  - by eapply create_ok.
  - by eapply accept_ok.
  - by eapply decline_ok.
  - by eapply expire_ok.
  - by eapply cancel_ok.
  - by eapply terminate_ok.
  - by eapply record_ok.
Qed.

Definition deployed (w : W) : Prop := store w = mkStore None ∅ ∅ ∅ ∅ ∅.
Abbreviation Reach this := (reachable exec valid this (λ _ _, True) deployed).

Lemma awards_inv_reachable this w : Reach this w → inv (store w).
Proof.
  apply (reachable_inv _ _ _ _ _ (λ w, inv (store w))).
  - intros w0 ->. split; simpl; try done. intros r p i. split; [done|].
    by intros (a & Ha & _).
  - intros c e w0 w1 u _ Hv Hi Hrun. by eapply awards_exec_ok.
  - done.
Qed.

(** ** Properties *)

(** Payment discipline.  In every reachable world an award's recorded payments lie
    between zero and its amount; payments exist only on accepted and terminated awards,
    which carry the recipient's acceptance of exactly the offered terms, made no later than
    the deadline; open offers, declined and expired awards have neither payment nor
    acceptance; the recovery of a terminated award is at most what was paid. *)
Theorem award_payments this w i a :
  Reach this w → awards (store w) !! i = Some a →
  0 ≤ paid_amount a ≤ amount a ∧
  (0 < paid_amount a → status a = Accepted ∨ status a = Terminated) ∧
  (status a = Accepted ∨ status a = Terminated → signed (store w) a) ∧
  (status a = Offered ∨ status a = Declined ∨ status a = Expired →
     acceptances (store w) !! i = None) ∧
  (status a = Terminated → 0 ≤ get_recovery i (store w) ≤ paid_amount a).
Proof.
  intros Hi%awards_inv_reachable Ha. destruct (inv_awards _ Hi _ _ Ha) as [H1 H2 H3 H4 H5 H6].
  split; [done|]. destruct (status a); naive_solver lia.
Qed.

(** C15: Reservations and uniqueness.  In every reachable world the reservation count of a
    program is the number of its awards that hold a reservation, which are the offered and
    accepted ones; no two of them have the same recipient and program, and
    [has_active_award] tells exactly whether there is one. *)
Theorem reservations_exact this w :
  Reach this w →
  (∀ p, get_reservation p (store w) = reserved_in p (awards (store w))) ∧
  (∀ i a, awards (store w) !! i = Some a → reserved a = is_open (status a)) ∧
  (∀ i j a b, awards (store w) !! i = Some a → awards (store w) !! j = Some b →
     is_open (status a) = true → is_open (status b) = true →
     recipient a = recipient b → program_id a = program_id b → i = j) ∧
  (∀ r p, has_active_award r p (store w) = true ↔
     ∃ i a, awards (store w) !! i = Some a ∧ recipient a = r ∧ program_id a = p ∧
            is_open (status a) = true).
Proof.
  intros Hi%awards_inv_reachable. pose proof (inv_active _ Hi) as Hact.
  assert (Hres : ∀ i a, awards (store w) !! i = Some a → reserved a = is_open (status a)).
  { intros i a Ha. apply (inv_awards _ Hi _ _ Ha). }
  split; [apply (inv_reservations _ Hi)|]. split; [done|]. split.
  - intros i j a b Ha Hb Hoa Hob Hr Hp. rewrite <-(Hres i), <-(Hres j) in * by done.
    assert (active (store w) !! (recipient a, program_id a) = Some i) by (apply Hact; by exists a).
    assert (active (store w) !! (recipient a, program_id a) = Some j)
      by (apply Hact; exists b; by rewrite Hr, Hp). congruence.
  - intros r p. unfold has_active_award. rewrite bool_decide_eq_true. split.
    + intros [i Hx]. apply Hact in Hx as (a & Ha & Hr & Hp & Hra).
      exists i, a. by rewrite <-(Hres i).
    + intros (i & a & Ha & Hr & Hp & Ho). exists i. apply Hact. exists a.
      by rewrite (Hres i a Ha).
Qed.

(** Lifecycle.  From every reachable world any call leaves each award as it is or
    gives it exactly the next version, keeping the offer (recipient, program, amount,
    terms, deadline) and either moving its status along [is_legal_transition] with the
    payments unchanged or recording a payment on an accepted award. *)
Theorem award_lifecycle this w c e i a :
  Reach this w → valid e c → awards (store w) !! i = Some a →
  ∃ a', awards (store (invoke (exec c) e w).1) !! i = Some a' ∧ evolves a a'.
Proof.
  intros Hi%awards_inv_reachable Hv Ha. unfold invoke.
  destruct (exec c e w) eqn:Hx; simpl; try (exists a; split; [done|by left]).
  destruct (awards_exec_ok _ _ _ _ _ Hv Hi Hx) as [_ Hk]. by apply Hk.
Qed.

(** The award a call changes and the version it expects. *)
Definition target (c : Call) : option (BytesN32 * Z) :=
  match c with
  | CInitialize _ | CCreate _ _ _ _ _ _ _ _ _ _ => None
  | CAccept _ i v _ | CDecline _ i v | CExpire i v | CCancel _ i v _
  | CTerminate _ i v _ _ | CRecord _ i v _ => Some (i, v)
  end.

(** Stale versions are refused.  A call made with a version other than the award's
    current one never returns and changes nothing. *)
Theorem stale_version_refused (w : W) c e i v a :
  target c = Some (i, v) → awards (store w) !! i = Some a → version a ≠ v →
  (invoke (exec c) e w).1 = w ∧ (invoke (exec c) e w).2 ≠ Returned tt.
Proof.
  intros Ht Ha Hv. unfold invoke. destruct (exec c e w) as [w' u| |] eqn:Hx; try done.
  exfalso. apply Hv. destruct c; simplify_eq/=;
    unfold accept_award, decline_award, expire_award, cancel_award, terminate_award,
      record_disbursement, load_award, require_admin in Hx; run_inv; simplify_eq;
    match goal with H : advance_award_version _ _ = Ok _ |- _ => apply advance_done in H as [H _]; exact H end.
Qed.

(** Declining cannot be blocked.  In every reachable world the recipient of an open
    offer who signs and names its version declines it: the call returns, the award is
    declined, its reservation is released and the recipient may be offered another award
    of the program. *)
Theorem decline_succeeds this w e i a :
  Reach this w → awards (store w) !! i = Some a → status a = Offered →
  authorized e (recipient a) = true → version a < u32_max →
  ∃ w', invoke (decline_award (recipient a) i (version a)) e w = (w', Returned tt) ∧
    (∃ a', awards (store w') !! i = Some a' ∧ status a' = Declined) ∧
    get_reservation (program_id a) (store w') = get_reservation (program_id a) (store w) - 1 ∧
    has_active_award (recipient a) (program_id a) (store w') = false.
Proof.
  intros Hi%awards_inv_reachable Ha Hst Hauth Hver.
  destruct (inv_awards _ Hi _ _ Ha) as [H1 H2 H3 H4 H5 H6]. rewrite Hst in H5.
  pose proof (reserved_in_pos _ _ _ Ha H5) as Hpos.
  rewrite <-(inv_reservations _ Hi) in Hpos. pose proof (inv_fits _ Hi (program_id a)).
  assert (Hadv : advance_award_version a (version a) = Ok (with_version (version a + 1) a)).
  { unfold advance_award_version. rewrite Z.eqb_refl. simpl. unfold_ops.
    by rewrite checked_in by lia. }
  eexists. split; [apply invoke_run; unfold decline_award, load_award, release; run_fwd|].
  { simpl. rewrite Hst. run_fwd.
    match goal with |- context [get_reservation _ (store (mkWorld _ (put_award ?x _) _))] =>
      assert (get_reservation (program_id a) (put_award x (store w)) =
        get_reservation (program_id a) (store w)) by done end. run_fwd. }
  simpl. rewrite H1. split_and!.
  - eexists. rewrite lookup_insert_eq. done.
  - unfold get_reservation. simpl. by rewrite lookup_insert_eq.
  - unfold has_active_award. simpl. by rewrite lookup_delete_eq.
Qed.
End Steps.

(** ** Concrete runs *)
Module Runs.
Definition this : Address := addr 0.
Definition boss : Address := addr 1.
Definition ria : Address := addr 2.
Definition at_time (t : Z) (a : Address) : Env := mkEnv t this (λ b, bool_decide (a = b)).
Abbreviation W := (World unit Store Event).
Definition w0 : W := mkWorld tt (mkStore None ∅ ∅ ∅ ∅ ∅) [].
Definition setup : list (Env * Call) :=
  [(at_time 1 boss, CInitialize boss);
   (at_time 2 boss, CCreate boss 7 70 ria 1000 "USD" 3 33 100 None)].
Definition w1 : W := run_calls exec setup w0.
Definition w2 : W := run_calls exec (setup ++
  [(at_time 50 ria, CAccept ria 7 1 5); (at_time 60 boss, CRecord boss 7 2 400)]) w0.
Definition offer : Award :=
  mkAward 1 7 70 ria 1000 "USD" 3 33 None 2 100 Offered true 0 0 0.
Definition paid400 : Award :=
  mkAward 3 7 70 ria 1000 "USD" 3 33 None 2 100 Accepted true 400 50 0.

Ltac reach :=
  apply reachable_run; [apply reach_init; done|]; repeat constructor; vm_compute; reflexivity.
Abbreviation Reach := (reachable exec valid this (λ _ _, True) deployed).
Lemma awards_w1_reach : Reach w1.
Proof. reach. Qed.
Lemma awards_w2_reach : Reach w2.
Proof. reach. Qed.

Lemma award_payments_witness : 0 ≤ 400 ≤ 1000 ∧ signed (store w2) paid400.
Proof.
  destruct (award_payments this w2 7 paid400) as (Hp & _ & Hs & _);
    [apply awards_w2_reach|vm_compute; reflexivity|].
  split; [exact Hp|apply Hs; left; reflexivity].
Defined.

Lemma reservations_exact_witness :
  get_reservation 70 (store w2) = 1 ∧ reserved_in 70 (awards (store w2)) = 1.
Proof.
  destruct (reservations_exact this w2 awards_w2_reach) as [H _].
  rewrite <-H. split; vm_compute; reflexivity.
Defined.

Lemma award_lifecycle_witness :
  ∃ a, awards (store (invoke (exec (CTerminate boss 7 3 9 100)) (at_time 70 boss) w2).1) !! 7
    = Some a ∧ evolves paid400 a.
Proof.
  apply (award_lifecycle this w2 (CTerminate boss 7 3 9 100) (at_time 70 boss) 7);
    [apply awards_w2_reach|exact I|vm_compute; reflexivity].
Defined.

Lemma stale_version_refused_witness :
  (invoke (exec (CRecord boss 7 2 100)) (at_time 70 boss) w2).1 = w2.
Proof.
  apply (stale_version_refused w2 (CRecord boss 7 2 100) (at_time 70 boss) 7 2 paid400);
    [reflexivity|vm_compute; reflexivity|discriminate].
Defined.

Lemma decline_succeeds_witness :
  ∃ w' : W, invoke (decline_award ria 7 1) (at_time 20 ria) w1 = (w', Returned tt) ∧
    has_active_award ria 70 (store w') = false.
Proof.
  destruct (decline_succeeds this w1 (at_time 20 ria) 7 offer) as (w' & Hw & _ & _ & Hn);
    [apply awards_w1_reach|vm_compute; reflexivity|reflexivity|reflexivity|vm_compute; reflexivity|].
  exists w'. split; [exact Hw|exact Hn].
Defined.
End Runs.
