(* ===== verification/LibraryFines.v ===== *)
(** * Signed fine assessments ([contracts/library-fines/src/lib.rs])

    The institution signs an assessment off chain; anyone submits it; the contract
    checks the signature, expiry, nonce, grace period and caps and records the fine
    and the loan's debt, which the admin may waive.  The ed25519 crate and the host's
    [sha256] are parameters: [key_ok] is [VerifyingKey::from_bytes], [verify_strict]
    the verification under a key. *)
From S2P Require Import Prelude Machine Host.

Inductive FineError :=
| NotInitialized | AlreadyInitialized | Unauthorized | NotFound | InvalidSignature
| NonceAlreadyUsed | AssessmentExpired | CapExceeded | CumulativeCapExceeded
| GracePeriodActive | WaiverExceedsDebt | InvalidAmount | Overflow | PolicyNotFound.

Inductive FineStatus := Active | Waived | Settled.
#[export] Instance FineStatus_eq_dec : EqDecision FineStatus.
Proof. solve_decision. Defined.

Record FinePolicy := mkPolicy {
  per_assessment_cap : Z; cumulative_cap : Z; grace_period : Z }.

Record FineRecord := mkFine {
  loan_id : BytesN32;
  policy_id : BytesN32;
  rule_version : Z;
  amount : Z;
  accrued_at : Z;
  status : FineStatus }.

Inductive Event :=
| POL_SET (policy_id : BytesN32) (per_assessment_cap cumulative_cap grace_period : Z)
| FINE_NEW (fine_id loan_id policy_id : BytesN32) (amount : Z)
| FINE_WAV (fine_id : BytesN32) (waive_amount new_amount : Z).

Record Store := mkStore {
  admin : option Address;
  institution_pubkey : option BytesN32;
  fine_count : option Z;
  policies : gmap Z FinePolicy;
  fines : gmap Z FineRecord;
  nonces : gmap Z bool;
  debts : gmap Z Z }.

Definition put_roles (a : Address) (k : BytesN32) (s : Store) : Store :=
  mkStore (Some a) (Some k) (fine_count s) (policies s) (fines s) (nonces s) (debts s).
Definition put_pubkey (k : BytesN32) (s : Store) : Store :=
  mkStore (admin s) (Some k) (fine_count s) (policies s) (fines s) (nonces s) (debts s).
Definition put_count (n : Z) (s : Store) : Store :=
  mkStore (admin s) (institution_pubkey s) (Some n) (policies s) (fines s) (nonces s) (debts s).
Definition put_policy (i : BytesN32) (p : FinePolicy) (s : Store) : Store :=
  mkStore (admin s) (institution_pubkey s) (fine_count s) (<[i := p]> (policies s)) (fines s)
    (nonces s) (debts s).
Definition save_fine (i : BytesN32) (r : FineRecord) (s : Store) : Store :=
  mkStore (admin s) (institution_pubkey s) (fine_count s) (policies s) (<[i := r]> (fines s))
    (nonces s) (debts s).
Definition put_nonce (n : BytesN32) (s : Store) : Store :=
  mkStore (admin s) (institution_pubkey s) (fine_count s) (policies s) (fines s)
    (<[n := true]> (nonces s)) (debts s).
Definition set_loan_debt (l : BytesN32) (n : Z) (s : Store) : Store :=
  mkStore (admin s) (institution_pubkey s) (fine_count s) (policies s) (fines s) (nonces s)
    (<[l := n]> (debts s)).

Definition loan_debt (l : BytesN32) (s : Store) : Z := default 0 (debts s !! l).
Definition nonce_used (n : BytesN32) (s : Store) : bool := default false (nonces s !! n).

(** What an assessment commits to. *)
Record Assessment := mkAssessment {
  a_loan_id : BytesN32;
  a_policy_id : BytesN32;
  a_rule_version : Z;
  a_amount : Z;
  a_loan_start : Z;
  a_nonce : BytesN32;
  a_expiry : Z }.

Definition build_fine_payload (a : Assessment) : Bytes :=
  str_bytes "CHAINVERSE_FINE:" ++ to_array (a_loan_id a) ++ to_array (a_policy_id a) ++
  be_bytes 4 (a_rule_version a) ++ be_i128 (a_amount a) ++ be_bytes 8 (a_loan_start a) ++
  to_array (a_nonce a) ++ be_bytes 8 (a_expiry a).

Section Contract.
Context {L : Type}.
Context (sha256 : Bytes → BytesN32).
Context (key_ok : BytesN32 → bool) (verify_strict : BytesN32 → Bytes → Z → bool).
Abbreviation M := (Contract L Store Event FineError).

Definition require_admin (caller : Address) : M unit :=
  require_admin_of admin NotInitialized Unauthorized caller.

(** The hashed identifier: counter, ledger time, loan and nonce. *)
Definition fine_id (next t : Z) (loan nonce : BytesN32) : BytesN32 :=
  sha256 (be_bytes 8 next ++ be_bytes 8 t ++ to_array loan ++ to_array nonce).

Definition next_fine_id (loan nonce : BytesN32) : M BytesN32 :=
  n <- load (λ s, default 0 (fine_count s)) ;;
  next <- ok_or (checked_add_u64 n 1) Overflow ;;
  save (put_count next) ;;;
  t <- now ;;
  ret (fine_id next t loan nonce).

Definition initialize (adm : Address) (pubkey : BytesN32) : M unit :=
  o <- load admin ;;
  reject_if (bool_decide (is_Some o)) AlreadyInitialized ;;;
  require_auth adm ;;;
  save (put_roles adm pubkey).

Definition rotate_institution_key (caller : Address) (new_pubkey : BytesN32) : M unit :=
  require_admin caller ;;;
  save (put_pubkey new_pubkey).

Definition set_policy (caller : Address) (policy : BytesN32) (per cumulative grace : Z) :
    M unit :=
  require_admin caller ;;;
  reject_if ((per <=? 0) || (cumulative <=? 0)) InvalidAmount ;;;
  save (put_policy policy (mkPolicy per cumulative grace)) ;;;
  publish (POL_SET policy per cumulative grace).

Definition assess_fine (a : Assessment) (sig : Z) : M BytesN32 :=
  reject_if (a_amount a <=? 0) InvalidAmount ;;;
  o <- load institution_pubkey ;;
  pubkey <- ok_or o NotInitialized ;;
  let payload := build_fine_payload a in
  reject_if (negb (key_ok pubkey)) InvalidSignature ;;;
  (if (length payload =? 148)%nat then ret tt else trap) ;;;
  reject_if (negb (verify_strict pubkey payload sig)) InvalidSignature ;;;
  t <- now ;;
  reject_if (a_expiry a <=? t) AssessmentExpired ;;;
  already_used <- load (nonce_used (a_nonce a)) ;;
  reject_if already_used NonceAlreadyUsed ;;;
  save (put_nonce (a_nonce a)) ;;;
  o <- load (λ s, policies s !! a_policy_id a) ;;
  policy <- ok_or o PolicyNotFound ;;
  grace_end <- ok_or (checked_add_u64 (a_loan_start a) (grace_period policy)) Overflow ;;
  reject_if (t <? grace_end) GracePeriodActive ;;;
  reject_if (per_assessment_cap policy <? a_amount a) CapExceeded ;;;
  current_debt <- load (loan_debt (a_loan_id a)) ;;
  new_debt <- ok_or (checked_add_i128 current_debt (a_amount a)) Overflow ;;
  reject_if (cumulative_cap policy <? new_debt) CumulativeCapExceeded ;;;
  id <- next_fine_id (a_loan_id a) (a_nonce a) ;;
  save (save_fine id (mkFine (a_loan_id a) (a_policy_id a) (a_rule_version a) (a_amount a)
    t Active)) ;;;
  save (set_loan_debt (a_loan_id a) new_debt) ;;;
  publish (FINE_NEW id (a_loan_id a) (a_policy_id a) (a_amount a)) ;;;
  ret id.

Definition waive_fine (caller : Address) (id : BytesN32) (waive_amount : Z) : M unit :=
  require_admin caller ;;;
  reject_if (waive_amount <=? 0) InvalidAmount ;;;
  o <- load (λ s, fines s !! id) ;;
  record <- ok_or o NotFound ;;
  reject_if (amount record <? waive_amount) WaiverExceedsDebt ;;;
  new_amount <- ok_or (checked_sub_i128 (amount record) waive_amount) Overflow ;;
  current_debt <- load (loan_debt (loan_id record)) ;;
  new_debt <- ok_or (checked_sub_i128 current_debt waive_amount) Overflow ;;
  let st := if new_amount =? 0 then Waived else status record in
  save (save_fine id (mkFine (loan_id record) (policy_id record) (rule_version record)
    new_amount (accrued_at record) st)) ;;;
  save (set_loan_debt (loan_id record) new_debt) ;;;
  publish (FINE_WAV id waive_amount new_amount).

Definition get_fine (id : BytesN32) : M FineRecord :=
  o <- load (λ s, fines s !! id) ;;
  ok_or o NotFound.

Definition cumulative_debt (loan : BytesN32) : M Z := load (loan_debt loan).

Inductive Call :=
| CInitialize (adm : Address) (pubkey : BytesN32)
| CRotate (caller : Address) (new_pubkey : BytesN32)
| CSetPolicy (caller : Address) (policy : BytesN32) (per cumulative grace : Z)
| CAssess (a : Assessment) (sig : Z)
| CWaive (caller : Address) (id : BytesN32) (waive_amount : Z).

Definition exec (c : Call) : M unit :=
  match c with
  | CInitialize a k => initialize a k
  | CRotate a k => rotate_institution_key a k
  | CSetPolicy a p n m g => set_policy a p n m g
  | CAssess a s => ignore (assess_fine a s)
  | CWaive a i n => waive_fine a i n
  end.

(** The argument types of an assessment. *)
Definition assessment_typed (a : Assessment) : Prop :=
  bytes32 (a_loan_id a) = true ∧ bytes32 (a_policy_id a) = true ∧
  u32 (a_rule_version a) = true ∧ i128 (a_amount a) = true ∧ u64 (a_loan_start a) = true ∧
  bytes32 (a_nonce a) = true ∧ u64 (a_expiry a) = true.
Definition valid (e : Env) (c : Call) : Prop :=
  match c with
  | CAssess a _ => assessment_typed a
  | CSetPolicy _ _ n m g => i128 n = true ∧ i128 m = true ∧ u64 g = true
  | _ => True
  end.
End Contract.

(** ** The signed payload *)

Lemma payload_length a : length (build_fine_payload a) = 148%nat.
Proof.
  unfold build_fine_payload, to_array, be_i128. rewrite !length_app, !length_be_bytes. done.
Qed.

Lemma payload_inj a b :
  assessment_typed a → assessment_typed b →
  build_fine_payload a = build_fine_payload b → a = b.
Proof.
  unfold assessment_typed, bytes32. rewrite !in_range_iff.
  intros (A1 & A2 & A3 & A4 & A5 & A6 & A7) (B1 & B2 & B3 & B4 & B5 & B6 & B7) Heq.
  unfold build_fine_payload, to_array in Heq. apply app_inv_head in Heq.
  apply be_app_inj in Heq as [E1 Heq]; [|lia|lia].
  apply be_app_inj in Heq as [E2 Heq]; [|lia|lia].
  apply be_app_inj in Heq as [E3 Heq]; [|range_lia|range_lia].
  apply be_i128_app_inj in Heq as [E4 Heq]; [|done|done].
  apply be_app_inj in Heq as [E5 Heq]; [|range_lia|range_lia].
  apply be_app_inj in Heq as [E6 Heq]; [|lia|lia].
  apply be_bytes_inj in Heq; [|range_lia|range_lia].
  destruct a, b. simpl in *. congruence.
Qed.

(** ** The invariant *)
Section Invariant.
Context {L : Type}.
Context (sha256 : Bytes → BytesN32) (sha256_inj : collision_free sha256).
Context (key_ok : BytesN32 → bool) (verify_strict : BytesN32 → Bytes → Z → bool).
Abbreviation W := (World L Store Event).
Abbreviation exec := (exec sha256 key_ok verify_strict).
Abbreviation assess_fine := (assess_fine sha256 key_ok verify_strict).

Definition fine_ok (f : FineRecord) : Prop :=
  0 ≤ amount f ∧ status f = (if amount f =? 0 then Waived else Active).

(** What the fines of a loan add up to. *)
Definition fined (l : BytesN32) (m : gmap Z FineRecord) : Z :=
  map_sum (λ _ f, if loan_id f =? l then amount f else 0) m.
Definition count (s : Store) : Z := default 0 (fine_count s).

Record inv (s : Store) : Prop := {
  inv_fines i f : fines s !! i = Some f → fine_ok f;
  inv_debt l : loan_debt l s = fined l (fines s);
  inv_fits l : loan_debt l s ≤ i128_max;
  inv_count : 0 ≤ count s ≤ u64_max;
  inv_ids i : is_Some (fines s !! i) →
    ∃ n t l x, i = fine_id sha256 n t l x ∧ 0 < n ≤ count s }.

Lemma fine_le_debt s i f :
  inv s → fines s !! i = Some f → 0 ≤ amount f ≤ loan_debt (loan_id f) s.
Proof.
  intros Hi Hf. destruct (inv_fines _ Hi _ _ Hf) as [H1 _]. split; [done|].
  rewrite (inv_debt _ Hi). unfold fined.
  pose proof (at_key_le_map_sum (λ _ x, if loan_id x =? loan_id f then amount x else 0)
    (fines s) i) as Hk. unfold at_key in Hk. rewrite Hf, Z.eqb_refl in Hk. apply Hk.
  intros j x Hx. destruct (inv_fines _ Hi _ _ Hx). by destruct (loan_id x =? loan_id f).
Qed.

Lemma fresh_fine_id s t l x :
  inv s → count s + 1 ≤ u64_max → fines s !! fine_id sha256 (count s + 1) t l x = None.
Proof.
  intros Hi Hc. destruct (_ !! _) as [f|] eqn:Hf; [|done].
  destruct (inv_ids _ Hi _ (mk_is_Some _ _ Hf)) as (n & t' & l' & x' & Heq & Hn).
  pose proof (inv_count _ Hi). apply counter_id_inj in Heq; [lia|done|lia|lia].
Qed.

(** The checks of [assess_fine], as one predicate. *)
Definition acceptable (a : Assessment) (sig : Z) (t : Z) (s : Store) : Prop :=
  ∃ k p, institution_pubkey s = Some k ∧ policies s !! a_policy_id a = Some p ∧
    key_ok k = true ∧ verify_strict k (build_fine_payload a) sig = true ∧
    0 < a_amount a ∧ t < a_expiry a ∧ nonce_used (a_nonce a) s = false ∧
    a_loan_start a + grace_period p ≤ u64_max ∧ a_loan_start a + grace_period p ≤ t ∧
    a_amount a ≤ per_assessment_cap p ∧
    loan_debt (a_loan_id a) s + a_amount a ≤ i128_max ∧
    loan_debt (a_loan_id a) s + a_amount a ≤ cumulative_cap p.

(** What an accepted assessment does to the store. *)
Definition assessed (a : Assessment) (t : Z) (s : Store) : Store :=
  set_loan_debt (a_loan_id a) (loan_debt (a_loan_id a) s + a_amount a)
    (save_fine (fine_id sha256 (count s + 1) t (a_loan_id a) (a_nonce a))
      (mkFine (a_loan_id a) (a_policy_id a) (a_rule_version a) (a_amount a) t Active)
      (put_count (count s + 1) (put_nonce (a_nonce a) s))).

Lemma assess_effect a sig e (w w' : W) id :
  assess_fine a sig e w = Done w' id →
  acceptable a sig (timestamp e) (store w) ∧ count (store w) + 1 ≤ u64_max ∧
  id = fine_id sha256 (count (store w) + 1) (timestamp e) (a_loan_id a) (a_nonce a) ∧
  store w' = assessed a (timestamp e) (store w).
Proof.
  intros Hrun. unfold LibraryFines.assess_fine, next_fine_id in Hrun.
  rewrite payload_length in Hrun. simpl in Hrun. run_inv. bool_prop. checked_prop. simpl in *.
  change (default 0 (fine_count (store w))) with (count (store w)) in *.
  change (loan_debt (a_loan_id a) (put_nonce (a_nonce a) (store w)))
    with (loan_debt (a_loan_id a) (store w)) in *.
  split; [|split; [lia|by split]]. do 2 eexists. split_and!; eauto; lia.
Qed.

Lemma assess_run a sig e (w : W) :
  assessment_typed a → 0 ≤ count (store w) → (∀ p, policies (store w) !! a_policy_id a = Some p →
    0 ≤ grace_period p) → 0 ≤ loan_debt (a_loan_id a) (store w) →
  acceptable a sig (timestamp e) (store w) → count (store w) + 1 ≤ u64_max →
  ∃ w', assess_fine a sig e w =
    Done w' (fine_id sha256 (count (store w) + 1) (timestamp e) (a_loan_id a) (a_nonce a)).
Proof.
  intros (_ & _ & _ & _ & Hst & _ & _) Hc0 Hg Hd
    (k & p & Hk & Hp & Hok & Hver & Ha & Hexp & Hn & Hg1 & Hg2 & Hper & Hmax & Hcum) Hc.
  specialize (Hg p Hp). checked_prop.
  assert (Hsame : loan_debt (a_loan_id a) (put_nonce (a_nonce a) (store w)) =
    loan_debt (a_loan_id a) (store w)) by done.
  unfold count in *. eexists. unfold LibraryFines.assess_fine, next_fine_id. run_fwd.
  rewrite payload_length, Nat.eqb_refl. run_fwd.
Qed.

Lemma assess_inv a s t :
  inv s → 0 < a_amount a → loan_debt (a_loan_id a) s + a_amount a ≤ i128_max →
  count s + 1 ≤ u64_max → inv (assessed a t s).
Proof.
  intros Hi Ha Hmax Hc. pose proof (fresh_fine_id s t (a_loan_id a) (a_nonce a) Hi Hc) as Hfresh.
  destruct Hi as [H1 H2 H3 H4 H5].
  split; unfold assessed, count in *; simpl.
  - intros i f. rewrite lookup_insert. case_decide; [|apply H1]. intros [= <-].
    split; simpl; [lia|]. by rewrite (proj2 (Z.eqb_neq _ _)) by lia.
  - intros l. unfold loan_debt at 1. simpl. unfold fined. rewrite lookup_insert.
    rewrite map_sum_insert_new by done. specialize (H2 l) as H2l. unfold fined in H2l. simpl.
    destruct (Z.eqb_spec (a_loan_id a) l); case_decide; simplify_eq; simpl; [|exact H2l].
    by rewrite <-H2l, Z.add_comm.
  - intros l. unfold loan_debt at 1. simpl. rewrite lookup_insert. specialize (H3 l).
    case_decide; simpl; [lia|exact H3].
  - lia.
  - intros i. rewrite lookup_insert. case_decide; [|].
    + intros _. subst i. do 4 eexists. split; [done|]. lia.
    + intros Hi. destruct (H5 i Hi) as (n & t' & l & x & -> & Hn). do 4 eexists.
      split; [done|]. lia.
Qed.

Lemma waive_effect a i n e (w w' : W) u :
  waive_fine a i n e w = Done w' u →
  ∃ f, fines (store w) !! i = Some f ∧ 0 < n ≤ amount f ∧
    let left := amount f - n in
    store w' = set_loan_debt (loan_id f) (loan_debt (loan_id f) (store w) - n)
      (save_fine i (mkFine (loan_id f) (policy_id f) (rule_version f) left (accrued_at f)
         (if left =? 0 then Waived else status f)) (store w)).
Proof.
  intros Hrun. unfold waive_fine, require_admin in Hrun. run_inv. bool_prop. checked_prop.
  simpl in *. eexists. split_and!; eauto; lia.
Qed.

Lemma waive_inv i f n s :
  inv s → fines s !! i = Some f → 0 < n ≤ amount f →
  inv (set_loan_debt (loan_id f) (loan_debt (loan_id f) s - n)
      (save_fine i (mkFine (loan_id f) (policy_id f) (rule_version f) (amount f - n)
         (accrued_at f) (if amount f - n =? 0 then Waived else status f)) s)).
Proof.
  intros Hi Hf Hn. destruct (inv_fines _ Hi _ _ Hf) as [Ha Hst].
  destruct Hi as [H1 H2 H3 H4 H5]. split; simpl; try done.
  - intros j x. rewrite lookup_insert. case_decide; [|apply H1]. intros [= <-].
    split; simpl; [lia|]. destruct (Z.eqb_spec (amount f - n) 0); [done|]. rewrite Hst.
    by rewrite (proj2 (Z.eqb_neq (amount f) 0)) by lia.
  - intros l. unfold loan_debt at 1. simpl. unfold fined.
    rewrite lookup_insert, map_sum_insert. unfold at_key. rewrite Hf. simpl.
    specialize (H2 l) as H2l. unfold fined in H2l.
    destruct (Z.eqb_spec (loan_id f) l); case_decide; simplify_eq; simpl; [lia|].
    unfold loan_debt in H2l. lia.
  - intros l. unfold loan_debt at 1. simpl. rewrite lookup_insert. specialize (H3 l).
    case_decide; simpl; [subst; lia|exact H3].
  - intros j. rewrite lookup_insert. case_decide; [|apply H5]. intros _. subst.
    apply H5. by rewrite Hf.
Qed.

Lemma fines_exec_inv c e (w w' : W) u :
  inv (store w) → exec c e w = Done w' u →
  inv (store w') ∧ ∀ n, nonce_used n (store w) = true → nonce_used n (store w') = true.
Proof.
  intros Hi Hrun. destruct c; simpl in Hrun.
  - unfold initialize in Hrun. run_inv. destruct Hi. split; [by split|done].
  - unfold rotate_institution_key, require_admin in Hrun. run_inv. destruct Hi.
    split; [by split|done].
  - unfold set_policy, require_admin in Hrun. run_inv. destruct Hi. split; [by split|done].
  - apply ignore_done in Hrun as [id Hrun].
    destruct (assess_effect _ _ _ _ _ _ Hrun) as ((k & p & Hacc) & Hc & _ & ->). split.
    + apply assess_inv; [done|lia|lia|done].
    + intros n. unfold nonce_used, assessed. simpl. rewrite lookup_insert. by case_decide.
  - destruct (waive_effect _ _ _ _ _ _ _ Hrun) as (f & Hf & Hn & ->).
    split; [by apply waive_inv|done].
Qed.

Definition deployed (w : W) : Prop := store w = mkStore None None None ∅ ∅ ∅ ∅.
Abbreviation Reach this := (reachable exec valid this (λ _ _, True) deployed).
Abbreviation From this w := (reachable exec valid this (λ _ _, True) (λ v, v = w)).

Lemma fines_inv_reachable this w : Reach this w → inv (store w).
Proof.
  apply (reachable_inv _ _ _ _ _ (λ w, inv (store w))).
  - intros w0 ->. split; simpl; try done. by intros i [? Hx].
  - intros c e w0 w1 u _ _ Hi Hrun. by eapply fines_exec_inv.
  - done.
Qed.

Lemma policies_typed this w i p :
  Reach this w → policies (store w) !! i = Some p →
  0 < per_assessment_cap p ∧ 0 < cumulative_cap p ∧ 0 ≤ grace_period p ≤ u64_max.
Proof.
  intros Hr. revert i p. pattern w. revert w Hr. apply reachable_inv.
  - intros w0 ->. done.
  - intros c e w0 w1 u _ Hv IH Hrun i p. destruct c; simpl in Hrun.
    + unfold initialize in Hrun. run_inv. apply IH.
    + unfold rotate_institution_key, require_admin in Hrun. run_inv. apply IH.
    + unfold set_policy, require_admin in Hrun. run_inv. bool_prop. simpl.
      rewrite lookup_insert. case_decide; [|apply IH]. intros [= <-].
      destruct Hv as (_ & _ & Hg). checked_prop. done.
    + apply ignore_done in Hrun as [id Hrun].
      destruct (assess_effect _ _ _ _ _ _ Hrun) as (_ & _ & _ & ->). apply IH.
    + destruct (waive_effect _ _ _ _ _ _ _ Hrun) as (f & Hf & Hn & ->). apply IH.
  - done.
Qed.

(** ** Properties *)

(** C19: The signature binds everything.  The signed payload always has the 148 bytes its
    buffer expects, and two assessments with well-typed fields and the same payload are
    the same assessment: loan, policy, rule version, amount, loan start, nonce and expiry. *)
Theorem payload_binding a b :
  assessment_typed a → assessment_typed b →
  length (build_fine_payload a) = 148%nat ∧
  (build_fine_payload a = build_fine_payload b → a = b).
Proof. intros Ha Hb. split; [apply payload_length|by apply payload_inj]. Qed.

(** C16: Assessments, exactly.  In every reachable world [assess_fine] returns if and only
    if every check of the code holds (signature under the registered key, positive amount,
    not expired, nonce unused, grace period over, both caps respected, no overflow) and
    then records the fine under a new identifier, consumes the nonce and adds the amount
    to the loan's debt; otherwise nothing changes. *)
Theorem assess_exact this w e a sig :
  Reach this w → assessment_typed a → count (store w) < u64_max →
  match invoke (assess_fine a sig) e w with
  | (w', Returned id) =>
      acceptable a sig (timestamp e) (store w) ∧ fines (store w) !! id = None ∧
      store w' = assessed a (timestamp e) (store w) ∧
      fines (store w') !! id = Some (mkFine (a_loan_id a) (a_policy_id a) (a_rule_version a)
        (a_amount a) (timestamp e) Active)
  | (w', _) => ¬ acceptable a sig (timestamp e) (store w) ∧ w' = w
  end.
Proof.
  intros Hr Hty Hc. pose proof (fines_inv_reachable _ _ Hr) as Hi. unfold invoke.
  destruct (assess_fine a sig e w) as [w' id|w' err|] eqn:Hrun.
  - destruct (assess_effect _ _ _ _ _ _ Hrun) as (Hacc & Hc' & -> & ->).
    split_and!; [done|by apply fresh_fine_id|done|]. unfold assessed. simpl.
    apply lookup_insert_eq.
  - split; [|done]. intros Hacc. destruct (assess_run a sig e w) as [w'' Hw'']; try done.
    + apply (inv_count _ Hi).
    + intros p Hp. apply (policies_typed _ _ _ _ Hr Hp).
    + rewrite (inv_debt _ Hi). apply map_sum_nonneg. intros i f Hf.
      destruct (inv_fines _ Hi _ _ Hf). by destruct (loan_id f =? a_loan_id a).
    + lia.
    + congruence.
  - split; [|done]. intros Hacc. destruct (assess_run a sig e w) as [w'' Hw'']; try done.
    + apply (inv_count _ Hi).
    + intros p Hp. apply (policies_typed _ _ _ _ Hr Hp).
    + rewrite (inv_debt _ Hi). apply map_sum_nonneg. intros i f Hf.
      destruct (inv_fines _ Hi _ _ Hf). by destruct (loan_id f =? a_loan_id a).
    + lia.
    + congruence.
Qed.

(** A nonce works once.  After an assessment is accepted, no assessment with the same
    nonce, by anyone and under any signature, is accepted in any world reached later. *)
Theorem nonce_single_use this w w' e a sig id :
  Reach this w → assess_fine a sig e w = Done w' id →
  ∀ w'' e' b sig' w3 id', From this w' w'' → a_nonce b = a_nonce a →
    assess_fine b sig' e' w'' ≠ Done w3 id'.
Proof.
  intros Hi%fines_inv_reachable Hrun w'' e' b sig' w3 id' Hfrom Hn Hrun'.
  destruct (assess_effect _ _ _ _ _ _ Hrun) as ((k & p & Hacc) & Hc & _ & Hs).
  assert (Hinv : inv (store w') ∧ nonce_used (a_nonce a) (store w') = true).
  { rewrite Hs. split; [apply assess_inv; [done|lia|lia|done]|].
    unfold nonce_used, assessed. simpl. by rewrite lookup_insert_eq. }
  assert (Hlater : inv (store w'') ∧ nonce_used (a_nonce a) (store w'') = true).
  { refine (reachable_inv _ _ _ _ _
      (λ v, inv (store v) ∧ nonce_used (a_nonce a) (store v) = true) _ _ _ w'' Hfrom).
    - by intros ? ->.
    - intros c e0 w0 w1 u _ _ [Hi0 Hn0] Hx. destruct (fines_exec_inv _ _ _ _ _ Hi0 Hx) as [Hi1 Hm].
      split; [done|by apply Hm].
    - done. }
  destruct (assess_effect _ _ _ _ _ _ Hrun') as ((k' & p' & Hacc') & _). rewrite Hn in Hacc'.
  destruct Hlater as [_ Hu]. naive_solver congruence.
Qed.

(** Debts.  In every reachable world a loan's cumulative debt is the sum of the current
    amounts of its fines; no amount is negative and a fine is [Waived] exactly when nothing
    of it is left. *)
Theorem debt_is_sum this w e l :
  Reach this w →
  cumulative_debt l e w = Done w (fined l (fines (store w))) ∧
  ∀ i f, fines (store w) !! i = Some f →
    0 ≤ amount f ≤ fined (loan_id f) (fines (store w)) ∧
    (status f = Waived ↔ amount f = 0).
Proof.
  intros Hi%fines_inv_reachable. split.
  - unfold cumulative_debt, load. by rewrite (inv_debt _ Hi).
  - intros i f Hf. rewrite <-(inv_debt _ Hi). split; [by eapply fine_le_debt|].
    destruct (inv_fines _ Hi _ _ Hf) as [_ ->]. destruct (Z.eqb_spec (amount f) 0); done.
Qed.

(** Waivers.  In every reachable world an admin who signs waives any positive part of a
    fine: the call returns, the fine and the loan's debt drop by exactly that part and stay
    non-negative; a larger waiver is refused with [WaiverExceedsDebt]. *)
Theorem waive_exact this w e a i f n :
  Reach this w → admin (store w) = Some a → authorized e a = true →
  fines (store w) !! i = Some f → amount f ≤ i128_max → 0 < n →
  if amount f <? n then invoke (waive_fine a i n) e w = (w, Errored WaiverExceedsDebt)
  else ∃ w', invoke (waive_fine a i n) e w = (w', Returned tt) ∧
    (∃ f', fines (store w') !! i = Some f' ∧ amount f' = amount f - n) ∧
    loan_debt (loan_id f) (store w') = loan_debt (loan_id f) (store w) - n ∧
    0 ≤ loan_debt (loan_id f) (store w').
Proof.
  intros Hi%fines_inv_reachable Hadm Hauth Hf Hmax Hn.
  pose proof (fine_le_debt _ _ _ Hi Hf) as Hle. pose proof (inv_fits _ Hi (loan_id f)).
  destruct (Z.ltb_spec (amount f) n).
  { unfold waive_fine, require_admin. eapply invoke_fail. run_fwd. }
  eexists. split; [apply invoke_run; unfold waive_fine, require_admin; run_fwd|]. simpl.
  split; [eexists; rewrite lookup_insert_eq; by split|].
  unfold loan_debt in *. simpl. rewrite lookup_insert_eq. simpl. lia.
Qed.
End Invariant.

(** ** Concrete runs *)
Module Runs.
Definition this : Address := addr 0.
Definition boss : Address := addr 1.
Definition at_time (t : Z) (a : Address) : Env := mkEnv t this (λ b, bool_decide (a = b)).
(** A toy signature scheme: the signature is the key plus the hash of the message. *)
Definition key_ok (k : BytesN32) : bool := true.
Definition verify_strict (k : BytesN32) (m : Bytes) (sig : Z) : bool := sig =? k + demo_hash m.
Definition sign (k : BytesN32) (a : Assessment) : Z := k + demo_hash (build_fine_payload a).

Abbreviation W := (World unit Store Event).
Abbreviation exec := (exec demo_hash key_ok verify_strict).
Definition w0 : W := mkWorld tt (mkStore None None None ∅ ∅ ∅ ∅) [].
Definition fine1 : Assessment := mkAssessment 11 5 1 30 100 71 1000.
Definition fine2 : Assessment := mkAssessment 11 5 1 40 100 72 1000.
Definition setup : list (Env * Call) :=
  [(at_time 1 boss, CInitialize boss 9); (at_time 2 boss, CSetPolicy boss 5 50 100 50)].
Definition w1 : W := run_calls exec setup w0.
Definition w2 : W := run_calls exec (setup ++ [(at_time 200 boss, CAssess fine1 (sign 9 fine1))]) w0.
Definition id1 : BytesN32 := fine_id demo_hash 1 200 11 71.

Lemma fine_typed n x : 0 ≤ n ≤ 100 → 0 ≤ x ≤ 100 → assessment_typed (mkAssessment 11 5 1 n 100 x 1000).
Proof.
  intros. unfold assessment_typed, bytes32. rewrite !in_range_iff. simpl. range_lia.
Qed.

Abbreviation Reach := (reachable exec valid this (λ _ _, True) deployed).
Lemma fines_w1_reach : Reach w1.
Proof.
  apply reachable_run; [by apply reach_init|]. repeat constructor; vm_compute; reflexivity.
Qed.
Lemma fines_w2_reach : Reach w2.
Proof.
  apply reachable_run; [by apply reach_init|]. repeat constructor; vm_compute; reflexivity.
Qed.

Lemma payload_binding_witness : build_fine_payload fine1 ≠ build_fine_payload fine2.
Proof.
  intros Heq. destruct (payload_binding fine1 fine2) as [_ Hinj];
    [apply fine_typed; lia|apply fine_typed; lia|]. discriminate (Hinj Heq).
Defined.

Lemma assess_exact_witness :
  acceptable key_ok verify_strict fine1 (sign 9 fine1) 200 (store w1) ∧
  ¬ acceptable key_ok verify_strict fine1 (sign 9 fine1) 149 (store w1).
Proof.
  split.
  - pose proof (assess_exact demo_hash demo_hash_free key_ok verify_strict this w1
      (at_time 200 boss) fine1 (sign 9 fine1) fines_w1_reach ltac:(apply fine_typed; lia)
      ltac:(vm_compute; reflexivity)) as Hx.
    destruct (invoke _ _ w1) as [w' [id|err|]] eqn:Hr; [apply Hx|vm_compute in Hr; discriminate Hr..].
  - pose proof (assess_exact demo_hash demo_hash_free key_ok verify_strict this w1
      (at_time 149 boss) fine1 (sign 9 fine1) fines_w1_reach ltac:(apply fine_typed; lia)
      ltac:(vm_compute; reflexivity)) as Hx.
    destruct (invoke _ _ w1) as [w' [id|err|]] eqn:Hr; [vm_compute in Hr; discriminate Hr|apply Hx..].
Defined.

Lemma nonce_single_use_witness :
  ∃ (w' : W) id, assess_fine demo_hash key_ok verify_strict fine1 (sign 9 fine1) (at_time 200 boss) w1
      = Done w' id ∧
    ∀ w3 id', assess_fine demo_hash key_ok verify_strict fine1 (sign 9 fine1) (at_time 201 boss) w'
      ≠ Done w3 id'.
Proof.
  destruct (assess_fine demo_hash key_ok verify_strict fine1 (sign 9 fine1) (at_time 200 boss) w1)
    as [w' id| |] eqn:Hrun; [|vm_compute in Hrun; discriminate Hrun..].
  exists w', id. split; [reflexivity|]. intros w3 id'.
  apply (nonce_single_use demo_hash demo_hash_free key_ok verify_strict this w1 w'
    (at_time 200 boss) fine1 (sign 9 fine1) id);
    [apply fines_w1_reach|exact Hrun|by apply reach_init|reflexivity].
Defined.

Lemma debt_is_sum_witness : cumulative_debt 11 (at_time 300 boss) w2 = Done w2 30.
Proof.
  destruct (debt_is_sum demo_hash demo_hash_free key_ok verify_strict this w2 (at_time 300 boss) 11)
    as [H _]; [apply fines_w2_reach|]. rewrite H. vm_compute. reflexivity.
Defined.

Lemma waive_exact_witness :
  ∃ w' : W, invoke (waive_fine boss id1 10) (at_time 300 boss) w2 = (w', Returned tt) ∧
    loan_debt 11 (store w') = 20.
Proof.
  pose proof (waive_exact demo_hash demo_hash_free key_ok verify_strict this w2 (at_time 300 boss)
    boss id1 (mkFine 11 5 1 30 200 Active) 10 fines_w2_reach ltac:(vm_compute; reflexivity)
    ltac:(vm_compute; reflexivity) ltac:(vm_compute; reflexivity) ltac:(vm_compute; discriminate)
    ltac:(reflexivity)) as (w' & Hw & _ & Hd & _).
  exists w'. split; [exact Hw|]. simpl in Hd. rewrite Hd. vm_compute. reflexivity.
Defined.
End Runs.
