(* ===== verification/Signing.v ===== *)
(** * The signing envelope ([contracts/shared/src/signing.rs])

    Off-chain signatures are taken over the hash of a 150-byte preimage that commits
    to a tag, the envelope version, the network, the contract, the message type and a
    body hash.  [sha256] and the XDR encodings are the host's and are parameters; the
    binding theorem is a reduction: equal payloads for different contents exhibit a
    collision of [sha256]. *)
From S2P Require Import Prelude Machine Host.

Definition DOMAIN_TAG : Bytes := str_bytes "ChainVerse.Library".
Definition ENVELOPE_VERSION : Z := 1.
Definition PREIMAGE_LEN : Z := 18 + 4 + 32 + 32 + 32 + 32.

Inductive SigningError := UnsupportedVersion | DomainMismatch.

Inductive MessageType :=
| IssuerOffer | MembershipClaim | FineAssessment | DelegatedSession | DebtSettlement
| PayoutWalletProof.

Definition tag (m : MessageType) : Symbol :=
  match m with
  | IssuerOffer => "issuer_offer"
  | MembershipClaim => "membership_claim"
  | FineAssessment => "fine_assessment"
  | DelegatedSession => "delegated_session"
  | DebtSettlement => "debt_settlement"
  | PayoutWalletProof => "payout_wallet_proof"
  end%string.

Record SigningDomain := mkDomain {
  version : Z;
  network : BytesN32;
  contract : Address;
  message_type : MessageType }.

Definition check_version (domain : SigningDomain) : result SigningError unit :=
  if negb (version domain =? ENVELOPE_VERSION) then Err UnsupportedVersion else Ok tt.

Section Envelope.
Context (sha256 : Bytes → BytesN32) (to_xdr : Address → Bytes) (symbol_xdr : Symbol → Bytes).

Definition network_id (passphrase : Bytes) : BytesN32 := sha256 passphrase.

Definition canonical_preimage (domain : SigningDomain) (body_hash : BytesN32) :
    result SigningError Bytes :=
  let? _ := check_version domain in
  let contract_hash := sha256 (to_xdr (contract domain)) in
  let message_type_hash := sha256 (symbol_xdr (tag (message_type domain))) in
  Ok (DOMAIN_TAG ++ be_bytes 4 (version domain) ++ to_array (network domain) ++
      to_array contract_hash ++ to_array message_type_hash ++ to_array body_hash).

Definition signing_payload (domain : SigningDomain) (body_hash : BytesN32) :
    result SigningError BytesN32 :=
  let? preimage := canonical_preimage domain body_hash in
  Ok (sha256 preimage).

Definition assert_payload (domain : SigningDomain) (body_hash presented : BytesN32) :
    result SigningError unit :=
  let? payload := signing_payload domain body_hash in
  if negb (payload =? presented) then Err DomainMismatch else Ok tt.

(** A collision of the hash. *)
Definition collision (x y : Bytes) : Prop := x ≠ y ∧ sha256 x = sha256 y.

(** What the envelope relies on: hashes are 32 bytes, encodings are injective. *)
Context (sha256_range : ∀ x, bytes32 (sha256 x) = true).
Context (to_xdr_inj : ∀ a b, to_xdr a = to_xdr b → a = b).
Context (symbol_xdr_inj : ∀ a b, symbol_xdr a = symbol_xdr b → a = b).

Lemma tag_inj m m' : tag m = tag m' → m = m'.
Proof. destruct m, m'; simpl; congruence. Qed.

Lemma preimage_inj d d' b b' p :
  bytes32 (network d) = true → bytes32 (network d') = true →
  bytes32 b = true → bytes32 b' = true →
  canonical_preimage d b = Ok p → canonical_preimage d' b' = Ok p →
  version d = version d' ∧ network d = network d' ∧ b = b' ∧
  sha256 (to_xdr (contract d)) = sha256 (to_xdr (contract d')) ∧
  sha256 (symbol_xdr (tag (message_type d))) = sha256 (symbol_xdr (tag (message_type d'))).
Proof.
  intros Hn Hn' Hb Hb' Hp Hp'. unfold canonical_preimage, check_version in *.
  destruct (negb (version d =? _)) eqn:Hv; [done|].
  destruct (negb (version d' =? _)) eqn:Hv'; [done|]. bool_prop. unfold result_bind in Hp, Hp'.
  apply Ok_inj in Hp as <-. apply Ok_inj in Hp' as Heq. symmetry in Heq.
  apply app_inv_head in Heq.
  pose proof (sha256_range (to_xdr (contract d))) as R1.
  pose proof (sha256_range (to_xdr (contract d'))) as R2.
  pose proof (sha256_range (symbol_xdr (tag (message_type d)))) as R3.
  pose proof (sha256_range (symbol_xdr (tag (message_type d')))) as R4.
  unfold bytes32 in *. checked_prop. unfold to_array in Heq.
  rewrite Hv, Hv' in *. unfold ENVELOPE_VERSION in *.
  apply be_app_inj in Heq as [_ Heq]; [|lia|lia].
  apply be_app_inj in Heq as [E2 Heq]; [|lia|lia].
  apply be_app_inj in Heq as [E3 Heq]; [|lia|lia].
  apply be_app_inj in Heq as [E4 Heq]; [|lia|lia].
  apply be_bytes_inj in Heq; [|lia|lia]. by split_and!.
Qed.

Lemma sha256_or_collision x y : sha256 x = sha256 y → x = y ∨ collision x y.
Proof. intros Heq. destruct (decide (x = y)); [by left|by right]. Qed.

Lemma assert_payload_Ok d b p :
  assert_payload d b p = Ok tt ↔ signing_payload d b = Ok p.
Proof.
  unfold assert_payload. destruct (signing_payload d b) as [q|err]; simpl; [|done].
  destruct (Z.eqb_spec q p); naive_solver.
Qed.

(** The envelope binds its domain and body.  Every preimage has [PREIMAGE_LEN] bytes;
    [assert_payload] accepts the payload of a domain and body for another domain and body
    only if they are the same, or the acceptance exhibits a collision of [sha256] between
    the two preimages, the two contract encodings or the two message-type encodings; for the
    same domain and body it always accepts. *)
Theorem signing_payload_binding d d' b b' p :
  bytes32 (network d) = true → bytes32 (network d') = true →
  bytes32 b = true → bytes32 b' = true →
  signing_payload d b = Ok p → assert_payload d' b' p = Ok tt →
  assert_payload d b p = Ok tt ∧ ∃ x x', canonical_preimage d b = Ok x ∧ canonical_preimage d' b' = Ok x' ∧
    Z.of_nat (length x) = PREIMAGE_LEN ∧
    (d = d' ∧ b = b' ∨ collision x x' ∨
     collision (to_xdr (contract d)) (to_xdr (contract d')) ∨
     collision (symbol_xdr (tag (message_type d))) (symbol_xdr (tag (message_type d')))).
Proof.
  intros Hn Hn' Hb Hb' Hp Hp'%assert_payload_Ok. split; [by apply assert_payload_Ok|].
  unfold signing_payload in *. apply result_bind_Ok in Hp as (x & Hx & [= <-]).
  apply result_bind_Ok in Hp' as (x' & Hx' & [= Heq]).
  exists x, x'. split_and!; [done|done| |].
  - unfold canonical_preimage, check_version in Hx. destruct (negb _); [done|].
    unfold result_bind in Hx. apply Ok_inj in Hx as <-. unfold to_array.
    rewrite !length_app, !length_be_bytes. done.
  - apply sha256_or_collision in Heq as [->|[Hne Heq]]; [|right; left; by split].
    destruct (preimage_inj _ _ _ _ _ Hn Hn' Hb Hb' Hx Hx') as (E1 & E2 & E3 & E4 & E5).
    apply sha256_or_collision in E4 as [E4%to_xdr_inj|E4]; [|by right; right; left].
    apply sha256_or_collision in E5 as [E5%symbol_xdr_inj%tag_inj|E5];
      [|by right; right; right].
    left. split; [|done]. destruct d, d'. simpl in *. congruence.
Qed.
End Envelope.

(** A demonstration hash with 32-byte values. *)
Definition short_hash (x : Bytes) : BytesN32 := demo_hash x mod 2 ^ 256.
Lemma short_hash_range x : bytes32 (short_hash x) = true.
Proof.
  unfold bytes32, short_hash. apply in_range_iff.
  pose proof (Z.mod_pos_bound (demo_hash x) (2 ^ 256) ltac:(lia)). lia.
Qed.
Definition demo_symbol_xdr (s : Symbol) : Bytes := str_bytes s.
Lemma demo_symbol_xdr_inj a b : demo_symbol_xdr a = demo_symbol_xdr b → a = b.
Proof.
  assert (Inj (=) (=) (λ c, Z.of_N (Ascii.N_of_ascii c))).
  { intros x y Hxy%N2Z.inj. rewrite <-(Ascii.ascii_N_embedding x), Hxy.
    apply Ascii.ascii_N_embedding. }
  unfold demo_symbol_xdr, str_bytes. intros Heq. apply (inj (fmap _)) in Heq.
  rewrite <-(String.string_of_list_ascii_of_string a), Heq.
  apply String.string_of_list_ascii_of_string.
Qed.
Lemma demo_xdr_inj a b : demo_xdr a = demo_xdr b → a = b.
Proof. destruct a, b. unfold demo_xdr. simpl. intros [= Heq%N2Z.inj]. congruence. Qed.

Lemma signing_payload_binding_witness :
  let d := mkDomain 1 5 (addr 3) PayoutWalletProof in
  ∃ p x, signing_payload short_hash demo_xdr demo_symbol_xdr d 8 = Ok p ∧
    canonical_preimage short_hash demo_xdr demo_symbol_xdr d 8 = Ok x ∧
    Z.of_nat (length x) = 150.
Proof.
  intros d.
  destruct (signing_payload_binding short_hash demo_xdr demo_symbol_xdr short_hash_range
    demo_xdr_inj demo_symbol_xdr_inj d d 8 8
    (short_hash (match canonical_preimage short_hash demo_xdr demo_symbol_xdr d 8 with
                 | Ok x => x | Err _ => [] end))) as (_ & x & x' & Hx & _ & Hlen & _);
    [reflexivity|reflexivity|reflexivity|reflexivity|reflexivity|reflexivity|].
  eexists _, x. split; [reflexivity|]. split; [exact Hx|exact Hlen].
Defined.
