(* ===== verification/Disbursements.v ===== *)
(** * Disbursement intents ([contracts/scholarship-disbursements/src/lib.rs])

    A recipient configures a payout wallet and proves control of it by signing an
    expiring challenge; a creator turns an award installment into one intent that
    targets the wallet and its epoch; the intent is recorded as executed at most once,
    while its wallet is the verified one.  The host's hash and encodings and the
    ed25519 crate are parameters, as in [Signing.v] and [LibraryFines.v]. *)
From S2P Require Import Prelude Machine Host Signing.

Definition CONTRACT_VERSION : Z := 1.
Definition MAX_CHALLENGE_TTL_SECONDS : Z := 86400.
Definition INTENT_DOMAIN_TAG : Bytes := str_bytes "ChainVerse.Scholarship.DisbursementIntent".
Definition WALLET_PROOF_DOMAIN_TAG : Bytes := str_bytes "ChainVerse.Scholarship.PayoutWallet".

Inductive ContractError :=
| NotInitialized | AlreadyInitialized | NotAdmin | NotAuthorizedCreator | InvalidAmount
| WalletNotFound | WalletKeyNotFound | ChallengeNotFound | ChallengeExpired
| ChallengeAlreadyUsed | ChallengeWalletMismatch | InvalidSignature | IntentNotFound
| IntentConflict | AlreadyExecuted | IntentOnHold | WalletMismatch | WalletKeyMismatch
| InvalidChallengeTtl | Overflow | AlreadyCancelled.

Record PayoutWallet := mkWallet {
  wallet : Address; verified : bool; epoch : Z; updated_at : Z }.

Record WalletChallenge := mkChallenge {
  ch_id : Z;
  ch_recipient : Address;
  ch_wallet : Address;
  expires_at : Z;
  used : bool;
  ch_created_at : Z }.

Inductive IntentStatus := Pending | Executed | Cancelled.
#[export] Instance IntentStatus_eq_dec : EqDecision IntentStatus.
Proof. solve_decision. Defined.

Record DisbursementIntent := mkIntent {
  id : BytesN32;
  program_id : BytesN32;
  recipient : Address;
  intent_wallet : Address;
  amount : Z;
  installment : Z;
  wallet_epoch : Z;
  created_at : Z;
  created_by : Address;
  status : IntentStatus;
  executed_at : Z }.

Inductive Event :=
| WALLKEY (wallet : Address)
| WALLSET (recipient wallet : Address) (epoch : Z)
| WCHALNGE (challenge_id : Z) (recipient wallet : Address) (expires_at : Z)
| WALLVERF (challenge_id : Z) (recipient wallet : Address)
| INTENTNW (intent_id : BytesN32) (recipient : Address) (amount : Z)
| INTENTEX (intent_id : BytesN32)
| INTENTCN (intent_id : BytesN32).

Record Store := mkStore {
  admin : option Address;
  network_id : option BytesN32;
  creators : gmap Address bool;
  wallet_keys : gmap Address Z;
  bindings : gmap Address PayoutWallet;
  challenge_counter : option Z;
  challenges : gmap Z WalletChallenge;
  intents : gmap Z DisbursementIntent }.

Definition put_roles (a : Address) (n : BytesN32) (s : Store) : Store :=
  mkStore (Some a) (Some n) (creators s) (wallet_keys s) (bindings s) (challenge_counter s)
    (challenges s) (intents s).
Definition put_creator (c : Address) (b : bool) (s : Store) : Store :=
  mkStore (admin s) (network_id s) (<[c := b]> (creators s)) (wallet_keys s) (bindings s)
    (challenge_counter s) (challenges s) (intents s).
Definition put_wallet_key (w : Address) (k : BytesN32) (s : Store) : Store :=
  mkStore (admin s) (network_id s) (creators s) (<[w := k]> (wallet_keys s)) (bindings s)
    (challenge_counter s) (challenges s) (intents s).
Definition save_binding (r : Address) (b : PayoutWallet) (s : Store) : Store :=
  mkStore (admin s) (network_id s) (creators s) (wallet_keys s) (<[r := b]> (bindings s))
    (challenge_counter s) (challenges s) (intents s).
Definition put_counter (n : Z) (s : Store) : Store :=
  mkStore (admin s) (network_id s) (creators s) (wallet_keys s) (bindings s) (Some n)
    (challenges s) (intents s).
Definition put_challenge (i : Z) (c : WalletChallenge) (s : Store) : Store :=
  mkStore (admin s) (network_id s) (creators s) (wallet_keys s) (bindings s)
    (challenge_counter s) (<[i := c]> (challenges s)) (intents s).
Definition put_intent (i : BytesN32) (x : DisbursementIntent) (s : Store) : Store :=
  mkStore (admin s) (network_id s) (creators s) (wallet_keys s) (bindings s)
    (challenge_counter s) (challenges s) (<[i := x]> (intents s)).

Definition set_used (c : WalletChallenge) : WalletChallenge :=
  mkChallenge (ch_id c) (ch_recipient c) (ch_wallet c) (expires_at c) true (ch_created_at c).
Definition set_verified (t : Z) (b : PayoutWallet) : PayoutWallet :=
  mkWallet (wallet b) true (epoch b) t.
Definition set_status (st : IntentStatus) (t : Z) (x : DisbursementIntent) : DisbursementIntent :=
  mkIntent (id x) (program_id x) (recipient x) (intent_wallet x) (amount x) (installment x)
    (wallet_epoch x) (created_at x) (created_by x) st t.

Definition is_authorized_creator (c : Address) (s : Store) : bool :=
  default false (creators s !! c).
Definition is_wallet_verified (r : Address) (s : Store) : bool :=
  match bindings s !! r with Some b => verified b | None => false end.

Definition is_intent_executable (intent_id : BytesN32) (s : Store) : bool :=
  match intents s !! intent_id with
  | Some i =>
      if bool_decide (status i = Pending) then
        match bindings s !! recipient i with
        | Some b => verified b && (epoch b =? wallet_epoch i) &&
                    bool_decide (wallet b = intent_wallet i)
        | None => false
        end
      else false
  | None => false
  end.

Section Contract.
Context {L : Type}.
Context (sha256 : Bytes → BytesN32) (to_xdr : Address → Bytes) (symbol_xdr : Symbol → Bytes).
Context (key_ok : BytesN32 → bool) (verify_strict : BytesN32 → Bytes → Z → bool).
Abbreviation M := (Contract L Store Event ContractError).

Definition initialize (adm : Address) (network : BytesN32) : M unit :=
  o <- load admin ;;
  reject_if (bool_decide (is_Some o)) AlreadyInitialized ;;;
  require_auth adm ;;;
  save (put_roles adm network).

Definition require_admin (caller : Address) : M unit :=
  require_admin_of admin NotInitialized NotAdmin caller.

Definition require_creator_or_admin (caller : Address) : M unit :=
  o <- load admin ;;
  adm <- ok_or o NotInitialized ;;
  creator <- load (is_authorized_creator caller) ;;
  if bool_decide (caller = adm) || creator then require_auth caller
  else fail NotAuthorizedCreator.

Definition load_binding (r : Address) : M PayoutWallet :=
  o <- load (λ s, bindings s !! r) ;;
  ok_or o WalletNotFound.

Definition add_creator (adm creator : Address) : M unit :=
  require_admin adm ;;;
  save (put_creator creator true).

Definition remove_creator (adm creator : Address) : M unit :=
  require_admin adm ;;;
  save (put_creator creator false).

Definition register_wallet_key (w : Address) (pubkey : BytesN32) : M unit :=
  require_auth w ;;;
  save (put_wallet_key w pubkey) ;;;
  publish (WALLKEY w).

Definition get_wallet_key (w : Address) : M BytesN32 :=
  o <- load (λ s, wallet_keys s !! w) ;;
  ok_or o WalletKeyNotFound.

Definition set_payout_wallet (r w : Address) : M unit :=
  require_auth r ;;;
  old <- load (λ s, bindings s !! r) ;;
  next <- ok_or (checked_add_u32 (match old with Some b => epoch b | None => 0 end) 1)
            Overflow ;;
  t <- now ;;
  save (save_binding r (mkWallet w false next t)) ;;;
  publish (WALLSET r w next).

Definition wallet_proof_domain : M SigningDomain :=
  o <- load network_id ;;
  network <- ok_or o NotInitialized ;;
  this <- me ;;
  ret (mkDomain ENVELOPE_VERSION network this PayoutWalletProof).

Definition load_challenge (challenge_id : Z) : M WalletChallenge :=
  o <- load (λ s, challenges s !! challenge_id) ;;
  ok_or o ChallengeNotFound.

Definition challenge_body_hash (c : WalletChallenge) : BytesN32 :=
  sha256 (WALLET_PROOF_DOMAIN_TAG ++ be_bytes 8 (ch_id c) ++ to_xdr (ch_recipient c) ++
          to_xdr (ch_wallet c) ++ be_bytes 8 (expires_at c)).

(** [signing_payload(..).map_err(|_| InvalidSignature)] *)
Definition proof_payload (domain : SigningDomain) (c : WalletChallenge) :
    result ContractError BytesN32 :=
  match signing_payload sha256 to_xdr symbol_xdr domain (challenge_body_hash c) with
  | Ok p => Ok p
  | Err _ => Err InvalidSignature
  end.

Definition wallet_challenge_payload (challenge_id : Z) : M BytesN32 :=
  challenge <- load_challenge challenge_id ;;
  domain <- wallet_proof_domain ;;
  lift (proof_payload domain challenge).

Definition open_wallet_challenge (r w : Address) (ttl_seconds : Z) : M Z :=
  require_auth r ;;;
  reject_if ((ttl_seconds =? 0) || (MAX_CHALLENGE_TTL_SECONDS <? ttl_seconds))
    InvalidChallengeTtl ;;;
  binding <- load_binding r ;;
  reject_if (negb (bool_decide (wallet binding = w))) WalletMismatch ;;;
  t <- now ;;
  expires <- ok_or (checked_add_u64 t ttl_seconds) Overflow ;;
  i <- load (λ s, default 0 (challenge_counter s)) ;;
  next <- ok_or (checked_add_u64 i 1) Overflow ;;
  save (put_counter next) ;;;
  save (put_challenge i (mkChallenge i r w expires false t)) ;;;
  publish (WCHALNGE i r w expires) ;;;
  ret i.

Definition verify_ed25519 (pubkey payload : BytesN32) (signature : Z) :
    result ContractError unit :=
  if negb (key_ok pubkey) then Err InvalidSignature
  else if negb (verify_strict pubkey (to_array payload) signature) then Err InvalidSignature
  else Ok tt.

Definition confirm_wallet_challenge (challenge_id : Z) (pubkey : BytesN32) (signature : Z) :
    M unit :=
  challenge <- load_challenge challenge_id ;;
  reject_if (used challenge) ChallengeAlreadyUsed ;;;
  t <- now ;;
  reject_if (expires_at challenge <=? t) ChallengeExpired ;;;
  binding <- load_binding (ch_recipient challenge) ;;
  reject_if (negb (bool_decide (wallet binding = ch_wallet challenge)))
    ChallengeWalletMismatch ;;;
  registered <- get_wallet_key (ch_wallet challenge) ;;
  reject_if (negb (registered =? pubkey)) WalletKeyMismatch ;;;
  domain <- wallet_proof_domain ;;
  payload <- lift (proof_payload domain challenge) ;;
  lift (verify_ed25519 pubkey payload signature) ;;;
  save (put_challenge challenge_id (set_used challenge)) ;;;
  save (save_binding (ch_recipient challenge) (set_verified t binding)) ;;;
  publish (WALLVERF challenge_id (ch_recipient challenge) (ch_wallet challenge)).

Definition derive_intent_id (program : BytesN32) (r : Address) (inst : Z) : BytesN32 :=
  sha256 (INTENT_DOMAIN_TAG ++ to_array program ++ to_xdr r ++ be_bytes 4 inst).

Definition create_intent (creator : Address) (program : BytesN32) (r : Address)
    (amt inst : Z) : M BytesN32 :=
  require_creator_or_admin creator ;;;
  reject_if (amt <=? 0) InvalidAmount ;;;
  binding <- load_binding r ;;
  let i := derive_intent_id program r inst in
  o <- load (λ s, intents s !! i) ;;
  match o with
  | Some existing =>
      if (program_id existing =? program) && bool_decide (recipient existing = r) &&
         bool_decide (intent_wallet existing = wallet binding) &&
         (amount existing =? amt) && (installment existing =? inst)
      then ret i
      else fail IntentConflict
  | None =>
      t <- now ;;
      save (put_intent i (mkIntent i program r (wallet binding) amt inst (epoch binding) t
        creator Pending 0)) ;;;
      publish (INTENTNW i r amt) ;;;
      ret i
  end.

(** The status check shared by [record_execution] and [cancel_intent]. *)
Definition require_pending (x : DisbursementIntent) : M unit :=
  match status x with
  | Executed => fail AlreadyExecuted
  | Cancelled => fail AlreadyCancelled
  | Pending => ret tt
  end.

Definition get_intent (intent_id : BytesN32) : M DisbursementIntent :=
  o <- load (λ s, intents s !! intent_id) ;;
  ok_or o IntentNotFound.

Definition record_execution (executor : Address) (intent_id : BytesN32) : M unit :=
  require_creator_or_admin executor ;;;
  intent <- get_intent intent_id ;;
  require_pending intent ;;;
  executable <- load (is_intent_executable intent_id) ;;
  reject_if (negb executable) IntentOnHold ;;;
  t <- now ;;
  save (put_intent intent_id (set_status Executed t intent)) ;;;
  publish (INTENTEX intent_id).

Definition cancel_intent (caller : Address) (intent_id : BytesN32) : M unit :=
  require_creator_or_admin caller ;;;
  intent <- get_intent intent_id ;;
  require_pending intent ;;;
  save (put_intent intent_id (set_status Cancelled (executed_at intent) intent)) ;;;
  publish (INTENTCN intent_id).

Inductive Call :=
| CInitialize (adm : Address) (network : BytesN32)
| CAddCreator (adm creator : Address)
| CRemoveCreator (adm creator : Address)
| CRegisterKey (w : Address) (pubkey : BytesN32)
| CSetWallet (r w : Address)
| COpenChallenge (r w : Address) (ttl : Z)
| CConfirm (challenge_id : Z) (pubkey : BytesN32) (signature : Z)
| CCreate (creator : Address) (program : BytesN32) (r : Address) (amt inst : Z)
| CRecord (executor : Address) (intent_id : BytesN32)
| CCancel (caller : Address) (intent_id : BytesN32).

Definition exec (c : Call) : M unit :=
  match c with
  | CInitialize a n => initialize a n
  | CAddCreator a x => add_creator a x
  | CRemoveCreator a x => remove_creator a x
  | CRegisterKey w k => register_wallet_key w k
  | CSetWallet r w => set_payout_wallet r w
  | COpenChallenge r w t => ignore (open_wallet_challenge r w t)
  | CConfirm i k g => confirm_wallet_challenge i k g
  | CCreate c p r n i => ignore (create_intent c p r n i)
  | CRecord c i => record_execution c i
  | CCancel c i => cancel_intent c i
  end.

Definition valid (e : Env) (c : Call) : Prop :=
  match c with
  | CCreate _ p _ _ inst => bytes32 p = true ∧ u32 inst = true
  | _ => True
  end.
End Contract.

(** ** What a call does to the storage *)
#[local] Arguments signing_payload : simpl never.

Section Effects.
Context {L : Type}.
Abbreviation W := (World L Store Event).
Implicit Types (s : Store).

(** A creator or the admin, who signed. *)
Definition may_act (a : Address) (e : Env) (s : Store) : Prop :=
  ∃ adm, admin s = Some adm ∧ (a = adm ∨ is_authorized_creator a s = true) ∧
         authorized e a = true.

(** The verified wallet of the intent's recipient is the one the intent targets. *)
Definition wallet_current (x : DisbursementIntent) (s : Store) : Prop :=
  ∃ b, bindings s !! recipient x = Some b ∧ verified b = true ∧
       epoch b = wallet_epoch x ∧ wallet b = intent_wallet x.

Lemma creator_done a e (w w' : W) u :
  require_creator_or_admin a e w = Done w' u ↔ may_act a e (store w) ∧ w' = w.
Proof.
  unfold require_creator_or_admin, may_act, bind, load, ok_or, ret, fail. destruct u.
  destruct (admin (store w)) as [adm|]; simpl; [|naive_solver].
  destruct (_ || _) eqn:Hor; bool_prop.
  - rewrite require_auth_done. split; [|naive_solver]. intros [Ha ->]. split; [|done].
    exists adm. split_and!; try done. destruct Hor as [Hor|Hor]; bool_prop; naive_solver.
  - split; [done|]. intros [(a' & [= <-] & [->|Hc] & _) _]; congruence.
Qed.

Lemma executable_iff i x s :
  intents s !! i = Some x →
  (is_intent_executable i s = true ↔ status x = Pending ∧ wallet_current x s).
Proof.
  intros Hx. unfold is_intent_executable, wallet_current. rewrite Hx.
  case_bool_decide; [|naive_solver].
  destruct (bindings s !! recipient x) as [b|]; [|naive_solver].
  rewrite !andb_true_iff, Z.eqb_eq, bool_decide_eq_true. naive_solver.
Qed.

Lemma pending_done x e (w w' : W) u :
  require_pending x e w = Done w' u ↔ status x = Pending ∧ w' = w.
Proof. destruct u. unfold require_pending, fail, ret. destruct (status x); naive_solver. Qed.

(** [run_inv] with this contract's guards. *)
Ltac guard_inv :=
  run_inv;
  repeat match goal with
  | H : require_creator_or_admin _ _ _ = Done _ _ |- _ => apply creator_done in H as [? ->]
  | H : require_pending _ _ _ = Done _ _ |- _ => apply pending_done in H as [? ->]
  | H : load_binding _ _ _ = Done _ _ |- _ => unfold load_binding in H
  | H : load_challenge _ _ _ = Done _ _ |- _ => unfold load_challenge in H
  | H : get_wallet_key _ _ _ = Done _ _ |- _ => unfold get_wallet_key in H
  | H : get_intent _ _ _ = Done _ _ |- _ => unfold get_intent in H
  | H : wallet_proof_domain _ _ = Done _ _ |- _ => unfold wallet_proof_domain in H
  end;
  run_inv; checked_prop; bool_prop.

Lemma record_effect a i e (w w' : W) u :
  record_execution a i e w = Done w' u →
  may_act a e (store w) ∧ ∃ x, intents (store w) !! i = Some x ∧ status x = Pending ∧
    wallet_current x (store w) ∧
    store w' = put_intent i (set_status Executed (timestamp e) x) (store w).
Proof.
  intros Hrun. unfold record_execution in Hrun. guard_inv. split; [done|]. eexists. split_and!; try done. by eapply executable_iff.
Qed.

Lemma cancel_effect a i e (w w' : W) u :
  cancel_intent a i e w = Done w' u →
  may_act a e (store w) ∧ ∃ x, intents (store w) !! i = Some x ∧ status x = Pending ∧
    store w' = put_intent i (set_status Cancelled (executed_at x) x) (store w).
Proof.
  intros Hrun. unfold cancel_intent in Hrun. guard_inv. split; [done|]. eexists. by split_and!.
Qed.

Lemma set_wallet_effect r v e (w w' : W) u :
  set_payout_wallet r v e w = Done w' u →
  authorized e r = true ∧
  let n := match bindings (store w) !! r with Some b => epoch b | None => 0 end + 1 in
  store w' = save_binding r (mkWallet v false n (timestamp e)) (store w).
Proof.
  intros Hrun. unfold set_payout_wallet in Hrun. guard_inv. by split.
Qed.

Lemma open_effect r v t e (w w' : W) i :
  open_wallet_challenge r v t e w = Done w' i →
  i = default 0 (challenge_counter (store w)) ∧
  store w' = put_challenge i (mkChallenge i r v (timestamp e + t) false (timestamp e))
    (put_counter (i + 1) (store w)).
Proof.
  intros Hrun. unfold open_wallet_challenge in Hrun. guard_inv. by split.
Qed.

Context (sha256 : Bytes → BytesN32) (to_xdr : Address → Bytes).

Lemma create_effect c p r n k e (w w' : W) i :
  create_intent sha256 to_xdr c p r n k e w = Done w' i →
  i = derive_intent_id sha256 to_xdr p r k ∧ may_act c e (store w) ∧ 0 < n ∧
  ∃ b, bindings (store w) !! r = Some b ∧
    ((∃ x, intents (store w) !! i = Some x ∧ w' = w ∧ program_id x = p ∧ recipient x = r ∧
           intent_wallet x = wallet b ∧ amount x = n ∧ installment x = k) ∨
     intents (store w) !! i = None ∧
     store w' = put_intent i (mkIntent i p r (wallet b) n k (epoch b) (timestamp e) c
       Pending 0) (store w)).
Proof.
  intros Hrun. unfold create_intent in Hrun. guard_inv.
  destruct (intents (store w) !! derive_intent_id sha256 to_xdr p r k) as [x|] eqn:Hx.
  - destruct (_ && _) eqn:Hm; [|done]. run_inv. bool_prop. split_and!; try done.
    eexists. split; [done|]. left. by eexists.
  - run_inv. split_and!; try done. eexists. split; [done|]. by right.
Qed.

Context (symbol_xdr : Symbol → Bytes).
Context (key_ok : BytesN32 → bool) (verify_strict : BytesN32 → Bytes → Z → bool).

(** What [confirm_wallet_challenge] requires of the challenge [c] it finds. *)
Definition confirmable (this : Address) (t : Z) (c : WalletChallenge) (b : PayoutWallet)
    (key : BytesN32) (sig : Z) (s : Store) : Prop :=
  used c = false ∧ t < expires_at c ∧ bindings s !! ch_recipient c = Some b ∧
  wallet b = ch_wallet c ∧ wallet_keys s !! ch_wallet c = Some key ∧
  key_ok key = true ∧ ∃ n p, network_id s = Some n ∧
    signing_payload sha256 to_xdr symbol_xdr
      (mkDomain ENVELOPE_VERSION n this PayoutWalletProof)
      (challenge_body_hash sha256 to_xdr c) = Ok p ∧
    verify_strict key (to_array p) sig = true.

Lemma confirm_run i k sig e (w : W) c b :
  challenges (store w) !! i = Some c →
  confirmable (self e) (timestamp e) c b k sig (store w) →
  ∃ w', confirm_wallet_challenge sha256 to_xdr symbol_xdr key_ok verify_strict i k sig e w
    = Done w' tt.
Proof.
  intros Hc (Hu & Ht & Hb & Hw & Hk & Hok & n & p & Hn & Hp & Hv).
  assert (Hpay : proof_payload sha256 to_xdr symbol_xdr
    (mkDomain ENVELOPE_VERSION n (self e) PayoutWalletProof) c = Ok p).
  { unfold proof_payload. by rewrite Hp. }
  assert (Hver : verify_ed25519 key_ok verify_strict k p sig = Ok tt).
  { unfold verify_ed25519. by rewrite Hok, Hv. }
  eexists. unfold confirm_wallet_challenge, load_challenge, load_binding, get_wallet_key,
    wallet_proof_domain. run_fwd.
Qed.

(** The payload the contract hands out is the one it verifies. *)
Lemma confirmable_payload i k sig e (w : W) c b :
  challenges (store w) !! i = Some c →
  confirmable (self e) (timestamp e) c b k sig (store w) →
  ∃ p, wallet_challenge_payload sha256 to_xdr symbol_xdr i e w = Done w p ∧
    verify_strict k (to_array p) sig = true.
Proof.
  intros Hc (_ & _ & _ & _ & _ & _ & n & p & Hn & Hp & Hv). exists p. split; [|done].
  assert (Hpay : proof_payload sha256 to_xdr symbol_xdr
    (mkDomain ENVELOPE_VERSION n (self e) PayoutWalletProof) c = Ok p).
  { unfold proof_payload. by rewrite Hp. }
  unfold wallet_challenge_payload, load_challenge, wallet_proof_domain. run_fwd.
Qed.

Lemma confirm_effect i k sig e (w w' : W) u :
  confirm_wallet_challenge sha256 to_xdr symbol_xdr key_ok verify_strict i k sig e w
    = Done w' u →
  ∃ c b, challenges (store w) !! i = Some c ∧
    confirmable (self e) (timestamp e) c b k sig (store w) ∧
    store w' = save_binding (ch_recipient c) (set_verified (timestamp e) b)
      (put_challenge i (set_used c) (store w)).
Proof.
  intros Hrun. unfold confirm_wallet_challenge in Hrun. guard_inv. subst.
  unfold proof_payload, verify_ed25519 in *.
  destruct (signing_payload _ _ _ _ _) eqn:Hp; [|done].
  match goal with H : Ok _ = Ok _ |- _ => apply Ok_inj in H as -> end.
  destruct (key_ok k) eqn:Hok; [|done]. simpl in *.
  destruct (verify_strict _ _ _) eqn:Hv; [|done].
  do 2 eexists. split_and!; try done. unfold confirmable. split_and!; try done. by do 2 eexists.
Qed.
End Effects.

(** ** Invariant and evolution *)
Section Invariant.
Context {L : Type}.
Context (sha256 : Bytes → BytesN32) (to_xdr : Address → Bytes) (symbol_xdr : Symbol → Bytes).
Context (key_ok : BytesN32 → bool) (verify_strict : BytesN32 → Bytes → Z → bool).
Abbreviation W := (World L Store Event).
Abbreviation exec := (exec (L := L) sha256 to_xdr symbol_xdr key_ok verify_strict).
Abbreviation derive_id := (derive_intent_id sha256 to_xdr).
Abbreviation create_intent := (create_intent (L := L) sha256 to_xdr).
Abbreviation confirm :=
  (confirm_wallet_challenge (L := L) sha256 to_xdr symbol_xdr key_ok verify_strict).
Abbreviation confirmable := (confirmable sha256 to_xdr symbol_xdr key_ok verify_strict).

(** The intent's recipient has a wallet, at least as recent as the intent's. *)
Definition targeted (x : DisbursementIntent) (s : Store) : Prop :=
  ∃ b, bindings s !! recipient x = Some b ∧ wallet_epoch x ≤ epoch b ∧
       (epoch b = wallet_epoch x → wallet b = intent_wallet x).

Record inv (s : Store) : Prop := {
  inv_intents : ∀ i x, intents s !! i = Some x →
    id x = i ∧ i = derive_id (program_id x) (recipient x) (installment x) ∧ 0 < amount x ∧
    targeted x s;
  inv_challenges : ∀ i c, challenges s !! i = Some c → i < default 0 (challenge_counter s) }.

(** Wallet epochs and used challenges from one store to a later one. *)
Record evolves (s s' : Store) : Prop := {
  ev_bindings : ∀ r b, bindings s !! r = Some b → ∃ b', bindings s' !! r = Some b' ∧
    (b' = set_verified (updated_at b') b ∨ b' = b ∨ epoch b < epoch b');
  ev_used : ∀ i c, challenges s !! i = Some c → used c = true →
    challenges s' !! i = Some c }.

(** What a call may do to the intent [x] under [i]. *)
Definition intent_step (c : Call) (e : Env) (s : Store) (i : BytesN32)
    (x x' : DisbursementIntent) : Prop :=
  x' = x ∨ status x = Pending ∧
    ((∃ a, c = CRecord a i ∧ may_act a e s ∧ wallet_current x s ∧
        x' = set_status Executed (timestamp e) x) ∨
     (∃ a, c = CCancel a i ∧ may_act a e s ∧ x' = set_status Cancelled (executed_at x) x)).

(** The effect of a call that returns. *)
Inductive effect (c : Call) (e : Env) (s : Store) : Store → Prop :=
| Unrelated s' :
    intents s' = intents s → bindings s' = bindings s → challenges s' = challenges s →
    challenge_counter s' = challenge_counter s → effect c e s s'
| Rebound r v n t :
    n = match bindings s !! r with Some b => epoch b | None => 0 end + 1 →
    effect c e s (save_binding r (mkWallet v false n t) s)
| Opened i ch :
    i = default 0 (challenge_counter s) →
    effect c e s (put_challenge i ch (put_counter (i + 1) s))
| Confirmed i ch b t :
    challenges s !! i = Some ch → used ch = false →
    bindings s !! ch_recipient ch = Some b →
    effect c e s (save_binding (ch_recipient ch) (set_verified t b)
      (put_challenge i (set_used ch) s))
| Created p r n k b a t :
    0 < n → bindings s !! r = Some b → intents s !! derive_id p r k = None →
    effect c e s (put_intent (derive_id p r k)
      (mkIntent (derive_id p r k) p r (wallet b) n k (epoch b) t a Pending 0) s)
| Settled i x x' :
    intents s !! i = Some x → x' ≠ x → intent_step c e s i x x' →
    effect c e s (put_intent i x' s).

Lemma exec_effect c e (w w' : W) u :
  exec c e w = Done w' u → effect c e (store w) (store w').
Proof.
  intros Hrun. destruct c; simpl in Hrun.
  - unfold initialize in Hrun. run_inv. by apply Unrelated.
  - unfold add_creator, require_admin in Hrun. run_inv. by apply Unrelated.
  - unfold remove_creator, require_admin in Hrun. run_inv. by apply Unrelated.
  - unfold register_wallet_key in Hrun. run_inv. by apply Unrelated.
  - apply set_wallet_effect in Hrun as [_ ->]. by apply Rebound.
  - apply ignore_done in Hrun as [j Hrun]. apply open_effect in Hrun as [-> ->].
    by apply Opened.
  - apply confirm_effect in Hrun as (ch & b & Hc & (Hu & _ & Hb & _) & ->).
    by apply Confirmed.
  - apply ignore_done in Hrun as [j Hrun].
    apply create_effect in Hrun as (-> & _ & Hn & b & Hb & [(y & _ & -> & _)|[Hnone ->]]);
      [by apply Unrelated|by apply Created].
  - apply record_effect in Hrun as (Ha & x & Hx & Hp & Hc & ->). eapply Settled; [done| |].
    + intros Heq%(f_equal status). simpl in Heq. congruence.
    + right. split; [done|]. left. by eexists.
  - apply cancel_effect in Hrun as (Ha & x & Hx & Hp & ->). eapply Settled; [done| |].
    + intros Heq%(f_equal status). simpl in Heq. congruence.
    + right. split; [done|]. right. by eexists.
Qed.

Lemma effect_intent c e s s' i x :
  effect c e s s' → intents s !! i = Some x →
  ∃ x', intents s' !! i = Some x' ∧ intent_step c e s i x x'.
Proof.
  intros Heff Hx. destruct Heff as [s' Hs| | | |p r n k b a t Hn Hb Hnone|j y y' Hy Hne Hst];
    simpl; rewrite ?Hs; try (by exists x; split; [|left]).
  - exists x. split; [|by left]. rewrite lookup_insert_ne; [done|congruence].
  - rewrite lookup_insert. case_decide; [simplify_eq; eauto|]. by exists x; split; [|left].
Qed.

Lemma effect_evolves c e s s' : inv s → effect c e s s' → evolves s s'.
Proof.
  intros Hi [s1 _ Hb Hc _|r v n t ->|i ch ->|i ch b t Hc Hu Hb| |]; split; simpl;
    rewrite ?Hb, ?Hc; eauto 8.
  - intros r' b Hb. rewrite lookup_insert. case_decide; [|eauto 8]. subst r'. rewrite Hb.
    eexists. split; [done|]. right. right. simpl. lia.
  - intros i c' Hc _. rewrite lookup_insert_ne; [done|].
    pose proof (inv_challenges _ Hi _ _ Hc). lia.
  - intros r' b' Hb'. rewrite lookup_insert. case_decide; [|eauto 8]. simplify_eq.
    eexists. split; [done|]. by left.
  - intros j c' Hc' Hu'. rewrite lookup_insert_ne; [done|]. congruence.
Qed.

Lemma targeted_evolves x s s' : evolves s s' → targeted x s → targeted x s'.
Proof.
  intros Hev (b & Hb & Hle & Hw). destruct (ev_bindings _ _ Hev _ _ Hb) as (b' & Hb' & Hcase).
  exists b'. split; [done|]. destruct Hcase as [->|[->|Hlt]]; [done..|]. split; lia.
Qed.

Lemma effect_inv c e s s' : inv s → effect c e s s' → inv s'.
Proof.
  intros Hi Heff. pose proof (effect_evolves _ _ _ _ Hi Heff) as Hev.
  assert (Hkeep : ∀ i x, intents s !! i = Some x →
    id x = i ∧ i = derive_id (program_id x) (recipient x) (installment x) ∧ 0 < amount x ∧
    targeted x s').
  { intros i x Hx. destruct (inv_intents _ Hi _ _ Hx) as (H1 & H2 & H3 & H4).
    split_and!; try done. by eapply targeted_evolves. }
  split.
  - destruct Heff as [s1 Hs _ _ _| | | |p r n k b a t Hn Hb Hnone|i x x' Hx Hne Hst];
      simpl; rewrite ?Hs; try done; intros j y; rewrite lookup_insert;
      (case_decide as Hij; [|by apply Hkeep]); intros [= <-]; subst j.
    + split_and!; try done. exists b. simpl. split_and!; [done|lia|done].
    + destruct (Hkeep _ _ Hx) as (H1 & H2 & H3 & H4).
      destruct Hst as [->|[_ [(a & _ & _ & _ & ->)|(a & _ & _ & ->)]]]; by split_and!.
  - pose proof (inv_challenges _ Hi) as Hc.
    destruct Heff as [s1 _ _ Hs Hn| |i ch Hn|i ch b t Hch _ _| |]; simpl;
      rewrite ?Hs, ?Hn; try done; intros j y; rewrite lookup_insert; case_decide; subst.
    + lia.
    + intros Hy%Hc. lia.
    + intros _. by eapply Hc.
    + apply Hc.
Qed.

Definition deployed (w : W) : Prop := store w = mkStore None None ∅ ∅ ∅ None ∅ ∅.
Abbreviation Reach this := (reachable exec valid this (λ _ _, True) deployed).
Abbreviation From this w := (reachable exec valid this (λ _ _, True) (λ v, v = w)).

Lemma intents_inv_reachable this w : Reach this w → inv (store w).
Proof.
  apply (reachable_inv _ _ _ _ _ (λ w, inv (store w))).
  - by intros w0 ->.
  - intros c e w0 w1 u _ _ Hi Hrun%exec_effect. by eapply effect_inv.
  - done.
Qed.

(** A fact that every effect keeps holds in every later world. *)
Lemma from_kept this w (I : Store → Prop) :
  inv (store w) → I (store w) →
  (∀ c e s s', inv s → effect c e s s' → I s → I s') →
  ∀ w', From this w w' → inv (store w') ∧ I (store w').
Proof.
  intros Hi HI Hstep w' Hfrom.
  refine (reachable_inv _ _ _ _ _ (λ v, inv (store v) ∧ I (store v)) _ _ _ w' Hfrom).
  - by intros v ->.
  - intros c e v v' u _ _ [Hv HIv] Hrun%exec_effect. split; [by eapply effect_inv|].
    by eapply Hstep.
  - done.
Qed.

(** The fields of an intent that never change. *)
Definition same_terms (x y : DisbursementIntent) : Prop :=
  y = mkIntent (id x) (program_id x) (recipient x) (intent_wallet x) (amount x)
    (installment x) (wallet_epoch x) (created_at x) (created_by x) (status y) (executed_at y).

Lemma intent_persists this w w' i x :
  inv (store w) → intents (store w) !! i = Some x → From this w w' →
  inv (store w') ∧ ∃ y, intents (store w') !! i = Some y ∧ same_terms x y ∧
    (status x ≠ Pending → y = x).
Proof.
  intros Hi Hx. apply (from_kept this w (λ s, ∃ y, intents s !! i = Some y ∧
    same_terms x y ∧ (status x ≠ Pending → y = x))); [done| |].
  - exists x. split; [done|]. by destruct x.
  - intros c e s s' _ Heff (y & Hy & Hsame & Hend).
    destruct (effect_intent _ _ _ _ _ _ Heff Hy) as (z & Hz & Hst). exists z. split; [done|].
    destruct Hst as [->|[Hp Hst]]; [done|]. split.
    + rewrite Hsame in Hst. destruct Hst as [(a & _ & _ & _ & ->)|(a & _ & _ & ->)]; done.
    + intros Hne. specialize (Hend Hne). congruence.
Qed.

(** ** Properties *)

(** C17: Intents never change their terms and are paid at most once.  Whatever call returns
    in a reachable world, an intent that exists keeps its program, recipient, wallet, amount
    and installment; it changes only from [Pending]: to [Executed] by [record_execution] of
    an authorised creator while the recipient's verified wallet is the one the intent
    targets (same address, same epoch), or to [Cancelled] by [cancel_intent].  An executed
    or cancelled intent is the same in every later world. *)
Theorem intent_lifecycle this w i x :
  Reach this w → intents (store w) !! i = Some x →
  (∀ c e w' u, exec c e w = Done w' u → ∃ x', intents (store w') !! i = Some x' ∧
     same_terms x x' ∧
     (x' = x ∨ status x = Pending ∧
       (status x' = Executed ∧ executed_at x' = timestamp e ∧ wallet_current x (store w) ∧
          (∃ a, c = CRecord a i ∧ may_act a e (store w)) ∨
        status x' = Cancelled ∧ ∃ a, c = CCancel a i ∧ may_act a e (store w)))) ∧
  (∀ w', From this w w' → ∃ y, intents (store w') !! i = Some y ∧ same_terms x y ∧
     (status x ≠ Pending → y = x)).
Proof.
  intros Hi%intents_inv_reachable Hx. split.
  - intros c e w' u Hrun%exec_effect.
    destruct (effect_intent _ _ _ _ _ _ Hrun Hx) as (x' & Hx' & Hst). exists x'.
    split; [done|]. unfold same_terms.
    destruct Hst as [->|[Hp [(a & -> & Ha & Hc & ->)|(a & -> & Ha & ->)]]]; simpl.
    + split; [by destruct x|by left].
    + split; [done|]. right. split; [done|]. left. split_and!; eauto.
    + split; [done|]. right. split; [done|]. right. eauto.
  - intros w' Hfrom. by apply (intent_persists this w w' i x).
Qed.

(** Creation is idempotent.  Once [create_intent] returned an id for an installment,
    every later [create_intent] of the same program, recipient and installment by any
    authorised creator leaves the world as it is: with the same amount and the recipient
    configured to the same wallet it returns the same id, otherwise it is refused with
    [IntentConflict].  The intent is stored under that id with the terms first given. *)
Theorem create_idempotent this w w' e a p r n k i :
  Reach this w → create_intent a p r n k e w = Done w' i →
  ∀ w'', From this w' w'' → ∃ x b,
    intents (store w'') !! i = Some x ∧ bindings (store w'') !! r = Some b ∧
    program_id x = p ∧ recipient x = r ∧ amount x = n ∧ installment x = k ∧
    ∀ e' a' m, may_act a' e' (store w'') → 0 < m →
      invoke (create_intent a' p r m k) e' w'' =
        (w'', if (m =? n) && bool_decide (wallet b = intent_wallet x) then Returned i
              else Errored IntentConflict).
Proof.
  intros Hi%intents_inv_reachable Hrun w'' Hfrom.
  assert (Hi' : inv (store w')).
  { eapply (effect_inv (CCreate a p r n k) e); [exact Hi|].
    apply (exec_effect _ _ _ _ tt), ignore_done. by exists i. }
  destruct (create_effect _ _ _ _ _ _ _ _ _ _ _ Hrun) as (Hid & _ & _ & b & _ & Hcase).
  assert (∃ x, intents (store w') !! i = Some x ∧ program_id x = p ∧ recipient x = r ∧
    amount x = n ∧ installment x = k) as (x & Hx & E1 & E2 & E3 & E4).
  { destruct Hcase as [(x & Hx & -> & H1 & H2 & _ & H3 & H4)|[_ ->]]; [by exists x|].
    eexists. simpl. rewrite lookup_insert_eq. by split. }
  destruct (intent_persists _ _ _ _ _ Hi' Hx Hfrom) as (Hi2 & y & Hy & Hsame & _).
  assert (Ey : program_id y = p ∧ recipient y = r ∧ amount y = n ∧ installment y = k).
  { rewrite Hsame. simpl. by split_and!. }
  destruct Ey as (F1 & F2 & F3 & F4).
  destruct (inv_intents _ Hi2 _ _ Hy) as (_ & _ & _ & b' & Hb' & _). rewrite F2 in Hb'.
  exists y, b'. split_and!; try done. intros e' a' m Ha Hm.
  assert (Hrun' : create_intent a' p r m k e' w'' =
    if (m =? n) && bool_decide (wallet b' = intent_wallet y) then Done w'' i
    else Failed w'' IntentConflict).
  { unfold Disbursements.create_intent, load_binding.
    eapply bind_run with (a := tt); [by apply creator_done|]. run_fwd.
    rewrite <-Hid, Hy, F1, F2, F3, F4, !Z.eqb_refl, (Z.eqb_sym n m).
    rewrite (bool_decide_eq_true_2 (r = r)), andb_true_r, andb_comm by done. simpl.
    rewrite (bool_decide_ext (intent_wallet y = wallet b') (wallet b' = intent_wallet y)) by done.
    by destruct (_ && _). }
  unfold invoke. rewrite Hrun'. by destruct (_ && _).
Qed.

(** A wallet change is final for the installments it holds.  After [set_payout_wallet],
    no intent of that recipient that was not executed before is ever executable or executed
    again, in any later world, even if the former wallet is configured and verified again;
    and its installment keeps deriving the same id, so no other intent can pay it. *)
Theorem wallet_change_final this w w' e r v u i x :
  Reach this w → set_payout_wallet r v e w = Done w' u →
  intents (store w) !! i = Some x → recipient x = r → status x ≠ Executed →
  i = derive_id (program_id x) r (installment x) ∧
  ∀ w'', From this w' w'' → is_intent_executable i (store w'') = false ∧
    ∃ y, intents (store w'') !! i = Some y ∧ status y ≠ Executed.
Proof.
  intros Hi%intents_inv_reachable Hrun Hx Hr Hne.
  assert (Heff : effect (CSetWallet r v) e (store w) (store w')).
  { by apply (exec_effect _ _ _ _ u). }
  destruct (inv_intents _ Hi _ _ Hx) as (_ & Hid & _ & b & Hb & Hle & _). subst r.
  split; [done|]. intros w'' Hfrom.
  set (held s := ∃ y b, intents s !! i = Some y ∧ status y ≠ Executed ∧
    bindings s !! recipient y = Some b ∧ wallet_epoch y < epoch b).
  destruct (from_kept this w' held (effect_inv _ _ _ _ Hi Heff)) with (w' := w'')
    as [_ (y & b' & Hy & Hney & Hb' & Hlt)]; [| |done|].
  - apply set_wallet_effect in Hrun as [_ ->]. unfold held. simpl. do 2 eexists.
    split_and!; [done|done|apply lookup_insert_eq|]. simpl. rewrite Hb. lia.
  - intros c e0 s s' Hs He (y & b' & Hy & Hney & Hb' & Hlt).
    destruct (effect_intent _ _ _ _ _ _ He Hy) as (z & Hz & Hst).
    destruct (ev_bindings _ _ (effect_evolves _ _ _ _ Hs He) _ _ Hb') as (b2 & Hb2 & Hcase).
    assert (wallet_epoch y < epoch b2) by (destruct Hcase as [->|[->|?]]; simpl; lia).
    destruct Hst as [->|[_ [(a & _ & _ & (b3 & Hb3 & _ & Heq & _) & _)|(a & _ & _ & ->)]]].
    + by exists y, b2.
    + simplify_eq. lia.
    + by exists (set_status Cancelled (executed_at y) y), b2.
  - split; [|by exists y]. apply not_true_is_false. intros Hex.
    apply (executable_iff _ _ _ Hy) in Hex as [_ (b3 & Hb3 & _ & Heq & _)]. simplify_eq. lia.
Qed.

(** Wallet proofs, exactly.  In every reachable world [confirm_wallet_challenge] returns
    if and only if the challenge exists unused and unexpired, its wallet is still the one
    configured, the presented key is the one registered for it and the signature verifies
    over the challenge's payload under the contract's own domain, which is the payload
    [wallet_challenge_payload] hands to the signer; it then marks the wallet verified and
    the challenge used, and no later world accepts that challenge again. *)
Theorem confirm_exact this w e i k sig :
  Reach this w →
  match invoke (confirm i k sig) e w with
  | (w', Returned _) =>
      (∃ c b, challenges (store w) !! i = Some c ∧
         confirmable (self e) (timestamp e) c b k sig (store w) ∧
         bindings (store w') !! ch_recipient c = Some (set_verified (timestamp e) b) ∧
         challenges (store w') !! i = Some (set_used c)) ∧
      (∃ p, wallet_challenge_payload sha256 to_xdr symbol_xdr i e w = Done w p ∧
         verify_strict k (to_array p) sig = true) ∧
      ∀ w'' e' k' sig' w3 u, From this w' w'' → confirm i k' sig' e' w'' ≠ Done w3 u
  | (w', _) => w' = w ∧ ∀ c b, challenges (store w) !! i = Some c →
      ¬ confirmable (self e) (timestamp e) c b k sig (store w)
  end.
Proof.
  intros Hi%intents_inv_reachable. unfold invoke.
  destruct (confirm i k sig e w) as [w' u|w' err|] eqn:Hrun.
  2,3: split; [done|]; intros c b Hc Hok;
    destruct (confirm_run sha256 to_xdr symbol_xdr key_ok verify_strict _ _ _ _ _ _ _ Hc Hok);
    congruence.
  assert (Heff : effect (CConfirm i k sig) e (store w) (store w')).
  { by apply (exec_effect _ _ _ _ u). }
  apply confirm_effect in Hrun as (c & b & Hc & Hok & Hs).
  assert (Hused : challenges (store w') !! i = Some (set_used c)).
  { rewrite Hs. simpl. apply lookup_insert_eq. }
  split_and!.
  - exists c, b. split_and!; try done. rewrite Hs. simpl. apply lookup_insert_eq.
  - by eapply confirmable_payload.
  - intros w'' e' k' sig' w3 u' Hfrom Hagain.
    destruct (from_kept this w' (λ s, challenges s !! i = Some (set_used c)))
      with (w' := w'') as [_ Hlast]; [by eapply effect_inv|done| |done|].
    + intros c0 e0 s s' Hi0 Heff0 Hch. by apply (ev_used _ _ (effect_evolves _ _ _ _ Hi0 Heff0)).
    + apply confirm_effect in Hagain as (c2 & b2 & Hc2 & (Hu2 & _) & _).
      rewrite Hlast in Hc2. by simplify_eq.
Qed.
End Invariant.

(** ** Concrete runs *)
Module Runs.
Definition this : Address := addr 0.
Definition boss : Address := addr 1.
Definition student : Address := addr 2.
Definition purse : Address := addr 3.
Definition at_time (t : Z) (a : Address) : Env := mkEnv t this (λ b, bool_decide (a = b)).
(** A toy signature scheme: the signature is the key plus the hash of the message. *)
Definition key_ok (k : BytesN32) : bool := true.
Definition verify_strict (k : BytesN32) (m : Bytes) (sig : Z) : bool :=
  sig =? k + short_hash m.

Abbreviation W := (World unit Store Event).
Abbreviation exec := (exec short_hash demo_xdr demo_symbol_xdr key_ok verify_strict).
Abbreviation create := (create_intent short_hash demo_xdr).
Abbreviation confirm :=
  (confirm_wallet_challenge short_hash demo_xdr demo_symbol_xdr key_ok verify_strict).
Definition w0 : W := mkWorld tt (mkStore None None ∅ ∅ ∅ None ∅ ∅) [].
Definition the_intent : BytesN32 := derive_intent_id short_hash demo_xdr 8 student 0.
Definition proof : Z :=
  match proof_payload short_hash demo_xdr demo_symbol_xdr
    (mkDomain ENVELOPE_VERSION 7 this PayoutWalletProof)
    (mkChallenge 0 student purse 110 false 10) with
  | Ok p => 55 + short_hash (to_array p)
  | Err _ => 0
  end.
Definition setup : list (Env * Call) :=
  [(at_time 1 boss, CInitialize boss 7); (at_time 2 purse, CRegisterKey purse 55);
   (at_time 3 student, CSetWallet student purse);
   (at_time 10 student, COpenChallenge student purse 100)].
Definition w1 : W := run_calls exec setup w0.
Definition w2 : W := run_calls exec
  (setup ++ [(at_time 20 boss, CConfirm 0 55 proof); (at_time 30 boss, CCreate boss 8 student 500 0)]) w0.
Definition x2 : DisbursementIntent :=
  mkIntent the_intent 8 student purse 500 0 1 30 boss Pending 0.

Abbreviation Reach := (reachable exec valid this (λ _ _, True) deployed).
Lemma intents_w1_reach : Reach w1.
Proof. apply reachable_run; [by apply reach_init|]. repeat constructor. Qed.
Lemma intents_w2_reach : Reach w2.
Proof. apply reachable_run; [by apply reach_init|]. repeat constructor. Qed.
Lemma x2_stored : intents (store w2) !! the_intent = Some x2.
Proof. vm_compute. reflexivity. Qed.

Lemma intent_lifecycle_witness :
  ∃ w3 : W, exec (CRecord boss the_intent) (at_time 40 boss) w2 = Done w3 tt ∧
    ∃ y, intents (store w3) !! the_intent = Some y ∧ same_terms x2 y ∧ status y = Executed.
Proof.
  assert (Hdone : match exec (CRecord boss the_intent) (at_time 40 boss) w2 with
    | Done w _ => match intents (store w) !! the_intent with
                  | Some y => bool_decide (status y = Executed) | None => false end
    | _ => false end = true) by (vm_compute; reflexivity).
  destruct (exec (CRecord boss the_intent) (at_time 40 boss) w2) as [w3 []| |] eqn:Hrun; [|done..].
  exists w3. split; [reflexivity|].
  destruct (intent_lifecycle short_hash demo_xdr demo_symbol_xdr key_ok verify_strict this w2
    the_intent x2 intents_w2_reach x2_stored) as [Hstep _].
  destruct (Hstep _ _ _ _ Hrun) as (y & Hy & Hsame & _). exists y. split; [exact Hy|].
  split; [exact Hsame|]. rewrite Hy in Hdone. by bool_prop.
Defined.

Lemma create_idempotent_witness :
  ∃ w3 : W, create boss 8 student 500 0 (at_time 30 boss) w1 = Done w3 the_intent ∧
    invoke (create boss 8 student 500 0) (at_time 50 boss) w3 = (w3, Returned the_intent) ∧
    invoke (create boss 8 student 600 0) (at_time 50 boss) w3 = (w3, Errored IntentConflict).
Proof.
  assert (Hdone : match create boss 8 student 500 0 (at_time 30 boss) w1 with
    | Done w i => (i =? the_intent) && bool_decide (admin (store w) = Some boss) &&
        bool_decide (wallet <$> bindings (store w) !! student =
                     intent_wallet <$> intents (store w) !! i)
    | _ => false end = true) by (vm_compute; reflexivity).
  destruct (create boss 8 student 500 0 (at_time 30 boss) w1) as [w3 i| |] eqn:Hrun; [|done..].
  pose proof (create_idempotent short_hash demo_xdr demo_symbol_xdr key_ok verify_strict this
    w1 w3 _ _ _ _ _ _ _ intents_w1_reach Hrun w3 ltac:(by apply reach_init))
    as (x & b & Hx & Hb & _ & _ & _ & _ & Hagain).
  apply andb_true_iff in Hdone as [[Hi Hadm]%andb_true_iff Hwal].
  apply Z.eqb_eq in Hi. apply bool_decide_eq_true in Hadm. subst i.
  rewrite Hx, Hb in Hwal. apply bool_decide_eq_true in Hwal. injection Hwal as Hwal.
  assert (Hact : may_act boss (at_time 50 boss) (store w3)).
  { exists boss. split; [exact Hadm|]. split; [left; reflexivity|reflexivity]. }
  exists w3. split; [reflexivity|].
  split; rewrite (Hagain (at_time 50 boss) boss _ Hact) by reflexivity;
    rewrite (bool_decide_eq_true_2 _ Hwal); reflexivity.
Defined.

Lemma wallet_change_final_witness :
  ∃ w3 : W, set_payout_wallet student boss (at_time 40 student) w2 = Done w3 tt ∧
    is_intent_executable the_intent (store w3) = false.
Proof.
  destruct (set_payout_wallet student boss (at_time 40 student) w2) as [w3 []| |] eqn:Hrun;
    [|vm_compute in Hrun; discriminate Hrun..].
  exists w3. split; [reflexivity|].
  destruct (wallet_change_final short_hash demo_xdr demo_symbol_xdr key_ok verify_strict this w2
    w3 _ _ _ _ the_intent x2 intents_w2_reach Hrun x2_stored eq_refl ltac:(discriminate)) as [_ Hheld].
  apply (Hheld w3). by apply reach_init.
Defined.

Lemma confirm_exact_witness :
  (∃ w3 : W, confirm 0 55 proof (at_time 20 boss) w1 = Done w3 tt ∧
    ∀ w4, confirm 0 55 proof (at_time 21 boss) w3 ≠ Done w4 tt) ∧
  ∀ b, ¬ confirmable short_hash demo_xdr demo_symbol_xdr key_ok verify_strict this 110
    (mkChallenge 0 student purse 110 false 10) b 55 proof (store w1).
Proof.
  split.
  - pose proof (confirm_exact short_hash demo_xdr demo_symbol_xdr key_ok verify_strict this w1
      (at_time 20 boss) 0 55 proof intents_w1_reach) as Hx.
    unfold invoke in Hx.
    destruct (confirm 0 55 proof (at_time 20 boss) w1) as [w3 []| |] eqn:Hrun;
      [|vm_compute in Hrun; discriminate Hrun..].
    exists w3. split; [reflexivity|]. destruct Hx as (_ & _ & Hx). intros w4.
    apply Hx. by apply reach_init.
  - pose proof (confirm_exact short_hash demo_xdr demo_symbol_xdr key_ok verify_strict this w1
      (at_time 110 boss) 0 55 proof intents_w1_reach) as Hx.
    unfold invoke in Hx.
    destruct (confirm 0 55 proof (at_time 110 boss) w1) as [w3 []| |] eqn:Hrun;
      [vm_compute in Hrun; discriminate Hrun| |vm_compute in Hrun; discriminate Hrun].
    intros b. apply (Hx). vm_compute. reflexivity.
Defined.
End Runs.
