(* ===== verification/AvailabilityCalc.v ===== *)
(** * Availability of a participant: the calendar computation

    [contracts/mentorship-availability/src/lib.rs], the functions that compute on a schedule:
    normalisation of weekly windows, conversion of local wall-clock instants to UTC under the
    published offset changes, and materialisation of a schedule and its exceptions into UTC
    ranges.  [AvailabilityProps.v] proves what they compute; [Availability.v] models the
    contract around them.

    Minutes, timestamps and offsets are [Z]; an operation the code would trap on is [None].
    The day loops are [while]; their fuel is the number of iterations plus one, computed from
    the arguments. *)
From S2P Require Import Prelude Machine Host Loops Intervals.

Definition SECONDS_PER_DAY : Z := 86400.
Definition SECONDS_PER_MINUTE : Z := 60.
Definition MINUTES_PER_DAY : Z := 1440.
Definition MAX_WEEKLY_WINDOWS : nat := 28.
Definition MIN_UTC_OFFSET_SECONDS : Z := -12 * 3600.
Definition MAX_UTC_OFFSET_SECONDS : Z := 14 * 3600.
Definition EPOCH_WEEKDAY_OFFSET : Z := 4.

Inductive ContractError :=
| ScheduleNotFound | InvalidWeeklyWindow | TooManyWindows | WindowsNotOrdered
| InvalidEffectiveRange | InvalidLeadTime | InvalidBuffer | InvalidBookingHorizon
| TooManyOffsetChanges | InvalidOffsetChange | InvalidOffset | TooManyExceptions
| ExceptionAlreadyExists | ExceptionNotFound | InvalidExceptionRange | ExceptionSpanTooLarge
| InvalidQueryRange | QuerySpanTooLarge | InvalidPage | VersionOverflow | InvalidTimezoneRef.

Record WeeklyWindow := mkWindow { weekday : Z; start_minute : Z; end_minute : Z }.
Record OffsetChange := mkChange { change_from : Z; change_offset : Z }.

Record AvailabilitySchedule := mkSchedule {
  participant : Address; timezone_hash : BytesN32; utc_offset_seconds : Z;
  offset_changes : list OffsetChange; weekly : list WeeklyWindow;
  lead_time_seconds : Z; buffer_before_seconds : Z; buffer_after_seconds : Z;
  booking_horizon_days : Z; effective_from : Z; effective_until : Z;
  enabled : bool; version : Z; updated_at : Z
}.

Inductive ExceptionKind := Unavailable | Available.
#[export] Instance ExceptionKind_eq_dec : EqDecision ExceptionKind.
Proof. solve_decision. Defined.

Record AvailabilityException := mkException {
  exc_id : BytesN32; kind : ExceptionKind; from_ts : Z; until_ts : Z;
  reference_hash : BytesN32; created_at : Z
}.

(** ** Weekly windows *)

Definition window_invalid (w : WeeklyWindow) : bool :=
  (6 <? weekday w) || (end_minute w <=? start_minute w) ||
  (MINUTES_PER_DAY <=? start_minute w) || (MINUTES_PER_DAY <? end_minute w).

Definition out_of_order (prev w : WeeklyWindow) : bool :=
  (weekday w <? weekday prev) ||
  ((weekday w =? weekday prev) && (start_minute w <? start_minute prev)).

(** Merge into the last window of the list, or append. *)
Definition merge_window (normalized : list WeeklyWindow) (w : WeeklyWindow) : list WeeklyWindow :=
  match last normalized with
  | Some l =>
      if (weekday l =? weekday w) && (start_minute w <=? end_minute l)
      then <[pred (length normalized) :=
               mkWindow (weekday l) (start_minute l)
                 (if end_minute l <? end_minute w then end_minute w else end_minute l)]> normalized
      else normalized ++ [w]
  | None => normalized ++ [w]
  end.

Fixpoint normalize_loop (windows normalized : list WeeklyWindow) (previous : option WeeklyWindow) :
    result ContractError (list WeeklyWindow) :=
  match windows with
  | [] => Ok normalized
  | w :: windows =>
      if window_invalid w then Err InvalidWeeklyWindow
      else if match previous with Some prev => out_of_order prev w | None => false end
      then Err WindowsNotOrdered
      else normalize_loop windows (merge_window normalized w) (Some w)
  end.

Definition normalize_windows (windows : list WeeklyWindow) :
    result ContractError (list WeeklyWindow) :=
  if (length windows =? 0)%nat then Err InvalidWeeklyWindow
  else if (MAX_WEEKLY_WINDOWS <? length windows)%nat then Err TooManyWindows
  else normalize_loop windows [] None.

(** ** Local wall clock to UTC *)

Fixpoint offset_after (offset : Z) (changes : list OffsetChange) (ts : Z) : Z :=
  match changes with
  | [] => offset
  | c :: changes => if change_from c <=? ts then offset_after (change_offset c) changes ts else offset
  end.

Definition offset_at (s : AvailabilitySchedule) (ts : Z) : Z :=
  offset_after (utc_offset_seconds s) (offset_changes s) ts.

(** The offsets tried: index 0 is the base offset, index [n + 1] the [n]-th change. *)
Definition offset_candidates (s : AvailabilitySchedule) : list Z :=
  utc_offset_seconds s :: (change_offset <$> offset_changes s).

Definition try_offset (s : AvailabilitySchedule) (local_ts : Z) (best : option Z) (candidate : Z) :
    option (option Z) :=
  utc ← checked_sub_i64 local_ts candidate;
  Some (if utc <? 0 then best
        else if negb (offset_at s utc =? candidate) then best
        else match best with
             | None => Some utc
             | Some current => Some (if utc <? current then utc else current)
             end).

Definition local_to_utc (s : AvailabilitySchedule) (local_ts : Z) : option (option Z) :=
  if local_ts <? 0 then Some None
  else fold_opt (try_offset s local_ts) (offset_candidates s) None.

(** ** Materialised ranges *)

Definition clip (start fin lower upper : Z) : option AvailableRange :=
  let clipped_start := if lower <? start then start else lower in
  let clipped_end := if fin <? upper then fin else upper in
  if clipped_end <=? clipped_start then None else Some (mkRange clipped_start clipped_end).

(** Clip to the day, then to the query, and push what is left. *)
Definition push_clipped (candidates : list AvailableRange) (from until day_start day_end start fin : Z) :
    list AvailableRange :=
  match clip from until day_start day_end with
  | Some c => match clip (start_ts c) (end_ts c) start fin with
              | Some c => candidates ++ [c]
              | None => candidates
              end
  | None => candidates
  end.

Definition weekday_of (local_day : Z) : Z :=
  as_u32 (Z.rem (local_day / SECONDS_PER_DAY + EPOCH_WEEKDAY_OFFSET) 7).

Definition window_step (s : AvailabilitySchedule) (day_start day_end start fin local_day : Z)
    (candidates : list AvailableRange) (w : WeeklyWindow) : option (list AvailableRange) :=
  if negb (weekday w =? weekday_of local_day) then Some candidates
  else
    local_start ← checked_add_i64 local_day (start_minute w * SECONDS_PER_MINUTE);
    local_end ← checked_add_i64 local_day (end_minute w * SECONDS_PER_MINUTE);
    utc_start ← local_to_utc s local_start;
    match utc_start with
    | None => Some candidates
    | Some utc_start =>
        utc_end ← local_to_utc s local_end;
        match utc_end with
        | None => Some candidates
        | Some utc_end =>
            Some (push_clipped candidates utc_start utc_end day_start day_end start fin)
        end
    end.

Definition local_day_step (s : AvailabilitySchedule) (day_start day_end start fin : Z)
    (st : Z * list AvailableRange) : option (Z * list AvailableRange) :=
  candidates ← fold_opt (window_step s day_start day_end start fin st.1) (weekly s) st.2;
  local_day ← checked_add_i64 st.1 SECONDS_PER_DAY;
  Some (local_day, candidates).

(** The weekly windows of every local day that can map into the UTC day. *)
Definition weekly_candidates (s : AvailabilitySchedule) (day_start day_end start fin : Z) :
    option (list AvailableRange) :=
  local_min ← checked_add_i64 (as_i64 day_start) MIN_UTC_OFFSET_SECONDS;
  local_max ← checked_add_i64 (as_i64 day_end) MAX_UTC_OFFSET_SECONDS;
  first_local_day ← checked_mul_i64 (local_min / SECONDS_PER_DAY) SECONDS_PER_DAY;
  local_last ← checked_sub_i64 local_max 1;
  last_local_day ← checked_mul_i64 (local_last / SECONDS_PER_DAY) SECONDS_PER_DAY;
  st ← while (Z.to_nat ((last_local_day - first_local_day) / SECONDS_PER_DAY + 2))
         (λ st, st.1 <=? last_local_day) (local_day_step s day_start day_end start fin)
         (first_local_day, []);
  Some st.2.

Definition exception_candidates (day_start day_end start fin : Z)
    (exceptions : list AvailabilityException) (candidates : list AvailableRange) :
    list AvailableRange :=
  foldl (λ candidates x,
    if negb (bool_decide (kind x = Available)) then candidates
    else push_clipped candidates (from_ts x) (until_ts x) day_start day_end start fin)
    candidates exceptions.

(** The index and value of the least start at or after [i]. *)
Definition select_min (candidates : list AvailableRange) (i : nat) (first : AvailableRange) :
    nat * AvailableRange :=
  foldl (λ '(min_index, min_value) j,
    match candidates !! j with
    | Some value =>
        if start_ts value <? start_ts min_value then (j, value) else (min_index, min_value)
    | None => (min_index, min_value)
    end) (i, first) (seq (S i) (length candidates - S i)).

Definition selection_step (candidates : list AvailableRange) (i : nat) : list AvailableRange :=
  match candidates !! i with
  | None => candidates
  | Some value =>
      let min_index := (select_min candidates i value).1 in
      if (min_index =? i)%nat then candidates
      else match candidates !! i, candidates !! min_index with
           | Some l, Some r => <[min_index := l]> (<[i := r]> candidates)
           | _, _ => candidates
           end
  end.

Definition selection_sort (candidates : list AvailableRange) : list AvailableRange :=
  foldl selection_step candidates (seq 0 (length candidates)).

(** Fold one candidate into the ranges so far. *)
Definition merge_range (merged : list AvailableRange) (c : AvailableRange) : list AvailableRange :=
  match last merged with
  | Some l =>
      if start_ts c <=? end_ts l then
        if end_ts l <? end_ts c
        then <[pred (length merged) := mkRange (start_ts l) (end_ts c)]> merged
        else merged
      else merged ++ [c]
  | None => merged ++ [c]
  end.

Definition day_step (s : AvailabilitySchedule) (exceptions : list AvailabilityException)
    (start fin : Z) (st : Z * list AvailableRange) : option (Z * list AvailableRange) :=
  day_start ← checked_mul_u64 st.1 SECONDS_PER_DAY;
  day_end ← checked_add_u64 day_start SECONDS_PER_DAY;
  candidates ← weekly_candidates s day_start day_end start fin;
  let candidates := exception_candidates day_start day_end start fin exceptions candidates in
  let merged := foldl merge_range st.2 (selection_sort candidates) in
  day ← checked_add_u64 st.1 1;
  Some (day, merged).

Definition merged_ranges (s : AvailabilitySchedule) (exceptions : list AvailabilityException)
    (start fin : Z) : option (list AvailableRange) :=
  let first_day := Z.quot start SECONDS_PER_DAY in
  fin_1 ← checked_sub_u64 fin 1;
  let last_day := Z.quot fin_1 SECONDS_PER_DAY in
  st ← while (Z.to_nat (last_day - first_day + 2)) (λ st, st.1 <=? last_day)
         (day_step s exceptions start fin) (first_day, []);
  Some st.2.

(** What one blackout leaves of one segment. *)
Definition cut_segment (blackout : AvailabilityException) (segment : AvailableRange) :
    list AvailableRange :=
  if (until_ts blackout <=? start_ts segment) || (end_ts segment <=? from_ts blackout)
  then [segment]
  else (if start_ts segment <? from_ts blackout
        then [mkRange (start_ts segment) (from_ts blackout)] else []) ++
       (if until_ts blackout <? end_ts segment
        then [mkRange (until_ts blackout) (end_ts segment)] else []).

Definition cut_segments (segments : list AvailableRange) (blackout : AvailabilityException) :
    list AvailableRange := segments ≫= cut_segment blackout.

Definition blackouts (exceptions : list AvailabilityException) : list AvailabilityException :=
  filter (λ x, kind x = Unavailable) exceptions.

Definition subtract_blackouts (merged : list AvailableRange)
    (blocked : list AvailabilityException) : list AvailableRange :=
  merged ≫= λ range, foldl cut_segments [range] blocked.

Definition compute_ranges (s : AvailabilitySchedule) (exceptions : list AvailabilityException)
    (start fin : Z) : option (list AvailableRange) :=
  merged ← merged_ranges s exceptions start fin;
  let blocked := blackouts exceptions in
  if bool_decide (blocked = []) then Some merged
  else Some (subtract_blackouts merged blocked).
