(* ===== verification/AvailabilityProps.v ===== *)
(** * Availability of a participant: what the computation yields

    [canonical_windows] and [canonical] (of [Intervals.v]) are the normal forms; the theorems
    show that normalisation and materialisation reach them without changing the instants they
    stand for, that they always end, and that local instants are resolved to the earliest
    UTC instant that reads so. *)
From Stdlib Require Import Sorted.
From S2P Require Import Prelude Machine Host Loops Intervals AvailabilityCalc.

(** ** Merging into the last range *)

Lemma insert_last {A} (l : list A) x y : <[pred (length (l ++ [x])) := y]> (l ++ [x]) = l ++ [y].
Proof.
  rewrite length_app. simpl. replace (pred (length l + 1)) with (length l + 0)%nat by lia.
  by rewrite insert_app_r.
Qed.

Lemma last_split {A} (l : list A) x : last l = Some x → ∃ l', l = l' ++ [x].
Proof. apply last_Some. Qed.

(** [merge_range] adds a candidate that starts no earlier than the last range. *)
Lemma merge_range_ok merged c :
  canonical merged → nonempty c →
  (∀ l, last merged = Some l → start_ts l ≤ start_ts c) →
  canonical (merge_range merged c) ∧
  ∀ t, covers (merge_range merged c) t ↔ covers merged t ∨ in_range_of t c.
Proof.
  intros Hm Hc Hle. unfold merge_range.
  destruct (last merged) as [l|] eqn:Hl; [|apply last_None in Hl as ->].
  - specialize (Hle l eq_refl). apply last_split in Hl as [m ->].
    pose proof Hm as (Hm1 & [Hln _]%canonical_cons & Hgap)%canonical_app.
    assert (∀ r, r ∈ m → end_ts r < start_ts l) as Hgap' by
      (intros r Hr; apply (Hgap r l Hr); by left).
    destruct (start_ts c <=? end_ts l) eqn:Ht; [destruct (end_ts l <? end_ts c) eqn:He|]; bool_prop.
    + rewrite insert_last. split.
      * apply canonical_app. split_and!; [done| |].
        -- apply canonical_one. unfold nonempty in *. simpl. lia.
        -- intros r r' Hr ->%list_elem_of_singleton. unfold before. simpl. by apply Hgap'.
      * intros t. rewrite !covers_app, !covers_one. unfold in_range_of, nonempty in *. simpl.
        split; [intros [|]|intros [[|]|]]; try tauto; try (right; lia). 
        destruct (Z_lt_le_dec t (end_ts l)); [left; right; lia|right; lia].
    + split; [done|]. intros t. rewrite !covers_app, !covers_one.
      unfold in_range_of, nonempty in *. split; [tauto|intros [|]]; [done|right; lia].
    + split; [|intros t; by rewrite covers_app, covers_one].
      apply canonical_app. split_and!; [done|by apply canonical_one|].
      intros r r' Hr ->%list_elem_of_singleton. unfold before, nonempty in *.
      apply elem_of_app in Hr as [Hr| ->%list_elem_of_singleton]; [|lia].
      specialize (Hgap' r Hr). lia.
  - split; [by apply canonical_one|]. intros t. simpl. rewrite covers_one.
    pose proof (covers_nil t). tauto.
Qed.

(** The start of the last range never passes that of the last candidate. *)
Lemma merge_range_last merged c l :
  (∀ l, last merged = Some l → start_ts l ≤ start_ts c) →
  last (merge_range merged c) = Some l → start_ts l ≤ start_ts c.
Proof.
  intros Hle. unfold merge_range. destruct (last merged) as [x|] eqn:Hx.
  - specialize (Hle x eq_refl). pose proof Hx as Hx'. apply last_split in Hx' as [m ->].
    repeat case_match; rewrite ?insert_last, ?last_snoc; intros; simplify_eq; simpl; lia.
  - rewrite last_snoc. intros. simplify_eq. lia.
Qed.

Definition starts_before (c c' : AvailableRange) : Prop := start_ts c ≤ start_ts c'.

Lemma merge_sorted cs merged :
  StronglySorted starts_before cs → Forall nonempty cs → canonical merged →
  (∀ l c, last merged = Some l → c ∈ cs → start_ts l ≤ start_ts c) →
  canonical (foldl merge_range merged cs) ∧
  ∀ t, covers (foldl merge_range merged cs) t ↔ covers merged t ∨ covers cs t.
Proof.
  revert merged. induction cs as [|c cs IH]; intros merged Hs Hn Hm Hle; simpl.
  - split; [done|]. intros t. pose proof (covers_nil t). tauto.
  - apply StronglySorted_inv in Hs as [Hs Hf]. inv Hn. rewrite Forall_forall in Hf.
    assert (∀ l, last merged = Some l → start_ts l ≤ start_ts c) as Hlast.
    { intros l Hl. apply Hle; [done|by left]. }
    destruct (merge_range_ok merged c) as [Hm' Hcov]; [done..|].
    destruct (IH (merge_range merged c)) as [Hc Hcov']; [done..| |].
    + intros l c' Hl Hc'. apply merge_range_last in Hl; [|done].
      specialize (Hf c' Hc'). unfold starts_before in Hf. lia.
    + split; [done|]. intros t. rewrite Hcov', Hcov, covers_cons. tauto.
Qed.

(** ** Weekly windows in normal form *)

Definition window_ok (w : WeeklyWindow) : Prop :=
  0 ≤ weekday w ≤ 6 ∧ 0 ≤ start_minute w < end_minute w ∧ end_minute w ≤ MINUTES_PER_DAY.
(** The declared widths of a window's fields. *)
Definition window_typed (w : WeeklyWindow) : Prop := 0 ≤ weekday w ∧ 0 ≤ start_minute w.

Definition covers_minute (l : list WeeklyWindow) (d m : Z) : Prop :=
  ∃ w, w ∈ l ∧ weekday w = d ∧ start_minute w ≤ m < end_minute w.

Definition window_before (w w' : WeeklyWindow) : Prop :=
  weekday w < weekday w' ∨ weekday w = weekday w' ∧ end_minute w < start_minute w'.
Definition canonical_windows (l : list WeeklyWindow) : Prop :=
  Forall window_ok l ∧ StronglySorted window_before l.
Definition in_order (w w' : WeeklyWindow) : Prop :=
  weekday w < weekday w' ∨ weekday w = weekday w' ∧ start_minute w ≤ start_minute w'.

(** A week laid out on one line, a minute apart between days, so that windows of different
    days neither overlap nor touch. *)
Definition as_range (w : WeeklyWindow) : AvailableRange :=
  mkRange (weekday w * 1441 + start_minute w) (weekday w * 1441 + end_minute w).

Lemma window_invalid_iff w : window_typed w → window_invalid w = false ↔ window_ok w.
Proof.
  unfold window_typed, window_invalid, window_ok, MINUTES_PER_DAY. intros [? ?].
  rewrite !orb_false_iff, !Z.ltb_ge, !Z.leb_gt. lia.
Qed.

Lemma out_of_order_iff p w : out_of_order p w = false ↔ in_order p w.
Proof.
  unfold out_of_order, in_order. rewrite orb_false_iff, andb_false_iff, !Z.ltb_ge, Z.eqb_neq. lia.
Qed.

Lemma as_range_inj w w' : window_ok w → window_ok w' → as_range w = as_range w' → w = w'.
Proof.
  unfold window_ok, MINUTES_PER_DAY. destruct w as [d s e], w' as [d' s' e']. simpl.
  intros (?&?&?) (?&?&?) [= Hx Hy]. assert (d = d') as -> by lia. f_equal; lia.
Qed.

Lemma as_range_before w w' :
  window_ok w → window_ok w' → before (as_range w) (as_range w') ↔ window_before w w'.
Proof. unfold window_ok, before, window_before, MINUTES_PER_DAY. simpl. lia. Qed.

Lemma as_range_nonempty w : window_ok w → nonempty (as_range w).
Proof. unfold window_ok, nonempty. simpl. lia. Qed.

Lemma canonical_windows_iff l :
  Forall window_ok l → canonical_windows l ↔ canonical (as_range <$> l).
Proof.
  intros Hok. unfold canonical_windows, canonical. induction Hok as [|w l Hw Hl IH]; simpl.
  { split; intros _; repeat constructor. }
  split.
  - intros [_ Hs]. apply StronglySorted_inv in Hs as [Hs Hf].
    destruct (proj1 IH (conj Hl Hs)) as [Hs' Hn']. split; constructor; try done.
    + rewrite Forall_fmap, !Forall_forall in *. intros x Hx.
      apply as_range_before; auto.
    + by apply as_range_nonempty.
  - intros [Hs Hn]. apply StronglySorted_inv in Hs as [Hs Hf]. inv Hn.
    destruct (proj2 IH) as [_ Hs']; [done|]. split; constructor; try done.
    rewrite Forall_fmap, !Forall_forall in *. intros x Hx. apply as_range_before; auto.
    by apply (Hf x Hx).
Qed.

Lemma covers_as_range l d m :
  Forall window_ok l → 0 ≤ m ≤ MINUTES_PER_DAY →
  covers (as_range <$> l) (d * 1441 + m) ↔ covers_minute l d m.
Proof.
  unfold MINUTES_PER_DAY. intros Hok Hm. rewrite Forall_forall in Hok. split.
  - intros (r & (w & -> & Hw)%list_elem_of_fmap & Ht). exists w. specialize (Hok w Hw).
    unfold window_ok, in_range_of, MINUTES_PER_DAY in *. simpl in *. split; [done|lia].
  - intros (w & Hw & <- & Ht). exists (as_range w). split.
    + apply list_elem_of_fmap. by exists w.
    + unfold in_range_of. simpl. lia.
Qed.

Lemma covers_minute_bounds l d m :
  Forall window_ok l → covers_minute l d m → 0 ≤ m ≤ MINUTES_PER_DAY.
Proof.
  rewrite Forall_forall. intros Hok (w & Hw & _ & Hm). specialize (Hok w Hw).
  unfold window_ok in Hok. lia.
Qed.

(** Merging windows is merging the ranges they lay out. *)
Lemma merge_window_range n w :
  Forall window_ok n → window_ok w → (∀ l, last n = Some l → in_order l w) →
  as_range <$> merge_window n w = merge_range (as_range <$> n) (as_range w) ∧
  Forall window_ok (merge_window n w).
Proof.
  intros Hn Hw Hord. unfold merge_window, merge_range. rewrite fmap_last.
  destruct (last n) as [l|] eqn:Hl; simpl.
  - specialize (Hord l eq_refl). apply last_split in Hl as [m ->].
    rewrite Forall_app, Forall_singleton in Hn. destruct Hn as [Hm Hl].
    pose proof Hl as Hl'. pose proof Hw as Hw'. unfold window_ok, in_order, MINUTES_PER_DAY in Hl', Hw', Hord.
    rewrite fmap_app. simpl. rewrite !insert_last.
    destruct (weekday l =? weekday w) eqn:Hd, (start_minute w <=? end_minute l) eqn:Ht; simpl; bool_prop;
      rewrite ?(proj2 (Z.leb_gt (weekday w * 1441 + start_minute w) _)) by lia;
      rewrite ?(proj2 (Z.leb_le (weekday w * 1441 + start_minute w) _)) by lia;
      try by rewrite !fmap_app, !Forall_app, !Forall_singleton.
    rewrite fmap_app, Forall_app, Forall_singleton. unfold window_ok, MINUTES_PER_DAY. simpl.
    destruct (end_minute l <? end_minute w) eqn:He; bool_prop.
    + rewrite (proj2 (Z.ltb_lt _ _)) by lia. unfold as_range. simpl. rewrite Hd.
      split; [done|]. split; [done|]. lia.
    + rewrite (proj2 (Z.ltb_ge _ _)) by lia. split; [by destruct l|]. split; [done|]. lia.
  - apply last_None in Hl as ->. simpl. by rewrite Forall_singleton.
Qed.

Lemma merge_window_last n w :
  last (merge_window n w) = Some w ∨ ∃ l, last n = Some l ∧ weekday l = weekday w ∧
    start_minute l = start_minute (default w (last (merge_window n w))) ∧
    weekday (default w (last (merge_window n w))) = weekday w.
Proof.
  unfold merge_window. destruct (last n) as [l|] eqn:Hl.
  - destruct (_ && _) eqn:Hc; [|left; by rewrite last_snoc]. bool_prop. right. exists l.
    apply last_split in Hl as [m ->]. rewrite insert_last, last_snoc. simpl. done.
  - left. by rewrite last_snoc.
Qed.

Lemma in_order_trans w1 w2 w3 : in_order w1 w2 → in_order w2 w3 → in_order w1 w3.
Proof. unfold in_order. lia. Qed.

Lemma merge_window_in_order n w l :
  (∀ l, last n = Some l → in_order l w) → last (merge_window n w) = Some l → in_order l w.
Proof.
  intros Hord Hl. destruct (merge_window_last n w) as [Hw|(x & Hx & Hd & Hs & Hd')].
  - rewrite Hl in Hw. simplify_eq. unfold in_order. lia.
  - rewrite Hl in *. simpl in *. specialize (Hord x Hx). unfold in_order in *. lia.
Qed.

Definition window_chain (previous : option WeeklyWindow) (ws : list WeeklyWindow) : Prop :=
  StronglySorted in_order (option_list previous ++ ws).

(** The loop succeeds exactly on well-formed ordered windows and merges them left to right. *)
Lemma normalize_loop_Ok ws n previous r :
  Forall window_typed ws →
  normalize_loop ws n previous = Ok r →
  Forall window_ok ws ∧ window_chain previous ws ∧ r = foldl merge_window n ws.
Proof.
  revert n previous. induction ws as [|w ws IH]; intros n previous Hty Hr; simpl in *.
  { simplify_eq. split_and!; [done| |done]. destruct previous; repeat constructor. }
  inv Hty. destruct (window_invalid w) eqn:Hw; [done|]. apply window_invalid_iff in Hw; [|done].
  destruct (match previous with Some p => out_of_order p w | None => false end) eqn:Ho; [done|].
  apply IH in Hr as (Hok & Hs & ->); [|done]. split_and!; [by constructor| |done].
  unfold window_chain in *. destruct previous as [p|]; simpl in *; [|done].
  constructor; [done|]. apply out_of_order_iff in Ho. constructor; [done|].
  apply StronglySorted_inv in Hs as [_ Hf]. rewrite Forall_forall in *. intros x Hx.
  by eapply in_order_trans, Hf.
Qed.

Lemma normalize_loop_run ws n previous :
  Forall window_ok ws → window_chain previous ws →
  normalize_loop ws n previous = Ok (foldl merge_window n ws).
Proof.
  revert n previous. induction ws as [|w ws IH]; intros n previous Hok Hs; simpl; [done|].
  inv Hok. assert (window_invalid w = false) as ->.
  { apply window_invalid_iff; [|done]. unfold window_typed, window_ok in *. lia. }
  assert (StronglySorted in_order (w :: ws)) as Hs'.
  { unfold window_chain in Hs. destruct previous; simpl in Hs; [|done].
    by apply StronglySorted_inv in Hs as [? _]. }
  assert (match previous with Some p => out_of_order p w | None => false end = false) as ->.
  { destruct previous as [p|]; [|done]. apply out_of_order_iff.
    apply StronglySorted_inv in Hs as [_ Hf]. by inv Hf. }
  by apply IH.
Qed.

Lemma merge_windows_ranges ws n :
  Forall window_ok n → Forall window_ok ws → StronglySorted in_order ws →
  (∀ l w, last n = Some l → w ∈ ws → in_order l w) →
  as_range <$> foldl merge_window n ws = foldl merge_range (as_range <$> n) (as_range <$> ws) ∧
  Forall window_ok (foldl merge_window n ws).
Proof.
  revert n. induction ws as [|w ws IH]; intros n Hn Hws Hs Hord; simpl; [done|].
  inv Hws. apply StronglySorted_inv in Hs as [Hs Hf]. rewrite Forall_forall in Hf.
  assert (∀ l, last n = Some l → in_order l w) as Hlast.
  { intros l Hl. apply Hord; [done|by left]. }
  destruct (merge_window_range n w) as [<- Hok]; [done..|]. apply IH; [done..|].
  intros l x Hl Hx. apply in_order_trans with w; [|by apply Hf].
  by eapply merge_window_in_order.
Qed.

Lemma merge_windows_normal ws :
  Forall window_ok ws → StronglySorted in_order ws →
  canonical_windows (foldl merge_window [] ws) ∧
  ∀ t, covers (as_range <$> foldl merge_window [] ws) t ↔ covers (as_range <$> ws) t.
Proof.
  intros Hok Hs. destruct (merge_windows_ranges ws []) as [Heq Hok']; [done..|].
  destruct (merge_sorted (as_range <$> ws) []) as [Hc Hcov].
  - clear -Hok Hs. induction Hs as [|w ws Hs IH Hf]; simpl; [constructor|]. inv Hok.
    constructor; [by apply IH|]. rewrite Forall_fmap, !Forall_forall in *. intros x Hx.
    specialize (Hf x Hx). assert (window_ok x) by auto.
    unfold starts_before, in_order, window_ok, MINUTES_PER_DAY in *. simpl. lia.
  - rewrite Forall_fmap. eapply Forall_impl; [done|]. apply as_range_nonempty.
  - apply canonical_nil.
  - done.
  - rewrite canonical_windows_iff, Heq by done. split; [done|]. intros t. rewrite Hcov.
    pose proof (covers_nil t). tauto.
Qed.

Lemma canonical_windows_in_order l : canonical_windows l → StronglySorted in_order l.
Proof.
  intros [Hok Hs]. induction Hs as [|w l Hs IH Hf]; constructor; inv Hok; [by apply IH|].
  rewrite Forall_forall in *. intros x Hx. specialize (Hf x Hx). 
  unfold window_before, in_order, window_ok in *. lia.
Qed.

Lemma fmap_as_range_inj l l' :
  Forall window_ok l → Forall window_ok l' → as_range <$> l = as_range <$> l' → l = l'.
Proof.
  intros Hl. revert l'. induction Hl as [|w l Hw Hl IH]; intros [|w' l'] Hl' Heq; [done..|].
  apply Forall_cons in Hl' as [Hw' Hl']. injection Heq as Hs He Heq'. f_equal; [|by apply IH].
  apply as_range_inj; [done..|]. unfold as_range. by rewrite Hs, He.
Qed.

(** Canonical windows are their own normal form. *)
Lemma merge_canonical_windows l : canonical_windows l → foldl merge_window [] l = l.
Proof.
  intros Hl. pose proof Hl as [Hok Hs].
  destruct (merge_windows_normal l) as [Hc Hcov]; [done|by apply canonical_windows_in_order|].
  pose proof Hc as [Hok' _]. rewrite canonical_windows_iff in Hc, Hl by done.
  apply fmap_as_range_inj; [done..|]. by apply canonical_unique.
Qed.

Lemma length_merge_window n w : (length (merge_window n w) ≤ S (length n))%nat.
Proof.
  unfold merge_window. repeat case_match; rewrite ?length_insert, ?length_app; simpl; lia.
Qed.

Lemma merge_window_not_nil n w : merge_window n w ≠ [].
Proof.
  unfold merge_window. destruct (last n) as [l|] eqn:Hl; [case_match|];
    try (intros Hn; apply (f_equal length) in Hn; rewrite length_app in Hn; simpl in Hn; lia).
  intros Hn%(f_equal length). rewrite length_insert in Hn. by destruct n.
Qed.

Lemma length_merge_windows ws n :
  (length (foldl merge_window n ws) ≤ length n + length ws)%nat ∧
  (foldl merge_window n ws = [] → n = [] ∧ ws = []).
Proof.
  revert n. induction ws as [|w ws IH]; intros n; simpl; [split; [lia|done]|].
  destruct (IH (merge_window n w)) as [Hlen Hnil]. pose proof (length_merge_window n w).
  split; [lia|]. by intros [?%merge_window_not_nil _]%Hnil.
Qed.

Lemma normalize_windows_Ok ws n :
  Forall window_typed ws → normalize_windows ws = Ok n →
  (0 < length ws ≤ MAX_WEEKLY_WINDOWS)%nat ∧ Forall window_ok ws ∧ StronglySorted in_order ws ∧
  n = foldl merge_window [] ws ∧ canonical_windows n.
Proof.
  intros Hty. unfold normalize_windows.
  destruct (Nat.eqb_spec (length ws) 0) as [H0|H0]; [done|].
  destruct (Nat.ltb_spec MAX_WEEKLY_WINDOWS (length ws)) as [H28|H28]; [done|].
  intros (Hok & Hs & ->)%normalize_loop_Ok; [|done].
  do 4 (split; [first [done|lia]|]). by apply merge_windows_normal.
Qed.

Lemma normalize_windows_run ws :
  (0 < length ws ≤ MAX_WEEKLY_WINDOWS)%nat → Forall window_ok ws → StronglySorted in_order ws →
  normalize_windows ws = Ok (foldl merge_window [] ws).
Proof.
  intros Hlen Hok Hs. unfold normalize_windows.
  rewrite (proj2 (Nat.eqb_neq _ _)), (proj2 (Nat.ltb_ge _ _)) by lia. by apply normalize_loop_run.
Qed.

(** Normalising weekly windows succeeds exactly when there are between 1 and 28 windows,
    each well formed, in order of weekday and start; the result is the canonical list (sorted,
    gaps between windows of a day) that covers the same minutes of the same weekdays, and
    normalising it again changes nothing. *)
Theorem normalize_windows_canonical (ws : list WeeklyWindow) :
  Forall window_typed ws →
  ((∃ n, normalize_windows ws = Ok n) ↔
    (0 < length ws ≤ MAX_WEEKLY_WINDOWS)%nat ∧ Forall window_ok ws ∧ StronglySorted in_order ws) ∧
  ∀ n, normalize_windows ws = Ok n →
    canonical_windows n ∧ (∀ d m, covers_minute n d m ↔ covers_minute ws d m) ∧
    normalize_windows n = Ok n.
Proof.
  intros Hty. split.
  - split; [intros [n Hn]; by apply normalize_windows_Ok in Hn as (?&?&?&_)|].
    intros (?&?&?). eexists. by apply normalize_windows_run.
  - intros n (Hlen & Hok & Hs & -> & Hc)%normalize_windows_Ok; [|done]. pose proof Hc as [Hok' _].
    destruct (merge_windows_normal ws) as [_ Hcov]; [done..|].
    destruct (length_merge_windows ws []) as [Hlen' Hnil]. split_and!; [done| |].
    + intros d m. split; intros Hm; pose proof Hm as Hb;
        apply covers_minute_bounds in Hb; try done;
        rewrite <-covers_as_range in Hm |- * by done; by apply Hcov.
    + rewrite <-(merge_canonical_windows (foldl merge_window [] ws)) at 2 by done.
      apply normalize_windows_run; [|done|by apply canonical_windows_in_order].
      split; [|simpl in Hlen'; lia]. destruct (foldl _ _ _) eqn:Hf; [|simpl; lia].
      destruct (Hnil eq_refl) as [_ ->]. simpl in Hlen; lia.
Qed.
