(* ===== verification/AvailabilityRanges.v ===== *)
(** * Availability of a participant: local instants and materialised ranges

    [local_to_utc] finds the earliest UTC instant that reads as the given local instant, and
    [compute_ranges] the canonical list of the instants of a query that a weekly window or an
    extra-availability exception opens and no blackout closes.  Both end on every input in
    the range of [time_ok], without a trap. *)
From Stdlib Require Import Sorted.
From S2P Require Import Prelude Machine Host Loops Intervals AvailabilityCalc AvailabilityProps.

(** The instants the theorems speak of: up to 2^62 seconds, far beyond any ledger time. *)
Definition time_max : Z := 4611686018427387904.

(** ** Local instants *)

Definition offset_ok (o : Z) : Prop := MIN_UTC_OFFSET_SECONDS ≤ o ≤ MAX_UTC_OFFSET_SECONDS.

(** What [set_schedule] checks before it stores a schedule. *)
Definition schedule_ok (s : AvailabilitySchedule) : Prop :=
  Forall offset_ok (offset_candidates s) ∧ Forall window_ok (weekly s).

(** At UTC instant [u] the participant's clock shows [l]. *)
Definition reads (s : AvailabilitySchedule) (u l : Z) : Prop := 0 ≤ u ∧ u + offset_at s u = l.

Lemma offset_after_elem o changes ts :
  offset_after o changes ts ∈ o :: (change_offset <$> changes).
Proof.
  revert o. induction changes as [|c changes IH]; intros o; simpl; [by left|].
  case_match; [right; apply IH|by left].
Qed.

(** The earliest instant among those whose offset has been tried. *)
Definition earliest_of (s : AvailabilitySchedule) (l : Z) (tried : list Z) (best : option Z) : Prop :=
  match best with
  | Some u => reads s u l ∧ ∀ u', reads s u' l → offset_at s u' ∈ tried → u ≤ u'
  | None => ∀ u', reads s u' l → offset_at s u' ∉ tried
  end.

Lemma try_offset_ok s l tried best o :
  0 ≤ l ≤ time_max + 10 * SECONDS_PER_DAY → offset_ok o → earliest_of s l tried best →
  ∃ best', try_offset s l best o = Some best' ∧ earliest_of s l (tried ++ [o]) best'.
Proof.
  unfold offset_ok, MIN_UTC_OFFSET_SECONDS, MAX_UTC_OFFSET_SECONDS, time_max, SECONDS_PER_DAY.
  intros Hl Ho Hbest. unfold try_offset, checked_sub_i64.
  rewrite checked_in by range_lia. simpl. eexists. split; [done|].
  assert (Hmore : ∀ u', reads s u' l → offset_at s u' ∈ tried ++ [o] →
    offset_at s u' ∈ tried ∨ u' = l - o).
  { intros u' [Hu Hr] [Ht|Ht%list_elem_of_singleton]%elem_of_app; [by left|right; lia]. }
  assert (Hskip : (∀ u', reads s u' l → u' ≠ l - o) →
    earliest_of s l (tried ++ [o]) best).
  { intros Hno. unfold earliest_of in *. destruct best as [u|].
    - destruct Hbest as [Hu Hmin]. split; [done|]. intros u' Hr Ht.
      destruct (Hmore u' Hr Ht) as [Ht'|Heq]; [by apply Hmin|by destruct (Hno u')].
    - intros u' Hr Ht. destruct (Hmore u' Hr Ht) as [Ht'|Heq];
        [by apply (Hbest u' Hr)|by destruct (Hno u')]. }
  destruct (l - o <? 0) eqn:Hneg; bool_prop.
  { apply Hskip. unfold reads. lia. }
  destruct (offset_at s (l - o) =? o) eqn:Hat; simpl; bool_prop.
  2:{ apply Hskip. intros u' [Hu Hr] ->. lia. }
  assert (reads s (l - o) l) as Hnew by (split; lia).
  unfold earliest_of in *. destruct best as [u|].
  - destruct Hbest as [Hu Hmin]. destruct (l - o <? u) eqn:Hlt; bool_prop; (split; [done|]);
      intros u' Hr Ht; destruct (Hmore u' Hr Ht) as [Ht'| ->]; try lia;
      specialize (Hmin u' Hr Ht'); lia.
  - split; [done|]. intros u' Hr Ht.
    destruct (Hmore u' Hr Ht) as [Ht'| ->]; [|lia]. by destruct (Hbest u' Hr).
Qed.

Lemma local_to_utc_run s l :
  schedule_ok s → l ≤ time_max + 10 * SECONDS_PER_DAY →
  ∃ best, local_to_utc s l = Some best ∧
    (0 ≤ l → earliest_of s l (offset_candidates s) best) ∧ (l < 0 → best = None).
Proof.
  intros [Hoff _] Hl. unfold local_to_utc. destruct (l <? 0) eqn:Hneg; bool_prop.
  { exists None. split; [done|]. split; [lia|done]. }
  destruct (fold_opt_inv (try_offset s l) (earliest_of s l) (offset_candidates s) None)
    as (best & Hrun & Hbest).
  - by intros u' _ ?%elem_of_nil.
  - intros tried o best Ho Hbest. apply try_offset_ok; [lia| |done].
    rewrite Forall_forall in Hoff. by apply Hoff.
  - exists best. split; [done|]. split; [done|lia].
Qed.

(** The conversion of a local wall-clock instant never traps, and yields the earliest UTC
    instant at which the participant's clock shows it; it yields none exactly when there is no
    such instant (the hour skipped when clocks go forward) or the local instant is before
    the epoch. *)
Theorem local_to_utc_earliest (s : AvailabilitySchedule) (l : Z) :
  schedule_ok s → l ≤ time_max + 10 * SECONDS_PER_DAY →
  ∃ best, local_to_utc s l = Some best ∧
    match best with
    | Some u => 0 ≤ l ∧ reads s u l ∧ ∀ u', reads s u' l → u ≤ u'
    | None => l < 0 ∨ ∀ u, ¬ reads s u l
    end.
Proof.
  intros Hs Hl. destruct (local_to_utc_run s l Hs Hl) as (best & Hrun & Hpos & Hneg).
  exists best. split; [done|]. destruct (Z_lt_le_dec l 0) as [Hlt|Hle].
  { rewrite (Hneg Hlt). by left. }
  assert (∀ u, offset_at s u ∈ offset_candidates s) as Hall by (intros u; apply offset_after_elem).
  specialize (Hpos Hle). unfold earliest_of in Hpos. destruct best as [u|]; [naive_solver|].
  right. intros u Hr. by apply (Hpos u Hr).
Qed.

(** ** Clipping *)

(** A candidate of a day lies inside the day and the query. *)
Definition within (lo hi : Z) (c : AvailableRange) : Prop :=
  nonempty c ∧ lo ≤ start_ts c ∧ end_ts c ≤ hi.
Definition clipped (day_start day_end start fin : Z) (cs : list AvailableRange) : Prop :=
  Forall (within (Z.max day_start start) (Z.min day_end fin)) cs.

Lemma clip_Some a b lo hi c :
  clip a b lo hi = Some c ↔ c = mkRange (Z.max a lo) (Z.min b hi) ∧ nonempty c.
Proof.
  unfold clip, nonempty.
  replace (if lo <? a then a else lo) with (Z.max a lo) by (destruct (lo <? a) eqn:?; bool_prop; lia).
  replace (if b <? hi then b else hi) with (Z.min b hi) by (destruct (b <? hi) eqn:?; bool_prop; lia).
  destruct (Z.leb_spec (Z.min b hi) (Z.max a lo)); split.
  - done.
  - intros [-> Hn]. simpl in Hn. lia.
  - intros [= <-]. done.
  - by intros [-> _].
Qed.

Lemma clip_None a b lo hi : clip a b lo hi = None → ∀ t, ¬ (a ≤ t < b ∧ lo ≤ t < hi).
Proof.
  intros Hc t Ht. destruct (clip a b lo hi) eqn:He; [done|].
  enough (clip a b lo hi = Some (mkRange (Z.max a lo) (Z.min b hi))) by congruence.
  apply clip_Some. split; [done|]. unfold nonempty. simpl. lia.
Qed.

Lemma push_clipped_ok cs a b ds de st fn :
  clipped ds de st fn cs →
  clipped ds de st fn (push_clipped cs a b ds de st fn) ∧
  ∀ t, covers (push_clipped cs a b ds de st fn) t ↔
    covers cs t ∨ (a ≤ t < b ∧ ds ≤ t < de ∧ st ≤ t < fn).
Proof.
  intros Hcs. unfold push_clipped.
  destruct (clip a b ds de) as [c|] eqn:H1; [destruct (clip (start_ts c) (end_ts c) st fn) as [c'|] eqn:H2|].
  - apply clip_Some in H1 as [-> Hn1], H2 as [-> Hn2]. unfold clipped, nonempty in *. simpl in *.
    split.
    + apply Forall_app. split; [done|]. apply Forall_singleton.
      unfold within, nonempty. simpl. lia.
    + intros t. rewrite covers_app, covers_one. unfold in_range_of. simpl.
      split; (intros [|]; [by left|right; lia]).
  - apply clip_Some in H1 as [-> Hn1]. split; [done|]. intros t.
    pose proof (clip_None _ _ _ _ H2 t). simpl in *. split; [by left|].
    intros [|]; [done|]. lia.
  - split; [done|]. intros t. pose proof (clip_None _ _ _ _ H1 t).
    split; [by left|]. intros [|]; [done|]. lia.
Qed.

(** ** Weekly windows of one UTC day *)

(** [w] on the local day [d] (counted from the epoch) is open at the UTC instant [t]. *)
Definition window_open (s : AvailabilitySchedule) (d : Z) (w : WeeklyWindow) (t : Z) : Prop :=
  weekday w = (d + EPOCH_WEEKDAY_OFFSET) mod 7 ∧
  ∃ utc_start utc_end,
    local_to_utc s (d * SECONDS_PER_DAY + start_minute w * SECONDS_PER_MINUTE) = Some (Some utc_start) ∧
    local_to_utc s (d * SECONDS_PER_DAY + end_minute w * SECONDS_PER_MINUTE) = Some (Some utc_end) ∧
    utc_start ≤ t < utc_end.

(** The loops keep the candidates clipped, and covering [P] within the day and the query. *)
Definition collects (ds de st fn : Z) (P : Z → Prop) (cs : list AvailableRange) : Prop :=
  clipped ds de st fn cs ∧ ∀ t, covers cs t ↔ ds ≤ t < de ∧ st ≤ t < fn ∧ P t.

Lemma collects_ext ds de st fn P Q cs :
  (∀ t, ds ≤ t < de → st ≤ t < fn → P t ↔ Q t) → collects ds de st fn P cs → collects ds de st fn Q cs.
Proof.
  intros HPQ [Hc Hcov]. split; [done|]. intros t. rewrite Hcov. clear -HPQ.
  split; intros (?&?&?); (split_and!; [lia..|]); by apply HPQ.
Qed.

Lemma collects_push ds de st fn P cs a b :
  collects ds de st fn P cs →
  collects ds de st fn (λ t, P t ∨ a ≤ t < b) (push_clipped cs a b ds de st fn).
Proof.
  intros [Hc Hcov]. destruct (push_clipped_ok cs a b ds de st fn Hc) as [Hc' Hcov'].
  split; [done|]. intros t. rewrite Hcov', Hcov. tauto.
Qed.

Lemma weekday_of_day d : -1 ≤ d → weekday_of (d * SECONDS_PER_DAY) = (d + EPOCH_WEEKDAY_OFFSET) mod 7.
Proof.
  intros Hd. unfold weekday_of, SECONDS_PER_DAY, EPOCH_WEEKDAY_OFFSET.
  rewrite Z.div_mul by lia. rewrite rem_mod by lia. apply as_u32_small.
  pose proof (Z.mod_pos_bound (d + 4) 7 ltac:(lia)). unfold u32_max. lia.
Qed.

(** Day indices far from the bounds of [i64]. *)
Definition day_ok (d : Z) : Prop := -1 ≤ d ∧ d * SECONDS_PER_DAY ≤ time_max + 5 * SECONDS_PER_DAY.

Lemma window_step_ok s ds de st fn d w P cs :
  schedule_ok s → window_ok w → day_ok d → collects ds de st fn P cs →
  ∃ cs', window_step s ds de st fn (d * SECONDS_PER_DAY) cs w = Some cs' ∧
    collects ds de st fn (λ t, P t ∨ window_open s d w t) cs'.
Proof.
  intros Hs Hw [Hd1 Hd2] Hcs. unfold window_step. rewrite weekday_of_day by done.
  assert (Hskip : (∀ t, ¬ window_open s d w t) →
    collects ds de st fn (λ t, P t ∨ window_open s d w t) cs).
  { intros Hno. eapply collects_ext; [|done]. intros t _ _. specialize (Hno t). tauto. }
  destruct (weekday w =? _) eqn:Hday; simpl; bool_prop.
  2:{ eexists. split; [done|]. apply Hskip. by intros t [? _]. }
  assert (0 ≤ start_minute w * 60 ≤ 86400 ∧ 0 ≤ end_minute w * 60 ≤ 86400) as [Hsm Hem].
  { unfold window_ok, MINUTES_PER_DAY in Hw. lia. }
  unfold checked_add_i64, SECONDS_PER_MINUTE.
  rewrite (checked_in _ _ (_ + start_minute w * 60)) by
    (unfold time_max, SECONDS_PER_DAY in *; range_lia).
  rewrite (checked_in _ _ (_ + end_minute w * 60)) by
    (unfold time_max, SECONDS_PER_DAY in *; range_lia). simpl.
  destruct (local_to_utc_run s (d * SECONDS_PER_DAY + start_minute w * 60))
    as (us & Hus & _); [done|unfold time_max, SECONDS_PER_DAY in *; lia|].
  destruct (local_to_utc_run s (d * SECONDS_PER_DAY + end_minute w * 60))
    as (ue & Hue & _); [done|unfold time_max, SECONDS_PER_DAY in *; lia|].
  rewrite Hus. simpl. destruct us as [us|].
  2:{ eexists. split; [done|]. apply Hskip. intros t (_ & a & b & Ha & _).
      unfold SECONDS_PER_MINUTE in Ha. congruence. }
  rewrite Hue. simpl. destruct ue as [ue|].
  2:{ eexists. split; [done|]. apply Hskip. intros t (_ & a & b & _ & Hb & _).
      unfold SECONDS_PER_MINUTE in Hb. congruence. }
  eexists. split; [done|]. eapply collects_ext; [|by apply collects_push].
  intros t _ _. simpl. unfold window_open, SECONDS_PER_MINUTE. rewrite Hus, Hue.
  naive_solver.
Qed.

Lemma windows_of_day s ds de st fn d P cs :
  schedule_ok s → day_ok d → collects ds de st fn P cs →
  ∃ cs', fold_opt (window_step s ds de st fn (d * SECONDS_PER_DAY)) (weekly s) cs = Some cs' ∧
    collects ds de st fn (λ t, P t ∨ ∃ w, w ∈ weekly s ∧ window_open s d w t) cs'.
Proof.
  intros Hs Hd Hcs.
  apply (fold_opt_inv _ (λ ws cs, collects ds de st fn
    (λ t, P t ∨ ∃ w, w ∈ ws ∧ window_open s d w t) cs)).
  - eapply collects_ext; [|done]. intros t _ _. set_solver.
  - intros ws w cs1 Hw Hcs1. pose proof Hs as [_ Hok]. rewrite Forall_forall in Hok.
    destruct (window_step_ok s ds de st fn d w _ cs1 Hs (Hok w Hw) Hd Hcs1) as (cs2 & -> & Hcs2).
    exists cs2. split; [done|]. eapply collects_ext; [|done]. intros t _ _. simpl. set_solver.
Qed.

Definition weekly_open (s : AvailabilitySchedule) (t : Z) : Prop :=
  ∃ d w, w ∈ weekly s ∧ window_open s d w t.

Lemma reads_near s l u :
  schedule_ok s → reads s u l → u - 43200 ≤ l ≤ u + 50400.
Proof.
  intros [Hoff _] [_ <-]. rewrite Forall_forall in Hoff.
  specialize (Hoff _ (offset_after_elem (utc_offset_seconds s) (offset_changes s) u)).
  unfold offset_ok, offset_at, MIN_UTC_OFFSET_SECONDS, MAX_UTC_OFFSET_SECONDS in *. lia.
Qed.

Lemma local_to_utc_reads s l u : local_to_utc s l = Some (Some u) → reads s u l ∧ 0 ≤ l.
Proof.
  unfold local_to_utc. destruct (l <? 0) eqn:Hl; bool_prop; [done|]. intros Hu. split; [|done].
  enough (∀ v, Some u = Some v → reads s v l) as Hsound by by apply Hsound.
  eapply (fold_opt_keeps _ (λ best, ∀ v, best = Some v → reads s v l)), Hu; [|done].
  intros o b b' _ Hb Htry v ->. unfold try_offset in Htry.
  apply bind_Some in Htry as (w & Hw & Htry). checked_prop.
  destruct (l - o <? 0) eqn:Hneg; [naive_solver|]. destruct (offset_at s (l - o) =? o) eqn:Hat;
    simpl in Htry; [|naive_solver]. bool_prop.
  assert (reads s (l - o) l) by (split; lia). destruct b as [c|]; [|naive_solver].
  destruct (l - o <? c); naive_solver.
Qed.

(** A window that is open during a UTC day belongs to that day, the one before or the next. *)
Lemma window_open_day s d w t k :
  schedule_ok s → window_ok w → window_open s d w t →
  k * SECONDS_PER_DAY ≤ t < (k + 1) * SECONDS_PER_DAY → k - 1 ≤ d ≤ k + 1.
Proof.
  intros Hs Hw (_ & us & ue & Hus & Hue & Ht) Hk.
  apply local_to_utc_reads in Hus as [Hus _], Hue as [Hue _].
  apply reads_near in Hus, Hue; [|done..].
  unfold window_ok, SECONDS_PER_DAY, SECONDS_PER_MINUTE, MINUTES_PER_DAY in *. lia.
Qed.

Lemma weekly_candidates_ok s k st fn :
  schedule_ok s → 0 ≤ k → k * SECONDS_PER_DAY ≤ time_max →
  ∃ cs, weekly_candidates s (k * SECONDS_PER_DAY) ((k + 1) * SECONDS_PER_DAY) st fn = Some cs ∧
    collects (k * SECONDS_PER_DAY) ((k + 1) * SECONDS_PER_DAY) st fn (weekly_open s) cs.
Proof.
  intros Hs Hk Hmax. unfold weekly_candidates.
  assert (k * 86400 ≤ 4611686018427387904) as Hmax' by done.
  rewrite !as_i64_small by (unfold SECONDS_PER_DAY; range_lia).
  unfold checked_add_i64 at 1 2, checked_mul_i64, checked_sub_i64.
  set (ds := k * SECONDS_PER_DAY). set (de := (k + 1) * SECONDS_PER_DAY).
  assert ((ds + MIN_UTC_OFFSET_SECONDS) / SECONDS_PER_DAY = k - 1) as HF.
  { unfold ds, SECONDS_PER_DAY, MIN_UTC_OFFSET_SECONDS. Z.div_mod_to_equations. lia. }
  assert ((de + MAX_UTC_OFFSET_SECONDS - 1) / SECONDS_PER_DAY = k + 1) as HL.
  { unfold de, SECONDS_PER_DAY, MAX_UTC_OFFSET_SECONDS. Z.div_mod_to_equations. lia. }
  assert (Hin : ∀ x, -10 * SECONDS_PER_DAY ≤ x ≤ time_max + 10 * SECONDS_PER_DAY →
    checked i64_min i64_max x = Some x).
  { intros x Hx. apply checked_in. unfold SECONDS_PER_DAY, time_max in Hx. range_lia. }
  rewrite (Hin (ds + _)) by (unfold ds, time_max, SECONDS_PER_DAY, MIN_UTC_OFFSET_SECONDS; lia).
  rewrite (Hin (de + _)) by (unfold de, time_max, SECONDS_PER_DAY, MAX_UTC_OFFSET_SECONDS; lia).
  simpl. rewrite HF, (Hin (_ * _)) by (unfold time_max, SECONDS_PER_DAY; lia). simpl.
  rewrite (Hin (_ - 1)) by (unfold de, time_max, SECONDS_PER_DAY, MAX_UTC_OFFSET_SECONDS; lia).
  simpl. rewrite HL, (Hin (_ * _)) by (unfold time_max, SECONDS_PER_DAY; lia). simpl.
  destruct (while_total (λ st, st.1 <=? (k + 1) * SECONDS_PER_DAY) (local_day_step s ds de st fn)
    (λ x, ∃ d, x.1 = d * SECONDS_PER_DAY ∧ k - 1 ≤ d ≤ k + 2 ∧ collects ds de st fn
      (λ t, ∃ d' w, d' < d ∧ w ∈ weekly s ∧ window_open s d' w t ∧ k - 1 ≤ d') x.2)
    (λ x, Z.to_nat (k + 2 - x.1 / SECONDS_PER_DAY))
  ) with (fuel := Z.to_nat (((k + 1) * SECONDS_PER_DAY - (k - 1) * SECONDS_PER_DAY) / SECONDS_PER_DAY + 2))
    (s := ((k - 1) * SECONDS_PER_DAY, [] : list AvailableRange)) as ([x cs] & Hrun & Hinv & Hend).
  - intros [x cs] (d & Hx & Hd & Hcs) Hc. simpl in *. subst x. bool_prop.
    assert (d ≤ k + 1) by (unfold SECONDS_PER_DAY in *; lia).
    assert (day_ok d) as Hday by (unfold day_ok, time_max, SECONDS_PER_DAY in *; lia).
    unfold local_day_step. simpl.
    destruct (windows_of_day s ds de st fn d _ cs Hs Hday Hcs) as (cs' & -> & Hcs'). simpl.
    unfold checked_add_i64. rewrite checked_in by (unfold SECONDS_PER_DAY in *; range_lia). simpl.
    eexists. split; [done|]. split.
    + exists (d + 1). simpl. split; [unfold SECONDS_PER_DAY; lia|]. split; [lia|].
      eapply collects_ext; [|done]. intros t _ _. simpl. split.
      * intros [(d' & w & ? & ?)|(w & ? & ?)]; [exists d', w; split; [lia|done]|exists d, w].
        split_and!; [lia|done|done|lia].
      * intros (d' & w & Hlt & Hw & Ho & Hge). destruct (decide (d' = d)) as [->|]; [right; by exists w|].
        left. exists d', w. split; [lia|done].
    + simpl. replace (d * SECONDS_PER_DAY + SECONDS_PER_DAY) with ((d + 1) * SECONDS_PER_DAY)
        by (unfold SECONDS_PER_DAY; lia).
      rewrite !Z.div_mul by done. lia.
  - exists (k - 1). split; [done|]. split; [lia|]. split; [constructor|]. intros t.
    pose proof (covers_nil t). split; [done|]. intros (_ & _ & d' & w & ? & ? & ? & ?). lia.
  - simpl. rewrite Z.div_mul by done. replace (_ / _) with 2; [lia|].
    unfold SECONDS_PER_DAY. Z.div_mod_to_equations. lia.
  - rewrite Hrun. simpl. eexists. split; [done|]. destruct Hinv as (d & Hx & Hd & Hcs). simpl in *.
    subst x. bool_prop. assert (d = k + 2) as -> by (unfold SECONDS_PER_DAY in *; lia).
    eapply collects_ext; [|done]. intros t Ht _. unfold weekly_open. split; [naive_solver|].
    intros (d & w & Hw & Ho). exists d, w. pose proof Hs as [_ Hok]. rewrite Forall_forall in Hok.
    pose proof (window_open_day s d w t k Hs (Hok w Hw) Ho Ht). split_and!; [lia|done|done|lia].
Qed.

(** ** Selection sort *)

Lemma select_min_ok cs i v :
  cs !! i = Some v →
  ∃ k m, select_min cs i v = (k, m) ∧ cs !! k = Some m ∧ (i ≤ k)%nat ∧
    ∀ j x, (i ≤ j)%nat → cs !! j = Some x → start_ts m ≤ start_ts x.
Proof.
  intros Hv. unfold select_min.
  assert (Hgen : ∀ n, ∃ k m, foldl (λ '(k, m) j, match cs !! j with
      | Some x => if start_ts x <? start_ts m then (j, x) else (k, m)
      | None => (k, m) end) (i, v) (seq (S i) n) = (k, m) ∧ cs !! k = Some m ∧ (i ≤ k)%nat ∧
    ∀ j x, (i ≤ j ≤ i + n)%nat → cs !! j = Some x → start_ts m ≤ start_ts x).
  { induction n as [|n (k & m & Hf & Hk & Hle & Hmin)].
    - exists i, v. split_and!; [done..|]. intros j x Hj Hx. replace j with i in Hx by lia.
      simplify_eq. done.
    - rewrite seq_S, foldl_app, Hf. simpl.
      assert (Hsplit : ∀ j, (i ≤ j ≤ i + S n)%nat → (i ≤ j ≤ i + n)%nat ∨ j = S (i + n)) by lia.
      destruct (cs !! S (i + n)) as [y|] eqn:Hy.
      + destruct (start_ts y <? start_ts m) eqn:Hlt; bool_prop.
        * exists (S (i + n)), y. split_and!; [done|done|lia|]. intros j x Hj Hx.
          destruct (Hsplit j Hj) as [Hj'| ->]; [specialize (Hmin j x Hj' Hx)|simplify_eq]; lia.
        * exists k, m. split_and!; [done..|]. intros j x Hj Hx.
          destruct (Hsplit j Hj) as [Hj'| ->]; [by apply (Hmin j)|simplify_eq; lia].
      + exists k, m. split_and!; [done..|]. intros j x Hj Hx.
        destruct (Hsplit j Hj) as [Hj'| ->]; [by apply (Hmin j)|congruence]. }
  destruct (Hgen (length cs - S i)%nat) as (k & m & Hf & Hk & Hle & Hmin).
  exists k, m. split_and!; [done..|]. intros j x Hj Hx. apply (Hmin j x); [|done].
  apply lookup_lt_Some in Hx. lia.
Qed.

Lemma delete_insert_same {A} (l : list A) i x : delete i (<[i := x]> l) = delete i l.
Proof.
  revert i. induction l as [|y l IH]; intros [|i]; try done. simpl. f_equal. apply IH.
Qed.

(** Exchanging two entries permutes a list. *)
Lemma swap_perm {A} (l : list A) i j x y :
  i ≠ j → l !! i = Some x → l !! j = Some y → <[j := x]> (<[i := y]> l) ≡ₚ l.
Proof.
  intros Hij Hi Hj.
  pose proof (lookup_lt_Some _ _ _ Hi). pose proof (lookup_lt_Some _ _ _ Hj).
  pose proof (delete_Permutation l i x Hi) as P1.
  assert (∀ (k : list A) a z, (a < length k)%nat → <[a := z]> k ≡ₚ z :: delete a k) as Hins.
  { intros k a z Ha. rewrite (delete_Permutation (<[a := z]> k) a z) by by apply list_lookup_insert_eq.
    by rewrite delete_insert_same. }
  assert (<[i := y]> l !! j = Some y) as Hj' by by rewrite list_lookup_insert_ne.
  pose proof (delete_Permutation _ j y Hj') as P2.
  pose proof (Permutation_trans (Permutation_sym (Hins l i y ltac:(done))) P2) as P3.
  apply Permutation_cons_inv in P3. rewrite (Hins _ j x) by by rewrite length_insert.
  rewrite <-P3. by symmetry.
Qed.

(** The first [n] entries are in place. *)
Definition sorted_upto (n : nat) (cs : list AvailableRange) : Prop :=
  ∀ i j x y, (i < n)%nat → (i < j)%nat → cs !! i = Some x → cs !! j = Some y →
  start_ts x ≤ start_ts y.

Lemma selection_step_ok cs n :
  sorted_upto n cs →
  selection_step cs n ≡ₚ cs ∧ length (selection_step cs n) = length cs ∧
  sorted_upto (S n) (selection_step cs n).
Proof.
  intros Hs. unfold selection_step. destruct (cs !! n) as [v|] eqn:Hv.
  2:{ split_and!; [done..|]. intros i j x y Hi Hij Hx Hy.
      destruct (decide (i = n)) as [->|]; [congruence|]. by apply (Hs i j x y); [lia|..]. }
  destruct (select_min_ok cs n v Hv) as (k & m & -> & Hk & Hle & Hmin). simpl.
  destruct (Nat.eqb_spec k n) as [->|Hne].
  - split_and!; [done..|]. intros i j x y Hi Hij Hx Hy.
    destruct (decide (i = n)) as [->|]; [|by apply (Hs i j x y); [lia|..]].
    simplify_eq. apply (Hmin j); [lia|done].
  - rewrite Hk. split_and!; [by apply swap_perm|by rewrite !length_insert|].
    intros i j x y Hi Hij Hx Hy.
    pose proof (lookup_lt_Some _ _ _ Hv). pose proof (lookup_lt_Some _ _ _ Hk).
    rewrite list_lookup_insert_ne in Hx by lia.
    assert (∃ j', (n ≤ j')%nat ∧ cs !! j' = Some y ∨ j' = j ∧ (j < n)%nat ∧ cs !! j = Some y)
      as (j' & Hj').
    { destruct (decide (j = k)) as [->|].
      - rewrite list_lookup_insert_eq in Hy by by rewrite length_insert. simplify_eq. exists n. by left.
      - rewrite list_lookup_insert_ne in Hy by done. destruct (decide (j = n)) as [->|].
        + rewrite list_lookup_insert_eq in Hy by done. simplify_eq. exists k. by left.
        + rewrite list_lookup_insert_ne in Hy by done. exists j. 
          destruct (decide (j < n)%nat); [right|left]; split_and!; try done. lia. }
    destruct (decide (i = n)) as [->|].
    + rewrite list_lookup_insert_eq in Hx by done. simplify_eq.
      destruct Hj' as [[Hj1 Hj2]|(-> & ? & _)]; [by apply (Hmin j')|lia].
    + rewrite list_lookup_insert_ne in Hx by done.
      destruct Hj' as [[Hj1 Hj2]|(-> & ? & Hj2)]; [apply (Hs i j' x y)|apply (Hs i j x y)];
        try done; lia.
Qed.

Lemma sorted_upto_all cs : sorted_upto (length cs) cs → StronglySorted starts_before cs.
Proof.
  induction cs as [|c cs IH]; intros Hs; [constructor|]. constructor.
  - apply IH. intros i j x y Hi Hij Hx Hy. apply (Hs (S i) (S j) x y); simpl; try done; lia.
  - apply Forall_forall. intros x (j & Hj)%list_elem_of_lookup.
    apply (Hs 0%nat (S j) c x); simpl; try done; lia.
Qed.

Lemma selection_sort_ok cs :
  selection_sort cs ≡ₚ cs ∧ StronglySorted starts_before (selection_sort cs).
Proof.
  unfold selection_sort.
  assert (∀ n, foldl selection_step cs (seq 0 n) ≡ₚ cs ∧
    length (foldl selection_step cs (seq 0 n)) = length cs ∧
    sorted_upto n (foldl selection_step cs (seq 0 n))) as Hgen.
  { induction n as [|n (Hp & Hl & Hs)]; [split_and!; [done..|]; intros ?; lia|].
    rewrite seq_S, foldl_app. simpl. destruct (selection_step_ok _ n Hs) as (Hp' & Hl' & Hs').
    split_and!; [by rewrite Hp'|by rewrite Hl'|done]. }
  destruct (Hgen (length cs)) as (Hp & Hl & Hs). split; [done|].
  apply sorted_upto_all. by rewrite Hl.
Qed.

(** ** One day, and all the days of a query *)

Definition exception_ok (x : AvailabilityException) : Prop := from_ts x < until_ts x.
Definition in_exception (k : ExceptionKind) (exceptions : list AvailabilityException) (t : Z) : Prop :=
  ∃ x, x ∈ exceptions ∧ kind x = k ∧ from_ts x ≤ t < until_ts x.

Lemma exception_candidates_ok ds de st fn exceptions P cs :
  collects ds de st fn P cs →
  collects ds de st fn (λ t, P t ∨ in_exception Available exceptions t)
    (exception_candidates ds de st fn exceptions cs).
Proof.
  unfold exception_candidates. revert P cs. induction exceptions as [|x l IH]; intros P cs Hcs; simpl.
  - eapply collects_ext; [|done]. intros t _ _. unfold in_exception. set_solver.
  - destruct (bool_decide (kind x = Available)) eqn:Hk; simpl; bool_prop.
    + eapply collects_ext; [|apply IH, collects_push, Hcs]. intros t _ _. simpl.
      unfold in_exception. set_solver.
    + eapply collects_ext; [|apply IH, Hcs]. intros t _ _. unfold in_exception. set_solver.
Qed.

(** The instants a schedule and its extra availability open. *)
Definition open_at (s : AvailabilitySchedule) (exceptions : list AvailabilityException) (t : Z) : Prop :=
  weekly_open s t ∨ in_exception Available exceptions t.

(** Everything open in the query before instant [bound] has been collected. *)
Definition collected (s : AvailabilitySchedule) (exceptions : list AvailabilityException)
    (start fin bound : Z) (merged : list AvailableRange) : Prop :=
  canonical merged ∧
  ∀ t, covers merged t ↔ start ≤ t < fin ∧ t < bound ∧ open_at s exceptions t.

Lemma merge_day s exceptions st fn k cs merged :
  collects (k * SECONDS_PER_DAY) ((k + 1) * SECONDS_PER_DAY) st fn (open_at s exceptions) cs →
  collected s exceptions st fn (k * SECONDS_PER_DAY) merged →
  collected s exceptions st fn ((k + 1) * SECONDS_PER_DAY)
    (foldl merge_range merged (selection_sort cs)).
Proof.
  intros [Hclip Hcov] [Hm Hcovm]. destruct (selection_sort_ok cs) as [Hp Hs].
  unfold clipped in Hclip. rewrite <-Hp in Hclip. rewrite Forall_forall in Hclip.
  destruct (merge_sorted (selection_sort cs) merged) as [Hm' Hcov']; [done| |done| |].
  - apply Forall_forall. intros c Hc. by apply Hclip.
  - intros l c Hl Hc. apply last_Some_elem_of in Hl.
    destruct (Hclip c Hc) as (_ & Hlo & _). pose proof (canonical_nonempty _ _ Hm Hl) as Hn.
    destruct (proj1 (Hcovm (start_ts l))) as (_ & Hlt & _); [exists l; by split; [|apply in_range_first]|].
    lia.
  - split; [done|]. intros t. rewrite Hcov', (covers_perm _ _ _ Hp), Hcovm, Hcov.
    assert (k * SECONDS_PER_DAY ≤ (k + 1) * SECONDS_PER_DAY) by (unfold SECONDS_PER_DAY; lia).
    split; [intros [(?&?&?)|(?&?&?)]; split_and!; done || lia|].
    intros (?&?&?). destruct (Z_lt_le_dec t (k * SECONDS_PER_DAY)); [left|right]; split_and!; done || lia.
Qed.

Lemma day_step_ok s exceptions st fn k merged :
  schedule_ok s → 0 ≤ k → k * SECONDS_PER_DAY ≤ time_max →
  collected s exceptions st fn (k * SECONDS_PER_DAY) merged →
  ∃ merged', day_step s exceptions st fn (k, merged) = Some (k + 1, merged') ∧
    collected s exceptions st fn ((k + 1) * SECONDS_PER_DAY) merged'.
Proof.
  intros Hs Hk Hmax Hcol. unfold day_step. simpl. assert (k * 86400 ≤ 4611686018427387904) by done.
  unfold checked_mul_u64. rewrite checked_in by (unfold SECONDS_PER_DAY; range_lia). simpl.
  unfold checked_add_u64.
  rewrite (checked_in _ _ (_ * _ + _)) by (unfold SECONDS_PER_DAY; range_lia). simpl.
  replace (k * SECONDS_PER_DAY + SECONDS_PER_DAY) with ((k + 1) * SECONDS_PER_DAY)
    by (unfold SECONDS_PER_DAY; lia).
  destruct (weekly_candidates_ok s k st fn Hs Hk Hmax) as (cs & -> & Hcs). simpl.
  rewrite checked_in by range_lia. simpl. eexists. split; [done|].
  apply merge_day; [|done]. by apply exception_candidates_ok.
Qed.

Lemma merged_ranges_ok s exceptions st fn :
  schedule_ok s → 0 ≤ st < fn → fn ≤ time_max →
  ∃ merged, merged_ranges s exceptions st fn = Some merged ∧ canonical merged ∧
    ∀ t, covers merged t ↔ st ≤ t < fn ∧ open_at s exceptions t.
Proof.
  intros Hs Hst Hfn. unfold merged_ranges, checked_sub_u64.
  rewrite checked_in by (unfold time_max in *; range_lia). simpl. unfold SECONDS_PER_DAY.
  rewrite !Z.quot_div_nonneg by lia. set (a := st / 86400). set (b := (fn - 1) / 86400).
  assert (0 ≤ a ≤ b ∧ a * 86400 ≤ st ∧ b * 86400 ≤ fn - 1 < (b + 1) * 86400) as (Hab & Ha & Hb).
  { unfold a, b. Z.div_mod_to_equations. lia. }
  destruct (while_total (λ x, x.1 <=? b) (day_step s exceptions st fn)
    (λ x, a ≤ x.1 ≤ b + 1 ∧ collected s exceptions st fn (x.1 * SECONDS_PER_DAY) x.2)
    (λ x, Z.to_nat (b + 1 - x.1))) with (fuel := Z.to_nat (b - a + 2))
    (s := (a, [] : list AvailableRange)) as ([k merged] & Hrun & [Hk Hcol] & Hend).
  - intros [k merged] [Hk Hcol] Hc. simpl in *. bool_prop.
    destruct (day_step_ok s exceptions st fn k merged) as (merged' & -> & Hcol'); [done|lia| |done|].
    { unfold SECONDS_PER_DAY, time_max in *. lia. }
    eexists. split; [done|]. simpl. split; [split; [lia|done]|lia].
  - simpl. split; [lia|]. split; [apply canonical_nil|]. intros t. pose proof (covers_nil t).
    split; [done|]. unfold SECONDS_PER_DAY. intros (?&?&?). lia.
  - simpl. lia.
  - rewrite Hrun. simpl in *. bool_prop. eexists. split; [done|]. destruct Hcol as [Hc Hcov].
    split; [done|]. intros t. rewrite Hcov. assert (k = b + 1) as -> by lia.
    unfold SECONDS_PER_DAY. split; [tauto|]. intros [? ?]. split_and!; [lia..|done].
Qed.

(** ** Subtracting blackouts *)

Lemma cut_segment_ok b r :
  exception_ok b → nonempty r →
  canonical (cut_segment b r) ∧
  ∀ t, covers (cut_segment b r) t ↔ in_range_of t r ∧ ¬ from_ts b ≤ t < until_ts b.
Proof.
  unfold exception_ok, nonempty. intros Hb Hr. unfold cut_segment.
  destruct (until_ts b <=? start_ts r) eqn:H1; bool_prop; simpl.
  { split; [by apply canonical_one|]. intros t. rewrite covers_one. unfold in_range_of. lia. }
  destruct (end_ts r <=? from_ts b) eqn:H2; bool_prop; simpl.
  { split; [by apply canonical_one|]. intros t. rewrite covers_one. unfold in_range_of. lia. }
  split.
  - apply canonical_app. split_and!.
    + case_match; bool_prop; [by apply canonical_one|apply canonical_nil].
    + case_match; bool_prop; [by apply canonical_one|apply canonical_nil].
    + intros x y Hx Hy. repeat case_match; bool_prop; try set_solver.
  - intros t. rewrite covers_app. pose proof (covers_nil t). unfold in_range_of.
    repeat case_match; bool_prop; rewrite ?covers_one; unfold in_range_of; simpl;
      (split; [intros [|]; try done; lia|]); intros [? ?]; try lia.
Qed.

Lemma cut_segments_ok blocked l :
  canonical l → Forall exception_ok blocked →
  canonical (foldl cut_segments l blocked) ∧
  ∀ t, covers (foldl cut_segments l blocked) t ↔
    covers l t ∧ ¬ ∃ b, b ∈ blocked ∧ from_ts b ≤ t < until_ts b.
Proof.
  revert l. induction blocked as [|b blocked IH]; intros l Hl Hok; simpl.
  { split; [done|]. intros t. set_solver. }
  inv Hok. assert (Hcut : ∀ r, r ∈ l → canonical (cut_segment b r) ∧
    ∀ t, covers (cut_segment b r) t ↔ in_range_of t r ∧ ¬ from_ts b ≤ t < until_ts b).
  { intros r Hr. apply cut_segment_ok; [done|]. by eapply canonical_nonempty. }
  destruct (IH (cut_segments l b)) as [Hc Hcov]; [|done|].
  - apply canonical_bind; [done|]. intros r Hr. destruct (Hcut r Hr) as [Hc Hcov].
    split; [done|]. intros t. rewrite Hcov. tauto.
  - split; [done|]. intros t. rewrite Hcov. unfold cut_segments. rewrite covers_bind.
    assert ((∃ r, r ∈ l ∧ covers (cut_segment b r) t) ↔
      covers l t ∧ ¬ from_ts b ≤ t < until_ts b) as ->.
    { unfold covers at 2. split.
      - intros (r & Hr & Ht). apply (Hcut r Hr) in Ht as [? ?]. split; [by exists r|done].
      - intros [(r & Hr & Ht) Hn]. exists r. split; [done|]. by apply Hcut. }
    split.
    + intros [[? Hn] Hno]. split; [done|]. intros (x & [->|Hx]%elem_of_cons & Ht); [by apply Hn|].
      apply Hno. by exists x.
    + intros [? Hno]. split_and!; [done| |].
      * intros Ht. apply Hno. exists b. split; [by left|done].
      * intros (x & Hx & Ht). apply Hno. exists x. split; [by right|done].
Qed.

Lemma subtract_blackouts_ok merged blocked :
  canonical merged → Forall exception_ok blocked →
  canonical (subtract_blackouts merged blocked) ∧
  ∀ t, covers (subtract_blackouts merged blocked) t ↔
    covers merged t ∧ ¬ ∃ b, b ∈ blocked ∧ from_ts b ≤ t < until_ts b.
Proof.
  intros Hm Hok. unfold subtract_blackouts.
  assert (Hone : ∀ r, r ∈ merged → canonical (foldl cut_segments [r] blocked) ∧
    ∀ t, covers (foldl cut_segments [r] blocked) t ↔
      in_range_of t r ∧ ¬ ∃ b, b ∈ blocked ∧ from_ts b ≤ t < until_ts b).
  { intros r Hr. destruct (cut_segments_ok blocked [r]) as [Hc Hcov]; [|done|].
    - apply canonical_one. by eapply canonical_nonempty.
    - split; [done|]. intros t. by rewrite Hcov, covers_one. }
  split.
  - apply canonical_bind; [done|]. intros r Hr. destruct (Hone r Hr) as [Hc Hcov].
    split; [done|]. intros t. rewrite Hcov. tauto.
  - intros t. rewrite covers_bind. unfold covers at 2. split.
    + intros (r & Hr & Ht). apply (Hone r Hr) in Ht as [? ?]. split; [by exists r|done].
    + intros [(r & Hr & Ht) Hn]. exists r. split; [done|]. by apply Hone.
Qed.

(** Materialising a schedule over a query ends without a trap and yields the canonical
    list of ranges (sorted, non-empty, separated by gaps) of exactly the instants of the query
    that some weekly window, on some local day, or some extra-availability exception opens
    and no blackout closes. *)
Lemma compute_ranges_ok s exceptions start fin :
  schedule_ok s → Forall exception_ok exceptions → 0 ≤ start < fin → fin ≤ time_max →
  ∃ ranges, compute_ranges s exceptions start fin = Some ranges ∧ canonical ranges ∧
    ∀ t, covers ranges t ↔
      start ≤ t < fin ∧ open_at s exceptions t ∧ ¬ in_exception Unavailable exceptions t.
Proof.
  intros Hs Hex Hst Hfn. unfold compute_ranges.
  destruct (merged_ranges_ok s exceptions start fin Hs Hst Hfn) as (merged & -> & Hm & Hcov). simpl.
  assert (Hblocked : ∀ t, in_exception Unavailable exceptions t ↔
    ∃ b, b ∈ blackouts exceptions ∧ from_ts b ≤ t < until_ts b).
  { intros t. unfold in_exception, blackouts. setoid_rewrite list_elem_of_filter. naive_solver. }
  case_bool_decide as Hb.
  - eexists. split; [done|]. split; [done|]. intros t. rewrite Hcov, Hblocked, Hb.
    split; [|tauto]. intros [? ?]. split_and!; [lia..|done|]. by intros (b & ?%elem_of_nil & _).
  - eexists. split; [done|].
    destruct (subtract_blackouts_ok merged (blackouts exceptions)) as [Hc Hcov']; [done| |].
    { unfold blackouts. by apply Forall_filter || (rewrite Forall_forall in *; intros x [_ Hx]%list_elem_of_filter; auto). }
    split; [done|]. intros t. rewrite Hcov', Hcov, Hblocked. tauto.
Qed.
