(* ===== verification/AvailabilityService.v ===== *)
(** * Reading a participant's availability from another contract

    The slot contract reads guard rails and pages of ranges from the availability contract it
    was pointed at.  [AvailabilityService] is that interface, [AvailabilityLaws] what the
    client's theorems rely on: numbers of their declared width, and, for each contract, time
    and participant, a set [offered] of instants of which every query returns the pages of the
    canonical list.  [Availability.v] shows that the contract of the repository meets it. *)
From S2P Require Import Prelude Machine Host Intervals.

Record AvailabilitySummary := mkSummary {
  sum_participant : Address; sum_enabled : bool; sum_version : Z;
  sum_lead_time_seconds : Z; sum_buffer_before_seconds : Z; sum_buffer_after_seconds : Z;
  sum_booking_horizon_days : Z; sum_effective_from : Z; sum_effective_until : Z
}.

Definition MAX_QUERY_SPAN : Z := 90 * 86400.

(** [try_invoke_contract] of [availability_summary] and [available_ranges] on [contract] at a
    ledger time; [None] is any failure of the call. *)
Class AvailabilityService (L : Type) := {
  summary_at : L → Address → Z → Address → option AvailabilitySummary;
  ranges_at : L → Address → Z → Address → Z → Z → Z → Z → option (list AvailableRange)
}.

Definition summary_typed (s : AvailabilitySummary) : Prop :=
  0 ≤ sum_lead_time_seconds s ∧ 0 ≤ sum_buffer_before_seconds s ∧
  0 ≤ sum_buffer_after_seconds s ∧ 0 ≤ sum_booking_horizon_days s ≤ u32_max.

(** The latest instant the laws speak of. *)
Definition instant_max : Z := 4611686018427387904.

Class AvailabilityLaws (L : Type) `{AvailabilityService L} := {
  offered : L → Address → Z → Address → Z → Prop;
  summary_ok l c now p s : summary_at l c now p = Some s → summary_typed s;
  ranges_ok l c now p a b pg lim rs :
    ranges_at l c now p a b pg lim = Some rs →
    0 ≤ a → 0 ≤ now → b ≤ instant_max → 0 ≤ pg → 0 < lim → a < b ∧
    ∃ all, canonical all ∧ (∀ t, covers all t ↔ a ≤ t < b ∧ offered l c now p t) ∧
      rs = take (Z.to_nat lim) (drop (Z.to_nat (pg * lim)) all);
  (** A participant whose summary can be read has readable ranges. *)
  ranges_run l c now p s a b pg lim :
    summary_at l c now p = Some s → 0 ≤ a < b → b - a ≤ MAX_QUERY_SPAN → b ≤ instant_max → 0 ≤ now →
    0 ≤ pg ≤ 4096 → 0 < lim ≤ 64 → is_Some (ranges_at l c now p a b pg lim);
  offered_enabled l c now p s t :
    summary_at l c now p = Some s → offered l c now p t → sum_enabled s = true
}.
