(* ===== verification/Availability.v ===== *)
(** * The availability contract ([contracts/mentorship-availability/src/lib.rs])

    A participant replaces or switches a recurring schedule and adds or removes exceptions;
    anyone asks for the bookable ranges of a query, a page at a time, or whether an interval
    is wholly bookable.  [bookable_at] is the abstract answer; the theorems show that the
    queries agree with it in every reachable world. *)
From S2P Require Import Prelude Machine Host Loops Intervals AvailabilityCalc.
From S2P Require Import AvailabilityProps AvailabilityRanges AvailabilityService.

Definition MAX_OFFSET_CHANGES : nat := 8.
Definition MAX_EXCEPTIONS : nat := 64.
Definition MAX_EXCEPTION_SPAN_SECONDS : Z := 31 * SECONDS_PER_DAY.
Definition MAX_LEAD_TIME_SECONDS : Z := 30 * SECONDS_PER_DAY.
Definition MAX_BUFFER_SECONDS : Z := SECONDS_PER_DAY.
Definition MAX_BOOKING_HORIZON_DAYS : Z := 365.
Definition MAX_QUERY_SPAN_SECONDS : Z := 90 * SECONDS_PER_DAY.
Definition MAX_PAGE_SIZE : Z := 64.
Definition MAX_PAGE : Z := 4096.

Record ScheduleInput := mkInput {
  in_timezone_hash : BytesN32; in_utc_offset_seconds : Z;
  in_offset_changes : list OffsetChange; in_weekly : list WeeklyWindow;
  in_lead_time_seconds : Z; in_buffer_before_seconds : Z; in_buffer_after_seconds : Z;
  in_booking_horizon_days : Z; in_effective_from : Z; in_effective_until : Z
}.

Record ExceptionInput := mkExceptionInput {
  in_id : BytesN32; in_kind : ExceptionKind; in_from_ts : Z; in_until_ts : Z;
  in_reference_hash : BytesN32
}.

Inductive Event :=
| SCHSET (p : Address) (version : Z)
| SCHENB (p : Address) (enabled : bool)
| EXCSET (p : Address) (id : BytesN32) (k : ExceptionKind)
| EXCREM (p : Address) (id : BytesN32).

Record Store := mkStore {
  schedules : gmap Address AvailabilitySchedule;
  exception_lists : gmap Address (list Z);
  exceptions : gmap (Address * Z) AvailabilityException
}.

Definition put_schedule (s : AvailabilitySchedule) (st : Store) : Store :=
  mkStore (<[participant s := s]> (schedules st)) (exception_lists st) (exceptions st).
Definition put_exception_ids (p : Address) (ids : list Z) (st : Store) : Store :=
  mkStore (schedules st) (<[p := ids]> (exception_lists st)) (exceptions st).
Definition put_exception (p : Address) (x : AvailabilityException) (st : Store) : Store :=
  mkStore (schedules st) (exception_lists st) (<[(p, exc_id x) := x]> (exceptions st)).
Definition drop_exception (p : Address) (id : BytesN32) (st : Store) : Store :=
  mkStore (schedules st) (exception_lists st) (delete (p, id) (exceptions st)).

Definition load_exception_ids (p : Address) (st : Store) : list Z :=
  default [] (exception_lists st !! p).
Definition load_exceptions (p : Address) (st : Store) : list AvailabilityException :=
  omap (λ id, exceptions st !! (p, id)) (load_exception_ids p st).

Definition validate_offset (offset : Z) : result ContractError unit :=
  if negb (in_range MIN_UTC_OFFSET_SECONDS MAX_UTC_OFFSET_SECONDS offset) then Err InvalidOffset
  else Ok tt.

Fixpoint validate_changes (changes : list OffsetChange) (previous_from previous_offset : Z) :
    result ContractError unit :=
  match changes with
  | [] => Ok tt
  | c :: changes =>
      if (change_from c =? 0) || (change_from c <=? previous_from) then Err InvalidOffsetChange
      else
        let? _ := validate_offset (change_offset c) in
        if change_offset c =? previous_offset then Err InvalidOffsetChange
        else validate_changes changes (change_from c) (change_offset c)
  end.

(** The part of the query the schedule lets be booked: clamped to the effective range, the
    lead time and the horizon.  The additions saturate. *)
Definition bookable_window (s : AvailabilitySchedule) (now from until : Z) : option (Z * Z) :=
  if negb (enabled s) then None
  else
    let earliest := default u64_max (checked_add_u64 now (lead_time_seconds s)) in
    let horizon := default u64_max (checked_mul_u64 (booking_horizon_days s) SECONDS_PER_DAY) in
    let horizon_end := default u64_max (checked_add_u64 now horizon) in
    let start := from in
    let start := if start <? effective_from s then effective_from s else start in
    let start := if start <? earliest then earliest else start in
    let fin := until in
    let fin := if horizon_end <? fin then horizon_end else fin in
    let fin := if negb (effective_until s =? 0) && (effective_until s <? fin)
               then effective_until s else fin in
    if fin <=? start then None else Some (start, fin).

Section Contract.
Context {L : Type}.
Abbreviation M := (Contract L Store Event ContractError).

Definition load_schedule (p : Address) : M AvailabilitySchedule :=
  o <- load (λ st, schedules st !! p) ;;
  ok_or o ScheduleNotFound.

Definition set_schedule (p : Address) (i : ScheduleInput) : M AvailabilitySchedule :=
  require_auth p ;;;
  reject_if (in_timezone_hash i =? 0) InvalidTimezoneRef ;;;
  lift (validate_offset (in_utc_offset_seconds i)) ;;;
  reject_if (MAX_OFFSET_CHANGES <? length (in_offset_changes i))%nat TooManyOffsetChanges ;;;
  lift (validate_changes (in_offset_changes i) 0 (in_utc_offset_seconds i)) ;;;
  weekly <- lift (normalize_windows (in_weekly i)) ;;
  reject_if (MAX_LEAD_TIME_SECONDS <? in_lead_time_seconds i) InvalidLeadTime ;;;
  reject_if ((MAX_BUFFER_SECONDS <? in_buffer_before_seconds i) ||
             (MAX_BUFFER_SECONDS <? in_buffer_after_seconds i)) InvalidBuffer ;;;
  reject_if ((in_booking_horizon_days i =? 0) ||
             (MAX_BOOKING_HORIZON_DAYS <? in_booking_horizon_days i)) InvalidBookingHorizon ;;;
  reject_if ((in_effective_from i =? 0) ||
             (negb (in_effective_until i =? 0) && (in_effective_until i <=? in_effective_from i)))
    InvalidEffectiveRange ;;;
  existing <- load (λ st, schedules st !! p) ;;
  version <- ok_or (match existing with
                    | Some s => checked_add_u32 (version s) 1
                    | None => Some 1
                    end) VersionOverflow ;;
  t <- now ;;
  let s := mkSchedule p (in_timezone_hash i) (in_utc_offset_seconds i) (in_offset_changes i)
    weekly (in_lead_time_seconds i) (in_buffer_before_seconds i) (in_buffer_after_seconds i)
    (in_booking_horizon_days i) (in_effective_from i) (in_effective_until i) true version t in
  save (put_schedule s) ;;;
  publish (SCHSET p version) ;;;
  ret s.

Definition switched (s : AvailabilitySchedule) (on : bool) (version t : Z) : AvailabilitySchedule :=
  mkSchedule (participant s) (timezone_hash s) (utc_offset_seconds s) (offset_changes s) (weekly s)
    (lead_time_seconds s) (buffer_before_seconds s) (buffer_after_seconds s)
    (booking_horizon_days s) (effective_from s) (effective_until s) on version t.

Definition set_enabled (p : Address) (on : bool) : M unit :=
  require_auth p ;;;
  s <- load_schedule p ;;
  if bool_decide (enabled s = on) then ret tt
  else
    version <- ok_or (checked_add_u32 (version s) 1) VersionOverflow ;;
    t <- now ;;
    save (put_schedule (switched s on version t)) ;;;
    publish (SCHENB p on).

Definition get_schedule (p : Address) : M AvailabilitySchedule := load_schedule p.

Definition summary_of (s : AvailabilitySchedule) : AvailabilitySummary :=
  mkSummary (participant s) (enabled s) (version s) (lead_time_seconds s)
    (buffer_before_seconds s) (buffer_after_seconds s) (booking_horizon_days s)
    (effective_from s) (effective_until s).

Definition availability_summary (p : Address) : M AvailabilitySummary :=
  s <- load_schedule p ;;
  ret (summary_of s).

Definition add_exception (p : Address) (i : ExceptionInput) : M unit :=
  require_auth p ;;;
  reject_if ((in_from_ts i =? 0) || (in_until_ts i <=? in_from_ts i)) InvalidExceptionRange ;;;
  span <- or_trap (checked_sub_u64 (in_until_ts i) (in_from_ts i)) ;;
  reject_if (MAX_EXCEPTION_SPAN_SECONDS <? span) ExceptionSpanTooLarge ;;;
  o <- load (λ st, exceptions st !! (p, in_id i)) ;;
  reject_if (bool_decide (is_Some o)) ExceptionAlreadyExists ;;;
  ids <- load (load_exception_ids p) ;;
  reject_if (MAX_EXCEPTIONS <=? length ids)%nat TooManyExceptions ;;;
  t <- now ;;
  save (put_exception p (mkException (in_id i) (in_kind i) (in_from_ts i) (in_until_ts i)
    (in_reference_hash i) t)) ;;;
  save (put_exception_ids p (ids ++ [in_id i])) ;;;
  publish (EXCSET p (in_id i) (in_kind i)).

Definition remove_exception (p : Address) (id : BytesN32) : M unit :=
  require_auth p ;;;
  o <- load (λ st, exceptions st !! (p, id)) ;;
  reject_if (negb (bool_decide (is_Some o))) ExceptionNotFound ;;;
  save (drop_exception p id) ;;;
  ids <- load (load_exception_ids p) ;;
  save (put_exception_ids p (filter (λ existing, existing ≠ id) ids)) ;;;
  publish (EXCREM p id).

Definition get_exception (p : Address) (id : BytesN32) : M AvailabilityException :=
  o <- load (λ st, exceptions st !! (p, id)) ;;
  ok_or o ExceptionNotFound.

Definition exception_ids (p : Address) : M (list Z) := load (load_exception_ids p).

Definition available_ranges (p : Address) (from until page limit : Z) : M (list AvailableRange) :=
  reject_if (until <=? from) InvalidQueryRange ;;;
  span <- or_trap (checked_sub_u64 until from) ;;
  reject_if (MAX_QUERY_SPAN_SECONDS <? span) QuerySpanTooLarge ;;;
  reject_if ((limit =? 0) || (MAX_PAGE_SIZE <? limit) || (MAX_PAGE <? page)) InvalidPage ;;;
  s <- load_schedule p ;;
  t <- now ;;
  match bookable_window s t from until with
  | None => ret []
  | Some (start, fin) =>
      xs <- load (load_exceptions p) ;;
      ranges <- or_trap (compute_ranges s xs start fin) ;;
      skip <- or_trap (checked_mul_u64 page limit) ;;
      ret (page_loop ranges 0 skip limit [])
  end.

Definition is_available (p : Address) (start_ts0 end_ts0 : Z) : M bool :=
  reject_if (end_ts0 <=? start_ts0) InvalidQueryRange ;;;
  span <- or_trap (checked_sub_u64 end_ts0 start_ts0) ;;
  reject_if (MAX_QUERY_SPAN_SECONDS <? span) QuerySpanTooLarge ;;;
  s <- load_schedule p ;;
  t <- now ;;
  match bookable_window s t start_ts0 end_ts0 with
  | None => ret false
  | Some (start, fin) =>
      if (start_ts0 <? start) || (fin <? end_ts0) then ret false
      else
        xs <- load (load_exceptions p) ;;
        ranges <- or_trap (compute_ranges s xs start fin) ;;
        ret (existsb (λ r, (start_ts r <=? start) && (fin <=? end_ts r)) ranges)
  end.

(** ** Calls *)

Inductive Call :=
| CSetSchedule (p : Address) (i : ScheduleInput)
| CSetEnabled (p : Address) (on : bool)
| CAddException (p : Address) (i : ExceptionInput)
| CRemoveException (p : Address) (id : BytesN32)
| CAvailableRanges (p : Address) (from until page limit : Z)
| CIsAvailable (p : Address) (from until : Z).

Definition exec (c : Call) : M unit :=
  match c with
  | CSetSchedule p i => ignore (set_schedule p i)
  | CSetEnabled p on => set_enabled p on
  | CAddException p i => add_exception p i
  | CRemoveException p id => remove_exception p id
  | CAvailableRanges p from until page limit => ignore (available_ranges p from until page limit)
  | CIsAvailable p from until => ignore (is_available p from until)
  end.
End Contract.

(** The declared widths of the arguments that matter. *)
Definition input_typed (i : ScheduleInput) : Prop :=
  Forall window_typed (in_weekly i) ∧ 0 ≤ in_lead_time_seconds i ∧
  0 ≤ in_booking_horizon_days i ∧ 0 ≤ in_effective_from i ∧ 0 ≤ in_effective_until i ∧
  0 ≤ in_buffer_before_seconds i ∧ 0 ≤ in_buffer_after_seconds i.
Definition valid (e : Env) (c : Call) : Prop :=
  match c with
  | CSetSchedule _ i => input_typed i
  | CAddException _ i => 0 ≤ in_from_ts i
  | _ => True
  end.

(** ** Invariant *)

(** A stored schedule has passed every check of [set_schedule]. *)
Definition stored_ok (p : Address) (s : AvailabilitySchedule) : Prop :=
  participant s = p ∧ schedule_ok s ∧ canonical_windows (weekly s) ∧
  0 ≤ version s ≤ u32_max ∧ 0 ≤ lead_time_seconds s ≤ MAX_LEAD_TIME_SECONDS ∧
  0 ≤ buffer_before_seconds s ≤ MAX_BUFFER_SECONDS ∧ 0 ≤ buffer_after_seconds s ≤ MAX_BUFFER_SECONDS ∧
  0 < booking_horizon_days s ≤ MAX_BOOKING_HORIZON_DAYS ∧
  0 < effective_from s ∧ (effective_until s = 0 ∨ effective_from s < effective_until s).

Definition exception_stored (id : BytesN32) (x : AvailabilityException) : Prop :=
  exc_id x = id ∧ 0 < from_ts x < until_ts x ∧
  until_ts x - from_ts x ≤ MAX_EXCEPTION_SPAN_SECONDS.

Record inv (st : Store) : Prop := {
  inv_schedules : map_Forall stored_ok (schedules st);
  inv_exceptions : ∀ p id x, exceptions st !! (p, id) = Some x → exception_stored id x;
  inv_ids : ∀ p, NoDup (load_exception_ids p st) ∧
    (length (load_exception_ids p st) ≤ MAX_EXCEPTIONS)%nat ∧
    ∀ id, id ∈ load_exception_ids p st ↔ is_Some (exceptions st !! (p, id))
}.

Lemma validate_offset_ok o : validate_offset o = Ok tt ↔ offset_ok o.
Proof.
  unfold validate_offset, offset_ok. rewrite <-in_range_iff. by destruct (in_range _ _ o).
Qed.

Lemma validate_changes_ok changes from o :
  validate_changes changes from o = Ok tt → Forall offset_ok (change_offset <$> changes).
Proof.
  revert from o. induction changes as [|c changes IH]; intros from o Hv; simpl in *; [constructor|].
  destruct (_ || _); [done|].
  destruct (validate_offset (change_offset c)) as [[]|] eqn:Ho; [|done]. simpl in Hv.
  destruct (_ =? o); [done|]. constructor; [by apply validate_offset_ok|by eapply IH].
Qed.

Section Invariant.
Context {L : Type}.
Abbreviation W := (World L Store Event).
Implicit Types (w : W).

Lemma load_exception_ids_insert p q ids st :
  load_exception_ids q (put_exception_ids p ids st) =
    if decide (p = q) then ids else load_exception_ids q st.
Proof. unfold load_exception_ids. simpl. rewrite lookup_insert. by case_decide. Qed.

Lemma set_schedule_effect p i e w w' s :
  set_schedule p i e w = Done w' s →
  authorized e p = true ∧ store w' = put_schedule s (store w) ∧ log w' = log w ++ [SCHSET p (version s)] ∧
  (input_typed i → stored_ok p s) ∧ enabled s = true ∧
  match schedules (store w) !! p with
  | Some s0 => version s = version s0 + 1
  | None => version s = 1
  end.
Proof.
  intros Hrun. unfold set_schedule in Hrun. run_inv. bool_prop. simpl.
  match goal with Hw : normalize_windows _ = Ok ?n, Hv : match _ with Some _ => _ | None => _ end = Some ?v |- _ =>
    rename n into ws, v into ver, Hw into Hnorm, Hv into Hver end.
  split_and!; [done..| |done|].
  - intros (Hty & ?&?&?&?&?&?). unfold stored_ok. simpl.
    destruct (normalize_windows_Ok _ _ Hty Hnorm) as (_ & _ & _ & _ & Hcan).
    pose proof Hcan as [Hok _].
    split_and!; try done; try lia.
    + split; [|done]. constructor; [by apply validate_offset_ok|by eapply validate_changes_ok].
    + destruct (schedules (store w) !! p); simplify_eq; checked_prop; [lia|done].
    + destruct (schedules (store w) !! p); simplify_eq; checked_prop; [lia|done].
  - destruct (schedules (store w) !! p); simplify_eq; checked_prop; done.
Qed.

Lemma set_enabled_effect p on e w w' u :
  set_enabled p on e w = Done w' u →
  authorized e p = true ∧ ∃ s, schedules (store w) !! p = Some s ∧
    if bool_decide (enabled s = on) then w' = w
    else store w' = put_schedule (switched s on (version s + 1) (timestamp e)) (store w) ∧
         version s + 1 ≤ u32_max.
Proof.
  intros Hrun. unfold set_enabled, load_schedule in Hrun. run_inv. split; [done|].
  eexists. split; [done|]. case_bool_decide; run_inv; [done|]. checked_prop. simpl. split; [done|lia].
Qed.

Lemma add_exception_effect p i e w w' u :
  add_exception p i e w = Done w' u →
  authorized e p = true ∧ exceptions (store w) !! (p, in_id i) = None ∧
  (length (load_exception_ids p (store w)) < MAX_EXCEPTIONS)%nat ∧
  in_from_ts i ≠ 0 ∧ in_from_ts i < in_until_ts i ∧
  in_until_ts i - in_from_ts i ≤ MAX_EXCEPTION_SPAN_SECONDS ∧
  store w' = put_exception_ids p (load_exception_ids p (store w) ++ [in_id i])
    (put_exception p (mkException (in_id i) (in_kind i) (in_from_ts i) (in_until_ts i)
      (in_reference_hash i) (timestamp e)) (store w)).
Proof.
  intros Hrun. unfold add_exception in Hrun. run_inv. bool_prop. checked_prop. simpl.
  match goal with H : (_ <=? length _)%nat = false |- _ => apply Nat.leb_gt in H end.
  match goal with H : ¬ is_Some _ |- _ => apply eq_None_not_Some in H end.
  split_and!; try done; lia.
Qed.

Lemma remove_exception_effect p id e w w' u :
  remove_exception p id e w = Done w' u →
  authorized e p = true ∧ is_Some (exceptions (store w) !! (p, id)) ∧
  store w' = put_exception_ids p (filter (λ x, x ≠ id) (load_exception_ids p (store w)))
    (drop_exception p id (store w)).
Proof.
  intros Hrun. unfold remove_exception in Hrun. run_inv. bool_prop. done.
Qed.

Lemma queries_pure p q a b page limit e w w' u :
  (ignore (available_ranges p a b page limit) e w = Done w' u → w' = w) ∧
  (ignore (is_available q a b) e w = Done w' u → w' = w).
Proof.
  split; intros [x Hrun]%ignore_done.
  - unfold available_ranges, load_schedule in Hrun. run_inv.
    destruct (bookable_window _ _ _ _) as [[? ?]|]; by run_inv.
  - unfold is_available, load_schedule in Hrun. run_inv.
    destruct (bookable_window _ _ _ _) as [[? ?]|]; [|by run_inv].
    destruct (_ || _); by run_inv.
Qed.

(** ** Preservation *)

Lemma put_schedule_inv p s st : inv st → stored_ok p s → inv (put_schedule s st).
Proof.
  intros [H1 H2 H3] Hs. assert (participant s = p) as Hp by apply Hs.
  split; simpl; [|done..]. rewrite Hp. by apply map_Forall_insert_2.
Qed.

Lemma switched_ok p s on v t :
  stored_ok p s → 0 ≤ v ≤ u32_max → stored_ok p (switched s on v t).
Proof. intros (H1 & H2 & H3 & _ & H5) Hv. exact (conj H1 (conj H2 (conj H3 (conj Hv H5)))). Qed.

Lemma add_exception_inv p x st :
  inv st → exception_stored (exc_id x) x → exceptions st !! (p, exc_id x) = None →
  (length (load_exception_ids p st) < MAX_EXCEPTIONS)%nat →
  inv (put_exception_ids p (load_exception_ids p st ++ [exc_id x]) (put_exception p x st)).
Proof.
  intros [H1 H2 H3] Hx Hnew Hlen. split; simpl; [done| |].
  - intros q id y. rewrite lookup_insert. case_decide as Heq; [|apply H2].
    intros. by simplify_eq.
  - intros q. rewrite load_exception_ids_insert. destruct (H3 q) as (Hnd & Hl & Hiff).
    case_decide as Heq; [subst q|].
    + split_and!.
      * apply NoDup_app. split_and!; [done| |apply NoDup_singleton].
        intros id Hid ->%list_elem_of_singleton. apply Hiff in Hid. rewrite Hnew in Hid.
        by destruct Hid.
      * rewrite length_app. simpl. lia.
      * intros id. rewrite elem_of_app, list_elem_of_singleton, Hiff, lookup_insert.
        case_decide as Hid; simplify_eq; [by split; [|right]|]. split; [intros [|]; [done|congruence]|by left].
    + split_and!; [done..|]. intros id. change (load_exception_ids q (put_exception p x st)) with
        (load_exception_ids q st). rewrite Hiff, lookup_insert_ne; [done|congruence].
Qed.

Lemma remove_exception_inv p id st :
  inv st →
  inv (put_exception_ids p (filter (λ x, x ≠ id) (load_exception_ids p st)) (drop_exception p id st)).
Proof.
  intros [H1 H2 H3]. split; simpl; [done| |].
  - intros q j y [_ Hy]%lookup_delete_Some. by apply H2 in Hy.
  - intros q. rewrite load_exception_ids_insert. destruct (H3 q) as (Hnd & Hl & Hiff).
    case_decide as Heq; [subst q|].
    + split_and!; [by apply NoDup_filter|etrans; [apply length_filter|done]|].
      intros j. rewrite list_elem_of_filter, Hiff, lookup_delete.
      case_decide as Hj; simplify_eq; [|split; [by intros [_ ?]|intros ?; split; [congruence|done]]].
      split; [by intros [? _]|by intros [? ?]].
    + split_and!; [done..|]. intros j. change (load_exception_ids q (drop_exception p id st)) with
        (load_exception_ids q st). rewrite Hiff, lookup_delete_ne; [done|congruence].
Qed.

Lemma availability_exec_inv c e w w' u :
  valid e c → inv (store w) → exec c e w = Done w' u → inv (store w').
Proof.
  intros Hv Hi Hrun. destruct c; simpl in *.
  - apply ignore_done in Hrun as [s Hrun].
    apply set_schedule_effect in Hrun as (_ & -> & _ & Hs & _). by eapply put_schedule_inv; auto.
  - apply set_enabled_effect in Hrun as (_ & s & Hs & Hcase).
    case_bool_decide; [by subst|]. destruct Hcase as [-> Hmax].
    assert (stored_ok p s) as Hok by by apply (inv_schedules _ Hi).
    eapply put_schedule_inv, switched_ok; [done..|]. destruct Hok as (_ & _ & _ & ? & _). lia.
  - apply add_exception_effect in Hrun as (_ & Hnew & Hlen & ? & ? & ? & ->).
    apply (add_exception_inv p (mkException _ _ _ _ _ _)); simpl; try done.
    unfold exception_stored. simpl. split_and!; [done|lia..|done].
  - apply remove_exception_effect in Hrun as (_ & _ & ->). by apply remove_exception_inv.
  - by rewrite (proj1 (queries_pure p p from until page limit e w w' u) Hrun).
  - by rewrite (proj2 (queries_pure p p from until 0 0 e w w' u) Hrun).
Qed.

(** ** The abstract answer *)

(** The guard rails of a schedule admit booking instant [t] at time [now]. *)
Definition guarded (s : AvailabilitySchedule) (now t : Z) : Prop :=
  enabled s = true ∧ effective_from s ≤ t ∧ now + lead_time_seconds s ≤ t ∧
  t < now + booking_horizon_days s * SECONDS_PER_DAY ∧ (effective_until s = 0 ∨ t < effective_until s).

Definition bookable_at (s : AvailabilitySchedule) (xs : list AvailabilityException) (now t : Z) : Prop :=
  guarded s now t ∧ open_at s xs t ∧ ¬ in_exception Unavailable xs t.

Lemma bookable_window_ok p s now a b :
  stored_ok p s → 0 ≤ now → b ≤ time_max →
  match bookable_window s now a b with
  | None => ∀ t, ¬ (a ≤ t < b ∧ guarded s now t)
  | Some (x, y) => a ≤ x < y ∧ y ≤ b ∧ ∀ t, x ≤ t < y ↔ a ≤ t < b ∧ guarded s now t
  end.
Proof.
  intros (_ & _ & _ & _ & Hlead & _ & _ & Hhor & Hfrom & Huntil) Hnow Hb.
  unfold bookable_window, guarded. destruct (enabled s); simpl; [|naive_solver].
  unfold MAX_LEAD_TIME_SECONDS, MAX_BOOKING_HORIZON_DAYS, time_max, SECONDS_PER_DAY in *.
  unfold checked_mul_u64. rewrite (checked_in 0 u64_max (booking_horizon_days s * 86400)) by range_lia.
  simpl. set (earliest := default u64_max (checked_add_u64 now (lead_time_seconds s))).
  set (horizon_end := default u64_max (checked_add_u64 now (booking_horizon_days s * 86400))).
  assert (∀ t, t < b → earliest ≤ t ↔ now + lead_time_seconds s ≤ t) as He.
  { unfold earliest. destruct (checked_add_u64 _ _) eqn:Hc; checked_prop; simpl; [done|range_lia]. }
  assert (∀ t, t < b → t < horizon_end ↔ t < now + booking_horizon_days s * 86400) as Hh.
  { unfold horizon_end. destruct (checked_add_u64 _ (_ * _)) eqn:Hc; checked_prop; simpl; [done|range_lia]. }
  clearbody earliest horizon_end.
  set (st := if (if a <? effective_from s then effective_from s else a) <? earliest then earliest
             else if a <? effective_from s then effective_from s else a).
  set (fn := if negb (effective_until s =? 0) && (effective_until s <? (if horizon_end <? b then horizon_end else b))
             then effective_until s else if horizon_end <? b then horizon_end else b).
  assert (∀ t, st ≤ t ↔ a ≤ t ∧ effective_from s ≤ t ∧ earliest ≤ t) as Hst.
  { intros t. unfold st. repeat case_match; bool_prop; lia. }
  assert (∀ t, t < fn ↔ t < b ∧ t < horizon_end ∧ (effective_until s = 0 ∨ t < effective_until s)) as Hfn.
  { intros t. unfold fn. destruct (Z.eqb_spec (effective_until s) 0); simpl; repeat case_match; bool_prop; lia. }
  clearbody st fn. assert (∀ t, st ≤ t < fn ↔ a ≤ t < b ∧ true = true ∧ effective_from s ≤ t ∧
    now + lead_time_seconds s ≤ t ∧ t < now + booking_horizon_days s * 86400 ∧
    (effective_until s = 0 ∨ t < effective_until s)) as Hiff.
  { intros t. rewrite Hst, Hfn. destruct (Z_lt_le_dec t b) as [Ht|Ht]; [|lia].
    rewrite <-(He t Ht), <-(Hh t Ht). intuition. }
  destruct (Z.leb_spec fn st) as [Hle|Hlt].
  - intros t Ht. apply Hiff in Ht. lia.
  - split_and!; [apply (Hst st); lia|done|apply Z.nlt_ge; intros Hlt'; apply (Hfn b) in Hlt'; lia|done].
Qed.

Lemma stored_exceptions_ok p st : inv st → Forall exception_ok (load_exceptions p st).
Proof.
  intros Hi. apply Forall_forall. intros x (id & _ & Hx)%list_elem_of_omap.
  apply (inv_exceptions _ Hi) in Hx as (_ & ? & _). unfold exception_ok. lia.
Qed.

(** The ranges of a query, when its window is not empty. *)
Lemma query_ranges p s st now a b x y :
  inv st → schedules st !! p = Some s → 0 ≤ now → 0 ≤ a → b ≤ time_max →
  bookable_window s now a b = Some (x, y) →
  ∃ ranges, compute_ranges s (load_exceptions p st) x y = Some ranges ∧ canonical ranges ∧
    a ≤ x < y ∧ y ≤ b ∧
    ∀ t, covers ranges t ↔ a ≤ t < b ∧ bookable_at s (load_exceptions p st) now t.
Proof.
  intros Hi Hs Hnow Ha Hb Hw. assert (stored_ok p s) as Hok by by apply (inv_schedules _ Hi).
  pose proof (bookable_window_ok p s now a b Hok Hnow Hb) as Hspec. rewrite Hw in Hspec.
  destruct Hspec as (Hax & Hyb & Hiff).
  destruct (compute_ranges_ok s (load_exceptions p st) x y) as (ranges & Hr & Hc & Hcov);
    [apply Hok|by apply stored_exceptions_ok|lia|lia|].
  exists ranges. split_and!; [done..|lia|lia|lia|]. intros t. rewrite Hcov. unfold bookable_at.
  rewrite Hiff. tauto.
Qed.

Definition deployed (w : W) : Prop := store w = mkStore ∅ ∅ ∅.
Abbreviation Reach this := (reachable exec valid this (λ _ _, True) deployed).

Lemma availability_inv_reachable this w : Reach this w → inv (store w).
Proof.
  apply (reachable_inv _ _ _ _ _ (λ w, inv (store w))).
  - intros w0 ->. split; simpl; [apply map_Forall_empty|done|]. intros p.
    assert (load_exception_ids p (mkStore ∅ ∅ ∅) = []) as -> by done.
    split_and!; [constructor|unfold MAX_EXCEPTIONS; simpl; lia|]. intros id.
    split; [by intros ?%elem_of_nil|by intros [? ?]].
  - intros c e w0 w1 u _ Hv Hi Hrun. by eapply availability_exec_inv.
  - done.
Qed.

(** What the queries of a participant with a schedule return. *)
Lemma available_ranges_ok w e p s a b :
  inv (store w) → schedules (store w) !! p = Some s → 0 ≤ timestamp e →
  0 ≤ a < b → b - a ≤ MAX_QUERY_SPAN_SECONDS → b ≤ time_max →
  ∃ ranges, canonical ranges ∧
    (∀ t, covers ranges t ↔ a ≤ t < b ∧ bookable_at s (load_exceptions p (store w)) (timestamp e) t) ∧
    ∀ page limit, 0 ≤ page ≤ MAX_PAGE → 0 < limit ≤ MAX_PAGE_SIZE →
      invoke (available_ranges p a b page limit) e w =
        (w, Returned (take (Z.to_nat limit) (drop (Z.to_nat (page * limit)) ranges))).
Proof.
  intros Hi Hs Hnow Hab Hspan Hb.
  assert (stored_ok p s) as Hok by by apply (inv_schedules _ Hi).
  assert (Hsub : checked_sub_u64 b a = Some (b - a)).
  { unfold checked_sub_u64. apply checked_in. unfold time_max in Hb. range_lia. }
  destruct (bookable_window s (timestamp e) a b) as [[x y]|] eqn:Hw.
  - destruct (query_ranges p s (store w) (timestamp e) a b x y) as (ranges & Hr & Hc & _ & _ & Hcov);
      try done; try lia.
    exists ranges. split_and!; [done..|]. intros page limit Hpage Hlimit.
    assert (checked_mul_u64 page limit = Some (page * limit)) as Hmul.
    { unfold MAX_PAGE, MAX_PAGE_SIZE in *. apply checked_in. unfold u64_max. nia. }
    apply invoke_run. unfold available_ranges, load_schedule. run_fwd. rewrite Hw. run_fwd.
    rewrite page_loop_drop by lia. by rewrite Z.sub_0_r.
  - exists []. split_and!; [apply canonical_nil| |].
    + intros t. pose proof (bookable_window_ok p s (timestamp e) a b Hok Hnow Hb) as Hnone.
      rewrite Hw in Hnone. specialize (Hnone t). pose proof (covers_nil t).
      unfold bookable_at. tauto.
    + intros page limit Hpage Hlimit. apply invoke_run. rewrite drop_nil, take_nil. unfold available_ranges, load_schedule. run_fwd.
      rewrite Hw. run_fwd.
Qed.

(** C23: Availability queries.  In every reachable world, and for a participant with a
    schedule, a well-formed query returns without a trap: there is one canonical list
    (sorted, non-empty ranges separated by gaps) that covers exactly the bookable instants of
    the query, and page [n] of size [limit] is its slice from [n * limit]. *)
Theorem available_ranges_exact this w e p s a b :
  Reach this w → schedules (store w) !! p = Some s → 0 ≤ timestamp e →
  0 ≤ a < b → b - a ≤ MAX_QUERY_SPAN_SECONDS → b ≤ time_max →
  ∃ ranges, canonical ranges ∧
    (∀ t, covers ranges t ↔ a ≤ t < b ∧ bookable_at s (load_exceptions p (store w)) (timestamp e) t) ∧
    ∀ page limit, 0 ≤ page ≤ MAX_PAGE → 0 < limit ≤ MAX_PAGE_SIZE →
      invoke (available_ranges p a b page limit) e w =
        (w, Returned (take (Z.to_nat limit) (drop (Z.to_nat (page * limit)) ranges))).
Proof. intros Hi%availability_inv_reachable. by apply available_ranges_ok. Qed.

(** Interval checks.  In every reachable world a well-formed interval query returns without
    a trap, and answers [true] exactly when every instant of the interval is bookable. *)
Theorem is_available_exact this w e p s a b :
  Reach this w → schedules (store w) !! p = Some s → 0 ≤ timestamp e →
  0 ≤ a < b → b - a ≤ MAX_QUERY_SPAN_SECONDS → b ≤ time_max →
  ∃ answer, invoke (is_available p a b) e w = (w, Returned answer) ∧
    (answer = true ↔
      ∀ t, a ≤ t < b → bookable_at s (load_exceptions p (store w)) (timestamp e) t).
Proof.
  intros Hi%availability_inv_reachable Hs Hnow Hab Hspan Hb.
  assert (stored_ok p s) as Hok by by apply (inv_schedules _ Hi).
  assert (Hsub : checked_sub_u64 b a = Some (b - a)).
  { unfold checked_sub_u64. apply checked_in. unfold time_max in Hb. range_lia. }
  pose proof (bookable_window_ok p s (timestamp e) a b Hok Hnow Hb) as Hspec.
  destruct (bookable_window s (timestamp e) a b) as [[x y]|] eqn:Hw.
  - destruct (query_ranges p s (store w) (timestamp e) a b x y)
      as (ranges & Hr & Hc & Hax & Hyb & Hcov); try done; try lia.
    destruct Hspec as (_ & _ & Hiff).
    destruct ((a <? x) || (y <? b)) eqn:Hclip; eexists; (split;
      [apply invoke_run; unfold is_available, load_schedule; run_fwd; rewrite Hw, ?Hclip; run_fwd|]).
    + split; [done|]. intros Hall. exfalso. bool_prop.
      assert (∀ t, a ≤ t < b → x ≤ t < y) as Hin.
      { intros t Ht. apply Hiff. split; [done|]. by apply Hall. }
      pose proof (Hin a ltac:(lia)). pose proof (Hin (b - 1) ltac:(lia)).
      destruct Hclip; bool_prop; lia.
    + bool_prop. rewrite existsb_exists. split.
      * intros (r & Hr' & Hcr) t Ht. apply Hcov. bool_prop. exists r.
        rewrite list_elem_of_In. unfold in_range_of. split; [done|lia].
      * intros Hall. destruct (canonical_convex ranges x y) as (r & Hr' & ?); [done|lia| |].
        { intros t Ht. apply Hcov. split; [lia|]. apply Hall. lia. }
        exists r. rewrite <-list_elem_of_In. split; [done|].
        apply andb_true_iff. split; [apply Z.leb_le|apply Z.leb_le]; lia.
  - exists false. split; [apply invoke_run; unfold is_available, load_schedule; run_fwd; rewrite Hw; run_fwd|].
    split; [done|]. intros Hall. exfalso. apply (Hspec a). split; [lia|]. apply Hall. lia.
Qed.

(** Schedule versions.  A call leaves every schedule as it is, or is authorised by its
    participant and replaces it by one with the next version number; a schedule is never
    removed.  So equal versions mean equal schedules along any history. *)
Theorem schedule_versions (this : Address) w e c p s :
  Reach this w → valid e c → schedules (store w) !! p = Some s →
  let w' := (invoke (exec c) e w).1 in
  schedules (store w') !! p = Some s ∨
  authorized e p = true ∧ ∃ s', schedules (store w') !! p = Some s' ∧ version s' = version s + 1.
Proof.
  intros Hi%availability_inv_reachable Hv Hs. unfold invoke.
  destruct (exec c e w) as [w' u| |] eqn:Hrun; simpl; [|by left..].
  assert (stored_ok p s) as Hok by by apply (inv_schedules _ Hi).
  destruct c as [q i|q on|q i|q id|q a b n k|q a b]; simpl in Hrun.
  - apply ignore_done in Hrun as [s' Hrun]. apply set_schedule_effect in Hrun
      as (Hauth & -> & _ & Hs' & _ & Hver). specialize (Hs' Hv) as (Hp & _). simpl.
    rewrite lookup_insert, Hp. case_decide as Hq; [rewrite Hq in *|by left]. right. split; [done|].
    exists s'. split; [done|]. by rewrite Hs in Hver.
  - apply set_enabled_effect in Hrun as (Hauth & s0 & Hs0 & Hcase).
    case_bool_decide; [left; by subst|]. destruct Hcase as [-> _]. simpl. rewrite lookup_insert.
    pose proof (proj1 (inv_schedules _ Hi _ _ Hs0)) as Hp0.
    case_decide as Hq; [|by left]. subst. rewrite Hs in Hs0. simplify_eq.
    right. split; [done|]. by eexists.
  - left. by apply add_exception_effect in Hrun as (_ & _ & _ & _ & _ & _ & ->).
  - left. by apply remove_exception_effect in Hrun as (_ & _ & ->).
  - left. by rewrite (proj1 (queries_pure q q a b n k e w w' u) Hrun).
  - left. by rewrite (proj2 (queries_pure q q a b 0 0 e w w' u) Hrun).
Qed.
End Invariant.

(** ** The contract as a service

    Deployments of this contract at some addresses, each in a world satisfying its
    invariant, serve [AvailabilityService] through their read-only entry points. *)
Module AsService.
Record Deployment := mkDeployment { d_store : Store; d_inv : inv d_store }.
Abbreviation Net := (Address → option Deployment).

(** The environment and the world of a read-only call. *)
Definition read_env (c : Address) (now : Z) : Env := mkEnv now c (λ _, false).
Definition world_of (d : Deployment) : World unit Store Event := mkWorld tt (d_store d) [].
Definition returned {A} (r : World unit Store Event * @response ContractError A) : option A :=
  match r.2 with Returned a => Some a | _ => None end.

#[export] Instance availability_service : AvailabilityService Net := {
  summary_at l c now p :=
    d ← l c; returned (invoke (availability_summary p) (read_env c now) (world_of d));
  ranges_at l c now p a b pg lim :=
    d ← l c; returned (invoke (available_ranges p a b pg lim) (read_env c now) (world_of d))
}.

(** The instants a deployment offers for a participant. *)
Definition offers (l : Net) (c : Address) (now : Z) (p : Address) (t : Z) : Prop :=
  ∃ d s, l c = Some d ∧ schedules (d_store d) !! p = Some s ∧
    bookable_at s (load_exceptions p (d_store d)) now t.

Lemma summary_at_inv (l : Net) c now p x :
  summary_at l c now p = Some x →
  ∃ d s, l c = Some d ∧ schedules (d_store d) !! p = Some s ∧ x = summary_of s.
Proof.
  simpl. intros (d & Hd & Hx)%bind_Some. unfold returned, invoke in Hx.
  destruct (availability_summary p _ _) as [w' a| |] eqn:Hrun; simpl in Hx; simplify_eq.
  unfold availability_summary, load_schedule in Hrun. run_inv. by eexists _, _.
Qed.

Lemma ranges_at_inv (l : Net) c now p a b pg lim x :
  ranges_at l c now p a b pg lim = Some x →
  ∃ d s, l c = Some d ∧ schedules (d_store d) !! p = Some s ∧ a < b ∧
    b - a ≤ MAX_QUERY_SPAN_SECONDS ∧ lim ≤ MAX_PAGE_SIZE ∧ pg ≤ MAX_PAGE ∧
    invoke (available_ranges p a b pg lim) (read_env c now) (world_of d) = (world_of d, Returned x).
Proof.
  simpl. intros (d & Hd & Hx)%bind_Some. unfold returned, invoke in *.
  destruct (available_ranges p a b pg lim _ _) as [w' y| |] eqn:Hrun; simpl in Hx; simplify_eq.
  assert (w' = world_of d) as ->.
  { refine (proj1 (queries_pure p p a b pg lim (read_env c now) _ _ tt) _). apply ignore_done. by exists x. }
  pose proof Hrun as Hinv. unfold available_ranges, load_schedule in Hinv. run_inv. bool_prop.
  checked_prop. eexists d, _. split_and!; try done; try lia. by rewrite Hrun.
Qed.

Lemma service_typed l c now p x : summary_at (L := Net) l c now p = Some x → summary_typed x.
Proof.
  intros (d & s & Hd & Hs & ->)%summary_at_inv.
  destruct (inv_schedules _ (d_inv d) _ _ Hs) as (_ & _ & _ & _ & ? & ? & ? & ? & ? & ?).
  unfold summary_typed, MAX_BOOKING_HORIZON_DAYS in *. simpl. split_and!; try lia; range_lia.
Qed.

Lemma service_pages l c now p a b pg lim rs :
  ranges_at (L := Net) l c now p a b pg lim = Some rs →
  0 ≤ a → 0 ≤ now → b ≤ instant_max → 0 ≤ pg → 0 < lim → a < b ∧
  ∃ all, canonical all ∧ (∀ t, covers all t ↔ a ≤ t < b ∧ offers l c now p t) ∧
    rs = take (Z.to_nat lim) (drop (Z.to_nat (pg * lim)) all).
Proof.
  intros (d & s & Hd & Hs & Hab & Hspan & Hlim & Hpg & Hrun)%ranges_at_inv
    Ha Hnow Hb Hpg0 Hlim0. split; [done|].
  destruct (available_ranges_ok (world_of d) (read_env c now) p s a b)
    as (all & Hc & Hcov & Hpages); [apply d_inv|done|done|lia|done|done|].
  exists all. split; [done|]. rewrite Hpages in Hrun by lia. simplify_eq. split; [|done].
  intros t. rewrite Hcov. unfold offers. simpl. split.
  + intros [? ?]. split; [done|]. by exists d, s.
  + intros (Ht & d' & s' & Hd' & Hs' & Hbk). rewrite Hd in Hd'. by simplify_eq.
Qed.

Lemma service_run l c now p x a b pg lim :
  summary_at (L := Net) l c now p = Some x → 0 ≤ a < b → b - a ≤ MAX_QUERY_SPAN → b ≤ instant_max →
  0 ≤ now → 0 ≤ pg ≤ 4096 → 0 < lim ≤ 64 → is_Some (ranges_at (L := Net) l c now p a b pg lim).
Proof.
  intros (d & s & Hd & Hs & ->)%summary_at_inv Hab Hspan Hb Hnow Hpg Hlim.
  destruct (available_ranges_ok (world_of d) (read_env c now) p s a b)
    as (all & _ & _ & Hpages); [apply d_inv|done|done|lia|done|done|].
  simpl. rewrite Hd. simpl. rewrite Hpages by (unfold MAX_PAGE, MAX_PAGE_SIZE; lia).
  by eexists.
Qed.

Lemma service_enabled l c now p x t :
  summary_at (L := Net) l c now p = Some x → offers l c now p t → sum_enabled x = true.
Proof.
  intros (d & s & Hd & Hs & ->)%summary_at_inv (d' & s' & Hd' & Hs' & Hbk).
  rewrite Hd in Hd'. simplify_eq. apply Hbk.
Qed.

#[export] Instance availability_laws : AvailabilityLaws Net := {|
  offered := offers; summary_ok := service_typed; ranges_ok := service_pages;
  ranges_run := service_run; offered_enabled := service_enabled |}.
End AsService.

(** ** Concrete runs *)
Module Runs.
Definition this : Address := addr 0.
Definition mentor : Address := addr 1.
Definition at_time (t : Z) : Env := mkEnv t this (λ b, bool_decide (mentor = b)).
Abbreviation W := (World unit Store Event).

(** Thursdays 09:00-10:30 and 10:00-12:00, an hour east of Greenwich; clocks go an hour
    further at instant 700000. *)
Definition input1 : ScheduleInput :=
  mkInput 7 3600 [mkChange 700000 7200] [mkWindow 4 540 630; mkWindow 4 600 720] 0 0 0 30 1 0.
Definition blackout1 : ExceptionInput := mkExceptionInput 5 Unavailable 34000 36000 9.
Definition w0 : W := mkWorld tt (mkStore ∅ ∅ ∅) [].
Definition w1 : W := run_calls exec
  [(at_time 10, CSetSchedule mentor input1); (at_time 11, CAddException mentor blackout1)] w0.

Abbreviation Reach := (reachable exec valid this (λ _ _, True) deployed).
Lemma availability_w1_reach : Reach w1.
Proof.
  apply reachable_run; [by apply reach_init|].
  repeat constructor; simpl; try lia; vm_compute; congruence.
Qed.

Definition sched1 : AvailabilitySchedule :=
  mkSchedule mentor 7 3600 [mkChange 700000 7200] [mkWindow 4 540 720] 0 0 0 30 1 0 true 1 10.

Lemma sched1_ok : schedule_ok sched1.
Proof.
  split; repeat constructor; unfold offset_ok, MIN_UTC_OFFSET_SECONDS, MAX_UTC_OFFSET_SECONDS,
    MINUTES_PER_DAY; simpl; lia.
Qed.

Lemma normalize_windows_canonical_witness :
  normalize_windows [mkWindow 4 540 630; mkWindow 4 600 720] = Ok [mkWindow 4 540 720] ∧
  canonical_windows [mkWindow 4 540 720].
Proof.
  assert (normalize_windows [mkWindow 4 540 630; mkWindow 4 600 720] = Ok [mkWindow 4 540 720])
    as Hn by (vm_compute; reflexivity).
  destruct (normalize_windows_canonical [mkWindow 4 540 630; mkWindow 4 600 720]) as [_ Hc].
  { repeat constructor; simpl; lia. }
  split; [exact Hn|]. by apply Hc in Hn as (? & _).
Defined.

(** The hour skipped when clocks go from one to two hours east. *)
Lemma local_to_utc_earliest_witness :
  local_to_utc sched1 705000 = Some None ∧ ∀ u, ¬ reads sched1 u 705000.
Proof.
  assert (local_to_utc sched1 705000 = Some None) as Hn by (vm_compute; reflexivity).
  destruct (local_to_utc_earliest sched1 705000) as (best & Hb & Hspec);
    [apply sched1_ok|vm_compute; discriminate|].
  split; [exact Hn|]. rewrite Hn in Hb. injection Hb as <-. destruct Hspec as [Hneg|Hno]; [lia|exact Hno].
Defined.

Lemma available_ranges_exact_witness :
  invoke (available_ranges mentor 0 172800 0 1) (at_time 12) w1 =
    (w1, Returned [mkRange 28800 34000]) ∧
  ∀ t, 28800 ≤ t < 34000 → bookable_at sched1 (load_exceptions mentor (store w1)) 12 t.
Proof.
  destruct (available_ranges_exact this w1 (at_time 12) mentor sched1 0 172800)
    as (ranges & Hc & Hcov & Hpages);
    [apply availability_w1_reach|vm_compute; reflexivity|simpl; lia|lia
    |vm_compute; discriminate|vm_compute; discriminate|].
  pose proof (Hpages 0 1 ltac:(unfold MAX_PAGE; lia) ltac:(unfold MAX_PAGE_SIZE; lia)) as Hp.
  assert (invoke (available_ranges mentor 0 172800 0 1) (at_time 12) w1 =
    (w1, Returned [mkRange 28800 34000])) as Hrun by (vm_compute; reflexivity).
  split; [exact Hrun|]. rewrite Hrun in Hp. intros t Ht.
  apply Hcov. exists (mkRange 28800 34000). split; [|exact Ht].
  assert (Returned (E := ContractError) [mkRange 28800 34000] = Returned (take 1 ranges)) as Heq
    by (injection Hp; intros ->; reflexivity).
  destruct ranges as [|r l]; [discriminate Heq|]. simpl in Heq. rewrite take_0 in Heq. simplify_eq. by left.
Defined.

Lemma is_available_exact_witness :
  invoke (is_available mentor 30000 35000) (at_time 12) w1 = (w1, Returned false) ∧
  ¬ ∀ t, 30000 ≤ t < 35000 → bookable_at sched1 (load_exceptions mentor (store w1)) 12 t.
Proof.
  destruct (is_available_exact this w1 (at_time 12) mentor sched1 30000 35000)
    as (answer & Hrun & Hiff);
    [apply availability_w1_reach|vm_compute; reflexivity|simpl; lia|lia
    |vm_compute; discriminate|vm_compute; discriminate|].
  assert (invoke (is_available mentor 30000 35000) (at_time 12) w1 = (w1, Returned false)) as Hf
    by (vm_compute; reflexivity).
  split; [exact Hf|]. rewrite Hf in Hrun. injection Hrun as <-. intros Hall%Hiff. discriminate Hall.
Defined.

Lemma schedule_versions_witness :
  schedules (store (invoke (exec (CSetEnabled mentor false)) (at_time 13) w1).1) !! mentor
    ≠ Some sched1.
Proof.
  destruct (schedule_versions this w1 (at_time 13) (CSetEnabled mentor false) mentor sched1)
    as [Hs|(_ & s' & Hs & Hv)];
    [apply availability_w1_reach|exact I|vm_compute; reflexivity|vm_compute in Hs; discriminate Hs|].
  rewrite Hs. intros [= ->]. simpl in Hv. lia.
Defined.
End Runs.
