(* ===== verification/Slots.v ===== *)
(** * The session-slot contract ([contracts/mentorship-slots/src/lib.rs])

    Candidate slots are found on the intersection of two participants' availability and
    booked with full revalidation.  Availability is read through [AvailabilityService]; a call
    of it that fails is [AvailabilityUnavailable].  [SlotsProps.v] proves the properties. *)
From S2P Require Import Prelude Machine Host Loops Intervals AvailabilityService.

Definition SECONDS_PER_DAY : Z := 86400.
Definition MAX_BLACKOUTS : nat := 64.
Definition MAX_BOOKINGS_PER_PARTICIPANT : nat := 128.
Definition MAX_SEARCH_SPAN_SECONDS : Z := 31 * SECONDS_PER_DAY.
Definition MAX_PAGE_SIZE : Z := 64.
Definition MAX_PAGE : Z := 64.
Definition MAX_COLLECTED_CANDIDATES : Z := 256.
Definition MAX_BLACKOUT_SPAN_SECONDS : Z := 366 * SECONDS_PER_DAY.
Definition MIN_SESSION_SECONDS : Z := 300.
Definition MAX_SESSION_SECONDS : Z := 8 * 3600.
Definition MIN_GRANULARITY_SECONDS : Z := 60.
Definition MAX_GRANULARITY_SECONDS : Z := 3600.
Definition MAX_SESSIONS_PER_DAY : Z := 16.
Definition AVAILABILITY_PAGE_SIZE : Z := 64.
Definition MAX_AVAILABILITY_PAGES : nat := 4.
Definition MAX_AVAILABILITY_RANGES : nat := 192.
(** All zeroes: every program. *)
Definition global_program : BytesN32 := 0.

Inductive ContractError :=
| NotInitialized | AlreadyInitialized | NotAdmin | NotAuthorized | ProgramPolicyNotFound
| InvalidSessionPolicy | InvalidSessionsPerDay | InvalidBlackoutRange | BlackoutAlreadyExists
| BlackoutNotFound | TooManyBlackouts | BookingNotFound | BookingAlreadyExists | BookingNotActive
| InvalidParties | InvalidQueryRange | QuerySpanTooLarge | InvalidPage | TooManyCandidates
| ParticipantScheduleFull | AvailabilityUnavailable | SlotUnavailable | BlackoutOverlap
| VersionOverflow | InvalidBookingId | AvailabilityTooFragmented.

Record ProgramPolicy := mkPolicy {
  pol_program_id : BytesN32; duration_seconds : Z; granularity_seconds : Z;
  max_sessions_per_day : Z; pol_version : Z; updated_at : Z
}.

Record Blackout := mkBlackout {
  blk_id : BytesN32; blk_program_id : BytesN32; from_ts : Z; until_ts : Z; blk_created_at : Z
}.

Inductive BookingState := Active | Cancelled | Completed.
#[export] Instance BookingState_eq_dec : EqDecision BookingState.
Proof. solve_decision. Defined.

Record Booking := mkBooking {
  id : BytesN32; mentor : Address; mentee : Address; program_id : BytesN32;
  bk_start : Z; bk_end : Z; state : BookingState; created_at : Z
}.

Record Slot := mkSlot {
  slot_start : Z; slot_end : Z; mentor_availability_version : Z; mentee_availability_version : Z
}.

Inductive Event :=
| AVAILSET (availability : Address)
| PROGPOL (program : BytesN32) (version duration : Z)
| BLKSET (blackout program : BytesN32) (from until : Z)
| BLKREM (blackout : BytesN32)
| BOOKED (booking : BytesN32) (mentor mentee : Address) (start : Z)
| BOOKCAN (booking : BytesN32) (mentor mentee : Address).

Record Store := mkStore {
  admin : option Address;
  availability : option Address;
  policies : gmap Z ProgramPolicy;
  blackout_list : option (list Z);
  blackouts : gmap Z Blackout;
  booking_lists : gmap Address (list Z);
  bookings : gmap Z Booking
}.

Definition put_roles (a s : Address) (st : Store) : Store :=
  mkStore (Some a) (Some s) (policies st) (blackout_list st) (blackouts st) (booking_lists st) (bookings st).
Definition put_availability (s : Address) (st : Store) : Store :=
  mkStore (admin st) (Some s) (policies st) (blackout_list st) (blackouts st) (booking_lists st) (bookings st).
Definition put_policy (p : ProgramPolicy) (st : Store) : Store :=
  mkStore (admin st) (availability st) (<[pol_program_id p := p]> (policies st)) (blackout_list st)
    (blackouts st) (booking_lists st) (bookings st).
Definition put_blackout (b : Blackout) (st : Store) : Store :=
  mkStore (admin st) (availability st) (policies st) (blackout_list st)
    (<[blk_id b := b]> (blackouts st)) (booking_lists st) (bookings st).
Definition drop_blackout (i : BytesN32) (st : Store) : Store :=
  mkStore (admin st) (availability st) (policies st) (blackout_list st)
    (delete i (blackouts st)) (booking_lists st) (bookings st).
Definition put_blackout_ids (ids : list Z) (st : Store) : Store :=
  mkStore (admin st) (availability st) (policies st) (Some ids) (blackouts st) (booking_lists st) (bookings st).
Definition put_booking (b : Booking) (st : Store) : Store :=
  mkStore (admin st) (availability st) (policies st) (blackout_list st) (blackouts st)
    (booking_lists st) (<[id b := b]> (bookings st)).
Definition put_booking_ids (p : Address) (ids : list Z) (st : Store) : Store :=
  mkStore (admin st) (availability st) (policies st) (blackout_list st) (blackouts st)
    (<[p := ids]> (booking_lists st)) (bookings st).

Definition load_blackout_ids (st : Store) : list Z := default [] (blackout_list st).
Definition load_blackouts (st : Store) : list Blackout :=
  omap (λ i, blackouts st !! i) (load_blackout_ids st).
Definition load_booking_ids (p : Address) (st : Store) : list Z := default [] (booking_lists st !! p).
Definition participant_bookings (p : Address) (st : Store) : list Booking :=
  omap (λ i, bookings st !! i) (load_booking_ids p st).

(** ** Tests on one slot *)

Definition ranges_cover (ranges : list AvailableRange) (start fin : Z) : bool :=
  existsb (λ r, (start_ts r <=? start) && (fin <=? end_ts r)) ranges.

Definition blackout_overlaps (bs : list Blackout) (program : BytesN32) (start fin : Z) : bool :=
  existsb (λ b,
    negb (negb (blk_program_id b =? program) && negb (blk_program_id b =? global_program)) &&
    ((from_ts b <? fin) && (start <? until_ts b))) bs.

Definition bookings_conflict (bs : list Booking) (start fin buffer_before buffer_after : Z) : bool :=
  existsb (λ b,
    bool_decide (state b = Active) &&
    ((saturating_sub_u64 (bk_start b) buffer_before <? fin) &&
     (start <? saturating_add_u64 (bk_end b) buffer_after))) bs.

Definition on_day (day_start day_end : Z) (b : Booking) : bool :=
  bool_decide (state b = Active) && (day_start <=? bk_start b) && (bk_start b <? day_end).

(** The count of a participant's sessions on the UTC day of [instant]; [None] if the end of
    the day overflows. *)
Definition sessions_on_day (bs : list Booking) (instant : Z) : option Z :=
  let day_start := Z.quot instant SECONDS_PER_DAY * SECONDS_PER_DAY in
  day_end ← checked_add_u64 day_start SECONDS_PER_DAY;
  Some (foldl (λ count b, if on_day day_start day_end b then count + 1 else count) 0 bs).

(** ** The candidate search *)

Record Search := mkSearch { examined : Z; collected : Z; found : list Slot }.

(** What the loops of a search go through: the grid of one overlap, or its end, or a value of
    the whole function. *)
Inductive grid :=
| Stepping (candidate : Z) (s : Search)
| Exhausted (s : Search)
| Early (r : result ContractError (list Slot)).

Record SearchInput := mkSearchInput {
  in_policy : ProgramPolicy; in_mentor : AvailabilitySummary; in_mentee : AvailabilitySummary;
  in_blackouts : list Blackout; in_mentor_bookings : list Booking; in_mentee_bookings : list Booking;
  in_skip : Z; in_limit : Z; in_target : Z
}.

(** [a || b] where evaluating [b] may trap. *)
Definition or_else (a : bool) (b : option bool) : option bool := if a then Some true else b.

Definition refused (i : SearchInput) (candidate fin : Z) : option bool :=
  or_else (blackout_overlaps (in_blackouts i) (pol_program_id (in_policy i)) candidate fin)
  (or_else (bookings_conflict (in_mentor_bookings i) candidate fin
     (sum_buffer_before_seconds (in_mentor i)) (sum_buffer_after_seconds (in_mentor i)))
  (or_else (bookings_conflict (in_mentee_bookings i) candidate fin
     (sum_buffer_before_seconds (in_mentee i)) (sum_buffer_after_seconds (in_mentee i)))
  (n ← sessions_on_day (in_mentor_bookings i) candidate;
   or_else (max_sessions_per_day (in_policy i) <=? n)
   (m ← sessions_on_day (in_mentee_bookings i) candidate;
    Some (max_sessions_per_day (in_policy i) <=? m))))).

Definition grid_step (i : SearchInput) (overlap_end : Z) (g : grid) : option grid :=
  match g with
  | Stepping candidate s =>
      fin ← checked_add_u64 candidate (duration_seconds (in_policy i));
      if overlap_end <? fin then Some (Exhausted s)
      else
        examined' ← checked_add_u64 (examined s) 1;
        if MAX_COLLECTED_CANDIDATES * 8 <? examined' then Some (Early (Err TooManyCandidates))
        else
          no ← refused i candidate fin;
          if no : bool then
            next ← checked_add_u64 candidate (granularity_seconds (in_policy i));
            Some (Stepping next (mkSearch examined' (collected s) (found s)))
          else
            let found' :=
              if (in_skip i <=? collected s) && (Z.of_nat (length (found s)) <? in_limit i)
              then found s ++ [mkSlot candidate fin (sum_version (in_mentor i)) (sum_version (in_mentee i))]
              else found s in
            collected' ← checked_add_u64 (collected s) 1;
            if in_target i <=? collected' then Some (Early (Ok found'))
            else
              next ← checked_add_u64 candidate (granularity_seconds (in_policy i));
              Some (Stepping next (mkSearch examined' collected' found'))
  | _ => Some g
  end.

Definition stepping (g : grid) : bool := match g with Stepping _ _ => true | _ => false end.

(** [a.div_ceil(b)]; [None] for a zero divisor. *)
Definition div_ceil (a b : Z) : option Z :=
  if b =? 0 then None
  else Some (if 0 <? Z.rem a b then Z.quot a b + 1 else Z.quot a b).

(** No search examines more than [MAX_COLLECTED_CANDIDATES * 8] candidates. *)
Definition GRID_FUEL : nat := Z.to_nat (MAX_COLLECTED_CANDIDATES * 8 + 3).

Definition search_overlap (i : SearchInput) (overlap_start overlap_end : Z) (s : Search) : option grid :=
  if overlap_start <? overlap_end then
    n ← div_ceil overlap_start (granularity_seconds (in_policy i));
    candidate ← checked_mul_u64 n (granularity_seconds (in_policy i));
    while GRID_FUEL stepping (grid_step i overlap_end) (Stepping candidate s)
  else Some (Exhausted s).

Inductive scan :=
| Scanning (a b : nat) (s : Search)
| Stopped (r : result ContractError (list Slot)).

Definition scan_step (i : SearchInput) (mentor_ranges mentee_ranges : list AvailableRange) (x : scan) :
    option scan :=
  match x with
  | Scanning a b s =>
      match mentor_ranges !! a, mentee_ranges !! b with
      | Some r1, Some r2 =>
          let overlap_start := if start_ts r2 <? start_ts r1 then start_ts r1 else start_ts r2 in
          let overlap_end := if end_ts r1 <? end_ts r2 then end_ts r1 else end_ts r2 in
          g ← search_overlap i overlap_start overlap_end s;
          match g with
          | Early r => Some (Stopped r)
          | Exhausted s | Stepping _ s =>
              Some (if end_ts r1 <? end_ts r2 then Scanning (S a) b s else Scanning a (S b) s)
          end
      | _, _ => Some (Stopped (Ok (found s)))
      end
  | Stopped _ => Some x
  end.

Definition scanning (m n : nat) (x : scan) : bool :=
  match x with Scanning a b _ => (a <? m)%nat && (b <? n)%nat | Stopped _ => false end.

Definition search (i : SearchInput) (mentor_ranges mentee_ranges : list AvailableRange) :
    option (result ContractError (list Slot)) :=
  x ← while (S (length mentor_ranges + length mentee_ranges))
        (scanning (length mentor_ranges) (length mentee_ranges))
        (scan_step i mentor_ranges mentee_ranges) (Scanning 0 0 (mkSearch 0 0 []));
  Some (match x with Scanning _ _ s => Ok (found s) | Stopped r => r end).

(** ** Entry points *)
Section Contract.
Context {L : Type} `{!AvailabilityService L}.
Abbreviation M := (Contract L Store Event ContractError).

Definition initialize (adm service : Address) : M unit :=
  o <- load admin ;;
  reject_if (bool_decide (is_Some o)) AlreadyInitialized ;;;
  require_auth adm ;;;
  save (put_roles adm service).

Definition require_admin (caller : Address) : M unit :=
  require_admin_of admin NotInitialized NotAdmin caller.

Definition availability_address : M Address :=
  o <- load availability ;;
  ok_or o NotInitialized.

Definition set_availability_contract (caller service : Address) : M unit :=
  require_admin caller ;;;
  save (put_availability service) ;;;
  publish (AVAILSET service).

Definition read_summary (p : Address) : M AvailabilitySummary :=
  c <- availability_address ;;
  t <- now ;;
  o <- consult (λ l, summary_at l c t p) ;;
  ok_or o AvailabilityUnavailable.

(** Push a page onto the ranges read so far. *)
Definition push_ranges (page ranges : list AvailableRange) : M (list AvailableRange) :=
  for_in page ranges (λ r ranges,
    reject_if (MAX_AVAILABILITY_RANGES <=? length ranges)%nat AvailabilityTooFragmented ;;;
    ret (ranges ++ [r])).

(** [remaining] counts the pages that may still be read. *)
Fixpoint read_pages (remaining : nat) (c p : Address) (from until page : Z) (ranges : list AvailableRange) :
    M (list AvailableRange) :=
  match remaining with
  | O => fail AvailabilityTooFragmented
  | S remaining =>
      t <- now ;;
      o <- consult (λ l, ranges_at l c t p from until page AVAILABILITY_PAGE_SIZE) ;;
      page_ranges <- ok_or o AvailabilityUnavailable ;;
      ranges <- push_ranges page_ranges ranges ;;
      if Z.of_nat (length page_ranges) <? AVAILABILITY_PAGE_SIZE then ret ranges
      else read_pages remaining c p from until (page + 1) ranges
  end.

Definition read_ranges (p : Address) (from until : Z) : M (list AvailableRange) :=
  c <- availability_address ;;
  read_pages MAX_AVAILABILITY_PAGES c p from until 0 [].

Definition load_policy (program : BytesN32) : M ProgramPolicy :=
  o <- load (λ st, policies st !! program) ;;
  ok_or o ProgramPolicyNotFound.

Definition load_booking (i : BytesN32) : M Booking :=
  o <- load (λ st, bookings st !! i) ;;
  ok_or o BookingNotFound.

Definition set_program_policy (caller : Address) (program : BytesN32) (duration granularity cap : Z) :
    M unit :=
  require_admin caller ;;;
  reject_if (negb (in_range MIN_SESSION_SECONDS MAX_SESSION_SECONDS duration) ||
             negb (in_range MIN_GRANULARITY_SECONDS MAX_GRANULARITY_SECONDS granularity) ||
             negb (Z.rem duration granularity =? 0)) InvalidSessionPolicy ;;;
  reject_if ((cap =? 0) || (MAX_SESSIONS_PER_DAY <? cap)) InvalidSessionsPerDay ;;;
  existing <- load (λ st, policies st !! program) ;;
  version <- ok_or (match existing with
                    | Some p => checked_add_u32 (pol_version p) 1
                    | None => Some 1
                    end) VersionOverflow ;;
  t <- now ;;
  save (put_policy (mkPolicy program duration granularity cap version t)) ;;;
  publish (PROGPOL program version duration).

Definition get_program_policy (program : BytesN32) : M ProgramPolicy := load_policy program.

Definition set_blackout (caller : Address) (i program : BytesN32) (from until : Z) : M unit :=
  require_admin caller ;;;
  reject_if ((from =? 0) || (until <=? from)) InvalidBlackoutRange ;;;
  span <- or_trap (checked_sub_u64 until from) ;;
  reject_if (MAX_BLACKOUT_SPAN_SECONDS <? span) InvalidBlackoutRange ;;;
  o <- load (λ st, blackouts st !! i) ;;
  reject_if (bool_decide (is_Some o)) BlackoutAlreadyExists ;;;
  ids <- load load_blackout_ids ;;
  reject_if (MAX_BLACKOUTS <=? length ids)%nat TooManyBlackouts ;;;
  t <- now ;;
  save (put_blackout (mkBlackout i program from until t)) ;;;
  save (put_blackout_ids (ids ++ [i])) ;;;
  publish (BLKSET i program from until).

Definition remove_blackout (caller : Address) (i : BytesN32) : M unit :=
  require_admin caller ;;;
  o <- load (λ st, blackouts st !! i) ;;
  reject_if (negb (bool_decide (is_Some o))) BlackoutNotFound ;;;
  save (drop_blackout i) ;;;
  ids <- load load_blackout_ids ;;
  save (put_blackout_ids (filter (λ x, x ≠ i) ids)) ;;;
  publish (BLKREM i).

Definition get_blackout (i : BytesN32) : M Blackout :=
  o <- load (λ st, blackouts st !! i) ;;
  ok_or o BlackoutNotFound.

Definition blackout_ids : M (list Z) := load load_blackout_ids.

Definition validate_participant_slot (summary : AvailabilitySummary) (bs : list Booking) (start fin : Z)
    (ranges : list AvailableRange) (blks : list Blackout) (program : BytesN32) (cap : Z) : M unit :=
  reject_if (negb (sum_enabled summary)) SlotUnavailable ;;;
  reject_if (negb (ranges_cover ranges start fin)) SlotUnavailable ;;;
  reject_if (blackout_overlaps blks program start fin) BlackoutOverlap ;;;
  reject_if (bookings_conflict bs start fin (sum_buffer_before_seconds summary)
    (sum_buffer_after_seconds summary)) SlotUnavailable ;;;
  n <- or_trap (sessions_on_day bs start) ;;
  reject_if (cap <=? n) SlotUnavailable.

Definition validate_slot (mentor mentee : Address) (policy : ProgramPolicy) (start : Z) : M Z :=
  s1 <- read_summary mentor ;;
  s2 <- read_summary mentee ;;
  fin <- ok_or (checked_add_u64 start (duration_seconds policy)) SlotUnavailable ;;
  t <- now ;;
  let lead_time := if sum_lead_time_seconds s2 <? sum_lead_time_seconds s1
                   then sum_lead_time_seconds s1 else sum_lead_time_seconds s2 in
  earliest <- ok_or (checked_add_u64 t lead_time) SlotUnavailable ;;
  reject_if (start <? earliest) SlotUnavailable ;;;
  h1 <- ok_or (checked_mul_u64 (sum_booking_horizon_days s1) SECONDS_PER_DAY) SlotUnavailable ;;
  h2 <- ok_or (checked_mul_u64 (sum_booking_horizon_days s2) SECONDS_PER_DAY) SlotUnavailable ;;
  let horizon := if h1 <? h2 then h1 else h2 in
  latest <- ok_or (checked_add_u64 t horizon) SlotUnavailable ;;
  reject_if (latest <? fin) SlotUnavailable ;;;
  r1 <- read_ranges mentor start fin ;;
  r2 <- read_ranges mentee start fin ;;
  blks <- load load_blackouts ;;
  b1 <- load (participant_bookings mentor) ;;
  b2 <- load (participant_bookings mentee) ;;
  validate_participant_slot s1 b1 start fin r1 blks (pol_program_id policy) (max_sessions_per_day policy) ;;;
  validate_participant_slot s2 b2 start fin r2 blks (pol_program_id policy) (max_sessions_per_day policy) ;;;
  ret fin.

Definition find_slots (mentor mentee : Address) (program : BytesN32) (from until page limit : Z) :
    M (list Slot) :=
  reject_if (bool_decide (mentor = mentee)) InvalidParties ;;;
  reject_if (until <=? from) InvalidQueryRange ;;;
  span <- or_trap (checked_sub_u64 until from) ;;
  reject_if (MAX_SEARCH_SPAN_SECONDS <? span) QuerySpanTooLarge ;;;
  reject_if ((limit =? 0) || (MAX_PAGE_SIZE <? limit) || (MAX_PAGE <? page)) InvalidPage ;;;
  page_1 <- or_trap (checked_add_u64 page 1) ;;
  target <- or_trap (checked_mul_u64 page_1 limit) ;;
  reject_if (MAX_COLLECTED_CANDIDATES <? target) InvalidPage ;;;
  policy <- load_policy program ;;
  s1 <- read_summary mentor ;;
  s2 <- read_summary mentee ;;
  t <- now ;;
  let lead_time := if sum_lead_time_seconds s2 <? sum_lead_time_seconds s1
                   then sum_lead_time_seconds s1 else sum_lead_time_seconds s2 in
  h1 <- or_trap (checked_mul_u64 (sum_booking_horizon_days s1) SECONDS_PER_DAY) ;;
  h2 <- or_trap (checked_mul_u64 (sum_booking_horizon_days s2) SECONDS_PER_DAY) ;;
  let horizon := if h1 <? h2 then h1 else h2 in
  let earliest := default u64_max (checked_add_u64 t lead_time) in
  let start := if from <? earliest then earliest else from in
  let latest := default u64_max (checked_add_u64 t horizon) in
  let fin := if latest <? until then latest else until in
  if fin <=? start then ret []
  else
    r1 <- read_ranges mentor start fin ;;
    r2 <- read_ranges mentee start fin ;;
    blks <- load load_blackouts ;;
    b1 <- load (participant_bookings mentor) ;;
    b2 <- load (participant_bookings mentee) ;;
    skip <- or_trap (checked_mul_u64 page limit) ;;
    r <- or_trap (search (mkSearchInput policy s1 s2 blks b1 b2 skip limit target) r1 r2) ;;
    lift r.

(** [validate_slot(..).is_ok()]: an error is an answer, a trap is not. *)
Definition is_ok {A} (m : M A) : M bool := λ e w,
  match m e w with
  | Done w' _ => Done w' true
  | Failed w' _ => Done w' false
  | Trapped => Trapped
  end.

Definition is_slot_bookable (mentor mentee : Address) (program : BytesN32) (start : Z) : M bool :=
  reject_if (bool_decide (mentor = mentee)) InvalidParties ;;;
  policy <- load_policy program ;;
  is_ok (validate_slot mentor mentee policy start).

(** Append a booking to the lists of both parties. *)
Definition enrol (i : BytesN32) (p : Address) : M unit :=
  ids <- load (load_booking_ids p) ;;
  reject_if (MAX_BOOKINGS_PER_PARTICIPANT <=? length ids)%nat ParticipantScheduleFull ;;;
  save (put_booking_ids p (ids ++ [i])).

Definition same_booking (b : Booking) (mentor0 mentee0 : Address) (program : BytesN32) (start : Z) : bool :=
  bool_decide (state b = Active) && bool_decide (mentor b = mentor0) &&
  bool_decide (mentee b = mentee0) && (program_id b =? program) && (bk_start b =? start).

Definition book_slot (caller : Address) (i : BytesN32) (mentor mentee : Address) (program : BytesN32)
    (start : Z) : M Z :=
  reject_if (negb (bool_decide (caller = mentor)) && negb (bool_decide (caller = mentee)))
    NotAuthorized ;;;
  reject_if (bool_decide (mentor = mentee)) InvalidParties ;;;
  reject_if (i =? 0) InvalidBookingId ;;;
  policy <- load_policy program ;;
  existing <- load (λ st, bookings st !! i) ;;
  match existing with
  | Some b => if same_booking b mentor mentee program start then ret (bk_end b)
              else fail BookingAlreadyExists
  | None =>
      require_auth mentor ;;;
      require_auth mentee ;;;
      fin <- validate_slot mentor mentee policy start ;;
      t <- now ;;
      save (put_booking (mkBooking i mentor mentee program start fin Active t)) ;;;
      enrol i mentor ;;;
      enrol i mentee ;;;
      publish (BOOKED i mentor mentee start) ;;;
      ret fin
  end.

Definition cancelled (b : Booking) : Booking :=
  mkBooking (id b) (mentor b) (mentee b) (program_id b) (bk_start b) (bk_end b) Cancelled (created_at b).

Definition cancel_booking (caller : Address) (i : BytesN32) : M unit :=
  require_auth caller ;;;
  b <- load_booking i ;;
  reject_if (negb (bool_decide (caller = mentor b)) && negb (bool_decide (caller = mentee b)))
    NotAuthorized ;;;
  reject_if (negb (bool_decide (state b = Active))) BookingNotActive ;;;
  save (put_booking (cancelled b)) ;;;
  publish (BOOKCAN i (mentor b) (mentee b)).

Definition get_booking (i : BytesN32) : M Booking := load_booking i.

Definition booking_ids (p : Address) (page limit : Z) : M (list Z) :=
  reject_if ((limit =? 0) || (MAX_PAGE_SIZE <? limit) || (512 <? page)) InvalidPage ;;;
  ids <- load (load_booking_ids p) ;;
  skip <- or_trap (checked_mul_u64 page limit) ;;
  ret (page_loop ids 0 skip limit []).

(** ** Calls *)

Inductive Call :=
| CInitialize (adm service : Address)
| CSetAvailability (caller service : Address)
| CSetPolicy (caller : Address) (program : BytesN32) (duration granularity cap : Z)
| CSetBlackout (caller : Address) (i program : BytesN32) (from until : Z)
| CRemoveBlackout (caller : Address) (i : BytesN32)
| CFindSlots (mentor mentee : Address) (program : BytesN32) (from until page limit : Z)
| CIsSlotBookable (mentor mentee : Address) (program : BytesN32) (start : Z)
| CBookSlot (caller : Address) (i : BytesN32) (mentor mentee : Address) (program : BytesN32) (start : Z)
| CCancelBooking (caller : Address) (i : BytesN32).

Definition exec (c : Call) : M unit :=
  match c with
  | CInitialize a s => initialize a s
  | CSetAvailability a s => set_availability_contract a s
  | CSetPolicy a p d g n => set_program_policy a p d g n
  | CSetBlackout a i p f u => set_blackout a i p f u
  | CRemoveBlackout a i => remove_blackout a i
  | CFindSlots a b p f u pg n => ignore (find_slots a b p f u pg n)
  | CIsSlotBookable a b p s => ignore (is_slot_bookable a b p s)
  | CBookSlot c i a b p s => ignore (book_slot c i a b p s)
  | CCancelBooking a i => cancel_booking a i
  end.
End Contract.

(** The declared widths of the arguments that matter. *)
Definition valid (e : Env) (c : Call) : Prop :=
  0 ≤ timestamp e ≤ u64_max ∧
  match c with
  | CBookSlot _ _ _ _ _ s => 0 ≤ s
  | CSetPolicy _ _ _ _ n => 0 ≤ n
  | CSetBlackout _ _ _ f _ => 0 ≤ f
  | _ => True
  end.
