(* ===== verification/SlotsProps.v ===== *)
(** * Session slots: properties

    What the tests on one slot mean, that the bounded search always ends and offers only
    slots that can be booked at once, and the invariants of the bookings: no participant is
    booked twice at the same time, nobody has more than sixteen sessions on a day. *)
From S2P Require Import Prelude Machine Host Loops Intervals AvailabilityService Slots.

(** ** Tests on one slot *)

Lemma ranges_cover_true rs a b :
  ranges_cover rs a b = true ↔ ∃ r, r ∈ rs ∧ start_ts r ≤ a ∧ b ≤ end_ts r.
Proof.
  unfold ranges_cover. rewrite existsb_exists. split; intros (r & Hr & Hin); exists r;
    rewrite list_elem_of_In in *; (split; [done|]).
  - bool_prop. lia.
  - apply andb_true_iff. split; apply Z.leb_le; lia.
Qed.

(** A slot without a conflict keeps its distance from every active booking: the participant's
    buffer before the booking if it comes first, the buffer after it if it comes later. *)
Lemma no_conflict_buffers bs s e before after b :
  bookings_conflict bs s e before after = false → b ∈ bs → state b = Active →
  0 < e → s < u64_max →
  e + before ≤ bk_start b ∨ bk_end b + after ≤ s.
Proof.
  intros Hno Hb Hact He Hs. unfold bookings_conflict in Hno.
  assert (∀ x, x ∈ bs → bool_decide (state x = Active) && ((saturating_sub_u64 (bk_start x) before <? e)
    && (s <? saturating_add_u64 (bk_end x) after)) = false) as Hall.
  { intros x Hx. apply not_true_is_false. intros Ht. rewrite <-not_true_iff_false in Hno. apply Hno.
    apply existsb_exists. exists x. split; [by apply list_elem_of_In|done]. }
  specialize (Hall b Hb). rewrite bool_decide_eq_true_2 in Hall by done. simpl in Hall.
  unfold saturating_sub_u64, saturating_add_u64 in *. bool_prop.
  destruct Hall; bool_prop; lia.
Qed.

(** ** Sessions of a day *)

Definition day_sessions (bs : list Booking) (day_start : Z) : Z :=
  list_sum (λ b, if on_day day_start (day_start + SECONDS_PER_DAY) b then 1 else 0) bs.

Lemma foldl_count (P : Booking → bool) bs n :
  foldl (λ count b, if P b then count + 1 else count) n bs =
    n + list_sum (λ b, if P b then 1 else 0) bs.
Proof. revert n. induction bs as [|b bs IH]; intros n; simpl; [lia|]. rewrite IH. case_match; lia. Qed.

Lemma sessions_on_day_run bs t :
  0 ≤ t ≤ instant_max + 10 * SECONDS_PER_DAY →
  sessions_on_day bs t = Some (day_sessions bs (t / SECONDS_PER_DAY * SECONDS_PER_DAY)).
Proof.
  unfold instant_max. intros Ht. unfold sessions_on_day, SECONDS_PER_DAY in *.
  rewrite Z.quot_div_nonneg by lia. unfold checked_add_u64. rewrite checked_in.
  - simpl. by rewrite foldl_count.
  - pose proof (Z.mul_div_le t 86400 ltac:(lia)). pose proof (Z.div_pos t 86400). range_lia.
Qed.

Lemma sessions_on_day_done bs t n :
  0 ≤ t → sessions_on_day bs t = Some n →
  n = day_sessions bs (t / SECONDS_PER_DAY * SECONDS_PER_DAY).
Proof.
  unfold sessions_on_day. intros Ht (d & Hd & Hn)%bind_Some. checked_prop. simplify_eq.
  unfold SECONDS_PER_DAY in *. rewrite Z.quot_div_nonneg by lia. by rewrite foldl_count.
Qed.

(** ** The search *)
Section Search.
Context (i : SearchInput) (rs1 rs2 : list AvailableRange).
Let dur := duration_seconds (in_policy i).
Let gran := granularity_seconds (in_policy i).
Context (Hdur : MIN_SESSION_SECONDS ≤ dur ≤ MAX_SESSION_SECONDS)
  (Hgran : MIN_GRANULARITY_SECONDS ≤ gran ≤ MAX_GRANULARITY_SECONDS)
  (Htarget : in_target i ≤ MAX_COLLECTED_CANDIDATES) (Hlimit : 0 ≤ in_limit i).

(** What a slot that the search offers has passed. *)
Definition offered_slot (x : Slot) : Prop :=
  slot_end x = slot_start x + dur ∧ (gran | slot_start x) ∧
  refused i (slot_start x) (slot_end x) = Some false ∧
  ∃ r1 r2, r1 ∈ rs1 ∧ r2 ∈ rs2 ∧
    start_ts r1 ≤ slot_start x ∧ slot_end x ≤ end_ts r1 ∧
    start_ts r2 ≤ slot_start x ∧ slot_end x ≤ end_ts r2.

Definition slots_ok (l : list Slot) : Prop :=
  Forall offered_slot l ∧ Z.of_nat (length l) ≤ in_limit i.
Definition search_ok (s : Search) : Prop :=
  0 ≤ examined s ≤ MAX_COLLECTED_CANDIDATES * 8 ∧ 0 ≤ collected s ≤ MAX_COLLECTED_CANDIDATES ∧
  slots_ok (found s).
Definition answer_ok (r : result ContractError (list Slot)) : Prop :=
  match r with Ok l => slots_ok l | Err err => err = TooManyCandidates end.

Definition grid_ok (lo hi : Z) (g : grid) : Prop :=
  match g with
  | Stepping c s => lo ≤ c ≤ hi + MAX_GRANULARITY_SECONDS ∧ (gran | c) ∧ search_ok s
  | Exhausted s => search_ok s
  | Early r => answer_ok r
  end.

Lemma refused_run c : 0 ≤ c ≤ instant_max + 10 * SECONDS_PER_DAY → ∃ x, refused i c (c + dur) = Some x.
Proof.
  intros Hc. unfold refused, or_else. repeat (case_match; [by eexists|]).
  rewrite !sessions_on_day_run by done. unfold mbind, option_bind.
  destruct (_ <=? _); by eexists.
Qed.

Definition grid_left (g : grid) : nat :=
  match g with Stepping _ s => S (Z.to_nat (MAX_COLLECTED_CANDIDATES * 8 + 1 - examined s)) | _ => 0 end.

Lemma grid_step_ok r1 r2 lo hi g :
  r1 ∈ rs1 → r2 ∈ rs2 → 0 ≤ lo → start_ts r1 ≤ lo → start_ts r2 ≤ lo → hi ≤ end_ts r1 → hi ≤ end_ts r2 →
  hi ≤ instant_max → grid_ok lo hi g → stepping g = true →
  ∃ g', grid_step i hi g = Some g' ∧ grid_ok lo hi g' ∧ (grid_left g' < grid_left g)%nat.
Proof.
  intros Hr1 Hr2 Hlo H1 H2 H3 H4 Hhi Hg Hst. destruct g as [c s|s|r]; [|done..]. simpl in *.
  destruct Hg as (Hc & Hdiv & Hs). pose proof Hs as (Hex & Hcol & Hfound).
  unfold MIN_SESSION_SECONDS, MAX_SESSION_SECONDS, MIN_GRANULARITY_SECONDS, MAX_GRANULARITY_SECONDS,
    MAX_COLLECTED_CANDIDATES, instant_max in *.
  fold dur gran. unfold checked_add_u64. rewrite (checked_in _ _ (c + dur)) by range_lia. simpl.
  destruct (Z.ltb_spec hi (c + dur)) as [Hend|Hin].
  { eexists. split; [done|]. split; [done|]. simpl. lia. }
  rewrite (checked_in _ _ (examined s + 1)) by range_lia. simpl.
  destruct (Z.ltb_spec (256 * 8) (examined s + 1)) as [Hmany|Hfew].
  { eexists. split; [done|]. split; [done|]. simpl. lia. }
  destruct (refused_run c) as [no Hno].
  { unfold instant_max, SECONDS_PER_DAY. lia. }
  rewrite Hno. simpl. rewrite (checked_in _ _ (c + gran)) by range_lia.
  assert ((gran | c + gran)) as Hdiv' by (apply Z.divide_add_r; [done|apply Z.divide_refl]).
  destruct no; simpl.
  { eexists. split; [done|]. simpl. unfold MAX_COLLECTED_CANDIDATES, MAX_GRANULARITY_SECONDS. split; [|lia].
    split; [lia|]. split; [done|]. unfold search_ok. simpl. unfold MAX_COLLECTED_CANDIDATES.
    split; [lia|]. split; [lia|done]. }
  rewrite (checked_in _ _ (collected s + 1)) by range_lia. simpl.
  set (found' := if _ && _ then found s ++ [_] else found s).
  assert (slots_ok found') as Hfound'.
  { unfold found'. destruct ((in_skip i <=? collected s) && _) eqn:Hpush; [|done].
    bool_prop. destruct Hfound as [Hf Hl]. split.
    - apply Forall_app. split; [done|]. apply Forall_singleton. split_and!; simpl; [done..|].
      exists r1, r2. split_and!; [done..|lia|lia|lia|lia].
    - rewrite length_app. simpl. lia. }
  clearbody found'. destruct (Z.leb_spec (in_target i) (collected s + 1)) as [Hdone|Hmore].
  { eexists. split; [done|]. split; [done|]. simpl. lia. }
  eexists. split; [done|]. simpl. unfold MAX_COLLECTED_CANDIDATES, MAX_GRANULARITY_SECONDS. split; [|lia].
  split; [lia|]. split; [done|]. unfold search_ok. simpl. unfold MAX_COLLECTED_CANDIDATES.
  split; [lia|]. split; [lia|done].
Qed.

Lemma search_overlap_ok r1 r2 lo hi s :
  r1 ∈ rs1 → r2 ∈ rs2 → 0 ≤ lo → start_ts r1 ≤ lo → start_ts r2 ≤ lo → hi ≤ end_ts r1 → hi ≤ end_ts r2 →
  hi ≤ instant_max → search_ok s →
  ∃ g, search_overlap i lo hi s = Some g ∧
    match g with Early r => answer_ok r | Stepping _ s' | Exhausted s' => search_ok s' end.
Proof.
  intros Hr1 Hr2 Hlo H1 H2 H3 H4 Hhi Hs. unfold search_overlap.
  destruct (Z.ltb_spec lo hi) as [Hlt|Hge]; [|eexists; by split].
  fold gran. unfold MIN_GRANULARITY_SECONDS, MAX_GRANULARITY_SECONDS, instant_max in *. unfold div_ceil.
  rewrite (proj2 (Z.eqb_neq gran 0)) by lia. simpl.
  rewrite Z.quot_div_nonneg, Z.rem_mod_nonneg by lia.
  set (n := if 0 <? lo mod gran then lo / gran + 1 else lo / gran).
  assert (lo ≤ n * gran ≤ lo + gran ∧ 0 ≤ n) as [Hn Hn0].
  { unfold n. pose proof (Z.div_mod lo gran ltac:(lia)). pose proof (Z.mod_pos_bound lo gran ltac:(lia)).
    pose proof (Z.div_pos lo gran ltac:(lia) ltac:(lia)). destruct (Z.ltb_spec 0 (lo mod gran)); nia. }
  unfold checked_mul_u64. rewrite checked_in by range_lia. simpl.
  destruct (while_total stepping (grid_step i hi) (grid_ok lo hi) grid_left) with
    (fuel := GRID_FUEL) (s := Stepping (n * gran) s) as (g & Hrun & Hg & Hend).
  - intros g Hg Hst. apply (grid_step_ok r1 r2); try done.
  - simpl. unfold MAX_GRANULARITY_SECONDS. split; [lia|]. split; [apply Z.divide_factor_r|done].
  - simpl. destruct Hs as (? & _). unfold GRID_FUEL, MAX_COLLECTED_CANDIDATES in *. lia.
  - exists g. split; [done|]. destruct g; [done..|exact Hg].
Qed.

(** The ranges lie in the times the laws speak of. *)
Context (Hrs1 : Forall (λ r, 0 ≤ start_ts r ∧ end_ts r ≤ instant_max) rs1).
Context (Hrs2 : Forall (λ r, 0 ≤ start_ts r ∧ end_ts r ≤ instant_max) rs2).

Definition scan_ok (x : scan) : Prop :=
  match x with
  | Scanning a b s => (a ≤ length rs1)%nat ∧ (b ≤ length rs2)%nat ∧ search_ok s
  | Stopped r => answer_ok r
  end.
Definition scan_left (x : scan) : nat :=
  match x with Scanning a b _ => (length rs1 - a) + (length rs2 - b) | Stopped _ => 0 end.

Lemma search_total : ∃ r, search i rs1 rs2 = Some r ∧ answer_ok r.
Proof.
  unfold search.
  destruct (while_total (scanning (length rs1) (length rs2)) (scan_step i rs1 rs2) scan_ok scan_left)
    with (fuel := S (length rs1 + length rs2)) (s := Scanning 0 0 (mkSearch 0 0 []))
    as (x & Hrun & Hx & _).
  - intros x Hx Hsc. destruct x as [a b s|r]; [|done]. simpl in *. destruct Hx as (Ha & Hb & Hs).
    apply andb_true_iff in Hsc as [Ha'%Nat.ltb_lt Hb'%Nat.ltb_lt].
    destruct (lookup_lt_is_Some_2 rs1 a Ha') as [r1 Hr1]. destruct (lookup_lt_is_Some_2 rs2 b Hb') as [r2 Hr2].
    rewrite Hr1, Hr2. pose proof Hr1 as Hin1. pose proof Hr2 as Hin2.
    apply list_elem_of_lookup_2 in Hin1, Hin2. rewrite Forall_forall in Hrs1, Hrs2.
    pose proof (Hrs1 r1 Hin1) as [? ?]. pose proof (Hrs2 r2 Hin2) as [? ?].
    destruct (search_overlap_ok r1 r2 (if start_ts r2 <? start_ts r1 then start_ts r1 else start_ts r2)
      (if end_ts r1 <? end_ts r2 then end_ts r1 else end_ts r2) s) as (g & -> & Hg); [done|done|..|done|];
      try (repeat case_match; bool_prop; lia).
    simpl. destruct g as [c s'|s'|r].
    + eexists. split; [done|]. destruct (_ <? _); simpl; (split; [split_and!; [lia..|done]|lia]).
    + eexists. split; [done|]. destruct (_ <? _); simpl; (split; [split_and!; [lia..|done]|lia]).
    + eexists. split; [done|]. split; [done|]. simpl. lia.
  - simpl. split_and!; [lia..|]. unfold search_ok, slots_ok, MAX_COLLECTED_CANDIDATES. simpl.
    split_and!; try lia. constructor.
  - simpl. lia.
  - rewrite Hrun. simpl. eexists. split; [done|]. destruct x as [a b s|r]; [|done]. simpl. apply Hx.
Qed.
End Search.

(** ** Reading availability *)
Section Reading.
Context {L : Type} `{!AvailabilityService L}.
Abbreviation W := (World L Store Event).
Implicit Types (w : W).

Lemma read_summary_done p e w w' s :
  read_summary p e w = Done w' s →
  w' = w ∧ ∃ c, availability (store w) = Some c ∧ summary_at (ledger w) c (timestamp e) p = Some s.
Proof.
  intros Hrun. unfold read_summary, availability_address in Hrun. run_inv. split; [done|].
  eexists. by split.
Qed.

Lemma push_ranges_done page rs e w w' rs' :
  push_ranges page rs e w = Done w' rs' → w' = w ∧ rs' = rs ++ page.
Proof.
  unfold push_ranges. revert rs. induction page as [|r page IH]; intros rs Hrun; simpl in Hrun.
  - run_inv. by rewrite app_nil_r.
  - run_inv. apply IH in Hrun as [-> ->]. by rewrite <-app_assoc.
Qed.

Lemma push_ranges_run page rs e w :
  (length rs + length page ≤ MAX_AVAILABILITY_RANGES)%nat →
  push_ranges page rs e w = Done w (rs ++ page).
Proof.
  unfold push_ranges. revert rs. induction page as [|r page IH]; intros rs Hlen; cbn [for_in].
  { by rewrite app_nil_r. }
  simpl in Hlen.
  unfold bind, reject_if, ret. rewrite (proj2 (Nat.leb_gt _ _)) by lia.
  rewrite IH by (rewrite length_app; simpl; lia). by rewrite <-app_assoc.
Qed.

Lemma read_pages_pure n c p a b pg rs e w w' rs' :
  read_pages n c p a b pg rs e w = Done w' rs' → w' = w.
Proof.
  revert pg rs. induction n as [|n IH]; intros pg rs Hrun; simpl in Hrun; [done|]. run_inv.
  match goal with H : push_ranges _ _ _ _ = Done _ _ |- _ => apply push_ranges_done in H as [-> ->] end.
  case_match; [by run_inv|]. by eapply IH.
Qed.

Lemma read_ranges_pure p a b e w w' rs : read_ranges p a b e w = Done w' rs → w' = w.
Proof.
  intros Hrun. unfold read_ranges, availability_address in Hrun. run_inv. by eapply read_pages_pure.
Qed.

Lemma push_ranges_safe page rs e w : safe (push_ranges page rs) e w.
Proof. apply for_in_safe. intros r acc w' _. safe_step. Qed.

Lemma read_summary_safe p e w : safe (read_summary p) e w.
Proof. unfold read_summary, availability_address. safe_step. Qed.

Lemma read_pages_safe n c p a b pg rs e w : safe (read_pages n c p a b pg rs) e w.
Proof.
  revert pg rs w. induction n as [|n IH]; intros pg rs w; cbn [read_pages]; safe_step.
  apply bind_safe; [apply push_ranges_safe|]. intros w' rs' _. case_match; safe_step.
Qed.

Lemma read_ranges_safe p a b e w : safe (read_ranges p a b) e w.
Proof. unfold read_ranges, availability_address. safe_step. apply read_pages_safe. Qed.

Context `{!AvailabilityLaws L}.

(** Reading ranges yields the whole canonical list of the offered instants. *)
Lemma read_pages_done n c p a b pg all e w w' rs :
  canonical all → (∀ t, covers all t ↔ a ≤ t < b ∧ offered (ledger w) c (timestamp e) p t) →
  0 ≤ a → b ≤ instant_max → 0 ≤ timestamp e → 0 ≤ pg →
  read_pages n c p a b pg (take (Z.to_nat (pg * AVAILABILITY_PAGE_SIZE)) all) e w = Done w' rs →
  rs = all.
Proof.
  intros Hc Hcov Ha Hb Hnow. revert pg. induction n as [|n IH]; intros pg Hpg Hrun; simpl in Hrun; [done|].
  run_inv.
  match goal with H : push_ranges _ _ _ _ = Done _ _ |- _ => apply push_ranges_done in H as [-> ->] end.
  match goal with H : ranges_at _ _ _ _ _ _ _ _ = Some ?page |- _ =>
    rename page into rs1, H into Hpage end.
  apply (ranges_ok (ledger w) c (timestamp e) p) in Hpage as (Hab & all' & Hc' & Hcov' & ->); try done.
  assert (all' = all) as ->.
  { apply canonical_unique; [done..|]. intros t. by rewrite Hcov, Hcov'. }
  assert (take (Z.to_nat (pg * AVAILABILITY_PAGE_SIZE)) all ++
    take (Z.to_nat AVAILABILITY_PAGE_SIZE) (drop (Z.to_nat (pg * AVAILABILITY_PAGE_SIZE)) all) =
    take (Z.to_nat ((pg + 1) * AVAILABILITY_PAGE_SIZE)) all) as Htake.
  { rewrite <-take_add || rewrite take_take_drop. f_equal. unfold AVAILABILITY_PAGE_SIZE. lia. }
  rewrite Htake in Hrun.
  destruct (Z.ltb_spec (Z.of_nat (length (take (Z.to_nat AVAILABILITY_PAGE_SIZE)
    (drop (Z.to_nat (pg * AVAILABILITY_PAGE_SIZE)) all)))) AVAILABILITY_PAGE_SIZE) as [Hlast|Hfull].
  - run_inv. apply take_ge. rewrite length_take, length_drop in Hlast.
    unfold AVAILABILITY_PAGE_SIZE in *. lia.
  - apply (IH (pg + 1)); [lia|done].
Qed.

Lemma read_ranges_done p a b e w w' rs :
  read_ranges p a b e w = Done w' rs → 0 ≤ a → b ≤ instant_max → 0 ≤ timestamp e →
  ∃ c, availability (store w) = Some c ∧ a < b ∧ canonical rs ∧
    ∀ t, covers rs t ↔ a ≤ t < b ∧ offered (ledger w) c (timestamp e) p t.
Proof.
  intros Hrun Ha Hb Hnow. unfold read_ranges, availability_address in Hrun. run_inv.
  eexists. split; [done|]. pose proof Hrun as Hfirst. simpl in Hfirst. run_inv.
  match goal with H : ranges_at _ _ _ _ _ _ _ _ = Some _ |- _ => rename H into Hpage end.
  apply (ranges_ok (ledger w)) in Hpage as (Hab & all & Hc & Hcov & _); try done.
  split; [done|]. enough (rs = all) as -> by done.
  by eapply (read_pages_done MAX_AVAILABILITY_PAGES _ p a b 0); simpl.
Qed.

(** A participant wholly free in an interval is read as one range. *)
Lemma read_ranges_run p a b c s e w :
  availability (store w) = Some c → summary_at (ledger w) c (timestamp e) p = Some s →
  0 ≤ a < b → b - a ≤ MAX_QUERY_SPAN → b ≤ instant_max → 0 ≤ timestamp e →
  (∀ t, a ≤ t < b → offered (ledger w) c (timestamp e) p t) →
  read_ranges p a b e w = Done w [mkRange a b].
Proof.
  intros Hav Hs Hab Hspan Hb Hnow Hfree.
  destruct (ranges_run (ledger w) c (timestamp e) p s a b 0 AVAILABILITY_PAGE_SIZE) as [rs Hrs];
    try done.
  pose proof Hrs as Hspec. apply ranges_ok in Hspec as (_ & all & Hc & Hcov & ->); try done; try lia.
  assert (all = [mkRange a b]) as ->.
  { apply canonical_unique; [done|apply canonical_one; unfold nonempty; simpl; lia|].
    intros t. rewrite Hcov, covers_one. unfold in_range_of. simpl. naive_solver. }
  simpl in Hrs. unfold read_ranges, availability_address. run_fwd. simpl. run_fwd.
Qed.
End Reading.

(** ** Invariant *)

Definition party (p : Address) (b : Booking) : Prop := mentor b = p ∨ mentee b = p.

Definition policy_ok (program : Z) (p : ProgramPolicy) : Prop :=
  pol_program_id p = program ∧
  MIN_SESSION_SECONDS ≤ duration_seconds p ≤ MAX_SESSION_SECONDS ∧
  MIN_GRANULARITY_SECONDS ≤ granularity_seconds p ≤ MAX_GRANULARITY_SECONDS ∧
  0 < max_sessions_per_day p ≤ MAX_SESSIONS_PER_DAY.

Definition booking_ok (st : Store) (i : Z) (b : Booking) : Prop :=
  id b = i ∧ mentor b ≠ mentee b ∧ 0 ≤ bk_start b ∧ bk_start b < bk_end b ≤ u64_max ∧
  state b ≠ Completed ∧ is_Some (policies st !! program_id b).

(** The bookings of [p] listed in [st] that are active on a UTC day. *)
Definition sessions (st : Store) (p : Address) (day : Z) : Z :=
  day_sessions (participant_bookings p st) (day * SECONDS_PER_DAY).

Record inv (st : Store) : Prop := {
  inv_policies : map_Forall policy_ok (policies st);
  inv_bookings : map_Forall (booking_ok st) (bookings st);
  inv_lists : ∀ p, NoDup (load_booking_ids p st) ∧
    (length (load_booking_ids p st) ≤ MAX_BOOKINGS_PER_PARTICIPANT)%nat ∧
    ∀ i, i ∈ load_booking_ids p st ↔ ∃ b, bookings st !! i = Some b ∧ party p b;
  inv_apart : ∀ i j b c p, i ≠ j → bookings st !! i = Some b → bookings st !! j = Some c →
    state b = Active → state c = Active → party p b → party p c →
    apart (bk_start b) (bk_end b) (bk_start c) (bk_end c);
  inv_daily : ∀ p day, sessions st p day ≤ MAX_SESSIONS_PER_DAY
}.

Lemma participant_bookings_elem st p i b :
  inv st → bookings st !! i = Some b → party p b → b ∈ participant_bookings p st.
Proof.
  intros Hi Hb Hp. apply list_elem_of_omap. exists i. split; [|done].
  apply (inv_lists _ Hi p). by exists b.
Qed.

(** Adding a fresh booking to the lists of its parties. *)
Definition enrolled (p q : Address) (b : Booking) (st : Store) : Store :=
  let st1 := put_booking b st in
  let st2 := put_booking_ids p (load_booking_ids p st1 ++ [id b]) st1 in
  put_booking_ids q (load_booking_ids q st2 ++ [id b]) st2.

Lemma load_booking_ids_enrolled p q b st r :
  p ≠ q →
  load_booking_ids r (enrolled p q b st) =
    load_booking_ids r st ++ (if decide (r = p ∨ r = q) then [id b] else []).
Proof.
  intros Hpq. unfold enrolled, load_booking_ids. simpl.
  destruct (decide (r = q)) as [->|Hq].
  - rewrite lookup_insert_eq, lookup_insert_ne by done. simpl. by rewrite decide_True by by right.
  - rewrite lookup_insert_ne by done. destruct (decide (r = p)) as [->|Hp].
    + rewrite lookup_insert_eq. simpl. by rewrite decide_True by by left.
    + rewrite lookup_insert_ne, decide_False by naive_solver. by rewrite app_nil_r.
Qed.

Lemma participant_bookings_enrolled p q b st r :
  p ≠ q → bookings st !! id b = None →
  (∀ i, i ∈ load_booking_ids r st → is_Some (bookings st !! i)) →
  participant_bookings r (enrolled p q b st) =
    participant_bookings r st ++ (if decide (r = p ∨ r = q) then [b] else []).
Proof.
  intros Hpq Hnew Hall. unfold participant_bookings.
  rewrite load_booking_ids_enrolled, omap_app by done. f_equal.
  - apply list_omap_ext, Forall_Forall2_diag, Forall_forall. intros i Hi. simpl.
    rewrite lookup_insert_ne; [done|]. intros <-. destruct (Hall (id b) Hi) as [? Hx]. congruence.
  - case_decide; simpl; [|done]. by rewrite lookup_insert_eq.
Qed.

Lemma list_ids_known st p i : inv st → i ∈ load_booking_ids p st → is_Some (bookings st !! i).
Proof. intros Hi Hin. apply (inv_lists _ Hi p) in Hin as (b & Hb & _). by eexists. Qed.

Lemma day_sessions_app l l' d : day_sessions (l ++ l') d = day_sessions l d + day_sessions l' d.
Proof. apply list_sum_app. Qed.

(** A new booking adds one session to the day it starts on, for its parties. *)
Lemma sessions_enrolled_le p q b st r day :
  p ≠ q → inv st → bookings st !! id b = None → 0 ≤ bk_start b →
  sessions (enrolled p q b st) r day ≤ sessions st r day +
    if bool_decide ((r = p ∨ r = q) ∧ day = bk_start b / SECONDS_PER_DAY) then 1 else 0.
Proof.
  intros Hpq Hi Hnew H0. unfold sessions.
  rewrite participant_bookings_enrolled by (try done; intros; by eapply list_ids_known).
  rewrite day_sessions_app. case_decide as Hr; unfold day_sessions at 2; simpl.
  - destruct (on_day _ _ b) eqn:Hon; [|case_bool_decide; lia]. unfold on_day in Hon. bool_prop.
    rewrite bool_decide_eq_true_2; [lia|]. split; [done|].
    unfold SECONDS_PER_DAY in *. Z.div_mod_to_equations. lia.
  - case_bool_decide; lia.
Qed.

Lemma sessions_enrolled p q b st r day :
  p ≠ q → inv st → bookings st !! id b = None → 0 ≤ bk_start b →
  (∀ x, x = p ∨ x = q →
    sessions st x (bk_start b / SECONDS_PER_DAY) < MAX_SESSIONS_PER_DAY) →
  sessions (enrolled p q b st) r day ≤ MAX_SESSIONS_PER_DAY.
Proof.
  intros Hpq Hi Hnew H0 Hcap. pose proof (sessions_enrolled_le p q b st r day Hpq Hi Hnew H0) as Hle.
  case_bool_decide as Hb.
  - destruct Hb as [Hr ->]. specialize (Hcap r Hr). lia.
  - pose proof (inv_daily _ Hi r day). lia.
Qed.

Lemma enrolled_inv p q b st :
  inv st → p = mentor b → q = mentee b → booking_ok st (id b) b → bookings st !! id b = None →
  (∀ x, party x b → (length (load_booking_ids x st) < MAX_BOOKINGS_PER_PARTICIPANT)%nat) →
  (∀ x c, party x b → c ∈ participant_bookings x st → state c = Active →
    apart (bk_start c) (bk_end c) (bk_start b) (bk_end b)) →
  (∀ x, party x b → sessions st x (bk_start b / SECONDS_PER_DAY) < MAX_SESSIONS_PER_DAY) →
  inv (enrolled p q b st).
Proof.
  intros Hi -> -> Hb Hnew Hlen Hfree Hcap. pose proof Hb as (_ & Hpq & H0 & _).
  assert (Hparty : ∀ x, (x = mentor b ∨ x = mentee b) ↔ party x b) by (unfold party; naive_solver).
  split.
  - apply Hi.
  - simpl. apply map_Forall_insert_2; [done|]. apply (inv_bookings _ Hi).
  - intros x. destruct (inv_lists _ Hi x) as (Hnd & Hl & Hiff).
    rewrite load_booking_ids_enrolled by done. split_and!.
    + case_decide; [|by rewrite app_nil_r]. apply NoDup_app. split_and!; [done| |apply NoDup_singleton].
      intros i Hin ->%list_elem_of_singleton. apply Hiff in Hin as (c & Hc & _). congruence.
    + rewrite length_app. case_decide as Hx; simpl; [|lia]. apply Hparty, Hlen in Hx. lia.
    + intros i. rewrite elem_of_app, Hiff. simpl. destruct (decide (id b = i)) as [<-|Hne].
      * rewrite lookup_insert_eq. split; [intros [(c & Hc & _)|Hin]; [congruence|]|].
        -- case_decide as Hx; [|by apply elem_of_nil in Hin]. exists b. split; [done|by apply Hparty].
        -- intros (c & [= <-] & Hc). right. rewrite decide_True by by apply Hparty. by left.
      * rewrite lookup_insert_ne by done. split; [intros [|Hin]; [done|]|by left].
        case_decide; [|by apply elem_of_nil in Hin].
        apply list_elem_of_singleton in Hin. congruence.
  - intros i j c d x Hij Hc Hd Hac Had Hxc Hxd. simpl in Hc, Hd. rewrite lookup_insert in Hc, Hd.
    destruct (decide (id b = i)) as [<-|Hi1], (decide (id b = j)) as [<-|Hj1]; simplify_eq.
    + apply apart_sym, (Hfree x d); [done| |done]. by eapply participant_bookings_elem.
    + apply (Hfree x c); [done| |done]. by eapply participant_bookings_elem.
    + by apply (inv_apart _ Hi i j c d x).
  - intros x day. apply sessions_enrolled; try done. intros y Hy. by apply Hcap, Hparty.
Qed.

Lemma day_sessions_le (f g : Z → option Booking) l d :
  (∀ i b, f i = Some b → ∃ c, g i = Some c ∧
    (on_day d (d + SECONDS_PER_DAY) b = true → on_day d (d + SECONDS_PER_DAY) c = true)) →
  day_sessions (omap f l) d ≤ day_sessions (omap g l) d.
Proof.
  intros Hfg. induction l as [|i l IH]; csimpl; [done|].
  assert (∀ b k, day_sessions (b :: k) d = (if on_day d (d + SECONDS_PER_DAY) b then 1 else 0) +
    day_sessions k d) as Hcons by done.
  destruct (f i) as [b|] eqn:Hf.
  - destruct (Hfg i b Hf) as (c & -> & Hon). rewrite !Hcons.
    destruct (on_day _ _ b) eqn:Hb; [rewrite Hon by done; lia|]. destruct (on_day _ _ c); lia.
  - destruct (g i); rewrite ?Hcons; [|done]. destruct (on_day _ _ _); lia.
Qed.

Lemma slots_cancel_inv i b st :
  inv st → bookings st !! i = Some b → inv (put_booking (cancelled b) st).
Proof.
  intros Hi Hb. pose proof (inv_bookings _ Hi _ _ Hb) as (Hid & Hne & H0 & H1 & H2 & H3).
  assert (id (cancelled b) = i) as Hci by done.
  split.
  - apply Hi.
  - simpl. rewrite Hid. apply map_Forall_insert_2; [|apply (inv_bookings _ Hi)].
    unfold booking_ok. simpl. split_and!; done || lia.
  - intros p. destruct (inv_lists _ Hi p) as (Hnd & Hl & Hiff). split_and!; [done..|].
    intros j. change (load_booking_ids p (put_booking (cancelled b) st)) with (load_booking_ids p st).
    rewrite Hiff. simpl. rewrite Hid. destruct (decide (i = j)) as [<-|Hj].
    + rewrite lookup_insert_eq. split; intros (c & [= Hc] & Hp).
      * rewrite Hb in Hc. simplify_eq. by eexists.
      * exists b. split; [done|]. by rewrite <-Hc in Hp.
    + by rewrite lookup_insert_ne.
  - intros j k c d p Hjk Hc Hd Hac Had. simpl in Hc, Hd. rewrite Hid in Hc, Hd.
    destruct (decide (i = j)) as [<-|Hj]; [rewrite lookup_insert_eq in Hc; by simplify_eq|].
    destruct (decide (i = k)) as [<-|Hk]; [rewrite lookup_insert_eq in Hd; by simplify_eq|].
    rewrite lookup_insert_ne in Hc, Hd by done. by apply (inv_apart _ Hi j k).
  - intros p day. etrans; [|apply (inv_daily _ Hi p day)]. unfold sessions, participant_bookings.
    change (load_booking_ids p (put_booking (cancelled b) st)) with (load_booking_ids p st).
    apply day_sessions_le. intros j c. simpl. rewrite Hid.
    destruct (decide (i = j)) as [<-|Hj].
    + rewrite lookup_insert_eq. intros [= <-]. exists b. split; [done|].
      unfold on_day at 1. by rewrite bool_decide_eq_false_2.
    + rewrite lookup_insert_ne by done. intros Hc. by exists c.
Qed.

(** Blackouts, roles and policies do not touch bookings. *)
Lemma same_bookings_inv st st' :
  inv st → map_Forall policy_ok (policies st') → (∀ p, is_Some (policies st !! p) → is_Some (policies st' !! p)) →
  booking_lists st' = booking_lists st → bookings st' = bookings st → inv st'.
Proof.
  intros Hi Hpol Hkeep Hl Hb.
  assert (∀ p, load_booking_ids p st' = load_booking_ids p st) as Hids.
  { intros p. unfold load_booking_ids. by rewrite Hl. }
  split; [done| | | |].
  - rewrite Hb. intros i b Hx. destruct (inv_bookings _ Hi _ _ Hx) as (?&?&?&?&?&?).
    split_and!; first [done|lia|by apply Hkeep].
  - intros p. rewrite Hids, Hb. apply (inv_lists _ Hi p).
  - rewrite Hb. apply (inv_apart _ Hi).
  - intros p day. unfold sessions, participant_bookings. rewrite Hids, Hb. apply (inv_daily _ Hi p day).
Qed.

(** ** What validation has checked *)
Section Validation.
Context {L : Type} `{!AvailabilityService L}.
Abbreviation W := (World L Store Event).
Implicit Types (w : W).

(** One participant's side of a validated slot. *)
Definition free_for (st : Store) (p : Address) (s : AvailabilitySummary) (rs : list AvailableRange)
    (pol : ProgramPolicy) (start fin : Z) : Prop :=
  sum_enabled s = true ∧ ranges_cover rs start fin = true ∧
  blackout_overlaps (load_blackouts st) (pol_program_id pol) start fin = false ∧
  bookings_conflict (participant_bookings p st) start fin
    (sum_buffer_before_seconds s) (sum_buffer_after_seconds s) = false ∧
  ∃ n, sessions_on_day (participant_bookings p st) start = Some n ∧ n < max_sessions_per_day pol.

Lemma validate_participant_slot_done st p s rs pol start fin e w w' u :
  validate_participant_slot s (participant_bookings p st) start fin rs (load_blackouts st)
    (pol_program_id pol) (max_sessions_per_day pol) e w = Done w' u ↔
  w' = w ∧ free_for st p s rs pol start fin.
Proof.
  unfold validate_participant_slot, free_for. destruct u. split.
  - intros Hrun. run_inv. bool_prop. split_and!; try done. eexists. split; [done|lia].
  - intros (-> & He & Hr & Hb & Hc & n & Hn & Hlt). run_fwd.
Qed.

Lemma validate_slot_done a b pol start e w w' fin :
  validate_slot a b pol start e w = Done w' fin →
  w' = w ∧ fin = start + duration_seconds pol ∧ fin ≤ u64_max ∧
  ∃ s1 s2 r1 r2,
    read_summary a e w = Done w s1 ∧ read_summary b e w = Done w s2 ∧
    read_ranges a start fin e w = Done w r1 ∧ read_ranges b start fin e w = Done w r2 ∧
    timestamp e + sum_lead_time_seconds s1 ≤ start ∧ timestamp e + sum_lead_time_seconds s2 ≤ start ∧
    free_for (store w) a s1 r1 pol start fin ∧ free_for (store w) b s2 r2 pol start fin.
Proof.
  intros Hrun. unfold validate_slot in Hrun. run_inv. 
  repeat match goal with H : read_summary _ _ _ = Done _ _ |- _ =>
    let H' := fresh "Hs" in pose proof (proj1 (read_summary_done _ _ _ _ _ H)) as ->; revert H end.
  intros Hs1 Hs2.
  repeat match goal with H : read_ranges _ _ _ _ _ = Done _ _ |- _ =>
    pose proof (read_ranges_pure _ _ _ _ _ _ _ H) as ->; revert H end.
  intros Hr1 Hr2.
  repeat match goal with H : validate_participant_slot _ _ _ _ _ _ _ _ _ _ = Done _ _ |- _ =>
    apply validate_participant_slot_done in H as [-> H] end.
  checked_prop. bool_prop. split_and!; [done..|lia|].
  eexists _, _, _, _. split_and!; try done;
    destruct (sum_lead_time_seconds _ <? sum_lead_time_seconds _) eqn:?; bool_prop; lia.
Qed.

(** Validation writes nothing, whether it succeeds or fails. *)
Definition quiet {A} (m : Contract L Store Event ContractError A) e w : Prop :=
  match m e w with Done w' _ | Failed w' _ => w' = w | Trapped => True end.

Lemma bind_quiet {A B} (m : Contract L Store Event ContractError A)
    (k : A → Contract L Store Event ContractError B) e w :
  quiet m e w → (∀ a, quiet (k a) e w) → quiet (bind m k) e w.
Proof. unfold quiet, bind. intros Hm Hk. destruct (m e w) as [w' a| |]; subst; [apply Hk|done..]. Qed.

Lemma ok_or_quiet {A} (o : option A) err e w :
  quiet (ok_or o err : Contract L Store Event ContractError A) e w.
Proof. by destruct o. Qed.
Lemma or_trap_quiet {A} (o : option A) e w :
  quiet (or_trap o : Contract L Store Event ContractError A) e w.
Proof. by destruct o. Qed.
Lemma reject_if_quiet c err e w :
  quiet (reject_if c err : Contract L Store Event ContractError unit) e w.
Proof. by destruct c. Qed.

Local Hint Resolve ok_or_quiet or_trap_quiet reject_if_quiet : quiet.
Ltac quiet_step := repeat first
  [ solve [eauto with quiet nocore] | apply bind_quiet; [|intros ?] | progress cbv beta zeta | by unfold quiet ].

Lemma read_summary_quiet p e w : quiet (read_summary p) e w.
Proof. unfold read_summary, availability_address. quiet_step. Qed.

Lemma push_ranges_quiet page rs e w : quiet (push_ranges page rs) e w.
Proof.
  unfold push_ranges. revert rs. induction page as [|r page IH]; intros rs; cbn [for_in]; quiet_step.
Qed.

Local Hint Resolve read_summary_quiet push_ranges_quiet : quiet.
Lemma read_pages_quiet n c p a b pg rs e w : quiet (read_pages n c p a b pg rs) e w.
Proof.
  revert pg rs. induction n as [|n IH]; intros pg rs; cbn [read_pages]; quiet_step.
  case_match; quiet_step.
Qed.

Local Hint Resolve read_pages_quiet : quiet.
Lemma read_ranges_quiet p a b e w : quiet (read_ranges p a b) e w.
Proof. unfold read_ranges, availability_address. quiet_step. Qed.

Local Hint Resolve read_ranges_quiet : quiet.
Lemma validate_slot_quiet a b pol start e w : quiet (validate_slot a b pol start) e w.
Proof. unfold validate_slot, validate_participant_slot. quiet_step. Qed.

Lemma validate_participant_slot_safe s bs start fin rs bls prog cap e w :
  0 ≤ start ≤ instant_max → safe (validate_participant_slot s bs start fin rs bls prog cap) e w.
Proof.
  intros Hs. unfold validate_participant_slot. safe_step.
  apply bind_safe; [|intros; safe_step]. apply or_trap_safe.
  rewrite sessions_on_day_run by (unfold SECONDS_PER_DAY; lia). by eexists.
Qed.

Lemma validate_slot_safe a b pol start e w :
  0 ≤ start ≤ instant_max → safe (validate_slot a b pol start) e w.
Proof.
  intros Hs. unfold validate_slot.
  apply bind_safe; [apply read_summary_safe|]. intros w1 s1 [-> _]%read_summary_done.
  apply bind_safe; [apply read_summary_safe|]. intros w1 s2 [-> _]%read_summary_done. safe_step.
  apply bind_safe; [apply read_ranges_safe|]. intros w1 r1 ->%read_ranges_pure.
  apply bind_safe; [apply read_ranges_safe|]. intros w1 r2 ->%read_ranges_pure. safe_step.
  apply bind_safe; [by apply validate_participant_slot_safe|]. intros w1 [] [-> _]%validate_participant_slot_done.
  apply bind_safe; [by apply validate_participant_slot_safe|]. intros w1 [] _. safe_step.
Qed.
End Validation.

(** ** Calls *)
Section Calls.
Context {L : Type} `{!AvailabilityService L}.
Abbreviation W := (World L Store Event).
Implicit Types (w : W).

Lemma book_slot_effect c i a b p s e w w' fin :
  book_slot c i a b p s e w = Done w' fin →
  (c = a ∨ c = b) ∧ a ≠ b ∧
  ((∃ bk, bookings (store w) !! i = Some bk ∧ same_booking bk a b p s = true ∧ w' = w ∧ fin = bk_end bk) ∨
   (∃ pol, bookings (store w) !! i = None ∧ authorized e a = true ∧ authorized e b = true ∧
     policies (store w) !! p = Some pol ∧ validate_slot a b pol s e w = Done w fin ∧
     (∀ x, x = a ∨ x = b → (length (load_booking_ids x (store w)) < MAX_BOOKINGS_PER_PARTICIPANT)%nat) ∧
     store w' = enrolled a b (mkBooking i a b p s fin Active (timestamp e)) (store w))).
Proof.
  intros Hrun. unfold book_slot, load_policy in Hrun. run_inv. bool_prop.
  assert (c = a ∨ c = b) as Hc.
  { match goal with H : _ ∨ _ |- _ => destruct H; bool_prop; [by left|by right] end. }
  match goal with H : ¬ a = b |- _ => rename H into Hab end. split_and!; [done..|].
  rename Hrun into Hm.
  destruct (bookings (store w) !! i) as [bk|] eqn:Hi.
  - left. exists bk. destruct (same_booking bk a b p s) eqn:Hsame; run_inv. by split_and!.
  - right. run_inv. match goal with H : validate_slot _ _ _ _ _ _ = Done _ _ |- _ =>
      pose proof (proj1 (validate_slot_done _ _ _ _ _ _ _ _ H)) as ->; rename H into Hv end.
    unfold enrol in *. run_inv. cbn [store ledger log] in *.
    repeat match goal with H : (_ <=? length _)%nat = false |- _ => apply Nat.leb_gt in H end.
    eexists. split_and!; try done. intros x [->| ->].
    + done.
    + match goal with H : context [load_booking_ids b (put_booking_ids a _ _)] |- _ =>
        unfold load_booking_ids in H; simpl in H; rewrite lookup_insert_ne in H by done; exact H end.
Qed.

Lemma slots_cancel_effect c i e w w' u :
  cancel_booking c i e w = Done w' u →
  ∃ b, bookings (store w) !! i = Some b ∧ state b = Active ∧ party c b ∧ authorized e c = true ∧
    store w' = put_booking (cancelled b) (store w).
Proof.
  intros Hrun. unfold cancel_booking, load_booking in Hrun. run_inv. bool_prop. simpl.
  eexists. split_and!; try done. unfold party.
  match goal with H : _ ∨ _ |- _ => destruct H; bool_prop; [by left|by right] end.
Qed.

Lemma searches_pure a b p f u pg n s e w w' v :
  (ignore (find_slots a b p f u pg n) e w = Done w' v → w' = w) ∧
  (ignore (is_slot_bookable a b p s) e w = Done w' v → w' = w).
Proof.
  split; intros [x Hrun]%ignore_done.
  - unfold find_slots, load_policy in Hrun. run_inv.
    repeat match goal with H : read_summary _ _ _ = Done _ _ |- _ =>
      apply read_summary_done in H as [-> _] end.
    case_match; run_inv; [done|].
    repeat match goal with H : read_ranges _ _ _ _ _ = Done _ _ |- _ =>
      apply read_ranges_pure in H as -> end. done.
  - unfold is_slot_bookable, load_policy, is_ok in Hrun. run_inv.
    destruct (validate_slot _ _ _ _ _ _) as [w1 f1|w1 err|] eqn:Hv; simplify_eq.
    + by apply validate_slot_done in Hv as [-> _].
    + match type of Hv with validate_slot _ _ ?pol _ _ _ = _ =>
        pose proof (validate_slot_quiet a b pol s e w) as Hq end. unfold quiet in Hq. by rewrite Hv in Hq.
Qed.

Context `{!AvailabilityLaws L}.

(** A booking that validation accepts may be recorded. *)
Lemma booking_inv c i a b p s pol fin e w :
  inv (store w) → 0 ≤ s → a ≠ b → bookings (store w) !! i = None → policies (store w) !! p = Some pol →
  validate_slot a b pol s e w = Done w fin →
  (∀ x, x = a ∨ x = b → (length (load_booking_ids x (store w)) < MAX_BOOKINGS_PER_PARTICIPANT)%nat) →
  inv (enrolled a b (mkBooking i a b p s fin Active c) (store w)).
Proof.
  intros Hi Hs Hab Hnew Hpol Hv Hlen.
  destruct (inv_policies _ Hi _ _ Hpol) as (_ & [Hd _] & _ & _ & Hcap).
  apply validate_slot_done in Hv as (_ & Hfin & Hmax & s1 & s2 & r1 & r2 & Hs1 & Hs2 & _ & _ & _ & _ & H1 & H2).
  apply read_summary_done in Hs1 as (_ & c1 & _ & Hs1), Hs2 as (_ & c2 & _ & Hs2).
  apply summary_ok in Hs1 as (_ & ? & ? & _), Hs2 as (_ & ? & ? & _).
  unfold MIN_SESSION_SECONDS in Hd.
  assert (Hside : ∀ x, party x (mkBooking i a b p s fin Active c) → ∃ sx rx,
    0 ≤ sum_buffer_before_seconds sx ∧ 0 ≤ sum_buffer_after_seconds sx ∧
    free_for (store w) x sx rx pol s fin).
  { intros x [Hx|Hx]; simpl in Hx; subst x; [exists s1, r1|exists s2, r2]; by split; [|split]. }
  apply enrolled_inv; simpl; try done.
  - split_and!; simpl; try done; lia || by eexists.
  - intros x [Hx|Hx]; apply Hlen; [by left|by right].
  - intros x bk Hx Hin Hact. destruct (Hside x Hx) as (sx & rx & ? & ? & _ & _ & _ & Hno & _).
    pose proof Hin as (j & _ & Hj)%list_elem_of_omap.
    destruct (inv_bookings _ Hi _ _ Hj) as (_ & _ & ? & ? & _).
    unfold apart. pose proof (no_conflict_buffers _ _ _ _ _ bk Hno Hin Hact ltac:(lia) ltac:(lia)). lia.
  - intros x Hx. destruct (Hside x Hx) as (sx & rx & ? & ? & _ & _ & _ & _ & n & Hn & Hlt).
    apply sessions_on_day_done in Hn; [|done]. unfold sessions. lia.
Qed.

Lemma slots_exec_inv c e w w' u :
  valid e c → inv (store w) → exec c e w = Done w' u → inv (store w').
Proof.
  intros [Ht Hv] Hi Hrun. destruct c as [a s|a s|a p d g n|a i p f v|a i|a b p f v pg n|a b p s|c i a b p s|a i];
    simpl in Hrun.
  - unfold initialize in Hrun. run_inv. apply (same_bookings_inv _ _ Hi); try done; apply Hi.
  - unfold set_availability_contract, require_admin in Hrun. run_inv.
    apply (same_bookings_inv _ _ Hi); try done; apply Hi.
  - unfold set_program_policy, require_admin in Hrun. run_inv. bool_prop. simpl in *.
    apply (same_bookings_inv _ _ Hi); simpl; try done.
    + apply map_Forall_insert_2; [|apply Hi]. rewrite !in_range_iff in *. split_and!; simpl; done || lia.
    + intros q Hq. rewrite lookup_insert. by case_decide.
  - unfold set_blackout, require_admin in Hrun. run_inv. apply (same_bookings_inv _ _ Hi); try done; apply Hi.
  - unfold remove_blackout, require_admin in Hrun. run_inv. apply (same_bookings_inv _ _ Hi); try done; apply Hi.
  - by rewrite (proj1 (searches_pure a b p f v pg n 0 e w w' u) Hrun).
  - by rewrite (proj2 (searches_pure a b p 0 0 0 0 s e w w' u) Hrun).
  - apply ignore_done in Hrun as [fin Hrun]. apply book_slot_effect in Hrun as (_ & Hab & [Hre|Hfresh]).
    + by destruct Hre as (bk & _ & _ & -> & _).
    + destruct Hfresh as (pol & Hnew & _ & _ & Hpol & Hval & Hlen & ->). by eapply booking_inv.
  - apply slots_cancel_effect in Hrun as (b & Hb & _ & _ & _ & ->). by eapply slots_cancel_inv.
Qed.

Definition deployed (w : W) : Prop := store w = mkStore None None ∅ None ∅ ∅ ∅.
Abbreviation Reach this := (reachable exec valid this (λ _ _, True) deployed).

Lemma slots_inv_reachable this w : Reach this w → inv (store w).
Proof.
  apply (reachable_inv _ _ _ _ _ (λ w, inv (store w))).
  - intros w0 ->. split; simpl; try apply map_Forall_empty; try done.
    + intros p. assert (load_booking_ids p (mkStore None None ∅ None ∅ ∅ ∅) = []) as -> by done.
      split_and!; [constructor|simpl; lia|]. intros i. split; [by intros ?%elem_of_nil|].
      by intros (b & Hb & _).
  - intros c e w0 w1 u _ Hv Hi Hrun. by eapply slots_exec_inv.
  - done.
Qed.
End Calls.
