(* ===== verification/SlotsTheorems.v ===== *)
(** * Session slots: theorems

    No participant is booked twice at once, candidates can be booked when they are offered,
    the search ends, and over the repository's availability contract a booking lies in
    instants both schedules offer. *)
From S2P Require Import Prelude Machine Host Loops Intervals AvailabilityService Slots SlotsProps.
From S2P Require AvailabilityRanges Availability.

Section Theorems.
Context {L : Type} `{!AvailabilityService L, !AvailabilityLaws L}.
Abbreviation W := (World L Store Event).
Implicit Types (w : W).
Abbreviation Reach this := (reachable exec valid this (λ _ _, True) deployed).
Abbreviation From this w := (reachable exec valid this (λ _ _, True) (λ v, v = w)).

(** ** Bookings *)

(** What the acceptance of a new booking shows of each of its two parties. *)
Lemma booking_accepted w w' e caller i a b pr s fin p :
  inv (store w) → book_slot caller i a b pr s e w = Done w' fin → bookings (store w) !! i = None →
  0 ≤ s → p = a ∨ p = b →
  ∃ sm pol, read_summary p e w = Done w sm ∧ policies (store w) !! pr = Some pol ∧
    fin = s + duration_seconds pol ∧
    bookings (store w') !! i = Some (mkBooking i a b pr s fin Active (timestamp e)) ∧
    (∀ j x, bookings (store w) !! j = Some x → state x = Active → party p x →
       fin + sum_buffer_before_seconds sm ≤ bk_start x ∨ bk_end x + sum_buffer_after_seconds sm ≤ s) ∧
    sessions (store w') p (s / SECONDS_PER_DAY) ≤ max_sessions_per_day pol.
Proof.
  intros Hi Hrun Hnew Hs Hp. apply book_slot_effect in Hrun as (_ & Hab & [(bk & Hbk & _)|Hfresh]); [congruence|].
  destruct Hfresh as (pol & _ & _ & _ & Hpol & Hv & _ & Hst).
  destruct (inv_policies _ Hi _ _ Hpol) as (_ & [Hd _] & _). unfold MIN_SESSION_SECONDS in Hd.
  apply validate_slot_done in Hv as (_ & Hfin & Hmax & s1 & s2 & r1 & r2 & Hs1 & Hs2 & _ & _ & _ & _ & H1 & H2).
  assert (∃ sm rs, read_summary p e w = Done w sm ∧ free_for (store w) p sm rs pol s fin)
    as (sm & rs & Hsm & _ & _ & _ & Hno & n & Hn & Hlt).
  { destruct Hp as [->| ->]; [by exists s1, r1|by exists s2, r2]. }
  exists sm, pol. split_and!; [done..| | |].
  - rewrite Hst. simpl. apply lookup_insert_eq.
  - intros j x Hj Hact Hx.
    eapply no_conflict_buffers; [done|by eapply participant_bookings_elem|done|lia|lia].
  - apply sessions_on_day_done in Hn; [|done]. rewrite Hst.
    pose proof (sessions_enrolled_le a b (mkBooking i a b pr s fin Active (timestamp e)) (store w) p
      (s / SECONDS_PER_DAY) Hab Hi Hnew Hs) as Hle. simpl in Hle. unfold sessions in *.
    case_bool_decide; lia.
Qed.

(** C5: No double booking.
    - In every reachable world, two different active bookings of one participant, as mentor or
      mentee of either, do not overlap, and a participant has at most sixteen active sessions
      that start on any UTC day.
    - Whenever a booking is accepted there under a new id, it lasts a session of its program and,
      for each of its two parties, keeps to the limits in force at that moment: it ends at least
      the party's buffer before every active booking of the party that comes later and starts at
      least the party's buffer after every one that comes earlier, and with it the party has no
      more active sessions that start on that UTC day than the policy of the program allows. *)
Theorem no_double_booking this w p :
  Reach this w →
  (∀ i j b c, i ≠ j → bookings (store w) !! i = Some b → bookings (store w) !! j = Some c →
    state b = Active → state c = Active → party p b → party p c →
    apart (bk_start b) (bk_end b) (bk_start c) (bk_end c)) ∧
  (∀ day, sessions (store w) p day ≤ 16) ∧
  ∀ e caller i a b pr s w' fin,
    book_slot caller i a b pr s e w = Done w' fin → bookings (store w) !! i = None →
    0 ≤ s → p = a ∨ p = b →
    ∃ sm pol, read_summary p e w = Done w sm ∧ policies (store w) !! pr = Some pol ∧
      fin = s + duration_seconds pol ∧
      bookings (store w') !! i = Some (mkBooking i a b pr s fin Active (timestamp e)) ∧
      (∀ j x, bookings (store w) !! j = Some x → state x = Active → party p x →
         fin + sum_buffer_before_seconds sm ≤ bk_start x ∨ bk_end x + sum_buffer_after_seconds sm ≤ s) ∧
      sessions (store w') p (s / SECONDS_PER_DAY) ≤ max_sessions_per_day pol.
Proof.
  intros Hi%slots_inv_reachable. split; [intros; by eapply (inv_apart _ Hi)|]. split.
  - intros day. apply (inv_daily _ Hi).
  - intros. by eapply booking_accepted.
Qed.

(** What a call may do to the bookings. *)
Lemma exec_bookings c e w w' u i :
  valid e c → inv (store w) → exec c e w = Done w' u →
  bookings (store w') !! i = bookings (store w) !! i ∨
  (∃ b q, bookings (store w) !! i = Some b ∧ state b = Active ∧ party q b ∧ authorized e q = true ∧
    bookings (store w') !! i = Some (cancelled b)) ∨
  (∃ b, bookings (store w) !! i = None ∧ bookings (store w') !! i = Some b ∧ state b = Active ∧
    authorized e (mentor b) = true ∧ authorized e (mentee b) = true).
Proof.
  intros Hv Hi Hrun.
  destruct c as [a s|a s|a p d g n|a j p f v|a j|a b p f v pg n|a b p s|c j a b p s|a j]; simpl in Hrun.
  1-5: left; unfold initialize, set_availability_contract, set_program_policy, set_blackout,
    remove_blackout, require_admin in Hrun; by run_inv.
  - left. by rewrite (proj1 (searches_pure a b p f v pg n 0 e w w' u) Hrun).
  - left. by rewrite (proj2 (searches_pure a b p 0 0 0 0 s e w w' u) Hrun).
  - apply ignore_done in Hrun as [fin Hrun]. apply book_slot_effect in Hrun as (_ & Hab & [Hre|Hfresh]).
    + left. by destruct Hre as (bk & _ & _ & -> & _).
    + destruct Hfresh as (pol & Hnew & Ha & Hb & _ & _ & _ & ->). simpl.
      destruct (decide (j = i)) as [<-|Hj]; [|left; by rewrite lookup_insert_ne].
      right; right. eexists. split_and!; [done|by rewrite lookup_insert_eq|done|done|done].
  - apply slots_cancel_effect in Hrun as (b & Hb & Hact & Hq & Hauth & ->). simpl.
    destruct (inv_bookings _ Hi _ _ Hb) as (-> & _).
    destruct (decide (j = i)) as [<-|Hj]; [|left; by rewrite lookup_insert_ne].
    right; left. exists b, a. by rewrite lookup_insert_eq.
Qed.

(** Life of a booking.  From every reachable world a call leaves each booking as it is or
    cancels it, once, on the authority of one of its parties, keeping all its terms; a new
    booking is active and carries the authorisation of both parties. *)
Theorem booking_lifecycle this w e c i :
  Reach this w → valid e c →
  let w' := (invoke (exec c) e w).1 in
  match bookings (store w) !! i, bookings (store w') !! i with
  | Some b, Some b' => b' = b ∨ state b = Active ∧ b' = cancelled b ∧ ∃ q, party q b ∧ authorized e q = true
  | Some _, None => False
  | None, Some b' => state b' = Active ∧ authorized e (mentor b') = true ∧ authorized e (mentee b') = true
  | None, None => True
  end.
Proof.
  intros Hi%slots_inv_reachable Hv. unfold invoke.
  destruct (exec c e w) as [w' u| |] eqn:Hrun; simpl.
  2,3: destruct (bookings (store w) !! i); [by left|done].
  destruct (exec_bookings c e w w' u i Hv Hi Hrun) as [->|[(b & q & -> & ? & ? & ? & ->)|(b & -> & -> & ?)]].
  - destruct (bookings (store w) !! i); [by left|done].
  - right. split_and!; [done..|by exists q].
  - done.
Qed.

(** Booking again.  While a booking is active, submitting it again (either party, same id
    and slot) returns its end and changes nothing, whatever happened to availability since. *)
Theorem booking_retry this w e caller i b :
  Reach this w → bookings (store w) !! i = Some b → state b = Active → i ≠ 0 →
  (caller = mentor b ∨ caller = mentee b) →
  invoke (book_slot caller i (mentor b) (mentee b) (program_id b) (bk_start b)) e w =
    (w, Returned (bk_end b)).
Proof.
  intros Hi%slots_inv_reachable Hb Hact Hi0 Hcaller.
  destruct (inv_bookings _ Hi _ _ Hb) as (_ & Hab & _ & _ & _ & [pol Hpol]).
  assert (same_booking b (mentor b) (mentee b) (program_id b) (bk_start b) = true) as Hsame.
  { unfold same_booking. rewrite Hact, !bool_decide_eq_true_2, !Z.eqb_refl by done. done. }
  assert (negb (bool_decide (caller = mentor b)) && negb (bool_decide (caller = mentee b)) = false) as Hc.
  { destruct Hcaller as [->| ->]; [by rewrite bool_decide_eq_true_2|].
    rewrite (bool_decide_eq_true_2 (mentee b = mentee b)) by done. by rewrite andb_false_r. }
  apply invoke_run. unfold book_slot, load_policy. run_fwd.
  rewrite Hb, Hsame. done.
Qed.

(** ** A participant whose list is full *)

Definition full (p : Address) (st : Store) : Prop :=
  (MAX_BOOKINGS_PER_PARTICIPANT ≤ length (load_booking_ids p st))%nat.

Lemma exec_ids c e w w' u p :
  inv (store w) → exec c e w = Done w' u → ∃ l, load_booking_ids p (store w') = load_booking_ids p (store w) ++ l.
Proof.
  intros Hi Hrun.
  destruct c as [a s|a s|a q d g n|a j q f v|a j|a b q f v pg n|a b q s|c j a b q s|a j]; simpl in Hrun.
  1-5: exists []; rewrite app_nil_r; unfold initialize, set_availability_contract, set_program_policy,
    set_blackout, remove_blackout, require_admin in Hrun; by run_inv.
  - exists []. by rewrite app_nil_r, (proj1 (searches_pure a b q f v pg n 0 e w w' u) Hrun).
  - exists []. by rewrite app_nil_r, (proj2 (searches_pure a b q 0 0 0 0 s e w w' u) Hrun).
  - apply ignore_done in Hrun as [fin Hrun]. apply book_slot_effect in Hrun as (_ & Hab & [Hre|Hfresh]).
    + exists []. rewrite app_nil_r. by destruct Hre as (bk & _ & _ & -> & _).
    + destruct Hfresh as (pol & _ & _ & _ & _ & _ & _ & ->). eexists. by apply load_booking_ids_enrolled.
  - exists []. rewrite app_nil_r. by apply slots_cancel_effect in Hrun as (b & _ & _ & _ & _ & ->).
Qed.

(** Bookings are never released.  Once 128 bookings of a participant have been recorded,
    no later booking with that participant is ever accepted, however many of them have been
    cancelled or lie in the past: any call that would book the participant again under a new
    id does not return. *)
Theorem full_for_ever this w w' e caller i a b p s fin w3 :
  Reach this w → full a (store w) ∨ full b (store w) → From this w w' →
  bookings (store w') !! i = None →
  book_slot caller i a b p s e w' ≠ Done w3 fin.
Proof.
  intros Hi%slots_inv_reachable Hfull Hfrom Hnew Hrun.
  assert (inv (store w') ∧ (full a (store w') ∨ full b (store w'))) as [_ Hfull'].
  { refine (reachable_inv _ _ _ _ _ (λ v, inv (store v) ∧ (full a (store v) ∨ full b (store v)))
      _ _ _ w' Hfrom).
    - by intros v ->.
    - intros c e0 w0 w1 u _ Hv [Hi0 Hf] Hx. split; [by eapply slots_exec_inv|].
      unfold full in *. destruct (exec_ids c e0 w0 w1 u a Hi0 Hx) as [la ->].
      destruct (exec_ids c e0 w0 w1 u b Hi0 Hx) as [lb ->]. rewrite !length_app. lia.
    - done. }
  apply book_slot_effect in Hrun as (_ & _ & [(bk & Hbk & _)|Hfresh]); [congruence|].
  destruct Hfresh as (pol & _ & _ & _ & _ & _ & Hlen & _). unfold full in Hfull'.
  pose proof (Hlen a (or_introl eq_refl)). pose proof (Hlen b (or_intror eq_refl)). lia.
Qed.

(** ** The search *)

Lemma refused_false i c f :
  refused i c f = Some false →
  blackout_overlaps (in_blackouts i) (pol_program_id (in_policy i)) c f = false ∧
  bookings_conflict (in_mentor_bookings i) c f
    (sum_buffer_before_seconds (in_mentor i)) (sum_buffer_after_seconds (in_mentor i)) = false ∧
  bookings_conflict (in_mentee_bookings i) c f
    (sum_buffer_before_seconds (in_mentee i)) (sum_buffer_after_seconds (in_mentee i)) = false ∧
  (∃ n, sessions_on_day (in_mentor_bookings i) c = Some n ∧ n < max_sessions_per_day (in_policy i)) ∧
  (∃ n, sessions_on_day (in_mentee_bookings i) c = Some n ∧ n < max_sessions_per_day (in_policy i)).
Proof.
  unfold refused, or_else. intros Hr.
  destruct (blackout_overlaps _ _ _ _); [done|]. split; [done|].
  destruct (bookings_conflict (in_mentor_bookings i) _ _ _ _); [done|]. split; [done|].
  destruct (bookings_conflict _ _ _ _ _); [done|]. split; [done|].
  apply bind_Some in Hr as (n & Hn & Hr). destruct (Z.leb_spec (max_sessions_per_day (in_policy i)) n); [done|].
  apply bind_Some in Hr as (m & Hm & Hr). injection Hr as Hr. apply Z.leb_gt in Hr.
  split; [by exists n|by exists m].
Qed.

(** The part of a query that the guard rails of both participants leave. *)
Definition search_window (s1 s2 : AvailabilitySummary) (now from until : Z) : Z * Z :=
  let lead_time := if sum_lead_time_seconds s2 <? sum_lead_time_seconds s1
                   then sum_lead_time_seconds s1 else sum_lead_time_seconds s2 in
  let h1 := sum_booking_horizon_days s1 * SECONDS_PER_DAY in
  let h2 := sum_booking_horizon_days s2 * SECONDS_PER_DAY in
  let earliest := default u64_max (checked_add_u64 now lead_time) in
  let latest := default u64_max (checked_add_u64 now (if h1 <? h2 then h1 else h2)) in
  (if from <? earliest then earliest else from, if latest <? until then latest else until).

(** The search of [find_slots] as one input. *)
Lemma find_slots_done a b p from until page limit e w w' slots :
  find_slots a b p from until page limit e w = Done w' slots →
  a ≠ b ∧ from < until ∧ limit ≤ MAX_PAGE_SIZE ∧ ∃ pol s1 s2,
    policies (store w) !! p = Some pol ∧ read_summary a e w = Done w s1 ∧ read_summary b e w = Done w s2 ∧
    let '(start, fin) := search_window s1 s2 (timestamp e) from until in
    (fin ≤ start ∧ slots = [] ∨
     start < fin ∧ ∃ r1 r2, read_ranges a start fin e w = Done w r1 ∧ read_ranges b start fin e w = Done w r2 ∧
       (page + 1) * limit ≤ MAX_COLLECTED_CANDIDATES ∧
       search (mkSearchInput pol s1 s2 (load_blackouts (store w)) (participant_bookings a (store w))
         (participant_bookings b (store w)) (page * limit) limit ((page + 1) * limit)) r1 r2 = Some (Ok slots)).
Proof.
  intros Hrun. unfold find_slots, load_policy in Hrun. run_inv. bool_prop.
  repeat match goal with H : read_summary _ _ _ = Done _ _ |- _ =>
    pose proof (proj1 (read_summary_done _ _ _ _ _ H)) as ->; revert H end.
  intros Hs1 Hs2. checked_prop.
  split_and!; [done..|]. eexists _, _, _. split_and!; [done..|]. unfold search_window, checked_add_u64.
  match goal with H : (if ?g then _ else _) _ _ = Done _ _ |- _ => destruct g eqn:Hg; bool_prop end.
  - run_inv. by left.
  - run_inv. right. split; [done|].
    repeat match goal with H : read_ranges _ _ _ _ _ = Done _ _ |- _ =>
      pose proof (read_ranges_pure _ _ _ _ _ _ _ H) as ->; revert H end.
    intros Hr1 Hr2. checked_prop. subst. eexists _, _. by split_and!.
Qed.

Lemma ranges_inside rs lo hi :
  canonical rs → (∀ t, covers rs t → lo ≤ t < hi) → 0 ≤ lo → hi ≤ instant_max →
  Forall (λ r, 0 ≤ start_ts r ∧ end_ts r ≤ instant_max) rs.
Proof.
  intros Hc Hin Hlo Hhi. apply Forall_forall. intros r Hr.
  pose proof (inside_one rs (mkRange lo hi) r Hc Hin Hr) as [? ?]. simpl in *. lia.
Qed.

(** A slot inside both participants' ranges that the search did not refuse is valid now. *)
Lemma offered_valid a b pol s1 s2 start fin r1 r2 pg lim tgt x e w :
  policy_ok (pol_program_id pol) pol → 0 ≤ timestamp e ≤ instant_max → 0 ≤ start → fin ≤ instant_max →
  timestamp e + sum_lead_time_seconds s1 ≤ start → timestamp e + sum_lead_time_seconds s2 ≤ start →
  fin ≤ timestamp e + sum_booking_horizon_days s1 * SECONDS_PER_DAY →
  fin ≤ timestamp e + sum_booking_horizon_days s2 * SECONDS_PER_DAY →
  read_summary a e w = Done w s1 → read_summary b e w = Done w s2 →
  read_ranges a start fin e w = Done w r1 → read_ranges b start fin e w = Done w r2 →
  offered_slot (mkSearchInput pol s1 s2 (load_blackouts (store w)) (participant_bookings a (store w))
    (participant_bookings b (store w)) pg lim tgt) r1 r2 x →
  start ≤ slot_start x ∧ slot_end x ≤ fin ∧ validate_slot a b pol (slot_start x) e w = Done w (slot_end x).
Proof.
  intros (_ & Hdur & _ & _) Hnow Hst Hfn Hl1 Hl2 Hh1 Hh2 Hs1 Hs2 Hr1 Hr2 (Hend & _ & Href & x1 & x2 & Hx1 & Hx2 & ? & ? & ? & ?).
  simpl in Hend. pose proof Hs1 as (_ & c & Hav & Hsum1)%read_summary_done.
  pose proof Hs2 as (_ & c' & Hav' & Hsum2)%read_summary_done. assert (c' = c) as -> by congruence.
  destruct (read_ranges_done _ _ _ _ _ _ _ Hr1) as (c1 & Hc1 & _ & Hcan1 & Hcov1); [done..|lia|].
  destruct (read_ranges_done _ _ _ _ _ _ _ Hr2) as (c2 & Hc2 & _ & Hcan2 & Hcov2); [done..|lia|].
  assert (c1 = c ∧ c2 = c) as [-> ->] by (split; congruence).
  pose proof (summary_ok _ _ _ _ _ Hsum1) as (Hs1l & _ & _ & Hs1h).
  pose proof (summary_ok _ _ _ _ _ Hsum2) as (Hs2l & _ & _ & Hs2h).
  unfold MIN_SESSION_SECONDS, MAX_SESSION_SECONDS in Hdur.
  destruct (inside_one r1 (mkRange start fin) x1 Hcan1) as [Hi1 Hi2]; [|done|].
  { intros t Ht. by apply Hcov1 in Ht as [? _]. }
  simpl in Hi1, Hi2.
  assert (Hfree : ∀ p rs y, y ∈ rs → (∀ t, covers rs t ↔ start ≤ t < fin ∧ offered (ledger w) c (timestamp e) p t) →
    start_ts y ≤ slot_start x → slot_end x ≤ end_ts y →
    ∀ t, slot_start x ≤ t < slot_end x → offered (ledger w) c (timestamp e) p t).
  { intros p rs y Hy Hcov Hy1 Hy2 t Ht. apply Hcov. exists y. split; [done|]. unfold in_range_of. lia. }
  pose proof (Hfree a r1 x1 Hx1 Hcov1 ltac:(done) ltac:(done)) as Hf1.
  pose proof (Hfree b r2 x2 Hx2 Hcov2 ltac:(done) ltac:(done)) as Hf2.
  split_and!; [lia..|].
  apply refused_false in Href as (Hblk & Hcf1 & Hcf2 & (n & Hn & Hncap) & (m & Hm & Hmcap)). simpl in *.
  assert (Hcov : ranges_cover [mkRange (slot_start x) (slot_end x)] (slot_start x) (slot_end x) = true).
  { apply ranges_cover_true. eexists. split; [by left|]. simpl. lia. }
  assert (Hrd1 : read_ranges a (slot_start x) (slot_end x) e w = Done w [mkRange (slot_start x) (slot_end x)]).
  { eapply read_ranges_run; try done; try lia. unfold MAX_QUERY_SPAN. lia. }
  assert (Hrd2 : read_ranges b (slot_start x) (slot_end x) e w = Done w [mkRange (slot_start x) (slot_end x)]).
  { eapply read_ranges_run; try done; try lia. unfold MAX_QUERY_SPAN. lia. }
  assert (Hv1 : validate_participant_slot s1 (participant_bookings a (store w)) (slot_start x) (slot_end x)
    [mkRange (slot_start x) (slot_end x)] (load_blackouts (store w)) (pol_program_id pol)
    (max_sessions_per_day pol) e w = Done w tt).
  { apply validate_participant_slot_done. split; [done|]. split_and!; try done; [|by exists n].
    eapply offered_enabled; [done|]. apply (Hf1 (slot_start x)). lia. }
  assert (Hv2 : validate_participant_slot s2 (participant_bookings b (store w)) (slot_start x) (slot_end x)
    [mkRange (slot_start x) (slot_end x)] (load_blackouts (store w)) (pol_program_id pol)
    (max_sessions_per_day pol) e w = Done w tt).
  { apply validate_participant_slot_done. split; [done|]. split_and!; try done; [|by exists m].
    eapply offered_enabled; [done|]. apply (Hf2 (slot_start x)). lia. }
  unfold validate_slot, checked_add_u64, checked_mul_u64.
  eapply bind_run; [exact Hs1|]. eapply bind_run; [exact Hs2|]. rewrite <-Hend.
  unfold instant_max, SECONDS_PER_DAY in *.
  rewrite (checked_in 0 u64_max (slot_end x)), !(checked_in 0 u64_max (_ * 86400)) by range_lia.
  set (lead := if sum_lead_time_seconds s2 <? sum_lead_time_seconds s1 then _ else _).
  assert (0 ≤ lead ∧ timestamp e + lead ≤ slot_start x) as [? ?].
  { unfold lead. destruct (_ <? _); lia. }
  clearbody lead. pose proof (checked_in 0 u64_max (timestamp e + lead) ltac:(range_lia)). run_fwd.
  set (hor := if sum_booking_horizon_days s1 * 86400 <? sum_booking_horizon_days s2 * 86400 then _ else _).
  assert (slot_end x ≤ timestamp e + hor ≤ u64_max) as [? ?].
  { unfold hor. destruct (_ <? _); range_lia. }
  clearbody hor. rewrite (checked_in 0 u64_max (timestamp e + hor)) by range_lia. run_fwd.
Qed.

(** The window found keeps the lead times and the horizons. *)
Lemma search_window_guards s1 s2 now from until start fin :
  summary_typed s1 → summary_typed s2 → 0 ≤ now ≤ instant_max → until ≤ instant_max →
  search_window s1 s2 now from until = (start, fin) → start < fin →
  from ≤ start ∧ fin ≤ until ∧
  now + sum_lead_time_seconds s1 ≤ start ∧ now + sum_lead_time_seconds s2 ≤ start ∧
  fin ≤ now + sum_booking_horizon_days s1 * SECONDS_PER_DAY ∧
  fin ≤ now + sum_booking_horizon_days s2 * SECONDS_PER_DAY.
Proof.
  intros (Hl1 & _ & _ & Hh1) (Hl2 & _ & _ & Hh2) Hnow Huntil Hw Hlt.
  unfold search_window, instant_max, SECONDS_PER_DAY in *. simplify_eq.
  set (lead := if sum_lead_time_seconds s2 <? sum_lead_time_seconds s1 then _ else _) in *.
  assert (sum_lead_time_seconds s1 ≤ lead ∧ sum_lead_time_seconds s2 ≤ lead) as [? ?].
  { unfold lead. destruct (Z.ltb_spec (sum_lead_time_seconds s2) (sum_lead_time_seconds s1)); lia. }
  set (hor := if sum_booking_horizon_days s1 * 86400 <? sum_booking_horizon_days s2 * 86400 then _ else _) in *.
  assert (0 ≤ hor ≤ u32_max * 86400 ∧ hor ≤ sum_booking_horizon_days s1 * 86400 ∧
    hor ≤ sum_booking_horizon_days s2 * 86400) as (Hhor & ? & ?).
  { unfold hor. destruct (Z.ltb_spec (sum_booking_horizon_days s1 * 86400)
      (sum_booking_horizon_days s2 * 86400)); lia. }
  clearbody lead hor. unfold checked_add_u64 in *.
  rewrite (checked_in 0 u64_max (now + hor)) in * by range_lia. simpl in *.
  destruct (checked 0 u64_max (now + lead)) as [z|] eqn:Hz; checked_prop; simpl in *.
  - repeat (case_match; bool_prop); lia.
  - exfalso. repeat (case_match; bool_prop); range_lia.
Qed.

(** Offered slots can be booked.  In every reachable world each slot a search returns is
    inside the query, starts on the program's grid, lasts a session, and is bookable for that
    pair right now, by the very check [book_slot] makes; there are at most [limit] of them. *)
Theorem find_slots_bookable this w w' e a b p pol from until page limit slots :
  Reach this w → policies (store w) !! p = Some pol →
  0 ≤ timestamp e ≤ instant_max → 0 ≤ from → until ≤ instant_max → 0 ≤ limit →
  find_slots a b p from until page limit e w = Done w' slots →
  Z.of_nat (length slots) ≤ limit ∧
  ∀ x, x ∈ slots →
    from ≤ slot_start x ∧ slot_end x ≤ until ∧ slot_end x = slot_start x + duration_seconds pol ∧
    (granularity_seconds pol | slot_start x) ∧
    invoke (is_slot_bookable a b p (slot_start x)) e w = (w, Returned true).
Proof.
  intros Hi%slots_inv_reachable Hpol Hnow Hfrom Huntil Hlim Hrun.
  apply find_slots_done in Hrun as (Hab & Hft & Hlimit & pol' & s1 & s2 & Hpol' & Hs1 & Hs2 & Hcase).
  rewrite Hpol in Hpol'. simplify_eq.
  pose proof (inv_policies _ Hi _ _ Hpol) as Hpok. pose proof Hpok as (Hid & Hdur & Hgran & Hcap).
  destruct (search_window s1 s2 (timestamp e) from until) as [start fin] eqn:Hw.
  destruct Hcase as [(_ & ->)|(Hlt & r1 & r2 & Hr1 & Hr2 & Htgt & Hsearch)].
  { split; [simpl; lia|]. by intros x ?%elem_of_nil. }
  pose proof Hs1 as (_ & c & _ & Ht1%summary_ok)%read_summary_done.
  pose proof Hs2 as (_ & c' & _ & Ht2%summary_ok)%read_summary_done.
  destruct (search_window_guards s1 s2 (timestamp e) from until start fin)
    as (? & ? & ? & ? & ? & ?); [done..|].
  destruct (read_ranges_done _ _ _ _ _ _ _ Hr1) as (c1 & _ & _ & Hcan1 & Hcov1); [lia..|].
  destruct (read_ranges_done _ _ _ _ _ _ _ Hr2) as (c2 & _ & _ & Hcan2 & Hcov2); [lia..|].
  destruct (search_total (mkSearchInput pol' s1 s2 (load_blackouts (store w)) (participant_bookings a (store w))
    (participant_bookings b (store w)) (page * limit) limit ((page + 1) * limit)) r1 r2)
    as (r & Hr & Hok); [done..| | |].
  { eapply (ranges_inside r1 start fin); [done| |lia|lia]. intros t Ht. by apply Hcov1 in Ht as [? _]. }
  { eapply (ranges_inside r2 start fin); [done| |lia|lia]. intros t Ht. by apply Hcov2 in Ht as [? _]. }
  rewrite Hsearch in Hr. simplify_eq. destruct Hok as [Hall Hlen]. split; [done|].
  intros x Hx. rewrite Forall_forall in Hall. pose proof (Hall x Hx) as Hx'.
  pose proof Hx' as (Hend & Hgrid & _).
  eapply (offered_valid a b pol' s1 s2 start fin r1 r2) in Hx' as (? & ? & Hv); try done; try lia.
  split_and!; [lia..|done|done|]. apply invoke_run.
  unfold is_slot_bookable, load_policy. run_fwd. unfold is_ok. by rewrite Hv.
Qed.

(** The reads and the search of a non-empty window. *)
Lemma window_search_safe a b pol s1 s2 start fin page limit e w :
  policy_ok (pol_program_id pol) pol → 0 ≤ timestamp e → 0 ≤ start → fin ≤ instant_max → 0 ≤ limit →
  is_Some (checked_mul_u64 page limit) → (page + 1) * limit ≤ MAX_COLLECTED_CANDIDATES →
  safe (r1 <- read_ranges a start fin ;;
        r2 <- read_ranges b start fin ;;
        blks <- load load_blackouts ;;
        b1 <- load (participant_bookings a) ;;
        b2 <- load (participant_bookings b) ;;
        skip <- or_trap (checked_mul_u64 page limit) ;;
        r <- or_trap (search (mkSearchInput pol s1 s2 blks b1 b2 skip limit ((page + 1) * limit)) r1 r2) ;;
        lift r) e w.
Proof.
  intros (_ & Hdur & Hgran & _) Hnow Hst Hfn Hlim [skip Hskip] Htgt. rewrite Hskip.
  apply bind_safe; [apply read_ranges_safe|]. intros w1 r1 Hr1. pose proof (read_ranges_pure _ _ _ _ _ _ _ Hr1) as ->.
  apply bind_safe; [apply read_ranges_safe|]. intros w1 r2 Hr2. pose proof (read_ranges_pure _ _ _ _ _ _ _ Hr2) as ->.
  apply read_ranges_done in Hr1 as (c1 & _ & _ & Hcan1 & Hcov1); [|done..].
  apply read_ranges_done in Hr2 as (c2 & _ & _ & Hcan2 & Hcov2); [|done..].
  safe_step. simplify_eq. apply bind_safe; [|intros; apply lift_safe]. apply or_trap_safe.
  edestruct (search_total (mkSearchInput pol s1 s2 (load_blackouts (store w)) (participant_bookings a (store w))
    (participant_bookings b (store w)) x limit ((page + 1) * limit)) r1 r2) as (r & -> & _);
    [done..| | |by eexists].
  - eapply (ranges_inside r1 start fin); [done| |done..]. intros t Ht. by apply Hcov1 in Ht as [? _].
  - eapply (ranges_inside r2 start fin); [done| |done..]. intros t Ht. by apply Hcov2 in Ht as [? _].
Qed.

(** C24: The search ends.  In every reachable world a search over times in the range of the
    laws returns its slots or a contract error, changes nothing and never traps: at most 2048
    candidates are examined and four pages of each participant's ranges are read. *)
Theorem find_slots_terminates this w e a b p from until page limit :
  Reach this w → 0 ≤ timestamp e ≤ instant_max → 0 ≤ from → until ≤ instant_max →
  0 ≤ page ≤ u32_max → 0 ≤ limit ≤ u32_max →
  ∃ r, invoke (find_slots a b p from until page limit) e w = (w, r) ∧ r ≠ Panicked.
Proof.
  intros Hi%slots_inv_reachable Hnow Hfrom Huntil Hpage Hlim.
  assert (Hsafe : safe (find_slots a b p from until page limit) e w).
  { unfold instant_max in Hnow, Huntil. unfold find_slots, load_policy, checked_add_u64, checked_mul_u64, checked_sub_u64.
    apply bind_safe; [apply reject_if_safe|]. intros w1 [] [Hab ->]%reject_if_done.
    apply bind_safe; [apply reject_if_safe|]. intros w1 [] [Hft ->]%reject_if_done. bool_prop.
    rewrite (checked_in 0 u64_max (until - from)) by range_lia.
    apply bind_safe; [apply or_trap_safe; by eexists|]. intros w1 span [_ ->]%or_trap_done.
    apply bind_safe; [apply reject_if_safe|]. intros w1 [] [_ ->]%reject_if_done.
    apply bind_safe; [apply reject_if_safe|]. intros w1 [] [Hpg ->]%reject_if_done. bool_prop.
    unfold MAX_PAGE_SIZE, MAX_PAGE in *.
    rewrite (checked_in 0 u64_max (page + 1)) by (unfold u64_max; nia).
    apply bind_safe; [apply or_trap_safe; by eexists|]. intros w1 page_1 [[= <-] ->]%or_trap_done.
    rewrite (checked_in 0 u64_max ((page + 1) * limit)) by (unfold u64_max; nia).
    apply bind_safe; [apply or_trap_safe; by eexists|]. intros w1 tgt [[= <-] ->]%or_trap_done.
    apply bind_safe; [apply reject_if_safe|]. intros w1 [] [Htgt ->]%reject_if_done. bool_prop.
    apply bind_safe; [safe_step|]. intros w1 pol Hp. run_inv. rename Hp into Hpol.
    pose proof (inv_policies _ Hi _ _ Hpol) as Hpok.
    apply bind_safe; [apply read_summary_safe|]. intros w1 s1 Hs1.
    pose proof Hs1 as (-> & c & _ & Ht1%summary_ok)%read_summary_done.
    apply bind_safe; [apply read_summary_safe|]. intros w1 s2 Hs2.
    pose proof Hs2 as (-> & c' & _ & Ht2%summary_ok)%read_summary_done.
    pose proof Ht1 as (_ & _ & _ & Hh1). pose proof Ht2 as (_ & _ & _ & Hh2).
    apply bind_safe; [apply now_safe|]. intros w1 t [-> ->]%now_done.
    unfold SECONDS_PER_DAY at 1 2.
    rewrite !(checked_in 0 u64_max (_ * 86400)) by range_lia. safe_step.
    set (start := if from <? _ then _ else from). set (fin := if _ <? until then _ else until).
    assert (0 ≤ start ∧ fin ≤ until) as [Hst Hfn].
    { unfold start, fin. split.
      - destruct (Z.ltb_spec from (default u64_max (checked 0 u64_max (timestamp e +
          (if sum_lead_time_seconds s2 <? sum_lead_time_seconds s1 then sum_lead_time_seconds s1
           else sum_lead_time_seconds s2))))); lia.
      - destruct (Z.ltb_spec (default u64_max (checked 0 u64_max (timestamp e + (if x <? x0 then x else x0))))
          until); lia. }
    clearbody start fin. destruct (Z.leb_spec fin start) as [|Hlt]; [apply ret_safe|].
    apply window_search_safe; try done; try (unfold instant_max; lia); [by split; [|apply Hpok]|].
    unfold checked_mul_u64. rewrite checked_in by (unfold u64_max; nia). by eexists. }
  unfold invoke, safe in *. destruct (find_slots a b p from until page limit e w) as [w' l|w' err|] eqn:Hrun; [|by eexists|done].
  assert (w' = w) as ->; [|by eexists].
  apply (proj1 (searches_pure a b p from until page limit 0 e w w' tt)). apply ignore_done. by exists l.
Qed.
End Theorems.

(** ** Over the repository's availability contract *)
Section OverAvailability.
Import Availability.AsService.
Abbreviation Reach this := (reachable exec valid this (λ _ _, True) (deployed (L := Net))).

(** Booked time is available time.  With the repository's availability contract behind the
    interface, in every reachable world a booking accepted under a new id lies wholly in
    instants that the schedules of both participants make bookable at that moment: inside a
    weekly window or an extra-availability exception, outside every blackout, within lead
    time, horizon and effective range. *)
Theorem booked_is_available this (w w' : World Net Store Event) e caller i a b p s fin :
  Reach this w → bookings (store w) !! i = None → 0 ≤ timestamp e → 0 ≤ s → fin ≤ instant_max →
  book_slot caller i a b p s e w = Done w' fin →
  ∃ contract d, availability (store w) = Some contract ∧ ledger w contract = Some d ∧
    ∀ x, x = a ∨ x = b → ∃ sched, Availability.schedules (d_store d) !! x = Some sched ∧
      ∀ t, s ≤ t < fin →
        Availability.bookable_at sched (Availability.load_exceptions x (d_store d)) (timestamp e) t.
Proof.
  intros Hi%slots_inv_reachable Hnew Hnow Hs Hmax Hrun.
  apply book_slot_effect in Hrun as (_ & _ & [(bk & Hbk & _)|Hfresh]); [congruence|].
  destruct Hfresh as (pol & _ & _ & _ & Hpol & Hv & _ & _).
  destruct (inv_policies _ Hi _ _ Hpol) as (_ & Hdur & _ & _). unfold MIN_SESSION_SECONDS in Hdur.
  apply validate_slot_done in Hv as (_ & Hfin & _ & s1 & s2 & r1 & r2 & _ & _ & Hr1 & Hr2 & _ & _ & Hf1 & Hf2).
  assert (Hside : ∀ x sx rx, read_ranges x s fin e w = Done w rx → free_for (store w) x sx rx pol s fin →
    ∃ c, availability (store w) = Some c ∧ ∀ t, s ≤ t < fin → offers (ledger w) c (timestamp e) x t).
  { intros x sx rx Hrd (_ & (r & Hr & Hr0 & Hr3)%ranges_cover_true & _).
    apply read_ranges_done in Hrd as (c & Hc & _ & _ & Hcov); [|done..].
    exists c. split; [done|]. intros t Ht. apply (Hcov t). exists r. unfold in_range_of. split; [done|lia]. }
  destruct (Hside a s1 r1 Hr1 Hf1) as (c & Hc & Ha). destruct (Hside b s2 r2 Hr2 Hf2) as (c' & Hc' & Hb).
  assert (c' = c) as -> by congruence.
  destruct (Ha s) as (d & sa & Hd & _); [lia|]. exists c, d. split_and!; [done..|].
  assert (Hone : ∀ x, (∀ t, s ≤ t < fin → offers (ledger w) c (timestamp e) x t) → ∃ sched,
    Availability.schedules (d_store d) !! x = Some sched ∧ ∀ t, s ≤ t < fin →
      Availability.bookable_at sched (Availability.load_exceptions x (d_store d)) (timestamp e) t).
  { intros x Hx. destruct (Hx s) as (d0 & sx & Hd0 & Hsx & _); [lia|]. rewrite Hd in Hd0. simplify_eq.
    exists sx. split; [done|]. intros t Ht. destruct (Hx t Ht) as (d1 & s' & Hd1 & Hs' & Hbk).
    rewrite Hd in Hd1. simplify_eq. done. }
  intros x [->| ->]; by apply Hone.
Qed.
End OverAvailability.

(** ** Concrete runs *)
Module Runs.
Import Availability.AsService.
Definition this : Address := addr 0.
Definition mentor : Address := addr 1.
Definition mentee : Address := addr 2.
Definition boss : Address := addr 3.
Definition calendar : Address := addr 4.
(** Everybody signs. *)
Definition at_time (t : Z) : Env := mkEnv t this (λ _, true).

(** Both participants are free on Thursdays from 09:00 to 12:00, an hour east of Greenwich, and
    keep ten minutes free before a session and fifteen after it. *)
Definition thursdays : Availability.ScheduleInput :=
  Availability.mkInput 7 3600 [] [AvailabilityCalc.mkWindow 4 540 720] 0 600 900 30 1 0.
Definition free_calendar : World unit Availability.Store Availability.Event :=
  run_calls Availability.exec
    [(mkEnv 10 calendar (λ _, true), Availability.CSetSchedule mentor thursdays);
     (mkEnv 11 calendar (λ _, true), Availability.CSetSchedule mentee thursdays)]
    (mkWorld tt (Availability.mkStore ∅ ∅ ∅) []).

Lemma free_calendar_inv : Availability.inv (store free_calendar).
Proof.
  apply (Availability.availability_inv_reachable calendar). apply reachable_run; [by apply reach_init|].
  repeat constructor; simpl; try lia; vm_compute; congruence.
Qed.

Definition net : Net := λ a,
  if bool_decide (a = calendar) then Some (mkDeployment (store free_calendar) free_calendar_inv) else None.

Abbreviation W := (World Net Store Event).
Definition w0 : W := mkWorld net (mkStore None None ∅ None ∅ ∅ ∅) [].
(** Sessions of an hour on a grid of a quarter of an hour. *)
Definition setup : list (Env * Call) :=
  [(at_time 12, CInitialize boss calendar); (at_time 13, CSetPolicy boss 5 3600 900 2)].
Definition w1 : W := run_calls exec setup w0.
Definition w2 : W := run_calls exec (setup ++ [(at_time 20, CBookSlot mentor 71 mentor mentee 5 28800)]) w0.

Abbreviation Reach := (reachable exec valid this (λ _ _, True) (deployed (L := Net))).
Lemma slots_w1_reach : Reach w1.
Proof. apply reachable_run; [by apply reach_init|]. repeat constructor; simpl; try lia; done. Qed.
Lemma slots_w2_reach : Reach w2.
Proof. apply reachable_run; [by apply reach_init|]. repeat constructor; simpl; try lia; done. Qed.

Definition booking1 : Booking := mkBooking 71 mentor mentee 5 28800 32400 Active 20.
Lemma w2_booked : bookings (store w2) !! 71 = Some booking1.
Proof. vm_compute. reflexivity. Qed.

(** The next session starts at the earliest fifteen minutes after the first, and is the last the
    policy allows on that day. *)
Lemma no_double_booking_witness :
  invoke (book_slot mentor 72 mentor mentee 5 32400) (at_time 30) w2 = (w2, Errored SlotUnavailable) ∧
  ∃ w' : W, book_slot mentor 72 mentor mentee 5 33300 (at_time 30) w2 = Done w' 36900 ∧
    (∃ sm, read_summary mentor (at_time 30) w2 = Done w2 sm ∧ 32400 + sum_buffer_after_seconds sm ≤ 33300 ∧
       sum_buffer_after_seconds sm = 900) ∧
    sessions (store w') mentor 0 ≤ 2 ∧ sessions (store w') mentor 0 = 2.
Proof.
  split; [vm_compute; reflexivity|].
  destruct (book_slot mentor 72 mentor mentee 5 33300 (at_time 30) w2) as [w' fin| |] eqn:Hrun;
    [|vm_compute in Hrun; discriminate Hrun..].
  exists w'. destruct (no_double_booking this w2 mentor slots_w2_reach) as (_ & _ & Hacc).
  destruct (Hacc (at_time 30) mentor 72 mentor mentee 5 33300 w' fin Hrun)
    as (sm & pol & Hsm & Hpol & Hfin & _ & Hbuf & Hcap);
    [vm_compute; reflexivity|lia|left; reflexivity|].
  assert (pol = mkPolicy 5 3600 900 2 1 13) as -> by (vm_compute in Hpol; congruence).
  simpl in Hfin. subst fin. split; [reflexivity|]. split.
  - exists sm. split; [exact Hsm|].
    assert (sum_buffer_after_seconds sm = 900) as Haft.
    { vm_compute in Hsm. injection Hsm as <-. reflexivity. }
    split; [|exact Haft].
    destruct (Hbuf 71 booking1 w2_booked eq_refl) as [Hb|Hb]; [by left|simpl in Hb|exact Hb].
    pose proof Hsm as (_ & c & _ & Ht%summary_ok)%read_summary_done. destruct Ht as (_ & Hbef & _). lia.
  - split; [exact Hcap|]. vm_compute in Hrun. injection Hrun as <-. vm_compute. reflexivity.
Defined.

Lemma booking_lifecycle_witness :
  bookings (store (invoke (exec (CCancelBooking mentee 71)) (at_time 30) w2).1) !! 71 = Some (cancelled booking1).
Proof.
  pose proof (booking_lifecycle this w2 (at_time 30) (CCancelBooking mentee 71) 71 slots_w2_reach
    ltac:(split; [simpl; unfold u64_max; lia|exact I])) as Hl.
  cbv zeta in Hl. rewrite w2_booked in Hl.
  assert (bookings (store (invoke (exec (CCancelBooking mentee 71)) (at_time 30) w2).1) !! 71 ≠ Some booking1)
    as Hne by (vm_compute; discriminate).
  destruct (bookings _ !! 71) as [b'|]; [|contradiction]. destruct Hl as [->|(_ & -> & _)]; [contradiction|reflexivity].
Defined.

Lemma booking_retry_witness :
  invoke (book_slot mentee 71 mentor mentee 5 28800) (at_time 99999999) w2 = (w2, Returned 32400).
Proof.
  apply (booking_retry this w2 (at_time 99999999) mentee 71 booking1 slots_w2_reach w2_booked);
    [reflexivity|discriminate|right; reflexivity].
Defined.

Lemma find_slots_bookable_witness :
  (∃ l, find_slots mentor mentee 5 0 604800 0 2 (at_time 20) w1 = Done w1 l) ∧
  invoke (is_slot_bookable mentor mentee 5 28800) (at_time 20) w1 = (w1, Returned true).
Proof.
  assert (find_slots mentor mentee 5 0 604800 0 2 (at_time 20) w1 =
    Done w1 [mkSlot 28800 32400 1 1; mkSlot 29700 33300 1 1]) as Hrun by (vm_compute; reflexivity).
  split; [eexists; exact Hrun|].
  assert (policies (store w1) !! 5 = Some (mkPolicy 5 3600 900 2 1 13)) as Hpol by (vm_compute; reflexivity).
  pose proof (find_slots_bookable this w1 w1 (at_time 20) mentor mentee 5 (mkPolicy 5 3600 900 2 1 13)
    0 604800 0 2 _ slots_w1_reach Hpol ltac:(simpl; unfold instant_max; lia) ltac:(lia)
    ltac:(unfold instant_max; lia) ltac:(lia) Hrun) as [_ Hall].
  apply (Hall (mkSlot 28800 32400 1 1)). by left.
Defined.

Lemma find_slots_terminates_witness :
  ∃ r, invoke (find_slots mentor mentee 5 0 2678400 3 64) (at_time 20) w1 = (w1, r) ∧ r ≠ Panicked.
Proof.
  apply (find_slots_terminates this w1 (at_time 20) mentor mentee 5 0 2678400 3 64 slots_w1_reach);
    simpl; unfold instant_max, u32_max; lia.
Defined.

Lemma booked_is_available_witness :
  ∃ d, net calendar = Some d ∧ ∃ sched, Availability.schedules (d_store d) !! mentee = Some sched ∧
    ∀ t, 28800 ≤ t < 32400 →
      Availability.bookable_at sched (Availability.load_exceptions mentee (d_store d)) 20 t.
Proof.
  destruct (book_slot mentor 71 mentor mentee 5 28800 (at_time 20) w1) as [w' fin| |] eqn:Hrun;
    [|vm_compute in Hrun; discriminate Hrun..].
  assert (fin = 32400) as ->.
  { assert (match book_slot mentor 71 mentor mentee 5 28800 (at_time 20) w1 with
      | Done _ f => f = 32400 | _ => False end) as Hf by (vm_compute; reflexivity).
    rewrite Hrun in Hf. exact Hf. }
  pose proof (booked_is_available this w1 w' (at_time 20) mentor 71 mentor mentee 5 28800 32400 slots_w1_reach
    ltac:(vm_compute; reflexivity) ltac:(simpl; lia) ltac:(lia) ltac:(unfold instant_max; lia) Hrun)
    as (c & d & Hc & Hd & Hall).
  assert (c = calendar) as ->.
  { assert (availability (store w1) = Some calendar) as Hcal by (vm_compute; reflexivity). congruence. }
  exists d. split; [exact Hd|]. apply (Hall mentee). by right.
Defined.

(** A mentor whose list holds 128 bookings, all but one cancelled again. *)
Definition book_and_cancel (n : nat) : list (Env * Call) :=
  flat_map (λ k, [(at_time 20, CBookSlot mentor (Z.of_nat k) mentor mentee 5 28800);
                  (at_time 20, CCancelBooking mentor (Z.of_nat k))]) (seq 1 n).
Definition w3 : W := run_calls exec (setup ++ book_and_cancel 128) w0.

Lemma slots_w3_reach : Reach w3.
Proof.
  apply reachable_run; [by apply reach_init|]. apply Forall_app. split.
  - repeat constructor; simpl; try lia; done.
  - apply Forall_forall. intros [e c] Hin.
    apply list_elem_of_In, in_flat_map in Hin as (k & _ & [[= <- <-]|[[= <- <-]|[]]]);
      split; try done; split; simpl; unfold u64_max; try lia; done.
Qed.

Lemma full_for_ever_witness :
  full mentor (store w3) ∧
  ∀ w4 fin, book_slot mentor 999 mentor mentee 5 28800 (at_time 25) w3 ≠ Done w4 fin.
Proof.
  assert (full mentor (store w3)) as Hfull.
  { apply Nat.leb_le. vm_compute. reflexivity. }
  split; [exact Hfull|]. intros w4 fin.
  apply (full_for_ever this w3 w3 (at_time 25) mentor 999 mentor mentee 5 28800 fin w4 slots_w3_reach);
    [left; exact Hfull|by apply reach_init|vm_compute; reflexivity].
Defined.
End Runs.
