(* ===== verification/FinesLedger.v ===== *)
(** * The fines ledger ([contracts/library-fines/src/lib.rs], second contract of the file, with
    [types.rs], [keys.rs], [errors.rs], [events.rs])

    An append-only ledger of charges, waivers and payments per patron, and the state machine of
    each payment.  The abstract state is a list of entries per patron, [represents]: every
    call leaves it or appends one entry to one list, the stored balance is the sum of the
    list, and what payments took off a balance is what is settled and not undone. *)
From S2P Require Import Prelude Machine Host Loops.

Inductive ContractError :=
| AlreadyInitialized | NotInitialized | Unauthorized | DuplicateReference | EntryNotFound
| SettlementNotFound | InvalidAmount | WaiverExceedsBalance | UnsupportedAsset
| DuplicateSettlement | InvalidStateTransition | PaymentExceedsBalance.

Definition MAX_PAGE_SIZE : Z := 50.

Inductive EntryKind := Assessment | Waiver | Payment | Refund | Reversal.

Record LedgerEntry := mkEntry {
  patron_ref : BytesN32; ref_id : BytesN32; kind : EntryKind; delta : Z;
  asset : option Address; recorded_at : Z; meta_hash : BytesN32
}.

Inductive SettlementState := Pending | Confirmed | Failed | Refunded | Reversed.
#[export] Instance SettlementState_eq_dec : EqDecision SettlementState.
Proof. solve_decision. Defined.

Record Settlement := mkSettlement {
  s_patron_ref : BytesN32; payer : Address; s_asset : Address; amount : Z;
  state : SettlementState; initiated_at : Z
}.

Inductive Event :=
| ASSESSED (p r : BytesN32) (amount new_balance : Z)
| WAIVED (actor : Address) (p r : BytesN32) (amount : Z) (reason : BytesN32) (new_balance : Z)
| PAY_INIT (p s : BytesN32) (asset : Address) (amount : Z)
| PAY_CONF (p s r : BytesN32) (new_balance : Z)
| PAY_FAIL (p s : BytesN32)
| PAY_RFND (p s r : BytesN32) (new_balance : Z)
| PAY_REV (p s r : BytesN32) (new_balance : Z).

Record Store := mkStore {
  admin : option Address;
  librarian : option Address;
  supported_assets : gmap Address bool;
  entry_counts : gmap Z Z;
  entries : gmap (Z * Z) LedgerEntry;
  ref_exists : gmap Z bool;
  balances : gmap Z Z;
  settlements : gmap Z Settlement
}.

Definition put_roles (a l : Address) (st : Store) : Store :=
  mkStore (Some a) (Some l) (supported_assets st) (entry_counts st) (entries st) (ref_exists st)
    (balances st) (settlements st).
Definition put_asset (a : Address) (st : Store) : Store :=
  mkStore (admin st) (librarian st) (<[a := true]> (supported_assets st)) (entry_counts st)
    (entries st) (ref_exists st) (balances st) (settlements st).
Definition write_balance (p : BytesN32) (n : Z) (st : Store) : Store :=
  mkStore (admin st) (librarian st) (supported_assets st) (entry_counts st) (entries st)
    (ref_exists st) (<[p := n]> (balances st)) (settlements st).
Definition put_settlement (i : BytesN32) (s : Settlement) (st : Store) : Store :=
  mkStore (admin st) (librarian st) (supported_assets st) (entry_counts st) (entries st)
    (ref_exists st) (balances st) (<[i := s]> (settlements st)).

Definition read_balance (p : BytesN32) (st : Store) : Z := default 0 (balances st !! p).
Definition entry_count (p : BytesN32) (st : Store) : Z := default 0 (entry_counts st !! p).
Definition ref_used (r : BytesN32) (st : Store) : bool := bool_decide (is_Some (ref_exists st !! r)).

(** The entry at the next sequence number, the count, and the reference mark; [seq] is the
    count before and [next] the count after. *)
Definition put_entry (x : LedgerEntry) (seq next : Z) (st : Store) : Store :=
  mkStore (admin st) (librarian st) (supported_assets st)
    (<[patron_ref x := next]> (entry_counts st)) (<[(patron_ref x, seq) := x]> (entries st))
    (<[ref_id x := true]> (ref_exists st)) (balances st) (settlements st).

Definition with_state (x : SettlementState) (s : Settlement) : Settlement :=
  mkSettlement (s_patron_ref s) (payer s) (s_asset s) (amount s) x (initiated_at s).

Section Contract.
Context {L : Type}.
Abbreviation M := (Contract L Store Event ContractError).

Definition initialize (adm lib : Address) : M unit :=
  o <- load admin ;;
  reject_if (bool_decide (is_Some o)) AlreadyInitialized ;;;
  require_auth adm ;;;
  save (put_roles adm lib).

Definition read_admin : M Address :=
  o <- load admin ;;
  ok_or o NotInitialized.
Definition read_librarian : M Address :=
  o <- load librarian ;;
  ok_or o NotInitialized.

Definition require_admin (caller : Address) : M unit :=
  require_admin_of admin NotInitialized Unauthorized caller.

Definition require_librarian_or_admin (caller : Address) : M unit :=
  a <- read_admin ;;
  l <- read_librarian ;;
  reject_if (negb (bool_decide (caller = a)) && negb (bool_decide (caller = l))) Unauthorized ;;;
  require_auth caller.

Definition append_entry (x : LedgerEntry) : M unit :=
  seq <- load (entry_count (patron_ref x)) ;;
  next <- or_trap (checked_add_u32 seq 1) ;;
  save (put_entry x seq next).

Definition add_supported_asset (caller a : Address) : M unit :=
  require_admin caller ;;;
  save (put_asset a).

Definition assess (caller : Address) (p r : BytesN32) (n : Z) (meta : BytesN32) : M unit :=
  require_librarian_or_admin caller ;;;
  reject_if (n <=? 0) InvalidAmount ;;;
  used <- load (ref_used r) ;;
  reject_if used DuplicateReference ;;;
  balance <- load (read_balance p) ;;
  new_balance <- or_trap (checked_add_i128 balance n) ;;
  t <- now ;;
  append_entry (mkEntry p r Assessment n None t meta) ;;;
  save (write_balance p new_balance) ;;;
  publish (ASSESSED p r n new_balance).

Definition waive (caller : Address) (p r : BytesN32) (n : Z) (reason : BytesN32) : M unit :=
  require_librarian_or_admin caller ;;;
  reject_if (n <=? 0) InvalidAmount ;;;
  used <- load (ref_used r) ;;
  reject_if used DuplicateReference ;;;
  balance <- load (read_balance p) ;;
  reject_if (balance <? n) WaiverExceedsBalance ;;;
  new_balance <- or_trap (checked_sub_i128 balance n) ;;
  neg <- or_trap (checked_sub_i128 0 n) ;;
  t <- now ;;
  append_entry (mkEntry p r Waiver neg None t reason) ;;;
  save (write_balance p new_balance) ;;;
  publish (WAIVED caller p r n reason new_balance).

Definition initiate_payment (caller : Address) (p i : BytesN32) (a : Address) (n : Z) : M unit :=
  require_auth caller ;;;
  _ <- read_admin ;;
  reject_if (n <=? 0) InvalidAmount ;;;
  o <- load (λ st, supported_assets st !! a) ;;
  reject_if (negb (bool_decide (is_Some o))) UnsupportedAsset ;;;
  o <- load (λ st, settlements st !! i) ;;
  reject_if (bool_decide (is_Some o)) DuplicateSettlement ;;;
  t <- now ;;
  save (put_settlement i (mkSettlement p caller a n Pending t)) ;;;
  publish (PAY_INIT p i a n).

Definition load_settlement (i : BytesN32) : M Settlement :=
  o <- load (λ st, settlements st !! i) ;;
  ok_or o SettlementNotFound.

Definition confirm_payment (caller : Address) (i r meta : BytesN32) : M unit :=
  require_admin caller ;;;
  s <- load_settlement i ;;
  reject_if (negb (bool_decide (state s = Pending))) InvalidStateTransition ;;;
  used <- load (ref_used r) ;;
  reject_if used DuplicateReference ;;;
  balance <- load (read_balance (s_patron_ref s)) ;;
  reject_if (balance <? amount s) PaymentExceedsBalance ;;;
  new_balance <- or_trap (checked_sub_i128 balance (amount s)) ;;
  neg <- or_trap (checked_sub_i128 0 (amount s)) ;;
  t <- now ;;
  append_entry (mkEntry (s_patron_ref s) r Payment neg (Some (s_asset s)) t meta) ;;;
  save (write_balance (s_patron_ref s) new_balance) ;;;
  save (put_settlement i (with_state Confirmed s)) ;;;
  publish (PAY_CONF (s_patron_ref s) i r new_balance).

Definition fail_payment (caller : Address) (i : BytesN32) : M unit :=
  require_admin caller ;;;
  s <- load_settlement i ;;
  reject_if (negb (bool_decide (state s = Pending))) InvalidStateTransition ;;;
  save (put_settlement i (with_state Failed s)) ;;;
  publish (PAY_FAIL (s_patron_ref s) i).

(** What [refund_payment] and [reverse_payment] share: they differ in the kind of entry, the
    final state and the event. *)
Definition undo_payment (k : EntryKind) (final : SettlementState) (ev : BytesN32 → BytesN32 → BytesN32 → Z → Event)
    (caller : Address) (i r meta : BytesN32) : M unit :=
  require_admin caller ;;;
  s <- load_settlement i ;;
  reject_if (negb (bool_decide (state s = Confirmed))) InvalidStateTransition ;;;
  used <- load (ref_used r) ;;
  reject_if used DuplicateReference ;;;
  balance <- load (read_balance (s_patron_ref s)) ;;
  new_balance <- or_trap (checked_add_i128 balance (amount s)) ;;
  t <- now ;;
  append_entry (mkEntry (s_patron_ref s) r k (amount s) (Some (s_asset s)) t meta) ;;;
  save (write_balance (s_patron_ref s) new_balance) ;;;
  save (put_settlement i (with_state final s)) ;;;
  publish (ev (s_patron_ref s) i r new_balance).

Definition refund_payment (caller : Address) (i r meta : BytesN32) : M unit :=
  undo_payment Refund Refunded PAY_RFND caller i r meta.
Definition reverse_payment (caller : Address) (i r meta : BytesN32) : M unit :=
  undo_payment Reversal Reversed PAY_REV caller i r meta.

Definition get_balance (p : BytesN32) : M Z := load (read_balance p).

Definition get_entry (p : BytesN32) (seq : Z) : M LedgerEntry :=
  o <- load (λ st, entries st !! (p, seq)) ;;
  ok_or o EntryNotFound.

(** One round of the cursor loop: the entry at [seq], if any, and the next number. *)
Definition entries_step (st : Store) (p : BytesN32) (x : Z * list LedgerEntry) :
    option (Z * list LedgerEntry) :=
  let result := match entries st !! (p, x.1) with Some y => x.2 ++ [y] | None => x.2 end in
  seq ← checked_add_u32 x.1 1;
  Some (seq, result).

Definition entries_from (st : Store) (p : BytesN32) (cursor limit : Z) : option (list LedgerEntry) :=
  let count := entry_count p st in
  let page_limit := if MAX_PAGE_SIZE <? limit then MAX_PAGE_SIZE else limit in
  let fin := saturating_add_u32 cursor page_limit in
  x ← while (S (Z.to_nat page_limit)) (λ x, (x.1 <? count) && (x.1 <? fin)) (entries_step st p) (cursor, []);
  Some x.2.

Definition get_entries (p : BytesN32) (cursor limit : Z) : M (list LedgerEntry) :=
  o <- load (λ st, entries_from st p cursor limit) ;;
  or_trap o.

Definition get_settlement (i : BytesN32) : M Settlement := load_settlement i.

(** ** Calls *)

Inductive Call :=
| CInitialize (a l : Address)
| CAddAsset (caller a : Address)
| CAssess (caller : Address) (p r : BytesN32) (n : Z) (meta : BytesN32)
| CWaive (caller : Address) (p r : BytesN32) (n : Z) (reason : BytesN32)
| CInitiate (caller : Address) (p i : BytesN32) (a : Address) (n : Z)
| CConfirm (caller : Address) (i r meta : BytesN32)
| CFail (caller : Address) (i : BytesN32)
| CRefund (caller : Address) (i r meta : BytesN32)
| CReverse (caller : Address) (i r meta : BytesN32).

Definition exec (c : Call) : M unit :=
  match c with
  | CInitialize a l => initialize a l
  | CAddAsset c a => add_supported_asset c a
  | CAssess c p r n m => assess c p r n m
  | CWaive c p r n m => waive c p r n m
  | CInitiate c p i a n => initiate_payment c p i a n
  | CConfirm c i r m => confirm_payment c i r m
  | CFail c i => fail_payment c i
  | CRefund c i r m => refund_payment c i r m
  | CReverse c i r m => reverse_payment c i r m
  end.
End Contract.

(** Any argument is of its width as far as the proofs need. *)
Definition valid (e : Env) (c : Call) : Prop := True.

(** ** The abstract ledger *)

(** The entries of each patron in order of sequence number. *)
Definition Histories := Z → list LedgerEntry.

Definition appended (H : Histories) (x : LedgerEntry) : Histories :=
  λ p, if decide (p = patron_ref x) then H p ++ [x] else H p.

(** Entries that come from settlements, and the settlements that still count. *)
Definition pay_delta (x : LedgerEntry) : Z :=
  match kind x with Payment | Refund | Reversal => delta x | _ => 0 end.
Definition settled (p : Z) (_ : Z) (s : Settlement) : Z :=
  if (s_patron_ref s =? p) && bool_decide (state s = Confirmed) then amount s else 0.

(** The sign of an entry is the one its kind defines. *)
Definition entry_ok (p : Z) (x : LedgerEntry) : Prop :=
  patron_ref x = p ∧
  match kind x with Assessment | Refund | Reversal => 0 < delta x | Waiver | Payment => delta x < 0 end.

Record represents (st : Store) (H : Histories) : Prop := {
  rep_count p : entry_count p st = Z.of_nat (length (H p)) ∧ entry_count p st ≤ u32_max;
  rep_entries p k : entries st !! (p, k) = if decide (0 ≤ k) then H p !! Z.to_nat k else None;
  rep_balance p : read_balance p st = list_sum delta (H p);
  rep_owed p : 0 ≤ read_balance p st;
  rep_ok p : Forall (entry_ok p) (H p);
  rep_refs r : is_Some (ref_exists st !! r) ↔ ∃ p x, x ∈ H p ∧ ref_id x = r;
  rep_unique p q i j x y : H p !! i = Some x → H q !! j = Some y → ref_id x = ref_id y → p = q ∧ i = j;
  rep_settled p : list_sum pay_delta (H p) = - map_sum (settled p) (settlements st);
  rep_amounts i s : settlements st !! i = Some s → 0 < amount s
}.

(** Appending a sound entry under a fresh reference. *)
Definition posted (x : LedgerEntry) (n : Z) (st : Store) : Store :=
  write_balance (patron_ref x) n (put_entry x (entry_count (patron_ref x) st) (entry_count (patron_ref x) st + 1) st).

Lemma appended_same H x : appended H x (patron_ref x) = H (patron_ref x) ++ [x].
Proof. unfold appended. by rewrite decide_True. Qed.

Lemma posted_represents st H x s' :
  represents st H → entry_ok (patron_ref x) x → ref_exists st !! ref_id x = None →
  0 ≤ read_balance (patron_ref x) st + delta x → entry_count (patron_ref x) st + 1 ≤ u32_max →
  (∀ p, map_sum (settled p) s' = map_sum (settled p) (settlements st) -
    (if decide (p = patron_ref x) then pay_delta x else 0)) →
  (∀ i s, s' !! i = Some s → 0 < amount s) →
  let st1 := posted x (read_balance (patron_ref x) st + delta x) st in
  represents (mkStore (admin st1) (librarian st1) (supported_assets st1) (entry_counts st1) (entries st1)
    (ref_exists st1) (balances st1) s') (appended H x).
Proof.
  intros HR Hx Hnew Hpos Hmax Hset Ham st1. destruct HR as [H1 H2 H3 H4 H5 H6 H7 H8 H9].
  assert (Hfresh : ∀ p y, y ∈ H p → ref_id y ≠ ref_id x).
  { intros p y Hy Heq. destruct (proj2 (H6 (ref_id x))) as [? Hs]; [by exists p, y|congruence]. }
  split; simpl.
  - intros p. specialize (H1 p). unfold appended, entry_count in *. simpl.
    destruct (decide (p = patron_ref x)) as [->|Hp].
    + rewrite lookup_insert_eq, length_app. simpl. lia.
    + by rewrite lookup_insert_ne.
  - intros p k. specialize (H2 p k). destruct (H1 (patron_ref x)) as [H1x _]. unfold appended.
    destruct (decide ((patron_ref x, entry_count (patron_ref x) st) = (p, k))) as [Heq|Hne].
    + simplify_eq. rewrite lookup_insert_eq, decide_True by lia. rewrite decide_True by done.
      rewrite H1x, Nat2Z.id. by rewrite list_lookup_middle.
    + rewrite lookup_insert_ne, H2 by done. destruct (decide (0 ≤ k)); [|done].
      destruct (decide (p = patron_ref x)) as [->|]; [|done].
      destruct (decide (Z.to_nat k < length (H (patron_ref x)))%nat).
      * by rewrite lookup_app_l.
      * rewrite (lookup_ge_None_2 (H _)) by lia. rewrite lookup_app_r by lia.
        symmetry. apply lookup_ge_None_2. simpl. assert (k ≠ entry_count (patron_ref x) st) by congruence. lia.
  - intros p. specialize (H3 p). unfold appended, read_balance in *. simpl.
    destruct (decide (p = patron_ref x)) as [->|Hp].
    + rewrite lookup_insert_eq, list_sum_app. simpl. lia.
    + by rewrite lookup_insert_ne.
  - intros p. unfold read_balance. simpl. rewrite lookup_insert. case_decide; simpl; [done|apply H4].
  - intros p. unfold appended. case_decide; [|done]. subst. apply Forall_app. split; [done|]. by constructor.
  - intros r. rewrite lookup_insert. unfold appended. case_decide as Hr.
    + split; [|by eexists]. intros _. exists (patron_ref x), x. rewrite decide_True by done. set_solver.
    + rewrite H6. split; intros (p & y & Hy & Hyr); exists p, y; (split; [|done]);
        case_decide; set_solver.
  - intros p q i j y z. unfold appended.
    assert (Hcase : ∀ p i y, (if decide (p = patron_ref x) then H p ++ [x] else H p) !! i = Some y →
      H p !! i = Some y ∨ y = x ∧ p = patron_ref x ∧ i = length (H p)).
    { intros p0 i0 y0. case_decide; [|by left]. intros [Hl|[Hl Hx0]]%lookup_app_Some; [by left|right].
      apply list_lookup_singleton_Some in Hx0 as [? <-]. split_and!; [done..|lia]. }
    intros [Hy|(-> & -> & ->)]%Hcase [Hz|(-> & -> & ->)]%Hcase Heq.
    + by apply (H7 p q i j y z).
    + apply list_elem_of_lookup_2 in Hy. by apply Hfresh in Hy.
    + apply list_elem_of_lookup_2 in Hz. apply Hfresh in Hz. congruence.
    + done.
  - intros p. rewrite Hset. unfold appended. specialize (H8 p). case_decide; [|lia].
    subst. rewrite list_sum_app. simpl. lia.
  - done.
Qed.

(** ** What a call does *)

Inductive effect (st : Store) : Store → Prop :=
| E_same st' :
    entry_counts st' = entry_counts st → entries st' = entries st → ref_exists st' = ref_exists st →
    balances st' = balances st → settlements st' = settlements st → effect st st'
| E_initiate i s :
    settlements st !! i = None → state s = Pending → 0 < amount s → effect st (put_settlement i s st)
| E_fail i s :
    settlements st !! i = Some s → state s = Pending → effect st (put_settlement i (with_state Failed s) st)
| E_post x :
    entry_ok (patron_ref x) x → pay_delta x = 0 → ref_exists st !! ref_id x = None →
    (0 < delta x ∨ 0 ≤ read_balance (patron_ref x) st + delta x) →
    entry_count (patron_ref x) st + 1 ≤ u32_max →
    effect st (posted x (read_balance (patron_ref x) st + delta x) st)
| E_confirm i s x :
    settlements st !! i = Some s → state s = Pending → patron_ref x = s_patron_ref s → kind x = Payment →
    delta x = - amount s → asset x = Some (s_asset s) → ref_exists st !! ref_id x = None →
    0 ≤ read_balance (patron_ref x) st + delta x → entry_count (patron_ref x) st + 1 ≤ u32_max →
    effect st (put_settlement i (with_state Confirmed s) (posted x (read_balance (patron_ref x) st + delta x) st))
| E_undo i s x final :
    settlements st !! i = Some s → state s = Confirmed → patron_ref x = s_patron_ref s →
    (kind x = Refund ∧ final = Refunded ∨ kind x = Reversal ∧ final = Reversed) →
    delta x = amount s → asset x = Some (s_asset s) → ref_exists st !! ref_id x = None →
    entry_count (patron_ref x) st + 1 ≤ u32_max →
    effect st (put_settlement i (with_state final s) (posted x (read_balance (patron_ref x) st + delta x) st)).

Section Invariant.
Context {L : Type}.
Abbreviation W := (World L Store Event).
Implicit Types (w : W).

Lemma ref_used_false r st : ref_used r st = false → ref_exists st !! r = None.
Proof. unfold ref_used. intros H. bool_prop. by apply eq_None_not_Some. Qed.

Lemma append_entry_done x e w w' u :
  append_entry x e w = Done w' u →
  w' = mkWorld (ledger w) (put_entry x (entry_count (patron_ref x) (store w))
    (entry_count (patron_ref x) (store w) + 1) (store w)) (log w) ∧
  entry_count (patron_ref x) (store w) + 1 ≤ u32_max.
Proof. intros Hrun. unfold append_entry in Hrun. run_inv. checked_prop. split; [done|lia]. Qed.

Lemma require_librarian_or_admin_done c e w w' u :
  require_librarian_or_admin c e w = Done w' u →
  w' = w ∧ authorized e c = true ∧ (admin (store w) = Some c ∨ librarian (store w) = Some c).
Proof.
  intros Hrun. unfold require_librarian_or_admin, read_admin, read_librarian in Hrun. run_inv.
  split_and!; [done..|]. bool_prop.
  match goal with H : _ ∨ _ |- _ => destruct H; bool_prop; subst; [by left|by right] end.
Qed.

Ltac ledger_inv :=
  repeat (run_inv; match goal with
  | H : require_librarian_or_admin _ _ _ = Done _ _ |- _ =>
      apply require_librarian_or_admin_done in H as (-> & _ & _)
  | H : append_entry _ _ _ = Done _ _ |- _ => apply append_entry_done in H as [-> ?]
  end); run_inv; bool_prop; checked_prop; simpl in *;
  repeat match goal with H : ref_used _ _ = false |- _ => apply ref_used_false in H end.

Lemma undo_effect k final ev c i r m e w w' u :
  (k = Refund ∧ final = Refunded ∨ k = Reversal ∧ final = Reversed) →
  undo_payment k final ev c i r m e w = Done w' u → effect (store w) (store w').
Proof.
  intros Hk Hrun. unfold undo_payment, require_admin, load_settlement in Hrun. ledger_inv.
  match goal with H : settlements _ !! _ = Some ?s |- _ =>
    apply (E_undo _ i s (mkEntry (s_patron_ref s) r k (amount s) (Some (s_asset s)) (timestamp e) m) final)
  end; done.
Qed.

Lemma ledger_effect c e w w' u : exec c e w = Done w' u → effect (store w) (store w').
Proof.
  intros Hrun. destruct c as [a l|c a|c p r n m|c p r n m|c p i a n|c i r m|c i|c i r m|c i r m]; simpl in Hrun.
  - unfold initialize in Hrun. run_inv. by apply E_same.
  - unfold add_supported_asset, require_admin in Hrun. run_inv. by apply E_same.
  - unfold assess in Hrun. ledger_inv.
    apply (E_post _ (mkEntry p r Assessment n None (timestamp e) m)); simpl; try done; by left.
  - unfold waive in Hrun. ledger_inv.
    apply (E_post _ (mkEntry p r Waiver (0 - n) None (timestamp e) m)); simpl; try done; [|right; lia].
    split; simpl; [done|lia].
  - unfold initiate_payment, read_admin in Hrun. ledger_inv.
    apply E_initiate; simpl; try done. by apply eq_None_not_Some.
  - unfold confirm_payment, require_admin, load_settlement in Hrun. ledger_inv.
    match goal with H : settlements _ !! _ = Some ?s |- _ =>
      apply (E_confirm _ i s (mkEntry (s_patron_ref s) r Payment (0 - amount s) (Some (s_asset s)) (timestamp e) m))
    end; simpl; try done; lia.
  - unfold fail_payment, require_admin, load_settlement in Hrun. ledger_inv. by eapply E_fail.
  - by eapply undo_effect; [left|].
  - by eapply undo_effect; [right|].
Qed.

Lemma settled_update p i s y m :
  m !! i = Some s →
  map_sum (settled p) (<[i := with_state y s]> m) = map_sum (settled p) m -
    (if s_patron_ref s =? p then
       (if bool_decide (state s = Confirmed) then amount s else 0) -
       (if bool_decide (y = Confirmed) then amount s else 0) else 0).
Proof.
  intros Hi. rewrite map_sum_insert. unfold at_key. rewrite Hi.
  unfold settled, with_state. simpl. destruct (_ =? p); simpl; lia.
Qed.

(** Every effect leaves the abstract ledger or appends one entry to it. *)
Lemma effect_represents st st' H :
  represents st H → effect st st' → represents st' H ∨ ∃ x, represents st' (appended H x).
Proof.
  intros HR Hef. pose proof (rep_owed _ _ HR) as Howed. destruct Hef as
    [st' E1 E2 E3 E4 E5|i s Hi Hp Ha|i s Hi Hp|x Hx Hz Hr Hb Hc|i s x Hi Hp Hpx Hk Hd _ Hr Hb Hc|i s x final Hi Hp Hpx Hk Hd _ Hr Hc].
  - left. destruct HR as [H1 H2 H3 H4 H5 H6 H7 H8 H9].
    split; unfold entry_count, read_balance in *; rewrite ?E1, ?E2, ?E3, ?E4, ?E5; done.
  - left. destruct HR as [H1 H2 H3 H4 H5 H6 H7 H8 H9]. split; try done; simpl.
    + intros p. rewrite map_sum_insert_new by done. unfold settled at 1. rewrite Hp, andb_false_r. apply H8.
    + intros j y. rewrite lookup_insert. case_decide; [by intros [= <-]|apply H9].
  - left. pose proof (rep_amounts _ _ HR _ _ Hi) as Ham. destruct HR as [H1 H2 H3 H4 H5 H6 H7 H8 H9].
    split; try done; simpl.
    + intros p. rewrite (settled_update _ _ s), Hp, H8 by done. simpl. case_match; lia.
    + intros j y. rewrite lookup_insert. case_decide; [by intros [= <-]|apply H9].
  - right. exists x. apply (posted_represents st H x (settlements st)); try done.
    + specialize (Howed (patron_ref x)). lia.
    + intros p. case_decide; lia.
    + apply (rep_amounts _ _ HR).
  - right. exists x. pose proof (rep_amounts _ _ HR _ _ Hi) as Ham.
    apply (posted_represents st H x (<[i := with_state Confirmed s]> (settlements st))); try done.
    + split; [done|]. rewrite Hk. lia.
    + intros p. rewrite (settled_update _ _ s), Hp, Hpx by done. unfold pay_delta. rewrite Hk, Hd. simpl.
      destruct (Z.eqb_spec (s_patron_ref s) p); case_decide; try congruence; lia.
    + intros j y. rewrite lookup_insert. case_decide; [by intros [= <-]|apply (rep_amounts _ _ HR)].
  - right. exists x. pose proof (rep_amounts _ _ HR _ _ Hi) as Ham.
    apply (posted_represents st H x (<[i := with_state final s]> (settlements st))); try done.
    + split; [done|]. destruct Hk as [[-> _]|[-> _]]; lia.
    + specialize (Howed (patron_ref x)). lia.
    + intros p. rewrite (settled_update _ _ s), Hp, Hpx by done. unfold pay_delta. rewrite Hd.
      destruct Hk as [[-> ->]|[-> ->]]; simpl;
        destruct (Z.eqb_spec (s_patron_ref s) p); case_decide; try congruence; lia.
    + intros j y. rewrite lookup_insert. case_decide; [by intros [= <-]|apply (rep_amounts _ _ HR)].
Qed.

Definition deployed (w : W) : Prop := store w = mkStore None None ∅ ∅ ∅ ∅ ∅ ∅.
Abbreviation Reach this := (reachable exec valid this (λ _ _, True) deployed).

Lemma ledger_reachable this w : Reach this w → ∃ H, represents (store w) H.
Proof.
  apply (reachable_inv _ _ _ _ _ (λ w, ∃ H, represents (store w) H)).
  - intros w0 ->. exists (λ _, []). split; simpl; try done.
    + intros p k. by case_decide.
    + intros r. split; [by intros [? ?]|]. by intros (p & x & ?%elem_of_nil & _).
  - intros c e w0 w1 u _ _ [H HR] Hrun. apply ledger_effect in Hrun.
    destruct (effect_represents _ _ _ HR Hrun) as [?|[x ?]]; eauto.
  - done.
Qed.

(** The ledger is append-only.  Every reachable world stores some list of entries per
    patron, numbered from zero, with sums for balances, signs set by the kinds, and no
    reference used twice; and a call either leaves all lists as they are or appends one entry
    to one of them. *)
Theorem ledger_append_only this w e c :
  Reach this w → ∃ H, represents (store w) H ∧
    let w' := (invoke (exec c) e w).1 in
    represents (store w') H ∨ ∃ x, represents (store w') (appended H x).
Proof.
  intros [H HR]%ledger_reachable. exists H. split; [done|]. unfold invoke.
  destruct (exec c e w) as [w' u| |] eqn:Hrun; simpl; [|by left..].
  by eapply effect_represents, ledger_effect.
Qed.

(** What was charged less what was waived. *)
Definition charge_delta (x : LedgerEntry) : Z :=
  match kind x with Assessment | Waiver => delta x | _ => 0 end.

Lemma delta_split l : list_sum delta l = list_sum charge_delta l + list_sum pay_delta l.
Proof.
  induction l as [|x l IH]; simpl; [done|]. rewrite IH. unfold charge_delta, pay_delta.
  destruct (kind x); lia.
Qed.

(** C9: Balances reconcile.  In every reachable world a patron's balance is what was assessed
    less what was waived less the confirmed settlements that were neither refunded nor
    reversed, and it is never negative. *)
Theorem balance_reconciles this w e p :
  Reach this w → ∃ H, represents (store w) H ∧
    get_balance p e w = Done w (list_sum charge_delta (H p) - map_sum (settled p) (settlements (store w))) ∧
    map_sum (settled p) (settlements (store w)) ≤ list_sum charge_delta (H p).
Proof.
  intros [H HR]%ledger_reachable. exists H. split; [done|].
  pose proof (rep_balance _ _ HR p) as Hb. pose proof (rep_owed _ _ HR p) as Ho.
  pose proof (rep_settled _ _ HR p) as Hs. rewrite delta_split, Hs in Hb.
  split; [unfold get_balance, load; do 2 f_equal; lia|lia].
Qed.

(** Life of a payment.  From every reachable world a call leaves a settlement as it is or
    moves it along the table (pending to confirmed or failed, confirmed to refunded or
    reversed) with its terms kept; confirming takes exactly its amount off its patron's
    balance, undoing puts it back, failing changes no balance. *)
Theorem settlement_lifecycle this w e c i s :
  Reach this w → settlements (store w) !! i = Some s →
  let w' := (invoke (exec c) e w).1 in
  let change := read_balance (s_patron_ref s) (store w') - read_balance (s_patron_ref s) (store w) in
  settlements (store w') !! i = Some s ∨
  ∃ y, settlements (store w') !! i = Some (with_state y s) ∧
    (state s = Pending ∧ y = Confirmed ∧ change = - amount s ∨
     state s = Pending ∧ y = Failed ∧ change = 0 ∨
     state s = Confirmed ∧ (y = Refunded ∨ y = Reversed) ∧ change = amount s).
Proof.
  intros _ Hs. unfold invoke. destruct (exec c e w) as [w' u| |] eqn:Hrun; simpl; [|by left..].
  apply ledger_effect in Hrun. generalize dependent (store w'). clear w' u. intros st' Hef.
  assert (Hput : ∀ j y x n, settlements (put_settlement j y (posted x n (store w))) !! i =
    if decide (j = i) then Some y else Some s) by (intros; simpl; by rewrite lookup_insert, Hs).
  destruct Hef as [st' _ _ _ _ E5|j y Hj _ _|j y Hj Hp|x _ _ _ _ _|j y x Hj Hp Hpx _ Hd _ _ _ _|j y x final Hj Hp Hpx Hk Hd _ _ _].
  - left. by rewrite E5.
  - left. simpl. rewrite lookup_insert_ne; [done|congruence].
  - simpl. destruct (decide (j = i)) as [->|]; [|left; by rewrite lookup_insert_ne].
    rewrite Hs in Hj. simplify_eq. right. exists Failed. rewrite lookup_insert_eq. split; [done|].
    right; left. split_and!; [done..|]. unfold read_balance. simpl. lia.
  - by left.
  - rewrite Hput. case_decide as Hji; [subst j|by left]. rewrite Hs in Hj. simplify_eq.
    right. exists Confirmed. split; [done|]. left. split_and!; [done..|].
    unfold read_balance. simpl. rewrite <-Hpx, lookup_insert_eq. simpl. unfold read_balance. lia.
  - rewrite Hput. case_decide as Hji; [subst j|by left]. rewrite Hs in Hj. simplify_eq.
    right. exists final. split; [done|]. right; right.
    split_and!; [done|destruct Hk as [[_ ->]|[_ ->]]; [by left|by right]|].
    unfold read_balance. simpl. rewrite <-Hpx, lookup_insert_eq. simpl. unfold read_balance. lia.
Qed.

(** Cursor queries.  In every reachable world, asking for [limit] entries from [cursor] never
    traps and returns the entries of the patron's list from that position, at most fifty. *)
Theorem get_entries_slice this w e H p cursor limit :
  Reach this w → represents (store w) H → 0 ≤ cursor ≤ u32_max → 0 ≤ limit ≤ u32_max →
  invoke (get_entries p cursor limit) e w =
    (w, Returned (take (Z.to_nat (Z.min limit 50)) (drop (Z.to_nat cursor) (H p)))).
Proof.
  intros _ HR Hc Hl. destruct (rep_count _ _ HR p) as [Hcount Hmax].
  apply invoke_run. unfold get_entries. run_fwd. unfold entries_from, MAX_PAGE_SIZE.
  set (lim := if 50 <? limit then 50 else limit).
  assert (lim = Z.min limit 50) as Hlim by (unfold lim; destruct (Z.ltb_spec 50 limit); lia).
  rewrite <-Hlim. assert (0 ≤ lim) by lia. clearbody lim. clear Hlim Hl.
  destruct (while_total (λ x, (x.1 <? entry_count p (store w)) && (x.1 <? saturating_add_u32 cursor lim))
    (entries_step (store w) p)
    (λ x, cursor ≤ x.1 ≤ cursor + lim ∧ x.2 = take (Z.to_nat (x.1 - cursor)) (drop (Z.to_nat cursor) (H p)))
    (λ x, Z.to_nat (cursor + lim - x.1))) with (fuel := S (Z.to_nat lim)) (s := (cursor, [] : list LedgerEntry))
    as ([k l] & Hrun & [Hk Hsl] & Hend).
  - intros [k l] [Hk Hsl] Hcond. simpl in *. unfold saturating_add_u32 in Hcond. bool_prop.
    unfold entries_step. simpl. rewrite (rep_entries _ _ HR), decide_True by lia.
    destruct (lookup_lt_is_Some_2 (H p) (Z.to_nat k)) as [y Hy]; [lia|]. rewrite Hy.
    unfold checked_add_u32. rewrite checked_in by range_lia. simpl. eexists. split; [done|]. simpl.
    split; [|lia]. split; [lia|]. rewrite Hsl. replace (Z.to_nat (k + 1 - cursor)) with (S (Z.to_nat (k - cursor))) by lia.
    symmetry. apply take_S_r. rewrite lookup_drop. rewrite <-Hy. f_equal. lia.
  - simpl. split; [lia|]. by rewrite Z.sub_diag.
  - simpl. lia.
  - rewrite Hrun. simpl in *. unfold ret. f_equal. rewrite Hsl.
    unfold saturating_add_u32 in Hend. bool_prop.
    destruct (decide (k = cursor + lim)) as [->|Hne]; [do 2 f_equal; lia|].
    rewrite !take_ge; [done| |]; rewrite length_drop; destruct Hend; bool_prop; lia.
Qed.
End Invariant.

(** ** Concrete runs *)
Module Runs.
Definition this : Address := addr 0.
Definition boss : Address := addr 1.
Definition clerk : Address := addr 2.
Definition patron : Address := addr 3.
Definition coin : Address := addr 9.
Definition at_time (t : Z) (a : Address) : Env := mkEnv t this (λ b, bool_decide (a = b)).
Abbreviation W := (World unit Store Event).
Definition w0 : W := mkWorld tt (mkStore None None ∅ ∅ ∅ ∅ ∅ ∅) [].
(** A fine of 100, a waiver of 30, a payment of 50 confirmed. *)
Definition history : list (Env * Call) :=
  [(at_time 1 boss, CInitialize boss clerk); (at_time 2 boss, CAddAsset boss coin);
   (at_time 3 clerk, CAssess clerk 7 21 100 0); (at_time 4 clerk, CWaive clerk 7 22 30 0);
   (at_time 5 patron, CInitiate patron 7 41 coin 50)].
Definition w1 : W := run_calls exec history w0.
Definition w2 : W := run_calls exec (history ++ [(at_time 6 boss, CConfirm boss 41 23 0)]) w0.
Definition payment1 : Settlement := mkSettlement 7 patron coin 50 Pending 5.

Abbreviation Reach := (reachable exec valid this (λ _ _, True) deployed).
Lemma ledger_w1_reach : Reach w1.
Proof. apply reachable_run; [by apply reach_init|]. repeat constructor. Qed.
Lemma ledger_w2_reach : Reach w2.
Proof. apply reachable_run; [by apply reach_init|]. repeat constructor. Qed.

Lemma ledger_append_only_witness :
  ∃ H, represents (store w1) H ∧ Z.of_nat (length (H 7)) = 2.
Proof.
  destruct (ledger_append_only this w1 (at_time 6 boss) (CFail boss 41) ledger_w1_reach) as (H & HR & _).
  exists H. split; [exact HR|]. rewrite <-(proj1 (rep_count _ _ HR 7)). vm_compute. reflexivity.
Defined.

Lemma balance_reconciles_witness :
  get_balance 7 (at_time 9 boss) w2 = Done w2 20 ∧ map_sum (settled 7) (settlements (store w2)) = 50 ∧
  ∃ H, represents (store w2) H ∧ list_sum charge_delta (H 7) = 70.
Proof.
  destruct (balance_reconciles this w2 (at_time 9 boss) 7 ledger_w2_reach) as (H & HR & Hb & _).
  assert (get_balance 7 (at_time 9 boss) w2 = Done w2 20) as Hget by (vm_compute; reflexivity).
  assert (map_sum (settled 7) (settlements (store w2)) = 50) as Hset by (vm_compute; reflexivity).
  split; [exact Hget|]. split; [exact Hset|]. exists H. split; [exact HR|].
  rewrite Hget, Hset in Hb. injection Hb. lia.
Defined.

Lemma settlement_lifecycle_witness :
  settlements (store w2) !! 41 = Some (with_state Confirmed payment1) ∧
  read_balance 7 (store w2) - read_balance 7 (store w1) = -50.
Proof.
  assert (settlements (store w1) !! 41 = Some payment1) as H1 by (vm_compute; reflexivity).
  assert ((invoke (exec (CConfirm boss 41 23 0)) (at_time 6 boss) w1).1 = w2) as Hw by (vm_compute; reflexivity).
  assert (settlements (store w2) !! 41 = Some (with_state Confirmed payment1)) as H2 by (vm_compute; reflexivity).
  pose proof (settlement_lifecycle this w1 (at_time 6 boss) (CConfirm boss 41 23 0) 41 payment1
    ledger_w1_reach H1) as Hl. cbv zeta in Hl. rewrite Hw, H2 in Hl. split; [exact H2|].
  destruct Hl as [[=]|(y & [= <-] & [(_ & _ & Hc)|[(_ & [=] & _)|([=] & _)]])]. exact Hc.
Defined.

Lemma get_entries_slice_witness :
  ∃ H, represents (store w2) H ∧
    invoke (get_entries 7 1 2) (at_time 9 boss) w2 = (w2, Returned (take 2 (drop 1 (H 7)))).
Proof.
  destruct (ledger_reachable this w2 ledger_w2_reach) as [H HR]. exists H. split; [exact HR|].
  apply (get_entries_slice this w2 (at_time 9 boss) H 7 1 2 ledger_w2_reach HR); unfold u32_max; lia.
Defined.
End Runs.
