(* ===== verification/RateLimits.v ===== *)
(** * Rate limits ([contracts/scholarship-rate-limits/src/lib.rs])

    A counter per actor, action and fixed time window, a limit per action and a ceiling on the
    number of counters.  The theorems give the outcome of a check on every branch, bound what
    a window lets through over any sequence of calls, and show what the ceiling does once it
    is reached. *)
From S2P Require Import Prelude Machine Host.

Definition MAX_BUCKETS : Z := 500000.
Definition DEFAULT_WINDOW_SECONDS : Z := 3600.
Definition DEFAULT_MAX_COUNT : Z := 100.

Inductive ContractError :=
| NotInitialized | AlreadyInitialized | NotAdmin | RateLimitExceeded | ServiceAuthRequired
| InvalidWindow | InvalidMaxCount | BucketLimitExceeded | Overflow.

Inductive Action := Discovery | Application | Upload | Invitation | Messaging | Payout.
#[export] Instance Action_eq_dec : EqDecision Action.
Proof. solve_decision. Defined.
#[export] Instance Action_countable : Countable Action.
Proof.
  refine (inj_countable'
    (λ a, match a with Discovery => 1 | Application => 2 | Upload => 3 | Invitation => 4
                     | Messaging => 5 | Payout => 6 end)
    (λ n, if n =? 1 then Discovery else if n =? 2 then Application else if n =? 3 then Upload
          else if n =? 4 then Invitation else if n =? 5 then Messaging else Payout) _).
  by intros [].
Defined.

Inductive RiskTier := Low | Medium | High | Critical.

Record ActionConfig := mkConfig { risk_tier : RiskTier; window_seconds : Z; max_count : Z }.

Inductive Event :=
| CFGSET (action : Action) (tier : RiskTier) (window maximum : Z)
| SVAUTGRT (service : Address)
| SVAUTRVK (service : Address)
| SVAUREQ (actor : Address) (action : Action) (window_reset : Z)
| RATELIM (actor : Address) (action : Action) (window_reset current maximum : Z)
| RATEOK (actor : Address) (action : Action) (next remaining : Z).

Record Store := mkStore {
  admin : option Address;
  configs : gmap Action ActionConfig;
  service_auth : gmap Address bool;
  buckets : gmap (Address * Action * Z) Z;
  bucket_count : option Z
}.

Definition put_admin (a : Address) (st : Store) : Store :=
  mkStore (Some a) (configs st) (service_auth st) (buckets st) (bucket_count st).
Definition put_config (a : Action) (c : ActionConfig) (st : Store) : Store :=
  mkStore (admin st) (<[a := c]> (configs st)) (service_auth st) (buckets st) (bucket_count st).
Definition put_service_auth (s : Address) (b : bool) (st : Store) : Store :=
  mkStore (admin st) (configs st) (<[s := b]> (service_auth st)) (buckets st) (bucket_count st).
Definition put_bucket (k : Address * Action * Z) (n : Z) (st : Store) : Store :=
  mkStore (admin st) (configs st) (service_auth st) (<[k := n]> (buckets st)) (bucket_count st).
Definition put_bucket_count (n : Z) (st : Store) : Store :=
  mkStore (admin st) (configs st) (service_auth st) (buckets st) (Some n).

(** [get_action_config], [has_service_auth] and the counters as functions of the storage. *)
Definition config_of (a : Action) (st : Store) : ActionConfig :=
  default (mkConfig Medium DEFAULT_WINDOW_SECONDS DEFAULT_MAX_COUNT) (configs st !! a).
Definition granted (s : Address) (st : Store) : bool := default false (service_auth st !! s).
Definition used (a : Address) (act : Action) (window : Z) (st : Store) : Z :=
  default 0 (buckets st !! (a, act, window)).
Definition total_buckets (st : Store) : Z := default 0 (bucket_count st).

(** [matches!(tier, High | Critical)] *)
Definition guarded (t : RiskTier) : bool := match t with High | Critical => true | _ => false end.

Section Contract.
Context {L : Type}.
Abbreviation M := (Contract L Store Event ContractError).

Definition defaults : list (Action * ActionConfig) :=
  [(Discovery, mkConfig Low 3600 300); (Application, mkConfig Medium 86400 10);
   (Upload, mkConfig Medium 86400 20); (Invitation, mkConfig Medium 86400 50);
   (Messaging, mkConfig Medium 3600 100); (Payout, mkConfig High 86400 5)].

Definition seed_defaults : M unit :=
  for_in defaults tt (λ d _, save (put_config d.1 d.2)).

Definition initialize (a : Address) : M unit :=
  o <- load admin ;;
  reject_if (bool_decide (is_Some o)) AlreadyInitialized ;;;
  require_auth a ;;;
  save (put_admin a) ;;;
  seed_defaults.

Definition require_admin (caller : Address) : M unit :=
  require_admin_of admin NotInitialized NotAdmin caller.

Definition set_action_config (caller : Address) (act : Action) (tier : RiskTier) (window maximum : Z) :
    M unit :=
  require_admin caller ;;;
  reject_if (window =? 0) InvalidWindow ;;;
  reject_if (maximum =? 0) InvalidMaxCount ;;;
  save (put_config act (mkConfig tier window maximum)) ;;;
  publish (CFGSET act tier window maximum).

Definition get_action_config (act : Action) : M ActionConfig := load (config_of act).

Definition grant_service_auth (caller service : Address) : M unit :=
  require_admin caller ;;;
  save (put_service_auth service true) ;;;
  publish (SVAUTGRT service).

Definition revoke_service_auth (caller service : Address) : M unit :=
  require_admin caller ;;;
  save (put_service_auth service false) ;;;
  publish (SVAUTRVK service).

Definition has_service_auth (service : Address) : M bool := load (granted service).

(** [env.events().publish(ev); return Err(err)] under [c]. *)
Definition refuse_if (c : bool) (ev : Event) (err : ContractError) : M unit :=
  if c then publish ev ;;; fail err else ret tt.

Definition require_service_auth (tier : RiskTier) (a : Address) (act : Action) (window_reset : Z) : M unit :=
  if guarded tier then
    ok <- has_service_auth a ;;
    refuse_if (negb ok) (SVAUREQ a act window_reset) ServiceAuthRequired
  else ret tt.

(** The bucket counter, raised with the first call of a bucket. *)
Definition track_bucket (current : Z) : M unit :=
  if current =? 0 then
    total <- load total_buckets ;;
    reject_if (MAX_BUCKETS <=? total) BucketLimitExceeded ;;;
    total <- ok_or (checked_add_u64 total 1) Overflow ;;
    save (put_bucket_count total)
  else ret tt.

Definition check_and_record (a : Address) (act : Action) : M Z :=
  require_auth a ;;;
  config <- get_action_config act ;;
  t <- now ;;
  window_id <- or_trap (checked_div_u64 t (window_seconds config)) ;;
  next_id <- ok_or (checked_add_u64 window_id 1) Overflow ;;
  window_reset <- ok_or (checked_mul_u64 next_id (window_seconds config)) Overflow ;;
  require_service_auth (risk_tier config) a act window_reset ;;;
  current <- load (used a act window_id) ;;
  refuse_if (max_count config <=? current)
    (RATELIM a act window_reset current (max_count config)) RateLimitExceeded ;;;
  next <- ok_or (checked_add_u32 current 1) Overflow ;;
  track_bucket current ;;;
  save (put_bucket (a, act, window_id) next) ;;;
  publish (RATEOK a act next (saturating_sub_u32 (max_count config) next)) ;;;
  ret (saturating_sub_u32 (max_count config) next).

Definition current_usage (a : Address) (act : Action) : M (Z * Z * Z) :=
  config <- get_action_config act ;;
  t <- now ;;
  window_id <- or_trap (checked_div_u64 t (window_seconds config)) ;;
  next_id <- or_trap (checked_add_u64 window_id 1) ;;
  window_reset <- or_trap (checked_mul_u64 next_id (window_seconds config)) ;;
  n <- load (used a act window_id) ;;
  ret (n, saturating_sub_u32 (max_count config) n, window_reset).

Inductive Call :=
| CInitialize (a : Address)
| CSetConfig (caller : Address) (act : Action) (tier : RiskTier) (window maximum : Z)
| CGrant (caller service : Address)
| CRevoke (caller service : Address)
| CCheck (a : Address) (act : Action).

Definition exec (c : Call) : M unit :=
  match c with
  | CInitialize a => initialize a
  | CSetConfig c act t n m => set_action_config c act t n m
  | CGrant c s => grant_service_auth c s
  | CRevoke c s => revoke_service_auth c s
  | CCheck a act => ignore (check_and_record a act)
  end.
End Contract.

(** Arguments of their declared width. *)
Definition valid (e : Env) (c : Call) : Prop :=
  0 ≤ timestamp e ≤ u64_max ∧
  match c with CSetConfig _ _ _ n m => 0 ≤ n ≤ u64_max ∧ 0 ≤ m ≤ u32_max | _ => True end.

(** ** The invariant *)

Definition config_ok (c : ActionConfig) : Prop :=
  0 < window_seconds c ≤ u64_max ∧ 0 < max_count c ≤ u32_max.

Record inv (st : Store) : Prop := {
  inv_configs a c : configs st !! a = Some c → config_ok c;
  inv_buckets k n : buckets st !! k = Some n → 0 < n ≤ u32_max;
  inv_count : total_buckets st = Z.of_nat (size (buckets st));
  inv_ceiling : total_buckets st ≤ MAX_BUCKETS
}.

Section Invariant.
Context {L : Type}.
Abbreviation W := (World L Store Event).
Implicit Types (w : W).

Lemma config_of_ok a st : inv st → config_ok (config_of a st).
Proof.
  intros Hi. unfold config_of. destruct (configs st !! a) as [c|] eqn:Hc; simpl.
  - by apply (inv_configs _ Hi a).
  - unfold config_ok, DEFAULT_WINDOW_SECONDS, DEFAULT_MAX_COUNT. simpl. range_lia.
Qed.

Lemma used_bounds a act k st : inv st → 0 ≤ used a act k st ≤ u32_max.
Proof.
  intros Hi. unfold used. destruct (buckets st !! (a, act, k)) as [n|] eqn:Hn; simpl; [|range_lia].
  apply (inv_buckets _ Hi) in Hn. lia.
Qed.

Lemma used_zero a act k st : inv st → used a act k st = 0 ↔ buckets st !! (a, act, k) = None.
Proof.
  intros Hi. unfold used. destruct (buckets st !! (a, act, k)) as [n|] eqn:Hn; simpl; [|done].
  apply (inv_buckets _ Hi) in Hn. split; [lia|done].
Qed.

(** Seeding writes the six default configurations. *)
Definition seeded (st : Store) : Store := foldl (λ st d, put_config d.1 d.2 st) st defaults.

Lemma seed_defaults_run e w :
  seed_defaults e w = Done (mkWorld (ledger w) (seeded (store w)) (log w)) tt.
Proof. done. Qed.

Lemma put_config_inv a c st : inv st → config_ok c → inv (put_config a c st).
Proof.
  intros [H1 H2 H3 H4] Hc. split; [|done..]. intros b d. simpl. rewrite lookup_insert.
  case_decide; [by intros [= <-]|by apply H1].
Qed.

Lemma seeded_inv st : inv st → inv (seeded st).
Proof.
  intros Hi. unfold seeded, defaults. simpl.
  repeat apply put_config_inv; try done; unfold config_ok; simpl; range_lia.
Qed.

Lemma refuse_if_done c ev err e w w' u :
  refuse_if c ev err e w = Done w' u → c = false ∧ w' = w.
Proof. unfold refuse_if. destruct c; intros Hrun; run_inv; done. Qed.

Lemma require_service_auth_done t a act r e w w' u :
  require_service_auth t a act r e w = Done w' u →
  w' = w ∧ (guarded t = true → granted a (store w) = true).
Proof.
  unfold require_service_auth. destruct (guarded t); intros Hrun; [|by run_inv].
  unfold has_service_auth in Hrun. run_inv. apply refuse_if_done in Hrun as [Hg ->]. by bool_prop.
Qed.

(** What a check that returns did: a first call of a window opens a bucket. *)
Definition recorded (k : Address * Action * Z) (n : Z) (st : Store) : Store :=
  put_bucket k (n + 1) (if n =? 0 then put_bucket_count (total_buckets st + 1) st else st).

Lemma track_bucket_done n e w w' u :
  track_bucket n e w = Done w' u →
  w' = mkWorld (ledger w) (if n =? 0 then put_bucket_count (total_buckets (store w) + 1) (store w)
    else store w) (log w) ∧ (n = 0 → total_buckets (store w) < MAX_BUCKETS).
Proof.
  unfold track_bucket. destruct (Z.eqb_spec n 0); intros Hrun; run_inv.
  - bool_prop. checked_prop. split; [done|lia].
  - split; [by destruct w|done].
Qed.

Lemma check_done a act e w w' r :
  0 ≤ timestamp e → inv (store w) →
  check_and_record a act e w = Done w' r →
  let config := config_of act (store w) in
  let k := timestamp e / window_seconds config in
  let n := used a act k (store w) in
  store w' = recorded (a, act, k) n (store w) ∧ r = max_count config - (n + 1) ∧ n < max_count config ∧
  (guarded (risk_tier config) = true → granted a (store w) = true) ∧
  (n = 0 → total_buckets (store w) < MAX_BUCKETS).
Proof.
  intros Ht Hi Hrun. cbv zeta. destruct (config_of_ok act _ Hi) as [Hwin Hmax].
  unfold check_and_record, get_action_config in Hrun. run_inv.
  rewrite checked_div_u64_Some in * by lia. simplify_eq.
  repeat match goal with
  | H : require_service_auth _ _ _ _ _ _ = Done _ _ |- _ => apply require_service_auth_done in H as [-> Hg]
  | H : refuse_if _ _ _ _ _ = Done _ _ |- _ => apply refuse_if_done in H as [Hle ->]
  | H : track_bucket _ _ _ = Done _ _ |- _ => apply track_bucket_done in H as [-> Hroom]
  end. run_inv. checked_prop. bool_prop.
  unfold saturating_sub_u32. split_and!; [done|lia|lia|done|done].
Qed.

Lemma counted_inv a act k st :
  inv st → used a act k st < u32_max → (used a act k st = 0 → total_buckets st < MAX_BUCKETS) →
  inv (recorded (a, act, k) (used a act k st) st).
Proof.
  intros Hi Hmax Hroom. pose proof (used_bounds a act k _ Hi) as Hn.
  pose proof (used_zero a act k _ Hi) as Hz. destruct Hi as [H1 H2 H3 H4].
  unfold recorded. split.
  - intros b c. by destruct (_ =? 0); apply H1.
  - intros key n. simpl. replace (buckets (if _ =? 0 then _ else st)) with (buckets st) by by destruct (_ =? 0).
    rewrite lookup_insert. case_decide; [|apply H2]. intros [= <-]. lia.
  - destruct (Z.eqb_spec (used a act k st) 0) as [H0|H0]; simpl; unfold total_buckets in *; simpl.
    + rewrite map_size_insert_None by by apply Hz. lia.
    + rewrite H3. rewrite map_size_insert.
      destruct (buckets st !! (a, act, k)) eqn:Hb; [done|]. exfalso. apply H0, Hz. done.
  - destruct (Z.eqb_spec (used a act k st) 0) as [H0|H0]; unfold total_buckets in *; simpl; [|done].
    specialize (Hroom H0). lia.
Qed.

Lemma rate_limits_step c e w w' u :
  valid e c → inv (store w) → exec c e w = Done w' u → inv (store w').
Proof.
  intros [Ht Hv] Hi Hrun. destruct c as [a|c act tier n m|c s|c s|a act]; simpl in Hrun.
  - unfold initialize in Hrun. run_inv. rewrite seed_defaults_run in Hrun. simplify_eq/=.
    apply seeded_inv. by destruct Hi.
  - unfold set_action_config, require_admin in Hrun. run_inv. bool_prop. simpl.
    apply put_config_inv; [done|]. unfold config_ok. simpl. lia.
  - unfold grant_service_auth, require_admin in Hrun. run_inv. by destruct Hi.
  - unfold revoke_service_auth, require_admin in Hrun. run_inv. by destruct Hi.
  - apply ignore_done in Hrun as [r Hrun]. apply check_done in Hrun as (-> & _ & Hlt & _ & Hroom); [|lia|done].
    destruct (config_of_ok act _ Hi) as [_ Hmax]. apply counted_inv; [done|lia|done].
Qed.

Definition deployed (w : W) : Prop := store w = mkStore None ∅ ∅ ∅ None.
Abbreviation Reach this := (reachable exec valid this (λ _ _, True) deployed).

Lemma rate_limits_inv this w : Reach this w → inv (store w).
Proof.
  apply (reachable_inv _ _ _ _ _ (λ w, inv (store w))).
  - intros w0 ->. by split.
  - intros c e w0 w1 u _ Hv. by apply rate_limits_step.
  - done.
Qed.

(** ** What a check answers *)

(** The log after a recorded check. *)
Definition after_check (a : Address) (act : Action) (w : W) (k n left : Z) : W :=
  mkWorld (ledger w) (recorded (a, act, k) n (store w)) (log w ++ [RATEOK a act (n + 1) left]).

Lemma track_bucket_run n e w :
  inv (store w) →
  track_bucket n e w =
    if (n =? 0) && (MAX_BUCKETS <=? total_buckets (store w)) then Failed w BucketLimitExceeded
    else Done (mkWorld (ledger w) (if n =? 0 then put_bucket_count (total_buckets (store w) + 1) (store w)
      else store w) (log w)) tt.
Proof.
  intros Hi. pose proof (inv_count _ Hi). pose proof (inv_ceiling _ Hi).
  unfold track_bucket. destruct (Z.eqb_spec n 0); [|by destruct w]. simpl.
  unfold bind, load, reject_if. destruct (_ <=? _); [done|]. simpl.
  unfold checked_add_u64. rewrite checked_in; [done|]. unfold MAX_BUCKETS in *. range_lia.
Qed.

(** Outcome of a check.  In every reachable world, with the actor's authorisation, a check
    never traps; it is refused, in this order, when the end of the window overflows, when a
    high-risk action lacks the service grant, when the window's limit is used up, or when a
    new counter would pass the ceiling, and every refusal leaves the world (the event log
    included) unchanged; otherwise it counts one call and returns what the window has left. *)
Theorem check_outcome this w e a act :
  Reach this w → 0 ≤ timestamp e ≤ u64_max → authorized e a = true →
  let config := config_of act (store w) in
  let k := timestamp e / window_seconds config in
  let n := used a act k (store w) in
  let left := max_count config - (n + 1) in
  invoke (check_and_record a act) e w =
    if u64_max <? (k + 1) * window_seconds config then (w, Errored Overflow)
    else if guarded (risk_tier config) && negb (granted a (store w)) then (w, Errored ServiceAuthRequired)
    else if max_count config <=? n then (w, Errored RateLimitExceeded)
    else if (n =? 0) && (MAX_BUCKETS <=? total_buckets (store w)) then (w, Errored BucketLimitExceeded)
    else (after_check a act w k n left, Returned left).
Proof.
  intros Hi%rate_limits_inv Ht Ha config k n left.
  pose proof (used_bounds a act k _ Hi) as Hn. destruct (config_of_ok act _ Hi) as [Hwin Hmax].
  fold config in Hwin, Hmax. fold n in Hn.
  assert (0 ≤ k ≤ timestamp e) as Hk.
  { split; [apply Z.div_pos; lia|]. apply Z.div_le_upper_bound; nia. }
  assert (checked_div_u64 (timestamp e) (window_seconds config) = Some k) as Hdiv
    by (apply checked_div_u64_Some; lia).
  assert (track_bucket n e w = if (n =? 0) && (MAX_BUCKETS <=? total_buckets (store w))
    then Failed w BucketLimitExceeded
    else Done (mkWorld (ledger w) (if n =? 0 then put_bucket_count (total_buckets (store w) + 1) (store w)
      else store w) (log w)) tt) as Htrack by (by apply track_bucket_run).
  unfold invoke, check_and_record, get_action_config, require_service_auth, has_service_auth, refuse_if.
  cbv [bind require_auth load now ok_or or_trap ret fail save publish].
  rewrite Ha. fold config. rewrite Hdiv. destruct (Z.ltb_spec u64_max ((k + 1) * window_seconds config)).
  { destruct (checked_add_u64 k 1) as [x|] eqn:Hx; [|done]. apply checked_Some in Hx as [-> _].
    unfold checked_mul_u64. by rewrite (proj2 (checked_None _ _ _)) by lia. }
  unfold checked_add_u64, checked_mul_u64. rewrite !checked_in by nia. 
  destruct (guarded (risk_tier config)), (granted a (store w)); simpl; try done; fold n.
  all: destruct (Z.leb_spec (max_count config) n); [done|]; simpl.
  all: unfold checked_add_u32; rewrite checked_in, Htrack by lia; destruct (_ && _); [done|].
  all: unfold after_check; simpl; unfold saturating_sub_u32; by rewrite Z.max_r by lia.
Qed.

(** ** What a window lets through *)

Definition configures (act : Action) (c : Call) : bool :=
  match c with CSetConfig _ x _ _ _ => bool_decide (x = act) | _ => false end.

(** [c] is a check of [act] by [a], made within window [k] of length [size]. *)
Definition checks (a : Address) (act : Action) (size k : Z) (e : Env) (c : Call) : bool :=
  match c with
  | CCheck b x => bool_decide (b = a ∧ x = act) && (timestamp e / size =? k)
  | _ => false
  end.

Definition settled (a : Address) (act : Action) (k bound : Z) (config : ActionConfig) (w : W) : Prop :=
  inv (store w) ∧ is_Some (admin (store w)) ∧ config_of act (store w) = config ∧
  used a act k (store w) ≤ bound.

Lemma used_recorded a act k b x j n st :
  used a act k (recorded (b, x, j) n st) =
  if decide ((b, x, j) = (a, act, k)) then n + 1 else used a act k st.
Proof.
  unfold recorded, used. simpl.
  replace (buckets (if n =? 0 then _ else st)) with (buckets st) by by destruct (n =? 0).
  rewrite lookup_insert. by case_decide.
Qed.

Lemma settled_step a act k bound config e c w w' u :
  max_count config ≤ bound → settled a act k bound config w →
  valid e c → configures act c = false → exec c e w = Done w' u →
  settled a act k bound config w' ∧
  used a act k (store w') =
    used a act k (store w) + (if checks a act (window_seconds config) k e c then 1 else 0).
Proof.
  intros Hb (Hi & Had & Hcfg & Hu) Hv Hc Hrun. pose proof (rate_limits_step _ _ _ _ _ Hv Hi Hrun) as Hi'.
  enough (is_Some (admin (store w')) ∧ config_of act (store w') = config ∧
    used a act k (store w') ≤ bound ∧ used a act k (store w') =
    used a act k (store w) + (if checks a act (window_seconds config) k e c then 1 else 0))
    as (? & ? & ? & ?) by done.
  destruct Hv as [Ht Hv]. destruct c as [b|b x tier n m|b s|b s|b x]; simpl in Hrun, Hc |- *.
  - unfold initialize in Hrun. run_inv. by bool_prop.
  - unfold set_action_config, require_admin in Hrun. run_inv. bool_prop. simpl.
    unfold config_of, used in *. simpl. rewrite lookup_insert_ne by done. split_and!; [done..|lia].
  - unfold grant_service_auth, require_admin in Hrun. run_inv. simpl. split_and!; [done..|]. unfold used. simpl. lia.
  - unfold revoke_service_auth, require_admin in Hrun. run_inv. simpl. split_and!; [done..|]. unfold used. simpl. lia.
  - apply ignore_done in Hrun as [r Hrun]. apply check_done in Hrun as (Hst & _ & Hlt & _ & _); [|lia|done].
    rewrite Hst in *. rewrite used_recorded.
    assert (config_of act (recorded (b, x, timestamp e / window_seconds (config_of x (store w)))
      (used b x (timestamp e / window_seconds (config_of x (store w))) (store w)) (store w)) = config).
    { unfold recorded, config_of in *. simpl. by destruct (_ =? 0). }
    assert (is_Some (admin (recorded (b, x, timestamp e / window_seconds (config_of x (store w)))
      (used b x (timestamp e / window_seconds (config_of x (store w))) (store w)) (store w)))).
    { unfold recorded. simpl. by destruct (_ =? 0). }
    case_decide as Heq; simplify_eq.
    + rewrite bool_decide_true by done. rewrite Z.eqb_refl. simpl. split_and!; [done..|lia|lia].
    + case_bool_decide as Hax; simpl; [|split_and!; [done..|lia]]. destruct Hax as [-> ->].
      destruct (Z.eqb_spec (timestamp e / window_seconds (config_of act (store w))) k); [congruence|].
      split_and!; [done..|lia].
Qed.

(** C13: The limit of a window.  From any reachable world of an initialised contract, over any
    sequence of calls by anyone that does not reconfigure an action, the checks of that action
    by one actor that returned within one window are exactly what its counter gained, and with
    what the window had used before they never exceed the configured maximum. *)
Theorem window_limit this w calls a act k :
  Reach this w → is_Some (admin (store w)) →
  Forall (λ ec, valid ec.1 ec.2 ∧ configures act ec.2 = false) calls →
  let config := config_of act (store w) in
  let n := accepted exec (checks a act (window_seconds config) k) calls w in
  used a act k (store (run_calls exec calls w)) = used a act k (store w) + n ∧
  n ≤ Z.max 0 (max_count config - used a act k (store w)).
Proof.
  intros Hi%rate_limits_inv Had Hcalls config n. rewrite Forall_forall in Hcalls.
  set (bound := Z.max (max_count config) (used a act k (store w))).
  destruct (accepted_counts exec (settled a act k bound config) (λ w, used a act k (store w))
    (checks a act (window_seconds config) k) calls w) as [(_ & _ & _ & Hle) Heq].
  - intros e c w0 w1 u H0 [Hv Hc]%Hcalls. apply settled_step; [lia|done..].
  - split_and!; [done..|lia].
  - fold n in Heq. split; [done|]. lia.
Qed.

(** The ceiling on counters is for ever.  The number of counters never falls (a counter of a
    past window is never removed), so once it has reached the ceiling no call opens a counter
    in any later window: whoever has not been counted in a window is refused in it. *)
Theorem bucket_ceiling w calls a act k :
  MAX_BUCKETS ≤ total_buckets (store w) → used a act k (store w) = 0 → inv (store w) →
  Forall (λ ec, valid ec.1 ec.2) calls →
  let w' := run_calls exec calls w in
  used a act k (store w') = 0 ∧
  ∀ e, 0 ≤ timestamp e ≤ u64_max → timestamp e / window_seconds (config_of act (store w')) = k →
    ∀ r, (invoke (check_and_record a act) e w').2 ≠ Returned r.
Proof.
  intros Hfull Hz Hi Hcalls w'. rewrite Forall_forall in Hcalls.
  set (I w := inv (store w) ∧ MAX_BUCKETS ≤ total_buckets (store w) ∧ used a act k (store w) = 0).
  destruct (run_calls_inv exec I calls w) as (Hi' & Hfull' & Hz').
  - intros e c w0 w1 u (Hi0 & Hf0 & Hu0) Hv%Hcalls Hrun. pose proof (rate_limits_step _ _ _ _ _ Hv Hi0 Hrun).
    split; [done|]. destruct Hv as [Ht Hv]. simpl in Ht. destruct c as [b|b x tier n m|b s|b s|b x]; simpl in Hrun.
    + unfold initialize in Hrun. run_inv. rewrite seed_defaults_run in Hrun. by simplify_eq/=.
    + unfold set_action_config, require_admin in Hrun. by run_inv.
    + unfold grant_service_auth, require_admin in Hrun. by run_inv.
    + unfold revoke_service_auth, require_admin in Hrun. by run_inv.
    + apply ignore_done in Hrun as [r Hrun]. apply check_done in Hrun as (Hst & _ & _ & _ & Hroom); [|lia|done].
      rewrite Hst, used_recorded. unfold recorded, total_buckets in *.
      destruct (Z.eqb_spec (used b x (timestamp e / window_seconds (config_of x (store w0))) (store w0)) 0);
        [exfalso; lia|]. simpl. split; [done|]. case_decide; [by simplify_eq|done].
  - by split.
  - fold w' in Hi', Hfull', Hz'. split; [done|]. intros e Ht Hk r Hr.
    destruct (check_and_record a act e w') as [w1 x| |] eqn:Hrun; unfold invoke in Hr; rewrite Hrun in Hr; try done.
    apply check_done in Hrun as (_ & _ & _ & _ & Hroom); [|lia|done]. rewrite Hk in Hroom. specialize (Hroom Hz'). lia.
Qed.
End Invariant.

(** ** Concrete runs *)
Module Runs.
Definition this : Address := addr 0.
Definition boss : Address := addr 1.
Definition student : Address := addr 2.
Definition at_time (t : Z) : Env := mkEnv t this (λ _, true).
Definition w0 : World unit Store Event := mkWorld tt (mkStore None ∅ ∅ ∅ None) [].
Definition w1 : World unit Store Event := run_calls exec [(at_time 1, CInitialize boss)] w0.
(** Eleven applications at the end of a day, against a limit of ten; then ten more at the
    start of the next. *)
Definition burst : list (Env * Call) := replicate 11 (at_time 86399, CCheck student Application).
Definition next_burst : list (Env * Call) := replicate 11 (at_time 86400, CCheck student Application).
(** A world in which [m] windows after the first have been counted for one student. *)
Definition counters (m : Z) : list (Address * Action * Z * Z) :=
  (λ k, ((student, Upload, k), 1)) <$> seqZ 1 m.
Definition full_world (m : Z) : World unit Store Event :=
  mkWorld tt (mkStore (Some boss) ∅ ∅ (list_to_map (counters m)) (Some m)) [].

Abbreviation Reach := (reachable exec valid this (λ _ _, True) deployed).
Lemma rate_w1_reach : Reach w1.
Proof. apply reachable_run; [by apply reach_init|]. repeat constructor; simpl; range_lia. Qed.

Lemma counters_keys m : (counters m).*1 = (λ k, (student, Upload, k)) <$> seqZ 1 m.
Proof. unfold counters. rewrite <-list_fmap_compose. done. Qed.

Lemma full_world_inv m : 0 ≤ m ≤ MAX_BUCKETS → inv (store (full_world m)).
Proof.
  intros Hm. assert (NoDup (counters m).*1) as Hnd.
  { rewrite counters_keys. apply NoDup_fmap_2; [by intros x y [= ->]|apply NoDup_seqZ]. }
  split; simpl; [done| | |unfold total_buckets; simpl; lia].
  - intros k n Hk. apply elem_of_list_to_map_2 in Hk. unfold counters in Hk.
    apply list_elem_of_fmap in Hk as (j & [= _ ->] & _). range_lia.
  - unfold total_buckets. simpl. rewrite map_size_list_to_map by done. unfold counters.
    rewrite length_fmap, length_seqZ. lia.
Qed.

Lemma full_world_used m : used student Upload 0 (store (full_world m)) = 0.
Proof.
  unfold used. simpl. rewrite not_elem_of_list_to_map_1; [reflexivity|]. rewrite counters_keys.
  intros (j & [= <-] & Hj%elem_of_seqZ)%list_elem_of_fmap. lia.
Qed.

Lemma bucket_ceiling_witness :
  ∀ r, (invoke (check_and_record student Upload) (at_time 100) (full_world MAX_BUCKETS)).2 ≠ Returned r.
Proof.
  intros r. apply (bucket_ceiling (full_world MAX_BUCKETS) [] student Upload 0).
  - reflexivity.
  - apply full_world_used.
  - apply full_world_inv. unfold MAX_BUCKETS. lia.
  - constructor.
  - simpl. range_lia.
  - reflexivity.
Defined.

Lemma check_outcome_witness :
  invoke (check_and_record student Payout) (at_time 100) w1 = (w1, Errored ServiceAuthRequired) ∧
  (invoke (check_and_record student Upload) (at_time 100) w1).2 = Returned 19.
Proof.
  split.
  - rewrite (check_outcome this w1 (at_time 100) student Payout rate_w1_reach ltac:(simpl; range_lia) eq_refl).
    vm_compute. reflexivity.
  - rewrite (check_outcome this w1 (at_time 100) student Upload rate_w1_reach ltac:(simpl; range_lia) eq_refl).
    vm_compute. reflexivity.
Defined.

Lemma window_limit_witness :
  let n := accepted exec (checks student Application 86400 0) (burst ++ next_burst) w1 in
  n = 10 ∧ n ≤ Z.max 0 (10 - used student Application 0 (store w1)) ∧
  accepted exec (checks student Application 86400 1) (burst ++ next_burst) w1 = 10.
Proof.
  cbv zeta. split; [vm_compute; reflexivity|]. split; [|vm_compute; reflexivity].
  apply (window_limit this w1 (burst ++ next_burst) student Application 0 rate_w1_reach).
  - vm_compute. by eexists.
  - apply Forall_forall. intros ec. unfold burst, next_burst. rewrite elem_of_app, !elem_of_replicate.
    intros [[-> _]|[-> _]]; (split; [|reflexivity]); split; simpl; range_lia.
Defined.
End Runs.
