(* ===== verification/Idempotency.v ===== *)
(** * Idempotency keys ([contracts/scholarship-idempotency/src/lib.rs])

    One record per actor, operation and key: created pending, completed once.  The theorems
    count what the calls of any history can do to one key, tie the pending counter to the
    records, and give the answer of a creation on every branch. *)
From S2P Require Import Prelude Machine Host.

Definition MAX_KEY_TTL_SECONDS : Z := 7776000.
Definition DEFAULT_KEY_TTL_SECONDS : Z := 86400.
Definition MAX_PENDING_PER_ACTOR_OP : Z := 32.

Inductive ContractError :=
| NotInitialized | AlreadyInitialized | NotAdmin | KeyActorMismatch | KeyInFlight | KeyNotFound
| KeyAlreadyCompleted | TtlTooLong | InvalidTtl | PendingLimitExceeded | Overflow.

Inductive Operation :=
| Submission | Decision | Acceptance | Milestone | Payout | Refund | Notification.

#[export] Instance Operation_eq_dec : EqDecision Operation.
Proof. solve_decision. Defined.

Definition as_symbol (o : Operation) : Symbol :=
  match o with
  | Submission => "submission" | Decision => "decision" | Acceptance => "acceptance"
  | Milestone => "milestone" | Payout => "payout" | Refund => "refund"
  | Notification => "notification"
  end.

Inductive KeyStatus := Pending | Succeeded | Failed.
#[export] Instance KeyStatus_eq_dec : EqDecision KeyStatus.
Proof. solve_decision. Defined.

Record IdempotencyRecord := mkRecord {
  key : BytesN32; actor : Address; operation : Symbol; status : KeyStatus;
  created_at : Z; expires_at : Z; completed_at : Z; result_hash : BytesN32
}.

Inductive Event :=
| IDMPNEW (a : Address) (op : Symbol) (k : BytesN32)
| IDMPOK (a : Address) (op : Symbol) (k : BytesN32)
| IDMPFAIL (a : Address) (op : Symbol) (k : BytesN32).

Record Store := mkStore {
  admin : option Address;
  records : gmap (Address * Symbol * Z) IdempotencyRecord;
  pending_counts : gmap (Address * Symbol) Z
}.

Definition put_admin (a : Address) (st : Store) : Store :=
  mkStore (Some a) (records st) (pending_counts st).
Definition put_record (k : Address * Symbol * Z) (r : IdempotencyRecord) (st : Store) : Store :=
  mkStore (admin st) (<[k := r]> (records st)) (pending_counts st).
Definition put_pending_count (k : Address * Symbol) (n : Z) (st : Store) : Store :=
  mkStore (admin st) (records st) (<[k := n]> (pending_counts st)).
Definition pending_count (k : Address * Symbol) (st : Store) : Z := default 0 (pending_counts st !! k).

(** The refusal a stored record causes. *)
Definition refusal_of (s : KeyStatus) : ContractError :=
  match s with Pending => KeyInFlight | Succeeded | Failed => KeyAlreadyCompleted end.

Section Contract.
Context {L : Type}.
Abbreviation M := (Contract L Store Event ContractError).

Definition initialize (a : Address) : M unit :=
  o <- load admin ;;
  reject_if (bool_decide (is_Some o)) AlreadyInitialized ;;;
  require_auth a ;;;
  save (put_admin a).

Definition require_admin (caller : Address) : M unit :=
  require_admin_of admin NotInitialized NotAdmin caller.

Definition transfer_admin (caller new_admin : Address) : M unit :=
  require_admin caller ;;;
  save (put_admin new_admin).

Definition effective_ttl (ttl : Z) : M Z :=
  if ttl =? 0 then ret DEFAULT_KEY_TTL_SECONDS
  else reject_if (MAX_KEY_TTL_SECONDS <? ttl) TtlTooLong ;;; ret ttl.

(** A known key is refused. *)
Definition refuse_known (a : Address) (o : option IdempotencyRecord) : M unit :=
  match o with
  | Some existing =>
      reject_if (negb (bool_decide (actor existing = a))) KeyActorMismatch ;;;
      fail (refusal_of (status existing))
  | None => ret tt
  end.

Definition create_key (a : Address) (op : Operation) (k : BytesN32) (ttl : Z) : M IdempotencyRecord :=
  require_auth a ;;;
  ttl <- effective_ttl ttl ;;
  existing <- load (λ st, records st !! (a, as_symbol op, k)) ;;
  refuse_known a existing ;;;
  count <- load (pending_count (a, as_symbol op)) ;;
  reject_if (MAX_PENDING_PER_ACTOR_OP <=? count) PendingLimitExceeded ;;;
  t <- now ;;
  expires <- ok_or (checked_add_u64 t ttl) Overflow ;;
  let record := mkRecord k a (as_symbol op) Pending t expires 0 0 in
  save (put_record (a, as_symbol op, k) record) ;;;
  new_count <- ok_or (checked_add_u32 count 1) Overflow ;;
  save (put_pending_count (a, as_symbol op) new_count) ;;;
  publish (IDMPNEW a (as_symbol op) k) ;;;
  ret record.

(** [sym], the topic of a transition. *)
Definition transition_event (s : KeyStatus) (a : Address) (op : Symbol) (k : BytesN32) : Event :=
  match s with
  | Succeeded => IDMPOK a op k | Failed => IDMPFAIL a op k | Pending => IDMPNEW a op k
  end.

Definition completed (s : KeyStatus) (t : Z) (result : BytesN32) (r : IdempotencyRecord) :
    IdempotencyRecord :=
  mkRecord (key r) (actor r) (operation r) s (created_at r) (expires_at r) t result.

Definition decrement_pending (a : Address) (op : Symbol) : M unit :=
  count <- load (pending_count (a, op)) ;;
  if 0 <? count then save (put_pending_count (a, op) (count - 1)) else ret tt.

Definition transition (a : Address) (op : Symbol) (k : BytesN32) (s : KeyStatus) (result : BytesN32) :
    M unit :=
  o <- load (λ st, records st !! (a, op, k)) ;;
  record <- ok_or o KeyNotFound ;;
  reject_if (negb (bool_decide (actor record = a))) KeyActorMismatch ;;;
  reject_if (negb (bool_decide (status record = Pending))) KeyAlreadyCompleted ;;;
  t <- now ;;
  save (put_record (a, op, k) (completed s t result record)) ;;;
  decrement_pending a op ;;;
  publish (transition_event s a op k).

Definition complete_success (a : Address) (op : Operation) (k result : BytesN32) : M unit :=
  require_auth a ;;;
  transition a (as_symbol op) k Succeeded result.

Definition complete_failure (a : Address) (op : Operation) (k result : BytesN32) : M unit :=
  require_auth a ;;;
  transition a (as_symbol op) k Failed result.

Definition get_record (a : Address) (op : Operation) (k : BytesN32) : M IdempotencyRecord :=
  o <- load (λ st, records st !! (a, as_symbol op, k)) ;;
  ok_or o KeyNotFound.

Definition has_status (s : KeyStatus) (o : option IdempotencyRecord) : bool :=
  match o with Some r => bool_decide (status r = s) | None => false end.
Definition is_in_flight (a : Address) (op : Operation) (k : BytesN32) : M bool :=
  load (λ st, has_status Pending (records st !! (a, as_symbol op, k))).
Definition is_succeeded (a : Address) (op : Operation) (k : BytesN32) : M bool :=
  load (λ st, has_status Succeeded (records st !! (a, as_symbol op, k))).

Inductive Call :=
| CInitialize (a : Address)
| CTransferAdmin (caller new_admin : Address)
| CCreate (a : Address) (op : Operation) (k : BytesN32) (ttl : Z)
| CSuccess (a : Address) (op : Operation) (k result : BytesN32)
| CFailure (a : Address) (op : Operation) (k result : BytesN32).

Definition exec (c : Call) : M unit :=
  match c with
  | CInitialize a => initialize a
  | CTransferAdmin c a => transfer_admin c a
  | CCreate a op k ttl => ignore (create_key a op k ttl)
  | CSuccess a op k r => complete_success a op k r
  | CFailure a op k r => complete_failure a op k r
  end.
End Contract.

Definition valid (e : Env) (c : Call) : Prop := 0 ≤ timestamp e ≤ u64_max.

(** ** The invariant *)

(** One for a pending record of [a] and [op]. *)
Definition pending_of (a : Address) (op : Symbol) (k : Address * Symbol * Z) (r : IdempotencyRecord) : Z :=
  if bool_decide (k.1 = (a, op)) && bool_decide (status r = Pending) then 1 else 0.

Record inv (st : Store) : Prop := {
  inv_keyed a op k r : records st !! (a, op, k) = Some r → actor r = a ∧ operation r = op ∧ key r = k;
  inv_pending a op : pending_count (a, op) st = map_sum (pending_of a op) (records st);
  inv_bound a op : pending_count (a, op) st ≤ MAX_PENDING_PER_ACTOR_OP
}.

Section Invariant.
Context {L : Type}.
Abbreviation W := (World L Store Event).
Implicit Types (w : W).

Lemma pending_count_nonneg a op st : inv st → 0 ≤ pending_count (a, op) st.
Proof.
  intros Hi. rewrite (inv_pending _ Hi). apply map_sum_nonneg. intros k r _.
  unfold pending_of. by destruct (_ && _).
Qed.

Lemma effective_ttl_done n e w w' ttl :
  effective_ttl n e w = Done w' ttl →
  w' = w ∧ ttl = (if n =? 0 then DEFAULT_KEY_TTL_SECONDS else n) ∧ (n = 0 ∨ n ≤ MAX_KEY_TTL_SECONDS).
Proof.
  unfold effective_ttl. destruct (Z.eqb_spec n 0); intros Hrun; run_inv; [by auto|].
  bool_prop. auto.
Qed.

Lemma effective_ttl_run n e w :
  effective_ttl n e w =
    if 7776000 <? n then Host.Failed w TtlTooLong else Done w (if n =? 0 then 86400 else n).
Proof.
  unfold effective_ttl. destruct (Z.eqb_spec n 0) as [->|]; [done|].
  unfold bind, reject_if, MAX_KEY_TTL_SECONDS. by destruct (_ <? _).
Qed.

(** What a creation that returns wrote. *)
Definition created (a : Address) (op : Symbol) (k : BytesN32) (r : IdempotencyRecord) (st : Store) : Store :=
  put_pending_count (a, op) (pending_count (a, op) st + 1) (put_record (a, op, k) r st).

Lemma create_done a op k n e w w' r :
  create_key a op k n e w = Done w' r →
  store w' = created a (as_symbol op) k r (store w) ∧
  records (store w) !! (a, as_symbol op, k) = None ∧
  pending_count (a, as_symbol op) (store w) < MAX_PENDING_PER_ACTOR_OP ∧
  r = mkRecord k a (as_symbol op) Pending (timestamp e)
    (timestamp e + (if n =? 0 then DEFAULT_KEY_TTL_SECONDS else n)) 0 0.
Proof.
  intros Hrun. unfold create_key in Hrun. run_inv.
  match goal with H : effective_ttl _ _ _ = _ |- _ => apply effective_ttl_done in H as (-> & -> & _) end.
  match goal with H : refuse_known _ ?o _ _ = _ |- _ => destruct o eqn:Hr; unfold refuse_known in H end;
    run_inv. checked_prop. bool_prop. done.
Qed.

(** What a completion that returns wrote. *)
Definition closed (a : Address) (op : Symbol) (k : BytesN32) (r : IdempotencyRecord) (st : Store) : Store :=
  put_pending_count (a, op) (pending_count (a, op) st - 1) (put_record (a, op, k) r st).

Lemma pending_decrement_done a op e w w' u :
  0 < pending_count (a, op) (store w) →
  decrement_pending a op e w = Done w' u →
  w' = mkWorld (ledger w) (put_pending_count (a, op) (pending_count (a, op) (store w) - 1) (store w)) (log w).
Proof.
  intros Hpos Hrun. unfold decrement_pending in Hrun. run_inv.
  rewrite (proj2 (Z.ltb_lt _ _) Hpos) in Hrun. by run_inv.
Qed.

Lemma pending_positive a op k r st :
  inv st → records st !! (a, op, k) = Some r → status r = Pending → 0 < pending_count (a, op) st.
Proof.
  intros Hi Hr Hs. rewrite (inv_pending _ Hi).
  assert (at_key (pending_of a op) (records st) (a, op, k) = 1) as H1.
  { unfold at_key. rewrite Hr. unfold pending_of. simpl. by rewrite !bool_decide_true. }
  enough (1 ≤ map_sum (pending_of a op) (records st)) by lia. rewrite <-H1.
  apply at_key_le_map_sum. intros ? ? _. unfold pending_of. by destruct (_ && _).
Qed.

Lemma transition_done a op k s result e w w' u :
  inv (store w) → transition a op k s result e w = Done w' u →
  ∃ r, records (store w) !! (a, op, k) = Some r ∧ status r = Pending ∧
    store w' = closed a op k (completed s (timestamp e) result r) (store w).
Proof.
  intros Hi Hrun. unfold transition in Hrun. run_inv. bool_prop.
  match goal with H : records _ !! _ = Some ?r |- _ => exists r; split; [done|]; rename H into Hr end.
  split; [done|].
  match goal with H : decrement_pending _ _ _ _ = _ |- _ => apply pending_decrement_done in H as -> end; [done|].
  change (0 < pending_count (a, op) (store w)). by eapply pending_positive.
Qed.

Lemma as_symbol_inj op op' : as_symbol op = as_symbol op' → op = op'.
Proof. by destruct op, op'. Qed.

(** Writing a record changes the pending records by its own. *)
Lemma pending_put a op b op' k r st :
  map_sum (pending_of b op') (<[(a, op, k) := r]> (records st)) =
  map_sum (pending_of b op') (records st) - at_key (pending_of b op') (records st) (a, op, k) +
    (if bool_decide ((a, op) = (b, op')) && bool_decide (status r = Pending) then 1 else 0).
Proof. by rewrite map_sum_insert. Qed.

Lemma created_inv a op k r st :
  inv st → records st !! (a, op, k) = None → pending_count (a, op) st < MAX_PENDING_PER_ACTOR_OP →
  status r = Pending → actor r = a → operation r = op → key r = k → inv (created a op k r st).
Proof.
  intros [H1 H2 H3] Hnew Hlt Hs Ha Ho Hk. split.
  - intros a' op' k' r'. simpl. rewrite lookup_insert. case_decide; [|apply H1]. intros. by simplify_eq.
  - intros a' op'. unfold pending_count in *. simpl. rewrite pending_put. unfold at_key. rewrite Hnew, lookup_insert.
    specialize (H2 a' op'). destruct (decide ((a, op) = (a', op'))) as [Heq|Hne]; simplify_eq.
    + rewrite !bool_decide_true by done. simpl. unfold pending_count. lia.
    + rewrite bool_decide_false by done. simpl. lia.
  - intros a' op'. unfold pending_count in *. simpl. rewrite lookup_insert. case_decide; simplify_eq; simpl; [unfold pending_count; lia|apply H3].
Qed.

Lemma closed_inv a op k r r' st :
  inv st → records st !! (a, op, k) = Some r → status r = Pending → status r' ≠ Pending →
  actor r' = actor r → operation r' = operation r → key r' = key r → inv (closed a op k r' st).
Proof.
  intros [H1 H2 H3] Hr Hs Hs' Ha Ho Hk. split.
  - intros a' op' k' r''. simpl. rewrite lookup_insert. case_decide; [|apply H1].
    intros. simplify_eq. rewrite Ha, Ho, Hk. by apply H1.
  - intros a' op'. unfold pending_count in *. simpl. rewrite pending_put. unfold at_key. rewrite Hr, lookup_insert.
    unfold pending_of at 2. simpl. specialize (H2 a' op').
    rewrite (bool_decide_false (status r' = Pending)), andb_false_r by done.
    rewrite (bool_decide_true (status r = Pending)), andb_true_r by done.
    destruct (decide ((a, op) = (a', op'))) as [Heq|Hne]; simplify_eq.
    + rewrite bool_decide_true by done. simpl. unfold pending_count. lia.
    + rewrite bool_decide_false by done. simpl. lia.
  - intros a' op'. specialize (H3 a' op'). unfold pending_count in *. simpl. rewrite lookup_insert.
    unfold pending_count; case_decide; simplify_eq; simpl; lia.
Qed.

(** The effect of a call that returns. *)
Inductive effect (e : Env) (st : Store) : Call → Store → Prop :=
| E_admin c st' :
    match c with CInitialize _ | CTransferAdmin _ _ => True | _ => False end →
    records st' = records st → pending_counts st' = pending_counts st → effect e st c st'
| E_create a op k n r :
    records st !! (a, as_symbol op, k) = None → pending_count (a, as_symbol op) st < MAX_PENDING_PER_ACTOR_OP →
    status r = Pending → actor r = a → operation r = as_symbol op → key r = k →
    effect e st (CCreate a op k n) (created a (as_symbol op) k r st)
| E_close c a op k s result r :
    c = CSuccess a op k result ∧ s = Succeeded ∨ c = CFailure a op k result ∧ s = Failed →
    records st !! (a, as_symbol op, k) = Some r → status r = Pending →
    effect e st c (closed a (as_symbol op) k (completed s (timestamp e) result r) st).

Lemma call_effect c e w w' u :
  inv (store w) → exec c e w = Done w' u → effect e (store w) c (store w').
Proof.
  intros Hi Hrun. destruct c as [a|c a|a op k n|a op k r|a op k r]; simpl in Hrun.
  - unfold initialize in Hrun. run_inv. by apply E_admin.
  - unfold transfer_admin, require_admin in Hrun. run_inv. by apply E_admin.
  - apply ignore_done in Hrun as [r Hrun]. apply create_done in Hrun as (-> & Hn & Hlt & ->). by apply E_create.
  - unfold complete_success in Hrun. run_inv. apply transition_done in Hrun as (x & Hx & Hp & ->); [|done].
    eapply E_close; eauto.
  - unfold complete_failure in Hrun. run_inv. apply transition_done in Hrun as (x & Hx & Hp & ->); [|done].
    eapply E_close; eauto.
Qed.

Lemma key_effect_inv e st c st' : inv st → effect e st c st' → inv st'.
Proof.
  intros Hi [c' st'' _ Hr Hp|a op k n r Hn Hlt Hs Ha Ho Hk|c' a op k s result r Hc Hr Hs].
  - destruct Hi as [H1 H2 H3]. split; unfold pending_count in *; by rewrite ?Hr, ?Hp.
  - by apply created_inv.
  - apply (closed_inv _ _ _ r); try done. simpl. by destruct Hc as [[_ ->]|[_ ->]].
Qed.

Definition deployed (w : W) : Prop := store w = mkStore None ∅ ∅.
Abbreviation Reach this := (reachable exec valid this (λ _ _, True) deployed).

Lemma idempotency_inv this w : Reach this w → inv (store w).
Proof.
  apply (reachable_inv _ _ _ _ _ (λ w, inv (store w))).
  - intros w0 ->. by split.
  - intros c e w0 w1 u _ _ Hi Hrun. by eapply key_effect_inv, call_effect.
  - done.
Qed.

(** The pending counter.  In every reachable world the counter of an actor and operation is
    the number of its pending records, at most 32, and every record is filed under its own
    actor, operation and key, so a completion never finds it at zero and no call ever reports
    a key of another actor. *)
Theorem pending_count_exact this w a op :
  Reach this w →
  pending_count (a, op) (store w) = map_sum (pending_of a op) (records (store w)) ∧
  pending_count (a, op) (store w) ≤ 32 ∧
  ∀ k r, records (store w) !! (a, op, k) = Some r → actor r = a ∧ operation r = op ∧ key r = k.
Proof.
  intros Hi%idempotency_inv. split; [apply (inv_pending _ Hi)|]. split; [apply (inv_bound _ Hi)|].
  intros k r. apply (inv_keyed _ Hi).
Qed.

(** ** One outcome per key *)

Definition creates (a : Address) (op : Operation) (k : BytesN32) (e : Env) (c : Call) : bool :=
  match c with CCreate b o j _ => bool_decide (b = a ∧ o = op ∧ j = k) | _ => false end.
Definition completes (a : Address) (op : Operation) (k : BytesN32) (e : Env) (c : Call) : bool :=
  match c with
  | CSuccess b o j _ | CFailure b o j _ => bool_decide (b = a ∧ o = op ∧ j = k)
  | _ => false
  end.

(** How far the key has come: creations and completions so far, at most one each. *)
Definition created_times (o : option IdempotencyRecord) : Z := if o then 1 else 0.
Definition completed_times (o : option IdempotencyRecord) : Z :=
  match o with Some r => if bool_decide (status r = Pending) then 0 else 1 | None => 0 end.

Lemma effect_key e st c st' a op k :
  effect e st c st' →
  let o := records st !! (a, as_symbol op, k) in
  let o' := records st' !! (a, as_symbol op, k) in
  created_times o' = created_times o + (if creates a op k e c then 1 else 0) ∧
  completed_times o' = completed_times o + (if completes a op k e c then 1 else 0) ∧
  (o' = o ∨ o = None ∨ ∃ r s t h, o = Some r ∧ status r = Pending ∧ o' = Some (completed s t h r)).
Proof.
  assert (∀ b o' j, bool_decide (b = a ∧ o' = op ∧ j = k) = bool_decide ((b, as_symbol o', j) = (a, as_symbol op, k)))
    as Hdec.
  { intros b o' j. apply bool_decide_ext. split; [by intros (-> & -> & ->)|].
    by intros [= -> ->%as_symbol_inj ->]. }
  intros [c' st'' Hc Hr _|b o' j n r Hn _ Hs _ _ _|c' b o' j s result r Hc Hr Hs]; simpl.
  - rewrite Hr. split_and!; [|..|by left]; destruct c'; try done; simpl; lia.
  - rewrite lookup_insert, Hdec. destruct (decide ((b, as_symbol o', j) = (a, as_symbol op, k))) as [Heq|Hne].
    + rewrite bool_decide_true by done. rewrite <-Heq, Hn. simpl. rewrite bool_decide_true by done. auto.
    + rewrite bool_decide_false by done. split_and!; [lia..|by left].
  - rewrite lookup_insert. assert (completes a op k e c' = bool_decide ((b, as_symbol o', j) = (a, as_symbol op, k)) ∧
      creates a op k e c' = false ∧ s ≠ Pending) as (-> & -> & Hsp).
    { rewrite <-Hdec. by destruct Hc as [[-> ->]|[-> ->]]. }
    destruct (decide ((b, as_symbol o', j) = (a, as_symbol op, k))) as [Heq|Hne].
    + rewrite bool_decide_true by done. rewrite <-Heq, Hr. simpl. rewrite (bool_decide_true (status r = Pending)) by done.
      rewrite bool_decide_false by done. split_and!; [done..|]. right; right. by exists r, s, (timestamp e), result.
    + rewrite bool_decide_false by done. split_and!; [lia..|by left].
Qed.

(** What later calls keep of a key: a completed record for ever, otherwise the terms of its
    creation. *)
Definition keeps (o : option IdempotencyRecord) (o' : option IdempotencyRecord) : Prop :=
  match o with
  | Some r => ∃ r', o' = Some r' ∧ expires_at r' = expires_at r ∧ created_at r' = created_at r ∧
      (status r ≠ Pending → r' = r)
  | None => True
  end.

(** C11: One outcome per key.  Over any sequence of calls by anyone from any reachable world, at
    most one creation of a key of an actor and operation returns and at most one completion,
    a known key is never created again, a completed record never changes, and a completion
    never precedes a creation. *)
Theorem one_outcome_per_key this w calls a op k :
  Reach this w → Forall (λ ec, valid ec.1 ec.2) calls →
  let o := records (store w) !! (a, as_symbol op, k) in
  let o' := records (store (run_calls exec calls w)) !! (a, as_symbol op, k) in
  created_times o + accepted exec (creates a op k) calls w = created_times o' ∧
  completed_times o + accepted exec (completes a op k) calls w = completed_times o' ∧
  completed_times o' ≤ created_times o' ≤ 1 ∧ keeps o o'.
Proof.
  intros Hi%idempotency_inv Hcalls o o'.
  set (at_k w := records (store w) !! (a, as_symbol op, k)).
  set (I w' := inv (store w') ∧ keeps o (at_k w')).
  assert (∀ e c w0 w1 u, I w0 → (e, c) ∈ calls → exec c e w0 = Done w1 u → I w1 ∧
    created_times (at_k w1) = created_times (at_k w0) + (if creates a op k e c then 1 else 0) ∧
    completed_times (at_k w1) = completed_times (at_k w0) + (if completes a op k e c then 1 else 0)) as Hstep.
  { intros e c w0 w1 u [Hi0 Hk0] _ Hrun. apply call_effect in Hrun; [|done].
    destruct (effect_key _ _ _ _ a op k Hrun) as (Hc & Hd & Hkeep). split; [|done].
    split; [by eapply key_effect_inv|]. unfold I, keeps, at_k in *. destruct o as [r|]; [|done].
    destruct Hk0 as (r0 & Hr0 & He & Ht & Hs). destruct Hkeep as [->|[Hn|(r1 & s & t & h & Hr1 & Hp & ->)]];
      [by exists r0|congruence|].
    rewrite Hr0 in Hr1. simplify_eq. eexists. split; [done|]. split_and!; [done..|].
    intros Hnp. rewrite Hs in Hp; done. }
  assert (I w) as Hw.
  { split; [done|]. unfold keeps. fold o. destruct o as [r|] eqn:Ho; [|done]. by exists r. }
  destruct (accepted_counts exec I (λ w, created_times (at_k w)) (creates a op k) calls w) as [[_ Hk] Hc];
    [by intros e c w0 w1 u H0 Hin Hrun; destruct (Hstep e c w0 w1 u H0 Hin Hrun) as (? & ? & _)|done|].
  destruct (accepted_counts exec I (λ w, completed_times (at_k w)) (completes a op k) calls w) as [_ Hd];
    [by intros e c w0 w1 u H0 Hin Hrun; destruct (Hstep e c w0 w1 u H0 Hin Hrun) as (? & _ & ?)|done|].
  unfold at_k in *. fold o o' in Hk, Hc, Hd. split; [lia|]. split; [lia|]. split; [|done].
  unfold completed_times, created_times. destruct o' as [r|]; [|lia]. case_bool_decide; lia.
Qed.

(** Outcome of a creation.  In every reachable world, with the actor's authorisation,
    [create_key] never traps; it refuses a lifetime above the cap, then any known key (in
    flight or completed, whatever its expiry time: an expired pending key stays in flight and
    the stored outcome is not returned), then a 33rd pending key, then an overflowing expiry;
    otherwise it files the pending record it returns. *)
Theorem create_outcome this w e a op k ttl :
  Reach this w → authorized e a = true → 0 ≤ ttl ≤ u64_max → 0 ≤ timestamp e ≤ u64_max →
  let expires := timestamp e + (if ttl =? 0 then 86400 else ttl) in
  let r := mkRecord k a (as_symbol op) Pending (timestamp e) expires 0 0 in
  invoke (create_key a op k ttl) e w =
    if 7776000 <? ttl then (w, Errored TtlTooLong)
    else match records (store w) !! (a, as_symbol op, k) with
    | Some x => (w, Errored (refusal_of (status x)))
    | None =>
        if 32 <=? pending_count (a, as_symbol op) (store w) then (w, Errored PendingLimitExceeded)
        else if u64_max <? expires then (w, Errored Overflow)
        else (mkWorld (ledger w) (created a (as_symbol op) k r (store w)) (log w ++ [IDMPNEW a (as_symbol op) k]),
              Returned r)
    end.
Proof.
  intros Hi%idempotency_inv Ha Httl Ht expires r. pose proof (inv_bound _ Hi a (as_symbol op)) as Hb.
  pose proof (pending_count_nonneg a (as_symbol op) _ Hi) as Hn. unfold MAX_PENDING_PER_ACTOR_OP in Hb.
  unfold invoke, create_key, refuse_known.
  cbv [bind require_auth load now ok_or ret fail save publish reject_if MAX_PENDING_PER_ACTOR_OP].
  rewrite Ha, effective_ttl_run. destruct (_ <? ttl); [done|].
  destruct (records (store w) !! (a, as_symbol op, k)) as [x|] eqn:Hx.
  { apply (inv_keyed _ Hi) in Hx as (-> & _ & _). by rewrite bool_decide_true. }
  destruct (Z.leb_spec 32 (pending_count (a, as_symbol op) (store w))); [done|]. fold expires.
  unfold checked_add_u64. destruct (Z.ltb_spec u64_max expires).
  { by rewrite (proj2 (checked_None _ _ _)) by lia. }
  assert (0 ≤ expires) by (unfold expires; destruct (_ =? 0); lia).
  unfold checked_add_u32. by rewrite !checked_in by range_lia.
Qed.
End Invariant.

(** ** Concrete runs *)
Module Runs.
Definition this : Address := addr 0.
Definition boss : Address := addr 1.
Definition student : Address := addr 2.
Definition at_time (t : Z) : Env := mkEnv t this (λ _, true).
Definition w0 : World unit Store Event := mkWorld tt (mkStore None ∅ ∅) [].
Definition w1 : World unit Store Event :=
  run_calls exec [(at_time 1, CInitialize boss); (at_time 2, CCreate student Payout 7 100)] w0.
(** Retries of the creation, also after its expiry, and two racing completions. *)
Definition retries : list (Env * Call) :=
  [(at_time 3, CCreate student Payout 7 100); (at_time 500, CCreate student Payout 7 100);
   (at_time 501, CSuccess student Payout 7 9); (at_time 502, CFailure student Payout 7 8);
   (at_time 503, CCreate student Payout 7 100)].

Abbreviation Reach := (reachable exec valid this (λ _ _, True) deployed).
Lemma idempotency_w1_reach : Reach w1.
Proof. apply reachable_run; [by apply reach_init|]. repeat constructor; simpl; range_lia. Qed.

Lemma pending_count_exact_witness :
  pending_count (student, "payout"%string) (store w1) = 1 ∧
  pending_count (student, "payout"%string) (store w1) ≤ 32.
Proof.
  split; [vm_compute; reflexivity|].
  apply (pending_count_exact this w1 student "payout"%string idempotency_w1_reach).
Defined.

Lemma one_outcome_per_key_witness :
  accepted exec (creates student Payout 7) retries w1 = 0 ∧
  accepted exec (completes student Payout 7) retries w1 = 1 ∧
  completed_times (records (store (run_calls exec retries w1)) !! (student, "payout"%string, 7)) ≤ 1.
Proof.
  assert (Forall (λ ec : Env * Call, valid ec.1 ec.2) retries) as Hv
    by (repeat constructor; simpl; range_lia).
  destruct (one_outcome_per_key this w1 retries student Payout 7 idempotency_w1_reach Hv)
    as (_ & _ & [Hle Hone] & _).
  split; [vm_compute; reflexivity|]. split; [vm_compute; reflexivity|]. exact (Z.le_trans _ _ _ Hle Hone).
Defined.

Lemma create_outcome_witness :
  invoke (create_key student Payout 7 100) (at_time 100000) w1 = (w1, Errored KeyInFlight) ∧
  (invoke (create_key student Payout 8 0) (at_time 10) w1).2 =
    Returned (mkRecord 8 student "payout" Pending 10 86410 0 0).
Proof.
  split.
  - rewrite (create_outcome this w1 (at_time 100000) student Payout 7 100 idempotency_w1_reach eq_refl)
      by (simpl; range_lia). vm_compute. reflexivity.
  - rewrite (create_outcome this w1 (at_time 10) student Payout 8 0 idempotency_w1_reach eq_refl)
      by (simpl; range_lia). vm_compute. reflexivity.
Defined.
End Runs.
