(* ===== verification/Outbox.v ===== *)
(** * The event outbox ([contracts/scholarship-outbox/src/lib.rs], [webhook_signing.rs])

    Three registers under one operator: the queue of domain events with its consumers'
    cursors, the sponsors' webhook endpoints with their delivery history, and the settlement
    intents reconciled against the chain.  Each is a record of its own inside [Store]; the
    properties are in [OutboxQueue.v], [OutboxWebhooks.v] and [OutboxSettlements.v]. *)
From S2P Require Import Prelude Machine Host Loops.

Definition MAX_PENDING_EVENTS : Z := 10000.
Definition MAX_PRUNE_PER_CALL : Z := 200.
Definition MAX_ENDPOINTS : Z := 100.
Definition MAX_ENDPOINT_TOPICS : Z := 16.
Definition MAX_DELIVERY_HISTORY : Z := 256.
Definition MAX_SIGNATURE_TTL : Z := 86400.
Definition MAX_TRACKED_INTENTS : Z := 5000.
Definition MAX_FINALITY : Z := 100.

Inductive ContractError :=
| NotInitialized | AlreadyInitialized | NotAdmin | IdOverflow | EventNotFound | AlreadyPublished
| NotPublished | BacklogFull | CursorRegression | CursorTooHigh | InvalidSchemaVersion
| InvalidRetentionHorizon | InvalidPruneLimit | EmptyCommitment | NoTopics | TooManyTopics
| EndpointNotFound | SequenceRegression | TooManyEndpoints | InvalidExpiry | EndpointInactive
| NotSubscribed | ExpiredDelivery | DeliveryNotFound | ReplayDetected | NotEndpointOwner
| IntentNotFound | IntentExists | TooManyIntents | InvalidFinality | InvalidAmount | NotFinal
| AlreadyObserved | InvalidState.

Record OutboxEvent := mkEvent {
  ev_id : Z; topic : Symbol; schema_version : Z; ev_correlation_id : BytesN32;
  payload_hash : BytesN32; ev_source : Address; ev_created_at : Z; published_at : Z
}.

Record WebhookEndpoint := mkEndpoint {
  ep_id : Z; owner : Address; url_hash : BytesN32; secret_hash : BytesN32; topics : list Symbol;
  active : bool; secret_epoch : Z; last_sequence : Z; ep_created_at : Z; updated_at : Z
}.

Inductive DeliveryOutcome := Delivered | Failed | Skipped.
#[export] Instance DeliveryOutcome_eq_dec : EqDecision DeliveryOutcome.
Proof. solve_decision. Defined.

Record DeliveryRecord := mkDelivery {
  dl_endpoint_id : Z; dl_event_id : Z; dl_sequence : Z; dl_secret_epoch : Z; expires_at : Z;
  attempt : Z; recorded_at : Z; outcome_of : DeliveryOutcome; acked_at : Z
}.

Inductive SettlementState := Pending | Reconciled | Mismatched | Expired.
#[export] Instance SettlementState_eq_dec : EqDecision SettlementState.
Proof. solve_decision. Defined.

Definition is_alerting (s : SettlementState) : bool :=
  match s with Mismatched | Expired => true | _ => false end.

Record SettlementIntent := mkIntent {
  intent_id : BytesN32; si_source : Address; si_correlation_id : BytesN32; expected_amount : Z;
  state : SettlementState; opened_at : Z; required_finality : Z; observed_tx_hash : BytesN32;
  observed_ledger : Z; observed_amount : Z; si_attempts : Z; reconciled_at : Z;
  resolution_hash : BytesN32
}.

Record SettlementView := mkView {
  v_intent_id : BytesN32; v_state : SettlementState; v_settled_amount : Z; v_observed_amount : Z;
  v_reconciled_at : Z; v_attempts : Z
}.

Inductive Event :=
| ENQ (t : Symbol) (i : Z) (source : Address) (schema : Z)
| PUB (i : Z) (relay : Address)
| epadd (i : Z) (o : Address) (t : Z) (ts : list Symbol)
| secrot (i epoch : Z)
| epswap (i : Z) (b : bool)
| dlv (i sequence event_id n : Z) (o : DeliveryOutcome) (t : Z)
| dack (i sequence t : Z)
| opn (i : BytesN32) (amount finality t : Z)
| obsv (i : BytesN32) (tx_ledger : Z)
| recon (i : BytesN32) (s : SettlementState) (expected observed n : Z)
| expr (i : BytesN32) (t : Z)
| rsv (i : BytesN32) (t : Z)
| arch (i : BytesN32) (t : Z).

(** ** Storage *)

Record Queue := mkQueue {
  next_event_id : option Z;
  pending : option Z;
  prune_floor : option Z;
  events : gmap Z OutboxEvent;
  dedup : gmap Z Z;
  cursors : gmap Address Z
}.

Record Hooks := mkHooks {
  next_endpoint_id : option Z;
  enrolled_endpoints : option Z;
  endpoints : gmap Z WebhookEndpoint;
  deliveries : gmap (Z * Z) DeliveryRecord;
  delivery_floors : gmap Z Z;
  delivery_counts : gmap Z Z;
  attempts : gmap (Z * Z) Z;
  endpoint_acks : gmap Z Z
}.

Record Settlements := mkSettlements {
  tracked : option Z;
  intents : gmap Z SettlementIntent;
  alerted : option Z
}.

Record Store := mkStore {
  admin : option Address; queue : Queue; hooks : Hooks; settlements : Settlements
}.

Definition on_queue (f : Queue → Queue) (st : Store) : Store :=
  mkStore (admin st) (f (queue st)) (hooks st) (settlements st).
Definition on_hooks (f : Hooks → Hooks) (st : Store) : Store :=
  mkStore (admin st) (queue st) (f (hooks st)) (settlements st).
Definition on_settlements (f : Settlements → Settlements) (st : Store) : Store :=
  mkStore (admin st) (queue st) (hooks st) (f (settlements st)).
(** The counters [initialize] writes. *)
Definition put_initial (a : Address) (st : Store) : Store :=
  mkStore (Some a)
    (mkQueue (Some 1) (Some 0) (Some 1) (events (queue st)) (dedup (queue st)) (cursors (queue st)))
    (mkHooks (Some 1) (Some 0) (endpoints (hooks st)) (deliveries (hooks st))
       (delivery_floors (hooks st)) (delivery_counts (hooks st)) (attempts (hooks st))
       (endpoint_acks (hooks st)))
    (settlements st).

(** [storage.set(&Event(i), &ev)] *)
Definition put_event (i : Z) (ev : OutboxEvent) (q : Queue) : Queue :=
  mkQueue (next_event_id q) (pending q) (prune_floor q) (<[i := ev]> (events q)) (dedup q) (cursors q).
Definition put_dedup (k : BytesN32) (i : Z) (q : Queue) : Queue :=
  mkQueue (next_event_id q) (pending q) (prune_floor q) (events q) (<[k := i]> (dedup q)) (cursors q).
Definition put_next_event_id (n : Z) (q : Queue) : Queue :=
  mkQueue (Some n) (pending q) (prune_floor q) (events q) (dedup q) (cursors q).
Definition put_pending (n : Z) (q : Queue) : Queue :=
  mkQueue (next_event_id q) (Some n) (prune_floor q) (events q) (dedup q) (cursors q).
Definition put_cursor (c : Address) (i : Z) (q : Queue) : Queue :=
  mkQueue (next_event_id q) (pending q) (prune_floor q) (events q) (dedup q) (<[c := i]> (cursors q)).
Definition put_swept (floor : Z) (evs : gmap Z OutboxEvent) (q : Queue) : Queue :=
  mkQueue (next_event_id q) (pending q) (Some floor) evs (dedup q) (cursors q).

Definition save_endpoint (x : WebhookEndpoint) (h : Hooks) : Hooks :=
  mkHooks (next_endpoint_id h) (enrolled_endpoints h) (<[ep_id x := x]> (endpoints h)) (deliveries h)
    (delivery_floors h) (delivery_counts h) (attempts h) (endpoint_acks h).
Definition put_next_endpoint_id (n : Z) (h : Hooks) : Hooks :=
  mkHooks (Some n) (enrolled_endpoints h) (endpoints h) (deliveries h)
    (delivery_floors h) (delivery_counts h) (attempts h) (endpoint_acks h).
Definition put_enrolled (n : Z) (h : Hooks) : Hooks :=
  mkHooks (next_endpoint_id h) (Some n) (endpoints h) (deliveries h)
    (delivery_floors h) (delivery_counts h) (attempts h) (endpoint_acks h).
(** [storage.set(&Delivery(i, sequence), &record)] *)
Definition put_delivery (i sequence : Z) (r : DeliveryRecord) (h : Hooks) : Hooks :=
  mkHooks (next_endpoint_id h) (enrolled_endpoints h) (endpoints h) (<[(i, sequence) := r]> (deliveries h))
    (delivery_floors h) (delivery_counts h) (attempts h) (endpoint_acks h).
Definition drop_delivery (i sequence : Z) (h : Hooks) : Hooks :=
  mkHooks (next_endpoint_id h) (enrolled_endpoints h) (endpoints h) (delete (i, sequence) (deliveries h))
    (delivery_floors h) (delivery_counts h) (attempts h) (endpoint_acks h).
Definition put_delivery_floor (i n : Z) (h : Hooks) : Hooks :=
  mkHooks (next_endpoint_id h) (enrolled_endpoints h) (endpoints h) (deliveries h)
    (<[i := n]> (delivery_floors h)) (delivery_counts h) (attempts h) (endpoint_acks h).
Definition put_delivery_count (i n : Z) (h : Hooks) : Hooks :=
  mkHooks (next_endpoint_id h) (enrolled_endpoints h) (endpoints h) (deliveries h)
    (delivery_floors h) (<[i := n]> (delivery_counts h)) (attempts h) (endpoint_acks h).
Definition put_attempts (i ev n : Z) (h : Hooks) : Hooks :=
  mkHooks (next_endpoint_id h) (enrolled_endpoints h) (endpoints h) (deliveries h)
    (delivery_floors h) (delivery_counts h) (<[(i, ev) := n]> (attempts h)) (endpoint_acks h).
Definition put_ack (i n : Z) (h : Hooks) : Hooks :=
  mkHooks (next_endpoint_id h) (enrolled_endpoints h) (endpoints h) (deliveries h)
    (delivery_floors h) (delivery_counts h) (attempts h) (<[i := n]> (endpoint_acks h)).

Definition save_intent (x : SettlementIntent) (s : Settlements) : Settlements :=
  mkSettlements (tracked s) (<[intent_id x := x]> (intents s)) (alerted s).
Definition drop_intent (i : BytesN32) (s : Settlements) : Settlements :=
  mkSettlements (tracked s) (delete i (intents s)) (alerted s).
Definition put_tracked (n : Z) (s : Settlements) : Settlements :=
  mkSettlements (Some n) (intents s) (alerted s).
Definition put_alerted (n : Z) (s : Settlements) : Settlements :=
  mkSettlements (tracked s) (intents s) (Some n).

(** ** The signed envelope of a delivery ([webhook_signing.rs]) *)

Definition DOMAIN_TAG : Bytes := str_bytes "ChainVerse.ScholarWebhook".
Definition ENVELOPE_VERSION : Z := 1.
Definition PREIMAGE_LEN : Z := 25 + 4 + 32 + 32 + 8 + 4 + 8 + 8 + 8 + 32.

Record WebhookEnvelope := mkEnvelope {
  env_version : Z; env_network : BytesN32; env_contract : Address; env_endpoint_id : Z;
  env_secret_epoch : Z; env_event_id : Z; env_sequence : Z; env_expires_at : Z
}.

Section Envelope.
Context (sha256 : Bytes → BytesN32) (to_xdr : Address → Bytes).

Definition canonical_preimage (x : WebhookEnvelope) (body : BytesN32) : Bytes :=
  let contract_hash := sha256 (to_xdr (env_contract x)) in
  DOMAIN_TAG ++ be_bytes 4 (env_version x) ++ to_array (env_network x) ++ to_array contract_hash ++
  be_bytes 8 (env_endpoint_id x) ++ be_bytes 4 (env_secret_epoch x) ++ be_bytes 8 (env_event_id x) ++
  be_bytes 8 (env_sequence x) ++ be_bytes 8 (env_expires_at x) ++ to_array body.

Definition signing_payload (x : WebhookEnvelope) (body : BytesN32) : BytesN32 :=
  sha256 (canonical_preimage x body).
End Envelope.

Section Contract.
Context {L : Type}.
Abbreviation M := (Contract L Store Event ContractError).

Definition load_queue {A} (f : Queue → A) : M A := load (λ st, f (queue st)).
Definition load_hooks {A} (f : Hooks → A) : M A := load (λ st, f (hooks st)).
Definition load_settlements {A} (f : Settlements → A) : M A := load (λ st, f (settlements st)).

(** The stored admin is compared; no authorisation is asked for here. *)
Definition require_admin (account : Address) : M unit :=
  o <- load admin ;;
  reject_if (negb (bool_decide (o = Some account))) NotAdmin.

(** The first two lines of the operator's methods. *)
Definition require_operator (operator : Address) : M unit :=
  require_auth operator ;;;
  require_admin operator.

Definition require_commitment (x : BytesN32) : M unit := reject_if (x =? 0) EmptyCommitment.

Definition initialize (a : Address) : M unit :=
  o <- load admin ;;
  reject_if (bool_decide (is_Some o)) AlreadyInitialized ;;;
  require_auth a ;;;
  save (put_initial a).

(** ** The queue *)

Definition enqueue (operator source : Address) (t : Symbol) (schema : Z)
    (correlation key payload : BytesN32) : M Z :=
  require_operator operator ;;;
  reject_if (schema =? 0) InvalidSchemaVersion ;;;
  existing <- load_queue (λ q, dedup q !! key) ;;
  match existing with
  | Some i => ret i
  | None =>
      n <- load_queue (λ q, default 0 (pending q)) ;;
      reject_if (MAX_PENDING_EVENTS <=? n) BacklogFull ;;;
      o <- load_queue next_event_id ;;
      i <- ok_or o IdOverflow ;;
      next <- ok_or (checked_add_u64 i 1) IdOverflow ;;
      time <- now ;;
      save (on_queue (put_event i (mkEvent i t schema correlation payload source time 0))) ;;;
      save (on_queue (put_dedup key i)) ;;;
      save (on_queue (put_next_event_id next)) ;;;
      n <- ok_or (checked_add_u64 n 1) IdOverflow ;;
      save (on_queue (put_pending n)) ;;;
      publish (ENQ t i source schema) ;;;
      ret i
  end.

Definition published (t : Z) (ev : OutboxEvent) : OutboxEvent :=
  mkEvent (ev_id ev) (topic ev) (schema_version ev) (ev_correlation_id ev) (payload_hash ev)
    (ev_source ev) (ev_created_at ev) t.

Definition load_event (i : Z) : M OutboxEvent :=
  o <- load_queue (λ q, events q !! i) ;;
  ok_or o EventNotFound.

Definition mark_published (relay : Address) (i : Z) : M unit :=
  require_operator relay ;;;
  ev <- load_event i ;;
  reject_if (negb (published_at ev =? 0)) AlreadyPublished ;;;
  t <- now ;;
  save (on_queue (put_event i (published t ev))) ;;;
  n <- load_queue (λ q, default 0 (pending q)) ;;
  save (on_queue (put_pending (saturating_sub_u64 n 1))) ;;;
  publish (PUB i relay).

Definition acknowledge (consumer : Address) (i : Z) : M Z :=
  require_auth consumer ;;;
  _ <- load_event i ;;
  current <- load_queue (λ q, default 0 (cursors q !! consumer)) ;;
  reject_if (i <? current) CursorRegression ;;;
  if (i =? current) && negb (current =? 0) then ret current
  else
    save (on_queue (put_cursor consumer i)) ;;;
    ret i.

(** The sweep of [prune]: the loop variables, and how an iteration ends. *)
Record Sweep := mkSweep { floor : Z; pruned : Z; kept : gmap Z OutboxEvent }.
Inductive sweep := Sweeping (s : Sweep) | Stopped (s : Sweep) | Overflowed.

Definition removable (horizon : Z) (o : option OutboxEvent) : bool :=
  match o with
  | None => true
  | Some ev => if published_at ev =? 0 then false else published_at ev <? horizon
  end.

Definition sweep_more (next limit : Z) (x : sweep) : bool :=
  match x with Sweeping s => (floor s <? next) && (pruned s <? limit) | _ => false end.

Definition sweep_step (horizon : Z) (x : sweep) : option sweep :=
  match x with
  | Sweeping s =>
      Some (if removable horizon (kept s !! floor s) then
              match checked_add_u64 (floor s) 1, checked_add_u32 (pruned s) 1 with
              | Some f, Some p => Sweeping (mkSweep f p (delete (floor s) (kept s)))
              | _, _ => Overflowed
              end
            else Stopped s)
  | _ => None
  end.

(** One more iteration than [limit] is enough: each removes an entry or stops. *)
Definition sweep_from (q : Queue) (horizon limit : Z) : option sweep :=
  while (S (S (Z.to_nat limit))) (sweep_more (default 1 (next_event_id q)) limit) (sweep_step horizon)
    (Sweeping (mkSweep (default 1 (prune_floor q)) 0 (events q))).

Definition prune (account : Address) (horizon limit : Z) : M Z :=
  require_admin account ;;;
  t <- now ;;
  reject_if (t <? horizon) InvalidRetentionHorizon ;;;
  reject_if ((limit =? 0) || (MAX_PRUNE_PER_CALL <? limit)) InvalidPruneLimit ;;;
  o <- load_queue (λ q, sweep_from q horizon limit) ;;
  x <- or_trap o ;;
  match x with
  | Overflowed => fail IdOverflow
  | Sweeping s | Stopped s =>
      save (on_queue (put_swept (floor s) (kept s))) ;;;
      ret (pruned s)
  end.

Definition get_event (i : Z) : M OutboxEvent := load_event i.
Definition get_by_dedup (key : BytesN32) : M Z :=
  o <- load_queue (λ q, dedup q !! key) ;;
  ok_or o EventNotFound.
Definition get_cursor (consumer : Address) : M Z := load_queue (λ q, default 0 (cursors q !! consumer)).
Definition pending_count : M Z := load_queue (λ q, default 0 (pending q)).

(** ** Webhooks *)

Definition load_endpoint (i : Z) : M WebhookEndpoint :=
  o <- load_hooks (λ h, endpoints h !! i) ;;
  ok_or o EndpointNotFound.

Definition next_sequence (x : WebhookEndpoint) : M Z :=
  ok_or (checked_add_u64 (last_sequence x) 1) IdOverflow.

Definition register_endpoint (operator o : Address) (url secret : BytesN32) (ts : list Symbol) : M Z :=
  require_auth operator ;;;
  require_auth o ;;;
  require_admin operator ;;;
  require_commitment url ;;;
  require_commitment secret ;;;
  reject_if (Z.of_nat (length ts) =? 0) NoTopics ;;;
  reject_if (MAX_ENDPOINT_TOPICS <? Z.of_nat (length ts)) TooManyTopics ;;;
  enrolled <- load_hooks (λ h, default 0 (enrolled_endpoints h)) ;;
  reject_if (MAX_ENDPOINTS <=? enrolled) TooManyEndpoints ;;;
  n <- load_hooks next_endpoint_id ;;
  i <- ok_or n NotInitialized ;;
  t <- now ;;
  save (on_hooks (save_endpoint (mkEndpoint i o url secret ts true 1 0 t t))) ;;;
  next <- ok_or (checked_add_u64 i 1) IdOverflow ;;
  save (on_hooks (put_next_endpoint_id next)) ;;;
  enrolled <- ok_or (checked_add_u64 enrolled 1) IdOverflow ;;
  save (on_hooks (put_enrolled enrolled)) ;;;
  publish (epadd i o t ts) ;;;
  ret i.

Definition rotated (secret : BytesN32) (epoch t : Z) (x : WebhookEndpoint) : WebhookEndpoint :=
  mkEndpoint (ep_id x) (owner x) (url_hash x) secret (topics x) (active x) epoch (last_sequence x)
    (ep_created_at x) t.
Definition switched (b : bool) (t : Z) (x : WebhookEndpoint) : WebhookEndpoint :=
  mkEndpoint (ep_id x) (owner x) (url_hash x) (secret_hash x) (topics x) b (secret_epoch x) (last_sequence x)
    (ep_created_at x) t.
Definition delivered_to (sequence t : Z) (x : WebhookEndpoint) : WebhookEndpoint :=
  mkEndpoint (ep_id x) (owner x) (url_hash x) (secret_hash x) (topics x) (active x) (secret_epoch x) sequence
    (ep_created_at x) t.

Definition rotate_secret (operator : Address) (i : Z) (secret : BytesN32) : M Z :=
  require_operator operator ;;;
  require_commitment secret ;;;
  x <- load_endpoint i ;;
  epoch <- ok_or (checked_add_u32 (secret_epoch x) 1) IdOverflow ;;
  t <- now ;;
  save (on_hooks (save_endpoint (rotated secret epoch t x))) ;;;
  publish (secrot i epoch) ;;;
  ret epoch.

Definition set_endpoint_active (operator : Address) (i : Z) (b : bool) : M unit :=
  require_operator operator ;;;
  x <- load_endpoint i ;;
  t <- now ;;
  save (on_hooks (save_endpoint (switched b t x))) ;;;
  publish (epswap i b).

Definition check_expiry (t expires : Z) : M unit :=
  ttl <- ok_or (checked_sub_u64 expires t) InvalidExpiry ;;
  reject_if (MAX_SIGNATURE_TTL <? ttl) InvalidExpiry.

Definition delivery_payload (sha256 : Bytes → BytesN32) (to_xdr : Address → Bytes)
    (i event_id sequence expires : Z) : M BytesN32 :=
  x <- load_endpoint i ;;
  reject_if (negb (active x)) EndpointInactive ;;;
  n <- next_sequence x ;;
  reject_if (negb (sequence =? n)) SequenceRegression ;;;
  t <- now ;;
  check_expiry t expires ;;;
  ev <- load_event event_id ;;
  net <- network_id ;;
  this <- me ;;
  ret (signing_payload sha256 to_xdr
    (mkEnvelope ENVELOPE_VERSION net this i (secret_epoch x) event_id sequence expires) (payload_hash ev)).

Definition deliverable (i event_id : Z) : M bool :=
  x <- load_endpoint i ;;
  if negb (active x) then ret false
  else
    ev <- load_event event_id ;;
    ret (contains (topics x) (topic ev)).

(** Room in the history: the oldest record goes once the window is full. *)
Definition evict (i sequence : Z) : M unit :=
  count <- load_hooks (λ h, default 0 (delivery_counts h !! i)) ;;
  if MAX_DELIVERY_HISTORY <=? count then
    first <- load_hooks (λ h, default 1 (delivery_floors h !! i)) ;;
    save (on_hooks (drop_delivery i first)) ;;;
    next <- ok_or (checked_add_u64 first 1) IdOverflow ;;
    save (on_hooks (put_delivery_floor i next))
  else
    (if count =? 0 then save (on_hooks (put_delivery_floor i sequence)) else ret tt) ;;;
    count <- ok_or (checked_add_u32 count 1) IdOverflow ;;
    save (on_hooks (put_delivery_count i count)).

Definition record_delivery (operator : Address) (i event_id sequence expires : Z) (out : DeliveryOutcome) :
    M Z :=
  require_operator operator ;;;
  x <- load_endpoint i ;;
  reject_if (negb (active x)) EndpointInactive ;;;
  n <- next_sequence x ;;
  reject_if (negb (sequence =? n)) SequenceRegression ;;;
  t <- now ;;
  reject_if (expires <=? t) ExpiredDelivery ;;;
  ev <- load_event event_id ;;
  reject_if (negb (bool_decide (out = Skipped)) && negb (contains (topics x) (topic ev))) NotSubscribed ;;;
  k <- load_hooks (λ h, default 0 (attempts h !! (i, event_id))) ;;
  k <- ok_or (checked_add_u32 k 1) IdOverflow ;;
  save (on_hooks (put_attempts i event_id k)) ;;;
  save (on_hooks (put_delivery i sequence (mkDelivery i event_id sequence (secret_epoch x) expires k t out 0))) ;;;
  evict i sequence ;;;
  save (on_hooks (save_endpoint (delivered_to sequence t x))) ;;;
  publish (dlv i sequence event_id k out t) ;;;
  ret k.

Definition acked (t : Z) (r : DeliveryRecord) : DeliveryRecord :=
  mkDelivery (dl_endpoint_id r) (dl_event_id r) (dl_sequence r) (dl_secret_epoch r) (expires_at r)
    (attempt r) (recorded_at r) (outcome_of r) t.

Definition acknowledge_delivery (o : Address) (i sequence : Z) : M unit :=
  require_auth o ;;;
  x <- load_endpoint i ;;
  reject_if (negb (bool_decide (owner x = o))) NotEndpointOwner ;;;
  reject_if ((sequence =? 0) || (last_sequence x <? sequence)) DeliveryNotFound ;;;
  last <- load_hooks (λ h, default 0 (endpoint_acks h !! i)) ;;
  reject_if (sequence <=? last) ReplayDetected ;;;
  r <- load_hooks (λ h, deliveries h !! (i, sequence)) ;;
  record <- ok_or r DeliveryNotFound ;;
  t <- now ;;
  save (on_hooks (put_delivery i sequence (acked t record))) ;;;
  save (on_hooks (put_ack i sequence)) ;;;
  publish (dack i sequence t).

Definition get_endpoint (i : Z) : M WebhookEndpoint := load_endpoint i.
Definition get_delivery (i sequence : Z) : M DeliveryRecord :=
  o <- load_hooks (λ h, deliveries h !! (i, sequence)) ;;
  ok_or o DeliveryNotFound.
Definition get_attempts (i event_id : Z) : M Z := load_hooks (λ h, default 0 (attempts h !! (i, event_id))).
Definition get_acked_sequence (i : Z) : M Z := load_hooks (λ h, default 0 (endpoint_acks h !! i)).
Definition delivery_history_count (i : Z) : M Z := load_hooks (λ h, default 0 (delivery_counts h !! i)).
Definition delivery_history_floor (i : Z) : M Z := load_hooks (λ h, default 0 (delivery_floors h !! i)).

(** ** Settlements *)

Definition load_intent (i : BytesN32) : M SettlementIntent :=
  o <- load_settlements (λ s, intents s !! i) ;;
  ok_or o IntentNotFound.

Definition open_settlement (operator : Address) (i : BytesN32) (source : Address) (correlation : BytesN32)
    (expected finality : Z) : M unit :=
  require_operator operator ;;;
  reject_if ((finality =? 0) || (MAX_FINALITY <? finality)) InvalidFinality ;;;
  reject_if (expected <=? 0) InvalidAmount ;;;
  o <- load_settlements (λ s, intents s !! i) ;;
  reject_if (bool_decide (is_Some o)) IntentExists ;;;
  n <- load_settlements (λ s, default 0 (tracked s)) ;;
  reject_if (MAX_TRACKED_INTENTS <=? n) TooManyIntents ;;;
  t <- now ;;
  save (on_settlements (save_intent
    (mkIntent i source correlation expected Pending t finality 0 0 0 0 0 0))) ;;;
  n <- ok_or (checked_add_u64 n 1) IdOverflow ;;
  save (on_settlements (put_tracked n)) ;;;
  publish (opn i expected finality t).

Definition observed (tx : BytesN32) (l : Z) (x : SettlementIntent) : SettlementIntent :=
  mkIntent (intent_id x) (si_source x) (si_correlation_id x) (expected_amount x) (state x) (opened_at x)
    (required_finality x) tx l (observed_amount x) (si_attempts x) (reconciled_at x) (resolution_hash x).
(** An adjudication: the state it ends in, the observed amount, the attempts, the time. *)
Definition adjudicated (s : SettlementState) (amount n t : Z) (x : SettlementIntent) : SettlementIntent :=
  mkIntent (intent_id x) (si_source x) (si_correlation_id x) (expected_amount x) s (opened_at x)
    (required_finality x) (observed_tx_hash x) (observed_ledger x) amount n t (resolution_hash x).
Definition resolved (t : Z) (h : BytesN32) (x : SettlementIntent) : SettlementIntent :=
  mkIntent (intent_id x) (si_source x) (si_correlation_id x) (expected_amount x) Reconciled (opened_at x)
    (required_finality x) (observed_tx_hash x) (observed_ledger x) (observed_amount x) (si_attempts x) t h.

Definition raise_alert : M unit :=
  n <- load_settlements (λ s, default 0 (alerted s)) ;;
  n <- ok_or (checked_add_u64 n 1) IdOverflow ;;
  save (on_settlements (put_alerted n)).

Definition observe_settlement (operator : Address) (i tx : BytesN32) (tx_ledger : Z) : M unit :=
  require_operator operator ;;;
  x <- load_intent i ;;
  reject_if (negb (bool_decide (state x = Pending))) InvalidState ;;;
  if negb (observed_ledger x =? 0) then
    if (observed_tx_hash x =? tx) && (observed_ledger x =? tx_ledger) then ret tt else fail AlreadyObserved
  else
    l <- ledger_number ;;
    reject_if ((tx_ledger =? 0) || (l <? tx_ledger)) NotFinal ;;;
    save (on_settlements (save_intent (observed tx tx_ledger x))) ;;;
    publish (obsv i tx_ledger).

Definition reconcile_settlement (operator : Address) (i : BytesN32) (amount : Z) : M SettlementState :=
  require_operator operator ;;;
  x <- load_intent i ;;
  t <- now ;;
  if negb (bool_decide (state x = Pending)) then ret (state x)
  else
    reject_if (observed_ledger x =? 0) NotFinal ;;;
    l <- ledger_number ;;
    passed <- ok_or (checked_sub_u32 l (observed_ledger x)) NotFinal ;;
    reject_if (passed <? required_finality x) NotFinal ;;;
    n <- ok_or (checked_add_u32 (si_attempts x) 1) IdOverflow ;;
    let verdict := if amount =? expected_amount x then Reconciled else Mismatched in
    (if amount =? expected_amount x then ret tt else raise_alert) ;;;
    save (on_settlements (save_intent (adjudicated verdict amount n t x))) ;;;
    publish (recon i verdict (expected_amount x) amount n) ;;;
    ret verdict.

Definition expire_settlement (operator : Address) (i : BytesN32) : M unit :=
  require_operator operator ;;;
  x <- load_intent i ;;
  reject_if (negb (bool_decide (state x = Pending))) InvalidState ;;;
  t <- now ;;
  save (on_settlements (save_intent (adjudicated Expired (observed_amount x) (si_attempts x) t x))) ;;;
  raise_alert ;;;
  publish (expr i t).

Definition resolve_settlement (operator : Address) (i h : BytesN32) : M unit :=
  require_operator operator ;;;
  require_commitment h ;;;
  x <- load_intent i ;;
  reject_if (negb (is_alerting (state x))) InvalidState ;;;
  t <- now ;;
  save (on_settlements (save_intent (resolved t h x))) ;;;
  publish (rsv i t).

Definition archive_settlement (operator : Address) (i : BytesN32) : M unit :=
  require_operator operator ;;;
  x <- load_intent i ;;
  reject_if (negb (bool_decide (state x = Reconciled))) InvalidState ;;;
  save (on_settlements (drop_intent i)) ;;;
  n <- load_settlements (λ s, default 0 (tracked s)) ;;
  save (on_settlements (put_tracked (saturating_sub_u64 n 1))) ;;;
  t <- now ;;
  publish (arch i t).

Definition settlement_status (i : BytesN32) : M SettlementView :=
  x <- load_intent i ;;
  let settled := if bool_decide (state x = Reconciled) then observed_amount x else 0 in
  ret (mkView (intent_id x) (state x) settled (observed_amount x) (reconciled_at x) (si_attempts x)).

Definition settled_amount (i : BytesN32) : M Z :=
  x <- load_intent i ;;
  match state x with Reconciled => ret (observed_amount x) | _ => fail InvalidState end.

Definition get_intent (i : BytesN32) : M SettlementIntent := load_intent i.
Definition alert_count : M Z := load_settlements (λ s, default 0 (alerted s)).
Definition tracked_intents : M Z := load_settlements (λ s, default 0 (tracked s)).

(** ** Calls *)

Inductive QueueCall :=
| CEnqueue (operator source : Address) (t : Symbol) (schema : Z) (correlation key payload : BytesN32)
| CMarkPublished (relay : Address) (i : Z)
| CAcknowledge (consumer : Address) (i : Z)
| CPrune (account : Address) (horizon limit : Z).

Inductive HookCall :=
| CRegister (operator o : Address) (url secret : BytesN32) (ts : list Symbol)
| CRotate (operator : Address) (i : Z) (secret : BytesN32)
| CSwitch (operator : Address) (i : Z) (b : bool)
| CRecord (operator : Address) (i event_id sequence expires : Z) (out : DeliveryOutcome)
| CAckDelivery (o : Address) (i sequence : Z).

Inductive SettlementCall :=
| COpen (operator : Address) (i : BytesN32) (source : Address) (correlation : BytesN32) (expected finality : Z)
| CObserve (operator : Address) (i tx : BytesN32) (tx_ledger : Z)
| CReconcile (operator : Address) (i : BytesN32) (amount : Z)
| CExpire (operator : Address) (i : BytesN32)
| CResolve (operator : Address) (i h : BytesN32)
| CArchive (operator : Address) (i : BytesN32).

Inductive Call :=
| CInitialize (a : Address) | OnQueue (c : QueueCall) | OnHooks (c : HookCall) | OnSettlements (c : SettlementCall).

Definition exec_queue (c : QueueCall) : M unit :=
  match c with
  | CEnqueue o s t v c k p => ignore (enqueue o s t v c k p)
  | CMarkPublished r i => mark_published r i
  | CAcknowledge c i => ignore (acknowledge c i)
  | CPrune a h n => ignore (prune a h n)
  end.

Definition exec_hooks (c : HookCall) : M unit :=
  match c with
  | CRegister p o u s ts => ignore (register_endpoint p o u s ts)
  | CRotate p i s => ignore (rotate_secret p i s)
  | CSwitch p i b => set_endpoint_active p i b
  | CRecord p i e s x out => ignore (record_delivery p i e s x out)
  | CAckDelivery o i s => acknowledge_delivery o i s
  end.

Definition exec_settlements (c : SettlementCall) : M unit :=
  match c with
  | COpen p i s c n f => open_settlement p i s c n f
  | CObserve p i tx l => observe_settlement p i tx l
  | CReconcile p i n => ignore (reconcile_settlement p i n)
  | CExpire p i => expire_settlement p i
  | CResolve p i h => resolve_settlement p i h
  | CArchive p i => archive_settlement p i
  end.

Definition exec (c : Call) : M unit :=
  match c with
  | CInitialize a => initialize a
  | OnQueue c => exec_queue c
  | OnHooks c => exec_hooks c
  | OnSettlements c => exec_settlements c
  end.
End Contract.

(** Arguments of their declared width; a ledger's time and number are positive. *)
Definition valid (e : Env) (c : Call) : Prop :=
  0 < timestamp e ≤ u64_max ∧ 0 < ledger_sequence e ≤ u32_max ∧
  match c with
  | OnQueue (CEnqueue _ _ _ v _ _ p) => 0 ≤ v ≤ u32_max ∧ bytes32 p = true
  | OnQueue (CPrune _ h n) => 0 ≤ h ≤ u64_max ∧ 0 ≤ n ≤ u32_max
  | OnHooks (CRecord _ _ _ s x _) => 0 ≤ s ≤ u64_max ∧ 0 ≤ x ≤ u64_max
  | OnSettlements (CObserve _ _ _ l) => 0 ≤ l ≤ u32_max
  | OnSettlements (COpen _ _ _ _ _ f) => 0 ≤ f ≤ u32_max
  | _ => True
  end.
