(* ===== verification/OutboxEffects.v ===== *)
(** * What the calls of the outbox do

    One relation per register: what a call that returns has checked and written.  A call of
    one register leaves the other two as they are, so an invariant of a register only has to
    be kept by its own calls ([register_inv]). *)
From S2P Require Import Prelude Machine Host Loops Outbox.

Definition empty_queue : Queue := mkQueue None None None ∅ ∅ ∅.
Definition empty_hooks : Hooks := mkHooks None None ∅ ∅ ∅ ∅ ∅ ∅.
Definition empty_settlements : Settlements := mkSettlements None ∅ None.
Definition started_queue : Queue := mkQueue (Some 1) (Some 0) (Some 1) ∅ ∅ ∅.
Definition started_hooks : Hooks := mkHooks (Some 1) (Some 0) ∅ ∅ ∅ ∅ ∅ ∅.

(** Stored counters with the defaults the code reads them with. *)
Definition next_id (q : Queue) : Z := default 1 (next_event_id q).
Definition backlog (q : Queue) : Z := default 0 (pending q).
Definition swept_to (q : Queue) : Z := default 1 (prune_floor q).
Definition cursor_of (c : Address) (q : Queue) : Z := default 0 (cursors q !! c).

Definition enqueued (key : BytesN32) (i : Z) (ev : OutboxEvent) (q : Queue) : Queue :=
  mkQueue (Some (i + 1)) (Some (backlog q + 1)) (prune_floor q) (<[i := ev]> (events q))
    (<[key := i]> (dedup q)) (cursors q).

Inductive queue_effect (e : Env) (q : Queue) : QueueCall → Queue → Prop :=
| Q_known o s t v c key p i :
    dedup q !! key = Some i → queue_effect e q (CEnqueue o s t v c key p) q
| Q_enqueue o s t v c key p i :
    dedup q !! key = None → next_event_id q = Some i → backlog q < MAX_PENDING_EVENTS → i < u64_max →
    queue_effect e q (CEnqueue o s t v c key p) (enqueued key i (mkEvent i t v c p s (timestamp e) 0) q)
| Q_publish r i ev :
    events q !! i = Some ev → published_at ev = 0 →
    queue_effect e q (CMarkPublished r i)
      (put_pending (saturating_sub_u64 (backlog q) 1) (put_event i (published (timestamp e) ev) q))
| Q_repeat c i :
    is_Some (events q !! i) → i = cursor_of c q → queue_effect e q (CAcknowledge c i) q
| Q_acknowledge c i :
    is_Some (events q !! i) → cursor_of c q ≤ i → queue_effect e q (CAcknowledge c i) (put_cursor c i q)
| Q_prune a horizon limit s :
    horizon ≤ timestamp e → limit ≠ 0 → limit ≤ MAX_PRUNE_PER_CALL →
    (sweep_from q horizon limit = Some (Sweeping s) ∨ sweep_from q horizon limit = Some (Stopped s)) →
    queue_effect e q (CPrune a horizon limit) (put_swept (floor s) (kept s) q).

(** ** Webhooks *)

Definition history_count (i : Z) (h : Hooks) : Z := default 0 (delivery_counts h !! i).
Definition history_floor (i : Z) (h : Hooks) : Z := default 1 (delivery_floors h !! i).
Definition attempts_of (i ev : Z) (h : Hooks) : Z := default 0 (attempts h !! (i, ev)).
Definition acked_up_to (i : Z) (h : Hooks) : Z := default 0 (endpoint_acks h !! i).
Definition enrolled_count (h : Hooks) : Z := default 0 (enrolled_endpoints h).

Definition evicted (i sequence : Z) (h : Hooks) : Hooks :=
  if MAX_DELIVERY_HISTORY <=? history_count i h then
    put_delivery_floor i (history_floor i h + 1) (drop_delivery i (history_floor i h) h)
  else
    put_delivery_count i (history_count i h + 1)
      (if history_count i h =? 0 then put_delivery_floor i sequence h else h).

Inductive hook_effect (e : Env) (q : Queue) (h : Hooks) : HookCall → Hooks → Prop :=
| H_register p o url secret ts i :
    url ≠ 0 → secret ≠ 0 → (1 ≤ length ts ≤ 16)%nat → enrolled_count h < MAX_ENDPOINTS →
    next_endpoint_id h = Some i → i < u64_max → authorized e p = true → authorized e o = true →
    hook_effect e q h (CRegister p o url secret ts)
      (put_enrolled (enrolled_count h + 1) (put_next_endpoint_id (i + 1)
        (save_endpoint (mkEndpoint i o url secret ts true 1 0 (timestamp e) (timestamp e)) h)))
| H_rotate p i secret x :
    secret ≠ 0 → endpoints h !! i = Some x → 0 ≤ secret_epoch x + 1 ≤ u32_max →
    hook_effect e q h (CRotate p i secret)
      (save_endpoint (rotated secret (secret_epoch x + 1) (timestamp e) x) h)
| H_switch p i b x :
    endpoints h !! i = Some x →
    hook_effect e q h (CSwitch p i b) (save_endpoint (switched b (timestamp e) x) h)
| H_record p i ev_id sequence expires out x ev :
    endpoints h !! i = Some x → active x = true → sequence = last_sequence x + 1 → sequence ≤ u64_max →
    timestamp e < expires → events q !! ev_id = Some ev → out = Skipped ∨ topic ev ∈ topics x →
    attempts_of i ev_id h < u32_max →
    hook_effect e q h (CRecord p i ev_id sequence expires out)
      (save_endpoint (delivered_to sequence (timestamp e) x)
        (evicted i sequence
          (put_delivery i sequence (mkDelivery i ev_id sequence (secret_epoch x) expires
            (attempts_of i ev_id h + 1) (timestamp e) out 0)
            (put_attempts i ev_id (attempts_of i ev_id h + 1) h))))
| H_ack o i sequence x r :
    endpoints h !! i = Some x → owner x = o → authorized e o = true → sequence ≤ last_sequence x →
    acked_up_to i h < sequence → deliveries h !! (i, sequence) = Some r →
    hook_effect e q h (CAckDelivery o i sequence)
      (put_ack i sequence (put_delivery i sequence (acked (timestamp e) r) h)).

(** ** Settlements *)

Definition tracked_count (s : Settlements) : Z := default 0 (tracked s).
Definition alerts (s : Settlements) : Z := default 0 (alerted s).

Inductive settlement_effect (e : Env) (s : Settlements) : SettlementCall → Settlements → Prop :=
| S_same c : settlement_effect e s c s
| S_open p i source c n f :
    0 < n → f ≠ 0 → f ≤ MAX_FINALITY → intents s !! i = None → tracked_count s < MAX_TRACKED_INTENTS →
    settlement_effect e s (COpen p i source c n f)
      (put_tracked (tracked_count s + 1)
        (save_intent (mkIntent i source c n Pending (timestamp e) f 0 0 0 0 0 0) s))
| S_observe p i tx l x :
    intents s !! i = Some x → state x = Pending → observed_ledger x = 0 → l ≠ 0 → l ≤ ledger_sequence e →
    settlement_effect e s (CObserve p i tx l) (save_intent (observed tx l x) s)
| S_reconcile p i n x :
    intents s !! i = Some x → state x = Pending → observed_ledger x ≠ 0 →
    observed_ledger x + required_finality x ≤ ledger_sequence e →
    settlement_effect e s (CReconcile p i n)
      (save_intent (adjudicated (if n =? expected_amount x then Reconciled else Mismatched) n
         (si_attempts x + 1) (timestamp e) x)
        (if n =? expected_amount x then s else put_alerted (alerts s + 1) s))
| S_expire p i x :
    intents s !! i = Some x → state x = Pending →
    settlement_effect e s (CExpire p i)
      (put_alerted (alerts s + 1)
        (save_intent (adjudicated Expired (observed_amount x) (si_attempts x) (timestamp e) x) s))
| S_resolve p i h x :
    h ≠ 0 → intents s !! i = Some x → is_alerting (state x) = true →
    settlement_effect e s (CResolve p i h) (save_intent (resolved (timestamp e) h x) s)
| S_archive p i x :
    intents s !! i = Some x → state x = Reconciled →
    settlement_effect e s (CArchive p i)
      (put_tracked (saturating_sub_u64 (tracked_count s) 1) (drop_intent i s)).

Section Effects.
Context {L : Type}.
Abbreviation W := (World L Store Event).
Abbreviation M := (Contract L Store Event ContractError).
Implicit Types (w : W).

Lemma require_operator_done o e w w' u :
  (require_operator o : M unit) e w = Done w' u →
  w' = w ∧ authorized e o = true ∧ admin (store w) = Some o.
Proof. unfold require_operator, require_admin. intros Hrun. run_inv. by bool_prop. Qed.
End Effects.

(** Take a returning call of the outbox apart. *)
Ltac outbox_inv :=
  unfold load_event, load_endpoint, load_intent, next_sequence, require_commitment in *;
  unfold load_queue, load_hooks, load_settlements in *;
  repeat (run_inv;
    match goal with
    | H : require_operator _ _ _ = Done _ _ |- _ =>
        let Ha := fresh "Hauth" in let Hb := fresh "Hadm" in
        apply require_operator_done in H as (-> & Ha & Hb)
    | H : require_admin _ _ _ = Done _ _ |- _ => unfold require_admin in H
    end);
  run_inv; bool_prop; checked_prop.

Section Effects2.
Context {L : Type}.
Abbreviation W := (World L Store Event).
Abbreviation M := (Contract L Store Event ContractError).
Implicit Types (w : W).

Lemma enqueue_done o s t v c key p e w w' r :
  (enqueue o s t v c key p : M Z) e w = Done w' r →
  authorized e o = true ∧ admin (store w) = Some o ∧ v ≠ 0 ∧
  (dedup (queue (store w)) !! key = Some r ∧ w' = w ∨
   dedup (queue (store w)) !! key = None ∧ next_event_id (queue (store w)) = Some r ∧
   backlog (queue (store w)) < MAX_PENDING_EVENTS ∧ r < u64_max ∧
   store w' = on_queue (enqueued key r (mkEvent r t v c p s (timestamp e) 0)) (store w)).
Proof.
  intros Hrun. unfold enqueue in Hrun. outbox_inv.
  destruct (dedup (queue (store w)) !! key) as [i|] eqn:Hd; outbox_inv.
  - split_and!; [done..|]. by left.
  - split_and!; [done..|]. right. split_and!; [done..|lia|done].
Qed.

Lemma queue_done c e w w' u :
  (exec_queue c : M unit) e w = Done w' u →
  (is_Some (admin (store w)) ∨ queue (store w) ≠ empty_queue) ∧
  ∃ q', store w' = on_queue (λ _, q') (store w) ∧ queue_effect e (queue (store w)) c q'.
Proof.
  intros Hrun. destruct c as [o s t v c key p|r i|c i|a h n]; simpl in Hrun.
  - apply ignore_done in Hrun as [r Hrun].
    apply enqueue_done in Hrun as (_ & Had & _ & [[Hd ->]|(Hd & Hn & Hb & Hm & Hst)]); (split; [left; by eexists|]).
    + exists (queue (store w)). split; [by destruct (store w)|]. by eapply Q_known.
    + eexists. split; [exact Hst|]. by apply Q_enqueue.
  - unfold mark_published in Hrun. outbox_inv. split; [left; by eexists|]. eexists. split; [reflexivity|].
    by apply Q_publish.
  - apply ignore_done in Hrun as [r Hrun]. unfold acknowledge in Hrun. outbox_inv.
    split; [right; intros Heq; by rewrite Heq in *|].
    destruct (_ && _) eqn:Hb; outbox_inv.
    + exists (queue (store w)). split; [by destruct (store w)|].
      apply Q_repeat; [by eexists|done].
    + eexists. split; [reflexivity|]. apply Q_acknowledge; [by eexists|done].
  - apply ignore_done in Hrun as [r Hrun]. unfold prune in Hrun. outbox_inv.
    split; [left; by eexists|].
    match goal with H : sweep_from _ _ _ = Some ?x |- _ => destruct x as [s|s|]; outbox_inv end;
      (eexists; split; [reflexivity|]; apply Q_prune; auto; lia).
Qed.

Lemma evict_done i n e w w' u :
  (evict i n : M unit) e w = Done w' u →
  store w' = on_hooks (evicted i n) (store w).
Proof.
  intros Hrun. unfold evict in Hrun. outbox_inv. unfold on_hooks, evicted, history_count, history_floor.
  revert Hrun. destruct (Z.leb_spec MAX_DELIVERY_HISTORY (default 0 (delivery_counts (hooks (store w)) !! i)));
    intros Hrun; outbox_inv; simpl; [done|].
  match goal with H : (if _ then _ else _) _ _ = _ |- _ => revert H end.
  destruct (Z.eqb_spec (default 0 (delivery_counts (hooks (store w)) !! i)) 0); intros Hif; by outbox_inv.
Qed.

Lemma hooks_done c e w w' u :
  (exec_hooks c : M unit) e w = Done w' u →
  (is_Some (admin (store w)) ∨ hooks (store w) ≠ empty_hooks) ∧
  ∃ h', store w' = on_hooks (λ _, h') (store w) ∧
    hook_effect e (queue (store w)) (hooks (store w)) c h'.
Proof.
  intros Hrun. destruct c as [p o url secret ts|p i secret|p i b|p i ev n x out|o i n]; simpl in Hrun.
  - apply ignore_done in Hrun as [r Hrun]. unfold register_endpoint in Hrun. outbox_inv.
    split; [left; by eexists|]. eexists. split; [reflexivity|].
    apply H_register; try done; unfold MAX_ENDPOINT_TOPICS in *; lia.
  - apply ignore_done in Hrun as [r Hrun]. unfold rotate_secret in Hrun. outbox_inv.
    split; [left; by eexists|]. eexists. split; [reflexivity|]. by apply H_rotate.
  - unfold set_endpoint_active in Hrun. outbox_inv.
    split; [left; by eexists|]. eexists. split; [reflexivity|]. by apply H_switch.
  - apply ignore_done in Hrun as [r Hrun]. unfold record_delivery in Hrun. outbox_inv.
    split; [left; by eexists|].
    match goal with H : evict _ _ _ _ = _ |- _ => apply evict_done in H as Hst end. simpl. rewrite Hst. simpl.
    eexists. split; [reflexivity|]. eapply H_record; try done; try lia; [|unfold attempts_of; lia].
    match goal with H : _ ∨ _ |- _ => destruct H; bool_prop; [by left|right; by apply contains_true] end.
  - unfold acknowledge_delivery in Hrun. outbox_inv.
    split; [right; intros Heq; by rewrite Heq in *|]. eexists. split; [reflexivity|].
    eapply H_ack; done.
Qed.

Lemma raise_alert_done e w w' u :
  (raise_alert : M unit) e w = Done w' u →
  w' = mkWorld (ledger w) (on_settlements (put_alerted (alerts (settlements (store w)) + 1)) (store w)) (log w).
Proof. intros Hrun. unfold raise_alert in Hrun. by outbox_inv. Qed.

Lemma settlements_done c e w w' u :
  (exec_settlements c : M unit) e w = Done w' u →
  is_Some (admin (store w)) ∧
  ∃ s', store w' = on_settlements (λ _, s') (store w) ∧
    settlement_effect e (settlements (store w)) c s'.
Proof.
  intros Hrun. destruct c as [p i source c n f|p i tx l|p i n|p i|p i h|p i]; simpl in Hrun.
  - unfold open_settlement in Hrun. outbox_inv. split; [by eexists|]. eexists. split; [reflexivity|].
    apply S_open; try done. by apply eq_None_not_Some.
  - unfold observe_settlement in Hrun. outbox_inv. split; [by eexists|].
    destruct (Z.eqb_spec (observed_ledger x0) 0); simpl in Hrun; [|destruct (_ && _)]; outbox_inv.
    + eexists. split; [reflexivity|]. by apply S_observe.
    + exists (settlements (store w)). split; [by destruct (store w)|]. apply S_same.
  - apply ignore_done in Hrun as [r Hrun]. unfold reconcile_settlement in Hrun. outbox_inv.
    split; [by eexists|]. destruct (decide (state x0 = Pending)) as [Hp|Hp].
    + rewrite bool_decide_true in Hrun by done. simpl in Hrun. outbox_inv.
      match goal with H : (if ?c then _ else _) _ _ = _ |- _ => revert H; destruct (Z.eqb_spec n (expected_amount x0)) as [Hn|Hn]; intros Ha; outbox_inv end.
      * eexists. split; [reflexivity|]. pose proof (S_reconcile e (settlements (store w)) p i n x0) as Hr.
        rewrite (proj2 (Z.eqb_eq _ _)) in Hr by done. apply Hr; try done; lia.
      * apply raise_alert_done in Ha as ->. eexists. split; [reflexivity|].
        pose proof (S_reconcile e (settlements (store w)) p i n x0) as Hr.
        rewrite (proj2 (Z.eqb_neq _ _)) in Hr by done. apply Hr; try done; lia.
    + rewrite bool_decide_false in Hrun by done. simpl in Hrun. outbox_inv.
      exists (settlements (store w)). split; [by destruct (store w)|]. apply S_same.
  - unfold expire_settlement in Hrun. outbox_inv. split; [by eexists|].
    match goal with H : raise_alert _ _ = _ |- _ => apply raise_alert_done in H as -> end.
    eexists. split; [reflexivity|]. by apply (S_expire e (settlements (store w)) p i x0).
  - unfold resolve_settlement in Hrun. outbox_inv. split; [by eexists|].
    eexists. split; [reflexivity|]. by apply S_resolve.
  - unfold archive_settlement in Hrun. outbox_inv. split; [by eexists|].
    eexists. split; [reflexivity|]. by eapply S_archive.
Qed.

(** ** One register at a time *)

Inductive effect (e : Env) (st : Store) : Call → Store → Prop :=
| E_initialize a : admin st = None → effect e st (CInitialize a) (put_initial a st)
| E_queue c q' : queue_effect e (queue st) c q' → effect e st (OnQueue c) (on_queue (λ _, q') st)
| E_hooks c h' :
    hook_effect e (queue st) (hooks st) c h' → effect e st (OnHooks c) (on_hooks (λ _, h') st)
| E_settlements c s' :
    settlement_effect e (settlements st) c s' → effect e st (OnSettlements c) (on_settlements (λ _, s') st).

Definition empty_store : Store := mkStore None empty_queue empty_hooks empty_settlements.
Definition deployed (w : W) : Prop := store w = empty_store.

Lemma outbox_effect c e w w' u :
  exec c e w = Done w' u → effect e (store w) c (store w') ∧
  (∀ c', (c = OnQueue c' → is_Some (admin (store w)) ∨ queue (store w) ≠ empty_queue)) ∧
  (∀ c', (c = OnHooks c' → is_Some (admin (store w)) ∨ hooks (store w) ≠ empty_hooks)) ∧
  (∀ c', (c = OnSettlements c' → is_Some (admin (store w)))).
Proof.
  intros Hrun. destruct c as [a|c|c|c]; simpl in Hrun.
  - unfold initialize in Hrun. run_inv. bool_prop. split; [|done]. apply E_initialize. by apply eq_None_not_Some.
  - apply queue_done in Hrun as (Hs & q' & -> & Hq). split; [by apply E_queue|]. split_and!; [by intros|done..].
  - apply hooks_done in Hrun as (Hs & h' & -> & Hq). split; [by apply E_hooks|]. split_and!; [done|by intros|done].
  - apply settlements_done in Hrun as (Hs & s' & -> & Hq). split; [by apply E_settlements|]. split_and!; [done..|by intros].
Qed.

Abbreviation Reach this := (reachable exec valid this (λ _ _, True) deployed).

(** What holds of the empty and the fresh storage, and is kept by the calls of each register,
    holds of every reachable storage. *)
Lemma register_inv this (J : Store → Prop) :
  J empty_store → (∀ a, J (put_initial a empty_store)) →
  (∀ c e st q', J st → valid e (OnQueue c) → queue_effect e (queue st) c q' → J (on_queue (λ _, q') st)) →
  (∀ c e st h', J st → valid e (OnHooks c) → hook_effect e (queue st) (hooks st) c h' → J (on_hooks (λ _, h') st)) →
  (∀ c e st s', J st → valid e (OnSettlements c) → settlement_effect e (settlements st) c s' →
    J (on_settlements (λ _, s') st)) →
  ∀ w, Reach this w → J (store w) ∧ (admin (store w) = None → store w = empty_store).
Proof.
  intros H0 H1 Hq Hh Hs. apply (reachable_inv _ _ _ _ _ (λ w, J (store w) ∧ (admin (store w) = None → store w = empty_store))).
  - by intros w ->.
  - intros c e w w' u _ Hv [HJ Hn] Hrun. apply outbox_effect in Hrun as (Heff & Eq & Eh & Es).
    destruct Heff as [a Ha|c q' Hc|c h' Hc|c s' Hc]; simpl.
    + split; [|done]. rewrite (Hn Ha). apply H1.
    + split; [by eapply Hq|]. intros Ha. specialize (Hn Ha).
      destruct (Eq c eq_refl) as [[? ?]|Hne]; [congruence|by rewrite Hn in Hne].
    + split; [by eapply Hh|]. intros Ha. specialize (Hn Ha).
      destruct (Eh c eq_refl) as [[? ?]|Hne]; [congruence|by rewrite Hn in Hne].
    + split; [by eapply Hs|]. intros Ha. destruct (Es c eq_refl). congruence.
  - done.
Qed.
End Effects2.

(** ** A deployment for concrete runs *)
Module Demo.
Definition this : Address := addr 0.
Definition boss : Address := addr 1.
Definition sponsor : Address := addr 2.
Definition consumer : Address := addr 3.
(** Ledger [n] closes at second [5 n]. *)
Definition at_ledger (n : Z) : Env := mkEnvAt (5 * n) this (λ _, true) n 9.
Definition w0 : World unit Store Event := mkWorld tt empty_store [].
Definition setup : list (Env * Call) :=
  [(at_ledger 1, CInitialize boss);
   (at_ledger 2, OnQueue (CEnqueue boss consumer "award" 1 11 21 31));
   (at_ledger 3, OnQueue (CEnqueue boss consumer "award" 1 12 22 32))].
Definition w1 : World unit Store Event := run_calls exec setup w0.

Lemma demo_reach calls :
  Forall (λ ec : Env * Call, self ec.1 = this ∧ valid ec.1 ec.2) calls →
  reachable exec valid this (λ _ _, True) deployed (run_calls exec calls w0).
Proof. apply reachable_run. by apply reach_init. Qed.
End Demo.

(** Check a list of concrete calls. *)
Ltac valid_calls := repeat constructor; simpl; try done; range_lia.
