(* ===== verification/OutboxQueue.v ===== *)
(** * The queue of events: properties

    The counters of the queue are exact, an event is neither lost nor altered before it is
    published, a key enqueues one event for ever, and a sweep removes exactly the published
    prefix it may. *)
From S2P Require Import Prelude Machine Host Loops Outbox OutboxEffects.

(** One for an event that is still to be published. *)
Definition unpublished (i : Z) (ev : OutboxEvent) : Z := if published_at ev =? 0 then 1 else 0.

Record queue_inv (q : Queue) : Prop := {
  qi_next : next_id q ≤ u64_max;
  qi_floor : 1 ≤ swept_to q ≤ next_id q;
  qi_events i ev : events q !! i = Some ev → ev_id ev = i ∧ swept_to q ≤ i < next_id q ∧ 0 ≤ published_at ev;
  qi_payload i ev : events q !! i = Some ev → bytes32 (payload_hash ev) = true;
  qi_present i : swept_to q ≤ i < next_id q → is_Some (events q !! i);
  qi_backlog : backlog q = map_sum unpublished (events q);
  qi_bound : backlog q ≤ MAX_PENDING_EVENTS;
  qi_dedup k i : dedup q !! k = Some i → 1 ≤ i < next_id q;
  qi_keys i : 1 ≤ i < next_id q → ∃ k, dedup q !! k = Some i;
  qi_inj k k' i : dedup q !! k = Some i → dedup q !! k' = Some i → k = k';
  qi_cursor c i : cursors q !! c = Some i → 1 ≤ i < next_id q
}.

(** ** The sweep *)

(** The first [n] entries from the floor may go, and what is kept without them. *)
Definition prefix_swept (q : Queue) (horizon n : Z) (s : Sweep) : Prop :=
  floor s = swept_to q + n ∧ pruned s = n ∧ swept_to q + n ≤ next_id q ∧
  (∀ i, swept_to q ≤ i < swept_to q + n → removable horizon (events q !! i) = true) ∧
  (∀ i, kept s !! i = if decide (swept_to q ≤ i < swept_to q + n) then None else events q !! i) ∧
  map_sum unpublished (kept s) = map_sum unpublished (events q).

Lemma removable_published horizon i o :
  removable horizon o = true → from_option (unpublished i) 0 o = 0.
Proof. destruct o as [ev|]; simpl; [|done]. unfold unpublished. by destruct (_ =? 0). Qed.

Lemma prefix_swept_next q horizon n s :
  0 ≤ n → prefix_swept q horizon n s → swept_to q + n < next_id q →
  removable horizon (kept s !! floor s) = true →
  prefix_swept q horizon (n + 1) (mkSweep (floor s + 1) (pruned s + 1) (delete (floor s) (kept s))).
Proof.
  intros Hn (Hf & Hp & Hle & Hall & Hkept & Hsum) Hlt Hr.
  assert (removable horizon (events q !! floor s) = true) as Hr'.
  { rewrite Hkept, decide_False in Hr by lia. done. }
  split_and!; simpl; [lia..| | |].
  - intros i Hi. destruct (decide (i = floor s)) as [->|]; [done|]. apply Hall. lia.
  - intros i. rewrite lookup_delete. case_decide as Hi; [subst|].
    + by rewrite decide_True by lia.
    + rewrite Hkept. repeat case_decide; try done; exfalso; lia.
  - rewrite map_sum_delete, Hsum. apply (removable_published _ (floor s)) in Hr. unfold at_key.
    destruct (kept s !! floor s); simpl in Hr; lia.
Qed.

Lemma sweep_spec q horizon limit :
  queue_inv q → 0 ≤ limit ≤ u32_max →
  ∃ x s n, sweep_from q horizon limit = Some x ∧ (x = Sweeping s ∨ x = Stopped s) ∧
    0 ≤ n ≤ limit ∧ prefix_swept q horizon n s ∧
    (n = limit ∨ swept_to q + n = next_id q ∨ removable horizon (events q !! (swept_to q + n)) = false).
Proof.
  intros Hi Hl. pose proof (qi_next _ Hi) as Hmax. pose proof (qi_floor _ Hi) as Hfl.
  set (J x := match x with
    | Sweeping s => ∃ n, 0 ≤ n ≤ limit ∧ prefix_swept q horizon n s
    | Stopped s => ∃ n, 0 ≤ n ≤ limit ∧ prefix_swept q horizon n s ∧
        removable horizon (events q !! (swept_to q + n)) = false
    | Overflowed => False
    end).
  destruct (while_total (sweep_more (next_id q) limit) (sweep_step horizon) J
    (λ x, match x with Sweeping s => S (Z.to_nat (limit - pruned s)) | _ => O end))
    with (fuel := S (S (Z.to_nat limit))) (s := Sweeping (mkSweep (swept_to q) 0 (events q)))
    as (x & Hrun & HJ & Hend).
  - intros x HJ Hmore. destruct x as [s|s|]; simpl in Hmore; try done. bool_prop.
    destruct HJ as (n & Hn & Hs). pose proof Hs as (Hf & Hp & Hle & Hall & Hkept & Hsum).
    eexists. split; [done|]. destruct (removable horizon (kept s !! floor s)) eqn:Hr.
    + unfold checked_add_u64, checked_add_u32. rewrite !checked_in by lia. simpl. split; [|lia].
      exists (n + 1). split; [lia|]. apply prefix_swept_next; try done; lia.
    + simpl. split; [|lia]. exists n. split; [done|]. split; [done|].
      rewrite Hkept, decide_False in Hr by lia. by rewrite <-Hf.
  - exists 0. split; [lia|]. split_and!; simpl; try done; try lia.
    intros i. by rewrite decide_False by lia.
  - simpl. lia.
  - exists x. destruct x as [s|s|]; [| |done].
    + destruct HJ as (n & Hn & Hs). exists s, n. split; [exact Hrun|]. split; [by left|].
      split; [done|]. split; [done|]. destruct Hs as (Hf & Hp & Hle & _). simpl in Hend. bool_prop.
      destruct Hend as [Hend|Hend]; bool_prop; [right; left; lia|left; lia].
    + destruct HJ as (n & Hn & Hs & Hr). exists s, n. split; [exact Hrun|]. split; [by right|].
      split; [done|]. split; [done|]. by right; right.
Qed.

(** ** The invariant *)

Lemma queue_inv_empty : queue_inv empty_queue.
Proof.
  split; try done; unfold next_id, swept_to, backlog; simpl; unfold MAX_PENDING_EVENTS; try range_lia;
    intros i Hi; lia.
Qed.

Lemma queue_inv_started : queue_inv started_queue.
Proof.
  split; try done; unfold next_id, swept_to, backlog; simpl; unfold MAX_PENDING_EVENTS; try range_lia;
    intros i Hi; lia.
Qed.

Lemma enqueued_inv key i ev q :
  queue_inv q → dedup q !! key = None → next_event_id q = Some i → backlog q < MAX_PENDING_EVENTS →
  i < u64_max → ev_id ev = i → published_at ev = 0 → bytes32 (payload_hash ev) = true →
  queue_inv (enqueued key i ev q).
Proof.
  intros [H1 H2 H3 Hpay H4 H5 H6 H7 H8 H9 H10] Hk Hn Hb Hm Hid Hp Hbytes.
  assert (next_id q = i) as Hni by (unfold next_id; by rewrite Hn). rewrite Hni in *.
  assert (events q !! i = None) as Hnew.
  { destruct (events q !! i) as [x|] eqn:Hx; [|done]. apply H3 in Hx. lia. }
  split; unfold next_id, swept_to, backlog in *; simpl; unfold next_id, swept_to, backlog; [lia|lia| | | | |lia| | | |].
  - intros j x. rewrite lookup_insert. case_decide; [intros [= <-]; subst; lia|].
    intros Hx%H3. lia.
  - intros j x. rewrite lookup_insert. case_decide; [by intros [= <-]|apply Hpay].
  - intros j Hj. rewrite lookup_insert. case_decide; [by eexists|]. apply H4. lia.
  - rewrite map_sum_insert_new, <-H5 by done. unfold unpublished. rewrite Hp. simpl. lia.
  - intros k j. rewrite lookup_insert. case_decide; [intros [= <-]; lia|]. intros Hj%H7. lia.
  - intros j Hj. destruct (decide (j = i)) as [->|]; [exists key; by rewrite lookup_insert_eq|].
    destruct (H8 j) as [k Hkj]; [lia|]. exists k. rewrite lookup_insert_ne; [done|congruence].
  - intros k k' j. rewrite !lookup_insert. repeat case_decide; intros Ha Hb'; simplify_eq; try done.
    + apply H7 in Hb'. lia.
    + apply H7 in Ha. lia.
    + by apply (H9 k k' j).
  - intros c j Hj%H10. lia.
Qed.

Lemma published_inv t i ev q :
  queue_inv q → events q !! i = Some ev → published_at ev = 0 → 0 < t →
  queue_inv (put_pending (saturating_sub_u64 (backlog q) 1) (put_event i (published t ev) q)).
Proof.
  intros Hi Hev Hp Ht. pose proof (qi_events _ Hi _ _ Hev) as (Hid & Hr & _).
  assert (map_sum unpublished (<[i := published t ev]> (events q)) = backlog q - 1) as Hsum.
  { rewrite map_sum_insert, (qi_backlog _ Hi). unfold at_key, unpublished at 2 3. rewrite Hev, Hp. simpl.
    rewrite (proj2 (Z.eqb_neq _ _)) by lia. lia. }
  assert (0 ≤ map_sum unpublished (<[i := published t ev]> (events q))) as Hpos.
  { apply map_sum_nonneg. intros j x _. unfold unpublished. by destruct (_ =? 0). }
  unfold saturating_sub_u64. rewrite Z.max_r by lia.
  destruct Hi as [H1 H2 H3 Hpay H4 H5 H6 H7 H8 H9 H10].
  split; unfold next_id, swept_to, backlog in *; simpl; unfold next_id, swept_to, backlog; [lia|lia| | | |lia|lia|done..].
  - intros j x. rewrite lookup_insert. case_decide; [intros [= <-]; subst; simpl; lia|]. apply H3.
  - intros j x. rewrite lookup_insert. case_decide; [intros [= <-]; by apply Hpay in Hev|apply Hpay].
  - intros j Hj. rewrite lookup_insert. case_decide; [by eexists|]. by apply H4.
Qed.

Lemma cursor_inv c i q :
  queue_inv q → is_Some (events q !! i) → queue_inv (put_cursor c i q).
Proof.
  intros Hi [ev Hev]. pose proof (qi_events _ Hi _ _ Hev) as (_ & Hr & _). pose proof (qi_floor _ Hi).
  destruct Hi as [H1 H2 H3 Hpay H4 H5 H6 H7 H8 H9 H10]. split; try done. intros d j. simpl.
  unfold next_id in *. simpl in *. rewrite lookup_insert. case_decide; [intros [= <-]; lia|]. apply H10.
Qed.

Lemma swept_inv q horizon n s :
  queue_inv q → 0 ≤ n → prefix_swept q horizon n s → queue_inv (put_swept (floor s) (kept s) q).
Proof.
  intros [H1 H2 H3 Hpay H4 H5 H6 H7 H8 H9 H10] Hn (Hf & Hp & Hle & Hall & Hkept & Hsum).
  split; unfold next_id, swept_to, backlog in *; simpl; unfold next_id, swept_to, backlog; try done; [lia| | | |].
  - intros i ev. rewrite Hkept. case_decide; [done|]. intros Hev. apply H3 in Hev as He. 
    split_and!; [apply He|lia|lia|apply He].
  - intros i ev. rewrite Hkept. case_decide; [done|]. apply Hpay.
  - intros i Hi. rewrite Hkept, decide_False by lia. apply H4. lia.
  - by rewrite Hsum.
Qed.

Lemma queue_effect_inv e q c q' :
  queue_inv q → valid e (OnQueue c) → queue_effect e q c q' → queue_inv q'.
Proof.
  intros Hi (Ht & _ & Hv) Hef.
  destruct Hef as [| |r i ev Hev Hp| |c i Hev Hc|a h n s Hh Hn0 Hn Hs]; try done.
  - destruct Hv as [_ Hbytes]. by apply enqueued_inv.
  - apply published_inv; try done. lia.
  - by apply cursor_inv.
  - destruct (sweep_spec q h n Hi) as (x & s' & k & Hx & Hxs & Hk & Hpre & _); [lia|].
    assert (s' = s) as -> by (destruct Hs, Hxs; simplify_eq; done).
    apply (swept_inv q h k); [done|lia|done].
Qed.

Section Queue.
Context {L : Type}.
Abbreviation W := (World L Store Event).
Implicit Types (w : W).
Abbreviation Reach this := (reachable exec valid this (λ _ _, True) deployed).

Lemma queue_reachable this w :
  Reach this w → queue_inv (queue (store w)) ∧ (admin (store w) = None → store w = empty_store).
Proof.
  apply (register_inv this (λ st, queue_inv (queue st))).
  - apply queue_inv_empty.
  - intros a. apply queue_inv_started.
  - intros c e st q' Hi Hv Hef. by eapply queue_effect_inv.
  - done.
  - done.
Qed.

(** The queue reconciles.  In every reachable world the reported backlog is the number of
    events still to be published, at most 10000; the stored events are exactly those from the
    prune floor to the next id; every id handed out has exactly one deduplication key; and no
    cursor points past the last id. *)
Theorem queue_reconciles this w e :
  Reach this w →
  let q := queue (store w) in
  pending_count e w = Done w (map_sum unpublished (events q)) ∧
  map_sum unpublished (events q) ≤ 10000 ∧
  (∀ i, is_Some (events q !! i) ↔ swept_to q ≤ i < next_id q) ∧
  (∀ i, (∃ k, dedup q !! k = Some i) ↔ 1 ≤ i < next_id q) ∧
  (∀ k k' i, dedup q !! k = Some i → dedup q !! k' = Some i → k = k') ∧
  (∀ c i, cursors q !! c = Some i → 1 ≤ i < next_id q).
Proof.
  intros [Hi _]%queue_reachable q. pose proof (qi_backlog _ Hi) as Hb. pose proof (qi_bound _ Hi) as Hm.
  unfold MAX_PENDING_EVENTS in Hm. split; [unfold pending_count, load_queue, load; f_equal; exact Hb|].
  split; [fold q in Hb, Hm; lia|]. split; [intros i; split; [intros [ev Hev]; apply (qi_events _ Hi) in Hev as (_ & Hr & _); exact Hr|apply (qi_present _ Hi)]|].
  split; [intros i; split; [intros [k Hk]; by apply (qi_dedup _ Hi) in Hk|apply (qi_keys _ Hi)]|].
  split; [apply (qi_inj _ Hi)|apply (qi_cursor _ Hi)].
Qed.

(** ** Sequences of calls on an initialised contract *)

Lemma queue_step c e w w' u :
  valid e c → queue_inv (queue (store w)) → is_Some (admin (store w)) → exec c e w = Done w' u →
  queue_inv (queue (store w')) ∧ is_Some (admin (store w')) ∧
  (queue (store w') = queue (store w) ∧ (∀ c', c ≠ OnQueue c') ∨
   ∃ c', c = OnQueue c' ∧ queue_effect e (queue (store w)) c' (queue (store w'))).
Proof.
  intros Hv Hi Had Hrun. apply outbox_effect in Hrun as (Heff & _).
  destruct Heff as [a Ha|c q' Hc|c h' Hc|c s' Hc]; simpl.
  - rewrite Ha in Had. by destruct Had.
  - split; [by eapply queue_effect_inv|]. split; [done|]. right. by exists c.
  - split; [done|]. split; [done|]. left. split; [done|]. by intros.
  - split; [done|]. split; [done|]. left. split; [done|]. by intros.
Qed.

Lemma next_id_grows e q c q' : queue_inv q → queue_effect e q c q' → next_id q ≤ next_id q'.
Proof.
  intros Hi Hef. destruct Hef; unfold next_id; simpl; try lia.
  match goal with H : next_event_id q = _ |- _ => rewrite H end. simpl. lia.
Qed.

Definition publishes (i : Z) (e : Env) (c : Call) : bool :=
  match c with OnQueue (CMarkPublished _ j) => j =? i | _ => false end.

(** Zero while the event waits, one from its publication on. *)
Definition progress (o : option OutboxEvent) : Z :=
  match o with Some x => if published_at x =? 0 then 0 else 1 | None => 1 end.

(** What is stored of an event that was enqueued as [ev]. *)
Definition same_event (ev : OutboxEvent) (o : option OutboxEvent) : Prop :=
  ∀ x, o = Some x → x = published (published_at x) ev.

Lemma event_step i ev e q c q' :
  queue_inv q → valid e (OnQueue c) → i < next_id q → same_event ev (events q !! i) → queue_effect e q c q' →
  same_event ev (events q' !! i) ∧
  progress (events q' !! i) = progress (events q !! i) + (if publishes i e (OnQueue c) then 1 else 0).
Proof.
  intros Hi (Ht & _ & Hv) Hlt Hsame Hef. destruct Hef as
    [o s t v cc key p j Hd|o s t v cc key p j Hd Hn Hb Hm|r j x Hx Hp|c j Hj Hc|c j Hj Hc|a h n s Hh Hn0 Hn Hs]; simpl;
    try (split; [done|lia]).
  - assert (next_id q = j) by (unfold next_id; by rewrite Hn). rewrite lookup_insert_ne by lia.
    split; [done|lia].
  - rewrite lookup_insert. destruct (Z.eqb_spec j i) as [->|Hji].
    + rewrite decide_True by done. rewrite Hx. simpl. rewrite Hp. rewrite (proj2 (Z.eqb_neq (timestamp e) 0)) by lia.
      split; [|done]. intros y [= <-]. apply Hsame in Hx. rewrite Hx. done.
    + rewrite decide_False by done. split; [done|lia].
  - destruct (sweep_spec q h n Hi) as (y & s' & k & Hy & Hys & Hk & Hpre & _); [lia|].
    assert (s' = s) as -> by (destruct Hs, Hys; simplify_eq; done).
    destruct Hpre as (_ & _ & _ & Hall & Hkept & _). rewrite Hkept. case_decide as Hin; [|split; [done|lia]].
    split; [done|]. specialize (Hall i Hin). simpl. unfold removable in Hall.
    destruct (events q !! i) as [x|]; simpl; [|lia]. destruct (published_at x =? 0); [done|lia].
Qed.

(** C10: Events are durable.  From any reachable world, whatever calls follow, an event that is
    still to be published is published at most once; until then it is stored exactly as it
    was enqueued, and afterwards only its publication time may differ (until a sweep drops
    it). *)
Theorem event_durable this w calls i ev :
  Reach this w → Forall (λ ec, valid ec.1 ec.2) calls →
  events (queue (store w)) !! i = Some ev → published_at ev = 0 →
  let q' := queue (store (run_calls exec calls w)) in
  let n := accepted exec (publishes i) calls w in
  n ≤ 1 ∧ (n = 0 → events q' !! i = Some ev) ∧
  (∀ x, events q' !! i = Some x → x = published (published_at x) ev).
Proof.
  intros [Hi Hnone]%queue_reachable Hcalls Hev Hp q' n. rewrite Forall_forall in Hcalls.
  assert (is_Some (admin (store w))) as Had.
  { destruct (admin (store w)) eqn:Ha; [by eexists|]. by rewrite Hnone in Hev. }
  set (I w := queue_inv (queue (store w)) ∧ is_Some (admin (store w)) ∧ i < next_id (queue (store w)) ∧
    same_event ev (events (queue (store w)) !! i)).
  assert (published (published_at ev) ev = ev) as Heta by (rewrite Hp, <-Hp; by destruct ev).
  destruct (accepted_counts exec I (λ w, progress (events (queue (store w)) !! i)) (publishes i) calls w)
    as [(_ & _ & _ & Hsame) Hcount].
  - intros e c w0 w1 u (Hi0 & Ha0 & Hlt0 & Hs0) Hv%Hcalls Hrun. unfold I.
    destruct (queue_step c e w0 w1 u Hv Hi0 Ha0 Hrun) as (Hi1 & Ha1 & [[-> Hother]|(c' & -> & Hef)]).
    + split; [done|]. destruct c as [|c| |]; simpl; try lia. by destruct (Hother c).
    + destruct (event_step i ev _ _ _ _ Hi0 Hv Hlt0 Hs0 Hef) as [Hs1 Hf1].
      split; [|done]. split; [done|]. split; [done|]. split; [|done].
      pose proof (next_id_grows _ _ _ _ Hi0 Hef). lia.
  - split; [done|]. split; [done|]. pose proof (qi_events _ Hi _ _ Hev) as (_ & Hr & _). split; [lia|].
    intros x Hx. rewrite Hev in Hx. by simplify_eq.
  - fold q' in Hsame, Hcount. fold n in Hcount. rewrite Hev in Hcount. simpl in Hcount. rewrite Hp in Hcount. simpl in Hcount.
    split; [unfold progress in Hcount; destruct (events q' !! i) as [x|]; [destruct (_ =? 0)|]; lia|].
    split; [|done]. intros Hn. rewrite Hn in Hcount. unfold progress in Hcount.
    destruct (events q' !! i) as [x|] eqn:Hx; [|lia]. destruct (Z.eqb_spec (published_at x) 0) as [H0|]; [|lia].
    f_equal. rewrite (Hsame x eq_refl), H0, <-Hp. done.
Qed.

Lemma dedup_kept e q c q' key i :
  queue_effect e q c q' → dedup q !! key = Some i → dedup q' !! key = Some i.
Proof.
  intros Hef Hd. destruct Hef; simpl; try done. rewrite lookup_insert_ne; [done|congruence].
Qed.

(** One event per key.  If an enqueue returned an id, then after any further calls (the
    event may be published and swept by then, the backlog may be full) a retry of the
    operator with the same key, whatever its other arguments, returns that id and leaves the
    world, its events included, unchanged. *)
Theorem enqueue_once this w calls e0 o0 s0 t0 v0 c0 key p0 w1 i :
  Reach this w → Forall (λ ec, valid ec.1 ec.2) calls → valid e0 (OnQueue (CEnqueue o0 s0 t0 v0 c0 key p0)) →
  enqueue o0 s0 t0 v0 c0 key p0 e0 w = Done w1 i →
  let w' := run_calls exec calls w1 in
  ∀ e o s t v c p, authorized e o = true → admin (store w') = Some o → v ≠ 0 →
    invoke (enqueue o s t v c key p) e w' = (w', Returned i).
Proof.
  intros [Hi _]%queue_reachable Hcalls Hv0 Henq w'. rewrite Forall_forall in Hcalls.
  assert (exec (OnQueue (CEnqueue o0 s0 t0 v0 c0 key p0)) e0 w = Done w1 tt) as Hrun0
    by (apply ignore_done; by exists i).
  apply enqueue_done in Henq as (_ & Had & _ & Hcases).
  assert (is_Some (admin (store w))) as Has by by eexists.
  destruct (queue_step _ _ _ _ _ Hv0 Hi Has Hrun0) as (Hi1 & Ha1 & _).
  assert (dedup (queue (store w1)) !! key = Some i) as Hd.
  { destruct Hcases as [[Hd ->]|(_ & _ & _ & _ & ->)]; [done|]. simpl. by rewrite lookup_insert_eq. }
  set (I w := queue_inv (queue (store w)) ∧ is_Some (admin (store w)) ∧ dedup (queue (store w)) !! key = Some i).
  destruct (run_calls_inv exec I calls w1) as (_ & _ & Hd'); [|by split_and!|].
  - intros e c w2 w3 u (Hi2 & Ha2 & Hd2) Hv%Hcalls Hrun. unfold I.
    destruct (queue_step c e w2 w3 u Hv Hi2 Ha2 Hrun) as (Hi3 & Ha3 & [[-> _]|(c' & _ & Hef)]); [done|].
    split; [done|]. split; [done|]. by eapply dedup_kept.
  - intros e o s t v c p Ha Hadm Hv. fold w' in Hd'. apply invoke_run. unfold enqueue, require_operator, require_admin, load_queue.
    run_fwd. rewrite Hd'. done.
Qed.

(** A sweep removes exactly what it may.  In every reachable world [prune] returns, and it
    needs nobody's authorisation, only that the admin's address is passed: it removes the
    longest run of entries from the floor that are published before the horizon, up to
    [limit], and nothing else; an event that waits for publication is never removed. *)
Theorem prune_exact this w e a horizon limit :
  Reach this w → admin (store w) = Some a → 0 ≤ horizon ≤ timestamp e → 1 ≤ limit ≤ 200 →
  let q := queue (store w) in
  ∃ n s, invoke (prune a horizon limit) e w =
      (mkWorld (ledger w) (on_queue (put_swept (swept_to q + n) (kept s)) (store w)) (log w), Returned n) ∧
    0 ≤ n ≤ limit ∧
    (∀ i, kept s !! i = if decide (swept_to q ≤ i < swept_to q + n) then None else events q !! i) ∧
    (∀ i, swept_to q ≤ i < swept_to q + n →
      ∃ ev, events q !! i = Some ev ∧ published_at ev ≠ 0 ∧ published_at ev < horizon) ∧
    (n = limit ∨ swept_to q + n = next_id q ∨
     ∃ ev, events q !! (swept_to q + n) = Some ev ∧ (published_at ev = 0 ∨ horizon ≤ published_at ev)).
Proof.
  intros [Hi _]%queue_reachable Had Hh Hl q. fold q in Hi.
  destruct (sweep_spec q horizon limit Hi) as (x & s & n & Hx & Hxs & Hn & Hpre & Hend); [range_lia|].
  pose proof Hpre as (Hf & Hp & Hle & Hall & Hkept & _).
  exists n, s. split; [|split; [done|split; [done|split]]].
  - apply invoke_run. unfold prune, require_admin, load_queue, MAX_PRUNE_PER_CALL. run_fwd.
    rewrite <-Hf, <-Hp. by destruct Hxs as [->| ->].
  - intros i Hin. specialize (Hall i Hin). destruct (qi_present _ Hi i) as [ev Hev]; [lia|].
    rewrite Hev in Hall. simpl in Hall. exists ev. destruct (Z.eqb_spec (published_at ev) 0); [done|].
    bool_prop. done.
  - destruct Hend as [?|[?|Hr]]; [by left|by right; left|right].
    destruct (decide (swept_to q + n = next_id q)); [by left|right].
    destruct (qi_present _ Hi (swept_to q + n)) as [ev Hev]; [lia|]. rewrite Hev in Hr. simpl in Hr.
    exists ev. split; [done|]. destruct (Z.eqb_spec (published_at ev) 0); [by left|right]. bool_prop. lia.
Qed.
End Queue.

(** ** Concrete runs *)
Module Runs.
Import Demo.
Abbreviation Reach := (reachable exec valid this (λ _ _, True) deployed).

Lemma queue_w1_reach : Reach w1.
Proof. apply demo_reach. valid_calls. Qed.

(** The first event is published twice, acknowledged, and the queue swept by a stranger. *)
Definition relay : list (Env * Call) :=
  [(at_ledger 4, OnQueue (CMarkPublished boss 1)); (at_ledger 5, OnQueue (CMarkPublished boss 1));
   (at_ledger 6, OnQueue (CAcknowledge consumer 1)); (at_ledger 9, OnQueue (CPrune boss 40 10))].
Lemma relay_valid : Forall (λ ec : Env * Call, valid ec.1 ec.2) relay.
Proof. valid_calls. Qed.
Definition event1 : OutboxEvent := mkEvent 1 "award" 1 11 31 consumer 10 0.
Definition event2 : OutboxEvent := mkEvent 2 "award" 1 12 32 consumer 15 0.

Lemma queue_reconciles_witness :
  pending_count (at_ledger 4) w1 = Done w1 2 ∧ ∀ i, is_Some (events (queue (store w1)) !! i) ↔ 1 ≤ i < 3.
Proof.
  destruct (queue_reconciles this w1 (at_ledger 4) queue_w1_reach) as (_ & _ & Hids & _).
  split; [vm_compute; reflexivity|exact Hids].
Defined.

Lemma event_durable_witness :
  accepted exec (publishes 1) relay w1 = 1 ∧ accepted exec (publishes 2) relay w1 = 0 ∧
  events (queue (store (run_calls exec relay w1))) !! 1 = None ∧
  events (queue (store (run_calls exec relay w1))) !! 2 = Some event2.
Proof.
  assert (events (queue (store w1)) !! 2 = Some event2) as H2 by (vm_compute; reflexivity).
  assert (accepted exec (publishes 2) relay w1 = 0) as Hn by (vm_compute; reflexivity).
  destruct (event_durable this w1 relay 2 event2 queue_w1_reach relay_valid H2 eq_refl) as (_ & Hk & _).
  split; [vm_compute; reflexivity|]. split; [exact Hn|]. split; [vm_compute; reflexivity|exact (Hk Hn)].
Defined.

Lemma enqueue_once_witness :
  invoke (enqueue boss boss "other" 7 0 23 0) (at_ledger 20) (run_calls exec relay (run_calls exec
    [(at_ledger 4, OnQueue (CEnqueue boss consumer "award" 1 13 23 33))] w1)) =
  (run_calls exec relay (run_calls exec
    [(at_ledger 4, OnQueue (CEnqueue boss consumer "award" 1 13 23 33))] w1), Returned 3).
Proof.
  apply (enqueue_once this w1 relay (at_ledger 4) boss consumer "award" 1 13 23 33 _ 3 queue_w1_reach relay_valid).
  - unfold valid. simpl. split_and!; try done; range_lia.
  - vm_compute. reflexivity.
  - reflexivity.
  - vm_compute. reflexivity.
  - lia.
Defined.

Lemma prune_exact_witness :
  let e := mkEnvAt 100 this (λ _, false) 20 9 in
  let w := run_calls exec [(at_ledger 4, OnQueue (CMarkPublished boss 1))] w1 in
  (invoke (prune boss 50 10) e w).2 = Returned 1 ∧
  events (queue (store (invoke (prune boss 50 10) e w).1)) !! 1 = None.
Proof.
  intros e w. assert (Reach w) as Hw.
  { apply reachable_run; [apply queue_w1_reach|]. valid_calls. }
  destruct (prune_exact this w e boss 50 10 Hw) as (n & s & Hrun & _ & Hkept & _);
    [vm_compute; reflexivity|simpl; lia|lia|].
  assert ((invoke (prune boss 50 10) e w).2 = Returned 1) as Hn by (vm_compute; reflexivity).
  split; [exact Hn|]. rewrite Hrun in Hn |- *. injection Hn as ->.
  change (kept s !! 1 = None). rewrite Hkept. reflexivity.
Defined.
End Runs.
