(* ===== verification/OutboxWebhooks.v ===== *)
(** * Webhooks: properties

    Deliveries of an endpoint are numbered without gaps, the retained history is the last 256
    of them, a sponsor acknowledges a delivery once, and the signed digest binds the network,
    the deployment, the endpoint, the secret generation, the event and the number. *)
From S2P Require Import Prelude Machine Host Loops Outbox OutboxEffects OutboxQueue.
From S2P Require Signing.

Definition next_endpoint (h : Hooks) : Z := default 1 (next_endpoint_id h).
(** The last delivery number of an endpoint, zero for an unknown one. *)
Definition last_of (i : Z) (h : Hooks) : Z := from_option last_sequence 0 (endpoints h !! i).
(** The attempts recorded for an endpoint: one counter per event. *)
Definition attempts_for (i : Z) (k : Z * Z) (n : Z) : Z := if k.1 =? i then n else 0.

Definition endpoint_ok (h : Hooks) (i : Z) (x : WebhookEndpoint) : Prop :=
  ep_id x = i ∧ 1 ≤ i < next_endpoint h ∧ 0 ≤ last_sequence x ≤ u64_max ∧ 1 ≤ secret_epoch x ≤ u32_max.

(** The history of endpoint [i], whose last delivery is number [n]. *)
Record history_ok (h : Hooks) (i n : Z) : Prop := {
  ho_last : 0 ≤ n;
  ho_count : history_count i h = Z.min MAX_DELIVERY_HISTORY n;
  ho_floor : 0 < n → delivery_floors h !! i = Some (n - history_count i h + 1);
  ho_retained k : is_Some (deliveries h !! (i, k)) ↔ n - history_count i h < k ≤ n;
  ho_attempts : map_sum (attempts_for i) (attempts h) = n;
  ho_acked : 0 ≤ acked_up_to i h ≤ n
}.

Record hooks_inv (h : Hooks) : Prop := {
  hi_next : 1 ≤ next_endpoint h ≤ u64_max;
  hi_endpoints i x : endpoints h !! i = Some x → endpoint_ok h i x;
  hi_enrolled : enrolled_count h = next_endpoint h - 1;
  hi_ids i : 1 ≤ i < next_endpoint h → is_Some (endpoints h !! i);
  hi_cap : enrolled_count h ≤ MAX_ENDPOINTS;
  hi_attempts k n : attempts h !! k = Some n → 0 < n;
  hi_history i : history_ok h i (last_of i h)
}.

Lemma hooks_inv_fresh h :
  h = empty_hooks ∨ h = started_hooks → hooks_inv h.
Proof.
  intros Hh. assert (next_endpoint h = 1 ∧ enrolled_count h = 0 ∧ endpoints h = ∅ ∧ deliveries h = ∅ ∧
    attempts h = ∅ ∧ delivery_counts h = ∅ ∧ endpoint_acks h = ∅) as (H1 & H2 & H3 & H4 & H5 & H6 & H7)
    by by destruct Hh as [->| ->].
  split; rewrite ?H1, ?H2, ?H3, ?H5; try done; try (unfold MAX_ENDPOINTS; range_lia); try (intros; lia).
  intros i. unfold last_of. rewrite H3. simpl. split; unfold history_count, acked_up_to; rewrite ?H4, ?H5, ?H6, ?H7; simpl;
    try done; try lia. intros k. rewrite !lookup_empty. simpl. split; [by intros [? ?]|lia].
Qed.

(** The history of an endpoint depends on the counters of that endpoint only. *)
Definition same_history (i : Z) (h h' : Hooks) : Prop :=
  delivery_counts h' !! i = delivery_counts h !! i ∧ delivery_floors h' !! i = delivery_floors h !! i ∧
  (∀ k, is_Some (deliveries h' !! (i, k)) ↔ is_Some (deliveries h !! (i, k))) ∧
  map_sum (attempts_for i) (attempts h') = map_sum (attempts_for i) (attempts h) ∧
  endpoint_acks h' !! i = endpoint_acks h !! i.

Lemma same_history_ok i n h h' : same_history i h h' → history_ok h i n → history_ok h' i n.
Proof.
  intros (E1 & E2 & E3 & E4 & E5) [H1 H2 H3 H4 H5 H6].
  split; unfold history_count, acked_up_to in *; rewrite ?E1, ?E2, ?E4, ?E5; try done.
  intros k. rewrite E3. apply H4.
Qed.

Lemma saved_inv x y i h :
  hooks_inv h → endpoints h !! i = Some x → ep_id y = i → last_sequence y = last_sequence x →
  1 ≤ secret_epoch y ≤ u32_max → hooks_inv (save_endpoint y h).
Proof.
  intros [H1 H2 H3 H4 H5 H6 H7] Hx Hid Hlast Hep. pose proof (H2 _ _ Hx) as (_ & Hr & Hs & _).
  split; try done; unfold next_endpoint, enrolled_count in *; simpl.
  - intros j z. rewrite Hid, lookup_insert. case_decide; [intros [= <-]; subst|apply H2].
    unfold endpoint_ok. rewrite Hlast. done.
  - intros j Hj. rewrite Hid, lookup_insert. case_decide; [by eexists|by apply H4].
  - intros j. assert (last_of j (save_endpoint y h) = last_of j h) as ->.
    { unfold last_of. simpl. rewrite Hid, lookup_insert. case_decide; [subst; by rewrite Hx|done]. }
    apply (same_history_ok _ _ h); [done|apply H7].
Qed.

Lemma registered_inv i x h :
  hooks_inv h → next_endpoint_id h = Some i → i < u64_max → enrolled_count h < MAX_ENDPOINTS →
  ep_id x = i → last_sequence x = 0 → secret_epoch x = 1 →
  hooks_inv (put_enrolled (enrolled_count h + 1) (put_next_endpoint_id (i + 1) (save_endpoint x h))).
Proof.
  intros [H1 H2 H3 H4 H5 H6 H7] Hi Hmax Hroom Hid Hlast Hep.
  assert (next_endpoint h = i) as Hn by (unfold next_endpoint; by rewrite Hi). rewrite Hn in *.
  assert (endpoints h !! i = None) as Hnew.
  { destruct (endpoints h !! i) as [z|] eqn:Hz; [|done]. apply H2 in Hz as (_ & Hr & _). lia. }
  split; unfold next_endpoint, enrolled_count in *; simpl; unfold enrolled_count; try done; try lia.
  - intros j z. rewrite Hid, lookup_insert. unfold endpoint_ok, next_endpoint. simpl.
    case_decide; [intros [= <-]; subst; rewrite Hlast, Hep; range_lia|].
    intros (Ha & Hb & Hc & Hd)%H2. split_and!; try done; unfold next_endpoint in *; lia.
  - intros j Hj. rewrite Hid, lookup_insert. case_decide; [by eexists|]. apply H4. lia.
  - intros j. assert (last_of j (put_enrolled (default 0 (enrolled_endpoints h) + 1) (put_next_endpoint_id (i + 1) (save_endpoint x h))) = last_of j h) as Hl.
    { unfold last_of. simpl. rewrite Hid, lookup_insert. case_decide; [subst; by rewrite Hnew|done]. }
    unfold enrolled_count. rewrite Hl. apply (same_history_ok _ _ h); [done|apply H7].
Qed.

(** ** Recording a delivery *)

Definition noted (i ev n : Z) (r : DeliveryRecord) (h : Hooks) : Hooks :=
  evicted i n (put_delivery i n r (put_attempts i ev (attempts_of i ev h + 1) h)).

Lemma attempts_noted i ev n r h :
  attempts (noted i ev n r h) = <[(i, ev) := attempts_of i ev h + 1]> (attempts h).
Proof. unfold noted, evicted. destruct (_ <=? _); [done|]. by destruct (_ =? 0). Qed.

Lemma attempts_sum j i ev h :
  map_sum (attempts_for j) (<[(i, ev) := attempts_of i ev h + 1]> (attempts h)) =
  map_sum (attempts_for j) (attempts h) + (if i =? j then 1 else 0).
Proof.
  rewrite map_sum_insert. unfold at_key, attempts_for at 2 3, attempts_of. simpl.
  destruct (attempts h !! (i, ev)); simpl; destruct (i =? j); lia.
Qed.

Lemma noted_history i ev n r h :
  history_ok h i n → history_ok (noted i ev (n + 1) r h) i (n + 1).
Proof.
  intros [H1 H2 H3 H4 H5 H6].
  set (h1 := put_delivery i (n + 1) r (put_attempts i ev (attempts_of i ev h + 1) h)).
  assert (history_count i h1 = history_count i h) as Hc1 by done.
  assert (history_floor i h1 = history_floor i h) as Hf1 by done.
  assert (map_sum (attempts_for i) (attempts (noted i ev (n + 1) r h)) = n + 1) as Hatt.
  { rewrite attempts_noted, attempts_sum, Z.eqb_refl, H5. done. }
  unfold noted in *. fold h1 in Hatt |- *. unfold evicted in *. rewrite Hc1, Hf1 in *. unfold MAX_DELIVERY_HISTORY in *.
  destruct (Z.leb_spec 256 (history_count i h)) as [Hfull|Hroom].
  - assert (history_count i h = 256) as Hc by lia. assert (history_floor i h = n - 256 + 1) as Hf.
    { unfold history_floor. rewrite H3 by lia. simpl. lia. }
    rewrite Hf in *. split; [lia| | | |done|].
    + unfold history_count in *. simpl. unfold MAX_DELIVERY_HISTORY. lia.
    + intros _. simpl. rewrite lookup_insert_eq. unfold history_count in *. simpl. f_equal. lia.
    + intros k. unfold history_count in *. simpl. rewrite Hc in *. specialize (H4 k).
      destruct (decide (k = n - 256 + 1)) as [->|Hk1].
      * rewrite lookup_delete_eq. split; [by intros [? ?]|lia].
      * rewrite lookup_delete_ne by congruence. destruct (decide (k = n + 1)) as [->|Hk2].
        { rewrite lookup_insert_eq. split; [lia|by eexists]. }
        rewrite lookup_insert_ne by congruence. rewrite H4. lia.
    + unfold acked_up_to in *. simpl. lia.
  - assert (history_count i h = n) as Hc by lia. rewrite Hc in *.
    set (h2 := if n =? 0 then put_delivery_floor i (n + 1) h1 else h1) in *.
    assert (deliveries h2 = deliveries h1 ∧ attempts h2 = attempts h1 ∧ endpoint_acks h2 = endpoint_acks h) as (E1 & E2 & E3)
      by (unfold h2; by destruct (n =? 0)).
    split; [lia| | | |done|].
    + unfold history_count. simpl. rewrite lookup_insert_eq. simpl. unfold MAX_DELIVERY_HISTORY. lia.
    + intros _. unfold history_count. simpl. rewrite lookup_insert_eq. simpl. unfold h2.
      destruct (Z.eqb_spec n 0) as [Hn0|Hn0]; simpl; [rewrite lookup_insert_eq; f_equal; lia|]. rewrite H3 by lia. f_equal. lia.
    + intros k. unfold history_count. simpl. rewrite lookup_insert_eq. simpl. rewrite E1. unfold h1. simpl.
      destruct (decide (k = n + 1)) as [->|Hk]; [rewrite lookup_insert_eq; split; [lia|by eexists]|].
      rewrite lookup_insert_ne by congruence. rewrite H4. lia.
    + unfold acked_up_to in *. simpl. rewrite E3. lia.
Qed.

Lemma noted_other j i ev n r h : j ≠ i → same_history j h (noted i ev n r h).
Proof.
  intros Hji. unfold same_history. rewrite attempts_noted, attempts_sum, (proj2 (Z.eqb_neq i j)) by done.
  unfold noted, evicted. destruct (_ <=? _); simpl; [|destruct (_ =? 0); simpl];
    rewrite ?lookup_insert_ne by done; split_and!; try done; try lia; intros k;
    rewrite ?lookup_delete_ne by congruence; by rewrite lookup_insert_ne by congruence.
Qed.

Lemma noted_fields i ev n r h :
  endpoints (noted i ev n r h) = endpoints h ∧ next_endpoint_id (noted i ev n r h) = next_endpoint_id h ∧
  enrolled_endpoints (noted i ev n r h) = enrolled_endpoints h.
Proof. unfold noted, evicted. destruct (_ <=? _); [done|]. by destruct (_ =? 0). Qed.

Lemma recorded_inv i x ev r t h :
  hooks_inv h → endpoints h !! i = Some x → last_sequence x + 1 ≤ u64_max →
  hooks_inv (save_endpoint (delivered_to (last_sequence x + 1) t x) (noted i ev (last_sequence x + 1) r h)).
Proof.
  intros [H1 H2 H3 H4 H5 H6 H7] Hx Hmax. pose proof (H2 _ _ Hx) as (Hid & Hr & Hs & He).
  destruct (noted_fields i ev (last_sequence x + 1) r h) as (F1 & F2 & F3).
  split; unfold next_endpoint, enrolled_count in *; simpl; rewrite ?F1, ?F2, ?F3; try done.
  - intros j z. rewrite Hid, lookup_insert. unfold endpoint_ok, next_endpoint. simpl. rewrite F2.
    case_decide; [intros [= <-]; subst; simpl; split_and!; try done; lia|apply H2].
  - intros j Hj. rewrite Hid, lookup_insert. case_decide; [by eexists|by apply H4].
  - intros k m. rewrite attempts_noted, lookup_insert. case_decide; [|apply H6]. intros [= <-].
    unfold attempts_of. destruct (attempts h !! (i, ev)) as [m|] eqn:Hm; simpl; [apply H6 in Hm; lia|lia].
  - intros j. destruct (decide (j = i)) as [->|Hji].
    + assert (last_of i (save_endpoint (delivered_to (last_sequence x + 1) t x) (noted i ev (last_sequence x + 1) r h)) =
        last_sequence x + 1) as ->.
      { unfold last_of. simpl. by rewrite Hid, lookup_insert_eq. }
      eapply (same_history_ok _ _ (noted i ev (last_sequence x + 1) r h)); [done|]. apply noted_history.
      specialize (H7 i). unfold last_of in H7. by rewrite Hx in H7.
    + assert (last_of j (save_endpoint (delivered_to (last_sequence x + 1) t x) (noted i ev (last_sequence x + 1) r h)) =
        last_of j h) as ->.
      { unfold last_of. simpl. by rewrite Hid, lookup_insert_ne, F1. }
      eapply (same_history_ok _ _ (noted i ev (last_sequence x + 1) r h)); [done|].
      eapply same_history_ok; [by apply noted_other|apply H7].
Qed.

Lemma acked_inv i n x r t h :
  hooks_inv h → endpoints h !! i = Some x → n ≤ last_sequence x → acked_up_to i h < n →
  deliveries h !! (i, n) = Some r → hooks_inv (put_ack i n (put_delivery i n (acked t r) h)).
Proof.
  intros [H1 H2 H3 H4 H5 H6 H7] Hx Hn Ha Hr. split; try done. intros j. specialize (H7 j).
  assert (last_of j (put_ack i n (put_delivery i n (acked t r) h)) = last_of j h) as -> by done.
  destruct H7 as [G1 G2 G3 G4 G5 G6]. split; try done.
  - intros k. simpl. rewrite lookup_insert. case_decide as Hk; [|apply G4]. simplify_eq. rewrite <-G4, Hr.
    split; by eexists.
  - unfold acked_up_to in *. simpl. rewrite lookup_insert. case_decide; [subst; simpl|done].
    unfold last_of. rewrite Hx. simpl. lia.
Qed.

Lemma hook_effect_inv e q c h h' : hooks_inv h → hook_effect e q h c h' → hooks_inv h'.
Proof.
  intros Hi Hef. destruct Hef as
    [p o url secret ts i Hu Hs Hts Hroom Hn Hmax _ _|p i secret x Hs Hx Hep|p i b x Hx
    |p i ev n ex out x y Hx _ -> Hmax _ _ _ _|o i n x r Hx _ _ Hn Ha Hr].
  - by apply registered_inv.
  - pose proof (hi_endpoints _ Hi _ _ Hx) as (Hid & _ & _ & He). apply (saved_inv x _ i); try done. simpl. lia.
  - pose proof (hi_endpoints _ Hi _ _ Hx) as (Hid & _ & _ & He). by apply (saved_inv x _ i).
  - by apply recorded_inv.
  - by eapply acked_inv.
Qed.

Section Webhooks.
Context {L : Type}.
Abbreviation W := (World L Store Event).
Implicit Types (w : W).
Abbreviation Reach this := (reachable exec valid this (λ _ _, True) deployed).

Lemma hooks_reachable this w :
  Reach this w → hooks_inv (hooks (store w)) ∧ (admin (store w) = None → store w = empty_store).
Proof.
  apply (register_inv this (λ st, hooks_inv (hooks st))).
  - apply hooks_inv_fresh. by left.
  - intros a. apply hooks_inv_fresh. by right.
  - done.
  - intros c e st h' Hi _ Hef. by eapply hook_effect_inv.
  - done.
Qed.

(** Deliveries without gaps.  In every reachable world the number of an endpoint's last
    delivery is the number of attempts recorded for it over all events; the retained records
    are exactly the last 256 numbers (all of them while there are fewer), the stored count
    and floor say which, and the sponsor's acknowledgement is never ahead of them; at most a
    hundred endpoints exist. *)
Theorem deliveries_gap_free this w i x :
  Reach this w → endpoints (hooks (store w)) !! i = Some x →
  let h := hooks (store w) in let last := last_sequence x in let count := Z.min 256 last in
  map_sum (attempts_for i) (attempts h) = last ∧
  (∀ n, is_Some (deliveries h !! (i, n)) ↔ last - count < n ≤ last) ∧
  (∀ e, delivery_history_count i e w = Done w count) ∧
  (∀ e, 0 < last → delivery_history_floor i e w = Done w (last - count + 1)) ∧
  0 ≤ acked_up_to i h ≤ last ∧ enrolled_count h ≤ 100.
Proof.
  intros [Hi _]%hooks_reachable Hx h last count. destruct (hi_history _ Hi i) as [H1 H2 H3 H4 H5 H6].
  unfold last_of in *. rewrite Hx in *. simpl in *. fold h in H2, H3, H4, H5, H6. fold last in H2, H3, H4, H5, H6.
  unfold MAX_DELIVERY_HISTORY in H2. fold count in H2. rewrite H2 in *.
  split; [done|]. split; [done|]. split; [intros e; unfold delivery_history_count, load_hooks, load; by rewrite <-H2|].
  split; [|split; [done|apply (hi_cap _ Hi)]].
  intros e Hpos. unfold delivery_history_floor, load_hooks, load. fold h. by rewrite H3.
Qed.

Lemma hook_step c e w w' u :
  hooks_inv (hooks (store w)) → is_Some (admin (store w)) → exec c e w = Done w' u →
  hooks_inv (hooks (store w')) ∧ is_Some (admin (store w')) ∧
  (hooks (store w') = hooks (store w) ∧ (∀ c', c ≠ OnHooks c') ∨
   ∃ c', c = OnHooks c' ∧ hook_effect e (queue (store w)) (hooks (store w)) c' (hooks (store w'))).
Proof.
  intros Hi Had Hrun. apply outbox_effect in Hrun as (Heff & _).
  destruct Heff as [a Ha|c q' Hc|c h' Hc|c s' Hc]; simpl.
  - rewrite Ha in Had. by destruct Had.
  - split; [done|]. split; [done|]. left. split; [done|]. by intros.
  - split; [by eapply hook_effect_inv|]. split; [done|]. right. by exists c.
  - split; [done|]. split; [done|]. left. split; [done|]. by intros.
Qed.

Definition records (i : Z) (e : Env) (c : Call) : bool :=
  match c with OnHooks (CRecord _ j _ _ _ _) => j =? i | _ => false end.
Definition acks (i n : Z) (e : Env) (c : Call) : bool :=
  match c with OnHooks (CAckDelivery _ j m) => (j =? i) && (m =? n) | _ => false end.
Definition rotates (i : Z) (e : Env) (c : Call) : bool :=
  match c with OnHooks (CRotate _ j _) => j =? i | _ => false end.

(** The generation of an endpoint's secret, zero for an unknown one. *)
Definition epoch_of (i : Z) (h : Hooks) : Z := from_option secret_epoch 0 (endpoints h !! i).

(** What a call does to the numbers of a known endpoint. *)
Lemma endpoint_numbers i e q c h h' :
  hooks_inv h → is_Some (endpoints h !! i) → hook_effect e q h c h' →
  is_Some (endpoints h' !! i) ∧
  last_of i h' = last_of i h + (if records i e (OnHooks c) then 1 else 0) ∧
  epoch_of i h' = epoch_of i h + (if rotates i e (OnHooks c) then 1 else 0) ∧
  acked_up_to i h ≤ acked_up_to i h' ∧
  ∀ n, acks i n e (OnHooks c) = true → acked_up_to i h < n ∧ n ≤ acked_up_to i h'.
Proof.
  intros Hi [y Hy] Hef. destruct Hef as
    [p o url secret ts j _ _ _ _ Hn _ _ _|p j secret x _ Hx _|p j b x Hx
    |p j ev n ex out x z Hx _ -> _ _ _ _ _|o j n x r Hx _ _ _ Ha Hr].
  - pose proof (hi_endpoints _ Hi _ _ Hy) as (_ & Hr & _). unfold next_endpoint in Hr. rewrite Hn in Hr. simpl in Hr.
    unfold last_of, epoch_of. simpl. rewrite lookup_insert_ne by lia. split_and!; try done; lia.
  - pose proof (hi_endpoints _ Hi _ _ Hx) as (Hid & _). unfold last_of, epoch_of. simpl. rewrite Hid, lookup_insert.
    destruct (Z.eqb_spec j i) as [->|Hne].
    + rewrite decide_True, Hx by done. simpl. split_and!; try done; try lia; by eexists.
    + rewrite decide_False by done. rewrite Hy. split_and!; try done; try lia.
  - pose proof (hi_endpoints _ Hi _ _ Hx) as (Hid & _). unfold last_of, epoch_of. simpl. rewrite Hid, lookup_insert.
    destruct (decide (j = i)) as [->|Hne]; [rewrite Hx; simpl|rewrite Hy]; split_and!; try done; try lia; by eexists.
  - pose proof (hi_endpoints _ Hi _ _ Hx) as (Hid & _).
    destruct (noted_fields j ev (last_sequence x + 1) (mkDelivery j ev (last_sequence x + 1) (secret_epoch x) ex
      (attempts_of j ev h + 1) (timestamp e) out 0) h) as (F1 & _). unfold noted in F1.
    assert (acked_up_to i (noted j ev (last_sequence x + 1) (mkDelivery j ev (last_sequence x + 1) (secret_epoch x) ex
      (attempts_of j ev h + 1) (timestamp e) out 0) h) = acked_up_to i h) as F2.
    { unfold noted, evicted, acked_up_to. destruct (_ <=? _); [done|]. by destruct (_ =? 0). }
    unfold noted, acked_up_to in F2. unfold acked_up_to, last_of, epoch_of. simpl. rewrite F2, F1, Hid, lookup_insert.
    destruct (Z.eqb_spec j i) as [->|Hne].
    + rewrite decide_True, Hx by done. simpl. split_and!; try done; try lia; by eexists.
    + rewrite decide_False by done. rewrite Hy. split_and!; try done; try lia.
  - unfold last_of, epoch_of, acked_up_to in *. simpl. rewrite Hy, lookup_insert. simpl.
    case_decide as Hji; simpl.
    + subst j. split_and!; try done; try lia.
    + split_and!; try done; try lia.
Qed.

(** A known endpoint of an initialised contract. *)
Definition known (i : Z) (w : W) : Prop :=
  hooks_inv (hooks (store w)) ∧ is_Some (admin (store w)) ∧ is_Some (endpoints (hooks (store w)) !! i).

Lemma known_reachable this w i x :
  Reach this w → endpoints (hooks (store w)) !! i = Some x → known i w.
Proof.
  intros [Hi Hnone]%hooks_reachable Hx. split; [done|]. split; [|by eexists].
  destruct (admin (store w)) eqn:Ha; [by eexists|]. by rewrite Hnone in Hx.
Qed.

Lemma known_step i e c w w' u :
  known i w → exec c e w = Done w' u → known i w' ∧
  last_of i (hooks (store w')) = last_of i (hooks (store w)) + (if records i e c then 1 else 0) ∧
  epoch_of i (hooks (store w')) = epoch_of i (hooks (store w)) + (if rotates i e c then 1 else 0) ∧
  acked_up_to i (hooks (store w)) ≤ acked_up_to i (hooks (store w')) ∧
  ∀ n, acks i n e c = true → acked_up_to i (hooks (store w)) < n ∧ n ≤ acked_up_to i (hooks (store w')).
Proof.
  intros (Hi & Ha & Hx) Hrun. unfold known.
  destruct (hook_step c e w w' u Hi Ha Hrun) as (Hi1 & Ha1 & [[-> Hother]|(c' & -> & Hef)]).
  - split; [done|]. destruct c as [| |c|]; simpl; split_and!; try done; try lia. all: by destruct (Hother c).
  - destruct (endpoint_numbers i _ _ _ _ _ Hi Hx Hef) as (? & ? & ? & ? & ?). by split_and!.
Qed.

Lemma delivery_counts i calls w :
  known i w →
  last_of i (hooks (store (run_calls exec calls w))) =
    last_of i (hooks (store w)) + accepted exec (records i) calls w ∧
  epoch_of i (hooks (store (run_calls exec calls w))) =
    epoch_of i (hooks (store w)) + accepted exec (rotates i) calls w.
Proof.
  intros Hw. split.
  - apply (accepted_counts exec (known i) (λ w, last_of i (hooks (store w)))); [|done].
    intros e c w0 w1 u H0 _ Hrun. by destruct (known_step _ _ _ _ _ _ H0 Hrun) as (? & ? & _).
  - apply (accepted_counts exec (known i) (λ w, epoch_of i (hooks (store w)))); [|done].
    intros e c w0 w1 u H0 _ Hrun. by destruct (known_step _ _ _ _ _ _ H0 Hrun) as (? & _ & ? & _).
Qed.

(** Numbered once, acknowledged once.  From any reachable world, whatever calls follow, an
    endpoint's delivery number grows by exactly the deliveries recorded for it, its secret
    generation by exactly the rotations, and a delivery number is acknowledged at most once,
    never after a later one was: a replayed acknowledgement is refused. *)
Theorem delivery_numbers this w calls i x :
  Reach this w → endpoints (hooks (store w)) !! i = Some x →
  let h := hooks (store w) in let h' := hooks (store (run_calls exec calls w)) in
  last_of i h' = last_of i h + accepted exec (records i) calls w ∧
  epoch_of i h' = epoch_of i h + accepted exec (rotates i) calls w ∧
  ∀ n, accepted exec (acks i n) calls w ≤ (if n <=? acked_up_to i h then 0 else 1).
Proof.
  intros Hr Hx h h'. pose proof (known_reachable _ _ _ _ Hr Hx) as Hw.
  destruct (delivery_counts i calls w Hw) as [Hlast Hepoch]. split; [done|]. split; [done|]. intros n.
  destruct (accepted_at_most exec (known i) (λ w, if n <=? acked_up_to i (hooks (store w)) then 1 else 0)
    (acks i n) calls w) as [_ Hc]; [|done|].
  - intros e c w0 w1 u H0 _ Hrun. destruct (known_step _ _ _ _ _ _ H0 Hrun) as (HI & _ & _ & Hm & Ha).
    split; [done|]. specialize (Ha n). destruct (acks i n e c); [specialize (Ha eq_refl)|];
      destruct (Z.leb_spec n (acked_up_to i (hooks (store w0)))),
        (Z.leb_spec n (acked_up_to i (hooks (store w1)))); lia.
  - fold h h' in Hc. destruct (n <=? acked_up_to i h), (n <=? acked_up_to i h'); lia.
Qed.

(** ** The signed digest *)

Section Digest.
Context (sha256 : Bytes → BytesN32) (to_xdr : Address → Bytes).
Context (sha256_range : ∀ x, bytes32 (sha256 x) = true).

(** The fields of an envelope are of their width. *)
Definition envelope_typed (x : WebhookEnvelope) : Prop :=
  env_version x = ENVELOPE_VERSION ∧ bytes32 (env_network x) = true ∧ 0 ≤ env_endpoint_id x ≤ u64_max ∧
  0 ≤ env_secret_epoch x ≤ u32_max ∧ 0 ≤ env_event_id x ≤ u64_max ∧ 0 ≤ env_sequence x ≤ u64_max ∧
  0 ≤ env_expires_at x ≤ u64_max.

Lemma webhook_preimage_length x b : Z.of_nat (length (canonical_preimage sha256 to_xdr x b)) = PREIMAGE_LEN.
Proof. unfold canonical_preimage, to_array. rewrite !length_app, !length_be_bytes. done. Qed.

Lemma webhook_preimage_inj x y b c :
  envelope_typed x → envelope_typed y → bytes32 b = true → bytes32 c = true →
  canonical_preimage sha256 to_xdr x b = canonical_preimage sha256 to_xdr y c →
  b = c ∧ sha256 (to_xdr (env_contract x)) = sha256 (to_xdr (env_contract y)) ∧
  env_network x = env_network y ∧ env_endpoint_id x = env_endpoint_id y ∧
  env_secret_epoch x = env_secret_epoch y ∧ env_event_id x = env_event_id y ∧
  env_sequence x = env_sequence y ∧ env_expires_at x = env_expires_at y.
Proof.
  intros (X1 & X2 & X3 & X4 & X5 & X6 & X7) (Y1 & Y2 & Y3 & Y4 & Y5 & Y6 & Y7) Hb Hc Heq.
  unfold canonical_preimage in Heq. apply app_inv_head in Heq. rewrite X1, Y1 in Heq.
  pose proof (sha256_range (to_xdr (env_contract x))) as R1. pose proof (sha256_range (to_xdr (env_contract y))) as R2.
  unfold bytes32, ENVELOPE_VERSION, to_array in *. checked_prop. unfold u64_max, u32_max in *.
  apply be_app_inj in Heq as [_ Heq]; [|lia|lia].
  apply be_app_inj in Heq as [E2 Heq]; [|lia|lia].
  apply be_app_inj in Heq as [E3 Heq]; [|lia|lia].
  apply be_app_inj in Heq as [E4 Heq]; [|lia|lia].
  apply be_app_inj in Heq as [E5 Heq]; [|lia|lia].
  apply be_app_inj in Heq as [E6 Heq]; [|lia|lia].
  apply be_app_inj in Heq as [E7 Heq]; [|lia|lia].
  apply be_app_inj in Heq as [E8 Heq]; [|lia|lia].
  apply be_bytes_inj in Heq; [|lia|lia]. by split_and!.
Qed.

(** What a digest that is handed out commits to. *)
Lemma delivery_payload_done i ev n ex e w w' p :
  hooks_inv (hooks (store w)) → queue_inv (queue (store w)) →
  bytes32 (network e) = true → 0 ≤ timestamp e → ex ≤ u64_max →
  (delivery_payload sha256 to_xdr i ev n ex : Contract L Store Event ContractError Z) e w = Done w' p →
  ∃ x event, endpoints (hooks (store w)) !! i = Some x ∧ events (queue (store w)) !! ev = Some event ∧
    active x = true ∧ n = last_sequence x + 1 ∧ timestamp e ≤ ex ≤ timestamp e + 86400 ∧
    bytes32 (payload_hash event) = true ∧
    let env := mkEnvelope ENVELOPE_VERSION (network e) (self e) i (secret_epoch x) ev n ex in
    envelope_typed env ∧ p = signing_payload sha256 to_xdr env (payload_hash event).
Proof.
  intros Hh Hq Hnet Ht Hex Hrun. unfold delivery_payload, check_expiry in Hrun. outbox_inv.
  match goal with H : endpoints _ !! i = Some ?x |- _ => pose proof (hi_endpoints _ Hh _ _ H) as (Hid & Hr & Hs & He); exists x end.
  match goal with H : events _ !! ev = Some ?y |- _ => pose proof (qi_events _ Hq _ _ H) as (_ & Hev & _);
    pose proof (qi_payload _ Hq _ _ H) as Hpay; exists y end.
  pose proof (qi_floor _ Hq) as Hfl. pose proof (qi_next _ Hq) as Hnx. pose proof (hi_next _ Hh) as Hnh.
  unfold MAX_SIGNATURE_TTL in *. split_and!; try done; try lia.
  unfold envelope_typed. simpl. split_and!; try done; lia.
Qed.

(** The digest binds a delivery.  If the digest for one delivery, handed out in a reachable
    world, equals a digest handed out after any further calls, then it is for the same
    network, endpoint, event, payload, number and expiry, and in between neither was the
    endpoint's secret rotated nor a delivery recorded for it; or the equality exhibits a
    collision of the hash.  The digest expires within a day. *)
Theorem digest_binding this w calls e e' i i' ev ev' n n' ex ex' w1 w2 p :
  Reach this w → Forall (λ ec, self ec.1 = this ∧ valid ec.1 ec.2) calls →
  bytes32 (network e) = true → bytes32 (network e') = true →
  0 ≤ timestamp e → 0 ≤ timestamp e' → ex ≤ u64_max → ex' ≤ u64_max →
  let w' := run_calls exec calls w in
  delivery_payload sha256 to_xdr i ev n ex e w = Done w1 p →
  delivery_payload sha256 to_xdr i' ev' n' ex' e' w' = Done w2 p →
  (network e = network e' ∧ i = i' ∧ ev = ev' ∧ n = n' ∧ ex = ex' ∧
   accepted exec (rotates i) calls w = 0 ∧ accepted exec (records i) calls w = 0 ∧
   timestamp e ≤ ex ≤ timestamp e + 86400 ∧
   (∀ y y', events (queue (store w)) !! ev = Some y → events (queue (store w')) !! ev = Some y' →
     payload_hash y = payload_hash y')) ∨
  ∃ a b, Signing.collision sha256 a b.
Proof.
  intros Hw Hcalls Hnet Hnet' Ht Ht' Hex Hex' w' Hp Hp'.
  assert (Reach this w') as Hw' by (by apply reachable_run).
  pose proof (hooks_reachable _ _ Hw) as [Hh _]. pose proof (queue_reachable _ _ Hw) as [Hq _].
  pose proof (hooks_reachable _ _ Hw') as [Hh' _]. pose proof (queue_reachable _ _ Hw') as [Hq' _].
  apply delivery_payload_done in Hp as (x & y & Hx & Hy & _ & Hn & Htime & Hb & Henv & Hpe); [|done..].
  apply delivery_payload_done in Hp' as (x' & y' & Hx' & Hy' & _ & Hn' & _ & Hb' & Henv' & Hpe'); [|done..].
  rewrite Hpe in Hpe'. unfold signing_payload in Hpe'.
  apply Signing.sha256_or_collision in Hpe' as [Heq|Hcol]; [|right; by eauto].
  apply webhook_preimage_inj in Heq as (E1 & _ & E2 & E3 & E4 & E5 & E6 & E7); [|done..]. simpl in *. subst i' ev' ex' n'.
  left. destruct (delivery_counts i calls w (known_reachable _ _ _ _ Hw Hx)) as [Hlast Hepoch].
  fold w' in Hlast, Hepoch. unfold last_of, epoch_of in Hlast, Hepoch. rewrite Hx, Hx' in Hlast, Hepoch. simpl in *.
  split_and!; try done; try lia. intros z z' Hz Hz'. rewrite Hy in Hz. rewrite Hy' in Hz'. by simplify_eq.
Qed.
End Digest.
End Webhooks.

(** ** Concrete runs *)
Module Runs.
Import Demo.
Abbreviation Reach := (reachable exec valid this (λ _ _, True) deployed).

Definition enrolment : list (Env * Call) :=
  setup ++ [(at_ledger 4, OnHooks (CRegister boss sponsor 5 6 ["award"%string; "refund"%string]))].
Definition w2 : World unit Store Event := run_calls exec enrolment w0.
(** Two attempts for the first event, a rotation, the second event; the sponsor acknowledges
    the second delivery, then a replay of the first. *)
Definition traffic : list (Env * Call) :=
  [(at_ledger 5, OnHooks (CRecord boss 1 1 1 100 Failed)); (at_ledger 6, OnHooks (CRecord boss 1 1 2 100 Delivered));
   (at_ledger 7, OnHooks (CRotate boss 1 8)); (at_ledger 8, OnHooks (CRecord boss 1 2 3 100 Delivered));
   (at_ledger 9, OnHooks (CAckDelivery sponsor 1 2)); (at_ledger 9, OnHooks (CAckDelivery sponsor 1 2));
   (at_ledger 9, OnHooks (CAckDelivery sponsor 1 1))].
Definition w3 : World unit Store Event := run_calls exec (enrolment ++ traffic) w0.
Definition endpoint1 : WebhookEndpoint :=
  mkEndpoint 1 sponsor 5 6 ["award"%string; "refund"%string] true 1 0 20 20.
Definition endpoint3 : WebhookEndpoint :=
  mkEndpoint 1 sponsor 5 8 ["award"%string; "refund"%string] true 2 3 20 40.

Lemma webhook_w2_reach : Reach w2.
Proof. apply demo_reach. valid_calls. Qed.
Lemma webhook_w3_reach : Reach w3.
Proof. apply demo_reach. valid_calls. Qed.

Lemma deliveries_gap_free_witness :
  endpoints (hooks (store w3)) !! 1 = Some endpoint3 ∧
  map_sum (attempts_for 1) (attempts (hooks (store w3))) = 3 ∧
  ∀ n, is_Some (deliveries (hooks (store w3)) !! (1, n)) ↔ 0 < n ≤ 3.
Proof.
  assert (endpoints (hooks (store w3)) !! 1 = Some endpoint3) as Hx by (vm_compute; reflexivity).
  destruct (deliveries_gap_free this w3 1 endpoint3 webhook_w3_reach Hx) as (Ha & Hd & _).
  split; [exact Hx|]. split; [exact Ha|exact Hd].
Defined.

Lemma delivery_numbers_witness :
  accepted exec (records 1) traffic w2 = 3 ∧ accepted exec (acks 1 2) traffic w2 = 1 ∧
  accepted exec (acks 1 1) traffic w2 = 0 ∧ epoch_of 1 (hooks (store (run_calls exec traffic w2))) = 1 + 1.
Proof.
  assert (endpoints (hooks (store w2)) !! 1 = Some endpoint1) as Hx by (vm_compute; reflexivity).
  destruct (delivery_numbers this w2 traffic 1 endpoint1 webhook_w2_reach Hx) as (_ & He & _).
  assert (accepted exec (rotates 1) traffic w2 = 1) as Hr by (vm_compute; reflexivity).
  assert (epoch_of 1 (hooks (store w2)) = 1) as H1 by (vm_compute; reflexivity).
  split; [vm_compute; reflexivity|]. split; [vm_compute; reflexivity|]. split; [vm_compute; reflexivity|].
  rewrite Hr, H1 in He. exact He.
Defined.

Definition digest1 : Z :=
  match delivery_payload Signing.short_hash demo_xdr 1 1 1 100 (at_ledger 5) w2 with Done _ p => p | _ => 0 end.
Definition another : list (Env * Call) := [(at_ledger 5, OnQueue (CEnqueue boss consumer "award" 1 13 23 33))].

Lemma digest_binding_witness :
  delivery_payload Signing.short_hash demo_xdr 1 1 1 100 (at_ledger 5) w2 = Done w2 digest1 ∧
  (accepted exec (rotates 1) another w2 = 0 ∨ ∃ a b, Signing.collision Signing.short_hash a b).
Proof.
  assert (delivery_payload Signing.short_hash demo_xdr 1 1 1 100 (at_ledger 5) w2 = Done w2 digest1) as Hp
    by (vm_compute; reflexivity).
  split; [exact Hp|].
  destruct (digest_binding Signing.short_hash demo_xdr Signing.short_hash_range this w2 another
    (at_ledger 5) (at_ledger 6) 1 1 1 1 1 1 100 100 w2 (run_calls exec another w2) digest1 webhook_w2_reach)
    as [(_ & _ & _ & _ & _ & Hr & _)|Hcol].
  - valid_calls.
  - reflexivity.
  - reflexivity.
  - simpl. lia.
  - simpl. lia.
  - range_lia.
  - range_lia.
  - exact Hp.
  - vm_compute. reflexivity.
  - left. exact Hr.
  - right. exact Hcol.
Defined.
End Runs.
