(* ===== verification/OutboxSettlements.v ===== *)
(** * Settlements: properties

    An intent is decided once, not before its observed transaction is final, and a settled
    amount is the expected one or was settled by a recorded resolution. *)
From S2P Require Import Prelude Machine Host Loops Outbox OutboxEffects.

(** One for an intent in an alarming state. *)
Definition alarming (i : Z) (x : SettlementIntent) : Z := if is_alerting (state x) then 1 else 0.

(** What the state of an intent says about its other fields. *)
Definition verdict_ok (x : SettlementIntent) : Prop :=
  match state x with
  | Pending => observed_amount x = 0 ∧ si_attempts x = 0 ∧ resolution_hash x = 0
  | Reconciled => observed_ledger x ≠ 0 ∧ observed_amount x = expected_amount x ∨ resolution_hash x ≠ 0
  | Mismatched => observed_ledger x ≠ 0 ∧ observed_amount x ≠ expected_amount x
  | Expired => observed_amount x = 0
  end.

Definition intent_ok (i : Z) (x : SettlementIntent) : Prop :=
  intent_id x = i ∧ 0 < expected_amount x ∧ 1 ≤ required_finality x ≤ 100 ∧
  0 ≤ observed_ledger x ≤ u32_max ∧ verdict_ok x.

Record settlements_inv (s : Settlements) : Prop := {
  si_intents i x : intents s !! i = Some x → intent_ok i x;
  si_tracked : tracked_count s = Z.of_nat (size (intents s));
  si_cap : tracked_count s ≤ MAX_TRACKED_INTENTS;
  si_alerts : map_sum alarming (intents s) ≤ alerts s
}.

Lemma alarming_nonneg (m : gmap Z SettlementIntent) : 0 ≤ map_sum alarming m.
Proof. apply map_sum_nonneg. intros i x _. unfold alarming. by destruct (is_alerting _). Qed.

(** Replacing a stored intent by [y], with [n] more alerts. *)
Lemma replaced_inv i x y n s :
  settlements_inv s → intents s !! i = Some x → intent_ok i y → 0 ≤ n →
  alarming i y ≤ alarming i x + n →
  settlements_inv (mkSettlements (tracked s) (<[i := y]> (intents s)) (Some (alerts s + n))).
Proof.
  intros [H1 H2 H3 H4] Hx Hy Hn Ha. split; simpl.
  - intros j z. rewrite lookup_insert. case_decide; [intros [= <-]; by subst|apply H1].
  - by rewrite map_size_insert, Hx.
  - done.
  - rewrite map_sum_insert. unfold at_key. rewrite Hx. unfold alerts at 1. simpl. lia.
Qed.

Lemma stored_inv i x y s :
  settlements_inv s → intents s !! i = Some x → intent_ok i y → alarming i y ≤ alarming i x →
  settlements_inv (save_intent y s).
Proof.
  intros Hi Hx Hy Ha. pose proof Hy as [Hid _].
  destruct (replaced_inv i x y 0 s Hi Hx Hy) as [H1 H2 H3 H4]; [lia|lia|].
  unfold save_intent. rewrite Hid. split; [done..|]. unfold alerts in *. simpl in *. lia.
Qed.

(** The same with an alert raised, before or after the write. *)
Lemma alerted_inv i x y s :
  settlements_inv s → intents s !! i = Some x → intent_ok i y → alarming i y ≤ alarming i x + 1 →
  settlements_inv (put_alerted (alerts s + 1) (save_intent y s)).
Proof.
  intros Hi Hx Hy Ha. pose proof Hy as [Hid _].
  destruct (replaced_inv i x y 1 s Hi Hx Hy) as [H1 H2 H3 H4]; [lia|lia|].
  unfold save_intent, put_alerted. simpl. rewrite Hid. by split.
Qed.

Lemma opened_inv i x s :
  settlements_inv s → intents s !! i = None → intent_ok i x → state x = Pending →
  tracked_count s < MAX_TRACKED_INTENTS →
  settlements_inv (put_tracked (tracked_count s + 1) (save_intent x s)).
Proof.
  intros [H1 H2 H3 H4] Hx Hy Hp Hroom. pose proof Hy as [Hid _].
  split; unfold tracked_count, alerts in *; simpl; rewrite ?Hid.
  - intros j z. rewrite lookup_insert. case_decide; [intros [= <-]; by subst|apply H1].
  - rewrite map_size_insert_None by done. unfold tracked_count. lia.
  - unfold tracked_count. lia.
  - rewrite map_sum_insert_new by done. unfold alarming at 1. rewrite Hp. simpl. lia.
Qed.

Lemma archived_inv i x s :
  settlements_inv s → intents s !! i = Some x →
  settlements_inv (put_tracked (saturating_sub_u64 (tracked_count s) 1) (drop_intent i s)).
Proof.
  intros [H1 H2 H3 H4] Hx. unfold saturating_sub_u64.
  pose proof (map_size_ne_0_lookup_2 (intents s) i) as Hne. rewrite Hx in Hne. specialize (Hne ltac:(by eexists)).
  split; unfold tracked_count, alerts in *; simpl.
  - intros j z Hz. apply lookup_delete_Some in Hz as [_ Hz]. by apply H1.
  - rewrite map_size_delete_Some by (by eexists). unfold tracked_count. lia.
  - unfold tracked_count, MAX_TRACKED_INTENTS in *. lia.
  - rewrite map_sum_delete. unfold at_key. rewrite Hx. unfold alarming at 2. destruct (is_alerting _); lia.
Qed.

Lemma settlement_effect_inv e s c s' :
  settlements_inv s → valid e (OnSettlements c) → settlement_effect e s c s' → settlements_inv s'.
Proof.
  intros Hi (Ht & Hl & Hv) Hef. destruct Hef as
    [|p i source c n f Hn Hf0 Hf Hnew Hroom|p i tx l x Hx Hp Ho Hl0 Hle|p i n x Hx Hp Ho Hfin
    |p i x Hx Hp|p i h x Hh Hx Ha|p i x Hx Hr]; [done| | | | | |].
  - apply (opened_inv i); try done. unfold MAX_FINALITY in Hf. split_and!; simpl; try done; lia.
  - pose proof (si_intents _ Hi _ _ Hx) as (Hid & He & Hfi & _ & Hvd). apply (stored_inv i x); try done.
    unfold intent_ok, verdict_ok in *. simpl. rewrite Hp in *. split_and!; try done; try apply Hvd; lia.
  - pose proof (si_intents _ Hi _ _ Hx) as (Hid & He & Hfi & Hol & Hvd). unfold verdict_ok in Hvd. rewrite Hp in Hvd.
    assert (alarming i x = 0) as Hax by (unfold alarming; by rewrite Hp).
    destruct (Z.eqb_spec n (expected_amount x)) as [Hm|Hm].
    + apply (stored_inv i x); [done|done| |by rewrite Hax].
      split_and!; simpl; try done; try lia. by left.
    + apply (alerted_inv i x (adjudicated Mismatched n (si_attempts x + 1) (timestamp e) x) s);
        [done|done| |by rewrite Hax].
      split_and!; simpl; try done; lia.
  - pose proof (si_intents _ Hi _ _ Hx) as (Hid & He & Hfi & Hol & Hvd). unfold verdict_ok in Hvd. rewrite Hp in Hvd.
    assert (alarming i x = 0) as Hax by (unfold alarming; by rewrite Hp).
    apply (alerted_inv i x); [done|done| |by rewrite Hax]. split_and!; simpl; try done; try lia. apply Hvd.
  - pose proof (si_intents _ Hi _ _ Hx) as (Hid & He & Hfi & Hol & Hvd).
    apply (stored_inv i x); [done|done| |].
    + split_and!; simpl; try done; try lia. by right.
    + unfold alarming. simpl. destruct (is_alerting _); lia.
  - by eapply archived_inv.
Qed.

Section Settle.
Context {L : Type}.
Abbreviation W := (World L Store Event).
Implicit Types (w : W).
Abbreviation Reach this := (reachable exec valid this (λ _ _, True) deployed).

Lemma settlements_reachable this w :
  Reach this w → settlements_inv (settlements (store w)).
Proof.
  assert (settlements_inv empty_settlements) as H0.
  { split; try done; unfold tracked_count, alerts, MAX_TRACKED_INTENTS; simpl; lia. }
  intros Hr. apply (register_inv this (λ st, settlements_inv (settlements st))) in Hr as [Hr _]; try done.
  intros c e st s' Hi Hv Hef. by eapply settlement_effect_inv.
Qed.

(** What a settled amount means.  In every reachable world an amount that
    [settled_amount] reports is the expected one, adjudicated against an observed
    transaction, or was settled by a resolution whose hash is recorded; the tracked count is
    the number of stored intents, at most 5000, and the alert count covers every intent in
    an alarming state. *)
Theorem settled_is_matched this w e i n :
  Reach this w →
  let s := settlements (store w) in
  (settled_amount i e w = Done w n → ∃ x, intents s !! i = Some x ∧ n = observed_amount x ∧
     (n = expected_amount x ∧ observed_ledger x ≠ 0 ∨ resolution_hash x ≠ 0)) ∧
  tracked_count s = Z.of_nat (size (intents s)) ∧ tracked_count s ≤ 5000 ∧
  map_sum alarming (intents s) ≤ alerts s.
Proof.
  intros Hi%settlements_reachable s. split; [|split_and!; [apply Hi..|apply (si_alerts _ Hi)]].
  intros Hrun. unfold settled_amount in Hrun. outbox_inv.
  match goal with H : intents _ !! i = Some ?y |- _ =>
    exists y; split; [done|]; apply (si_intents _ Hi) in H as (_ & _ & _ & _ & Hv);
    unfold verdict_ok in Hv; destruct (state y)
  end; run_inv; try done. apply ret_done in Hrun as [_ ->]. split; [done|].
  destruct Hv as [[? ?]|?]; [by left|by right].
Qed.

(** What one call does to a stored intent: the transaction is observed once, adjudicated at
    finality, given up, resolved with a hash, or archived. *)
Inductive moves (e : Env) (x : SettlementIntent) : option SettlementIntent → Prop :=
| M_same : moves e x (Some x)
| M_observe tx l :
    state x = Pending → observed_ledger x = 0 → 0 < l ≤ ledger_sequence e → moves e x (Some (observed tx l x))
| M_decide n :
    state x = Pending → observed_ledger x ≠ 0 →
    observed_ledger x + required_finality x ≤ ledger_sequence e →
    moves e x (Some (adjudicated (if n =? expected_amount x then Reconciled else Mismatched) n 1 (timestamp e) x))
| M_expire : state x = Pending → moves e x (Some (adjudicated Expired 0 0 (timestamp e) x))
| M_resolve h : h ≠ 0 → is_alerting (state x) = true → moves e x (Some (resolved (timestamp e) h x))
| M_archive : state x = Reconciled → moves e x None.

(** Verdicts are final.  From every reachable world a call leaves a stored intent exactly as
    it is or moves it one step: its transaction is observed once and never replaced, it is
    adjudicated once and not before the required number of ledgers, only a pending intent
    expires, an alarming state is left only by a resolution with a hash, and only a
    reconciled intent is archived. *)
Theorem verdict_final this w e c i x :
  Reach this w → valid e c → intents (settlements (store w)) !! i = Some x →
  moves e x (intents (settlements (store (invoke (exec c) e w).1)) !! i).
Proof.
  intros Hi%settlements_reachable Hv Hx. unfold invoke.
  destruct (exec c e w) as [w' u| |] eqn:Hrun; simpl; [|by rewrite Hx; apply M_same..].
  apply outbox_effect in Hrun as (Heff & _).
  destruct Heff as [a Ha|c q' Hc|c h' Hc|c s' Hef]; simpl; [rewrite Hx; apply M_same..|].
  destruct Hv as (_ & _ & Hv). destruct Hef as
    [|p j source c n f Hn Hf0 Hf Hnew Hroom|p j tx l y Hy Hp Ho Hl0 Hle|p j n y Hy Hp Ho Hfin
    |p j y Hy Hp|p j h y Hh Hy Ha|p j y Hy Hr]; simpl; [rewrite Hx; apply M_same| | | | | |].
  - rewrite lookup_insert_ne by congruence. rewrite Hx. apply M_same.
  - pose proof (si_intents _ Hi _ _ Hy) as (Hid & _). rewrite Hid, lookup_insert.
    case_decide; [subst; rewrite Hx in Hy; simplify_eq|rewrite Hx; apply M_same]. apply M_observe; [done..|lia].
  - pose proof (si_intents _ Hi _ _ Hy) as (Hid & _ & _ & _ & Hvd). unfold verdict_ok in Hvd. rewrite Hp in Hvd.
    destruct Hvd as (_ & Hatt & _). rewrite Hid, Hatt.
    assert (intents (if n =? expected_amount y then settlements (store w)
      else put_alerted (alerts (settlements (store w)) + 1) (settlements (store w))) = intents (settlements (store w)))
      as -> by by destruct (_ =? _).
    rewrite lookup_insert. case_decide; [subst; rewrite Hx in Hy; simplify_eq|rewrite Hx; apply M_same].
    by apply M_decide.
  - pose proof (si_intents _ Hi _ _ Hy) as (Hid & _ & _ & _ & Hvd). unfold verdict_ok in Hvd. rewrite Hp in Hvd.
    destruct Hvd as (Hoa & Hatt & _). rewrite Hid, Hoa, Hatt, lookup_insert.
    case_decide; [subst; rewrite Hx in Hy; simplify_eq|rewrite Hx; apply M_same]. by apply M_expire.
  - pose proof (si_intents _ Hi _ _ Hy) as (Hid & _). rewrite Hid, lookup_insert.
    case_decide; [subst; rewrite Hx in Hy; simplify_eq|rewrite Hx; apply M_same]. by apply M_resolve.
  - rewrite lookup_delete. case_decide; [subst; rewrite Hx in Hy; simplify_eq; by apply M_archive|rewrite Hx; apply M_same].
Qed.

(** Reconciliation on every branch.  In every reachable world the operator's
    [reconcile_settlement] of a stored intent answers the stored verdict of a decided intent
    and changes nothing (so retries are harmless), refuses a pending one that is unobserved
    or not yet final, and otherwise records and returns the verdict the amounts give. *)
Theorem reconcile_exact this w e p i n x :
  Reach this w → valid e (OnSettlements (CReconcile p i n)) → authorized e p = true → admin (store w) = Some p →
  intents (settlements (store w)) !! i = Some x → alerts (settlements (store w)) < u64_max →
  let r := invoke (reconcile_settlement p i n) e w in
  if decide (state x ≠ Pending) then r = (w, Returned (state x))
  else if decide (observed_ledger x = 0 ∨ ledger_sequence e < observed_ledger x + required_finality x)
  then r = (w, Errored NotFinal)
  else
    let verdict := if n =? expected_amount x then Reconciled else Mismatched in
    r.2 = Returned verdict ∧
    intents (settlements (store r.1)) = <[i := adjudicated verdict n 1 (timestamp e) x]> (intents (settlements (store w))) ∧
    alerts (settlements (store r.1)) = alerts (settlements (store w)) + (if n =? expected_amount x then 0 else 1).
Proof.
  intros Hi%settlements_reachable (Ht & Hl & _) Ha Hadm Hx Hal r.
  pose proof (si_intents _ Hi _ _ Hx) as (Hid & _ & Hfi & Hol & Hvd). unfold verdict_ok in Hvd.
  pose proof (alarming_nonneg (intents (settlements (store w)))). pose proof (si_alerts _ Hi).
  unfold r, invoke, reconcile_settlement, require_operator, require_admin, load_intent, load_settlements.
  cbv [bind require_auth load now ok_or ret fail reject_if ledger_number]. rewrite Ha, Hadm.
  rewrite (bool_decide_true (Some p = Some p)) by done. simpl. rewrite Hx. simpl.
  destruct (decide (state x ≠ Pending)) as [Hs|Hs].
  { by rewrite bool_decide_false by done. }
  apply dec_stable in Hs. rewrite Hs in Hvd. rewrite bool_decide_true by done. simpl. destruct Hvd as (_ & Hatt & _).
  destruct (decide _) as [[Hz|Hf]|Hok]; [by rewrite Hz| |].
  { destruct (Z.eqb_spec (observed_ledger x) 0); [done|]. simpl. unfold checked_sub_u32, checked.
    destruct (in_range _ _ _) eqn:Hr; [|done]. simpl. by rewrite (proj2 (Z.ltb_lt _ _)) by lia. }
  rewrite (proj2 (Z.eqb_neq (observed_ledger x) 0)) by tauto. simpl.
  assert (observed_ledger x + required_finality x ≤ ledger_sequence e) as Hfin by lia.
  unfold checked_sub_u32, checked_add_u32. rewrite (checked_in 0 u32_max (ledger_sequence e - observed_ledger x)) by lia.
  rewrite (proj2 (Z.ltb_ge (ledger_sequence e - observed_ledger x) _)) by lia. rewrite Hatt.
  rewrite (checked_in 0 u32_max (0 + 1)) by range_lia.
  destruct (Z.eqb_spec n (expected_amount x)) as [Hn|Hn]; simpl.
  - unfold save_intent. simpl. rewrite Hid. split_and!; try done. unfold alerts. simpl. lia.
  - unfold raise_alert, bind, load_settlements, load, ok_or, checked_add_u64.
    change (default 0 (alerted (settlements (store w)))) with (alerts (settlements (store w))).
    rewrite checked_in by lia. simpl. by rewrite Hid.
Qed.
End Settle.

(** ** Concrete runs *)
Module Runs.
Import Demo.
Abbreviation Reach := (reachable exec valid this (λ _ _, True) deployed).
Definition opening : list (Env * Call) :=
  setup ++ [(at_ledger 4, OnSettlements (COpen boss 7 sponsor 11 500 3));
            (at_ledger 5, OnSettlements (CObserve boss 7 99 5))].
Definition w2 : World unit Store Event := run_calls exec opening w0.
(** Too early, a mismatch, a retry with the right amount, and a resolution. *)
Definition dispute : list (Env * Call) :=
  [(at_ledger 7, OnSettlements (CReconcile boss 7 400)); (at_ledger 8, OnSettlements (CReconcile boss 7 400));
   (at_ledger 9, OnSettlements (CReconcile boss 7 500)); (at_ledger 10, OnSettlements (CResolve boss 7 42))].
Definition w3 : World unit Store Event := run_calls exec (opening ++ dispute) w0.
Definition intent7 : SettlementIntent := mkIntent 7 sponsor 11 500 Pending 20 3 99 5 0 0 0 0.

Lemma settle_w2_reach : Reach w2.
Proof. apply demo_reach. valid_calls. Qed.
Lemma settle_w3_reach : Reach w3.
Proof. apply demo_reach. valid_calls. Qed.

Lemma settled_is_matched_witness :
  settled_amount 7 (at_ledger 11) w3 = Done w3 400 ∧
  ∃ x, intents (settlements (store w3)) !! 7 = Some x ∧ (400 = expected_amount x ∧ observed_ledger x ≠ 0 ∨ resolution_hash x ≠ 0).
Proof.
  assert (settled_amount 7 (at_ledger 11) w3 = Done w3 400) as Hrun by (vm_compute; reflexivity).
  destruct (settled_is_matched this w3 (at_ledger 11) 7 400 settle_w3_reach) as [Hs _].
  destruct (Hs Hrun) as (x & Hx & _ & Hr). split; [exact Hrun|]. exists x. split; [exact Hx|exact Hr].
Defined.

Lemma verdict_final_witness :
  moves (at_ledger 8) intent7
    (intents (settlements (store (invoke (exec (OnSettlements (CReconcile boss 7 400))) (at_ledger 8) w2).1)) !! 7).
Proof.
  apply (verdict_final this w2 (at_ledger 8) (OnSettlements (CReconcile boss 7 400)) 7 intent7 settle_w2_reach).
  - unfold valid. simpl. range_lia.
  - vm_compute. reflexivity.
Defined.

Lemma reconcile_exact_witness :
  invoke (reconcile_settlement boss 7 500) (at_ledger 7) w2 = (w2, Errored NotFinal) ∧
  (invoke (reconcile_settlement boss 7 500) (at_ledger 8) w2).2 = Returned Reconciled.
Proof.
  assert (intents (settlements (store w2)) !! 7 = Some intent7) as Hx by (vm_compute; reflexivity).
  split.
  - apply (reconcile_exact this w2 (at_ledger 7) boss 7 500 intent7 settle_w2_reach); try (vm_compute; reflexivity).
    unfold valid. simpl. range_lia.
  - refine (proj1 (reconcile_exact this w2 (at_ledger 8) boss 7 500 intent7 settle_w2_reach _ _ _ _ _));
      try (vm_compute; reflexivity). unfold valid. simpl. range_lia.
Defined.
End Runs.
