(* ===== verification/OutboxTyping.v ===== *)
(** * Well-typed calls of the outbox do not trap

    With every authorisation present, no call of any register panics in a reachable world:
    every arithmetic overflow and every missing record is a contract error. *)
From S2P Require Import Prelude Machine Host Loops Outbox OutboxEffects OutboxQueue.

Section Typing.
Context {L : Type}.
Abbreviation W := (World L Store Event).
Abbreviation M := (Contract L Store Event ContractError).
Implicit Types (w : W).
Abbreviation Reach this := (reachable exec valid this (λ _ _, True) deployed).

Section Signed.
Context (e : Env) (signed : ∀ a, authorized e a = true).

Lemma signed_safe a w : safe (require_auth a : M unit) e w.
Proof. unfold safe, require_auth. by rewrite signed. Qed.

Lemma operator_safe a w : safe (require_operator a : M unit) e w.
Proof.
  apply bind_safe; [apply signed_safe|]. intros. unfold require_admin. safe_step.
Qed.

Lemma if_safe {A} (b : bool) (m m' : M A) w : safe m e w → safe m' e w → safe (if b then m else m') e w.
Proof. by destruct b. Qed.

Lemma ignore_safe {A} (m : M A) w : safe m e w → safe (ignore m) e w.
Proof. intros Hm. by apply bind_safe. Qed.
End Signed.
End Typing.

#[export] Hint Resolve if_safe : safe.

(** Walk a call whose only possible trap is a missing authorisation. *)
Ltac typed_step :=
  cbv beta zeta;
  repeat first
    [ apply ignore_safe
    | apply if_safe
    | apply bind_safe; [|intros ? ? _]
    | apply signed_safe; assumption
    | apply operator_safe; assumption
    | solve [eauto 2 with safe nocore]
    | match goal with |- safe (match ?x with _ => _ end) _ _ => destruct x end
    | progress unfold load_queue, load_hooks, load_settlements, load_event, load_endpoint, load_intent,
        next_sequence, require_commitment, require_admin, raise_alert, evict, check_expiry ].

Section Typing_.
Context {L : Type}.
Abbreviation W := (World L Store Event).
Abbreviation M := (Contract L Store Event ContractError).
Implicit Types (w : W).
Abbreviation Reach this := (reachable exec valid this (λ _ _, True) deployed).

Lemma hook_call_safe c e w : (∀ a, authorized e a = true) → safe (exec_hooks c : M unit) e w.
Proof.
  intros Hs. destruct c; simpl; unfold register_endpoint, rotate_secret, set_endpoint_active, record_delivery,
    acknowledge_delivery; typed_step.
Qed.

Lemma queue_call_safe this c e w :
  Reach this w → valid e (OnQueue c) → (∀ a, authorized e a = true) → safe (exec_queue c : M unit) e w.
Proof.
  intros [Hi _]%queue_reachable Hv Hs. destruct c as [o s t v c key p|r i|c i|a h n]; simpl;
    unfold enqueue, mark_published, acknowledge; try solve [typed_step].
  destruct Hv as (_ & _ & _ & Hn). unfold prune, require_admin, load_queue, ignore, safe, bind, load, now, reject_if, fail, ret, ok_or.
  destruct (bool_decide _); simpl; [|done]. destruct (_ <? h); simpl; [done|]. destruct ((n =? 0) || _) eqn:Hb; simpl; [done|].
  destruct (sweep_spec (queue (store w)) h n Hi Hn) as (x & s & k & -> & Hx & _).
  by destruct Hx as [->| ->].
Qed.

Lemma settlement_call_safe c e w : (∀ a, authorized e a = true) → safe (exec_settlements c : M unit) e w.
Proof.
  intros Hs. destruct c; simpl; unfold open_settlement, observe_settlement, reconcile_settlement,
    expire_settlement, resolve_settlement, archive_settlement; typed_step.
Qed.

(** C26: No call of the outbox panics.  From every reachable world, a call of any of the three
    registers whose arguments have their declared types and whose authorisations are present
    returns or fails with a declared error: a full register, a spent counter, a missing record
    and a bad argument are errors, and the sweep of [prune] ends. *)
Theorem outbox_never_traps this w e c :
  Reach this w → valid e c → (∀ a, authorized e a = true) → (invoke (exec c : M unit) e w).2 ≠ Panicked.
Proof.
  intros Hw Hv Hs. apply safe_response. destruct c as [a|c|c|c]; simpl.
  - unfold initialize. typed_step.
  - by eapply queue_call_safe.
  - by apply hook_call_safe.
  - by apply settlement_call_safe.
Qed.
End Typing_.

(** ** Concrete runs *)
Module Runs.
Import Demo.

Lemma outbox_never_traps_witness :
  (invoke (exec (OnQueue (CPrune boss 0 10))) (at_ledger 4) w1).2 ≠ Panicked ∧
  (invoke (exec (OnSettlements (CReconcile boss 7 0))) (at_ledger 4) w1).2 = Errored IntentNotFound.
Proof.
  split; [|vm_compute; reflexivity].
  apply (outbox_never_traps this); [apply demo_reach; valid_calls| |done].
  unfold valid. simpl. split_and!; range_lia.
Defined.
End Runs.
