(* ===== verification/Scheduling.v ===== *)
(** * Session scheduling ([mentorship-scheduling/src/lib.rs])

    Mentor and mentee of an active agreement book sessions, confirm them and move them: one
    participant proposes a new time, the other approves or declines it.  A session keeps the
    trace of the changes applied to it.  [Agreement], [Session] and [Reschedule] records are
    maps of the store; a participant's index of sessions is the list the code appends to. *)
From S2P Require Import Prelude Machine Host.

Definition MAX_SESSIONS_PER_PARTICIPANT : nat := 64.
Definition MIN_DURATION_MINUTES : Z := 15.
Definition MAX_DURATION_MINUTES : Z := 480.
Definition MIN_OFFSET_MINUTES : Z := -720.
Definition MAX_OFFSET_MINUTES : Z := 840.
Definition MAX_LEAD_TIME_SECONDS : Z := 2592000.
Definition MAX_RESCHEDULES_PER_SESSION : nat := 16.
Definition MIN_APPROVAL_WINDOW_SECONDS : Z := 60.
Definition MAX_APPROVAL_WINDOW_SECONDS : Z := 2592000.
Definition DEFAULT_RESCHEDULE_NOTICE_SECONDS : Z := 86400.
Definition DEFAULT_APPROVAL_WINDOW_SECONDS : Z := 259200.

Inductive ContractError :=
| NotInitialized | AlreadyInitialized | NotAdmin | NotRegistrar | NotAuthorized | AgreementNotFound
| AgreementAlreadyRegistered | AgreementNotActive | SessionAlreadyExists | SessionNotFound
| ScheduleConflict | LeadTimeNotMet | StartTimeInPast | InvalidDuration | InvalidTimezoneOffset
| SessionLimitReached | IdempotencyConflict | InvalidLeadTime | RescheduleNotFound
| RescheduleAlreadyPending | RescheduleNoticeNotMet | RescheduleExpired | StaleRescheduleApproval
| InvalidReschedule | RescheduleLimitReached | RescheduleNotOpen | InvalidReschedulePolicy.

Inductive SessionMode := Video | Audio | InPerson | Chat.
Inductive SessionStatus := Booked | Confirmed.
(** [Clash] is the code's [ScheduleConflict], a name its error type has too. *)
Inductive RescheduleReason := AvailabilityChange | Clash | TimezoneChange | Personal | Other.
Inductive RescheduleStatus := Proposed | Applied | Declined.

#[export] Instance SessionMode_eq_dec : EqDecision SessionMode.
Proof. solve_decision. Defined.
#[export] Instance SessionStatus_eq_dec : EqDecision SessionStatus.
Proof. solve_decision. Defined.
#[export] Instance RescheduleReason_eq_dec : EqDecision RescheduleReason.
Proof. solve_decision. Defined.
#[export] Instance RescheduleStatus_eq_dec : EqDecision RescheduleStatus.
Proof. solve_decision. Defined.

Record AgreementAnchor := mkAnchor {
  ag_id : BytesN32; ag_mentor : Address; ag_mentee : Address; active : bool; registered_at : Z
}.

Record ScheduleChange := mkChange {
  ch_proposal_id : BytesN32;
  previous_start_utc : Z; previous_duration_minutes : Z; previous_local_offset_minutes : Z;
  ch_new_start_utc : Z; ch_new_duration_minutes : Z; ch_new_local_offset_minutes : Z;
  changed_at : Z
}.

Record Session := mkSession {
  session_id : BytesN32; agreement_id : BytesN32; mentor : Address; mentee : Address;
  start_utc : Z; local_offset_minutes : Z; duration_minutes : Z; mode : SessionMode;
  location_ref : BytesN32; agenda_hash : BytesN32; status : SessionStatus;
  mentor_confirmed_at : Z; mentee_confirmed_at : Z; booked_at : Z; revision : Z;
  reschedule_history : list ScheduleChange
}.

Record PaymentImpact := mkImpact {
  current_minutes : Z; proposed_minutes : Z; delta_minutes : Z; settlement_adjustment_required : bool
}.

Record RescheduleProposal := mkProposal {
  proposal_id : BytesN32; pr_session_id : BytesN32; proposed_by : Address; reason : RescheduleReason;
  reason_hash : BytesN32; new_start_utc : Z; new_local_offset_minutes : Z; new_duration_minutes : Z;
  impact : PaymentImpact; created_at : Z; expires_at : Z; session_revision : Z;
  pr_status : RescheduleStatus; responded_by : option Address; responded_at : Z; applied_at : Z
}.

Record SessionTimes := mkTimes {
  st_start_utc : Z; st_end_utc : Z; st_local_offset_minutes : Z; start_local : Z; end_local : Z
}.

Inductive Event :=
| REGISTRAR (a : Address)
| LEADTIME (n : Z)
| RESPPOL (notice window : Z)
| AGREG (i : BytesN32)
| AGACT (i : BytesN32) (b : bool)
| BOOKED (session agreement : BytesN32) (mentor mentee : Address) (start duration : Z)
| CFMD (session : BytesN32) (caller : Address) (t : Z) (both : bool)
| RSPROP (proposal session : BytesN32) (r : RescheduleReason) (start : Z)
| RESCHED (proposal session : BytesN32) (previous start duration : Z) (caller : Address)
| RSDECL (proposal session : BytesN32) (caller : Address) (t : Z)
| UPGRADED (wasm : BytesN32).

(** [BookingIdemKey]: agreement, caller, key. *)
Abbreviation BookingIdemKey := (BytesN32 * Address * BytesN32)%type (only parsing).

Record Store := mkStore {
  admin : option Address;
  registrar : option Address;
  min_lead_time : option Z;
  reschedule_notice : option Z;
  approval_window : option Z;
  agreements : gmap Z AgreementAnchor;
  sessions : gmap Z Session;
  session_lists : gmap Address (list Z);
  booking_keys : gmap (Z * Address * Z) Z;
  reschedules : gmap Z RescheduleProposal;
  open_reschedules : gmap Z Z
}.

Definition put_policy (a r : option Address) (lead notice window : option Z) (st : Store) : Store :=
  mkStore a r lead notice window (agreements st) (sessions st) (session_lists st) (booking_keys st)
    (reschedules st) (open_reschedules st).
Definition put_agreement (x : AgreementAnchor) (st : Store) : Store :=
  mkStore (admin st) (registrar st) (min_lead_time st) (reschedule_notice st) (approval_window st)
    (<[ag_id x := x]> (agreements st)) (sessions st) (session_lists st) (booking_keys st)
    (reschedules st) (open_reschedules st).
Definition put_session (x : Session) (st : Store) : Store :=
  mkStore (admin st) (registrar st) (min_lead_time st) (reschedule_notice st) (approval_window st)
    (agreements st) (<[session_id x := x]> (sessions st)) (session_lists st) (booking_keys st)
    (reschedules st) (open_reschedules st).
Definition put_session_ids (p : Address) (ids : list Z) (st : Store) : Store :=
  mkStore (admin st) (registrar st) (min_lead_time st) (reschedule_notice st) (approval_window st)
    (agreements st) (sessions st) (<[p := ids]> (session_lists st)) (booking_keys st)
    (reschedules st) (open_reschedules st).
Definition put_booking_key (k : BookingIdemKey) (i : BytesN32) (st : Store) : Store :=
  mkStore (admin st) (registrar st) (min_lead_time st) (reschedule_notice st) (approval_window st)
    (agreements st) (sessions st) (session_lists st) (<[k := i]> (booking_keys st))
    (reschedules st) (open_reschedules st).
Definition put_reschedules (m : gmap Z RescheduleProposal) (st : Store) : Store :=
  mkStore (admin st) (registrar st) (min_lead_time st) (reschedule_notice st) (approval_window st)
    (agreements st) (sessions st) (session_lists st) (booking_keys st) m (open_reschedules st).
Definition put_reschedule (x : RescheduleProposal) (st : Store) : Store :=
  put_reschedules (<[proposal_id x := x]> (reschedules st)) st.
Definition drop_reschedule (i : BytesN32) (st : Store) : Store :=
  put_reschedules (delete i (reschedules st)) st.
Definition put_open (m : gmap Z Z) (st : Store) : Store :=
  mkStore (admin st) (registrar st) (min_lead_time st) (reschedule_notice st) (approval_window st)
    (agreements st) (sessions st) (session_lists st) (booking_keys st) (reschedules st) m.
Definition open_for (s p : BytesN32) (st : Store) : Store := put_open (<[s := p]> (open_reschedules st)) st.
Definition close_for (s : BytesN32) (st : Store) : Store := put_open (delete s (open_reschedules st)) st.

Definition load_participant_sessions (p : Address) (st : Store) : list Z := default [] (session_lists st !! p).

(** ** Pure helpers *)

Definition session_end (start duration : Z) : result ContractError Z :=
  match checked_mul_u64 duration 60 with
  | None => Err InvalidDuration
  | Some n => match checked_add_u64 start n with None => Err InvalidDuration | Some z => Ok z end
  end.

Definition payment_impact (current proposed : Z) : PaymentImpact :=
  mkImpact current proposed (as_i32 (proposed - current)) (negb (proposed =? current)).

Definition overlaps (start fin other_start other_end : Z) : bool :=
  (start <? other_end) && (other_start <? fin).

(** [conflicts_with]: a session of [p] other than [exclude] that meets the slot; sessions that
    are missing or whose end overflows are passed over. *)
Definition conflicts_with (st : Store) (p : Address) (start fin : Z) (exclude : option Z) : bool :=
  existsb (λ i,
    negb (bool_decide (exclude = Some i)) &&
    match sessions st !! i with
    | None => false
    | Some other =>
        match session_end (start_utc other) (duration_minutes other) with
        | Err _ => false
        | Ok other_end => overlaps start fin (start_utc other) other_end
        end
    end) (load_participant_sessions p st).

Definition shift_by_offset (t offset : Z) : result ContractError Z :=
  match checked 0 i64_max t ≫= (λ t, checked_add_i64 t offset) with
  | None => Err InvalidTimezoneOffset
  | Some x => if x <? 0 then Err InvalidTimezoneOffset else Ok x
  end.

Definition outside (lo hi x : Z) : bool := negb ((lo <=? x) && (x <=? hi)).

Section Contract.
Context {L : Type}.
Abbreviation M := (Contract L Store Event ContractError).

Definition require_admin (caller : Address) : M unit := require_admin_of admin NotInitialized NotAdmin caller.
Definition require_registrar (caller : Address) : M unit :=
  require_admin_of registrar NotInitialized NotRegistrar caller.

Definition validate_lead_time (n : Z) : M unit := reject_if (MAX_LEAD_TIME_SECONDS <? n) InvalidLeadTime.

Definition validate_reschedule_policy (notice window : Z) : M unit :=
  reject_if ((MAX_LEAD_TIME_SECONDS <? notice) ||
    outside MIN_APPROVAL_WINDOW_SECONDS MAX_APPROVAL_WINDOW_SECONDS window) InvalidReschedulePolicy.

Definition initialize (a : Address) (lead : Z) : M unit :=
  o <- load admin ;;
  reject_if (bool_decide (is_Some o)) AlreadyInitialized ;;;
  require_auth a ;;;
  validate_lead_time lead ;;;
  save (put_policy (Some a) (Some a) (Some lead) (Some DEFAULT_RESCHEDULE_NOTICE_SECONDS)
    (Some DEFAULT_APPROVAL_WINDOW_SECONDS)).

Definition min_lead_time_seconds : M Z := o <- load min_lead_time ;; ok_or o NotInitialized.
Definition reschedule_notice_seconds : M Z := o <- load reschedule_notice ;; ok_or o NotInitialized.
Definition approval_window_seconds : M Z := o <- load approval_window ;; ok_or o NotInitialized.

Definition set_registrar (caller r : Address) : M unit :=
  require_admin caller ;;;
  save (λ st, put_policy (admin st) (Some r) (min_lead_time st) (reschedule_notice st) (approval_window st) st) ;;;
  publish (REGISTRAR r).

Definition set_min_lead_time (caller : Address) (n : Z) : M unit :=
  require_admin caller ;;;
  validate_lead_time n ;;;
  save (λ st, put_policy (admin st) (registrar st) (Some n) (reschedule_notice st) (approval_window st) st) ;;;
  publish (LEADTIME n).

Definition set_reschedule_policy (caller : Address) (notice window : Z) : M unit :=
  require_admin caller ;;;
  validate_reschedule_policy notice window ;;;
  save (λ st, put_policy (admin st) (registrar st) (min_lead_time st) (Some notice) (Some window) st) ;;;
  publish (RESPPOL notice window).

Definition load_agreement (i : BytesN32) : M AgreementAnchor :=
  o <- load (λ st, agreements st !! i) ;; ok_or o AgreementNotFound.
Definition load_session (i : BytesN32) : M Session :=
  o <- load (λ st, sessions st !! i) ;; ok_or o SessionNotFound.
Definition load_reschedule (i : BytesN32) : M RescheduleProposal :=
  o <- load (λ st, reschedules st !! i) ;; ok_or o RescheduleNotFound.

Definition register_agreement (caller : Address) (i : BytesN32) (a b : Address) : M unit :=
  require_registrar caller ;;;
  o <- load (λ st, agreements st !! i) ;;
  reject_if (bool_decide (is_Some o)) AgreementAlreadyRegistered ;;;
  reject_if (bool_decide (a = b)) NotAuthorized ;;;
  t <- now ;;
  save (put_agreement (mkAnchor i a b true t)) ;;;
  publish (AGREG i).

Definition switched (b : bool) (x : AgreementAnchor) : AgreementAnchor :=
  mkAnchor (ag_id x) (ag_mentor x) (ag_mentee x) b (registered_at x).

Definition set_agreement_active (caller : Address) (i : BytesN32) (b : bool) : M unit :=
  require_registrar caller ;;;
  x <- load_agreement i ;;
  save (put_agreement (switched b x)) ;;;
  publish (AGACT i b).

Definition validate_slot (start offset duration : Z) : M unit :=
  reject_if (outside MIN_DURATION_MINUTES MAX_DURATION_MINUTES duration) InvalidDuration ;;;
  reject_if (outside MIN_OFFSET_MINUTES MAX_OFFSET_MINUTES offset) InvalidTimezoneOffset ;;;
  t <- now ;;
  reject_if (start <=? t) StartTimeInPast ;;;
  lead <- min_lead_time_seconds ;;
  earliest <- ok_or (checked_add_u64 t lead) StartTimeInPast ;;
  reject_if (start <? earliest) LeadTimeNotMet.

(** The double-booking check of [book_session] over the ids of both participants. *)
Definition check_free (start fin : Z) (ids : list Z) : M unit :=
  for_in ids tt (λ i _,
    other <- load_session i ;;
    other_end <- lift (session_end (start_utc other) (duration_minutes other)) ;;
    reject_if (overlaps start fin (start_utc other) other_end) ScheduleConflict).

Definition same_booking (x : Session) (start offset duration : Z) (m : SessionMode)
    (location agenda : BytesN32) : bool :=
  (start_utc x =? start) && (local_offset_minutes x =? offset) && (duration_minutes x =? duration) &&
  bool_decide (mode x = m) && (location_ref x =? location) && (agenda_hash x =? agenda).

Definition index_session (p : Address) (ids : list Z) (i : BytesN32) : Store → Store :=
  put_session_ids p (ids ++ [i]).

Definition book_session (caller : Address) (agreement i key : BytesN32) (start offset duration : Z)
    (m : SessionMode) (location agenda : BytesN32) : M BytesN32 :=
  anchor <- load_agreement agreement ;;
  reject_if (negb (active anchor)) AgreementNotActive ;;;
  reject_if (negb (bool_decide (caller = ag_mentor anchor)) && negb (bool_decide (caller = ag_mentee anchor)))
    NotAuthorized ;;;
  require_auth caller ;;;
  known <- load (λ st, booking_keys st !! (agreement, caller, key)) ;;
  match known with
  | Some existing_id =>
      existing <- load_session existing_id ;;
      reject_if (negb (same_booking existing start offset duration m location agenda)) IdempotencyConflict ;;;
      ret existing_id
  | None =>
      validate_slot start offset duration ;;;
      taken <- load (λ st, sessions st !! i) ;;
      reject_if (bool_decide (is_Some taken)) SessionAlreadyExists ;;;
      mentor_sessions <- load (load_participant_sessions (ag_mentor anchor)) ;;
      mentee_sessions <- load (load_participant_sessions (ag_mentee anchor)) ;;
      reject_if ((MAX_SESSIONS_PER_PARTICIPANT <=? length mentor_sessions)%nat ||
        (MAX_SESSIONS_PER_PARTICIPANT <=? length mentee_sessions)%nat) SessionLimitReached ;;;
      fin <- lift (session_end start duration) ;;
      check_free start fin mentor_sessions ;;;
      check_free start fin mentee_sessions ;;;
      t <- now ;;
      save (put_session (mkSession i agreement (ag_mentor anchor) (ag_mentee anchor) start offset duration
        m location agenda Booked 0 0 t 0 [])) ;;;
      save (index_session (ag_mentor anchor) mentor_sessions i) ;;;
      save (index_session (ag_mentee anchor) mentee_sessions i) ;;;
      save (put_booking_key (agreement, caller, key) i) ;;;
      publish (BOOKED i agreement (ag_mentor anchor) (ag_mentee anchor) start duration) ;;;
      ret i
  end.

Definition with_confirmations (s : SessionStatus) (a b : Z) (x : Session) : Session :=
  mkSession (session_id x) (agreement_id x) (mentor x) (mentee x) (start_utc x) (local_offset_minutes x)
    (duration_minutes x) (mode x) (location_ref x) (agenda_hash x) s a b (booked_at x) (revision x)
    (reschedule_history x).

Definition is_party (caller : Address) (x : Session) : bool :=
  negb (negb (bool_decide (caller = mentor x)) && negb (bool_decide (caller = mentee x))).

Definition confirm_session (caller : Address) (i : BytesN32) : M bool :=
  x <- load_session i ;;
  reject_if (negb (is_party caller x)) NotAuthorized ;;;
  require_auth caller ;;;
  t <- now ;;
  if bool_decide (status x = Confirmed) then ret true
  else
    let by_mentor := bool_decide (caller = mentor x) in
    if negb ((if by_mentor then mentor_confirmed_at x else mentee_confirmed_at x) =? 0) then ret false
    else
      let a := if by_mentor then t else mentor_confirmed_at x in
      let b := if by_mentor then mentee_confirmed_at x else t in
      let s := if negb (a =? 0) && negb (b =? 0) then Confirmed else status x in
      let both := bool_decide (s = Confirmed) in
      save (put_session (with_confirmations s a b x)) ;;;
      publish (CFMD i caller t both) ;;;
      ret both.

(** ** Rescheduling *)

Definition same_proposal (x : RescheduleProposal) (session : BytesN32) (caller : Address)
    (r : RescheduleReason) (h : BytesN32) (start offset duration : Z) : bool :=
  (pr_session_id x =? session) && bool_decide (proposed_by x = caller) && bool_decide (reason x = r) &&
  (reason_hash x =? h) && (new_start_utc x =? start) && (new_local_offset_minutes x =? offset) &&
  (new_duration_minutes x =? duration).

(** The continuity control: an open proposal refuses the new one, an expired one makes room. *)
Definition make_room (session : BytesN32) (t : Z) : M unit :=
  o <- load (λ st, open_reschedules st !! session) ;;
  match o with
  | None => ret tt
  | Some open_id =>
      open <- load_reschedule open_id ;;
      reject_if (bool_decide (pr_status open = Proposed) && (t <=? expires_at open)) RescheduleAlreadyPending ;;;
      save (close_for session) ;;;
      save (drop_reschedule open_id)
  end.

Definition clashes (x : Session) (start fin : Z) (st : Store) : bool :=
  conflicts_with st (mentor x) start fin (Some (session_id x)) ||
  conflicts_with st (mentee x) start fin (Some (session_id x)).

Definition propose_reschedule (caller : Address) (session i : BytesN32) (r : RescheduleReason)
    (h : BytesN32) (start offset duration : Z) : M RescheduleProposal :=
  x <- load_session session ;;
  reject_if (negb (is_party caller x)) NotAuthorized ;;;
  require_auth caller ;;;
  known <- load (λ st, reschedules st !! i) ;;
  match known with
  | Some existing =>
      reject_if (negb (same_proposal existing session caller r h start offset duration)) IdempotencyConflict ;;;
      ret existing
  | None =>
      reject_if (MAX_RESCHEDULES_PER_SESSION <=? length (reschedule_history x))%nat RescheduleLimitReached ;;;
      t <- now ;;
      notice <- reschedule_notice_seconds ;;
      limit <- ok_or (checked_add_u64 t notice) RescheduleNoticeNotMet ;;
      reject_if (start_utc x <? limit) RescheduleNoticeNotMet ;;;
      validate_slot start offset duration ;;;
      reject_if ((start =? start_utc x) && (duration =? duration_minutes x) &&
        (offset =? local_offset_minutes x)) InvalidReschedule ;;;
      make_room session t ;;;
      fin <- lift (session_end start duration) ;;
      clash <- load (clashes x start fin) ;;
      reject_if clash ScheduleConflict ;;;
      window <- approval_window_seconds ;;
      expires <- ok_or (checked_add_u64 t window) RescheduleExpired ;;
      let expires := if start_utc x <? expires then start_utc x else expires in
      let proposal := mkProposal i session caller r h start offset duration
        (payment_impact (duration_minutes x) duration) t expires (revision x) Proposed None 0 0 in
      save (put_reschedule proposal) ;;;
      save (open_for session i) ;;;
      publish (RSPROP i session r start) ;;;
      ret proposal
  end.

(** The session after a change: the new slot, the trace, confirmations reset. *)
Definition moved (p : RescheduleProposal) (t : Z) (x : Session) : Session :=
  mkSession (session_id x) (agreement_id x) (mentor x) (mentee x) (new_start_utc p)
    (new_local_offset_minutes p) (new_duration_minutes p) (mode x) (location_ref x) (agenda_hash x) Booked 0 0
    (booked_at x) (saturating_add_u32 (revision x) 1)
    (reschedule_history x ++ [mkChange (proposal_id p) (start_utc x) (duration_minutes x)
      (local_offset_minutes x) (new_start_utc p) (new_duration_minutes p) (new_local_offset_minutes p) t]).

Definition answered (s : RescheduleStatus) (caller : Address) (t applied : Z) (p : RescheduleProposal) :
    RescheduleProposal :=
  mkProposal (proposal_id p) (pr_session_id p) (proposed_by p) (reason p) (reason_hash p) (new_start_utc p)
    (new_local_offset_minutes p) (new_duration_minutes p) (impact p) (created_at p) (expires_at p)
    (session_revision p) s (Some caller) t applied.

(** The counterparty of a proposal, and the session it is about. *)
Definition counterparty (caller : Address) (p : RescheduleProposal) : M Session :=
  x <- load_session (pr_session_id p) ;;
  reject_if (negb (is_party caller x)) NotAuthorized ;;;
  reject_if (bool_decide (caller = proposed_by p)) NotAuthorized ;;;
  require_auth caller ;;;
  ret x.

Definition approve_reschedule (caller : Address) (i : BytesN32) : M Session :=
  p <- load_reschedule i ;;
  x <- counterparty caller p ;;
  if bool_decide (pr_status p = Applied) then ret x
  else
    reject_if (negb (bool_decide (pr_status p = Proposed))) RescheduleNotOpen ;;;
    t <- now ;;
    reject_if (expires_at p <? t) RescheduleExpired ;;;
    reject_if (negb (revision x =? session_revision p)) StaleRescheduleApproval ;;;
    reject_if (MAX_RESCHEDULES_PER_SESSION <=? length (reschedule_history x))%nat RescheduleLimitReached ;;;
    fin <- lift (session_end (new_start_utc p) (new_duration_minutes p)) ;;
    clash <- load (clashes x (new_start_utc p) fin) ;;
    reject_if clash ScheduleConflict ;;;
    save (put_session (moved p t x)) ;;;
    save (put_reschedule (answered Applied caller t t p)) ;;;
    save (close_for (session_id x)) ;;;
    publish (RESCHED i (session_id x) (start_utc x) (new_start_utc p) (new_duration_minutes p) caller) ;;;
    ret (moved p t x).

Definition decline_reschedule (caller : Address) (i : BytesN32) : M unit :=
  p <- load_reschedule i ;;
  x <- counterparty caller p ;;
  if bool_decide (pr_status p = Declined) then ret tt
  else
    reject_if (negb (bool_decide (pr_status p = Proposed))) RescheduleNotOpen ;;;
    t <- now ;;
    save (put_reschedule (answered Declined caller t (applied_at p) p)) ;;;
    save (close_for (session_id x)) ;;;
    publish (RSDECL i (session_id x) caller t).

(** ** Views *)

Definition get_agreement (i : BytesN32) : M AgreementAnchor := load_agreement i.
Definition get_session (i : BytesN32) : M Session := load_session i.
Definition participant_sessions (p : Address) : M (list BytesN32) := load (load_participant_sessions p).
Definition get_reschedule (i : BytesN32) : M RescheduleProposal := load_reschedule i.

Fixpoint any_overlap (start fin : Z) (ids : list Z) : M bool :=
  match ids with
  | [] => ret false
  | i :: ids =>
      x <- load_session i ;;
      other_end <- lift (session_end (start_utc x) (duration_minutes x)) ;;
      if overlaps start fin (start_utc x) other_end then ret true else any_overlap start fin ids
  end.

Definition has_conflict (p : Address) (start duration : Z) : M bool :=
  fin <- lift (session_end start duration) ;;
  ids <- load (load_participant_sessions p) ;;
  any_overlap start fin ids.

Definition session_times (i : BytesN32) : M SessionTimes :=
  x <- load_session i ;;
  fin <- lift (session_end (start_utc x) (duration_minutes x)) ;;
  offset <- ok_or (checked_mul_i64 (local_offset_minutes x) 60) InvalidTimezoneOffset ;;
  a <- lift (shift_by_offset (start_utc x) offset) ;;
  b <- lift (shift_by_offset fin offset) ;;
  ret (mkTimes (start_utc x) fin (local_offset_minutes x) a b).

Definition session_reschedules (i : BytesN32) : M (list ScheduleChange) :=
  x <- load_session i ;; ret (reschedule_history x).

Definition reschedule_payment_impact (i : BytesN32) (duration : Z) : M PaymentImpact :=
  x <- load_session i ;;
  reject_if (outside MIN_DURATION_MINUTES MAX_DURATION_MINUTES duration) InvalidDuration ;;;
  ret (payment_impact (duration_minutes x) duration).

(** What this contract does of an upgrade; replacing the code is the host's affair. *)
Definition upgrade (caller : Address) (wasm : BytesN32) : M unit :=
  require_admin caller ;;;
  publish (UPGRADED wasm).

(** ** Calls *)

Inductive Call :=
| CInitialize (a : Address) (lead : Z)
| CSetRegistrar (caller r : Address)
| CSetLeadTime (caller : Address) (n : Z)
| CSetPolicy (caller : Address) (notice window : Z)
| CRegister (caller : Address) (i : BytesN32) (a b : Address)
| CSwitch (caller : Address) (i : BytesN32) (b : bool)
| CBook (caller : Address) (agreement i key : BytesN32) (start offset duration : Z) (m : SessionMode)
    (location agenda : BytesN32)
| CConfirm (caller : Address) (i : BytesN32)
| CPropose (caller : Address) (session i : BytesN32) (r : RescheduleReason) (h : BytesN32)
    (start offset duration : Z)
| CApprove (caller : Address) (i : BytesN32)
| CDecline (caller : Address) (i : BytesN32).

Definition exec (c : Call) : M unit :=
  match c with
  | CInitialize a n => initialize a n
  | CSetRegistrar a r => set_registrar a r
  | CSetLeadTime a n => set_min_lead_time a n
  | CSetPolicy a n w => set_reschedule_policy a n w
  | CRegister c i a b => register_agreement c i a b
  | CSwitch c i b => set_agreement_active c i b
  | CBook c g i k s o d m l a => ignore (book_session c g i k s o d m l a)
  | CConfirm c i => ignore (confirm_session c i)
  | CPropose c s i r h t o d => ignore (propose_reschedule c s i r h t o d)
  | CApprove c i => ignore (approve_reschedule c i)
  | CDecline c i => decline_reschedule c i
  end.
End Contract.

(** The declared widths of the arguments; a ledger closes after the epoch. *)
Definition valid (e : Env) (c : Call) : Prop :=
  0 < timestamp e ≤ u64_max ∧
  match c with
  | CInitialize _ n | CSetLeadTime _ n => 0 ≤ n ≤ u32_max
  | CSetPolicy _ n w => 0 ≤ n ≤ u32_max ∧ 0 ≤ w ≤ u32_max
  | CBook _ _ _ _ s _ d _ _ _ | CPropose _ _ _ _ _ s _ d => 0 ≤ s ≤ u64_max ∧ 0 ≤ d ≤ u32_max
  | _ => True
  end.
