(* ===== verification/SchedulingProps.v ===== *)
(** * Session scheduling: effects and invariant

    One relation for all the calls that return: what they have checked, and the store they
    leave.  The invariant and the theorems are proved over it.

    The calendar ([calendar_inv]): sessions are well formed, indexed under both participants,
    and no participant has two that overlap.  The proposals ([proposals_inv]): an open proposal
    is the one the session points to and was made against the session as it is.  Each call that
    returns keeps both. *)
From S2P Require Import Prelude Machine Host Intervals Scheduling.

(** ** Slots *)

(** The end of a session, in the range the code accepts. *)
Definition end_utc (x : Session) : Z := start_utc x + duration_minutes x * 60.

Lemma session_end_Ok start duration fin :
  session_end start duration = Ok fin ↔
    fin = start + duration * 60 ∧ 0 ≤ duration * 60 ≤ u64_max ∧ 0 ≤ fin ≤ u64_max.
Proof.
  unfold session_end, checked_mul_u64, checked_add_u64.
  destruct (checked _ _ (duration * 60)) as [n|] eqn:Hn; checked_prop; [|split; [done|lia]].
  destruct (checked _ _ (start + duration * 60)) as [z|] eqn:Hz; checked_prop.
  - split; [intros [= <-]; lia|intros (-> & _)]. done.
  - split; [done|lia].
Qed.

Lemma overlaps_false a b c d : overlaps a b c d = false ↔ apart a b c d.
Proof.
  unfold overlaps, apart. rewrite andb_false_iff, !Z.ltb_ge. lia.
Qed.

Lemma outside_false lo hi x : outside lo hi x = false ↔ lo ≤ x ≤ hi.
Proof. unfold outside. rewrite negb_false_iff, andb_true_iff, !Z.leb_le. done. Qed.

(** ** Parties *)

Definition party (p : Address) (x : Session) : Prop := mentor x = p ∨ mentee x = p.

Lemma is_party_iff p x : is_party p x = true ↔ party p x.
Proof.
  unfold is_party, party. rewrite negb_true_iff, andb_false_iff, !negb_false_iff, !bool_decide_eq_true.
  naive_solver.
Qed.

(** ** The effects *)

(** A slot that validation accepts at time [t]. *)
Definition slot_ok (start offset duration : Z) : Prop :=
  0 ≤ start ∧ MIN_DURATION_MINUTES ≤ duration ≤ MAX_DURATION_MINUTES ∧
  MIN_OFFSET_MINUTES ≤ offset ≤ MAX_OFFSET_MINUTES ∧ start + duration * 60 ≤ u64_max.

(** No session of [p], [exclude] apart, meets the slot. *)
Definition free (st : Store) (p : Address) (exclude : option Z) (start fin : Z) : Prop :=
  ∀ i x, i ∈ load_participant_sessions p st → exclude ≠ Some i → sessions st !! i = Some x →
    end_utc x ≤ u64_max → 0 ≤ start_utc x → 0 ≤ duration_minutes x →
    apart start fin (start_utc x) (end_utc x).

Definition enrolled (x : Session) (k : BookingIdemKey) (st : Store) : Store :=
  put_booking_key k (session_id x)
    (put_session_ids (mentee x) (load_participant_sessions (mentee x) st ++ [session_id x])
      (put_session_ids (mentor x) (load_participant_sessions (mentor x) st ++ [session_id x])
        (put_session x st))).

(** The store without an expired proposal of a session. *)
Definition roomy (s : BytesN32) (st : Store) : Store :=
  match open_reschedules st !! s with
  | Some i => drop_reschedule i (close_for s st)
  | None => st
  end.

(** The confirmations after a participant has confirmed at [t]. *)
Definition confirmed (caller : Address) (t : Z) (x : Session) : Session :=
  let a := if bool_decide (caller = mentor x) then t else mentor_confirmed_at x in
  let b := if bool_decide (caller = mentor x) then mentee_confirmed_at x else t in
  with_confirmations (if negb (a =? 0) && negb (b =? 0) then Confirmed else status x) a b x.

(** The calls that set roles and policies. *)
Definition configures (c : Call) : bool :=
  match c with CInitialize _ _ | CSetRegistrar _ _ | CSetLeadTime _ _ | CSetPolicy _ _ _ => true | _ => false end.

Inductive effect (e : Env) (st : Store) : Call → Store → Prop :=
| E_same c : effect e st c st
| E_policy c a r l n w :
    configures c = true → effect e st c (put_policy a r l n w st)
| E_register c i a b :
    a ≠ b → agreements st !! i = None →
    effect e st (CRegister c i a b) (put_agreement (mkAnchor i a b true (timestamp e)) st)
| E_switch c i b x :
    agreements st !! i = Some x → effect e st (CSwitch c i b) (put_agreement (switched b x) st)
| E_book c g i k s o d m l a anchor :
    agreements st !! g = Some anchor → active anchor = true → authorized e c = true →
    c = ag_mentor anchor ∨ c = ag_mentee anchor → booking_keys st !! (g, c, k) = None →
    sessions st !! i = None → slot_ok s o d → timestamp e < s →
    (∀ p, p = ag_mentor anchor ∨ p = ag_mentee anchor →
      (length (load_participant_sessions p st) < MAX_SESSIONS_PER_PARTICIPANT)%nat ∧
      free st p None s (s + d * 60)) →
    effect e st (CBook c g i k s o d m l a)
      (enrolled (mkSession i g (ag_mentor anchor) (ag_mentee anchor) s o d m l a Booked 0 0 (timestamp e) 0 [])
        (g, c, k) st)
| E_confirm c i x :
    sessions st !! i = Some x → party c x → authorized e c = true → status x = Booked →
    (if bool_decide (c = mentor x) then mentor_confirmed_at x else mentee_confirmed_at x) = 0 →
    effect e st (CConfirm c i) (put_session (confirmed c (timestamp e) x) st)
| E_propose c sid i r h s o d x expires :
    sessions st !! sid = Some x → party c x → authorized e c = true → reschedules st !! i = None →
    (length (reschedule_history x) < MAX_RESCHEDULES_PER_SESSION)%nat →
    slot_ok s o d → timestamp e < s → expires ≤ start_utc x →
    (∀ j, open_reschedules st !! sid = Some j →
      ∃ p, reschedules st !! j = Some p ∧ (pr_status p = Proposed → expires_at p < timestamp e)) →
    (∀ p, party p x → free st p (Some (session_id x)) s (s + d * 60)) →
    effect e st (CPropose c sid i r h s o d)
      (open_for sid i (put_reschedule (mkProposal i sid c r h s o d (payment_impact (duration_minutes x) d)
        (timestamp e) expires (revision x) Proposed None 0 0) (roomy sid st)))
| E_approve c i p x :
    reschedules st !! i = Some p → sessions st !! pr_session_id p = Some x → party c x →
    c ≠ proposed_by p → authorized e c = true → pr_status p = Proposed → timestamp e ≤ expires_at p →
    revision x = session_revision p → (length (reschedule_history x) < MAX_RESCHEDULES_PER_SESSION)%nat →
    (∀ q, party q x →
      free st q (Some (session_id x)) (new_start_utc p) (new_start_utc p + new_duration_minutes p * 60)) →
    effect e st (CApprove c i)
      (close_for (session_id x) (put_reschedule (answered Applied c (timestamp e) (timestamp e) p)
        (put_session (moved p (timestamp e) x) st)))
| E_decline c i p x :
    reschedules st !! i = Some p → sessions st !! pr_session_id p = Some x → party c x →
    c ≠ proposed_by p → authorized e c = true → pr_status p = Proposed →
    effect e st (CDecline c i)
      (close_for (session_id x) (put_reschedule (answered Declined c (timestamp e) (applied_at p) p) st)).

(** ** Parts of the calls *)

Lemma no_conflict_free st p start fin exclude :
  conflicts_with st p start fin exclude = false → free st p exclude start fin.
Proof.
  intros Hno i x Hi Hex Hx Hmax H0 Hd. unfold conflicts_with in Hno. apply not_true_iff_false in Hno.
  apply overlaps_false, not_true_is_false. intros Ho. apply Hno, existsb_exists. exists i.
  split; [by apply list_elem_of_In|]. rewrite bool_decide_eq_false_2 by done. simpl. rewrite Hx.
  destruct (session_end (start_utc x) (duration_minutes x)) as [f|] eqn:Hend.
  - apply session_end_Ok in Hend as (-> & _). done.
  - exfalso. unfold end_utc in Hmax. assert (session_end (start_utc x) (duration_minutes x) =
      Ok (start_utc x + duration_minutes x * 60)) as Hok; [|congruence].
    apply session_end_Ok. split_and!; lia.
Qed.

Lemma roomy_sessions s st : sessions (roomy s st) = sessions st ∧ session_lists (roomy s st) = session_lists st.
Proof. unfold roomy. by destruct (open_reschedules st !! s). Qed.

Lemma free_same st st' p exclude a b :
  sessions st' = sessions st ∧ session_lists st' = session_lists st → free st' p exclude a b → free st p exclude a b.
Proof. unfold free, load_participant_sessions. intros [-> ->]. done. Qed.

Section Parts.
Context {L : Type}.
Abbreviation W := (World L Store Event).
Abbreviation M := (Contract L Store Event ContractError).
Implicit Types (w : W).

Lemma check_free_done ids start fin e w w' u :
  (check_free start fin ids : M unit) e w = Done w' u →
  w' = w ∧ ∀ i x, i ∈ ids → sessions (store w) !! i = Some x → apart start fin (start_utc x) (end_utc x).
Proof.
  intros Hrun. unfold check_free in Hrun. revert Hrun. generalize tt as acc.
  induction ids as [|i ids IH]; intros acc Hrun; cbn [for_in] in Hrun.
  - run_inv. split; [done|]. intros i x Hi. by apply elem_of_nil in Hi.
  - unfold load_session in Hrun. run_inv. apply IH in Hrun as [-> Hall]. split; [done|].
    intros j y [->|Hj]%elem_of_cons Hy; [|by apply (Hall j)].
    match goal with H : session_end _ _ = Ok _ |- _ => apply session_end_Ok in H as (-> & _) end.
    simplify_eq. by apply overlaps_false.
Qed.

Lemma slot_validated start offset duration e w w' u :
  (validate_slot start offset duration : M unit) e w = Done w' u →
  w' = w ∧ timestamp e < start ∧ MIN_DURATION_MINUTES ≤ duration ≤ MAX_DURATION_MINUTES ∧
  MIN_OFFSET_MINUTES ≤ offset ≤ MAX_OFFSET_MINUTES.
Proof.
  intros Hrun. unfold validate_slot, min_lead_time_seconds in Hrun. run_inv. rewrite outside_false in *.
  bool_prop. done.
Qed.

Lemma counterparty_done c p e w w' x :
  (counterparty c p : M Session) e w = Done w' x →
  w' = w ∧ sessions (store w) !! pr_session_id p = Some x ∧ party c x ∧ c ≠ proposed_by p ∧
  authorized e c = true.
Proof.
  intros Hrun. unfold counterparty, load_session in Hrun. run_inv.
  rewrite negb_false_iff, is_party_iff in *. bool_prop. done.
Qed.

Lemma make_room_done s t e w w' u :
  (make_room s t : M unit) e w = Done w' u →
  ledger w' = ledger w ∧ store w' = roomy s (store w) ∧ log w' = log w ∧
  ∀ j, open_reschedules (store w) !! s = Some j →
    ∃ p, reschedules (store w) !! j = Some p ∧ (pr_status p = Proposed → expires_at p < t).
Proof.
  intros Hrun. unfold make_room, load_reschedule, roomy in *. run_inv.
  destruct (open_reschedules (store w) !! s) as [i|] eqn:Hi; run_inv; [|done]. simpl.
  split_and!; try done. intros j [= <-]. eexists. split; [done|]. intros Hp.
  match goal with H : (_ && _) = false |- _ => rewrite Hp, bool_decide_eq_true_2 in H by done; simpl in H end.
  bool_prop. done.
Qed.

Lemma clashes_free x start fin st p :
  clashes x start fin st = false → party p x → free st p (Some (session_id x)) start fin.
Proof. intros [H1 H2]%orb_false_iff [<-|<-]; by apply no_conflict_free. Qed.

(** ** The calls *)

Lemma book_session_done c g i k s o d m l a e w w' r :
  0 ≤ s → (book_session c g i k s o d m l a : M BytesN32) e w = Done w' r →
  ledger w' = ledger w ∧ effect e (store w) (CBook c g i k s o d m l a) (store w').
Proof.
  intros Hs Hrun. unfold book_session, load_agreement in Hrun. run_inv. rename Hrun into Hm.
  match goal with H : negb (active ?x) = false |- _ => rename x into anchor, H into Hact end.
  apply negb_false_iff in Hact.
  assert (c = ag_mentor anchor ∨ c = ag_mentee anchor) as Hc.
  { match goal with H : (_ && _) = false |- _ => apply andb_false_iff in H as [H|H] end;
      bool_prop; [by left|by right]. }
  match goal with H : (if _ then _ else _) _ _ = _ |- _ => idtac | _ => idtac end.
  destruct (booking_keys (store w) !! (g, c, k)) as [j|] eqn:Hk.
  - unfold load_session in Hm. run_inv. split; [done|apply E_same].
  - run_inv. match goal with H : validate_slot _ _ _ _ _ = _ |- _ =>
      apply slot_validated in H as (-> & Ht & Hd & Ho) end.
    match goal with H : session_end _ _ = Ok _ |- _ => apply session_end_Ok in H as (-> & _ & Hfin) end.
    repeat match goal with H : check_free _ _ _ _ _ = _ |- _ =>
      apply check_free_done in H as [-> H] end.
    bool_prop. repeat match goal with H : (_ <=? _)%nat = false |- _ => apply Nat.leb_gt in H end.
    split; [done|]. apply (E_book e (store w) c g i k s o d m l a anchor); try done.
    + by apply eq_None_not_Some.
    + unfold slot_ok. lia.
    + intros p [-> | ->]; (split; [done|]); intros j x Hj _ Hx _ _ _; eauto.
Qed.

Lemma confirm_session_done c i e w w' r :
  (confirm_session c i : M bool) e w = Done w' r →
  ledger w' = ledger w ∧ effect e (store w) (CConfirm c i) (store w').
Proof.
  intros Hrun. unfold confirm_session, load_session in Hrun. run_inv.
  match goal with H : negb (is_party _ ?y) = false |- _ =>
    rename y into x; apply negb_false_iff, is_party_iff in H as Hp end.
  destruct (decide (status x = Confirmed)) as [Hs|Hs].
  { rewrite bool_decide_eq_true_2 in Hrun by done. run_inv. split; [done|apply E_same]. }
  rewrite bool_decide_eq_false_2 in Hrun by done.
  destruct (Z.eqb_spec (if bool_decide (c = mentor x) then mentor_confirmed_at x else mentee_confirmed_at x) 0)
    as [H0|H0]; simpl in Hrun; run_inv; (split; [done|]); [|apply E_same].
  apply (E_confirm e (store w) c i x); try done. by destruct (status x).
Qed.

Lemma propose_reschedule_done c sid i r h s o d e w w' p :
  0 ≤ s → (propose_reschedule c sid i r h s o d : M RescheduleProposal) e w = Done w' p →
  ledger w' = ledger w ∧ effect e (store w) (CPropose c sid i r h s o d) (store w').
Proof.
  intros Hs Hrun. unfold propose_reschedule, load_session in Hrun. run_inv. rename Hrun into Hm.
  match goal with H : negb (is_party _ ?y) = false |- _ =>
    rename y into x; apply negb_false_iff, is_party_iff in H as Hp end.
  destruct (reschedules (store w) !! i) as [j|] eqn:Hk; [run_inv; split; [done|apply E_same]|].
  unfold reschedule_notice_seconds, approval_window_seconds in Hm. run_inv.
  match goal with H : validate_slot _ _ _ _ _ = _ |- _ =>
    apply slot_validated in H as (-> & Ht & Hd & Ho) end.
  match goal with H : session_end _ _ = Ok _ |- _ => apply session_end_Ok in H as (-> & _ & Hfin) end.
  match goal with H : make_room _ _ _ _ = _ |- _ => apply make_room_done in H as (Hl & Hst & _ & Hroom) end.
  checked_prop. bool_prop. repeat match goal with H : (_ <=? _)%nat = false |- _ => apply Nat.leb_gt in H end.
  cbn [store ledger]. rewrite Hst in *. split; [done|].
  apply (E_propose e (store w) c sid i r h s o d x); try done.
  - unfold slot_ok. lia.
  - case_match; bool_prop; lia.
  - intros q Hq. eapply free_same; [apply (roomy_sessions sid)|]. by eapply clashes_free.
Qed.

Lemma approve_reschedule_done c i e w w' x :
  (approve_reschedule c i : M Session) e w = Done w' x →
  ledger w' = ledger w ∧ effect e (store w) (CApprove c i) (store w').
Proof.
  intros Hrun. unfold approve_reschedule, load_reschedule in Hrun. run_inv.
  match goal with H : counterparty _ ?p _ _ = _ |- _ =>
    rename p into pr; apply counterparty_done in H as (-> & Hx & Hp & Hne & Hauth) end.
  destruct (decide (pr_status pr = Applied)) as [Ha|Ha].
  { rewrite bool_decide_eq_true_2 in Hrun by done. run_inv. split; [done|apply E_same]. }
  rewrite bool_decide_eq_false_2 in Hrun by done. run_inv.
  match goal with H : session_end _ _ = Ok _ |- _ => apply session_end_Ok in H as (-> & _ & Hfin) end.
  bool_prop. repeat match goal with H : (_ <=? _)%nat = false |- _ => apply Nat.leb_gt in H end.
  cbn [store ledger]. split; [done|]. eapply E_approve; try done.
  intros q Hq. by eapply clashes_free.
Qed.

Lemma decline_reschedule_done c i e w w' u :
  (decline_reschedule c i : M unit) e w = Done w' u →
  ledger w' = ledger w ∧ effect e (store w) (CDecline c i) (store w').
Proof.
  intros Hrun. unfold decline_reschedule, load_reschedule in Hrun. run_inv.
  match goal with H : counterparty _ ?p _ _ = _ |- _ =>
    rename p into pr; apply counterparty_done in H as (-> & Hx & Hp & Hne & Hauth) end.
  destruct (decide (pr_status pr = Declined)) as [Ha|Ha].
  { rewrite bool_decide_eq_true_2 in Hrun by done. run_inv. split; [done|apply E_same]. }
  rewrite bool_decide_eq_false_2 in Hrun by done. run_inv. bool_prop.
  cbn [store ledger]. split; [done|]. by eapply E_decline.
Qed.

Lemma scheduling_effect c e w w' u :
  valid e c → (exec c : M unit) e w = Done w' u →
  ledger w' = ledger w ∧ effect e (store w) c (store w').
Proof.
  intros [Ht Hv] Hrun.
  destruct c as [a n|a r|a n|a n v|a i p q|a i b|a g i k s o d m l h|a i|a s i r h t o d|a i|a i]; simpl in Hrun.
  - unfold initialize, validate_lead_time in Hrun. run_inv. split; [done|]. by apply E_policy.
  - unfold set_registrar, require_admin in Hrun. run_inv. split; [done|]. by apply E_policy.
  - unfold set_min_lead_time, require_admin, validate_lead_time in Hrun. run_inv. split; [done|]. by apply E_policy.
  - unfold set_reschedule_policy, require_admin, validate_reschedule_policy in Hrun. run_inv. split; [done|].
    by apply E_policy.
  - unfold register_agreement, require_registrar in Hrun. run_inv. bool_prop. split; [done|].
    apply E_register; [done|by apply eq_None_not_Some].
  - unfold set_agreement_active, require_registrar, load_agreement in Hrun. run_inv. split; [done|].
    by apply E_switch.
  - apply ignore_done in Hrun as [r Hrun]. eapply book_session_done, Hrun. lia.
  - apply ignore_done in Hrun as [r Hrun]. by eapply confirm_session_done.
  - apply ignore_done in Hrun as [r' Hrun]. eapply propose_reschedule_done, Hrun. lia.
  - apply ignore_done in Hrun as [r Hrun]. by eapply approve_reschedule_done.
  - by eapply decline_reschedule_done.
Qed.
End Parts.

(** ** The trace of a session *)

Definition slot_of (x : Session) : Z * Z * Z := (start_utc x, duration_minutes x, local_offset_minutes x).
Definition before_of (ch : ScheduleChange) : Z * Z * Z :=
  (previous_start_utc ch, previous_duration_minutes ch, previous_local_offset_minutes ch).
Definition after_of (ch : ScheduleChange) : Z * Z * Z :=
  (ch_new_start_utc ch, ch_new_duration_minutes ch, ch_new_local_offset_minutes ch).

(** The changes lead from one slot to the other, each starting where the last ended. *)
Fixpoint traces (s : Z * Z * Z) (h : list ScheduleChange) (s' : Z * Z * Z) : Prop :=
  match h with
  | [] => s = s'
  | ch :: h => before_of ch = s ∧ traces (after_of ch) h s'
  end.

(** The slot the session was booked for. *)
Definition original (x : Session) : Z * Z * Z :=
  match reschedule_history x with [] => slot_of x | ch :: _ => before_of ch end.

Lemma traces_snoc s h s' ch : traces s h s' → before_of ch = s' → traces s (h ++ [ch]) (after_of ch).
Proof. revert s. induction h as [|c h IH]; intros s; simpl; [naive_solver|]. intros [Hs Ht] Hch. split; [done|by apply IH]. Qed.

(** ** Well-formed records *)

Definition session_ok (i : Z) (x : Session) : Prop :=
  session_id x = i ∧ mentor x ≠ mentee x ∧
  slot_ok (start_utc x) (local_offset_minutes x) (duration_minutes x) ∧
  revision x = Z.of_nat (length (reschedule_history x)) ∧
  (length (reschedule_history x) ≤ MAX_RESCHEDULES_PER_SESSION)%nat ∧
  traces (original x) (reschedule_history x) (slot_of x) ∧
  (status x = Confirmed ↔ mentor_confirmed_at x ≠ 0 ∧ mentee_confirmed_at x ≠ 0).

Record calendar_inv (st : Store) : Prop := {
  ca_agreements : map_Forall (λ i x, ag_id x = i ∧ ag_mentor x ≠ ag_mentee x) (agreements st);
  ca_sessions : map_Forall session_ok (sessions st);
  ca_lists p : NoDup (load_participant_sessions p st) ∧
    (length (load_participant_sessions p st) ≤ MAX_SESSIONS_PER_PARTICIPANT)%nat ∧
    ∀ i, i ∈ load_participant_sessions p st ↔ ∃ x, sessions st !! i = Some x ∧ party p x;
  ca_apart i j x y p : i ≠ j → sessions st !! i = Some x → sessions st !! j = Some y →
    party p x → party p y → apart (start_utc x) (end_utc x) (start_utc y) (end_utc y);
  ca_keys g c k i : booking_keys st !! (g, c, k) = Some i →
    ∃ x, sessions st !! i = Some x ∧ agreement_id x = g ∧ party c x
}.

Definition proposal_ok (st : Store) (i : Z) (p : RescheduleProposal) : Prop :=
  proposal_id p = i ∧ slot_ok (new_start_utc p) (new_local_offset_minutes p) (new_duration_minutes p) ∧
  ∃ x, sessions st !! pr_session_id p = Some x ∧ party (proposed_by p) x ∧
    (pr_status p = Proposed → open_reschedules st !! pr_session_id p = Some i ∧
      session_revision p = revision x ∧
      (length (reschedule_history x) < MAX_RESCHEDULES_PER_SESSION)%nat).

Record proposals_inv (st : Store) : Prop := {
  pr_proposals : map_Forall (proposal_ok st) (reschedules st);
  pr_open s i : open_reschedules st !! s = Some i →
    ∃ p, reschedules st !! i = Some p ∧ pr_session_id p = s ∧ pr_status p = Proposed
}.

Definition inv (st : Store) : Prop := calendar_inv st ∧ proposals_inv st.

(** ** The calendar *)

Lemma party_of p x : party p x → p = mentor x ∨ p = mentee x.
Proof. intros [<-|<-]; [by left|by right]. Qed.

Lemma calendar_ext st st' :
  map_Forall (λ i x, ag_id x = i ∧ ag_mentor x ≠ ag_mentee x) (agreements st') →
  sessions st' = sessions st → session_lists st' = session_lists st → booking_keys st' = booking_keys st →
  calendar_inv st → calendar_inv st'.
Proof.
  intros Ha Hs Hl Hk Hi.
  assert (∀ p, load_participant_sessions p st' = load_participant_sessions p st) as Hids.
  { intros p. unfold load_participant_sessions. by rewrite Hl. }
  split; [done|rewrite Hs; apply Hi| | |].
  - intros p. rewrite Hids, Hs. apply (ca_lists _ Hi p).
  - rewrite Hs. apply (ca_apart _ Hi).
  - rewrite Hs, Hk. apply (ca_keys _ Hi).
Qed.

(** A place that is free for a participant is apart from the sessions of the participant. *)
Lemma free_apart st p exclude a b j y :
  calendar_inv st → free st p exclude a b → exclude ≠ Some j → sessions st !! j = Some y → party p y →
  apart a b (start_utc y) (end_utc y).
Proof.
  intros Hi Hf Hj Hy Hp. destruct (ca_sessions _ Hi _ _ Hy) as (_ & _ & (H0 & Hd & _ & Hmax) & _).
  unfold MIN_DURATION_MINUTES in Hd. apply (Hf j y); [|done|done|done|done|lia].
  apply (ca_lists _ Hi p). by exists y.
Qed.

(** The sessions of a participant leave each other free. *)
Lemma placed_free st i x p :
  calendar_inv st → sessions st !! i = Some x → party p x → free st p (Some i) (start_utc x) (end_utc x).
Proof.
  intros Hi Hx Hp j y Hj Hne Hy _ _ _. apply (ca_lists _ Hi p) in Hj as (z & Hz & Hpz). simplify_eq.
  apply (ca_apart _ Hi i j x z p); try done. congruence.
Qed.

Lemma session_replaced_inv st i x y :
  calendar_inv st → sessions st !! i = Some x → session_ok i y → agreement_id y = agreement_id x →
  mentor y = mentor x → mentee y = mentee x →
  (∀ p, party p y → free st p (Some i) (start_utc y) (end_utc y)) →
  calendar_inv (put_session y st).
Proof.
  intros Hi Hx Hy Hag Hma Hme Hfree. pose proof Hy as (Hid & _).
  assert (∀ p, party p y ↔ party p x) as Hp by (intros; unfold party; by rewrite Hma, Hme).
  split.
  - apply Hi.
  - simpl. rewrite Hid. apply map_Forall_insert_2; [done|apply Hi].
  - intros p. change (load_participant_sessions p (put_session y st)) with (load_participant_sessions p st).
    destruct (ca_lists _ Hi p) as (Hn & Hl & Hiff). split_and!; [done..|]. intros j. rewrite Hiff. simpl.
    rewrite Hid, lookup_insert. case_decide as Hj; [subst j|done]. rewrite Hx.
    split; intros (z & [= <-] & Hz); [exists y|exists x]; (split; [done|by apply Hp]).
  - intros j k z v p Hjk Hz Hv Hpz Hpv. simpl in Hz, Hv. rewrite Hid, lookup_insert in Hz, Hv.
    repeat case_decide; try congruence; [| |by apply (ca_apart _ Hi j k z v p)].
    + simplify_eq. apply apart_sym. eapply (free_apart st p (Some (session_id v)));
        [done|by apply Hfree| |done|done]; congruence.
    + simplify_eq. eapply (free_apart st p (Some (session_id z))); [done|by apply Hfree| |done|done]; congruence.
  - intros g c k j Hk. apply (ca_keys _ Hi) in Hk as (z & Hz & Hg & Hc). simpl. rewrite Hid, lookup_insert.
    case_decide as Hj; [subst j; simplify_eq|by exists z]. exists y. split_and!; [done|done|by apply Hp].
Qed.

Lemma load_enrolled p x k st :
  mentor x ≠ mentee x →
  load_participant_sessions p (enrolled x k st) =
    load_participant_sessions p st ++ (if decide (party p x) then [session_id x] else []).
Proof.
  intros Hne. unfold enrolled, load_participant_sessions, party. simpl. rewrite !lookup_insert.
  repeat case_decide; subst; simpl; try tauto; by rewrite app_nil_r.
Qed.

Lemma session_enrolled_inv x k st :
  calendar_inv st → session_ok (session_id x) x → sessions st !! session_id x = None →
  k.1.1 = agreement_id x → party k.1.2 x →
  (∀ p, party p x → (length (load_participant_sessions p st) < MAX_SESSIONS_PER_PARTICIPANT)%nat ∧
    free st p None (start_utc x) (end_utc x)) →
  calendar_inv (enrolled x k st).
Proof.
  intros Hi Hx Hnew Hg Hc Hfree. pose proof Hx as (_ & Hne & _).
  split.
  - apply Hi.
  - simpl. apply map_Forall_insert_2; [done|apply Hi].
  - intros p. rewrite load_enrolled by done. destruct (ca_lists _ Hi p) as (Hn & Hl & Hiff). split_and!.
    + case_decide; [|by rewrite app_nil_r]. apply NoDup_app. split_and!; [done| |apply NoDup_singleton].
      intros i Hin ->%list_elem_of_singleton. apply Hiff in Hin as (z & Hz & _). congruence.
    + rewrite length_app. case_decide as Hp; simpl; [|lia]. apply Hfree in Hp as [Hp _]. lia.
    + intros i. rewrite elem_of_app, Hiff. simpl. rewrite lookup_insert.
      destruct (decide (session_id x = i)) as [<-|Hi1].
      * split; [intros [(z & Hz & _)|Hin]; [congruence|]|].
        -- case_decide as Hp; [by exists x|by apply elem_of_nil in Hin].
        -- intros (z & [= <-] & Hp). right. rewrite decide_True by done. by left.
      * split; [intros [|Hin]; [done|]|by left].
        case_decide; [|by apply elem_of_nil in Hin]. apply list_elem_of_singleton in Hin. congruence.
  - intros i j y z p Hij Hy Hz Hpy Hpz. simpl in Hy, Hz. rewrite lookup_insert in Hy, Hz.
    repeat case_decide; try congruence; [| |by apply (ca_apart _ Hi i j y z p)].
    + simplify_eq. apply apart_sym. eapply (free_apart st p None); [done|by apply Hfree| |done|done]; done.
    + simplify_eq. eapply (free_apart st p None); [done|by apply Hfree| |done|done]; done.
  - intros g c k' i Hk. simpl in Hk. rewrite lookup_insert in Hk. simpl. rewrite lookup_insert.
    case_decide as Hk'; simplify_eq.
    + exists x. rewrite decide_True by done. done.
    + apply (ca_keys _ Hi) in Hk as (y & Hy & ? & ?). exists y. split; [|done].
      rewrite decide_False; [done|]. intros <-. congruence.
Qed.

(** ** The proposals *)

(** Sessions that keep their parties; and their revision too, where a proposal may be open. *)
Definition carried (keep : Z → Prop) (st st' : Store) : Prop :=
  ∀ i x, sessions st !! i = Some x → ∃ x', sessions st' !! i = Some x' ∧ (∀ p, party p x → party p x') ∧
    (keep i → revision x' = revision x ∧ reschedule_history x' = reschedule_history x).

Lemma carried_same keep st st' : sessions st' = sessions st → carried keep st st'.
Proof. intros Hs i x Hx. exists x. by rewrite Hs. Qed.

Lemma proposals_ext st st' :
  carried (λ _, True) st st' → reschedules st' = reschedules st → open_reschedules st' = open_reschedules st →
  proposals_inv st → proposals_inv st'.
Proof.
  intros Hc Hr Ho Hi. split.
  - rewrite Hr. intros i p Hp. destruct (pr_proposals _ Hi _ _ Hp) as (Hid & Hs & x & Hx & Hpa & Hop).
    apply Hc in Hx as (x' & Hx' & Hp' & Hk). destruct (Hk I) as [Hrev Hh]. split_and!; [done..|]. exists x'.
    split_and!; [done|by apply Hp'|]. rewrite Hrev, Hh, Ho. done.
  - rewrite Hr, Ho. apply Hi.
Qed.

(** The open proposal of a session is the only one in state [Proposed]. *)
Lemma open_unique st i p :
  proposals_inv st → reschedules st !! i = Some p → pr_status p = Proposed →
  open_reschedules st !! pr_session_id p = Some i.
Proof. intros Hi Hp Hs. destruct (pr_proposals _ Hi _ _ Hp) as (_ & _ & x & _ & _ & Hop). by apply Hop. Qed.

Lemma roomy_inv s st :
  proposals_inv st → proposals_inv (roomy s st) ∧ open_reschedules (roomy s st) !! s = None ∧
    ∀ i, reschedules st !! i = None → reschedules (roomy s st) !! i = None.
Proof.
  intros Hi. unfold roomy. destruct (open_reschedules st !! s) as [j|] eqn:Hj; [|by split_and!].
  split_and!.
  - split; simpl.
    + intros i p [Hij Hp]%lookup_delete_Some.
      destruct (pr_proposals _ Hi _ _ Hp) as (Hid & Hs & x & Hx & Hpa & Hop). split_and!; [done..|].
      exists x. split_and!; [done..|]. intros Hst. destruct (Hop Hst) as (Ho & Hrest). split; [|done].
      simpl. rewrite lookup_delete_ne; [done|]. congruence.
    + intros t i [Hst Ho]%lookup_delete_Some. apply (pr_open _ Hi) in Ho as (p & Hp & Ht & Hpr).
      exists p. split; [|done]. rewrite lookup_delete_ne; [done|]. intros <-.
      apply (open_unique _ _ _ Hi) in Hp as Ho; [|done].
      apply (pr_open _ Hi) in Hj as (q & Hq & Hqs & _). congruence.
  - simpl. apply lookup_delete_eq.
  - intros i Hn. simpl. apply lookup_delete_None. by right.
Qed.

Lemma proposed_inv st s i p x :
  proposals_inv st → open_reschedules st !! s = None → reschedules st !! i = None →
  sessions st !! s = Some x → party (proposed_by p) x → proposal_id p = i → pr_session_id p = s →
  slot_ok (new_start_utc p) (new_local_offset_minutes p) (new_duration_minutes p) →
  pr_status p = Proposed → session_revision p = revision x →
  (length (reschedule_history x) < MAX_RESCHEDULES_PER_SESSION)%nat →
  proposals_inv (open_for s i (put_reschedule p st)).
Proof.
  intros Hi Hn Hnew Hx Hpa Hid Hs Hslot Hst Hrev Hlen. split; simpl; rewrite Hid.
  - apply map_Forall_insert_2.
    + split_and!; [done..|]. exists x. rewrite Hs. split_and!; [done..|]. intros _.
      simpl. rewrite lookup_insert_eq. done.
    + intros j q Hq. destruct (pr_proposals _ Hi _ _ Hq) as (Hqid & Hqs & y & Hy & Hqp & Hop).
      split_and!; [done..|]. exists y. split_and!; [done..|]. intros Hqst. destruct (Hop Hqst) as (Ho & Hrest).
      split; [|done]. simpl. rewrite lookup_insert_ne; [done|]. congruence.
  - intros t j Ho. rewrite lookup_insert in Ho. rewrite lookup_insert. case_decide as Ht; simplify_eq.
    + exists p. by rewrite decide_True by done.
    + apply (pr_open _ Hi) in Ho as (q & Hq & Hqs & Hqst). exists q. split; [|done].
      rewrite decide_False; [done|]. intros <-. congruence.
Qed.

Lemma answered_inv st st1 i p s c t a :
  proposals_inv st → reschedules st !! i = Some p → pr_status p = Proposed → s ≠ Proposed →
  carried (λ j, j ≠ pr_session_id p) st st1 →
  reschedules st1 = reschedules st → open_reschedules st1 = open_reschedules st →
  proposals_inv (close_for (pr_session_id p) (put_reschedule (answered s c t a p) st1)).
Proof.
  intros Hi Hp Hst Hs Hc Hr Ho. pose proof (open_unique _ _ _ Hi Hp Hst) as Hop.
  destruct (pr_proposals _ Hi _ _ Hp) as (Hid & Hslot & x & Hx & Hpa & _).
  split; simpl; rewrite ?Hid, ?Hr, ?Ho.
  - intros j q Hq. rewrite lookup_insert in Hq. case_decide as Hj; simplify_eq.
    + apply Hc in Hx as (x' & Hx' & Hp' & _). split_and!; [done..|]. exists x'. simpl.
      split_and!; [done|by apply Hp'|done].
    + destruct (pr_proposals _ Hi _ _ Hq) as (Hqid & Hqs & y & Hy & Hqp & Hqo).
      apply Hc in Hy as (y' & Hy' & Hp' & Hk). split_and!; [done..|]. exists y'.
      split_and!; [done|by apply Hp'|]. intros Hqst. destruct (Hqo Hqst) as (Hqop & Hrev & Hlen).
      assert (pr_session_id q ≠ pr_session_id p) as Hne by (intros Heq; rewrite Heq in Hqop; congruence).
      destruct (Hk Hne) as [-> ->]. simpl. by rewrite Ho, lookup_delete_ne.
  - intros u j [Hu Hj]%lookup_delete_Some. apply (pr_open _ Hi) in Hj as (q & Hq & Hqs & Hqst).
    exists q. split; [|done]. rewrite lookup_insert_ne; [done|]. intros <-. congruence.
Qed.

(** ** Every call keeps the invariant *)

Lemma confirmed_ok i c t x :
  session_ok i x → 0 < t → session_ok i (confirmed c t x).
Proof.
  intros (Hid & Hne & Hs & Hr & Hl & Htr & Hst) Ht. split_and!; [done..|]. unfold confirmed. simpl.
  destruct (bool_decide (c = mentor x)); simpl.
  - rewrite (proj2 (Z.eqb_neq t 0)) by lia. simpl. destruct (Z.eqb_spec (mentee_confirmed_at x) 0) as [H0|H0]; simpl.
    + rewrite Hst. naive_solver.
    + split; [intros _; lia|done].
  - rewrite (proj2 (Z.eqb_neq t 0)) by lia. rewrite andb_true_r.
    destruct (Z.eqb_spec (mentor_confirmed_at x) 0) as [H0|H0]; simpl.
    + rewrite Hst. naive_solver.
    + split; [intros _; lia|done].
Qed.

Lemma moved_ok i p t x :
  session_ok i x → slot_ok (new_start_utc p) (new_local_offset_minutes p) (new_duration_minutes p) →
  (length (reschedule_history x) < MAX_RESCHEDULES_PER_SESSION)%nat → session_ok i (moved p t x).
Proof.
  intros (Hid & Hne & Hs & Hr & Hl & Htr & Hst) Hslot Hlen. unfold MAX_RESCHEDULES_PER_SESSION in *.
  split_and!; simpl; [done|done|done| | | |].
  - unfold saturating_add_u32. rewrite length_app, Hr. cbn [length]. range_lia.
  - rewrite length_app. unfold MAX_RESCHEDULES_PER_SESSION. simpl. lia.
  - replace (original (moved p t x)) with (original x) by (unfold original, moved; simpl; by destruct (reschedule_history x)).
    change (slot_of (moved p t x)) with (after_of (mkChange (proposal_id p) (start_utc x) (duration_minutes x)
      (local_offset_minutes x) (new_start_utc p) (new_duration_minutes p) (new_local_offset_minutes p) t)).
    by eapply traces_snoc.
  - split; [done|lia].
Qed.

Lemma scheduling_effect_inv e st c st' : valid e c → inv st → effect e st c st' → inv st'.
Proof.
  intros [Ht _] [Hi Hpi] Heff. destruct Heff as
    [c|c a r l n w _|c i a b Hab Hnew|c i b x Hx|c g i k s o d m l a anchor Hg Hact Hau Hc Hk Hnew Hs Hts Hp
    |c i x Hx Hp Hau Hst H0|c sid i r h s o d x expires Hx Hp Hau Hnew Hlen Hs Hts Hexp Hopen Hfree
    |c i p x Hp Hx Hpc Hne Hau Hst Hexp Hrev Hlen Hfree|c i p x Hp Hx Hpc Hne Hau Hst].
  - by split.
  - split; [by apply (calendar_ext st); try done; apply Hi|]. by apply (proposals_ext st); [apply carried_same|..].
  - split; [|by apply (proposals_ext st); [apply carried_same|..]]. apply (calendar_ext st); try done.
    simpl. apply map_Forall_insert_2; [done|apply Hi].
  - split; [|by apply (proposals_ext st); [apply carried_same|..]]. apply (calendar_ext st); try done.
    destruct (ca_agreements _ Hi _ _ Hx) as [Hid Hne]. simpl. apply map_Forall_insert_2; [done|apply Hi].
  - destruct (ca_agreements _ Hi _ _ Hg) as [_ Hne]. split.
    + apply session_enrolled_inv; simpl; try done.
      * split_and!; try done; [simpl; unfold MAX_RESCHEDULES_PER_SESSION; lia|simpl; naive_solver].
      * unfold party. simpl. naive_solver.
      * intros p Hpp. apply Hp. unfold party in Hpp. simpl in Hpp. naive_solver.
    + apply (proposals_ext st); [|done..]. intros j y Hy. exists y. simpl.
      rewrite lookup_insert_ne by congruence. done.
  - pose proof (ca_sessions _ Hi _ _ Hx) as Hok. pose proof Hok as (Hid & _). split.
    + apply (session_replaced_inv st i x); try done; [apply confirmed_ok; [done|lia]|].
      intros p Hpp. by apply (placed_free st i x p).
    + apply (proposals_ext st); [|done..]. intros j y Hy. simpl. rewrite Hid, lookup_insert.
      destruct (decide (i = j)) as [<-|]; [|by exists y]. simplify_eq. by eexists.
  - pose proof (ca_sessions _ Hi _ _ Hx) as (Hid & _). destruct (roomy_inv sid st Hpi) as (Hri & Hno & Hkeep).
    destruct (roomy_sessions sid st) as [Hrs Hrl]. split.
    + apply (calendar_ext (roomy sid st)); try done; unfold roomy in *; destruct (open_reschedules st !! sid);
        try apply Hi; try done. by apply (calendar_ext st); try done; apply Hi.
    + apply (proposed_inv _ _ _ _ x); try done; [by apply Hkeep|by rewrite Hrs].
  - pose proof (ca_sessions _ Hi _ _ Hx) as Hok. pose proof Hok as (Hid & _).
    destruct (pr_proposals _ Hpi _ _ Hp) as (_ & Hslot & _). split.
    + apply (calendar_ext (put_session (moved p (timestamp e) x) st)); try done; [apply Hi|].
      apply (session_replaced_inv st (pr_session_id p) x); try done; [by apply moved_ok|].
      intros q Hq. rewrite <-Hid. by apply Hfree.
    + rewrite Hid. apply (answered_inv st _ i); try done. intros j y Hy. simpl. rewrite Hid, lookup_insert.
      destruct (decide (pr_session_id p = j)) as [<-|]; [simplify_eq; by eexists|by exists y].
  - pose proof (ca_sessions _ Hi _ _ Hx) as (Hid & _). split.
    + by apply (calendar_ext st); try done; apply Hi.
    + rewrite Hid. apply (answered_inv st _ i); try done. by apply carried_same.
Qed.

(** ** Reachable worlds *)
Section Reach.
Context {L : Type}.
Abbreviation W := (World L Store Event).
Implicit Types (w : W).

Definition empty_store : Store := mkStore None None None None None ∅ ∅ ∅ ∅ ∅ ∅.
Definition deployed (w : W) : Prop := store w = empty_store.
Abbreviation Reach this := (reachable exec valid this (λ _ _, True) deployed).

Lemma scheduling_reachable this w : Reach this w → inv (store w).
Proof.
  apply (reachable_inv _ _ _ _ _ (λ w, inv (store w))).
  - intros w0 ->. split; split; simpl; try apply map_Forall_empty; try done.
    intros p. assert (load_participant_sessions p empty_store = []) as -> by done.
    split_and!; [constructor|simpl; lia|]. intros i. split; [by intros ?%elem_of_nil|].
    by intros (x & Hx & _).
  - intros c e w0 w1 u _ Hv Hi Hrun. apply scheduling_effect in Hrun as [_ Heff]; [|done]. by eapply scheduling_effect_inv.
  - done.
Qed.
End Reach.
