(* ===== verification/SchedulingTheorems.v ===== *)
(** * Session scheduling: the properties

    Bookings of a participant never overlap, also after reschedules; a session is moved only
    with the consent of both parties and keeps the trace to the slot it was booked for;
    approvals are never stale; retries of a booking are harmless. *)
From S2P Require Import Prelude Machine Host Intervals Scheduling SchedulingProps.

#[local] Arguments Nat.leb : simpl never.

Section Theorems.
Context {L : Type}.
Abbreviation W := (World L Store Event).
Abbreviation M := (Contract L Store Event ContractError).
Implicit Types (w : W).
Abbreviation Reach this := (reachable exec valid this (λ _ _, True) deployed).

(** C4: No double booking.  In every reachable world, whatever was booked and rescheduled, two
    different sessions that share a participant do not overlap, and the index of a participant
    lists exactly the participant's sessions, at most 64. *)
Theorem sessions_apart this w p :
  Reach this w →
  (∀ i j x y, i ≠ j → sessions (store w) !! i = Some x → sessions (store w) !! j = Some y →
     party p x → party p y → apart (start_utc x) (end_utc x) (start_utc y) (end_utc y)) ∧
  ∃ ids, (participant_sessions p : M _) (mkEnv 0 this (λ _, true)) w = Done w ids ∧
    NoDup ids ∧ (length ids ≤ 64)%nat ∧ ∀ i, i ∈ ids ↔ ∃ x, sessions (store w) !! i = Some x ∧ party p x.
Proof.
  intros [Hi _]%scheduling_reachable. split.
  - intros i j x y. apply (ca_apart _ Hi).
  - eexists. split; [done|]. apply (ca_lists _ Hi p).
Qed.

(** The slot tests of the code mean what they say. *)
Lemma meets_free st p start fin exclude :
  calendar_inv st →
  conflicts_with st p start fin exclude = true ↔
    ∃ i x, exclude ≠ Some i ∧ sessions st !! i = Some x ∧ party p x ∧ ¬ apart start fin (start_utc x) (end_utc x).
Proof.
  intros Hi. split.
  - unfold conflicts_with. intros (i & Hin & Hb)%existsb_exists. rewrite <-list_elem_of_In in Hin.
    apply (ca_lists _ Hi p) in Hin as (x & Hx & Hp). rewrite Hx in Hb.
    apply andb_true_iff in Hb as [Hex Hb]. rewrite negb_true_iff, bool_decide_eq_false in Hex.
    destruct (session_end (start_utc x) (duration_minutes x)) as [f|] eqn:Hend; [|done].
    apply session_end_Ok in Hend as (-> & _). exists i, x. split_and!; [done..|].
    rewrite <-overlaps_false. unfold end_utc. congruence.
  - intros (i & x & Hex & Hx & Hp & Hap). apply not_false_iff_true. intros Hno.
    apply Hap, (free_apart st p exclude start fin i x); try done. by apply no_conflict_free.
Qed.

(** ** Approvals *)

(** Approval of a reschedule.  In every reachable world the counterparty's approval of a
    proposal answers as follows: an applied one returns the session and changes nothing, a
    declined one is not open, an expired one and one whose slot meets another session of either
    party are refused, and every other one moves the session to the proposed slot, appends the
    change to its trace and resets both confirmations.  An approval is never refused as stale or
    for the length of the trace; nothing compares the new slot with the current time. *)
Theorem approve_exact this w e c i p x :
  Reach this w → reschedules (store w) !! i = Some p → sessions (store w) !! pr_session_id p = Some x →
  party c x → c ≠ proposed_by p → authorized e c = true →
  let fin := new_start_utc p + new_duration_minutes p * 60 in
  invoke (approve_reschedule c i) e w =
    match pr_status p with
    | Applied => (w, Returned x)
    | Declined => (w, Errored RescheduleNotOpen)
    | Proposed =>
        if expires_at p <? timestamp e then (w, Errored RescheduleExpired)
        else if clashes x (new_start_utc p) fin (store w) then (w, Errored ScheduleConflict)
        else (mkWorld (ledger w)
                (close_for (pr_session_id p)
                  (put_reschedule (answered Applied c (timestamp e) (timestamp e) p)
                    (put_session (moved p (timestamp e) x) (store w))))
                (log w ++ [RESCHED i (pr_session_id p) (start_utc x) (new_start_utc p) (new_duration_minutes p) c]),
              Returned (moved p (timestamp e) x))
    end.
Proof.
  intros [Hi Hpi]%scheduling_reachable Hp Hx Hc Hne Hau fin.
  destruct (pr_proposals _ Hpi _ _ Hp) as (Hid & (H0 & Hd & _ & Hmax) & y & Hy & _ & Hopen). simplify_eq.
  destruct (ca_sessions _ Hi _ _ Hx) as (Hxid & _). unfold MIN_DURATION_MINUTES, MAX_DURATION_MINUTES in Hd.
  assert ((counterparty c p : M _) e w = Done w x) as Hcp.
  { unfold counterparty, load_session. apply is_party_iff in Hc. run_fwd. }
  assert (session_end (new_start_utc p) (new_duration_minutes p) = Ok fin) as Hend.
  { apply session_end_Ok. range_lia. }
  unfold invoke, approve_reschedule, load_reschedule.
  cbv [bind load now ok_or ret fail save publish reject_if lift]. rewrite Hp, Hcp.
  destruct (pr_status p) eqn:Hst; simpl; [|done..].
  destruct (Hopen eq_refl) as (_ & Hrev & Hlen). destruct (expires_at p <? timestamp e); simpl; [done|].
  rewrite Hrev, Z.eqb_refl, (proj2 (Nat.leb_gt _ _)), Hend by done. simpl.
  destruct (clashes x _ _ _); [done|]. simpl. by rewrite Hxid.
Qed.

(** ** The life of a session *)

(** What one call may do to a stored session: nothing, a confirmation of one of its parties, or
    a move to the slot one party proposed and the other approves. *)
Inductive session_moves (e : Env) (st : Store) (i : Z) (x : Session) : Session → Prop :=
| SM_same : session_moves e st i x x
| SM_confirm c :
    party c x → authorized e c = true → status x = Booked → session_moves e st i x (confirmed c (timestamp e) x)
| SM_move c j p :
    reschedules st !! j = Some p → pr_session_id p = i → pr_status p = Proposed → timestamp e ≤ expires_at p →
    party (proposed_by p) x → party c x → c ≠ proposed_by p → authorized e c = true →
    session_moves e st i x (moved p (timestamp e) x).

Lemma effect_session e st c st' i x :
  inv st → effect e st c st' → sessions st !! i = Some x →
  ∃ y, sessions st' !! i = Some y ∧ session_moves e st i x y.
Proof.
  intros [Hi Hpi] Heff Hx. destruct Heff as
    [c|c a r l n v _|c j a b _ _|c j b z _|c g j k s o d m l a anchor _ _ _ _ _ Hnew _ _ _
    |c j z Hz Hp Hau Hst _|c sid j r h s o d z expires _ _ _ _ _ _ _ _ _ _
    |c j p z Hp Hz Hpc Hne Hau Hst Hexp _ _ _|c j p z _ _ _ _ _ _]; simpl;
    try (exists x; split; [done|apply SM_same]).
  - exists x. rewrite lookup_insert_ne by congruence. split; [done|apply SM_same].
  - destruct (ca_sessions _ Hi _ _ Hz) as (Hid & _). rewrite Hid, lookup_insert.
    destruct (decide (j = i)) as [<-|]; [|exists x; split; [done|apply SM_same]].
    simplify_eq. eexists. split; [done|by apply SM_confirm].
  - exists x. rewrite (proj1 (roomy_sessions sid st)). split; [done|apply SM_same].
  - destruct (ca_sessions _ Hi _ _ Hz) as (Hid & _). rewrite Hid, lookup_insert.
    destruct (decide (pr_session_id p = i)) as [Hs|]; [|exists x; split; [done|apply SM_same]].
    rewrite Hs in Hz. simplify_eq. eexists. split; [done|].
    destruct (pr_proposals _ Hpi _ _ Hp) as (_ & _ & y & Hy & Hpp & _). simplify_eq.
    by apply (SM_move e st (pr_session_id p) z c j p).
Qed.

(** Moves need consent.  From every reachable world a call leaves a stored session as it is,
    or records the confirmation of the party that authorises it, or moves it to the slot of an
    open proposal, within its approval window, by authorisation of the party that did not make
    the proposal.  Sessions are never removed. *)
Theorem session_lifecycle this w e c i x :
  Reach this w → valid e c → sessions (store w) !! i = Some x →
  ∃ y, sessions (store (invoke (exec c) e w).1) !! i = Some y ∧ session_moves e (store w) i x y.
Proof.
  intros Hinv%scheduling_reachable Hv Hx. unfold invoke. destruct (exec c e w) as [w' u| |] eqn:Hrun; simpl.
  - apply scheduling_effect in Hrun as [_ Heff]; [|done]. by eapply effect_session.
  - exists x. split; [done|apply SM_same].
  - exists x. split; [done|apply SM_same].
Qed.

(** A proposal is recorded on the authorisation of its proposer, answered once by the other
    party, and makes room for another only once it has expired. *)
Theorem proposal_lifecycle this w e c j :
  Reach this w → valid e c →
  match reschedules (store w) !! j, reschedules (store (invoke (exec c) e w).1) !! j with
  | None, None => True
  | None, Some p => authorized e (proposed_by p) = true ∧ pr_status p = Proposed ∧
      ∃ r h s o d, c = CPropose (proposed_by p) (pr_session_id p) j r h s o d
  | Some p, None => pr_status p = Proposed ∧ expires_at p < timestamp e
  | Some p, Some q => q = p ∨ ∃ a s n, pr_status p = Proposed ∧ s ≠ Proposed ∧ a ≠ proposed_by p ∧
      authorized e a = true ∧ q = answered s a (timestamp e) n p
  end.
Proof.
  intros [Hi Hpi]%scheduling_reachable Hv. unfold invoke.
  destruct (exec c e w) as [w' u| |] eqn:Hrun; simpl; [|destruct (reschedules (store w) !! j); auto..].
  apply scheduling_effect in Hrun as [_ Heff]; [|done]. destruct Heff as
    [c|c a r l n v _|c i a b _ _|c i b z _|c g i k s o d m l a anchor _ _ _ _ _ _ _ _ _
    |c i z _ _ _ _ _|c sid i r h s o d z expires _ Hp Hau Hnew _ _ _ _ Hroom _
    |c i p z Hp _ _ Hne Hau Hst _ _ _ _|c i p z Hp _ _ Hne Hau Hst]; simpl;
    try (destruct (reschedules (store w) !! j); auto; fail).
  - rewrite lookup_insert. destruct (decide (i = j)) as [<-|Hij].
    { rewrite Hnew. simpl. split_and!; [done..|]. by eexists _, _, _, _, _. }
    unfold roomy. destruct (open_reschedules (store w) !! sid) as [k|] eqn:Hk; simpl;
      [|destruct (reschedules (store w) !! j); auto].
    rewrite lookup_delete. destruct (decide (k = j)) as [<-|Hkj]; [|destruct (reschedules (store w) !! j); auto].
    apply (pr_open _ Hpi) in Hk as Hpk. destruct Hpk as (p & Hpk & _ & Hst). rewrite Hpk.
    destruct (Hroom k eq_refl) as (q & Hq & Hexp). simplify_eq. auto.
  - destruct (pr_proposals _ Hpi _ _ Hp) as (Hid & _). rewrite Hid, lookup_insert.
    destruct (decide (i = j)) as [<-|Hij]; [|destruct (reschedules (store w) !! j); auto].
    rewrite Hp. right. by exists c, Applied, (timestamp e).
  - destruct (pr_proposals _ Hpi _ _ Hp) as (Hid & _). rewrite Hid, lookup_insert.
    destruct (decide (i = j)) as [<-|Hij]; [|destruct (reschedules (store w) !! j); auto].
    rewrite Hp. right. by exists c, Declined, (applied_at p).
Qed.

(** ** Histories *)

(** What later worlds keep of a session. *)
Definition keeps (x y : Session) : Prop :=
  agreement_id y = agreement_id x ∧ mentor y = mentor x ∧ mentee y = mentee x ∧ mode y = mode x ∧
  location_ref y = location_ref x ∧ agenda_hash y = agenda_hash x ∧ booked_at y = booked_at x ∧
  reschedule_history x `prefix_of` reschedule_history y ∧ original y = original x.

Record kept (st st' : Store) : Prop := {
  k_agreements g a : agreements st !! g = Some a →
    ∃ a', agreements st' !! g = Some a' ∧ ag_mentor a' = ag_mentor a ∧ ag_mentee a' = ag_mentee a;
  k_sessions i x : sessions st !! i = Some x → ∃ y, sessions st' !! i = Some y ∧ keeps x y;
  k_keys k i : booking_keys st !! k = Some i → booking_keys st' !! k = Some i
}.

Lemma keeps_refl x : keeps x x.
Proof. by split_and!. Qed.

Lemma kept_refl st : kept st st.
Proof. split; [by eauto|intros i x Hx; exists x; split; [done|apply keeps_refl]|done]. Qed.

Lemma kept_trans st1 st2 st3 : kept st1 st2 → kept st2 st3 → kept st1 st3.
Proof.
  intros H1 H2. split.
  - intros g a Ha. apply H1 in Ha as (b & Hb & ? & ?). apply H2 in Hb as (c & Hc & ? & ?).
    exists c. split_and!; [done|congruence..].
  - intros i x Hx. apply H1 in Hx as (y & Hy & Hxy). apply H2 in Hy as (z & Hz & Hyz). exists z. split; [done|].
    unfold keeps in *. destruct Hxy as (?&?&?&?&?&?&?&?&?), Hyz as (?&?&?&?&?&?&?&?&?).
    split_and!; [congruence..|by etrans|congruence].
  - intros k i Hk. by apply H2, H1.
Qed.

Lemma moves_keeps e st i x y : session_moves e st i x y → keeps x y.
Proof.
  destruct 1; [apply keeps_refl|by split_and!|]. split_and!; simpl; try done; [by eexists|].
  unfold original. simpl. by destruct (reschedule_history x).
Qed.

Lemma effect_kept e st c st' : inv st → effect e st c st' → kept st st'.
Proof.
  intros Hi Heff. split.
  - destruct Heff; simpl; try by eauto.
    + intros h x Hx. exists x. rewrite lookup_insert_ne by congruence. done.
    + destruct Hi as [Hi _]. intros h y Hy. destruct (ca_agreements _ Hi _ _ H) as [Hid _].
      rewrite Hid, lookup_insert. destruct (decide (i = h)) as [<-|]; [simplify_eq; by eexists|by eauto].
    + unfold roomy. destruct (open_reschedules st !! sid); by eauto.
  - intros i x Hx. destruct (effect_session e st c st' i x) as (y & Hy & Hm); [done..|].
    exists y. split; [done|]. by eapply moves_keeps.
  - destruct Heff; simpl; try done.
    + intros k' j Hk. rewrite lookup_insert_ne by congruence. done.
    + unfold roomy. by destruct (open_reschedules st !! sid).
Qed.

Lemma run_kept this w calls :
  Reach this w → Forall (λ ec : Env * Call, self ec.1 = this ∧ valid ec.1 ec.2) calls →
  kept (store w) (store (run_calls exec calls w)).
Proof.
  intros Hw Hcalls. revert w Hw. induction Hcalls as [|[e c] calls [Hs Hv] _ IH]; intros w Hw; simpl; [apply kept_refl|].
  eapply kept_trans; [|by apply IH, reach_call]. simpl in *. apply scheduling_reachable in Hw as Hi. unfold invoke.
  destruct (exec c e w) as [w' u| |] eqn:Hrun; simpl; [|apply kept_refl..].
  apply scheduling_effect in Hrun as [_ Heff]; [|done]. by eapply effect_kept.
Qed.

(** The original time remains traceable.  Over any sequence of calls from a reachable world
    a session keeps its agreement, parties, mode, commitments and the slot it was booked for;
    its trace only grows at the end, to at most 16 changes; the changes lead step by step from
    the original slot to the present one, and the revision is their number. *)
Theorem history_traceable this w calls i x :
  Reach this w → Forall (λ ec : Env * Call, self ec.1 = this ∧ valid ec.1 ec.2) calls →
  sessions (store w) !! i = Some x →
  ∃ y, sessions (store (run_calls exec calls w)) !! i = Some y ∧ keeps x y ∧
    traces (original x) (reschedule_history y) (slot_of y) ∧
    revision y = Z.of_nat (length (reschedule_history y)) ∧ revision y ≤ 16 ∧
    (status y = Confirmed ↔ mentor_confirmed_at y ≠ 0 ∧ mentee_confirmed_at y ≠ 0).
Proof.
  intros Hw Hcalls Hx. destruct (k_sessions _ _ (run_kept this w calls Hw Hcalls) _ _ Hx) as (y & Hy & Hk).
  exists y. split; [done|]. split; [done|].
  assert (Reach this (run_calls exec calls w)) as [Hi _]%scheduling_reachable by by apply reachable_run.
  destruct (ca_sessions _ Hi _ _ Hy) as (_ & _ & _ & Hr & Hl & Ht & Hst).
  destruct Hk as (_&_&_&_&_&_&_&_&Ho). rewrite Ho in Ht. split_and!; [done..| |done].
  unfold MAX_RESCHEDULES_PER_SESSION in Hl. lia.
Qed.

(** ** Retries *)

Lemma book_session_result c g i k s o d m l a e w w' r :
  (book_session c g i k s o d m l a : M _) e w = Done w' r →
  booking_keys (store w') !! (g, c, k) = Some r ∧
  (∃ x, sessions (store w') !! r = Some x ∧ mode x = m ∧ location_ref x = l ∧ agenda_hash x = a) ∧
  ∃ anchor, agreements (store w') !! g = Some anchor ∧ (c = ag_mentor anchor ∨ c = ag_mentee anchor).
Proof.
  intros Hrun. unfold book_session, load_agreement in Hrun. run_inv. rename Hrun into Hm.
  match goal with H : negb (active ?x) = false |- _ => rename x into anchor end.
  assert (c = ag_mentor anchor ∨ c = ag_mentee anchor) as Hc.
  { match goal with H : (_ && _) = false |- _ => apply andb_false_iff in H as [H|H] end;
      bool_prop; [by left|by right]. }
  destruct (booking_keys (store w) !! (g, c, k)) as [j|] eqn:Hk.
  - unfold load_session in Hm. run_inv. unfold same_booking in *. bool_prop.
    repeat match goal with H : _ ∧ _ |- _ => destruct H end. split; [done|].
    split; [by eexists|by eexists].
  - run_inv. match goal with H : validate_slot _ _ _ _ _ = _ |- _ => apply slot_validated in H as (-> & _) end.
    repeat match goal with H : check_free _ _ _ _ _ = _ |- _ => apply check_free_done in H as [-> _] end.
    simpl. rewrite !lookup_insert_eq. split; [done|]. split; [by eexists|by eexists].
Qed.

(** Booking again.  Once a booking has returned an id, the same caller's retry under the same
    key, at any later time while the agreement is active, changes nothing: it returns the same
    id as long as the session is at the requested slot, and reports a conflict after a
    reschedule has moved it. *)
Theorem session_retry this w e w1 calls e' c g i i' k s o d m l a r anchor :
  Reach this w → self e = this → valid e (CBook c g i k s o d m l a) →
  (book_session c g i k s o d m l a : M _) e w = Done w1 r →
  Forall (λ ec : Env * Call, self ec.1 = this ∧ valid ec.1 ec.2) calls →
  let w2 := run_calls exec calls w1 in
  agreements (store w2) !! g = Some anchor → active anchor = true → authorized e' c = true →
  ∃ x, sessions (store w2) !! r = Some x ∧
    invoke (book_session c g i' k s o d m l a) e' w2 =
      (w2, if decide (slot_of x = (s, d, o)) then Returned r else Errored IdempotencyConflict).
Proof.
  intros Hw Hself Hv Hrun Hcalls w2 Hg Hact Hau.
  assert (Reach this w1) as Hw1.
  { assert (w1 = (invoke (exec (CBook c g i k s o d m l a)) e w).1) as ->; [|by apply reach_call].
    unfold invoke, exec, ignore, bind. by rewrite Hrun. }
  apply book_session_result in Hrun as (Hk & (x & Hx & <- & <- & <-) & anchor1 & Hg1 & Hc).
  destruct (run_kept this w1 calls Hw1 Hcalls) as [Hag Hse Hke]. fold w2 in Hag, Hse, Hke.
  apply Hag in Hg1 as (anchor2 & Hg2 & Hma & Hme). rewrite Hg in Hg2. injection Hg2 as <-. apply Hke in Hk.
  apply Hse in Hx as (y & Hy & (_ & _ & _ & Hmo & Hlo & Hagd & _)). exists y. split; [done|].
  unfold invoke, book_session, load_agreement, load_session.
  cbv [bind load ok_or ret fail reject_if require_auth]. rewrite Hg, Hact. cbn [negb].
  assert (negb (bool_decide (c = ag_mentor anchor)) && negb (bool_decide (c = ag_mentee anchor)) = false) as ->.
  { rewrite Hma, Hme, andb_false_iff, !negb_false_iff, !bool_decide_eq_true. naive_solver. }
  rewrite Hau, Hk, Hy. unfold same_booking, slot_of. rewrite Hmo, Hlo, Hagd, bool_decide_eq_true_2, !Z.eqb_refl by done.
  rewrite !andb_true_r. case_decide as Hs; simplify_eq; [by rewrite !Z.eqb_refl|].
  destruct (Z.eqb_spec (start_utc y) s), (Z.eqb_spec (local_offset_minutes y) o),
    (Z.eqb_spec (duration_minutes y) d); simpl; congruence.
Qed.

(** ** Views *)

(** Conflict queries.  In every reachable world a query about a slot that ends in range never
    fails and answers whether some session of the participant overlaps the slot; the test the
    proposals use answers the same about the sessions other than the one to be moved. *)
Theorem has_conflict_exact this w e p start duration exclude :
  Reach this w → 0 ≤ start → 0 ≤ duration * 60 → start + duration * 60 ≤ u64_max →
  let meets i x := sessions (store w) !! i = Some x ∧ party p x ∧
    ¬ apart start (start + duration * 60) (start_utc x) (end_utc x) in
  (∃ b, invoke (has_conflict p start duration) e w = (w, Returned b) ∧ (b = true ↔ ∃ i x, meets i x)) ∧
  (conflicts_with (store w) p start (start + duration * 60) exclude = true ↔
    ∃ i x, exclude ≠ Some i ∧ meets i x).
Proof.
  intros [Hi _]%scheduling_reachable H0 Hd Hmax meets. split; [|by apply meets_free].
  assert (session_end start duration = Ok (start + duration * 60)) as Hend by (apply session_end_Ok; lia).
  pose proof (ca_lists _ Hi p) as (_ & _ & Hiff).
  enough (∀ ids, ids ⊆ load_participant_sessions p (store w) →
    ∃ b, (any_overlap start (start + duration * 60) ids : M bool) e w = Done w b ∧
      (b = true ↔ ∃ i x, i ∈ ids ∧ sessions (store w) !! i = Some x ∧
        ¬ apart start (start + duration * 60) (start_utc x) (end_utc x))) as Hscan.
  { destruct (Hscan (load_participant_sessions p (store w))) as (b & Hb & Hbi); [done|]. exists b. split.
    - unfold invoke, has_conflict. cbv [bind lift load ret]. by rewrite Hend, Hb.
    - rewrite Hbi. unfold meets. split.
      + intros (i & x & Hin & Hx & Ha). apply Hiff in Hin as (y & Hy & Hp). simplify_eq. eauto.
      + intros (i & x & Hx & Hp & Ha). exists i, x. split; [apply Hiff; eauto|done]. }
  induction ids as [|i ids IH]; intros Hsub; cbn [any_overlap].
  { exists false. split; [done|]. split; [done|]. intros (i & x & Hin & _). by apply elem_of_nil in Hin. }
  destruct IH as (b & Hb & Hbi); [set_solver|].
  assert (i ∈ load_participant_sessions p (store w)) as Hin by set_solver.
  apply Hiff in Hin as (x & Hx & Hp). destruct (ca_sessions _ Hi _ _ Hx) as (_ & _ & (Hs0 & Hsd & _ & Hsm) & _).
  unfold MIN_DURATION_MINUTES, MAX_DURATION_MINUTES in Hsd.
  assert (session_end (start_utc x) (duration_minutes x) = Ok (end_utc x)) as Hxe.
  { apply session_end_Ok. unfold end_utc. range_lia. }
  unfold load_session. cbv [bind lift load ok_or ret]. rewrite Hx, Hxe.
  destruct (overlaps start _ (start_utc x) (end_utc x)) eqn:Ho.
  - exists true. split; [done|]. split; [|done]. intros _. exists i, x. split_and!; [by left|done|].
    rewrite <-overlaps_false. congruence.
  - exists b. split; [done|]. rewrite Hbi. apply overlaps_false in Ho. split.
    + intros (j & y & Hj & Hy & Ha). exists j, y. split_and!; [by right|done|done].
    + intros (j & y & [->|Hj]%elem_of_cons & Hy & Ha); [|by exists j, y]. by simplify_eq.
Qed.

Lemma shift_by_offset_spec t offset :
  0 ≤ t → -100000 ≤ offset ≤ 100000 →
  shift_by_offset t offset =
    if (i64_max <? t) || (i64_max <? t + offset) || (t + offset <? 0) then Err InvalidTimezoneOffset
    else Ok (t + offset).
Proof.
  intros Ht Ho. unfold shift_by_offset, checked_add_i64, checked, in_range.
  destruct (Z.ltb_spec i64_max t), (Z.leb_spec 0 t), (Z.leb_spec t i64_max); simpl; try done; try lia.
  destruct (Z.ltb_spec i64_max (t + offset)), (Z.leb_spec i64_min (t + offset)),
    (Z.leb_spec (t + offset) i64_max); simpl; try done; range_lia.
Qed.

(** Local times are the UTC times shifted by the stored offset. *)
Theorem session_times_shift this w e i x :
  Reach this w → sessions (store w) !! i = Some x →
  invoke (session_times i) e w =
    let shift := local_offset_minutes x * 60 in
    if (i64_max <? end_utc x) || (i64_max <? end_utc x + shift) || (start_utc x + shift <? 0)
    then (w, Errored InvalidTimezoneOffset)
    else (w, Returned (mkTimes (start_utc x) (end_utc x) (local_offset_minutes x)
      (start_utc x + shift) (end_utc x + shift))).
Proof.
  intros [Hi _]%scheduling_reachable Hx.
  destruct (ca_sessions _ Hi _ _ Hx) as (_ & _ & (Hs0 & Hsd & Hso & Hsm) & _).
  unfold MIN_DURATION_MINUTES, MAX_DURATION_MINUTES, MIN_OFFSET_MINUTES, MAX_OFFSET_MINUTES in *.
  assert (session_end (start_utc x) (duration_minutes x) = Ok (end_utc x)) as Hxe.
  { apply session_end_Ok. unfold end_utc. range_lia. }
  unfold invoke, session_times, load_session. cbv [bind lift load ok_or ret fail]. rewrite Hx, Hxe.
  unfold checked_mul_i64. rewrite checked_in by range_lia. cbn zeta.
  set (shift := local_offset_minutes x * 60).
  assert (end_utc x = start_utc x + duration_minutes x * 60) as He by done.
  rewrite !shift_by_offset_spec by range_lia.
  destruct (Z.ltb_spec i64_max (end_utc x)), (Z.ltb_spec i64_max (end_utc x + shift)),
    (Z.ltb_spec (start_utc x + shift) 0), (Z.ltb_spec i64_max (start_utc x)),
    (Z.ltb_spec i64_max (start_utc x + shift)), (Z.ltb_spec (end_utc x + shift) 0); simpl; done || lia.
Qed.
End Theorems.

(** ** Concrete runs *)
Module Runs.
Definition this : Address := addr 0.
Definition boss : Address := addr 1.
Definition ann : Address := addr 2.
Definition bob : Address := addr 3.
Definition cat : Address := addr 4.
Abbreviation Reach := (reachable exec valid this (λ _ _, True) deployed).

Definition at_time (t : Z) : Env := mkEnv t this (λ _, true).
Definition w0 : World unit Store Event := mkWorld tt empty_store [].
Definition booking1 : Call := CBook ann 7 101 1 1000000 120 60 Video 5 6.
(** Two back-to-back sessions of [ann], then a proposal by [bob] to move the first ahead. *)
Definition setup : list (Env * Call) :=
  [(at_time 10, CInitialize boss 0); (at_time 20, CRegister boss 7 ann bob); (at_time 30, CRegister boss 8 ann cat)].
Definition bookings : list (Env * Call) :=
  [(at_time 100, booking1); (at_time 110, CBook cat 8 102 1 1003600 0 30 Audio 5 6)].
Definition moving : list (Env * Call) :=
  [(at_time 150, CConfirm ann 101); (at_time 200, CPropose bob 101 501 Personal 9 200000 120 45)].
Definition approval : list (Env * Call) := [(at_time 250000, CApprove ann 501)].
Definition w1 : World unit Store Event := run_calls exec setup w0.
Definition w2 : World unit Store Event := run_calls exec (setup ++ bookings) w0.
Definition w3 : World unit Store Event := run_calls exec (setup ++ bookings ++ moving) w0.

Lemma scheduling_runs calls :
  Forall (λ ec : Env * Call, self ec.1 = this ∧ valid ec.1 ec.2) calls → Reach (run_calls exec calls w0).
Proof. apply reachable_run. by apply reach_init. Qed.

Ltac valid_calls := repeat constructor; simpl; try done; range_lia.

Lemma scheduling_w1_reach : Reach w1.
Proof. apply scheduling_runs. valid_calls. Qed.
Lemma scheduling_w2_reach : Reach w2.
Proof. apply scheduling_runs. valid_calls. Qed.
Lemma scheduling_w3_reach : Reach w3.
Proof. apply scheduling_runs. valid_calls. Qed.

Definition session1 : Session :=
  mkSession 101 7 ann bob 1000000 120 60 Video 5 6 Booked 150 0 100 0 [].
Definition proposal1 : RescheduleProposal :=
  mkProposal 501 101 bob Personal 9 200000 120 45 (mkImpact 60 45 (-15) true) 200 259400 0 Proposed None 0 0.

Lemma w3_session : sessions (store w3) !! 101 = Some session1.
Proof. vm_compute. reflexivity. Qed.
Lemma w3_proposal : reschedules (store w3) !! 501 = Some proposal1.
Proof. vm_compute. reflexivity. Qed.

Lemma sessions_apart_witness :
  ∃ x y, sessions (store w2) !! 101 = Some x ∧ sessions (store w2) !! 102 = Some y ∧
    apart (start_utc x) (end_utc x) (start_utc y) (end_utc y).
Proof.
  destruct (sessions_apart this w2 ann scheduling_w2_reach) as [Hap _].
  destruct (sessions (store w2) !! 101) as [x|] eqn:Hx; [|by vm_compute in Hx].
  destruct (sessions (store w2) !! 102) as [y|] eqn:Hy; [|by vm_compute in Hy].
  exists x, y. split_and!; [done..|]. apply (Hap 101 102 x y); try done.
  - vm_compute in Hx. injection Hx as <-. by left.
  - vm_compute in Hy. injection Hy as <-. by left.
Defined.

(** The approval comes after the proposed start: the session is moved into the past. *)
Lemma approve_exact_witness :
  invoke (approve_reschedule ann 501) (at_time 250000) w3 =
    (run_calls exec approval w3, Returned (moved proposal1 250000 session1)) ∧
  start_utc (moved proposal1 250000 session1) < 250000.
Proof.
  assert (party ann session1) as Hp by by left.
  pose proof (approve_exact this w3 (at_time 250000) ann 501 proposal1 session1 scheduling_w3_reach
    w3_proposal w3_session Hp ltac:(done) eq_refl) as Hap.
  split; [|simpl; lia]. rewrite Hap. vm_compute. reflexivity.
Defined.

Lemma session_lifecycle_witness :
  ∃ y, sessions (store (run_calls exec approval w3)) !! 101 = Some y ∧
    session_moves (at_time 250000) (store w3) 101 session1 y ∧ y ≠ session1.
Proof.
  destruct (session_lifecycle this w3 (at_time 250000) (CApprove ann 501) 101 session1) as (y & Hy & Hm).
  - apply scheduling_w3_reach.
  - unfold valid. simpl. range_lia.
  - apply w3_session.
  - exists y. split; [exact Hy|]. split; [done|]. intros ->. vm_compute in Hy. discriminate Hy.
Defined.

Lemma history_traceable_witness :
  ∃ y, sessions (store (run_calls exec (moving ++ approval) w2)) !! 101 = Some y ∧
    traces (1000000, 60, 120) (reschedule_history y) (slot_of y) ∧ length (reschedule_history y) = 1%nat ∧
    slot_of y = (200000, 45, 120).
Proof.
  destruct (history_traceable this w2 (moving ++ approval) 101
    (mkSession 101 7 ann bob 1000000 120 60 Video 5 6 Booked 0 0 100 0 [])) as (y & Hy & _ & Ht & _).
  - apply scheduling_w2_reach.
  - valid_calls.
  - vm_compute. reflexivity.
  - exists y. split; [exact Hy|]. split; [exact Ht|]. vm_compute in Hy. injection Hy as <-. done.
Defined.

Lemma session_retry_witness :
  let w' := (invoke (exec booking1) (at_time 100) w1).1 in
  let again := book_session ann 7 999 1 1000000 120 60 Video 5 6 in
  (invoke again (at_time 120) (run_calls exec (drop 1 bookings) w')).2 = Returned 101 ∧
  (invoke again (at_time 300000) (run_calls exec (drop 1 bookings ++ moving ++ approval) w')).2 =
    Errored IdempotencyConflict.
Proof.
  intros w' again.
  assert (∀ calls e', Forall (λ ec : Env * Call, self ec.1 = this ∧ valid ec.1 ec.2) calls →
    agreements (store (run_calls exec calls w')) !! 7 = Some (mkAnchor 7 ann bob true 20) →
    authorized e' ann = true →
    ∃ x, sessions (store (run_calls exec calls w')) !! 101 = Some x ∧
      invoke again e' (run_calls exec calls w') = (run_calls exec calls w',
        if decide (slot_of x = (1000000, 60, 120)) then Returned 101 else Errored IdempotencyConflict)) as Hre.
  { intros calls e' Hcalls Hag Hau.
    apply (session_retry this w1 (at_time 100) w' calls e' ann 7 101 999 1 1000000 120 60 Video 5 6 101
      (mkAnchor 7 ann bob true 20)); try done. apply scheduling_w1_reach. }
  split.
  - destruct (Hre (drop 1 bookings) (at_time 120)) as (x & Hx & ->); [valid_calls|vm_compute; reflexivity|reflexivity|].
    vm_compute in Hx. injection Hx as <-. reflexivity.
  - destruct (Hre (drop 1 bookings ++ moving ++ approval) (at_time 300000)) as (x & Hx & ->);
      [valid_calls|vm_compute; reflexivity|reflexivity|].
    vm_compute in Hx. injection Hx as <-. reflexivity.
Defined.

Lemma has_conflict_exact_witness :
  invoke (has_conflict ann 1003000 20) (at_time 120) w2 = (w2, Returned true) ∧
  invoke (has_conflict bob 1003600 20) (at_time 120) w2 = (w2, Returned false).
Proof.
  split.
  - destruct (has_conflict_exact this w2 (at_time 120) ann 1003000 20 None scheduling_w2_reach) as [(b & Hb & _) _];
      [lia|lia|range_lia|]. rewrite Hb. f_equal. apply (f_equal snd) in Hb. vm_compute in Hb. by rewrite Hb.
  - destruct (has_conflict_exact this w2 (at_time 120) bob 1003600 20 None scheduling_w2_reach) as [(b & Hb & _) _];
      [lia|lia|range_lia|]. rewrite Hb. f_equal. apply (f_equal snd) in Hb. vm_compute in Hb. by rewrite Hb.
Defined.
End Runs.
