(* ===== verification/Decisions.v ===== *)
(** * Award decisions ([scholarship-decisions/src/lib.rs])

    A committee decides applications by vote: a chair opens a decision, members vote once, the
    decision is finalized when a quorum of votes is cast.  An award holds budget of its program
    as a reservation until the applicant accepts it; a rejection or waitlisting can be appealed
    once, before a panel that did not vote on the decision. *)
From S2P Require Import Prelude Machine Host Loops.

Definition MAX_MEMBERS : Z := 32.

Inductive ContractError :=
| NotInitialized | AlreadyInitialized | NotAdmin | NotChair | NotCommitteeMember | CommitteeFull
| InvalidQuorum | InvalidProgramConfig | ProgramNotFound | ProgramAlreadyExists | ProgramInactive
| BudgetExceeded | ArithmeticOverflow | DecisionNotFound | DecisionAlreadyExists
| DecisionAlreadyFinalized | DecisionNotFinalized | DecisionNotAppealable | AlreadyVoted | QuorumNotMet
| ReservationNotFound | ReservationNotActive | ReservationExpired | ReservationNotExpired
| AppealNotFound | AppealAlreadyExists | AppealWindowClosed | AppealNotOpen | AppealReviewerIneligible
| InvalidEvidence | NotAuthorized.

Inductive CommitteeRole := Reviewer | Chair.
Inductive DecisionStatus := Open | Finalized.
Inductive DecisionOutcome := Pending | Awarded | Waitlisted | Rejected.
Inductive VoteChoice := Award | Waitlist | Reject | Recuse.
Inductive ReservationStatus := Reserved | Claimed | Released | Expired.
Inductive AppealStatus := AppealOpen | Resolved.

#[export] Instance CommitteeRole_eq_dec : EqDecision CommitteeRole.
Proof. solve_decision. Defined.
#[export] Instance DecisionStatus_eq_dec : EqDecision DecisionStatus.
Proof. solve_decision. Defined.
#[export] Instance DecisionOutcome_eq_dec : EqDecision DecisionOutcome.
Proof. solve_decision. Defined.
#[export] Instance VoteChoice_eq_dec : EqDecision VoteChoice.
Proof. solve_decision. Defined.
#[export] Instance ReservationStatus_eq_dec : EqDecision ReservationStatus.
Proof. solve_decision. Defined.
#[export] Instance AppealStatus_eq_dec : EqDecision AppealStatus.
Proof. solve_decision. Defined.

Record DecisionProgramConfig := mkConfig {
  active : bool; total_budget : Z; per_award_amount : Z; reserved_amount : Z; awarded_amount : Z;
  reservation_ttl : Z; appeal_window : Z
}.

Record Vote := mkVote { member : Address; choice : VoteChoice; cast_at : Z }.

Record Decision := mkDecision {
  program_id : BytesN32; applicant : Address; status : DecisionStatus; outcome : DecisionOutcome;
  outcome_version : Z; evidence_version : Z; evidence_hash : BytesN32; opened_at : Z; finalized_at : Z;
  votes : list Vote
}.

Record Reservation := mkReservation {
  rs_program_id : BytesN32; rs_applicant : Address; amount : Z; created_at : Z; expires_at : Z;
  rs_status : ReservationStatus
}.

Record Appeal := mkAppeal {
  ap_program_id : BytesN32; ap_applicant : Address; original_outcome : DecisionOutcome;
  ap_status : AppealStatus; ap_outcome : DecisionOutcome; grounds_hash : BytesN32;
  ap_evidence_hash : BytesN32; filed_at : Z; resolved_at : Z; ap_votes : list Vote
}.

Inductive Event :=
| CMEMBR (a : Address)
| CQUORUM (n : Z)
| PROGREG (p : BytesN32)
| DECOPEN (p : BytesN32) (a : Address)
| DECVOTE (p : BytesN32) (a m : Address) (c : VoteChoice)
| DECFIN (p : BytesN32) (a : Address) (o : DecisionOutcome)
| DECRSV (p : BytesN32) (a : Address) (n : Z)
| AWACC (p : BytesN32) (a : Address) (n : Z)
| RSVREL (p : BytesN32) (a : Address)
| RSVEXP (p : BytesN32) (a : Address)
| APPEAL (p : BytesN32) (a : Address)
| APVOTE (p : BytesN32) (a m : Address) (c : VoteChoice)
| APFIN (p : BytesN32) (a : Address) (o : DecisionOutcome).

(** An application: a program and an applicant. *)
Abbreviation Application := (Z * Address)%type (only parsing).

Record Store := mkStore {
  admin : option Address;
  quorum : option Z;
  active_members : gmap Address bool;
  roles : gmap Address CommitteeRole;
  member_list : option (list Address);
  programs : gmap Z DecisionProgramConfig;
  decisions : gmap (Z * Address) Decision;
  reservations : gmap (Z * Address) Reservation;
  appeals : gmap (Z * Address) Appeal
}.

Definition put_admin (a : Address) (st : Store) : Store :=
  mkStore (Some a) (quorum st) (active_members st) (roles st) (member_list st) (programs st) (decisions st)
    (reservations st) (appeals st).
Definition put_quorum (n : Z) (st : Store) : Store :=
  mkStore (admin st) (Some n) (active_members st) (roles st) (member_list st) (programs st) (decisions st)
    (reservations st) (appeals st).
Definition put_member (a : Address) (b : bool) (st : Store) : Store :=
  mkStore (admin st) (quorum st) (<[a := b]> (active_members st)) (roles st) (member_list st) (programs st)
    (decisions st) (reservations st) (appeals st).
Definition put_role (a : Address) (r : CommitteeRole) (st : Store) : Store :=
  mkStore (admin st) (quorum st) (active_members st) (<[a := r]> (roles st)) (member_list st) (programs st)
    (decisions st) (reservations st) (appeals st).
Definition put_member_list (l : list Address) (st : Store) : Store :=
  mkStore (admin st) (quorum st) (active_members st) (roles st) (Some l) (programs st) (decisions st)
    (reservations st) (appeals st).
Definition put_program (p : BytesN32) (c : DecisionProgramConfig) (st : Store) : Store :=
  mkStore (admin st) (quorum st) (active_members st) (roles st) (member_list st) (<[p := c]> (programs st))
    (decisions st) (reservations st) (appeals st).
Definition put_decision (k : Application) (d : Decision) (st : Store) : Store :=
  mkStore (admin st) (quorum st) (active_members st) (roles st) (member_list st) (programs st)
    (<[k := d]> (decisions st)) (reservations st) (appeals st).
Definition put_reservation (k : Application) (r : Reservation) (st : Store) : Store :=
  mkStore (admin st) (quorum st) (active_members st) (roles st) (member_list st) (programs st)
    (decisions st) (<[k := r]> (reservations st)) (appeals st).
Definition put_appeal (k : Application) (a : Appeal) (st : Store) : Store :=
  mkStore (admin st) (quorum st) (active_members st) (roles st) (member_list st) (programs st)
    (decisions st) (reservations st) (<[k := a]> (appeals st)).

Definition is_active_member (a : Address) (st : Store) : bool := default false (active_members st !! a).
Definition members (st : Store) : list Address := default [] (member_list st).
Definition get_quorum (st : Store) : Z := default 0 (quorum st).

(** ** Votes *)

Definition list_contains (l : list Address) (a : Address) : bool := existsb (λ x, bool_decide (x = a)) l.
Definition has_voted (vs : list Vote) (a : Address) : bool := existsb (λ v, bool_decide (member v = a)) vs.

(** The counters of [tally] are [u32]; [None] is an overflow of [+=]. *)
Definition tally (vs : list Vote) : option (Z * Z * Z) :=
  fold_opt (λ '(award, waitlist, reject) v,
    match choice v with
    | Award => n ← checked_add_u32 award 1; Some (n, waitlist, reject)
    | Waitlist => n ← checked_add_u32 waitlist 1; Some (award, n, reject)
    | Reject => n ← checked_add_u32 reject 1; Some (award, waitlist, n)
    | Recuse => Some (award, waitlist, reject)
    end) vs (0, 0, 0).

Definition decide_outcome (award waitlist reject : Z) : DecisionOutcome :=
  let '(best, outcome) := if award <=? waitlist then (waitlist, Waitlisted) else (award, Awarded) in
  if best <=? reject then Rejected else outcome.

Section Contract.
Context {L : Type}.
Abbreviation M := (Contract L Store Event ContractError).

Definition initialize (a : Address) : M unit :=
  o <- load admin ;;
  reject_if (bool_decide (is_Some o)) AlreadyInitialized ;;;
  require_auth a ;;;
  save (put_admin a).

Definition require_admin (caller : Address) : M unit := require_admin_of admin NotInitialized NotAdmin caller.

Definition require_member (caller : Address) : M unit :=
  b <- load (is_active_member caller) ;;
  reject_if (negb b) NotCommitteeMember ;;;
  require_auth caller.

Definition is_chair (caller : Address) (st : Store) : bool :=
  is_active_member caller st && bool_decide (roles st !! caller = Some Chair).

Definition require_chair (caller : Address) : M unit :=
  b <- load (is_chair caller) ;;
  reject_if (negb b) NotChair ;;;
  require_auth caller.

Definition require_chair_or_admin (caller : Address) : M unit :=
  b <- load (is_chair caller) ;;
  if b : bool then require_auth caller
  else
    o <- load admin ;;
    a <- ok_or o NotInitialized ;;
    if bool_decide (caller = a) then require_auth caller else fail NotAuthorized.

Definition add_member (caller a : Address) (r : CommitteeRole) : M unit :=
  require_admin caller ;;;
  l <- load members ;;
  (if list_contains l a then ret tt
   else
     reject_if (MAX_MEMBERS <=? Z.of_nat (length l)) CommitteeFull ;;;
     save (put_member_list (l ++ [a]))) ;;;
  save (put_member a true) ;;;
  save (put_role a r) ;;;
  publish (CMEMBR a).

Definition remove_member (caller a : Address) : M unit :=
  require_admin caller ;;;
  save (put_member a false) ;;;
  publish (CMEMBR a).

Definition set_quorum (caller : Address) (n : Z) : M unit :=
  require_admin caller ;;;
  reject_if ((n =? 0) || (MAX_MEMBERS <? n)) InvalidQuorum ;;;
  save (put_quorum n) ;;;
  publish (CQUORUM n).

Definition is_member (a : Address) : M bool := load (is_active_member a).
Definition get_member_role (a : Address) : M CommitteeRole :=
  o <- load (λ st, roles st !! a) ;; ok_or o NotCommitteeMember.

(** The counter is a [u32] as well. *)
Definition get_active_member_count : M Z :=
  st <- load id ;;
  or_trap (fold_opt (λ n a, if is_active_member a st then checked_add_u32 n 1 else Some n) (members st) 0).

Definition register_program (caller : Address) (p : BytesN32) (total per_award ttl window : Z) : M unit :=
  require_admin caller ;;;
  reject_if ((total <=? 0) || (per_award <=? 0) || (total <? per_award) || (ttl =? 0) || (window =? 0))
    InvalidProgramConfig ;;;
  o <- load (λ st, programs st !! p) ;;
  reject_if (bool_decide (is_Some o)) ProgramAlreadyExists ;;;
  save (put_program p (mkConfig true total per_award 0 0 ttl window)) ;;;
  publish (PROGREG p).

Definition load_program (p : BytesN32) : M DecisionProgramConfig :=
  o <- load (λ st, programs st !! p) ;; ok_or o ProgramNotFound.
Definition load_decision (k : Application) : M Decision :=
  o <- load (λ st, decisions st !! k) ;; ok_or o DecisionNotFound.
Definition load_reservation (k : Application) : M Reservation :=
  o <- load (λ st, reservations st !! k) ;; ok_or o ReservationNotFound.
Definition load_appeal (k : Application) : M Appeal :=
  o <- load (λ st, appeals st !! k) ;; ok_or o AppealNotFound.

Definition switched (b : bool) (c : DecisionProgramConfig) : DecisionProgramConfig :=
  mkConfig b (total_budget c) (per_award_amount c) (reserved_amount c) (awarded_amount c) (reservation_ttl c)
    (appeal_window c).
(** The counters of a program. *)
Definition with_amounts (reserved awarded : Z) (c : DecisionProgramConfig) : DecisionProgramConfig :=
  mkConfig (active c) (total_budget c) (per_award_amount c) reserved awarded (reservation_ttl c)
    (appeal_window c).

Definition set_program_active (caller : Address) (p : BytesN32) (b : bool) : M unit :=
  require_admin caller ;;;
  c <- load_program p ;;
  save (put_program p (switched b c)).

Definition open_decision (chair : Address) (p : BytesN32) (a : Address) (version : Z) (h : BytesN32) : M unit :=
  require_chair chair ;;;
  c <- load_program p ;;
  reject_if (negb (active c)) ProgramInactive ;;;
  reject_if (version =? 0) InvalidEvidence ;;;
  o <- load (λ st, decisions st !! (p, a)) ;;
  reject_if (bool_decide (is_Some o)) DecisionAlreadyExists ;;;
  t <- now ;;
  save (put_decision (p, a) (mkDecision p a Open Pending 0 version h t 0 [])) ;;;
  publish (DECOPEN p a).

Definition voted (v : Vote) (d : Decision) : Decision :=
  mkDecision (program_id d) (applicant d) (status d) (outcome d) (outcome_version d) (evidence_version d)
    (evidence_hash d) (opened_at d) (finalized_at d) (votes d ++ [v]).
Definition closed (o : DecisionOutcome) (t : Z) (d : Decision) : Decision :=
  mkDecision (program_id d) (applicant d) Finalized o 1 (evidence_version d) (evidence_hash d) (opened_at d) t
    (votes d).
Definition superseded (o : DecisionOutcome) (version : Z) (d : Decision) : Decision :=
  mkDecision (program_id d) (applicant d) (status d) o version (evidence_version d) (evidence_hash d)
    (opened_at d) (finalized_at d) (votes d).

Definition vote (m : Address) (p : BytesN32) (a : Address) (c : VoteChoice) : M unit :=
  require_member m ;;;
  d <- load_decision (p, a) ;;
  reject_if (negb (bool_decide (status d = Open))) DecisionAlreadyFinalized ;;;
  reject_if (has_voted (votes d) m) AlreadyVoted ;;;
  t <- now ;;
  save (put_decision (p, a) (voted (mkVote m c t) d)) ;;;
  publish (DECVOTE p a m c).

Definition recuse (m : Address) (p : BytesN32) (a : Address) : M unit := vote m p a Recuse.

Definition reserve_budget (p : BytesN32) (a : Address) (n : Z) : M unit :=
  c <- load_program p ;;
  committed <- ok_or (checked_add_i128 (reserved_amount c) (awarded_amount c)) ArithmeticOverflow ;;
  after <- ok_or (checked_add_i128 committed n) ArithmeticOverflow ;;
  reject_if (total_budget c <? after) BudgetExceeded ;;;
  reserved <- ok_or (checked_add_i128 (reserved_amount c) n) ArithmeticOverflow ;;
  t <- now ;;
  expires <- ok_or (checked_add_u64 t (reservation_ttl c)) ArithmeticOverflow ;;
  save (put_program p (with_amounts reserved (awarded_amount c) c)) ;;;
  save (put_reservation (p, a) (mkReservation p a n t expires Reserved)) ;;;
  publish (DECRSV p a n).

(** The count of votes a decision or an appeal is finalized on. *)
Definition count_votes (vs : list Vote) : M DecisionOutcome :=
  q <- load get_quorum ;;
  r <- or_trap (tally vs) ;;
  let '(award, waitlist, reject) := r in
  cast <- ok_or (checked_add_u32 award waitlist ≫= λ v, checked_add_u32 v reject) ArithmeticOverflow ;;
  reject_if ((q =? 0) || (cast <? q)) QuorumNotMet ;;;
  ret (decide_outcome award waitlist reject).

Definition finalize_decision (caller : Address) (p : BytesN32) (a : Address) : M unit :=
  require_chair_or_admin caller ;;;
  d <- load_decision (p, a) ;;
  reject_if (negb (bool_decide (status d = Open))) DecisionAlreadyFinalized ;;;
  o <- count_votes (votes d) ;;
  (if bool_decide (o = Awarded) then
     c <- load_program p ;;
     reserve_budget p a (per_award_amount c)
   else ret tt) ;;;
  t <- now ;;
  save (put_decision (p, a) (closed o t d)) ;;;
  publish (DECFIN p a o).

Definition release_capacity (p : BytesN32) (n : Z) : M unit :=
  c <- load_program p ;;
  reserved <- ok_or (checked_sub_i128 (reserved_amount c) n) ArithmeticOverflow ;;
  save (put_program p (with_amounts reserved (awarded_amount c) c)).

Definition ended (s : ReservationStatus) (r : Reservation) : Reservation :=
  mkReservation (rs_program_id r) (rs_applicant r) (amount r) (created_at r) (expires_at r) s.

Definition accept_award (a : Address) (p : BytesN32) : M unit :=
  require_auth a ;;;
  r <- load_reservation (p, a) ;;
  reject_if (negb (bool_decide (rs_status r = Reserved))) ReservationNotActive ;;;
  t <- now ;;
  reject_if (expires_at r <? t) ReservationExpired ;;;
  c <- load_program p ;;
  reserved <- ok_or (checked_sub_i128 (reserved_amount c) (amount r)) ArithmeticOverflow ;;
  awarded <- ok_or (checked_add_i128 (awarded_amount c) (amount r)) ArithmeticOverflow ;;
  save (put_program p (with_amounts reserved awarded c)) ;;;
  save (put_reservation (p, a) (ended Claimed r)) ;;;
  publish (AWACC p a (amount r)).

Definition release_reservation (caller : Address) (p : BytesN32) (a : Address) : M unit :=
  require_chair_or_admin caller ;;;
  r <- load_reservation (p, a) ;;
  reject_if (negb (bool_decide (rs_status r = Reserved))) ReservationNotActive ;;;
  release_capacity p (amount r) ;;;
  save (put_reservation (p, a) (ended Released r)) ;;;
  publish (RSVREL p a).

Definition expire_reservation (caller : Address) (p : BytesN32) (a : Address) : M unit :=
  require_auth caller ;;;
  r <- load_reservation (p, a) ;;
  reject_if (negb (bool_decide (rs_status r = Reserved))) ReservationNotActive ;;;
  t <- now ;;
  reject_if (t <=? expires_at r) ReservationNotExpired ;;;
  release_capacity p (amount r) ;;;
  save (put_reservation (p, a) (ended Expired r)) ;;;
  publish (RSVEXP p a).

Definition file_appeal (a : Address) (p : BytesN32) (grounds evidence : BytesN32) : M unit :=
  require_auth a ;;;
  c <- load_program p ;;
  reject_if (negb (active c)) ProgramInactive ;;;
  d <- load_decision (p, a) ;;
  reject_if (negb (bool_decide (status d = Finalized))) DecisionNotFinalized ;;;
  reject_if (negb (bool_decide (outcome d = Rejected)) && negb (bool_decide (outcome d = Waitlisted)))
    DecisionNotAppealable ;;;
  o <- load (λ st, appeals st !! (p, a)) ;;
  reject_if (bool_decide (is_Some o)) AppealAlreadyExists ;;;
  deadline <- ok_or (checked_add_u64 (finalized_at d) (appeal_window c)) ArithmeticOverflow ;;
  t <- now ;;
  reject_if (deadline <? t) AppealWindowClosed ;;;
  save (put_appeal (p, a) (mkAppeal p a (outcome d) AppealOpen Pending grounds evidence t 0 [])) ;;;
  publish (APPEAL p a).

Definition ap_voted (v : Vote) (x : Appeal) : Appeal :=
  mkAppeal (ap_program_id x) (ap_applicant x) (original_outcome x) (ap_status x) (ap_outcome x)
    (grounds_hash x) (ap_evidence_hash x) (filed_at x) (resolved_at x) (ap_votes x ++ [v]).
Definition ap_resolved (o : DecisionOutcome) (t : Z) (x : Appeal) : Appeal :=
  mkAppeal (ap_program_id x) (ap_applicant x) (original_outcome x) Resolved o (grounds_hash x)
    (ap_evidence_hash x) (filed_at x) t (ap_votes x).

Definition vote_appeal (m : Address) (p : BytesN32) (a : Address) (c : VoteChoice) : M unit :=
  require_member m ;;;
  x <- load_appeal (p, a) ;;
  reject_if (negb (bool_decide (ap_status x = AppealOpen))) AppealNotOpen ;;;
  d <- load_decision (p, a) ;;
  reject_if (has_voted (votes d) m) AppealReviewerIneligible ;;;
  reject_if (has_voted (ap_votes x) m) AlreadyVoted ;;;
  t <- now ;;
  save (put_appeal (p, a) (ap_voted (mkVote m c t) x)) ;;;
  publish (APVOTE p a m c).

Definition finalize_appeal (caller : Address) (p : BytesN32) (a : Address) : M unit :=
  require_chair_or_admin caller ;;;
  x <- load_appeal (p, a) ;;
  reject_if (negb (bool_decide (ap_status x = AppealOpen))) AppealNotOpen ;;;
  o <- count_votes (ap_votes x) ;;
  (if bool_decide (o = Awarded) then
     held <- load (λ st, reservations st !! (p, a)) ;;
     if bool_decide (is_Some held) then ret tt
     else
       c <- load_program p ;;
       reserve_budget p a (per_award_amount c)
   else ret tt) ;;;
  d <- load_decision (p, a) ;;
  version <- ok_or (checked_add_u32 (outcome_version d) 1) ArithmeticOverflow ;;
  save (put_decision (p, a) (superseded o version d)) ;;;
  t <- now ;;
  save (put_appeal (p, a) (ap_resolved o t x)) ;;;
  publish (APFIN p a o).

Definition get_program_config (p : BytesN32) : M DecisionProgramConfig := load_program p.
Definition get_decision (p : BytesN32) (a : Address) : M Decision := load_decision (p, a).
Definition get_reservation (p : BytesN32) (a : Address) : M Reservation := load_reservation (p, a).
Definition get_appeal (p : BytesN32) (a : Address) : M Appeal := load_appeal (p, a).

(** ** Calls *)

Inductive Call :=
| CInitialize (a : Address)
| CAddMember (caller a : Address) (r : CommitteeRole)
| CRemoveMember (caller a : Address)
| CSetQuorum (caller : Address) (n : Z)
| CRegister (caller : Address) (p : BytesN32) (total per_award ttl window : Z)
| CSwitch (caller : Address) (p : BytesN32) (b : bool)
| COpen (chair : Address) (p : BytesN32) (a : Address) (version : Z) (h : BytesN32)
| CVote (m : Address) (p : BytesN32) (a : Address) (c : VoteChoice)
| CRecuse (m : Address) (p : BytesN32) (a : Address)
| CFinalize (caller : Address) (p : BytesN32) (a : Address)
| CAccept (a : Address) (p : BytesN32)
| CRelease (caller : Address) (p : BytesN32) (a : Address)
| CExpire (caller : Address) (p : BytesN32) (a : Address)
| CFileAppeal (a : Address) (p : BytesN32) (grounds evidence : BytesN32)
| CVoteAppeal (m : Address) (p : BytesN32) (a : Address) (c : VoteChoice)
| CFinalizeAppeal (caller : Address) (p : BytesN32) (a : Address).

Definition exec (c : Call) : M unit :=
  match c with
  | CInitialize a => initialize a
  | CAddMember c a r => add_member c a r
  | CRemoveMember c a => remove_member c a
  | CSetQuorum c n => set_quorum c n
  | CRegister c p t n l v => register_program c p t n l v
  | CSwitch c p b => set_program_active c p b
  | COpen c p a n h => open_decision c p a n h
  | CVote m p a c => vote m p a c
  | CRecuse m p a => recuse m p a
  | CFinalize c p a => finalize_decision c p a
  | CAccept a p => accept_award a p
  | CRelease c p a => release_reservation c p a
  | CExpire c p a => expire_reservation c p a
  | CFileAppeal a p g h => file_appeal a p g h
  | CVoteAppeal m p a c => vote_appeal m p a c
  | CFinalizeAppeal c p a => finalize_appeal c p a
  end.
End Contract.

(** The declared widths of the arguments. *)
Definition valid (e : Env) (c : Call) : Prop :=
  0 ≤ timestamp e ≤ u64_max ∧
  match c with
  | CSetQuorum _ n => 0 ≤ n ≤ u32_max
  | CRegister _ _ t n l v =>
      i128_min ≤ t ≤ i128_max ∧ i128_min ≤ n ≤ i128_max ∧ 0 ≤ l ≤ u64_max ∧ 0 ≤ v ≤ u64_max
  | COpen _ _ _ n _ => 0 ≤ n ≤ u32_max
  | _ => True
  end.
