(* ===== verification/DecisionsProps.v ===== *)
(** * Award decisions: effects and invariant

    The counting of votes against its reference ([count_of], [plurality]), and one relation for
    the calls that return: what they have checked and the store they leave.

    The committee, the votes cast, the budget of the programs and the records of each
    application fit together; every call that returns keeps it so. *)
From S2P Require Import Prelude Machine Host Loops Decisions.

(** ** Votes *)

Definition voters (vs : list Vote) : list Address := member <$> vs.

Definition is_choice (c : VoteChoice) (v : Vote) : Z := if bool_decide (choice v = c) then 1 else 0.
Definition count_of (c : VoteChoice) (vs : list Vote) : Z := list_sum (is_choice c) vs.
(** The votes that count toward the quorum. *)
Definition cast (vs : list Vote) : Z := count_of Award vs + count_of Waitlist vs + count_of Reject vs.
Definition plurality (vs : list Vote) : DecisionOutcome :=
  decide_outcome (count_of Award vs) (count_of Waitlist vs) (count_of Reject vs).

Lemma list_contains_iff l a : list_contains l a = true ↔ a ∈ l.
Proof.
  unfold list_contains. rewrite existsb_exists. setoid_rewrite bool_decide_eq_true.
  setoid_rewrite <-list_elem_of_In. naive_solver.
Qed.

Lemma has_voted_iff vs a : has_voted vs a = true ↔ a ∈ voters vs.
Proof.
  unfold has_voted, voters. rewrite existsb_exists, list_elem_of_fmap. setoid_rewrite bool_decide_eq_true.
  setoid_rewrite <-list_elem_of_In. naive_solver.
Qed.

Lemma has_voted_false vs a : has_voted vs a = false ↔ a ∉ voters vs.
Proof. by rewrite <-has_voted_iff, not_true_iff_false. Qed.

Lemma count_of_bounds c vs : 0 ≤ count_of c vs.
Proof. apply list_sum_nonneg, Forall_forall. intros v _. unfold is_choice. by destruct (bool_decide _). Qed.

Lemma count_of_cons c v vs : count_of c (v :: vs) = is_choice c v + count_of c vs.
Proof. done. Qed.

Lemma cast_length vs : cast vs ≤ Z.of_nat (length vs).
Proof.
  unfold cast, count_of. induction vs as [|v vs IH]; simpl; [lia|].
  enough (is_choice Award v + is_choice Waitlist v + is_choice Reject v ≤ 1) by lia.
  unfold is_choice. by destruct (choice v).
Qed.

Lemma tally_run vs :
  Z.of_nat (length vs) ≤ u32_max →
  tally vs = Some (count_of Award vs, count_of Waitlist vs, count_of Reject vs).
Proof.
  intros Hl. unfold tally.
  enough (∀ vs a b c, 0 ≤ a → 0 ≤ b → 0 ≤ c → a + b + c + Z.of_nat (length vs) ≤ u32_max →
    fold_opt (λ '(award, waitlist, reject) v,
      match choice v with
      | Award => n ← checked_add_u32 award 1; Some (n, waitlist, reject)
      | Waitlist => n ← checked_add_u32 waitlist 1; Some (award, n, reject)
      | Reject => n ← checked_add_u32 reject 1; Some (award, waitlist, n)
      | Recuse => Some (award, waitlist, reject)
      end) vs (a, b, c) = Some (a + count_of Award vs, b + count_of Waitlist vs, c + count_of Reject vs)) as Hgen.
  { rewrite (Hgen vs 0 0 0) by lia. done. }
  clear. intros vs. induction vs as [|v vs IH]; intros a b c Ha Hb Hc Hl.
  { unfold count_of. simpl. by rewrite !Z.add_0_r. }
  cbn [length] in Hl. cbn [fold_opt].
  rewrite !count_of_cons. unfold checked_add_u32, is_choice.
  destruct (choice v); rewrite ?checked_in by lia; simpl; rewrite IH by lia;
    by rewrite ?Z.add_0_l, ?Z.add_assoc.
Qed.

(** The tie policy: the outcome has the most votes, and more than every more conservative one. *)
Lemma decide_outcome_spec a b c :
  match decide_outcome a b c with
  | Rejected => a ≤ c ∧ b ≤ c
  | Waitlisted => a ≤ b ∧ c < b
  | Awarded => b < a ∧ c < a
  | Pending => False
  end.
Proof.
  unfold decide_outcome. destruct (Z.leb_spec a b); [destruct (Z.leb_spec b c)|destruct (Z.leb_spec a c)]; lia.
Qed.

(** ** Effects *)

(** The vote a call casts on a decision. *)
Definition ballot (c : Call) : option (Address * (Z * Address) * VoteChoice) :=
  match c with
  | CVote m p a ch => Some (m, (p, a), ch)
  | CRecuse m p a => Some (m, (p, a), Recuse)
  | _ => None
  end.

(** Budget held for an application. *)
Inductive reserves (e : Env) (st : Store) (p : Z) (a : Address) : Store → Prop :=
| Reserves c :
    programs st !! p = Some c → 
    reserved_amount c + awarded_amount c + per_award_amount c ≤ total_budget c →
    reserves e st p a
      (put_reservation (p, a) (mkReservation p a (per_award_amount c) (timestamp e)
        (timestamp e + reservation_ttl c) Reserved)
        (put_program p (with_amounts (reserved_amount c + per_award_amount c) (awarded_amount c) c) st)).

Definition operates (caller : Address) (st : Store) : Prop :=
  is_chair caller st = true ∨ admin st = Some caller.

Inductive effect (e : Env) (st : Store) : Call → Store → Prop :=
| E_initialize a : effect e st (CInitialize a) (put_admin a st)
| E_add c a r st1 :
    st1 = st ∧ a ∈ members st ∨
    st1 = put_member_list (members st ++ [a]) st ∧ a ∉ members st ∧ Z.of_nat (length (members st)) < MAX_MEMBERS →
    effect e st (CAddMember c a r) (put_role a r (put_member a true st1))
| E_remove c a : effect e st (CRemoveMember c a) (put_member a false st)
| E_quorum c n : 1 ≤ n ≤ MAX_MEMBERS → effect e st (CSetQuorum c n) (put_quorum n st)
| E_register c p total n ttl window :
    programs st !! p = None → 0 < n ≤ total → total ≤ i128_max → 0 < ttl → window ≠ 0 →
    effect e st (CRegister c p total n ttl window) (put_program p (mkConfig true total n 0 0 ttl window) st)
| E_switch c p b x :
    programs st !! p = Some x → effect e st (CSwitch c p b) (put_program p (switched b x) st)
| E_open c p a n h x :
    programs st !! p = Some x → active x = true → n ≠ 0 → is_chair c st = true → authorized e c = true →
    decisions st !! (p, a) = None →
    effect e st (COpen c p a n h) (put_decision (p, a) (mkDecision p a Open Pending 0 n h (timestamp e) 0 []) st)
| E_vote c m k ch d :
    ballot c = Some (m, k, ch) → decisions st !! k = Some d → status d = Open → m ∉ voters (votes d) →
    is_active_member m st = true → authorized e m = true →
    effect e st c (put_decision k (voted (mkVote m ch (timestamp e)) d) st)
| E_finalize c p a d st1 :
    decisions st !! (p, a) = Some d → status d = Open → operates c st → authorized e c = true →
    get_quorum st ≠ 0 → get_quorum st ≤ cast (votes d) →
    (if decide (plurality (votes d) = Awarded) then reserves e st p a st1 else st1 = st) →
    effect e st (CFinalize c p a) (put_decision (p, a) (closed (plurality (votes d)) (timestamp e) d) st1)
| E_accept p a r c :
    reservations st !! (p, a) = Some r → rs_status r = Reserved → timestamp e ≤ expires_at r →
    authorized e a = true → programs st !! p = Some c →
    effect e st (CAccept a p) (put_reservation (p, a) (ended Claimed r)
      (put_program p (with_amounts (reserved_amount c - amount r) (awarded_amount c + amount r) c) st))
| E_release b p a r c :
    reservations st !! (p, a) = Some r → rs_status r = Reserved → operates b st → authorized e b = true →
    programs st !! p = Some c →
    effect e st (CRelease b p a) (put_reservation (p, a) (ended Released r)
      (put_program p (with_amounts (reserved_amount c - amount r) (awarded_amount c) c) st))
| E_expire b p a r c :
    reservations st !! (p, a) = Some r → rs_status r = Reserved → expires_at r < timestamp e →
    programs st !! p = Some c →
    effect e st (CExpire b p a) (put_reservation (p, a) (ended Expired r)
      (put_program p (with_amounts (reserved_amount c - amount r) (awarded_amount c) c) st))
| E_file p a g h d c :
    programs st !! p = Some c → active c = true → decisions st !! (p, a) = Some d → status d = Finalized →
    outcome d = Rejected ∨ outcome d = Waitlisted → appeals st !! (p, a) = None → authorized e a = true →
    timestamp e ≤ finalized_at d + appeal_window c →
    effect e st (CFileAppeal a p g h)
      (put_appeal (p, a) (mkAppeal p a (outcome d) AppealOpen Pending g h (timestamp e) 0 []) st)
| E_vote_appeal m p a ch x d :
    appeals st !! (p, a) = Some x → ap_status x = AppealOpen → decisions st !! (p, a) = Some d →
    m ∉ voters (votes d) → m ∉ voters (ap_votes x) → is_active_member m st = true → authorized e m = true →
    effect e st (CVoteAppeal m p a ch) (put_appeal (p, a) (ap_voted (mkVote m ch (timestamp e)) x) st)
| E_finalize_appeal c p a x d st1 :
    appeals st !! (p, a) = Some x → ap_status x = AppealOpen → operates c st → authorized e c = true →
    get_quorum st ≠ 0 → get_quorum st ≤ cast (ap_votes x) → decisions st !! (p, a) = Some d →
    (if decide (plurality (ap_votes x) = Awarded ∧ reservations st !! (p, a) = None)
     then reserves e st p a st1 else st1 = st) →
    effect e st (CFinalizeAppeal c p a)
      (put_appeal (p, a) (ap_resolved (plurality (ap_votes x)) (timestamp e) x)
        (put_decision (p, a) (superseded (plurality (ap_votes x)) (outcome_version d + 1) d) st1)).

Lemma reserves_same e st p a st1 :
  reserves e st p a st1 →
  decisions st1 = decisions st ∧ appeals st1 = appeals st ∧ members st1 = members st ∧
  active_members st1 = active_members st ∧ quorum st1 = quorum st.
Proof. by destruct 1. Qed.

(** ** The calls *)
Section Effects.
Context {L : Type}.
Abbreviation W := (World L Store Event).
Abbreviation M := (Contract L Store Event ContractError).
Implicit Types (w : W).

Lemma require_chair_or_admin_done c e w w' u :
  (require_chair_or_admin c : M unit) e w = Done w' u →
  w' = w ∧ operates c (store w) ∧ authorized e c = true.
Proof.
  intros Hrun. unfold require_chair_or_admin in Hrun. run_inv. unfold operates.
  destruct (is_chair c (store w)) eqn:Hc; [run_inv; auto|]. run_inv.
  match goal with H : (if bool_decide (c = ?a) then _ else _) _ _ = _ |- _ =>
    destruct (decide (c = a)) as [<-|Hne];
    [rewrite bool_decide_eq_true_2 in H by done|rewrite bool_decide_eq_false_2 in H by done] end; run_inv; auto.
Qed.

Lemma require_member_done m e w w' u :
  (require_member m : M unit) e w = Done w' u →
  w' = w ∧ is_active_member m (store w) = true ∧ authorized e m = true.
Proof. intros Hrun. unfold require_member in Hrun. run_inv. bool_prop. done. Qed.

Lemma require_chair_done c e w w' u :
  (require_chair c : M unit) e w = Done w' u →
  w' = w ∧ is_chair c (store w) = true ∧ authorized e c = true.
Proof. intros Hrun. unfold require_chair in Hrun. run_inv. bool_prop. done. Qed.

Lemma reserve_budget_done p a n e w w' u c :
  programs (store w) !! p = Some c → n = per_award_amount c →
  (reserve_budget p a n : M unit) e w = Done w' u →
  ledger w' = ledger w ∧ reserves e (store w) p a (store w').
Proof.
  intros Hc -> Hrun. unfold reserve_budget, load_program in Hrun. run_inv. checked_prop. bool_prop.
  simplify_eq. split; [done|]. by apply (Reserves e (store w) p a).
Qed.

(** Counting returns the plurality of the votes, once the quorum is cast. *)
Lemma count_votes_done vs e w w' o :
  Z.of_nat (length vs) ≤ u32_max → (count_votes vs : M DecisionOutcome) e w = Done w' o →
  w' = w ∧ o = plurality vs ∧ get_quorum (store w) ≠ 0 ∧ get_quorum (store w) ≤ cast vs.
Proof.
  intros Hl Hrun. unfold count_votes in Hrun. rewrite tally_run in Hrun by done. run_inv.
  match goal with H : Some _ = Some ?r |- _ => injection H as <- end. run_inv. bool_prop.
  match goal with H : (_ ≫= _) = Some ?n |- _ => apply bind_Some in H as (k & Hk & Hn) end. checked_prop.
  unfold cast. split_and!; [done..|lia].
Qed.

Lemma release_capacity_done p n e w w' u :
  (release_capacity p n : M unit) e w = Done w' u →
  ∃ c, programs (store w) !! p = Some c ∧
    w' = mkWorld (ledger w) (put_program p (with_amounts (reserved_amount c - n) (awarded_amount c) c) (store w)) (log w).
Proof.
  intros Hrun. unfold release_capacity, load_program in Hrun. run_inv. checked_prop. by eexists.
Qed.

Ltac decisions_inv :=
  unfold load_program, load_decision, load_reservation, load_appeal, require_admin in *;
  repeat (run_inv;
    match goal with
    | H : require_chair_or_admin _ _ _ = Done _ _ |- _ =>
        let H1 := fresh "Hop" in let H2 := fresh "Hau" in
        apply require_chair_or_admin_done in H as (-> & H1 & H2)
    | H : require_member _ _ _ = Done _ _ |- _ =>
        let H1 := fresh "Hmem" in let H2 := fresh "Hau" in
        apply require_member_done in H as (-> & H1 & H2)
    | H : require_chair _ _ _ = Done _ _ |- _ =>
        let H1 := fresh "Hch" in let H2 := fresh "Hau" in
        apply require_chair_done in H as (-> & H1 & H2)
    end);
  run_inv; bool_prop; checked_prop.

Lemma add_member_done c a r e w w' u :
  (add_member c a r : M unit) e w = Done w' u →
  ledger w' = ledger w ∧ effect e (store w) (CAddMember c a r) (store w').
Proof.
  intros Hrun. unfold add_member in Hrun. decisions_inv.
  match goal with H : (if _ then _ else _) _ _ = _ |- _ => revert H end.
  destruct (list_contains (members (store w)) a) eqn:Hc; intros Hif; decisions_inv; (split; [done|]); simpl.
  - apply E_add. left. split; [done|]. by apply list_contains_iff.
  - apply E_add. right. split_and!; [done| |lia]. by rewrite <-list_contains_iff, not_true_iff_false.
Qed.

Lemma vote_done m p a ch e w w' u c :
  ballot c = Some (m, (p, a), ch) → (vote m p a ch : M unit) e w = Done w' u →
  ledger w' = ledger w ∧ effect e (store w) c (store w').
Proof.
  intros Hb Hrun. unfold vote in Hrun. decisions_inv. rewrite has_voted_false in *.
  split; [done|]. by eapply E_vote.
Qed.

Lemma finalize_decision_done c p a e w w' u :
  (∀ d, decisions (store w) !! (p, a) = Some d → Z.of_nat (length (votes d)) ≤ u32_max) →
  (finalize_decision c p a : M unit) e w = Done w' u →
  ledger w' = ledger w ∧ effect e (store w) (CFinalize c p a) (store w').
Proof.
  intros Hlen Hrun. unfold finalize_decision in Hrun. decisions_inv.
  match goal with H : count_votes _ _ _ = _ |- _ => apply count_votes_done in H as (-> & -> & Hq0 & Hq); [|by apply Hlen] end.
  match goal with H : (if _ then _ else _) _ _ = _ |- _ => rename H into Hif end.
  match goal with H : decisions (store w) !! _ = Some ?d |- _ => rename d into dec; rename H into Hd end.
  destruct (decide (plurality (votes dec) = Awarded)) as [Ho|Ho].
  - rewrite bool_decide_eq_true_2 in Hif by done. decisions_inv.
    match goal with H : reserve_budget _ _ _ _ _ = _ |- _ => eapply reserve_budget_done in H as [Hl Hres]; [|done..] end.
    simpl. split; [done|]. eapply E_finalize; try done. by rewrite decide_True.
  - rewrite bool_decide_eq_false_2 in Hif by done. decisions_inv. split; [done|].
    eapply E_finalize; try done. by rewrite decide_False.
Qed.

Lemma finalize_appeal_done c p a e w w' u :
  (∀ x, appeals (store w) !! (p, a) = Some x → Z.of_nat (length (ap_votes x)) ≤ u32_max) →
  (finalize_appeal c p a : M unit) e w = Done w' u →
  ledger w' = ledger w ∧ effect e (store w) (CFinalizeAppeal c p a) (store w').
Proof.
  intros Hlen Hrun. unfold finalize_appeal in Hrun. decisions_inv.
  match goal with H : count_votes _ _ _ = _ |- _ => apply count_votes_done in H as (-> & -> & Hq0 & Hq); [|by apply Hlen] end.
  match goal with H : (if _ then _ else _) _ _ = _ |- _ => rename H into Hif end.
  match goal with H : appeals (store w) !! _ = Some ?d |- _ => rename d into ap; rename H into Hx end.
  match type of Hif with _ = Done ?w1 _ =>
    assert (ledger w1 = ledger w ∧
      if decide (plurality (ap_votes ap) = Awarded ∧ reservations (store w) !! (p, a) = None)
      then reserves e (store w) p a (store w1) else store w1 = store w) as [Hl Hst] end.
  { destruct (decide (plurality (ap_votes ap) = Awarded)) as [Ho|Ho].
    - rewrite bool_decide_eq_true_2 in Hif by done. run_inv.
      destruct (reservations (store w) !! (p, a)) as [r|] eqn:Hr; simpl in Hif; decisions_inv.
      + rewrite decide_False by naive_solver. done.
      + rewrite decide_True by done. by eapply reserve_budget_done.
    - rewrite bool_decide_eq_false_2 in Hif by done. decisions_inv. rewrite decide_False by naive_solver. done. }
  simpl. split; [done|]. eapply E_finalize_appeal; try done.
  match goal with H : decisions (store ?w1) !! _ = Some _ |- _ => rename H into Hd end.
  assert (∀ st1, (if decide (plurality (ap_votes ap) = Awarded ∧ reservations (store w) !! (p, a) = None)
    then reserves e (store w) p a st1 else st1 = store w) → decisions st1 = decisions (store w)) as Hsame.
  { intros st1. case_decide; [by intros (? & _)%reserves_same|by intros ->]. }
  by rewrite <-(Hsame _ Hst).
Qed.

Lemma decisions_effect c e w w' u :
  (∀ k d, decisions (store w) !! k = Some d → Z.of_nat (length (votes d)) ≤ u32_max) →
  (∀ k x, appeals (store w) !! k = Some x → Z.of_nat (length (ap_votes x)) ≤ u32_max) →
  valid e c → (exec c : M unit) e w = Done w' u →
  ledger w' = ledger w ∧ effect e (store w) c (store w').
Proof.
  intros Hdl Hal [Ht Hv] Hrun.
  destruct c as [a|c a r|c a|c n|c p t n l v|c p b|c p a n h|m p a ch|m p a|c p a|a p|c p a|c p a|a p g h|m p a ch|c p a];
    simpl in Hrun.
  - unfold initialize in Hrun. decisions_inv. split; [done|]. apply E_initialize.
  - by eapply add_member_done.
  - unfold remove_member in Hrun. decisions_inv. split; [done|]. apply E_remove.
  - unfold set_quorum in Hrun. decisions_inv. split; [done|]. apply E_quorum. lia.
  - unfold register_program in Hrun. decisions_inv. split; [done|].
    apply E_register; try lia. by apply eq_None_not_Some.
  - unfold set_program_active in Hrun. decisions_inv. split; [done|]. by apply E_switch.
  - unfold open_decision in Hrun. decisions_inv. split; [done|].
    eapply E_open; try done. by apply eq_None_not_Some.
  - by eapply vote_done.
  - by eapply vote_done.
  - eapply finalize_decision_done, Hrun. intros d. apply Hdl.
  - unfold accept_award in Hrun. decisions_inv. split; [done|]. by eapply E_accept.
  - unfold release_reservation in Hrun. decisions_inv.
    match goal with H : release_capacity _ _ _ _ = _ |- _ => apply release_capacity_done in H as (x & Hx & ->) end.
    split; [done|]. by eapply E_release.
  - unfold expire_reservation in Hrun. decisions_inv.
    match goal with H : release_capacity _ _ _ _ = _ |- _ => apply release_capacity_done in H as (x & Hx & ->) end.
    split; [done|]. by eapply E_expire.
  - unfold file_appeal in Hrun. decisions_inv. split; [done|]. eapply E_file; try done.
    + match goal with H : _ ∨ _ |- _ => destruct H; bool_prop; [by left|by right] end.
    + by apply eq_None_not_Some.
  - unfold vote_appeal in Hrun. decisions_inv. rewrite has_voted_false in *. split; [done|]. by eapply E_vote_appeal.
  - eapply finalize_appeal_done, Hrun. intros x. apply Hal.
Qed.
End Effects.

(** The reservations of a program in one state. *)
Definition held (s : ReservationStatus) (p : Z) (k : Z * Address) (r : Reservation) : Z :=
  if decide (k.1 = p ∧ rs_status r = s) then amount r else 0.

Definition config_ok (st : Store) (p : Z) (c : DecisionProgramConfig) : Prop :=
  0 < per_award_amount c ≤ total_budget c ∧ total_budget c ≤ i128_max ∧ 0 ≤ reservation_ttl c ∧
  reserved_amount c = map_sum (held Reserved p) (reservations st) ∧
  awarded_amount c = map_sum (held Claimed p) (reservations st) ∧
  reserved_amount c + awarded_amount c ≤ total_budget c.

Definition reservation_ok (st : Store) (k : Z * Address) (r : Reservation) : Prop :=
  (rs_program_id r, rs_applicant r) = k ∧
  ∃ c, programs st !! k.1 = Some c ∧ amount r = per_award_amount c.

(** Votes of distinct members of the committee. *)
Definition votes_ok (st : Store) (vs : list Vote) : Prop := NoDup (voters vs) ∧ voters vs ⊆ members st.

Definition decision_ok (st : Store) (k : Z * Address) (d : Decision) : Prop :=
  (program_id d, applicant d) = k ∧ is_Some (programs st !! k.1) ∧ votes_ok st (votes d) ∧
  (outcome d = Awarded ↔ is_Some (reservations st !! k)) ∧
  match status d with
  | Open => outcome d = Pending ∧ outcome_version d = 0 ∧ appeals st !! k = None
  | Finalized =>
      1 ≤ cast (votes d) ∧
      match appeals st !! k with
      | None => outcome_version d = 1 ∧ outcome d = plurality (votes d)
      | Some x =>
          original_outcome x = plurality (votes d) ∧ original_outcome x ≠ Awarded ∧
          votes_ok st (ap_votes x) ∧ voters (votes d) ## voters (ap_votes x) ∧
          match ap_status x with
          | AppealOpen => outcome_version d = 1 ∧ outcome d = original_outcome x ∧ ap_outcome x = Pending
          | Resolved => outcome_version d = 2 ∧ outcome d = plurality (ap_votes x) ∧
              ap_outcome x = outcome d ∧ 1 ≤ cast (ap_votes x)
          end
      end
  end.

Record inv (st : Store) : Prop := {
  inv_members : NoDup (members st) ∧ Z.of_nat (length (members st)) ≤ MAX_MEMBERS;
  inv_quorum : 0 ≤ get_quorum st ≤ MAX_MEMBERS;
  inv_active a : is_active_member a st = true → a ∈ members st;
  inv_programs : map_Forall (config_ok st) (programs st);
  inv_reservations : map_Forall (reservation_ok st) (reservations st);
  inv_decisions : map_Forall (decision_ok st) (decisions st);
  inv_decided k : is_Some (reservations st !! k) ∨ is_Some (appeals st !! k) → is_Some (decisions st !! k)
}.

(** ** Sums over the reservations *)

Lemma held_bounds s p st :
  inv st → 0 ≤ map_sum (held s p) (reservations st).
Proof.
  intros Hi. apply map_sum_nonneg. intros k r Hr. unfold held. case_decide; [|done].
  destruct (inv_reservations _ Hi _ _ Hr) as (_ & c & Hc & ->).
  destruct (inv_programs _ Hi _ _ Hc) as ([? _] & _). lia.
Qed.

(** What replacing the record of an application does to the sums of a program. *)
Lemma held_insert s p k r m :
  map_sum (held s p) (<[k := r]> m) = map_sum (held s p) m - at_key (held s p) m k + held s p k r.
Proof. apply map_sum_insert. Qed.

Lemma held_other s p k r : k.1 ≠ p → held s p k r = 0.
Proof. intros Hk. unfold held. by rewrite decide_False by naive_solver. Qed.

Lemma at_other s p k m : k.1 ≠ p → at_key (held s p) m k = 0.
Proof. intros Hk. unfold at_key. destruct (m !! k); [by apply held_other|done]. Qed.

Lemma held_same s p k r : k.1 = p → rs_status r = s → held s p k r = amount r.
Proof. intros. unfold held. by rewrite decide_True. Qed.

Lemma held_not s p k r : rs_status r ≠ s → held s p k r = 0.
Proof. intros. unfold held. by rewrite decide_False by naive_solver. Qed.

(** ** The committee *)

Lemma votes_length st vs : inv st → votes_ok st vs → Z.of_nat (length vs) ≤ MAX_MEMBERS.
Proof.
  intros Hi [Hnd Hsub]. destruct (inv_members _ Hi) as [_ Hm].
  assert (length (voters vs) ≤ length (members st))%nat by (by apply NoDup_incl_length; [apply NoDup_ListNoDup|intros x Hx; apply list_elem_of_In, Hsub, list_elem_of_In]).
  unfold voters in *. rewrite length_fmap in *. lia.
Qed.

Lemma votes_ok_mono st st' vs : members st ⊆ members st' → votes_ok st vs → votes_ok st' vs.
Proof. intros Hm [Hnd Hsub]. split; [done|set_solver]. Qed.

Lemma votes_ok_cast st vs m ch t :
  inv st → votes_ok st vs → m ∉ voters vs → is_active_member m st = true →
  votes_ok st (vs ++ [mkVote m ch t]).
Proof.
  intros Hi [Hnd Hsub] Hm Ha. unfold votes_ok, voters in *. rewrite fmap_app. simpl. split.
  - apply NoDup_app. split_and!; [done| |apply NoDup_singleton]. set_solver.
  - apply (inv_active _ Hi) in Ha. set_solver.
Qed.

(** The lengths the counters of [tally] need. *)
Lemma votes_bounded st :
  inv st →
  (∀ k d, decisions st !! k = Some d → Z.of_nat (length (votes d)) ≤ u32_max) ∧
  (∀ k x, appeals st !! k = Some x → Z.of_nat (length (ap_votes x)) ≤ u32_max).
Proof.
  intros Hi. split.
  - intros k d Hd. destruct (inv_decisions _ Hi _ _ Hd) as (_ & _ & Hv & _).
    apply votes_length in Hv; [|done]. unfold MAX_MEMBERS in Hv. range_lia.
  - intros k x Hx. destruct (inv_decided _ Hi k) as [d Hd]; [right; by eexists|].
    destruct (inv_decisions _ Hi _ _ Hd) as (_ & _ & _ & _ & Hst). rewrite Hx in Hst.
    destruct (status d); [by destruct Hst as (_ & _ & ?)|]. destruct Hst as (_ & _ & _ & Hv & _).
    apply votes_length in Hv; [|done]. unfold MAX_MEMBERS in Hv. range_lia.
Qed.

(** ** The budget *)

Definition budget_ok (st : Store) : Prop :=
  map_Forall (config_ok st) (programs st) ∧ map_Forall (reservation_ok st) (reservations st).

Lemma inv_budget st : inv st → budget_ok st.
Proof. intros Hi. split; apply Hi. Qed.

Lemma budget_same st st' :
  programs st' = programs st → reservations st' = reservations st → budget_ok st → budget_ok st'.
Proof.
  intros Hp Hr [Hc Hs]. split; rewrite ?Hp, ?Hr.
  - intros p c Hpc. specialize (Hc p c Hpc). unfold config_ok. by rewrite Hr.
  - intros k r Hk. specialize (Hs k r Hk). unfold reservation_ok. by rewrite Hp.
Qed.

(** Replacing the record of an application of [p] and the counters of [p] alike. *)
Lemma budget_update st p a c r reserved awarded :
  budget_ok st → programs st !! p = Some c →
  (rs_program_id r, rs_applicant r) = (p, a) → amount r = per_award_amount c →
  reserved = reserved_amount c - at_key (held Reserved p) (reservations st) (p, a) + held Reserved p (p, a) r →
  awarded = awarded_amount c - at_key (held Claimed p) (reservations st) (p, a) + held Claimed p (p, a) r →
  reserved + awarded ≤ total_budget c →
  budget_ok (put_reservation (p, a) r (put_program p (with_amounts reserved awarded c) st)).
Proof.
  intros [Hc Hs] Hpc Hid Ham Hre Haw Hle. pose proof (Hc p c Hpc) as (Hb & Hmax & Httl & Hr & Hw & _). split; simpl.
  - intros q x Hq. rewrite lookup_insert in Hq. unfold config_ok. simpl. rewrite !held_insert.
    case_decide as Hpq.
    + subst q. injection Hq as <-. simpl. split_and!; lia.
    + rewrite !at_other, !held_other by done. pose proof (Hc q x Hq) as (? & ? & ? & ? & ? & ?). split_and!; lia.
  - intros k s Hk. rewrite lookup_insert in Hk. unfold reservation_ok. simpl.
    case_decide as Hkk; simplify_eq; simpl.
    + split; [done|]. rewrite lookup_insert_eq. by eexists.
    + destruct (Hs k s Hk) as (Hkid & x & Hx & Hax). split; [done|]. simpl in Hx. rewrite lookup_insert.
      case_decide as Hpk; [|by eexists]. eexists. split; [done|]. rewrite <-Hpk in Hx. simpl. congruence.
Qed.

Lemma budget_reserved e st p a st1 :
  inv st → reserves e st p a st1 → reservations st !! (p, a) = None →
  budget_ok st1 ∧ (∀ q, is_Some (programs st !! q) → is_Some (programs st1 !! q)) ∧
  ∀ k, is_Some (reservations st1 !! k) ↔ k = (p, a) ∨ is_Some (reservations st !! k).
Proof.
  intros Hi [c Hc Hle] Hnew. split_and!.
  - apply budget_update; simpl; try done; [by apply inv_budget| | |lia]; unfold at_key; rewrite Hnew.
    + rewrite held_same by done. simpl. lia.
    + rewrite held_not by done. lia.
  - intros q Hq. simpl. rewrite lookup_insert. by case_decide.
  - intros k. simpl. rewrite lookup_insert. case_decide; subst; naive_solver.
Qed.

Lemma budget_ended st p a r c s :
  inv st → reservations st !! (p, a) = Some r → rs_status r = Reserved → programs st !! p = Some c →
  s = Claimed ∨ s = Released ∨ s = Expired →
  budget_ok (put_reservation (p, a) (ended s r)
    (put_program p (with_amounts (reserved_amount c - amount r)
      (awarded_amount c + if decide (s = Claimed) then amount r else 0) c) st)).
Proof.
  intros Hi Hr Hst Hc Hs. destruct (inv_reservations _ Hi _ _ Hr) as (Hid & x & Hx & Ham). simpl in Hx. rewrite Hc in Hx. injection Hx as <-.
  destruct (inv_programs _ Hi _ _ Hc) as (Hb & _ & _ & Hre & Haw & Hle).
  apply budget_update; simpl; try done; [by apply inv_budget| | |].
  - unfold at_key. rewrite Hr, (held_same Reserved p (p, a) r), held_not by (simpl; destruct Hs as [->|[->| ->]]; done). lia.
  - unfold at_key. rewrite Hr, (held_not Claimed p (p, a) r) by congruence. case_decide.
    + rewrite held_same by done. simpl. lia.
    + rewrite held_not by done. lia.
  - case_decide; lia.
Qed.

(** ** Every call keeps the invariant *)

Lemma decision_ok_frame st st' k d :
  (∀ p, is_Some (programs st !! p) → is_Some (programs st' !! p)) → members st ⊆ members st' →
  (is_Some (reservations st' !! k) ↔ is_Some (reservations st !! k)) → appeals st' !! k = appeals st !! k →
  decision_ok st k d → decision_ok st' k d.
Proof.
  intros Hp Hm Hr Ha (Hid & Hpr & Hv & Ho & Hst). unfold decision_ok. rewrite Hr, Ha.
  split_and!; [done|by apply Hp|by eapply votes_ok_mono|apply Ho..|].
  destruct (status d); [done|]. destruct (appeals st !! k); [|done].
  destruct Hst as (? & ? & ? & ? & ? & ?). split_and!; try done. by eapply votes_ok_mono.
Qed.

(** A change of one application [k]: its decision is [d] now, its other records fit it. *)
Lemma updated_inv st st' k d :
  inv st → decisions st' = <[k := d]> (decisions st) → (∀ j, j ≠ k → appeals st' !! j = appeals st !! j) →
  members st' = members st → active_members st' = active_members st → quorum st' = quorum st → budget_ok st' →
  (∀ p, is_Some (programs st !! p) → is_Some (programs st' !! p)) →
  (∀ j, j ≠ k → is_Some (reservations st' !! j) ↔ is_Some (reservations st !! j)) →
  decision_ok st' k d → inv st'.
Proof.
  intros Hi Hd Ha Hm Hact Hq [Hc Hs] Hp Hr Hok. split.
  - rewrite Hm. apply Hi.
  - unfold get_quorum. rewrite Hq. apply Hi.
  - intros b. unfold is_active_member. rewrite Hm, Hact. apply Hi.
  - done.
  - done.
  - rewrite Hd. intros j x Hj. rewrite lookup_insert in Hj. case_decide as Hkj; simplify_eq; [done|].
    eapply (decision_ok_frame st); [done|by rewrite Hm|by apply Hr|by apply Ha|by apply (inv_decisions _ Hi)].
  - intros j Hj. rewrite Hd, lookup_insert. case_decide as Hkj; [done|]. apply (inv_decided _ Hi).
    rewrite (Hr j), (Ha j) in Hj by done. done.
Qed.

(** A change of the committee only. *)
Lemma committee_inv st st' :
  inv st → programs st' = programs st → decisions st' = decisions st → reservations st' = reservations st →
  appeals st' = appeals st → members st ⊆ members st' →
  NoDup (members st') ∧ Z.of_nat (length (members st')) ≤ MAX_MEMBERS → 0 ≤ get_quorum st' ≤ MAX_MEMBERS →
  (∀ a, is_active_member a st' = true → a ∈ members st') → inv st'.
Proof.
  intros Hi Hp Hd Hr Ha Hm Hnd Hq Hact. destruct (budget_same st st') as [Hc Hs]; [done|done|by apply inv_budget|].
  split; [done..| |].
  - rewrite Hd. intros k d Hk. eapply (decision_ok_frame st); rewrite ?Hp, ?Hr, ?Ha; try done.
    by apply (inv_decisions _ Hi).
  - intros k. rewrite Hr, Ha, Hd. apply (inv_decided _ Hi).
Qed.

(** A change of a program that keeps its counters. *)
Lemma program_inv st p c :
  inv st → config_ok st p c →
  (∀ x, programs st !! p = Some x → per_award_amount x = per_award_amount c) →
  inv (put_program p c st).
Proof.
  intros Hi Hc Hsame. split; try apply Hi; simpl.
  - apply map_Forall_insert_2; [done|apply Hi].
  - intros k r Hk. destruct (inv_reservations _ Hi _ _ Hk) as (Hid & x & Hx & Ham). split; [done|]. simpl.
    rewrite lookup_insert. case_decide as Hpk; [subst p|by eexists]. exists c. split; [done|].
    by rewrite <-(Hsame x Hx).
  - intros k d Hd. eapply (decision_ok_frame st); simpl; try done; [|by apply (inv_decisions _ Hi)].
    intros q Hq. rewrite lookup_insert. by case_decide.
Qed.

Lemma no_reservations st p s :
  inv st → programs st !! p = None → map_sum (held s p) (reservations st) = 0.
Proof.
  intros Hi Hn. rewrite (map_sum_ext _ (λ _ _, 0)).
  - unfold map_sum. induction (reservations st) as [|k r m Hk IH] using map_ind; [done|].
    rewrite map_fold_insert_L; [done| |done]. intros; lia.
  - intros k r Hk. unfold held. case_decide as Hd; [|done]. destruct Hd as [<- _].
    destruct (inv_reservations _ Hi _ _ Hk) as (_ & c & Hc & _). congruence.
Qed.

(** The records of one application after a call. *)
Lemma reserves_programs e st p a st1 :
  reserves e st p a st1 → ∀ q, is_Some (programs st !! q) → is_Some (programs st1 !! q).
Proof. intros [c Hc Hle] q Hq. simpl. rewrite lookup_insert. by case_decide. Qed.

Lemma cast_plurality vs : plurality vs ≠ Pending.
Proof.
  unfold plurality. pose proof (decide_outcome_spec (count_of Award vs) (count_of Waitlist vs) (count_of Reject vs)) as H.
  by destruct (decide_outcome _ _ _).
Qed.

(** The store once budget is held, or not, for the outcome of a count. *)
Lemma outcome_budget e st p a (o : DecisionOutcome) st1 :
  inv st → reservations st !! (p, a) = None →
  (if decide (o = Awarded) then reserves e st p a st1 else st1 = st) →
  budget_ok st1 ∧ (∀ q, is_Some (programs st !! q) → is_Some (programs st1 !! q)) ∧
  (∀ k, is_Some (reservations st1 !! k) ↔ k = (p, a) ∧ o = Awarded ∨ is_Some (reservations st !! k)) ∧
  decisions st1 = decisions st ∧ appeals st1 = appeals st ∧ members st1 = members st ∧
  active_members st1 = active_members st ∧ quorum st1 = quorum st.
Proof.
  intros Hi Hn Hst. case_decide as Ho.
  - pose proof (budget_reserved _ _ _ _ _ Hi Hst Hn) as (Hb & Hp & Hr). apply reserves_same in Hst.
    split_and!; try apply Hst; try done. intros k. rewrite Hr. naive_solver.
  - subst st1. split_and!; try done; [by apply inv_budget|]. naive_solver.
Qed.

Lemma decision_opened_inv st p a n h t :
  inv st → is_Some (programs st !! p) → decisions st !! (p, a) = None →
  inv (put_decision (p, a) (mkDecision p a Open Pending 0 n h t 0 []) st).
Proof.
  intros Hi Hp Hn.
  assert (reservations st !! (p, a) = None ∧ appeals st !! (p, a) = None) as [Hr Ha].
  { split; apply eq_None_not_Some; intros Hs; destruct (inv_decided _ Hi (p, a)); naive_solver congruence. }
  eapply (updated_inv st _ (p, a)); try done; [by apply (budget_same st); [..|apply inv_budget]|].
  unfold decision_ok. simpl. rewrite Hr, Ha. split_and!; try done.
  split; [constructor|]. set_solver.
Qed.

Lemma voted_inv st k m ch t d :
  inv st → decisions st !! k = Some d → status d = Open → m ∉ voters (votes d) →
  is_active_member m st = true → inv (put_decision k (voted (mkVote m ch t) d) st).
Proof.
  intros Hi Hd Hs Hm Ha. pose proof (inv_decisions _ Hi _ _ Hd) as (Hid & Hp & Hv & Ho & Hst).
  eapply (updated_inv st _ k); try done; [by apply (budget_same st); [..|apply inv_budget]|].
  unfold decision_ok. simpl. rewrite Hs in *. split_and!; try done; try apply Hst. by apply (votes_ok_cast st).
Qed.

Lemma finalized_inv e st p a d st1 :
  inv st → decisions st !! (p, a) = Some d → status d = Open → get_quorum st ≠ 0 → get_quorum st ≤ cast (votes d) →
  (if decide (plurality (votes d) = Awarded) then reserves e st p a st1 else st1 = st) →
  inv (put_decision (p, a) (closed (plurality (votes d)) (timestamp e) d) st1).
Proof.
  intros Hi Hd Hs Hq0 Hq Hst1. pose proof (inv_decisions _ Hi _ _ Hd) as (Hid & Hp & Hv & Ho & Hst).
  rewrite Hs in Hst. destruct Hst as (Hpend & Hver & Hap). pose proof (inv_quorum _ Hi).
  assert (reservations st !! (p, a) = None) as Hn.
  { apply eq_None_not_Some. rewrite <-Ho, Hpend. done. }
  pose proof (outcome_budget _ _ _ _ _ _ Hi Hn Hst1) as (Hb & Hpp & Hr & Hdd & Haa & Hmm & Hact & Hqq).
  eapply (updated_inv st _ (p, a)); simpl; try done.
  - by rewrite Hdd.
  - intros j _. by rewrite Haa.
  - intros j Hj. rewrite Hr. naive_solver.
  - unfold decision_ok. simpl. rewrite Haa, Hap. split_and!; try done; [by apply Hpp| | |lia].
    + apply (votes_ok_mono st); [|done]. unfold members in *. simpl in *. by rewrite Hmm.
    + rewrite Hr, Hn. split; [auto|]. by intros [[_ ?]|[? ?]].
Qed.

(** A reservation that ends: the budget is given back, or spent. *)
Lemma ended_inv st p a r c s :
  inv st → reservations st !! (p, a) = Some r → rs_status r = Reserved → programs st !! p = Some c →
  s = Claimed ∨ s = Released ∨ s = Expired →
  inv (put_reservation (p, a) (ended s r)
    (put_program p (with_amounts (reserved_amount c - amount r)
      (awarded_amount c + if decide (s = Claimed) then amount r else 0) c) st)).
Proof.
  intros Hi Hr Hst Hc Hs. destruct (inv_decided _ Hi (p, a)) as [d Hd]; [left; by eexists|].
  assert (∀ q x, is_Some (programs st !! q) → is_Some (<[p := x]> (programs st) !! q)) as Hpp.
  { intros q x Hq. rewrite lookup_insert. by case_decide. }
  assert (∀ j x, is_Some (<[(p, a) := x]> (reservations st) !! j) ↔ is_Some (reservations st !! j)) as Hrr.
  { intros j x. rewrite lookup_insert. case_decide; subst; [|done]. rewrite Hr. split; eauto. }
  eapply (updated_inv st _ (p, a) d); simpl; try done.
  - by rewrite insert_id.
  - by apply budget_ended.
  - auto.
  - apply (decision_ok_frame st); simpl; auto. by apply (inv_decisions _ Hi).
Qed.

Lemma filed_inv st p a g h t d :
  inv st → decisions st !! (p, a) = Some d → status d = Finalized → outcome d = Rejected ∨ outcome d = Waitlisted →
  appeals st !! (p, a) = None →
  inv (put_appeal (p, a) (mkAppeal p a (outcome d) AppealOpen Pending g h t 0 []) st).
Proof.
  intros Hi Hd Hs Ho Hn. pose proof (inv_decisions _ Hi _ _ Hd) as (Hid & Hp & Hv & Hres & Hst).
  rewrite Hs, Hn in Hst. destruct Hst as (Hc & Hver & Hout).
  eapply (updated_inv st _ (p, a) d); simpl; try done.
  - by rewrite insert_id.
  - intros j Hj. by rewrite lookup_insert_ne.
  - by apply (budget_same st); [..|apply inv_budget].
  - unfold decision_ok. simpl. rewrite Hs, lookup_insert_eq. simpl. split_and!; try done.
    + by destruct Ho as [->| ->].
    + split; [constructor|]. set_solver.
    + set_solver.
Qed.

Lemma appeal_voted_inv st p a m ch t x d :
  inv st → appeals st !! (p, a) = Some x → ap_status x = AppealOpen → decisions st !! (p, a) = Some d →
  m ∉ voters (votes d) → m ∉ voters (ap_votes x) → is_active_member m st = true →
  inv (put_appeal (p, a) (ap_voted (mkVote m ch t) x) st).
Proof.
  intros Hi Hx Hs Hd Hm1 Hm2 Ha. pose proof (inv_decisions _ Hi _ _ Hd) as (Hid & Hp & Hv & Hres & Hst).
  rewrite Hx, Hs in Hst. destruct (status d) eqn:Hsd; [by destruct Hst as (_ & _ & ?)|].
  destruct Hst as (Hc & Hoo & Hna & Hva & Hdis & Hver & Hout & Hpend).
  eapply (updated_inv st _ (p, a) d); simpl; try done.
  - by rewrite insert_id.
  - intros j Hj. by rewrite lookup_insert_ne.
  - by apply (budget_same st); [..|apply inv_budget].
  - unfold decision_ok. simpl. rewrite Hsd, lookup_insert_eq. simpl. rewrite Hs. split_and!; try done.
    + by apply (votes_ok_cast st).
    + unfold voters in *. rewrite fmap_app. set_solver.
Qed.

Lemma superseded_inv e st p a x d st1 :
  inv st → appeals st !! (p, a) = Some x → ap_status x = AppealOpen → decisions st !! (p, a) = Some d →
  get_quorum st ≠ 0 → get_quorum st ≤ cast (ap_votes x) →
  (if decide (plurality (ap_votes x) = Awarded ∧ reservations st !! (p, a) = None)
   then reserves e st p a st1 else st1 = st) →
  inv (put_appeal (p, a) (ap_resolved (plurality (ap_votes x)) (timestamp e) x)
    (put_decision (p, a) (superseded (plurality (ap_votes x)) (outcome_version d + 1) d) st1)).
Proof.
  intros Hi Hx Hs Hd Hq0 Hq Hst1. pose proof (inv_decisions _ Hi _ _ Hd) as (Hid & Hp & Hv & Hres & Hst).
  rewrite Hx, Hs in Hst. destruct (status d) eqn:Hsd; [by destruct Hst as (_ & _ & ?)|].
  destruct Hst as (Hc & Hoo & Hna & Hva & Hdis & Hver & Hout & Hpend). pose proof (inv_quorum _ Hi).
  assert (reservations st !! (p, a) = None) as Hn.
  { apply eq_None_not_Some. rewrite <-Hres. congruence. }
  assert (if decide (plurality (ap_votes x) = Awarded) then reserves e st p a st1 else st1 = st) as Hst2.
  { revert Hst1. repeat case_decide; naive_solver. }
  pose proof (outcome_budget _ _ _ _ _ _ Hi Hn Hst2) as (Hb & Hpp & Hr & Hdd & Haa & Hmm & Hact & Hqq).
  eapply (updated_inv st _ (p, a)); simpl; try done.
  - by rewrite Hdd.
  - intros j Hj. rewrite lookup_insert_ne by done. by rewrite Haa.
  - intros j Hj. rewrite Hr. naive_solver.
  - unfold decision_ok. simpl. rewrite Hsd, lookup_insert_eq. simpl.
    assert (∀ vs, votes_ok st vs → votes_ok (put_appeal (p, a) (ap_resolved (plurality (ap_votes x)) (timestamp e) x)
      (put_decision (p, a) (superseded (plurality (ap_votes x)) (outcome_version d + 1) d) st1)) vs) as Hok.
    { intros vs. apply votes_ok_mono. unfold members in *. simpl. by rewrite Hmm. }
    split_and!; auto; try lia. rewrite Hr, Hn. split; [auto|]. by intros [[_ ?]|[? ?]].
Qed.

(** ** Reachable stores *)

Lemma decisions_effect_inv e st c st' : inv st → effect e st c st' → inv st'.
Proof.
  intros Hi Heff. pose proof (inv_members _ Hi) as [Hnd Hlen]. destruct Heff.
  - by apply (committee_inv st); try apply Hi.
  - assert (members st ⊆ members st1 ∧ a ∈ members st1 ∧ NoDup (members st1) ∧
      Z.of_nat (length (members st1)) ≤ MAX_MEMBERS) as (Hsub & Ha & Hnd1 & Hlen1).
    { destruct H as [[-> Ha]|(-> & Ha & Hl)]; [done|].
      assert (members (put_member_list (members st ++ [a]) st) = members st ++ [a]) as -> by done.
      rewrite length_app, NoDup_app. simpl. unfold MAX_MEMBERS in *.
      split_and!; [set_solver|set_solver|done|set_solver|apply NoDup_singleton|lia]. }
    destruct H as [[-> _]|[-> _]]; apply (committee_inv st); try apply Hi; try done;
      intros b; unfold is_active_member; simpl; rewrite lookup_insert; case_decide; subst; try done;
      intros Hb; by apply Hsub, (inv_active _ Hi).
  - apply (committee_inv st); try apply Hi; try done. intros b.
    unfold is_active_member. simpl. rewrite lookup_insert. case_decide; [done|]. apply Hi.
  - apply (committee_inv st); try apply Hi; try done. unfold get_quorum. simpl. lia.
  - apply program_inv; [done| |congruence]. unfold config_ok. simpl.
    rewrite !no_reservations by done. split_and!; lia.
  - apply program_inv; [done|by apply (inv_programs _ Hi _ _ H)|naive_solver].
  - by apply decision_opened_inv.
  - by apply voted_inv.
  - by eapply finalized_inv.
  - by apply (ended_inv st p a r c Claimed); auto.
  - pose proof (ended_inv st p a r c Released Hi H H0 H3) as Hend. rewrite Z.add_0_r in Hend. auto.
  - pose proof (ended_inv st p a r c Expired Hi H H0 H2) as Hend. rewrite Z.add_0_r in Hend. auto.
  - by eapply filed_inv.
  - by eapply appeal_voted_inv.
  - by eapply superseded_inv.
Qed.

Section Reach.
Context {L : Type}.
Abbreviation W := (World L Store Event).
Implicit Types (w : W).

Definition empty_store : Store := mkStore None None ∅ ∅ None ∅ ∅ ∅ ∅.
Definition deployed (w : W) : Prop := store w = empty_store.
Abbreviation Reach this := (reachable exec valid this (λ _ _, True) deployed).

Lemma empty_inv : inv empty_store.
Proof.
  split; simpl; try apply map_Forall_empty; try done.
  - split; [constructor|]. done.
  - by intros k [[? ?]|[? ?]].
Qed.

Lemma decisions_call_inv c e w w' u :
  inv (store w) → valid e c → exec c e w = Done w' u →
  ledger w' = ledger w ∧ effect e (store w) c (store w') ∧ inv (store w').
Proof.
  intros Hi Hv Hrun. destruct (votes_bounded _ Hi) as [Hd Hx].
  destruct (decisions_effect c e w w' u) as [Hl Heff]; [done..|]. split_and!; [done..|].
  by eapply decisions_effect_inv.
Qed.

Lemma decisions_reachable this w : Reach this w → inv (store w).
Proof.
  apply (reachable_inv _ _ _ _ _ (λ w, inv (store w))).
  - intros w0 ->. apply empty_inv.
  - intros c e w0 w1 u _ Hv Hi Hrun. by apply (decisions_call_inv c e w0 w1 u).
  - done.
Qed.
End Reach.
