(* ===== verification/DecisionsTheorems.v ===== *)
(** * Award decisions: the properties

    The budget of a program is reconciled with its reservations and never over-committed; the
    outcome of a decision is the plurality of the votes of distinct members, and changes at
    most once, by an appeal before a disjoint panel; a member is counted once per application;
    an award can be accepted in time whatever happened before. *)
From S2P Require Import Prelude Machine Host Loops Decisions DecisionsProps.

Section Theorems.
Context {L : Type}.
Abbreviation W := (World L Store Event).
Abbreviation M := (Contract L Store Event ContractError).
Implicit Types (w : W).
Abbreviation Reach this := (reachable exec valid this (λ _ _, True) deployed).

(** C2: The budget is reconciled.  In every reachable world the reserved and the awarded amount
    of a program are the sums over its applications of the reservations that are held and of
    those that were claimed, neither is negative, and together they never exceed the total
    budget; an application holds at most one reservation, of the program's award. *)
Theorem budget_reconciles this w p c :
  Reach this w → programs (store w) !! p = Some c →
  reserved_amount c = map_sum (held Reserved p) (reservations (store w)) ∧
  awarded_amount c = map_sum (held Claimed p) (reservations (store w)) ∧
  0 ≤ reserved_amount c ∧ 0 ≤ awarded_amount c ∧
  reserved_amount c + awarded_amount c ≤ total_budget c ∧
  ∀ a r, reservations (store w) !! (p, a) = Some r →
    rs_program_id r = p ∧ rs_applicant r = a ∧ amount r = per_award_amount c.
Proof.
  intros Hi%decisions_reachable Hc. destruct (inv_programs _ Hi _ _ Hc) as (_ & _ & _ & Hr & Hw & Hle).
  pose proof (held_bounds Reserved p _ Hi). pose proof (held_bounds Claimed p _ Hi).
  split_and!; [done..|lia|lia|done|]. intros a r Ha.
  destruct (inv_reservations _ Hi _ _ Ha) as (Hid & x & Hx & Ham). simpl in Hx. simplify_eq. done.
Qed.

(** Outcomes are the votes.  In every reachable world the votes of a decision and of its
    appeal are those of distinct members of the committee's list, and no member voted in both.
    An open decision is pending and has no appeal; a finalized one carries the plurality of its
    votes, or once an appeal is resolved the plurality of the appeal's, which only a decision
    that was not an award has; budget was reserved exactly for the awards. *)
Theorem decision_sound this w k d :
  Reach this w → decisions (store w) !! k = Some d →
  let panel := default [] (ap_votes <$> appeals (store w) !! k) in
  NoDup (voters (votes d ++ panel)) ∧ voters (votes d ++ panel) ⊆ members (store w) ∧
  (outcome d = Awarded ↔ is_Some (reservations (store w) !! k)) ∧
  match status d with
  | Open => outcome d = Pending ∧ appeals (store w) !! k = None
  | Finalized =>
      match appeals (store w) !! k with
      | None => outcome d = plurality (votes d)
      | Some x => plurality (votes d) ≠ Awarded ∧ original_outcome x = plurality (votes d) ∧
          outcome d = plurality (if decide (ap_status x = Resolved) then ap_votes x else votes d)
      end
  end.
Proof.
  intros Hi%decisions_reachable Hd panel. subst panel.
  destruct (inv_decisions _ Hi _ _ Hd) as (_ & _ & [Hnd Hsub] & Hr & Hst).
  destruct (status d); [destruct Hst as (Ho & _ & Hx)|destruct Hst as [_ Hst]];
    [rewrite Hx; simpl; rewrite app_nil_r; split_and!; done|].
  destruct (appeals (store w) !! k) as [x|] eqn:Hx; simpl.
  - destruct Hst as (Ho & Hna & [Hndx Hsubx] & Hdis & Hap). unfold voters in *. rewrite fmap_app.
    split_and!; [|set_solver|done| |done|].
    + apply NoDup_app. split_and!; [done| |done]. set_solver.
    + by rewrite <-Ho.
    + destruct (ap_status x); simpl; destruct Hap as (_ & Hap & _); congruence.
  - rewrite app_nil_r. split_and!; [done..|]. apply Hst.
Qed.

(** ** One vote *)

(** How many votes a member has on an application. *)
Definition votes_of (m : Address) (vs : list Vote) : Z :=
  list_sum (λ v, if bool_decide (member v = m) then 1 else 0) vs.
Definition ballots (m : Address) (k : Z * Address) (st : Store) : Z :=
  default 0 (votes_of m ∘ votes <$> decisions st !! k) + default 0 (votes_of m ∘ ap_votes <$> appeals st !! k).

(** A call by which [m] votes on the application [k], first or on appeal. *)
Definition votes_on (m : Address) (k : Z * Address) (_ : Env) (c : Call) : bool :=
  match c with
  | CVote b p a _ | CRecuse b p a | CVoteAppeal b p a _ => bool_decide (b = m) && bool_decide ((p, a) = k)
  | _ => false
  end.

Lemma votes_of_app m vs vs' : votes_of m (vs ++ vs') = votes_of m vs + votes_of m vs'.
Proof. apply list_sum_app. Qed.

Lemma votes_of_NoDup m vs : NoDup (voters vs) → 0 ≤ votes_of m vs ≤ 1 ∧ (m ∉ voters vs → votes_of m vs = 0).
Proof.
  unfold votes_of, voters. induction vs as [|v vs IH]; simpl; intros Hnd; [lia|].
  apply NoDup_cons in Hnd as [Hv [Hb Hz]%IH]. case_bool_decide as Hm.
  - subst m. rewrite Hz by done. split; [lia|]. set_solver.
  - split; [lia|]. rewrite not_elem_of_cons. intros [_ Hn]. rewrite Hz by done. lia.
Qed.

Lemma ballots_one m k st : inv st → ballots m k st ≤ 1.
Proof.
  intros Hi. unfold ballots. destruct (decisions st !! k) as [d|] eqn:Hd; simpl.
  2: { destruct (appeals st !! k) as [x|] eqn:Hx; simpl; [|lia].
       destruct (inv_decided _ Hi k) as [? ?]; [right; by eexists|congruence]. }
  destruct (inv_decisions _ Hi _ _ Hd) as (_ & _ & [Hnd _] & _ & Hst).
  destruct (votes_of_NoDup m _ Hnd) as [Hb Hz].
  destruct (appeals st !! k) as [x|]; simpl; [|lia].
  destruct (status d); [by destruct Hst as (_ & _ & ?)|].
  destruct Hst as (_ & _ & _ & [Hndx _] & Hdis & _). destruct (votes_of_NoDup m _ Hndx) as [Hbx Hzx].
  destruct (decide (m ∈ voters (votes d))) as [Hm|Hm]; [rewrite Hzx by set_solver|rewrite Hz by done]; lia.
Qed.

(** What a count of ballots sees of a store. *)
Lemma ballots_ext m k st st' :
  votes <$> decisions st' !! k = votes <$> decisions st !! k →
  ap_votes <$> appeals st' !! k = ap_votes <$> appeals st !! k → ballots m k st' = ballots m k st.
Proof. intros Hd Ha. unfold ballots. by rewrite !option_fmap_compose, Hd, Ha. Qed.

Lemma ballots_decision m j k d v st :
  decisions st !! j = Some d →
  ballots m k (put_decision j (voted v d) st) = ballots m k st + if decide (member v = m ∧ j = k) then 1 else 0.
Proof.
  intros Hd. unfold ballots. simpl. rewrite lookup_insert. destruct (decide (j = k)) as [<-|Hj].
  - rewrite Hd. simpl. unfold votes_of at 1. rewrite list_sum_app. simpl. fold (votes_of m (votes d)).
    case_bool_decide; case_decide; try lia; naive_solver.
  - rewrite decide_False by naive_solver. lia.
Qed.

Lemma ballots_appeal m j k x v st :
  appeals st !! j = Some x →
  ballots m k (put_appeal j (ap_voted v x) st) = ballots m k st + if decide (member v = m ∧ j = k) then 1 else 0.
Proof.
  intros Hx. unfold ballots. simpl. rewrite lookup_insert. destruct (decide (j = k)) as [<-|Hj].
  - rewrite Hx. simpl. rewrite votes_of_app. unfold votes_of at 3. simpl.
    case_bool_decide; case_decide; try lia; naive_solver.
  - rewrite decide_False by naive_solver. lia.
Qed.

Lemma votes_on_decide (m b : Address) (k : Z * Address) p a :
  (if bool_decide (b = m) && bool_decide ((p, a) = k) then 1 else 0) = if decide (b = m ∧ (p, a) = k) then 1 else 0.
Proof. repeat case_bool_decide; case_decide; simpl; naive_solver. Qed.

(** A new record without votes. *)
Lemma ballots_opened m j k d st :
  decisions st !! j = None → votes d = [] → ballots m k (put_decision j d st) = ballots m k st.
Proof.
  intros Hn Hv. unfold ballots. simpl. rewrite lookup_insert. destruct (decide (j = k)) as [<-|]; [|done].
  rewrite Hn. simpl. by rewrite Hv.
Qed.
Lemma ballots_filed m j k x st :
  appeals st !! j = None → ap_votes x = [] → ballots m k (put_appeal j x st) = ballots m k st.
Proof.
  intros Hn Hv. unfold ballots. simpl. rewrite lookup_insert. destruct (decide (j = k)) as [<-|]; [|done].
  rewrite Hn. simpl. by rewrite Hv.
Qed.

Lemma lookup_same {K A B} `{EqDecision K, Countable K} (f : A → B) (m : gmap K A) i j x y :
  m !! i = Some x → f y = f x → f <$> <[i := y]> m !! j = f <$> m !! j.
Proof. intros Hx Hf. rewrite lookup_insert. case_decide; [subst; rewrite Hx; simpl; by rewrite Hf|done]. Qed.

Lemma effect_ballots e st c st' m k :
  inv st → effect e st c st' → ballots m k st' = ballots m k st + if votes_on m k e c then 1 else 0.
Proof.
  intros Hi Heff. destruct Heff; simpl; rewrite ?votes_on_decide, ?Z.add_0_r; try by apply ballots_ext.
  - destruct H as [[-> _]|[-> _]]; by apply ballots_ext.
  - by apply ballots_opened.
  - erewrite ballots_decision by done. simpl. f_equal. destruct c; simplify_eq/=; by rewrite votes_on_decide.
  - assert (decisions st1 = decisions st ∧ appeals st1 = appeals st) as [Hd Ha].
    { case_decide; [|by subst]. apply reserves_same in H5. naive_solver. }
    apply ballots_ext; simpl; [|by rewrite Ha]. rewrite Hd. by apply (lookup_same _ _ _ _ d).
  - by apply ballots_filed.
  - by erewrite ballots_appeal by done.
  - assert (decisions st1 = decisions st ∧ appeals st1 = appeals st) as [Hd Ha].
    { case_decide; [|by subst]. apply reserves_same in H6. naive_solver. }
    apply ballots_ext; simpl; rewrite ?Hd, ?Ha; [by apply (lookup_same _ _ _ _ d)|by apply (lookup_same _ _ _ _ x)].
Qed.

(** C6: One vote per member.  From every reachable world, over any sequence of calls by anyone at
    any times, at most one of a member's votes on an application is accepted, counting the votes
    and recusals on its decision and the votes on its appeal together. *)
Theorem one_vote this w calls m k :
  Reach this w → Forall (λ ec : Env * Call, valid ec.1 ec.2) calls →
  accepted exec (votes_on m k) calls w ≤ 1.
Proof.
  intros Hi%decisions_reachable Hv. rewrite Forall_forall in Hv.
  destruct (accepted_counts exec (λ w, inv (store w)) (λ w, ballots m k (store w)) (votes_on m k) calls w) as [Hi' Hb].
  - intros e c w0 w1 u H0 Hin Hrun. apply Hv in Hin. simpl in Hin.
    destruct (decisions_call_inv c e w0 w1 u) as (_ & Heff & H1); [done..|]. split; [done|]. by apply effect_ballots.
  - done.
  - pose proof (ballots_one m k _ Hi') as Hone. assert (0 ≤ ballots m k (store w)); [|lia].
    unfold ballots, compose. assert (∀ vs, 0 ≤ votes_of m vs) as Hnn.
    { intros vs. apply list_sum_nonneg, Forall_forall. intros v _. by case_bool_decide. }
    destruct (decisions (store w) !! k) as [d|]; [pose proof (Hnn (votes d))|];
      (destruct (appeals (store w) !! k) as [x|]; [pose proof (Hnn (ap_votes x))|]); simpl; lia.
Qed.

(** ** The life of a decision and of a reservation *)

(** What one call may do to a stored decision. *)
Inductive decision_moves (e : Env) (st : Store) (k : Z * Address) (d : Decision) : Decision → Prop :=
| DM_same : decision_moves e st k d d
| DM_vote m ch :
    status d = Open → m ∉ voters (votes d) → is_active_member m st = true → authorized e m = true →
    decision_moves e st k d (voted (mkVote m ch (timestamp e)) d)
| DM_close c :
    status d = Open → operates c st → authorized e c = true → 1 ≤ get_quorum st ≤ cast (votes d) →
    decision_moves e st k d (closed (plurality (votes d)) (timestamp e) d)
| DM_appeal c x :
    status d = Finalized → outcome_version d = 1 → appeals st !! k = Some x → ap_status x = AppealOpen →
    operates c st → authorized e c = true → 1 ≤ get_quorum st ≤ cast (ap_votes x) →
    decision_moves e st k d (superseded (plurality (ap_votes x)) 2 d).

Lemma appeal_finalized st k x d :
  inv st → appeals st !! k = Some x → decisions st !! k = Some d → ap_status x = AppealOpen →
  status d = Finalized ∧ outcome_version d = 1 ∧ reservations st !! k = None.
Proof.
  intros Hi Hx Hd Hs. destruct (inv_decisions _ Hi _ _ Hd) as (_ & _ & _ & Hr & Hst). rewrite Hx, Hs in Hst.
  destruct (status d); [by destruct Hst as (_ & _ & ?)|]. destruct Hst as (_ & Ho & Hna & _ & _ & Hver & Hout & _).
  split_and!; [done..|]. apply eq_None_not_Some. rewrite <-Hr. congruence.
Qed.

(** A decision's life.  From every reachable world one call leaves a stored decision as it
    is, or appends the vote of an active member who authorises it and has not voted, while the
    decision is open; or a chair or the admin closes it with the plurality of its votes once
    the quorum is cast, or closes the open appeal of a finalized decision, once, with the
    plurality of the appeal's votes.  Decisions are never removed, votes never changed. *)
Theorem decision_lifecycle this w e c k d :
  Reach this w → valid e c → decisions (store w) !! k = Some d →
  ∃ d', decisions (store (invoke (exec c) e w).1) !! k = Some d' ∧ decision_moves e (store w) k d d'.
Proof.
  intros Hi%decisions_reachable Hv Hd. unfold invoke. pose proof (inv_quorum _ Hi) as Hqr.
  destruct (exec c e w) as [w' u| |] eqn:Hrun; simpl; [|exists d; split; [done|apply DM_same]..].
  apply decisions_call_inv in Hrun as (_ & Heff & _); [|done..]. destruct Heff; simpl;
    try (exists d; split; [done|apply DM_same]).
  - destruct H as [[-> _]|[-> _]]; (exists d; split; [done|apply DM_same]).
  - exists d. rewrite lookup_insert_ne by congruence. split; [done|apply DM_same].
  - rewrite lookup_insert. destruct (decide (k0 = k)) as [<-|]; [|exists d; split; [done|apply DM_same]].
    simplify_eq. eexists. split; [done|]. by apply DM_vote.
  - assert (decisions st1 = decisions (store w)) as ->.
    { case_decide; [by apply reserves_same in H5 as (? & _)|by subst]. }
    rewrite lookup_insert. destruct (decide ((p, a) = k)) as [<-|]; [|exists d; split; [done|apply DM_same]].
    simplify_eq. eexists. split; [done|]. apply DM_close with c; try done. lia.
  - assert (decisions st1 = decisions (store w)) as ->.
    { case_decide; [by apply reserves_same in H6 as (? & _)|by subst]. }
    rewrite lookup_insert. destruct (decide ((p, a) = k)) as [<-|]; [|exists d; split; [done|apply DM_same]].
    simplify_eq. destruct (appeal_finalized (store w) (p, a) x d) as (Hf & Hver & _); [done..|].
    rewrite Hver. eexists. split; [done|]. apply DM_appeal with c; try done. lia.
Qed.

(** What one call may do to a stored reservation: [spent] is what it takes off the reserved
    amount of the program, [earned] what it adds to the awarded one. *)
Inductive reservation_moves (e : Env) (st : Store) (r : Reservation) : Reservation → Z → Z → Prop :=
| RM_same : reservation_moves e st r r 0 0
| RM_accept :
    rs_status r = Reserved → authorized e (rs_applicant r) = true → timestamp e ≤ expires_at r →
    reservation_moves e st r (ended Claimed r) (amount r) (amount r)
| RM_release c :
    rs_status r = Reserved → operates c st → authorized e c = true →
    reservation_moves e st r (ended Released r) (amount r) 0
| RM_expire :
    rs_status r = Reserved → expires_at r < timestamp e →
    reservation_moves e st r (ended Expired r) (amount r) 0.

(** The reservation and the program's amounts after a call. *)
Definition reservation_step (e : Env) (st st' : Store) (p : Z) (a : Address) (r : Reservation) : Prop :=
  ∃ r' spent earned, reservations st' !! (p, a) = Some r' ∧ reservation_moves e st r r' spent earned ∧
    (r' ≠ r → ∃ x x', programs st !! p = Some x ∧ programs st' !! p = Some x' ∧
      reserved_amount x' = reserved_amount x - spent ∧ awarded_amount x' = awarded_amount x + earned ∧
      total_budget x' = total_budget x).

Lemma step_same e st st' p a r : reservations st' !! (p, a) = Some r → reservation_step e st st' p a r.
Proof. intros Hs. exists r, 0, 0. split_and!; [done|apply RM_same|done]. Qed.

Lemma step_ended e st p a r j b r1 s x earned :
  reservations st !! (p, a) = Some r → reservations st !! (j, b) = Some r1 → programs st !! j = Some x →
  ((j, b) = (p, a) → r1 = r → reservation_moves e st r (ended s r) (amount r) earned) →
  ((j, b) = (p, a) → r1 = r → earned = if decide (s = Claimed) then amount r else 0) →
  reservation_step e st (put_reservation (j, b) (ended s r1)
    (put_program j (with_amounts (reserved_amount x - amount r1)
      (awarded_amount x + if decide (s = Claimed) then amount r1 else 0) x) st)) p a r.
Proof.
  intros Hr Hr1 Hx Hm He. destruct (decide ((j, b) = (p, a))) as [Heq|Hne].
  - injection Heq as -> ->. rewrite Hr in Hr1. injection Hr1 as <-. eexists _, _, _. simpl.
    rewrite !lookup_insert_eq. split; [done|]. split; [by apply Hm|]. intros _. exists x. eexists.
    split; [done|]. split; [done|]. simpl. by rewrite He.
  - apply step_same. simpl. by rewrite lookup_insert_ne.
Qed.

Lemma effect_reservation e st c st' p a r :
  inv st → effect e st c st' → reservations st !! (p, a) = Some r → reservation_step e st st' p a r.
Proof.
  intros Hi Heff Hr. destruct (inv_reservations _ Hi _ _ Hr) as ([= Hp Ha] & _).
  assert (∀ j b st1, reserves e st j b st1 → reservations st !! (j, b) = None → reservations st1 !! (p, a) = Some r) as Hres.
  { intros j b st1 [x Hx _] Hn. simpl. rewrite lookup_insert_ne by congruence. done. }
  destruct Heff; try by apply step_same.
  - apply step_same. by destruct H as [[-> _]|[-> _]].
  - apply step_same. simpl. revert H5. case_decide; [|by intros ->]. intros Hst. eapply Hres; [done|].
    destruct (inv_decisions _ Hi _ _ H) as (_ & _ & _ & Ho & Hst'). rewrite H0 in Hst'.
    destruct Hst' as (Hpend & _). rewrite Hpend in Ho. apply eq_None_not_Some. by rewrite <-Ho.
  - pose proof (step_ended e st p a r p0 a0 r0 Claimed c (amount r)) as Hend.
    apply Hend; try done. intros [= -> ->] ->. apply RM_accept; congruence.
  - pose proof (step_ended e st p a r p0 a0 r0 Released c 0) as Hend. rewrite Z.add_0_r in Hend.
    apply Hend; try done. intros _ ->. by apply RM_release with b.
  - pose proof (step_ended e st p a r p0 a0 r0 Expired c 0) as Hend. rewrite Z.add_0_r in Hend.
    apply Hend; try done. intros _ ->. by apply RM_expire.
  - apply step_same. simpl. revert H6. case_decide as Ho; [|by intros ->]. intros Hst. eapply Hres; [done|apply Ho].
Qed.

(** A reservation ends once.  From every reachable world one call leaves a stored reservation
    as it is, or ends a held one: as claimed by authorisation of its applicant until it expires,
    as released by a chair or the admin, as expired only after its expiry.  The program's
    reserved amount drops by the reservation exactly then, the awarded amount grows by it
    exactly when it is claimed. *)
Theorem reservation_lifecycle this w e c p a r :
  Reach this w → valid e c → reservations (store w) !! (p, a) = Some r →
  reservation_step e (store w) (store (invoke (exec c) e w).1) p a r.
Proof.
  intros Hi%decisions_reachable Hv Hr. unfold invoke.
  destruct (exec c e w) as [w' u| |] eqn:Hrun; simpl; [|by apply step_same..].
  apply decisions_call_inv in Hrun as (_ & Heff & _); [|done..]. by eapply effect_reservation.
Qed.

(** ** Finalizing and accepting *)

Lemma require_operator c e w :
  operates c (store w) → authorized e c = true → (require_chair_or_admin c : M unit) e w = Done w tt.
Proof.
  intros Hop Hau. unfold require_chair_or_admin, require_auth.
  cbv [bind load ok_or ret fail]. destruct (is_chair c (store w)) eqn:Hc; [by rewrite Hau|].
  destruct Hop as [?|Ha]; [congruence|]. rewrite Ha, bool_decide_eq_true_2, Hau by done. done.
Qed.

Lemma count_votes_run vs e w :
  Z.of_nat (length vs) ≤ MAX_MEMBERS → 
  (count_votes vs : M DecisionOutcome) e w =
    if (get_quorum (store w) =? 0) || (cast vs <? get_quorum (store w)) then Failed w QuorumNotMet
    else Done w (plurality vs).
Proof.
  intros Hl. pose proof (cast_length vs) as Hc. unfold MAX_MEMBERS in *.
  pose proof (count_of_bounds Award vs). pose proof (count_of_bounds Waitlist vs).
  pose proof (count_of_bounds Reject vs). unfold cast in *.
  unfold count_votes. rewrite tally_run by range_lia.
  cbv [bind load or_trap ok_or ret fail reject_if]. unfold checked_add_u32.
  rewrite checked_in by range_lia. simpl. rewrite checked_in by range_lia. simpl.
  by destruct ((_ =? 0) || _).
Qed.

(** A reservation is part of its program's sum. *)
Lemma held_le s p a r st :
  inv st → reservations st !! (p, a) = Some r → rs_status r = s → amount r ≤ map_sum (held s p) (reservations st).
Proof.
  intros Hi Hr Hs. pose proof (map_sum_delete (held s p) (reservations st) (p, a)) as Hd.
  unfold at_key in Hd. rewrite Hr, held_same in Hd by done.
  assert (0 ≤ map_sum (held s p) (delete (p, a) (reservations st))); [|lia].
  apply map_sum_nonneg. intros k x [_ Hx]%lookup_delete_Some. unfold held. case_decide; [|done].
  destruct (inv_reservations _ Hi _ _ Hx) as (_ & c & Hc & ->).
  destruct (inv_programs _ Hi _ _ Hc) as ([? _] & _). lia.
Qed.

(** Holding the award of a program in a reachable store. *)
Lemma reserve_budget_run p a x e w :
  inv (store w) → programs (store w) !! p = Some x → 0 ≤ timestamp e →
  let n := per_award_amount x in
  (reserve_budget p a n : M unit) e w =
    if i128_max <? reserved_amount x + awarded_amount x + n then Failed w ArithmeticOverflow
    else if total_budget x <? reserved_amount x + awarded_amount x + n then Failed w BudgetExceeded
    else if u64_max <? timestamp e + reservation_ttl x then Failed w ArithmeticOverflow
    else Done (mkWorld (ledger w)
      (put_reservation (p, a) (mkReservation p a n (timestamp e) (timestamp e + reservation_ttl x) Reserved)
        (put_program p (with_amounts (reserved_amount x + n) (awarded_amount x) x) (store w)))
      (log w ++ [DECRSV p a n])) tt.
Proof.
  intros Hi Hx Ht n. subst n. destruct (inv_programs _ Hi _ _ Hx) as (Hb & Hmax & Httl & Hr & Hw & Hle).
  pose proof (held_bounds Reserved p _ Hi). pose proof (held_bounds Claimed p _ Hi).
  unfold reserve_budget, load_program. cbv [bind load ok_or ret fail reject_if now save publish]. rewrite Hx.
  unfold checked_add_i128, checked_add_u64. rewrite (checked_in _ _ (reserved_amount x + awarded_amount x)) by range_lia.
  destruct (Z.ltb_spec i128_max (reserved_amount x + awarded_amount x + per_award_amount x)).
  { by rewrite (proj2 (checked_None _ _ _)) by lia. }
  rewrite checked_in by range_lia. destruct (total_budget x <? _); simpl; [done|].
  rewrite checked_in by range_lia. destruct (Z.ltb_spec u64_max (timestamp e + reservation_ttl x)).
  { by rewrite (proj2 (checked_None _ _ _)) by lia. }
  by rewrite checked_in by range_lia.
Qed.

(** Finalization.  In every reachable world a finalization by a chair or the admin answers as
    follows: without the decision, or after it was finalized, or before the quorum is cast (a
    contract without a quorum never has it), it is refused; an award whose amount exceeds what
    the program has left, or whose expiry has no 64-bit time, is refused and nothing changes;
    otherwise the decision is closed with the plurality of its votes, and for an award exactly
    the program's amount is moved into a reservation. *)
Theorem finalize_exact this w e c p a :
  Reach this w → valid e (CFinalize c p a) → operates c (store w) → authorized e c = true →
  let t := timestamp e in
  let q := get_quorum (store w) in
  invoke (finalize_decision c p a) e w =
    match decisions (store w) !! (p, a), programs (store w) !! p with
    | Some d, Some x =>
        let o := plurality (votes d) in
        let n := per_award_amount x in
        let st1 := put_reservation (p, a) (mkReservation p a n t (t + reservation_ttl x) Reserved)
          (put_program p (with_amounts (reserved_amount x + n) (awarded_amount x) x) (store w)) in
        if decide (status d = Finalized) then (w, Errored DecisionAlreadyFinalized)
        else if (q =? 0) || (cast (votes d) <? q) then (w, Errored QuorumNotMet)
        else if decide (o = Awarded) then
          if i128_max <? reserved_amount x + awarded_amount x + n then (w, Errored ArithmeticOverflow)
          else if total_budget x <? reserved_amount x + awarded_amount x + n then (w, Errored BudgetExceeded)
          else if u64_max <? t + reservation_ttl x then (w, Errored ArithmeticOverflow)
          else (mkWorld (ledger w) (put_decision (p, a) (closed o t d) st1)
                  (log w ++ [DECRSV p a n; DECFIN p a o]), Returned tt)
        else (mkWorld (ledger w) (put_decision (p, a) (closed o t d) (store w))
                (log w ++ [DECFIN p a o]), Returned tt)
    | _, _ => (w, Errored DecisionNotFound)
    end.
Proof.
  intros Hi%decisions_reachable [Ht _] Hop Hau t q. unfold invoke, finalize_decision, load_decision.
  cbv [bind load]. rewrite require_operator by done.
  destruct (decisions (store w) !! (p, a)) as [d|] eqn:Hd; simpl; [|by destruct (programs (store w) !! p)].
  destruct (inv_decisions _ Hi _ _ Hd) as (_ & [x Hx] & Hv & _). simpl in Hx. rewrite Hx.
  destruct (inv_programs _ Hi _ _ Hx) as (Hb & Hmax & Httl & Hr & Hw & Hle).
  pose proof (held_bounds Reserved p _ Hi) as Hr0. pose proof (held_bounds Claimed p _ Hi) as Hw0.
  cbv [reject_if ok_or ret fail]. destruct (status d) eqn:Hs; simpl; [|done].
  rewrite count_votes_run by by apply votes_length in Hv. fold q. destruct ((q =? 0) || _); simpl; [done|].
  case_bool_decide as Ho; [rewrite decide_True by done|rewrite decide_False by done; done].
  unfold load_program. cbv [bind load ok_or ret now save publish]. rewrite Hx, reserve_budget_run by (done || lia).
  fold t. destruct (i128_max <? _); [done|]. destruct (total_budget x <? _); [done|].
  destruct (u64_max <? _); [done|]. simpl. by rewrite <-app_assoc.
Qed.

(** Acceptance.  In every reachable world an applicant's acceptance of a held reservation
    succeeds up to and including its expiry, whatever happened to the program meanwhile: it moves
    the reservation's amount from the reserved to the awarded amount and marks it claimed.  The
    only refusals are a reservation that does not exist, has ended, or has expired. *)
Theorem accept_exact this w e p a :
  Reach this w → authorized e a = true →
  match reservations (store w) !! (p, a) with
  | None => invoke (accept_award a p) e w = (w, Errored ReservationNotFound)
  | Some r =>
      if decide (rs_status r = Reserved) then
        if expires_at r <? timestamp e then invoke (accept_award a p) e w = (w, Errored ReservationExpired)
        else ∃ x, programs (store w) !! p = Some x ∧
          invoke (accept_award a p) e w =
            (mkWorld (ledger w)
               (put_reservation (p, a) (ended Claimed r)
                 (put_program p (with_amounts (reserved_amount x - amount r) (awarded_amount x + amount r) x)
                   (store w)))
               (log w ++ [AWACC p a (amount r)]), Returned tt)
      else invoke (accept_award a p) e w = (w, Errored ReservationNotActive)
  end.
Proof.
  intros Hi%decisions_reachable Hau. unfold invoke, accept_award, load_reservation, load_program, require_auth.
  cbv [bind load ok_or ret fail reject_if now save publish]. rewrite Hau.
  destruct (reservations (store w) !! (p, a)) as [r|] eqn:Hr; [|done].
  destruct (inv_reservations _ Hi _ _ Hr) as (_ & x & Hx & Ham). simpl in Hx.
  destruct (inv_programs _ Hi _ _ Hx) as (Hb & Hmax & _ & Hre & Hw & Hle).
  case_decide as Hs; [rewrite bool_decide_eq_true_2 by done|by rewrite bool_decide_eq_false_2].
  simpl. destruct (expires_at r <? timestamp e); [done|]. exists x. split; [done|]. rewrite Hx.
  pose proof (held_bounds Reserved p _ Hi). pose proof (held_bounds Claimed p _ Hi).
  assert (amount r ≤ reserved_amount x).
  { rewrite Hre. by apply (held_le Reserved p a). }
  unfold checked_sub_i128, checked_add_i128. rewrite !checked_in by range_lia. done.
Qed.
End Theorems.

(** ** Concrete runs *)
Module Runs.
Definition this : Address := addr 0.
Definition boss : Address := addr 1.
Definition ann : Address := addr 2.
Definition bob : Address := addr 3.
Definition cat : Address := addr 4.
Definition dan : Address := addr 5.
Definition eve : Address := addr 6.
Definition fay : Address := addr 7.
Abbreviation Reach := (reachable exec valid this (λ _ _, True) deployed).

Definition at_time (t : Z) : Env := mkEnv t this (λ _, true).
Definition w0 : World unit Store Event := mkWorld tt empty_store [].
(** A committee of a chair and three reviewers, two votes a quorum; one program. *)
Definition setup : list (Env * Call) :=
  [(at_time 10, CInitialize boss); (at_time 11, CAddMember boss ann Chair); (at_time 12, CAddMember boss bob Reviewer);
   (at_time 13, CAddMember boss cat Reviewer); (at_time 14, CAddMember boss dan Reviewer);
   (at_time 15, CSetQuorum boss 2); (at_time 16, CRegister boss 7 1000 600 100 50)].
(** An award to [eve]; a rejection of [fay], appealed. *)
Definition voting : list (Env * Call) :=
  [(at_time 20, COpen ann 7 eve 1 9); (at_time 21, CVote bob 7 eve Award); (at_time 22, CVote bob 7 eve Reject);
   (at_time 23, CVote cat 7 eve Award)].
Definition deciding : list (Env * Call) := [(at_time 30, CFinalize ann 7 eve)].
Definition appealing : list (Env * Call) :=
  [(at_time 31, COpen ann 7 fay 1 9); (at_time 32, CVote bob 7 fay Reject); (at_time 33, CVote cat 7 fay Recuse);
   (at_time 34, CVote dan 7 fay Waitlist); (at_time 35, CFinalize ann 7 fay);
   (at_time 40, CFileAppeal fay 7 5 6); (at_time 41, CVoteAppeal bob 7 fay Award);
   (at_time 42, CVoteAppeal ann 7 fay Waitlist); (at_time 43, CAddMember boss eve Reviewer);
   (at_time 44, CVoteAppeal eve 7 fay Waitlist); (at_time 45, CFinalizeAppeal ann 7 fay)].
Definition w1 : World unit Store Event := run_calls exec (setup ++ voting) w0.
Definition w2 : World unit Store Event := run_calls exec (setup ++ voting ++ deciding) w0.
Definition w3 : World unit Store Event := run_calls exec (setup ++ voting ++ deciding ++ appealing) w0.

Lemma decisions_runs calls :
  Forall (λ ec : Env * Call, self ec.1 = this ∧ valid ec.1 ec.2) calls → Reach (run_calls exec calls w0).
Proof. apply reachable_run. by apply reach_init. Qed.

Ltac valid_calls := repeat constructor; simpl; try done; range_lia.

Lemma decisions_w1_reach : Reach w1.
Proof. apply decisions_runs. valid_calls. Qed.
Lemma decisions_w2_reach : Reach w2.
Proof. apply decisions_runs. valid_calls. Qed.
Lemma decisions_w3_reach : Reach w3.
Proof. apply decisions_runs. valid_calls. Qed.

Definition program7 : DecisionProgramConfig := mkConfig true 1000 600 600 0 100 50.
Definition award_eve : Reservation := mkReservation 7 eve 600 30 130 Reserved.
Definition decision_eve : Decision :=
  mkDecision 7 eve Open Pending 0 1 9 20 0 [mkVote bob Award 21; mkVote cat Award 23].
Definition decision_fay : Decision :=
  mkDecision 7 fay Finalized Waitlisted 2 1 9 31 35 [mkVote bob Reject 32; mkVote cat Recuse 33; mkVote dan Waitlist 34].

Lemma budget_reconciles_witness :
  programs (store w2) !! 7 = Some program7 ∧
  map_sum (held Reserved 7) (reservations (store w2)) = 600.
Proof.
  assert (programs (store w2) !! 7 = Some program7) as Hp by (vm_compute; reflexivity). split; [done|].
  by destruct (budget_reconciles this w2 7 program7 decisions_w2_reach Hp) as (<- & _).
Defined.

(** The first count is a tie, decided as a rejection; the appeal turns it into a waitlisting. *)
Lemma decision_sound_witness :
  ∃ x, appeals (store w3) !! (7, fay) = Some x ∧ plurality (votes decision_fay) = Rejected ∧
    outcome decision_fay = plurality (ap_votes x) ∧ NoDup (voters (votes decision_fay ++ ap_votes x)).
Proof.
  destruct (decision_sound this w3 (7, fay) decision_fay) as (Hnd & _ & _ & Ho);
    [apply decisions_w3_reach|vm_compute; reflexivity|].
  destruct (appeals (store w3) !! (7, fay)) as [x|] eqn:Hx; [|by vm_compute in Hx].
  exists x. split; [done|]. split; [vm_compute; reflexivity|]. simpl in Ho. destruct Ho as (_ & _ & Ho).
  split; [|exact Hnd]. rewrite decide_True in Ho; [exact Ho|]. vm_compute in Hx. injection Hx as <-. reflexivity.
Defined.

(** [bob] tries twice on [eve], and once on [fay] and once on the appeal of [fay]. *)
Lemma one_vote_witness :
  accepted exec (votes_on bob (7, fay)) (voting ++ deciding ++ appealing) (run_calls exec setup w0) ≤ 1 ∧
  accepted exec (votes_on bob (7, fay)) (voting ++ deciding ++ appealing) (run_calls exec setup w0) = 1.
Proof.
  split; [|vm_compute; reflexivity]. apply (one_vote this).
  - apply decisions_runs. valid_calls.
  - valid_calls.
Defined.

Lemma decision_lifecycle_witness :
  ∃ d, decisions (store (run_calls exec deciding w1)) !! (7, eve) = Some d ∧ decision_moves (at_time 30) (store w1) (7, eve) decision_eve d ∧
    status d = Finalized.
Proof.
  destruct (decision_lifecycle this w1 (at_time 30) (CFinalize ann 7 eve) (7, eve) decision_eve) as (d & Hd & Hm).
  - apply decisions_w1_reach.
  - unfold valid. simpl. range_lia.
  - vm_compute. reflexivity.
  - exists d. split; [exact Hd|]. split; [exact Hm|]. vm_compute in Hd. injection Hd as <-. reflexivity.
Defined.

Lemma reservation_lifecycle_witness :
  ∃ r spent earned, reservations (store (invoke (exec (CAccept eve 7)) (at_time 130) w2).1) !! (7, eve) = Some r ∧
    reservation_moves (at_time 130) (store w2) award_eve r spent earned ∧ rs_status r = Claimed.
Proof.
  destruct (reservation_lifecycle this w2 (at_time 130) (CAccept eve 7) 7 eve award_eve) as (r & m & n & Hr & Hm & _).
  - apply decisions_w2_reach.
  - unfold valid. simpl. range_lia.
  - vm_compute. reflexivity.
  - exists r, m, n. split; [exact Hr|]. split; [exact Hm|]. vm_compute in Hr. injection Hr as <-. reflexivity.
Defined.

Lemma finalize_exact_witness :
  (invoke (finalize_decision ann 7 eve) (at_time 30) w1).2 = Returned tt.
Proof.
  rewrite (finalize_exact this w1 (at_time 30) ann 7 eve).
  - vm_compute. reflexivity.
  - apply decisions_w1_reach.
  - unfold valid. simpl. range_lia.
  - left. vm_compute. reflexivity.
  - reflexivity.
Defined.

Lemma accept_exact_witness :
  ∃ x, (invoke (accept_award eve 7) (at_time 130) w2).2 = Returned tt ∧ programs (store w2) !! 7 = Some x.
Proof.
  pose proof (accept_exact this w2 (at_time 130) 7 eve decisions_w2_reach eq_refl) as Ha.
  assert (reservations (store w2) !! (7, eve) = Some award_eve) as Hr by (vm_compute; reflexivity).
  rewrite Hr, decide_True in Ha by done. change (expires_at award_eve <? timestamp (at_time 130)) with false in Ha.
  destruct Ha as (x & Hx & Ha). exists x. split; [rewrite Ha; reflexivity|exact Hx].
Defined.
End Runs.
