(* ===== verification/Versions.v ===== *)
(** * Versions without gaps

    Several contracts publish records of a program under the numbers 1, 2, .. and keep the
    latest number beside them: form schemas, consent terms, rubrics. *)
From S2P Require Import Prelude Machine.

Section Versions.
Context {A : Type} (number : A → Z).
Implicit Types (latest : gmap Z Z) (m : gmap (Z * Z) A).

(** The records of [p] are those numbered from 1 to the latest version. *)
Definition versions_ok latest m : Prop :=
  ∀ p, let top := default 0 (latest !! p) in 0 ≤ top ≤ u32_max ∧ latest !! p ≠ Some 0 ∧
    ∀ n, match m !! (p, n) with Some x => number x = n ∧ 1 ≤ n ≤ top | None => ¬ (1 ≤ n ≤ top) end.

Lemma versions_next latest m p n x :
  versions_ok latest m → n = default 0 (latest !! p) + 1 → n ≤ u32_max → number x = n →
  versions_ok (<[p := n]> latest) (<[(p, n) := x]> m) ∧ m !! (p, n) = None.
Proof.
  intros Hok Hn Hmax Hx. destruct (Hok p) as (Hb & _ & Hp).
  assert (m !! (p, n) = None) as Hnew.
  { specialize (Hp n). destruct (m !! (p, n)); [|done]. lia. }
  split; [|done]. intros q. rewrite lookup_insert. destruct (decide (p = q)) as [<-|Hq]; simpl.
  - split_and!; [lia..|intros [= ?]; lia|]. intros k. rewrite lookup_insert. case_decide as Hk; [injection Hk as <-; split; [done|lia]|].
    assert (k ≠ n) by congruence. specialize (Hp k). destruct (m !! (p, k)); lia.
  - destruct (Hok q) as (Hqb & Hq0 & Hqp). split_and!; [lia..|done|]. intros k.
    rewrite lookup_insert_ne by congruence. apply Hqp.
Qed.

Lemma versions_published latest m p n :
  versions_ok latest m → is_Some (m !! (p, n)) ↔ 1 ≤ n ≤ default 0 (latest !! p).
Proof.
  intros Hok. destruct (Hok p) as (_ & _ & Hp). specialize (Hp n). destruct (m !! (p, n)) as [x|].
  - destruct Hp. split; [done|by eexists].
  - split; [by intros [? ?]|done].
Qed.

Lemma versions_empty : versions_ok ∅ ∅.
Proof. intros p. split_and!; [done..|]. intros n. rewrite !lookup_empty. simpl. lia. Qed.

Lemma versions_latest latest m p n : versions_ok latest m → latest !! p = Some n → is_Some (m !! (p, n)).
Proof.
  intros Hok Hn. apply (versions_published latest m p n Hok). destruct (Hok p) as (Hb & H0 & _).
  rewrite Hn in *. simpl in *. assert (n ≠ 0) by congruence. lia.
Qed.
End Versions.
