(* ===== verification/Reviews.v ===== *)
(** * Reviews of applications ([scholarship-reviews/src/lib.rs])

    Programs publish weighted rubrics in numbered versions; each reviewer scores an applicant
    once against the latest one.  The aggregate of an applicant is the floor of the mean of the
    weighted totals, refused while reviews are too few or rest on different rubrics; two
    applicants are compared by aggregate, then by their earliest review. *)
From S2P Require Import Prelude Machine Host.

Definition CONTRACT_VERSION : Z := 1.
Definition BPS_DENOMINATOR : Z := 10000.
Definition MAX_CRITERIA : Z := 12.
Definition MAX_CRITERION_SCORE : Z := 1000.
Definition MAX_REVIEWERS : Z := 32.

Inductive ContractError :=
| NotInitialized | AlreadyInitialized | NotAdmin | ProgramNotFound | ProgramAlreadyExists | ProgramInactive
| InvalidReviewConfig | InvalidRubric | NoRubricPublished | RubricNotFound | ReviewAlreadyExists
| ReviewerCapacityExceeded | InvalidScores | InsufficientReviews | ReviewNotFound | VersionOverflow
| ArithmeticOverflow | MixedRubricVersions | VersionConflict.

Record Criterion := mkCriterion { weight_bps : Z; max_score : Z }.
Record Rubric := mkRubric { rb_version : Z; criteria : list Criterion; published_at : Z }.
Record ProgramConfig := mkConfig { pc_version : Z; active : bool; min_reviews : Z; max_reviews : Z }.
Record Review := mkReview {
  rv_program_id : BytesN32; rv_applicant : Address; rv_reviewer : Address; rubric_version : Z; scores : list Z;
  submitted_at : Z
}.
Inductive CompareOutcome := ABetter | BBetter | Tie.

Inductive Event :=
| REVPROG (p : BytesN32)
| REVACT (p : BytesN32) (b : bool)
| RUBPUB (p : BytesN32) (n : Z)
| REVIEW (p : BytesN32) (a r : Address) (total : Z).

Record Store := mkStore {
  admin : option Address;
  configs : gmap Z ProgramConfig;
  rubric_versions : gmap Z Z;
  rubrics : gmap (Z * Z) Rubric;
  reviews : gmap (Z * Address * Address) Review;
  reviewers : gmap (Z * Address) (list Address)
}.

Definition put_admin (a : Address) (st : Store) : Store :=
  mkStore (Some a) (configs st) (rubric_versions st) (rubrics st) (reviews st) (reviewers st).
Definition put_config (p : BytesN32) (c : ProgramConfig) (st : Store) : Store :=
  mkStore (admin st) (<[p := c]> (configs st)) (rubric_versions st) (rubrics st) (reviews st) (reviewers st).
Definition put_rubric_version (p : BytesN32) (n : Z) (st : Store) : Store :=
  mkStore (admin st) (configs st) (<[p := n]> (rubric_versions st)) (rubrics st) (reviews st) (reviewers st).
Definition put_rubric (p : BytesN32) (n : Z) (r : Rubric) (st : Store) : Store :=
  mkStore (admin st) (configs st) (rubric_versions st) (<[(p, n) := r]> (rubrics st)) (reviews st) (reviewers st).
Definition put_review (k : Z * Address * Address) (x : Review) (st : Store) : Store :=
  mkStore (admin st) (configs st) (rubric_versions st) (rubrics st) (<[k := x]> (reviews st)) (reviewers st).
Definition put_reviewers (k : Z * Address) (l : list Address) (st : Store) : Store :=
  mkStore (admin st) (configs st) (rubric_versions st) (rubrics st) (reviews st) (<[k := l]> (reviewers st)).

(** [unwrap_or(Vec::new(..))] *)
Definition reviewers_of (p : BytesN32) (a : Address) (st : Store) : list Address := default [] (reviewers st !! (p, a)).
(** [len()] of a host vector. *)
Definition len {A} (l : list A) : Z := Z.of_nat (length l).

Definition with_active (n : Z) (b : bool) (c : ProgramConfig) : ProgramConfig :=
  mkConfig n b (min_reviews c) (max_reviews c).

(** The walk of [validate_rubric]: the sum of the weights. *)
Fixpoint add_weights (l : list Criterion) (total_weight : Z) : result ContractError Z :=
  match l with
  | [] => Ok total_weight
  | c :: l =>
      if (max_score c =? 0) || (MAX_CRITERION_SCORE <? max_score c) then Err InvalidRubric
      else let? total_weight := option_ok_or (checked_add_u64 total_weight (weight_bps c)) ArithmeticOverflow in
        add_weights l total_weight
  end.

Definition validate_rubric (l : list Criterion) : result ContractError unit :=
  if (len l =? 0) || (MAX_CRITERIA <? len l) then Err InvalidRubric
  else let? total_weight := add_weights l 0 in
    if negb (total_weight =? BPS_DENOMINATOR) then Err InvalidRubric else Ok tt.

Section Contract.
Context {L : Type}.
Abbreviation M := (Contract L Store Event ContractError).

Definition initialize (a : Address) : M unit :=
  o <- load admin ;;
  reject_if (bool_decide (is_Some o)) AlreadyInitialized ;;;
  require_auth a ;;;
  save (put_admin a).

Definition require_admin (caller : Address) : M unit := require_admin_of admin NotInitialized NotAdmin caller.

Definition register_program (caller : Address) (p : BytesN32) (lo hi : Z) : M unit :=
  require_admin caller ;;;
  reject_if ((lo =? 0) || (hi <? lo) || (MAX_REVIEWERS <? hi)) InvalidReviewConfig ;;;
  o <- load (λ st, configs st !! p) ;;
  reject_if (bool_decide (is_Some o)) ProgramAlreadyExists ;;;
  save (put_config p (mkConfig 1 true lo hi)) ;;;
  publish (REVPROG p).

Definition get_program_config (p : BytesN32) : M ProgramConfig :=
  o <- load (λ st, configs st !! p) ;; ok_or o ProgramNotFound.

Definition set_program_active (caller : Address) (p : BytesN32) (expected : Z) (b : bool) : M Z :=
  require_admin caller ;;;
  c <- get_program_config p ;;
  reject_if (negb (pc_version c =? expected)) VersionConflict ;;;
  n <- ok_or (checked_add_u32 (pc_version c) 1) VersionOverflow ;;
  save (put_config p (with_active n b c)) ;;;
  publish (REVACT p b) ;;;
  ret n.

Definition publish_rubric (caller : Address) (p : BytesN32) (expected : Z) (l : list Criterion) : M Z :=
  require_admin caller ;;;
  o <- load (λ st, configs st !! p) ;;
  reject_if (bool_decide (o = None)) ProgramNotFound ;;;
  lift (validate_rubric l) ;;;
  current <- load (λ st, default 0 (rubric_versions st !! p)) ;;
  reject_if (negb (current =? expected)) VersionConflict ;;;
  n <- ok_or (checked_add_u32 current 1) VersionOverflow ;;
  t <- now ;;
  save (put_rubric p n (mkRubric n l t)) ;;;
  save (put_rubric_version p n) ;;;
  publish (RUBPUB p n) ;;;
  ret n.

Definition get_latest_rubric_version (p : BytesN32) : M Z :=
  o <- load (λ st, rubric_versions st !! p) ;; ok_or o NoRubricPublished.
Definition get_rubric (p : BytesN32) (n : Z) : M Rubric :=
  o <- load (λ st, rubrics st !! (p, n)) ;; ok_or o RubricNotFound.
Definition latest_rubric (p : BytesN32) : M Rubric :=
  n <- get_latest_rubric_version p ;; get_rubric p n.

(** The walk of [weighted_total] over the criteria and the scores, which are equally many. *)
Fixpoint add_weighted (cs : list Criterion) (ss : list Z) (acc : Z) : M Z :=
  match cs, ss with
  | [], _ => ret acc
  | _ :: _, [] => fail InvalidScores
  | c :: cs, s :: ss =>
      reject_if (max_score c <? s) InvalidScores ;;;
      scaled <- or_trap (checked_mul_u64 s BPS_DENOMINATOR) ;;
      normalized <- or_trap (checked_div_u64 scaled (max_score c)) ;;
      weighted <- ok_or (checked_mul_u64 normalized (weight_bps c)) ArithmeticOverflow ;;
      acc <- ok_or (checked_add_u64 acc weighted) ArithmeticOverflow ;;
      add_weighted cs ss acc
  end.

Definition weighted_total (r : Rubric) (ss : list Z) : M Z :=
  reject_if (negb (len ss =? len (criteria r))) InvalidScores ;;;
  acc <- add_weighted (criteria r) ss 0 ;;
  q <- or_trap (checked_div_u64 acc BPS_DENOMINATOR) ;;
  ret (as_u32 q).

Definition submit_review (reviewer : Address) (p : BytesN32) (a : Address) (ss : list Z) : M Z :=
  require_auth reviewer ;;;
  c <- get_program_config p ;;
  reject_if (negb (active c)) ProgramInactive ;;;
  r <- latest_rubric p ;;
  o <- load (λ st, reviews st !! (p, a, reviewer)) ;;
  reject_if (bool_decide (is_Some o)) ReviewAlreadyExists ;;;
  l <- load (reviewers_of p a) ;;
  reject_if (max_reviews c <=? len l) ReviewerCapacityExceeded ;;;
  total <- weighted_total r ss ;;
  t <- now ;;
  save (put_review (p, a, reviewer) (mkReview p a reviewer (rb_version r) ss t)) ;;;
  save (put_reviewers (p, a) (l ++ [reviewer])) ;;;
  publish (REVIEW p a reviewer total) ;;;
  ret total.

Definition get_review (p : BytesN32) (a r : Address) : M Review :=
  o <- load (λ st, reviews st !! (p, a, r)) ;; ok_or o ReviewNotFound.
Definition has_review (p : BytesN32) (a r : Address) : M bool :=
  load (λ st, bool_decide (is_Some (reviews st !! (p, a, r)))).
Definition get_reviewer_count (p : BytesN32) (a : Address) : M Z := load (λ st, len (reviewers_of p a st)).

Definition aggregate_score (p : BytesN32) (a : Address) : M Z :=
  c <- get_program_config p ;;
  l <- load (reviewers_of p a) ;;
  reject_if (len l <? min_reviews c) InsufficientReviews ;;;
  first <- ok_or (head l) ReviewNotFound ;;
  x <- get_review p a first ;;
  r <- get_rubric p (rubric_version x) ;;
  sum <- for_in l 0 (λ reviewer sum,
    y <- get_review p a reviewer ;;
    reject_if (negb (rubric_version y =? rubric_version x)) MixedRubricVersions ;;;
    total <- weighted_total r (scores y) ;;
    ok_or (checked_add_u64 sum total) ArithmeticOverflow) ;;
  q <- or_trap (checked_div_u64 sum (len l)) ;;
  ret (as_u32 q).

(** The loop body of [first_review_time]. *)
Definition earlier (t : Z) (earliest : option Z) : option Z :=
  match earliest with
  | None => Some t
  | Some current => if t <? current then Some t else Some current
  end.

Definition first_review_time (p : BytesN32) (a : Address) : M Z :=
  l <- load (reviewers_of p a) ;;
  earliest <- for_in l None (λ reviewer earliest,
    y <- get_review p a reviewer ;;
    ret (earlier (submitted_at y) earliest)) ;;
  ok_or earliest InsufficientReviews.

Definition compare_applicants (p : BytesN32) (a b : Address) : M CompareOutcome :=
  score_a <- aggregate_score p a ;;
  score_b <- aggregate_score p b ;;
  if score_b <? score_a then ret ABetter
  else if score_a <? score_b then ret BBetter
  else
    time_a <- first_review_time p a ;;
    time_b <- first_review_time p b ;;
    if time_a <? time_b then ret ABetter
    else if time_b <? time_a then ret BBetter
    else ret Tie.

Definition version : M Z := ret CONTRACT_VERSION.

(** ** Calls *)

Inductive Call :=
| CInitialize (a : Address)
| CProgram (caller : Address) (p : BytesN32) (lo hi : Z)
| CActive (caller : Address) (p : BytesN32) (expected : Z) (b : bool)
| CRubric (caller : Address) (p : BytesN32) (expected : Z) (l : list Criterion)
| CReview (reviewer : Address) (p : BytesN32) (a : Address) (ss : list Z).

Definition exec (c : Call) : M unit :=
  match c with
  | CInitialize a => initialize a
  | CProgram c p lo hi => register_program c p lo hi
  | CActive c p n b => ignore (set_program_active c p n b)
  | CRubric c p n l => ignore (publish_rubric c p n l)
  | CReview r p a ss => ignore (submit_review r p a ss)
  end.
End Contract.

(** The declared widths of the arguments. *)
Definition valid (e : Env) (c : Call) : Prop :=
  0 ≤ timestamp e ≤ u64_max ∧
  match c with
  | CInitialize _ => True
  | CProgram _ _ lo hi => 0 ≤ lo ≤ u32_max ∧ 0 ≤ hi ≤ u32_max
  | CActive _ _ n _ => 0 ≤ n ≤ u32_max
  | CRubric _ _ n l =>
      0 ≤ n ≤ u32_max ∧ Forall (λ c, 0 ≤ weight_bps c ≤ u32_max ∧ 0 ≤ max_score c ≤ u32_max) l
  | CReview _ _ _ ss => Forall (λ s, 0 ≤ s ≤ u32_max) ss
  end.
