(* ===== verification/ReviewsTheorems.v ===== *)
(** * Reviews: invariant and properties

    The weighted total of a review against its formula, what each call that returns has checked
    and does, and the invariant: rubrics are valid and numbered without gaps, the index of an
    application lists exactly its reviewers, and every review fits the rubric it was scored
    against.

    Weighted totals and aggregates against their formulas, without overflow; aggregates that
    only further reviews of the same application change; the comparison of applicants as a
    total preorder; one final review per reviewer, scored against a published rubric. *)
From S2P Require Import Prelude Machine Host Versions Reviews.

(** ** Rubrics *)

Definition criterion_ok (c : Criterion) : Prop := 0 ≤ weight_bps c ≤ u32_max ∧ 1 ≤ max_score c ≤ 1000.
Definition rubric_ok (l : list Criterion) : Prop :=
  1 ≤ len l ≤ 12 ∧ Forall criterion_ok l ∧ list_sum weight_bps l = 10000.

#[export] Instance criterion_ok_dec c : Decision (criterion_ok c).
Proof. unfold criterion_ok. apply _. Defined.
#[export] Instance rubric_ok_dec l : Decision (rubric_ok l).
Proof. unfold rubric_ok. apply _. Defined.

Definition u32_criterion (c : Criterion) : Prop := 0 ≤ weight_bps c ≤ u32_max ∧ 0 ≤ max_score c ≤ u32_max.

Lemma add_weights_exact l n :
  Forall u32_criterion l → 0 ≤ n → n + len l * u32_max ≤ u64_max →
  add_weights l n = if decide (Forall criterion_ok l) then Ok (n + list_sum weight_bps l) else Err InvalidRubric.
Proof.
  intros Hl. revert n. induction Hl as [|c l Hc Hl IH]; intros n Hn Hmax.
  { rewrite decide_True by constructor. by rewrite list_sum_nil, Z.add_0_r. }
  cbn [add_weights]. rewrite list_sum_cons. destruct Hc as [Hw Hm]. unfold len in *. rewrite length_cons, Nat2Z.inj_succ in Hmax. unfold MAX_CRITERION_SCORE.
  destruct ((max_score c =? 0) || (1000 <? max_score c)) eqn:Hbad.
  - rewrite decide_False; [done|]. intros [[_ Hok] _]%Forall_cons. apply orb_true_iff in Hbad as [?|?]; bool_prop; lia.
  - bool_prop. unfold checked_add_u64. rewrite checked_in by range_lia. cbn [option_ok_or result_bind]. rewrite IH by lia.
    assert (criterion_ok c) as Hok by (split; [done|lia]).
    destruct (decide (Forall criterion_ok l)) as [Ha|Ha].
    + rewrite decide_True by by constructor. f_equal. lia.
    + rewrite decide_False; [done|]. by intros [_ ?]%Forall_cons.
Qed.

(** The validation is exactly the bounds; the sum of the weights does not overflow. *)
Lemma validate_rubric_exact l :
  Forall u32_criterion l → validate_rubric l = if decide (rubric_ok l) then Ok tt else Err InvalidRubric.
Proof.
  intros Hl. unfold validate_rubric, MAX_CRITERIA, BPS_DENOMINATOR.
  destruct ((len l =? 0) || (12 <? len l)) eqn:Hlen.
  - rewrite decide_False; [done|]. intros [Hb _]. apply orb_true_iff in Hlen as [?|?]; bool_prop; lia.
  - bool_prop. assert (1 ≤ len l ≤ 12) by (unfold len in *; lia).
    rewrite add_weights_exact by (done || unfold u32_max, u64_max; nia).
    rewrite Z.add_0_l.
    destruct (decide (Forall criterion_ok l)) as [Ha|Ha]; cbn [result_bind].
    + destruct (Z.eqb_spec (list_sum weight_bps l) 10000); simpl;
        [rewrite decide_True; [done|by unfold rubric_ok]|rewrite decide_False; [done|by intros (_ & _ & ?)]].
    + rewrite decide_False; [done|]. by intros (_ & ? & _).
Qed.

(** ** Weighted totals *)

(** The scores answer the criteria one by one, each within its maximum. *)
Definition fits (cs : list Criterion) (ss : list Z) : Prop := Forall2 (λ c s, 0 ≤ s ≤ max_score c) cs ss.

#[export] Instance fits_dec cs ss : Decision (fits cs ss).
Proof. unfold fits. apply _. Defined.

Definition weighted (x : Criterion * Z) : Z := x.2 * 10000 / max_score x.1 * weight_bps x.1.
Definition weigh (cs : list Criterion) (ss : list Z) : Z := list_sum weighted (zip cs ss).
Definition total_of (r : Rubric) (ss : list Z) : Z := weigh (criteria r) ss / 10000.

Lemma normalized_bounds c s : criterion_ok c → 0 ≤ s ≤ max_score c → 0 ≤ s * 10000 / max_score c ≤ 10000.
Proof. intros [_ Hm] Hs. split; [apply Z.div_pos; lia|]. apply Z.div_le_upper_bound; lia. Qed.

Lemma weigh_bounds cs ss :
  Forall criterion_ok cs → fits cs ss → 0 ≤ weigh cs ss ≤ 10000 * list_sum weight_bps cs.
Proof.
  intros Hok Hf. induction Hf as [|c s cs ss Hs Hf IH]; [done|]. apply Forall_cons in Hok as [Hc Hok].
  specialize (IH Hok). unfold weigh in *. simpl. unfold weighted at 1 3. simpl.
  pose proof (normalized_bounds c s Hc Hs). destruct Hc as [Hw _]. nia.
Qed.

Lemma total_bounds r ss : rubric_ok (criteria r) → fits (criteria r) ss → 0 ≤ total_of r ss ≤ 10000.
Proof.
  intros (_ & Hok & Hsum) Hf. pose proof (weigh_bounds _ _ Hok Hf) as Hw. rewrite Hsum in Hw. unfold total_of.
  split; [apply Z.div_pos; lia|apply Z.div_le_upper_bound; lia].
Qed.

(** A better score never lowers the total. *)
Lemma weigh_mono cs ss ss' :
  Forall criterion_ok cs → fits cs ss → fits cs ss' → Forall2 Z.le ss ss' → weigh cs ss ≤ weigh cs ss'.
Proof.
  intros Hok Hf. revert ss'. induction Hf as [|c s cs ss Hs Hf IH]; intros ss' Hf' Hle; [by inversion Hf'|].
  apply Forall_cons in Hok as [Hc Hok]. inversion Hf' as [|? s' ? ss1 Hs' Hf1]; subst.
  apply Forall2_cons in Hle as [Hle1 Hle]. specialize (IH Hok ss1 Hf1 Hle). unfold weigh in *. simpl.
  unfold weighted at 1 3. simpl. destruct Hc as [Hw Hm].
  assert (s * 10000 / max_score c ≤ s' * 10000 / max_score c) by (apply Z.div_le_mono; lia). nia.
Qed.

Lemma weigh_full cs : Forall criterion_ok cs → weigh cs (max_score <$> cs) = 10000 * list_sum weight_bps cs.
Proof.
  induction 1 as [|c cs [_ Hm] _ IH]; [done|]. unfold weigh in *. simpl. unfold weighted at 1. simpl.
  rewrite (Z.mul_comm (max_score c)), Z.div_mul by lia.
  change (list_fmap _ _ max_score cs) with (max_score <$> cs). lia.
Qed.

Lemma fits_full cs : Forall criterion_ok cs → fits cs (max_score <$> cs).
Proof. induction 1 as [|c cs [_ Hm] _ IH]; constructor; [lia|done]. Qed.

Lemma checked_mul_u64_in a b : 0 ≤ a * b ≤ u64_max → checked_mul_u64 a b = Some (a * b).
Proof. apply checked_in. Qed.

Section Totals.
Context {L : Type}.
Abbreviation W := (World L Store Event).
Abbreviation M := (Contract L Store Event ContractError).
Implicit Types (w : W).

Lemma add_weighted_exact cs ss n e w :
  Forall criterion_ok cs → length ss = length cs → Forall (λ s, 0 ≤ s ≤ u32_max) ss → 0 ≤ n →
  n + 10000 * list_sum weight_bps cs ≤ u64_max →
  (add_weighted cs ss n : M Z) e w = if decide (fits cs ss) then Done w (n + weigh cs ss) else Failed w InvalidScores.
Proof.
  intros Hok Hlen. revert ss n Hlen. induction Hok as [|c cs Hc Hok IH]; intros ss n Hlen Hss Hn Hmax.
  { destruct ss; [|done]. rewrite decide_True by constructor. unfold weigh. simpl. by rewrite Z.add_0_r. }
  destruct ss as [|s ss]; [done|]. apply Forall_cons in Hss as [Hs Hss]. simpl in Hmax. cbn [add_weighted].
  assert (0 ≤ list_sum weight_bps cs) as Hpos.
  { apply list_sum_nonneg. eapply Forall_impl; [exact Hok|]. intros ? [? _]. lia. }
  unfold bind at 1, reject_if. destruct (Z.ltb_spec (max_score c) s) as [Hbad|Hgood].
  { rewrite decide_False; [done|]. unfold fits. rewrite Forall2_cons. lia. }
  cbv [ret]. pose proof (normalized_bounds c s Hc ltac:(lia)) as Hnb. destruct Hc as [Hw Hm].
  unfold BPS_DENOMINATOR. rewrite checked_mul_u64_in by range_lia. cbv [bind or_trap ret].
  rewrite checked_div_u64_Some by lia. unfold ok_or. rewrite checked_mul_u64_in by (unfold u64_max in *; nia).
  cbv [ret]. unfold checked_add_u64. rewrite checked_in by nia. cbv [ret].
  rewrite IH by (done || nia || (simpl in Hlen; lia)). unfold weigh. simpl. unfold weighted at 2. simpl.
  destruct (decide (fits cs ss)) as [Hf|Hf].
  - rewrite decide_True by (constructor; [lia|done]). f_equal. unfold weigh. lia.
  - rewrite decide_False; [done|]. by intros [_ ?]%Forall2_cons.
Qed.

(** With a valid rubric the weighted total never overflows or traps: it is the formula, or the
    scores do not fit. *)
Lemma weighted_total_run r ss e w :
  rubric_ok (criteria r) → Forall (λ s, 0 ≤ s ≤ u32_max) ss →
  (weighted_total r ss : M Z) e w =
    if decide (fits (criteria r) ss) then Done w (total_of r ss) else Failed w InvalidScores.
Proof.
  intros Hr Hss. pose proof Hr as (_ & Hok & Hsum). unfold weighted_total. unfold bind at 1, reject_if.
  destruct (Z.eqb_spec (len ss) (len (criteria r))) as [Hlen|Hlen]; simpl.
  2: { rewrite decide_False; [done|]. intros Hf%Forall2_length. unfold len in Hlen. lia. }
  cbv [bind]. rewrite add_weighted_exact by (done || range_lia || (unfold len in Hlen; lia)).
  destruct (decide (fits (criteria r) ss)) as [Hf|Hf]; [|done]. cbn beta iota. unfold or_trap, BPS_DENOMINATOR, ret.
  pose proof (weigh_bounds _ _ Hok Hf). rewrite Z.add_0_l, quot_floor by lia. f_equal.
  apply as_u32_small. pose proof (total_bounds r ss Hr Hf). unfold total_of in *. range_lia.
Qed.
End Totals.

(** ** What the calls do *)

Inductive effect (e : Env) (st : Store) : Call → Store → Prop :=
| E_initialize a : admin st = None → effect e st (CInitialize a) (put_admin a st)
| E_program c p lo hi :
    admin st = Some c → authorized e c = true → 1 ≤ lo ≤ hi → hi ≤ 32 → configs st !! p = None →
    effect e st (CProgram c p lo hi) (put_config p (mkConfig 1 true lo hi) st)
| E_active c p x b :
    admin st = Some c → authorized e c = true → configs st !! p = Some x → pc_version x + 1 ≤ u32_max →
    effect e st (CActive c p (pc_version x) b) (put_config p (with_active (pc_version x + 1) b x) st)
| E_rubric c p n l :
    admin st = Some c → authorized e c = true → is_Some (configs st !! p) → rubric_ok l →
    n = default 0 (rubric_versions st !! p) → n + 1 ≤ u32_max →
    effect e st (CRubric c p n l)
      (put_rubric_version p (n + 1) (put_rubric p (n + 1) (mkRubric (n + 1) l (timestamp e)) st))
| E_review r p a ss x n rb :
    authorized e r = true → configs st !! p = Some x → active x = true → rubric_versions st !! p = Some n →
    rubrics st !! (p, n) = Some rb → fits (criteria rb) ss → reviews st !! (p, a, r) = None →
    len (reviewers_of p a st) < max_reviews x →
    effect e st (CReview r p a ss)
      (put_reviewers (p, a) (reviewers_of p a st ++ [r])
        (put_review (p, a, r) (mkReview p a r (rb_version rb) ss (timestamp e)) st)).

(** ** The invariant *)

Record inv (st : Store) : Prop := {
  inv_configs p c :
    configs st !! p = Some c → 1 ≤ pc_version c ≤ u32_max ∧ 1 ≤ min_reviews c ≤ max_reviews c ∧ max_reviews c ≤ 32;
  inv_versions : versions_ok rb_version (rubric_versions st) (rubrics st);
  inv_rubrics k r : rubrics st !! k = Some r → rubric_ok (criteria r);
  inv_reviews p a r x :
    reviews st !! (p, a, r) = Some x →
    rv_program_id x = p ∧ rv_applicant x = a ∧ rv_reviewer x = r ∧ r ∈ reviewers_of p a st ∧
    ∃ rb, rubrics st !! (p, rubric_version x) = Some rb ∧ fits (criteria rb) (scores x);
  inv_index p a :
    NoDup (reviewers_of p a st) ∧ (∀ r, r ∈ reviewers_of p a st → is_Some (reviews st !! (p, a, r))) ∧
    (reviewers_of p a st ≠ [] → ∃ c, configs st !! p = Some c ∧ len (reviewers_of p a st) ≤ max_reviews c)
}.

Section Effects.
Context {L : Type}.
Abbreviation W := (World L Store Event).
Abbreviation M := (Contract L Store Event ContractError).
Implicit Types (w : W).

Ltac reviews_inv :=
  unfold require_admin, get_program_config, latest_rubric, get_latest_rubric_version, get_rubric in *;
  run_inv; bool_prop; checked_prop;
  repeat match goal with
  | H : ¬ is_Some _ |- _ => apply eq_None_not_Some in H
  | H : _ ≠ None |- _ => apply not_eq_None_Some in H
  end.

Lemma reviews_effect c e w w' u :
  valid e c → inv (store w) → (exec c : M unit) e w = Done w' u → ledger w' = ledger w ∧ effect e (store w) c (store w').
Proof.
  intros [Ht Hv] Hi Hrun. destruct c as [a|c p lo hi|c p n b|c p n l|r p a ss]; simpl in Hrun, Hv;
    try (apply ignore_done in Hrun as [? Hrun]).
  - unfold initialize in Hrun. reviews_inv. split; [done|]. by apply E_initialize.
  - unfold register_program, MAX_REVIEWERS in Hrun. reviews_inv. split; [done|]. apply E_program; try done; lia.
  - unfold set_program_active in Hrun. reviews_inv. subst. split; [done|]. apply E_active; try done; lia.
  - unfold publish_rubric in Hrun. reviews_inv. subst. split; [done|].
    match goal with H : validate_rubric _ = _ |- _ => rewrite validate_rubric_exact in H by apply Hv end.
    case_decide; [|done]. apply E_rubric; try done. lia.
  - unfold submit_review in Hrun. reviews_inv.
    match goal with H : weighted_total ?rb _ _ _ = _ |- _ =>
      rewrite weighted_total_run in H by (try done; by eapply inv_rubrics) end.
    case_decide; [|done]. simplify_eq. split; [done|]. by eapply E_review.
Qed.

Lemma reviewers_put st k l p a :
  reviewers_of p a (put_reviewers k l st) = if decide (k = (p, a)) then l else reviewers_of p a st.
Proof. unfold reviewers_of. simpl. rewrite lookup_insert. by case_decide. Qed.

Lemma reviews_effect_inv e st c st' : inv st → effect e st c st' → inv st'.
Proof.
  intros Hi Heff. destruct Heff as [a Ha|c p lo hi _ _ Hlo Hhi Hn|c p x b _ _ Hx Hmax|c p n l _ _ Hc Hl Hn Hmax
    |r p a ss x n rb _ Hx _ Hv Hrb Hf Hnew Hlen].
  - by destruct Hi.
  - destruct Hi as [H1 H2 H3 H4 H5]. split; try done; simpl.
    + intros q c'. rewrite lookup_insert. case_decide; [|apply H1]. intros [= <-]. simpl. range_lia.
    + intros q a. destruct (H5 q a) as (Hnd & Hs & Hne). split_and!; [done..|]. intros Hq.
      destruct (Hne Hq) as (c0 & Hc0 & Hl). exists c0. rewrite lookup_insert_ne by congruence. done.
  - destruct Hi as [H1 H2 H3 H4 H5]. destruct (H1 _ _ Hx) as (Hb & Hm). split; try done; simpl.
    + intros q c'. rewrite lookup_insert. case_decide; [|apply H1]. intros [= <-]. simpl. lia.
    + intros q a. destruct (H5 q a) as (Hnd & Hs & Hne). split_and!; [done..|]. intros Hq.
      destruct (Hne Hq) as (c0 & Hc0 & Hl). rewrite lookup_insert. case_decide; [|by exists c0]. simplify_eq.
      eexists. split; [done|]. exact Hl.
  - destruct Hi as [H1 H2 H3 H4 H5].
    destruct (versions_next rb_version _ _ p (n + 1) (mkRubric (n + 1) l (timestamp e)) H2) as [Hok Hnew];
      [by subst n|done|done|].
    split; try done; simpl.
    + intros k r. rewrite lookup_insert. case_decide; [by intros [= <-]|apply H3].
    + intros q a r x Hx. destruct (H4 _ _ _ _ Hx) as (? & ? & ? & ? & rb & Hrb & Hf). split_and!; [done..|].
      exists rb. rewrite lookup_insert_ne by congruence. done.
  - destruct Hi as [H1 H2 H3 H4 H5]. destruct (H5 p a) as (Hnd & Hs & Hne).
    assert (r ∉ reviewers_of p a st) as Hr.
    { intros Hr. destruct (Hs r Hr). congruence. }
    assert (rb_version rb = n) as Hrv.
    { destruct (H2 p) as (_ & _ & Hp). specialize (Hp n). rewrite Hrb in Hp. by destruct Hp. }
    split; try done.
    + intros q b s y. simpl. rewrite lookup_insert, reviewers_put. case_decide as Hk.
      * injection Hk as <- <- <-. intros [= <-]. rewrite decide_True by done. split_and!; [done..|set_solver|].
        exists rb. simpl. by rewrite Hrv.
      * intros Hy. destruct (H4 _ _ _ _ Hy) as (? & ? & ? & Hin & Hex). split_and!; [done..| |done].
        case_decide as Hpa; [injection Hpa as <- <-; set_solver|done].
    + intros q b. rewrite reviewers_put. simpl. case_decide as Hk.
      * injection Hk as <- <-. split_and!.
        -- apply NoDup_app. split_and!; [done| |apply NoDup_singleton]. intros s Hin ->%list_elem_of_singleton. done.
        -- intros s Hin. rewrite lookup_insert. case_decide; [done|]. apply elem_of_app in Hin as [Hin| ->%list_elem_of_singleton]; [auto|done].
        -- intros _. exists x. split; [done|]. unfold len in *. rewrite length_app. simpl. lia.
      * destruct (H5 q b) as (Hnd' & Hs' & Hne'). split_and!; [done| |done]. intros s Hin. rewrite lookup_insert.
        case_decide; [done|auto].
Qed.

Definition empty_store : Store := mkStore None ∅ ∅ ∅ ∅ ∅.
Definition deployed (w : W) : Prop := store w = empty_store.
Abbreviation Reach this := (reachable exec valid this (λ _ _, True) deployed).

Lemma reviews_empty_inv : inv empty_store.
Proof. split; try done; [apply versions_empty|]. intros p a. split_and!; [constructor|by intros r ?%elem_of_nil|done]. Qed.

Lemma reviews_reachable this w : Reach this w → inv (store w).
Proof.
  apply (reachable_inv _ _ _ _ _ (λ w, inv (store w))).
  - intros w0 ->. apply reviews_empty_inv.
  - intros c e w0 w1 u _ Hv Hi Hrun. destruct (reviews_effect c e w0 w1 u Hv Hi Hrun) as [_ Heff].
    by eapply reviews_effect_inv.
  - done.
Qed.
End Effects.

(** ** References *)

(** The reviews of an application, in the order of submission. *)
Definition ratings (st : Store) (p : Z) (a : Address) : list Review :=
  omap (λ r, reviews st !! (p, a, r)) (reviewers_of p a st).

(** The mean of the totals under the rubric all reviews were scored against. *)
Definition aggregate_of (st : Store) (p : Z) (a : Address) : result ContractError Z :=
  match configs st !! p, ratings st p a with
  | None, _ => Err ProgramNotFound
  | Some c, xs =>
      if len xs <? min_reviews c then Err InsufficientReviews
      else match xs with
      | [] => Err ReviewNotFound
      | x :: _ =>
          if decide (Forall (λ y, rubric_version y = rubric_version x) xs) then
            match rubrics st !! (p, rubric_version x) with
            | Some rb => Ok (list_sum (λ y, total_of rb (scores y)) xs / len xs)
            | None => Err RubricNotFound
            end
          else Err MixedRubricVersions
      end
  end.

Definition answer {A} (r : result ContractError A) : @response ContractError A :=
  match r with Ok x => Returned x | Err err => Errored err end.

Definition first_time (xs : list Review) : option Z := foldl (λ o y, earlier (submitted_at y) o) None xs.

Lemma omap_total {A B} (f : A → option B) l :
  (∀ x, x ∈ l → is_Some (f x)) → Forall2 (λ x y, f x = Some y) l (omap f l).
Proof.
  induction l as [|x l IH]; intros Hl; [constructor|]. destruct (Hl x) as [y Hy]; [by left|].
  cbn [omap list_omap]. rewrite Hy. constructor; [done|]. apply IH. intros z Hz. apply Hl. by right.
Qed.

Lemma ratings_all st p a :
  inv st → Forall2 (λ r y, reviews st !! (p, a, r) = Some y) (reviewers_of p a st) (ratings st p a).
Proof. intros Hi. apply (omap_total (λ r, reviews st !! (p, a, r))). apply (inv_index _ Hi). Qed.

Lemma ratings_len st p a : inv st → len (ratings st p a) = len (reviewers_of p a st).
Proof. intros Hi. unfold len. by rewrite (Forall2_length _ _ _ (ratings_all st p a Hi)). Qed.

Lemma ratings_elem st p a y :
  inv st → y ∈ ratings st p a ↔ ∃ r, reviews st !! (p, a, r) = Some y.
Proof.
  intros Hi. unfold ratings. rewrite list_elem_of_omap. split; [naive_solver|]. intros [r Hr]. exists r. split; [|done].
  apply (inv_reviews _ Hi _ _ _ _ Hr).
Qed.

Lemma fits_u32 cs ss : Forall criterion_ok cs → fits cs ss → Forall (λ s, 0 ≤ s ≤ u32_max) ss.
Proof.
  intros Hok Hf. induction Hf as [|c s cs ss Hs Hf IH]; constructor; apply Forall_cons in Hok as [[_ ?] ?]; [range_lia|auto].
Qed.

(** The rubric of a review. *)
Lemma rating_rubric st p a y :
  inv st → y ∈ ratings st p a →
  ∃ rb, rubrics st !! (p, rubric_version y) = Some rb ∧ rubric_ok (criteria rb) ∧ fits (criteria rb) (scores y).
Proof.
  intros Hi [r Hr]%ratings_elem; [|done]. destruct (inv_reviews _ Hi _ _ _ _ Hr) as (_ & _ & _ & _ & rb & Hrb & Hf).
  exists rb. split_and!; [done| |done]. by eapply inv_rubrics.
Qed.

(** A sum of totals lies between count times the least and count times the largest. *)
Lemma list_sum_between {A} (f : A → Z) l lo hi :
  (∀ x, x ∈ l → lo ≤ f x ≤ hi) → lo * len l ≤ list_sum f l ≤ hi * len l.
Proof.
  unfold len. induction l as [|x l IH]; intros Hl; [simpl; lia|]. rewrite list_sum_cons, length_cons, Nat2Z.inj_succ.
  pose proof (Hl x ltac:(by left)). enough (lo * Z.of_nat (length l) ≤ list_sum f l ≤ hi * Z.of_nat (length l)) by lia.
  apply IH. intros y Hy. apply Hl. by right.
Qed.

Lemma mean_between {A} (f : A → Z) l lo hi :
  l ≠ [] → (∀ x, x ∈ l → lo ≤ f x ≤ hi) → lo ≤ list_sum f l / len l ≤ hi.
Proof.
  intros Hne Hl. pose proof (list_sum_between f l lo hi Hl).
  assert (0 < len l) by (unfold len; destruct l; simpl; [done|lia]).
  split; [apply Z.div_le_lower_bound; lia|apply Z.div_le_upper_bound; lia].
Qed.

Section Loops.
Context {L : Type}.
Abbreviation W := (World L Store Event).
Abbreviation M := (Contract L Store Event ContractError).
Implicit Types (w : W).

Lemma get_review_run p a r y e w :
  reviews (store w) !! (p, a, r) = Some y → (get_review p a r : M Review) e w = Done w y.
Proof. intros Hy. unfold get_review. cbv [bind load ok_or ret]. by rewrite Hy. Qed.

(** The loop of [aggregate_score]. *)
Lemma aggregate_loop p a rb v l xs n e w :
  Forall2 (λ r y, reviews (store w) !! (p, a, r) = Some y) l xs → rubric_ok (criteria rb) →
  (∀ y, y ∈ xs → rubric_version y = v → fits (criteria rb) (scores y)) → 0 ≤ n → n + 10000 * len xs ≤ u64_max →
  for_in l n (λ reviewer sum,
    bind (get_review p a reviewer) (λ y,
    bind (reject_if (negb (rubric_version y =? v)) MixedRubricVersions) (λ _,
    bind (weighted_total rb (scores y)) (λ total,
    ok_or (checked_add_u64 sum total) ArithmeticOverflow)))) e w =
  if decide (Forall (λ y, rubric_version y = v) xs) then Done w (n + list_sum (λ y, total_of rb (scores y)) xs)
  else Failed w MixedRubricVersions.
Proof.
  intros Hl Hrb Hfit. revert n. induction Hl as [|r y l xs Hy Hl IH]; intros n Hn Hmax.
  { rewrite decide_True by constructor. by rewrite list_sum_nil, Z.add_0_r. }
  unfold len in *. rewrite length_cons, Nat2Z.inj_succ in Hmax. cbn [for_in]. unfold bind at 1 2.
  rewrite (get_review_run _ _ _ y) by done. unfold bind at 1, reject_if.
  destruct (Z.eqb_spec (rubric_version y) v) as [Hv|Hv]; cbn [negb].
  2: { rewrite decide_False; [done|]. by intros [? _]%Forall_cons. }
  cbv [ret]. pose proof (Hfit y ltac:(by left) Hv) as Hf. pose proof (total_bounds rb (scores y) Hrb Hf) as Htb.
  unfold bind at 1. rewrite weighted_total_run by first [done|by eapply fits_u32; [apply Hrb|exact Hf]].
  rewrite decide_True by done. unfold ok_or, checked_add_u64. rewrite checked_in by lia. cbv [ret].
  rewrite IH by (done || lia || (intros z Hz; apply Hfit; by right)). rewrite list_sum_cons.
  destruct (decide (Forall _ xs)) as [Ha|Ha].
  - rewrite decide_True by by constructor. f_equal. lia.
  - rewrite decide_False; [done|]. by intros [_ ?]%Forall_cons.
Qed.

Lemma time_loop p a l xs o e w :
  Forall2 (λ r y, reviews (store w) !! (p, a, r) = Some y) l xs →
  for_in l o (λ reviewer earliest,
    bind (get_review p a reviewer) (λ y, (ret (earlier (submitted_at y) earliest) : M (option Z)))) e w =
  Done w (foldl (λ o y, earlier (submitted_at y) o) o xs).
Proof.
  intros Hl. revert o. induction Hl as [|r y l xs Hy Hl IH]; intros o; [done|]. cbn [for_in foldl]. unfold bind at 1 2.
  rewrite (get_review_run _ _ _ y) by done. cbv [ret]. apply IH.
Qed.

Lemma aggregate_run p a e w :
  inv (store w) →
  (aggregate_score p a : M Z) e w =
    match aggregate_of (store w) p a with Ok n => Done w n | Err err => Failed w err end.
Proof.
  intros Hi. unfold aggregate_score, get_program_config, aggregate_of. cbv [bind load ok_or ret fail reject_if].
  destruct (configs (store w) !! p) as [c|] eqn:Hc; [|done]. destruct (inv_configs _ Hi _ _ Hc) as (_ & Hmin & Hmax).
  rewrite <-ratings_len by done. destruct (len (ratings (store w) p a) <? min_reviews c) eqn:Hlen; [done|]. bool_prop.
  pose proof (ratings_all (store w) p a Hi) as Hall. pose proof (λ y, rating_rubric (store w) p a y Hi) as Hrub.
  pose proof (inv_index _ Hi p a) as (_ & _ & Hcap). pose proof (ratings_len (store w) p a Hi) as Hrl.
  destruct (ratings (store w) p a) as [|x xs] eqn:Hx; [by unfold len in Hlen; simpl in Hlen; lia|].
  destruct (reviewers_of p a (store w)) as [|r l] eqn:Hl; [by inversion Hall|]. cbn [head].
  assert (len (x :: xs) ≤ 32) as Hsmall.
  { rewrite Hrl. destruct Hcap as (c' & Hc' & Hle); [done|]. simplify_eq. lia. }
  pose proof Hall as [Hr _]%Forall2_cons. cbv [get_review bind load ok_or ret get_rubric]. rewrite Hr.
  destruct (Hrub x) as (rb & Hrb & Hok & Hf); [by left|]. rewrite Hrb.
  change (for_in (r :: l) 0 _ e w) with (for_in (r :: l) 0 (λ reviewer sum,
    bind (get_review p a reviewer) (λ y,
    bind (reject_if (negb (rubric_version y =? rubric_version x)) MixedRubricVersions) (λ _,
    bind (weighted_total rb (scores y)) (λ total,
    (ok_or (checked_add_u64 sum total) ArithmeticOverflow : M Z))))) e w).
  assert (∀ y, y ∈ x :: xs → rubric_version y = rubric_version x → fits (criteria rb) (scores y)) as Hfit.
  { intros y Hy Hv. destruct (Hrub y Hy) as (rb' & Hrb' & _ & Hf'). rewrite Hv, Hrb in Hrb'. by simplify_eq. }
  rewrite (aggregate_loop p a rb (rubric_version x) _ (x :: xs)) by (done || range_lia).
  destruct (decide (Forall _ (x :: xs))) as [Hsame|Hsame]; [|done].
  rewrite Z.add_0_l. unfold or_trap.
  assert (∀ y, y ∈ x :: xs → 0 ≤ total_of rb (scores y) ≤ 10000) as Hb.
  { intros y Hy. rewrite Forall_forall in Hsame. apply total_bounds; auto. }
  pose proof (list_sum_between _ _ _ _ Hb) as Hs. pose proof (mean_between _ (x :: xs) _ _ ltac:(done) Hb) as Hm.
  rewrite checked_div_u64_Some by lia. cbv [ret]. f_equal. apply as_u32_small. range_lia.
Qed.

Lemma first_review_time_run p a e w :
  inv (store w) →
  (first_review_time p a : M Z) e w =
    match first_time (ratings (store w) p a) with Some t => Done w t | None => Failed w InsufficientReviews end.
Proof.
  intros Hi. unfold first_review_time. unfold bind at 1, load. unfold bind at 1.
  rewrite (time_loop p a _ (ratings (store w) p a)) by by apply ratings_all. unfold first_time, ok_or, ret, fail.
  by destruct (foldl _ _ _).
Qed.

(** The rank of an application: its aggregate and its earliest review. *)
Definition rank (st : Store) (p : Z) (a : Address) : option (Z * Z) :=
  match aggregate_of st p a, first_time (ratings st p a) with Ok n, Some t => Some (n, t) | _, _ => None end.

(** Better aggregate first, then the earlier review. *)
Definition rank_compare (x y : Z * Z) : CompareOutcome :=
  match Z.compare x.1 y.1 with
  | Gt => ABetter
  | Lt => BBetter
  | Eq => match Z.compare x.2 y.2 with Lt => ABetter | Gt => BBetter | Eq => Tie end
  end.

Definition comparison_of (st : Store) (p : Z) (a b : Address) : result ContractError CompareOutcome :=
  match aggregate_of st p a, aggregate_of st p b with
  | Err err, _ | Ok _, Err err => Err err
  | Ok _, Ok _ =>
      match rank st p a, rank st p b with
      | Some x, Some y => Ok (rank_compare x y)
      | _, _ => Err InsufficientReviews
      end
  end.

Lemma foldl_earlier_some xs t : is_Some (foldl (λ o y, earlier (submitted_at y) o) (Some t) xs).
Proof. revert t. induction xs as [|x xs IH]; intros t; simpl; [by eexists|]. destruct (_ <? _); apply IH. Qed.

Lemma first_time_some xs : xs ≠ [] → is_Some (first_time xs).
Proof. destruct xs as [|x xs]; [done|]. intros _. apply foldl_earlier_some. Qed.

(** The earliest time is one of the reviews' and none is before it. *)
Lemma foldl_earlier_least xs t n :
  foldl (λ o y, earlier (submitted_at y) o) (Some t) xs = Some n →
  n ≤ t ∧ (∀ y, y ∈ xs → n ≤ submitted_at y) ∧ (n = t ∨ ∃ y, y ∈ xs ∧ submitted_at y = n).
Proof.
  revert t. induction xs as [|x xs IH]; intros t Hn; simpl in Hn.
  { injection Hn as <-. split_and!; [lia|by intros y ?%elem_of_nil|by left]. }
  destruct (Z.ltb_spec (submitted_at x) t) as [Hlt|Hle]; destruct (IH _ Hn) as (H1 & H2 & H3); split_and!; [lia| | |lia| |].
  - intros y [->|Hy]%elem_of_cons; auto.
  - destruct H3 as [->|(y & Hy & <-)]; right; [exists x|exists y]; (split; [set_solver|done]).
  - intros y [->|Hy]%elem_of_cons; [lia|auto].
  - destruct H3 as [->|(y & Hy & <-)]; [by left|right; exists y; split; [set_solver|done]].
Qed.

Lemma first_time_least xs n :
  first_time xs = Some n → (∀ y, y ∈ xs → n ≤ submitted_at y) ∧ ∃ y, y ∈ xs ∧ submitted_at y = n.
Proof.
  destruct xs as [|x xs]; [done|]. intros Hn%foldl_earlier_least. destruct Hn as (H1 & H2 & H3). split.
  - intros y [->|Hy]%elem_of_cons; auto.
  - destruct H3 as [->|(y & Hy & <-)]; [exists x|exists y]; (split; [set_solver|done]).
Qed.

Lemma aggregate_ok_nonempty st p a n : inv st → aggregate_of st p a = Ok n → ratings st p a ≠ [].
Proof.
  intros Hi Ha Hnil. unfold aggregate_of in Ha. rewrite Hnil in Ha. destruct (configs st !! p); [|done]. by case_match.
Qed.

Lemma compare_run p a b e w :
  inv (store w) →
  (compare_applicants p a b : M CompareOutcome) e w =
    match comparison_of (store w) p a b with Ok o => Done w o | Err err => Failed w err end.
Proof.
  intros Hi. unfold compare_applicants, comparison_of, rank. unfold bind at 1. rewrite aggregate_run by done.
  destruct (aggregate_of (store w) p a) as [n|err] eqn:Ha; [|done]. unfold bind at 1. rewrite aggregate_run by done.
  destruct (aggregate_of (store w) p b) as [m|err] eqn:Hb; [|done].
  destruct (first_time_some (ratings (store w) p a)) as [t Ht]; [by eapply aggregate_ok_nonempty|].
  destruct (first_time_some (ratings (store w) p b)) as [s Hs]; [by eapply aggregate_ok_nonempty|].
  rewrite Ht, Hs. unfold rank_compare. simpl. unfold Z.ltb at 1 2. rewrite (Z.compare_antisym n m).
  destruct (n ?= m); simpl; [|done|done]. cbv [bind]. rewrite first_review_time_run, Ht by done. rewrite first_review_time_run, Hs by done.
  unfold Z.ltb. rewrite (Z.compare_antisym t s). by destruct (t ?= s).
Qed.
End Loops.

(** ** What later calls leave *)

Definition submits_for (p : Z) (a : Address) (c : Call) : bool :=
  match c with CReview _ q b _ => bool_decide ((q, b) = (p, a)) | _ => false end.

Lemma ratings_ext st st' p a :
  reviewers_of p a st' = reviewers_of p a st → (∀ r, reviews st' !! (p, a, r) = reviews st !! (p, a, r)) →
  ratings st' p a = ratings st p a.
Proof. intros Hl Hr. unfold ratings. rewrite Hl. apply list_omap_ext. clear Hl. induction (reviewers_of p a st); by constructor. Qed.

Lemma aggregate_ext st st' p a c c' :
  inv st → configs st !! p = Some c → configs st' !! p = Some c' → min_reviews c' = min_reviews c →
  ratings st' p a = ratings st p a → (∀ k r, rubrics st !! k = Some r → rubrics st' !! k = Some r) →
  aggregate_of st' p a = aggregate_of st p a.
Proof.
  intros Hi Hc Hc' Hm Hr Hrub. unfold aggregate_of. rewrite Hc, Hc', Hm, Hr. case_match; [done|].
  destruct (ratings st p a) as [|x xs] eqn:Hx; [done|]. destruct (rating_rubric st p a x Hi) as (rb & Hrb & _).
  { rewrite Hx. by left. }
  by rewrite Hrb, (Hrub _ _ Hrb).
Qed.

Lemma effect_elsewhere e st c st' p a x :
  inv st → effect e st c st' → configs st !! p = Some x → submits_for p a c = false →
  ratings st' p a = ratings st p a ∧ aggregate_of st' p a = aggregate_of st p a ∧ is_Some (configs st' !! p).
Proof.
  intros Hi Heff Hx Hno. destruct Heff as [b Ha|c q lo hi _ _ Hlo Hhi Hn|c q y b _ _ Hy Hmax|c q n l _ _ Hc Hl Hn Hmax
    |r q b ss y n rb _ Hy _ Hv Hrb Hf Hnew Hlen].
  - split_and!; [done..|by exists x].
  - assert (configs (put_config q (mkConfig 1 true lo hi) st) !! p = Some x) as Hx'.
    { simpl. rewrite lookup_insert_ne; [done|congruence]. }
    split_and!; [done| |by exists x]. by apply (aggregate_ext st _ p a x x).
  - destruct (decide (q = p)) as [->|Hq].
    + rewrite Hx in Hy. injection Hy as <-. split_and!; [done| |simpl; rewrite lookup_insert_eq; by eexists].
      apply (aggregate_ext st _ p a x (with_active (pc_version x + 1) b x)); try done. apply lookup_insert_eq.
    + split_and!; [done| |exists x; simpl; by rewrite lookup_insert_ne].
      apply (aggregate_ext st _ p a x x); try done. simpl. by rewrite lookup_insert_ne.
  - split_and!; [done| |by exists x]. apply (aggregate_ext st _ p a x x); try done. intros k r Hk. simpl.
    rewrite lookup_insert_ne; [done|]. intros <-. subst n.
    assert (is_Some (rubrics st !! (q, default 0 (rubric_versions st !! q) + 1))) as Hs by by exists r.
    rewrite (versions_published rb_version (rubric_versions st)) in Hs by apply Hi. lia.
  - simpl in Hno. bool_prop. assert (ratings (put_reviewers (q, b) (reviewers_of q b st ++ [r])
      (put_review (q, b, r) (mkReview q b r (rb_version rb) ss (timestamp e)) st)) p a = ratings st p a) as Hsame.
    { apply ratings_ext; [by rewrite reviewers_put, decide_False|].
      intros s. simpl. rewrite lookup_insert_ne; [done|congruence]. }
    split_and!; [done| |by exists x]. by apply (aggregate_ext st _ p a x x).
Qed.

(** A review stays; the index only grows at its end. *)
Lemma effect_review e st c st' k y : inv st → effect e st c st' → reviews st !! k = Some y → reviews st' !! k = Some y.
Proof. intros _ Heff Hy. destruct Heff; try done. simpl. rewrite lookup_insert_ne; [done|congruence]. Qed.

Lemma effect_rubric e st c st' k r : inv st → effect e st c st' → rubrics st !! k = Some r → rubrics st' !! k = Some r.
Proof.
  intros Hi Heff Hr. destruct Heff; try done. simpl. rewrite lookup_insert_ne; [done|]. intros <-. subst n.
  assert (is_Some (rubrics st !! (p, default 0 (rubric_versions st !! p) + 1))) as Hs by by exists r.
  rewrite (versions_published rb_version (rubric_versions st)) in Hs by apply Hi. lia.
Qed.

Section Theorems.
Context {L : Type}.
Abbreviation W := (World L Store Event).
Abbreviation M := (Contract L Store Event ContractError).
Implicit Types (w : W).
Abbreviation Reach this := (reachable exec valid this (λ _ _, True) deployed).

(** A property of stores that every effect keeps is kept by a sequence of calls. *)
Lemma run_calls_keeps (P : Store → Prop) this calls w :
  Reach this w → Forall (λ ec : Env * Call, self ec.1 = this ∧ valid ec.1 ec.2) calls →
  (∀ e c st st', (e, c) ∈ calls → inv st → effect e st c st' → P st → P st') →
  P (store w) → P (store (run_calls exec calls w)).
Proof.
  intros Hw Hcalls. revert w Hw. induction Hcalls as [|[e c] calls [He Hv] _ IH]; intros w Hw Hkeep HP; [done|].
  simpl. apply IH; [by apply reach_call|intros; by eapply Hkeep; [right|..]|]. apply reviews_reachable in Hw.
  unfold invoke. destruct (exec c e w) as [w' u| |] eqn:Hrun; simpl; [|done..].
  destruct (reviews_effect c e w w' u Hv Hw Hrun) as [_ Heff]. eapply Hkeep; [by left|done..].
Qed.

(** Weighted totals.  For every rubric stored in a reachable world and 32-bit scores, the weighted
    total neither overflows nor traps: scores that do not answer the criteria one by one within
    their maxima are refused, and every other list gets the documented value, which lies in
    [0, 10000], is 10000 for full scores, and never falls when a score rises. *)
Theorem weighted_total_exact this w e k r ss :
  Reach this w → rubrics (store w) !! k = Some r → Forall (λ s, 0 ≤ s ≤ u32_max) ss →
  invoke (weighted_total r ss) e w =
    (w, if decide (fits (criteria r) ss) then Returned (total_of r ss) else Errored InvalidScores) ∧
  (fits (criteria r) ss → 0 ≤ total_of r ss ≤ 10000) ∧
  total_of r (max_score <$> criteria r) = 10000 ∧
  (∀ ss', fits (criteria r) ss → fits (criteria r) ss' → Forall2 Z.le ss ss' → total_of r ss ≤ total_of r ss').
Proof.
  intros Hi%reviews_reachable Hr Hss. pose proof (inv_rubrics _ Hi _ _ Hr) as Hok. pose proof Hok as (_ & Hcs & Hsum).
  split_and!.
  - unfold invoke. rewrite weighted_total_run by done. by case_decide.
  - by apply total_bounds.
  - unfold total_of. by rewrite weigh_full, Hsum by done.
  - intros ss' Hf Hf' Hle. unfold total_of. apply Z.div_le_mono; [lia|]. by apply weigh_mono.
Qed.

(** The total of a stored review. *)
Definition score_of (st : Store) (y : Review) : Z :=
  from_option (λ rb, total_of rb (scores y)) 0 (rubrics st !! (rv_program_id y, rubric_version y)).

(** C29: Aggregates.  In every reachable world the aggregate of an application is its reference: refused
    for an unknown program, for too few reviews and for reviews of different rubrics, and for no
    other reason; otherwise the floor of the mean of the totals of its reviews, so it lies in
    [0, 10000] and between any bounds of the totals.  It never panics and changes nothing. *)
Theorem aggregate_exact this w e p a :
  Reach this w →
  invoke (aggregate_score p a) e w = (w, answer (aggregate_of (store w) p a)) ∧
  match aggregate_of (store w) p a with
  | Ok n =>
      let xs := ratings (store w) p a in
      n = list_sum (score_of (store w)) xs / len xs ∧ 0 ≤ n ≤ 10000 ∧
      ∀ lo hi, (∀ y, y ∈ xs → lo ≤ score_of (store w) y ≤ hi) → lo ≤ n ≤ hi
  | Err err => err = ProgramNotFound ∨ err = InsufficientReviews ∨ err = MixedRubricVersions
  end.
Proof.
  intros Hi%reviews_reachable. split; [unfold invoke; rewrite aggregate_run by done; by destruct (aggregate_of _ _ _)|].
  destruct (aggregate_of (store w) p a) as [n|err] eqn:Ha; unfold aggregate_of in Ha;
    (destruct (configs (store w) !! p) as [c|] eqn:Hc; [|simplify_eq; by auto]).
  all: destruct (Z.ltb_spec (len (ratings (store w) p a)) (min_reviews c)) as [Hl|Hl]; [simplify_eq; by auto|].
  all: destruct (inv_configs _ Hi _ _ Hc) as (_ & [Hmin _] & _).
  all: pose proof (λ y, rating_rubric (store w) p a y Hi) as Hrub; pose proof (λ y, proj1 (ratings_elem (store w) p a y Hi)) as Hel.
  all: destruct (ratings (store w) p a) as [|x xs] eqn:Hx; [unfold len in Hl; simpl in Hl; lia|].
  all: destruct (Hrub x) as (rb & Hrb & Hok & _); [by left|]; rewrite Hrb in Ha.
  all: case_decide as Hsame; simplify_eq; try (by auto).
  assert (∀ y, y ∈ x :: xs → score_of (store w) y = total_of rb (scores y)) as Hsc.
  { intros y Hy. rewrite Forall_forall in Hsame. destruct (Hel y Hy) as [r Hr].
    destruct (inv_reviews _ Hi _ _ _ _ Hr) as (Hp & _). unfold score_of. by rewrite Hp, (Hsame y Hy), Hrb. }
  assert (∀ lo hi, (∀ y, y ∈ x :: xs → lo ≤ score_of (store w) y ≤ hi) →
    lo ≤ list_sum (λ y, total_of rb (scores y)) (x :: xs) / len (x :: xs) ≤ hi) as Hmean.
  { intros lo hi Hb. apply mean_between; [done|]. intros y Hy. rewrite <-Hsc by done. auto. }
  split; [by rewrite (list_sum_ext (score_of (store w)) (λ y, total_of rb (scores y)))|]. split; [|done]. apply Hmean. intros y Hy. rewrite Hsc by done.
  apply total_bounds; [done|]. destruct (Hrub y Hy) as (rb' & Hrb' & _ & Hf). rewrite Forall_forall in Hsame.
  rewrite (Hsame y Hy), Hrb in Hrb'. by simplify_eq.
Qed.

(** Reproducible.  After any calls from a reachable world among which none reviews this application,
    new rubrics and changes of the program included, the reviews of the application and its
    aggregate are what they were. *)
Theorem aggregate_reproducible this w calls p a :
  Reach this w → Forall (λ ec : Env * Call, self ec.1 = this ∧ valid ec.1 ec.2) calls → is_Some (configs (store w) !! p) →
  Forall (λ ec : Env * Call, submits_for p a ec.2 = false) calls →
  ratings (store (run_calls exec calls w)) p a = ratings (store w) p a ∧
  ∀ e e', (invoke (aggregate_score p a) e' (run_calls exec calls w)).2 = (invoke (aggregate_score p a) e w).2.
Proof.
  intros Hw Hcalls Hc Hno.
  pose proof (run_calls_keeps (λ st, (aggregate_of st p a = aggregate_of (store w) p a ∧
    ratings st p a = ratings (store w) p a) ∧ is_Some (configs st !! p)) this calls w Hw Hcalls) as Hrun.
  destruct Hrun as [[Hag Hra] _]; [|done|].
  2: { split; [done|]. intros e e'. assert (Reach this (run_calls exec calls w)) as Hi%reviews_reachable by by apply reachable_run.
    pose proof (reviews_reachable _ _ Hw) as Hi0. unfold invoke. rewrite !aggregate_run, Hag by done.
    by destruct (aggregate_of (store w) p a). }
  intros e c st st' Hin Hi Heff [[<- <-] [x Hx]]. rewrite Forall_forall in Hno.
  destruct (effect_elsewhere e st c st' p a x Hi Heff Hx (Hno _ Hin)) as (Hr & Ha & Hs). done.
Qed.

(** A review is final: after any calls it is still stored, and so is the rubric it was scored
    against. *)
Theorem review_final this w calls p a r y :
  Reach this w → Forall (λ ec : Env * Call, self ec.1 = this ∧ valid ec.1 ec.2) calls →
  reviews (store w) !! (p, a, r) = Some y →
  reviews (store (run_calls exec calls w)) !! (p, a, r) = Some y ∧
  ∃ rb, rubrics (store w) !! (p, rubric_version y) = Some rb ∧
    rubrics (store (run_calls exec calls w)) !! (p, rubric_version y) = Some rb ∧
    rubric_ok (criteria rb) ∧ fits (criteria rb) (scores y).
Proof.
  intros Hw Hcalls Hy. pose proof (reviews_reachable _ _ Hw) as Hi.
  destruct (inv_reviews _ Hi _ _ _ _ Hy) as (_ & _ & _ & _ & rb & Hrb & Hf).
  split; [|exists rb; split_and!; [done| |by eapply inv_rubrics|done]].
  - pose proof (run_calls_keeps (λ st, reviews st !! (p, a, r) = Some y) this calls w Hw Hcalls) as Hrun.
    apply Hrun; [|done]. intros. by eapply effect_review.
  - pose proof (run_calls_keeps (λ st, rubrics st !! (p, rubric_version y) = Some rb) this calls w Hw Hcalls) as Hrun.
    apply Hrun; [|done]. intros. by eapply effect_rubric.
Qed.

(** Reviews of two rubrics.  Once two reviews of an application rest on different rubrics, no sequence
    of calls makes an aggregate of it again. *)
Theorem mixed_never_aggregates this w calls p a r s x y :
  Reach this w → Forall (λ ec : Env * Call, self ec.1 = this ∧ valid ec.1 ec.2) calls →
  reviews (store w) !! (p, a, r) = Some x → reviews (store w) !! (p, a, s) = Some y →
  rubric_version x ≠ rubric_version y →
  ∀ e n, (invoke (aggregate_score p a) e (run_calls exec calls w)).2 ≠ Returned n.
Proof.
  intros Hw Hcalls Hx Hy Hne e n.
  assert (Reach this (run_calls exec calls w)) as Hi%reviews_reachable by by apply reachable_run.
  unfold invoke. rewrite aggregate_run by done. destruct (aggregate_of _ _ _) as [m|] eqn:Ha; [|done]. intros _.
  pose proof (run_calls_keeps (λ st, reviews st !! (p, a, r) = Some x ∧ reviews st !! (p, a, s) = Some y) this calls w Hw
    Hcalls) as Hrun.
  destruct Hrun as [Hx' Hy']; [|done|]. { intros e' c st st' _ Hi' Heff [? ?]. split; by eapply effect_review. }
  set (st := store (run_calls exec calls w)) in *. unfold aggregate_of in Ha.
  assert (x ∈ ratings st p a) as Hxr by by (apply ratings_elem; [|exists r]).
  assert (y ∈ ratings st p a) as Hyr by by (apply ratings_elem; [|exists s]).
  destruct (configs st !! p); [|done]. case_match; [done|]. destruct (ratings st p a) as [|z zs]; [done|].
  case_decide as Hs; [|done]. rewrite Forall_forall in Hs. rewrite (Hs x Hxr), (Hs y Hyr) in Hne. done.
Qed.

(** ** The comparison *)

Definition not_worse (o : CompareOutcome) : Prop := o = ABetter ∨ o = Tie.
Definition swapped (o : CompareOutcome) : CompareOutcome :=
  match o with ABetter => BBetter | BBetter => ABetter | Tie => Tie end.

(** The comparison ranks.  In every reachable world two applicants of a program that both have an
    aggregate are compared, without panic or error, by aggregate and then by the time of the
    earliest review; the relation is a total preorder: swapping the applicants swaps the
    outcome, every applicant ties with itself, not being worse is transitive, and a tie means
    equal aggregates and equal earliest times. *)
Theorem ranking_preorder this w e p a b c na nb nc :
  Reach this w → aggregate_of (store w) p a = Ok na → aggregate_of (store w) p b = Ok nb →
  aggregate_of (store w) p c = Ok nc →
  let outcome x y := (invoke (compare_applicants p x y) e w).2 in
  (∃ ta tb o, rank (store w) p a = Some (na, ta) ∧ rank (store w) p b = Some (nb, tb) ∧
     outcome a b = Returned o ∧ outcome b a = Returned (swapped o) ∧
     (o = ABetter ↔ nb < na ∨ na = nb ∧ ta < tb) ∧ (o = Tie ↔ na = nb ∧ ta = tb)) ∧
  outcome a a = Returned Tie ∧
  (∀ o o', outcome a b = Returned o → outcome b c = Returned o' → not_worse o → not_worse o' →
     ∃ o'', outcome a c = Returned o'' ∧ not_worse o'' ∧ (o'' = Tie → o = Tie ∧ o' = Tie)).
Proof.
  intros Hi%reviews_reachable Ha Hb Hc outcome.
  destruct (first_time_some (ratings (store w) p a)) as [ta Hta]; [by eapply aggregate_ok_nonempty|].
  destruct (first_time_some (ratings (store w) p b)) as [tb Htb]; [by eapply aggregate_ok_nonempty|].
  destruct (first_time_some (ratings (store w) p c)) as [tc Htc]; [by eapply aggregate_ok_nonempty|].
  assert (∀ x y nx ny tx ty, aggregate_of (store w) p x = Ok nx → aggregate_of (store w) p y = Ok ny →
    first_time (ratings (store w) p x) = Some tx → first_time (ratings (store w) p y) = Some ty →
    outcome x y = Returned (rank_compare (nx, tx) (ny, ty))) as Hout.
  { intros x y nx ny tx ty Hx Hy Htx Hty. unfold outcome, invoke. rewrite compare_run by done.
    unfold comparison_of, rank. by rewrite Hx, Hy, Htx, Hty. }
  rewrite !(Hout a b na nb ta tb), !(Hout b a nb na tb ta), !(Hout a a na na ta ta), !(Hout b c nb nc tb tc),
    !(Hout a c na nc ta tc) by done.
  unfold rank_compare, not_worse. simpl. split_and!.
  - exists ta, tb, (rank_compare (na, ta) (nb, tb)). unfold rank, rank_compare. rewrite Ha, Hta, Hb, Htb. simpl.
    split_and!; try done; destruct (Z.compare_spec na nb), (Z.compare_spec nb na), (Z.compare_spec ta tb),
      (Z.compare_spec tb ta); simpl; try done; try lia; (split; [try done; try lia; intros; lia|try done; intros; lia]).
  - by rewrite !Z.compare_refl.
  - intros o o' [= <-] [= <-] Ho Ho'. eexists. split; [done|]. revert Ho Ho'.
    destruct (Z.compare_spec na nb), (Z.compare_spec nb nc), (Z.compare_spec na nc), (Z.compare_spec ta tb),
      (Z.compare_spec tb tc), (Z.compare_spec ta tc); try (exfalso; lia); simpl;
      intros Ho Ho'; try (by destruct Ho); try (by destruct Ho'); split; auto; done.
Qed.

(** ** Submission *)

(** Submission.  In every reachable world a review its reviewer authorises is refused for the first
    that applies of: no such program, an inactive one, no published rubric, an earlier review
    by this reviewer, a full application, scores that do not fit the latest rubric; every other
    one is recorded against the latest rubric, appended to the index, and its total returned. *)
Theorem submit_review_exact this w e r p a ss :
  Reach this w → authorized e r = true → Forall (λ s, 0 ≤ s ≤ u32_max) ss →
  let st := store w in
  invoke (submit_review r p a ss) e w =
    match configs st !! p, rubric_versions st !! p with
    | None, _ => (w, Errored ProgramNotFound)
    | Some c, latest =>
        if negb (active c) then (w, Errored ProgramInactive)
        else match latest ≫= λ n, rubrics st !! (p, n) with
        | None => (w, Errored NoRubricPublished)
        | Some rb =>
            if decide (is_Some (reviews st !! (p, a, r))) then (w, Errored ReviewAlreadyExists)
            else if max_reviews c <=? len (reviewers_of p a st) then (w, Errored ReviewerCapacityExceeded)
            else if decide (fits (criteria rb) ss) then
              (mkWorld (ledger w)
                 (put_reviewers (p, a) (reviewers_of p a st ++ [r])
                   (put_review (p, a, r) (mkReview p a r (rb_version rb) ss (timestamp e)) st))
                 (log w ++ [REVIEW p a r (total_of rb ss)]), Returned (total_of rb ss))
            else (w, Errored InvalidScores)
        end
    end.
Proof.
  intros Hi%reviews_reachable Hau Hss st. subst st.
  unfold invoke, submit_review, get_program_config, latest_rubric, get_latest_rubric_version, get_rubric, require_auth.
  cbv [bind load ok_or ret fail reject_if now save publish]. rewrite Hau.
  destruct (configs (store w) !! p) as [c|]; [|done]. destruct (active c); simpl; [|done].
  destruct (rubric_versions (store w) !! p) as [n|] eqn:Hn; simpl; [|done].
  destruct (versions_latest rb_version _ _ p n (inv_versions _ Hi) Hn) as [rb Hrb]. rewrite Hrb.
  destruct (reviews (store w) !! (p, a, r)) as [y|]; [done|]. simpl.
  destruct (max_reviews c <=? len (reviewers_of p a (store w))); [done|].
  rewrite weighted_total_run by (done || by eapply inv_rubrics). by destruct (decide (fits (criteria rb) ss)).
Qed.

(** The register.  In every reachable world the reviewers of an application are listed once each, are
    exactly those with a stored review, and stay within the program's maximum and 32; rubrics
    are numbered from 1 to the latest without gaps and valid; a program's numbers are in
    bounds. *)
Theorem register_sound this w p a :
  Reach this w →
  NoDup (reviewers_of p a (store w)) ∧
  (∀ r, r ∈ reviewers_of p a (store w) ↔ is_Some (reviews (store w) !! (p, a, r))) ∧
  (∀ c, configs (store w) !! p = Some c →
     len (reviewers_of p a (store w)) ≤ max_reviews c ∧ 1 ≤ min_reviews c ≤ max_reviews c ∧ max_reviews c ≤ 32) ∧
  (∀ n, is_Some (rubrics (store w) !! (p, n)) ↔ 1 ≤ n ≤ default 0 (rubric_versions (store w) !! p)) ∧
  (∀ n r, rubrics (store w) !! (p, n) = Some r → rb_version r = n ∧ rubric_ok (criteria r)).
Proof.
  intros Hi%reviews_reachable. destruct (inv_index _ Hi p a) as (Hnd & Hs & Hcap). split_and!; [done| | | |].
  - intros r. split; [apply Hs|]. intros [y Hy]. apply (inv_reviews _ Hi _ _ _ _ Hy).
  - intros c Hc. destruct (inv_configs _ Hi _ _ Hc) as (_ & ? & ?). split_and!; [|lia..].
    destruct (reviewers_of p a (store w)) as [|r l]; [unfold len; simpl; lia|].
    destruct Hcap as (c' & Hc' & Hle); [done|]. by simplify_eq.
  - intros n. apply (versions_published rb_version). apply Hi.
  - intros n r Hr. split; [|by eapply inv_rubrics]. destruct (inv_versions _ Hi p) as (_ & _ & Hp).
    specialize (Hp n). rewrite Hr in Hp. apply Hp.
Qed.
End Theorems.

(** ** Concrete runs *)
Module Runs.
Definition this : Address := addr 0.
Definition boss : Address := addr 1.
Definition ann : Address := addr 2.
Definition bob : Address := addr 3.
Definition eva : Address := addr 4.
Definition fay : Address := addr 5.
Abbreviation Reach := (reachable exec valid this (λ _ _, True) deployed).

Definition at_time (t : Z) : Env := mkEnv t this (λ _, true).
Definition w0 : World unit Store Event := mkWorld tt empty_store [].
(** A rubric with two criteria; [eva] and [fay] review [ann] and [bob]. *)
Definition two : list Criterion := [mkCriterion 7000 3; mkCriterion 3000 10].
Definition setup : list (Env * Call) :=
  [(at_time 10, CInitialize boss); (at_time 11, CProgram boss 7 2 3); (at_time 12, CRubric boss 7 0 two);
   (at_time 20, CReview eva 7 ann [3; 5]); (at_time 21, CReview eva 7 bob [3; 10]);
   (at_time 22, CReview fay 7 bob [2; 0])].
(** A new rubric between the first and the second review of [ann]. *)
Definition republished : list (Env * Call) :=
  [(at_time 30, CRubric boss 7 1 [mkCriterion 10000 5]); (at_time 31, CReview fay 7 ann [5])].
Definition finished : list (Env * Call) := [(at_time 30, CReview fay 7 ann [1; 10])].
Definition w1 : World unit Store Event := run_calls exec setup w0.
Definition w2 : World unit Store Event := run_calls exec (setup ++ republished) w0.
Definition w3 : World unit Store Event := run_calls exec (setup ++ finished) w0.

Lemma reviews_runs calls :
  Forall (λ ec : Env * Call, self ec.1 = this ∧ valid ec.1 ec.2) calls → Reach (run_calls exec calls w0).
Proof. apply reachable_run. by apply reach_init. Qed.

Ltac valid_calls := repeat constructor; simpl; try done; range_lia.

Lemma reviews_w1_reach : Reach w1.
Proof. apply reviews_runs. valid_calls. Qed.
Lemma reviews_w2_reach : Reach w2.
Proof. apply reviews_runs. valid_calls. Qed.
Lemma reviews_w3_reach : Reach w3.
Proof. apply reviews_runs. valid_calls. Qed.

Definition rubric1 : Rubric := mkRubric 1 two 12.

Lemma weighted_total_exact_witness :
  (invoke (weighted_total rubric1 [2; 7]) (at_time 15) w1).2 = Returned 6766 ∧ total_of rubric1 [3; 10] = 10000.
Proof.
  destruct (weighted_total_exact this w1 (at_time 15) (7, 1) rubric1 [2; 7]) as (Hrun & _ & Hfull & _);
    [apply reviews_w1_reach|vm_compute; reflexivity|repeat constructor; simpl; range_lia|].
  split; [rewrite Hrun; vm_compute; reflexivity|exact Hfull].
Defined.

(** The aggregate of [bob]: (10000 + 4666) / 2; the second review of [ann] is missing. *)
Lemma aggregate_exact_witness :
  (invoke (aggregate_score 7 bob) (at_time 40) w1).2 = Returned 7333 ∧
  (invoke (aggregate_score 7 ann) (at_time 40) w1).2 = Errored InsufficientReviews.
Proof.
  split.
  - destruct (aggregate_exact this w1 (at_time 40) 7 bob reviews_w1_reach) as [Hrun _]. rewrite Hrun. vm_compute. reflexivity.
  - destruct (aggregate_exact this w1 (at_time 40) 7 ann reviews_w1_reach) as [Hrun _]. rewrite Hrun. vm_compute. reflexivity.
Defined.

Lemma aggregate_reproducible_witness :
  (invoke (aggregate_score 7 bob) (at_time 60) (run_calls exec republished w1)).2 = Returned 7333.
Proof.
  destruct (aggregate_reproducible this w1 republished 7 bob) as [_ Ha].
  - apply reviews_w1_reach.
  - valid_calls.
  - vm_compute. eexists. reflexivity.
  - repeat constructor.
  - rewrite (Ha (at_time 40)). vm_compute. reflexivity.
Defined.

Lemma review_final_witness :
  reviews (store (run_calls exec republished w1)) !! (7, ann, eva) = Some (mkReview 7 ann eva 1 [3; 5] 20).
Proof.
  destruct (review_final this w1 republished 7 ann eva (mkReview 7 ann eva 1 [3; 5] 20)) as [Hy _];
    [apply reviews_w1_reach|valid_calls|vm_compute; reflexivity|exact Hy].
Defined.

(** With the new rubric between the two reviews, [ann] has no aggregate ever after. *)
Lemma mixed_never_aggregates_witness :
  (∀ n, (invoke (aggregate_score 7 ann) (at_time 70) (run_calls exec setup w2)).2 ≠ Returned n) ∧
  (invoke (aggregate_score 7 ann) (at_time 40) w2).2 = Errored MixedRubricVersions.
Proof.
  split; [|vm_compute; reflexivity]. intros n.
  apply (mixed_never_aggregates this w2 setup 7 ann eva fay (mkReview 7 ann eva 1 [3; 5] 20) (mkReview 7 ann fay 2 [5] 31)).
  - apply reviews_w2_reach.
  - valid_calls.
  - vm_compute. reflexivity.
  - vm_compute. reflexivity.
  - discriminate.
Defined.

Lemma ranking_preorder_witness :
  (invoke (compare_applicants 7 bob ann) (at_time 50) w3).2 = Returned ABetter ∧
  (invoke (compare_applicants 7 ann bob) (at_time 50) w3).2 = Returned BBetter.
Proof.
  destruct (ranking_preorder this w3 (at_time 50) 7 bob ann ann 7333 6916 6916) as [(ta & tb & o & _ & _ & Hab & Hba & Hbet & _) _];
    [apply reviews_w3_reach|vm_compute; reflexivity..|].
  assert (o = ABetter) as Ho by (apply Hbet; left; reflexivity). rewrite Ho in Hab, Hba. split; [exact Hab|exact Hba].
Defined.

Lemma submit_review_exact_witness :
  (invoke (submit_review fay 7 ann [1; 11]) (at_time 30) w1).2 = Errored InvalidScores ∧
  (invoke (submit_review eva 7 ann [1; 10]) (at_time 30) w1).2 = Errored ReviewAlreadyExists ∧
  (invoke (submit_review fay 7 ann [1; 10]) (at_time 30) w1).2 = Returned 5333.
Proof.
  split_and!.
  - rewrite (submit_review_exact this w1 (at_time 30) fay 7 ann [1; 11] reviews_w1_reach);
      [vm_compute; reflexivity|reflexivity|repeat constructor; simpl; range_lia].
  - rewrite (submit_review_exact this w1 (at_time 30) eva 7 ann [1; 10] reviews_w1_reach);
      [vm_compute; reflexivity|reflexivity|repeat constructor; simpl; range_lia].
  - rewrite (submit_review_exact this w1 (at_time 30) fay 7 ann [1; 10] reviews_w1_reach);
      [vm_compute; reflexivity|reflexivity|repeat constructor; simpl; range_lia].
Defined.

Lemma register_sound_witness : is_Some (reviews (store w1) !! (7, bob, fay)) ∧ is_Some (rubrics (store w1) !! (7, 1)).
Proof.
  destruct (register_sound this w1 7 bob reviews_w1_reach) as (_ & Hr & _ & Hv & _). split.
  - apply Hr. vm_compute. right. left.
  - apply Hv. vm_compute. split; discriminate.
Defined.
End Runs.
