(* ===== verification/Applications.v ===== *)
(** * Application intake ([scholarship-applications/src/lib.rs])

    Programs publish versioned form schemas and consent terms; an applicant with a current
    consent submits one application per program.  Reviewers are assigned from the pool of a
    program, within their capacity and outside their conflicts.  Applicants ask for
    corrections, erasure and exports of their data, which the admin answers. *)
From S2P Require Import Prelude Machine Host Loops.

Inductive ContractError :=
| NotInitialized | AlreadyInitialized | NotAdmin | ProgramNotFound | ProgramAlreadyExists | ProgramInactive
| DeadlinePassed | DuplicateApplication | ApplicationNotFound | NoFormSchemaPublished | FormSchemaNotFound
| NoConsentTermsPublished | ConsentTermsNotFound | ConsentNotFound | ConsentRevoked | ConsentOutOfDate
| VersionOverflow | VersionConflict.

(** The reviews and the privacy requests have their own error enums. *)
Module Review.
Inductive ReviewError :=
| NotAdmin | ReviewerNotFound | ReviewerInactive | ReviewerAtCapacity | ReviewerConflicted | NoEligibleReviewer
| AssignmentNotFound | AlreadyAssigned | Unauthorized.
End Review.

Module Privacy.
Inductive PrivacyError :=
| NotAdmin | Unauthorized | ApplicationNotFound | RequestNotFound | RequestAlreadyProcessed | InvalidDenialReason
| CounterOverflow | NoExportableData | ExportAlreadyPending | ExportRequestNotFound | ExportRequestAlreadyResolved
| InvalidExportHash.
Inductive PrivacyRequestType := Correction | Erasure.
Inductive PrivacyRequestStatus := Pending | Approved | Denied.
#[global] Instance PrivacyRequestStatus_eq_dec : EqDecision PrivacyRequestStatus.
Proof. solve_decision. Defined.
End Privacy.

Module DataExport.
Inductive DataExportStatus := Pending | Completed | Cancelled.
#[global] Instance DataExportStatus_eq_dec : EqDecision DataExportStatus.
Proof. solve_decision. Defined.
End DataExport.

Inductive Error :=
| InContract (err : ContractError)
| InReview (err : Review.ReviewError)
| InPrivacy (err : Privacy.PrivacyError).

(** ** Intake *)

Record Program := mkProgram { pg_version : Z; active : bool; deadline : Z }.

Inductive ApplicationStatus := Submitted.

Record Application := mkApplication {
  applicant : Address; program_id : BytesN32; status : ApplicationStatus; submitted_at : Z;
  data_hash : BytesN32; form_version : Z; consent_version : Z
}.

Record FormSchema := mkFormSchema { fs_version : Z; schema_hash : BytesN32; fs_published_at : Z }.
Record ConsentTerms := mkConsentTerms { ct_version : Z; terms_hash : BytesN32; ct_published_at : Z }.
Record ConsentRecord := mkConsentRecord { cr_version : Z; accepted_at : Z; revoked : bool; revoked_at : Z }.

Record Intake := mkIntake {
  programs : gmap Z Program;
  applications : gmap (Address * Z) Application;
  form_versions : gmap Z Z;
  form_schemas : gmap (Z * Z) FormSchema;
  consent_versions : gmap Z Z;
  consent_terms : gmap (Z * Z) ConsentTerms;
  consents : gmap (Address * Z) ConsentRecord
}.

(** ** Reviews *)

Record ReviewerProfile := mkProfile { rv_active : bool; max_assignments : Z; current_assignments : Z }.
Inductive AssignmentMode := RoundRobin | LoadBalanced | SeededRandom (seed : Z).
Inductive ReviewMode := Open | Blind | DoubleBlind.

Record Reviews := mkReviews {
  reviewers : gmap Address ReviewerProfile;
  reviewer_pools : gmap Z (list Address);
  conflicts : gmap (Address * Z * Z) bool;
  assignments : gmap (Z * Z) Address;
  round_robin_cursors : gmap Z Z;
  review_modes : gmap Z ReviewMode
}.

(** ** Privacy *)

Record PrivacyRequest := mkRequest {
  rq_id : Z; rq_applicant : Address; rq_program_id : BytesN32; request_type : Privacy.PrivacyRequestType;
  rq_requested_at : Z; target_data_hash : BytesN32; rq_status : Privacy.PrivacyRequestStatus; processed_at : Z;
  denial_reason_hash : BytesN32; downstream_addressed : bool
}.

Record DataExportRequest := mkExport {
  ex_id : Z; ex_applicant : Address; ex_program_id : BytesN32; ex_requested_at : Z;
  ex_status : DataExport.DataExportStatus; resolved_at : Z; export_hash : BytesN32; consent_history_hash : BytesN32
}.

Record Requests := mkRequests {
  request_counter : option Z;
  requests : gmap Z PrivacyRequest;
  applicant_requests : gmap (Address * Z) Z;
  export_counter : option Z;
  export_requests : gmap Z DataExportRequest;
  applicant_exports : gmap (Address * Z) Z
}.

Record Store := mkStore { admin : option Address; intake : Intake; review : Reviews; privacy : Requests }.

Inductive Event :=
| FORMPUB (p : BytesN32) (n : Z)
| CONSPUB (p : BytesN32) (n : Z)
| CONSENT (a : Address) (p : BytesN32) (n : Z)
| CONSRVK (a : Address) (p : BytesN32) (n : Z)
| SUBMIT (a : Address) (p : BytesN32)
| REQ_CORR (a : Address) (p : BytesN32) (i : Z)
| REQ_ERAS (a : Address) (p : BytesN32) (i : Z)
| EXP_REQUEST (a : Address) (p : BytesN32) (i : Z)
| EXP_CANCEL (i : Z) (a : Address)
| EXP_COMPLETE (i : Z) (h c : BytesN32)
| RESOLVE (i : Z) (approve addressed : bool).

Definition put_admin (a : Address) (st : Store) : Store := mkStore (Some a) (intake st) (review st) (privacy st).
Definition on_intake (f : Intake → Intake) (st : Store) : Store :=
  mkStore (admin st) (f (intake st)) (review st) (privacy st).
Definition on_review (f : Reviews → Reviews) (st : Store) : Store :=
  mkStore (admin st) (intake st) (f (review st)) (privacy st).
Definition on_privacy (f : Requests → Requests) (st : Store) : Store :=
  mkStore (admin st) (intake st) (review st) (f (privacy st)).

Definition put_program (p : BytesN32) (x : Program) (i : Intake) : Intake :=
  mkIntake (<[p := x]> (programs i)) (applications i) (form_versions i) (form_schemas i) (consent_versions i)
    (consent_terms i) (consents i).
Definition put_application (k : Address * Z) (x : Application) (i : Intake) : Intake :=
  mkIntake (programs i) (<[k := x]> (applications i)) (form_versions i) (form_schemas i) (consent_versions i)
    (consent_terms i) (consents i).
Definition put_form_version (p : BytesN32) (n : Z) (i : Intake) : Intake :=
  mkIntake (programs i) (applications i) (<[p := n]> (form_versions i)) (form_schemas i) (consent_versions i)
    (consent_terms i) (consents i).
Definition put_form_schema (k : Z * Z) (x : FormSchema) (i : Intake) : Intake :=
  mkIntake (programs i) (applications i) (form_versions i) (<[k := x]> (form_schemas i)) (consent_versions i)
    (consent_terms i) (consents i).
Definition put_consent_version (p : BytesN32) (n : Z) (i : Intake) : Intake :=
  mkIntake (programs i) (applications i) (form_versions i) (form_schemas i) (<[p := n]> (consent_versions i))
    (consent_terms i) (consents i).
Definition put_consent_terms (k : Z * Z) (x : ConsentTerms) (i : Intake) : Intake :=
  mkIntake (programs i) (applications i) (form_versions i) (form_schemas i) (consent_versions i)
    (<[k := x]> (consent_terms i)) (consents i).
Definition put_consent (k : Address * Z) (x : ConsentRecord) (i : Intake) : Intake :=
  mkIntake (programs i) (applications i) (form_versions i) (form_schemas i) (consent_versions i)
    (consent_terms i) (<[k := x]> (consents i)).

Definition put_reviewer (a : Address) (x : ReviewerProfile) (r : Reviews) : Reviews :=
  mkReviews (<[a := x]> (reviewers r)) (reviewer_pools r) (conflicts r) (assignments r) (round_robin_cursors r)
    (review_modes r).
Definition put_pool (p : BytesN32) (l : list Address) (r : Reviews) : Reviews :=
  mkReviews (reviewers r) (<[p := l]> (reviewer_pools r)) (conflicts r) (assignments r) (round_robin_cursors r)
    (review_modes r).
Definition put_conflict (k : Address * Z * Z) (r : Reviews) : Reviews :=
  mkReviews (reviewers r) (reviewer_pools r) (<[k := true]> (conflicts r)) (assignments r) (round_robin_cursors r)
    (review_modes r).
Definition put_assignment (k : Z * Z) (a : Address) (r : Reviews) : Reviews :=
  mkReviews (reviewers r) (reviewer_pools r) (conflicts r) (<[k := a]> (assignments r)) (round_robin_cursors r)
    (review_modes r).
Definition put_cursor (p : BytesN32) (n : Z) (r : Reviews) : Reviews :=
  mkReviews (reviewers r) (reviewer_pools r) (conflicts r) (assignments r) (<[p := n]> (round_robin_cursors r))
    (review_modes r).
Definition put_review_mode (p : BytesN32) (m : ReviewMode) (r : Reviews) : Reviews :=
  mkReviews (reviewers r) (reviewer_pools r) (conflicts r) (assignments r) (round_robin_cursors r)
    (<[p := m]> (review_modes r)).

Definition put_request_counter (n : Z) (q : Requests) : Requests :=
  mkRequests (Some n) (requests q) (applicant_requests q) (export_counter q) (export_requests q) (applicant_exports q).
Definition put_request (i : Z) (x : PrivacyRequest) (q : Requests) : Requests :=
  mkRequests (request_counter q) (<[i := x]> (requests q)) (applicant_requests q) (export_counter q)
    (export_requests q) (applicant_exports q).
Definition put_applicant_request (k : Address * Z) (i : Z) (q : Requests) : Requests :=
  mkRequests (request_counter q) (requests q) (<[k := i]> (applicant_requests q)) (export_counter q)
    (export_requests q) (applicant_exports q).
Definition put_export_counter (n : Z) (q : Requests) : Requests :=
  mkRequests (request_counter q) (requests q) (applicant_requests q) (Some n) (export_requests q) (applicant_exports q).
Definition put_export (i : Z) (x : DataExportRequest) (q : Requests) : Requests :=
  mkRequests (request_counter q) (requests q) (applicant_requests q) (export_counter q)
    (<[i := x]> (export_requests q)) (applicant_exports q).
Definition put_applicant_export (k : Address * Z) (i : Z) (q : Requests) : Requests :=
  mkRequests (request_counter q) (requests q) (applicant_requests q) (export_counter q)
    (export_requests q) (<[k := i]> (applicant_exports q)).

(** [BytesN::from_array(&env, &[0u8; 32])] *)
Definition zero_hash : BytesN32 := 0.

Section Contract.
Context {L : Type}.
Abbreviation M := (Contract L Store Event Error).

Definition initialize (a : Address) : M unit :=
  o <- load admin ;;
  reject_if (bool_decide (is_Some o)) (InContract AlreadyInitialized) ;;;
  require_auth a ;;;
  save (put_admin a).

Definition require_admin (caller : Address) : M unit :=
  require_admin_of admin (InContract NotInitialized) (InContract NotAdmin) caller.

Definition register_program (caller : Address) (p : BytesN32) (d : Z) : M unit :=
  require_admin caller ;;;
  o <- load (λ st, programs (intake st) !! p) ;;
  reject_if (bool_decide (is_Some o)) (InContract ProgramAlreadyExists) ;;;
  save (on_intake (put_program p (mkProgram 1 true d))).

Definition get_program (p : BytesN32) : M Program :=
  o <- load (λ st, programs (intake st) !! p) ;; ok_or o (InContract ProgramNotFound).

Definition set_program_active (caller : Address) (p : BytesN32) (expected : Z) (b : bool) : M Z :=
  require_admin caller ;;;
  x <- get_program p ;;
  reject_if (negb (pg_version x =? expected)) (InContract VersionConflict) ;;;
  n <- ok_or (checked_add_u32 (pg_version x) 1) (InContract VersionOverflow) ;;
  save (on_intake (put_program p (mkProgram n b (deadline x)))) ;;;
  ret n.

(** The program of a publication has to exist. *)
Definition require_program (p : BytesN32) : M unit :=
  o <- load (λ st, programs (intake st) !! p) ;;
  reject_if (negb (bool_decide (is_Some o))) (InContract ProgramNotFound).

Definition publish_form_schema (caller : Address) (p h : BytesN32) : M Z :=
  require_admin caller ;;;
  require_program p ;;;
  v <- load (λ st, default 0 (form_versions (intake st) !! p)) ;;
  n <- ok_or (checked_add_u32 v 1) (InContract VersionOverflow) ;;
  t <- now ;;
  save (on_intake (put_form_schema (p, n) (mkFormSchema n h t))) ;;;
  save (on_intake (put_form_version p n)) ;;;
  publish (FORMPUB p n) ;;;
  ret n.

Definition get_latest_form_version (p : BytesN32) : M Z :=
  o <- load (λ st, form_versions (intake st) !! p) ;; ok_or o (InContract NoFormSchemaPublished).
Definition get_form_schema (p : BytesN32) (n : Z) : M FormSchema :=
  o <- load (λ st, form_schemas (intake st) !! (p, n)) ;; ok_or o (InContract FormSchemaNotFound).

Definition publish_consent_terms (caller : Address) (p h : BytesN32) : M Z :=
  require_admin caller ;;;
  require_program p ;;;
  v <- load (λ st, default 0 (consent_versions (intake st) !! p)) ;;
  n <- ok_or (checked_add_u32 v 1) (InContract VersionOverflow) ;;
  t <- now ;;
  save (on_intake (put_consent_terms (p, n) (mkConsentTerms n h t))) ;;;
  save (on_intake (put_consent_version p n)) ;;;
  publish (CONSPUB p n) ;;;
  ret n.

Definition get_latest_consent_version (p : BytesN32) : M Z :=
  o <- load (λ st, consent_versions (intake st) !! p) ;; ok_or o (InContract NoConsentTermsPublished).
Definition get_consent_terms (p : BytesN32) (n : Z) : M ConsentTerms :=
  o <- load (λ st, consent_terms (intake st) !! (p, n)) ;; ok_or o (InContract ConsentTermsNotFound).

Definition record_consent (a : Address) (p : BytesN32) : M Z :=
  require_auth a ;;;
  n <- get_latest_consent_version p ;;
  t <- now ;;
  save (on_intake (put_consent (a, p) (mkConsentRecord n t false 0))) ;;;
  publish (CONSENT a p n) ;;;
  ret n.

Definition get_consent (a : Address) (p : BytesN32) : M ConsentRecord :=
  o <- load (λ st, consents (intake st) !! (a, p)) ;; ok_or o (InContract ConsentNotFound).

Definition revoke_consent (a : Address) (p : BytesN32) : M unit :=
  require_auth a ;;;
  x <- get_consent a p ;;
  t <- now ;;
  save (on_intake (put_consent (a, p) (mkConsentRecord (cr_version x) (accepted_at x) true t))) ;;;
  publish (CONSRVK a p (cr_version x)).

Definition has_valid_consent (a : Address) (p : BytesN32) : M bool :=
  i <- load intake ;;
  match consent_versions i !! p with
  | None => ret false
  | Some n =>
      match consents i !! (a, p) with
      | Some x => ret (negb (revoked x) && (cr_version x =? n))
      | None => ret false
      end
  end.

Definition submit_application (a : Address) (p h : BytesN32) (form : Z) : M unit :=
  require_auth a ;;;
  x <- get_program p ;;
  reject_if (negb (active x)) (InContract ProgramInactive) ;;;
  t <- now ;;
  reject_if (deadline x <? t) (InContract DeadlinePassed) ;;;
  s <- load (λ st, form_schemas (intake st) !! (p, form)) ;;
  reject_if (negb (bool_decide (is_Some s))) (InContract FormSchemaNotFound) ;;;
  n <- get_latest_consent_version p ;;
  c <- get_consent a p ;;
  reject_if (revoked c) (InContract ConsentRevoked) ;;;
  reject_if (negb (cr_version c =? n)) (InContract ConsentOutOfDate) ;;;
  o <- load (λ st, applications (intake st) !! (a, p)) ;;
  reject_if (bool_decide (is_Some o)) (InContract DuplicateApplication) ;;;
  save (on_intake (put_application (a, p) (mkApplication a p Submitted t h form (cr_version c)))) ;;;
  publish (SUBMIT a p).

Definition get_application (a : Address) (p : BytesN32) : M Application :=
  o <- load (λ st, applications (intake st) !! (a, p)) ;; ok_or o (InContract ApplicationNotFound).
Definition has_applied (a : Address) (p : BytesN32) : M bool :=
  load (λ st, bool_decide (is_Some (applications (intake st) !! (a, p)))).

(** ** Reviewers *)

Definition require_review_admin (caller : Address) : M unit :=
  require_auth caller ;;;
  o <- load admin ;;
  a <- ok_or o (InReview Review.NotAdmin) ;;
  reject_if (negb (bool_decide (a = caller))) (InReview Review.Unauthorized).

Definition register_reviewer (caller r : Address) (n : Z) : M unit :=
  require_review_admin caller ;;;
  c <- load (λ st, default 0 (current_assignments <$> reviewers (review st) !! r)) ;;
  save (on_review (put_reviewer r (mkProfile true n c))).

Definition set_reviewer_active (caller r : Address) (b : bool) : M unit :=
  require_review_admin caller ;;;
  o <- load (λ st, reviewers (review st) !! r) ;;
  x <- ok_or o (InReview Review.ReviewerNotFound) ;;
  save (on_review (put_reviewer r (mkProfile b (max_assignments x) (current_assignments x)))).

Definition set_reviewer_pool (caller : Address) (p : BytesN32) (l : list Address) : M unit :=
  require_review_admin caller ;;;
  save (on_review (put_pool p l)).

Definition declare_conflict (r : Address) (p c : BytesN32) : M unit :=
  require_auth r ;;;
  save (on_review (put_conflict (r, p, c))).

Definition has_conflict (r : Address) (p c : BytesN32) : M bool :=
  load (λ st, bool_decide (is_Some (conflicts (review st) !! (r, p, c)))).

(** The closure [is_eligible] of the assignment of [c] under [p]. *)
Definition is_eligible (st : Reviews) (p c : BytesN32) (r : Address) : bool :=
  match reviewers st !! r with
  | None => false
  | Some x =>
      if negb (rv_active x) || (max_assignments x <=? current_assignments x) then false
      else negb (bool_decide (is_Some (conflicts st !! (r, p, c))))
  end.

(** The bytes of the commitment folded into the seed, with wrapping arithmetic. *)
Definition seed_offset (seed : Z) (c : BytesN32) : Z :=
  foldl (λ acc b, (acc * 1000003 mod (u64_max + 1) + b) mod (u64_max + 1)) seed (to_array c).

(** The loop over the pool; [None] is an overflow of [start_offset + step]. *)
Fixpoint choose (ok : Address → bool) (pool : list Address) (start : Z) (steps : list Z) : option (option Address) :=
  match steps with
  | [] => Some None
  | s :: steps =>
      i ← checked_add_u64 start s;
      r ← pool !! Z.to_nat (i mod Z.of_nat (length pool));
      if ok r then Some (Some r) else choose ok pool start steps
  end.

Definition assign_reviewer (caller : Address) (p c : BytesN32) (m : AssignmentMode) : M Address :=
  require_review_admin caller ;;;
  o <- load (λ st, assignments (review st) !! (p, c)) ;;
  reject_if (bool_decide (is_Some o)) (InReview Review.AlreadyAssigned) ;;;
  pool <- load (λ st, default [] (reviewer_pools (review st) !! p)) ;;
  reject_if (bool_decide (pool = [])) (InReview Review.NoEligibleReviewer) ;;;
  cursor <- load (λ st, default 0 (round_robin_cursors (review st) !! p)) ;;
  let start := match m with SeededRandom seed => seed_offset seed c | _ => cursor end in
  ok <- load (λ st, is_eligible (review st) p c) ;;
  o <- or_trap (choose ok pool start (seqZ 0 (Z.of_nat (length pool)))) ;;
  r <- ok_or o (InReview Review.NoEligibleReviewer) ;;
  o <- load (λ st, reviewers (review st) !! r) ;;
  x <- ok_or o (InReview Review.ReviewerNotFound) ;;
  n <- or_trap (checked_add_u32 (current_assignments x) 1) ;;
  save (on_review (put_reviewer r (mkProfile (rv_active x) (max_assignments x) n))) ;;;
  save (on_review (put_assignment (p, c) r)) ;;;
  match m with
  | SeededRandom _ => ret tt
  | _ =>
      next <- or_trap (checked_add_u64 start 1) ;;
      save (on_review (put_cursor p (next mod Z.max (Z.of_nat (length pool)) 1)))
  end ;;;
  ret r.

Definition get_assignment (p c : BytesN32) : M (option Address) :=
  load (λ st, assignments (review st) !! (p, c)).

Definition set_review_mode (caller : Address) (p : BytesN32) (m : ReviewMode) : M unit :=
  require_review_admin caller ;;;
  save (on_review (put_review_mode p m)).
Definition get_review_mode (p : BytesN32) : M ReviewMode :=
  load (λ st, default Open (review_modes (review st) !! p)).

(** ** Privacy requests *)

Definition require_privacy_admin (caller : Address) : M unit :=
  require_auth caller ;;;
  o <- load admin ;;
  a <- ok_or o (InPrivacy Privacy.NotAdmin) ;;
  reject_if (negb (bool_decide (a = caller))) (InPrivacy Privacy.Unauthorized).

(** The number and the record of a new request of either type. *)
Definition file_request (a : Address) (p : BytesN32) (ty : Privacy.PrivacyRequestType) (target : BytesN32) : M Z :=
  o <- load (λ st, applications (intake st) !! (a, p)) ;;
  reject_if (negb (bool_decide (is_Some o))) (InPrivacy Privacy.ApplicationNotFound) ;;;
  n <- load (λ st, default 0 (request_counter (privacy st))) ;;
  i <- ok_or (checked_add_u32 n 1) (InPrivacy Privacy.CounterOverflow) ;;
  save (on_privacy (put_request_counter i)) ;;;
  t <- now ;;
  save (on_privacy (put_request i (mkRequest i a p ty t target Privacy.Pending 0 zero_hash false))) ;;;
  save (on_privacy (put_applicant_request (a, p) i)) ;;;
  ret i.

Definition request_correction (a : Address) (p h : BytesN32) : M Z :=
  require_auth a ;;;
  i <- file_request a p Privacy.Correction h ;;
  publish (REQ_CORR a p i) ;;;
  ret i.

Definition request_erasure (a : Address) (p : BytesN32) : M Z :=
  require_auth a ;;;
  i <- file_request a p Privacy.Erasure zero_hash ;;
  publish (REQ_ERAS a p i) ;;;
  ret i.

(** The request an applicant made last for a program is still open. *)
Definition export_pending (q : Requests) (k : Address * Z) : bool :=
  match applicant_exports q !! k ≫= λ i, export_requests q !! i with
  | Some x => bool_decide (ex_status x = DataExport.Pending)
  | None => false
  end.

Definition request_data_export (a : Address) (p : BytesN32) : M Z :=
  require_auth a ;;;
  x <- load (λ st, applications (intake st) !! (a, p)) ;;
  c <- load (λ st, consents (intake st) !! (a, p)) ;;
  reject_if (negb (bool_decide (is_Some x)) && negb (bool_decide (is_Some c))) (InPrivacy Privacy.NoExportableData) ;;;
  b <- load (λ st, export_pending (privacy st) (a, p)) ;;
  reject_if b (InPrivacy Privacy.ExportAlreadyPending) ;;;
  n <- load (λ st, default 0 (export_counter (privacy st))) ;;
  i <- ok_or (checked_add_u32 n 1) (InPrivacy Privacy.CounterOverflow) ;;
  t <- now ;;
  save (on_privacy (put_export i (mkExport i a p t DataExport.Pending 0 zero_hash zero_hash))) ;;;
  save (on_privacy (put_export_counter i)) ;;;
  save (on_privacy (put_applicant_export (a, p) i)) ;;;
  publish (EXP_REQUEST a p i) ;;;
  ret i.

Definition get_data_export_request (i : Z) : M DataExportRequest :=
  o <- load (λ st, export_requests (privacy st) !! i) ;; ok_or o (InPrivacy Privacy.ExportRequestNotFound).

(** An export request answered at [t]. *)
Definition export_answered (s : DataExport.DataExportStatus) (t : Z) (h c : BytesN32) (x : DataExportRequest) : DataExportRequest :=
  mkExport (ex_id x) (ex_applicant x) (ex_program_id x) (ex_requested_at x) s t h c.

Definition cancel_data_export (a : Address) (i : Z) : M unit :=
  require_auth a ;;;
  x <- get_data_export_request i ;;
  reject_if (negb (bool_decide (ex_applicant x = a))) (InPrivacy Privacy.Unauthorized) ;;;
  reject_if (negb (bool_decide (ex_status x = DataExport.Pending))) (InPrivacy Privacy.ExportRequestAlreadyResolved) ;;;
  t <- now ;;
  save (on_privacy (put_export i (export_answered DataExport.Cancelled t (export_hash x) (consent_history_hash x) x))) ;;;
  publish (EXP_CANCEL i a).

Definition complete_data_export (caller : Address) (i : Z) (h c : BytesN32) : M unit :=
  require_privacy_admin caller ;;;
  reject_if ((h =? zero_hash) || (c =? zero_hash)) (InPrivacy Privacy.InvalidExportHash) ;;;
  x <- get_data_export_request i ;;
  reject_if (negb (bool_decide (ex_status x = DataExport.Pending))) (InPrivacy Privacy.ExportRequestAlreadyResolved) ;;;
  t <- now ;;
  save (on_privacy (put_export i (export_answered DataExport.Completed t h c x))) ;;;
  publish (EXP_COMPLETE i h c).

Definition get_latest_data_export_request_id (a : Address) (p : BytesN32) : M (option Z) :=
  load (λ st, applicant_exports (privacy st) !! (a, p)).

Definition get_privacy_request (i : Z) : M PrivacyRequest :=
  o <- load (λ st, requests (privacy st) !! i) ;; ok_or o (InPrivacy Privacy.RequestNotFound).

(** A request answered at [t]. *)
Definition answered (s : Privacy.PrivacyRequestStatus) (t : Z) (reason : BytesN32) (addressed : bool) (x : PrivacyRequest)
    : PrivacyRequest :=
  mkRequest (rq_id x) (rq_applicant x) (rq_program_id x) (request_type x) (rq_requested_at x) (target_data_hash x) s t
    reason addressed.

(** The application with another answers commitment. *)
Definition with_hash (h : BytesN32) (x : Application) : Application :=
  mkApplication (applicant x) (program_id x) (status x) (submitted_at x) h (form_version x) (consent_version x).

Definition new_hash (x : PrivacyRequest) : BytesN32 :=
  match request_type x with Privacy.Correction => target_data_hash x | Privacy.Erasure => zero_hash end.

Definition process_privacy_request (caller : Address) (i : Z) (approve : bool) (reason : BytesN32) (addressed : bool)
    : M unit :=
  require_privacy_admin caller ;;;
  x <- get_privacy_request i ;;
  reject_if (negb (bool_decide (rq_status x = Privacy.Pending))) (InPrivacy Privacy.RequestAlreadyProcessed) ;;;
  (if approve then
     o <- load (λ st, applications (intake st) !! (rq_applicant x, rq_program_id x)) ;;
     match o with
     | Some app => save (on_intake (put_application (rq_applicant x, rq_program_id x) (with_hash (new_hash x) app)))
     | None => ret tt
     end
   else ret tt) ;;;
  t <- now ;;
  save (on_privacy (put_request i
    (if approve then answered Privacy.Approved t zero_hash addressed x
     else answered Privacy.Denied t reason addressed x))) ;;;
  publish (RESOLVE i approve addressed).

Definition get_latest_privacy_request_id (a : Address) (p : BytesN32) : M (option Z) :=
  load (λ st, applicant_requests (privacy st) !! (a, p)).

(** ** Calls *)

Inductive Call :=
| CInitialize (a : Address)
| CRegister (caller : Address) (p : BytesN32) (d : Z)
| CSwitch (caller : Address) (p : BytesN32) (expected : Z) (b : bool)
| CPublishForm (caller : Address) (p h : BytesN32)
| CPublishTerms (caller : Address) (p h : BytesN32)
| CConsent (a : Address) (p : BytesN32)
| CRevoke (a : Address) (p : BytesN32)
| CSubmit (a : Address) (p h : BytesN32) (form : Z)
| CReviewer (caller r : Address) (n : Z)
| CReviewerActive (caller r : Address) (b : bool)
| CPool (caller : Address) (p : BytesN32) (l : list Address)
| CConflict (r : Address) (p c : BytesN32)
| CAssign (caller : Address) (p c : BytesN32) (m : AssignmentMode)
| CMode (caller : Address) (p : BytesN32) (m : ReviewMode)
| CCorrect (a : Address) (p h : BytesN32)
| CErase (a : Address) (p : BytesN32)
| CExport (a : Address) (p : BytesN32)
| CCancelExport (a : Address) (i : Z)
| CComplete (caller : Address) (i : Z) (h c : BytesN32)
| CProcess (caller : Address) (i : Z) (approve : bool) (reason : BytesN32) (addressed : bool).

Definition exec (c : Call) : M unit :=
  match c with
  | CInitialize a => initialize a
  | CRegister c p d => register_program c p d
  | CSwitch c p n b => ignore (set_program_active c p n b)
  | CPublishForm c p h => ignore (publish_form_schema c p h)
  | CPublishTerms c p h => ignore (publish_consent_terms c p h)
  | CConsent a p => ignore (record_consent a p)
  | CRevoke a p => revoke_consent a p
  | CSubmit a p h n => submit_application a p h n
  | CReviewer c r n => register_reviewer c r n
  | CReviewerActive c r b => set_reviewer_active c r b
  | CPool c p l => set_reviewer_pool c p l
  | CConflict r p c => declare_conflict r p c
  | CAssign c p k m => ignore (assign_reviewer c p k m)
  | CMode c p m => set_review_mode c p m
  | CCorrect a p h => ignore (request_correction a p h)
  | CErase a p => ignore (request_erasure a p)
  | CExport a p => ignore (request_data_export a p)
  | CCancelExport a i => cancel_data_export a i
  | CComplete c i h k => complete_data_export c i h k
  | CProcess c i b h d => process_privacy_request c i b h d
  end.
End Contract.

(** The declared widths of the arguments. *)
Definition valid (e : Env) (c : Call) : Prop :=
  0 ≤ timestamp e ≤ u64_max ∧
  match c with
  | CRegister _ _ d => 0 ≤ d ≤ u64_max
  | CSwitch _ _ n _ | CSubmit _ _ _ n | CReviewer _ _ n | CCancelExport _ n | CComplete _ n _ _ | CProcess _ n _ _ _ =>
      0 ≤ n ≤ u32_max
  | CPool _ _ l => Z.of_nat (length l) ≤ u32_max
  | CAssign _ _ _ (SeededRandom seed) => 0 ≤ seed ≤ u64_max
  | _ => True
  end.
