(* ===== verification/ApplicationsProps.v ===== *)
(** * Application intake: effects and invariant

    One relation for the calls that return: what they have checked and the store they leave.

    Published versions are numbered without gaps, applications rest on published forms and
    terms, the load of a reviewer is the number of the assignments, requests are numbered and
    at most one export of an applicant is pending; every call that returns keeps it so. *)
From S2P Require Import Prelude Machine Host Loops Applications Versions.

(** The privacy request a call files. *)
Definition filing (c : Call) : option (Address * Z * Privacy.PrivacyRequestType * Z) :=
  match c with
  | CCorrect a p h => Some (a, p, Privacy.Correction, h)
  | CErase a p => Some (a, p, Privacy.Erasure, zero_hash)
  | _ => None
  end.

Definition eligible (st : Reviews) (p c : Z) (r : Address) (x : ReviewerProfile) : Prop :=
  reviewers st !! r = Some x ∧ rv_active x = true ∧ current_assignments x < max_assignments x ∧
  conflicts st !! (r, p, c) = None.

Definition start_offset (st : Reviews) (p c : Z) (m : AssignmentMode) : Z :=
  match m with SeededRandom seed => seed_offset seed c | _ => default 0 (round_robin_cursors st !! p) end.

(** The cursor an assignment leaves. *)
Definition next_cursor (st : Reviews) (p : Z) (m : AssignmentMode) : Reviews → Reviews :=
  match m with
  | SeededRandom _ => id
  | _ => put_cursor p ((default 0 (round_robin_cursors st !! p) + 1)
           mod Z.max (Z.of_nat (length (default [] (reviewer_pools st !! p)))) 1)
  end.

(** The store with the answers commitment an approved request asks for. *)
Definition rehashed (x : PrivacyRequest) (st : Store) : Store :=
  match applications (intake st) !! (rq_applicant x, rq_program_id x) with
  | Some app => on_intake (put_application (rq_applicant x, rq_program_id x) (with_hash (new_hash x) app)) st
  | None => st
  end.

Inductive effect (e : Env) (st : Store) : Call → Store → Prop :=
| E_initialize a : effect e st (CInitialize a) (put_admin a st)
| E_register c p d :
    programs (intake st) !! p = None →
    effect e st (CRegister c p d) (on_intake (put_program p (mkProgram 1 true d)) st)
| E_switch c p b x :
    programs (intake st) !! p = Some x → pg_version x + 1 ≤ u32_max →
    effect e st (CSwitch c p (pg_version x) b)
      (on_intake (put_program p (mkProgram (pg_version x + 1) b (deadline x))) st)
| E_form c p h n :
    is_Some (programs (intake st) !! p) → n = default 0 (form_versions (intake st) !! p) + 1 → n ≤ u32_max →
    admin st = Some c → authorized e c = true →
    effect e st (CPublishForm c p h)
      (on_intake (λ i, put_form_version p n (put_form_schema (p, n) (mkFormSchema n h (timestamp e)) i)) st)
| E_terms c p h n :
    is_Some (programs (intake st) !! p) → n = default 0 (consent_versions (intake st) !! p) + 1 → n ≤ u32_max →
    admin st = Some c → authorized e c = true →
    effect e st (CPublishTerms c p h)
      (on_intake (λ i, put_consent_version p n (put_consent_terms (p, n) (mkConsentTerms n h (timestamp e)) i)) st)
| E_consent a p n :
    consent_versions (intake st) !! p = Some n → authorized e a = true →
    effect e st (CConsent a p) (on_intake (put_consent (a, p) (mkConsentRecord n (timestamp e) false 0)) st)
| E_revoke a p x :
    consents (intake st) !! (a, p) = Some x → authorized e a = true →
    effect e st (CRevoke a p)
      (on_intake (put_consent (a, p) (mkConsentRecord (cr_version x) (accepted_at x) true (timestamp e))) st)
| E_submit a p h form x c :
    programs (intake st) !! p = Some x → active x = true → timestamp e ≤ deadline x →
    is_Some (form_schemas (intake st) !! (p, form)) → consent_versions (intake st) !! p = Some (cr_version c) →
    consents (intake st) !! (a, p) = Some c → revoked c = false → applications (intake st) !! (a, p) = None →
    authorized e a = true →
    effect e st (CSubmit a p h form)
      (on_intake (put_application (a, p) (mkApplication a p Submitted (timestamp e) h form (cr_version c))) st)
| E_reviewer c r n :
    effect e st (CReviewer c r n)
      (on_review (put_reviewer r (mkProfile true n (default 0 (current_assignments <$> reviewers (review st) !! r)))) st)
| E_reviewer_active c r b x :
    reviewers (review st) !! r = Some x →
    effect e st (CReviewerActive c r b)
      (on_review (put_reviewer r (mkProfile b (max_assignments x) (current_assignments x))) st)
| E_pool c p l : effect e st (CPool c p l) (on_review (put_pool p l) st)
| E_conflict r p c : authorized e r = true → effect e st (CConflict r p c) (on_review (put_conflict (r, p, c)) st)
| E_mode c p m : effect e st (CMode c p m) (on_review (put_review_mode p m) st)
| E_assign a p c m r x :
    assignments (review st) !! (p, c) = None → r ∈ default [] (reviewer_pools (review st) !! p) →
    eligible (review st) p c r x → admin st = Some a → authorized e a = true →
    effect e st (CAssign a p c m)
      (on_review (λ v, next_cursor (review st) p m (put_assignment (p, c) r
        (put_reviewer r (mkProfile (rv_active x) (max_assignments x) (current_assignments x + 1)) v))) st)
| E_file c a p ty h i :
    filing c = Some (a, p, ty, h) → is_Some (applications (intake st) !! (a, p)) → authorized e a = true →
    i = default 0 (request_counter (privacy st)) + 1 → i ≤ u32_max →
    effect e st c
      (on_privacy (λ q, put_applicant_request (a, p) i
        (put_request i (mkRequest i a p ty (timestamp e) h Privacy.Pending 0 zero_hash false) (put_request_counter i q))) st)
| E_export a p i :
    is_Some (applications (intake st) !! (a, p)) ∨ is_Some (consents (intake st) !! (a, p)) →
    export_pending (privacy st) (a, p) = false → authorized e a = true →
    i = default 0 (export_counter (privacy st)) + 1 → i ≤ u32_max →
    effect e st (CExport a p)
      (on_privacy (λ q, put_applicant_export (a, p) i (put_export_counter i
        (put_export i (mkExport i a p (timestamp e) DataExport.Pending 0 zero_hash zero_hash) q))) st)
| E_cancel a i x :
    export_requests (privacy st) !! i = Some x → ex_applicant x = a → ex_status x = DataExport.Pending →
    authorized e a = true →
    effect e st (CCancelExport a i)
      (on_privacy (put_export i (export_answered DataExport.Cancelled (timestamp e) (export_hash x) (consent_history_hash x) x)) st)
| E_complete a i h c x :
    export_requests (privacy st) !! i = Some x → ex_status x = DataExport.Pending → h ≠ zero_hash → c ≠ zero_hash →
    admin st = Some a → authorized e a = true →
    effect e st (CComplete a i h c)
      (on_privacy (put_export i (export_answered DataExport.Completed (timestamp e) h c x)) st)
| E_process a i b reason d x :
    requests (privacy st) !! i = Some x → rq_status x = Privacy.Pending → admin st = Some a → authorized e a = true →
    effect e st (CProcess a i b reason d)
      (on_privacy (put_request i (if b : bool then answered Privacy.Approved (timestamp e) zero_hash d x
                                  else answered Privacy.Denied (timestamp e) reason d x))
        (if b : bool then rehashed x st else st)).

(** ** The choice of a reviewer *)

Lemma is_eligible_iff st p c r : is_eligible st p c r = true ↔ ∃ x, eligible st p c r x.
Proof.
  unfold is_eligible, eligible. destruct (reviewers st !! r) as [x|].
  - destruct (rv_active x) eqn:Ha; simpl; [|naive_solver].
    destruct (Z.leb_spec (max_assignments x) (current_assignments x)); [naive_solver lia|].
    rewrite negb_true_iff, bool_decide_eq_false, <-eq_None_not_Some. naive_solver.
  - naive_solver.
Qed.

Lemma choose_chosen ok pool start steps r :
  choose ok pool start steps = Some (Some r) → r ∈ pool ∧ ok r = true.
Proof.
  induction steps as [|s steps IH]; simpl; [done|]. destruct (checked_add_u64 start s) as [i|]; simpl; [|done].
  destruct (pool !! _) as [a|] eqn:Ha; simpl; [|done].
  destruct (ok a) eqn:Hok; [|done]. intros [= <-]. split; [by eapply list_elem_of_lookup_2|done].
Qed.

(** ** The calls *)
Section Effects.
Context {L : Type}.
Abbreviation W := (World L Store Event).
Abbreviation M := (Contract L Store Event Error).
Implicit Types (w : W).

Lemma require_review_admin_done c e w w' u :
  (require_review_admin c : M unit) e w = Done w' u → w' = w ∧ admin (store w) = Some c ∧ authorized e c = true.
Proof. intros Hrun. unfold require_review_admin in Hrun. run_inv. bool_prop. by simplify_eq. Qed.

Lemma require_privacy_admin_done c e w w' u :
  (require_privacy_admin c : M unit) e w = Done w' u → w' = w ∧ admin (store w) = Some c ∧ authorized e c = true.
Proof. intros Hrun. unfold require_privacy_admin in Hrun. run_inv. bool_prop. by simplify_eq. Qed.

Ltac applications_inv :=
  unfold require_admin, require_program, get_program, get_latest_consent_version, get_consent, get_data_export_request,
    get_privacy_request in *;
  repeat (run_inv;
    match goal with
    | H : ignore _ _ _ = Done _ _ |- _ => apply ignore_done in H as [? H]
    | H : require_review_admin _ _ _ = Done _ _ |- _ =>
        let H1 := fresh "Had" in let H2 := fresh "Hau" in apply require_review_admin_done in H as (-> & H1 & H2)
    | H : require_privacy_admin _ _ _ = Done _ _ |- _ =>
        let H1 := fresh "Had" in let H2 := fresh "Hau" in apply require_privacy_admin_done in H as (-> & H1 & H2)
    end);
  run_inv; bool_prop; checked_prop;
  repeat match goal with H : ¬ is_Some _ |- _ => apply eq_None_not_Some in H end.

Lemma file_request_done a p ty h e w w' i :
  (file_request a p ty h : M Z) e w = Done w' i →
  is_Some (applications (intake (store w)) !! (a, p)) ∧ i = default 0 (request_counter (privacy (store w))) + 1 ∧
  i ≤ u32_max ∧
  w' = mkWorld (ledger w) (on_privacy (λ q, put_applicant_request (a, p) i
    (put_request i (mkRequest i a p ty (timestamp e) h Privacy.Pending 0 zero_hash false) (put_request_counter i q)))
    (store w)) (log w).
Proof. intros Hrun. unfold file_request in Hrun. applications_inv. split_and!; [done..|lia|done]. Qed.

Lemma assign_reviewer_done a p c m e w w' r :
  (assign_reviewer a p c m : M Address) e w = Done w' r →
  ledger w' = ledger w ∧ assignments (review (store w')) !! (p, c) = Some r ∧
  effect e (store w) (CAssign a p c m) (store w').
Proof.
  intros Hrun. unfold assign_reviewer in Hrun. applications_inv. subst. simpl in *.
  match goal with H : choose _ _ _ _ = Some _ |- _ => apply choose_chosen in H as [Hin Hok] end.
  apply is_eligible_iff in Hok as (y & Hy).
  match goal with H : reviewers _ !! _ = Some ?x |- _ =>
    assert (x = y) as -> by (destruct Hy as (Hx & _); congruence) end.
  destruct m; applications_inv; simpl; rewrite lookup_insert_eq; (split_and!; [done..|]).
  - by apply (E_assign e (store w) a p c RoundRobin _ y).
  - by apply (E_assign e (store w) a p c LoadBalanced _ y).
  - by apply (E_assign e (store w) a p c (SeededRandom seed) _ y).
Qed.

Lemma applications_effect c e w w' u :
  (exec c : M unit) e w = Done w' u → ledger w' = ledger w ∧ effect e (store w) c (store w').
Proof.
  intros Hrun.
  destruct c as [a|c p d|c p n b|c p h|c p h|a p|a p|a p h n|c r n|c r b|c p l|r p c|c p k m|c p m|a p h|a p|a p|a i|c i h k|c i b h d];
    simpl in Hrun.
  - unfold initialize in Hrun. applications_inv. split; [done|]. apply E_initialize.
  - unfold register_program in Hrun. applications_inv. split; [done|]. by apply E_register.
  - unfold set_program_active in Hrun. applications_inv. subst. split; [done|]. apply E_switch; [done|lia].
  - unfold publish_form_schema in Hrun. applications_inv. split; [done|]. apply (E_form e (store w) c p h); try done; lia.
  - unfold publish_consent_terms in Hrun. applications_inv. split; [done|]. apply (E_terms e (store w) c p h); try done; lia.
  - unfold record_consent in Hrun. applications_inv. split; [done|]. by apply E_consent.
  - unfold revoke_consent in Hrun. applications_inv. split; [done|]. by apply E_revoke.
  - unfold submit_application in Hrun. applications_inv. split; [done|]. simplify_eq. by eapply E_submit.
  - unfold register_reviewer in Hrun. applications_inv. split; [done|]. apply E_reviewer.
  - unfold set_reviewer_active in Hrun. applications_inv. split; [done|]. by apply E_reviewer_active.
  - unfold set_reviewer_pool in Hrun. applications_inv. split; [done|]. apply E_pool.
  - unfold declare_conflict in Hrun. applications_inv. split; [done|]. by apply E_conflict.
  - applications_inv. by apply assign_reviewer_done in Hrun as (? & _ & ?).
  - unfold set_review_mode in Hrun. applications_inv. split; [done|]. apply E_mode.
  - unfold request_correction in Hrun. applications_inv.
    match goal with H : file_request _ _ _ _ _ _ = _ |- _ => apply file_request_done in H as (Happ & -> & Hmax & ->) end.
    split; [done|]. by eapply (E_file e (store w) _ a p Privacy.Correction h).
  - unfold request_erasure in Hrun. applications_inv.
    match goal with H : file_request _ _ _ _ _ _ = _ |- _ => apply file_request_done in H as (Happ & -> & Hmax & ->) end.
    split; [done|]. by eapply (E_file e (store w) _ a p Privacy.Erasure zero_hash).
  - unfold request_data_export in Hrun. applications_inv. split; [done|]. apply (E_export e (store w) a p); try done; [|lia].
    match goal with H : _ ∨ _ |- _ => destruct H; bool_prop; auto end.
  - unfold cancel_data_export in Hrun. applications_inv. split; [done|]. by apply E_cancel.
  - unfold complete_data_export in Hrun. applications_inv. split; [done|]. by apply E_complete.
  - unfold process_privacy_request in Hrun. applications_inv.
    match goal with H : (if b then _ else _) _ _ = _ |- _ => rename H into Hif end.
    match goal with H : requests _ !! _ = Some ?q |- _ => rename q into x; rename H into Hx end.
    destruct b; [|run_inv; split; [done|]; by eapply (E_process _ _ _ _ false)]. run_inv.
    pose proof (E_process e (store w) c i true h d x) as Heff. unfold rehashed in Heff.
    destruct (applications _ !! _) as [app|]; run_inv; (split; [done|]); by apply Heff.
Qed.
End Effects.

(** ** The parts of the invariant *)

Record intake_inv (i : Intake) : Prop := {
  in_programs : map_Forall (λ _ x, 1 ≤ pg_version x ≤ u32_max) (programs i);
  in_forms : versions_ok fs_version (form_versions i) (form_schemas i);
  in_terms : versions_ok ct_version (consent_versions i) (consent_terms i);
  in_consents a p c : consents i !! (a, p) = Some c → 1 ≤ cr_version c ≤ default 0 (consent_versions i !! p);
  in_applications a p x :
    applications i !! (a, p) = Some x → applicant x = a ∧ program_id x = p ∧ is_Some (programs i !! p) ∧
      is_Some (form_schemas i !! (p, form_version x)) ∧ is_Some (consent_terms i !! (p, consent_version x)) ∧
      ∃ c, consents i !! (a, p) = Some c ∧ consent_version x ≤ cr_version c
}.

(** The assignments a reviewer has. *)
Definition load_of (r : Address) (r' : Reviews) : Z :=
  map_sum (λ _ a, if decide (a = r) then 1 else 0) (assignments r').

Record reviews_inv (v : Reviews) : Prop := {
  rv_loads r : default 0 (current_assignments <$> reviewers v !! r) = load_of r v;
  rv_bounds r x : reviewers v !! r = Some x → 0 ≤ max_assignments x ≤ u32_max ∧ current_assignments x ≤ u32_max;
  rv_cursors p n : round_robin_cursors v !! p = Some n → 0 ≤ n ≤ u32_max;
  rv_pools p l : reviewer_pools v !! p = Some l → Z.of_nat (length l) ≤ u32_max;
  rv_assigned k r : assignments v !! k = Some r → is_Some (reviewers v !! r)
}.

Record requests_inv (q : Requests) : Prop := {
  rq_count : 0 ≤ default 0 (request_counter q) ≤ u32_max;
  rq_ids i : is_Some (requests q !! i) ↔ 1 ≤ i ≤ default 0 (request_counter q);
  rq_own i x : requests q !! i = Some x → rq_id x = i;
  ex_count : 0 ≤ default 0 (export_counter q) ≤ u32_max;
  ex_ids i : is_Some (export_requests q !! i) ↔ 1 ≤ i ≤ default 0 (export_counter q);
  ex_own i x : export_requests q !! i = Some x → ex_id x = i ∧
    ∃ j, applicant_exports q !! (ex_applicant x, ex_program_id x) = Some j ∧ i ≤ j ∧
      (ex_status x = DataExport.Pending → i = j);
  ex_last k j : applicant_exports q !! k = Some j →
    ∃ x, export_requests q !! j = Some x ∧ (ex_applicant x, ex_program_id x) = k
}.

Record inv (st : Store) : Prop := {
  inv_intake : intake_inv (intake st);
  inv_review : reviews_inv (review st);
  inv_privacy : requests_inv (privacy st);
  inv_linked i x : requests (privacy st) !! i = Some x →
    is_Some (applications (intake st) !! (rq_applicant x, rq_program_id x))
}.

(** A change of one part keeps the others. *)
Lemma inv_on_review st f : inv st → reviews_inv (f (review st)) → inv (on_review f st).
Proof. intros [H1 H2 H3 H4] Hf. by split. Qed.
Lemma inv_on_intake st f :
  inv st → intake_inv (f (intake st)) →
  (∀ k, is_Some (applications (intake st) !! k) → is_Some (applications (f (intake st)) !! k)) → inv (on_intake f st).
Proof. intros [H1 H2 H3 H4] Hf Ha. split; try done. intros i x Hx. by apply Ha, (H4 i). Qed.

(** ** Intake *)

Lemma program_put_inv p x i :
  intake_inv i → 1 ≤ pg_version x ≤ u32_max → intake_inv (put_program p x i).
Proof.
  intros Hi Hx. split; try apply Hi; simpl.
  - apply map_Forall_insert_2; [done|apply Hi].
  - intros a q y Hy. destruct (in_applications _ Hi _ _ _ Hy) as (? & ? & ? & ? & ? & ?). split_and!; try done.
    rewrite lookup_insert. by case_decide.
Qed.

Lemma form_put_inv p n x i :
  intake_inv i → n = default 0 (form_versions i !! p) + 1 → n ≤ u32_max → fs_version x = n →
  intake_inv (put_form_version p n (put_form_schema (p, n) x i)).
Proof.
  intros Hi Hn Hmax Hx. destruct (versions_next _ _ _ p n x (in_forms _ Hi) Hn Hmax Hx) as [Hv _].
  split; try apply Hi; simpl; [done|].
  intros a q y Hy. destruct (in_applications _ Hi _ _ _ Hy) as (? & ? & ? & ? & ? & ?). split_and!; try done.
  rewrite lookup_insert. by case_decide.
Qed.

Lemma terms_put_inv p n x i :
  intake_inv i → n = default 0 (consent_versions i !! p) + 1 → n ≤ u32_max → ct_version x = n →
  intake_inv (put_consent_version p n (put_consent_terms (p, n) x i)).
Proof.
  intros Hi Hn Hmax Hx. destruct (versions_next _ _ _ p n x (in_terms _ Hi) Hn Hmax Hx) as [Hv _].
  split; try apply Hi; simpl; [done| |].
  - intros a q c Hc. apply (in_consents _ Hi) in Hc. rewrite lookup_insert. case_decide; [subst; simpl; lia|done].
  - intros a q y Hy. destruct (in_applications _ Hi _ _ _ Hy) as (? & ? & ? & ? & ? & ?). split_and!; try done.
    rewrite lookup_insert. by case_decide.
Qed.

Lemma consent_put_inv a p c i :
  intake_inv i → 1 ≤ cr_version c ≤ default 0 (consent_versions i !! p) →
  (∀ x, applications i !! (a, p) = Some x → consent_version x ≤ cr_version c) → intake_inv (put_consent (a, p) c i).
Proof.
  intros Hi Hc Hx. split; try apply Hi; simpl.
  - intros b q d Hd. rewrite lookup_insert in Hd. case_decide; simplify_eq; [done|by apply (in_consents _ Hi) in Hd].
  - intros b q y Hy. destruct (in_applications _ Hi _ _ _ Hy) as (? & ? & ? & ? & ? & d & Hd & Hle).
    split_and!; try done. rewrite lookup_insert. case_decide; simplify_eq; [|by exists d].
    exists c. split; [done|]. by apply Hx.
Qed.

Lemma application_put_inv a p x i :
  intake_inv i → applicant x = a → program_id x = p → is_Some (programs i !! p) →
  is_Some (form_schemas i !! (p, form_version x)) → is_Some (consent_terms i !! (p, consent_version x)) →
  (∃ c, consents i !! (a, p) = Some c ∧ consent_version x ≤ cr_version c) → intake_inv (put_application (a, p) x i).
Proof.
  intros Hi Ha Hp Hpr Hf Ht Hc. split; try apply Hi; simpl.
  intros b q y Hy. rewrite lookup_insert in Hy. case_decide as Hk; simplify_eq; [by split_and!|].
  by apply (in_applications _ Hi).
Qed.

(** ** Reviews *)

Lemma reviewer_put_inv r x v :
  reviews_inv v → current_assignments x = load_of r v → 0 ≤ max_assignments x ≤ u32_max →
  current_assignments x ≤ u32_max → reviews_inv (put_reviewer r x v).
Proof.
  intros Hi Hc Hm Hx. split; try apply Hi; simpl.
  - intros a. rewrite lookup_insert. case_decide; [subst; apply Hc|apply Hi].
  - intros a y Hy. rewrite lookup_insert in Hy. case_decide; [by simplify_eq|by apply (rv_bounds _ Hi a)].
  - intros k a Ha. rewrite lookup_insert. case_decide; [done|by apply (rv_assigned _ Hi k)].
Qed.

Lemma load_assigned k r a v :
  assignments v !! k = None → load_of a (put_assignment k r v) = load_of a v + if decide (r = a) then 1 else 0.
Proof. intros Hn. unfold load_of. simpl. rewrite map_sum_insert_new by done. lia. Qed.

Lemma assigned_inv k r x v n :
  reviews_inv v → assignments v !! k = None → reviewers v !! r = Some x → current_assignments x < max_assignments x →
  n = current_assignments x + 1 →
  reviews_inv (put_assignment k r (put_reviewer r (mkProfile (rv_active x) (max_assignments x) n) v)).
Proof.
  intros Hi Hn Hr Hlt ->. destruct (rv_bounds _ Hi _ _ Hr) as [Hm _]. split; try apply Hi; simpl.
  - intros a. rewrite load_assigned by done. simpl. rewrite lookup_insert.
    match goal with |- _ = load_of a ?u + _ => change (load_of a u) with (load_of a v) end. rewrite <-(rv_loads _ Hi a). case_decide as Ha; [subst a; rewrite Hr; done|simpl; lia].
  - intros a y Hy. rewrite lookup_insert in Hy. case_decide; [simplify_eq; simpl; lia|by apply (rv_bounds _ Hi a)].
  - intros j a Ha. rewrite lookup_insert in Ha. rewrite lookup_insert. destruct (decide (r = a)); [by eexists|].
    destruct (decide (k = j)); simplify_eq. by apply (rv_assigned _ Hi j).
Qed.

Lemma cursor_put_inv p n v : reviews_inv v → 0 ≤ n ≤ u32_max → reviews_inv (put_cursor p n v).
Proof.
  intros Hi Hn. split; try apply Hi; simpl. intros q k Hk. rewrite lookup_insert in Hk.
  case_decide; [by simplify_eq|by apply (rv_cursors _ Hi q)].
Qed.

Lemma next_cursor_inv v v' p m : reviews_inv v → reviews_inv v' → reviews_inv (next_cursor v p m v').
Proof.
  intros Hi Hi'. assert (∀ l : list Address, Z.of_nat (length l) ≤ u32_max → ∀ x, 0 ≤ x mod Z.max (Z.of_nat (length l)) 1 ≤ u32_max) as Hm.
  { intros l Hl x. pose proof (Z.mod_pos_bound x (Z.max (Z.of_nat (length l)) 1)). range_lia. }
  assert (Z.of_nat (length (default [] (reviewer_pools v !! p))) ≤ u32_max) as Hlen.
  { destruct (reviewer_pools v !! p) as [l|] eqn:Hl; simpl; [by apply (rv_pools _ Hi p)|range_lia]. }
  destruct m; simpl; [| |done]; apply cursor_put_inv; auto.
Qed.

(** ** Requests *)

Lemma request_filed_inv x k q i :
  requests_inv q → i = default 0 (request_counter q) + 1 → i ≤ u32_max → rq_id x = i →
  requests_inv (put_applicant_request k i (put_request i x (put_request_counter i q))).
Proof.
  intros Hi Hin Hmax Hx. pose proof (rq_count _ Hi). split; try apply Hi; simpl; [lia| |].
  - intros j. rewrite lookup_insert. case_decide; [split; [lia|done]|]. rewrite (rq_ids _ Hi). lia.
  - intros j y Hy. rewrite lookup_insert in Hy. case_decide; [by simplify_eq|by apply (rq_own _ Hi)].
Qed.

Lemma request_put_inv i x y q :
  requests_inv q → requests q !! i = Some x → rq_id y = rq_id x → requests_inv (put_request i y q).
Proof.
  intros Hi Hx Hy. apply (rq_own _ Hi) in Hx as Hid. split; try apply Hi; simpl.
  - intros j. rewrite lookup_insert. case_decide; [subst|apply Hi]. rewrite <-(rq_ids _ Hi), Hx. split; by eexists.
  - intros j z Hz. rewrite lookup_insert in Hz. case_decide; [simplify_eq; congruence|by apply (rq_own _ Hi)].
Qed.

Lemma exported_inv a p t q i h c :
  requests_inv q → export_pending q (a, p) = false → i = default 0 (export_counter q) + 1 → i ≤ u32_max →
  requests_inv (put_applicant_export (a, p) i (put_export_counter i (put_export i (mkExport i a p t DataExport.Pending 0 h c) q))).
Proof.
  intros Hi Hp Hin Hmax. pose proof (ex_count _ Hi). split; try apply Hi; simpl; [lia| | |].
  - intros j. rewrite lookup_insert. case_decide; [split; [lia|done]|]. rewrite (ex_ids _ Hi). lia.
  - intros j y Hy. rewrite lookup_insert in Hy. case_decide as Hj; simplify_eq; simpl.
    + split; [done|]. rewrite lookup_insert_eq. eexists. by split_and!.
    + destruct (ex_own _ Hi _ _ Hy) as (Hid & l & Hl & Hjl & Hpend). split; [done|]. rewrite lookup_insert.
      case_decide as Hk; [|by exists l]. eexists. split; [done|].
      assert (1 ≤ j ≤ default 0 (export_counter q)) by (apply (ex_ids _ Hi); by eexists). split; [lia|].
      intros Hs. pose proof (Hpend Hs) as <-. unfold export_pending in Hp. rewrite Hk, Hl in Hp. simpl in Hp.
      rewrite Hy in Hp. by rewrite bool_decide_eq_true_2 in Hp.
  - intros k j Hk. rewrite lookup_insert in Hk. case_decide; simplify_eq.
    + exists (mkExport (default 0 (export_counter q) + 1) a p t DataExport.Pending 0 h c).
      by rewrite lookup_insert_eq.
    + destruct (ex_last _ Hi _ _ Hk) as (x & Hx & Hkx). exists x. split; [|done]. rewrite lookup_insert_ne; [done|].
      intros <-. assert (1 ≤ default 0 (export_counter q) + 1 ≤ default 0 (export_counter q)); [|lia].
      apply (ex_ids _ Hi). by eexists.
Qed.

Lemma export_put_inv i x s t h c q :
  requests_inv q → export_requests q !! i = Some x → s ≠ DataExport.Pending →
  requests_inv (put_export i (export_answered s t h c x) q).
Proof.
  intros Hi Hx Hs. destruct (ex_own _ Hi _ _ Hx) as (Hid & j & Hj & Hij & _). split; try apply Hi; simpl.
  - intros k. rewrite lookup_insert. case_decide; [subst|apply Hi]. rewrite <-(ex_ids _ Hi), Hx. split; by eexists.
  - intros k y Hy. rewrite lookup_insert in Hy. case_decide; simplify_eq; simpl; [|by apply (ex_own _ Hi)].
    split; [done|]. exists j. by split_and!.
  - intros k l Hk. destruct (ex_last _ Hi _ _ Hk) as (y & Hy & Hky). rewrite lookup_insert.
    case_decide; simplify_eq; by eexists.
Qed.

(** ** Every call *)

Lemma filing_linked st k i x :
  inv st → is_Some (applications (intake st) !! k) → (rq_applicant x, rq_program_id x) = k →
  i = default 0 (request_counter (privacy st)) + 1 → i ≤ u32_max → rq_id x = i →
  inv (on_privacy (λ q, put_applicant_request k i (put_request i x (put_request_counter i q))) st).
Proof.
  intros [H1 H2 H3 H4] Ha Hk Hi Hmax Hid. split; try done; simpl; [by apply request_filed_inv|].
  intros j y Hy. rewrite lookup_insert in Hy. case_decide; simplify_eq; [done|by apply (H4 j)].
Qed.

Lemma rehashed_inv st i x :
  inv st → requests (privacy st) !! i = Some x → inv (rehashed x st).
Proof.
  intros Hi Hx. unfold rehashed. destruct (applications _ !! _) as [app|] eqn:Happ; [|done].
  destruct (in_applications _ (inv_intake _ Hi) _ _ _ Happ) as (Ha & Hp & Hpr & Hf & Ht & c & Hc & Hle).
  apply inv_on_intake; [done| |].
  - apply application_put_inv; try done; [apply Hi|by exists c].
  - intros k Hk. simpl. rewrite lookup_insert. by case_decide.
Qed.

Lemma rehashed_same x st : privacy (rehashed x st) = privacy st ∧ review (rehashed x st) = review st.
Proof. unfold rehashed. by destruct (applications _ !! _). Qed.

Lemma processed_inv st i x y :
  inv st → requests (privacy st) !! i = Some x → rq_id y = rq_id x → rq_applicant y = rq_applicant x →
  rq_program_id y = rq_program_id x → inv (on_privacy (put_request i y) st).
Proof.
  intros Hi Hx Hid Ha Hp. split; try apply Hi; simpl; [by eapply request_put_inv; [apply Hi|..]|].
  intros j z Hz. rewrite lookup_insert in Hz. case_decide; simplify_eq; [|by apply (inv_linked _ Hi j)].
  rewrite Ha, Hp. by eapply (inv_linked _ Hi).
Qed.

Lemma applications_effect_inv e st c st' : valid e c → inv st → effect e st c st' → inv st'.
Proof.
  intros [_ Hv] Hi Heff. destruct Heff.
  - by destruct Hi.
  - apply inv_on_intake; [done| |done]. apply program_put_inv; [apply Hi|simpl; range_lia].
  - apply inv_on_intake; [done| |done]. apply program_put_inv; [apply Hi|]. simpl.
    pose proof (in_programs _ (inv_intake _ Hi) _ _ H). simpl in *. lia.
  - apply inv_on_intake; [done| |done]. by apply form_put_inv; [apply Hi|..].
  - apply inv_on_intake; [done| |done]. by apply terms_put_inv; [apply Hi|..].
  - destruct (in_terms _ (inv_intake _ Hi) p) as (Hb & Hnz & _). rewrite H in Hb, Hnz. simpl in Hb.
    apply inv_on_intake; [done| |done]. apply consent_put_inv; simpl; [apply Hi|rewrite H; simpl|].
    + assert (n ≠ 0) by congruence. lia.
    + intros x Hx. destruct (in_applications _ (inv_intake _ Hi) _ _ _ Hx) as (_ & _ & _ & _ & _ & c & Hc & Hle).
      apply (in_consents _ (inv_intake _ Hi)) in Hc. rewrite H in Hc. simpl in Hc. lia.
  - apply inv_on_intake; [done| |done]. apply consent_put_inv; simpl; [apply Hi|by apply (in_consents _ (inv_intake _ Hi) a)|].
    intros y Hy. destruct (in_applications _ (inv_intake _ Hi) _ _ _ Hy) as (_ & _ & _ & _ & _ & c & Hc & Hle). by simplify_eq.
  - apply inv_on_intake; [done| |].
    + apply application_put_inv; simpl; try done; [apply Hi| |by exists c].
      apply (versions_published ct_version (consent_versions (intake st))); [apply Hi|].
      by apply (in_consents _ (inv_intake _ Hi) a).
    + intros k Hk. simpl. rewrite lookup_insert. by case_decide.
  - apply inv_on_review; [done|]. apply reviewer_put_inv; simpl; [apply Hi|apply Hi|lia|].
    destruct (reviewers (review st) !! r) as [x|] eqn:Hr; simpl; [by apply (rv_bounds _ (inv_review _ Hi) r)|range_lia].
  - apply inv_on_review; [done|]. destruct (rv_bounds _ (inv_review _ Hi) _ _ H) as [Hm Hc].
    apply reviewer_put_inv; simpl; try done; [apply Hi|]. by rewrite <-(rv_loads _ (inv_review _ Hi)), H.
  - apply inv_on_review; [done|]. destruct (inv_review _ Hi). split; try done. simpl.
    intros q k Hk. rewrite lookup_insert in Hk. case_decide; simplify_eq; [done|eauto].
  - apply inv_on_review; [done|]. by destruct (inv_review _ Hi).
  - apply inv_on_review; [done|]. by destruct (inv_review _ Hi).
  - apply inv_on_review; [done|]. destruct H1 as (Hr & _ & Hlt & _).
    apply next_cursor_inv; [apply Hi|]. by apply assigned_inv; [apply Hi|..].
  - by apply filing_linked.
  - destruct Hi as [H4 H5 H6 H7]. split; try done; simpl. by apply exported_inv.
  - destruct Hi as [H4 H5 H6 H7]. split; try done; simpl. by apply export_put_inv.
  - destruct Hi as [H6 H7 H8 H9]. split; try done; simpl. by apply export_put_inv.
  - destruct b.
    + pose proof (rehashed_same x st) as [Hpr _].
      apply (processed_inv _ _ x); try done; [by eapply rehashed_inv|by rewrite Hpr].
    + by apply (processed_inv _ _ x).
Qed.

(** ** Reachable stores *)
Section Reach.
Context {L : Type}.
Abbreviation W := (World L Store Event).
Implicit Types (w : W).

Definition empty_store : Store :=
  mkStore None (mkIntake ∅ ∅ ∅ ∅ ∅ ∅ ∅) (mkReviews ∅ ∅ ∅ ∅ ∅ ∅) (mkRequests None ∅ ∅ None ∅ ∅).
Definition deployed (w : W) : Prop := store w = empty_store.
Abbreviation Reach this := (reachable exec valid this (λ _ _, True) deployed).

Lemma applications_empty_inv : inv empty_store.
Proof.
  split; [split|split|split|done]; simpl; try done; try apply versions_empty; try range_lia;
    try apply map_Forall_empty; intros i; (split; [by intros [? ?]|lia]).
Qed.

Lemma applications_call_inv c e w w' u :
  valid e c → inv (store w) → exec c e w = Done w' u →
  ledger w' = ledger w ∧ effect e (store w) c (store w') ∧ inv (store w').
Proof.
  intros Hv Hi [Hl Heff]%applications_effect. split_and!; [done..|]. by eapply applications_effect_inv.
Qed.

Lemma applications_reachable this w : Reach this w → inv (store w).
Proof.
  apply (reachable_inv _ _ _ _ _ (λ w, inv (store w))).
  - intros w0 ->. apply applications_empty_inv.
  - intros c e w0 w1 u _ Hv Hi Hrun. by apply (applications_call_inv c e w0 w1 u).
  - done.
Qed.
End Reach.
