(* ===== verification/ApplicationsTheorems.v ===== *)
(** * Application intake: the properties

    A submission on every branch and at most one per applicant and program; what was published
    and submitted stays; the choice of a reviewer against its reference, the loads of the
    reviewers; the life of privacy requests and exports. *)
From S2P Require Import Prelude Machine Host Loops Versions Applications ApplicationsProps.

(** ** The choice of a reviewer against its reference *)

(** The first eligible reviewer of the pool read in a circle from [start]. *)
Definition first_from (ok : Address → bool) (pool : list Address) (start : Z) : option Address :=
  head (filter (λ r, ok r = true) (rotate (Z.to_nat (start mod Z.of_nat (length pool))) pool)).

Lemma first_from_nil ok pool start : pool = [] → first_from ok pool start = None.
Proof. intros ->. unfold first_from, rotate. by rewrite drop_nil, take_nil. Qed.

Lemma choose_listed ok pool start steps l :
  (∀ s, s ∈ steps → 0 ≤ start + s ≤ u64_max) →
  Forall2 (λ s r, pool !! Z.to_nat ((start + s) mod Z.of_nat (length pool)) = Some r) steps l →
  choose ok pool start steps = Some (head (filter (λ r, ok r = true) l)).
Proof.
  intros Hs Hl. induction Hl as [|s r steps l Hr _ IH]; [done|]. cbn [choose].
  unfold checked_add_u64. rewrite checked_in by (apply Hs; by left). simpl. rewrite Hr. simpl. rewrite filter_cons.
  destruct (ok r); [by rewrite decide_True|rewrite decide_False by done]. apply IH. intros s' Hs'. apply Hs. by right.
Qed.

Lemma choose_first ok pool start :
  0 ≤ start → start + Z.of_nat (length pool) - 1 ≤ u64_max →
  choose ok pool start (seqZ 0 (Z.of_nat (length pool))) = Some (first_from ok pool start).
Proof.
  intros H0 Hmax. apply choose_listed.
  - intros s Hs%elem_of_seqZ. lia.
  - apply Forall2_same_length_lookup. split; [rewrite length_seqZ, length_rotate; lia|].
    intros i s r Hs Hr. apply lookup_seqZ in Hs as [-> Hi]. apply lookup_lt_Some in Hr as Hlt. rewrite length_rotate in Hlt.
    rewrite lookup_rotate_r in Hr by done. rewrite <-Hr. f_equal. unfold rotate_nat_add.
    f_equal. rewrite Z2Nat.id by (apply Z.mod_pos_bound; lia). rewrite Z.add_0_l, Zplus_mod_idemp_l. done.
Qed.

Section Theorems.
Context {L : Type}.
Abbreviation W := (World L Store Event).
Abbreviation M := (Contract L Store Event Error).
Implicit Types (w : W).
Abbreviation Reach this := (reachable exec valid this (λ _ _, True) deployed).

(** C28: Submission.  In every reachable world a submission the applicant authorises is refused for
    the first that applies of: no such program, an inactive program, a passed deadline, a form
    version that was never published, no published terms, no recorded consent, a revoked or an
    outdated one, an earlier submission; every other one is recorded with the current terms'
    version and changes nothing else. *)
Theorem submit_exact this w e a p h form :
  Reach this w → authorized e a = true →
  let i := intake (store w) in
  invoke (submit_application a p h form) e w =
    match programs i !! p, consent_versions i !! p, consents i !! (a, p) with
    | None, _, _ => (w, Errored (InContract ProgramNotFound))
    | Some x, terms, consent =>
        if negb (active x) then (w, Errored (InContract ProgramInactive))
        else if deadline x <? timestamp e then (w, Errored (InContract DeadlinePassed))
        else if decide (¬ (1 ≤ form ≤ default 0 (form_versions i !! p))) then
          (w, Errored (InContract FormSchemaNotFound))
        else match terms, consent with
        | None, _ => (w, Errored (InContract NoConsentTermsPublished))
        | Some _, None => (w, Errored (InContract ConsentNotFound))
        | Some n, Some c =>
            if revoked c then (w, Errored (InContract ConsentRevoked))
            else if decide (cr_version c ≠ n) then (w, Errored (InContract ConsentOutOfDate))
            else if decide (is_Some (applications i !! (a, p))) then (w, Errored (InContract DuplicateApplication))
            else (mkWorld (ledger w)
                    (on_intake (put_application (a, p) (mkApplication a p Submitted (timestamp e) h form n)) (store w))
                    (log w ++ [SUBMIT a p]), Returned tt)
        end
    end.
Proof.
  intros Hi%applications_reachable Hau i.
  pose proof (versions_published fs_version _ _ p form (in_forms _ (inv_intake _ Hi))) as Hform. subst i.
  unfold invoke, submit_application, get_program, get_latest_consent_version, get_consent, require_auth.
  cbv [bind load ok_or ret fail reject_if now save publish]. rewrite Hau.
  destruct (programs (intake (store w)) !! p) as [x|]; [|done]. destruct (active x); simpl; [|done].
  destruct (deadline x <? timestamp e); [done|].
  destruct (form_schemas (intake (store w)) !! (p, form)) as [s|].
  2: { simpl. rewrite decide_True; [done|]. rewrite <-Hform. by intros [? ?]. }
  rewrite decide_False by (intros Hn; apply Hn, Hform; by eexists). simpl.
  destruct (consent_versions (intake (store w)) !! p) as [n|]; [|done]. destruct (consents (intake (store w)) !! (a, p)) as [c|]; [|done].
  destruct (revoked c); [done|]. destruct (Z.eqb_spec (cr_version c) n) as [<-|Hn]; simpl;
    [rewrite decide_False by auto|by rewrite decide_True].
  destruct (applications (intake (store w)) !! (a, p)) as [y|]; done.
Qed.

(** ** What stays *)

(** An application as the answers commitment changes. *)
Definition same_application (x y : Application) : Prop := with_hash 0 x = with_hash 0 y.

(** A stored application after one call: unchanged, or with the commitment that a pending request
    of its applicant asks for, approved by the admin. *)
Inductive application_moves (e : Env) (st : Store) (x : Application) : Application → Prop :=
| AM_same : application_moves e st x x
| AM_rehash caller j q :
    requests (privacy st) !! j = Some q → rq_status q = Privacy.Pending → rq_applicant q = applicant x →
    rq_program_id q = program_id x → admin st = Some caller → authorized e caller = true →
    application_moves e st x (with_hash (new_hash q) x).

Lemma effect_application e st c st' k x :
  inv st → effect e st c st' → applications (intake st) !! k = Some x →
  ∃ y, applications (intake st') !! k = Some y ∧ application_moves e st x y.
Proof.
  intros Hi Heff Hx. assert (∀ st1, applications (intake st1) !! k = Some x →
    ∃ y, applications (intake st1) !! k = Some y ∧ application_moves e st x y) as Hsame.
  { intros st1 Hs. exists x. split; [done|apply AM_same]. }
  destruct Heff; try (by apply Hsame).
  - apply Hsame. simpl. rewrite lookup_insert_ne by congruence. done.
  - destruct b; [|by apply Hsame]. simpl. unfold rehashed.
    destruct (applications _ !! (rq_applicant x0, rq_program_id x0)) as [app|] eqn:Happ; [|by apply Hsame].
    simpl. rewrite lookup_insert. case_decide as Hk; [|by apply Hsame]. subst k. rewrite Hx in Happ. injection Happ as <-.
    eexists. split; [done|]. destruct (in_applications _ (inv_intake _ Hi) _ _ _ Hx) as (Ha & Hp & _).
    by eapply AM_rehash.
Qed.

(** Submissions stay.  From every reachable world one call leaves a stored application as it
    is, or replaces its answers commitment, and nothing else of it, by what a pending request of
    its own applicant for its program asks for, by authorisation of the admin: zero for an
    erasure, the requested commitment for a correction. *)
Theorem application_lifecycle this w e c a p x :
  Reach this w → valid e c → applications (intake (store w)) !! (a, p) = Some x →
  ∃ y, applications (intake (store (invoke (exec c) e w).1)) !! (a, p) = Some y ∧
    application_moves e (store w) x y ∧ applicant y = a ∧ program_id y = p ∧ same_application x y.
Proof.
  intros Hi%applications_reachable Hv Hx. destruct (in_applications _ (inv_intake _ Hi) _ _ _ Hx) as (Ha & Hp & _).
  assert (∃ y, applications (intake (store (invoke (exec c) e w).1)) !! (a, p) = Some y ∧
    application_moves e (store w) x y) as (y & Hy & Hm).
  { unfold invoke. destruct (exec c e w) as [w' u| |] eqn:Hrun; simpl; [|exists x; split; [done|apply AM_same]..].
    apply applications_effect in Hrun as [_ Heff]. by eapply effect_application. }
  exists y. split; [done|]. split; [done|]. by destruct Hm.
Qed.

(** A call that submits an application of [a] for [p]. *)
Definition submits (a : Address) (p : Z) (_ : Env) (c : Call) : bool :=
  match c with CSubmit b q _ _ => bool_decide (b = a) && bool_decide (q = p) | _ => false end.

(** What no call takes back: submissions, published forms and terms, assignments. *)
Record kept (st st' : Store) : Prop := {
  k_applications k : is_Some (applications (intake st) !! k) → is_Some (applications (intake st') !! k);
  k_forms k x : form_schemas (intake st) !! k = Some x → form_schemas (intake st') !! k = Some x;
  k_terms k x : consent_terms (intake st) !! k = Some x → consent_terms (intake st') !! k = Some x;
  k_assignments k r : assignments (review st) !! k = Some r → assignments (review st') !! k = Some r
}.

#[export] Instance kept_preorder : PreOrder kept.
Proof.
  split; [by intros st; split|]. intros st1 st2 st3 [H1 H2 H3 H4] [H5 H6 H7 H8]. split; auto.
Qed.

Lemma effect_keeps e st c st' : inv st → effect e st c st' → kept st st'.
Proof.
  intros Hi Heff. split.
  - intros k [x Hx]. destruct (effect_application e st c st' k x) as (y & Hy & _); [done..|]. by eexists.
  - destruct Heff; try done.
    + intros k x Hk. simpl. rewrite lookup_insert_ne; [done|]. intros <-.
      pose proof (versions_next fs_version _ _ p n (mkFormSchema n h 0) (in_forms _ (inv_intake _ Hi)) H0 H1 eq_refl).
      naive_solver congruence.
    + by destruct b; [unfold rehashed; destruct (applications _ !! _)|].
  - destruct Heff; try done.
    + intros k x Hk. simpl. rewrite lookup_insert_ne; [done|]. intros <-.
      pose proof (versions_next ct_version _ _ p n (mkConsentTerms n h 0) (in_terms _ (inv_intake _ Hi)) H0 H1 eq_refl).
      naive_solver congruence.
    + by destruct b; [unfold rehashed; destruct (applications _ !! _)|].
  - destruct Heff; try done.
    + assert (∀ v, assignments (next_cursor (review st) p m v) = assignments v) as Hnc by by destruct m.
      intros k b Hk. simpl. rewrite Hnc. simpl. rewrite lookup_insert_ne by congruence. done.
    + by destruct b; [unfold rehashed; destruct (applications _ !! _)|].
Qed.

Lemma run_keeps this w calls :
  Reach this w → Forall (λ ec : Env * Call, self ec.1 = this ∧ valid ec.1 ec.2) calls →
  kept (store w) (store (run_calls exec calls w)).
Proof.
  intros Hw Hcalls. revert w Hw. induction Hcalls as [|[e c] calls [Hs Hv] _ IH]; intros w Hw; simpl; [done|].
  simpl in *. etrans; [|by apply IH, reach_call]. apply applications_reachable in Hw as Hi. unfold invoke.
  destruct (exec c e w) as [w' u| |] eqn:Hrun; simpl; [|done..].
  apply applications_effect in Hrun as [_ Heff]. by eapply effect_keeps.
Qed.

(** One application.  From every reachable world, over any sequence of calls by anyone at any
    times, at most one submission of an applicant for a program is accepted, and none once the
    applicant has one; none of the calls, revocations, new terms and privacy requests included,
    removes it. *)
Theorem one_application this w calls a p :
  Reach this w → Forall (λ ec : Env * Call, self ec.1 = this ∧ valid ec.1 ec.2) calls →
  let applied w := bool_decide (is_Some (applications (intake (store w)) !! (a, p))) in
  accepted exec (submits a p) calls w = (if applied (run_calls exec calls w) then 1 else 0) - (if applied w then 1 else 0) ∧
  (applied w = true → applied (run_calls exec calls w) = true).
Proof.
  intros Hw Hcalls applied. pose proof (run_keeps this w calls Hw Hcalls) as Hk. split.
  2: { subst applied. simpl. rewrite !bool_decide_eq_true. apply Hk. }
  pose proof (applications_reachable _ _ Hw) as Hi.
  destruct (accepted_counts exec (λ w, inv (store w)) (λ w, if applied w then 1 else 0) (submits a p) calls w) as [_ Hb];
    [|done|lia].
  intros e c w0 w1 u H0 Hin Hrun. rewrite Forall_forall in Hcalls. destruct (Hcalls _ Hin) as [_ Hv]. simpl in Hv.
  destruct (applications_call_inv c e w0 w1 u) as (_ & Heff & H1); [done..|]. split; [done|].
  unfold applied. destruct Heff; simpl; rewrite ?Z.add_0_r; try done.
  - rewrite lookup_insert. destruct (decide ((a0, p0) = (a, p))) as [Heq|Hne].
    + injection Heq as -> ->. rewrite H8, (bool_decide_eq_true_2 (a = a)), (bool_decide_eq_true_2 (p = p)) by done. done.
    + destruct (bool_decide (a0 = a)) eqn:Ha, (bool_decide (p0 = p)) eqn:Hp; simpl; bool_prop; try lia; congruence.
  - destruct c; simplify_eq; simpl; lia.
  - destruct b; [|done]. unfold rehashed. destruct (applications _ !! (rq_applicant x, _)) as [app|] eqn:Happ; [|done].
    simpl. rewrite lookup_insert. case_decide as Heq; [|done]. rewrite <-Heq, Happ. done.
Qed.

(** Published versions are final and gapless.  Over any sequence of calls from a reachable world
    a published form schema or terms bundle stays as it is, and the versions of a program are
    those from 1 to the latest, before and after. *)
Theorem published_final this w calls p n :
  Reach this w → Forall (λ ec : Env * Call, self ec.1 = this ∧ valid ec.1 ec.2) calls →
  let i := intake (store w) in
  let i' := intake (store (run_calls exec calls w)) in
  (∀ x, form_schemas i !! (p, n) = Some x → fs_version x = n ∧ form_schemas i' !! (p, n) = Some x) ∧
  (∀ x, consent_terms i !! (p, n) = Some x → ct_version x = n ∧ consent_terms i' !! (p, n) = Some x) ∧
  (is_Some (form_schemas i' !! (p, n)) ↔ 1 ≤ n ≤ default 0 (form_versions i' !! p)) ∧
  (is_Some (consent_terms i' !! (p, n)) ↔ 1 ≤ n ≤ default 0 (consent_versions i' !! p)).
Proof.
  intros Hw Hcalls i i'. pose proof (run_keeps this w calls Hw Hcalls) as Hk.
  assert (Reach this (run_calls exec calls w)) as Hi'%applications_reachable by by apply reachable_run.
  apply applications_reachable in Hw as Hi. split_and!.
  - intros x Hx. split; [|by apply Hk]. destruct (in_forms _ (inv_intake _ Hi) p) as (_ & _ & Hp).
    specialize (Hp n). subst i. rewrite Hx in Hp. apply Hp.
  - intros x Hx. split; [|by apply Hk]. destruct (in_terms _ (inv_intake _ Hi) p) as (_ & _ & Hp).
    specialize (Hp n). subst i. rewrite Hx in Hp. apply Hp.
  - apply (versions_published fs_version), Hi'.
  - apply (versions_published ct_version), Hi'.
Qed.

(** ** Reviewers *)

Lemma require_review_admin_run c e w :
  admin (store w) = Some c → authorized e c = true → (require_review_admin c : M unit) e w = Done w tt.
Proof.
  intros Ha Hau. unfold require_review_admin, require_auth. cbv [bind load ok_or reject_if ret fail].
  rewrite Hau, Ha. by rewrite bool_decide_eq_true_2.
Qed.

Lemma seed_offset_bounds seed c : 0 ≤ seed ≤ u64_max → 0 ≤ seed_offset seed c ≤ u64_max.
Proof.
  unfold seed_offset. generalize (to_array c). intros l. revert seed. induction l as [|b l IH]; intros seed Hs; simpl; [done|].
  apply IH. pose proof (Z.mod_pos_bound (seed * 1000003 mod (u64_max + 1) + b) (u64_max + 1)). range_lia.
Qed.

(** Assignment.  In every reachable world an assignment by the admin, unless the application has
    a reviewer, goes to the first reviewer of the pool, read in a circle from the start offset,
    who is active, below capacity and has declared no conflict with the application: it raises
    that reviewer's load by one, records the assignment and moves the cursor of the circular
    modes by one; it is refused exactly when the pool has no such reviewer.  It never panics as
    long as the start offset plus the length of the pool does not overflow 64 bits. *)
Theorem assign_exact this w e c p k m :
  Reach this w → valid e (CAssign c p k m) → admin (store w) = Some c → authorized e c = true →
  let v := review (store w) in
  let pool := default [] (reviewer_pools v !! p) in
  let start := start_offset v p k m in
  start + Z.of_nat (length pool) - 1 ≤ u64_max →
  invoke (assign_reviewer c p k m) e w =
    if decide (is_Some (assignments v !! (p, k))) then (w, Errored (InReview Review.AlreadyAssigned))
    else match first_from (is_eligible v p k) pool start with
    | None => (w, Errored (InReview Review.NoEligibleReviewer))
    | Some r =>
        let x := default (mkProfile false 0 0) (reviewers v !! r) in
        (mkWorld (ledger w)
           (on_review (λ v', next_cursor v p m (put_assignment (p, k) r
             (put_reviewer r (mkProfile (rv_active x) (max_assignments x) (current_assignments x + 1)) v'))) (store w))
           (log w), Returned r)
    end.
Proof.
  intros Hi%applications_reachable [_ Hv] Had Hau v pool start Hmax.
  unfold invoke, assign_reviewer. cbv [bind load]. rewrite require_review_admin_run by done. fold v.
  destruct (assignments v !! (p, k)) as [r0|]; cbv [reject_if fail ret]; simpl; [done|]. fold pool.
  assert (0 ≤ default 0 (round_robin_cursors v !! p) ≤ u32_max) as Hcur.
  { destruct (round_robin_cursors v !! p) as [n|] eqn:Hn; simpl; [by eapply (rv_cursors _ (inv_review _ Hi))|range_lia]. }
  assert (0 ≤ start) as Hs.
  { subst start. destruct m; simpl; [lia..|]. pose proof (seed_offset_bounds seed k). lia. }
  case_bool_decide as Hpool; [by rewrite (first_from_nil _ pool)|].
  match goal with |- context [choose ?f ?l ?n ?steps] => change (choose f l n steps) with
    (choose (is_eligible v p k) pool start (seqZ 0 (Z.of_nat (length pool)))) end.
  pose proof (choose_first (is_eligible v p k) pool start Hs Hmax) as Hch. rewrite Hch. simpl.
  destruct (first_from _ _ _) as [r|]; [|done]. simpl. apply choose_chosen in Hch as [_ [x (Hx & _ & Hlt & _)]%is_eligible_iff].
  fold v. rewrite Hx. simpl. destruct (rv_bounds _ (inv_review _ Hi) _ _ Hx) as [Hb _].
  assert (0 ≤ current_assignments x) as H0.
  { pose proof (rv_loads _ (inv_review _ Hi) r) as Hl. fold v in Hl. rewrite Hx in Hl. simpl in Hl. rewrite Hl.
    apply map_sum_nonneg. intros j b _. by case_decide. }
  unfold checked_add_u32. rewrite checked_in by range_lia. simpl.
  unfold checked_add_u64. destruct m; simpl; rewrite ?checked_in by (subst start; simpl; range_lia); done.
Qed.

(** Loads are the assignments.  In every reachable world the load the pool keeps for a reviewer is
    the number of applications assigned to the reviewer, and it fits the counter; over any
    sequence of calls an assigned application keeps its reviewer. *)
Theorem loads_counted this w calls r :
  Reach this w → Forall (λ ec : Env * Call, self ec.1 = this ∧ valid ec.1 ec.2) calls →
  default 0 (current_assignments <$> reviewers (review (store w)) !! r) = load_of r (review (store w)) ∧
  0 ≤ load_of r (review (store w)) ≤ u32_max ∧
  ∀ k, assignments (review (store w)) !! k = Some r →
    assignments (review (store (run_calls exec calls w))) !! k = Some r.
Proof.
  intros Hw Hcalls. pose proof (run_keeps this w calls Hw Hcalls) as Hk. apply applications_reachable in Hw as Hi.
  pose proof (rv_loads _ (inv_review _ Hi) r) as Hl. split_and!; [done| | |intros k; apply (k_assignments _ _ Hk)].
  - apply map_sum_nonneg. intros j b _. by case_decide.
  - rewrite <-Hl. destruct (reviewers _ !! r) as [x|] eqn:Hx; simpl; [|range_lia].
    by apply (rv_bounds _ (inv_review _ Hi) r).
Qed.

(** ** Privacy *)

(** One export at a time.  In every reachable world two different pending exports belong to
    different applicants or programs; the requests are numbered from 1 without gaps, and the
    last one an applicant made for a program is the one listed. *)
Theorem export_single this w :
  Reach this w →
  let q := privacy (store w) in
  (∀ i j x y, export_requests q !! i = Some x → export_requests q !! j = Some y →
     ex_status x = DataExport.Pending → ex_status y = DataExport.Pending →
     ex_applicant x = ex_applicant y → ex_program_id x = ex_program_id y → i = j) ∧
  (∀ i, is_Some (export_requests q !! i) ↔ 1 ≤ i ≤ default 0 (export_counter q)) ∧
  (∀ i x, export_requests q !! i = Some x → ex_id x = i ∧
     ∃ j, applicant_exports q !! (ex_applicant x, ex_program_id x) = Some j ∧ i ≤ j).
Proof.
  intros Hi%applications_reachable q. pose proof (inv_privacy _ Hi) as Hq. fold q in Hq. split_and!.
  - intros i j x y Hx Hy Hsx Hsy Ha Hp. destruct (ex_own _ Hq _ _ Hx) as (_ & k & Hk & _ & Hpx).
    destruct (ex_own _ Hq _ _ Hy) as (_ & l & Hl & _ & Hpy). rewrite Ha, Hp in Hk. simplify_eq.
    by rewrite (Hpx Hsx), (Hpy Hsy).
  - apply Hq.
  - intros i x Hx. destruct (ex_own _ Hq _ _ Hx) as (? & j & ? & ? & _). split; [done|]. by exists j.
Qed.

(** Answers to a privacy request.  In every reachable world the admin's answer to a pending
    request closes it; an approval also rewrites the answers commitment of the application,
    which always exists; a request that was answered, or never made, is refused. *)
Theorem process_exact this w e c i b reason d :
  Reach this w → admin (store w) = Some c → authorized e c = true →
  invoke (process_privacy_request c i b reason d) e w =
    match requests (privacy (store w)) !! i with
    | None => (w, Errored (InPrivacy Privacy.RequestNotFound))
    | Some x =>
        match rq_status x, applications (intake (store w)) !! (rq_applicant x, rq_program_id x) with
        | Privacy.Pending, Some app =>
            let st1 := if b : bool then on_intake (put_application (rq_applicant x, rq_program_id x) (with_hash (new_hash x) app)) (store w)
                       else store w in
            (mkWorld (ledger w)
               (on_privacy (put_request i (if b : bool then answered Privacy.Approved (timestamp e) zero_hash d x
                                           else answered Privacy.Denied (timestamp e) reason d x)) st1)
               (log w ++ [RESOLVE i b d]), Returned tt)
        | _, _ => (w, Errored (InPrivacy Privacy.RequestAlreadyProcessed))
        end
    end.
Proof.
  intros Hi%applications_reachable Had Hau. unfold invoke, process_privacy_request, require_privacy_admin, get_privacy_request, require_auth.
  cbv [bind load ok_or reject_if ret fail now save publish]. rewrite Hau, Had, bool_decide_eq_true_2 by done. simpl.
  destruct (requests (privacy (store w)) !! i) as [x|] eqn:Hx; [|done].
  destruct (inv_linked _ Hi _ _ Hx) as [app Happ]. rewrite Happ.
  destruct (rq_status x); [|done..]. simpl. destruct b; simpl; by rewrite ?Happ.
Qed.
End Theorems.

(** ** Concrete runs *)
Module Runs.
Definition this : Address := addr 0.
Definition boss : Address := addr 1.
Definition ann : Address := addr 2.
Definition bob : Address := addr 3.
Definition cat : Address := addr 4.
Abbreviation Reach := (reachable exec valid this (λ _ _, True) deployed).

Definition at_time (t : Z) : Env := mkEnv t this (λ _, true).
Definition w0 : World unit Store Event := mkWorld tt empty_store [].
(** A program with a form, terms and two reviewers, of whom [cat] has a conflict with the
    application 0 and [bob] one with the application 5. *)
Definition setup : list (Env * Call) :=
  [(at_time 10, CInitialize boss); (at_time 11, CRegister boss 7 1000); (at_time 12, CPublishForm boss 7 55);
   (at_time 13, CPublishTerms boss 7 66); (at_time 14, CConsent ann 7); (at_time 15, CReviewer boss bob 1);
   (at_time 16, CReviewer boss cat 2); (at_time 17, CPool boss 7 [bob; cat]); (at_time 18, CConflict cat 7 0);
   (at_time 19, CConflict bob 7 5)].
Definition submission : list (Env * Call) :=
  [(at_time 100, CSubmit ann 7 88 1); (at_time 101, CSubmit ann 7 89 1); (at_time 102, CAssign boss 7 5 RoundRobin)].
(** New terms and a revocation; a correction asked for before an erasure and approved after it. *)
Definition later : list (Env * Call) :=
  [(at_time 110, CPublishTerms boss 7 67); (at_time 111, CRevoke ann 7); (at_time 112, CSubmit ann 7 90 1);
   (at_time 120, CCorrect ann 7 99); (at_time 121, CErase ann 7); (at_time 122, CExport ann 7);
   (at_time 123, CExport ann 7); (at_time 130, CProcess boss 2 true 0 true)].
Definition w1 : World unit Store Event := run_calls exec setup w0.
Definition w2 : World unit Store Event := run_calls exec (setup ++ submission) w0.
Definition w3 : World unit Store Event := run_calls exec (setup ++ submission ++ later) w0.

Lemma applications_runs calls :
  Forall (λ ec : Env * Call, self ec.1 = this ∧ valid ec.1 ec.2) calls → Reach (run_calls exec calls w0).
Proof. apply reachable_run. by apply reach_init. Qed.

Ltac valid_calls := repeat constructor; simpl; try done; range_lia.

Lemma applications_w1_reach : Reach w1.
Proof. apply applications_runs. valid_calls. Qed.
Lemma applications_w2_reach : Reach w2.
Proof. apply applications_runs. valid_calls. Qed.
Lemma applications_w3_reach : Reach w3.
Proof. apply applications_runs. valid_calls. Qed.

Definition application_of (h : Z) : Application := mkApplication ann 7 Submitted 100 h 1 1.

Lemma submit_exact_witness :
  (invoke (submit_application ann 7 88 1) (at_time 100) w1).2 = Returned tt ∧
  (invoke (submit_application ann 7 88 2) (at_time 100) w1).2 = Errored (InContract FormSchemaNotFound).
Proof.
  split; rewrite (submit_exact this w1 (at_time 100) ann 7) by (reflexivity || apply applications_w1_reach);
    vm_compute; reflexivity.
Defined.

Lemma application_lifecycle_witness :
  ∃ y, applications (intake (store (run_calls exec [(at_time 140, CProcess boss 1 true 0 true)] w3))) !! (ann, 7) = Some y ∧
    application_moves (at_time 140) (store w3) (application_of 0) y ∧ data_hash y = 99.
Proof.
  destruct (application_lifecycle this w3 (at_time 140) (CProcess boss 1 true 0 true) ann 7 (application_of 0)) as (y & Hy & Hm & _).
  - apply applications_w3_reach.
  - unfold valid. simpl. range_lia.
  - vm_compute. reflexivity.
  - exists y. split; [exact Hy|]. split; [exact Hm|]. vm_compute in Hy. injection Hy as <-. reflexivity.
Defined.

Lemma one_application_witness : accepted exec (submits ann 7) (submission ++ later) w1 = 1.
Proof.
  destruct (one_application this w1 (submission ++ later) ann 7) as [Ha _].
  - apply applications_w1_reach.
  - valid_calls.
  - cbv zeta in Ha. rewrite Ha. vm_compute. reflexivity.
Defined.

Lemma published_final_witness :
  consent_terms (intake (store w1)) !! (7, 1) = Some (mkConsentTerms 1 66 13) ∧
  consent_terms (intake (store (run_calls exec (submission ++ later) w1))) !! (7, 1) = Some (mkConsentTerms 1 66 13).
Proof.
  assert (consent_terms (intake (store w1)) !! (7, 1) = Some (mkConsentTerms 1 66 13)) as Ht by (vm_compute; reflexivity).
  split; [exact Ht|]. destruct (published_final this w1 (submission ++ later) 7 1) as (_ & Hp & _).
  - apply applications_w1_reach.
  - valid_calls.
  - by apply (Hp _ Ht).
Defined.

(** [bob] is first in the pool and has a conflict. *)
Lemma assign_exact_witness :
  (invoke (assign_reviewer boss 7 5 RoundRobin) (at_time 102) w1).2 = Returned cat.
Proof.
  rewrite (assign_exact this w1 (at_time 102) boss 7 5 RoundRobin).
  - vm_compute. reflexivity.
  - apply applications_w1_reach.
  - unfold valid. simpl. range_lia.
  - vm_compute. reflexivity.
  - reflexivity.
  - vm_compute. congruence.
Defined.

(** A seed whose offset is the largest 64-bit number: the assignment panics although [bob] is
    eligible. *)
Lemma seed_panics :
  let seed := 4987519144114984575 in
  0 ≤ seed ≤ u64_max ∧ is_eligible (review (store w1)) 7 0 bob = true ∧
  (invoke (assign_reviewer boss 7 0 (SeededRandom seed)) (at_time 102) w1).2 = Panicked.
Proof. cbv zeta. split; [range_lia|]. vm_compute. split; reflexivity. Qed.

Lemma loads_counted_witness :
  load_of cat (review (store w2)) = 1 ∧
  assignments (review (store (run_calls exec later w2))) !! (7, 5) = Some cat.
Proof.
  destruct (loads_counted this w2 later cat) as (Hl & _ & Hk).
  - apply applications_w2_reach.
  - valid_calls.
  - split; [rewrite <-Hl; vm_compute; reflexivity|]. apply Hk. vm_compute. reflexivity.
Defined.

Lemma export_single_witness : is_Some (export_requests (privacy (store w3)) !! 1).
Proof. destruct (export_single this w3 applications_w3_reach) as (_ & Hi & _). apply Hi. vm_compute. split; congruence. Defined.

(** The erasure was approved; the older correction then puts a commitment back. *)
Lemma process_exact_witness :
  applications (intake (store w3)) !! (ann, 7) = Some (application_of 0) ∧
  applications (intake (store (invoke (process_privacy_request boss 1 true 0 true) (at_time 140) w3).1)) !! (ann, 7) =
    Some (application_of 99).
Proof.
  split; [vm_compute; reflexivity|].
  rewrite (process_exact this w3 (at_time 140) boss 1 true 0 true applications_w3_reach) by (vm_compute; reflexivity).
  vm_compute. reflexivity.
Defined.
End Runs.
