(* ===== verification/Rematch.v ===== *)
(** * Rematching ([mentorship-rematch/src/lib.rs])

    A participant of a match asks for a rematch; a coordinator reviews the request, proposes a
    successor, whom the mentee approves, and then closes the engagement or supersedes the match
    by a new one.  Records are never removed; open financial or safety cases block both ends. *)
From S2P Require Import Prelude Machine Host.

Definition MAX_REQUESTS_PER_MATCH : nat := 8.
Definition MAX_COORDINATORS : nat := 16.
Definition MIN_PROPOSAL_WINDOW_SECONDS : Z := 60.
Definition MAX_PROPOSAL_WINDOW_SECONDS : Z := 2592000.

Inductive ContractError :=
| NotInitialized | AlreadyInitialized | NotAdmin | NotCoordinator | NotRegistrar | NotAuthorized | MatchNotFound
| MatchAlreadyRegistered | MatchNotActive | RematchRequestNotFound | RematchAlreadyOpen | RequestLimitReached
| InvalidRequestState | InvalidSuccessor | ProposalExpired | UnsafeClosureBlocked | ClosurePlanMissing
| InvalidConfig | RequestAlreadyExists | IdempotencyConflict | CoordinatorLimitReached | CoordinatorNotFound.

Inductive MatchStatus := Active | Closed | Superseded.
Inductive RematchReason := Incompatibility | AvailabilityChange | ConflictOfInterest | SafetyConcern | Other.
Inductive RequestStatus :=
| Open | InReview | SuccessorProposed | ApprovedForClosure | Rejected | ReqClosed | ReqSuperseded.

#[export] Instance MatchStatus_eq_dec : EqDecision MatchStatus.
Proof. solve_decision. Defined.
#[export] Instance RematchReason_eq_dec : EqDecision RematchReason.
Proof. solve_decision. Defined.
#[export] Instance RequestStatus_eq_dec : EqDecision RequestStatus.
Proof. solve_decision. Defined.

Record MatchRecord := mkMatch {
  match_id : BytesN32; agreement_id : BytesN32; mentor : Address; mentee : Address; status : MatchStatus;
  successor_match_id : option BytesN32; superseded_match_id : option BytesN32; created_at : Z; closed_at : Z
}.

Record RematchRequest := mkRequest {
  request_id : BytesN32; rq_match_id : BytesN32; requested_by : Address; reason : RematchReason;
  reason_hash : BytesN32; closure_plan_hash : BytesN32; rq_created_at : Z; review_started_at : Z;
  rq_status : RequestStatus; successor : option Address; proposal_hash : BytesN32; proposed_at : Z;
  proposal_expires_at : Z; successor_approved_at : Z; rq_closed_at : Z
}.

Record CaseFlags := mkFlags { financial_open : bool; safety_open : bool }.
Record RematchStats := mkStats {
  total_matches : Z; open_requests : Z; closed_requests : Z; superseded_matches : Z
}.

Inductive Event :=
| SCOORD (a : Address)
| RCOORD (a : Address)
| REGISTRAR (a : Address)
| PWINDOW (n : Z)
| MREG (m : BytesN32)
| RMREQ (i m : BytesN32) (r : RematchReason)
| RMRVW (i : BytesN32) (c : Address)
| RMREJ (i : BytesN32) (c : Address)
| RMFLAG (m : BytesN32) (financial safety : bool)
| RMSUCC (i : BytesN32) (s : Address) (expires : Z)
| RMAPPR (i : BytesN32) (c : Address) (t : Z)
| RMCLSE (i m : BytesN32) (t : Z)
| RMSUPER (i m s : BytesN32)
| UPGRADED (h : BytesN32).

Record Store := mkStore {
  admin : option Address;
  registrar : option Address;
  coordinators : option (list Address);
  proposal_window : option Z;
  stats : option RematchStats;
  matches : gmap Z MatchRecord;
  requests : gmap Z RematchRequest;
  match_requests : gmap Z (list Z);
  case_flags : gmap Z CaseFlags
}.

Definition put_admin (a : Address) (st : Store) : Store :=
  mkStore (Some a) (registrar st) (coordinators st) (proposal_window st) (stats st) (matches st) (requests st)
    (match_requests st) (case_flags st).
Definition put_registrar (a : Address) (st : Store) : Store :=
  mkStore (admin st) (Some a) (coordinators st) (proposal_window st) (stats st) (matches st) (requests st)
    (match_requests st) (case_flags st).
Definition put_coordinators (l : list Address) (st : Store) : Store :=
  mkStore (admin st) (registrar st) (Some l) (proposal_window st) (stats st) (matches st) (requests st)
    (match_requests st) (case_flags st).
Definition put_window (n : Z) (st : Store) : Store :=
  mkStore (admin st) (registrar st) (coordinators st) (Some n) (stats st) (matches st) (requests st)
    (match_requests st) (case_flags st).
Definition put_stats (s : RematchStats) (st : Store) : Store :=
  mkStore (admin st) (registrar st) (coordinators st) (proposal_window st) (Some s) (matches st) (requests st)
    (match_requests st) (case_flags st).
Definition put_match (x : MatchRecord) (st : Store) : Store :=
  mkStore (admin st) (registrar st) (coordinators st) (proposal_window st) (stats st)
    (<[match_id x := x]> (matches st)) (requests st) (match_requests st) (case_flags st).
Definition put_request (x : RematchRequest) (st : Store) : Store :=
  mkStore (admin st) (registrar st) (coordinators st) (proposal_window st) (stats st) (matches st)
    (<[request_id x := x]> (requests st)) (match_requests st) (case_flags st).
Definition put_match_requests (m : BytesN32) (l : list Z) (st : Store) : Store :=
  mkStore (admin st) (registrar st) (coordinators st) (proposal_window st) (stats st) (matches st) (requests st)
    (<[m := l]> (match_requests st)) (case_flags st).
Definition put_case_flags (m : BytesN32) (f : CaseFlags) (st : Store) : Store :=
  mkStore (admin st) (registrar st) (coordinators st) (proposal_window st) (stats st) (matches st) (requests st)
    (match_requests st) (<[m := f]> (case_flags st)).

Definition zero_hash : BytesN32 := 0.
Definition zero_stats : RematchStats := mkStats 0 0 0 0.
Definition no_cases : CaseFlags := mkFlags false false.
Definition get_coordinators (st : Store) : list Address := default [] (coordinators st).
Definition is_coordinator (st : Store) (a : Address) : bool := existsb (λ c, bool_decide (c = a)) (get_coordinators st).
Definition flags_of (m : BytesN32) (st : Store) : CaseFlags := default no_cases (case_flags st !! m).
Definition requests_of (m : BytesN32) (st : Store) : list Z := default [] (match_requests st !! m).

(** ** Changes of a record *)

(** A match that ends at [t]. *)
Definition ended (s : MatchStatus) (next : option BytesN32) (t : Z) (x : MatchRecord) : MatchRecord :=
  mkMatch (match_id x) (agreement_id x) (mentor x) (mentee x) s next (superseded_match_id x) (created_at x) t.
(** The match that takes over. *)
Definition successor_of (i : BytesN32) (s : Address) (t : Z) (x : MatchRecord) : MatchRecord :=
  mkMatch i (agreement_id x) s (mentee x) Active None (Some (match_id x)) t 0.

Definition in_review (t : Z) (x : RematchRequest) : RematchRequest :=
  mkRequest (request_id x) (rq_match_id x) (requested_by x) (reason x) (reason_hash x) (closure_plan_hash x)
    (rq_created_at x) t InReview (successor x) (proposal_hash x) (proposed_at x) (proposal_expires_at x)
    (successor_approved_at x) (rq_closed_at x).
Definition with_status (s : RequestStatus) (t : Z) (x : RematchRequest) : RematchRequest :=
  mkRequest (request_id x) (rq_match_id x) (requested_by x) (reason x) (reason_hash x) (closure_plan_hash x)
    (rq_created_at x) (review_started_at x) s (successor x) (proposal_hash x) (proposed_at x) (proposal_expires_at x)
    (successor_approved_at x) t.
Definition proposed (a : Address) (h t expires : Z) (x : RematchRequest) : RematchRequest :=
  mkRequest (request_id x) (rq_match_id x) (requested_by x) (reason x) (reason_hash x) (closure_plan_hash x)
    (rq_created_at x) (review_started_at x) SuccessorProposed (Some a) h t expires (successor_approved_at x)
    (rq_closed_at x).
Definition approved (t : Z) (x : RematchRequest) : RematchRequest :=
  mkRequest (request_id x) (rq_match_id x) (requested_by x) (reason x) (reason_hash x) (closure_plan_hash x)
    (rq_created_at x) (review_started_at x) ApprovedForClosure (successor x) (proposal_hash x) (proposed_at x)
    (proposal_expires_at x) t (rq_closed_at x).

(** The states in which a request counts as open. *)
Definition is_open (s : RequestStatus) : bool :=
  bool_decide (s = Open) || bool_decide (s = InReview) || bool_decide (s = SuccessorProposed) ||
  bool_decide (s = ApprovedForClosure).

(** The closures given to [bump_stats]. *)
Definition stat_matched (s : RematchStats) : RematchStats :=
  mkStats (saturating_add_u32 (total_matches s) 1) (open_requests s) (closed_requests s) (superseded_matches s).
Definition stat_opened (s : RematchStats) : RematchStats :=
  mkStats (total_matches s) (saturating_add_u32 (open_requests s) 1) (closed_requests s) (superseded_matches s).
Definition stat_closed (s : RematchStats) : RematchStats :=
  mkStats (total_matches s) (saturating_sub_u32 (open_requests s) 1) (saturating_add_u32 (closed_requests s) 1)
    (superseded_matches s).
Definition stat_superseded (s : RematchStats) : RematchStats :=
  mkStats (saturating_add_u32 (total_matches s) 1) (saturating_sub_u32 (open_requests s) 1)
    (saturating_add_u32 (closed_requests s) 1) (saturating_add_u32 (superseded_matches s) 1).
Definition bump (f : RematchStats → RematchStats) (st : Store) : Store :=
  put_stats (f (default zero_stats (stats st))) st.

Section Contract.
Context {L : Type}.
Abbreviation M := (Contract L Store Event ContractError).

Definition bump_stats (f : RematchStats → RematchStats) : M unit := save (bump f).

Definition require_admin (caller : Address) : M unit := require_admin_of admin NotInitialized NotAdmin caller.
Definition require_coordinator (caller : Address) : M unit :=
  b <- load (λ st, is_coordinator st caller) ;;
  reject_if (negb b) NotCoordinator ;;;
  require_auth caller.
Definition require_registrar (caller : Address) : M unit :=
  require_admin_of registrar NotInitialized NotRegistrar caller.

Definition validate_window (n : Z) : M unit :=
  reject_if (negb ((MIN_PROPOSAL_WINDOW_SECONDS <=? n) && (n <=? MAX_PROPOSAL_WINDOW_SECONDS))) InvalidConfig.

Definition load_match (m : BytesN32) : M MatchRecord :=
  o <- load (λ st, matches st !! m) ;; ok_or o MatchNotFound.
Definition load_request (i : BytesN32) : M RematchRequest :=
  o <- load (λ st, requests st !! i) ;; ok_or o RematchRequestNotFound.
Definition require_no_open_cases (m : BytesN32) : M unit :=
  f <- load (flags_of m) ;;
  reject_if (financial_open f || safety_open f) UnsafeClosureBlocked.

Definition initialize (a : Address) (n : Z) : M unit :=
  o <- load admin ;;
  reject_if (bool_decide (is_Some o)) AlreadyInitialized ;;;
  require_auth a ;;;
  validate_window n ;;;
  save (put_admin a) ;;;
  save (put_registrar a) ;;;
  save (put_window n) ;;;
  save (put_coordinators [a]) ;;;
  save (put_stats zero_stats).

Definition get_admin : M Address := o <- load admin ;; ok_or o NotInitialized.
Definition get_registrar : M Address := o <- load registrar ;; ok_or o NotInitialized.
Definition proposal_window_seconds : M Z := o <- load proposal_window ;; ok_or o NotInitialized.

Definition register_coordinator (caller c : Address) : M unit :=
  require_admin caller ;;;
  b <- load (λ st, is_coordinator st c) ;;
  if b : bool then ret tt
  else
    l <- load get_coordinators ;;
    reject_if (MAX_COORDINATORS <=? length l)%nat CoordinatorLimitReached ;;;
    save (put_coordinators (l ++ [c])) ;;;
    publish (SCOORD c).

Definition revoke_coordinator (caller c : Address) : M unit :=
  require_admin caller ;;;
  b <- load (λ st, is_coordinator st c) ;;
  l <- load get_coordinators ;;
  reject_if (negb b) CoordinatorNotFound ;;;
  save (put_coordinators (filter (λ x, x ≠ c) l)) ;;;
  publish (RCOORD c).

Definition set_registrar (caller r : Address) : M unit :=
  require_admin caller ;;;
  save (put_registrar r) ;;;
  publish (REGISTRAR r).

Definition set_proposal_window (caller : Address) (n : Z) : M unit :=
  require_admin caller ;;;
  validate_window n ;;;
  save (put_window n) ;;;
  publish (PWINDOW n).

Definition register_match (caller : Address) (m g : BytesN32) (a b : Address) : M unit :=
  require_registrar caller ;;;
  o <- load (λ st, matches st !! m) ;;
  reject_if (bool_decide (is_Some o)) MatchAlreadyRegistered ;;;
  reject_if (bool_decide (a = b)) NotAuthorized ;;;
  t <- now ;;
  save (put_match (mkMatch m g a b Active None None t 0)) ;;;
  bump_stats stat_matched ;;;
  publish (MREG m).

(** The retry of a request carries the same payload. *)
Definition same_payload (m : BytesN32) (c : Address) (r : RematchReason) (h p : BytesN32) (x : RematchRequest) : bool :=
  (rq_match_id x =? m) && bool_decide (requested_by x = c) && bool_decide (reason x = r) && (reason_hash x =? h) &&
  (closure_plan_hash x =? p).

Definition request_rematch (caller : Address) (m i : BytesN32) (r : RematchReason) (h p : BytesN32) : M unit :=
  x <- load_match m ;;
  reject_if (negb (bool_decide (status x = Active))) MatchNotActive ;;;
  reject_if (negb (bool_decide (caller = mentor x)) && negb (bool_decide (caller = mentee x))) NotAuthorized ;;;
  require_auth caller ;;;
  reject_if (p =? zero_hash) ClosurePlanMissing ;;;
  o <- load (λ st, requests st !! i) ;;
  match o with
  | Some y => reject_if (negb (same_payload m caller r h p y)) IdempotencyConflict
  | None =>
      ids <- load (requests_of m) ;;
      reject_if (MAX_REQUESTS_PER_MATCH <=? length ids)%nat RequestLimitReached ;;;
      for_in ids tt (λ j _,
        y <- load_request j ;;
        reject_if (is_open (rq_status y)) RematchAlreadyOpen) ;;;
      t <- now ;;
      save (put_request (mkRequest i m caller r h p t 0 Open None zero_hash 0 0 0 0)) ;;;
      save (put_match_requests m (ids ++ [i])) ;;;
      bump_stats stat_opened ;;;
      publish (RMREQ i m r)
  end.

Definition get_request (caller : Address) (i : BytesN32) : M RematchRequest :=
  y <- load_request i ;;
  x <- load_match (rq_match_id y) ;;
  b <- load (λ st, is_coordinator st caller) ;;
  reject_if (negb (bool_decide (caller = mentor x) || bool_decide (caller = mentee x)) && negb b) NotAuthorized ;;;
  require_auth caller ;;;
  ret y.

Definition start_review (caller : Address) (i : BytesN32) : M unit :=
  require_coordinator caller ;;;
  y <- load_request i ;;
  reject_if (negb (bool_decide (rq_status y = Open))) InvalidRequestState ;;;
  t <- now ;;
  save (put_request (in_review t y)) ;;;
  publish (RMRVW i caller).

Definition reject_request (caller : Address) (i : BytesN32) : M unit :=
  require_coordinator caller ;;;
  y <- load_request i ;;
  reject_if (negb (bool_decide (rq_status y = Open)) && negb (bool_decide (rq_status y = InReview))) InvalidRequestState ;;;
  save (put_request (with_status Rejected (rq_closed_at y) y)) ;;;
  bump_stats stat_closed ;;;
  publish (RMREJ i caller).

Definition set_case_flags (caller : Address) (m : BytesN32) (financial safety : bool) : M unit :=
  require_coordinator caller ;;;
  load_match m ;;;
  save (put_case_flags m (mkFlags financial safety)) ;;;
  publish (RMFLAG m financial safety).

Definition propose_successor (caller : Address) (i : BytesN32) (a : Address) (h : BytesN32) : M unit :=
  require_coordinator caller ;;;
  y <- load_request i ;;
  reject_if (negb (bool_decide (rq_status y = InReview)) && negb (bool_decide (rq_status y = SuccessorProposed)))
    InvalidRequestState ;;;
  x <- load_match (rq_match_id y) ;;
  reject_if (bool_decide (a = mentor x) || bool_decide (a = mentee x)) InvalidSuccessor ;;;
  n <- proposal_window_seconds ;;
  t <- now ;;
  expires <- ok_or (checked_add_u64 t n) InvalidConfig ;;
  save (put_request (proposed a h t expires y)) ;;;
  publish (RMSUCC i a expires).

Definition approve_successor (caller : Address) (i : BytesN32) : M unit :=
  y <- load_request i ;;
  x <- load_match (rq_match_id y) ;;
  reject_if (negb (bool_decide (caller = mentee x))) NotAuthorized ;;;
  require_auth caller ;;;
  if bool_decide (rq_status y = ApprovedForClosure) then ret tt
  else
    reject_if (negb (bool_decide (rq_status y = SuccessorProposed))) InvalidRequestState ;;;
    t <- now ;;
    reject_if (proposal_expires_at y <? t) ProposalExpired ;;;
    save (put_request (approved t y)) ;;;
    publish (RMAPPR i caller t).

Definition close_engagement (caller : Address) (i : BytesN32) : M unit :=
  require_coordinator caller ;;;
  y <- load_request i ;;
  reject_if (negb (bool_decide (rq_status y = InReview)) && negb (bool_decide (rq_status y = SuccessorProposed)) &&
             negb (bool_decide (rq_status y = ApprovedForClosure))) InvalidRequestState ;;;
  x <- load_match (rq_match_id y) ;;
  require_no_open_cases (match_id x) ;;;
  t <- now ;;
  save (put_match (ended Closed (successor_match_id x) t x)) ;;;
  save (put_request (with_status ReqClosed t y)) ;;;
  bump_stats stat_closed ;;;
  publish (RMCLSE i (match_id x) t).

Definition apply_successor (caller : Address) (i s : BytesN32) : M unit :=
  require_coordinator caller ;;;
  y <- load_request i ;;
  reject_if (negb (bool_decide (rq_status y = ApprovedForClosure))) InvalidRequestState ;;;
  x <- load_match (rq_match_id y) ;;
  require_no_open_cases (match_id x) ;;;
  a <- ok_or (successor y) InvalidRequestState ;;
  o <- load (λ st, matches st !! s) ;;
  reject_if (bool_decide (is_Some o)) MatchAlreadyRegistered ;;;
  t <- now ;;
  save (put_match (successor_of s a t x)) ;;;
  save (put_match (ended Superseded (Some s) t x)) ;;;
  save (put_request (with_status ReqSuperseded t y)) ;;;
  bump_stats stat_superseded ;;;
  publish (RMSUPER i (match_id x) s).

Definition get_match (m : BytesN32) : M MatchRecord := load_match m.
Definition get_match_requests (m : BytesN32) : M (list Z) := load (requests_of m).
Definition get_case_flags (m : BytesN32) : M CaseFlags := load_match m ;;; load (flags_of m).
Definition get_stats : M RematchStats := o <- load stats ;; ok_or o NotInitialized.

(** The code is replaced by the host. *)
Definition upgrade (caller : Address) (h : BytesN32) : M unit :=
  require_admin caller ;;;
  publish (UPGRADED h).

(** ** Calls *)

Inductive Call :=
| CInitialize (a : Address) (n : Z)
| CCoordinator (caller c : Address)
| CRevoke (caller c : Address)
| CRegistrar (caller r : Address)
| CWindow (caller : Address) (n : Z)
| CMatch (caller : Address) (m g : BytesN32) (a b : Address)
| CRequest (caller : Address) (m i : BytesN32) (r : RematchReason) (h p : BytesN32)
| CReview (caller : Address) (i : BytesN32)
| CReject (caller : Address) (i : BytesN32)
| CFlags (caller : Address) (m : BytesN32) (financial safety : bool)
| CPropose (caller : Address) (i : BytesN32) (a : Address) (h : BytesN32)
| CApprove (caller : Address) (i : BytesN32)
| CClose (caller : Address) (i : BytesN32)
| CApply (caller : Address) (i s : BytesN32).

Definition exec (c : Call) : M unit :=
  match c with
  | CInitialize a n => initialize a n
  | CCoordinator c a => register_coordinator c a
  | CRevoke c a => revoke_coordinator c a
  | CRegistrar c r => set_registrar c r
  | CWindow c n => set_proposal_window c n
  | CMatch c m g a b => register_match c m g a b
  | CRequest c m i r h p => request_rematch c m i r h p
  | CReview c i => start_review c i
  | CReject c i => reject_request c i
  | CFlags c m f s => set_case_flags c m f s
  | CPropose c i a h => propose_successor c i a h
  | CApprove c i => approve_successor c i
  | CClose c i => close_engagement c i
  | CApply c i s => apply_successor c i s
  end.
End Contract.

(** The declared widths of the arguments. *)
Definition valid (e : Env) (c : Call) : Prop :=
  0 ≤ timestamp e ≤ u64_max ∧
  match c with CInitialize _ n | CWindow _ n => 0 ≤ n ≤ u32_max | _ => True end.
