(* ===== verification/RematchProps.v ===== *)
(** * Rematching: effects and invariant

    One relation for the calls that return: what they have checked and the store they leave.

    Superseded matches and their successors point at each other, at most one request of a match
    is open and only while the match is active, the index of a match lists its requests, and
    the statistics count the records; every call that returns keeps it so. *)
From S2P Require Import Prelude Machine Host Loops Rematch.

Definition participant (c : Address) (x : MatchRecord) : Prop := c = mentor x ∨ c = mentee x.

Definition coordinates (e : Env) (st : Store) (c : Address) : Prop :=
  c ∈ get_coordinators st ∧ authorized e c = true.

Inductive effect (e : Env) (st : Store) : Call → Store → Prop :=
| E_initialize a n :
    admin st = None → MIN_PROPOSAL_WINDOW_SECONDS ≤ n ≤ MAX_PROPOSAL_WINDOW_SECONDS →
    effect e st (CInitialize a n)
      (put_stats zero_stats (put_coordinators [a] (put_window n (put_registrar a (put_admin a st)))))
| E_coordinator_same c a : effect e st (CCoordinator c a) st
| E_coordinator c a :
    admin st = Some c → a ∉ get_coordinators st → (length (get_coordinators st) < MAX_COORDINATORS)%nat →
    effect e st (CCoordinator c a) (put_coordinators (get_coordinators st ++ [a]) st)
| E_revoke c a :
    admin st = Some c → effect e st (CRevoke c a) (put_coordinators (filter (λ x, x ≠ a) (get_coordinators st)) st)
| E_registrar c r : admin st = Some c → effect e st (CRegistrar c r) (put_registrar r st)
| E_window c n :
    admin st = Some c → MIN_PROPOSAL_WINDOW_SECONDS ≤ n ≤ MAX_PROPOSAL_WINDOW_SECONDS →
    effect e st (CWindow c n) (put_window n st)
| E_match c m g a b :
    registrar st = Some c → matches st !! m = None → a ≠ b →
    effect e st (CMatch c m g a b) (bump stat_matched (put_match (mkMatch m g a b Active None None (timestamp e) 0) st))
| E_retry c m i r h p y : requests st !! i = Some y → effect e st (CRequest c m i r h p) st
| E_request c m i r h p x :
    matches st !! m = Some x → status x = Active → participant c x → authorized e c = true → p ≠ zero_hash →
    requests st !! i = None → (length (requests_of m st) < MAX_REQUESTS_PER_MATCH)%nat →
    (∀ j, j ∈ requests_of m st → ∃ y, requests st !! j = Some y ∧ is_open (rq_status y) = false) →
    effect e st (CRequest c m i r h p)
      (bump stat_opened (put_match_requests m (requests_of m st ++ [i])
        (put_request (mkRequest i m c r h p (timestamp e) 0 Open None zero_hash 0 0 0 0) st)))
| E_review c i y :
    coordinates e st c → requests st !! i = Some y → rq_status y = Open →
    effect e st (CReview c i) (put_request (in_review (timestamp e) y) st)
| E_reject c i y :
    coordinates e st c → requests st !! i = Some y → rq_status y = Open ∨ rq_status y = InReview →
    effect e st (CReject c i) (bump stat_closed (put_request (with_status Rejected (rq_closed_at y) y) st))
| E_flags c m f s :
    coordinates e st c → is_Some (matches st !! m) → effect e st (CFlags c m f s) (put_case_flags m (mkFlags f s) st)
| E_propose c i a h y x n :
    coordinates e st c → requests st !! i = Some y → rq_status y = InReview ∨ rq_status y = SuccessorProposed →
    matches st !! rq_match_id y = Some x → ¬ participant a x → proposal_window st = Some n →
    timestamp e + n ≤ u64_max →
    effect e st (CPropose c i a h) (put_request (proposed a h (timestamp e) (timestamp e + n) y) st)
| E_approve_again c i y :
    requests st !! i = Some y → rq_status y = ApprovedForClosure → effect e st (CApprove c i) st
| E_approve c i y x :
    requests st !! i = Some y → matches st !! rq_match_id y = Some x → c = mentee x → authorized e c = true →
    rq_status y = SuccessorProposed → timestamp e ≤ proposal_expires_at y →
    effect e st (CApprove c i) (put_request (approved (timestamp e) y) st)
| E_close c i y x :
    coordinates e st c → requests st !! i = Some y →
    rq_status y = InReview ∨ rq_status y = SuccessorProposed ∨ rq_status y = ApprovedForClosure →
    matches st !! rq_match_id y = Some x → flags_of (match_id x) st = no_cases →
    effect e st (CClose c i)
      (bump stat_closed (put_request (with_status ReqClosed (timestamp e) y)
        (put_match (ended Closed (successor_match_id x) (timestamp e) x) st)))
| E_apply c i s y x a :
    coordinates e st c → requests st !! i = Some y → rq_status y = ApprovedForClosure → successor y = Some a →
    matches st !! rq_match_id y = Some x → flags_of (match_id x) st = no_cases → matches st !! s = None →
    effect e st (CApply c i s)
      (bump stat_superseded (put_request (with_status ReqSuperseded (timestamp e) y)
        (put_match (ended Superseded (Some s) (timestamp e) x) (put_match (successor_of s a (timestamp e) x) st)))).

Lemma is_coordinator_iff st a : is_coordinator st a = true ↔ a ∈ get_coordinators st.
Proof.
  unfold is_coordinator. rewrite existsb_exists. setoid_rewrite bool_decide_eq_true.
  setoid_rewrite <-list_elem_of_In. naive_solver.
Qed.

Lemma no_cases_iff f : financial_open f || safety_open f = false ↔ f = no_cases.
Proof. destruct f as [[] []]; naive_solver. Qed.

Section Effects.
Context {L : Type}.
Abbreviation W := (World L Store Event).
Abbreviation M := (Contract L Store Event ContractError).
Implicit Types (w : W).

Lemma require_coordinator_done c e w w' u :
  (require_coordinator c : M unit) e w = Done w' u → w' = w ∧ coordinates e (store w) c.
Proof. intros Hrun. unfold require_coordinator in Hrun. run_inv. bool_prop. by rewrite is_coordinator_iff in *. Qed.

(** The walk over the requests of a match: all of them are closed. *)
Lemma open_check_done ids e w w' u :
  for_in ids tt (λ j _, bind (load_request j) (λ y, reject_if (is_open (rq_status y)) RematchAlreadyOpen)) e w
    = Done w' u →
  w' = w ∧ ∀ j, j ∈ ids → ∃ y, requests (store w) !! j = Some y ∧ is_open (rq_status y) = false.
Proof.
  revert w. induction ids as [|j ids IH]; intros w Hrun; simpl in Hrun.
  { run_inv. split; [done|]. by intros j ?%elem_of_nil. }
  unfold load_request in Hrun. run_inv. apply IH in Hrun as [-> Hall]. split; [done|].
  intros k [->|Hk]%elem_of_cons; [by eexists|auto].
Qed.

Ltac rematch_inv :=
  unfold require_admin, require_registrar, validate_window, load_match, load_request, require_no_open_cases,
    proposal_window_seconds, bump_stats in *;
  repeat (run_inv;
    match goal with
    | H : require_coordinator _ _ _ = Done _ _ |- _ =>
        let H1 := fresh "Hco" in apply require_coordinator_done in H as (-> & H1)
    end);
  run_inv; bool_prop; checked_prop;
  repeat match goal with
  | H : ¬ is_Some _ |- _ => apply eq_None_not_Some in H
  | H : financial_open _ = false |- _ => clear H
  end.

Lemma cases_closed m e w w' u :
  (require_no_open_cases m : M unit) e w = Done w' u → w' = w ∧ flags_of m (store w) = no_cases.
Proof. intros Hrun. unfold require_no_open_cases in Hrun. run_inv. by rewrite no_cases_iff in *. Qed.

Lemma request_rematch_done c m i r h p e w w' u :
  (request_rematch c m i r h p : M unit) e w = Done w' u →
  ledger w' = ledger w ∧ effect e (store w) (CRequest c m i r h p) (store w').
Proof.
  intros Hrun. unfold request_rematch, load_match in Hrun. run_inv.
  destruct (requests (store w) !! i) as [y|] eqn:Hy.
  - run_inv. split; [done|]. by apply (E_retry e (store w) c m i r h p y).
  - run_inv. match goal with H : for_in _ _ _ _ _ = _ |- _ => apply open_check_done in H as [-> Hall] end.
    unfold bump_stats in *. run_inv. split; [done|].
    match goal with H : (_ && _) = false |- _ => rename H into Hpart end.
    match goal with H : (_ <=? _)%nat = false |- _ => rename H into Hlen end.
    match goal with H : matches _ !! _ = Some ?x |- _ => apply (E_request e (store w) c m i r h p x) end;
      bool_prop; try done; [|by apply Nat.leb_gt].
    unfold participant. destruct Hpart; bool_prop; auto.
Qed.

Lemma rematch_effect c e w w' u :
  (exec c : M unit) e w = Done w' u → ledger w' = ledger w ∧ effect e (store w) c (store w').
Proof.
  intros Hrun.
  destruct c as [a n|c a|c a|c r|c n|c m g a b|c m i r h p|c i|c i|c m f s|c i a h|c i|c i|c i s]; simpl in Hrun.
  - unfold initialize in Hrun. rematch_inv. split; [done|]. by apply E_initialize.
  - unfold register_coordinator in Hrun. rematch_inv.
    match goal with H : (if _ then _ else _) _ _ = _ |- _ => revert H end.
    destruct (is_coordinator (store w) a) eqn:Hc; intros Hif; rematch_inv; (split; [done|]);
      [apply E_coordinator_same|]. apply E_coordinator; [done| |by apply Nat.leb_gt].
    by rewrite <-is_coordinator_iff, not_true_iff_false.
  - unfold revoke_coordinator in Hrun. rematch_inv. split; [done|]. by apply E_revoke.
  - unfold set_registrar in Hrun. rematch_inv. split; [done|]. by apply E_registrar.
  - unfold set_proposal_window in Hrun. rematch_inv. split; [done|]. by apply E_window.
  - unfold register_match in Hrun. rematch_inv. split; [done|]. by apply E_match.
  - by eapply request_rematch_done.
  - unfold start_review in Hrun. rematch_inv. split; [done|]. by apply E_review.
  - unfold reject_request in Hrun. rematch_inv. split; [done|]. apply E_reject; try done.
    match goal with H : _ ∨ _ |- _ => destruct H; bool_prop; auto end.
  - unfold set_case_flags in Hrun. rematch_inv. split; [done|]. apply E_flags; [done|by eexists].
  - unfold propose_successor in Hrun. rematch_inv. split; [done|].
    eapply E_propose; try done; [|by intros [?|?]|lia].
    match goal with H : _ ∨ _ |- _ => destruct H; bool_prop; auto end.
  - unfold approve_successor in Hrun. rematch_inv.
    match goal with H : (if bool_decide (rq_status ?y = _) then _ else _) _ _ = _ |- _ =>
      rename y into z; destruct (decide (rq_status z = ApprovedForClosure)) as [Hs|Hs];
      [rewrite bool_decide_eq_true_2 in H by done|rewrite bool_decide_eq_false_2 in H by done] end; rematch_inv;
      (split; [done|]); [by eapply E_approve_again|by eapply E_approve].
  - unfold close_engagement in Hrun. run_inv.
    repeat match goal with
    | H : require_no_open_cases _ _ _ = _ |- _ => apply cases_closed in H as [-> Hca] end. rematch_inv.
    split; [done|]. eapply E_close; try done.
    match goal with H : _ ∨ _ |- _ => destruct H as [H|H]; bool_prop; [destruct H; bool_prop|]; auto end.
  - unfold apply_successor in Hrun. run_inv.
    repeat match goal with
    | H : require_no_open_cases _ _ _ = _ |- _ => apply cases_closed in H as [-> Hca] end. rematch_inv.
    split; [done|]. by eapply E_apply.
Qed.
End Effects.

(** ** Matches *)

Definition match_ok (ms : gmap Z MatchRecord) (m : Z) (x : MatchRecord) : Prop :=
  match_id x = m ∧ mentor x ≠ mentee x ∧
  match status x with
  | Active => successor_match_id x = None ∧ closed_at x = 0
  | Closed => successor_match_id x = None
  | Superseded => ∃ s y, successor_match_id x = Some s ∧ ms !! s = Some y ∧ superseded_match_id y = Some m ∧
      mentee y = mentee x ∧ mentor y ≠ mentor x ∧ agreement_id y = agreement_id x ∧ created_at y = closed_at x
  end ∧
  ∀ p, superseded_match_id x = Some p → ∃ z, ms !! p = Some z ∧ status z = Superseded ∧ successor_match_id z = Some m.

Definition matches_ok (ms : gmap Z MatchRecord) : Prop := map_Forall (match_ok ms) ms.

(** What never changes of a match. *)
Definition terms (x : MatchRecord) : Z * Z * Address * Address * option Z * Z :=
  (match_id x, agreement_id x, mentor x, mentee x, superseded_match_id x, created_at x).

(** The same matches, as far as the other matches see them. *)
Lemma match_ok_mono ms ms' m x :
  match_ok ms m x →
  (∀ k y, ms !! k = Some y → ∃ y', ms' !! k = Some y' ∧ terms y' = terms y ∧
    (status y = Superseded → status y' = Superseded ∧ successor_match_id y' = successor_match_id y)) →
  match_ok ms' m x.
Proof.
  intros (Hid & Hne & Hst & Hpred) Hms. split_and!; [done..| |].
  - destruct (status x); [done..|]. destruct Hst as (s & y & Hs & Hy & Hsup & Hme & Hmo & Hag & Hcr).
    destruct (Hms _ _ Hy) as (y' & Hy' & [= Hi' Ha' Hm' Hb' Hp' Hc'] & _). exists s, y'. split_and!; congruence.
  - intros p Hp. destruct (Hpred p Hp) as (z & Hz & Hsz & Hnz).
    destruct (Hms _ _ Hz) as (z' & Hz' & _ & Hkeep). destruct (Hkeep Hsz) as [Hsz' Hnz'].
    exists z'. split_and!; [done..|congruence].
Qed.

Lemma matches_new ms x :
  matches_ok ms → ms !! match_id x = None → mentor x ≠ mentee x → status x = Active → successor_match_id x = None →
  superseded_match_id x = None → closed_at x = 0 → matches_ok (<[match_id x := x]> ms).
Proof.
  intros Hok Hn Hne Hs Hsu Hpr Hc k y Hk. rewrite lookup_insert in Hk. case_decide as Hkk; simplify_eq.
  - split_and!; [done..|by rewrite Hs|]. rewrite Hpr. done.
  - apply (match_ok_mono ms); [by apply Hok|]. intros j z Hj. exists z. rewrite lookup_insert_ne by congruence. done.
Qed.

Lemma matches_closed ms m x t :
  matches_ok ms → ms !! m = Some x → status x = Active →
  matches_ok (<[m := ended Closed (successor_match_id x) t x]> ms).
Proof.
  intros Hok Hx Hs k y Hk. destruct (Hok _ _ Hx) as (Hid & Hne & Hst & Hpr). rewrite Hs in Hst. destruct Hst as [Hsu _].
  assert (∀ j z, ms !! j = Some z → ∃ z', <[m := ended Closed (successor_match_id x) t x]> ms !! j = Some z' ∧
    terms z' = terms z ∧ (status z = Superseded → status z' = Superseded ∧ successor_match_id z' = successor_match_id z)) as Hms.
  { intros j z Hj. rewrite lookup_insert. case_decide; [|by exists z]. subst j. eexists. split; [done|].
    rewrite Hx in Hj. injection Hj as <-. split; [done|congruence]. }
  apply (match_ok_mono ms); [|done]. rewrite lookup_insert in Hk. case_decide as Hkk; simplify_eq; [|by apply Hok].
  by split_and!.
Qed.

Lemma matches_succeeded ms m x s a t :
  matches_ok ms → ms !! m = Some x → status x = Active → ms !! s = None → ¬ participant a x →
  matches_ok (<[m := ended Superseded (Some s) t x]> (<[s := successor_of s a t x]> ms)).
Proof.
  intros Hok Hx Hs Hn Ha k y Hk. destruct (Hok _ _ Hx) as (Hid & Hne & Hst & Hpr). unfold participant in Ha.
  assert (m ≠ s) as Hms by congruence.
  assert (∀ j z, ms !! j = Some z →
    ∃ z', <[m := ended Superseded (Some s) t x]> (<[s := successor_of s a t x]> ms) !! j = Some z' ∧
    terms z' = terms z ∧ (status z = Superseded → status z' = Superseded ∧ successor_match_id z' = successor_match_id z)) as Hkeep.
  { intros j z Hj. rewrite lookup_insert. case_decide; [|exists z; rewrite lookup_insert_ne by congruence; done].
    subst j. eexists. split; [done|]. rewrite Hx in Hj. injection Hj as <-. split; [done|congruence]. }
  rewrite lookup_insert in Hk. case_decide as Hkk; [|rewrite lookup_insert in Hk; case_decide as Hks]; simplify_eq.
  - split_and!; [done..| |].
    + simpl. exists s, (successor_of s a t x). rewrite lookup_insert_ne, lookup_insert_eq by done.
      split_and!; try done. naive_solver.
    + intros p Hp. simpl in Hp. destruct (Hpr p Hp) as (z & Hz & Hsz & Hnz).
      destruct (Hkeep _ _ Hz) as (z' & Hz' & _ & Hz2). destruct (Hz2 Hsz) as [H1 H2]. exists z'. split_and!; congruence.
  - split_and!; [done|simpl; naive_solver|done|].
    intros p Hp. simpl in Hp. injection Hp as <-. eexists. rewrite lookup_insert_eq. done.
  - apply (match_ok_mono ms); [by apply Hok|done].
Qed.

(** ** Requests *)

Definition live (y : RematchRequest) : Prop := is_open (rq_status y) = true.

Definition request_ok (st : Store) (i : Z) (y : RematchRequest) : Prop :=
  request_id y = i ∧ closure_plan_hash y ≠ zero_hash ∧ i ∈ requests_of (rq_match_id y) st ∧
  ∃ x, matches st !! rq_match_id y = Some x ∧ participant (requested_by y) x ∧ (live y → status x = Active) ∧
    (rq_status y = SuccessorProposed ∨ rq_status y = ApprovedForClosure →
       ∃ a, successor y = Some a ∧ ¬ participant a x).

Record requests_ok (st : Store) : Prop := {
  ro_each : map_Forall (request_ok st) (requests st);
  ro_index m : NoDup (requests_of m st) ∧ (length (requests_of m st) ≤ MAX_REQUESTS_PER_MATCH)%nat ∧
    ∀ i, i ∈ requests_of m st → ∃ y, requests st !! i = Some y ∧ rq_match_id y = m;
  ro_one i j y z : requests st !! i = Some y → requests st !! j = Some z → rq_match_id y = rq_match_id z →
    live y → live z → i = j
}.

(** What requests see of the matches. *)
Definition matches_extend (st st' : Store) (ends : option Z) : Prop :=
  ∀ m x, matches st !! m = Some x → ∃ x', matches st' !! m = Some x' ∧ terms x' = terms x ∧
    (ends ≠ Some m → status x' = status x).

Lemma request_ok_mono st st' i y ends :
  request_ok st i y → requests_of (rq_match_id y) st ⊆ requests_of (rq_match_id y) st' → matches_extend st st' ends →
  (live y → ends ≠ Some (rq_match_id y)) → request_ok st' i y.
Proof.
  intros (Hid & Hp & Hin & x & Hx & Hpart & Hact & Hsu) Hsub Hms Hl.
  destruct (Hms _ _ Hx) as (x' & Hx' & [= Hi Ha Hm Hb Hpr Hc] & Hst). unfold request_ok, participant in *.
  split_and!; [done..|by apply Hsub|]. exists x'. rewrite Hm, Hb. split_and!; [done..| |done].
  intros Hlv. rewrite Hst; auto.
Qed.

Lemma requests_same st st' :
  requests_ok st → requests st' = requests st → match_requests st' = match_requests st → matches_extend st st' None →
  requests_ok st'.
Proof.
  intros [He Hi Ho] Hr Hm Hms. assert (∀ m, requests_of m st' = requests_of m st) as Hof by (intros m; unfold requests_of; by rewrite Hm).
  split.
  - rewrite Hr. intros i y Hy. eapply (request_ok_mono st); [by apply He|by rewrite Hof|done|done].
  - intros m. rewrite Hof, Hr. apply Hi.
  - rewrite Hr. apply Ho.
Qed.

(** A change of one request; the match may end with it. *)
Lemma requests_replaced st st' i y y' ends :
  requests_ok st → requests st !! i = Some y → requests st' = <[i := y']> (requests st) →
  match_requests st' = match_requests st → matches_extend st st' ends →
  request_id y' = request_id y → rq_match_id y' = rq_match_id y → requested_by y' = requested_by y →
  closure_plan_hash y' = closure_plan_hash y → (live y' → live y) →
  (ends = None ∨ ends = Some (rq_match_id y) ∧ live y ∧ ¬ live y') →
  (rq_status y' = SuccessorProposed ∨ rq_status y' = ApprovedForClosure →
     ∃ a x, matches st !! rq_match_id y = Some x ∧ successor y' = Some a ∧ ¬ participant a x) →
  requests_ok st'.
Proof.
  intros [He Hix Ho] Hy Hr Hm Hms Hid Hmi Hby Hpl Hlv Hends Hsu.
  assert (∀ m, requests_of m st' = requests_of m st) as Hof by (intros m; unfold requests_of; by rewrite Hm).
  destruct (He _ _ Hy) as (Hid0 & Hp & Hin & x & Hx & Hpart & Hact & _).
  destruct (Hms _ _ Hx) as (x' & Hx' & Hterms & Hst).
  assert (participant (requested_by y) x' ∧ ∀ a, participant a x' ↔ participant a x) as [Hpart' Hpp].
  { injection Hterms as _ _ Hmo Hme _ _. unfold participant in *. by rewrite Hmo, Hme. }
  split.
  - rewrite Hr. intros j z Hz. rewrite lookup_insert in Hz. case_decide as Hj; simplify_eq.
    + split_and!; [congruence..|by rewrite Hof, Hmi|]. exists x'. rewrite Hmi, Hby. split_and!; [done..| |].
      * intros Hl. destruct Hends as [->|(-> & _ & Hn)]; [|done]. rewrite Hst by done. auto.
      * intros Hs. destruct (Hsu Hs) as (a & x0 & Hx0 & Ha & Hna). simplify_eq. exists a. by rewrite Hpp.
    + eapply (request_ok_mono st); [by apply He|by rewrite Hof|done|]. intros Hl.
      destruct Hends as [->|(-> & Hly & _)]; [done|]. intros [= Heq]. by apply Hj, (Ho _ _ y z).
  - intros m. rewrite Hof. destruct (Hix m) as (Hnd & Hlen & Hall). split_and!; [done..|].
    intros j Hj. destruct (Hall j Hj) as (z & Hz & Hzm). rewrite Hr, lookup_insert. case_decide; simplify_eq; by eexists.
  - rewrite Hr. intros j k z u Hz Hu Hzu Hlz Hlu. rewrite lookup_insert in Hz, Hu.
    destruct (decide (i = j)) as [<-|], (decide (i = k)) as [<-|]; simplify_eq; try done.
    + eapply Ho; [done|done|congruence|auto|done].
    + eapply Ho; [done|done|congruence|done|auto].
    + by apply (Ho j k z u).
Qed.

Lemma requests_added st st' i y x :
  requests_ok st → requests st !! i = None → requests st' = <[i := y]> (requests st) →
  match_requests st' = <[rq_match_id y := requests_of (rq_match_id y) st ++ [i]]> (match_requests st) →
  matches st' = matches st → request_id y = i → closure_plan_hash y ≠ zero_hash →
  matches st !! rq_match_id y = Some x → status x = Active → participant (requested_by y) x → rq_status y = Open →
  (length (requests_of (rq_match_id y) st) < MAX_REQUESTS_PER_MATCH)%nat →
  (∀ j, j ∈ requests_of (rq_match_id y) st → ∃ z, requests st !! j = Some z ∧ is_open (rq_status z) = false) →
  requests_ok st'.
Proof.
  intros [He Hix Ho] Hn Hr Hm Hmm Hid Hp Hx Hact Hpart Hs Hlen Hclosed. set (m := rq_match_id y) in *.
  assert (∀ k, requests_of k st' = if decide (m = k) then requests_of m st ++ [i] else requests_of k st) as Hof.
  { intros k. unfold requests_of at 1. rewrite Hm, lookup_insert. by case_decide. }
  assert (∀ k, i ∉ requests_of k st) as Hfresh.
  { intros k Hk. destruct (Hix k) as (_ & _ & Hall). destruct (Hall i Hk) as (z & Hz & _). congruence. }
  assert (∀ j z, requests st !! j = Some z → live z → rq_match_id z ≠ m) as Hno.
  { intros j z Hz Hl Heq. destruct (He _ _ Hz) as (_ & _ & Hin & _). rewrite Heq in Hin.
    destruct (Hclosed j Hin) as (z' & Hz' & Hc). simplify_eq. unfold live in Hl. congruence. }
  split.
  - rewrite Hr. intros j z Hz. rewrite lookup_insert in Hz. case_decide as Hj; simplify_eq.
    + split_and!; [done..| |].
      * rewrite Hof. fold m. rewrite decide_True by done. set_solver.
      * exists x. rewrite Hmm. split_and!; [done..|]. rewrite Hs. by intros [?|?].
    + eapply (request_ok_mono st _ _ _ None); [by apply He| | |done].
      * rewrite Hof. case_decide as Heq; [rewrite Heq|done]. set_solver.
      * intros k u Hk. exists u. by rewrite Hmm.
  - intros k. rewrite Hof. destruct (Hix k) as (Hnd & Hl & Hall). case_decide as Heq.
    + subst k. split_and!.
      * apply NoDup_app. split_and!; [done| |apply NoDup_singleton]. intros j Hj ->%list_elem_of_singleton. by apply (Hfresh m).
      * rewrite length_app. simpl. lia.
      * intros j [Hj| ->%list_elem_of_singleton]%elem_of_app.
        -- destruct (Hall j Hj) as (z & Hz & Hzm). exists z. rewrite Hr, lookup_insert_ne by congruence. done.
        -- exists y. by rewrite Hr, lookup_insert_eq.
    + split_and!; [done..|]. intros j Hj. destruct (Hall j Hj) as (z & Hz & Hzm). exists z.
      rewrite Hr, lookup_insert_ne by congruence. done.
  - rewrite Hr. intros j k z u Hz Hu Hzu Hlz Hlu. rewrite lookup_insert in Hz, Hu.
    destruct (decide (i = j)) as [<-|], (decide (i = k)) as [<-|]; simplify_eq; try done.
    + by destruct (Hno k u).
    + by destruct (Hno j z).
    + by apply (Ho j k z u).
Qed.

(** ** Statistics *)

Definition n_live (rs : gmap Z RematchRequest) : Z := map_sum (λ _ y, if is_open (rq_status y) then 1 else 0) rs.
Definition n_closed (rs : gmap Z RematchRequest) : Z := map_sum (λ _ y, if is_open (rq_status y) then 0 else 1) rs.
Definition n_matches (ms : gmap Z MatchRecord) : Z := map_sum (λ _ _, 1) ms.
Definition n_superseded (ms : gmap Z MatchRecord) : Z := map_sum (λ _ x, if decide (status x = Superseded) then 1 else 0) ms.

(** Exact as long as the records fit the 32-bit counters. *)
Definition stats_ok (st : Store) : Prop :=
  n_live (requests st) + n_closed (requests st) ≤ u32_max → n_matches (matches st) ≤ u32_max →
  default zero_stats (stats st) =
    mkStats (n_matches (matches st)) (n_live (requests st)) (n_closed (requests st)) (n_superseded (matches st)).

Lemma counts_nonneg rs ms :
  0 ≤ n_live rs ∧ 0 ≤ n_closed rs ∧ 0 ≤ n_matches ms ∧ 0 ≤ n_superseded ms.
Proof.
  split_and!; apply map_sum_nonneg; intros k v _; try done; [by destruct (is_open _)|by destruct (is_open _)|by case_decide].
Qed.

Lemma superseded_le ms : n_superseded ms ≤ n_matches ms.
Proof.
  enough (0 ≤ n_matches ms - n_superseded ms) by lia. unfold n_matches, n_superseded.
  induction ms as [|k x ms Hk IH] using map_ind; [by rewrite !map_sum_empty|].
  rewrite !map_sum_insert_new by done. case_decide; lia.
Qed.

Lemma count_request i y y' rs :
  rs !! i = Some y →
  n_live (<[i := y']> rs) = n_live rs - (if is_open (rq_status y) then 1 else 0) + (if is_open (rq_status y') then 1 else 0) ∧
  n_closed (<[i := y']> rs) = n_closed rs - (if is_open (rq_status y) then 0 else 1) + (if is_open (rq_status y') then 0 else 1).
Proof. intros Hy. unfold n_live, n_closed. rewrite !map_sum_insert. unfold at_key. by rewrite Hy. Qed.

Lemma count_match m x x' ms :
  ms !! m = Some x → status x ≠ Superseded →
  n_matches (<[m := x']> ms) = n_matches ms ∧
  n_superseded (<[m := x']> ms) = n_superseded ms + (if decide (status x' = Superseded) then 1 else 0).
Proof.
  intros Hx Hs. unfold n_matches, n_superseded. rewrite !map_sum_insert. unfold at_key. rewrite Hx.
  rewrite (decide_False (P := status x = Superseded)) by done. lia.
Qed.

Lemma count_new_match m x ms :
  ms !! m = None → status x = Active →
  n_matches (<[m := x]> ms) = n_matches ms + 1 ∧ n_superseded (<[m := x]> ms) = n_superseded ms.
Proof.
  intros Hn Hs. unfold n_matches, n_superseded. rewrite !map_sum_insert_new by done. rewrite Hs.
  rewrite decide_False by done. lia.
Qed.

(** ** The invariant *)

Definition empty_store : Store := mkStore None None None None None ∅ ∅ ∅ ∅.

Record inv (st : Store) : Prop := {
  inv_fresh : admin st = None → st = empty_store;
  inv_coordinators : NoDup (get_coordinators st) ∧ (length (get_coordinators st) ≤ MAX_COORDINATORS)%nat;
  inv_window n : proposal_window st = Some n → MIN_PROPOSAL_WINDOW_SECONDS ≤ n ≤ MAX_PROPOSAL_WINDOW_SECONDS;
  inv_matches : matches_ok (matches st);
  inv_requests : requests_ok st;
  inv_stats : stats_ok st
}.

(** A change of the roles only. *)
Lemma roles_inv st st' :
  inv st → admin st' ≠ None → NoDup (get_coordinators st') ∧ (length (get_coordinators st') ≤ MAX_COORDINATORS)%nat →
  (∀ n, proposal_window st' = Some n → MIN_PROPOSAL_WINDOW_SECONDS ≤ n ≤ MAX_PROPOSAL_WINDOW_SECONDS) →
  matches st' = matches st → requests st' = requests st → match_requests st' = match_requests st → stats st' = stats st →
  inv st'.
Proof.
  intros Hi Ha Hc Hw Hm Hr Hx Hs. split; try done.
  - rewrite Hm. apply Hi.
  - apply (requests_same st); try done; [apply Hi|]. intros m x Hmx. exists x. by rewrite Hm.
  - unfold stats_ok. rewrite Hm, Hr, Hs. apply Hi.
Qed.

Lemma coordinator_admin st c : inv st → c ∈ get_coordinators st → admin st ≠ None.
Proof. intros Hi Hc Ha. apply (inv_fresh _ Hi) in Ha. subst st. by apply elem_of_nil in Hc. Qed.

Lemma record_admin st m x : inv st → matches st !! m = Some x → admin st ≠ None.
Proof. intros Hi Hx Ha. apply (inv_fresh _ Hi) in Ha. by subst st. Qed.

Lemma extend_same st st' ends : matches st' = matches st → matches_extend st st' ends.
Proof. intros Hm m x Hx. exists x. by rewrite Hm. Qed.

(** One request of a store changes state, between open ones. *)
Lemma request_step_inv st i y y' :
  inv st → requests st !! i = Some y → live y → live y' → request_id y' = request_id y →
  rq_match_id y' = rq_match_id y → requested_by y' = requested_by y → closure_plan_hash y' = closure_plan_hash y →
  (rq_status y' = SuccessorProposed ∨ rq_status y' = ApprovedForClosure →
     ∃ a x, matches st !! rq_match_id y = Some x ∧ successor y' = Some a ∧ ¬ participant a x) →
  inv (put_request y' st).
Proof.
  intros Hi Hy Hl Hl' Hid Hm Hb Hp Hsu. destruct (ro_each _ (inv_requests _ Hi) _ _ Hy) as (Hid0 & _ & _ & x & Hx & _).
  split; try apply Hi; simpl.
  - intros Ha. by destruct (record_admin _ _ _ Hi Hx).
  - eapply (requests_replaced st _ i y y' None); try done; [apply Hi|by simpl; rewrite Hid, Hid0|by apply extend_same|auto].
  - unfold stats_ok. simpl. rewrite Hid, Hid0. destruct (count_request i y y' _ Hy) as [-> ->].
    unfold live in *. rewrite Hl, Hl'. intros H1 H2.
    replace (n_live (requests st) - 1 + 1) with (n_live (requests st)) in * by lia.
    replace (n_closed (requests st) - 0 + 0) with (n_closed (requests st)) in * by lia. by apply (inv_stats _ Hi).
Qed.

(** A request of a store ends, and with it possibly its match. *)
Lemma request_end_inv st st' i y y' ends :
  inv st → requests st !! i = Some y → live y → ¬ live y' → request_id y' = request_id y →
  rq_match_id y' = rq_match_id y → requested_by y' = requested_by y → closure_plan_hash y' = closure_plan_hash y →
  rq_status y' ≠ SuccessorProposed → (ends = None ∨ ends = Some (rq_match_id y)) → matches_ok (matches st') →
  matches_extend st st' ends → admin st' = admin st → coordinators st' = coordinators st →
  proposal_window st' = proposal_window st → requests st' = <[i := y']> (requests st) →
  match_requests st' = match_requests st →
  (n_matches (matches st') ≤ u32_max → n_live (requests st) + n_closed (requests st) ≤ u32_max →
    n_matches (matches st) ≤ n_matches (matches st') ∧
    default zero_stats (stats st') =
      mkStats (n_matches (matches st')) (n_live (requests st) - 1) (n_closed (requests st) + 1) (n_superseded (matches st'))) →
  inv st'.
Proof.
  intros Hi Hy Hl Hl' Hid Hm Hb Hp Hsu Hends Hms Hext Ha Hc Hw Hr Hx Hst.
  destruct (ro_each _ (inv_requests _ Hi) _ _ Hy) as (_ & _ & _ & x & Hmx & _).
  assert (rq_status y' ≠ ApprovedForClosure) as Hna by (intros Heq; apply Hl'; unfold live; by rewrite Heq).
  split; try done.
  - rewrite Ha. intros Han. by destruct (record_admin _ _ _ Hi Hmx).
  - unfold get_coordinators. rewrite Hc. apply Hi.
  - rewrite Hw. apply Hi.
  - eapply (requests_replaced st st' i y y' ends); try done; [apply Hi| |by intros [?|?]].
    destruct Hends as [->|Hends]; [by left|by right].
  - unfold stats_ok. rewrite Hr. destruct (count_request i y y' _ Hy) as [-> ->]. unfold live in *.
    rewrite Hl. destruct (is_open (rq_status y')); [done|]. intros H1 H2.
    destruct Hst as [_ Hst]; [done|lia|]. rewrite Hst. f_equal; lia.
Qed.

Lemma live_status y : rq_status y ≠ Rejected → rq_status y ≠ ReqClosed → rq_status y ≠ ReqSuperseded → live y.
Proof. unfold live. by destruct (rq_status y). Qed.

(** The match of a live request is active. *)
Lemma live_match st i y x :
  inv st → requests st !! i = Some y → live y → matches st !! rq_match_id y = Some x →
  status x = Active ∧ match_id x = rq_match_id y ∧ successor_match_id x = None ∧ request_id y = i ∧
  (∀ a, rq_status y = ApprovedForClosure → successor y = Some a → ¬ participant a x).
Proof.
  intros Hi Hy Hl Hx. destruct (ro_each _ (inv_requests _ Hi) _ _ Hy) as (Hid & _ & _ & x0 & Hx0 & _ & Hact & Hsu). simplify_eq.
  destruct (inv_matches _ Hi _ _ Hx) as (Hmid & _ & Hst & _). rewrite (Hact Hl) in Hst.
  split_and!; [by apply Hact|done|apply Hst|done|]. intros a Hs Ha. destruct Hsu as (b & Hb & Hnb); [auto|].
  by simplify_eq.
Qed.

Lemma live_positive rs i y : rs !! i = Some y → live y → 0 < n_live rs.
Proof.
  intros Hy Hl. unfold n_live. pose proof (map_sum_delete (λ _ y, if is_open (rq_status y) then 1 else 0) rs i) as Hd.
  unfold at_key in Hd. unfold live in Hl. rewrite Hy, Hl in Hd. destruct (counts_nonneg (delete i rs) ∅) as (Hn & _).
  unfold n_live in Hn. lia.
Qed.

Lemma close_inv st i y x t :
  inv st → requests st !! i = Some y → live y → matches st !! rq_match_id y = Some x →
  inv (bump stat_closed (put_request (with_status ReqClosed t y) (put_match (ended Closed (successor_match_id x) t x) st))).
Proof.
  intros Hi Hy Hl Hx. destruct (live_match _ _ _ _ Hi Hy Hl Hx) as (Hact & Hmid & Hsu & Hid & _).
  assert (status x ≠ Superseded) as Hns by congruence.
  destruct (count_match _ x (ended Closed (successor_match_id x) t x) _ Hx Hns) as [Hc1 Hc2]. simpl in Hc1, Hc2.
  rewrite Z.add_0_r in Hc2.
  eapply (request_end_inv st _ i y (with_status ReqClosed t y) (Some (rq_match_id y))); try done; simpl; rewrite ?Hmid, ?Hid; auto.
  - by apply matches_closed; [apply Hi|..].
  - intros m z Hz. simpl. rewrite Hmid, lookup_insert. case_decide as Hm; [|by exists z].
    subst m. simplify_eq. eexists. split; [done|]. split; [done|]. congruence.
  - rewrite Hc1, Hc2. intros H1 H2. split; [lia|]. rewrite (inv_stats _ Hi) by done. unfold stat_closed, saturating_sub_u32, saturating_add_u32. simpl.
    pose proof (live_positive _ _ _ Hy Hl).
    pose proof (counts_nonneg (requests st) (matches st)). f_equal; lia.
Qed.

Lemma apply_inv st i s y x a t :
  inv st → requests st !! i = Some y → rq_status y = ApprovedForClosure → successor y = Some a →
  matches st !! rq_match_id y = Some x → matches st !! s = None →
  inv (bump stat_superseded (put_request (with_status ReqSuperseded t y)
    (put_match (ended Superseded (Some s) t x) (put_match (successor_of s a t x) st)))).
Proof.
  intros Hi Hy Hs Ha Hx Hn. assert (live y) as Hl by (unfold live; by rewrite Hs).
  destruct (live_match _ _ _ _ Hi Hy Hl Hx) as (Hact & Hmid & Hsu & Hid & Hna).
  assert (status x ≠ Superseded) as Hns by congruence. assert (s ≠ rq_match_id y) as Hne by congruence.
  destruct (count_new_match s (successor_of s a t x) _ Hn eq_refl) as [Hc1 Hc2].
  assert (<[s := successor_of s a t x]> (matches st) !! rq_match_id y = Some x) as Hx' by by rewrite lookup_insert_ne.
  destruct (count_match _ x (ended Superseded (Some s) t x) _ Hx' Hns) as [Hc3 Hc4]. simpl in Hc3, Hc4.
  eapply (request_end_inv st _ i y (with_status ReqSuperseded t y) (Some (rq_match_id y))); try done; simpl; rewrite ?Hmid, ?Hid; auto.
  - apply matches_succeeded; auto. apply Hi.
  - intros m z Hz. simpl. rewrite Hmid, lookup_insert. case_decide as Hm.
    + subst m. simplify_eq. eexists. split; [done|]. split; [done|]. congruence.
    + exists z. rewrite lookup_insert_ne by congruence. done.
  - rewrite Hc3, Hc4, Hc1, Hc2. intros H1 H2. split; [lia|]. rewrite (inv_stats _ Hi) by (done || lia).
    unfold stat_superseded, saturating_sub_u32, saturating_add_u32. simpl.
    pose proof (live_positive _ _ _ Hy Hl). pose proof (superseded_le (matches st)).
    pose proof (counts_nonneg (requests st) (matches st)). f_equal; lia.
Qed.

Lemma reject_inv st i y :
  inv st → requests st !! i = Some y → live y →
  inv (bump stat_closed (put_request (with_status Rejected (rq_closed_at y) y) st)).
Proof.
  intros Hi Hy Hl. destruct (ro_each _ (inv_requests _ Hi) _ _ Hy) as (Hid & _).
  eapply (request_end_inv st _ i y (with_status Rejected (rq_closed_at y) y) None); try done; simpl; rewrite ?Hid; auto.
  - apply Hi.
  - by apply extend_same.
  - intros H1 H2. split; [lia|]. rewrite (inv_stats _ Hi) by done. unfold stat_closed, saturating_sub_u32, saturating_add_u32. simpl.
    pose proof (live_positive _ _ _ Hy Hl). pose proof (counts_nonneg (requests st) (matches st)). f_equal; lia.
Qed.

Lemma match_registered_inv st m g a b t :
  inv st → registrar st ≠ None → matches st !! m = None → a ≠ b →
  inv (bump stat_matched (put_match (mkMatch m g a b Active None None t 0) st)).
Proof.
  intros Hi Hre Hn Hne. destruct (count_new_match m (mkMatch m g a b Active None None t 0) _ Hn eq_refl) as [Hc1 Hc2].
  split; try apply Hi; simpl.
  - intros Ha. apply (inv_fresh _ Hi) in Ha. by subst st.
  - by apply (matches_new _ (mkMatch m g a b Active None None t 0)); [apply Hi|..].
  - apply (requests_same st); try done; [apply Hi|]. intros k x Hx. exists x. simpl.
    rewrite lookup_insert_ne by congruence. done.
  - unfold stats_ok. simpl. rewrite Hc1, Hc2. intros H1 H2. rewrite (inv_stats _ Hi) by (done || lia).
    unfold stat_matched, saturating_add_u32. simpl. pose proof (counts_nonneg (requests st) (matches st)). f_equal; lia.
Qed.

Lemma requested_inv st c m i r h p t x :
  inv st → matches st !! m = Some x → status x = Active → participant c x → p ≠ zero_hash → requests st !! i = None →
  (length (requests_of m st) < MAX_REQUESTS_PER_MATCH)%nat →
  (∀ j, j ∈ requests_of m st → ∃ y, requests st !! j = Some y ∧ is_open (rq_status y) = false) →
  inv (bump stat_opened (put_match_requests m (requests_of m st ++ [i])
    (put_request (mkRequest i m c r h p t 0 Open None zero_hash 0 0 0 0) st))).
Proof.
  intros Hi Hx Hact Hpart Hp Hn Hlen Hcl. split; try apply Hi; simpl.
  - intros Ha. by destruct (record_admin _ _ _ Hi Hx).
  - by eapply (requests_added st _ i (mkRequest i m c r h p t 0 Open None zero_hash 0 0 0 0) x); try done; [apply Hi|..].
  - unfold stats_ok. simpl. unfold n_live, n_closed. rewrite !map_sum_insert_new by done. simpl.
    fold (n_live (requests st)) (n_closed (requests st)). intros H1 H2. rewrite (inv_stats _ Hi) by (done || lia).
    unfold stat_opened, saturating_add_u32. simpl. pose proof (counts_nonneg (requests st) (matches st)). f_equal; lia.
Qed.

Lemma requests_empty st : requests st = ∅ → match_requests st = ∅ → requests_ok st.
Proof.
  intros Hr Hm. assert (∀ m, requests_of m st = []) as Hof by (intros m; unfold requests_of; by rewrite Hm).
  split; [rewrite Hr; apply map_Forall_empty| |by rewrite Hr].
  intros m. rewrite Hof. split_and!; [constructor|simpl; lia|]. by intros i ?%elem_of_nil.
Qed.

Lemma initialized_inv a n :
  MIN_PROPOSAL_WINDOW_SECONDS ≤ n ≤ MAX_PROPOSAL_WINDOW_SECONDS →
  inv (put_stats zero_stats (put_coordinators [a] (put_window n (put_registrar a (put_admin a empty_store))))).
Proof.
  intros Hn. split; simpl; try done.
  - split; [apply NoDup_singleton|]. simpl. unfold MAX_COORDINATORS. lia.
  - by intros k [= <-].
  - by apply requests_empty.
Qed.

Lemma rematch_effect_inv e st c st' : inv st → effect e st c st' → inv st'.
Proof.
  intros Hi Heff. destruct (inv_coordinators _ Hi) as [Hnd Hlen]. destruct Heff.
  - rewrite (inv_fresh _ Hi) by done. by apply initialized_inv.
  - done.
  - apply (roles_inv st); try done; try apply Hi; simpl; [congruence|]. split.
    + apply NoDup_app. split_and!; [done|set_solver|apply NoDup_singleton].
    + unfold get_coordinators at 1. simpl. rewrite length_app. simpl. lia.
  - apply (roles_inv st); try done; try apply Hi; simpl; [congruence|]. split; [by apply NoDup_filter|].
    unfold get_coordinators at 1. simpl. etrans; [apply length_filter|done].
  - apply (roles_inv st); try done; try apply Hi; simpl. congruence.
  - apply (roles_inv st); try done; try apply Hi; simpl; [congruence|]. by intros k [= <-].
  - apply match_registered_inv; try done. congruence.
  - done.
  - by eapply requested_inv.
  - apply (request_step_inv st i y); try done; [by unfold live; rewrite H1|]. by intros [?|?].
  - apply (reject_inv st i); try done. unfold live. by destruct H1 as [->| ->].
  - destruct H0 as [x Hx]. apply (roles_inv st); try done; try apply Hi. by apply (record_admin _ _ _ Hi Hx).
  - apply (request_step_inv st i y); try done; [unfold live; by destruct H1 as [->| ->]|]. simpl. intros _. by exists a, x.
  - done.
  - destruct (ro_each _ (inv_requests _ Hi) _ _ H) as (_ & _ & _ & x0 & Hx0 & _ & _ & Hsu).
    apply (request_step_inv st i y); try done; [unfold live; by rewrite H3|]. simpl. intros _.
    destruct Hsu as (a & Ha & Hna); [auto|]. by exists a, x0.
  - apply (close_inv st i); try done. unfold live. by destruct H1 as [->|[->| ->]].
  - by apply (apply_inv st i).
Qed.

(** ** Reachable stores *)
Section Reach.
Context {L : Type}.
Abbreviation W := (World L Store Event).
Implicit Types (w : W).

Definition deployed (w : W) : Prop := store w = empty_store.
Abbreviation Reach this := (reachable exec valid this (λ _ _, True) deployed).

Lemma rematch_empty_inv : inv empty_store.
Proof.
  split; simpl; try done.
  - split; [constructor|simpl; lia].
  - by apply requests_empty.
Qed.

Lemma rematch_reachable this w : Reach this w → inv (store w).
Proof.
  apply (reachable_inv _ _ _ _ _ (λ w, inv (store w))).
  - intros w0 ->. apply rematch_empty_inv.
  - intros c e w0 w1 u _ _ Hi [_ Heff]%rematch_effect. by eapply rematch_effect_inv.
  - done.
Qed.
End Reach.
