(* ===== verification/RematchTheorems.v ===== *)
(** * Rematching: the properties

    At most one open request per match, successions traceable in both directions, a match
    superseded only with its mentee's approval and without open cases, exact statistics. *)
From S2P Require Import Prelude Machine Host Loops Rematch RematchProps.

#[local] Arguments Nat.leb : simpl never.

Section Theorems.
Context {L : Type}.
Abbreviation W := (World L Store Event).
Abbreviation M := (Contract L Store Event ContractError).
Implicit Types (w : W).
Abbreviation Reach this := (reachable exec valid this (λ _ _, True) deployed).

(** C27: One rematch at a time.  In every reachable world two different requests of a match are not
    both open, a match with an open request is active, and the index of a match lists exactly
    the requests filed against it, at most eight, each once. *)
Theorem one_open_request this w :
  Reach this w →
  (∀ i j y z, requests (store w) !! i = Some y → requests (store w) !! j = Some z → rq_match_id y = rq_match_id z →
     live y → live z → i = j) ∧
  (∀ i y, requests (store w) !! i = Some y → live y →
     ∃ x, matches (store w) !! rq_match_id y = Some x ∧ status x = Active) ∧
  (∀ m i, i ∈ requests_of m (store w) ↔ ∃ y, requests (store w) !! i = Some y ∧ rq_match_id y = m) ∧
  ∀ m, NoDup (requests_of m (store w)) ∧ (length (requests_of m (store w)) ≤ 8)%nat.
Proof.
  intros Hi%rematch_reachable. destruct (inv_requests _ Hi) as [He Hix Ho]. split_and!; [done| | |].
  - intros i y Hy Hl. destruct (He _ _ Hy) as (_ & _ & _ & x & Hx & _ & Hact & _). eauto.
  - intros m i. split; [apply Hix|]. intros (y & Hy & <-). apply (He _ _ Hy).
  - intros m. destruct (Hix m) as (? & ? & _). done.
Qed.

(** Successions are traceable.  In every reachable world a superseded match points at a match of
    the same mentee and agreement, with another mentor, created when the first ended, that
    points back at it; and every match that points back at one is the one it points at. *)
Theorem succession_traceable this w m x :
  Reach this w → matches (store w) !! m = Some x →
  match_id x = m ∧ mentor x ≠ mentee x ∧
  (status x = Superseded → ∃ s y, successor_match_id x = Some s ∧ matches (store w) !! s = Some y ∧
     superseded_match_id y = Some m ∧ mentee y = mentee x ∧ mentor y ≠ mentor x ∧ agreement_id y = agreement_id x ∧
     created_at y = closed_at x) ∧
  (status x ≠ Superseded → successor_match_id x = None) ∧
  (∀ p, superseded_match_id x = Some p → ∃ z, matches (store w) !! p = Some z ∧ status z = Superseded ∧
     successor_match_id z = Some m).
Proof.
  intros Hi%rematch_reachable Hx. destruct (inv_matches _ Hi _ _ Hx) as (Hid & Hne & Hst & Hpr).
  split_and!; [done..| | |done].
  - intros Hs. by rewrite Hs in Hst.
  - destruct (status x); naive_solver.
Qed.

(** The statistics count the records.  In every reachable world with at most [u32::MAX] requests
    and matches the four counters are the numbers of the matches, the open requests, the ended
    requests and the superseded matches. *)
Theorem stats_count this w s :
  Reach this w → stats (store w) = Some s →
  n_live (requests (store w)) + n_closed (requests (store w)) ≤ u32_max → n_matches (matches (store w)) ≤ u32_max →
  total_matches s = n_matches (matches (store w)) ∧ open_requests s = n_live (requests (store w)) ∧
  closed_requests s = n_closed (requests (store w)) ∧ superseded_matches s = n_superseded (matches (store w)).
Proof.
  intros Hi%rematch_reachable Hs H1 H2. pose proof (inv_stats _ Hi H1 H2) as Hst. rewrite Hs in Hst. simpl in Hst. by subst s.
Qed.

(** ** The life of a match and of a request *)

(** What one call may do to a stored match. *)
Inductive match_moves (e : Env) (st : Store) (x : MatchRecord) : MatchRecord → Prop :=
| MM_same : match_moves e st x x
| MM_closed c i y :
    status x = Active → coordinates e st c → requests st !! i = Some y → rq_match_id y = match_id x → live y →
    rq_status y ≠ Open → flags_of (match_id x) st = no_cases →
    match_moves e st x (ended Closed None (timestamp e) x)
| MM_superseded c i y s a :
    status x = Active → coordinates e st c → requests st !! i = Some y → rq_match_id y = match_id x →
    rq_status y = ApprovedForClosure → successor y = Some a → ¬ participant a x → flags_of (match_id x) st = no_cases →
    match_moves e st x (ended Superseded (Some s) (timestamp e) x).

Lemma effect_match e st c st' m x :
  inv st → effect e st c st' → matches st !! m = Some x →
  ∃ x', matches st' !! m = Some x' ∧ match_moves e st x x'.
Proof.
  intros Hi Heff Hx. destruct Heff; try (exists x; split; [done|apply MM_same]).
  - exists x. simpl. rewrite lookup_insert_ne by congruence. split; [done|apply MM_same].
  - assert (live y) as Hl by (unfold live; by destruct H1 as [->|[->| ->]]).
    destruct (live_match _ _ _ _ Hi H0 Hl H2) as (Hact & Hmid & Hsu & _). simpl. rewrite Hmid, lookup_insert.
    case_decide as Hm; [subst m|exists x; split; [done|apply MM_same]]. simplify_eq. eexists. split; [done|].
    rewrite Hsu. eapply (MM_closed e st _ c); try done. by destruct H1 as [->|[->| ->]].
  - assert (live y) as Hl by (unfold live; by rewrite H1).
    destruct (live_match _ _ _ _ Hi H0 Hl H3) as (Hact & Hmid & Hsu & _ & Hna). simpl. rewrite Hmid, lookup_insert.
    case_decide as Hm.
    + subst m. simplify_eq. eexists. split; [done|]. eapply (MM_superseded e st _ c); try done. auto.
    + exists x. rewrite lookup_insert_ne by congruence. split; [done|apply MM_same].
Qed.

(** A match's life.  From every reachable world one call leaves a stored match as it is, or ends
    an active one: a coordinator closes it on a request under review, or supersedes it on a
    request whose successor, a person outside the match, the mentee has approved; neither
    while a financial or safety case is open.  Identity, parties, agreement, creation time and
    the match it succeeded never change, and an ended match never changes again. *)
Theorem match_lifecycle this w e c m x :
  Reach this w → valid e c → matches (store w) !! m = Some x →
  ∃ x', matches (store (invoke (exec c) e w).1) !! m = Some x' ∧ match_moves e (store w) x x' ∧ terms x' = terms x ∧
    (status x ≠ Active → x' = x).
Proof.
  intros Hi%rematch_reachable _ Hx.
  assert (∃ x', matches (store (invoke (exec c) e w).1) !! m = Some x' ∧ match_moves e (store w) x x') as (x' & Hx' & Hm).
  { unfold invoke. destruct (exec c e w) as [w' u| |] eqn:Hrun; simpl; [|exists x; split; [done|apply MM_same]..].
    apply rematch_effect in Hrun as [_ Heff]. by eapply effect_match. }
  exists x'. split; [done|]. split; [done|]. by destruct Hm.
Qed.

(** What one call may do to a stored request. *)
Inductive request_moves (e : Env) (st : Store) (y : RematchRequest) : Call → RematchRequest → Prop :=
| RM_same c : request_moves e st y c y
| RM_review c i : rq_status y = Open → coordinates e st c → request_moves e st y (CReview c i) (in_review (timestamp e) y)
| RM_reject c i :
    rq_status y = Open ∨ rq_status y = InReview → coordinates e st c →
    request_moves e st y (CReject c i) (with_status Rejected (rq_closed_at y) y)
| RM_propose c i a h n :
    rq_status y = InReview ∨ rq_status y = SuccessorProposed → coordinates e st c →
    proposal_window st = Some n →
    request_moves e st y (CPropose c i a h) (proposed a h (timestamp e) (timestamp e + n) y)
| RM_approve c i x :
    rq_status y = SuccessorProposed → matches st !! rq_match_id y = Some x → c = mentee x → authorized e c = true →
    timestamp e ≤ proposal_expires_at y → request_id y = i → request_moves e st y (CApprove c i) (approved (timestamp e) y)
| RM_close c i :
    live y → rq_status y ≠ Open → coordinates e st c →
    request_moves e st y (CClose c i) (with_status ReqClosed (timestamp e) y)
| RM_apply c i s :
    rq_status y = ApprovedForClosure → coordinates e st c →
    request_moves e st y (CApply c i s) (with_status ReqSuperseded (timestamp e) y).

(** A request after one call: filed before, or filed by the call. *)
Lemma effect_request e st c st' i y' :
  inv st → effect e st c st' → requests st' !! i = Some y' →
  (∃ y, requests st !! i = Some y ∧ request_moves e st y c y') ∨ requests st !! i = None ∧ rq_status y' = Open.
Proof.
  intros Hi Heff Hy. destruct Heff; try (left; exists y'; split; [done|apply RM_same]); simpl in Hy;
    repeat match goal with
    | H : requests st !! ?k = Some ?z |- _ =>
        lazymatch goal with
        | _ : request_id z = k |- _ => fail
        | _ => assert (request_id z = k) by (apply (ro_each _ (inv_requests _ Hi) _ _ H)) end
    end.
  - rewrite lookup_insert in Hy. case_decide; simplify_eq; [by right|left; eexists; split; [done|apply RM_same]].
  - rewrite lookup_insert in Hy. case_decide; simplify_eq; left; eexists; (split; [done|]); [by apply RM_review|apply RM_same].
  - rewrite lookup_insert in Hy. case_decide; simplify_eq; left; eexists; (split; [done|]); [by apply RM_reject|apply RM_same].
  - rewrite lookup_insert in Hy. case_decide; simplify_eq; left; eexists; (split; [done|]); [by apply RM_propose|apply RM_same].
  - rewrite lookup_insert in Hy. case_decide; simplify_eq; left; eexists; (split; [done|]); [by eapply RM_approve|apply RM_same].
  - rewrite lookup_insert in Hy. case_decide; simplify_eq; left; eexists; (split; [done|]); [|apply RM_same].
    apply RM_close; [unfold live|..|done]; by destruct H1 as [Hs|[Hs|Hs]]; rewrite Hs.
  - rewrite lookup_insert in Hy. case_decide; simplify_eq; left; eexists; (split; [done|]); [by apply RM_apply|apply RM_same].
Qed.

(** A request after a call, whether the call returned or not. *)
Lemma invoke_request c e w i y' :
  inv (store w) → requests (store (invoke (exec c) e w).1) !! i = Some y' →
  (∃ y, requests (store w) !! i = Some y ∧ request_moves e (store w) y c y') ∨
  requests (store w) !! i = None ∧ rq_status y' = Open.
Proof.
  intros Hi. unfold invoke.
  destruct (exec c e w) as [w' u| |] eqn:Hrun; simpl; intros Hy; [|left; exists y'; split; [done|apply RM_same]..].
  apply rematch_effect in Hrun as [_ Heff]. by eapply effect_request.
Qed.

Lemma invoke_match c e w m x :
  inv (store w) → matches (store w) !! m = Some x →
  ∃ x', matches (store (invoke (exec c) e w).1) !! m = Some x' ∧ terms x' = terms x.
Proof.
  intros Hi Hx. unfold invoke. destruct (exec c e w) as [w' u| |] eqn:Hrun; simpl; [|by exists x..].
  apply rematch_effect in Hrun as [_ Heff]. destruct (effect_match e _ c _ m x Hi Heff Hx) as (x' & Hx' & Hm).
  exists x'. split; [done|]. by destruct Hm.
Qed.

(** A request whose successor was accepted. *)
Definition consented (y : RematchRequest) : Prop := rq_status y = ApprovedForClosure ∨ rq_status y = ReqSuperseded.

(** Only with the mentee.  Over any sequence of calls from a reachable world in which a request was
    not approved, it is approved for closure or has superseded its match only if one of the calls
    is the approval of that request by the mentee of its match, authorised by the mentee, at the
    time the request records. *)
Theorem supersede_needs_mentee this w calls i y' :
  Reach this w → Forall (λ ec : Env * Call, self ec.1 = this ∧ valid ec.1 ec.2) calls →
  (∀ y, requests (store w) !! i = Some y → ¬ consented y) →
  requests (store (run_calls exec calls w)) !! i = Some y' → consented y' →
  ∃ e c x, (e, CApprove c i) ∈ calls ∧ matches (store (run_calls exec calls w)) !! rq_match_id y' = Some x ∧
    c = mentee x ∧ authorized e c = true ∧ successor_approved_at y' = timestamp e.
Proof.
  intros Hw Hcalls Hno. revert y'. induction calls as [|[e c] calls IH] using rev_ind; intros y' Hy' Hc.
  { by destruct (Hno y'). }
  apply Forall_app in Hcalls as [Hcalls Hlast]. set (w1 := run_calls exec calls w) in *.
  assert (run_calls exec (calls ++ [(e, c)]) w = (invoke (exec c) e w1).1) as Heq.
  { unfold run_calls. by rewrite foldl_app. }
  rewrite Heq in Hy' |- *. assert (Reach this w1) as Hi%rematch_reachable by by apply reachable_run.
  destruct (invoke_request c e w1 i y' Hi Hy') as [(y & Hy & Hm)|[_ Ho]]; [|unfold consented in Hc; rewrite Ho in Hc; by destruct Hc].
  assert (∀ m x, matches (store w1) !! m = Some x → ∃ x', matches (store (invoke (exec c) e w1).1) !! m = Some x' ∧
    mentee x' = mentee x) as Hkeep.
  { intros m x Hx. destruct (invoke_match c e w1 m x Hi Hx) as (x' & Hx' & [= _ _ _ Hme _ _]). by exists x'. }
  assert (consented y → rq_match_id y' = rq_match_id y → successor_approved_at y' = successor_approved_at y →
    ∃ e0 c0 x, (e0, CApprove c0 i) ∈ calls ++ [(e, c)] ∧
      matches (store (invoke (exec c) e w1).1) !! rq_match_id y' = Some x ∧
      c0 = mentee x ∧ authorized e0 c0 = true ∧ successor_approved_at y' = timestamp e0) as Hold.
  { intros Hcy Hmi Hat. destruct (IH Hcalls y Hy Hcy) as (e0 & c0 & x & Hin & Hx & -> & Hau & Ht).
    destruct (Hkeep _ _ Hx) as (x' & Hx' & Hme). exists e0, (mentee x), x'. rewrite Hmi. split_and!; try done; [|congruence].
    apply elem_of_app. by left. }
  destruct Hm; try (by destruct Hc); try (by apply Hold).
  - destruct (Hkeep _ _ H0) as (x' & Hx' & Hme). exists e, c, x'.
    assert (request_id y = i) as Hid by apply (ro_each _ (inv_requests _ Hi) _ _ Hy). split_and!; try done; [|congruence].
    apply elem_of_app. right. apply list_elem_of_singleton. congruence.
  - apply Hold; try done. by left.
Qed.

(** A request's life.  From every reachable world one call leaves a stored request as it is or
    makes one of its transitions: a coordinator's review of an open one, rejection before a
    proposal, proposal of a successor with a fresh window, closing under review, superseding
    after approval; or the mentee's approval within the window.  Its payload never changes, and
    an ended request never changes again. *)
Theorem request_lifecycle this w e c i y :
  Reach this w → valid e c → requests (store w) !! i = Some y →
  ∃ y', requests (store (invoke (exec c) e w).1) !! i = Some y' ∧ request_moves e (store w) y c y' ∧
    (request_id y', rq_match_id y', requested_by y', reason y', reason_hash y', closure_plan_hash y') =
      (request_id y, rq_match_id y, requested_by y, reason y, reason_hash y, closure_plan_hash y) ∧
    (¬ live y → y' = y).
Proof.
  intros Hi%rematch_reachable _ Hy.
  assert (is_Some (requests (store (invoke (exec c) e w).1) !! i)) as [y' Hy'].
  { unfold invoke. destruct (exec c e w) as [w' u| |] eqn:Hrun; simpl; [|by eexists..].
    apply rematch_effect in Hrun as [_ Heff]. assert (∀ k z z', is_Some (requests (store w) !! i) →
      requests (store w) !! k = z → is_Some (<[k := z']> (requests (store w)) !! i)) as Hins.
    { intros k z z' Hs _. rewrite lookup_insert. by case_decide. }
    destruct Heff; try (by eexists); simpl; (eapply Hins; [by eexists|done]). }
  exists y'. split; [done|]. destruct (invoke_request c e w i y' Hi Hy') as [(y0 & Hy0 & Hm)|[Hn _]]; [|congruence].
  simplify_eq. split; [done|]. unfold live. destruct Hm; (split; [done|]); intros Hl; try done; exfalso; apply Hl;
    try (rewrite H; done); try done; by destruct H as [->| ->].
Qed.

(** ** Superseding and retrying *)

Lemma require_coordinator_run c e w :
  coordinates e (store w) c → (require_coordinator c : M unit) e w = Done w tt.
Proof.
  intros [Hc Hau]. apply is_coordinator_iff in Hc. unfold require_coordinator, require_auth.
  cbv [bind load reject_if ret]. by rewrite Hc, Hau.
Qed.

(** Applying a successor.  In every reachable world a coordinator's application of an approved
    request is refused only for an open case or a match id that is taken; otherwise it always
    succeeds: the match is superseded by a new active match of the successor and the same
    mentee under the same agreement, and the request ends.  A request in another state, or
    that does not exist, is refused. *)
Theorem apply_exact this w e c i s :
  Reach this w → coordinates e (store w) c →
  match requests (store w) !! i with
  | None => invoke (apply_successor c i s) e w = (w, Errored RematchRequestNotFound)
  | Some y =>
      if decide (rq_status y = ApprovedForClosure) then
        ∃ x a, matches (store w) !! rq_match_id y = Some x ∧ status x = Active ∧ successor y = Some a ∧
          ¬ participant a x ∧
          invoke (apply_successor c i s) e w =
            if financial_open (flags_of (match_id x) (store w)) || safety_open (flags_of (match_id x) (store w))
            then (w, Errored UnsafeClosureBlocked)
            else if decide (is_Some (matches (store w) !! s)) then (w, Errored MatchAlreadyRegistered)
            else (mkWorld (ledger w)
                    (bump stat_superseded (put_request (with_status ReqSuperseded (timestamp e) y)
                      (put_match (ended Superseded (Some s) (timestamp e) x)
                        (put_match (successor_of s a (timestamp e) x) (store w)))))
                    (log w ++ [RMSUPER i (match_id x) s]), Returned tt)
      else invoke (apply_successor c i s) e w = (w, Errored InvalidRequestState)
  end.
Proof.
  intros Hi%rematch_reachable Hco. unfold invoke, apply_successor, load_request. cbv [bind load].
  rewrite require_coordinator_run by done. destruct (requests (store w) !! i) as [y|] eqn:Hy; [|done].
  cbv [ok_or ret reject_if fail]. case_decide as Hs; [rewrite bool_decide_eq_true_2 by done|by rewrite bool_decide_eq_false_2].
  simpl. destruct (ro_each _ (inv_requests _ Hi) _ _ Hy) as (_ & _ & _ & x & Hx & _ & _ & Hsu).
  destruct Hsu as (a & Ha & Hna); [auto|]. assert (live y) as Hl by (unfold live; by rewrite Hs).
  destruct (live_match _ _ _ _ Hi Hy Hl Hx) as (Hact & _). exists x, a. split_and!; [done..|].
  unfold load_match, require_no_open_cases. cbv [bind load ok_or ret reject_if fail]. rewrite Hx.
  destruct (financial_open _ || safety_open _); [done|]. rewrite Ha. by destruct (matches (store w) !! s).
Qed.

(** Retries.  Once a request was filed, the same caller's retry with the same payload changes
    nothing, whatever happened since: it is accepted as long as the match is active, and
    refused as inactive after the match has ended. *)
Theorem request_retry this w e c m i r h p y x :
  Reach this w → requests (store w) !! i = Some y → matches (store w) !! m = Some x → same_payload m c r h p y = true →
  authorized e c = true →
  invoke (request_rematch c m i r h p) e w =
    (w, if decide (status x = Active) then Returned tt else Errored MatchNotActive).
Proof.
  intros Hi%rematch_reachable Hy Hx Hsame Hau. pose proof Hsame as Hs. unfold same_payload in Hs. bool_prop.
  destruct (ro_each _ (inv_requests _ Hi) _ _ Hy) as (_ & Hp & _ & x0 & Hx0 & Hpart & _).
  assert (x0 = x) as -> by congruence. unfold invoke, request_rematch, load_match, require_auth.
  cbv [bind load ok_or ret reject_if fail]. rewrite Hx.
  case_decide as Hact; [rewrite bool_decide_eq_true_2 by done|by rewrite bool_decide_eq_false_2]. simpl.
  assert (negb (bool_decide (c = mentor x)) && negb (bool_decide (c = mentee x)) = false) as ->.
  { rewrite andb_false_iff, !negb_false_iff, !bool_decide_eq_true. unfold participant in Hpart. naive_solver congruence. }
  rewrite Hau. destruct (Z.eqb_spec p zero_hash); [congruence|]. by rewrite Hy, Hsame.
Qed.
End Theorems.

(** ** Concrete runs *)
Module Runs.
Definition this : Address := addr 0.
Definition boss : Address := addr 1.
Definition cora : Address := addr 2.
Definition ann : Address := addr 3.
Definition bob : Address := addr 4.
Definition dan : Address := addr 5.
Abbreviation Reach := (reachable exec valid this (λ _ _, True) deployed).

Definition at_time (t : Z) : Env := mkEnv t this (λ _, true).
Definition w0 : World unit Store Event := mkWorld tt empty_store [].
Definition filing : Call := CRequest bob 1 11 AvailabilityChange 7 8.
(** A match of [ann] and [bob], a request of [bob] under review with [dan] proposed. *)
Definition setup : list (Env * Call) :=
  [(at_time 10, CInitialize boss 100); (at_time 11, CCoordinator boss cora); (at_time 12, CMatch boss 1 9 ann bob);
   (at_time 13, filing); (at_time 14, CRequest ann 1 12 Other 7 8); (at_time 15, CReview cora 11);
   (at_time 20, CPropose cora 11 dan 5)].
(** The approval, an application blocked by a case, and the one that succeeds. *)
Definition ending : list (Env * Call) :=
  [(at_time 30, CApprove bob 11); (at_time 31, CFlags cora 1 false true); (at_time 32, CApply cora 11 2);
   (at_time 33, CFlags cora 1 false false); (at_time 40, CApply cora 11 2)].
Definition w1 : World unit Store Event := run_calls exec setup w0.
Definition w2 : World unit Store Event := run_calls exec (setup ++ ending) w0.
Definition w3 : World unit Store Event := run_calls exec (setup ++ take 1 ending) w0.

Lemma rematch_runs calls :
  Forall (λ ec : Env * Call, self ec.1 = this ∧ valid ec.1 ec.2) calls → Reach (run_calls exec calls w0).
Proof. apply reachable_run. by apply reach_init. Qed.

Ltac valid_calls := repeat constructor; simpl; try done; range_lia.

Lemma rematch_w1_reach : Reach w1.
Proof. apply rematch_runs. valid_calls. Qed.
Lemma rematch_w2_reach : Reach w2.
Proof. apply rematch_runs. valid_calls. Qed.
Lemma rematch_w3_reach : Reach w3.
Proof. apply rematch_runs. valid_calls. Qed.

Definition match1 : MatchRecord := mkMatch 1 9 ann bob Active None None 12 0.
Definition request11 : RematchRequest :=
  mkRequest 11 1 bob AvailabilityChange 7 8 13 15 SuccessorProposed (Some dan) 5 20 120 0 0.

Lemma one_open_request_witness : requests_of 1 (store w1) = [11] ∧ ∃ y, requests (store w1) !! 11 = Some y ∧ rq_match_id y = 1.
Proof.
  split; [vm_compute; reflexivity|]. destruct (one_open_request this w1 rematch_w1_reach) as (_ & _ & Hix & _).
  apply Hix. vm_compute. left.
Defined.

Lemma succession_traceable_witness :
  ∃ s y, successor_match_id (ended Superseded (Some 2) 40 match1) = Some s ∧ matches (store w2) !! s = Some y ∧
    superseded_match_id y = Some 1 ∧ mentee y = bob.
Proof.
  assert (matches (store w2) !! 1 = Some (ended Superseded (Some 2) 40 match1)) as Hx by (vm_compute; reflexivity).
  destruct (succession_traceable this w2 1 _ rematch_w2_reach Hx) as (_ & _ & Hs & _).
  destruct (Hs eq_refl) as (s & y & Hn & Hy & Hp & Hm & _). exists s, y. split_and!; done.
Defined.

Lemma stats_count_witness : n_matches (matches (store w2)) = 2 ∧ n_closed (requests (store w2)) = 1.
Proof.
  destruct (stats_count this w2 (mkStats 2 0 1 1) rematch_w2_reach) as (Hm & _ & Hc & _);
    [vm_compute; reflexivity|vm_compute; congruence|vm_compute; congruence|].
  split; [symmetry; exact Hm|symmetry; exact Hc].
Defined.

Lemma match_lifecycle_witness :
  ∃ x', matches (store (run_calls exec [(at_time 40, CApply cora 11 2)] w3)) !! 1 = Some x' ∧
    match_moves (at_time 40) (store w3) match1 x' ∧ status x' = Superseded.
Proof.
  destruct (match_lifecycle this w3 (at_time 40) (CApply cora 11 2) 1 match1) as (x' & Hx & Hm & _).
  - apply rematch_w3_reach.
  - unfold valid. simpl. range_lia.
  - vm_compute. reflexivity.
  - exists x'. split; [exact Hx|]. split; [exact Hm|]. vm_compute in Hx. injection Hx as <-. reflexivity.
Defined.

Lemma supersede_needs_mentee_witness :
  ∃ e c, (e, CApprove c 11) ∈ ending ∧ authorized e c = true ∧ timestamp e = 30.
Proof.
  assert (requests (store (run_calls exec ending w1)) !! 11 =
    Some (with_status ReqSuperseded 40 (approved 30 request11))) as Hy by (vm_compute; reflexivity).
  destruct (supersede_needs_mentee this w1 ending 11 (with_status ReqSuperseded 40 (approved 30 request11)))
    as (e & c & x & Hin & _ & _ & Hau & Ht).
  - apply rematch_w1_reach.
  - valid_calls.
  - intros y H. vm_compute in H. injection H as <-. by intros [?|?].
  - exact Hy.
  - by right.
  - exists e, c. split; [exact Hin|]. split; [exact Hau|]. symmetry. exact Ht.
Defined.

Lemma request_lifecycle_witness :
  ∃ y', requests (store (run_calls exec [(at_time 120, CApprove bob 11)] w1)) !! 11 = Some y' ∧
    request_moves (at_time 120) (store w1) request11 (CApprove bob 11) y' ∧ rq_status y' = ApprovedForClosure.
Proof.
  destruct (request_lifecycle this w1 (at_time 120) (CApprove bob 11) 11 request11) as (y' & Hy & Hm & _).
  - apply rematch_w1_reach.
  - unfold valid. simpl. range_lia.
  - vm_compute. reflexivity.
  - exists y'. split; [exact Hy|]. split; [exact Hm|]. vm_compute in Hy. injection Hy as <-. reflexivity.
Defined.

Lemma apply_exact_witness :
  (invoke (apply_successor cora 11 2) (at_time 40) w3).2 = Returned tt.
Proof.
  assert (coordinates (at_time 40) (store w3) cora) as Hco.
  { split; [|reflexivity]. apply is_coordinator_iff. vm_compute. reflexivity. }
  pose proof (apply_exact this w3 (at_time 40) cora 11 2 rematch_w3_reach Hco) as Ha.
  assert (requests (store w3) !! 11 = Some (approved 30 request11)) as Hy by (vm_compute; reflexivity).
  rewrite Hy, decide_True in Ha by reflexivity. destruct Ha as (x & a & Hx & _ & _ & _ & Ha). rewrite Ha.
  vm_compute in Hx. injection Hx as <-. vm_compute. reflexivity.
Defined.

(** The retry is accepted while the match is active and refused once it has ended. *)
Lemma request_retry_witness :
  (invoke (exec filing) (at_time 25) w1).2 = Returned tt ∧
  (invoke (exec filing) (at_time 50) w2).2 = Errored MatchNotActive.
Proof.
  split; unfold filing, exec.
  - rewrite (request_retry this w1 (at_time 25) bob 1 11 AvailabilityChange 7 8 request11 match1) by
      (reflexivity || apply rematch_w1_reach || (vm_compute; reflexivity)). reflexivity.
  - rewrite (request_retry this w2 (at_time 50) bob 1 11 AvailabilityChange 7 8
      (with_status ReqSuperseded 40 (approved 30 request11)) (ended Superseded (Some 2) 40 match1)) by
      (reflexivity || apply rematch_w2_reach || (vm_compute; reflexivity)). reflexivity.
Defined.
End Runs.
