(* ===== verification/Matching.v ===== *)
(** * Match proposals ([mentorship-matching/src/lib.rs])

    A mentor, or a coordinator with a reason, proposes a match under a commitment to terms, a
    fee and an expiry; both participants approve a version of it or either declines; a
    coordinator may adjust it, which takes both approvals back.  Eligibility and blocks are
    checked on every path; the actions of the coordinators are logged. *)
From S2P Require Import Prelude Machine Host.

Definition MAX_PENDING_PROPOSALS_PER_PROGRAM : Z := 128.
Definition MAX_PROPOSAL_LIFETIME : Z := 90 * 24 * 60 * 60.
Definition MAX_COORDINATOR_ACTIONS : Z := 1024.
Definition ZERO_HASH : BytesN32 := 0.

Inductive MatchingError :=
| NotInitialized | AlreadyInitialized | Unauthorized | ParticipantNotFound | ParticipantInactive | RoleMismatch
| SelfMatch | Blocked | InvalidTerms | InvalidExpiry | ProposalNotFound | DuplicateActiveProposal | ProposalExpired
| InvalidTransition | NotParticipant | AlreadyApproved | StaleProposalVersion | ReasonRequired | InvalidReasonCode
| ProgramCapacityReached | ActionLogFull | CounterOverflow | ParticipantExists | InvalidProgram | ReasonNotFound
| ActionNotFound.

Inductive ParticipantRole := Mentor | Mentee.
Module Participation.
Inductive ParticipantStatus := Active | Inactive | Suspended.
End Participation.
Export Participation(ParticipantStatus).
#[export] Instance ParticipantStatus_eq_dec : EqDecision ParticipantStatus.
Proof. solve_decision. Defined.
Record Participant := mkParticipant {
  role : ParticipantRole; pt_status : ParticipantStatus; pt_updated_at : Z
}.
Inductive ProposalOrigin := ByMentor | ByCoordinator.
Inductive ProposalStatus := Proposed | Active | Declined | Expired.
Inductive CoordinatorActionKind := ActProposed | ActAdjusted.

#[export] Instance ParticipantRole_eq_dec : EqDecision ParticipantRole.
Proof. solve_decision. Defined.
#[export] Instance ProposalOrigin_eq_dec : EqDecision ProposalOrigin.
Proof. solve_decision. Defined.
#[export] Instance ProposalStatus_eq_dec : EqDecision ProposalStatus.
Proof. solve_decision. Defined.
#[export] Instance CoordinatorActionKind_eq_dec : EqDecision CoordinatorActionKind.
Proof. solve_decision. Defined.

Definition is_open (s : ProposalStatus) : bool := match s with Proposed | Active => true | _ => false end.

Record ProposalTerms := mkTerms { t_hash : BytesN32; t_fee : Z; t_expires_at : Z }.
Record Proposal := mkProposal {
  pr_id : BytesN32; program_id : BytesN32; mentor : Address; mentee : Address; terms_hash : BytesN32;
  proposed_fee : Z; expires_at : Z; created_by : Address; origin : ProposalOrigin;
  last_adjusted_by : option Address; status : ProposalStatus; version : Z; mentor_approved : bool;
  mentee_approved : bool; created_at : Z; updated_at : Z
}.
Record CoordinatorAction := mkAction {
  coordinator : Address; proposal_id : BytesN32; kind : CoordinatorActionKind; reason_hash : BytesN32;
  ac_version : Z; at_ : Z
}.

Inductive Event :=
| MNT_INIT (a : Address)
| MNT_UPG (h : BytesN32)
| MNT_COORD (a : Address) (b : bool)
| MNT_REG (a : Address) (r : ParticipantRole)
| MNT_STAT (a : Address) (s : ParticipantStatus)
| MNT_BLOCK (a b : Address) (on : bool)
| MNT_PROP (i p : BytesN32) (a b : Address) (o : ProposalOrigin) (v : Z)
| MNT_CACT (c : Address) (seq : Z) (k : CoordinatorActionKind) (i : BytesN32)
| MNT_APPR (i : BytesN32) (a : Address) (v : Z)
| MNT_MATCH (i p : BytesN32) (a b : Address)
| MNT_DECL (i : BytesN32) (a : Address) (reason : Z)
| MNT_ADJ (i : BytesN32) (c : Address) (v : Z).

Record Store := mkStore {
  admin : option Address;
  coordinators : gset Address;
  participants : gmap Address Participant;
  blocks : gset (Address * Address);
  proposal_count : option Z;
  proposals : gmap Z Proposal;
  pairs : gmap (Z * Address * Address) Z;
  pending : gmap Z Z;
  reasons : gmap Z Z;
  action_count : gmap Address Z;
  actions : gmap (Address * Z) CoordinatorAction
}.

Definition put_admin (a : Address) (st : Store) : Store :=
  mkStore (Some a) (coordinators st) (participants st) (blocks st) (proposal_count st) (proposals st) (pairs st)
    (pending st) (reasons st) (action_count st) (actions st).
Definition put_coordinator (a : Address) (on : bool) (st : Store) : Store :=
  mkStore (admin st) (if on then {[a]} ∪ coordinators st else coordinators st ∖ {[a]}) (participants st) (blocks st)
    (proposal_count st) (proposals st) (pairs st) (pending st) (reasons st) (action_count st) (actions st).
Definition put_participant (a : Address) (x : Participant) (st : Store) : Store :=
  mkStore (admin st) (coordinators st) (<[a := x]> (participants st)) (blocks st) (proposal_count st) (proposals st)
    (pairs st) (pending st) (reasons st) (action_count st) (actions st).
Definition put_block (a b : Address) (on : bool) (st : Store) : Store :=
  mkStore (admin st) (coordinators st) (participants st)
    (if on then {[(a, b)]} ∪ blocks st else blocks st ∖ {[(a, b)]})
    (proposal_count st) (proposals st) (pairs st) (pending st) (reasons st) (action_count st) (actions st).
Definition put_count (n : Z) (st : Store) : Store :=
  mkStore (admin st) (coordinators st) (participants st) (blocks st) (Some n) (proposals st) (pairs st)
    (pending st) (reasons st) (action_count st) (actions st).
Definition store_proposal (x : Proposal) (st : Store) : Store :=
  mkStore (admin st) (coordinators st) (participants st) (blocks st) (proposal_count st)
    (<[pr_id x := x]> (proposals st)) (pairs st) (pending st) (reasons st) (action_count st) (actions st).
Definition put_pair (k : Z * Address * Address) (i : BytesN32) (st : Store) : Store :=
  mkStore (admin st) (coordinators st) (participants st) (blocks st) (proposal_count st) (proposals st)
    (<[k := i]> (pairs st)) (pending st) (reasons st) (action_count st) (actions st).
Definition set_pending_count (p : BytesN32) (n : Z) (st : Store) : Store :=
  mkStore (admin st) (coordinators st) (participants st) (blocks st) (proposal_count st) (proposals st) (pairs st)
    (<[p := n]> (pending st)) (reasons st) (action_count st) (actions st).
Definition put_reason (i h : BytesN32) (st : Store) : Store :=
  mkStore (admin st) (coordinators st) (participants st) (blocks st) (proposal_count st) (proposals st) (pairs st)
    (pending st) (<[i := h]> (reasons st)) (action_count st) (actions st).
Definition put_action (c : Address) (n : Z) (x : CoordinatorAction) (st : Store) : Store :=
  mkStore (admin st) (coordinators st) (participants st) (blocks st) (proposal_count st) (proposals st) (pairs st)
    (pending st) (reasons st) (<[c := n]> (action_count st)) (<[(c, n) := x]> (actions st)).

Definition pending_count (p : BytesN32) (st : Store) : Z := default 0 (pending st !! p).
Definition actions_of (c : Address) (st : Store) : Z := default 0 (action_count st !! c).
Definition nonce (st : Store) : Z := default 0 (proposal_count st).
Definition blocked (a b : Address) (st : Store) : bool :=
  bool_decide ((a, b) ∈ blocks st) || bool_decide ((b, a) ∈ blocks st).

(** ** Changes of a proposal *)

Definition expired (t : Z) (x : Proposal) : Proposal :=
  mkProposal (pr_id x) (program_id x) (mentor x) (mentee x) (terms_hash x) (proposed_fee x) (expires_at x)
    (created_by x) (origin x) (last_adjusted_by x) Expired (version x) (mentor_approved x) (mentee_approved x)
    (created_at x) t.
Definition declined (t : Z) (x : Proposal) : Proposal :=
  mkProposal (pr_id x) (program_id x) (mentor x) (mentee x) (terms_hash x) (proposed_fee x) (expires_at x)
    (created_by x) (origin x) (last_adjusted_by x) Declined (version x) (mentor_approved x) (mentee_approved x)
    (created_at x) t.
(** The approval of the mentor or of the mentee; the second one makes the match. *)
Definition approved (is_mentor : bool) (t : Z) (x : Proposal) : Proposal :=
  let a := is_mentor || mentor_approved x in
  let b := negb is_mentor || mentee_approved x in
  mkProposal (pr_id x) (program_id x) (mentor x) (mentee x) (terms_hash x) (proposed_fee x) (expires_at x)
    (created_by x) (origin x) (last_adjusted_by x) (if a && b then Active else status x) (version x) a b
    (created_at x) t.
Definition adjusted (c : Address) (s : ProposalTerms) (v t : Z) (x : Proposal) : Proposal :=
  mkProposal (pr_id x) (program_id x) (mentor x) (mentee x) (t_hash s) (t_fee s) (t_expires_at s)
    (created_by x) (origin x) (Some c) Proposed v false false (created_at x) t.

Section Contract.
Context {L : Type}.
Abbreviation M := (Contract L Store Event MatchingError).
(** The host's hash and the XDR encoding of an address. *)
Context (sha256 : Bytes → BytesN32) (to_xdr : Address → Bytes).

Definition require_admin (caller : Address) : M unit := require_admin_of admin NotInitialized Unauthorized caller.

Definition require_coordinator (caller : Address) : M unit :=
  o <- load admin ;;
  a <- ok_or o NotInitialized ;;
  registered <- load (λ st, bool_decide (caller ∈ coordinators st)) ;;
  reject_if (negb (bool_decide (caller = a)) && negb registered) Unauthorized ;;;
  require_auth caller.

Definition derived_id (n t : Z) (salt : Bytes) : BytesN32 := sha256 (be_bytes 8 n ++ be_bytes 8 t ++ salt).
Definition derive_id (salt : Bytes) : M BytesN32 :=
  n <- load nonce ;;
  n <- ok_or (checked_add_u64 n 1) CounterOverflow ;;
  save (put_count n) ;;;
  t <- now ;;
  ret (derived_id n t salt).

Definition load_participant (a : Address) : M Participant :=
  o <- load (λ st, participants st !! a) ;; ok_or o ParticipantNotFound.
Definition load_proposal (i : BytesN32) : M Proposal :=
  o <- load (λ st, proposals st !! i) ;; ok_or o ProposalNotFound.

Definition require_eligible (a b : Address) : M unit :=
  x <- load_participant a ;;
  y <- load_participant b ;;
  reject_if (negb (bool_decide (role x = Mentor)) || negb (bool_decide (role y = Mentee))) RoleMismatch ;;;
  reject_if (negb (bool_decide (pt_status x = Participation.Active)) ||
             negb (bool_decide (pt_status y = Participation.Active))) ParticipantInactive ;;;
  bl <- load (blocked a b) ;;
  reject_if bl Blocked.

Definition valid_terms (s : ProposalTerms) : M unit :=
  reject_if ((t_hash s =? ZERO_HASH) || (t_fee s <? 0)) InvalidTerms ;;;
  t <- now ;;
  reject_if (t_expires_at s <=? t) InvalidExpiry ;;;
  latest <- ok_or (checked_add_u64 t MAX_PROPOSAL_LIFETIME) InvalidExpiry ;;
  reject_if (latest <? t_expires_at s) InvalidExpiry.

Definition increase_pending (p : BytesN32) : M unit :=
  n <- load (pending_count p) ;;
  reject_if (MAX_PENDING_PROPOSALS_PER_PROGRAM <=? n) ProgramCapacityReached ;;;
  n <- or_trap (checked_add_u32 n 1) ;;
  save (set_pending_count p n).

Definition decrease_pending (p : BytesN32) : M unit :=
  n <- load (pending_count p) ;;
  if 0 <? n then save (set_pending_count p (n - 1)) else ret tt.

Definition expire_proposal (x : Proposal) : M unit :=
  (if bool_decide (status x = Proposed) then decrease_pending (program_id x) else ret tt) ;;;
  t <- now ;;
  save (store_proposal (expired t x)).

Definition record_coordinator_action (c : Address) (i : BytesN32) (k : CoordinatorActionKind) (h : BytesN32) (v : Z) :
    M Z :=
  n <- load (actions_of c) ;;
  reject_if (MAX_COORDINATOR_ACTIONS <=? n) ActionLogFull ;;;
  n <- ok_or (checked_add_u32 n 1) CounterOverflow ;;
  t <- now ;;
  save (put_action c n (mkAction c i k h v t)) ;;;
  publish (MNT_CACT c n k i) ;;;
  ret n.

Definition proposal_salt (p : BytesN32) (a b : Address) : Bytes := to_array p ++ to_xdr a ++ to_xdr b.

(** The options of the shared creation path are the creator, the origin and the reason. *)
Definition create (p : BytesN32) (a b : Address) (s : ProposalTerms) (by_ : Address) (o : ProposalOrigin)
    (reason : option BytesN32) : M BytesN32 :=
  reject_if (p =? ZERO_HASH) InvalidProgram ;;;
  reject_if (bool_decide (a = b)) SelfMatch ;;;
  valid_terms s ;;;
  require_eligible a b ;;;
  existing <- load (λ st, pairs st !! (p, a, b)) ;;
  match existing with
  | Some j =>
      x <- load_proposal j ;;
      if is_open (status x) then
        t <- now ;;
        reject_if (t <? expires_at x) DuplicateActiveProposal ;;;
        expire_proposal x
      else ret tt
  | None => ret tt
  end ;;;
  t <- now ;;
  i <- derive_id (proposal_salt p a b) ;;
  increase_pending p ;;;
  save (store_proposal (mkProposal i p a b (t_hash s) (t_fee s) (t_expires_at s) by_ o None Proposed 1 false false t t)) ;;;
  save (put_pair (p, a, b) i) ;;;
  publish (MNT_PROP i p a b o 1) ;;;
  match reason with
  | Some h =>
      save (put_reason i h) ;;;
      ignore (record_coordinator_action by_ i ActProposed h 1)
  | None => ret tt
  end ;;;
  ret i.

Definition initialize (a : Address) : M unit :=
  o <- load admin ;;
  reject_if (bool_decide (is_Some o)) AlreadyInitialized ;;;
  require_auth a ;;;
  save (put_admin a) ;;;
  publish (MNT_INIT a).

(** The code is replaced by the host. *)
Definition upgrade (caller : Address) (h : BytesN32) : M unit :=
  require_admin caller ;;;
  publish (MNT_UPG h).

Definition set_coordinator (caller c : Address) (allowed : bool) : M unit :=
  require_admin caller ;;;
  save (put_coordinator c allowed) ;;;
  publish (MNT_COORD c allowed).

Definition is_coordinator (a : Address) : M bool := load (λ st, bool_decide (a ∈ coordinators st)).

Definition register_participant (caller a : Address) (r : ParticipantRole) : M unit :=
  require_admin caller ;;;
  o <- load (λ st, participants st !! a) ;;
  reject_if (bool_decide (is_Some o)) ParticipantExists ;;;
  t <- now ;;
  save (put_participant a (mkParticipant r Participation.Active t)) ;;;
  publish (MNT_REG a r).

Definition set_participant_status (caller a : Address) (s : ParticipantStatus) : M unit :=
  require_admin caller ;;;
  x <- load_participant a ;;
  t <- now ;;
  save (put_participant a (mkParticipant (role x) s t)) ;;;
  publish (MNT_STAT a s).

Definition get_participant (a : Address) : M Participant := load_participant a.

Definition set_block (a b : Address) (on : bool) : M unit :=
  reject_if (bool_decide (a = b)) SelfMatch ;;;
  require_auth a ;;;
  save (put_block a b on) ;;;
  publish (MNT_BLOCK a b on).

Definition is_blocked (a b : Address) : M bool := load (blocked a b).

Definition create_proposal (a : Address) (p : BytesN32) (b : Address) (s : ProposalTerms) : M BytesN32 :=
  require_auth a ;;;
  create p a b s a ByMentor None.

Definition propose_as_coordinator (c : Address) (p : BytesN32) (a b : Address) (s : ProposalTerms) (h : BytesN32) :
    M BytesN32 :=
  require_coordinator c ;;;
  reject_if (h =? ZERO_HASH) ReasonRequired ;;;
  create p a b s c ByCoordinator (Some h).

Definition approve_proposal (who : Address) (i : BytesN32) (expected : Z) : M unit :=
  x <- load_proposal i ;;
  let is_mentor := bool_decide (who = mentor x) in
  let is_mentee := bool_decide (who = mentee x) in
  reject_if (negb is_mentor && negb is_mentee) NotParticipant ;;;
  require_auth who ;;;
  reject_if (negb (version x =? expected)) StaleProposalVersion ;;;
  reject_if ((is_mentor && mentor_approved x) || (is_mentee && mentee_approved x)) AlreadyApproved ;;;
  reject_if (negb (bool_decide (status x = Proposed))) InvalidTransition ;;;
  t <- now ;;
  reject_if (expires_at x <=? t) ProposalExpired ;;;
  require_eligible (mentor x) (mentee x) ;;;
  let y := approved is_mentor t x in
  let both := mentor_approved y && mentee_approved y in
  (if both then decrease_pending (program_id y) else ret tt) ;;;
  save (store_proposal y) ;;;
  publish (MNT_APPR i who expected) ;;;
  if both then publish (MNT_MATCH i (program_id y) (mentor y) (mentee y)) else ret tt.

Definition decline_proposal (who : Address) (i : BytesN32) (code : Z) : M unit :=
  reject_if (code =? 0) InvalidReasonCode ;;;
  x <- load_proposal i ;;
  reject_if (negb (bool_decide (who = mentor x)) && negb (bool_decide (who = mentee x))) NotParticipant ;;;
  require_auth who ;;;
  if bool_decide (status x = Declined) then ret tt
  else
    reject_if (negb (bool_decide (status x = Proposed))) InvalidTransition ;;;
    t <- now ;;
    decrease_pending (program_id x) ;;;
    save (store_proposal (declined t x)) ;;;
    publish (MNT_DECL i who code).

Definition adjust_proposal (c : Address) (i : BytesN32) (s : ProposalTerms) (h : BytesN32) : M BytesN32 :=
  require_coordinator c ;;;
  reject_if (h =? ZERO_HASH) ReasonRequired ;;;
  valid_terms s ;;;
  x <- load_proposal i ;;
  reject_if (negb (is_open (status x))) InvalidTransition ;;;
  t <- now ;;
  reject_if (expires_at x <=? t) ProposalExpired ;;;
  require_eligible (mentor x) (mentee x) ;;;
  (if bool_decide (status x = Active) then increase_pending (program_id x) else ret tt) ;;;
  v <- ok_or (checked_add_u32 (version x) 1) CounterOverflow ;;
  save (store_proposal (adjusted c s v t x)) ;;;
  save (put_reason i h) ;;;
  record_coordinator_action c i ActAdjusted h v ;;;
  publish (MNT_ADJ i c v) ;;;
  ret i.

Definition get_proposal (i : BytesN32) : M Proposal := load_proposal i.
Definition is_proposal_open (i : BytesN32) : M bool :=
  x <- load_proposal i ;;
  t <- now ;;
  ret (is_open (status x) && (t <? expires_at x)).
Definition open_proposal_for (p : BytesN32) (a b : Address) : M (option BytesN32) :=
  o <- load (λ st, j ← pairs st !! (p, a, b); x ← proposals st !! j; Some (j, x)) ;;
  t <- now ;;
  ret (match o with
       | Some (j, x) => if is_open (status x) && (t <? expires_at x) then Some j else None
       | None => None
       end).
Definition pending_proposal_count (p : BytesN32) : M Z := load (pending_count p).
Definition proposal_reason (i : BytesN32) : M BytesN32 :=
  o <- load (λ st, reasons st !! i) ;; ok_or o ReasonNotFound.
Definition coordinator_action_count (c : Address) : M Z := load (actions_of c).
Definition coordinator_action (c : Address) (n : Z) : M CoordinatorAction :=
  o <- load (λ st, actions st !! (c, n)) ;; ok_or o ActionNotFound.

(** ** Calls *)

Inductive Call :=
| CInitialize (a : Address)
| CCoordinator (caller c : Address) (allowed : bool)
| CRegister (caller a : Address) (r : ParticipantRole)
| CStatus (caller a : Address) (s : ParticipantStatus)
| CBlock (a b : Address) (on : bool)
| CPropose (a : Address) (p : BytesN32) (b : Address) (s : ProposalTerms)
| CAssist (c : Address) (p : BytesN32) (a b : Address) (s : ProposalTerms) (h : BytesN32)
| CApprove (who : Address) (i : BytesN32) (expected : Z)
| CDecline (who : Address) (i : BytesN32) (code : Z)
| CAdjust (c : Address) (i : BytesN32) (s : ProposalTerms) (h : BytesN32).

Definition exec (c : Call) : M unit :=
  match c with
  | CInitialize a => initialize a
  | CCoordinator c a b => set_coordinator c a b
  | CRegister c a r => register_participant c a r
  | CStatus c a s => set_participant_status c a s
  | CBlock a b on => set_block a b on
  | CPropose a p b s => ignore (create_proposal a p b s)
  | CAssist c p a b s h => ignore (propose_as_coordinator c p a b s h)
  | CApprove a i v => approve_proposal a i v
  | CDecline a i n => decline_proposal a i n
  | CAdjust c i s h => ignore (adjust_proposal c i s h)
  end.
End Contract.

(** The declared widths of the arguments. *)
Definition valid (e : Env) (c : Call) : Prop :=
  0 ≤ timestamp e ≤ u64_max ∧
  match c with
  | CPropose _ _ _ s | CAssist _ _ _ _ s _ | CAdjust _ _ s _ =>
      i128_min ≤ t_fee s ≤ i128_max ∧ 0 ≤ t_expires_at s ≤ u64_max
  | CApprove _ _ n | CDecline _ _ n => 0 ≤ n ≤ u32_max
  | _ => True
  end.
