(* ===== verification/MatchingProps.v ===== *)
(** * Match proposals: effects and invariant

    One relation for the calls that return: what they have checked and the store they leave.

    The index of a pair names its only open proposal, the pending count of a program is the
    number of its proposals awaiting approval, a match has both approvals, and every action of
    a coordinator is in the log; every call that returns keeps it so. *)
From S2P Require Import Prelude Machine Host Matching.

Definition eligible (a b : Address) (st : Store) : Prop :=
  (∃ x, participants st !! a = Some x ∧ role x = Mentor ∧ pt_status x = Participation.Active) ∧
  (∃ y, participants st !! b = Some y ∧ role y = Mentee ∧ pt_status y = Participation.Active) ∧
  blocked a b st = false.

Definition terms_ok (t : Z) (s : ProposalTerms) : Prop :=
  t_hash s ≠ 0 ∧ 0 ≤ t_fee s ∧ t < t_expires_at s ≤ t + MAX_PROPOSAL_LIFETIME ∧ t + MAX_PROPOSAL_LIFETIME ≤ u64_max.

Definition coordinates (e : Env) (c : Address) (st : Store) : Prop :=
  authorized e c = true ∧ is_Some (admin st) ∧ (admin st = Some c ∨ c ∈ coordinators st).

(** ** The stores the calls leave *)

Definition release_pending (p : Z) (st : Store) : Store :=
  if 0 <? pending_count p st then set_pending_count p (pending_count p st - 1) st else st.
Definition take_pending (p : Z) (st : Store) : Store := set_pending_count p (pending_count p st + 1) st.
Definition finalized (t : Z) (x : Proposal) (st : Store) : Store :=
  store_proposal (expired t x) (if decide (status x = Proposed) then release_pending (program_id x) st else st).
(** The expired proposal of a pair is finalized first. *)
Definition after_expiry (t : Z) (k : Z * Address * Address) (st : Store) : Store :=
  match j ← pairs st !! k; proposals st !! j with
  | Some x => if is_open (status x) then finalized t x st else st
  | None => st
  end.

Definition proposal_of (i p : Z) (a b : Address) (s : ProposalTerms) (by_ : Address) (o : ProposalOrigin) (t : Z) : Proposal :=
  mkProposal i p a b (t_hash s) (t_fee s) (t_expires_at s) by_ o None Proposed 1 false false t t.
Definition created (x : Proposal) (st : Store) : Store :=
  put_pair (program_id x, mentor x, mentee x) (pr_id x)
    (store_proposal x (take_pending (program_id x) (put_count (nonce st + 1) st))).
Definition logged (c : Address) (i : Z) (k : CoordinatorActionKind) (h v t : Z) (st : Store) : Store :=
  put_action c (actions_of c st + 1) (mkAction c i k h v t) st.
Definition consented (y : Proposal) (st : Store) : Store :=
  store_proposal y (if mentor_approved y && mentee_approved y then release_pending (program_id y) st else st).

Section Effects.
Context {L : Type} (sha256 : Bytes → BytesN32) (to_xdr : Address → Bytes).
Abbreviation W := (World L Store Event).
Abbreviation M := (Contract L Store Event MatchingError).
Implicit Types (w : W).
Abbreviation exec := (exec (L := L) sha256 to_xdr).

(** The identifier of the next proposal of a store. *)
Definition next_id (t p : Z) (a b : Address) (st : Store) : Z :=
  derived_id sha256 (nonce st + 1) t (proposal_salt to_xdr p a b).

(** A proposal by [by_] may be made, and the store in which it is. *)
Record creatable (e : Env) (p : Z) (a b : Address) (s : ProposalTerms) (st : Store) : Prop := {
  cr_program : p ≠ 0;
  cr_parties : a ≠ b;
  cr_terms : terms_ok (timestamp e) s;
  cr_eligible : eligible a b st;
  cr_free j x : pairs st !! (p, a, b) = Some j → proposals st !! j = Some x → is_open (status x) = true →
    expires_at x ≤ timestamp e;
  cr_indexed j : pairs st !! (p, a, b) = Some j → is_Some (proposals st !! j);
  cr_count : nonce st + 1 ≤ u64_max;
  cr_room : pending_count p (after_expiry (timestamp e) (p, a, b) st) < MAX_PENDING_PROPOSALS_PER_PROGRAM
}.

Inductive effect (e : Env) (st : Store) : Call → Store → Prop :=
| E_initialize a : admin st = None → effect e st (CInitialize a) (put_admin a st)
| E_coordinator c a b : admin st = Some c → authorized e c = true → effect e st (CCoordinator c a b) (put_coordinator a b st)
| E_register c a r :
    admin st = Some c → authorized e c = true → participants st !! a = None →
    effect e st (CRegister c a r) (put_participant a (mkParticipant r Participation.Active (timestamp e)) st)
| E_status c a s x :
    admin st = Some c → authorized e c = true → participants st !! a = Some x →
    effect e st (CStatus c a s) (put_participant a (mkParticipant (role x) s (timestamp e)) st)
| E_block a b on : a ≠ b → authorized e a = true → effect e st (CBlock a b on) (put_block a b on st)
| E_propose a p b s :
    authorized e a = true → creatable e p a b s st →
    effect e st (CPropose a p b s)
      (created (proposal_of (next_id (timestamp e) p a b st) p a b s a ByMentor (timestamp e))
        (after_expiry (timestamp e) (p, a, b) st))
| E_assist c p a b s h :
    coordinates e c st → h ≠ 0 → creatable e p a b s st → actions_of c st < MAX_COORDINATOR_ACTIONS →
    let i := next_id (timestamp e) p a b st in
    effect e st (CAssist c p a b s h)
      (logged c i ActProposed h 1 (timestamp e) (put_reason i h
        (created (proposal_of i p a b s c ByCoordinator (timestamp e)) (after_expiry (timestamp e) (p, a, b) st))))
| E_approve who i x :
    proposals st !! i = Some x → who = mentor x ∨ who = mentee x → authorized e who = true →
    (who = mentor x → mentor_approved x = false) → (who = mentee x → mentee_approved x = false) →
    status x = Proposed → timestamp e < expires_at x → eligible (mentor x) (mentee x) st →
    effect e st (CApprove who i (version x)) (consented (approved (bool_decide (who = mentor x)) (timestamp e) x) st)
| E_decline_again who i n x :
    proposals st !! i = Some x → status x = Declined → effect e st (CDecline who i n) st
| E_decline who i n x :
    proposals st !! i = Some x → who = mentor x ∨ who = mentee x → authorized e who = true → status x = Proposed →
    effect e st (CDecline who i n) (store_proposal (declined (timestamp e) x) (release_pending (program_id x) st))
| E_adjust c i s h x :
    coordinates e c st → h ≠ 0 → terms_ok (timestamp e) s → proposals st !! i = Some x → is_open (status x) = true →
    timestamp e < expires_at x → eligible (mentor x) (mentee x) st →
    (status x = Active → pending_count (program_id x) st < MAX_PENDING_PROPOSALS_PER_PROGRAM) →
    version x + 1 ≤ u32_max → actions_of c st < MAX_COORDINATOR_ACTIONS →
    effect e st (CAdjust c i s h)
      (logged c i ActAdjusted h (version x + 1) (timestamp e) (put_reason i h
        (store_proposal (adjusted c s (version x + 1) (timestamp e) x)
          (if decide (status x = Active) then take_pending (program_id x) st else st)))).

(** ** Inversion of the helpers *)

Lemma matching_coordinator_done c e w w' u :
  (require_coordinator c : M unit) e w = Done w' u → w' = w ∧ coordinates e c (store w).
Proof.
  intros Hrun. unfold require_coordinator in Hrun. run_inv. split; [done|]. split_and!; [done|by eexists|].
  match goal with H : _ && _ = false |- _ => apply andb_false_iff in H as [H|H] end; bool_prop; subst; auto.
Qed.

Lemma require_eligible_done a b e w w' u :
  (require_eligible a b : M unit) e w = Done w' u → w' = w ∧ eligible a b (store w).
Proof.
  intros Hrun. unfold require_eligible, load_participant in Hrun. run_inv. bool_prop. split; [done|].
  split_and!; [by eexists|by eexists|done].
Qed.

Lemma valid_terms_done s e w w' u :
  (valid_terms s : M unit) e w = Done w' u → w' = w ∧ (0 ≤ timestamp e → terms_ok (timestamp e) s).
Proof.
  intros Hrun. unfold valid_terms in Hrun. run_inv. bool_prop. checked_prop. bool_prop. split; [done|].
  intros Ht. unfold terms_ok, ZERO_HASH in *. split_and!; try done; lia.
Qed.

Lemma decrease_pending_done p e w w' u :
  (decrease_pending p : M unit) e w = Done w' u → w' = mkWorld (ledger w) (release_pending p (store w)) (log w).
Proof.
  intros Hrun. unfold decrease_pending in Hrun. run_inv. unfold release_pending. destruct (0 <? _); run_inv; [done|by destruct w].
Qed.

Lemma increase_pending_done p e w w' u :
  (increase_pending p : M unit) e w = Done w' u →
  w' = mkWorld (ledger w) (take_pending p (store w)) (log w) ∧
  pending_count p (store w) < MAX_PENDING_PROPOSALS_PER_PROGRAM.
Proof. intros Hrun. unfold increase_pending in Hrun. run_inv. bool_prop. checked_prop. done. Qed.

Lemma record_action_done c i k h v e w w' n :
  (record_coordinator_action c i k h v : M Z) e w = Done w' n →
  store w' = logged c i k h v (timestamp e) (store w) ∧ ledger w' = ledger w ∧ actions_of c (store w) < MAX_COORDINATOR_ACTIONS.
Proof. intros Hrun. unfold record_coordinator_action in Hrun. run_inv. bool_prop. checked_prop. done. Qed.

(** The finalization of the pair's earlier proposal. *)
Lemma expire_first_done p a b e w w' (u : unit) :
  match pairs (store w) !! (p, a, b) with
  | Some j =>
      bind (load_proposal j) (λ x,
      if is_open (status x) then
        bind now (λ t, bind (reject_if (t <? expires_at x) DuplicateActiveProposal) (λ _, (expire_proposal x : M unit)))
      else ret tt)
  | None => ret tt
  end e w = Done w' u →
  store w' = after_expiry (timestamp e) (p, a, b) (store w) ∧ ledger w' = ledger w ∧
  (∀ j x, pairs (store w) !! (p, a, b) = Some j → proposals (store w) !! j = Some x → is_open (status x) = true →
    expires_at x ≤ timestamp e) ∧
  (∀ j, pairs (store w) !! (p, a, b) = Some j → is_Some (proposals (store w) !! j)).
Proof.
  intros Hrun. unfold after_expiry. destruct (pairs (store w) !! (p, a, b)) as [j|] eqn:Hj; simpl; run_inv; [|done].
  unfold load_proposal in *. run_inv.
  match goal with H : proposals _ !! _ = Some _ |- _ => rewrite H end. rename x into y.
  destruct (is_open (status y)) eqn:Ho; run_inv; [|split_and!; [done|done|intros; simplify_eq; congruence|intros; simplify_eq; by eexists]].
  bool_prop. unfold expire_proposal, finalized in *. run_inv. case_decide as Hs.
  - rewrite bool_decide_eq_true_2 in * by done. match goal with H : decrease_pending _ _ _ = _ |- _ => apply decrease_pending_done in H as -> end.
    split_and!; [done|done|intros; by simplify_eq|intros; simplify_eq; by eexists].
  - rewrite bool_decide_eq_false_2 in * by done. run_inv.
    split_and!; [done|done|intros; by simplify_eq|intros; simplify_eq; by eexists].
Qed.

Lemma nonce_after t k st : nonce (after_expiry t k st) = nonce st.
Proof.
  unfold after_expiry, finalized, release_pending. destruct (_ ≫= _) as [x|]; [|done]. destruct (is_open _); [|done].
  case_decide; [|done]. by destruct (0 <? _).
Qed.

Lemma matching_create_done p a b s by_ o reason e w w' i :
  0 ≤ timestamp e → (create sha256 to_xdr p a b s by_ o reason : M BytesN32) e w = Done w' i →
  creatable e p a b s (store w) ∧ ledger w' = ledger w ∧ i = next_id (timestamp e) p a b (store w) ∧
  let st1 := created (proposal_of i p a b s by_ o (timestamp e)) (after_expiry (timestamp e) (p, a, b) (store w)) in
  match reason with
  | Some h => store w' = logged by_ i ActProposed h 1 (timestamp e) (put_reason i h st1) ∧
      actions_of by_ st1 < MAX_COORDINATOR_ACTIONS
  | None => store w' = st1
  end.
Proof.
  intros Ht Hrun. unfold create, derive_id in Hrun. run_inv. bool_prop. checked_prop.
  repeat match goal with
  | H : valid_terms _ _ _ = _ |- _ => apply valid_terms_done in H as [-> Hterms]
  | H : require_eligible _ _ _ _ = _ |- _ => apply require_eligible_done in H as [-> Hel]
  end.
  match goal with H : match pairs _ !! _ with _ => _ end _ _ = _ |- _ => apply expire_first_done in H as (Hst & Hl & Hfree & Hix) end.
  run_inv. match goal with H : increase_pending _ _ _ = _ |- _ => apply increase_pending_done in H as [-> Hroom] end.
  simpl in *. rewrite Hst in *. rewrite nonce_after in *.
  assert (creatable e p a b s (store w)) as Hcr by (by split; auto; lia || done).
  cbv zeta. unfold created. rewrite !nonce_after. destruct reason as [h|]; run_inv.
  - match goal with H : ignore _ _ _ = _ |- _ => apply ignore_done in H as [n H]; apply record_action_done in H as (Hs & Hl' & Hn) end.
    simpl in *. rewrite Hs, Hl'. split_and!; try done.
  - by split_and!.
Qed.

Lemma actions_after t k st c : actions_of c (after_expiry t k st) = actions_of c st.
Proof.
  unfold after_expiry, finalized, release_pending. destruct (_ ≫= _) as [x|]; [|done]. destruct (is_open _); [|done].
  case_decide; [|done]. by destruct (0 <? _).
Qed.

Lemma approve_done who i v e w w' u :
  (approve_proposal who i v : M unit) e w = Done w' u →
  ledger w' = ledger w ∧ effect e (store w) (CApprove who i v) (store w').
Proof.
  intros Hrun. unfold approve_proposal, load_proposal in Hrun. run_inv. bool_prop.
  match goal with H : require_eligible _ _ _ _ = _ |- _ => apply require_eligible_done in H as [-> Hel] end.
  match goal with H : version x = v |- _ => subst v end.
  assert (ledger w' = ledger w ∧ store w' = consented (approved (bool_decide (who = mentor x)) (timestamp e) x) (store w)) as [Hl Hs].
  { unfold consented. destruct (mentor_approved _ && mentee_approved _) eqn:Hboth; run_inv; [|done].
    match goal with H : decrease_pending _ _ _ = _ |- _ => apply decrease_pending_done in H as -> end. done. }
  split; [done|]. rewrite Hs. eapply E_approve; try done.
  - match goal with H : bool_decide _ = true ∨ _ |- _ => destruct H as [?|?]; bool_prop; auto end.
  - intros Hm. match goal with H : bool_decide (who = mentor x) = false ∨ _ |- _ => destruct H as [?|?]; bool_prop; done end.
  - intros Hm. match goal with H : bool_decide (who = mentee x) = false ∨ _ |- _ => destruct H as [?|?]; bool_prop; done end.
Qed.

Lemma decline_done who i n e w w' u :
  (decline_proposal who i n : M unit) e w = Done w' u →
  ledger w' = ledger w ∧ effect e (store w) (CDecline who i n) (store w').
Proof.
  intros Hrun. unfold decline_proposal, load_proposal in Hrun. run_inv. bool_prop.
  match goal with H : proposals _ !! _ = Some ?y |- _ => rename y into z end.
  destruct (decide (status z = Declined)) as [Hs|Hs];
    [rewrite bool_decide_eq_true_2 in Hrun by done|rewrite bool_decide_eq_false_2 in Hrun by done]; run_inv.
  - split; [done|]. by eapply E_decline_again.
  - match goal with H : decrease_pending _ _ _ = _ |- _ => apply decrease_pending_done in H as -> end. bool_prop.
    split; [done|]. eapply E_decline; try done.
    match goal with H : bool_decide _ = true ∨ _ |- _ => destruct H as [?|?]; bool_prop; auto end.
Qed.

Lemma adjust_done c i s h e w w' j :
  0 ≤ timestamp e → (adjust_proposal c i s h : M BytesN32) e w = Done w' j →
  ledger w' = ledger w ∧ effect e (store w) (CAdjust c i s h) (store w').
Proof.
  intros Ht Hrun. unfold adjust_proposal, load_proposal in Hrun. run_inv. bool_prop. checked_prop.
  repeat match goal with
  | H : require_coordinator _ _ _ = _ |- _ => apply matching_coordinator_done in H as [-> Hco]
  | H : valid_terms _ _ _ = _ |- _ => apply valid_terms_done in H as [-> Hterms]
  | H : require_eligible _ _ _ _ = _ |- _ => apply require_eligible_done in H as [-> Hel]
  | H : record_coordinator_action _ _ _ _ _ _ _ = _ |- _ => apply record_action_done in H as (Hs & Hl & Hn)
  end. simpl in *. rewrite Hs, Hl.
  match goal with H : proposals _ !! _ = Some ?y |- _ => rename y into z end. destruct (decide (status z = Active)) as [Ha|Ha].
  - rewrite bool_decide_eq_true_2 in * by done.
    match goal with H : increase_pending _ _ _ = _ |- _ => apply increase_pending_done in H as [-> Hroom] end.
    split; [done|]. simpl. pose proof (E_adjust e (store w) c i s h z) as Hadj. rewrite decide_True in Hadj by done.
    apply Hadj; auto; lia.
  - rewrite bool_decide_eq_false_2 in * by done. run_inv. split; [done|].
    pose proof (E_adjust e (store w) c i s h z) as Hadj. rewrite decide_False in Hadj by done. apply Hadj; auto; first [done|lia].
Qed.

Lemma matching_effect c e w w' u :
  valid e c → exec c e w = Done w' u → ledger w' = ledger w ∧ effect e (store w) c (store w').
Proof.
  intros [[Ht _] _] Hrun.
  destruct c as [a|c a b|c a r|c a s|a b on|a p b s|c p a b s h|a i v|a i n|c i s h]; simpl in Hrun;
    try (apply ignore_done in Hrun as [? Hrun]).
  - unfold initialize in Hrun. run_inv. bool_prop. split; [done|]. apply E_initialize. by apply eq_None_not_Some.
  - unfold set_coordinator, require_admin in Hrun. run_inv. split; [done|]. by apply E_coordinator.
  - unfold register_participant, require_admin in Hrun. run_inv. bool_prop. split; [done|]. apply E_register; try done.
    by apply eq_None_not_Some.
  - unfold set_participant_status, require_admin, load_participant in Hrun. run_inv. split; [done|]. by apply E_status.
  - unfold set_block in Hrun. run_inv. bool_prop. split; [done|]. by apply E_block.
  - unfold create_proposal in Hrun. run_inv. apply matching_create_done in Hrun as (Hcr & Hl & -> & Hs); [|done].
    split; [done|]. rewrite Hs. by apply E_propose.
  - unfold propose_as_coordinator in Hrun. run_inv. bool_prop.
    match goal with H : require_coordinator _ _ _ = _ |- _ => apply matching_coordinator_done in H as [-> Hco] end.
    apply matching_create_done in Hrun as (Hcr & Hl & -> & Hs & Hn); [|done]. split; [done|]. rewrite Hs.
    apply E_assist; try done. by rewrite <-(actions_after (timestamp e) (p, a, b)).
  - by eapply approve_done.
  - by eapply decline_done.
  - by eapply adjust_done.
Qed.
End Effects.

Definition key (x : Proposal) : Z * Address * Address := (program_id x, mentor x, mentee x).

Definition weight (p : Z) (x : Proposal) : Z := if decide (program_id x = p ∧ status x = Proposed) then 1 else 0.
Definition n_proposed (p : Z) (ps : gmap Z Proposal) : Z := map_sum (λ _, weight p) ps.

Lemma weight_nonneg p x : 0 ≤ weight p x ≤ 1.
Proof. unfold weight. by case_decide. Qed.

Lemma weight_le p x y :
  program_id y = program_id x → (status y = Proposed → status x = Proposed) → weight p y ≤ weight p x.
Proof.
  unfold weight. intros -> Hs. destruct (decide (program_id x = p ∧ status y = Proposed)) as [[? ?]|],
    (decide (program_id x = p ∧ status x = Proposed)) as [|Hn]; try lia. exfalso. auto.
Qed.

Lemma n_proposed_pos p ps i x :
  ps !! i = Some x → program_id x = p → status x = Proposed → 0 < n_proposed p ps.
Proof.
  intros Hx Hp Hs. pose proof (at_key_le_map_sum (λ _, weight p) ps i ltac:(intros; apply weight_nonneg)) as H.
  unfold at_key in H. rewrite Hx in H. unfold weight in H at 1. rewrite decide_True in H by done. unfold n_proposed. lia.
Qed.

(** What holds of a stored proposal by itself. *)
Definition proposal_ok (i : Z) (x : Proposal) : Prop :=
  pr_id x = i ∧ program_id x ≠ 0 ∧ mentor x ≠ mentee x ∧ 1 ≤ version x ≤ u32_max ∧
  (status x = Active → mentor_approved x = true ∧ mentee_approved x = true) ∧
  (status x = Proposed → mentor_approved x && mentee_approved x = false).

(** The action logs: numbered from 1 to the count of the coordinator. *)
Definition log_ok (st : Store) : Prop :=
  ∀ c, 0 ≤ actions_of c st ≤ 1024 ∧
    ∀ n, match actions st !! (c, n) with Some a => coordinator a = c ∧ 1 ≤ n ≤ actions_of c st | None => ¬ (1 ≤ n ≤ actions_of c st) end.

(** A logged action on [i]. *)
Definition acted (st : Store) (i : Z) (c : Address) (k : CoordinatorActionKind) (v h : Z) : Prop :=
  ∃ n a, actions st !! (c, n) = Some a ∧ proposal_id a = i ∧ kind a = k ∧ ac_version a = v ∧ reason_hash a = h.

(** Every version of a proposal that a coordinator made is in a log, the last one's reason is stored. *)
Definition overrides_ok (st : Store) (i : Z) (x : Proposal) : Prop :=
  (origin x = ByCoordinator → ∃ h, h ≠ 0 ∧ acted st i (created_by x) ActProposed 1 h) ∧
  (∀ v, 2 ≤ v ≤ version x → ∃ c h, h ≠ 0 ∧ acted st i c ActAdjusted v h) ∧
  (2 ≤ version x → ∃ c h, last_adjusted_by x = Some c ∧ acted st i c ActAdjusted (version x) h ∧ reasons st !! i = Some h).

Section Inv.
Context (sha256 : Bytes → BytesN32) (to_xdr : Address → Bytes).

Definition derived (n_max i : Z) : Prop := ∃ n rest, i = sha256 (be_bytes 8 n ++ rest) ∧ 0 < n ≤ n_max.

Record inv (st : Store) : Prop := {
  inv_nonce : 0 ≤ nonce st ≤ u64_max;
  inv_ids i : is_Some (proposals st !! i) → derived (nonce st) i;
  inv_each i x : proposals st !! i = Some x → proposal_ok i x;
  inv_open i x : proposals st !! i = Some x → is_open (status x) = true → pairs st !! key x = Some i;
  inv_pairs k i : pairs st !! k = Some i → ∃ x, proposals st !! i = Some x ∧ key x = k;
  inv_pending p : pending_count p st = n_proposed p (proposals st) ∧ pending_count p st ≤ 128;
  inv_log : log_ok st;
  inv_overrides i x : proposals st !! i = Some x → overrides_ok st i x
}.

Lemma acted_mono st st' i c k v h :
  (∀ j a, actions st !! j = Some a → actions st' !! j = Some a) → acted st i c k v h → acted st' i c k v h.
Proof. intros Hk (n & a & Ha & ?). exists n, a. split; [by apply Hk|done]. Qed.

Lemma overrides_mono st st' i x :
  (∀ j a, actions st !! j = Some a → actions st' !! j = Some a) → reasons st' !! i = reasons st !! i →
  overrides_ok st i x → overrides_ok st' i x.
Proof.
  intros Hk Hr (H1 & H2 & H3). split_and!.
  - intros Ho. destruct (H1 Ho) as (h & Hh & Ha). exists h. split; [done|by eapply acted_mono].
  - intros v Hv. destruct (H2 v Hv) as (c & h & Hh & Ha). exists c, h. split; [done|by eapply acted_mono].
  - intros Hv. destruct (H3 Hv) as (c & h & Hc & Ha & Hre). exists c, h. split_and!; [done|by eapply acted_mono|by rewrite Hr].
Qed.

(** One proposal is written, new or not, and possibly one action logged. *)
Lemma put_inv st st' i y :
  inv st → nonce st ≤ nonce st' ≤ u64_max → derived (nonce st') i → proposals st' = <[i := y]> (proposals st) →
  proposal_ok i y → (∀ x, proposals st !! i = Some x → key x = key y) →
  (∀ k j, pairs st' !! k = Some j → pairs st !! k = Some j ∨ k = key y ∧ j = i) →
  (∀ j x, j ≠ i → proposals st !! j = Some x → is_open (status x) = true → pairs st' !! key x = pairs st !! key x) →
  (is_open (status y) = true → pairs st' !! key y = Some i) →
  (∀ p, pending_count p st' = pending_count p st - at_key (λ _, weight p) (proposals st) i + weight p y ∧
     pending_count p st' ≤ 128) →
  log_ok st' → (∀ j a, actions st !! j = Some a → actions st' !! j = Some a) →
  (∀ j, j ≠ i → reasons st' !! j = reasons st !! j) → overrides_ok st' i y →
  inv st'.
Proof.
  intros Hi Hn Hd Hp Hy Hkey Hpairs Hothers Hopen Hpend Hlog Hacts Hreas Hov. destruct Hi as [H1 H2 H3 H4 H5 H6 H7 H8].
  split; rewrite ?Hp; try done.
  - lia.
  - intros j. rewrite lookup_insert. case_decide as Hj; [by subst|]. intros Hs. destruct (H2 j Hs) as (n & r & ? & ?).
    exists n, r. split; [done|lia].
  - intros j x. rewrite lookup_insert. case_decide as Hj; [intros [= <-]; by subst|apply H3].
  - intros j x. rewrite lookup_insert. case_decide as Hj; [intros [= <-]; by subst|]. intros Hx Ho.
    rewrite (Hothers j x) by done. by apply H4.
  - intros k j Hk. rewrite lookup_insert. case_decide as Hj.
    + subst j. exists y. split; [done|]. destruct (Hpairs _ _ Hk) as [Hk'|[-> _]]; [|done].
      destruct (H5 _ _ Hk') as (x & Hx & <-). symmetry. by apply Hkey.
    + destruct (Hpairs _ _ Hk) as [Hk'|[_ ->]]; [by apply H5|done].
  - intros p. destruct (Hpend p) as [Hc Hle]. split; [|done]. unfold n_proposed. rewrite map_sum_insert.
    destruct (H6 p) as [Hc0 _]. rewrite Hc, Hc0. unfold n_proposed. lia.
  - intros j x. rewrite lookup_insert. case_decide as Hj; [intros [= <-]; by subst|]. intros Hx.
    apply (overrides_mono st); [done|by apply Hreas|by apply H8].
Qed.

Lemma pending_set p q n st : pending_count p (set_pending_count q n st) = if decide (q = p) then n else pending_count p st.
Proof. unfold pending_count. simpl. rewrite lookup_insert. by case_decide. Qed.

Lemma pending_release p q st :
  0 < pending_count q st →
  pending_count p (release_pending q st) = if decide (q = p) then pending_count p st - 1 else pending_count p st.
Proof.
  intros Hpos. unfold release_pending. rewrite (proj2 (Z.ltb_lt _ _)) by done. rewrite pending_set.
  case_decide; [by subst|done].
Qed.

Lemma proposed_pending st i x :
  inv st → proposals st !! i = Some x → status x = Proposed → 0 < pending_count (program_id x) st.
Proof. intros Hi Hx Hs. destruct (inv_pending _ Hi (program_id x)) as [-> _]. by eapply n_proposed_pos. Qed.

(** The parts of a store a change of the pending counts leaves alone. *)
Definition rest (st : Store) :=
  (admin st, coordinators st, participants st, blocks st, proposal_count st, proposals st, pairs st, reasons st,
   action_count st, actions st).

Lemma release_rest p st : rest (release_pending p st) = rest st.
Proof. unfold release_pending. by destruct (0 <? _). Qed.
Lemma take_rest p st : rest (take_pending p st) = rest st.
Proof. done. Qed.

(** A stored proposal changes state without a new wait. *)
Lemma step_inv st st1 i x y :
  inv st → proposals st !! i = Some x → rest st1 = rest st → proposal_ok i y → key y = key x →
  (is_open (status y) = true → is_open (status x) = true) → (status y = Proposed → status x = Proposed) →
  (∀ p, pending_count p st1 = pending_count p st - weight p x + weight p y) → overrides_ok st i y →
  inv (store_proposal y st1).
Proof.
  intros Hi Hx Hrest Hy Hk Ho Hw Hp Hov. injection Hrest as Hr1 Hr2 Hr3 Hr4 Hr5 Hr6 Hr7 Hr8 Hr9 Hr10.
  pose proof Hy as (Hid & _). pose proof (inv_nonce _ Hi) as Hn.
  assert (nonce (store_proposal y st1) = nonce st) as Hnn by (unfold nonce; simpl; by rewrite Hr5).
  apply (put_inv st _ i y); rewrite ?Hnn; simpl; rewrite ?Hid, ?Hr6, ?Hr7, ?Hr8, ?Hr10; try done.
  - lia.
  - apply (inv_ids _ Hi). by eexists.
  - intros z Hz. rewrite Hx in Hz. injection Hz as <-. by symmetry.
  - intros k j Hj. by left.
  - intros Hoy. rewrite Hk. eapply inv_open; [done..|]. auto.
  - intros p. change (pending_count p (store_proposal y st1)) with (pending_count p st1). rewrite Hp. unfold at_key. rewrite Hx.
    split; [done|]. destruct (inv_pending _ Hi p) as [_ Hle]. injection Hk as Hk1 _ _.
    enough (weight p y ≤ weight p x) by lia. apply weight_le; [by rewrite Hk1|done].
  - intros c. unfold actions_of. simpl. rewrite Hr9, Hr10. apply (inv_log _ Hi).
  - apply (overrides_mono st); simpl; [intros; by rewrite Hr10|by rewrite Hr8|done].
Qed.

Lemma weight_proposed p x : status x = Proposed → weight p x = if decide (program_id x = p) then 1 else 0.
Proof. unfold weight. intros Hs. repeat case_decide; tauto. Qed.
Lemma weight_other p x : status x ≠ Proposed → weight p x = 0.
Proof. unfold weight. intros Hs. case_decide; tauto. Qed.

(** A wait that ends. *)
Lemma wait_ended_inv st i x y :
  inv st → proposals st !! i = Some x → status x = Proposed → proposal_ok i y → key y = key x → status y ≠ Proposed →
  overrides_ok st i y → inv (store_proposal y (release_pending (program_id x) st)).
Proof.
  intros Hi Hx Hs Hy Hk Hsy Hov. eapply step_inv; try done; [apply release_rest|by rewrite Hs|].
  intros p. rewrite pending_release by by eapply proposed_pending. rewrite (weight_other p y), weight_proposed by done.
  case_decide; lia.
Qed.

Lemma consented_inv st i x m t :
  inv st → proposals st !! i = Some x → status x = Proposed → inv (consented (approved m t x) st).
Proof.
  intros Hi Hx Hs. destruct (inv_each _ Hi _ _ Hx) as (Hid & Hpr & Hne & Hv & _ & _).
  pose proof (inv_overrides _ Hi _ _ Hx) as Hov. unfold consented. destruct (mentor_approved _ && mentee_approved _) eqn:Hb.
  - apply (wait_ended_inv st i x); try done; [|simpl in *; by rewrite Hb]. pose proof Hb as [Ha Hc]%andb_true_iff.
    split_and!; try done; try apply Hv; simpl in *; by rewrite Hb.
  - apply (step_inv st st i x); try done; simpl in *.
    + split_and!; try done; try apply Hv; simpl; by rewrite Hb, ?Hs.
    + by rewrite Hs.
    + intros p. unfold weight. simpl. rewrite Hb. lia.
Qed.

Lemma declined_inv st i x t :
  inv st → proposals st !! i = Some x → status x = Proposed →
  inv (store_proposal (declined t x) (release_pending (program_id x) st)).
Proof.
  intros Hi Hx Hs. destruct (inv_each _ Hi _ _ Hx) as (Hid & Hpr & Hne & Hv & _ & _).
  pose proof (inv_overrides _ Hi _ _ Hx) as Hov. by apply (wait_ended_inv st i x).
Qed.

Lemma proposal_finalized_inv st i x t : inv st → proposals st !! i = Some x → inv (finalized t x st).
Proof.
  intros Hi Hx. destruct (inv_each _ Hi _ _ Hx) as (Hid & Hpr & Hne & Hv & _ & _).
  pose proof (inv_overrides _ Hi _ _ Hx) as Hov. unfold finalized. case_decide as Hs; [by apply (wait_ended_inv st i x)|].
  apply (step_inv st st i x); try done. intros p. rewrite !weight_other by done. lia.
Qed.

Lemma after_expiry_inv t k st : inv st → inv (after_expiry t k st).
Proof.
  intros Hi. unfold after_expiry. destruct (pairs st !! k) as [j|]; simpl; [|done].
  destruct (proposals st !! j) as [x|] eqn:Hx; [|done]. destruct (is_open _); [by eapply proposal_finalized_inv|done].
Qed.

(** What the finalization leaves alone, and the one proposal it may change. *)
Lemma after_expiry_frame t k st :
  inv st →
  pairs (after_expiry t k st) = pairs st ∧ actions (after_expiry t k st) = actions st ∧
  reasons (after_expiry t k st) = reasons st ∧
  (∀ i x, proposals (after_expiry t k st) !! i = Some x → proposals st !! i = Some x ∨
    ∃ y, proposals st !! i = Some y ∧ pairs st !! k = Some i ∧ is_open (status y) = true ∧ x = expired t y) ∧
  (∀ i, proposals (after_expiry t k st) !! i = None ↔ proposals st !! i = None).
Proof.
  intros Hi. unfold after_expiry. destruct (pairs st !! k) as [j|] eqn:Hj; simpl; [|split_and!; [done..|auto|done]].
  destruct (proposals st !! j) as [y|] eqn:Hy; [|split_and!; [done..|auto|done]].
  destruct (is_open (status y)) eqn:Ho; [|split_and!; [done..|auto|done]]. destruct (inv_each _ Hi _ _ Hy) as (Hid & _).
  assert (rest (if decide (status y = Proposed) then release_pending (program_id y) st else st) = rest st) as Hrest
    by (case_decide; [apply release_rest|done]).
  injection Hrest as _ _ _ _ _ Hp Hpa Hr _ Ha. unfold finalized. simpl. rewrite Hp, Hpa, Hr, Ha, Hid. split_and!; [done..| |].
  - intros i x Hix. rewrite lookup_insert in Hix. destruct (decide (j = i)) as [<-|]; [|by left].
    injection Hix as <-. right. by exists y.
  - intros i. rewrite lookup_insert. destruct (decide (j = i)) as [<-|]; [by rewrite Hy|done].
Qed.

(** The pair is free afterwards. *)
Lemma after_expiry_free t k st i x :
  inv st → proposals (after_expiry t k st) !! i = Some x → key x = k → is_open (status x) = false.
Proof.
  intros Hi Hx Hk. destruct (is_open (status x)) eqn:Ho; [|done]. exfalso.
  destruct (after_expiry_frame t k st Hi) as (Hpa & _ & _ & Hps & _).
  pose proof (inv_open _ (after_expiry_inv t k st Hi) _ _ Hx Ho) as Hpair. rewrite Hpa, Hk in Hpair.
  unfold after_expiry in Hx. rewrite Hpair in Hx. simpl in Hx. destruct (proposals st !! i) as [y|] eqn:Hy.
  - destruct (is_open (status y)) eqn:Hoy; [|by simplify_eq; congruence]. destruct (inv_each _ Hi _ _ Hy) as (Hid & _).
    unfold finalized in Hx. simpl in Hx. rewrite Hid, lookup_insert_eq in Hx. by simplify_eq.
  - by simplify_eq; congruence.
Qed.

Lemma new_inv st st' i y :
  inv st → (∀ j x, proposals st !! j = Some x → key x = key y → is_open (status x) = false) → proposals st !! i = None →
  derived (nonce st + 1) i → nonce st + 1 ≤ u64_max → pending_count (program_id y) st < 128 → proposal_ok i y →
  status y = Proposed → nonce st' = nonce st + 1 → proposals st' = <[i := y]> (proposals st) →
  pairs st' = <[key y := i]> (pairs st) → (∀ p, pending_count p st' = pending_count p st + weight p y) →
  log_ok st' → (∀ j a, actions st !! j = Some a → actions st' !! j = Some a) →
  (∀ j, j ≠ i → reasons st' !! j = reasons st !! j) → overrides_ok st' i y → inv st'.
Proof.
  intros Hi Hfree Hnew Hd Hn Hroom Hy Hs Hn' Hp Hpa Hpe Hlog Hacts Hreas Hov.
  apply (put_inv st st' i y); rewrite ?Hpa; try done.
  - pose proof (inv_nonce _ Hi). lia.
  - by rewrite Hn'.
  - intros x Hx. congruence.
  - intros k j. rewrite lookup_insert. case_decide; [|by left]. intros [= <-]. by right.
  - intros j x Hj Hx Ho. rewrite lookup_insert_ne; [done|]. intros Hk. rewrite (Hfree j x) in Ho by done. done.
  - intros _. apply lookup_insert_eq.
  - intros p. rewrite Hpe. unfold at_key. rewrite Hnew. split; [lia|]. rewrite weight_proposed by done.
    destruct (inv_pending _ Hi p). case_decide; [subst p|]; lia.
Qed.

Lemma logged_ok c i k h v t st :
  log_ok st → actions_of c st < 1024 →
  log_ok (logged c i k h v t st) ∧ (∀ j a, actions st !! j = Some a → actions (logged c i k h v t st) !! j = Some a) ∧
  acted (logged c i k h v t st) i c k v h.
Proof.
  intros Hlog Hlt. set (n := actions_of c st + 1).
  assert (actions st !! (c, n) = None) as Hfresh.
  { destruct (Hlog c) as [_ Hc]. specialize (Hc n). destruct (actions st !! (c, n)); [lia|done]. }
  split_and!.
  - intros d. unfold actions_of at 1 2 3 4. simpl. rewrite lookup_insert. destruct (decide (c = d)) as [<-|Hd]; simpl.
    + destruct (Hlog c) as [Hb Hc]. split; [lia|]. intros m. rewrite lookup_insert. case_decide as Hm.
      * injection Hm as <-. fold n. split; [done|lia].
      * assert (m ≠ actions_of c st + 1) by (by intros ->). specialize (Hc m). destruct (actions st !! (c, m)); [|lia]. split; [apply Hc|lia].
    + destruct (Hlog d) as [Hb Hc]. split; [done|]. intros m. rewrite lookup_insert_ne by congruence. apply Hc.
  - intros j a Ha. simpl. rewrite lookup_insert_ne; [done|]. intros <-. fold n in Ha. congruence.
  - exists n, (mkAction c i k h v t). split; [apply lookup_insert_eq|done].
Qed.

Lemma pending_take p q st :
  pending_count p (take_pending q st) = pending_count p st + if decide (q = p) then 1 else 0.
Proof. unfold take_pending. rewrite pending_set. case_decide; [by subst|lia]. Qed.

Lemma adjusted_inv st i x c s h t :
  inv st → proposals st !! i = Some x → is_open (status x) = true →
  (status x = Active → pending_count (program_id x) st < MAX_PENDING_PROPOSALS_PER_PROGRAM) → version x + 1 ≤ u32_max →
  h ≠ 0 → actions_of c st < MAX_COORDINATOR_ACTIONS →
  inv (logged c i ActAdjusted h (version x + 1) t (put_reason i h (store_proposal (adjusted c s (version x + 1) t x)
    (if decide (status x = Active) then take_pending (program_id x) st else st)))).
Proof.
  intros Hi Hx Ho Hroom Hmax Hh Hlt. destruct (inv_each _ Hi _ _ Hx) as (Hid & Hpr & Hne & Hv & _ & _).
  set (st1 := if decide (status x = Active) then take_pending (program_id x) st else st).
  assert (rest st1 = rest st) as Hrest by (unfold st1; by case_decide).
  assert (∀ p, pending_count p st1 = pending_count p st - weight p x + weight p (adjusted c s (version x + 1) t x) ∧
    pending_count p st1 ≤ 128) as Hpe.
  { intros p. destruct (inv_pending _ Hi p) as [Hc Hle]. rewrite (weight_proposed p (adjusted _ _ _ _ _)) by done. unfold st1. simpl.
    case_decide as Ha.
    - rewrite pending_take, weight_other by (by rewrite Ha). unfold MAX_PENDING_PROPOSALS_PER_PROGRAM in *.
      case_decide as Hp; [|lia]. subst p. specialize (Hroom Ha). lia.
    - assert (status x = Proposed) as Hs by (by destruct (status x)). rewrite weight_proposed by done. case_decide; lia. }
  pose proof (inv_overrides _ Hi _ _ Hx) as (Hov1 & Hov2 & Hov3). clearbody st1.
  injection Hrest as _ _ _ _ Hr5 Hr6 Hr7 Hr8 Hr9 Hr10.
  set (st2 := put_reason i h (store_proposal (adjusted c s (version x + 1) t x) st1)).
  assert (log_ok st2) as Hlog2.
  { intros d. unfold actions_of. simpl. rewrite Hr9, Hr10. apply (inv_log _ Hi). }
  destruct (logged_ok c i ActAdjusted h (version x + 1) t st2 Hlog2) as (Hlog & Hacts & Hacted).
  { unfold actions_of in *. simpl. rewrite Hr9. exact Hlt. }
  assert (∀ j a, actions st !! j = Some a → actions (logged c i ActAdjusted h (version x + 1) t st2) !! j = Some a) as Hmono.
  { intros j a Hj. apply Hacts. simpl. by rewrite Hr10. }
  pose proof (inv_nonce _ Hi).
  apply (put_inv st _ i (adjusted c s (version x + 1) t x)); simpl; rewrite ?Hid, ?Hr6, ?Hr7, ?Hr8; try done.
  - unfold nonce in *. simpl. rewrite Hr5. lia.
  - unfold nonce. simpl. rewrite Hr5. apply (inv_ids _ Hi). by eexists.
  - split_and!; try done; simpl; lia.
  - intros z Hz. rewrite Hx in Hz. by injection Hz as <-.
  - intros k j Hj. by left.
  - intros _. by apply (inv_open _ Hi _ _ Hx).
  - intros p. change (pending_count p (logged _ _ _ _ _ _ st2)) with (pending_count p st1). unfold at_key. rewrite Hx. apply Hpe.
  - intros j Hj. by rewrite lookup_insert_ne.
  - split_and!; simpl.
    + intros Hor. destruct (Hov1 Hor) as (h0 & Hh0 & Ha). exists h0. split; [done|by eapply acted_mono].
    + intros v Hvb. destruct (decide (v = version x + 1)) as [->|]; [by exists c, h|].
      destruct (Hov2 v) as (d & h0 & Hh0 & Ha); [lia|]. exists d, h0. split; [done|by eapply acted_mono].
    + intros _. exists c, h. split_and!; [done|done|apply lookup_insert_eq].
Qed.

Context (sha_inj : collision_free sha256).

Lemma next_id_fresh st t p a b :
  inv st → nonce st + 1 ≤ u64_max → proposals st !! next_id sha256 to_xdr t p a b st = None.
Proof.
  intros Hi Hn. destruct (proposals st !! _) as [x|] eqn:Hx; [|done]. exfalso.
  destruct (inv_ids _ Hi _ (mk_is_Some _ _ Hx)) as (n & r & Heq & Hb). pose proof (inv_nonce _ Hi).
  unfold next_id, derived_id in Heq. apply counter_id_inj in Heq; [lia|done|lia|lia].
Qed.

Lemma created_log y t k st : inv st → log_ok (created y (after_expiry t k st)).
Proof.
  intros Hi d. destruct (after_expiry_frame t k st Hi) as (_ & Hf2 & _).
  change (actions_of d (created y (after_expiry t k st))) with (actions_of d (after_expiry t k st)).
  change (actions (created y (after_expiry t k st))) with (actions (after_expiry t k st)).
  rewrite actions_after, Hf2. apply (inv_log _ Hi).
Qed.

(** The creation of a proposal by anyone, with the actions [st'] may add. *)
Lemma creation_inv e p a b s by_ o st st' :
  inv st → creatable e p a b s st →
  let i := next_id sha256 to_xdr (timestamp e) p a b st in
  let y := proposal_of i p a b s by_ o (timestamp e) in
  let st2 := created y (after_expiry (timestamp e) (p, a, b) st) in
  nonce st' = nonce st2 → proposals st' = proposals st2 → pairs st' = pairs st2 → pending st' = pending st2 →
  log_ok st' → (∀ j a, actions st !! j = Some a → actions st' !! j = Some a) →
  (∀ j, j ≠ i → reasons st' !! j = reasons st !! j) →
  (o = ByCoordinator → ∃ h, h ≠ 0 ∧ acted st' i by_ ActProposed 1 h) → inv st'.
Proof.
  intros Hi [Hp Hab Hterms Hel Hfree Hix Hn Hroom] i y st2 Hno Hps Hpa Hpe Hlog Hacts Hreas Hov.
  destruct (after_expiry_frame (timestamp e) (p, a, b) st Hi) as (Hf1 & Hf2 & Hf3 & _ & Hf5).
  apply (new_inv (after_expiry (timestamp e) (p, a, b) st) st' i y); rewrite ?nonce_after; try done.
  - by apply after_expiry_inv.
  - intros j x Hx Hk. by eapply after_expiry_free.
  - apply Hf5. by apply next_id_fresh.
  - unfold i, next_id, derived_id. exists (nonce st + 1), (be_bytes 8 (timestamp e) ++ proposal_salt to_xdr p a b).
    split; [done|]. pose proof (inv_nonce _ Hi). lia.
  - rewrite Hno. change (nonce (after_expiry (timestamp e) (p, a, b) st) + 1 = nonce st + 1). by rewrite nonce_after.
  - intros q. assert (pending_count q st' = pending_count q st2) as -> by (unfold pending_count; by rewrite Hpe).
    rewrite (weight_proposed q y) by done.
    change (pending_count q st2) with (pending_count q (take_pending p (after_expiry (timestamp e) (p, a, b) st))).
    by rewrite pending_take.
  - by rewrite Hf2.
  - by rewrite Hf3.
  - split_and!; [done|simpl; lia|simpl; lia].
Qed.

Lemma matching_effect_inv e st c st' : inv st → effect sha256 to_xdr e st c st' → inv st'.
Proof.
  intros Hi Heff. destruct Heff as [a Ha|c a b _ _|c a r _ _ _|c a s x _ _ _|a b on _ _|a p b s _ Hcr|c p a b s h _ Hh Hcr Hlt i
    |who i x Hx _ _ _ _ Hs _ _|who i n x Hx Hs|who i n x Hx _ _ Hs|c i s h x _ Hh _ Hx Ho _ _ Hroom Hmax Hlt].
  - by destruct Hi.
  - by destruct Hi.
  - by destruct Hi.
  - by destruct Hi.
  - by destruct Hi.
  - eapply (creation_inv e p a b s a ByMentor st); try done;
      destruct (after_expiry_frame (timestamp e) (p, a, b) st Hi) as (_ & Hf2 & Hf3 & _).
    + by apply created_log.
    + intros j x Hj. simpl. by rewrite Hf2.
    + intros j Hj. simpl. by rewrite Hf3.
  - destruct (after_expiry_frame (timestamp e) (p, a, b) st Hi) as (_ & Hf2 & Hf3 & _).
    set (st2 := put_reason i h (created (proposal_of i p a b s c ByCoordinator (timestamp e)) (after_expiry (timestamp e) (p, a, b) st))).
    assert (log_ok st2) as Hlog2 by by apply created_log.
    destruct (logged_ok c i ActProposed h 1 (timestamp e) st2 Hlog2) as (Hlog & Hacts & Hacted).
    { change (actions_of c (after_expiry (timestamp e) (p, a, b) st) < 1024). by rewrite actions_after. }
    eapply (creation_inv e p a b s c ByCoordinator st); try done.
    + intros j x Hj. apply Hacts. simpl. by rewrite Hf2.
    + intros j Hj. simpl. rewrite lookup_insert_ne by done. by rewrite Hf3.
    + intros _. by exists h.
  - by eapply consented_inv.
  - done.
  - by eapply declined_inv.
  - by apply adjusted_inv.
Qed.
End Inv.

(** ** Reachable stores *)
Section Reach.
Context {L : Type} (sha256 : Bytes → BytesN32) (to_xdr : Address → Bytes) (sha_inj : collision_free sha256).
Abbreviation W := (World L Store Event).
Implicit Types (w : W).

Definition empty_store : Store := mkStore None ∅ ∅ ∅ None ∅ ∅ ∅ ∅ ∅ ∅.
Definition deployed (w : W) : Prop := store w = empty_store.

Lemma matching_empty_inv : inv sha256 empty_store.
Proof. split; try done; [by intros i [? ?]|]. intros c. split; [done|]. intros n. unfold actions_of, empty_store. simpl. rewrite !lookup_empty. simpl. lia. Qed.

Lemma matching_reachable this w :
  reachable (exec sha256 to_xdr) valid this (λ _ _, True) deployed w → inv sha256 (store w).
Proof.
  apply (reachable_inv _ _ _ _ _ (λ w, inv sha256 (store w))).
  - intros w0 ->. apply matching_empty_inv.
  - intros c e w0 w1 u _ Hv Hi Hrun. destruct (matching_effect sha256 to_xdr c e w0 w1 u Hv Hrun) as [_ Heff].
    by eapply matching_effect_inv.
  - done.
Qed.
End Reach.
