(* ===== verification/MatchingTheorems.v ===== *)
(** * Match proposals: the properties

    At most one open proposal per pair and program; a match only by the approvals of both
    participants of the very version agreed, while eligible and before its expiry; exact
    pending counts; a complete log of the coordinators' actions. *)
From S2P Require Import Prelude Machine Host Matching MatchingProps.

(** What an approval is about. *)
Definition offer (x : Proposal) : Z * Address * Address * Z * Z * Z * Z :=
  (key x, terms_hash x, proposed_fee x, expires_at x, version x).

Definition party (who : Address) (x : Proposal) : Prop := who = mentor x ∨ who = mentee x.
(** The party has approved. *)
Definition agreed (who : Address) (x : Proposal) : Prop :=
  who = mentor x ∧ mentor_approved x = true ∨ who = mentee x ∧ mentee_approved x = true.

Section Moves.
Context {L : Type} (sha256 : Bytes → BytesN32) (to_xdr : Address → Bytes) (sha_inj : collision_free sha256).
Abbreviation W := (World L Store Event).
Implicit Types (w : W).
Abbreviation effect := (effect sha256 to_xdr).
Abbreviation inv := (inv sha256).

(** What one call may do to a stored proposal. *)
Inductive moves (e : Env) (st : Store) (i : Z) (x : Proposal) : Call → Proposal → Prop :=
| PM_same c : moves e st i x c x
| PM_approved who :
    party who x → ¬ agreed who x → authorized e who = true → status x = Proposed → timestamp e < expires_at x →
    eligible (mentor x) (mentee x) st →
    moves e st i x (CApprove who i (version x)) (approved (bool_decide (who = mentor x)) (timestamp e) x)
| PM_declined who n :
    party who x → authorized e who = true → status x = Proposed →
    moves e st i x (CDecline who i n) (declined (timestamp e) x)
| PM_expired c : is_open (status x) = true → expires_at x ≤ timestamp e → moves e st i x c (expired (timestamp e) x)
| PM_adjusted c s h :
    coordinates e c st → h ≠ 0 → terms_ok (timestamp e) s → is_open (status x) = true → timestamp e < expires_at x →
    eligible (mentor x) (mentee x) st →
    moves e st i x (CAdjust c i s h) (adjusted c s (version x + 1) (timestamp e) x).

Lemma creation_moves e st i y c j x0 k :
  inv st → pr_id x0 = j → key x0 = k → proposals st !! j = None →
  (∀ j x, pairs st !! k = Some j → proposals st !! j = Some x → is_open (status x) = true → expires_at x ≤ timestamp e) →
  mentor_approved x0 = false → mentee_approved x0 = false →
  proposals (created x0 (after_expiry (timestamp e) k st)) !! i = Some y →
  (∃ x, proposals st !! i = Some x ∧ moves e st i x c y) ∨
  proposals st !! i = None ∧ mentor_approved y = false ∧ mentee_approved y = false.
Proof.
  intros Hi Hj Hk Hnew Hfree Ha Hb. destruct (after_expiry_frame sha256 (timestamp e) k st Hi) as (_ & _ & _ & Hps & _).
  simpl. rewrite Hj, lookup_insert. destruct (decide (j = i)) as [<-|]; [intros [= <-]; by right|]. intros Hy.
  destruct (Hps _ _ Hy) as [Hx|(x & Hx & Hpair & Ho & ->)]; left; [exists y; split; [done|apply PM_same]|].
  exists x. split; [done|]. apply PM_expired; [done|by eapply Hfree].
Qed.

(** A proposal after a call: a move of it, or created by the call without approvals. *)
Lemma effect_moves e st c st' i y :
  inv st → effect e st c st' → proposals st' !! i = Some y →
  (∃ x, proposals st !! i = Some x ∧ moves e st i x c y) ∨
  proposals st !! i = None ∧ mentor_approved y = false ∧ mentee_approved y = false.
Proof.
  intros Hi Heff Hy.
  assert (∀ st1, proposals st1 = proposals st → proposals st1 !! i = Some y → ∃ x, proposals st !! i = Some x ∧ moves e st i x c y)
    as Hsame by (intros st1 <- H1; exists y; split; [done|apply PM_same]).
  assert (∀ j x z st1, proposals st !! j = Some x → pr_id z = pr_id x → proposals st1 = proposals st →
    (i = j → moves e st i x c z) →
    proposals (store_proposal z st1) !! i = Some y → ∃ x, proposals st !! i = Some x ∧ moves e st i x c y) as Hput.
  { intros j x z st1 Hx Hz Hst Hm. simpl. destruct (inv_each _ _ Hi _ _ Hx) as (Hid & _). rewrite Hz, Hid, Hst, lookup_insert.
    destruct (decide (j = i)) as [<-|]; [intros [= <-]; eauto|]. intros Hold. exists y. split; [done|apply PM_same]. }
  destruct Heff as [a Ha|c a b _ _|c a r _ _ _|c a s x _ _ _|a b on _ _|a p b s _ Hcr|c p a b s h _ Hh Hcr Hlt j
    |who j x Hx Hp Hau Hm1 Hm2 Hs Hex Hel|who j n x Hx Hs|who j n x Hx Hp Hau Hs
    |c j s h x Hco Hh Hte Hx Ho Hex Hel Hroom Hmax Hlt]; try (left; by apply (Hsame st)).
  - destruct Hcr. set (j := next_id sha256 to_xdr (timestamp e) p a b st) in *.
    eapply (creation_moves e st i y (CPropose a p b s) j (proposal_of j p a b s a ByMentor (timestamp e)) (p, a, b)); try done.
    by apply next_id_fresh.
  - destruct Hcr. eapply (creation_moves e st i y (CAssist c p a b s h) j (proposal_of j p a b s c ByCoordinator (timestamp e)) (p, a, b)); try done.
    by apply next_id_fresh.
  - left. unfold consented in Hy. eapply (Hput j x); [done| | | |exact Hy]; [done| |].
    + destruct (_ && _); [|done]. by injection (release_rest (program_id (approved (bool_decide (who = mentor x)) (timestamp e) x)) st).
    + intros ->. apply PM_approved; try done. intros [[H1 H2]|[H1 H2]]; [rewrite Hm1 in H2|rewrite Hm2 in H2]; done.
  - left. eapply (Hput j x); [done| | | |exact Hy]; [done| |].
    + by injection (release_rest (program_id x) st).
    + intros ->. by apply PM_declined.
  - left. simpl in Hy. eapply (Hput j x); [done| | | |exact Hy]; [done|by case_decide|].
    intros ->. by apply PM_adjusted.
Qed.

Lemma effect_stays e st c st' i x :
  inv st → effect e st c st' → proposals st !! i = Some x → is_Some (proposals st' !! i).
Proof.
  intros Hi Heff Hx.
  assert (∀ z st1, (proposals st1 = proposals st) → is_Some (proposals (store_proposal z st1) !! i)) as Hput.
  { intros z st1 Hst. simpl. rewrite Hst, lookup_insert. case_decide; by eexists. }
  assert (∀ z k, is_Some (proposals (created z (after_expiry (timestamp e) k st)) !! i)) as Hcr.
  { intros z k. simpl. rewrite lookup_insert. case_decide; [by eexists|].
    destruct (after_expiry_frame sha256 (timestamp e) k st Hi) as (_ & _ & _ & _ & Hdom).
    destruct (proposals (after_expiry (timestamp e) k st) !! i) as [z'|] eqn:Hz; [by eexists|]. apply Hdom in Hz. congruence. }
  destruct Heff; try (by eexists); try apply Hcr; try apply Hput.
  - destruct (_ && _); [|done]. by injection (release_rest (program_id (approved (bool_decide (who = mentor x0)) (timestamp e) x0)) st).
  - by injection (release_rest (program_id x0) st).
  - by case_decide.
Qed.
End Moves.

Section Theorems.
Context {L : Type} (sha256 : Bytes → BytesN32) (to_xdr : Address → Bytes) (sha_inj : collision_free sha256).
Abbreviation W := (World L Store Event).
Abbreviation M := (Contract L Store Event MatchingError).
Implicit Types (w : W).
Abbreviation exec := (exec (L := L) sha256 to_xdr).
Abbreviation Reach this := (reachable exec valid this (λ _ _, True) deployed).

(** Whether the call returned or not. *)
Lemma invoke_moves c e w i y :
  inv sha256 (store w) → valid e c → proposals (store (invoke (exec c) e w).1) !! i = Some y →
  (∃ x, proposals (store w) !! i = Some x ∧ moves e (store w) i x c y) ∨
  proposals (store w) !! i = None ∧ mentor_approved y = false ∧ mentee_approved y = false.
Proof.
  intros Hi Hv. unfold invoke. destruct (exec c e w) as [w' u| |] eqn:Hrun; simpl;
    [|intros Hy; left; exists y; split; [done|apply PM_same]..].
  destruct (matching_effect sha256 to_xdr c e w w' u Hv Hrun) as [_ Heff]. by eapply effect_moves.
Qed.

(** One open proposal.  In every reachable world a program has at most one proposal of a mentor and
    a mentee that awaits approval or is agreed; the query for it finds exactly the one that has
    not expired; an agreed one has both approvals, a waiting one has not. *)
Theorem one_open_proposal this w :
  Reach this w →
  (∀ i j x y, proposals (store w) !! i = Some x → proposals (store w) !! j = Some y → key x = key y →
     is_open (status x) = true → is_open (status y) = true → i = j) ∧
  (∀ e p a b i, (invoke (open_proposal_for p a b) e w).2 = Returned (Some i) ↔
     ∃ x, proposals (store w) !! i = Some x ∧ key x = (p, a, b) ∧ is_open (status x) = true ∧ timestamp e < expires_at x) ∧
  (∀ i x, proposals (store w) !! i = Some x →
     (status x = Active → mentor_approved x = true ∧ mentee_approved x = true) ∧
     (status x = Proposed → mentor_approved x && mentee_approved x = false)).
Proof.
  intros Hi%matching_reachable; [|done]. split_and!.
  - intros i j x y Hx Hy Hk Hox Hoy. pose proof (inv_open _ _ Hi _ _ Hx Hox) as H1.
    pose proof (inv_open _ _ Hi _ _ Hy Hoy) as H2. rewrite Hk in H1. congruence.
  - intros e p a b i. unfold invoke, open_proposal_for. cbv [bind load now ret]. simpl. split.
    + destruct (pairs (store w) !! (p, a, b)) as [j|] eqn:Hj; simpl; [|done].
      destruct (inv_pairs _ _ Hi _ _ Hj) as (x & Hx & Hk). rewrite Hx. simpl.
      destruct (is_open (status x) && (timestamp e <? expires_at x)) eqn:Ho; [|done]. intros [= <-].
      apply andb_true_iff in Ho as [Ho Ht]. exists x. bool_prop. done.
    + intros (x & Hx & Hk & Ho & Ht). pose proof (inv_open _ _ Hi _ _ Hx Ho) as Hp. rewrite Hk in Hp. rewrite Hp. simpl.
      rewrite Hx. simpl. rewrite Ho. by rewrite (proj2 (Z.ltb_lt _ _)).
  - intros i x Hx. apply (inv_each _ _ Hi _ _ Hx).
Qed.

(** Pending counts.  In every reachable world the pending count of a program is the number of its
    proposals that await approval, expired ones included as long as nothing finalizes them, and at
    most 128; each party can always decline such a proposal, at any time, which frees its slot. *)
Theorem pending_exact this w :
  Reach this w →
  (∀ p, pending_count p (store w) = n_proposed p (proposals (store w)) ∧ pending_count p (store w) ≤ 128) ∧
  (∀ e who i n x, proposals (store w) !! i = Some x → status x = Proposed → party who x → authorized e who = true →
     n ≠ 0 → ∃ w', invoke (decline_proposal who i n) e w = (w', Returned tt) ∧
       pending_count (program_id x) (store w') = pending_count (program_id x) (store w) - 1 ∧
       proposals (store w') !! i = Some (declined (timestamp e) x)).
Proof.
  intros Hi%matching_reachable; [|done]. split; [apply Hi|]. intros e who i n x Hx Hs Hp Hau Hn.
  pose proof (proposed_pending _ _ _ _ Hi Hx Hs) as Hpos. destruct (inv_each _ _ Hi _ _ Hx) as (Hid & _).
  unfold invoke, decline_proposal, load_proposal, require_auth, decrease_pending.
  cbv [bind load ok_or ret reject_if fail now save publish]. rewrite (proj2 (Z.eqb_neq n 0)) by done. rewrite Hx.
  assert (negb (bool_decide (who = mentor x)) && negb (bool_decide (who = mentee x)) = false) as ->.
  { rewrite andb_false_iff, !negb_false_iff, !bool_decide_eq_true. exact Hp. }
  rewrite Hau, bool_decide_eq_false_2 by (by rewrite Hs). rewrite bool_decide_eq_true_2 by done. simpl.
  rewrite (proj2 (Z.ltb_lt _ _)) by done. eexists. split; [done|]. simpl. rewrite Hid, lookup_insert_eq. split; [|done].
  change (pending_count (program_id x) (set_pending_count (program_id x) (pending_count (program_id x) (store w) - 1) (store w))
    = pending_count (program_id x) (store w) - 1). by rewrite pending_set, decide_True.
Qed.

(** ** Agreement *)

(** Among [calls] run from [w] there is the approval by [who] of the offer that [x] holds, at its
    version, with the party's authorisation, before its expiry and while both are eligible. *)
Definition approval_of (w : W) (calls : list (Env * Call)) (i : Z) (who : Address) (x : Proposal) : Prop :=
  ∃ pre post e x0, calls = pre ++ (e, CApprove who i (version x)) :: post ∧
    proposals (store (run_calls exec pre w)) !! i = Some x0 ∧ offer x0 = offer x ∧ status x0 = Proposed ∧
    authorized e who = true ∧ timestamp e < expires_at x ∧ eligible (mentor x) (mentee x) (store (run_calls exec pre w)).

Lemma approval_later w calls c i who x y :
  approval_of w calls i who x → offer y = offer x → approval_of w (calls ++ [c]) i who y.
Proof.
  intros (pre & post & e & x0 & -> & Hx0 & Ho & Hs & Hau & Ht & Hel) Hy. pose proof Hy as [= _ Ha Hb _ _ He Hv].
  exists pre, (post ++ [c]), e, x0. rewrite <-app_assoc. simpl. rewrite Hv, He, Ha, Hb. split_and!; try done. congruence.
Qed.

(** C30: Mutual consent.  Take any calls from a reachable world in which a proposal did not exist.  If
    afterwards a party counts as having approved it, and so in particular if the match is
    agreed, then one of the calls is that party's own approval of exactly the program, the
    parties, the terms, the fee, the expiry and the version the proposal holds, authorised by
    the party, before the expiry, while both parties were active, in their roles and unblocked. *)
Theorem match_needs_both this w calls i x :
  Reach this w → Forall (λ ec : Env * Call, self ec.1 = this ∧ valid ec.1 ec.2) calls →
  proposals (store w) !! i = None → proposals (store (run_calls exec calls w)) !! i = Some x →
  (∀ who, agreed who x → approval_of w calls i who x) ∧
  (status x = Active → approval_of w calls i (mentor x) x ∧ approval_of w calls i (mentee x) x).
Proof.
  intros Hw Hcalls Hnew Hx.
  assert (∀ who, agreed who x → approval_of w calls i who x) as Hbits.
  2: { split; [done|]. intros Ha. assert (Reach this (run_calls exec calls w)) as Hi%matching_reachable by (by apply reachable_run).
    2: done. destruct (inv_each _ _ Hi _ _ Hx) as (_ & _ & _ & _ & Hact & _). destruct (Hact Ha) as [H1 H2].
    split; apply Hbits; [by left|by right]. }
  revert x Hx. induction calls as [|[e c] calls IH] using rev_ind; intros y Hy who Hag.
  { simpl in Hy. congruence. }
  apply Forall_app in Hcalls as [Hcalls Hlast]. apply Forall_singleton in Hlast as [_ Hv]. set (w1 := run_calls exec calls w) in *.
  assert (Reach this w1) as Hi%matching_reachable by (by apply reachable_run). 2: done.
  assert (run_calls exec (calls ++ [(e, c)]) w = (invoke (exec c) e w1).1) as Heq by (unfold run_calls; by rewrite foldl_app).
  rewrite Heq in Hy. unfold agreed in Hag.
  destruct (invoke_moves c e w1 i y Hi Hv Hy) as [(x & Hx & Hm)|(_ & Ha & Hb)].
  2: { rewrite Ha, Hb in Hag. destruct Hag as [[_ ?]|[_ ?]]; done. }
  assert (agreed who x → offer y = offer x → approval_of w (calls ++ [(e, c)]) i who y) as Hold.
  { intros Hax Ho. eapply approval_later; [by apply IH|done]. }
  destruct Hm as [|who' Hp Hna Hau Hs Ht Hel|who' n Hp Hau Hs|c Ho Ht|c s h Hco Hh Hte Ho Ht Hel]; simpl in Hag; try (by apply Hold).
  - destruct (decide (who' = who)) as [->|Hne].
    + exists calls, [], e, x. by split_and!.
    + apply Hold; [|done]. unfold agreed. destruct (decide (who' = mentor x)) as [->|Hm'].
      * rewrite (bool_decide_eq_true_2 (mentor x = mentor x)) in Hag by done. simpl in Hag. destruct Hag as [[-> _]|?]; [done|by right].
      * rewrite (bool_decide_eq_false_2 (who' = mentor x)) in Hag by done. simpl in Hag. destruct Hag as [?|[-> _]]; [by left|].
        by destruct Hp.
  - destruct Hag as [[_ ?]|[_ ?]]; done.
Qed.

(** A proposal's life.  From every reachable world one call leaves a stored proposal as it is or makes
    one of its transitions: an approval, a decline, an expiry (also of an agreed match whose
    expiry has passed, when the pair gets a new proposal), an adjustment by a coordinator,
    which takes both approvals back and gives the next version.  Identity, program, parties,
    creator and origin never change; a declined or expired proposal never changes again. *)
Theorem match_proposal_lifecycle this w e c i x :
  Reach this w → valid e c → proposals (store w) !! i = Some x →
  ∃ y, proposals (store (invoke (exec c) e w).1) !! i = Some y ∧ moves e (store w) i x c y ∧
    (pr_id y, key y, created_by y, origin y, created_at y) = (pr_id x, key x, created_by x, origin x, created_at x) ∧
    (is_open (status x) = false → y = x) ∧ version x ≤ version y ∧ (version y = version x → offer y = offer x).
Proof.
  intros Hi%matching_reachable Hv Hx; [|done].
  assert (is_Some (proposals (store (invoke (exec c) e w).1) !! i)) as [y Hy].
  { unfold invoke. destruct (exec c e w) as [w' u| |] eqn:Hrun; simpl; [|by eexists..].
    destruct (matching_effect sha256 to_xdr c e w w' u Hv Hrun) as [_ Heff]. by eapply effect_stays. }
  exists y. split; [done|]. destruct (invoke_moves c e w i y Hi Hv Hy) as [(x' & Hx' & Hm)|[Hn _]]; [|congruence].
  simplify_eq. split; [done|].
  destruct Hm as [|who' Hp Hna Hau Hs Ht Hel|who' n Hp Hau Hs|c Ho Ht|c s h Hco Hh Hte Ho Ht Hel]; simpl; split_and!; try done; try lia;
    try (intros Hno; first [by rewrite Hs in Hno|by rewrite Ho in Hno]).
Qed.

(** Overrides are on record.  In every reachable world each coordinator's log is numbered from 1 to its
    count, at most 1024, by entries of that coordinator; a proposal a coordinator made has an
    entry of its proposal, every later version of a proposal has an entry of its adjustment,
    all with a reason, and the stored reason is the one of the last adjustment, by the
    coordinator the proposal names. *)
Theorem overrides_logged this w i x :
  Reach this w → proposals (store w) !! i = Some x → log_ok (store w) ∧ overrides_ok (store w) i x.
Proof. intros Hi%matching_reachable Hx; [|done]. split; [apply Hi|by apply (inv_overrides _ _ Hi)]. Qed.
End Theorems.

(** ** Concrete runs *)
Module Runs.
Definition this : Address := addr 0.
Definition boss : Address := addr 1.
Definition cora : Address := addr 2.
Definition ann : Address := addr 3.
Definition bob : Address := addr 4.
Abbreviation sha256 := demo_hash.
Abbreviation to_xdr := demo_xdr.
Abbreviation exec := (exec sha256 to_xdr).
Abbreviation Reach := (reachable exec valid this (λ _ _, True) deployed).

Definition at_time (t : Z) : Env := mkEnv t this (λ _, true).
Definition w0 : World unit Store Event := mkWorld tt empty_store [].
(** The identifiers of the first and the second proposal. *)
Definition i1 : Z := derived_id sha256 1 13 (proposal_salt to_xdr 7 ann bob).
Definition i2 : Z := derived_id sha256 2 61 (proposal_salt to_xdr 7 ann bob).
Definition setup : list (Env * Call) :=
  [(at_time 10, CInitialize boss); (at_time 11, CCoordinator boss cora true); (at_time 12, CRegister boss ann Mentor);
   (at_time 12, CRegister boss bob Mentee)].
(** A proposal, an approval of its first version, an adjustment, the approvals of the second. *)
Definition agreement : list (Env * Call) :=
  [(at_time 13, CPropose ann 7 bob (mkTerms 5 100 50)); (at_time 14, CApprove ann i1 1);
   (at_time 15, CAdjust cora i1 (mkTerms 6 90 60) 9); (at_time 16, CApprove ann i1 1); (at_time 17, CApprove ann i1 2);
   (at_time 18, CApprove bob i1 2)].
(** A new proposal of the pair after the expiry of the agreed one. *)
Definition anew : Call := CAssist cora 7 ann bob (mkTerms 8 70 90) 4.
Definition w1 : World unit Store Event := run_calls exec setup w0.
Definition w2 : World unit Store Event := run_calls exec (setup ++ agreement) w0.
Definition w3 : World unit Store Event := run_calls exec (setup ++ agreement ++ [(at_time 61, anew)]) w0.

Lemma matching_runs calls :
  Forall (λ ec : Env * Call, self ec.1 = this ∧ valid ec.1 ec.2) calls → Reach (run_calls exec calls w0).
Proof. apply reachable_run. by apply reach_init. Qed.

Ltac valid_calls := repeat constructor; simpl; try done; range_lia.

Lemma matching_w1_reach : Reach w1.
Proof. apply matching_runs. valid_calls. Qed.
Lemma matching_w2_reach : Reach w2.
Proof. apply matching_runs. valid_calls. Qed.
Lemma matching_w3_reach : Reach w3.
Proof. apply matching_runs. valid_calls. Qed.

Definition match1 : Proposal :=
  mkProposal i1 7 ann bob 6 90 60 ann ByMentor (Some cora) Active 2 true true 13 18.
Definition proposal2 : Proposal :=
  mkProposal i2 7 ann bob 8 70 90 cora ByCoordinator None Proposed 1 false false 61 61.

Lemma one_open_proposal_witness :
  (invoke (open_proposal_for 7 ann bob) (at_time 59) w2).2 = Returned (Some i1) ∧
  (invoke (open_proposal_for 7 ann bob) (at_time 89) w3).2 = Returned (Some i2).
Proof.
  destruct (one_open_proposal sha256 to_xdr demo_hash_free this w2 matching_w2_reach) as (_ & Hq & _).
  destruct (one_open_proposal sha256 to_xdr demo_hash_free this w3 matching_w3_reach) as (_ & Hq' & _). split.
  - apply Hq. exists match1. split; [vm_compute; reflexivity|]. split; [reflexivity|]. split; [reflexivity|]. simpl. lia.
  - apply Hq'. exists proposal2. split; [vm_compute; reflexivity|]. split; [reflexivity|]. split; [reflexivity|]. simpl. lia.
Defined.

Lemma pending_exact_witness :
  pending_count 7 (store w3) = n_proposed 7 (proposals (store w3)) ∧
  ∃ w', invoke (decline_proposal bob i2 1) (at_time 95) w3 = (w', Returned tt) ∧ pending_count 7 (store w') = 0.
Proof.
  destruct (pending_exact sha256 to_xdr demo_hash_free this w3 matching_w3_reach) as [Hc Hd]. split; [apply Hc|].
  destruct (Hd (at_time 95) bob i2 1 proposal2) as (w' & Hrun & Hn & _);
    [vm_compute; reflexivity|reflexivity|right; reflexivity|reflexivity|discriminate|].
  exists w'. split; [exact Hrun|]. etransitivity; [exact Hn|]. vm_compute. reflexivity.
Defined.

(** The approval of the first version does not count for the agreed second one. *)
Lemma match_needs_both_witness :
  approval_of sha256 to_xdr w1 agreement i1 bob match1 ∧ approval_of sha256 to_xdr w1 agreement i1 ann match1.
Proof.
  destruct (match_needs_both sha256 to_xdr demo_hash_free this w1 agreement i1 match1) as [_ Hboth].
  - apply matching_w1_reach.
  - valid_calls.
  - vm_compute. reflexivity.
  - vm_compute. reflexivity.
  - destruct (Hboth eq_refl) as [Ha Hb]. split; [exact Hb|exact Ha].
Defined.

(** An agreed match becomes an expired proposal. *)
Lemma match_proposal_lifecycle_witness :
  ∃ y, proposals (store (invoke (exec anew) (at_time 61) w2).1) !! i1 = Some y ∧
    moves (at_time 61) (store w2) i1 match1 anew y ∧ status y = Expired ∧ offer y = offer match1.
Proof.
  destruct (match_proposal_lifecycle sha256 to_xdr demo_hash_free this w2 (at_time 61) anew i1 match1) as (y & Hy & Hm & _ & _ & _ & Ho).
  - apply matching_w2_reach.
  - unfold valid. simpl. range_lia.
  - vm_compute. reflexivity.
  - exists y. split; [exact Hy|]. split; [exact Hm|]. vm_compute in Hy. injection Hy as <-. split; [reflexivity|].
    apply Ho. reflexivity.
Defined.

Lemma overrides_logged_witness :
  (∃ h, acted (store w3) i2 cora ActProposed 1 h) ∧ ∃ c h, acted (store w3) i1 c ActAdjusted 2 h.
Proof.
  split.
  - destruct (overrides_logged sha256 to_xdr demo_hash_free this w3 i2 proposal2 matching_w3_reach) as [_ (H & _)];
      [vm_compute; reflexivity|]. destruct (H eq_refl) as (h & _ & Ha). exists h. exact Ha.
  - destruct (overrides_logged sha256 to_xdr demo_hash_free this w3 i1 (expired 61 match1) matching_w3_reach) as [_ (_ & H & _)];
      [vm_compute; reflexivity|]. destruct (H 2) as (c & h & _ & Ha); [simpl; lia|]. exists c, h. exact Ha.
Defined.
End Runs.
