(* ===== verification/Cohorts.v ===== *)
(** * Mentorship cohorts ([mentorship-cohorts/src/lib.rs])

    Cohorts with a window of enrollment, a capacity and a list of coordinators; coordinators
    enroll and withdraw participants by reference commitments.  Enrollments are kept for ever. *)
From S2P Require Import Prelude Machine Host.

Definition MAX_COORDINATORS : Z := 16.

Inductive ContractError :=
| NotInitialized | AlreadyInitialized | NotAdmin | NotCoordinator | CohortNotFound | CohortExists | InvalidCapacity
| InvalidDates | InvalidCoordinators | EmptyReference | EnrollmentClosed | CapacityReached | AlreadyEnrolled
| EnrollmentNotFound | AlreadyWithdrawn | CapacityBelowEnrollment | Overflow.

Record CohortConfig := mkCohort {
  program_id : BytesN32; cohort_id : BytesN32; enrollment_opens_at : Z; enrollment_closes_at : Z; starts_at : Z;
  ends_at : Z; capacity : Z; active_count : Z; coordinators : list Address; calendar_ref_hash : BytesN32;
  settings_hash : BytesN32; version : Z; updated_at : Z
}.
Inductive EnrollmentStatus := Active | Withdrawn.
#[export] Instance EnrollmentStatus_eq_dec : EqDecision EnrollmentStatus.
Proof. solve_decision. Defined.
Record Enrollment := mkEnrollment {
  en_cohort_id : BytesN32; participant_ref_hash : BytesN32; enrolled_at : Z; withdrawn_at : Z; status : EnrollmentStatus
}.

Inductive Event :=
| COHNEW (p c : BytesN32) (v : Z)
| COHUPD (p c : BytesN32) (v : Z)
| COHENR (c : BytesN32) (count t : Z)
| COHWDR (c : BytesN32) (count t : Z).

Record Store := mkStore {
  admin : option Address;
  cohorts : gmap Z CohortConfig;
  enrollments : gmap (Z * Z) Enrollment
}.

Definition put_admin (a : Address) (st : Store) : Store := mkStore (Some a) (cohorts st) (enrollments st).
Definition save_cohort (c : BytesN32) (x : CohortConfig) (st : Store) : Store :=
  mkStore (admin st) (<[c := x]> (cohorts st)) (enrollments st).
Definition put_enrollment (k : Z * Z) (x : Enrollment) (st : Store) : Store :=
  mkStore (admin st) (cohorts st) (<[k := x]> (enrollments st)).

Definition zero_hash : BytesN32 := 0.

(** The settings an admin supplies. *)
Record Settings := mkSettings {
  s_opens_at : Z; s_closes_at : Z; s_starts_at : Z; s_ends_at : Z; s_capacity : Z; s_coordinators : list Address;
  s_calendar_ref_hash : BytesN32; s_settings_hash : BytesN32
}.

Definition with_settings (s : Settings) (v t : Z) (x : CohortConfig) : CohortConfig :=
  mkCohort (program_id x) (cohort_id x) (s_opens_at s) (s_closes_at s) (s_starts_at s) (s_ends_at s) (s_capacity s)
    (active_count x) (s_coordinators s) (s_calendar_ref_hash s) (s_settings_hash s) v t.
Definition with_count (n : Z) (x : CohortConfig) : CohortConfig :=
  mkCohort (program_id x) (cohort_id x) (enrollment_opens_at x) (enrollment_closes_at x) (starts_at x) (ends_at x)
    (capacity x) n (coordinators x) (calendar_ref_hash x) (settings_hash x) (version x) (updated_at x).
Definition withdrawn (t : Z) (x : Enrollment) : Enrollment :=
  mkEnrollment (en_cohort_id x) (participant_ref_hash x) (enrolled_at x) t Withdrawn.

(** The double loop over the coordinators: an address equal to a later one. *)
Fixpoint has_duplicate (l : list Address) : bool :=
  match l with
  | [] => false
  | a :: l => existsb (λ b, bool_decide (a = b)) l || has_duplicate l
  end.

Definition validate_config (s : Settings) : result ContractError unit :=
  if s_capacity s =? 0 then Err InvalidCapacity
  else if (s_closes_at s <=? s_opens_at s) || (s_starts_at s <? s_closes_at s) || (s_ends_at s <=? s_starts_at s)
  then Err InvalidDates
  else if bool_decide (s_coordinators s = []) || (MAX_COORDINATORS <? Z.of_nat (length (s_coordinators s)))
  then Err InvalidCoordinators
  else if has_duplicate (s_coordinators s) then Err InvalidCoordinators
  else if (s_calendar_ref_hash s =? zero_hash) || (s_settings_hash s =? zero_hash) then Err EmptyReference
  else Ok tt.

Section Contract.
Context {L : Type}.
Abbreviation M := (Contract L Store Event ContractError).

Definition initialize (a : Address) : M unit :=
  o <- load admin ;;
  reject_if (bool_decide (is_Some o)) AlreadyInitialized ;;;
  require_auth a ;;;
  save (put_admin a).

Definition require_admin (caller : Address) : M unit := require_admin_of admin NotInitialized NotAdmin caller.
Definition require_coordinator (caller : Address) (x : CohortConfig) : M unit :=
  reject_if (negb (contains (coordinators x) caller)) NotCoordinator ;;;
  require_auth caller.
Definition cohort (c : BytesN32) : M CohortConfig :=
  o <- load (λ st, cohorts st !! c) ;; ok_or o CohortNotFound.

Definition create_cohort (caller : Address) (p c : BytesN32) (s : Settings) : M CohortConfig :=
  require_admin caller ;;;
  o <- load (λ st, cohorts st !! c) ;;
  reject_if (bool_decide (is_Some o)) CohortExists ;;;
  lift (validate_config s) ;;;
  t <- now ;;
  let x := mkCohort p c (s_opens_at s) (s_closes_at s) (s_starts_at s) (s_ends_at s) (s_capacity s) 0
    (s_coordinators s) (s_calendar_ref_hash s) (s_settings_hash s) 1 t in
  save (save_cohort c x) ;;;
  publish (COHNEW p c (version x)) ;;;
  ret x.

Definition update_cohort (caller : Address) (c : BytesN32) (s : Settings) : M CohortConfig :=
  require_admin caller ;;;
  o <- load (λ st, cohorts st !! c) ;;
  x <- ok_or o CohortNotFound ;;
  lift (validate_config s) ;;;
  reject_if (s_capacity s <? active_count x) CapacityBelowEnrollment ;;;
  v <- ok_or (checked_add_u32 (version x) 1) Overflow ;;
  t <- now ;;
  let y := with_settings s v t x in
  save (save_cohort c y) ;;;
  publish (COHUPD (program_id y) c (version y)) ;;;
  ret y.

Definition enroll (caller : Address) (c r : BytesN32) : M Enrollment :=
  x <- cohort c ;;
  require_coordinator caller x ;;;
  reject_if (r =? zero_hash) EmptyReference ;;;
  t <- now ;;
  reject_if ((t <? enrollment_opens_at x) || (enrollment_closes_at x <? t)) EnrollmentClosed ;;;
  o <- load (λ st, enrollments st !! (c, r)) ;;
  reject_if (bool_decide (is_Some o)) AlreadyEnrolled ;;;
  reject_if (capacity x <=? active_count x) CapacityReached ;;;
  n <- ok_or (checked_add_u32 (active_count x) 1) Overflow ;;
  let en := mkEnrollment c r t 0 Active in
  save (put_enrollment (c, r) en) ;;;
  save (save_cohort c (with_count n x)) ;;;
  publish (COHENR c n t) ;;;
  ret en.

Definition withdraw (caller : Address) (c r : BytesN32) : M Enrollment :=
  x <- cohort c ;;
  require_coordinator caller x ;;;
  o <- load (λ st, enrollments st !! (c, r)) ;;
  en <- ok_or o EnrollmentNotFound ;;
  reject_if (bool_decide (status en = Withdrawn)) AlreadyWithdrawn ;;;
  t <- now ;;
  n <- ok_or (checked_sub_u32 (active_count x) 1) Overflow ;;
  save (put_enrollment (c, r) (withdrawn t en)) ;;;
  save (save_cohort c (with_count n x)) ;;;
  publish (COHWDR c n t) ;;;
  ret (withdrawn t en).

Definition get_cohort (c : BytesN32) : M CohortConfig := cohort c.
Definition get_enrollment (c r : BytesN32) : M Enrollment :=
  o <- load (λ st, enrollments st !! (c, r)) ;; ok_or o EnrollmentNotFound.

(** ** Calls *)

Inductive Call :=
| CInitialize (a : Address)
| CCreate (caller : Address) (p c : BytesN32) (s : Settings)
| CUpdate (caller : Address) (c : BytesN32) (s : Settings)
| CEnroll (caller : Address) (c r : BytesN32)
| CWithdraw (caller : Address) (c r : BytesN32).

Definition exec (c : Call) : M unit :=
  match c with
  | CInitialize a => initialize a
  | CCreate a p c s => ignore (create_cohort a p c s)
  | CUpdate a c s => ignore (update_cohort a c s)
  | CEnroll a c r => ignore (enroll a c r)
  | CWithdraw a c r => ignore (withdraw a c r)
  end.
End Contract.

(** The declared widths of the arguments. *)
Definition valid (e : Env) (c : Call) : Prop :=
  0 ≤ timestamp e ≤ u64_max ∧
  match c with CCreate _ _ _ s | CUpdate _ _ s => 0 ≤ s_capacity s ≤ u32_max | _ => True end.
