(* ===== verification/CohortsTheorems.v ===== *)
(** * Mentorship cohorts: invariant and properties

    The active count of a cohort is the number of its active enrollments and stays within the
    capacity; a reference is enrolled at most once and withdrawn at most once.

    Seats are counted and bounded, a reference is enrolled and withdrawn at most once, and
    enrollment on every branch. *)
From S2P Require Import Prelude Machine Host Cohorts.

Record settings_ok (s : Settings) : Prop := {
  so_capacity : 1 ≤ s_capacity s;
  so_dates : s_opens_at s < s_closes_at s ∧ s_closes_at s ≤ s_starts_at s ∧ s_starts_at s < s_ends_at s;
  so_coordinators : NoDup (s_coordinators s) ∧ 1 ≤ Z.of_nat (length (s_coordinators s)) ≤ 16;
  so_hashes : s_calendar_ref_hash s ≠ 0 ∧ s_settings_hash s ≠ 0
}.

(** The settings a cohort holds. *)
Definition settings_of (x : CohortConfig) : Settings :=
  mkSettings (enrollment_opens_at x) (enrollment_closes_at x) (starts_at x) (ends_at x) (capacity x) (coordinators x)
    (calendar_ref_hash x) (settings_hash x).

Lemma has_duplicate_iff l : has_duplicate l = false ↔ NoDup l.
Proof.
  induction l as [|a l IH]; simpl; [split; [constructor|done]|]. rewrite orb_false_iff, IH, NoDup_cons.
  assert (existsb (λ b, bool_decide (a = b)) l = false ↔ a ∉ l) as ->; [|done].
  rewrite <-not_true_iff_false, existsb_exists. setoid_rewrite bool_decide_eq_true. setoid_rewrite <-list_elem_of_In.
  naive_solver.
Qed.

(** The validation accepts exactly the settings in bounds. *)
Lemma validate_config_iff s : 0 ≤ s_capacity s → validate_config s = Ok tt ↔ settings_ok s.
Proof.
  intros Hc. unfold validate_config, MAX_COORDINATORS, zero_hash. split.
  - intros Hok. repeat match type of Hok with (if ?b then _ else _) = _ => destruct b eqn:?; [done|] end. bool_prop.
    split; [lia|lia| |done]. split; [by apply has_duplicate_iff|]. destruct (s_coordinators s); [done|]. simpl in *. lia.
  - intros [Hcap Hd [Hnd Hl] [H1 H2]]. rewrite (proj2 (Z.eqb_neq (s_capacity s) 0)) by lia.
    rewrite (proj2 (Z.leb_gt _ _)), (proj2 (Z.ltb_ge (s_starts_at s) _)), (proj2 (Z.leb_gt (s_ends_at s) _)) by lia. simpl.
    rewrite bool_decide_eq_false_2 by (intros Hn; rewrite Hn in Hl; simpl in Hl; lia).
    rewrite (proj2 (Z.ltb_ge _ _)) by lia. simpl. rewrite (proj2 (has_duplicate_iff _)) by done.
    by rewrite (proj2 (Z.eqb_neq (s_calendar_ref_hash s) 0)), (proj2 (Z.eqb_neq (s_settings_hash s) 0)).
Qed.

(** ** What the calls do *)

Definition coordinates (e : Env) (c : Address) (x : CohortConfig) : Prop := c ∈ coordinators x ∧ authorized e c = true.

Inductive effect (e : Env) (st : Store) : Call → Store → Prop :=
| E_initialize a : admin st = None → effect e st (CInitialize a) (put_admin a st)
| E_create a p c s :
    admin st = Some a → authorized e a = true → cohorts st !! c = None → settings_ok s →
    effect e st (CCreate a p c s)
      (save_cohort c (mkCohort p c (s_opens_at s) (s_closes_at s) (s_starts_at s) (s_ends_at s) (s_capacity s) 0
        (s_coordinators s) (s_calendar_ref_hash s) (s_settings_hash s) 1 (timestamp e)) st)
| E_update a c s x :
    admin st = Some a → authorized e a = true → cohorts st !! c = Some x → settings_ok s → active_count x ≤ s_capacity s →
    version x + 1 ≤ u32_max →
    effect e st (CUpdate a c s) (save_cohort c (with_settings s (version x + 1) (timestamp e) x) st)
| E_enroll a c r x :
    cohorts st !! c = Some x → coordinates e a x → r ≠ 0 →
    enrollment_opens_at x ≤ timestamp e ≤ enrollment_closes_at x → enrollments st !! (c, r) = None →
    active_count x < capacity x →
    effect e st (CEnroll a c r)
      (save_cohort c (with_count (active_count x + 1) x) (put_enrollment (c, r) (mkEnrollment c r (timestamp e) 0 Active) st))
| E_withdraw a c r x en :
    cohorts st !! c = Some x → coordinates e a x → enrollments st !! (c, r) = Some en → status en = Active →
    1 ≤ active_count x →
    effect e st (CWithdraw a c r)
      (save_cohort c (with_count (active_count x - 1) x) (put_enrollment (c, r) (withdrawn (timestamp e) en) st)).

Section Effects.
Context {L : Type}.
Abbreviation W := (World L Store Event).
Abbreviation M := (Contract L Store Event ContractError).
Implicit Types (w : W).

Lemma cohorts_effect c e w w' u :
  valid e c → (exec c : M unit) e w = Done w' u → ledger w' = ledger w ∧ effect e (store w) c (store w').
Proof.
  intros [_ Hv] Hrun.
  destruct c as [a|a p c s|a c s|a c r|a c r]; simpl in Hrun, Hv; try (apply ignore_done in Hrun as [? Hrun]).
  - unfold initialize in Hrun. run_inv. bool_prop. split; [done|]. apply E_initialize. by apply eq_None_not_Some.
  - unfold create_cohort, require_admin in Hrun. run_inv. bool_prop.
    match goal with H : validate_config s = Ok ?u |- _ => destruct u; apply validate_config_iff in H; [|lia] end.
    split; [done|]. apply E_create; try done. by apply eq_None_not_Some.
  - unfold update_cohort, require_admin in Hrun. run_inv. bool_prop. checked_prop.
    match goal with H : validate_config s = Ok ?u |- _ => destruct u; apply validate_config_iff in H; [|lia] end.
    split; [done|]. apply E_update; try done; lia.
  - unfold enroll, cohort, require_coordinator in Hrun. run_inv. bool_prop. checked_prop.
    match goal with H : contains _ _ = true |- _ => apply contains_true in H end.
    split; [done|]. apply E_enroll; try done; first [lia|by apply eq_None_not_Some].
  - unfold withdraw, cohort, require_coordinator in Hrun. run_inv. bool_prop. checked_prop.
    match goal with H : contains _ _ = true |- _ => apply contains_true in H end.
    split; [done|]. match goal with H : status ?en ≠ Withdrawn |- _ => rename en into y end.
    eapply E_withdraw; try done; [by destruct (status y)|lia].
Qed.

(** ** The invariant *)

Definition n_active (c : Z) (es : gmap (Z * Z) Enrollment) : Z :=
  map_sum (λ k y, if decide (k.1 = c ∧ status y = Active) then 1 else 0) es.

Record inv (st : Store) : Prop := {
  inv_cohorts c x : cohorts st !! c = Some x →
    cohort_id x = c ∧ settings_ok (settings_of x) ∧ 1 ≤ version x ≤ u32_max ∧ active_count x ≤ capacity x ≤ u32_max;
  inv_count c : n_active c (enrollments st) = from_option active_count 0 (cohorts st !! c);
  inv_enrollments c r y : enrollments st !! (c, r) = Some y →
    en_cohort_id y = c ∧ participant_ref_hash y = r ∧ r ≠ 0 ∧ is_Some (cohorts st !! c) ∧ (status y = Active → withdrawn_at y = 0)
}.

Lemma n_active_insert c k y es :
  n_active c (<[k := y]> es) = n_active c es - at_key (λ k y, if decide (k.1 = c ∧ status y = Active) then 1 else 0) es k +
    if decide (k.1 = c ∧ status y = Active) then 1 else 0.
Proof. apply map_sum_insert. Qed.

Lemma cohorts_effect_inv e st c st' :
  valid e c → inv st → effect e st c st' → inv st'.
Proof.
  intros [_ Hv] [H1 H2 H3] Heff.
  destruct Heff as [a Ha|a p c s _ _ Hn Hs|a c s x _ _ Hx Hs Hle Hmax|a c r x Hx Hco Hr Ht Hn Hlt|a c r x en Hx Hco Hen Hact Hge];
    simpl in Hv.
  - by split.
  - split; simpl.
    + intros d y. rewrite lookup_insert. case_decide as Hd; [|apply H1]. intros [= <-]. subst d. simpl.
      split_and!; try done; try lia; try range_lia; by destruct s.
    + intros d. rewrite lookup_insert. case_decide as Hd; [|apply H2]. subst d. rewrite H2, Hn. done.
    + intros d r y Hy. destruct (H3 _ _ _ Hy) as (? & ? & ? & Hc & ?). split_and!; try done. rewrite lookup_insert. by case_decide.
  - destruct (H1 _ _ Hx) as (Hid & _ & Hver & _). split; simpl.
    + intros d y. rewrite lookup_insert. case_decide as Hd; [|apply H1]. intros [= <-]. subst d. simpl.
      split_and!; try done; try lia. destruct s; apply Hs.
    + intros d. rewrite lookup_insert. case_decide as Hd; [|apply H2]. subst d. by rewrite H2, Hx.
    + intros d r y Hy. destruct (H3 _ _ _ Hy) as (? & ? & ? & Hc & ?). split_and!; try done. rewrite lookup_insert. by case_decide.
  - destruct (H1 _ _ Hx) as (Hid & Hset & Hver & Hcap). split; simpl.
    + intros d y. rewrite lookup_insert. case_decide as Hd; [|apply H1]. intros [= <-]. subst d. simpl. split_and!; try done; lia.
    + intros d. rewrite n_active_insert. unfold at_key. rewrite Hn. simpl. specialize (H2 d). rewrite lookup_insert.
      destruct (decide (c = d)) as [<-|Hd].
      * rewrite decide_True by done. rewrite H2, Hx. simpl. lia.
      * rewrite decide_False by tauto. lia.
    + intros d q y. rewrite lookup_insert. case_decide as Hk.
      * injection Hk as <- <-. intros [= <-]. split_and!; try done. rewrite lookup_insert_eq. by eexists.
      * intros Hy. destruct (H3 _ _ _ Hy) as (? & ? & ? & Hc & ?). split_and!; try done. rewrite lookup_insert. by case_decide.
  - destruct (H1 _ _ Hx) as (Hid & Hset & Hver & Hcap). split; simpl.
    + intros d y. rewrite lookup_insert. case_decide as Hd; [|apply H1]. intros [= <-]. subst d. simpl. split_and!; try done; lia.
    + intros d. rewrite n_active_insert. unfold at_key. rewrite Hen. simpl. specialize (H2 d). rewrite lookup_insert.
      rewrite (decide_False (P := c = d ∧ Withdrawn = Active)) by (by intros [_ ?]).
      destruct (decide (c = d)) as [<-|Hd].
      * rewrite decide_True by done. rewrite H2, Hx. simpl. lia.
      * rewrite decide_False by tauto. lia.
    + destruct (H3 _ _ _ Hen) as (E1 & E2 & E3 & _ & _). intros d q y. rewrite lookup_insert. case_decide as Hk.
      * injection Hk as <- <-. intros [= <-]. split_and!; try done. rewrite lookup_insert_eq. by eexists.
      * intros Hy. destruct (H3 _ _ _ Hy) as (? & ? & ? & Hc & ?). split_and!; try done. rewrite lookup_insert. by case_decide.
Qed.

Definition empty_store : Store := mkStore None ∅ ∅.
Definition deployed (w : W) : Prop := store w = empty_store.
Abbreviation Reach this := (reachable exec valid this (λ _ _, True) deployed).

Lemma cohorts_reachable this w : Reach this w → inv (store w).
Proof.
  apply (reachable_inv _ _ _ _ _ (λ w, inv (store w))).
  - intros w0 ->. split; [done| |done]. intros c. apply map_sum_empty.
  - intros c e w0 w1 u _ Hv Hi Hrun. destruct (cohorts_effect c e w0 w1 u Hv Hrun) as [_ Heff]. by eapply cohorts_effect_inv.
  - done.
Qed.
End Effects.

Definition enrolled (st : Store) (c r : Z) : bool := bool_decide (is_Some (enrollments st !! (c, r))).
Definition left_cohort (st : Store) (c r : Z) : bool :=
  from_option (λ y, bool_decide (status y = Withdrawn)) false (enrollments st !! (c, r)).

Definition enrolls (c r : Z) (_ : Env) (k : Call) : bool :=
  match k with CEnroll _ d q => bool_decide ((d, q) = (c, r)) | _ => false end.
Definition withdraws (c r : Z) (_ : Env) (k : Call) : bool :=
  match k with CWithdraw _ d q => bool_decide ((d, q) = (c, r)) | _ => false end.

Section Theorems.
Context {L : Type}.
Abbreviation W := (World L Store Event).
Abbreviation M := (Contract L Store Event ContractError).
Implicit Types (w : W).
Abbreviation Reach this := (reachable exec valid this (λ _ _, True) deployed).

(** C32: Seats.  In every reachable world the active count of a cohort is the number of its active
    enrollments, and never above the capacity; its dates are in order, its coordinators are 1 to
    16 different addresses; only existing cohorts have enrollments. *)
Theorem seats_counted this w c x :
  Reach this w → cohorts (store w) !! c = Some x →
  active_count x = n_active c (enrollments (store w)) ∧ 0 ≤ active_count x ≤ capacity x ∧ settings_ok (settings_of x) ∧
  ∀ d r y, enrollments (store w) !! (d, r) = Some y →
    is_Some (cohorts (store w) !! d) ∧ (status y = Active → withdrawn_at y = 0).
Proof.
  intros Hi%cohorts_reachable Hx. destruct (inv_cohorts _ Hi _ _ Hx) as (_ & Hs & _ & Hc & _).
  pose proof (inv_count _ Hi c) as Hn. rewrite Hx in Hn. simpl in Hn. split_and!; try done.
  - rewrite <-Hn. apply map_sum_nonneg. intros k y _. by case_decide.
  - intros d r y Hy. destruct (inv_enrollments _ Hi _ _ _ Hy) as (_ & _ & _ & ? & ?). done.
Qed.

(** Once in, once out.  Over any calls from a reachable world the enrollments of a reference in a
    cohort that return are one if it was new and is enrolled afterwards, and none otherwise; the
    withdrawals of it that return likewise; and who left has been enrolled. *)
Theorem enrolled_once this w calls c r :
  Reach this w → Forall (λ ec : Env * Call, self ec.1 = this ∧ valid ec.1 ec.2) calls →
  let w' := run_calls exec calls w in
  accepted exec (enrolls c r) calls w =
    (if enrolled (store w') c r then 1 else 0) - (if enrolled (store w) c r then 1 else 0) ∧
  accepted exec (withdraws c r) calls w =
    (if left_cohort (store w') c r then 1 else 0) - (if left_cohort (store w) c r then 1 else 0) ∧
  (left_cohort (store w') c r = true → enrolled (store w') c r = true).
Proof.
  intros Hw%cohorts_reachable Hcalls w'. rewrite Forall_forall in Hcalls.
  assert (∀ (f : W → Z) (p : Env → Call → bool), (∀ e k st' (w0 : W), inv (store w0) → effect e (store w0) k st' →
      f (mkWorld (ledger w0) st' (log w0)) = f w0 + (if p e k then 1 else 0)) →
    (∀ w1 w2 : W, store w1 = store w2 → f w1 = f w2) → f w' = f w + accepted exec p calls w) as Hcount.
  { intros f p Hstep Hf. apply (accepted_counts exec (λ w, inv (store w)) f p calls w); [|done].
    intros e k w0 w1 u H0 Hin Hrun. destruct (Hcalls _ Hin) as [_ Hv].
    destruct (cohorts_effect k e w0 w1 u Hv Hrun) as [_ Heff]. split; [by eapply cohorts_effect_inv|].
    rewrite <-(Hstep e k (store w1) w0 H0 Heff). by apply Hf. }
  split_and!.
  - rewrite (Hcount (λ w, if enrolled (store w) c r then 1 else 0) (enrolls c r)); [lia| |by intros w1 w2 ->].
    intros e k st' w0 Hi Heff. simpl. unfold enrolled. destruct Heff; simpl; try lia; rewrite lookup_insert.
    + destruct (decide ((c0, r0) = (c, r))) as [[= -> ->]|Hne].
      * rewrite H3. by rewrite (bool_decide_eq_true_2 ((c, r) = (c, r))).
      * rewrite (bool_decide_eq_false_2 ((c0, r0) = (c, r))) by done. lia.
    + destruct (decide ((c0, r0) = (c, r))) as [[= -> ->]|Hne]; [|lia]. by rewrite H1.
  - rewrite (Hcount (λ w, if left_cohort (store w) c r then 1 else 0) (withdraws c r)); [lia| |by intros w1 w2 ->].
    intros e k st' w0 Hi Heff. simpl. unfold left_cohort. destruct Heff; simpl; try lia; rewrite lookup_insert.
    + destruct (decide ((c0, r0) = (c, r))) as [[= -> ->]|Hne]; [|lia]. by rewrite H3.
    + destruct (decide ((c0, r0) = (c, r))) as [[= -> ->]|Hne]; simpl.
      * rewrite H1. simpl. rewrite H2. by rewrite (bool_decide_eq_true_2 ((c, r) = (c, r))).
      * rewrite (bool_decide_eq_false_2 ((c0, r0) = (c, r))) by done. lia.
  - unfold left_cohort, enrolled. destruct (enrollments (store w') !! (c, r)); [|done]. intros _. by apply bool_decide_eq_true_2.
Qed.

(** Enrollment.  From every world an enrollment a coordinator authorises is refused for the first that
    applies of: no such cohort, not one of its coordinators, an empty reference, outside the
    window, an earlier enrollment (also a withdrawn one), a full cohort; every other one takes
    one seat. *)
Theorem enroll_exact this w e a c r :
  Reach this w → authorized e a = true →
  invoke (enroll a c r) e w =
    match cohorts (store w) !! c with
    | None => (w, Errored CohortNotFound)
    | Some x =>
        if decide (a ∉ coordinators x) then (w, Errored NotCoordinator)
        else if r =? 0 then (w, Errored EmptyReference)
        else if decide (¬ (enrollment_opens_at x ≤ timestamp e ≤ enrollment_closes_at x)) then (w, Errored EnrollmentClosed)
        else if enrolled (store w) c r then (w, Errored AlreadyEnrolled)
        else if capacity x <=? active_count x then (w, Errored CapacityReached)
        else let en := mkEnrollment c r (timestamp e) 0 Active in
          (mkWorld (ledger w) (save_cohort c (with_count (active_count x + 1) x) (put_enrollment (c, r) en (store w)))
             (log w ++ [COHENR c (active_count x + 1) (timestamp e)]), Returned en)
    end.
Proof.
  intros Hi%cohorts_reachable Hau. unfold invoke, enroll, cohort, require_coordinator, require_auth, contains, zero_hash.
  cbv [bind load ok_or ret fail reject_if now save publish]. destruct (cohorts (store w) !! c) as [x|] eqn:Hx; [|done].
  destruct (decide (a ∈ coordinators x)) as [Ha|Ha];
    [rewrite bool_decide_eq_true_2, decide_False by auto|by rewrite bool_decide_eq_false_2, decide_True]. simpl. rewrite Hau.
  destruct (r =? 0); [done|].
  destruct ((timestamp e <? enrollment_opens_at x) || (enrollment_closes_at x <? timestamp e)) eqn:Ht.
  { rewrite decide_True; [done|]. apply orb_true_iff in Ht as [?|?]; bool_prop; lia. }
  bool_prop. rewrite decide_False by (intros Hn; apply Hn; lia). unfold enrolled. destruct (bool_decide (is_Some _)); [done|].
  destruct (capacity x <=? active_count x) eqn:Hcap; [done|]. bool_prop.
  destruct (inv_cohorts _ Hi _ _ Hx) as (_ & _ & _ & _ & Hmax). pose proof (inv_count _ Hi c) as Hn. rewrite Hx in Hn. simpl in Hn.
  assert (0 ≤ active_count x) by (rewrite <-Hn; apply map_sum_nonneg; intros; by case_decide).
  unfold checked_add_u32. by rewrite checked_in by lia.
Qed.
End Theorems.

(** ** Concrete runs *)
Module Runs.
Definition this : Address := addr 0.
Definition boss : Address := addr 1.
Definition cora : Address := addr 2.
Abbreviation Reach := (reachable exec valid this (λ _ _, True) deployed).

Definition at_time (t : Z) : Env := mkEnv t this (λ _, true).
Definition w0 : World unit Store Event := mkWorld tt empty_store [].
Definition settings : Settings := mkSettings 20 40 50 90 1 [cora; boss] 5 6.
Definition setup : list (Env * Call) := [(at_time 10, CInitialize boss); (at_time 11, CCreate boss 3 7 settings)].
(** A full cohort, a seat given back, and a reference that comes back. *)
Definition season : list (Env * Call) :=
  [(at_time 25, CEnroll cora 7 100); (at_time 26, CEnroll cora 7 101); (at_time 27, CWithdraw cora 7 100);
   (at_time 28, CEnroll cora 7 100); (at_time 29, CEnroll boss 7 101); (at_time 30, CWithdraw cora 7 100)].
Definition w1 : World unit Store Event := run_calls exec setup w0.
Definition w2 : World unit Store Event := run_calls exec (setup ++ season) w0.

Lemma cohorts_runs calls :
  Forall (λ ec : Env * Call, self ec.1 = this ∧ valid ec.1 ec.2) calls → Reach (run_calls exec calls w0).
Proof. apply reachable_run. by apply reach_init. Qed.

Ltac valid_calls := repeat constructor; simpl; try done; range_lia.

Lemma cohorts_w1_reach : Reach w1.
Proof. apply cohorts_runs. valid_calls. Qed.
Lemma cohorts_w2_reach : Reach w2.
Proof. apply cohorts_runs. valid_calls. Qed.

Lemma seats_counted_witness : ∃ x, cohorts (store w2) !! 7 = Some x ∧ n_active 7 (enrollments (store w2)) = 1.
Proof.
  assert (cohorts (store w2) !! 7 = Some (mkCohort 3 7 20 40 50 90 1 1 [cora; boss] 5 6 1 11)) as Hx by (vm_compute; reflexivity).
  eexists. split; [exact Hx|]. destruct (seats_counted this w2 7 _ cohorts_w2_reach Hx) as (Hn & _). symmetry. exact Hn.
Defined.

Lemma enrolled_once_witness :
  accepted exec (enrolls 7 100) season w1 = 1 ∧ accepted exec (withdraws 7 100) season w1 = 1.
Proof.
  destruct (enrolled_once this w1 season 7 100) as (He & Hw & _); [apply cohorts_w1_reach|valid_calls|].
  cbv zeta in He, Hw. split; [rewrite He|rewrite Hw]; vm_compute; reflexivity.
Defined.

Lemma enroll_exact_witness :
  (invoke (enroll cora 7 102) (at_time 31) w2).2 = Errored CapacityReached ∧
  (invoke (enroll cora 7 100) (at_time 31) w2).2 = Errored AlreadyEnrolled.
Proof.
  split; rewrite (enroll_exact this w2) by (apply cohorts_w2_reach || reflexivity); vm_compute; reflexivity.
Defined.
End Runs.
