(* ===== verification/Calendar.v ===== *)
(** * External calendars ([mentorship-calendar/src/lib.rs])

    An owner connects calendars by commitments to their tokens; each accepted synchronisation
    has a newer epoch and replaces the busy windows, normalised, of the connection; a failed
    one leaves them; expiry and disconnection delete them.  Queries clip and page the windows.
    The selection sort and the merge of [normalize] are those of [AvailabilityCalc.v]. *)
From S2P Require Import Prelude Machine Host Loops Intervals AvailabilityCalc.

Definition CONTRACT_VERSION : Z := 1.
Definition SCOPE_FREE_BUSY : Z := 1.
Definition SCOPE_TIMEZONE : Z := 2.
Definition ALLOWED_SCOPES : Z := Z.lor SCOPE_FREE_BUSY SCOPE_TIMEZONE.
Definition FORBIDDEN_CONTENT_SCOPE : Z := 8.
Definition MAX_CONNECTIONS_PER_OWNER : Z := 8.
Definition MAX_BUSY_WINDOWS : Z := 128.
Definition MAX_WINDOW_SPAN_SECONDS : Z := 7 * SECONDS_PER_DAY.
Definition MAX_SYNC_HORIZON_DAYS : Z := 60.
Definition MAX_QUERY_SPAN_SECONDS : Z := 90 * SECONDS_PER_DAY.
Definition MAX_PAGE_SIZE : Z := 64.
Definition MAX_PAGE : Z := 4096.

Inductive ContractError :=
| ConnectionNotFound | ConnectionAlreadyExists | TooManyConnections | InvalidScope | ScopeNotAllowed
| InvalidTokenCommitment | InvalidExpiry | ConnectionNotActive | ConnectionExpired | StaleSyncEpoch
| TooManyBusyWindows | InvalidBusyWindow | BusyWindowSpanTooLarge | InvalidSyncRange | InvalidPage
| InvalidQueryRange | QuerySpanTooLarge | ConnectionNotExpired.

Inductive Provider := Google | Outlook | Calendly | Apple.
Inductive ConnectionStatus := Active | Revoked | Expired.
#[export] Instance ConnectionStatus_eq_dec : EqDecision ConnectionStatus.
Proof. solve_decision. Defined.

Record ConnectionInput := mkInput {
  i_id : BytesN32; i_provider : Provider; i_scopes : Z; i_token_commitment : BytesN32; i_token_ref : BytesN32;
  i_expires_at : Z
}.
Record CalendarConnection := mkConnection {
  cn_id : BytesN32; owner : Address; provider : Provider; scopes : Z; token_commitment : BytesN32; token_ref : BytesN32;
  status : ConnectionStatus; connected_at : Z; last_synced_at : Z; sync_epoch : Z; payload_hash : BytesN32;
  expires_at : Z; degraded : bool; last_error_code : option Symbol; revoked_at : Z
}.
(** The fields of the code's [BusyWindow] are those of a range of instants. *)
Abbreviation BusyWindow := AvailableRange (only parsing).

Inductive Event :=
| CALCONN (o : Address) (i : BytesN32) (p : Provider)
| CALSYNC (o : Address) (i : BytesN32) (epoch : Z)
| CALFAIL (o : Address) (i : BytesN32) (code : Symbol)
| CALEXP (o : Address) (i : BytesN32)
| CALDISC (o : Address) (i : BytesN32).

Record Store := mkStore {
  ids : gmap Address (list Z);
  connections : gmap (Address * Z) CalendarConnection;
  busy : gmap (Address * Z) (list BusyWindow)
}.

Definition load_ids (o : Address) (st : Store) : list Z := default [] (ids st !! o).
Definition load_busy (o : Address) (i : BytesN32) (st : Store) : list BusyWindow := default [] (busy st !! (o, i)).
Definition put_ids (o : Address) (l : list Z) (st : Store) : Store :=
  mkStore (<[o := l]> (ids st)) (connections st) (busy st).
Definition put_connection (x : CalendarConnection) (st : Store) : Store :=
  mkStore (ids st) (<[(owner x, cn_id x) := x]> (connections st)) (busy st).
(** An empty list removes the key. *)
Definition put_busy (o : Address) (i : BytesN32) (l : list BusyWindow) (st : Store) : Store :=
  mkStore (ids st) (connections st)
    (match l with [] => delete (o, i) (busy st) | _ => <[(o, i) := l]> (busy st) end).

Definition require_scope (s : Z) : result ContractError unit :=
  if negb (Z.land s FORBIDDEN_CONTENT_SCOPE =? 0) || negb (Z.land s (Z.lxor u32_max ALLOWED_SCOPES) =? 0)
  then Err ScopeNotAllowed
  else if Z.land s SCOPE_FREE_BUSY =? 0 then Err InvalidScope
  else Ok tt.

Definition normalize (windows : list BusyWindow) : list BusyWindow :=
  foldl merge_range [] (selection_sort windows).

Definition clip_window (from until : Z) (x : BusyWindow) : option BusyWindow :=
  let start := if from <? start_ts x then start_ts x else from in
  let fin := if end_ts x <? until then end_ts x else until in
  if start <? fin then Some (mkRange start fin) else None.
Definition clip_windows (windows : list BusyWindow) (from until : Z) : list BusyWindow :=
  omap (clip_window from until) windows.

(** ** Changes of a connection *)

Definition synced (epoch : Z) (h : BytesN32) (t : Z) (x : CalendarConnection) : CalendarConnection :=
  mkConnection (cn_id x) (owner x) (provider x) (scopes x) (token_commitment x) (token_ref x) (status x)
    (connected_at x) t epoch h (expires_at x) false None (revoked_at x).
Definition failed (code : Symbol) (x : CalendarConnection) : CalendarConnection :=
  mkConnection (cn_id x) (owner x) (provider x) (scopes x) (token_commitment x) (token_ref x) (status x)
    (connected_at x) (last_synced_at x) (sync_epoch x) (payload_hash x) (expires_at x) true (Some code) (revoked_at x).
Definition expired (x : CalendarConnection) : CalendarConnection :=
  mkConnection (cn_id x) (owner x) (provider x) (scopes x) (token_commitment x) (token_ref x) Expired
    (connected_at x) (last_synced_at x) (sync_epoch x) (payload_hash x) (expires_at x) false None (revoked_at x).
Definition revoked (t : Z) (x : CalendarConnection) : CalendarConnection :=
  mkConnection (cn_id x) (owner x) (provider x) (scopes x) (token_commitment x) (token_ref x) Revoked
    (connected_at x) (last_synced_at x) (sync_epoch x) (payload_hash x) (expires_at x) false None t.
Definition connected (o : Address) (i : ConnectionInput) (t : Z) : CalendarConnection :=
  mkConnection (i_id i) o (i_provider i) (i_scopes i) (i_token_commitment i) (i_token_ref i) Active t 0 0 0
    (i_expires_at i) false None 0.

Section Contract.
Context {L : Type}.
Abbreviation M := (Contract L Store Event ContractError).

Definition load_connection (o : Address) (i : BytesN32) : M CalendarConnection :=
  x <- load (λ st, connections st !! (o, i)) ;; ok_or x ConnectionNotFound.

Definition connect (o : Address) (i : ConnectionInput) : M unit :=
  require_auth o ;;;
  reject_if (i_token_commitment i =? 0) InvalidTokenCommitment ;;;
  lift (require_scope (i_scopes i)) ;;;
  t <- now ;;
  reject_if (i_expires_at i <=? t) InvalidExpiry ;;;
  x <- load (λ st, connections st !! (o, i_id i)) ;;
  reject_if (bool_decide (is_Some x)) ConnectionAlreadyExists ;;;
  l <- load (load_ids o) ;;
  reject_if (MAX_CONNECTIONS_PER_OWNER <=? Z.of_nat (length l)) TooManyConnections ;;;
  save (put_connection (connected o i t)) ;;;
  save (put_ids o (l ++ [i_id i])) ;;;
  publish (CALCONN o (i_id i) (i_provider i)).

Definition check_window (horizon_end : Z) (x : BusyWindow) : M unit :=
  reject_if ((start_ts x =? 0) || (end_ts x <=? start_ts x)) InvalidBusyWindow ;;;
  span <- or_trap (checked_sub_u64 (end_ts x) (start_ts x)) ;;
  reject_if (MAX_WINDOW_SPAN_SECONDS <? span) BusyWindowSpanTooLarge ;;;
  reject_if (horizon_end <? end_ts x) InvalidSyncRange.

Definition record_busy (o : Address) (i : BytesN32) (epoch : Z) (h : BytesN32) (windows : list BusyWindow) : M unit :=
  require_auth o ;;;
  x <- load_connection o i ;;
  reject_if (negb (bool_decide (status x = Active))) ConnectionNotActive ;;;
  t <- now ;;
  reject_if (expires_at x <=? t) ConnectionExpired ;;;
  if (epoch =? sync_epoch x) && (h =? payload_hash x) then ret tt
  else
    reject_if (epoch <=? sync_epoch x) StaleSyncEpoch ;;;
    reject_if (MAX_BUSY_WINDOWS <? Z.of_nat (length windows)) TooManyBusyWindows ;;;
    let horizon_end := default u64_max (checked_add_u64 t (MAX_SYNC_HORIZON_DAYS * SECONDS_PER_DAY)) in
    for_in windows tt (λ w _, check_window horizon_end w) ;;;
    let normalized := normalize windows in
    reject_if (MAX_BUSY_WINDOWS <? Z.of_nat (length normalized)) TooManyBusyWindows ;;;
    save (put_busy o i normalized) ;;;
    save (put_connection (synced epoch h t x)) ;;;
    publish (CALSYNC o i epoch).

Definition mark_sync_failed (o : Address) (i : BytesN32) (code : Symbol) : M unit :=
  require_auth o ;;;
  x <- load_connection o i ;;
  reject_if (negb (bool_decide (status x = Active))) ConnectionNotActive ;;;
  save (put_connection (failed code x)) ;;;
  publish (CALFAIL o i code).

Definition expire_connection (o : Address) (i : BytesN32) : M unit :=
  require_auth o ;;;
  x <- load_connection o i ;;
  reject_if (negb (bool_decide (status x = Active))) ConnectionNotActive ;;;
  t <- now ;;
  reject_if (t <? expires_at x) ConnectionNotExpired ;;;
  save (put_connection (expired x)) ;;;
  save (put_busy o i []) ;;;
  publish (CALEXP o i).

Definition disconnect (o : Address) (i : BytesN32) : M unit :=
  require_auth o ;;;
  x <- load_connection o i ;;
  reject_if (bool_decide (status x = Revoked)) ConnectionNotActive ;;;
  t <- now ;;
  save (put_connection (revoked t x)) ;;;
  save (put_busy o i []) ;;;
  publish (CALDISC o i).

Definition get_connection (o : Address) (i : BytesN32) : M CalendarConnection := load_connection o i.
Definition connection_ids (o : Address) : M (list Z) := load (load_ids o).

Definition busy_windows (o : Address) (i : BytesN32) (from until page limit : Z) : M (list BusyWindow) :=
  reject_if (until <=? from) InvalidQueryRange ;;;
  span <- or_trap (checked_sub_u64 until from) ;;
  reject_if (MAX_QUERY_SPAN_SECONDS <? span) QuerySpanTooLarge ;;;
  reject_if ((limit =? 0) || (MAX_PAGE_SIZE <? limit) || (MAX_PAGE <? page)) InvalidPage ;;;
  x <- load_connection o i ;;
  if negb (bool_decide (status x = Active)) then ret []
  else
    windows <- load (load_busy o i) ;;
    skip <- or_trap (checked_mul_u64 page limit) ;;
    ret (page_loop (clip_windows windows from until) 0 skip limit []).

Definition connection_healthy (o : Address) (i : BytesN32) : M bool :=
  x <- load (λ st, connections st !! (o, i)) ;;
  t <- now ;;
  ret (match x with
       | Some x => bool_decide (status x = Active) && negb (degraded x) && (t <? expires_at x)
       | None => false
       end).

Definition version : M Z := ret CONTRACT_VERSION.

(** ** Calls *)

Inductive Call :=
| CConnect (o : Address) (i : ConnectionInput)
| CSync (o : Address) (i : BytesN32) (epoch : Z) (h : BytesN32) (windows : list BusyWindow)
| CFail (o : Address) (i : BytesN32) (code : Symbol)
| CExpire (o : Address) (i : BytesN32)
| CDisconnect (o : Address) (i : BytesN32).

Definition exec (c : Call) : M unit :=
  match c with
  | CConnect o i => connect o i
  | CSync o i n h l => record_busy o i n h l
  | CFail o i code => mark_sync_failed o i code
  | CExpire o i => expire_connection o i
  | CDisconnect o i => disconnect o i
  end.
End Contract.

(** The declared widths of the arguments. *)
Definition valid (e : Env) (c : Call) : Prop :=
  0 ≤ timestamp e ≤ u64_max ∧
  match c with
  | CConnect _ i => 0 ≤ i_scopes i ≤ u32_max ∧ 0 ≤ i_expires_at i ≤ u64_max
  | CSync _ _ n _ l => 0 ≤ n ≤ u64_max ∧ Forall (λ x, 0 ≤ start_ts x ≤ u64_max ∧ 0 ≤ end_ts x ≤ u64_max) l
  | _ => True
  end.
