(* ===== verification/CalendarTheorems.v ===== *)
(** * External calendars: invariant and properties

    Normalised windows are the canonical ranges of the same instants; connections that are not
    active have no windows, at most eight connections of an owner are listed, each once.

    A synchronisation on every branch; queries as pages of the canonical windows of the last
    synchronisation; the life of a connection; the eight places of an owner. *)
From Stdlib Require Import Sorted.
From S2P Require Import Prelude Machine Host Loops Intervals AvailabilityCalc AvailabilityProps AvailabilityRanges Calendar.

(** ** Scopes and windows *)

(** The accepted scopes are free/busy, with or without the time zone. *)
Lemma require_scope_iff s : 0 ≤ s ≤ u32_max → require_scope s = Ok tt ↔ s = 1 ∨ s = 3.
Proof.
  intros Hs. unfold require_scope. split; [|by intros [->| ->]].
  destruct (negb _ || negb _) eqn:Hb; [done|]. bool_prop. intros Hok.
  assert (Z.land s 3 = s) as Heq.
  { apply Z.bits_inj'. intros n Hn. rewrite Z.land_spec. destruct (Z.testbit s n) eqn:Hbit; [|done].
    assert (n < 32) as Hlt.
    { destruct (Z.lt_ge_cases n 32); [done|]. exfalso. rewrite (Z.bits_above_log2 s n) in Hbit; [done|lia|].
      destruct (decide (s = 0)) as [->|]; [simpl; lia|]. apply Z.log2_lt_pow2; [lia|].
      apply Z.lt_le_trans with (2 ^ 32); [unfold u32_max in Hs; lia|apply Z.pow_le_mono_r; lia]. }
    assert (Z.testbit (Z.land s (Z.lxor u32_max ALLOWED_SCOPES)) n = false) as Hz.
    { match goal with H : Z.land s (Z.lxor _ _) = 0 |- _ => rewrite H end. apply Z.testbit_0_l. }
    rewrite Z.land_spec, Hbit in Hz. simpl andb in Hz. rewrite Z.lxor_spec in Hz.
    change u32_max with (Z.ones 32) in Hz. rewrite Z.ones_spec_low in Hz by lia.
    change ALLOWED_SCOPES with 3 in Hz. by destruct (Z.testbit 3 n). }
  assert (0 ≤ s ≤ 3) as Hr.
  { pose proof (Z.land_ones s 2 ltac:(lia)) as Hm. change (Z.ones 2) with 3 in Hm. change (2 ^ 2) with 4 in Hm.
    pose proof (Z.mod_pos_bound s 4 ltac:(lia)). lia. }
  assert (s = 0 ∨ s = 1 ∨ s = 2 ∨ s = 3) as [->|[->|[->| ->]]] by lia; auto; discriminate Hok.
Qed.

Lemma normalize_ok l :
  Forall nonempty l → canonical (normalize l) ∧ ∀ t, covers (normalize l) t ↔ covers l t.
Proof.
  intros Hl. destruct (selection_sort_ok l) as [Hp Hs]. unfold normalize.
  destruct (merge_sorted (selection_sort l) []) as [Hc Hcov]; [done|by rewrite Hp|apply canonical_nil|done|].
  split; [done|]. intros t. rewrite Hcov, (covers_perm _ _ t Hp). pose proof (covers_nil t). tauto.
Qed.

Lemma length_merge_range m c : (length (merge_range m c) ≤ S (length m))%nat.
Proof.
  unfold merge_range. destruct (last m); [|rewrite length_app; simpl; lia].
  repeat case_match; rewrite ?length_insert, ?length_app; simpl; lia.
Qed.

(** Normalising does not lengthen the list: the second check of the count cannot fail. *)
Lemma length_normalize l : (length (normalize l) ≤ length l)%nat.
Proof.
  unfold normalize. destruct (selection_sort_ok l) as [Hp _]. rewrite <-(Permutation_length Hp). generalize (selection_sort l). clear l Hp. intros l.
  enough (∀ m, (length (foldl merge_range m l) ≤ length m + length l)%nat) as H by apply (H []).
  induction l as [|c l IH]; intros m; simpl; [lia|]. pose proof (IH (merge_range m c)). pose proof (length_merge_range m c). lia.
Qed.

(** The clipping is that of the availability calculation. *)
Lemma clip_window_clip from until x : clip_window from until x = clip (start_ts x) (end_ts x) from until.
Proof. unfold clip_window, clip. by rewrite Z.ltb_antisym, if_negb. Qed.

Lemma clip_windows_bind from until l :
  clip_windows l from until = l ≫= λ x, option_list (clip (start_ts x) (end_ts x) from until).
Proof.
  induction l as [|x l IH]; [done|]. rewrite bind_cons, <-IH, <-clip_window_clip. unfold clip_windows. simpl.
  by destruct (clip_window from until x).
Qed.

Lemma clip_covers x from until t :
  covers (option_list (clip (start_ts x) (end_ts x) from until)) t ↔ in_range_of t x ∧ from ≤ t < until.
Proof.
  destruct (clip _ _ _ _) as [c|] eqn:Hc; simpl.
  - apply clip_Some in Hc as [-> _]. rewrite covers_one. unfold in_range_of. simpl. lia.
  - pose proof (clip_None _ _ _ _ Hc t). pose proof (covers_nil t). unfold in_range_of. tauto.
Qed.

(** Clipping keeps the windows canonical and exactly the instants of the query. *)
Lemma clip_windows_ok l from until :
  canonical l →
  canonical (clip_windows l from until) ∧ ∀ t, covers (clip_windows l from until) t ↔ covers l t ∧ from ≤ t < until.
Proof.
  intros Hl. rewrite clip_windows_bind. split.
  - apply canonical_bind; [done|]. intros x _. split.
    + destruct (clip _ _ _ _) as [c|] eqn:Hc; [|apply canonical_nil]. apply clip_Some in Hc as [_ Hn]. by apply canonical_one.
    + intros t [Ht _]%clip_covers. done.
  - intros t. rewrite covers_bind. setoid_rewrite clip_covers. unfold covers. naive_solver.
Qed.

(** ** What the calls do *)

(** The windows of a synchronisation at [t]. *)
Definition window_ok (t : Z) (x : AvailableRange) : Prop :=
  0 < start_ts x ∧ start_ts x < end_ts x ∧ end_ts x - start_ts x ≤ MAX_WINDOW_SPAN_SECONDS ∧
  end_ts x ≤ Z.min u64_max (t + MAX_SYNC_HORIZON_DAYS * SECONDS_PER_DAY).

#[export] Instance window_ok_dec t x : Decision (window_ok t x).
Proof. unfold window_ok. apply _. Defined.

Definition u64_window (x : AvailableRange) : Prop := 0 ≤ start_ts x ≤ u64_max ∧ 0 ≤ end_ts x ≤ u64_max.

Inductive effect (e : Env) (st : Store) : Call → Store → Prop :=
| E_connect o i :
    authorized e o = true → i_token_commitment i ≠ 0 → i_scopes i = 1 ∨ i_scopes i = 3 → timestamp e < i_expires_at i →
    connections st !! (o, i_id i) = None → Z.of_nat (length (load_ids o st)) < MAX_CONNECTIONS_PER_OWNER →
    effect e st (CConnect o i) (put_ids o (load_ids o st ++ [i_id i]) (put_connection (connected o i (timestamp e)) st))
| E_replay o i n h l x :
    authorized e o = true → connections st !! (o, i) = Some x → status x = Active → timestamp e < expires_at x →
    n = sync_epoch x → h = payload_hash x → effect e st (CSync o i n h l) st
| E_sync o i n h l x :
    authorized e o = true → connections st !! (o, i) = Some x → status x = Active → timestamp e < expires_at x →
    sync_epoch x < n → Z.of_nat (length l) ≤ MAX_BUSY_WINDOWS → Forall (window_ok (timestamp e)) l →
    effect e st (CSync o i n h l) (put_connection (synced n h (timestamp e) x) (put_busy o i (normalize l) st))
| E_fail o i code x :
    authorized e o = true → connections st !! (o, i) = Some x → status x = Active →
    effect e st (CFail o i code) (put_connection (failed code x) st)
| E_expire o i x :
    authorized e o = true → connections st !! (o, i) = Some x → status x = Active → expires_at x ≤ timestamp e →
    effect e st (CExpire o i) (put_busy o i [] (put_connection (expired x) st))
| E_disconnect o i x :
    authorized e o = true → connections st !! (o, i) = Some x → status x ≠ Revoked →
    effect e st (CDisconnect o i) (put_busy o i [] (put_connection (revoked (timestamp e) x) st)).

Section Effects.
Context {L : Type}.
Abbreviation W := (World L Store Event).
Abbreviation M := (Contract L Store Event ContractError).
Implicit Types (w : W).

(** The checks of the windows: the first one that is not in order decides the error. *)
Definition window_error (t : Z) (x : AvailableRange) : option ContractError :=
  if decide (0 < start_ts x ∧ start_ts x < end_ts x) then
    if MAX_WINDOW_SPAN_SECONDS <? end_ts x - start_ts x then Some BusyWindowSpanTooLarge
    else if Z.min u64_max (t + MAX_SYNC_HORIZON_DAYS * SECONDS_PER_DAY) <? end_ts x then Some InvalidSyncRange
    else None
  else Some InvalidBusyWindow.

Definition first_error (t : Z) (l : list AvailableRange) : option ContractError :=
  head (omap (window_error t) l).

Lemma window_error_none t x : window_error t x = None ↔ window_ok t x.
Proof.
  unfold window_error, window_ok. case_decide as Hd; [|split; [done|intros (? & ? & _); tauto]].
  destruct (Z.ltb_spec MAX_WINDOW_SPAN_SECONDS (end_ts x - start_ts x)); [split; [done|lia]|].
  destruct (Z.ltb_spec (Z.min u64_max (t + MAX_SYNC_HORIZON_DAYS * SECONDS_PER_DAY)) (end_ts x)); [split; [done|lia]|].
  split; [|done]. intros _. split_and!; lia.
Qed.

Lemma first_error_none t l : first_error t l = None ↔ Forall (window_ok t) l.
Proof.
  unfold first_error. induction l as [|x l IH]; simpl; [split; [constructor|done]|]. rewrite Forall_cons, <-window_error_none.
  destruct (window_error t x); simpl; [split; [done|by intros [? _]]|]. rewrite IH. tauto.
Qed.

Lemma horizon_end t : 0 ≤ t →
  default u64_max (checked_add_u64 t (MAX_SYNC_HORIZON_DAYS * SECONDS_PER_DAY)) =
  Z.min u64_max (t + MAX_SYNC_HORIZON_DAYS * SECONDS_PER_DAY).
Proof.
  intros Ht. unfold checked_add_u64, checked, in_range. unfold MAX_SYNC_HORIZON_DAYS, SECONDS_PER_DAY, u64_max in *.
  destruct (Z.leb_spec 0 (t + 60 * 86400)), (Z.leb_spec (t + 60 * 86400) 18446744073709551615); simpl; lia.
Qed.

Lemma check_windows_run t l e w :
  0 ≤ t → Forall u64_window l →
  for_in l tt (λ x _, (check_window (default u64_max (checked_add_u64 t (MAX_SYNC_HORIZON_DAYS * SECONDS_PER_DAY))) x : M unit)) e w =
  match first_error t l with None => Done w tt | Some err => Failed w err end.
Proof.
  intros Ht Hl. rewrite horizon_end by done. unfold first_error. induction Hl as [|x l [Hs He] Hl IH]; [done|].
  cbn [for_in omap list_omap]. unfold bind at 1. unfold check_window at 1. cbv [bind reject_if ret fail or_trap].
  unfold window_error at 1. case_decide as Hd.
  - rewrite (proj2 (Z.eqb_neq (start_ts x) 0)), (proj2 (Z.leb_gt _ _)) by lia. simpl.
    unfold checked_sub_u64. rewrite checked_in by lia.
    destruct (MAX_WINDOW_SPAN_SECONDS <? end_ts x - start_ts x); [done|].
    destruct (Z.min u64_max (t + MAX_SYNC_HORIZON_DAYS * SECONDS_PER_DAY) <? end_ts x); [done|]. apply IH.
  - assert ((start_ts x =? 0) || (end_ts x <=? start_ts x) = true) as ->; [|done].
    apply orb_true_iff. destruct (Z.eqb_spec (start_ts x) 0); [by left|right]. apply Z.leb_le. lia.
Qed.

Lemma calendar_effect c e w w' u :
  valid e c → (exec c : M unit) e w = Done w' u → ledger w' = ledger w ∧ effect e (store w) c (store w').
Proof.
  intros [[Ht _] Hv] Hrun. destruct c as [o i|o i n h l|o i code|o i|o i]; simpl in Hrun, Hv.
  - unfold connect in Hrun. run_inv. bool_prop.
    match goal with H : require_scope _ = Ok ?u |- _ => destruct u; apply require_scope_iff in H; [|lia] end.
    split; [done|]. apply E_connect; try done. by apply eq_None_not_Some.
  - unfold record_busy, load_connection in Hrun. run_inv. bool_prop.
    match goal with H : connections _ !! _ = Some ?y |- _ => rename y into z end.
    destruct ((n =? sync_epoch z) && (h =? payload_hash z)) eqn:Hr; run_inv.
    + bool_prop. split; [done|]. by eapply E_replay.
    + bool_prop. match goal with H : for_in _ _ _ _ _ = _ |- _ => rewrite check_windows_run in H by (done || apply Hv) end.
      destruct (first_error (timestamp e) l) eqn:Hf; [done|]. apply first_error_none in Hf. simplify_eq.
      split; [done|]. eapply E_sync; try done; lia.
  - unfold mark_sync_failed, load_connection in Hrun. run_inv. bool_prop. split; [done|]. by eapply E_fail.
  - unfold expire_connection, load_connection in Hrun. run_inv. bool_prop. split; [done|]. by eapply E_expire.
  - unfold disconnect, load_connection in Hrun. run_inv. bool_prop. split; [done|]. by eapply E_disconnect.
Qed.

(** ** The invariant *)

Record inv (st : Store) : Prop := {
  inv_ids o : NoDup (load_ids o st) ∧ Z.of_nat (length (load_ids o st)) ≤ 8 ∧
    ∀ i, i ∈ load_ids o st ↔ is_Some (connections st !! (o, i));
  inv_connections o i x : connections st !! (o, i) = Some x →
    owner x = o ∧ cn_id x = i ∧ (scopes x = 1 ∨ scopes x = 3) ∧ token_commitment x ≠ 0 ∧ 0 ≤ sync_epoch x;
  inv_busy o i : canonical (load_busy o i st) ∧ Z.of_nat (length (load_busy o i st)) ≤ 128 ∧
    (load_busy o i st ≠ [] → ∃ x, connections st !! (o, i) = Some x ∧ status x = Active)
}.

Lemma load_busy_put o i p j l st :
  load_busy p j (put_busy o i l st) = if decide ((o, i) = (p, j)) then l else load_busy p j st.
Proof.
  unfold load_busy, put_busy. simpl. destruct l as [|x l]; [rewrite lookup_delete|rewrite lookup_insert]; by case_decide.
Qed.

Lemma load_ids_put o p l st : load_ids p (put_ids o l st) = if decide (o = p) then l else load_ids p st.
Proof. unfold load_ids, put_ids. simpl. rewrite lookup_insert. by case_decide. Qed.

(** A connection is rewritten, and its windows with it. *)
Lemma connection_inv st st' o i x y l :
  inv st → connections st !! (o, i) = Some x → owner y = owner x → cn_id y = cn_id x → scopes y = scopes x →
  token_commitment y = token_commitment x → 0 ≤ sync_epoch y → ids st' = ids st →
  connections st' = <[(o, i) := y]> (connections st) →
  (∀ p j, load_busy p j st' = if decide ((o, i) = (p, j)) then l else load_busy p j st) →
  canonical l → Z.of_nat (length l) ≤ 128 → (l ≠ [] → status y = Active) → inv st'.
Proof.
  intros [H1 H2 H3] Hx Ho Hc Hsc Htc He Hids Hcon Hbusy Hl Hlen Hact.
  destruct (H2 _ _ _ Hx) as (Ho0 & Hc0 & Hs0 & Ht0 & _). split.
  - intros p. unfold load_ids. rewrite Hids. destruct (H1 p) as (Hnd & Hb & Hin). split_and!; [done..|]. intros j.
    rewrite Hcon. unfold load_ids in Hin. rewrite Hin, lookup_insert. case_decide as Hk; [|done]. injection Hk as <- <-.
    rewrite Hx. split; intros _; by eexists.
  - intros p j z. rewrite Hcon, lookup_insert. case_decide as Hk; [|apply H2]. injection Hk as <- <-. intros [= <-].
    rewrite Ho, Hc, Hsc, Htc. done.
  - intros p j. rewrite Hbusy, Hcon, lookup_insert. case_decide as Hk; [|apply H3]. split_and!; [done..|]. intros Hne.
    exists y. split; [done|auto].
Qed.

Lemma calendar_effect_inv e st c st' : valid e c → inv st → effect e st c st' → inv st'.
Proof.
  intros [[Ht _] Hv] Hi Heff.
  destruct Heff as [o i Hau Htc Hsc Hex Hn Hlen|o i n h l x Hau Hx Ha Hex Hn Hh|o i n h l x Hau Hx Ha Hex Hn Hlen Hl
    |o i code x Hau Hx Ha|o i x Hau Hx Ha Hex|o i x Hau Hx Ha]; simpl in Hv.
  - destruct Hi as [H1 H2 H3]. unfold MAX_CONNECTIONS_PER_OWNER in Hlen. split.
    + intros p. destruct (H1 p) as (Hnd & Hb & Hin). rewrite load_ids_put. destruct (decide (o = p)) as [<-|Hop]; simpl.
      * assert (i_id i ∉ load_ids o st) as Hnew. { rewrite Hin, Hn. by intros [? ?]. } split_and!.
        -- apply NoDup_app. split_and!; [done| |apply NoDup_singleton]. intros j Hj ->%list_elem_of_singleton. done.
        -- rewrite length_app. simpl. lia.
        -- intros j. rewrite elem_of_app, list_elem_of_singleton, Hin, lookup_insert. case_decide as Hk.
           ++ injection Hk as <-. split; [by eexists|auto].
           ++ split; [intros [?| ->]; [done|done]|auto].
      * split_and!; [done..|]. intros j. rewrite lookup_insert_ne by congruence. change (ids (put_connection ?x st)) with (ids st). apply Hin.
    + intros p j z. simpl. rewrite lookup_insert. case_decide as Hk; [|apply H2]. injection Hk as <- <-. intros [= <-]. done.
    + intros p j. destruct (H3 p j) as (Hc & Hl & Hne). split_and!; [done..|]. intros Hb. destruct (Hne Hb) as (z & Hz & Hs).
      exists z. simpl. rewrite lookup_insert_ne by congruence. done.
  - done.
  - destruct (inv_connections _ Hi _ _ _ Hx) as (Ho & Hc & _ & _ & He). unfold MAX_BUSY_WINDOWS in Hlen.
    apply (connection_inv st _ o i x (synced n h (timestamp e) x) (normalize l)); try done.
    + simpl. lia.
    + simpl. by rewrite Ho, Hc.
    + intros p j. apply (load_busy_put o i p j (normalize l) st).
    + apply normalize_ok. eapply Forall_impl; [exact Hl|]. intros y (_ & Hy & _). exact Hy.
    + pose proof (length_normalize l). lia.
  - destruct (inv_connections _ Hi _ _ _ Hx) as (Ho & Hc & _ & _ & He). destruct (inv_busy _ Hi o i) as (Hb1 & Hb2 & _).
    apply (connection_inv st _ o i x (failed code x) (load_busy o i st)); try done; simpl.
    + by rewrite Ho, Hc.
    + intros p j. case_decide as Hk; [by injection Hk as <- <-|done].
  - destruct (inv_connections _ Hi _ _ _ Hx) as (Ho & Hc & _ & _ & He).
    apply (connection_inv st _ o i x (expired x) []); try done; [simpl; by rewrite Ho, Hc| |apply canonical_nil].
    intros p j. apply (load_busy_put o i p j [] (put_connection (expired x) st)).
  - destruct (inv_connections _ Hi _ _ _ Hx) as (Ho & Hc & _ & _ & He).
    apply (connection_inv st _ o i x (revoked (timestamp e) x) []); try done; [simpl; by rewrite Ho, Hc| |apply canonical_nil].
    intros p j. apply (load_busy_put o i p j [] (put_connection (revoked (timestamp e) x) st)).
Qed.

Definition empty_store : Store := mkStore ∅ ∅ ∅.
Definition deployed (w : W) : Prop := store w = empty_store.
Abbreviation Reach this := (reachable exec valid this (λ _ _, True) deployed).

Lemma calendar_reachable this w : Reach this w → inv (store w).
Proof.
  apply (reachable_inv _ _ _ _ _ (λ w, inv (store w))).
  - intros w0 ->. split; [|done|]; [|intros o i; split_and!; [apply canonical_nil|done|done]]. intros o. split_and!; [constructor|done|]. intros i.
    split; [by intros ?%elem_of_nil|by intros [? ?]].
  - intros c e w0 w1 u _ Hv Hi Hrun. destruct (calendar_effect c e w0 w1 u Hv Hrun) as [_ Heff]. by eapply calendar_effect_inv.
  - done.
Qed.
End Effects.

(** The calls that may change the stored windows of a connection. *)
Definition rewrites (o : Address) (i : BytesN32) (c : Call) : bool :=
  match c with
  | CSync p j _ _ _ | CExpire p j | CDisconnect p j => bool_decide ((p, j) = (o, i))
  | CConnect _ _ | CFail _ _ _ => false
  end.
Definition connects (o : Address) (_ : Env) (c : Call) : bool :=
  match c with CConnect p _ => bool_decide (p = o) | _ => false end.

(** The windows a query pages through: the instants of [l] inside the query, once each. *)
Definition pages_of (l : list AvailableRange) (from until : Z) (ws : list AvailableRange) : Prop :=
  canonical ws ∧ ∀ t, covers ws t ↔ covers l t ∧ from ≤ t < until.

(** What one call may do to a connection. *)
Inductive moves (e : Env) (o : Address) (i : BytesN32) (x : CalendarConnection) : Call → CalendarConnection → Prop :=
| moved_not c : moves e o i x c x
| moved_synced n h l : authorized e o = true → status x = Active → timestamp e < expires_at x → sync_epoch x < n →
    moves e o i x (CSync o i n h l) (synced n h (timestamp e) x)
| moved_failed code : authorized e o = true → status x = Active → moves e o i x (CFail o i code) (failed code x)
| moved_expired : authorized e o = true → status x = Active → expires_at x ≤ timestamp e → moves e o i x (CExpire o i) (expired x)
| moved_revoked : authorized e o = true → status x ≠ Revoked → moves e o i x (CDisconnect o i) (revoked (timestamp e) x).

Lemma connection_moves e st c st' o i x :
  inv st → effect e st c st' → connections st !! (o, i) = Some x →
  ∃ y, connections st' !! (o, i) = Some y ∧ moves e o i x c y.
Proof.
  intros Hi Heff Hx. pose proof (inv_connections _ Hi) as Hc.
  destruct Heff as [p j Hau Htc Hsc Hex Hn Hlen|p j n h l z Hau Hz Ha Hex Hn Hh|p j n h l z Hau Hz Ha Hex Hn Hlen Hl
    |p j code z Hau Hz Ha|p j z Hau Hz Ha Hex|p j z Hau Hz Ha]; simpl;
    try (destruct (Hc _ _ _ Hz) as (Ho & Hid & _); rewrite Ho, Hid); rewrite ?lookup_insert;
    try (destruct (decide _) as [Hk|Hk]; [injection Hk as -> ->|exists x; split; [done|apply moved_not]]).
  - destruct (decide _) as [Hk|Hk]; [congruence|]. exists x. split; [done|apply moved_not].
  - exists x. split; [done|apply moved_not].
  - rewrite Hx in Hz. injection Hz as <-. eexists. split; [done|by apply moved_synced].
  - rewrite Hx in Hz. injection Hz as <-. eexists. split; [done|by apply moved_failed].
  - rewrite Hx in Hz. injection Hz as <-. eexists. split; [done|by apply moved_expired].
  - rewrite Hx in Hz. injection Hz as <-. eexists. split; [done|by apply moved_revoked].
Qed.

Lemma effect_windows e st c st' o i :
  inv st → effect e st c st' → rewrites o i c = false → load_busy o i st' = load_busy o i st.
Proof.
  intros Hi Heff Hr. pose proof (inv_connections _ Hi) as Hc. destruct Heff; try done; simpl in Hr; bool_prop.
  all: change (load_busy o i (put_connection ?y ?s)) with (load_busy o i s); rewrite load_busy_put, decide_False by done; done.
Qed.

Section Theorems.
Context {L : Type}.
Abbreviation W := (World L Store Event).
Abbreviation M := (Contract L Store Event ContractError).
Implicit Types (w : W).
Abbreviation Reach this := (reachable exec valid this (λ _ _, True) deployed).

(** A synchronisation.  From every world one the owner authorises is refused for the first that
    applies of: no such connection, not active, token expired; is a retry of the last one and
    changes nothing; is refused as old, as too long, or for its first window out of order; and
    otherwise replaces the windows by the given ones, normalised, and clears the failure. *)
Theorem record_busy_exact this w e o i n h l :
  Reach this w → valid e (CSync o i n h l) → authorized e o = true →
  invoke (record_busy o i n h l) e w =
    match connections (store w) !! (o, i) with
    | None => (w, Errored ConnectionNotFound)
    | Some x =>
        if decide (status x ≠ Active) then (w, Errored ConnectionNotActive)
        else if expires_at x <=? timestamp e then (w, Errored ConnectionExpired)
        else if decide (n = sync_epoch x ∧ h = payload_hash x) then (w, Returned tt)
        else if n <=? sync_epoch x then (w, Errored StaleSyncEpoch)
        else if 128 <? Z.of_nat (length l) then (w, Errored TooManyBusyWindows)
        else match first_error (timestamp e) l with
        | Some err => (w, Errored err)
        | None =>
            (mkWorld (ledger w) (put_connection (synced n h (timestamp e) x) (put_busy o i (normalize l) (store w)))
               (log w ++ [CALSYNC o i n]), Returned tt)
        end
    end.
Proof.
  intros _ [[Ht _] [_ Hl]] Hau. unfold invoke, record_busy, load_connection, require_auth.
  cbv [bind load ok_or ret fail reject_if now]. rewrite Hau.
  destruct (connections (store w) !! (o, i)) as [x|]; [|done].
  destruct (decide (status x = Active)) as [Ha|Ha];
    [rewrite bool_decide_eq_true_2, decide_False by auto|by rewrite bool_decide_eq_false_2, decide_True]. simpl negb. cbn match.
  destruct (expires_at x <=? timestamp e); [done|].
  destruct ((n =? sync_epoch x) && (h =? payload_hash x)) eqn:Hr.
  { bool_prop. rewrite decide_True by done. done. }
  rewrite decide_False by (intros [-> ->]; by rewrite !Z.eqb_refl in Hr). destruct (n <=? sync_epoch x); [done|].
  unfold MAX_BUSY_WINDOWS. destruct (128 <? Z.of_nat (length l)) eqn:Hlen; [done|].
  pose proof (check_windows_run (timestamp e) l e w Ht Hl) as Hw. cbv [bind ret fail reject_if] in Hw |- *. cbn [negb]. rewrite Hw.
  destruct (first_error (timestamp e) l); [done|]. bool_prop. pose proof (length_normalize l).
  rewrite (proj2 (Z.ltb_ge _ _)) by lia. done.
Qed.

(** C31: What is shown is what was imported.  Take a synchronisation that is accepted as a new one, and
    any calls after it that do not synchronise, expire or disconnect this connection: every
    query of at most 90 days and 64 windows a page then returns its page of the one list of
    disjoint, ordered, non-touching windows whose instants are those of the imported windows in
    [from, until). *)
Theorem imported_is_shown this w e o i n h l calls e' from until page limit w1 :
  Reach this w → self e = this → valid e (CSync o i n h l) →
  from_option sync_epoch 0 (connections (store w) !! (o, i)) < n →
  invoke (record_busy o i n h l) e w = (w1, Returned tt) →
  Forall (λ ec : Env * Call, self ec.1 = this ∧ valid ec.1 ec.2 ∧ rewrites o i ec.2 = false) calls →
  0 ≤ from < until → until - from ≤ 90 * 86400 → 1 ≤ limit ≤ 64 → 0 ≤ page ≤ 4096 →
  let w2 := run_calls exec calls w1 in
  ∃ ws, pages_of l from until ws ∧
    invoke (busy_windows o i from until page limit) e' w2 =
      (w2, Returned (take (Z.to_nat limit) (drop (Z.to_nat (page * limit)) ws))).
Proof.
  intros Hw Hself Hv Hn Hrun Hcalls Hq Hspan Hlim Hpage w2.
  assert (Reach this w1) as Hw1. { replace w1 with (invoke (exec (CSync o i n h l)) e w).1 by (simpl; by rewrite Hrun). by apply reach_call. }
  pose proof (calendar_reachable this w Hw) as Hi. pose proof (calendar_reachable this w1 Hw1) as Hi1.
  apply invoke_returned in Hrun. destruct (calendar_effect (CSync o i n h l) e w w1 tt Hv Hrun) as [_ Heff].
  assert (Forall nonempty l ∧ load_busy o i (store w1) = normalize l ∧
    ∃ x, connections (store w1) !! (o, i) = Some x ∧ status x = Active) as (Hne & Hb & x & Hx & Ha).
  { inversion Heff as [|p j m k ll z Hau Hz Hs Hex Hm|p j m k ll z Hau Hz Hs Hex Hm Hlen Hl| | |]; simplify_eq.
    - rewrite Hz in Hn. simpl in Hn. lia.
    - destruct (inv_connections _ Hi _ _ _ Hz) as (Ho & Hid & _). split_and!.
      + eapply Forall_impl; [exact Hl|]. intros y (_ & Hy & _). exact Hy.
      + change (load_busy o i (put_busy o i (normalize l) (store w)) = normalize l). by rewrite load_busy_put, decide_True.
      + eexists. simpl. rewrite Ho, Hid, lookup_insert_eq. done. }
  rewrite Forall_forall in Hcalls.
  assert (inv (store w2) ∧ load_busy o i (store w2) = normalize l ∧
    ∃ x, connections (store w2) !! (o, i) = Some x ∧ status x = Active) as (_ & Hb2 & x2 & Hx2 & Ha2).
  { apply (run_calls_inv exec (λ w, inv (store w) ∧ load_busy o i (store w) = normalize l ∧
      ∃ x, connections (store w) !! (o, i) = Some x ∧ status x = Active) calls w1); [|by eauto].
    intros e0 c w0 w0' u (H0 & Hb0 & x0 & Hx0 & Ha0) Hin Hr. destruct (Hcalls _ Hin) as (_ & Hv0 & Hrw).
    destruct (calendar_effect c e0 w0 w0' u Hv0 Hr) as [_ He0]. split_and!.
    - by eapply calendar_effect_inv.
    - by rewrite (effect_windows e0 (store w0) c _ o i H0 He0 Hrw).
    - destruct (connection_moves _ _ _ _ _ _ _ H0 He0 Hx0) as (y & Hy & Hm). exists y. split; [done|].
      destruct Hm; try done; simpl in Hrw; bool_prop; done. }
  destruct (normalize_ok l Hne) as [Hcan Hcov].
  destruct (clip_windows_ok (normalize l) from until Hcan) as [Hcc Hcl].
  exists (clip_windows (normalize l) from until). split.
  { split; [done|]. intros t. by rewrite Hcl, Hcov. }
  unfold invoke, busy_windows, load_connection. cbv [bind load ok_or ret fail reject_if or_trap].
  rewrite (proj2 (Z.leb_gt _ _)) by lia. unfold checked_sub_u64, checked_mul_u64. rewrite !checked_in by range_lia.
  unfold MAX_QUERY_SPAN_SECONDS, MAX_PAGE_SIZE, MAX_PAGE, SECONDS_PER_DAY. rewrite (proj2 (Z.ltb_ge _ _)) by lia.
  rewrite (proj2 (Z.eqb_neq _ _)), !(proj2 (Z.ltb_ge _ _)) by lia. cbn [orb]. rewrite Hx2, bool_decide_eq_true_2 by done.
  cbv beta iota. cbn [negb]. cbv beta iota. rewrite Hb2, checked_in by (unfold u64_max; nia). cbv beta iota.
  rewrite page_loop_drop by lia. by rewrite Z.sub_0_r.
Qed.

(** The life of a connection.  One call by anyone leaves it as it is or makes one of the listed
    moves: a newer synchronisation of an active one before its token expires, a failure or an
    expiry of an active one, a disconnection of one not yet disconnected, each by the owner.
    Owner, provider, scopes, token and expiry never change, the epoch never falls, who left
    [Active] never comes back, and in every reachable world only an active connection has
    windows. *)
Theorem connection_lifecycle this w e c o i x :
  Reach this w → valid e c → connections (store w) !! (o, i) = Some x →
  (∃ y, connections (store (invoke (exec c) e w).1) !! (o, i) = Some y ∧ moves e o i x c y ∧
    (owner y, cn_id y, provider y, scopes y, token_commitment y, token_ref y, connected_at y, expires_at y) =
      (owner x, cn_id x, provider x, scopes x, token_commitment x, token_ref x, connected_at x, expires_at x) ∧
    sync_epoch x ≤ sync_epoch y ∧ (status x ≠ Active → status y ≠ Active) ∧ (status x = Revoked → y = x)) ∧
  (scopes x = SCOPE_FREE_BUSY ∨ scopes x = ALLOWED_SCOPES) ∧ (status x ≠ Active → load_busy o i (store w) = []).
Proof.
  intros Hi%calendar_reachable Hv Hx. destruct (inv_connections _ Hi _ _ _ Hx) as (_ & _ & Hs & _).
  destruct (inv_busy _ Hi o i) as (_ & _ & Hb). split_and!; [|done|].
  - assert (∃ y, connections (store (invoke (exec c) e w).1) !! (o, i) = Some y ∧ moves e o i x c y) as (y & Hy & Hm).
    { unfold invoke. destruct (exec c e w) as [w' u| |] eqn:Hrun; simpl; [|exists x; split; [done|apply moved_not]..].
      destruct (calendar_effect c e w w' u Hv Hrun) as [_ Heff]. by eapply connection_moves. }
    exists y. split_and!; [done|done|..]; destruct Hm; simpl; congruence || lia || done.
  - intros Hna. destruct (load_busy o i (store w)) as [|y l]; [done|]. destruct Hb as (z & Hz & Ha); [done|]. congruence.
Qed.

(** Eight places for ever.  Over any calls from a reachable world the connections of an owner that
    are accepted are exactly those added to the owner's list, which is never shortened: with
    those of before they are at most eight, however many were disconnected or expired since. *)
Theorem places_never_freed this w calls o :
  Reach this w → Forall (λ ec : Env * Call, self ec.1 = this ∧ valid ec.1 ec.2) calls →
  let w' := run_calls exec calls w in
  ∃ new, load_ids o (store w') = load_ids o (store w) ++ new ∧ accepted exec (connects o) calls w = Z.of_nat (length new) ∧
    Z.of_nat (length (load_ids o (store w))) + accepted exec (connects o) calls w ≤ 8 ∧ NoDup (load_ids o (store w')).
Proof.
  intros Hw%calendar_reachable Hcalls w'. rewrite Forall_forall in Hcalls.
  set (l0 := load_ids o (store w)).
  destruct (accepted_counts exec (λ w, inv (store w) ∧ ∃ new, load_ids o (store w) = l0 ++ new)
    (λ w, Z.of_nat (length (load_ids o (store w)))) (connects o) calls w) as [[Hi [new Hnew]] Hn]; [|by split; [|exists []; rewrite app_nil_r]|].
  - intros e c w0 w1 u [H0 [new Hnew]] Hin Hrun. destruct (Hcalls _ Hin) as [_ Hv].
    destruct (calendar_effect c e w0 w1 u Hv Hrun) as [_ Heff]. pose proof (calendar_effect_inv _ _ _ _ Hv H0 Heff) as H1.
    assert (load_ids o (store w1) = load_ids o (store w0) ++ (match c with CConnect p i => if decide (p = o) then [i_id i] else [] | _ => [] end)) as Hids.
    { clear -Heff. destruct Heff; rewrite ?app_nil_r; try done. rewrite load_ids_put. case_decide as Hp; [by subst|].
      by rewrite app_nil_r. }
    split_and!; [done| |].
    + rewrite Hids, Hnew, <-app_assoc. eauto.
    + rewrite Hids. rewrite length_app. destruct c; simpl; rewrite ?Nat.add_0_r; try lia.
      case_decide; [rewrite bool_decide_eq_true_2 by done|rewrite bool_decide_eq_false_2 by done]; simpl; lia.
  - exists new. fold w' in Hnew, Hn, Hi. destruct (inv_ids _ Hi o) as (Hnd & Hb & _). rewrite Hnew in Hn, Hb. fold l0 in Hn.
    rewrite length_app in *. split_and!; [done|lia|lia|done].
Qed.
End Theorems.

(** ** Concrete runs *)
Module Runs.
Definition this : Address := addr 0.
Definition olga : Address := addr 1.
Abbreviation Reach := (reachable exec valid this (λ _ _, True) deployed).

Definition at_time (t : Z) : Env := mkEnv t this (λ _, true).
Definition w0 : World unit Store Event := mkWorld tt empty_store [].
Definition google : ConnectionInput := mkInput 7 Google 3 5 6 10000.
(** Out of order, with two windows that touch and one inside another. *)
Definition imported : list AvailableRange := [mkRange 500 600; mkRange 100 200; mkRange 200 250; mkRange 510 520].
Definition sync : Call := CSync olga 7 1 99 imported.
Definition later : list (Env * Call) := [(at_time 30, CFail olga 7 "down"%string); (at_time 31, CConnect olga (mkInput 8 Apple 1 5 6 10000))].
Definition w1 : World unit Store Event := run_calls exec [(at_time 10, CConnect olga google)] w0.
Definition w2 : World unit Store Event := (invoke (exec sync) (at_time 20) w1).1.
Definition w3 : World unit Store Event := run_calls exec later w2.
(** Eight connections, each disconnected at once. *)
Definition come_and_go : list (Env * Call) :=
  flat_map (λ i, [(at_time 10, CConnect olga (mkInput i Outlook 1 5 6 10000)); (at_time 11, CDisconnect olga i)]) (seqZ 1 9).

Lemma calendar_runs calls :
  Forall (λ ec : Env * Call, self ec.1 = this ∧ valid ec.1 ec.2) calls → Reach (run_calls exec calls w0).
Proof. apply reachable_run. by apply reach_init. Qed.

Ltac valid_calls := repeat constructor; simpl; try done; range_lia.

Lemma calendar_w1_reach : Reach w1.
Proof. apply calendar_runs. valid_calls. Qed.
Lemma sync_valid : valid (at_time 20) sync.
Proof. unfold valid, sync, imported. simpl. split; [range_lia|]. split; [range_lia|]. valid_calls. Qed.
Lemma calendar_w2_reach : Reach w2.
Proof. apply reach_call; [apply calendar_w1_reach|done|apply sync_valid]. Qed.

Lemma record_busy_exact_witness :
  (invoke (record_busy olga 7 1 99 []) (at_time 21) w2) = (w2, Returned tt) ∧
  (invoke (record_busy olga 7 1 98 []) (at_time 21) w2).2 = Errored StaleSyncEpoch ∧
  (invoke (record_busy olga 7 2 98 [mkRange 5 5; mkRange 0 1]) (at_time 21) w2).2 = Errored InvalidBusyWindow.
Proof.
  split_and!; (rewrite (record_busy_exact this w2);
    [|apply calendar_w2_reach|unfold valid; simpl; split; [range_lia|split; [range_lia|valid_calls]]|reflexivity]);
    vm_compute; reflexivity.
Defined.

Lemma imported_is_shown_witness :
  ∃ ws, pages_of imported 150 1000 ws ∧
    invoke (busy_windows olga 7 150 1000 1 1) (at_time 40) w3 = (w3, Returned (take 1 (drop 1 ws))) ∧
    take 1 (drop 1 ws) = [mkRange 500 600].
Proof.
  destruct (imported_is_shown this w1 (at_time 20) olga 7 1 99 imported later (at_time 40) 150 1000 1 1 w2) as (ws & Hws & Hr);
    [apply calendar_w1_reach|reflexivity|apply sync_valid|vm_compute; reflexivity|vm_compute; reflexivity|valid_calls|lia..|].
  exists ws. split; [exact Hws|]. split; [exact Hr|]. fold w3 in Hr. vm_compute in Hr. injection Hr as Hr. symmetry. exact Hr.
Defined.

Lemma connection_lifecycle_witness :
  ∃ y, connections (store (invoke (exec (CDisconnect olga 7)) (at_time 30) w2).1) !! (olga, 7) = Some y ∧ status y = Revoked.
Proof.
  destruct (connection_lifecycle this w2 (at_time 30) (CDisconnect olga 7) olga 7 (synced 1 99 20 (connected olga google 10)))
    as [(y & Hy & _ & _ & _ & _ & _) _].
  - apply calendar_w2_reach.
  - unfold valid. simpl. range_lia.
  - vm_compute. reflexivity.
  - exists y. split; [exact Hy|]. vm_compute in Hy. injection Hy as <-. reflexivity.
Defined.

Lemma come_and_go_valid : Forall (λ ec : Env * Call, self ec.1 = this ∧ valid ec.1 ec.2) come_and_go.
Proof. unfold come_and_go. simpl. valid_calls. Qed.

Lemma come_and_go_length : length (load_ids olga (store (run_calls exec come_and_go w0))) = 8%nat.
Proof. vm_compute. reflexivity. Qed.

Lemma places_never_freed_witness :
  accepted exec (connects olga) come_and_go w0 = 8 ∧
  (invoke (connect olga (mkInput 20 Google 1 5 6 10000)) (at_time 50) (run_calls exec come_and_go w0)).2 = Errored TooManyConnections.
Proof.
  split; [|vm_compute; reflexivity].
  destruct (places_never_freed this w0 come_and_go olga) as (new & Hids & Hn & _); [by apply reach_init|apply come_and_go_valid|].
  pose proof come_and_go_length as Hl. cbv zeta in Hids. rewrite Hids in Hl. change (length new = 8%nat) in Hl. by rewrite Hn, Hl.
Defined.
End Runs.
