(* ===== verification/Retention.v ===== *)
(** * A window of retained versions

    A contract may keep the current record of a key, the last [width] of its versions under
    their numbers and the lowest number kept: the flags and parameters of [ScholarshipAdmin]. *)
From S2P Require Import Prelude Machine.

Section Retention.
Context {K A : Type} `{Countable K} (number : A → Z) (width : Z).
Implicit Types (heads : gmap K A) (versions : gmap (K * Z) A) (floors : gmap K Z).

(** The lowest version kept when the current one is [n]. *)
Definition lowest (n : Z) : Z := Z.max 1 (n - width + 1).

(** The kept versions are the current one and those before it down to the floor. *)
Definition retained_ok heads versions floors : Prop :=
  ∀ k, match heads !! k with
  | Some x =>
      1 ≤ number x ≤ u32_max ∧ floors !! k = Some (lowest (number x)) ∧ versions !! (k, number x) = Some x ∧
      ∀ n, match versions !! (k, n) with
           | Some y => number y = n ∧ lowest (number x) ≤ n ≤ number x
           | None => ¬ (lowest (number x) ≤ n ≤ number x)
           end
  | None => floors !! k = None ∧ ∀ n, versions !! (k, n) = None
  end.

(** What is kept once [x] is published under [k]. *)
Definition keep (k : K) (x : A) versions : gmap (K * Z) A :=
  let m := <[(k, number x) := x]> versions in
  if width <? number x then delete (k, number x - width) m else m.
Definition raise_floor (k : K) (x : A) floors : gmap K Z :=
  let m := if number x =? 1 then <[k := 1]> floors else floors in
  if width <? number x then <[k := number x - width + 1]> m else m.

Lemma keep_other k x versions j n : k ≠ j → keep k x versions !! (j, n) = versions !! (j, n).
Proof.
  intros Hk. unfold keep. destruct (width <? number x); rewrite ?lookup_delete_ne, lookup_insert_ne by congruence; done.
Qed.

Lemma raise_floor_other k x floors j : k ≠ j → raise_floor k x floors !! j = floors !! j.
Proof.
  intros Hk. unfold raise_floor. destruct (width <? number x), (number x =? 1); rewrite ?lookup_insert_ne by done; done.
Qed.

(** The version published next is appended; at most the lowest one falls out. *)
Lemma keep_next k x heads versions floors n :
  1 ≤ width → retained_ok heads versions floors → number x = from_option number 0 (heads !! k) + 1 →
  keep k x versions !! (k, n) =
    if decide (n = number x) then Some x else if decide (lowest (number x) ≤ n) then versions !! (k, n) else None.
Proof.
  intros Hw Hok Hn. pose proof (Hok k) as Hk. unfold keep, lowest in *.
  assert (number x ≤ width → ∀ j, j < 1 → versions !! (k, j) = None) as Hlow.
  { intros _ j Hj. destruct (heads !! k) as [y|]; [|apply Hk]. destruct Hk as (_ & _ & _ & Hv). specialize (Hv j).
    destruct (versions !! (k, j)); [lia|done]. }
  assert (∀ j, j < number x - width → versions !! (k, j) = None) as Hout.
  { intros j Hj. destruct (heads !! k) as [y|]; [|apply Hk]. simpl in Hn. destruct Hk as (_ & _ & _ & Hv). specialize (Hv j).
    destruct (versions !! (k, j)); [lia|done]. }
  destruct (Z.ltb_spec width (number x)).
  - rewrite lookup_delete, lookup_insert. repeat case_decide; simplify_eq; try done; try lia; try (exfalso; congruence || lia).
    apply Hout. assert (n ≠ number x - width) by congruence. lia.
  - rewrite lookup_insert. repeat case_decide; simplify_eq; try done; try lia; try (exfalso; congruence || lia). apply Hlow; lia.
Qed.

Lemma retained_next k x heads versions floors :
  1 ≤ width → retained_ok heads versions floors → number x = from_option number 0 (heads !! k) + 1 → number x ≤ u32_max →
  retained_ok (<[k := x]> heads) (keep k x versions) (raise_floor k x floors).
Proof.
  intros Hw Hok Hn Hmax j. rewrite lookup_insert. destruct (decide (k = j)) as [<-|Hj].
  - pose proof (Hok k) as Hk.
    assert (1 ≤ number x) by (destruct (heads !! k); simpl in Hn; lia).
    split_and!; [lia|lia| | |].
    + unfold raise_floor, lowest. destruct (Z.ltb_spec width (number x)); [rewrite lookup_insert_eq; f_equal; lia|].
      destruct (Z.eqb_spec (number x) 1) as [->|]; [rewrite lookup_insert_eq; f_equal; lia|].
      destruct (heads !! k) as [y|]; simpl in Hn; [|lia]. destruct Hk as (_ & -> & _). unfold lowest. f_equal. lia.
    + rewrite (keep_next k x heads versions floors) by done. by rewrite decide_True.
    + intros n. rewrite (keep_next k x heads versions floors) by done. case_decide as Hx; [subst n; unfold lowest; lia|].
      case_decide as Hl; [|lia]. destruct (heads !! k) as [y|]; simpl in Hn.
      * destruct Hk as (_ & _ & _ & Hv). specialize (Hv n). unfold lowest in *. destruct (versions !! (k, n)); lia.
      * destruct Hk as [_ Hv]. rewrite Hv. unfold lowest in Hl. lia.
  - rewrite raise_floor_other by done. pose proof (Hok j) as Hk.
    destruct (heads !! j); [|split; [apply Hk|intros n; rewrite keep_other by done; apply Hk]].
    destruct Hk as (? & ? & ? & Hv). rewrite keep_other by done. split_and!; [lia..|done|done|].
    intros n. rewrite keep_other by done. apply Hv.
Qed.

(** A kept version never changes. *)
Lemma keep_same k x heads versions floors j n y y' :
  1 ≤ width → retained_ok heads versions floors → number x = from_option number 0 (heads !! k) + 1 →
  versions !! (j, n) = Some y → keep k x versions !! (j, n) = Some y' → y' = y.
Proof.
  intros Hw Hok Hn Hy. destruct (decide (k = j)) as [<-|Hj]; [|rewrite keep_other by done; congruence].
  rewrite (keep_next k x heads versions floors) by done. pose proof (Hok k) as Hk.
  case_decide as Hx; [|case_decide; congruence]. exfalso. destruct (heads !! k) as [z|]; simpl in Hn.
  - destruct Hk as (_ & _ & _ & Hv). specialize (Hv n). rewrite Hy in Hv. lia.
  - destruct Hk as [_ Hv]. congruence.
Qed.

Lemma retained_empty : retained_ok ∅ ∅ ∅.
Proof. done. Qed.
End Retention.
