(* ===== verification/ScholarshipAdmin.v ===== *)
(** * Rollout flags and parameters ([scholarship-admin/src/lib.rs])

    An administrator sets three-state flags per environment and validated parameters per kind
    and subject; every change is a new version, the last 32 of each key are kept, and a rollback
    republishes a kept one.  Anyone can pin the present state of a flag for a workflow. *)
From S2P Require Import Prelude Machine Host Retention.

Definition CONTRACT_VERSION : Z := 1.
Definition MAX_VERSIONS_PER_KEY : Z := 32.
Definition MAX_COHORTS : Z := 32.
Definition MAX_CONFIG_KEYS : Z := 2000.
Definition MAX_PINS : Z := 5000.

Inductive ContractError :=
| NotInitialized | AlreadyInitialized | NotAdmin | UnknownFlag | FlagNotConfigured | TooManyCohorts
| InvalidCohorts | UnknownConfigKind | ConfigNotFound | TooManyConfigKeys | InvalidLimit | InvalidDeadline
| InvalidThreshold | EmptyReference | VersionNotFound | InvalidProposal | PinNotFound | TooManyPins.

Module Flag.
Inductive Flag := Discovery | Applications | Reviews | Awards | Payouts.
#[export] Instance Flag_eq_dec : EqDecision Flag.
Proof. solve_decision. Defined.
Definition all : list Flag := [Discovery; Applications; Reviews; Awards; Payouts].
Definition name (f : Flag) : Symbol :=
  match f with
  | Discovery => "discovery" | Applications => "applications" | Reviews => "reviews" | Awards => "awards"
  | Payouts => "payouts"
  end%string.
#[export] Instance Flag_countable : Countable Flag.
Proof.
  refine (inj_countable' (λ f, match f with Discovery => 1 | Applications => 2 | Reviews => 3 | Awards => 4 | Payouts => 5 end)
    (λ n, if n =? 1 then Discovery else if n =? 2 then Applications else if n =? 3 then Reviews
          else if n =? 4 then Awards else Payouts) _).
  by intros [].
Defined.
End Flag.
Export (hints) Flag.
Abbreviation Flag := Flag.Flag (only parsing).

Inductive Environment := Testnet | Staging | Production.
#[export] Instance Environment_eq_dec : EqDecision Environment.
Proof. solve_decision. Defined.
#[export] Instance Environment_countable : Countable Environment.
Proof.
  refine (inj_countable' (λ x, match x with Testnet => 1 | Staging => 2 | Production => 3 end)
    (λ n, if n =? 1 then Testnet else if n =? 2 then Staging else Production) _).
  by intros [].
Defined.

Inductive FlagState := Off | On | CohortsOnly.
#[export] Instance FlagState_eq_dec : EqDecision FlagState.
Proof. solve_decision. Defined.

Record FlagConfig := mkFlag {
  fc_flag : Flag; environment : Environment; state : FlagState; cohorts : list Symbol; fc_version : Z;
  effective_at : Z; fc_updated_by : Address
}.

Inductive ConfigKind := Limits | Deadline | Provider | Asset | Template | RiskThreshold.
#[export] Instance ConfigKind_eq_dec : EqDecision ConfigKind.
Proof. solve_decision. Defined.
#[export] Instance ConfigKind_countable : Countable ConfigKind.
Proof.
  refine (inj_countable'
    (λ k, match k with Limits => 1 | Deadline => 2 | Provider => 3 | Asset => 4 | Template => 5 | RiskThreshold => 6 end)
    (λ n, if n =? 1 then Limits else if n =? 2 then Deadline else if n =? 3 then Provider
          else if n =? 4 then Asset else if n =? 5 then Template else RiskThreshold) _).
  by intros [].
Defined.

Record AdminConfig := mkConfig {
  ac_kind : ConfigKind; subject : BytesN32; a : Z; b : Z; ref_hash : BytesN32; label : Symbol; ac_version : Z;
  updated_at : Z; ac_updated_by : Address
}.

Inductive Event :=
| flag (f : Symbol) (env : Environment) (version : Z) (s : FlagState) (previous : Z) (by_ : Address) (t : Z)
| cfg (k : ConfigKind) (s : BytesN32) (version previous : Z) (by_ : Address) (t : Z)
| rbck (k : ConfigKind) (s : BytesN32) (version new_version : Z) (by_ : Address) (t : Z).

Record Store := mkStore {
  admin : option Address;
  flags : gmap (Flag * Environment) FlagConfig;
  flag_versions : gmap (Flag * Environment * Z) FlagConfig;
  flag_floors : gmap (Flag * Environment) Z;
  configs : gmap (ConfigKind * Z) AdminConfig;
  config_versions : gmap (ConfigKind * Z * Z) AdminConfig;
  config_floors : gmap (ConfigKind * Z) Z;
  config_index : gmap ConfigKind (list Z);
  pins : gmap (Z * Flag * Environment) FlagState;
  config_key_count : Z;
  pin_count : Z
}.

Definition put_admin (x : Address) (st : Store) : Store :=
  mkStore (Some x) (flags st) (flag_versions st) (flag_floors st) (configs st) (config_versions st) (config_floors st)
    (config_index st) (pins st) (config_key_count st) (pin_count st).
Definition put_key_count (n : Z) (st : Store) : Store :=
  mkStore (admin st) (flags st) (flag_versions st) (flag_floors st) (configs st) (config_versions st) (config_floors st)
    (config_index st) (pins st) n (pin_count st).
Definition put_pin_count (n : Z) (st : Store) : Store :=
  mkStore (admin st) (flags st) (flag_versions st) (flag_floors st) (configs st) (config_versions st) (config_floors st)
    (config_index st) (pins st) (config_key_count st) n.
Definition put_pin (k : Z * Flag * Environment) (s : FlagState) (st : Store) : Store :=
  mkStore (admin st) (flags st) (flag_versions st) (flag_floors st) (configs st) (config_versions st) (config_floors st)
    (config_index st) (<[k := s]> (pins st)) (config_key_count st) (pin_count st).
Definition put_index (k : ConfigKind) (l : list Z) (st : Store) : Store :=
  mkStore (admin st) (flags st) (flag_versions st) (flag_floors st) (configs st) (config_versions st) (config_floors st)
    (<[k := l]> (config_index st)) (pins st) (config_key_count st) (pin_count st).

(** The writes of a flag: the current record, its version, the floor of a first version. *)
Definition put_flag (x : FlagConfig) (st : Store) : Store :=
  let k := (fc_flag x, environment x) in
  mkStore (admin st) (<[k := x]> (flags st)) (<[(k, fc_version x) := x]> (flag_versions st))
    (if fc_version x =? 1 then <[k := 1]> (flag_floors st) else flag_floors st)
    (configs st) (config_versions st) (config_floors st) (config_index st) (pins st) (config_key_count st) (pin_count st).
(** Dropping the oldest kept version. *)
Definition evict_flag (k : Flag * Environment) (stale floor : Z) (st : Store) : Store :=
  mkStore (admin st) (flags st) (delete (k, stale) (flag_versions st)) (<[k := floor]> (flag_floors st))
    (configs st) (config_versions st) (config_floors st) (config_index st) (pins st) (config_key_count st) (pin_count st).
Definition put_config (x : AdminConfig) (st : Store) : Store :=
  let k := (ac_kind x, subject x) in
  mkStore (admin st) (flags st) (flag_versions st) (flag_floors st)
    (<[k := x]> (configs st)) (<[(k, ac_version x) := x]> (config_versions st))
    (if ac_version x =? 1 then <[k := 1]> (config_floors st) else config_floors st)
    (config_index st) (pins st) (config_key_count st) (pin_count st).
Definition evict_config (k : ConfigKind * Z) (stale floor : Z) (st : Store) : Store :=
  mkStore (admin st) (flags st) (flag_versions st) (flag_floors st)
    (configs st) (delete (k, stale) (config_versions st)) (<[k := floor]> (config_floors st))
    (config_index st) (pins st) (config_key_count st) (pin_count st).

Definition index_of (k : ConfigKind) (st : Store) : list Z := default [] (config_index st !! k).

(** The walk of [check_cohorts] with the names seen before. *)
Fixpoint check_names (seen l : list Symbol) : result ContractError unit :=
  match l with
  | [] => Ok tt
  | c :: l =>
      if bool_decide (c = ""%string) then Err InvalidCohorts
      else if bool_decide (c ∈ seen) then Err InvalidCohorts
      else check_names (seen ++ [c]) l
  end.

Definition check_cohorts (l : list Symbol) (s : FlagState) : result ContractError unit :=
  if MAX_COHORTS <? Z.of_nat (length l) then Err TooManyCohorts
  else let? _ := check_names [] l in
    if bool_decide (s = CohortsOnly) && bool_decide (l = []) then Err InvalidCohorts else Ok tt.

Definition validate (k : ConfigKind) (x y : Z) (h : BytesN32) : result ContractError unit :=
  match k with
  | Limits => if (x <=? 0) || (y <? x) then Err InvalidLimit else Ok tt
  | Deadline => if (x <=? 0) || (y <=? 0) || (y <? x) then Err InvalidDeadline else Ok tt
  | Provider => if h =? 0 then Err EmptyReference else Ok tt
  | Asset => if x <=? 0 then Err InvalidLimit else Ok tt
  | Template => Ok tt
  | RiskThreshold => if (x <? 0) || (y <? x) then Err InvalidThreshold else Ok tt
  end.

Section Contract.
Context {L : Type}.
Abbreviation M := (Contract L Store Event ContractError).

Definition initialize (x : Address) : M unit :=
  o <- load admin ;;
  reject_if (bool_decide (is_Some o)) AlreadyInitialized ;;;
  require_auth x ;;;
  save (put_admin x).

Definition require_admin (x : Address) : M unit :=
  o <- load admin ;; reject_if (negb (bool_decide (o = Some x))) NotAdmin.

Definition reserve_config_key : M unit :=
  count <- load config_key_count ;;
  reject_if (MAX_CONFIG_KEYS <=? count) TooManyConfigKeys ;;;
  n <- ok_or (checked_add_u64 count 1) InvalidLimit ;;
  save (put_key_count n).

Definition reserve_pin : M unit :=
  count <- load pin_count ;;
  reject_if (MAX_PINS <=? count) TooManyPins ;;;
  n <- ok_or (checked_add_u64 count 1) InvalidLimit ;;
  save (put_pin_count n).

Definition index_config (k : ConfigKind) (s : BytesN32) : M unit :=
  index <- load (index_of k) ;;
  save (put_index k (if bool_decide (s ∈ index) then index else index ++ [s])).

Definition save_flag (x : FlagConfig) : M unit :=
  save (put_flag x) ;;;
  if MAX_VERSIONS_PER_KEY <? fc_version x then
    stale <- ok_or (checked_sub_u32 (fc_version x) MAX_VERSIONS_PER_KEY) InvalidLimit ;;
    floor <- ok_or (checked_add_u32 stale 1) InvalidLimit ;;
    save (evict_flag (fc_flag x, environment x) stale floor)
  else ret tt.

Definition save_config (x : AdminConfig) : M unit :=
  save (put_config x) ;;;
  if MAX_VERSIONS_PER_KEY <? ac_version x then
    stale <- ok_or (checked_sub_u32 (ac_version x) MAX_VERSIONS_PER_KEY) InvalidLimit ;;
    floor <- ok_or (checked_add_u32 stale 1) InvalidLimit ;;
    save (evict_config (ac_kind x, subject x) stale floor)
  else ret tt.

Definition set_flag (caller : Address) (f : Flag) (v : Environment) (s : FlagState) (l : list Symbol) : M Z :=
  require_auth caller ;;;
  require_admin caller ;;;
  lift (check_cohorts l s) ;;;
  previous <- load (λ st, flags st !! (f, v)) ;;
  (match previous with None => reserve_config_key | Some _ => ret tt end) ;;;
  version <- (match previous with Some p => ok_or (checked_add_u32 (fc_version p) 1) InvalidLimit | None => ret 1 end) ;;
  t <- now ;;
  save_flag (mkFlag f v s l version t caller) ;;;
  publish (flag (Flag.name f) v version s (from_option fc_version 0 previous) caller t) ;;;
  ret version.

Definition is_enabled (f : Flag) (v : Environment) (cohort : Symbol) : M bool :=
  o <- load (λ st, flags st !! (f, v)) ;;
  ret (match o with
       | None => false
       | Some c => match state c with Off => false | On => true | CohortsOnly => bool_decide (cohort ∈ cohorts c) end
       end).

Definition get_flag (f : Flag) (v : Environment) : M FlagConfig :=
  o <- load admin ;;
  x <- ok_or o NotInitialized ;;
  c <- load (λ st, flags st !! (f, v)) ;;
  ret (default (mkFlag f v Off [] 0 0 x) c).

Definition list_flags (v : Environment) : M (list FlagConfig) :=
  for_in Flag.all [] (λ f out, c <- get_flag f v ;; ret (out ++ [c])).

Definition flag_version (f : Flag) (v : Environment) (n : Z) : M FlagConfig :=
  o <- load (λ st, flag_versions st !! (f, v, n)) ;; ok_or o VersionNotFound.
Definition flag_version_floor (f : Flag) (v : Environment) : M Z := load (λ st, default 1 (flag_floors st !! (f, v))).

Definition pin (f : Flag) (v : Environment) (workflow : BytesN32) : M FlagState :=
  c <- get_flag f v ;;
  o <- load (λ st, pins st !! (workflow, f, v)) ;;
  (if bool_decide (is_Some o) then ret tt else reserve_pin) ;;;
  save (put_pin (workflow, f, v) (state c)) ;;;
  ret (state c).

Definition pinned_state (f : Flag) (v : Environment) (workflow : BytesN32) : M FlagState :=
  o <- load (λ st, pins st !! (workflow, f, v)) ;; ok_or o PinNotFound.

Definition set_config (caller : Address) (k : ConfigKind) (s : BytesN32) (x y : Z) (h : BytesN32) (l : Symbol) : M Z :=
  require_auth caller ;;;
  require_admin caller ;;;
  lift (validate k x y h) ;;;
  previous <- load (λ st, configs st !! (k, s)) ;;
  (match previous with None => reserve_config_key ;;; index_config k s | Some _ => ret tt end) ;;;
  version <- (match previous with Some p => ok_or (checked_add_u32 (ac_version p) 1) InvalidLimit | None => ret 1 end) ;;
  t <- now ;;
  save_config (mkConfig k s x y h l version t caller) ;;;
  publish (cfg k s version (from_option ac_version 0 previous) caller t) ;;;
  ret version.

Definition preview_config (k : ConfigKind) (x y : Z) (h : BytesN32) : M unit := lift (validate k x y h).

Definition rollback_config (caller : Address) (k : ConfigKind) (s : BytesN32) (version : Z) : M Z :=
  require_auth caller ;;;
  require_admin caller ;;;
  o <- load (λ st, config_versions st !! (k, s, version)) ;;
  target <- ok_or o VersionNotFound ;;
  o <- load (λ st, configs st !! (k, s)) ;;
  current <- ok_or o ConfigNotFound ;;
  new_version <- ok_or (checked_add_u32 (ac_version current) 1) InvalidLimit ;;
  t <- now ;;
  save_config (mkConfig (ac_kind target) (subject target) (a target) (b target) (ref_hash target) (label target)
    new_version t caller) ;;;
  publish (rbck k s version new_version caller t) ;;;
  ret new_version.

Definition get_config (k : ConfigKind) (s : BytesN32) : M AdminConfig :=
  o <- load (λ st, configs st !! (k, s)) ;; ok_or o ConfigNotFound.
Definition config_version (k : ConfigKind) (s : BytesN32) (n : Z) : M AdminConfig :=
  o <- load (λ st, config_versions st !! (k, s, n)) ;; ok_or o VersionNotFound.
Definition config_version_floor (k : ConfigKind) (s : BytesN32) : M Z := load (λ st, default 1 (config_floors st !! (k, s))).

(** A subject without a record is left out. *)
Definition list_config (k : ConfigKind) : M (list AdminConfig) :=
  load (λ st, omap (λ s, configs st !! (k, s)) (index_of k st)).

Definition tracked_config_keys : M Z := load config_key_count.
Definition tracked_pins : M Z := load pin_count.
Definition version : M Z := ret CONTRACT_VERSION.

(** ** Calls *)

Inductive Call :=
| CInitialize (x : Address)
| CSetFlag (caller : Address) (f : Flag) (v : Environment) (s : FlagState) (l : list Symbol)
| CPin (f : Flag) (v : Environment) (workflow : BytesN32)
| CSetConfig (caller : Address) (k : ConfigKind) (s : BytesN32) (x y : Z) (h : BytesN32) (l : Symbol)
| CRollback (caller : Address) (k : ConfigKind) (s : BytesN32) (n : Z).

Definition exec (c : Call) : M unit :=
  match c with
  | CInitialize x => initialize x
  | CSetFlag x f v s l => ignore (set_flag x f v s l)
  | CPin f v i => ignore (pin f v i)
  | CSetConfig x k s n m h l => ignore (set_config x k s n m h l)
  | CRollback x k s n => ignore (rollback_config x k s n)
  end.
End Contract.

(** The declared widths of the arguments. *)
Definition valid (e : Env) (c : Call) : Prop :=
  0 ≤ timestamp e ≤ u64_max ∧
  match c with
  | CSetConfig _ _ _ x y _ _ => in_range i128_min i128_max x = true ∧ in_range i128_min i128_max y = true
  | CRollback _ _ _ n => 0 ≤ n ≤ u32_max
  | _ => True
  end.
