(* ===== verification/ScholarshipAdminTheorems.v ===== *)
(** * Rollout flags and parameters: invariant and properties

    What each call that returns has checked and does, and the invariant: the kept versions of
    every key are a window that ends at the current one, every record kept passed its checks,
    the counters count the keys and the pins, the index lists the configured subjects.

    History: the kept versions are a window, what was published is never rewritten, a rollback
    restores a kept version under a new number.  Flags fail closed; parameters and their preview
    agree on every branch; the lists and counters are exact; pins outlive changes of the flag but
    not another pin. *)
From S2P Require Import Prelude Machine Host Retention ScholarshipAdmin.

(** ** The checks *)

(** Non-empty names, each once, at most 32; some of them where they decide. *)
Definition cohorts_ok (l : list Symbol) (s : FlagState) : Prop :=
  Z.of_nat (length l) ≤ 32 ∧ NoDup l ∧ ""%string ∉ l ∧ (s = CohortsOnly → l ≠ []).

#[export] Instance cohorts_ok_dec l s : Decision (cohorts_ok l s).
Proof. unfold cohorts_ok. apply _. Defined.

Lemma check_names_iff seen l :
  check_names seen l = Ok tt ↔ NoDup l ∧ ""%string ∉ l ∧ ∀ c, c ∈ l → c ∉ seen.
Proof.
  revert seen. induction l as [|c l IH]; intros seen; simpl.
  { split; [|done]. intros _. split_and!; [constructor|apply not_elem_of_nil|]. intros c Hc. by apply elem_of_nil in Hc. }
  rewrite NoDup_cons. case_bool_decide as He.
  { split; [done|]. intros (_ & Hn & _). subst c. destruct Hn. by left. }
  case_bool_decide as Hs.
  { split; [done|]. intros (_ & _ & Hn). destruct (Hn c); [by left|done]. }
  rewrite IH. setoid_rewrite elem_of_app. setoid_rewrite list_elem_of_singleton. setoid_rewrite elem_of_cons.
  split; [intros (Hnd & Hne & Hns)|intros ([Hnc Hnd] & Hne & Hns)]; split_and!; try done; try naive_solver.
Qed.

Lemma check_names_err seen l err : check_names seen l = Err err → err = InvalidCohorts.
Proof.
  revert seen. induction l as [|c l IH]; intros seen; simpl; [done|].
  repeat case_bool_decide; try by intros [= <-]. apply IH.
Qed.

(** The check of the cohorts is exactly these bounds. *)
Lemma check_cohorts_exact l s :
  check_cohorts l s =
    if 32 <? Z.of_nat (length l) then Err TooManyCohorts
    else if decide (cohorts_ok l s) then Ok tt else Err InvalidCohorts.
Proof.
  unfold check_cohorts, MAX_COHORTS. destruct (Z.ltb_spec 32 (Z.of_nat (length l))) as [|Hlen]; [done|].
  destruct (check_names [] l) as [[]|err] eqn:Hc; cbn [result_bind].
  - apply check_names_iff in Hc as (Hnd & Hne & _).
    destruct (decide (s = CohortsOnly ∧ l = [])) as [[-> ->]|Hs].
    + rewrite decide_False; [done|]. intros (_ & _ & _ & Hn). by apply Hn.
    + rewrite decide_True by (split_and!; try done; intros -> ->; by apply Hs).
      rewrite <-bool_decide_and, bool_decide_eq_false_2 by done. done.
  - rewrite (check_names_err _ _ _ Hc). rewrite decide_False; [done|]. intros (_ & Hnd & Hne & _).
    assert (check_names [] l = Ok tt) as Hok; [|congruence]. apply check_names_iff. split_and!; try done.
    intros c _. apply not_elem_of_nil.
Qed.

(** What a parameter of a kind must satisfy. *)
Definition config_ok (k : ConfigKind) (x y h : Z) : Prop :=
  match k with
  | Limits => 0 < x ≤ y
  | Deadline => 0 < x ≤ y
  | Provider => h ≠ 0
  | Asset => 0 < x
  | Template => True
  | RiskThreshold => 0 ≤ x ≤ y
  end.

#[export] Instance config_ok_dec k x y h : Decision (config_ok k x y h).
Proof. destruct k; simpl; apply _. Defined.

Definition config_error (k : ConfigKind) : ContractError :=
  match k with
  | Limits | Asset => InvalidLimit
  | Deadline => InvalidDeadline
  | Provider => EmptyReference
  | Template => InvalidProposal
  | RiskThreshold => InvalidThreshold
  end.

Lemma guard_exact (c : bool) (P : Prop) `{Decision P} (err : ContractError) :
  (c = false ↔ P) → (if c then Err err else Ok tt) = if decide P then Ok tt else Err err.
Proof. intros Hc. destruct c; [rewrite decide_False; [done|]|rewrite decide_True; [done|]]; naive_solver. Qed.

Lemma validate_exact k x y h : validate k x y h = if decide (config_ok k x y h) then Ok tt else Err (config_error k).
Proof.
  destruct k; unfold validate; try (apply guard_exact; unfold config_ok; rewrite ?orb_false_iff, ?Z.leb_gt, ?Z.ltb_ge, ?Z.eqb_neq; lia).
  by rewrite decide_True.
Qed.

(** ** What the calls do *)

Abbreviation keep_flag := (keep fc_version MAX_VERSIONS_PER_KEY).
Abbreviation keep_config := (keep ac_version MAX_VERSIONS_PER_KEY).

Definition store_flag (x : FlagConfig) (st : Store) : Store :=
  let k := (fc_flag x, environment x) in
  mkStore (admin st) (<[k := x]> (flags st)) (keep_flag k x (flag_versions st))
    (raise_floor fc_version MAX_VERSIONS_PER_KEY k x (flag_floors st))
    (configs st) (config_versions st) (config_floors st) (config_index st) (pins st) (config_key_count st) (pin_count st).
Definition store_config (x : AdminConfig) (st : Store) : Store :=
  let k := (ac_kind x, subject x) in
  mkStore (admin st) (flags st) (flag_versions st) (flag_floors st)
    (<[k := x]> (configs st)) (keep_config k x (config_versions st))
    (raise_floor ac_version MAX_VERSIONS_PER_KEY k x (config_floors st))
    (config_index st) (pins st) (config_key_count st) (pin_count st).

(** A new key is counted, and a new subject listed. *)
Definition count_flag (k : Flag * Environment) (st : Store) : Store :=
  match flags st !! k with None => put_key_count (config_key_count st + 1) st | Some _ => st end.
Definition count_config (k : ConfigKind) (s : Z) (st : Store) : Store :=
  match configs st !! (k, s) with
  | None =>
      put_index k (if bool_decide (s ∈ index_of k st) then index_of k st else index_of k st ++ [s])
        (put_key_count (config_key_count st + 1) st)
  | Some _ => st
  end.
Definition room (n : Z) {A} (o : option A) : Prop := o = None → n < MAX_CONFIG_KEYS.

Definition next_flag (st : Store) (f : Flag) (v : Environment) : Z := from_option fc_version 0 (flags st !! (f, v)) + 1.
Definition next_config (st : Store) (k : ConfigKind) (s : Z) : Z := from_option ac_version 0 (configs st !! (k, s)) + 1.
Definition flag_now (st : Store) (f : Flag) (v : Environment) : FlagState := from_option state Off (flags st !! (f, v)).

Inductive effect (e : Env) (st : Store) : Call → Store → Prop :=
| E_initialize x : admin st = None → authorized e x = true → effect e st (CInitialize x) (put_admin x st)
| E_flag x f v s l :
    admin st = Some x → authorized e x = true → cohorts_ok l s → room (config_key_count st) (flags st !! (f, v)) →
    next_flag st f v ≤ u32_max →
    effect e st (CSetFlag x f v s l) (store_flag (mkFlag f v s l (next_flag st f v) (timestamp e) x) (count_flag (f, v) st))
| E_pin f v i x :
    admin st = Some x → (pins st !! (i, f, v) = None → pin_count st < MAX_PINS) →
    effect e st (CPin f v i)
      (put_pin (i, f, v) (flag_now st f v)
         (match pins st !! (i, f, v) with None => put_pin_count (pin_count st + 1) st | Some _ => st end))
| E_config x k s n m h l :
    admin st = Some x → authorized e x = true → config_ok k n m h → room (config_key_count st) (configs st !! (k, s)) →
    next_config st k s ≤ u32_max →
    effect e st (CSetConfig x k s n m h l)
      (store_config (mkConfig k s n m h l (next_config st k s) (timestamp e) x) (count_config k s st))
| E_rollback x k s n c y :
    admin st = Some x → authorized e x = true → config_versions st !! (k, s, n) = Some c → configs st !! (k, s) = Some y →
    next_config st k s ≤ u32_max →
    effect e st (CRollback x k s n)
      (store_config (mkConfig (ac_kind c) (subject c) (a c) (b c) (ref_hash c) (label c) (next_config st k s) (timestamp e) x) st).

(** ** The invariant *)

Record inv (st : Store) : Prop := {
  inv_flags : retained_ok fc_version MAX_VERSIONS_PER_KEY (flags st) (flag_versions st) (flag_floors st);
  inv_configs : retained_ok ac_version MAX_VERSIONS_PER_KEY (configs st) (config_versions st) (config_floors st);
  inv_flag_records k n x : flag_versions st !! (k, n) = Some x →
    (fc_flag x, environment x) = k ∧ cohorts_ok (cohorts x) (state x);
  inv_config_records k n x : config_versions st !! (k, n) = Some x →
    (ac_kind x, subject x) = k ∧ config_ok (ac_kind x) (a x) (b x) (ref_hash x);
  inv_index k : NoDup (index_of k st) ∧ ∀ s, s ∈ index_of k st ↔ is_Some (configs st !! (k, s));
  inv_keys : config_key_count st = Z.of_nat (size (flags st)) + Z.of_nat (size (configs st)) ∧ config_key_count st ≤ 2000;
  inv_pins : pin_count st = Z.of_nat (size (pins st)) ∧ pin_count st ≤ 5000
}.

Section Effects.
Context {L : Type}.
Abbreviation W := (World L Store Event).
Abbreviation M := (Contract L Store Event ContractError).
Implicit Types (w : W).

Lemma save_flag_run x e w :
  1 ≤ fc_version x ≤ u32_max →
  (save_flag x : M unit) e w = Done (mkWorld (ledger w) (store_flag x (store w)) (log w)) tt.
Proof.
  intros Hv. unfold save_flag, store_flag, keep, raise_floor. cbv [bind save ok_or ret fail].
  destruct (Z.ltb_spec MAX_VERSIONS_PER_KEY (fc_version x)); [|done].
  unfold checked_sub_u32, checked_add_u32, MAX_VERSIONS_PER_KEY in *. rewrite !checked_in by range_lia. done.
Qed.

Lemma save_config_run x e w :
  1 ≤ ac_version x ≤ u32_max →
  (save_config x : M unit) e w = Done (mkWorld (ledger w) (store_config x (store w)) (log w)) tt.
Proof.
  intros Hv. unfold save_config, store_config, keep, raise_floor. cbv [bind save ok_or ret fail].
  destruct (Z.ltb_spec MAX_VERSIONS_PER_KEY (ac_version x)); [|done].
  unfold checked_sub_u32, checked_add_u32, MAX_VERSIONS_PER_KEY in *. rewrite !checked_in by range_lia. done.
Qed.

Lemma count_flag_run f v e w w' u :
  ((match flags (store w) !! (f, v) with None => reserve_config_key | Some _ => ret tt end) : M unit) e w = Done w' u →
  w' = mkWorld (ledger w) (count_flag (f, v) (store w)) (log w) ∧ room (config_key_count (store w)) (flags (store w) !! (f, v)).
Proof.
  unfold count_flag, room, reserve_config_key. intros Hrun. destruct (flags (store w) !! (f, v)) eqn:Hf; run_inv.
  - by destruct w.
  - bool_prop. checked_prop. done.
Qed.

Lemma count_config_run k s e w w' u :
  ((match configs (store w) !! (k, s) with None => reserve_config_key ;;; index_config k s | Some _ => ret tt end) : M unit) e w =
    Done w' u →
  w' = mkWorld (ledger w) (count_config k s (store w)) (log w) ∧ room (config_key_count (store w)) (configs (store w) !! (k, s)).
Proof.
  unfold count_config, room, reserve_config_key, index_config. intros Hrun. destruct (configs (store w) !! (k, s)) eqn:Hf; run_inv.
  - by destruct w.
  - bool_prop. checked_prop. done.
Qed.

(** The number of the next version. *)
Lemma next_run {A} (number : A → Z) (o : option A) e w w' n :
  ((match o with Some p => ok_or (checked_add_u32 (number p) 1) InvalidLimit | None => ret 1 end) : M Z) e w = Done w' n →
  w' = w ∧ n = from_option number 0 o + 1 ∧ n ≤ u32_max.
Proof. destruct o; intros Hrun; run_inv; checked_prop; simpl; split_and!; try done; range_lia. Qed.

Lemma next_positive {K A} `{Countable K} (number : A → Z) width (heads : gmap K A) versions floors k :
  retained_ok number width heads versions floors → 1 ≤ from_option number 0 (heads !! k) + 1.
Proof. intros Hok. specialize (Hok k). destruct (heads !! k); simpl; lia. Qed.

Lemma admin_effect c e w w' u :
  inv (store w) → (exec c : M unit) e w = Done w' u → ledger w' = ledger w ∧ effect e (store w) c (store w').
Proof.
  intros Hi Hrun. destruct c as [x|x f v s l|f v i|x k s n m h l|x k s n]; simpl in Hrun;
    try (apply ignore_done in Hrun as [? Hrun]).
  - unfold initialize in Hrun. run_inv. bool_prop. split; [done|]. apply E_initialize; [by apply eq_None_not_Some|done].
  - unfold set_flag, require_admin in Hrun. run_inv. bool_prop.
    match goal with H : check_cohorts l s = Ok _ |- _ => rewrite check_cohorts_exact in H; rename H into Hc end.
    destruct (32 <? _); [done|]. case_decide as Hok; [|done]. clear Hc.
    match goal with H : _ = Done ?w1 _ |- _ => apply count_flag_run in H as [-> Hroom] end.
    match goal with H : _ = Done ?w1 ?n |- _ => apply next_run in H as (-> & -> & Hmax) end.
    match goal with H : save_flag _ _ _ = _ |- _ => rewrite save_flag_run in H; [injection H as <-|] end.
    + split; [done|]. by apply E_flag.
    + simpl. pose proof (next_positive _ _ _ _ _ (f, v) (inv_flags _ Hi)). lia.
  - unfold pin, get_flag, reserve_pin in Hrun. run_inv.
    match goal with H : admin _ = Some ?y |- _ => rename H into Ha end.
    assert (∀ c : FlagConfig, state (default c (flags (store w) !! (f, v))) = from_option state (state c) (flags (store w) !! (f, v)))
      as Hst by (by destruct (flags (store w) !! (f, v))).
    rewrite Hst in *. clear Hst.
    destruct (pins (store w) !! (i, f, v)) as [y|] eqn:Hp.
    + rewrite bool_decide_eq_true_2 in * by (by eexists). run_inv. split; [done|].
      pose proof (E_pin e (store w) f v i _ Ha) as He. rewrite Hp in He. by apply He.
    + rewrite bool_decide_eq_false_2 in * by (by intros [? ?]). run_inv. bool_prop. checked_prop. split; [done|].
      pose proof (E_pin e (store w) f v i _ Ha) as He. rewrite Hp in He. by apply He.
  - unfold set_config, require_admin in Hrun. run_inv. bool_prop.
    match goal with H : validate _ _ _ _ = Ok _ |- _ => rewrite validate_exact in H; rename H into Hc end.
    case_decide as Hok; [|done]. clear Hc.
    match goal with H : _ = Done ?w1 _ |- _ => apply count_config_run in H as [-> Hroom] end.
    match goal with H : _ = Done ?w1 ?n |- _ => apply next_run in H as (-> & -> & Hmax) end.
    match goal with H : save_config _ _ _ = _ |- _ => rewrite save_config_run in H; [injection H as <-|] end.
    + split; [done|]. by apply E_config.
    + simpl. pose proof (next_positive _ _ _ _ _ (k, s) (inv_configs _ Hi)). lia.
  - unfold rollback_config, require_admin in Hrun. run_inv. bool_prop. checked_prop.
    match goal with H : configs _ !! _ = Some ?y |- _ => rename H into Hy; rename y into cur end.
    match goal with H : config_versions _ !! _ = Some ?y |- _ => rename H into Hv end.
    assert (ac_version cur + 1 = next_config (store w) k s) as Hn by (unfold next_config; by rewrite Hy).
    match goal with H : save_config _ _ _ = _ |- _ => rewrite save_config_run in H; [injection H as <-|] end.
    + split; [done|]. simpl. rewrite Hn. eapply E_rollback; try done. rewrite <-Hn. lia.
    + simpl. rewrite Hn. pose proof (next_positive _ _ _ _ _ (k, s) (inv_configs _ Hi)). unfold next_config in *. range_lia.
Qed.
End Effects.

(** ** The calls keep the invariant *)

Lemma keep_records {K A} `{Countable K} (number : A → Z) (width : Z) (P : K → A → Prop) (k : K) (x : A) (versions : gmap (K * Z) A) :
  (∀ j n y, versions !! (j, n) = Some y → P j y) → P k x →
  ∀ j n y, keep number width k x versions !! (j, n) = Some y → P j y.
Proof.
  intros Hall Hx j n y. unfold keep. destruct (width <? number x); rewrite ?lookup_delete, lookup_insert;
    repeat case_decide; intros ?; simplify_eq; eauto.
Qed.

Lemma heads_kept {K A} `{Countable K} (number : A → Z) width (heads : gmap K A) versions floors k x :
  retained_ok number width heads versions floors → heads !! k = Some x → versions !! (k, number x) = Some x.
Proof. intros Hok Hx. specialize (Hok k). rewrite Hx in Hok. apply Hok. Qed.

Lemma width_positive : 1 ≤ MAX_VERSIONS_PER_KEY.
Proof. unfold MAX_VERSIONS_PER_KEY. lia. Qed.

Lemma store_flag_inv x st :
  inv st → fc_version x = from_option fc_version 0 (flags st !! (fc_flag x, environment x)) + 1 → fc_version x ≤ u32_max →
  cohorts_ok (cohorts x) (state x) → room (config_key_count st) (flags st !! (fc_flag x, environment x)) →
  inv (store_flag x (count_flag (fc_flag x, environment x) st)).
Proof.
  intros [H1 H2 H3 H4 H5 H6 H7] Hn Hmax Hok Hroom. unfold store_flag, count_flag.
  pose proof (retained_next fc_version MAX_VERSIONS_PER_KEY _ x _ _ _ width_positive H1 Hn Hmax) as H1'.
  assert (∀ k n y, keep_flag (fc_flag x, environment x) x (flag_versions st) !! (k, n) = Some y →
    (fc_flag y, environment y) = k ∧ cohorts_ok (cohorts y) (state y)) as H3'.
  { apply (keep_records fc_version _ (λ k y, (fc_flag y, environment y) = k ∧ cohorts_ok (cohorts y) (state y))); auto. }
  assert (Z.of_nat (size (<[(fc_flag x, environment x) := x]> (flags st))) =
    Z.of_nat (size (flags st)) + match flags st !! (fc_flag x, environment x) with None => 1 | Some _ => 0 end) as Hsz.
  { rewrite map_size_insert. destruct (flags st !! _); unfold id; lia. }
  unfold room, MAX_CONFIG_KEYS in Hroom.
  destruct (flags st !! (fc_flag x, environment x)) eqn:Hf; split; simpl; try done; rewrite Hsz; [lia|specialize (Hroom eq_refl); lia].
Qed.

Lemma index_of_insert k l j st st' :
  config_index st' = <[k := l]> (config_index st) → index_of j st' = if decide (k = j) then l else index_of j st.
Proof. intros Hst. unfold index_of. rewrite Hst, lookup_insert. by case_decide. Qed.

Lemma store_config_inv x st :
  inv st → ac_version x = from_option ac_version 0 (configs st !! (ac_kind x, subject x)) + 1 → ac_version x ≤ u32_max →
  config_ok (ac_kind x) (a x) (b x) (ref_hash x) → room (config_key_count st) (configs st !! (ac_kind x, subject x)) →
  inv (store_config x (count_config (ac_kind x) (subject x) st)).
Proof.
  intros [H1 H2 H3 H4 H5 H6 H7] Hn Hmax Hok Hroom. unfold store_config, count_config.
  pose proof (retained_next ac_version MAX_VERSIONS_PER_KEY _ x _ _ _ width_positive H2 Hn Hmax) as H2'.
  assert (∀ k n y, keep_config (ac_kind x, subject x) x (config_versions st) !! (k, n) = Some y →
    (ac_kind y, subject y) = k ∧ config_ok (ac_kind y) (a y) (b y) (ref_hash y)) as H4'.
  { apply (keep_records ac_version _ (λ k y, (ac_kind y, subject y) = k ∧ config_ok (ac_kind y) (a y) (b y) (ref_hash y))); auto. }
  assert (Z.of_nat (size (<[(ac_kind x, subject x) := x]> (configs st))) =
    Z.of_nat (size (configs st)) + match configs st !! (ac_kind x, subject x) with None => 1 | Some _ => 0 end) as Hsz.
  { rewrite map_size_insert. destruct (configs st !! _); unfold id; lia. }
  unfold room, MAX_CONFIG_KEYS in Hroom.
  destruct (configs st !! (ac_kind x, subject x)) eqn:Hf; split; simpl; try done; rewrite ?Hsz; try lia.
  - intros k. change (index_of k (mkStore _ _ _ _ _ _ _ (config_index st) _ _ _)) with (index_of k st).
    destruct (H5 k) as [Hnd Hin]. split; [done|]. intros s. rewrite Hin, lookup_insert. case_decide as Hk; [|done].
    rewrite <-Hk, Hf. split; intros _; by eexists.
  - intros k. destruct (H5 (ac_kind x)) as [Hnd Hin].
    assert (subject x ∉ index_of (ac_kind x) st) as Hnew by (rewrite Hin, Hf; by intros [? ?]).
    rewrite bool_decide_eq_false_2 by done. rewrite !(index_of_insert (ac_kind x) (index_of (ac_kind x) st ++ [subject x]) k st) by done.
    destruct (decide (ac_kind x = k)) as [<-|Hk]; simpl.
    + split; [apply NoDup_app; split_and!; [done| |apply NoDup_singleton]; by intros j Hj ->%list_elem_of_singleton|].
      intros s. rewrite elem_of_app, list_elem_of_singleton, Hin, lookup_insert. case_decide as Hs.
      * injection Hs as <-. split; [by eexists|auto].
      * split; [intros [?| ->]; done|auto].
    + destruct (H5 k) as [Hnd' Hin']. split; [done|]. intros s. rewrite lookup_insert_ne by congruence. apply Hin'.
  - specialize (Hroom eq_refl). lia.
Qed.

Lemma admin_effect_inv e st c st' : inv st → effect e st c st' → inv st'.
Proof.
  intros Hi Heff. destruct Heff as [x Ha Hau|x f v s l Ha Hau Hok Hroom Hmax|f v i x Ha Hroom|x k s n m h l Ha Hau Hok Hroom Hmax
    |x k s n c y Ha Hau Hc Hy Hmax].
  - by destruct Hi.
  - by apply (store_flag_inv (mkFlag f v s l (next_flag st f v) (timestamp e) x) st).
  - destruct Hi as [H1 H2 H3 H4 H5 H6 [H7 H8]]. unfold MAX_PINS in Hroom.
    assert (Z.of_nat (size (<[(i, f, v) := flag_now st f v]> (pins st))) =
      Z.of_nat (size (pins st)) + match pins st !! (i, f, v) with None => 1 | Some _ => 0 end) as Hsz.
    { rewrite map_size_insert. destruct (pins st !! _); unfold id; lia. }
    destruct (pins st !! (i, f, v)) eqn:Hp; split; simpl; try done; rewrite Hsz; [lia|specialize (Hroom eq_refl); lia].
  - by apply (store_config_inv (mkConfig k s n m h l (next_config st k s) (timestamp e) x) st).
  - destruct (inv_config_records _ Hi _ _ _ Hc) as [Hk Hok]. injection Hk as Hk1 Hk2. subst k s.
    pose proof (store_config_inv (mkConfig (ac_kind c) (subject c) (a c) (b c) (ref_hash c) (label c)
      (next_config st (ac_kind c) (subject c)) (timestamp e) x) st Hi) as Hsi.
    unfold count_config in Hsi. simpl in Hsi. rewrite Hy in Hsi. apply Hsi; [unfold next_config; by rewrite Hy|done..].
Qed.

Definition empty_store : Store := mkStore None ∅ ∅ ∅ ∅ ∅ ∅ ∅ ∅ 0 0.

Section Reachable.
Context {L : Type}.
Definition deployed (w : World L Store Event) : Prop := store w = empty_store.

Lemma admin_reachable this w : reachable exec valid this (λ _ _, True) deployed w → inv (store w).
Proof.
  apply (reachable_inv _ _ _ _ _ (λ w, inv (store w))).
  - intros w0 ->. split; try done; try apply retained_empty. intros k. split; [constructor|]. intros s.
    split; [by intros ?%elem_of_nil|by intros [? ?]].
  - intros c e w0 w1 u _ _ Hi Hrun. destruct (admin_effect c e w0 w1 u Hi Hrun) as [_ Heff]. by eapply admin_effect_inv.
  - done.
Qed.
End Reachable.

(** [n] is among the last 32 versions when the current one is [top]. *)
Definition recent (n top : Z) : Prop := Z.max 1 (top - 31) ≤ n ≤ top.

Definition pins_it (f : Flag) (v : Environment) (i : BytesN32) (c : Call) : bool :=
  match c with CPin f' v' j => bool_decide ((j, f', v') = (i, f, v)) | _ => false end.

(** The content of a parameter: all but its number and its author. *)
Definition content (x : AdminConfig) : ConfigKind * Z * Z * Z * Z * Symbol :=
  (ac_kind x, subject x, a x, b x, ref_hash x, label x).

(** What becomes of a published version. *)
Definition kept_or_gone {K A} `{Countable K} (number : A → Z) (x : A) (k : K) (n : Z) (heads : gmap K A) (versions : gmap (K * Z) A) : Prop :=
  versions !! (k, n) = Some x ∨ versions !! (k, n) = None ∧ n < from_option number 0 (heads !! k) - 31.

Lemma kept_next {K A} `{Countable K} (number : A → Z) (x y : A) (j k : K) (n : Z) (heads : gmap K A) versions floors :
  retained_ok number MAX_VERSIONS_PER_KEY heads versions floors → number y = from_option number 0 (heads !! k) + 1 →
  kept_or_gone number x j n heads versions → n ≤ from_option number 0 (heads !! j) →
  kept_or_gone number x j n (<[k := y]> heads) (keep number MAX_VERSIONS_PER_KEY k y versions).
Proof.
  intros Hok Hy Hx Hn. unfold kept_or_gone in *. rewrite lookup_insert. destruct (decide (k = j)) as [<-|Hj].
  - rewrite (keep_next number MAX_VERSIONS_PER_KEY k y heads versions floors) by (apply width_positive || done). simpl.
    unfold lowest, MAX_VERSIONS_PER_KEY in *. rewrite decide_False by lia.
    case_decide; destruct Hx as [Hx|[Hx ?]]; auto; right; split; try done; try lia.
    pose proof (Hok k) as Hk. destruct (heads !! k) as [z|]; [|destruct Hk as [_ Hk]; by rewrite Hk in Hx].
    destruct Hk as (_ & _ & _ & Hv). specialize (Hv n). rewrite Hx in Hv. simpl in *. unfold lowest in Hv. lia.
  - by rewrite keep_other.
Qed.

Lemma published_bound {K A} `{Countable K} (number : A → Z) width (heads : gmap K A) versions floors k n x :
  retained_ok number width heads versions floors → versions !! (k, n) = Some x → n ≤ from_option number 0 (heads !! k).
Proof.
  intros Hok Hx. specialize (Hok k). destruct (heads !! k) as [z|]; [|destruct Hok as [_ Hk]; by rewrite Hk in Hx].
  destruct Hok as (_ & _ & _ & Hv). specialize (Hv n). rewrite Hx in Hv. simpl. lia.
Qed.

Lemma window_of {K A} `{Countable K} (number : A → Z) (heads : gmap K A) versions floors k x :
  retained_ok number MAX_VERSIONS_PER_KEY heads versions floors → heads !! k = Some x →
  versions !! (k, number x) = Some x ∧ (∀ n, is_Some (versions !! (k, n)) ↔ recent n (number x)) ∧
  default 1 (floors !! k) = Z.max 1 (number x - 31) ∧ (∀ n y, versions !! (k, n) = Some y → number y = n).
Proof.
  intros Hok Hx. specialize (Hok k). rewrite Hx in Hok. destruct Hok as (Hb & Hf & Hv & Hn). unfold recent, lowest, MAX_VERSIONS_PER_KEY in *.
  split_and!; [done| |rewrite Hf; simpl; lia|].
  - intros n. specialize (Hn n). destruct (versions !! (k, n)); [split; [lia|by eexists]|]. split; [by intros [? ?]|lia].
  - intros n y Hy. specialize (Hn n). rewrite Hy in Hn. lia.
Qed.

Section Theorems.
Context {L : Type}.
Abbreviation W := (World L Store Event).
Abbreviation M := (Contract L Store Event ContractError).
Implicit Types (w : W).
Abbreviation Reach this := (reachable exec valid this (λ _ _, True) deployed).

(** The window.  In every reachable world the kept versions of a flag, and of a parameter, are the
    last 32 up to the current record, each under its number; the reported floor is the lowest of
    them; and every record kept passed its checks. *)
Theorem window_kept this w :
  Reach this w →
  (∀ f v x, flags (store w) !! (f, v) = Some x →
    flag_versions (store w) !! (f, v, fc_version x) = Some x ∧
    (∀ n, is_Some (flag_versions (store w) !! (f, v, n)) ↔ recent n (fc_version x)) ∧
    default 1 (flag_floors (store w) !! (f, v)) = Z.max 1 (fc_version x - 31) ∧
    ∀ n y, flag_versions (store w) !! (f, v, n) = Some y →
      fc_version y = n ∧ fc_flag y = f ∧ environment y = v ∧ cohorts_ok (cohorts y) (state y)) ∧
  (∀ k s x, configs (store w) !! (k, s) = Some x →
    config_versions (store w) !! (k, s, ac_version x) = Some x ∧
    (∀ n, is_Some (config_versions (store w) !! (k, s, n)) ↔ recent n (ac_version x)) ∧
    default 1 (config_floors (store w) !! (k, s)) = Z.max 1 (ac_version x - 31) ∧
    ∀ n y, config_versions (store w) !! (k, s, n) = Some y →
      ac_version y = n ∧ ac_kind y = k ∧ subject y = s ∧ config_ok k (a y) (b y) (ref_hash y)).
Proof.
  intros Hi%admin_reachable. split.
  - intros f v x Hx. destruct (window_of _ _ _ _ _ _ (inv_flags _ Hi) Hx) as (H1 & H2 & H3 & H4). split_and!; [done..|].
    intros n y Hy. destruct (inv_flag_records _ Hi _ _ _ Hy) as [[= <- <-] Hok]. split_and!; [by apply H4|done..].
  - intros k s x Hx. destruct (window_of _ _ _ _ _ _ (inv_configs _ Hi) Hx) as (H1 & H2 & H3 & H4). split_and!; [done..|].
    intros n y Hy. destruct (inv_config_records _ Hi _ _ _ Hy) as [[= <- <-] Hok]. split_and!; [by apply H4|done..].
Qed.

(** C38: History is never rewritten.  Take any published version of a flag or a parameter and any calls:
    afterwards that number holds the same record, or is gone and more than 31 versions older than the
    current one; never another record. *)
Theorem published_never_rewritten this w calls :
  Reach this w → Forall (λ ec : Env * Call, self ec.1 = this ∧ valid ec.1 ec.2) calls →
  let w' := run_calls exec calls w in
  (∀ f v n x, flag_versions (store w) !! (f, v, n) = Some x →
    kept_or_gone fc_version x (f, v) n (flags (store w')) (flag_versions (store w'))) ∧
  (∀ k s n x, config_versions (store w) !! (k, s, n) = Some x →
    kept_or_gone ac_version x (k, s) n (configs (store w')) (config_versions (store w'))).
Proof.
  intros Hw%admin_reachable _ w'.
  assert (∀ P : Store → Prop, P (store w) → (∀ e st c st', inv st → P st → effect e st c st' → P st') → P (store w')) as Hind.
  { intros P HP Hstep. apply (run_calls_inv exec (λ w, inv (store w) ∧ P (store w)) calls w); [|done].
    intros e c w0 w1 u [Hi H0] _ Hrun. destruct (admin_effect c e w0 w1 u Hi Hrun) as [_ Heff].
    split; [by eapply admin_effect_inv|by eapply Hstep]. }
  split.
  - intros f v n x Hx.
    apply (Hind (λ st, kept_or_gone fc_version x (f, v) n (flags st) (flag_versions st) ∧ n ≤ from_option fc_version 0 (flags st !! (f, v)))).
    { split; [by left|]. by eapply published_bound; [apply inv_flags|]. }
    intros e st c st' Hi [Hk Hn] Heff. destruct Heff; try done.
    + unfold store_flag. simpl. assert (flags (count_flag (f0, v0) st) = flags st ∧ flag_versions (count_flag (f0, v0) st) = flag_versions st) as [-> ->]
        by (unfold count_flag; by destruct (flags st !! (f0, v0))).
      split; [eapply kept_next; [apply (inv_flags _ Hi)|done..]|]. rewrite lookup_insert. case_decide as Hj; [|done].
      injection Hj as -> ->. simpl. unfold next_flag. lia.
    + simpl. by destruct (pins st !! (i, f0, v0)).
    + simpl. unfold count_config. by destruct (configs st !! (k, s)).
  - intros k s n x Hx.
    apply (Hind (λ st, kept_or_gone ac_version x (k, s) n (configs st) (config_versions st) ∧ n ≤ from_option ac_version 0 (configs st !! (k, s)))).
    { split; [by left|]. by eapply published_bound; [apply inv_configs|]. }
    intros e st c st' Hi [Hk Hn] Heff.
    assert (∀ y, ac_version y = next_config st (ac_kind y) (subject y) →
      kept_or_gone ac_version x (k, s) n (<[(ac_kind y, subject y) := y]> (configs st)) (keep_config (ac_kind y, subject y) y (config_versions st)) ∧
      n ≤ from_option ac_version 0 (<[(ac_kind y, subject y) := y]> (configs st) !! (k, s))) as Hstep.
    { intros y Hy. split; [eapply kept_next; [apply (inv_configs _ Hi)|done..]|]. rewrite lookup_insert. case_decide as Hj; [|done].
      simpl. rewrite Hy. unfold next_config. rewrite Hj. lia. }
    destruct Heff; try done.
    + simpl. unfold count_flag. by destruct (flags st !! (f, v)).
    + simpl. by destruct (pins st !! (i, f, v)).
    + unfold store_config. simpl. assert (configs (count_config k0 s0 st) = configs st ∧ config_versions (count_config k0 s0 st) = config_versions st)
        as [-> ->] by (unfold count_config; by destruct (configs st !! (k0, s0))).
      by apply (Hstep (mkConfig k0 s0 n0 m h l (next_config st k0 s0) (timestamp e) x0)).
    + unfold store_config. simpl. destruct (inv_config_records _ Hi _ _ _ H1) as [[= Hk0 Hs0] _]. subst k0 s0.
      by apply (Hstep (mkConfig (ac_kind c) (subject c) (a c) (b c) (ref_hash c) (label c) (next_config st (ac_kind c) (subject c)) (timestamp e) x0)).
Qed.

(** Setting a parameter, on every branch; the preview answers exactly the error of the check of the
    values, so a value the preview accepts is refused only for the caller, a full table of keys
    or the largest version number. *)
Theorem set_config_exact this w e x k s n m h l :
  Reach this w → authorized e x = true →
  (invoke (preview_config k n m h) e w).2 = (if decide (config_ok k n m h) then Returned tt else Errored (config_error k)) ∧
  invoke (set_config x k s n m h l) e w =
    if decide (admin (store w) ≠ Some x) then (w, Errored NotAdmin)
    else if decide (¬ config_ok k n m h) then (w, Errored (config_error k))
    else if decide (configs (store w) !! (k, s) = None ∧ 2000 ≤ config_key_count (store w)) then (w, Errored TooManyConfigKeys)
    else if u32_max <? next_config (store w) k s then (w, Errored InvalidLimit)
    else
      let y := mkConfig k s n m h l (next_config (store w) k s) (timestamp e) x in
      (mkWorld (ledger w) (store_config y (count_config k s (store w)))
         (log w ++ [cfg k s (ac_version y) (ac_version y - 1) x (timestamp e)]), Returned (ac_version y)).
Proof.
  intros Hi%admin_reachable Hau. split.
  { unfold invoke, preview_config. rewrite validate_exact. by case_decide. }
  unfold invoke, set_config, require_admin, require_auth. cbv [bind load reject_if ret fail now]. rewrite Hau.
  destruct (decide (admin (store w) = Some x)) as [Ha|Ha];
    [rewrite bool_decide_eq_true_2, decide_False by auto|by rewrite bool_decide_eq_false_2, decide_True]. cbn [negb].
  rewrite validate_exact. destruct (decide (config_ok k n m h)) as [Hok|Hok]; [rewrite decide_False by auto|by rewrite decide_True].
  cbn [lift ret]. destruct (inv_keys _ Hi) as [Hc Hmax]. pose proof (next_positive _ _ _ _ _ (k, s) (inv_configs _ Hi)) as Hpos.
  unfold next_config. unfold count_config. destruct (configs (store w) !! (k, s)) as [z|] eqn:Hz; cbn [from_option] in Hpos |- *.
  - rewrite decide_False by naive_solver. unfold checked_add_u32. destruct (Z.ltb_spec u32_max (ac_version z + 1)) as [Hlt|Hge].
    + by rewrite (proj2 (checked_None _ _ _)) by lia.
    + rewrite checked_in by lia. cbn [ok_or ret]. rewrite save_config_run by (simpl; lia). simpl. by rewrite Z.add_simpl_r.
  - unfold reserve_config_key, index_config. cbv [bind load reject_if ret fail save]. unfold MAX_CONFIG_KEYS.
    destruct (Z.leb_spec 2000 (config_key_count (store w))) as [Hfull|Hroom]; [by rewrite decide_True|].
    rewrite decide_False by lia. unfold checked_add_u64. rewrite checked_in by range_lia. cbn [ok_or ret].
    rewrite save_config_run by (simpl; range_lia). simpl. done.
Qed.

(** A rollback republishes a kept version: under the number after the current one, with the content
    of the version asked for and the caller as author.  It is refused for a version that is not
    kept and needs a caller who is the administrator; the version asked for and the one replaced
    stay readable unless the window has moved past the former. *)
Theorem rollback_restores this w e x k s n :
  Reach this w → authorized e x = true → admin (store w) = Some x → next_config (store w) k s ≤ u32_max →
  match config_versions (store w) !! (k, s, n) with
  | None => invoke (rollback_config x k s n) e w = (w, Errored VersionNotFound)
  | Some c =>
      ∃ w' y cur, invoke (rollback_config x k s n) e w = (w', Returned (ac_version y)) ∧
        configs (store w) !! (k, s) = Some cur ∧ configs (store w') !! (k, s) = Some y ∧
        content y = content c ∧ ac_version y = ac_version cur + 1 ∧ ac_updated_by y = x ∧
        config_versions (store w') !! (k, s, ac_version cur) = Some cur ∧
        (n ≠ ac_version cur - 31 → config_versions (store w') !! (k, s, n) = Some c) ∧ flags (store w') = flags (store w)
  end.
Proof.
  intros Hi%admin_reachable Hau Ha Hmax. unfold invoke, rollback_config, require_admin, require_auth.
  cbv [bind load reject_if ret fail now]. rewrite Hau, Ha, bool_decide_eq_true_2 by done. cbn [negb ok_or ret].
  destruct (config_versions (store w) !! (k, s, n)) as [c|] eqn:Hc; [|done]. cbn [ok_or ret].
  pose proof (inv_configs _ Hi (k, s)) as Hk. destruct (inv_config_records _ Hi _ _ _ Hc) as [[= <- <-] _].
  destruct (configs (store w) !! (ac_kind c, subject c)) as [cur|] eqn:Hcur; [|destruct Hk as [_ Hk]; by rewrite Hk in Hc].
  destruct Hk as (Hb & _ & Hv & Hn). unfold next_config in Hmax. rewrite Hcur in Hmax. simpl in Hmax.
  cbn [ok_or ret]. unfold checked_add_u32. rewrite checked_in by lia. cbn [ok_or ret]. rewrite save_config_run by (simpl; lia).
  set (y := mkConfig _ _ _ _ _ _ _ _ _). eexists _, y, cur. split; [reflexivity|].
  assert (ac_version y = from_option ac_version 0 (configs (store w) !! (ac_kind c, subject c)) + 1) as Hy by (by rewrite Hcur).
  pose proof (keep_next ac_version MAX_VERSIONS_PER_KEY _ y _ _ _ (ac_version cur) width_positive (inv_configs _ Hi) Hy) as Hkc.
  pose proof (keep_next ac_version MAX_VERSIONS_PER_KEY _ y _ _ _ n width_positive (inv_configs _ Hi) Hy) as Hkn.
  specialize (Hn n). rewrite Hc in Hn. unfold lowest, MAX_VERSIONS_PER_KEY in *.
  change (ac_version y) with (ac_version cur + 1) in *.
  rewrite decide_False, decide_True in Hkc by lia. rewrite decide_False in Hkn by lia.
  split_and!; [done|simpl; by rewrite lookup_insert_eq|done..|etrans; [exact Hkc|done]| |done].
  intros Hne. etrans; [exact Hkn|]. rewrite decide_True by lia. done.
Qed.

(** Flags fail closed.  In every reachable world a cohort has a surface exactly when the flag is set
    to On, or to a list of cohorts that names it; unset flags, Off flags and other environments
    expose nothing.  The lists are of 1 to 32 different names where they decide. *)
Theorem flags_fail_closed this w e f v cohort :
  Reach this w →
  ∃ on : bool, invoke (is_enabled f v cohort) e w = (w, Returned on) ∧
    (on = true ↔ ∃ x, flags (store w) !! (f, v) = Some x ∧ (state x = On ∨ state x = CohortsOnly ∧ cohort ∈ cohorts x)) ∧
    ∀ x, flags (store w) !! (f, v) = Some x → fc_flag x = f ∧ environment x = v ∧ cohorts_ok (cohorts x) (state x).
Proof.
  intros Hi%admin_reachable. eexists. split; [reflexivity|]. split.
  - destruct (flags (store w) !! (f, v)) as [x|]; [|split; [done|by intros (x & ? & _)]]. destruct (state x) eqn:Hs.
    + split; [done|]. intros (y & [= <-] & [Hy|[Hy _]]); congruence.
    + split; [|done]. intros _. exists x. auto.
    + rewrite bool_decide_eq_true. split; [intros Hc; exists x; auto|]. intros (y & [= <-] & [Hy|[_ Hy]]); [congruence|done].
  - intros x Hx. pose proof (heads_kept _ _ _ _ _ _ _ (inv_flags _ Hi) Hx) as Hv.
    by destruct (inv_flag_records _ Hi _ _ _ Hv) as [[= <- <-] Hok].
Qed.

(** Lists and counters.  The list of a kind has every configured subject of the kind once, with its
    current record; the counters are the numbers of keys and of pins, within their ceilings; the
    list of the flags of an environment has all five, the unset ones as Off. *)
Theorem lists_exact this w e k v x :
  Reach this w → admin (store w) = Some x →
  (∃ l, invoke (list_config k) e w = (w, Returned l) ∧ NoDup (subject <$> l) ∧
    ∀ y, y ∈ l ↔ configs (store w) !! (k, subject y) = Some y) ∧
  invoke (list_flags v) e w =
    (w, Returned ((λ f, default (mkFlag f v Off [] 0 0 x) (flags (store w) !! (f, v))) <$> Flag.all)) ∧
  config_key_count (store w) = Z.of_nat (size (flags (store w))) + Z.of_nat (size (configs (store w))) ∧
  config_key_count (store w) ≤ 2000 ∧ pin_count (store w) = Z.of_nat (size (pins (store w))) ∧ pin_count (store w) ≤ 5000.
Proof.
  intros Hi%admin_reachable Ha. destruct (inv_keys _ Hi), (inv_pins _ Hi). split_and!; try done.
  - eexists. split; [reflexivity|]. destruct (inv_index _ Hi k) as [Hnd Hin].
    assert (∀ s y, configs (store w) !! (k, s) = Some y → subject y = s) as Hsub.
    { intros s y Hy. pose proof (heads_kept _ _ _ _ _ _ _ (inv_configs _ Hi) Hy) as Hv.
      by destruct (inv_config_records _ Hi _ _ _ Hv) as [[= _ <-] _]. }
    split.
    + clear Hin. induction (index_of k (store w)) as [|s l IH]; [constructor|]. apply NoDup_cons in Hnd as [Hs Hnd].
      cbn [omap list_omap]. destruct (configs (store w) !! (k, s)) as [y|] eqn:Hy; [|by apply IH]. rewrite fmap_cons. constructor; [|by apply IH].
      rewrite (Hsub _ _ Hy). intros (z & Hz & Hzl)%list_elem_of_fmap. apply list_elem_of_omap in Hzl as (s' & Hs' & Hz').
      apply Hsub in Hz'. congruence.
    + intros y. rewrite list_elem_of_omap. split; [intros (s & _ & Hy); by rewrite (Hsub _ _ Hy)|].
      intros Hy. exists (subject y). split; [|done]. apply Hin. by eexists.
  - unfold invoke, list_flags, get_flag, Flag.all. cbn [for_in]. cbv [bind load ok_or ret fail]. repeat (rewrite Ha; cbn). done.
Qed.

(** Pins.  A pin needs no authorisation: whoever asks, it records what the flag says now, over an
    earlier pin of the same workflow.  Calls that do not pin this workflow and flag leave the pin,
    whatever becomes of the flag. *)
Theorem pin_until_pinned_again this w e f v i s w1 calls :
  Reach this w → invoke (pin f v i) e w = (w1, Returned s) →
  Forall (λ ec : Env * Call, self ec.1 = this ∧ valid ec.1 ec.2 ∧ pins_it f v i ec.2 = false) calls →
  s = flag_now (store w) f v ∧ pins (store (run_calls exec calls w1)) !! (i, f, v) = Some s.
Proof.
  intros Hi%admin_reachable Hrun%invoke_returned Hcalls. rewrite Forall_forall in Hcalls.
  assert ((exec (CPin f v i) : M unit) e w = Done w1 tt) as Hex by (simpl; unfold ignore, bind; by rewrite Hrun).
  destruct (admin_effect _ _ _ _ _ Hi Hex) as [_ Heff]. pose proof (admin_effect_inv _ _ _ _ Hi Heff) as Hi1.
  assert (s = flag_now (store w) f v) as Hs.
  { unfold pin, get_flag in Hrun. run_inv. unfold flag_now. by destruct (flags (store w) !! (f, v)). }
  assert (pins (store w1) !! (i, f, v) = Some s) as Hp.
  { inversion Heff as [| |? ? ? ? ? ? Heq Hst| |]; subst. simpl. by rewrite lookup_insert_eq. }
  split; [done|].
  apply (run_calls_inv exec (λ w, inv (store w) ∧ pins (store w) !! (i, f, v) = Some s) calls w1); [|done].
  intros e0 c w0 w0' u [H0 Hp0] Hin Hr. destruct (Hcalls _ Hin) as (_ & _ & Hno).
  destruct (admin_effect c e0 w0 w0' u H0 Hr) as [_ He0]. split; [by eapply admin_effect_inv|].
  destruct He0; try done; simpl in Hno |- *; bool_prop.
  - unfold count_flag. by destruct (flags (store w0) !! _).
  - rewrite lookup_insert_ne by done. by destruct (pins (store w0) !! (i0, f0, v0)).
  - unfold count_config. by destruct (configs (store w0) !! _).
Qed.
End Theorems.

(** ** Concrete runs *)
Module Runs.
Definition this : Address := addr 0.
Definition boss : Address := addr 1.
Definition eve : Address := addr 2.
Abbreviation Reach := (reachable exec valid this (λ _ _, True) deployed).

(** Only [eve] and [boss] for themselves. *)
Definition at_time (t : Z) (who : Address) : Env := mkEnv t this (λ x, bool_decide (x = who)).
Definition w0 : World unit Store Event := mkWorld tt empty_store [].
Definition setup : list (Env * Call) :=
  [(at_time 10 boss, CInitialize boss);
   (at_time 11 boss, CSetFlag boss Flag.Payouts Production CohortsOnly ["early"%string]);
   (at_time 12 boss, CSetConfig boss Limits 7 10 20 0 "cap"%string)].
(** Forty values of one parameter. *)
Definition changes : list (Env * Call) := (λ n, (at_time (20 + n) boss, CSetConfig boss Limits 7 10 (20 + n) 0 "cap"%string)) <$> seqZ 1 40.
Definition off : list (Env * Call) := [(at_time 30 boss, CSetFlag boss Flag.Payouts Production Off [])].
Definition w1 : World unit Store Event := run_calls exec setup w0.
Definition w2 : World unit Store Event := run_calls exec changes w1.
Definition w3 : World unit Store Event := (invoke (pin Flag.Payouts Production 5) (at_time 25 eve) w1).1.

Lemma admin_runs calls :
  Forall (λ ec : Env * Call, self ec.1 = this ∧ valid ec.1 ec.2) calls → Reach (run_calls exec calls w0).
Proof. apply reachable_run. by apply reach_init. Qed.

Ltac valid_calls := repeat constructor; simpl; try done; range_lia.

Lemma admin_w1_reach : Reach w1.
Proof. apply admin_runs. valid_calls. Qed.
Lemma changes_valid : Forall (λ ec : Env * Call, self ec.1 = this ∧ valid ec.1 ec.2) changes.
Proof.
  unfold changes. apply Forall_fmap, Forall_forall. intros n Hn%elem_of_seqZ. simpl. split; [done|].
  unfold valid. simpl. rewrite !in_range_iff. range_lia.
Qed.
Lemma admin_w2_reach : Reach w2.
Proof. apply reachable_run; [apply admin_w1_reach|apply changes_valid]. Qed.

Lemma window_kept_witness :
  ∃ x, configs (store w2) !! (Limits, 7) = Some x ∧ is_Some (config_versions (store w2) !! (Limits, 7, 10)) ∧
    ¬ is_Some (config_versions (store w2) !! (Limits, 7, 9)).
Proof.
  destruct (window_kept this w2 admin_w2_reach) as [_ Hk].
  assert (configs (store w2) !! (Limits, 7) = Some (mkConfig Limits 7 10 60 0 "cap"%string 41 60 boss)) as Hx by (vm_compute; reflexivity).
  destruct (Hk _ _ _ Hx) as (_ & Hn & _). eexists. split; [exact Hx|]. rewrite !Hn. unfold recent. simpl. lia.
Defined.

Lemma published_never_rewritten_witness :
  kept_or_gone ac_version (mkConfig Limits 7 10 20 0 "cap"%string 1 12 boss) (Limits, 7) 1 (configs (store w2)) (config_versions (store w2)).
Proof.
  destruct (published_never_rewritten this w1 changes) as [_ Hk]; [apply admin_w1_reach|apply changes_valid|].
  apply Hk. vm_compute. reflexivity.
Defined.

Lemma set_config_exact_witness :
  (invoke (set_config boss Deadline 8 30 20 0 "end"%string) (at_time 40 boss) w1).2 = Errored InvalidDeadline ∧
  (invoke (set_config eve Deadline 8 20 30 0 "end"%string) (at_time 40 eve) w1).2 = Errored NotAdmin ∧
  (invoke (set_config boss Limits 7 20 30 0 "end"%string) (at_time 40 boss) w1).2 = Returned 2.
Proof.
  split_and!; (destruct (set_config_exact this w1 (at_time 40 boss) boss Deadline 8 30 20 0 "end"%string) as [_ H1];
    [apply admin_w1_reach|reflexivity|]); 
    (destruct (set_config_exact this w1 (at_time 40 eve) eve Deadline 8 20 30 0 "end"%string) as [_ H2];
    [apply admin_w1_reach|reflexivity|]);
    (destruct (set_config_exact this w1 (at_time 40 boss) boss Limits 7 20 30 0 "end"%string) as [_ H3];
    [apply admin_w1_reach|reflexivity|]).
  - rewrite H1. vm_compute. reflexivity.
  - rewrite H2. vm_compute. reflexivity.
  - rewrite H3. vm_compute. reflexivity.
Defined.

Lemma rollback_restores_witness :
  ∃ w' y, invoke (rollback_config boss Limits 7 12) (at_time 90 boss) w2 = (w', Returned 42) ∧
    configs (store w') !! (Limits, 7) = Some y ∧ b y = 31.
Proof.
  pose proof (rollback_restores this w2 (at_time 90 boss) boss Limits 7 12 admin_w2_reach) as H.
  assert (config_versions (store w2) !! (Limits, 7, 12) = Some (mkConfig Limits 7 10 31 0 "cap"%string 12 31 boss)) as Hv by (vm_compute; reflexivity).
  assert (configs (store w2) !! (Limits, 7) = Some (mkConfig Limits 7 10 60 0 "cap"%string 41 60 boss)) as Hx by (vm_compute; reflexivity).
  rewrite Hv in H. destruct H as (w' & y & cur & Hr & Hcur & Hy & Hc & Hn & _).
  - reflexivity.
  - vm_compute. reflexivity.
  - unfold next_config. rewrite Hx. vm_compute. discriminate.
  - rewrite Hx in Hcur. injection Hcur as <-. simpl in Hn. exists w', y. split; [by rewrite Hr, Hn|]. split; [exact Hy|].
    unfold content in Hc. simpl in Hc. by injection Hc.
Defined.

Lemma flags_fail_closed_witness :
  invoke (is_enabled Flag.Payouts Production "early"%string) (at_time 20 eve) w1 = (w1, Returned true) ∧
  ∃ on, invoke (is_enabled Flag.Payouts Testnet "early"%string) (at_time 20 eve) w1 = (w1, Returned on) ∧ on ≠ true.
Proof.
  split; [vm_compute; reflexivity|].
  destruct (flags_fail_closed this w1 (at_time 20 eve) Flag.Payouts Testnet "early"%string admin_w1_reach) as (on & Hon & Hiff & _).
  exists on. split; [exact Hon|]. intros Ht. apply Hiff in Ht as (x & Hx & _). vm_compute in Hx. discriminate.
Defined.

Lemma lists_exact_witness :
  ∃ l, invoke (list_config Limits) (at_time 20 eve) w2 = (w2, Returned l) ∧ mkConfig Limits 7 10 60 0 "cap"%string 41 60 boss ∈ l.
Proof.
  destruct (lists_exact this w2 (at_time 20 eve) Limits Production boss) as ((l & Hl & _ & Hin) & _); [apply admin_w2_reach|vm_compute; reflexivity|].
  exists l. split; [exact Hl|]. apply Hin. vm_compute. reflexivity.
Defined.

(** The pin keeps what the flag said; a stranger pins the workflow again and replaces it. *)
Lemma pin_until_pinned_again_witness :
  pins (store (run_calls exec off w3)) !! (5, Flag.Payouts, Production) = Some CohortsOnly ∧
  pins (store (run_calls exec (off ++ [(at_time 31 eve, CPin Flag.Payouts Production 5)]) w3)) !! (5, Flag.Payouts, Production) = Some Off.
Proof.
  split; [|vm_compute; reflexivity].
  destruct (pin_until_pinned_again this w1 (at_time 25 eve) Flag.Payouts Production 5 CohortsOnly w3 off) as [_ H];
    [apply admin_w1_reach|vm_compute; reflexivity|valid_calls|exact H].
Defined.
End Runs.
