(* ===== verification/Programs.v ===== *)
(** * Scholarship programs ([scholarship-programs/src/lib.rs])

    Application windows, and the inventory of awards of a program: how many may be reserved, what
    each commits, and the budget they may commit together.  The model first, then what each call
    does, the invariant, and the properties. *)
From S2P Require Import Prelude Machine Host.

Definition CONTRACT_VERSION : Z := 1.

Inductive ContractError :=
| NotInitialized | AlreadyInitialized | NotAdmin | InvalidWindow | WindowNotFound | WindowOverflow | BudgetNotFound
| InvalidBudgetConfig | CapacityExceeded | BudgetExceeded | NoAwardsReserved | BudgetAlreadyCommitted | VersionConflict
| VersionOverflow.

Record ProgramWindow := mkWindow {
  pw_version : Z; opens_at : Z; closes_at : Z; timezone_offset_minutes : Z; grace_period_seconds : Z
}.
Record AwardBudget := mkBudget {
  ab_version : Z; max_recipients : Z; per_award_amount : Z; total_budget : Z; awarded_count : Z; committed_amount : Z
}.

Inductive Event := WINSET (p : BytesN32) (n : Z) | BUDGSET (p : BytesN32) | AWDRSV (p : BytesN32) (n : Z).

Record Store := mkStore {
  admin : option Address; windows : gmap Z ProgramWindow; budgets : gmap Z AwardBudget
}.
Definition put_admin (x : Address) (st : Store) : Store := mkStore (Some x) (windows st) (budgets st).
Definition put_window (p : BytesN32) (x : ProgramWindow) (st : Store) : Store :=
  mkStore (admin st) (<[p := x]> (windows st)) (budgets st).
Definition put_budget (p : BytesN32) (x : AwardBudget) (st : Store) : Store :=
  mkStore (admin st) (windows st) (<[p := x]> (budgets st)).

(** A reservation or a release: the version, the count and the committed amount. *)
Definition counted (n count committed : Z) (x : AwardBudget) : AwardBudget :=
  mkBudget n (max_recipients x) (per_award_amount x) (total_budget x) count committed.

Section Contract.
Context {L : Type}.
Abbreviation M := (Contract L Store Event ContractError).

Definition initialize (x : Address) : M unit :=
  o <- load admin ;;
  reject_if (bool_decide (is_Some o)) AlreadyInitialized ;;;
  require_auth x ;;;
  save (put_admin x).

Definition require_admin (caller : Address) : M unit := require_admin_of admin NotInitialized NotAdmin caller.

Definition set_program_window (caller : Address) (p : BytesN32) (expected opens closes offset grace : Z) : M Z :=
  require_admin caller ;;;
  current <- load (λ st, from_option pw_version 0 (windows st !! p)) ;;
  reject_if (negb (expected =? current)) VersionConflict ;;;
  n <- ok_or (checked_add_u32 current 1) VersionOverflow ;;
  reject_if (closes <=? opens) InvalidWindow ;;;
  _ <- ok_or (checked_add_u64 closes grace) WindowOverflow ;;
  save (put_window p (mkWindow n opens closes offset grace)) ;;;
  publish (WINSET p n) ;;;
  ret n.

Definition get_program_window (p : BytesN32) : M ProgramWindow :=
  o <- load (λ st, windows st !! p) ;; ok_or o WindowNotFound.

Definition is_open (p : BytesN32) : M bool :=
  x <- get_program_window p ;;
  t <- now ;;
  ret ((opens_at x <=? t) && (t <=? closes_at x)).

Definition is_within_grace (p : BytesN32) : M bool :=
  x <- get_program_window p ;;
  t <- now ;;
  if t <=? closes_at x then ret false
  else
    grace_end <- ok_or (checked_add_u64 (closes_at x) (grace_period_seconds x)) WindowOverflow ;;
    ret (t <=? grace_end).

Definition configure_award_budget (caller : Address) (p : BytesN32) (expected recipients amount total : Z) : M unit :=
  require_admin caller ;;;
  existing <- load (λ st, budgets st !! p) ;;
  let current := from_option ab_version 0 existing in
  reject_if (negb (expected =? current)) VersionConflict ;;;
  n <- ok_or (checked_add_u32 current 1) VersionOverflow ;;
  reject_if ((recipients =? 0) || (amount <=? 0) || (total <=? 0)) InvalidBudgetConfig ;;;
  required <- ok_or (checked_mul_i128 recipients amount) InvalidBudgetConfig ;;
  reject_if (total <? required) InvalidBudgetConfig ;;;
  (match existing with
   | Some x => reject_if ((0 <? awarded_count x) || (0 <? committed_amount x)) BudgetAlreadyCommitted
   | None => ret tt
   end) ;;;
  save (put_budget p (mkBudget n recipients amount total 0 0)) ;;;
  publish (BUDGSET p).

Definition reserve_award (caller : Address) (p : BytesN32) : M Z :=
  require_admin caller ;;;
  o <- load (λ st, budgets st !! p) ;;
  x <- ok_or o BudgetNotFound ;;
  reject_if (max_recipients x <=? awarded_count x) CapacityExceeded ;;;
  new_committed <- ok_or (checked_add_i128 (committed_amount x) (per_award_amount x)) BudgetExceeded ;;
  reject_if (total_budget x <? new_committed) BudgetExceeded ;;;
  count <- ok_or (checked_add_u32 (awarded_count x) 1) CapacityExceeded ;;
  n <- ok_or (checked_add_u32 (ab_version x) 1) VersionOverflow ;;
  save (put_budget p (counted n count new_committed x)) ;;;
  publish (AWDRSV p count) ;;;
  ret count.

Definition release_award (caller : Address) (p : BytesN32) : M unit :=
  require_admin caller ;;;
  o <- load (λ st, budgets st !! p) ;;
  x <- ok_or o BudgetNotFound ;;
  reject_if (awarded_count x =? 0) NoAwardsReserved ;;;
  count <- ok_or (checked_sub_u32 (awarded_count x) 1) NoAwardsReserved ;;
  committed <- ok_or (checked_sub_i128 (committed_amount x) (per_award_amount x)) NoAwardsReserved ;;
  n <- ok_or (checked_add_u32 (ab_version x) 1) VersionOverflow ;;
  save (put_budget p (counted n count committed x)).

Definition get_award_budget (p : BytesN32) : M AwardBudget :=
  o <- load (λ st, budgets st !! p) ;; ok_or o BudgetNotFound.

(** [saturating_sub] *)
Definition remaining_capacity (p : BytesN32) : M Z :=
  x <- get_award_budget p ;; ret (Z.max 0 (max_recipients x - awarded_count x)).

Definition version : M Z := ret CONTRACT_VERSION.

(** ** Calls *)

Inductive Call :=
| CInitialize (x : Address)
| CWindow (caller : Address) (p : BytesN32) (expected opens closes offset grace : Z)
| CBudget (caller : Address) (p : BytesN32) (expected recipients amount total : Z)
| CReserve (caller : Address) (p : BytesN32)
| CRelease (caller : Address) (p : BytesN32).

Definition exec (c : Call) : M unit :=
  match c with
  | CInitialize x => initialize x
  | CWindow x p n o c z g => ignore (set_program_window x p n o c z g)
  | CBudget x p n r m t => configure_award_budget x p n r m t
  | CReserve x p => ignore (reserve_award x p)
  | CRelease x p => release_award x p
  end.
End Contract.

(** The declared widths of the arguments. *)
Definition valid (e : Env) (c : Call) : Prop :=
  0 ≤ timestamp e ≤ u64_max ∧
  match c with
  | CWindow _ _ n o c _ g => 0 ≤ n ≤ u32_max ∧ 0 ≤ o ≤ u64_max ∧ 0 ≤ c ≤ u64_max ∧ 0 ≤ g ≤ u64_max
  | CBudget _ _ n r m t => 0 ≤ n ≤ u32_max ∧ 0 ≤ r ≤ u32_max ∧ i128_min ≤ m ≤ i128_max ∧ i128_min ≤ t ≤ i128_max
  | _ => True
  end.

(** ** What the calls do *)

Definition window_ok (x : ProgramWindow) : Prop :=
  0 ≤ opens_at x < closes_at x ∧ 0 ≤ grace_period_seconds x ∧ closes_at x + grace_period_seconds x ≤ u64_max.

Definition is_admin (e : Env) (st : Store) (x : Address) : Prop := admin st = Some x ∧ authorized e x = true.

Inductive effect (e : Env) (st : Store) : Call → Store → Prop :=
| E_initialize x : admin st = None → effect e st (CInitialize x) (put_admin x st)
| E_window x p n o c z g :
    is_admin e st x → n = from_option pw_version 0 (windows st !! p) → n + 1 ≤ u32_max → window_ok (mkWindow (n + 1) o c z g) →
    effect e st (CWindow x p n o c z g) (put_window p (mkWindow (n + 1) o c z g) st)
| E_budget x p n r m t :
    is_admin e st x → n = from_option ab_version 0 (budgets st !! p) → n + 1 ≤ u32_max →
    0 < r → 0 < m → r * m ≤ t → (∀ y, budgets st !! p = Some y → awarded_count y ≤ 0 ∧ committed_amount y ≤ 0) →
    effect e st (CBudget x p n r m t) (put_budget p (mkBudget (n + 1) r m t 0 0) st)
| E_reserve x p y :
    is_admin e st x → budgets st !! p = Some y → awarded_count y < max_recipients y →
    committed_amount y + per_award_amount y ≤ total_budget y → ab_version y + 1 ≤ u32_max →
    effect e st (CReserve x p)
      (put_budget p (counted (ab_version y + 1) (awarded_count y + 1) (committed_amount y + per_award_amount y) y) st)
| E_release x p y :
    is_admin e st x → budgets st !! p = Some y → awarded_count y ≠ 0 → ab_version y + 1 ≤ u32_max →
    effect e st (CRelease x p)
      (put_budget p (counted (ab_version y + 1) (awarded_count y - 1) (committed_amount y - per_award_amount y) y) st).

(** ** The invariant *)

(** What is committed is the awards that are reserved, and they fit. *)
Definition budget_ok (x : AwardBudget) : Prop :=
  1 ≤ ab_version x ≤ u32_max ∧ 0 < max_recipients x ≤ u32_max ∧ 0 < per_award_amount x ∧ total_budget x ≤ i128_max ∧
  max_recipients x * per_award_amount x ≤ total_budget x ∧ 0 ≤ awarded_count x ≤ max_recipients x ∧
  committed_amount x = awarded_count x * per_award_amount x.

Record inv (st : Store) : Prop := {
  inv_windows p x : windows st !! p = Some x → window_ok x ∧ 1 ≤ pw_version x ≤ u32_max;
  inv_budgets p x : budgets st !! p = Some x → budget_ok x
}.

Lemma committed_fits x : budget_ok x → 0 ≤ committed_amount x ≤ total_budget x.
Proof. intros (_ & ? & ? & _ & ? & ? & ->). nia. Qed.

Section Effects.
Context {L : Type}.
Abbreviation W := (World L Store Event).
Abbreviation M := (Contract L Store Event ContractError).
Implicit Types (w : W).

Lemma programs_effect c e w w' u :
  valid e c → (exec c : M unit) e w = Done w' u → ledger w' = ledger w ∧ effect e (store w) c (store w').
Proof.
  intros [_ Hv] Hrun. destruct c as [x|x p n o c z g|x p n r m t|x p|x p]; simpl in Hrun, Hv;
    try (apply ignore_done in Hrun as [? Hrun]).
  - unfold initialize in Hrun. run_inv. bool_prop. split; [done|]. apply E_initialize. by apply eq_None_not_Some.
  - unfold set_program_window, require_admin in Hrun. run_inv. bool_prop. checked_prop. split; [done|].
    match goal with H : n = _ |- _ => rewrite <-H in * end. apply E_window; try done; [lia|]. unfold window_ok. simpl. lia.
  - unfold configure_award_budget, require_admin in Hrun. run_inv. bool_prop. checked_prop.
    destruct (budgets (store w) !! p) as [y|] eqn:Hy; run_inv; bool_prop; simpl in *; subst n; (split; [done|]).
    + pose proof (E_budget e (store w) x p (ab_version y) r m t) as He. rewrite Hy in He. apply He; try done; try lia.
      intros y' [= <-]. done.
    + pose proof (E_budget e (store w) x p 0 r m t) as He. rewrite Hy in He. apply He; try done; lia.
  - unfold reserve_award, require_admin in Hrun. run_inv. bool_prop. checked_prop. split; [done|]. apply E_reserve; try done; lia.
  - unfold release_award, require_admin in Hrun. run_inv. bool_prop. checked_prop. split; [done|]. apply E_release; try done; lia.
Qed.

Lemma programs_effect_inv e st c st' : valid e c → inv st → effect e st c st' → inv st'.
Proof.
  intros [_ Hv] [H1 H2] Heff.
  destruct Heff as [x Ha|x p n o c z g Ha Hn Hmax Hw|x p n r m t Ha Hn Hmax Hr Hm Ht Hy|x p y Ha Hy Hlt Hle Hmax|x p y Ha Hy Hne Hmax];
    simpl in Hv; [by split|..]; (split; [intros q z'|intros q z']); simpl; try apply H1; try apply H2.
  - rewrite lookup_insert. case_decide as Hq; [|apply H1]. intros [= <-]. split; [done|simpl; lia].
  - rewrite lookup_insert. case_decide as Hq; [|apply H2]. intros [= <-]. unfold budget_ok. simpl.
    assert (0 ≤ n) by (rewrite Hn; destruct (budgets st !! p) as [y'|] eqn:Hy'; simpl; [apply H2 in Hy'; unfold budget_ok in Hy'; lia|lia]).
    split_and!; lia.
  - rewrite lookup_insert. case_decide as Hq; [|apply H2]. intros [= <-]. apply H2 in Hy. unfold budget_ok in *. simpl. split_and!; lia.
  - rewrite lookup_insert. case_decide as Hq; [|apply H2]. intros [= <-]. apply H2 in Hy. unfold budget_ok in *. simpl. split_and!; lia.
Qed.

Definition empty_store : Store := mkStore None ∅ ∅.
Definition deployed (w : W) : Prop := store w = empty_store.
Abbreviation Reach this := (reachable exec valid this (λ _ _, True) deployed).

Lemma programs_reachable this w : Reach this w → inv (store w).
Proof.
  apply (reachable_inv _ _ _ _ _ (λ w, inv (store w))).
  - intros w0 ->. done.
  - intros c e w0 w1 u _ Hv Hi Hrun. destruct (programs_effect c e w0 w1 u Hv Hrun) as [_ Heff]. by eapply programs_effect_inv.
  - done.
Qed.
End Effects.

(** ** The properties *)

Definition reserves (p : BytesN32) (_ : Env) (c : Call) : bool := match c with CReserve _ q => bool_decide (q = p) | _ => false end.
Definition releases (p : BytesN32) (_ : Env) (c : Call) : bool := match c with CRelease _ q => bool_decide (q = p) | _ => false end.
Definition awarded (st : Store) (p : BytesN32) : Z := from_option awarded_count 0 (budgets st !! p).

Section Theorems.
Context {L : Type}.
Abbreviation W := (World L Store Event).
Abbreviation M := (Contract L Store Event ContractError).
Implicit Types (w : W).
Abbreviation Reach this := (reachable exec valid this (λ _ _, True) deployed).

(** C25: Awards are counted.  Over any calls from a reachable world the awards of a program are those of
    before, plus the reservations that returned, minus the releases that did; they are 0 to the
    maximum, commit their number times the amount of one, within the total budget, and the
    remaining capacity is what is left of the maximum. *)
Theorem awards_counted this w calls p e :
  Reach this w → Forall (λ ec : Env * Call, self ec.1 = this ∧ valid ec.1 ec.2) calls →
  let w' := run_calls exec calls w in
  awarded (store w') p = awarded (store w) p + accepted exec (reserves p) calls w - accepted exec (releases p) calls w ∧
  ∀ x, budgets (store w') !! p = Some x →
    0 ≤ awarded_count x ≤ max_recipients x ∧ committed_amount x = awarded_count x * per_award_amount x ∧
    committed_amount x ≤ total_budget x ∧
    invoke (remaining_capacity p) e w' = (w', Returned (max_recipients x - awarded_count x)).
Proof.
  intros Hw%programs_reachable Hcalls w'. rewrite Forall_forall in Hcalls.
  destruct (accepted_balance exec (λ w, inv (store w)) (λ w, awarded (store w) p) (reserves p) (releases p) calls w) as [Hi Hn]; [|done|].
  - intros e0 c w0 w1 u H0 Hin Hrun. destruct (Hcalls _ Hin) as [_ Hv]. destruct (programs_effect c e0 w0 w1 u Hv Hrun) as [_ Heff].
    split; [by eapply programs_effect_inv|]. unfold awarded.
    destruct Heff as [x Ha|x q n o c z g Ha Hq Hmax Hwin|x q n r m t Ha Hq Hmax Hr Hm Ht Hy|x q y Ha Hy Hlt Hle Hmax|x q y Ha Hy Hne Hmax];
      simpl; try lia; rewrite lookup_insert; destruct (decide (q = p)) as [->|Hqp];
      rewrite ?(bool_decide_eq_true_2 (p = p)), ?(bool_decide_eq_false_2 (q = p)) by done; try lia.
    + destruct (budgets (store w0) !! p) as [y|] eqn:Hb; simpl; [|lia]. specialize (Hy y eq_refl).
      apply (inv_budgets _ H0) in Hb. unfold budget_ok in Hb. lia.
    + rewrite Hy. simpl. lia.
    + rewrite Hy. simpl. lia.
  - split; [done|]. intros x Hx. fold w' in Hi. pose proof (inv_budgets _ Hi _ _ Hx) as Hok. pose proof (committed_fits _ Hok).
    destruct Hok as (_ & _ & _ & _ & _ & Hc & Hcm). split_and!; try done; try lia.
    unfold invoke, remaining_capacity, get_award_budget. cbv [bind load ok_or ret fail]. rewrite Hx. by rewrite Z.max_r by lia.
Qed.

(** A reservation, on every branch.  By the administrator it is refused only without a budget, at the
    maximum, or at the largest version number; the budget itself never refuses one. *)
Theorem reserve_exact this w e x p :
  Reach this w → is_admin e (store w) x →
  invoke (reserve_award x p) e w =
    match budgets (store w) !! p with
    | None => (w, Errored BudgetNotFound)
    | Some y =>
        if max_recipients y <=? awarded_count y then (w, Errored CapacityExceeded)
        else if u32_max <=? ab_version y then (w, Errored VersionOverflow)
        else
          (mkWorld (ledger w)
             (put_budget p (counted (ab_version y + 1) (awarded_count y + 1) ((awarded_count y + 1) * per_award_amount y) y) (store w))
             (log w ++ [AWDRSV p (awarded_count y + 1)]), Returned (awarded_count y + 1))
    end.
Proof.
  intros Hi%programs_reachable [Ha Hau]. unfold invoke, reserve_award, require_admin, require_admin_of, require_auth.
  cbv [bind load ok_or ret fail reject_if]. rewrite Ha, bool_decide_eq_true_2, Hau by done. cbn [negb].
  destruct (budgets (store w) !! p) as [y|] eqn:Hy; [|done].
  destruct (inv_budgets _ Hi _ _ Hy) as (Hv & Hm & Hp & Htot & Hfit & Hc & Hcom).
  destruct (Z.leb_spec (max_recipients y) (awarded_count y)) as [|Hlt]; [done|].
  replace (committed_amount y + per_award_amount y) with ((awarded_count y + 1) * per_award_amount y) by lia.
  assert (0 ≤ (awarded_count y + 1) * per_award_amount y ≤ total_budget y) as Hb by nia.
  unfold checked_add_i128, checked_add_u32. replace (committed_amount y + per_award_amount y) with ((awarded_count y + 1) * per_award_amount y) by lia.
  rewrite checked_in by range_lia. rewrite (proj2 (Z.ltb_ge _ _)) by lia. rewrite checked_in by lia.
  destruct (Z.leb_spec u32_max (ab_version y)).
  - by rewrite (proj2 (checked_None _ _ _)) by lia.
  - by rewrite checked_in by lia.
Qed.

(** The phases of a window.  Wherever a window is set, a program is open exactly from its opening to
    its closing instant, in grace exactly after it to the end of the grace period, never both, and
    neither query fails. *)
Theorem window_phases this w e p x :
  Reach this w → windows (store w) !! p = Some x →
  ∃ open grace : bool,
    invoke (is_open p) e w = (w, Returned open) ∧ invoke (is_within_grace p) e w = (w, Returned grace) ∧
    (open = true ↔ opens_at x ≤ timestamp e ≤ closes_at x) ∧
    (grace = true ↔ closes_at x < timestamp e ≤ closes_at x + grace_period_seconds x) ∧ open && grace = false.
Proof.
  intros Hi%programs_reachable Hx. destruct (inv_windows _ Hi _ _ Hx) as [[Ho [Hg Hm]] _].
  exists ((opens_at x <=? timestamp e) && (timestamp e <=? closes_at x)),
    (negb (timestamp e <=? closes_at x) && (timestamp e <=? closes_at x + grace_period_seconds x)).
  unfold invoke, is_open, is_within_grace, get_program_window. cbv [bind load ok_or ret fail now]. rewrite Hx.
  unfold checked_add_u64. rewrite checked_in by range_lia.
  split_and!; [done|by destruct (timestamp e <=? closes_at x)| | |by destruct (timestamp e <=? closes_at x), (opens_at x <=? timestamp e)].
  - rewrite andb_true_iff, !Z.leb_le. done.
  - rewrite andb_true_iff, negb_true_iff, Z.leb_gt, Z.leb_le. done.
Qed.

(** Terms hold while awards are reserved: no call by anyone changes the maximum, the amount or the
    total of a program that has reserved awards, and every configuration of it is refused. *)
Theorem terms_fixed this w e c p x :
  Reach this w → valid e c → budgets (store w) !! p = Some x → 0 < awarded_count x →
  (∃ y, budgets (store (invoke (exec c) e w).1) !! p = Some y ∧
    (max_recipients y, per_award_amount y, total_budget y) = (max_recipients x, per_award_amount x, total_budget x)) ∧
  (∀ caller n r m t, c = CBudget caller p n r m t → ¬ has_returned (invoke (exec c) e w).2 = true).
Proof.
  intros Hi%programs_reachable Hv Hx Hpos. split.
  - unfold invoke. destruct (exec c e w) as [w' u| |] eqn:Hrun; simpl; [|by exists x..].
    destruct (programs_effect c e w w' u Hv Hrun) as [_ Heff].
    destruct Heff as [? Ha|? q n o c z g Ha Hq Hmax Hwin|? q n r m t Ha Hq Hmax Hr Hm Ht Hy|? q y Ha Hy Hlt Hle Hmax|? q y Ha Hy Hne Hmax];
      simpl; try (by exists x); rewrite lookup_insert; case_decide as Hqp; try (by exists x); subst q.
    + destruct (Hy x Hx). lia.
    + rewrite Hx in Hy. injection Hy as <-. by eexists.
    + rewrite Hx in Hy. injection Hy as <-. by eexists.
  - intros caller n r m t -> Hret. unfold invoke in Hret. destruct (exec _ e w) as [w' u| |] eqn:Hrun; try done.
    destruct (programs_effect _ e w w' u Hv Hrun) as [_ Heff].
    inversion Heff as [| |? ? ? ? ? ? ? ? ? ? ? ? Hy| |]; subst. destruct (Hy x Hx). lia.
Qed.
End Theorems.

(** ** Concrete runs *)
Module Runs.
Definition this : Address := addr 0.
Definition boss : Address := addr 1.
Abbreviation Reach := (reachable exec valid this (λ _ _, True) deployed).

Definition at_time (t : Z) : Env := mkEnv t this (λ _, true).
Definition w0 : World unit Store Event := mkWorld tt empty_store [].
Definition setup : list (Env * Call) :=
  [(at_time 10, CInitialize boss); (at_time 11, CWindow boss 7 0 100 200 0 50); (at_time 12, CBudget boss 7 0 2 500 1100)].
Definition season : list (Env * Call) :=
  [(at_time 20, CReserve boss 7); (at_time 21, CReserve boss 7); (at_time 22, CReserve boss 7); (at_time 23, CRelease boss 7)].
Definition w1 : World unit Store Event := run_calls exec setup w0.
Definition w2 : World unit Store Event := run_calls exec (setup ++ season) w0.
Definition budget : AwardBudget := mkBudget 4 2 500 1100 1 500.

Lemma programs_runs calls :
  Forall (λ ec : Env * Call, self ec.1 = this ∧ valid ec.1 ec.2) calls → Reach (run_calls exec calls w0).
Proof. apply reachable_run. by apply reach_init. Qed.

Ltac valid_calls := repeat constructor; simpl; try done; range_lia.

Lemma programs_w1_reach : Reach w1.
Proof. apply programs_runs. valid_calls. Qed.
Lemma programs_w2_reach : Reach w2.
Proof. apply programs_runs. valid_calls. Qed.

Lemma awards_counted_witness :
  awarded (store (run_calls exec season w1)) 7 = 2 - 1 ∧
  invoke (remaining_capacity 7) (at_time 30) (run_calls exec season w1) = (run_calls exec season w1, Returned 1).
Proof.
  destruct (awards_counted this w1 season 7 (at_time 30)) as [Hn Hx]; [apply programs_w1_reach|valid_calls|]. split.
  - etrans; [exact Hn|]. vm_compute. reflexivity.
  - destruct (Hx budget) as (_ & _ & _ & Hr); [vm_compute; reflexivity|exact Hr].
Defined.

Lemma reserve_exact_witness :
  (invoke (reserve_award boss 7) (at_time 30) w2).2 = Returned 2 ∧ (invoke (reserve_award boss 8) (at_time 30) w2).2 = Errored BudgetNotFound.
Proof.
  split; rewrite (reserve_exact this w2) by (apply programs_w2_reach || (split; vm_compute; reflexivity)); vm_compute; reflexivity.
Defined.

Lemma window_phases_witness : ∃ grace, invoke (is_within_grace 7) (at_time 250) w2 = (w2, Returned grace) ∧ grace = true.
Proof.
  destruct (window_phases this w2 (at_time 250) 7 (mkWindow 1 100 200 0 50)) as (o & g & _ & Hg & _ & Hiff & _);
    [apply programs_w2_reach|vm_compute; reflexivity|].
  exists g. split; [exact Hg|]. apply Hiff. simpl. lia.
Defined.

Lemma terms_fixed_witness : ¬ has_returned (invoke (exec (CBudget boss 7 4 3 500 2000)) (at_time 30) w2).2 = true.
Proof.
  destruct (terms_fixed this w2 (at_time 30) (CBudget boss 7 4 3 500 2000) 7 budget) as [_ Hno];
    [apply programs_w2_reach|unfold valid; simpl; range_lia|vm_compute; reflexivity|simpl; lia|].
  exact (Hno boss 4 3 500 2000 eq_refl).
Defined.
End Runs.
