(* ===== verification/Eligibility.v ===== *)
(** * Eligibility ([scholarship-eligibility/src/lib.rs])

    Programs publish immutable rules in numbered versions; allowlisted issuers attest, for a while
    and revocably, that a subject satisfies a named type or a typed mentorship criterion; a subject
    is eligible when the latest rule is met by attestations that hold now.  The hash and the XDR
    encoding of criteria are parameters. *)
From S2P Require Import Prelude Machine Host.

Definition CONTRACT_VERSION : Z := 2.
Definition MAX_RULE_REQUIREMENTS : Z := 10.
Definition MAX_MENTORSHIP_CRITERIA : Z := 20.
Definition global_scope : BytesN32 := 0.

Inductive ContractError :=
| NotInitialized | AlreadyInitialized | NotAdmin | NotAuthorizedIssuer | EmptyRule | RuleTooLarge | NoRulePublished
| RuleNotFound | InvalidExpiry | AttestationNotFound | NotAttestationIssuer | VersionOverflow | EmptyMentorshipRule
| MentorshipRuleTooLarge | InvalidCriterion | NoMentorshipRulePublished | MentorshipRuleNotFound | CriterionNotInRule
| CriterionAttestationNotFound | NotCriterionAttestationIssuer.

Record EligibilityRule := mkRule { er_version : Z; required_types : list Symbol; er_published_at : Z }.
Record Attestation := mkAttestation { at_issuer : Address; at_expiry : Z; at_issued_at : Z; at_revoked : bool }.

Inductive MentorshipCriterion :=
| Role (x : BytesN32)
| Organization (x : BytesN32)
| CourseProgress (x : BytesN32) (progress_bps : Z)
| Skill (x : BytesN32) (minimum_level : Z)
| GeographyPolicy (x : BytesN32)
| AgeGuardian (minimum_age : Z) (guardian : bool)
| Prerequisite (x : BytesN32).
#[export] Instance MentorshipCriterion_eq_dec : EqDecision MentorshipCriterion.
Proof. solve_decision. Defined.

Record MentorshipEligibilityRule := mkMentorshipRule {
  mr_version : Z; all_of : list MentorshipCriterion; any_of : list MentorshipCriterion; mr_published_at : Z
}.
Record CriterionAttestation := mkCriterion {
  ca_issuer : Address; evidence_hash : BytesN32; ca_expiry : Z; ca_issued_at : Z; ca_revoked : bool
}.

Inductive Event :=
| RULEPUB (p : BytesN32) (n : Z)
| MRULEPUB (p : BytesN32) (n : Z)
| CRITATST (issuer subject : Address) (p h : BytesN32) (expiry : Z)
| CRITRVK (caller subject : Address) (p h : BytesN32)
| ATTEST (issuer subject : Address) (ty : Symbol).

Record Store := mkStore {
  admin : option Address;
  issuers : gmap Address bool;
  rule_versions : gmap Z Z;
  rules : gmap (Z * Z) EligibilityRule;
  attestations : gmap (Address * Z * Symbol) Attestation;
  mentorship_versions : gmap Z Z;
  mentorship_rules : gmap (Z * Z) MentorshipEligibilityRule;
  criterion_attestations : gmap (Address * Z * Z) CriterionAttestation
}.

Definition put_admin (x : Address) (st : Store) : Store :=
  mkStore (Some x) (issuers st) (rule_versions st) (rules st) (attestations st) (mentorship_versions st) (mentorship_rules st)
    (criterion_attestations st).
Definition put_issuer (x : Address) (b : bool) (st : Store) : Store :=
  mkStore (admin st) (<[x := b]> (issuers st)) (rule_versions st) (rules st) (attestations st) (mentorship_versions st)
    (mentorship_rules st) (criterion_attestations st).
Definition put_rule (p : BytesN32) (n : Z) (x : EligibilityRule) (st : Store) : Store :=
  mkStore (admin st) (issuers st) (rule_versions st) (<[(p, n) := x]> (rules st)) (attestations st) (mentorship_versions st)
    (mentorship_rules st) (criterion_attestations st).
Definition put_rule_version (p : BytesN32) (n : Z) (st : Store) : Store :=
  mkStore (admin st) (issuers st) (<[p := n]> (rule_versions st)) (rules st) (attestations st) (mentorship_versions st)
    (mentorship_rules st) (criterion_attestations st).
Definition put_attestation (k : Address * Z * Symbol) (x : Attestation) (st : Store) : Store :=
  mkStore (admin st) (issuers st) (rule_versions st) (rules st) (<[k := x]> (attestations st)) (mentorship_versions st)
    (mentorship_rules st) (criterion_attestations st).
Definition put_mentorship_rule (p : BytesN32) (n : Z) (x : MentorshipEligibilityRule) (st : Store) : Store :=
  mkStore (admin st) (issuers st) (rule_versions st) (rules st) (attestations st) (mentorship_versions st)
    (<[(p, n) := x]> (mentorship_rules st)) (criterion_attestations st).
Definition put_mentorship_version (p : BytesN32) (n : Z) (st : Store) : Store :=
  mkStore (admin st) (issuers st) (rule_versions st) (rules st) (attestations st) (<[p := n]> (mentorship_versions st))
    (mentorship_rules st) (criterion_attestations st).
Definition put_criterion (k : Address * Z * Z) (x : CriterionAttestation) (st : Store) : Store :=
  mkStore (admin st) (issuers st) (rule_versions st) (rules st) (attestations st) (mentorship_versions st)
    (mentorship_rules st) (<[k := x]> (criterion_attestations st)).

Definition revoke (x : Attestation) : Attestation := mkAttestation (at_issuer x) (at_expiry x) (at_issued_at x) true.
Definition revoke_criterion (x : CriterionAttestation) : CriterionAttestation :=
  mkCriterion (ca_issuer x) (evidence_hash x) (ca_expiry x) (ca_issued_at x) true.

Definition authorized_issuer (x : Address) (st : Store) : bool := default false (issuers st !! x).

(** An attestation that exists, is not revoked and has not expired. *)
Definition valid_attestation (t : Z) (st : Store) (s : Address) (scope : BytesN32) (ty : Symbol) : bool :=
  match attestations st !! (s, scope, ty) with
  | Some x => negb (at_revoked x) && (t <? at_expiry x)
  | None => false
  end.

Definition is_valid_criterion (c : MentorshipCriterion) : bool :=
  match c with
  | Role _ | Organization _ | GeographyPolicy _ | Prerequisite _ => true
  | CourseProgress _ bps => (0 <? bps) && (bps <=? 10000)
  | Skill _ level => 0 <? level
  | AgeGuardian age _ => age <=? 130
  end.

Section Contract.
Context {L : Type} (sha256 : Bytes → BytesN32) (to_xdr : MentorshipCriterion → Bytes).
Abbreviation M := (Contract L Store Event ContractError).

Definition criterion_hash (c : MentorshipCriterion) : BytesN32 :=
  sha256 (str_bytes "CHAINVERSE_MENTORSHIP_ELIGIBILITY_V1" ++ to_xdr c).

Definition valid_criterion_attestation (t : Z) (st : Store) (s : Address) (p : BytesN32) (c : MentorshipCriterion) : bool :=
  match criterion_attestations st !! (s, p, criterion_hash c) with
  | Some x => negb (ca_revoked x) && (t <? ca_expiry x)
  | None => false
  end.

Definition listed (c : MentorshipCriterion) (l : list MentorshipCriterion) : bool :=
  existsb (λ other, criterion_hash c =? criterion_hash other) l.
(** A criterion is met again further on in its group, or in [others]. *)
Fixpoint repeats (l others : list MentorshipCriterion) : bool :=
  match l with
  | [] => false
  | c :: l => listed c (l ++ others) || repeats l others
  end.

Definition initialize (x : Address) : M unit :=
  o <- load admin ;;
  reject_if (bool_decide (is_Some o)) AlreadyInitialized ;;;
  require_auth x ;;;
  save (put_admin x).

Definition require_admin (caller : Address) : M unit := require_admin_of admin NotInitialized NotAdmin caller.

Definition add_issuer (caller x : Address) : M unit := require_admin caller ;;; save (put_issuer x true).
Definition remove_issuer (caller x : Address) : M unit := require_admin caller ;;; save (put_issuer x false).
Definition is_authorized_issuer (x : Address) : M bool := load (authorized_issuer x).

Definition publish_eligibility_rule (caller : Address) (p : BytesN32) (types : list Symbol) : M Z :=
  require_admin caller ;;;
  reject_if (bool_decide (types = [])) EmptyRule ;;;
  reject_if (MAX_RULE_REQUIREMENTS <? Z.of_nat (length types)) RuleTooLarge ;;;
  current <- load (λ st, default 0 (rule_versions st !! p)) ;;
  n <- ok_or (checked_add_u32 current 1) VersionOverflow ;;
  t <- now ;;
  save (put_rule p n (mkRule n types t)) ;;;
  save (put_rule_version p n) ;;;
  publish (RULEPUB p n) ;;;
  ret n.

Definition get_latest_rule_version (p : BytesN32) : M Z :=
  o <- load (λ st, rule_versions st !! p) ;; ok_or o NoRulePublished.
Definition get_eligibility_rule (p : BytesN32) (n : Z) : M EligibilityRule :=
  o <- load (λ st, rules st !! (p, n)) ;; ok_or o RuleNotFound.

Definition publish_mentorship_eligibility_rule (caller : Address) (p : BytesN32) (all any : list MentorshipCriterion) : M Z :=
  require_admin caller ;;;
  count <- ok_or (checked_add_u32 (Z.of_nat (length all)) (Z.of_nat (length any))) MentorshipRuleTooLarge ;;
  reject_if (count =? 0) EmptyMentorshipRule ;;;
  reject_if (MAX_MENTORSHIP_CRITERIA <? count) MentorshipRuleTooLarge ;;;
  reject_if (negb (forallb is_valid_criterion (all ++ any))) InvalidCriterion ;;;
  reject_if (repeats all any) InvalidCriterion ;;;
  reject_if (repeats any []) InvalidCriterion ;;;
  current <- load (λ st, default 0 (mentorship_versions st !! p)) ;;
  n <- ok_or (checked_add_u32 current 1) VersionOverflow ;;
  t <- now ;;
  save (put_mentorship_rule p n (mkMentorshipRule n all any t)) ;;;
  save (put_mentorship_version p n) ;;;
  publish (MRULEPUB p n) ;;;
  ret n.

Definition get_latest_mentorship_rule_version (p : BytesN32) : M Z :=
  o <- load (λ st, mentorship_versions st !! p) ;; ok_or o NoMentorshipRulePublished.
Definition get_mentorship_eligibility_rule (p : BytesN32) (n : Z) : M MentorshipEligibilityRule :=
  o <- load (λ st, mentorship_rules st !! (p, n)) ;; ok_or o MentorshipRuleNotFound.

Definition issue_criterion_attestation (issuer s : Address) (p : BytesN32) (c : MentorshipCriterion) (evidence : BytesN32)
    (expiry : Z) : M unit :=
  require_auth issuer ;;;
  b <- is_authorized_issuer issuer ;;
  reject_if (negb b) NotAuthorizedIssuer ;;;
  t <- now ;;
  reject_if (expiry <=? t) InvalidExpiry ;;;
  reject_if (negb (is_valid_criterion c)) InvalidCriterion ;;;
  n <- get_latest_mentorship_rule_version p ;;
  r <- get_mentorship_eligibility_rule p n ;;
  reject_if (negb (listed c (all_of r ++ any_of r))) CriterionNotInRule ;;;
  save (put_criterion (s, p, criterion_hash c) (mkCriterion issuer evidence expiry t false)) ;;;
  publish (CRITATST issuer s p (criterion_hash c) expiry).

Definition get_criterion_attestation (s : Address) (p : BytesN32) (c : MentorshipCriterion) : M CriterionAttestation :=
  o <- load (λ st, criterion_attestations st !! (s, p, criterion_hash c)) ;; ok_or o CriterionAttestationNotFound.

Definition revoke_criterion_attestation (caller s : Address) (p : BytesN32) (c : MentorshipCriterion) : M unit :=
  require_auth caller ;;;
  o <- load (λ st, criterion_attestations st !! (s, p, criterion_hash c)) ;;
  x <- ok_or o CriterionAttestationNotFound ;;
  adm <- load admin ;;
  reject_if (negb (bool_decide (caller = ca_issuer x)) && negb (bool_decide (adm = Some caller))) NotCriterionAttestationIssuer ;;;
  save (put_criterion (s, p, criterion_hash c) (revoke_criterion x)) ;;;
  publish (CRITRVK caller s p (criterion_hash c)).

Definition evaluate_mentorship_eligibility (p : BytesN32) (s : Address) : M bool :=
  n <- get_latest_mentorship_rule_version p ;;
  r <- get_mentorship_eligibility_rule p n ;;
  t <- now ;;
  st <- load id ;;
  ret (forallb (valid_criterion_attestation t st s p) (all_of r) &&
       (bool_decide (any_of r = []) || existsb (valid_criterion_attestation t st s p) (any_of r))).

Definition issue_attestation (issuer s : Address) (scope : BytesN32) (ty : Symbol) (expiry : Z) : M unit :=
  require_auth issuer ;;;
  b <- is_authorized_issuer issuer ;;
  reject_if (negb b) NotAuthorizedIssuer ;;;
  t <- now ;;
  reject_if (expiry <=? t) InvalidExpiry ;;;
  save (put_attestation (s, scope, ty) (mkAttestation issuer expiry t false)) ;;;
  publish (ATTEST issuer s ty).

Definition revoke_attestation (caller s : Address) (scope : BytesN32) (ty : Symbol) : M unit :=
  require_auth caller ;;;
  o <- load (λ st, attestations st !! (s, scope, ty)) ;;
  x <- ok_or o AttestationNotFound ;;
  adm <- load admin ;;
  reject_if (negb (bool_decide (caller = at_issuer x)) && negb (bool_decide (adm = Some caller))) NotAttestationIssuer ;;;
  save (put_attestation (s, scope, ty) (revoke x)).

Definition get_attestation (s : Address) (scope : BytesN32) (ty : Symbol) : M Attestation :=
  o <- load (λ st, attestations st !! (s, scope, ty)) ;; ok_or o AttestationNotFound.
Definition has_valid_attestation (s : Address) (scope : BytesN32) (ty : Symbol) : M bool :=
  t <- now ;; load (λ st, valid_attestation t st s scope ty).

Definition evaluate_eligibility (p : BytesN32) (s : Address) : M bool :=
  n <- get_latest_rule_version p ;;
  r <- get_eligibility_rule p n ;;
  t <- now ;;
  st <- load id ;;
  ret (forallb (λ ty, valid_attestation t st s p ty || valid_attestation t st s global_scope ty) (required_types r)).

Definition version : M Z := ret CONTRACT_VERSION.

(** ** Calls *)

Inductive Call :=
| CInitialize (x : Address)
| CIssuer (caller x : Address) (b : bool)
| CRule (caller : Address) (p : BytesN32) (types : list Symbol)
| CMentorshipRule (caller : Address) (p : BytesN32) (all any : list MentorshipCriterion)
| CIssueCriterion (issuer s : Address) (p : BytesN32) (c : MentorshipCriterion) (evidence : BytesN32) (expiry : Z)
| CRevokeCriterion (caller s : Address) (p : BytesN32) (c : MentorshipCriterion)
| CIssue (issuer s : Address) (scope : BytesN32) (ty : Symbol) (expiry : Z)
| CRevoke (caller s : Address) (scope : BytesN32) (ty : Symbol).

Definition exec (c : Call) : M unit :=
  match c with
  | CInitialize x => initialize x
  | CIssuer a x b => if b then add_issuer a x else remove_issuer a x
  | CRule a p l => ignore (publish_eligibility_rule a p l)
  | CMentorshipRule a p l k => ignore (publish_mentorship_eligibility_rule a p l k)
  | CIssueCriterion i s p c h t => issue_criterion_attestation i s p c h t
  | CRevokeCriterion a s p c => revoke_criterion_attestation a s p c
  | CIssue i s x ty t => issue_attestation i s x ty t
  | CRevoke a s x ty => revoke_attestation a s x ty
  end.
End Contract.

(** The declared widths of the arguments. *)
Definition valid (e : Env) (c : Call) : Prop :=
  0 ≤ timestamp e ≤ u64_max ∧
  match c with CIssue _ _ _ _ t | CIssueCriterion _ _ _ _ _ t => 0 ≤ t ≤ u64_max | _ => True end.
