(* ===== verification/EligibilityTheorems.v ===== *)
(** * Eligibility: invariant and properties

    What each call that returns has checked and does; the invariant: published rules are numbered
    without gaps and within their bounds, the criteria of a rule are different, attestations
    expire after they were issued and each was announced.

    Evaluation against its meaning; a subject becomes eligible only by the word of a trusted issuer
    or a new rule; what is revoked stays revoked until issued again; published rules are final. *)
From S2P Require Import Prelude Machine Host Versions Eligibility.

Definition rule_ok (x : EligibilityRule) : Prop := 1 ≤ Z.of_nat (length (required_types x)) ≤ 10.
Definition criterion_ok (c : MentorshipCriterion) : Prop :=
  match c with
  | CourseProgress _ bps => 0 < bps ≤ 10000
  | Skill _ level => 0 < level
  | AgeGuardian age _ => age ≤ 130
  | _ => True
  end.
Definition criteria (x : MentorshipEligibilityRule) : list MentorshipCriterion := all_of x ++ any_of x.

Lemma is_valid_criterion_iff c : is_valid_criterion c = true ↔ criterion_ok c.
Proof. destruct c; simpl; rewrite ?andb_true_iff, ?Z.ltb_lt, ?Z.leb_le; done. Qed.

(** What is listed under a program, and when. *)
Definition latest_rule (st : Store) (p : BytesN32) : option EligibilityRule :=
  n ← rule_versions st !! p; rules st !! (p, n).
Definition latest_mentorship_rule (st : Store) (p : BytesN32) : option MentorshipEligibilityRule :=
  n ← mentorship_versions st !! p; mentorship_rules st !! (p, n).

Definition is_admin (e : Env) (st : Store) (x : Address) : Prop := admin st = Some x ∧ authorized e x = true.
(** An issuer the administrator trusts, who signs the call. *)
Definition vouches (e : Env) (st : Store) (x : Address) : Prop := issuers st !! x = Some true ∧ authorized e x = true.
Definition may_revoke (e : Env) (st : Store) (issuer x : Address) : Prop :=
  (x = issuer ∨ admin st = Some x) ∧ authorized e x = true.

Section Contract.
Context {L : Type} (sha256 : Bytes → BytesN32) (to_xdr : MentorshipCriterion → Bytes).
Abbreviation hash := (criterion_hash sha256 to_xdr).
Abbreviation M := (Contract L Store Event ContractError).
Abbreviation W := (World L Store Event).
Implicit Types (w : W).

Definition mentorship_rule_ok (x : MentorshipEligibilityRule) : Prop :=
  1 ≤ Z.of_nat (length (criteria x)) ≤ 20 ∧ Forall criterion_ok (criteria x) ∧ NoDup (hash <$> criteria x).

Lemma listed_iff c l : listed sha256 to_xdr c l = true ↔ hash c ∈ hash <$> l.
Proof.
  unfold listed. rewrite existsb_exists, list_elem_of_fmap. setoid_rewrite Z.eqb_eq. setoid_rewrite list_elem_of_In. naive_solver.
Qed.

Lemma repeats_iff l others :
  repeats sha256 to_xdr l others = false ↔ NoDup (hash <$> l) ∧ ∀ c, c ∈ l → hash c ∉ hash <$> others.
Proof.
  induction l as [|c l IH]; simpl; [split; [intros _; split; [constructor|by intros c ?%elem_of_nil]|done]|].
  rewrite orb_false_iff, IH, NoDup_cons, <-not_true_iff_false, listed_iff, fmap_app, elem_of_app. setoid_rewrite elem_of_cons. naive_solver.
Qed.

(** The two walks over the groups find a criterion that occurs twice. *)
Lemma repeats_twice_iff all any :
  repeats sha256 to_xdr all any = false ∧ repeats sha256 to_xdr any [] = false ↔ NoDup (hash <$> all ++ any).
Proof.
  rewrite !repeats_iff, fmap_app, NoDup_app. split.
  - intros [[H1 H2] [H3 _]]. split_and!; [done| |done]. intros x (c & -> & Hc)%list_elem_of_fmap. by apply H2.
  - intros (H1 & H2 & H3). split_and!; [done| |done|intros c _; apply not_elem_of_nil]. intros c Hc. apply H2, list_elem_of_fmap. by exists c.
Qed.

Inductive effect (e : Env) (st : Store) : Call → Store → Prop :=
| E_initialize x : admin st = None → effect e st (CInitialize x) (put_admin x st)
| E_issuer a x b : is_admin e st a → effect e st (CIssuer a x b) (put_issuer x b st)
| E_rule a p l n :
    is_admin e st a → n = default 0 (rule_versions st !! p) + 1 → n ≤ u32_max → rule_ok (mkRule n l (timestamp e)) →
    effect e st (CRule a p l) (put_rule_version p n (put_rule p n (mkRule n l (timestamp e)) st))
| E_mentorship a p all any n :
    is_admin e st a → n = default 0 (mentorship_versions st !! p) + 1 → n ≤ u32_max →
    mentorship_rule_ok (mkMentorshipRule n all any (timestamp e)) →
    effect e st (CMentorshipRule a p all any)
      (put_mentorship_version p n (put_mentorship_rule p n (mkMentorshipRule n all any (timestamp e)) st))
| E_issue_criterion i s p c h t r :
    vouches e st i → timestamp e < t → criterion_ok c → latest_mentorship_rule st p = Some r → hash c ∈ hash <$> criteria r →
    effect e st (CIssueCriterion i s p c h t) (put_criterion (s, p, hash c) (mkCriterion i h t (timestamp e) false) st)
| E_revoke_criterion a s p c x :
    criterion_attestations st !! (s, p, hash c) = Some x → may_revoke e st (ca_issuer x) a →
    effect e st (CRevokeCriterion a s p c) (put_criterion (s, p, hash c) (revoke_criterion x) st)
| E_issue i s p ty t :
    vouches e st i → timestamp e < t →
    effect e st (CIssue i s p ty t) (put_attestation (s, p, ty) (mkAttestation i t (timestamp e) false) st)
| E_revoke a s p ty x :
    attestations st !! (s, p, ty) = Some x → may_revoke e st (at_issuer x) a →
    effect e st (CRevoke a s p ty) (put_attestation (s, p, ty) (revoke x) st).

Lemma eligibility_effect c e w w' u :
  (exec sha256 to_xdr c : M unit) e w = Done w' u → ledger w' = ledger w ∧ effect e (store w) c (store w').
Proof.
  intros Hrun. assert (∀ x st, authorized_issuer x st = true → issuers st !! x = Some true) as Hiss.
  { intros x st. unfold authorized_issuer. destruct (issuers st !! x) as [[]|]; done. }
  assert (∀ (e : Env) st (x y : Address), negb (bool_decide (x = y)) && negb (bool_decide (admin st = Some x)) = false →
    authorized e x = true → may_revoke e st y x) as Hrev.
  { intros e0 st x y [H|H]%andb_false_iff Hx; apply negb_false_iff, bool_decide_eq_true in H; (split; [|done]); auto. }
  destruct c as [x|a x b|a p l|a p all any|i s p c h t|a s p c|i s p ty t|a s p ty]; simpl in Hrun;
    try (apply ignore_done in Hrun as [? Hrun]).
  - unfold initialize in Hrun. run_inv. bool_prop. split; [done|]. apply E_initialize. by apply eq_None_not_Some.
  - destruct b; [unfold add_issuer, require_admin in Hrun|unfold remove_issuer, require_admin in Hrun]; run_inv; split; [done| |done|]; by apply E_issuer.
  - unfold publish_eligibility_rule, require_admin in Hrun. run_inv. bool_prop. checked_prop. split; [done|]. apply E_rule; try done; [lia|].
    unfold rule_ok, MAX_RULE_REQUIREMENTS in *. simpl. destruct l; [done|simpl in *; lia].
  - unfold publish_mentorship_eligibility_rule, require_admin in Hrun. run_inv. bool_prop. checked_prop. split; [done|].
    apply E_mentorship; try done; [lia|]. unfold mentorship_rule_ok, criteria, MAX_MENTORSHIP_CRITERIA in *. simpl. split_and!.
    + rewrite length_app. lia.
    + rewrite length_app. lia.
    + match goal with H : forallb _ _ = true |- _ => rewrite forallb_forall in H; rename H into Hf end.
      apply Forall_forall. intros c Hc. apply is_valid_criterion_iff, Hf. by apply list_elem_of_In.
    + by apply repeats_twice_iff.
  - unfold issue_criterion_attestation, is_authorized_issuer, get_latest_mentorship_rule_version, get_mentorship_eligibility_rule in Hrun.
    run_inv. bool_prop. split; [done|].
    match goal with H : mentorship_versions _ !! _ = Some _ |- _ => rename H into Hv end.
    match goal with H : mentorship_rules _ !! _ = Some ?r |- _ => rename H into Hr; rename r into r' end.
    apply (E_issue_criterion _ _ _ _ _ _ _ _ r'); [by split; [apply Hiss|]|lia|by apply is_valid_criterion_iff| |by apply listed_iff].
    unfold latest_mentorship_rule. by rewrite Hv.
  - unfold revoke_criterion_attestation in Hrun. run_inv. split; [done|]. eapply E_revoke_criterion; [done|by apply Hrev].
  - unfold issue_attestation, is_authorized_issuer in Hrun. run_inv. bool_prop. split; [done|]. apply E_issue; [by split; [apply Hiss|]|lia].
  - unfold revoke_attestation in Hrun. run_inv. split; [done|]. eapply E_revoke; [done|by apply Hrev].
Qed.

(** ** The invariant *)

Record inv (st : Store) : Prop := {
  inv_versions : versions_ok er_version (rule_versions st) (rules st);
  inv_mentorship_versions : versions_ok mr_version (mentorship_versions st) (mentorship_rules st);
  inv_rules p n x : rules st !! (p, n) = Some x → rule_ok x;
  inv_mentorship_rules p n x : mentorship_rules st !! (p, n) = Some x → mentorship_rule_ok x
}.

Lemma eligibility_effect_inv e st c st' : inv st → effect e st c st' → inv st'.
Proof.
  intros [H1 H2 H3 H4] Heff.
  destruct Heff as [x Ha|a x b Ha|a p l n Ha Hn Hmax Hok|a p all any n Ha Hn Hmax Hok|i s p c h t r Hi Ht Hc Hr Hin|a s p c x Hx Ha
    |i s p ty t Hi Ht|a s p ty x Hx Ha]; split; simpl; try done.
  - by apply (versions_next er_version).
  - intros q k x. rewrite lookup_insert. case_decide as Hq; [|apply H3]. by intros [= <-].
  - by apply (versions_next mr_version).
  - intros q k x. rewrite lookup_insert. case_decide as Hq; [|apply H4]. by intros [= <-].
Qed.

Definition empty_store : Store := mkStore None ∅ ∅ ∅ ∅ ∅ ∅ ∅.
Definition deployed (w : W) : Prop := store w = empty_store.

Lemma eligibility_reachable this w : reachable (exec sha256 to_xdr) valid this (λ _ _, True) deployed w → inv (store w).
Proof.
  apply (reachable_inv _ _ _ _ _ (λ w, inv (store w))).
  - intros w0 ->. split; [apply versions_empty|apply versions_empty|done|done].
  - intros c e w0 w1 u _ _ Hi Hrun. destruct (eligibility_effect c e w0 w1 u Hrun) as [_ Heff]. by eapply eligibility_effect_inv.
  - done.
Qed.
End Contract.

(** Every type the latest rule requires is attested now, for the program or globally. *)
Definition eligible (t : Z) (st : Store) (p : BytesN32) (s : Address) : Prop :=
  ∃ r, latest_rule st p = Some r ∧
    ∀ ty, ty ∈ required_types r → ∃ scope x, (scope = p ∨ scope = global_scope) ∧
      attestations st !! (s, scope, ty) = Some x ∧ at_revoked x = false ∧ t < at_expiry x.

Definition issues (s : Address) (scope : BytesN32) (ty : Symbol) (c : Call) : bool :=
  match c with CIssue _ s' scope' ty' _ => bool_decide ((s', scope', ty') = (s, scope, ty)) | _ => false end.

Lemma valid_attestation_iff t st s scope ty :
  valid_attestation t st s scope ty = true ↔ ∃ x, attestations st !! (s, scope, ty) = Some x ∧ at_revoked x = false ∧ t < at_expiry x.
Proof.
  unfold valid_attestation. destruct (attestations st !! _) as [x|]; [|naive_solver].
  rewrite andb_true_iff, negb_true_iff, Z.ltb_lt. naive_solver.
Qed.

Section Theorems.
Context {L : Type} (sha256 : Bytes → BytesN32) (to_xdr : MentorshipCriterion → Bytes).
Abbreviation hash := (criterion_hash sha256 to_xdr).
Abbreviation W := (World L Store Event).
Abbreviation M := (Contract L Store Event ContractError).
Abbreviation exec := (exec (L := L) sha256 to_xdr).
Implicit Types (w : W).
Abbreviation Reach this := (reachable exec valid this (λ _ _, True) deployed).

(** A criterion of a program that holds of a subject now. *)
Definition criterion_holds (t : Z) (st : Store) (p : BytesN32) (s : Address) (c : MentorshipCriterion) : Prop :=
  ∃ x, criterion_attestations st !! (s, p, hash c) = Some x ∧ ca_revoked x = false ∧ t < ca_expiry x.
Definition mentorship_eligible (t : Z) (st : Store) (p : BytesN32) (s : Address) : Prop :=
  ∃ r, latest_mentorship_rule st p = Some r ∧ (∀ c, c ∈ all_of r → criterion_holds t st p s c) ∧
    (any_of r = [] ∨ ∃ c, c ∈ any_of r ∧ criterion_holds t st p s c).

Lemma valid_criterion_iff t st p s c :
  valid_criterion_attestation sha256 to_xdr t st s p c = true ↔ criterion_holds t st p s c.
Proof.
  unfold valid_criterion_attestation, criterion_holds. destruct (criterion_attestations st !! _) as [x|]; [|naive_solver].
  rewrite andb_true_iff, negb_true_iff, Z.ltb_lt. naive_solver.
Qed.

Lemma latest_rule_run {A} (k : EligibilityRule → M A) e w p :
  inv sha256 to_xdr (store w) →
  (n <- get_latest_rule_version p ;; r <- get_eligibility_rule p n ;; k r) e w =
    match latest_rule (store w) p with Some r => k r e w | None => Failed w NoRulePublished end.
Proof.
  intros Hi. unfold get_latest_rule_version, get_eligibility_rule, latest_rule. cbv [bind load ok_or ret fail].
  destruct (rule_versions (store w) !! p) as [n|] eqn:Hn; simpl; [|done].
  destruct (versions_latest er_version _ _ p n (inv_versions _ _ _ Hi) Hn) as [r ->]. done.
Qed.

Lemma latest_mentorship_rule_run {A} (k : MentorshipEligibilityRule → M A) e w p :
  inv sha256 to_xdr (store w) →
  (n <- get_latest_mentorship_rule_version p ;; r <- get_mentorship_eligibility_rule p n ;; k r) e w =
    match latest_mentorship_rule (store w) p with Some r => k r e w | None => Failed w NoMentorshipRulePublished end.
Proof.
  intros Hi. unfold get_latest_mentorship_rule_version, get_mentorship_eligibility_rule, latest_mentorship_rule.
  cbv [bind load ok_or ret fail]. destruct (mentorship_versions (store w) !! p) as [n|] eqn:Hn; simpl; [|done].
  destruct (versions_latest mr_version _ _ p n (inv_mentorship_versions _ _ _ Hi) Hn) as [r ->]. done.
Qed.

(** C37: Evaluation means eligibility.  In every reachable world the evaluation of a subject fails only
    where no rule is published, never for a missing version, and otherwise tells whether the
    subject is eligible now; the same for the mentorship rules. *)
Theorem evaluation_exact this w e p s :
  Reach this w →
  match latest_rule (store w) p with
  | None => invoke (evaluate_eligibility p s) e w = (w, Errored NoRulePublished)
  | Some _ => ∃ b, invoke (evaluate_eligibility p s) e w = (w, Returned b) ∧ (b = true ↔ eligible (timestamp e) (store w) p s)
  end ∧
  match latest_mentorship_rule (store w) p with
  | None => invoke (evaluate_mentorship_eligibility sha256 to_xdr p s) e w = (w, Errored NoMentorshipRulePublished)
  | Some _ => ∃ b, invoke (evaluate_mentorship_eligibility sha256 to_xdr p s) e w = (w, Returned b) ∧
      (b = true ↔ mentorship_eligible (timestamp e) (store w) p s)
  end.
Proof.
  intros Hi%eligibility_reachable. split.
  - unfold invoke, evaluate_eligibility. rewrite latest_rule_run by done.
    destruct (latest_rule (store w) p) as [r|] eqn:Hr; [|done]. eexists. split; [reflexivity|].
    rewrite forallb_forall. unfold eligible. rewrite Hr. split.
    + intros Hall. exists r. split; [done|]. intros ty Hty. specialize (Hall ty). rewrite <-list_elem_of_In in Hall.
      apply Hall, orb_true_iff in Hty as [(x & ?)%valid_attestation_iff|(x & ?)%valid_attestation_iff]; eauto 10.
    + intros (r' & [= <-] & Hall) ty Hty. apply list_elem_of_In, Hall in Hty as (scope & x & [->| ->] & Hx); apply orb_true_iff;
        [left|right]; apply valid_attestation_iff; eauto.
  - unfold invoke, evaluate_mentorship_eligibility. rewrite latest_mentorship_rule_run by done.
    destruct (latest_mentorship_rule (store w) p) as [r|] eqn:Hr; [|done]. eexists. split; [reflexivity|].
    rewrite andb_true_iff, orb_true_iff, forallb_forall, existsb_exists, bool_decide_eq_true. setoid_rewrite valid_criterion_iff.
    setoid_rewrite <-list_elem_of_In. unfold mentorship_eligible. rewrite Hr. naive_solver.
Qed.

(** Eligibility is granted, not taken.  If one call makes a subject eligible who was not, it was an
    attestation for that subject by an issuer on the allowlist who signed it, of a type the rule
    requires, for the program or globally; or the administrator published a rule for the program. *)
Theorem eligibility_gained this w e c t p s :
  Reach this w → ¬ eligible t (store w) p s → eligible t (store (invoke (exec c) e w).1) p s →
  (∃ i scope ty until r, c = CIssue i s scope ty until ∧ vouches e (store w) i ∧ timestamp e < until ∧ t < until ∧
     (scope = p ∨ scope = global_scope) ∧ latest_rule (store w) p = Some r ∧ ty ∈ required_types r) ∨
  (∃ a l, c = CRule a p l ∧ is_admin e (store w) a).
Proof.
  intros Hi%eligibility_reachable Hno Hyes. unfold invoke in Hyes. destruct (exec c e w) as [w' u| |] eqn:Hrun; [|done..].
  simpl in Hyes. destruct (eligibility_effect sha256 to_xdr c e w w' u Hrun) as [_ Heff].
  destruct Heff as [x Ha|a x b Ha|a q l n Ha Hn Hmax Hok|a q all any n Ha Hn Hmax Hok|i s' q c h until r Hv Ht Hc Hr Hin|a s' q c x Hx Ha
    |i s' scope ty until Hv Ht|a s' scope ty x Hx Ha]; try done.
  - destruct (decide (q = p)) as [->|Hq]; [right; eauto|]. destruct Hno. destruct Hyes as (r & Hr & Hall). exists r.
    split; [|done]. unfold latest_rule in *. simpl in Hr. rewrite lookup_insert_ne in Hr by done.
    destruct (rule_versions (store w) !! p); [|done]. simpl in *. by rewrite lookup_insert_ne in Hr by congruence.
  - destruct Hyes as (r & Hr & Hall). change (latest_rule (put_attestation _ _ _) p) with (latest_rule (store w) p) in Hr.
    destruct (decide (s' = s ∧ (scope = p ∨ scope = global_scope) ∧ ty ∈ required_types r ∧ t < until)) as [(-> & Hs & Hty & Ht')|Hn].
    + left. eauto 15.
    + destruct Hno. exists r. split; [done|]. intros ty' Hty'. destruct (Hall ty' Hty') as (sc & x & Hsc & Hx & Hrev & Hexp).
      exists sc, x. split_and!; try done. simpl in Hx. rewrite lookup_insert in Hx. case_decide as Hk; [|done].
      injection Hk as -> -> ->. injection Hx as <-. simpl in Hexp. destruct Hn. done.
  - destruct Hno. destruct Hyes as (r & Hr & Hall). exists r. split; [done|]. intros ty' Hty'.
    destruct (Hall ty' Hty') as (sc & y & Hsc & Hy & Hrev & Hexp). exists sc, y. split_and!; try done. simpl in Hy.
    rewrite lookup_insert in Hy. case_decide; [|done]. injection Hy as <-. done.
Qed.

(** The same for mentorships: a criterion comes to hold of a subject only by an attestation of exactly
    that criterion, which the latest rule of the program lists, by an allowlisted issuer. *)
Theorem criterion_gained this w e c t p s k :
  collision_free sha256 → (∀ x y, to_xdr x = to_xdr y → x = y) → Reach this w →
  ¬ criterion_holds t (store w) p s k → criterion_holds t (store (invoke (exec c) e w).1) p s k →
  ∃ i h until r, c = CIssueCriterion i s p k h until ∧ vouches e (store w) i ∧ timestamp e < until ∧ t < until ∧
    latest_mentorship_rule (store w) p = Some r ∧ k ∈ criteria r ∧ criterion_ok k.
Proof.
  intros Hsha Hxdr Hi%eligibility_reachable Hno Hyes. unfold invoke in Hyes. destruct (exec c e w) as [w' u| |] eqn:Hrun; [|done..].
  simpl in Hyes. assert (∀ x y, hash x = hash y → x = y) as Hinj by (intros x y Heq%Hsha; apply app_inv_head in Heq; by apply Hxdr).
  destruct (eligibility_effect sha256 to_xdr c e w w' u Hrun) as [_ Heff].
  destruct Heff as [x Ha|a x b Ha|a q l n Ha Hn Hmax Hok|a q all any n Ha Hn Hmax Hok|i s' q c h until r Hv Ht Hc Hr Hin|a s' q c x Hx Ha
    |i s' scope ty until Hv Ht|a s' scope ty x Hx Ha]; try done.
  - destruct Hyes as (x & Hx & Hrev & Hexp). simpl in Hx. rewrite lookup_insert in Hx. case_decide as Hk; [|destruct Hno; by exists x].
    injection Hk as -> -> Hh%Hinj. subst c. injection Hx as <-. simpl in Hexp.
    apply list_elem_of_fmap in Hin as (k' & Hk'%Hinj & Hin). subst k'. eauto 15.
  - destruct Hyes as (y & Hy & Hrev & Hexp). simpl in Hy. rewrite lookup_insert in Hy. case_decide; [|destruct Hno; by exists y].
    injection Hy as <-. done.
Qed.

(** Revocation holds.  After a revocation returned, and over any calls that do not issue this
    attestation again, it is valid at no time; only its issuer or the administrator revokes. *)
Theorem revoked_until_reissued this w e a s scope ty w1 calls t :
  Reach this w → invoke (revoke_attestation a s scope ty) e w = (w1, Returned tt) →
  Forall (λ ec : Env * Call, self ec.1 = this ∧ valid ec.1 ec.2 ∧ issues s scope ty ec.2 = false) calls →
  (∃ x, attestations (store w) !! (s, scope, ty) = Some x ∧ may_revoke e (store w) (at_issuer x) a) ∧
  valid_attestation t (store (run_calls exec calls w1)) s scope ty = false.
Proof.
  intros _ Hrun%invoke_returned Hcalls. rewrite Forall_forall in Hcalls.
  destruct (eligibility_effect sha256 to_xdr (CRevoke a s scope ty) e w w1 tt Hrun) as [_ Heff].
  inversion Heff as [| | | | | | |? ? ? ? x Hx Ha Heq Hst]; subst. split; [eauto|].
  destruct (run_calls_inv exec (λ w, ∃ y, attestations (store w) !! (s, scope, ty) = Some y ∧ at_revoked y = true) calls w1)
    as (y & Hy & Hrev).
  - intros e0 c w0 w0' u (y & Hy & Hrev) Hin Hr. destruct (Hcalls _ Hin) as (_ & _ & Hno).
    destruct (eligibility_effect sha256 to_xdr c e0 w0 w0' u Hr) as [_ He0].
    destruct He0; try (by exists y); simpl; simpl in Hno; rewrite lookup_insert; case_decide as Hk; try (by exists y).
    eexists. split; [done|]. done.
  - eexists. rewrite <-Hst. simpl. rewrite lookup_insert_eq. done.
  - unfold valid_attestation. by rewrite Hy, Hrev.
Qed.

(** Published rules are final.  Over any calls a published version of a program, of either kind,
    remains as it is; the versions of a program are numbered from 1 without gaps up to the latest;
    rules require 1 to 10 types, mentorship rules have 1 to 20 well-formed, different criteria. *)
Theorem rules_final this w calls :
  Reach this w → Forall (λ ec : Env * Call, self ec.1 = this ∧ valid ec.1 ec.2) calls →
  let w' := run_calls exec calls w in
  (∀ p n x, rules (store w) !! (p, n) = Some x → rules (store w') !! (p, n) = Some x) ∧
  (∀ p n x, mentorship_rules (store w) !! (p, n) = Some x → mentorship_rules (store w') !! (p, n) = Some x) ∧
  (∀ p n, is_Some (rules (store w') !! (p, n)) ↔ 1 ≤ n ≤ default 0 (rule_versions (store w') !! p)) ∧
  (∀ p n x, rules (store w') !! (p, n) = Some x → er_version x = n ∧ 1 ≤ Z.of_nat (length (required_types x)) ≤ 10) ∧
  (∀ p n x, mentorship_rules (store w') !! (p, n) = Some x →
    mr_version x = n ∧ 1 ≤ Z.of_nat (length (criteria x)) ≤ 20 ∧ Forall criterion_ok (criteria x) ∧ NoDup (criteria x)).
Proof.
  intros Hw%eligibility_reachable _ w'.
  destruct (run_calls_inv exec (λ w1, inv sha256 to_xdr (store w1) ∧
    (∀ k x, rules (store w) !! k = Some x → rules (store w1) !! k = Some x) ∧
    (∀ k x, mentorship_rules (store w) !! k = Some x → mentorship_rules (store w1) !! k = Some x))
    calls w) as (Hi & H1 & H2); [|done|].
  - intros e c w0 w0' u (H0 & Hr & Hm) _ Hrun.
    destruct (eligibility_effect sha256 to_xdr c e w0 w0' u Hrun) as [_ Heff]. split; [by eapply eligibility_effect_inv|].
    destruct Heff as [x Ha|a x b Ha|a q l n Ha Hn Hmax Hok|a q all any n Ha Hn Hmax Hok|i s' q c h until r Hv Ht Hc Hr' Hin|a s' q c x Hx Ha
      |i s' scope ty until Hv Ht|a s' scope ty x Hx Ha]; try done; simpl.
    + split; [|done]. intros k x Hx. destruct (versions_next er_version _ _ q n (mkRule n l (timestamp e)) (inv_versions _ _ _ H0) Hn Hmax eq_refl)
        as [_ Hnew]. rewrite lookup_insert_ne; [by apply Hr|]. intros <-. apply Hr in Hx. congruence.
    + split; [done|]. intros k x Hx. destruct (versions_next mr_version _ _ q n (mkMentorshipRule n all any (timestamp e))
        (inv_mentorship_versions _ _ _ H0) Hn Hmax eq_refl) as [_ Hnew]. rewrite lookup_insert_ne; [by apply Hm|]. intros <-. apply Hm in Hx. congruence.
  - fold w' in Hi, H1, H2. split_and!; [intros; by apply H1|intros; by apply H2| | |].
    + intros p n. apply (versions_published er_version), Hi.
    + intros p n x Hx. split; [|by apply (inv_rules _ _ _ Hi p n)]. destruct (inv_versions _ _ _ Hi p) as (_ & _ & Hn). specialize (Hn n).
      rewrite Hx in Hn. apply Hn.
    + intros p n x Hx. destruct (inv_mentorship_rules _ _ _ Hi _ _ _ Hx) as (Hl & Hok & Hnd). split_and!; try lia; [|done|by apply NoDup_fmap_1 in Hnd].
      destruct (inv_mentorship_versions _ _ _ Hi p) as (_ & _ & Hn). specialize (Hn n). rewrite Hx in Hn. apply Hn.
Qed.
End Theorems.

(** ** Concrete runs *)
Module Runs.
Definition this : Address := addr 0.
Definition boss : Address := addr 1.
Definition ida : Address := addr 2.
Definition sam : Address := addr 3.
(** An injective encoding, for the runs. *)
Definition demo_criterion_xdr (c : MentorshipCriterion) : Bytes :=
  match c with
  | Role x => [0; x] | Organization x => [1; x] | CourseProgress x n => [2; x; n] | Skill x n => [3; x; n]
  | GeographyPolicy x => [4; x] | AgeGuardian n b => [5; n; if b then 1 else 0] | Prerequisite x => [6; x]
  end.
Lemma demo_criterion_xdr_inj x y : demo_criterion_xdr x = demo_criterion_xdr y → x = y.
Proof. destruct x as [| | | | |? []|], y as [| | | | |? []|]; simpl; intros Heq; by simplify_eq. Qed.
Abbreviation exec := (exec demo_hash demo_criterion_xdr).
Abbreviation Reach := (reachable exec valid this (λ _ _, True) deployed).

Definition at_time (t : Z) : Env := mkEnv t this (λ _, true).
Definition w0 : World unit Store Event := mkWorld tt empty_store [].
Definition setup : list (Env * Call) :=
  [(at_time 10, CInitialize boss); (at_time 11, CIssuer boss ida true); (at_time 12, CRule boss 7 ["kyc"; "enrolled"]%string);
   (at_time 13, CMentorshipRule boss 7 [Role 4; Skill 5 2] [GeographyPolicy 6; AgeGuardian 18 true]);
   (at_time 14, CIssue ida sam 0 "kyc"%string 100); (at_time 15, CIssueCriterion ida sam 7 (Role 4) 99 100)].
Definition enrolled : Call := CIssue ida sam 7 "enrolled"%string 200.
Definition skilled : Call := CIssueCriterion ida sam 7 (Skill 5 2) 98 200.
Definition w1 : World unit Store Event := run_calls exec setup w0.
Definition w2 : World unit Store Event := (invoke (exec enrolled) (at_time 20) w1).1.
Definition w3 : World unit Store Event := (invoke (exec (CRevoke ida sam 0 "kyc"%string)) (at_time 30) w2).1.
Definition later : list (Env * Call) := [(at_time 40, CIssuer boss ida false); (at_time 41, CRule boss 7 ["kyc"]%string)].

Lemma eligibility_runs calls :
  Forall (λ ec : Env * Call, self ec.1 = this ∧ valid ec.1 ec.2) calls → Reach (run_calls exec calls w0).
Proof. apply reachable_run. by apply reach_init. Qed.

Ltac valid_calls := repeat constructor; simpl; try done; range_lia.

Lemma eligibility_w1_reach : Reach w1.
Proof. apply eligibility_runs. valid_calls. Qed.
Lemma eligibility_w2_reach : Reach w2.
Proof. apply reach_call; [apply eligibility_w1_reach|done|unfold valid; simpl; range_lia]. Qed.

Lemma evaluation_exact_witness :
  eligible 50 (store w2) 7 sam ∧ ¬ eligible 100 (store w2) 7 sam ∧
  ∃ b, invoke (evaluate_mentorship_eligibility demo_hash demo_criterion_xdr 7 sam) (at_time 50) w2 = (w2, Returned b).
Proof.
  destruct (evaluation_exact demo_hash demo_criterion_xdr this w2 (at_time 50) 7 sam eligibility_w2_reach) as [H1 H2].
  destruct (evaluation_exact demo_hash demo_criterion_xdr this w2 (at_time 100) 7 sam eligibility_w2_reach) as [H3 _].
  assert (latest_rule (store w2) 7 = Some (mkRule 1 ["kyc"; "enrolled"]%string 12)) as Hr by (vm_compute; reflexivity).
  assert (latest_mentorship_rule (store w2) 7 = Some (mkMentorshipRule 1 [Role 4; Skill 5 2] [GeographyPolicy 6; AgeGuardian 18 true] 13)) as Hm
    by (vm_compute; reflexivity).
  rewrite Hr in H1, H3. rewrite Hm in H2. destruct H1 as (b & Hb & Hiff), H3 as (b' & Hb' & Hiff'), H2 as (b'' & Hb'' & _).
  split; [apply Hiff|split; [|exists b''; exact Hb'']].
  - assert ((invoke (evaluate_eligibility 7 sam) (at_time 50) w2).2 = Returned true) as He by (vm_compute; reflexivity).
    rewrite Hb in He. by injection He.
  - intros Hel. apply Hiff' in Hel. subst b'.
    assert ((invoke (evaluate_eligibility 7 sam) (at_time 100) w2).2 = Returned false) as He by (vm_compute; reflexivity).
    rewrite Hb' in He. by injection He.
Defined.

Lemma eligibility_gained_witness :
  ∃ i scope ty until r, enrolled = CIssue i sam scope ty until ∧ latest_rule (store w1) 7 = Some r ∧ ty ∈ required_types r.
Proof.
  destruct (eligibility_gained demo_hash demo_criterion_xdr this w1 (at_time 20) enrolled 50 7 sam)
    as [(i & sc & ty & un & r & Hc & _ & _ & _ & _ & Hr & Hty)|(a & l & Hc & _)].
  - apply eligibility_w1_reach.
  - intros (r & Hr & Hall). vm_compute in Hr. injection Hr as <-. destruct (Hall "enrolled"%string) as (sc & x & [->| ->] & Hx & _);
      [right; left|vm_compute in Hx; discriminate..].
  - exists (mkRule 1 ["kyc"; "enrolled"]%string 12). split; [vm_compute; reflexivity|].
    intros ty [->|[->|[]%elem_of_nil]%elem_of_cons]%elem_of_cons.
    + exists 0, (mkAttestation ida 100 14 false). split; [by right|]. split; [vm_compute; reflexivity|done].
    + exists 7, (mkAttestation ida 200 20 false). split; [by left|]. split; [vm_compute; reflexivity|done].
  - exists i, sc, ty, un, r. split_and!; done.
  - discriminate Hc.
Defined.

Lemma criterion_gained_witness :
  ∃ i h until r, skilled = CIssueCriterion i sam 7 (Skill 5 2) h until ∧ latest_mentorship_rule (store w1) 7 = Some r.
Proof.
  destruct (criterion_gained demo_hash demo_criterion_xdr this w1 (at_time 20) skilled 50 7 sam (Skill 5 2))
    as (i & h & un & r & Hc & _ & _ & _ & Hr & _).
  - apply demo_hash_free.
  - apply demo_criterion_xdr_inj.
  - apply eligibility_w1_reach.
  - intros (x & Hx & _). vm_compute in Hx. discriminate.
  - exists (mkCriterion ida 98 200 20 false). split; [vm_compute; reflexivity|done].
  - exists i, h, un, r. done.
Defined.

Lemma revoked_until_reissued_witness : valid_attestation 50 (store (run_calls exec later w3)) sam 0 "kyc"%string = false.
Proof.
  destruct (revoked_until_reissued demo_hash demo_criterion_xdr this w2 (at_time 30) ida sam 0 "kyc"%string w3 later 50) as [_ H];
    [apply eligibility_w2_reach|apply invoke_pair; vm_compute; reflexivity|valid_calls|exact H].
Defined.

Lemma rules_final_witness : rules (store (run_calls exec later w2)) !! (7, 1) = Some (mkRule 1 ["kyc"; "enrolled"]%string 12).
Proof.
  destruct (rules_final demo_hash demo_criterion_xdr this w2 later) as [H _]; [apply eligibility_w2_reach|valid_calls|].
  apply H. vm_compute. reflexivity.
Defined.
End Runs.
