(* ===== verification/Physical.v ===== *)
(** * Lost and damaged items ([library-physical/src/lib.rs])

    Librarians attach attestations to loans, with the hash of their evidence; corrections append
    to the history of hashes; an incident is charged at most once and never after it is resolved.
    The model first, then what each call does, the invariant and the properties. *)
From S2P Require Import Prelude Machine Host.

Inductive PhysicalError := NotInitialized | AlreadyInitialized | Unauthorized | NotFound | AlreadyResolved | AlreadyCharged | Overflow.
Inductive AttestationReason := Lost | Damaged.
Inductive AttestationStatus := Open | Resolved.
#[export] Instance AttestationStatus_eq_dec : EqDecision AttestationStatus.
Proof. solve_decision. Defined.

Record AttestationRecord := mkRecord {
  loan_id : BytesN32; librarian : Address; reason : AttestationReason; evidence_hash : BytesN32; status : AttestationStatus;
  created_at : Z; charged : bool
}.

Inductive Event :=
| LIB_ADD (x : Address)
| LIB_REM (x : Address)
| ATST_NEW (i loan : BytesN32) (caller : Address) (h : BytesN32)
| ATST_RES (i : BytesN32)
| ATST_COR (i h : BytesN32)
| ATST_CHG (i : BytesN32).

Record Store := mkStore {
  admin : option Address;
  librarians : gmap Address bool;
  attestation_count : Z;
  attestations : gmap Z AttestationRecord;
  histories : gmap Z (list Z)
}.
Definition put_admin (x : Address) (st : Store) : Store :=
  mkStore (Some x) (librarians st) (attestation_count st) (attestations st) (histories st).
Definition put_librarian (x : Address) (b : bool) (st : Store) : Store :=
  mkStore (admin st) (<[x := b]> (librarians st)) (attestation_count st) (attestations st) (histories st).
Definition put_count (n : Z) (st : Store) : Store := mkStore (admin st) (librarians st) n (attestations st) (histories st).
Definition put_attestation (i : BytesN32) (x : AttestationRecord) (st : Store) : Store :=
  mkStore (admin st) (librarians st) (attestation_count st) (<[i := x]> (attestations st)) (histories st).
Definition put_history (i : BytesN32) (l : list Z) (st : Store) : Store :=
  mkStore (admin st) (librarians st) (attestation_count st) (attestations st) (<[i := l]> (histories st)).
Definition history_of (i : BytesN32) (st : Store) : list Z := default [] (histories st !! i).

Definition resolved (x : AttestationRecord) : AttestationRecord :=
  mkRecord (loan_id x) (librarian x) (reason x) (evidence_hash x) Resolved (created_at x) (charged x).
Definition with_charge (x : AttestationRecord) : AttestationRecord :=
  mkRecord (loan_id x) (librarian x) (reason x) (evidence_hash x) (status x) (created_at x) true.

Section Contract.
Context {L : Type} (sha256 : Bytes → BytesN32) (to_xdr : Address → Bytes).
Abbreviation M := (Contract L Store Event PhysicalError).

Definition require_admin (caller : Address) : M unit := require_admin_of admin NotInitialized Unauthorized caller.

Definition require_librarian (caller : Address) : M unit :=
  o <- load admin ;;
  x <- ok_or o NotInitialized ;;
  if bool_decide (caller = x) then require_auth caller
  else
    b <- load (λ st, default false (librarians st !! caller)) ;;
    reject_if (negb b) Unauthorized ;;;
    require_auth caller.

Definition attestation_id (n t : Z) (loan : BytesN32) (caller : Address) : BytesN32 :=
  sha256 (be_bytes 8 n ++ be_bytes 8 t ++ to_array loan ++ to_xdr caller).

Definition next_attestation_id (loan : BytesN32) (caller : Address) : M BytesN32 :=
  n <- load attestation_count ;;
  next <- ok_or (checked_add_u64 n 1) Overflow ;;
  save (put_count next) ;;;
  t <- now ;;
  ret (attestation_id next t loan caller).

Definition initialize (x : Address) : M unit :=
  o <- load admin ;;
  reject_if (bool_decide (is_Some o)) AlreadyInitialized ;;;
  require_auth x ;;;
  save (put_admin x).

Definition add_librarian (caller x : Address) : M unit :=
  require_admin caller ;;; save (put_librarian x true) ;;; publish (LIB_ADD x).
Definition remove_librarian (caller x : Address) : M unit :=
  require_admin caller ;;; save (put_librarian x false) ;;; publish (LIB_REM x).

Definition attest (caller : Address) (loan : BytesN32) (why : AttestationReason) (h : BytesN32) : M BytesN32 :=
  require_librarian caller ;;;
  i <- next_attestation_id loan caller ;;
  t <- now ;;
  save (put_attestation i (mkRecord loan caller why h Open t false)) ;;;
  save (put_history i [h]) ;;;
  publish (ATST_NEW i loan caller h) ;;;
  ret i.

Definition get_attestation (i : BytesN32) : M AttestationRecord :=
  o <- load (λ st, attestations st !! i) ;; ok_or o NotFound.

Definition resolve (caller : Address) (i : BytesN32) : M unit :=
  require_librarian caller ;;;
  x <- get_attestation i ;;
  reject_if (bool_decide (status x = Resolved)) AlreadyResolved ;;;
  save (put_attestation i (resolved x)) ;;;
  publish (ATST_RES i).

Definition append_correction (caller : Address) (i h : BytesN32) : M unit :=
  require_librarian caller ;;;
  _ <- get_attestation i ;;
  l <- load (history_of i) ;;
  save (put_history i (l ++ [h])) ;;;
  publish (ATST_COR i h).

Definition mark_charged (caller : Address) (i : BytesN32) : M unit :=
  require_librarian caller ;;;
  x <- get_attestation i ;;
  reject_if (bool_decide (status x = Resolved)) AlreadyResolved ;;;
  reject_if (charged x) AlreadyCharged ;;;
  save (put_attestation i (with_charge x)) ;;;
  publish (ATST_CHG i).

Definition get_history (i : BytesN32) : M (list Z) := _ <- get_attestation i ;; load (history_of i).

(** ** Calls *)

Inductive Call :=
| CInitialize (x : Address)
| CLibrarian (caller x : Address) (b : bool)
| CAttest (caller : Address) (loan : BytesN32) (why : AttestationReason) (h : BytesN32)
| CResolve (caller : Address) (i : BytesN32)
| CCorrect (caller : Address) (i h : BytesN32)
| CCharge (caller : Address) (i : BytesN32).

Definition exec (c : Call) : M unit :=
  match c with
  | CInitialize x => initialize x
  | CLibrarian a x b => if b then add_librarian a x else remove_librarian a x
  | CAttest a loan why h => ignore (attest a loan why h)
  | CResolve a i => resolve a i
  | CCorrect a i h => append_correction a i h
  | CCharge a i => mark_charged a i
  end.
End Contract.

(** The declared widths of the arguments. *)
Definition valid (e : Env) (c : Call) : Prop := 0 ≤ timestamp e ≤ u64_max.

(** ** What the calls do *)

(** The administrator, or a librarian on the list, who signs the call. *)
Definition acts (e : Env) (st : Store) (x : Address) : Prop :=
  is_Some (admin st) ∧ (admin st = Some x ∨ librarians st !! x = Some true) ∧ authorized e x = true.

Section Props.
Context {L : Type} (sha256 : Bytes → BytesN32) (to_xdr : Address → Bytes).
Abbreviation M := (Contract L Store Event PhysicalError).
Abbreviation W := (World L Store Event).
Implicit Types (w : W).

Definition new_id (e : Env) (st : Store) (loan : BytesN32) (x : Address) : BytesN32 :=
  attestation_id sha256 to_xdr (attestation_count st + 1) (timestamp e) loan x.

Inductive effect (e : Env) (st : Store) : Call → Store → Prop :=
| E_initialize x : admin st = None → effect e st (CInitialize x) (put_admin x st)
| E_librarian a x b : admin st = Some a → authorized e a = true → effect e st (CLibrarian a x b) (put_librarian x b st)
| E_attest a loan why h i :
    acts e st a → i = new_id e st loan a → attestation_count st + 1 ≤ u64_max →
    effect e st (CAttest a loan why h)
      (put_history i [h] (put_attestation i (mkRecord loan a why h Open (timestamp e) false) (put_count (attestation_count st + 1) st)))
| E_resolve a i x :
    acts e st a → attestations st !! i = Some x → status x = Open → effect e st (CResolve a i) (put_attestation i (resolved x) st)
| E_correct a i h x :
    acts e st a → attestations st !! i = Some x → effect e st (CCorrect a i h) (put_history i (history_of i st ++ [h]) st)
| E_charge a i x :
    acts e st a → attestations st !! i = Some x → status x = Open → charged x = false →
    effect e st (CCharge a i) (put_attestation i (with_charge x) st).

Lemma require_librarian_done a e w w' u :
  (require_librarian a : M unit) e w = Done w' u → w' = w ∧ acts e (store w) a.
Proof.
  unfold require_librarian, acts. intros Hrun. run_inv.
  match goal with H : admin _ = Some ?y |- _ => rename H into Ha; rename y into adm end.
  case_bool_decide as Hc; run_inv.
  - subst. rewrite Ha. eauto.
  - bool_prop. destruct (librarians (store w) !! a) as [[]|]; try done. rewrite Ha. eauto 10.
Qed.

Ltac librarian_inv :=
  match goal with H : require_librarian _ _ _ = Done _ _ |- _ => apply require_librarian_done in H as [-> ?] end.

Lemma physical_effect c e w w' u :
  (exec sha256 to_xdr c : M unit) e w = Done w' u → ledger w' = ledger w ∧ effect e (store w) c (store w').
Proof.
  intros Hrun. assert (∀ x : AttestationRecord, status x ≠ Resolved → status x = Open) as Hopen by (by intros [? ? ? ? []]).
  destruct c as [x|a x b|a loan why h|a i|a i h|a i]; simpl in Hrun; try (apply ignore_done in Hrun as [? Hrun]).
  - unfold initialize in Hrun. run_inv. bool_prop. split; [done|]. apply E_initialize. by apply eq_None_not_Some.
  - destruct b; [unfold add_librarian, require_admin in Hrun|unfold remove_librarian, require_admin in Hrun]; run_inv;
      (split; [done|by apply E_librarian]).
  - unfold attest, next_attestation_id in Hrun. run_inv. librarian_inv. checked_prop. split; [done|]. by apply E_attest; [| |lia].
  - unfold resolve, get_attestation in Hrun. run_inv. librarian_inv. bool_prop. split; [done|]. apply E_resolve; auto.
  - unfold append_correction, get_attestation in Hrun. run_inv. librarian_inv. split; [done|]. by eapply E_correct.
  - unfold mark_charged, get_attestation in Hrun. run_inv. librarian_inv. bool_prop. split; [done|]. apply E_charge; auto.
Qed.

(** ** The invariant *)

Record inv (st : Store) : Prop := {
  inv_count : 0 ≤ attestation_count st ≤ u64_max;
  inv_ids i : is_Some (attestations st !! i) → ∃ n rest, i = sha256 (be_bytes 8 n ++ rest) ∧ 1 ≤ n ≤ attestation_count st;
  inv_history i : is_Some (histories st !! i) ↔ is_Some (attestations st !! i);
  inv_first i x : attestations st !! i = Some x → ∃ l, histories st !! i = Some (evidence_hash x :: l)
}.

Context (sha_inj : collision_free sha256).

Lemma new_id_fresh e st loan a : inv st → attestation_count st + 1 ≤ u64_max → attestations st !! new_id e st loan a = None.
Proof.
  intros Hi Hmax. apply eq_None_not_Some. intros Hs. destruct (inv_ids _ Hi _ Hs) as (n & rest & Heq & Hn).
  destruct (inv_count _ Hi). unfold new_id, attestation_id in Heq. apply (counter_id_inj sha256) in Heq; [lia|done|lia|lia].
Qed.

Lemma physical_effect_inv e st c st' : inv st → effect e st c st' → inv st'.
Proof.
  intros Hi Heff. destruct Hi as [H1 H2 H3 H4] eqn:Hieq. pose proof Hi as Hi'. clear Hieq.
  destruct Heff as [x Ha|a x b Ha Hau|a loan why h i Ha -> Hmax|a i x Ha Hx Hs|a i h x Ha Hx|a i x Ha Hx Hs Hch].
  - done.
  - done.
  - pose proof (new_id_fresh e st loan a Hi' Hmax) as Hnew. split; simpl.
    + lia.
    + intros j. rewrite lookup_insert. case_decide as Hj.
      * intros _. subst j. exists (attestation_count st + 1). eexists. split; [reflexivity|lia].
      * intros Hs. destruct (H2 j Hs) as (n & rest & ? & ?). exists n, rest. split; [done|lia].
    + intros j. rewrite !lookup_insert. case_decide; [|apply H3]. split; intros _; by eexists.
    + intros j y. rewrite !lookup_insert. case_decide; [|apply H4]. intros [= <-]. by eexists.
  - split; simpl; [done| | |]; intros j; rewrite lookup_insert; case_decide as Hj; try (subst j); auto.
    + rewrite H3, Hx. split; intros _; by eexists.
    + intros y [= <-]. apply (H4 i x Hx).
  - assert (history_of i st = evidence_hash x :: tail (history_of i st)) as Hh.
    { unfold history_of. destruct (H4 i x Hx) as [l ->]. done. }
    split; simpl; [done|done| |]; intros j; rewrite lookup_insert; case_decide as Hj; try (subst j); auto.
    + rewrite Hx. split; intros _; by eexists.
    + intros y Hy. rewrite Hx in Hy. injection Hy as <-. rewrite Hh. by eexists.
  - split; simpl; [done| | |]; intros j; rewrite lookup_insert; case_decide as Hj; try (subst j); auto.
    + rewrite H3, Hx. split; intros _; by eexists.
    + intros y [= <-]. apply (H4 i x Hx).
Qed.

Definition empty_store : Store := mkStore None ∅ 0 ∅ ∅.
Definition deployed (w : W) : Prop := store w = empty_store.

Lemma physical_reachable this w : reachable (exec sha256 to_xdr) valid this (λ _ _, True) deployed w → inv (store w).
Proof.
  apply (reachable_inv _ _ _ _ _ (λ w, inv (store w))).
  - intros w0 ->. split; simpl; [unfold u64_max; lia|by intros ? [? ?]| |done]. intros i. split; by intros [? ?].
  - intros c e w0 w1 u _ _ Hi Hrun. destruct (physical_effect c e w0 w1 u Hrun) as [_ Heff]. by eapply physical_effect_inv.
  - done.
Qed.
End Props.

(** ** The properties *)

Definition charges (i : BytesN32) (_ : Env) (c : Call) : bool := match c with CCharge _ j => bool_decide (j = i) | _ => false end.
Definition resolves (i : BytesN32) (_ : Env) (c : Call) : bool := match c with CResolve _ j => bool_decide (j = i) | _ => false end.
Definition is_charged (st : Store) (i : BytesN32) : bool := from_option charged false (attestations st !! i).
Definition is_resolved (st : Store) (i : BytesN32) : bool := from_option (λ x, bool_decide (status x = Resolved)) false (attestations st !! i).

(** What identifies an attestation and never changes. *)
Definition facts (x : AttestationRecord) : BytesN32 * Address * AttestationReason * BytesN32 * Z :=
  (loan_id x, librarian x, reason x, evidence_hash x, created_at x).

Section Theorems.
Context {L : Type} (sha256 : Bytes → BytesN32) (to_xdr : Address → Bytes) (sha_inj : collision_free sha256).
Abbreviation W := (World L Store Event).
Abbreviation exec := (exec (L := L) sha256 to_xdr).
Abbreviation Reach this := (reachable exec valid this (λ _ _, True) deployed).
Implicit Types (w : W).

(** The corrections of [i] that return, in order. *)
Fixpoint corrections (i : BytesN32) (calls : list (Env * Call)) (w : W) : list Z :=
  match calls with
  | [] => []
  | (e, c) :: calls =>
      let r := invoke (exec c) e w in
      (match c with CCorrect _ j h => if bool_decide (j = i) && has_returned r.2 then [h] else [] | _ => [] end)
        ++ corrections i calls r.1
  end.

(** C39: One charge per incident.  Over any calls from a reachable world the charges of an attestation that
    return are one if it was not charged before and is afterwards, and none otherwise; resolutions
    likewise; and of an attestation that is resolved none is charged any more. *)
Theorem charged_once this w calls i :
  Reach this w → Forall (λ ec : Env * Call, self ec.1 = this ∧ valid ec.1 ec.2) calls →
  let w' := run_calls exec calls w in
  accepted exec (charges i) calls w = (if is_charged (store w') i then 1 else 0) - (if is_charged (store w) i then 1 else 0) ∧
  accepted exec (resolves i) calls w = (if is_resolved (store w') i then 1 else 0) - (if is_resolved (store w) i then 1 else 0) ∧
  (is_resolved (store w) i = true → accepted exec (charges i) calls w = 0 ∧ is_charged (store w') i = is_charged (store w) i).
Proof.
  intros Hw%physical_reachable Hcalls w'; [|done].
  assert (∀ (P : W → Prop) (f : W → Z) (p : Env → Call → bool), P w →
    (∀ e k st' (w0 : W), inv sha256 (store w0) → P w0 → effect sha256 to_xdr e (store w0) k st' →
      (∀ l g, P (mkWorld l st' g)) ∧ f (mkWorld (ledger w0) st' (log w0)) = f w0 + (if p e k then 1 else 0)) →
    (∀ w1 w2 : W, store w1 = store w2 → f w1 = f w2) → P w' ∧ f w' = f w + accepted exec p calls w) as Hcount.
  { intros P f p HP Hstep Hf. destruct (accepted_counts exec (λ w, inv sha256 (store w) ∧ P w) f p calls w) as [[_ H1] H2]; [|done..].
    intros e k w0 w1 u [H0 HP0] _ Hrun. destruct (physical_effect sha256 to_xdr k e w0 w1 u Hrun) as [_ Heff].
    destruct (Hstep e k (store w1) w0 H0 HP0 Heff) as [HP1 Hf1]. split; [split; [by eapply physical_effect_inv|destruct w1; apply HP1]|].
    rewrite <-Hf1. by apply Hf. }
  assert (∀ e k st' (w0 : W), inv sha256 (store w0) → effect sha256 to_xdr e (store w0) k st' →
    (if is_charged st' i then 1 else 0) = (if is_charged (store w0) i then 1 else 0) + (if charges i e k then 1 else 0) ∧
    (if is_resolved st' i then 1 else 0) = (if is_resolved (store w0) i then 1 else 0) + (if resolves i e k then 1 else 0) ∧
    (is_resolved (store w0) i = true → is_resolved st' i = true ∧ is_charged st' i = is_charged (store w0) i)) as Hstep.
  { intros e k st' w0 H0 Heff. unfold is_charged, is_resolved.
    destruct Heff as [x Ha|a x b Ha Hau|a loan why h j Ha -> Hmax|a j x Ha Hx Hs|a j h x Ha Hx|a j x Ha Hx Hs Hch]; simpl;
      try (split_and!; [lia|lia|done]); rewrite lookup_insert.
    - case_decide as Hj; [|split_and!; [lia|lia|done]]. subst i. rewrite (new_id_fresh sha256 to_xdr sha_inj) by done. simpl. split_and!; done.
    - destruct (decide (j = i)) as [->|Hj]; [|rewrite bool_decide_eq_false_2 by done; split_and!; [lia|lia|done]].
      rewrite Hx. simpl. rewrite Hs, (bool_decide_eq_true_2 (i = i)) by done. simpl. split_and!; [lia|lia|done].
    - destruct (decide (j = i)) as [->|Hj]; [|rewrite bool_decide_eq_false_2 by done; split_and!; [lia|lia|done]].
      rewrite Hx. simpl. rewrite Hs, Hch, (bool_decide_eq_true_2 (i = i)) by done. simpl. split_and!; [lia|lia|done]. }
  split_and!.
  - destruct (Hcount (λ _, True) (λ w, if is_charged (store w) i then 1 else 0) (charges i)) as [_ H]; [done| |by intros ? ? ->|lia].
    intros e k st' w0 H0 _ Heff. split; [done|]. apply (Hstep _ _ _ _ H0 Heff).
  - destruct (Hcount (λ _, True) (λ w, if is_resolved (store w) i then 1 else 0) (resolves i)) as [_ H]; [done| |by intros ? ? ->|lia].
    intros e k st' w0 H0 _ Heff. split; [done|]. apply (Hstep _ _ _ _ H0 Heff).
  - intros Hres.
    destruct (Hcount (λ w1, is_resolved (store w1) i = true ∧ is_charged (store w1) i = is_charged (store w) i)
      (λ w, if is_charged (store w) i then 1 else 0) (charges i)) as [[_ Hc] H]; [done| |by intros ? ? ->|rewrite Hc in H; split; [lia|done]].
    intros e k st' w0 H0 [Hr Hc] Heff. destruct (Hstep _ _ _ _ H0 Heff) as (H1 & _ & H3). destruct (H3 Hr) as [Hr' Hc'].
    split; [|done]. intros l g. simpl. split; congruence.
Qed.

(** Evidence is never erased.  Over any calls the history of an attestation is what it was, followed by
    the corrections that returned, in order; its first hash is that of the attestation, whose loan,
    author, reason, evidence and date never change. *)
Theorem evidence_append_only this w calls i x :
  Reach this w → attestations (store w) !! i = Some x →
  let w' := run_calls exec calls w in
  history_of i (store w') = history_of i (store w) ++ corrections i calls w ∧ head (history_of i (store w')) = Some (evidence_hash x) ∧
  ∃ y, attestations (store w') !! i = Some y ∧ facts y = facts x.
Proof.
  intros Hi%physical_reachable Hx w'; [|done]. subst w'. revert w x Hi Hx.
  induction calls as [|[e c] calls IH]; intros w x Hi Hx.
  { simpl. rewrite app_nil_r. split_and!; [done| |by exists x]. unfold history_of. by destruct (inv_first _ _ Hi i x Hx) as [l ->]. }
  simpl. set (w1 := (invoke (exec c) e w).1).
  assert (inv sha256 (store w1) ∧ (∃ y, attestations (store w1) !! i = Some y ∧ facts y = facts x) ∧
    history_of i (store w1) = history_of i (store w) ++
      (match c with CCorrect _ j h => if bool_decide (j = i) && has_returned (invoke (exec c) e w).2 then [h] else [] | _ => [] end))
    as (Hi1 & (y & Hy & Hf) & Hh).
  { subst w1. unfold invoke. destruct (exec c e w) as [w' u| |] eqn:Hrun; simpl;
      [|split_and!; [done|by exists x|destruct c; rewrite ?andb_false_r, ?app_nil_r; done]..].
    destruct (physical_effect sha256 to_xdr c e w w' u Hrun) as [_ Heff]. split; [by eapply physical_effect_inv|].
    destruct Heff as [z Ha|a z b Ha Hau|a loan why h j Ha -> Hmax|a j z Ha Hz Hs|a j h z Ha Hz|a j z Ha Hz Hs Hch]; simpl;
      unfold history_of; simpl; rewrite ?app_nil_r, ?andb_true_r, ?lookup_insert; try (split; [by exists x|done]).
    - case_decide as Hj; [|split; [by exists x|done]]. subst i. by rewrite (new_id_fresh sha256 to_xdr sha_inj) in Hx.
    - case_decide as Hj; [|split; [by exists x|done]]. subst j. rewrite Hx in Hz. injection Hz as <-. split; [by eexists|done].
    - split; [by exists x|]. case_decide as Hj; [subst j; by rewrite bool_decide_eq_true_2|].
      rewrite bool_decide_eq_false_2 by done. by rewrite app_nil_r.
    - case_decide as Hj; [|split; [by exists x|done]]. subst j. rewrite Hx in Hz. injection Hz as <-. split; [by eexists|done]. }
  destruct (IH w1 y Hi1 Hy) as (H1 & H2 & z & Hz & Hzf). rewrite H1, Hh, <-app_assoc. split_and!; [done| |exists z; split; [done|congruence]].
  rewrite app_assoc, <-Hh, <-H1, H2. unfold facts in Hf. by injection Hf as _ _ _ -> _.
Qed.
End Theorems.

(** ** Concrete runs *)
Module Runs.
Definition this : Address := addr 0.
Definition boss : Address := addr 1.
Definition lena : Address := addr 2.
Abbreviation exec := (exec demo_hash demo_xdr).
Abbreviation Reach := (reachable exec valid this (λ _ _, True) deployed).

Definition at_time (t : Z) : Env := mkEnv t this (λ _, true).
Definition w0 : World unit Store Event := mkWorld tt empty_store [].
Definition setup : list (Env * Call) := [(at_time 10, CInitialize boss); (at_time 11, CLibrarian boss lena true); (at_time 12, CAttest lena 7 Lost 77)].
Definition i1 : BytesN32 := attestation_id demo_hash demo_xdr 1 12 7 lena.
Definition later : list (Env * Call) :=
  [(at_time 13, CCharge lena i1); (at_time 14, CCharge lena i1); (at_time 15, CCorrect boss i1 78); (at_time 16, CResolve lena i1);
   (at_time 17, CResolve boss i1); (at_time 18, CCorrect lena i1 79)].
Definition w1 : World unit Store Event := run_calls exec setup w0.

Lemma physical_runs calls :
  Forall (λ ec : Env * Call, self ec.1 = this ∧ valid ec.1 ec.2) calls → Reach (run_calls exec calls w0).
Proof. apply reachable_run. by apply reach_init. Qed.

Ltac valid_calls := repeat constructor; simpl; try done; range_lia.

Lemma physical_w1_reach : Reach w1.
Proof. apply physical_runs. valid_calls. Qed.

Lemma charged_once_witness : accepted exec (charges i1) later w1 = 1 ∧ accepted exec (resolves i1) later w1 = 1.
Proof.
  destruct (charged_once demo_hash demo_xdr demo_hash_free this w1 later i1) as (Hc & Hr & _); [apply physical_w1_reach|valid_calls|].
  cbv zeta in Hc, Hr. split; [rewrite Hc|rewrite Hr]; vm_compute; reflexivity.
Defined.

Lemma evidence_append_only_witness : history_of i1 (store (run_calls exec later w1)) = [77; 78; 79].
Proof.
  destruct (evidence_append_only demo_hash demo_xdr demo_hash_free this w1 later i1 (mkRecord 7 lena Lost 77 Open 12 false)) as (Hh & _).
  - apply physical_w1_reach.
  - vm_compute. reflexivity.
  - etrans; [exact Hh|]. vm_compute. reflexivity.
Defined.
End Runs.
