(* ===== verification/Migration.v ===== *)
(** * Migration of legacy records ([scholarship-migration/src/lib.rs])

    Runs over one legacy system each, real or rehearsed, walk its records in the order of a cursor:
    a record is mapped, once and verbatim, or reported as unmappable; runs are sealed and mapped
    records archived. *)
From S2P Require Import Prelude Machine Host.

Definition CONTRACT_VERSION : Z := 1.
Definition MAX_TRACKED_RECORDS : Z := 50000.
Definition MAX_REPORTED_PER_RUN : Z := 1000.
Definition MAX_RUNS : Z := 50.

Inductive ContractError :=
| NotInitialized | AlreadyInitialized | NotAdmin | RunNotFound | RunSealed | RecordNotFound | RecordConflict
| EmptyCommitment | TooManyRecords | TooManyRuns | DryRunIsReadOnly | TooManyReports | CursorRegression | CounterOverflow
| NotMapped.

Inductive UnmappableReason :=
| NotEligible | NoMatchingProgram | DuplicateInLegacy | MalformedRecord | WithdrawnByApplicant | OutsideRetentionWindow.
Inductive RecordState := Eligible | Mapped | Unmappable | Archived.
#[export] Instance RecordState_eq_dec : EqDecision RecordState.
Proof. solve_decision. Defined.

Record LegacyRecord := mkRecord {
  legacy_id : BytesN32; lr_source_system : Symbol; submitted_at : Z; payload_hash : BytesN32; lr_program : BytesN32;
  state : RecordState; reason : Z; correlation : BytesN32; mapped_at : Z
}.
Record MigrationRun := mkRun {
  mr_id : Z; mr_source_system : Symbol; mr_dry_run : bool; mr_cursor : Z; mr_mapped : Z; mr_sealed : bool; started_at : Z;
  sealed_at : Z
}.
Record RunSummary := mkSummary {
  rs_id : Z; rs_source_system : Symbol; rs_dry_run : bool; rs_cursor : Z; rs_mapped : Z; unmapped : Z; unmapped_retained : Z;
  rs_sealed : bool
}.

Inductive Event :=
| rbeg (i : Z) (source : Symbol) (dry : bool)
| mapd (l : BytesN32) (run : Z) (program : BytesN32) (submitted mapped : Z)
| unmp (l : BytesN32) (run : Z) (why : UnmappableReason)
| rsel (run : Z) (s : RunSummary)
| arch (l : BytesN32) (mapped : Z).

Record Store := mkStore {
  admin : option Address;
  next_run_id : option Z;
  open_runs : Z;
  runs : gmap Z MigrationRun;
  records : gmap Z LegacyRecord;
  tracked_count : Z;
  reports : gmap (Z * Z) Z;
  unmapped_totals : gmap Z Z;
  unmapped_kept : gmap Z Z
}.

Definition init_store (x : Address) (st : Store) : Store :=
  mkStore (Some x) (Some 1) 0 (runs st) (records st) 0 (reports st) (unmapped_totals st) (unmapped_kept st).
Definition put_next_run (n : Z) (st : Store) : Store :=
  mkStore (admin st) (Some n) (open_runs st) (runs st) (records st) (tracked_count st) (reports st) (unmapped_totals st) (unmapped_kept st).
Definition put_open (n : Z) (st : Store) : Store :=
  mkStore (admin st) (next_run_id st) n (runs st) (records st) (tracked_count st) (reports st) (unmapped_totals st) (unmapped_kept st).
Definition put_run (r : MigrationRun) (st : Store) : Store :=
  mkStore (admin st) (next_run_id st) (open_runs st) (<[mr_id r := r]> (runs st)) (records st) (tracked_count st) (reports st)
    (unmapped_totals st) (unmapped_kept st).
Definition put_record (x : LegacyRecord) (st : Store) : Store :=
  mkStore (admin st) (next_run_id st) (open_runs st) (runs st) (<[legacy_id x := x]> (records st)) (tracked_count st) (reports st)
    (unmapped_totals st) (unmapped_kept st).
Definition put_tracked (n : Z) (st : Store) : Store :=
  mkStore (admin st) (next_run_id st) (open_runs st) (runs st) (records st) n (reports st) (unmapped_totals st) (unmapped_kept st).
Definition put_total (i n : Z) (st : Store) : Store :=
  mkStore (admin st) (next_run_id st) (open_runs st) (runs st) (records st) (tracked_count st) (reports st)
    (<[i := n]> (unmapped_totals st)) (unmapped_kept st).
(** One more item is kept for browsing. *)
Definition put_report (i n : Z) (l : BytesN32) (next : Z) (st : Store) : Store :=
  mkStore (admin st) (next_run_id st) (open_runs st) (runs st) (records st) (tracked_count st) (<[(i, n) := l]> (reports st))
    (unmapped_totals st) (<[i := next]> (unmapped_kept st)).

Definition total_of (i : Z) (st : Store) : Z := default 0 (unmapped_totals st !! i).
Definition kept_of (i : Z) (st : Store) : Z := default 0 (unmapped_kept st !! i).

(** Changes of a run and of a record. *)
Definition with_cursor (n : Z) (r : MigrationRun) : MigrationRun :=
  mkRun (mr_id r) (mr_source_system r) (mr_dry_run r) n (mr_mapped r) (mr_sealed r) (started_at r) (sealed_at r).
Definition with_mapped (m n : Z) (r : MigrationRun) : MigrationRun :=
  mkRun (mr_id r) (mr_source_system r) (mr_dry_run r) n m (mr_sealed r) (started_at r) (sealed_at r).
Definition sealed_run (t : Z) (r : MigrationRun) : MigrationRun :=
  mkRun (mr_id r) (mr_source_system r) (mr_dry_run r) (mr_cursor r) (mr_mapped r) true (started_at r) t.
Definition archived (x : LegacyRecord) : LegacyRecord :=
  mkRecord (legacy_id x) (lr_source_system x) (submitted_at x) (payload_hash x) (lr_program x) Archived (reason x) (correlation x)
    (mapped_at x).

Definition summary (st : Store) (r : MigrationRun) : RunSummary :=
  mkSummary (mr_id r) (mr_source_system r) (mr_dry_run r) (mr_cursor r) (mr_mapped r) (total_of (mr_id r) st) (kept_of (mr_id r) st)
    (mr_sealed r).

(** The arguments of a mapping that describe the record. *)
Record Offer := mkOffer {
  o_legacy_id : BytesN32; o_source : Symbol; o_submitted_at : Z; o_payload : BytesN32; o_program : BytesN32; o_correlation : BytesN32;
  o_cursor : Z
}.
Definition record_of (t : Z) (o : Offer) : LegacyRecord :=
  mkRecord (o_legacy_id o) (o_source o) (o_submitted_at o) (o_payload o) (o_program o) Mapped 0 (o_correlation o) t.

Section Contract.
Context {L : Type}.
Abbreviation M := (Contract L Store Event ContractError).

Definition initialize (x : Address) : M unit :=
  o <- load admin ;;
  reject_if (bool_decide (is_Some o)) AlreadyInitialized ;;;
  require_auth x ;;;
  save (init_store x).

Definition require_admin (x : Address) : M unit :=
  o <- load admin ;; reject_if (negb (bool_decide (o = Some x))) NotAdmin.

Definition require_commitment (h : BytesN32) : M unit := reject_if (h =? 0) EmptyCommitment.

Definition load_run (i : Z) : M MigrationRun := o <- load (λ st, runs st !! i) ;; ok_or o RunNotFound.

Definition existing_state (l : BytesN32) : M RecordState :=
  o <- load (λ st, state <$> records st !! l) ;; ok_or o NotMapped.

Definition advance (r : MigrationRun) (cursor : Z) : M unit :=
  reject_if (cursor <? mr_cursor r) CursorRegression ;;;
  save (put_run (with_cursor cursor r)).

Definition begin_run (operator : Address) (source : Symbol) (dry : bool) : M Z :=
  require_auth operator ;;;
  require_admin operator ;;;
  open <- load open_runs ;;
  reject_if (MAX_RUNS <=? open) TooManyRuns ;;;
  o <- load next_run_id ;;
  i <- ok_or o NotInitialized ;;
  t <- now ;;
  save (put_run (mkRun i source dry 0 0 false t 0)) ;;;
  n <- ok_or (checked_add_u64 i 1) CounterOverflow ;;
  save (put_next_run n) ;;;
  k <- ok_or (checked_add_u64 open 1) CounterOverflow ;;
  save (put_open k) ;;;
  publish (rbeg i source dry) ;;;
  ret i.

Definition map_record (operator : Address) (i : Z) (o : Offer) : M RecordState :=
  require_auth operator ;;;
  require_admin operator ;;;
  require_commitment (o_payload o) ;;;
  r <- load_run i ;;
  reject_if (mr_sealed r) RunSealed ;;;
  reject_if (negb (bool_decide (mr_source_system r = o_source o))) RecordConflict ;;;
  if o_cursor o <=? mr_cursor r then existing_state (o_legacy_id o)
  else
    x <- load (λ st, records st !! o_legacy_id o) ;;
    match x with
    | Some existing =>
        reject_if (negb (payload_hash existing =? o_payload o) || negb (submitted_at existing =? o_submitted_at o)) RecordConflict ;;;
        advance r (o_cursor o) ;;;
        ret (state existing)
    | None =>
        tracked <- load tracked_count ;;
        reject_if (MAX_TRACKED_RECORDS <=? tracked) TooManyRecords ;;;
        if mr_dry_run r then advance r (o_cursor o) ;;; ret Eligible
        else
          t <- now ;;
          save (put_record (record_of t o)) ;;;
          n <- ok_or (checked_add_u64 tracked 1) CounterOverflow ;;
          save (put_tracked n) ;;;
          m <- ok_or (checked_add_u32 (mr_mapped r) 1) CounterOverflow ;;
          save (put_run (with_mapped m (o_cursor o) r)) ;;;
          publish (mapd (o_legacy_id o) i (o_program o) (o_submitted_at o) t) ;;;
          ret Mapped
    end.

Definition report_unmapped (operator : Address) (i : Z) (l : BytesN32) (why : UnmappableReason) (cursor : Z) : M unit :=
  require_auth operator ;;;
  require_admin operator ;;;
  r <- load_run i ;;
  reject_if (mr_sealed r) RunSealed ;;;
  if cursor <=? mr_cursor r then ret tt
  else
    x <- load (λ st, records st !! l) ;;
    (match x with
     | Some existing =>
         reject_if (negb (bool_decide (state existing = Eligible)) || bool_decide (state existing = Archived)) RecordConflict
     | None => ret tt
     end) ;;;
    total <- load (total_of i) ;;
    n <- ok_or (checked_add_u64 total 1) CounterOverflow ;;
    save (put_total i n) ;;;
    kept <- load (kept_of i) ;;
    (if kept <? MAX_REPORTED_PER_RUN then
       k <- ok_or (checked_add_u32 kept 1) CounterOverflow ;;
       save (put_report i kept l k)
     else ret tt) ;;;
    save (put_run (with_cursor cursor r)) ;;;
    publish (unmp l i why).

Definition seal_run (operator : Address) (i : Z) : M RunSummary :=
  require_auth operator ;;;
  require_admin operator ;;;
  r <- load_run i ;;
  if mr_sealed r then load (λ st, summary st r)
  else
    t <- now ;;
    open <- load open_runs ;;
    save (put_open (Z.max 0 (open - 1))) ;;;
    save (put_run (sealed_run t r)) ;;;
    s <- load (λ st, summary st (sealed_run t r)) ;;
    publish (rsel i s) ;;;
    ret s.

Definition archive_record (operator : Address) (l : BytesN32) : M unit :=
  require_auth operator ;;;
  require_admin operator ;;;
  o <- load (λ st, records st !! l) ;;
  x <- ok_or o RecordNotFound ;;
  reject_if (negb (bool_decide (state x = Mapped))) RecordConflict ;;;
  save (put_record (archived x)) ;;;
  tracked <- load tracked_count ;;
  save (put_tracked (Z.max 0 (tracked - 1))) ;;;
  publish (arch l (mapped_at x)).

Definition get_run (i : Z) : M MigrationRun := load_run i.
Definition run_summary (i : Z) : M RunSummary := r <- load_run i ;; load (λ st, summary st r).
Definition get_record (l : BytesN32) : M LegacyRecord := o <- load (λ st, records st !! l) ;; ok_or o RecordNotFound.
Definition record_state (l : BytesN32) : M RecordState := o <- load (λ st, state <$> records st !! l) ;; ok_or o NotMapped.
Definition get_reported (i index : Z) : M BytesN32 := o <- load (λ st, reports st !! (i, index)) ;; ok_or o RecordNotFound.
Definition unmapped_total (i : Z) : M Z := load (total_of i).
Definition tracked_records : M Z := load tracked_count.
Definition version : M Z := ret CONTRACT_VERSION.

(** ** Calls *)

Inductive Call :=
| CInitialize (x : Address)
| CBegin (operator : Address) (source : Symbol) (dry : bool)
| CMap (operator : Address) (i : Z) (o : Offer)
| CReport (operator : Address) (i : Z) (l : BytesN32) (why : UnmappableReason) (cursor : Z)
| CSeal (operator : Address) (i : Z)
| CArchive (operator : Address) (l : BytesN32).

Definition exec (c : Call) : M unit :=
  match c with
  | CInitialize x => initialize x
  | CBegin x s b => ignore (begin_run x s b)
  | CMap x i o => ignore (map_record x i o)
  | CReport x i l y n => report_unmapped x i l y n
  | CSeal x i => ignore (seal_run x i)
  | CArchive x l => archive_record x l
  end.
End Contract.

(** The declared widths of the arguments. *)
Definition valid (e : Env) (c : Call) : Prop :=
  0 ≤ timestamp e ≤ u64_max ∧
  match c with
  | CMap _ i o => 0 ≤ i ≤ u64_max ∧ 0 ≤ o_cursor o ≤ u64_max ∧ 0 ≤ o_submitted_at o ≤ u64_max
  | CReport _ i _ _ n => 0 ≤ i ≤ u64_max ∧ 0 ≤ n ≤ u64_max
  | _ => True
  end.
