(* ===== verification/MigrationTheorems.v ===== *)
(** * Migration: invariant and properties

    What each call that returns has checked and does; the invariant: the counters are the numbers
    of open runs, of mapped records and of reports, runs are numbered, records are mapped ones.

    The counters are exact; a mapped record stays as it was written and is archived at most once; a
    record offered again changes nothing; runs advance, and a sealed one is final. *)
From S2P Require Import Prelude Machine Host Migration.

Definition is_admin (e : Env) (st : Store) (x : Address) : Prop := admin st = Some x ∧ authorized e x = true.

(** A report is kept while there is room. *)
Definition add_report (i : Z) (l : BytesN32) (st : Store) : Store :=
  let st1 := put_total i (total_of i st + 1) st in
  if kept_of i st <? MAX_REPORTED_PER_RUN then put_report i (kept_of i st) l (kept_of i st + 1) st1 else st1.

Inductive effect (e : Env) (st : Store) : Call → Store → Prop :=
| E_initialize x : admin st = None → effect e st (CInitialize x) (init_store x st)
| E_begin x s b i :
    is_admin e st x → next_run_id st = Some i → open_runs st < MAX_RUNS → i + 1 ≤ u64_max →
    effect e st (CBegin x s b)
      (put_open (open_runs st + 1) (put_next_run (i + 1) (put_run (mkRun i s b 0 0 false (timestamp e) 0) st)))
| E_seen x i o r y :
    is_admin e st x → runs st !! i = Some r → mr_sealed r = false → mr_source_system r = o_source o → o_payload o ≠ 0 →
    o_cursor o ≤ mr_cursor r → records st !! o_legacy_id o = Some y →
    effect e st (CMap x i o) st
| E_known x i o r y :
    is_admin e st x → runs st !! i = Some r → mr_sealed r = false → mr_source_system r = o_source o → o_payload o ≠ 0 →
    mr_cursor r < o_cursor o → records st !! o_legacy_id o = Some y →
    payload_hash y = o_payload o → submitted_at y = o_submitted_at o →
    effect e st (CMap x i o) (put_run (with_cursor (o_cursor o) r) st)
| E_rehearsed x i o r :
    is_admin e st x → runs st !! i = Some r → mr_sealed r = false → mr_source_system r = o_source o → o_payload o ≠ 0 →
    mr_cursor r < o_cursor o → records st !! o_legacy_id o = None → tracked_count st < MAX_TRACKED_RECORDS → mr_dry_run r = true →
    effect e st (CMap x i o) (put_run (with_cursor (o_cursor o) r) st)
| E_mapped x i o r :
    is_admin e st x → runs st !! i = Some r → mr_sealed r = false → mr_source_system r = o_source o → o_payload o ≠ 0 →
    mr_cursor r < o_cursor o → records st !! o_legacy_id o = None → tracked_count st < MAX_TRACKED_RECORDS → mr_dry_run r = false →
    mr_mapped r + 1 ≤ u32_max →
    effect e st (CMap x i o)
      (put_run (with_mapped (mr_mapped r + 1) (o_cursor o) r) (put_tracked (tracked_count st + 1) (put_record (record_of (timestamp e) o) st)))
| E_reported_before x i l y n r :
    is_admin e st x → runs st !! i = Some r → mr_sealed r = false → n ≤ mr_cursor r → effect e st (CReport x i l y n) st
| E_reported x i l y n r :
    is_admin e st x → runs st !! i = Some r → mr_sealed r = false → mr_cursor r < n →
    (∀ z, records st !! l = Some z → state z = Eligible) → total_of i st + 1 ≤ u64_max →
    effect e st (CReport x i l y n) (put_run (with_cursor n r) (add_report i l st))
| E_sealed_before x i r : is_admin e st x → runs st !! i = Some r → mr_sealed r = true → effect e st (CSeal x i) st
| E_sealed x i r :
    is_admin e st x → runs st !! i = Some r → mr_sealed r = false →
    effect e st (CSeal x i) (put_run (sealed_run (timestamp e) r) (put_open (Z.max 0 (open_runs st - 1)) st))
| E_archived x l y :
    is_admin e st x → records st !! l = Some y → state y = Mapped →
    effect e st (CArchive x l) (put_tracked (Z.max 0 (tracked_count st - 1)) (put_record (archived y) st)).

Section Effects.
Context {L : Type}.
Abbreviation W := (World L Store Event).
Abbreviation M := (Contract L Store Event ContractError).
Implicit Types (w : W).

Lemma keep_done i l e w w' u :
  ((if kept_of i (store w) <? MAX_REPORTED_PER_RUN then
      k <- ok_or (checked_add_u32 (kept_of i (store w)) 1) CounterOverflow ;; save (put_report i (kept_of i (store w)) l k)
    else ret tt) : M unit) e w = Done w' u →
  ledger w' = ledger w ∧
  store w' = if kept_of i (store w) <? MAX_REPORTED_PER_RUN then put_report i (kept_of i (store w)) l (kept_of i (store w) + 1) (store w) else store w.
Proof. intros Hrun. destruct (_ <? _); run_inv; checked_prop; done. Qed.

Lemma migration_effect c e w w' u :
  (exec c : M unit) e w = Done w' u → ledger w' = ledger w ∧ effect e (store w) c (store w').
Proof.
  intros Hrun. destruct c as [x|x s b|x i o|x i l y n|x i|x l]; simpl in Hrun; try (apply ignore_done in Hrun as [? Hrun]).
  - unfold initialize in Hrun. run_inv. bool_prop. split; [done|]. apply E_initialize. by apply eq_None_not_Some.
  - unfold begin_run, require_admin in Hrun. run_inv. bool_prop. checked_prop. split; [done|]. apply E_begin; try done; lia.
  - unfold map_record, require_admin, require_commitment, load_run in Hrun. run_inv. bool_prop.
    match goal with H : runs _ !! _ = Some ?z |- _ => rename z into r end.
    destruct (Z.leb_spec (o_cursor o) (mr_cursor r)) as [Hc|Hc].
    { unfold existing_state in Hrun. run_inv.
      match goal with H : state <$> _ = Some _ |- _ => apply fmap_Some in H as (z & Hz & _) end. split; [done|]. by eapply E_seen. }
    run_inv. destruct (records (store w) !! o_legacy_id o) as [z|] eqn:Hz; unfold advance in Hrun.
    + run_inv. bool_prop. split; [done|]. by eapply E_known.
    + run_inv. bool_prop. destruct (mr_dry_run r) eqn:Hd; run_inv; checked_prop.
      * split; [done|]. by apply E_rehearsed.
      * split; [done|]. apply E_mapped; try done. lia.
  - unfold report_unmapped, require_admin, load_run in Hrun. run_inv. bool_prop.
    match goal with H : runs _ !! _ = Some ?z |- _ => rename z into r end.
    destruct (Z.leb_spec n (mr_cursor r)) as [Hc|Hc]; run_inv; [split; [done|]; by eapply E_reported_before|].
    assert (∀ z, records (store w) !! l = Some z → state z = Eligible) as Hel.
    { intros z Hz. rewrite Hz in *. run_inv. bool_prop. done. }
    destruct (records (store w) !! l) eqn:Hz0; run_inv; checked_prop;
    match goal with H : (if _ then _ else _) _ _ = _ |- _ => apply keep_done in H as [Hl Hst] end;
    cbn [ledger store] in *; (split; [done|]).
    all: assert (effect e (store w) (CReport x i l y n) (put_run (with_cursor n r) (add_report i l (store w)))) as He.
    all: first [apply E_reported; (rewrite Hz0; done) || done || lia|rewrite Hst; exact He].
  - unfold seal_run, require_admin, load_run in Hrun. run_inv. bool_prop.
    match goal with H : runs _ !! _ = Some ?z |- _ => rename z into r end.
    destruct (mr_sealed r) eqn:Hs; run_inv; (split; [done|]); [by eapply E_sealed_before|by apply E_sealed].
  - unfold archive_record, require_admin in Hrun. run_inv. bool_prop. split; [done|].
    match goal with H : state ?z = Mapped |- _ => exact (E_archived e (store w) x l z (conj Hrun1 Hrun0) Hrun3 H) end.
Qed.
End Effects.

(** ** The invariant *)

Definition open_of (_ : Z) (r : MigrationRun) : Z := if mr_sealed r then 0 else 1.
Definition mapped_of (_ : Z) (r : MigrationRun) : Z := mr_mapped r.
Definition browsable (_ : Z) (x : LegacyRecord) : Z := if decide (state x = Mapped) then 1 else 0.
Definition one (_ : Z) (_ : LegacyRecord) : Z := 1.

Definition empty_store : Store := mkStore None None 0 ∅ ∅ 0 ∅ ∅ ∅.

Definition run_ok (st : Store) (i : Z) (r : MigrationRun) : Prop :=
  mr_id r = i ∧ (∃ n, next_run_id st = Some n ∧ 1 ≤ i < n) ∧ 0 ≤ mr_cursor r ∧ 0 ≤ mr_mapped r ∧ (mr_dry_run r = true → mr_mapped r = 0).
Definition record_ok (l : Z) (x : LegacyRecord) : Prop :=
  legacy_id x = l ∧ payload_hash x ≠ 0 ∧ (state x = Mapped ∨ state x = Archived).
Definition reports_ok (st : Store) (i : Z) : Prop :=
  0 ≤ total_of i st ∧ kept_of i st = Z.min (total_of i st) MAX_REPORTED_PER_RUN ∧ ∀ k, is_Some (reports st !! (i, k)) ↔ 0 ≤ k < kept_of i st.

Record inv (st : Store) : Prop := {
  inv_fresh : admin st = None → st = empty_store;
  inv_next n : next_run_id st = Some n → 1 ≤ n;
  inv_runs i r : runs st !! i = Some r → run_ok st i r;
  inv_records l x : records st !! l = Some x → record_ok l x;
  inv_open : open_runs st = map_sum open_of (runs st) ∧ open_runs st ≤ MAX_RUNS;
  inv_tracked : tracked_count st = map_sum browsable (records st) ∧ tracked_count st ≤ MAX_TRACKED_RECORDS;
  inv_mapped : map_sum mapped_of (runs st) = map_sum one (records st);
  inv_reports i : reports_ok st i
}.

Lemma migration_empty_inv : inv empty_store.
Proof.
  split; try done.
  intros i. unfold reports_ok, total_of, kept_of. simpl. rewrite !lookup_empty. split_and!; [done|done|].
  intros k. rewrite lookup_empty. split; [by intros [? ?]|simpl; lia].
Qed.

(** A run whose identity stays is replaced: the sums move by what the run contributes. *)
Lemma runs_sum f st r r' i :
  runs st !! i = Some r → mr_id r' = i → map_sum f (runs (put_run r' st)) = map_sum f (runs st) - f i r + f i r'.
Proof. intros Hr <-. simpl. rewrite map_sum_insert. unfold at_key. rewrite Hr. lia. Qed.

Lemma run_replaced st r r' i :
  inv st → runs st !! i = Some r → mr_id r' = mr_id r → mr_sealed r' = mr_sealed r → mr_mapped r' = mr_mapped r →
  mr_dry_run r' = mr_dry_run r → 0 ≤ mr_cursor r' → inv (put_run r' st).
Proof.
  intros Hi Hr Hid Hs Hm Hd Hc. pose proof (inv_runs _ Hi i r Hr) as (H1 & H2 & _ & H4 & H5). rewrite H1 in Hid.
  destruct Hi as [I1 I2 I3 I4 I5 I6 I7 I8]. split; try done.
  - simpl. intros Ha%I1. rewrite Ha in Hr. done.
  - intros j x. simpl. rewrite Hid, lookup_insert. case_decide as Hj; [|apply I3]. intros [= <-]. subst j.
    unfold run_ok. rewrite Hm, Hd. by split_and!.
  - rewrite (runs_sum _ _ r _ i) by done. unfold open_of at 2 3. rewrite Hs. simpl. destruct I5. lia.
  - rewrite (runs_sum _ _ r _ i) by done. unfold mapped_of at 2 3. rewrite Hm. simpl. lia.
Qed.

Lemma add_report_runs i l st : runs (add_report i l st) = runs st.
Proof. unfold add_report. by destruct (_ <? _). Qed.

Lemma add_report_inv i l st r : inv st → runs st !! i = Some r → inv (add_report i l st).
Proof.
  intros Hi Hr. destruct Hi as [I1 I2 I3 I4 I5 I6 I7 I8]. destruct (I8 i) as (T1 & T2 & T3).
  assert (admin st ≠ None) as Ha. { intros Ha%I1. by rewrite Ha in Hr. }
  unfold add_report. split; try (destruct (_ <? _); done). intros j. unfold reports_ok.
  destruct (decide (j = i)) as [->|Hj].
  - destruct (Z.ltb_spec (kept_of i st) MAX_REPORTED_PER_RUN); unfold total_of, kept_of in *; simpl; rewrite ?lookup_insert_eq; simpl;
      (split_and!; [lia|lia|]); intros k; [|apply T3].
    rewrite lookup_insert. case_decide as Hk; [injection Hk as <-; split; [lia|by eexists]|]. rewrite T3.
    assert (k ≠ default 0 (unmapped_kept st !! i)) by congruence. lia.
  - destruct (I8 j) as (J1 & J2 & J3).
    destruct (_ <? _); unfold total_of, kept_of in *; simpl; rewrite ?lookup_insert_ne by done; (split_and!; [lia|lia|]); intros k;
      rewrite ?lookup_insert_ne by congruence; apply J3.
Qed.

Lemma browsable_change st l y y' :
  records st !! l = Some y → legacy_id y' = l → map_sum browsable (records (put_record y' st)) =
  map_sum browsable (records st) - browsable l y + browsable l y' ∧ map_sum one (records (put_record y' st)) = map_sum one (records st).
Proof. intros Hy <-. simpl. rewrite !map_sum_insert. unfold at_key. rewrite Hy. unfold one at 2 3. lia. Qed.

Lemma tracked_nonneg st : 0 ≤ map_sum browsable (records st).
Proof. apply map_sum_nonneg. intros k v _. unfold browsable. case_decide; lia. Qed.
Lemma open_nonneg st : 0 ≤ map_sum open_of (runs st).
Proof. apply map_sum_nonneg. intros k v _. unfold open_of. destruct (mr_sealed v); lia. Qed.

Lemma one_browsable st l y : records st !! l = Some y → state y = Mapped → 1 ≤ map_sum browsable (records st).
Proof.
  intros Hy Hs. pose proof (at_key_le_map_sum browsable (records st) l) as Hle. unfold at_key in Hle. rewrite Hy in Hle.
  unfold browsable at 2 in Hle. rewrite decide_True in Hle by done. apply Hle. intros k v _. unfold browsable. case_decide; lia.
Qed.
Lemma one_open st i r : runs st !! i = Some r → mr_sealed r = false → 1 ≤ map_sum open_of (runs st).
Proof.
  intros Hr Hs. pose proof (at_key_le_map_sum open_of (runs st) i) as Hle. unfold at_key in Hle. rewrite Hr in Hle.
  unfold open_of at 2 in Hle. rewrite Hs in Hle. apply Hle. intros k v _. unfold open_of. destruct (mr_sealed v); lia.
Qed.

Lemma migration_effect_inv e st c st' : inv st → valid e c → effect e st c st' → inv st'.
Proof.
  intros Hi Hv Heff. pose proof Hi as Hinv. destruct Hi as [I1 I2 I3 I4 I5 I6 I7 I8]. destruct Hv as [Ht Hv].
  destruct Heff as [x Ha|x s b i Ha Hn Ho Hmax|x i o r y Ha Hr Hs Hsrc Hp Hc Hy|x i o r y Ha Hr Hs Hsrc Hp Hc Hy Hyp Hys
    |x i o r Ha Hr Hs Hsrc Hp Hc Hy Htr Hd|x i o r Ha Hr Hs Hsrc Hp Hc Hy Htr Hd Hm|x i l y n r Ha Hr Hs Hc
    |x i l y n r Ha Hr Hs Hc Hel Htot|x i r Ha Hr Hs|x i r Ha Hr Hs|x l y Ha Hy Hs]; try done.
  - rewrite (I1 Ha). pose proof migration_empty_inv as [J1 J2 J3 J4 J5 J6 J7 J8]. split; try done. by intros n [= <-].
  - pose proof (I2 i Hn) as Hi1.
    assert (runs st !! i = None) as Hnew. { apply eq_None_not_Some. intros [r Hr]. destruct (I3 i r Hr) as (_ & (n & Hn' & ?) & _).
      rewrite Hn in Hn'. injection Hn' as <-. lia. }
    split; simpl; try done.
    + intros Hnone. destruct Ha as [Ha _]. congruence.
    + intros n [= <-]. lia.
    + intros j r. rewrite lookup_insert. case_decide as Hj.
      * intros [= <-]. subst j. unfold run_ok. simpl. split_and!; try done. exists (i + 1). split; [done|lia].
      * intros Hr. destruct (I3 j r Hr) as (H1 & (n & Hn' & ?) & H3). rewrite Hn in Hn'. injection Hn' as <-.
        split; [done|]. split; [exists (i + 1); split; [done|lia]|done].
    + rewrite map_sum_insert_new by done. unfold open_of at 1. simpl. unfold MAX_RUNS in *. destruct I5. lia.
    + rewrite map_sum_insert_new by done. unfold mapped_of at 1. simpl. lia.
  - apply (run_replaced _ r _ i); try done. simpl. destruct (I3 i r Hr). lia.
  - apply (run_replaced _ r _ i); try done. simpl. destruct (I3 i r Hr). lia.
  - pose proof (I3 i r Hr) as (H1 & H2 & H3 & H4 & H5).
    assert (runs (put_tracked (tracked_count st + 1) (put_record (record_of (timestamp e) o) st)) !! i = Some r) as Hr' by done.
    split.
    + destruct Ha as [Ha _]. simpl. congruence.
    + done.
    + intros j x'. simpl. rewrite H1, lookup_insert. case_decide as Hj; [|apply I3]. intros [= <-]. subst j.
      unfold run_ok. simpl. split_and!; [done|done|lia|lia|]. rewrite Hd. done.
    + intros l x'. simpl. rewrite lookup_insert. case_decide as Hl; [|apply I4]. intros [= <-]. subst l. unfold record_ok. simpl. auto.
    + rewrite (runs_sum _ _ r _ i) by done. unfold open_of at 2 3. simpl. destruct I5. lia.
    + simpl. rewrite map_sum_insert_new by done. unfold browsable at 1. simpl. destruct I6. lia.
    + rewrite (runs_sum _ _ r _ i) by done. unfold mapped_of at 2 3. simpl. rewrite map_sum_insert_new by done. unfold one at 1. lia.
    + done.
  - apply (run_replaced _ r _ i); try done; [by eapply add_report_inv|by rewrite add_report_runs|]. simpl. destruct (I3 i r Hr). lia.
  - pose proof (I3 i r Hr) as (H1 & H2 & H3 & H4 & H5). pose proof (one_open _ _ _ Hr Hs). split; try done.
    + simpl. destruct Ha as [Ha _]. congruence.
    + intros j x'. simpl. rewrite H1, lookup_insert. case_decide as Hj; [|apply I3]. intros [= <-]. by subst j.
    + rewrite (runs_sum _ _ r _ i) by done. unfold open_of at 2 3. rewrite Hs. simpl. destruct I5. lia.
    + rewrite (runs_sum _ _ r _ i) by done. unfold mapped_of at 2 3. simpl. lia.
  - destruct (I4 l y Hy) as (H1 & H2 & H3). pose proof (one_browsable _ _ _ Hy Hs).
    destruct (browsable_change st l y (archived y) Hy H1) as [E1 E2]. split; try done.
    + simpl. destruct Ha as [Ha _]. congruence.
    + intros j x'. simpl. rewrite H1, lookup_insert. case_decide as Hj; [|apply I4]. intros [= <-]. subst j. unfold record_ok. simpl. auto.
    + change (records (put_tracked ?a ?b)) with (records b). rewrite E1. unfold browsable at 2 3. rewrite decide_True by done.
      simpl. destruct I6. lia.
    + change (records (put_tracked ?a ?b)) with (records b). by rewrite E2.
Qed.

Section Reach.
Context {L : Type}.
Abbreviation W := (World L Store Event).
Implicit Types (w : W).

Definition deployed (w : W) : Prop := store w = empty_store.

Lemma migration_reachable this w : reachable exec valid this (λ _ _, True) deployed w → inv (store w).
Proof.
  apply (reachable_inv _ _ _ _ _ (λ w, inv (store w))).
  - intros w0 ->. apply migration_empty_inv.
  - intros c e w0 w1 u _ Hv Hi Hrun. destruct (migration_effect c e w0 w1 u Hrun) as [_ Heff]. by eapply migration_effect_inv.
  - done.
Qed.
End Reach.

(** What is said of a record and never changes. *)
Definition facts (x : LegacyRecord) : Symbol * Z * BytesN32 * BytesN32 * BytesN32 * Z :=
  (lr_source_system x, submitted_at x, payload_hash x, lr_program x, correlation x, mapped_at x).
Definition is_archived (st : Store) (l : BytesN32) : bool :=
  from_option (λ x, bool_decide (state x = Archived)) false (records st !! l).
Definition archives (l : BytesN32) (_ : Env) (c : Call) : bool := match c with CArchive _ k => bool_decide (k = l) | _ => false end.

(** A run that has come further. *)
Definition advanced (r r' : MigrationRun) : Prop :=
  mr_id r' = mr_id r ∧ mr_source_system r' = mr_source_system r ∧ mr_dry_run r' = mr_dry_run r ∧ started_at r' = started_at r ∧
  mr_cursor r ≤ mr_cursor r' ∧ mr_mapped r ≤ mr_mapped r' ∧ (mr_sealed r = true → r' = r).

#[local] Instance advanced_preorder : PreOrder advanced.
Proof.
  split.
  - intros r. unfold advanced. split_and!; done.
  - unfold advanced. intros r1 r2 r3 (?&?&?&?&?&?&Ha) (?&?&?&?&?&?&Hb). split_and!; try congruence; try lia.
    intros Hs. specialize (Ha Hs). subst r2. by apply Hb.
Qed.

Section Theorems.
Context {L : Type}.
Abbreviation W := (World L Store Event).
Abbreviation exec := (exec (L := L)).
Abbreviation M := (Contract L Store Event ContractError).
Abbreviation Reach this := (reachable exec valid this (λ _ _, True) deployed).
Implicit Types (w : W).

(** The counters are exact.  In a reachable world the open runs are the runs not sealed, at most fifty;
    the tracked records are the records mapped and not archived, at most fifty thousand; the mappings
    counted by the runs are together the records there are, and a dry run counts none; of each run the
    reports kept are the first thousand, numbered without a gap. *)
Theorem counters_exact this w :
  Reach this w →
  let st := store w in
  open_runs st = map_sum open_of (runs st) ∧ open_runs st ≤ MAX_RUNS ∧
  tracked_count st = map_sum browsable (records st) ∧ tracked_count st ≤ MAX_TRACKED_RECORDS ∧
  map_sum mapped_of (runs st) = map_sum one (records st) ∧
  (∀ i r, runs st !! i = Some r → mr_dry_run r = true → mr_mapped r = 0) ∧
  (∀ i, kept_of i st = Z.min (total_of i st) MAX_REPORTED_PER_RUN ∧ ∀ k, is_Some (reports st !! (i, k)) ↔ 0 ≤ k < kept_of i st).
Proof.
  intros Hi%migration_reachable st. destruct (inv_open _ Hi), (inv_tracked _ Hi). split_and!; try done.
  - apply (inv_mapped _ Hi).
  - intros i r Hr. by destruct (inv_runs _ Hi i r Hr) as (_ & _ & _ & _ & ?).
  - intros i. by destruct (inv_reports _ Hi i).
Qed.

(** What one call does to a record and to a run there is. *)
Lemma effect_record e st c st' l x :
  inv st → effect e st c st' → records st !! l = Some x →
  ∃ y, records st' !! l = Some y ∧ facts y = facts x ∧
    (if bool_decide (state y = Archived) then 1 else 0) = (if bool_decide (state x = Archived) then 1 else 0) + (if archives l e c then 1 else 0).
Proof.
  intros Hi Heff Hx.
  destruct Heff as [z Ha|z s b i Ha Hn Ho Hmax|z i o r y Ha Hr Hs Hsrc Hp Hc Hy|z i o r y Ha Hr Hs Hsrc Hp Hc Hy Hyp Hys
    |z i o r Ha Hr Hs Hsrc Hp Hc Hy Htr Hd|z i o r Ha Hr Hs Hsrc Hp Hc Hy Htr Hd Hm|z i k y n r Ha Hr Hs Hc
    |z i k y n r Ha Hr Hs Hc Hel Htot|z i r Ha Hr Hs|z i r Ha Hr Hs|z k y Ha Hy Hs];
    try (exists x; simpl; split_and!; [done|done|lia]).
  - exists x. simpl. rewrite lookup_insert_ne by congruence. split_and!; [done|done|lia].
  - exists x. unfold add_report. destruct (_ <? _); simpl; (split_and!; [done|done|lia]).
  - destruct (inv_records _ Hi k y Hy) as (Hid & _). simpl. rewrite Hid, lookup_insert. case_decide as Hk.
    + subst l. rewrite Hx in Hy. injection Hy as <-. eexists. split_and!; [done|done|]. simpl. rewrite Hs, (bool_decide_eq_true_2 (k = k)) by done. done.
    + exists x. rewrite (bool_decide_eq_false_2 (k = l)) by done. split_and!; [done|done|lia].
Qed.

Lemma effect_run e st c st' i r :
  inv st → effect e st c st' → runs st !! i = Some r → ∃ r', runs st' !! i = Some r' ∧ advanced r r'.
Proof.
  intros Hi Heff Hx. assert (∀ j r0 r1 m, runs st !! j = Some r0 → mr_id r1 = mr_id r0 → m = runs st → (r0 = r → i = j → advanced r r1) →
    ∃ r', <[mr_id r1 := r1]> m !! i = Some r' ∧ advanced r r') as Hput.
  { intros j r0 r1 m Hj Hid -> Hadv. destruct (inv_runs _ Hi j r0 Hj) as [H0 _]. rewrite Hid, H0, lookup_insert. case_decide as Hk.
    - rewrite Hk, Hx in Hj. injection Hj as <-. exists r1. split; [done|by apply Hadv].
    - exists r. done. }
  destruct Heff as [z Ha|z s b j Ha Hn Ho Hmax|z j o y x Ha Hr Hs Hsrc Hp Hc Hy|z j o y x Ha Hr Hs Hsrc Hp Hc Hy Hyp Hys
    |z j o y Ha Hr Hs Hsrc Hp Hc Hy Htr Hd|z j o y Ha Hr Hs Hsrc Hp Hc Hy Htr Hd Hm|z j k s n y Ha Hr Hs Hc
    |z j k s n y Ha Hr Hs Hc Hel Htot|z j y Ha Hr Hs|z j y Ha Hr Hs|z k y Ha Hy Hs]; simpl; try (exists r; done).
  - exists r. rewrite lookup_insert_ne; [done|]. intros <-. destruct (inv_runs _ Hi j r Hx) as (_ & (n & Hn' & ?) & _).
    rewrite Hn in Hn'. injection Hn' as <-. lia.
  - apply (Hput j y (with_cursor (o_cursor o) y)); try done. intros -> _. unfold advanced. simpl. split_and!; done || lia || congruence.
  - apply (Hput j y (with_cursor (o_cursor o) y)); try done. intros -> _. unfold advanced. simpl. split_and!; done || lia || congruence.
  - apply (Hput j y (with_mapped (mr_mapped y + 1) (o_cursor o) y)); try done. intros -> _. unfold advanced. simpl. split_and!; done || lia || congruence.
  - apply (Hput j y (with_cursor n y)); try done; [apply add_report_runs|]. intros -> _. unfold advanced. simpl. split_and!; done || lia || congruence.
  - apply (Hput j y (sealed_run (timestamp e) y)); try done. intros -> _. unfold advanced. simpl. split_and!; done || lia || congruence.
Qed.

(** History is kept verbatim.  Over any calls a record keeps everything that was written of it, and it
    is archived by exactly the calls to do so that return: at most one, and never undone. *)
Theorem record_verbatim this w calls l x :
  Reach this w → Forall (λ ec : Env * Call, self ec.1 = this ∧ valid ec.1 ec.2) calls → records (store w) !! l = Some x →
  let w' := run_calls exec calls w in
  (∃ y, records (store w') !! l = Some y ∧ facts y = facts x) ∧
  accepted exec (archives l) calls w =
    (if is_archived (store w') l then 1 else 0) - (if is_archived (store w) l then 1 else 0).
Proof.
  intros Hi%migration_reachable Hcalls Hx w'. rewrite Forall_forall in Hcalls.
  destruct (accepted_counts exec (λ w, inv (store w) ∧ ∃ y, records (store w) !! l = Some y ∧ facts y = facts x)
    (λ w, if is_archived (store w) l then 1 else 0) (archives l) calls w) as [[_ Hf] Hn].
  - intros e c w0 w1 u [H0 (y & Hy & Hfy)] Hin Hrun. destruct (migration_effect c e w0 w1 u Hrun) as [_ Heff].
    destruct (Hcalls _ Hin) as [_ Hv]. destruct (effect_record e _ c _ l y H0 Heff Hy) as (z & Hz & Hfz & Hcount). split.
    + split; [by eapply migration_effect_inv|]. exists z. split; [done|congruence].
    + unfold is_archived. rewrite Hy, Hz. exact Hcount.
  - split; [done|]. by exists x.
  - split; [exact Hf|]. subst w'. lia.
Qed.

(** Runs only advance.  Over any calls a run keeps what it is, its cursor and its number of mappings do
    not fall, and a run that is sealed stays exactly as it is. *)
Theorem run_only_advances this w calls i r :
  Reach this w → Forall (λ ec : Env * Call, self ec.1 = this ∧ valid ec.1 ec.2) calls → runs (store w) !! i = Some r →
  ∃ r', runs (store (run_calls exec calls w)) !! i = Some r' ∧ advanced r r'.
Proof.
  intros Hi%migration_reachable Hcalls Hr. rewrite Forall_forall in Hcalls.
  refine (proj2 (run_calls_inv exec (λ w, inv (store w) ∧ ∃ r', runs (store w) !! i = Some r' ∧ advanced r r') calls w _ _)).
  - intros e c w0 w1 u [H0 (y & Hy & Hfy)] Hin Hrun. destruct (migration_effect c e w0 w1 u Hrun) as [_ Heff].
    destruct (Hcalls _ Hin) as [_ Hv]. destruct (effect_run e _ c _ i y H0 Heff Hy) as (z & Hz & Hfz).
    split; [by eapply migration_effect_inv|]. exists z. split; [done|by etrans].
  - split; [done|]. exists r. done.
Qed.

(** A retry is safe.  After an offer has returned, the same offer again leaves the world as it is: it
    returns the state of the record when there is one, and, after a dry run, says that nothing was
    mapped. *)
Theorem offer_retried this w x i o e w1 s e' :
  Reach this w → map_record x i o e w = Done w1 s → authorized e' x = true →
  map_record x i o e' w1 =
    (match state <$> records (store w1) !! o_legacy_id o with Some s' => Done w1 s' | None => Failed w1 NotMapped end) ∧
  (records (store w1) !! o_legacy_id o = None ↔ s = Eligible).
Proof.
  intros Hi%migration_reachable Hrun Hau.
  assert (∃ r, authorized e x = true ∧ admin (store w1) = Some x ∧ runs (store w1) !! i = Some r ∧ mr_sealed r = false ∧ mr_source_system r = o_source o ∧
    (o_payload o =? 0) = false ∧ o_cursor o ≤ mr_cursor r) as (r & _ & Ha & Hr & Hs & Hsrc & Hp & Hc).
  { assert (exec (CMap x i o) e w = Done w1 tt) as Hex. { simpl. unfold ignore, bind. by rewrite Hrun. }
    destruct (migration_effect (CMap x i o) e w w1 tt Hex) as [_ Heff].
    inversion Heff as [| |? ? ? r ? [? ?] Hr|? ? ? r ? [? ?] Hr|? ? ? r [? ?] Hr|? ? ? r [? ?] Hr| | | | |]; subst;
      destruct (inv_runs _ Hi i r Hr) as [Hid _]; simpl; rewrite ?Hid, ?lookup_insert_eq; eexists; simpl;
      (split_and!; [done|done|done|done|done|by apply Z.eqb_neq|simpl; lia]). }
  split.
  - assert (o_cursor o <=? mr_cursor r = true) as Hle by (by apply Z.leb_le).
    unfold map_record, require_admin, require_commitment, load_run. run_fwd.
    rewrite Hle. unfold existing_state. run_fwd. by destruct (state <$> records (store w1) !! o_legacy_id o).
  - assert (∀ y, records (store w) !! o_legacy_id o = Some y → state y ≠ Eligible) as Hst.
    { intros y Hy. destruct (inv_records _ Hi _ _ Hy) as (_ & _ & [-> | ->]); done. }
    unfold map_record, require_admin, require_commitment, load_run in Hrun. run_inv. bool_prop.
    destruct (o_cursor o <=? _).
    { unfold existing_state in Hrun. run_inv. match goal with H : state <$> _ = Some _ |- _ => apply fmap_Some in H as (z & Hz & ->) end.
      rewrite Hz. split; [done|]. intros He. by apply Hst in Hz. }
    run_inv. destruct (records (store w) !! o_legacy_id o) as [z|] eqn:Hz; unfold advance in Hrun.
    + run_inv. simpl. rewrite Hz. split; [done|]. intros He. by apply Hst in He.
    + run_inv. destruct (mr_dry_run _); run_inv; simpl; [by rewrite Hz|]. rewrite lookup_insert_eq. done.
Qed.
End Theorems.

(** ** Concrete runs *)
Module Runs.
Definition this : Address := addr 0.
Definition boss : Address := addr 1.
Abbreviation exec := (exec (L := unit)).
Abbreviation Reach := (reachable exec valid this (λ _ _, True) deployed).

Definition at_time (t : Z) : Env := mkEnv t this (λ _, true).
Definition w0 : World unit Store Event := mkWorld tt empty_store [].
Definition offer1 : Offer := mkOffer 101 "cms" 5 77 1 9 1.
Definition offer3 : Offer := mkOffer 103 "cms" 6 79 1 9 3.
Definition setup : list (Env * Call) :=
  [(at_time 10, CInitialize boss); (at_time 11, CBegin boss "cms" false); (at_time 12, CMap boss 1 offer1);
   (at_time 13, CReport boss 1 102 NotEligible 2)].
Definition later : list (Env * Call) :=
  [(at_time 14, CMap boss 1 offer1); (at_time 15, CArchive boss 101); (at_time 16, CArchive boss 101); (at_time 17, CSeal boss 1);
   (at_time 18, CMap boss 1 offer3)].
Definition w1 : World unit Store Event := run_calls exec setup w0.

Lemma migration_runs calls :
  Forall (λ ec : Env * Call, self ec.1 = this ∧ valid ec.1 ec.2) calls → Reach (run_calls exec calls w0).
Proof. apply reachable_run. by apply reach_init. Qed.

Ltac valid_calls := repeat constructor; simpl; try done; range_lia.

Lemma migration_w1_reach : Reach w1.
Proof. apply migration_runs. valid_calls. Qed.

Lemma counters_exact_witness : open_runs (store w1) = 1 ∧ map_sum open_of (runs (store w1)) = 1 ∧ kept_of 1 (store w1) = 1.
Proof.
  destruct (counters_exact this w1 migration_w1_reach) as (Ho & _). rewrite <-Ho. vm_compute. done.
Defined.

Lemma record_verbatim_witness : accepted exec (archives 101) later w1 = 1.
Proof.
  destruct (record_verbatim this w1 later 101 (record_of 12 offer1)) as [_ Hn]; [apply migration_w1_reach|valid_calls|by vm_compute|].
  cbv zeta in Hn. rewrite Hn. vm_compute. reflexivity.
Defined.

Lemma run_only_advances_witness :
  ∃ r, runs (store (run_calls exec later w1)) !! 1 = Some r ∧ advanced (mkRun 1 "cms" false 2 1 false 11 0) r.
Proof. apply (run_only_advances this w1 later 1); [apply migration_w1_reach|valid_calls|by vm_compute]. Defined.

Definition rehearsed : list (Env * Call) := [(at_time 10, CInitialize boss); (at_time 11, CBegin boss "cms" true)].
Definition w2 : World unit Store Event := run_calls exec rehearsed w0.
Definition w3 : World unit Store Event := (invoke (map_record boss 1 offer1) (at_time 12) w2).1.

(** A dry run tells the caller that the record is eligible; the same offer again is an error. *)
Lemma offer_retried_witness :
  (invoke (map_record boss 1 offer1) (at_time 12) w2).2 = Returned Eligible ∧
  map_record boss 1 offer1 (at_time 13) w3 = Failed w3 NotMapped.
Proof.
  split; [by vm_compute|].
  destruct (offer_retried this w2 boss 1 offer1 (at_time 12) w3 Eligible (at_time 13)) as [Hr [_ Hn]].
  - apply migration_runs. valid_calls.
  - apply invoke_returned, invoke_pair. by vm_compute.
  - done.
  - rewrite Hr. by rewrite Hn.
Defined.
End Runs.
