(* ===== verification/MentorContracts.v ===== *)
(** * Mentorship contracts ([mentorship-contracts/src/lib.rs])

    Both parties publish numbered versions of their terms; an organizer runs a program with a number
    of seats: a seat is reserved as an offer that expires, or its participant waits in a queue. *)
From S2P Require Import Prelude Machine Host.

Definition CONTRACT_VERSION : Z := 2.
Definition SUPPORTED_SCHEMA_VERSION : Z := 1.
Definition MAX_VERSIONS_PER_CONTRACT : Z := 100.
Definition MAX_PAGE_SIZE : Z := 50.
Definition MAX_WAITLIST_SIZE : Z := 256.

Inductive ContractError :=
| ContractNotFound | VersionNotFound | UnsupportedSchemaVersion | InvalidTerms | InvalidPage | InvalidCursor | VersionOverflow
| VersionLimitExceeded | PartiesImmutable | ProgramNotFound | ProgramAlreadyExists | NotProgramOrganizer | InvalidCapacity
| CapacityBelowCommitted | SeatAlreadyRequested | WaitlistFull | CapacityFull | OfferNotFound | OfferExpired | OfferNotExpired
| SeatNotConfirmed | WaitlistEmpty | WaitlistCorrupt | InvalidWaitlistCursor.

Inductive SeatState := Waitlisted | Offered | Confirmed.
#[export] Instance SeatState_eq_dec : EqDecision SeatState.
Proof. solve_decision. Defined.

Record ProgramCapacity := mkCapacity {
  organizer : Address; capacity : Z; reserved_seats : Z; confirmed_seats : Z; waitlist_head : Z; waitlist_tail : Z;
  offer_ttl_seconds : Z; automatic_promotion : bool
}.
Record SeatRecord := mkSeat { state : SeatState; requested_at : Z; offer_expires_at : option Z }.
Record WaitlistPageRequest := mkWaitRequest { after_sequence : option Z; wl_limit : Z }.
Record WaitlistPage := mkWaitPage { participants : list Address; wl_next_cursor : option Z }.
Record Money := mkMoney { asset : Address; amount : Z }.
Record DateRange := mkRange { starts_at : Z; ends_at : Z }.
Record EvidenceReference := mkEvidence { content_hash : BytesN32; reference_hash : BytesN32 }.
Inductive ContractStatus := Published.

Record PublishMentorshipCommand := mkCommand {
  c_agreement_id : BytesN32; c_schema_version : Z; c_mentor : Address; c_mentee : Address; c_fee : Money; c_session_count : Z;
  c_period : DateRange; c_terms_hash : BytesN32; c_evidence : option EvidenceReference
}.
Record MentorshipContractVersion := mkVersion {
  agreement_id : BytesN32; schema_version : Z; mc_version : Z; mentor : Address; mentee : Address; fee : Money; session_count : Z;
  period : DateRange; terms_hash : BytesN32; evidence : option EvidenceReference; status : ContractStatus; published_at : Z
}.
Record GetMentorshipContractQuery := mkGet { q_agreement_id : BytesN32; q_version : option Z }.
Record PageRequest := mkPageRequest { after_version : Z; limit : Z }.
Record ListMentorshipContractsQuery := mkList { l_agreement_id : BytesN32; page : PageRequest }.
Record ContractVersionPage := mkPage { versions : list MentorshipContractVersion; next_cursor : option Z }.
Record MentorshipContractPublished := mkPublished {
  e_agreement_id : BytesN32; e_version : Z; e_schema_version : Z; e_mentor : Address; e_mentee : Address; e_terms_hash : BytesN32;
  e_status : ContractStatus; e_published_at : Z
}.

Inductive Event :=
| MENTPUB (p : MentorshipContractPublished)
| CAPSET (program : BytesN32) (capacity : Z) (automatic : bool)
| SEATOFR (program : BytesN32) (x : Address) (expires_at : Z)
| WAITADD (program : BytesN32) (x : Address) (sequence : Z)
| SEATCNF (program : BytesN32) (x : Address)
| SEATREL (program : BytesN32) (x : Address)
| SEATEXP (program : BytesN32) (x : Address).

Record Store := mkStore {
  latest_version : gmap Z Z;
  contract_version : gmap (Z * Z) MentorshipContractVersion;
  program_capacity : gmap Z ProgramCapacity;
  seats : gmap (Z * Address) SeatRecord;
  waitlist : gmap (Z * Z) Address
}.

Definition put_version (x : MentorshipContractVersion) (st : Store) : Store :=
  mkStore (<[agreement_id x := mc_version x]> (latest_version st)) (<[(agreement_id x, mc_version x) := x]> (contract_version st))
    (program_capacity st) (seats st) (waitlist st).
Definition put_capacity (p : BytesN32) (c : ProgramCapacity) (st : Store) : Store :=
  mkStore (latest_version st) (contract_version st) (<[p := c]> (program_capacity st)) (seats st) (waitlist st).
Definition put_seat (p : BytesN32) (x : Address) (r : SeatRecord) (st : Store) : Store :=
  mkStore (latest_version st) (contract_version st) (program_capacity st) (<[(p, x) := r]> (seats st)) (waitlist st).
Definition remove_seat (p : BytesN32) (x : Address) (st : Store) : Store :=
  mkStore (latest_version st) (contract_version st) (program_capacity st) (delete (p, x) (seats st)) (waitlist st).
Definition put_waiting (p : BytesN32) (n : Z) (x : Address) (st : Store) : Store :=
  mkStore (latest_version st) (contract_version st) (program_capacity st) (seats st) (<[(p, n) := x]> (waitlist st)).
Definition remove_waiting (p : BytesN32) (n : Z) (st : Store) : Store :=
  mkStore (latest_version st) (contract_version st) (program_capacity st) (seats st) (delete (p, n) (waitlist st)).

(** Assignments to the fields of a program. *)
Definition with_policy (n ttl : Z) (auto : bool) (c : ProgramCapacity) : ProgramCapacity :=
  mkCapacity (organizer c) n (reserved_seats c) (confirmed_seats c) (waitlist_head c) (waitlist_tail c) ttl auto.
Definition with_seats (reserved confirmed : Z) (c : ProgramCapacity) : ProgramCapacity :=
  mkCapacity (organizer c) (capacity c) reserved confirmed (waitlist_head c) (waitlist_tail c) (offer_ttl_seconds c) (automatic_promotion c).
Definition with_queue (head tail : Z) (c : ProgramCapacity) : ProgramCapacity :=
  mkCapacity (organizer c) (capacity c) (reserved_seats c) (confirmed_seats c) head tail (offer_ttl_seconds c) (automatic_promotion c).

(** The record a command publishes. *)
Definition version_of (t n : Z) (c : PublishMentorshipCommand) : MentorshipContractVersion :=
  mkVersion (c_agreement_id c) (c_schema_version c) n (c_mentor c) (c_mentee c) (c_fee c) (c_session_count c) (c_period c)
    (c_terms_hash c) (c_evidence c) Published t.
Definition published (x : MentorshipContractVersion) : MentorshipContractPublished :=
  mkPublished (agreement_id x) (mc_version x) (schema_version x) (mentor x) (mentee x) (terms_hash x) (status x) (published_at x).

Definition latest_of (a : BytesN32) (st : Store) : Z := default 0 (latest_version st !! a).

Section Contract.
Context {L : Type}.
Abbreviation M := (Contract L Store Event ContractError).

(** ** Terms *)

Definition bad_terms (c : PublishMentorshipCommand) : bool :=
  bool_decide (c_mentor c = c_mentee c) || (amount (c_fee c) <=? 0) || (c_session_count c =? 0) ||
  (ends_at (c_period c) <=? starts_at (c_period c)).

Definition publish_terms (c : PublishMentorshipCommand) : M Z :=
  require_auth (c_mentor c) ;;;
  require_auth (c_mentee c) ;;;
  reject_if (negb (c_schema_version c =? SUPPORTED_SCHEMA_VERSION)) UnsupportedSchemaVersion ;;;
  reject_if (bad_terms c) InvalidTerms ;;;
  previous_version <- load (latest_of (c_agreement_id c)) ;;
  version <- ok_or (checked_add_u32 previous_version 1) VersionOverflow ;;
  reject_if (MAX_VERSIONS_PER_CONTRACT <? version) VersionLimitExceeded ;;;
  (if 0 <? previous_version then
     o <- load (λ st, contract_version st !! (c_agreement_id c, previous_version)) ;;
     previous <- ok_or o ContractNotFound ;;
     reject_if (negb (bool_decide (mentor previous = c_mentor c)) || negb (bool_decide (mentee previous = c_mentee c))) PartiesImmutable
   else ret tt) ;;;
  t <- now ;;
  save (put_version (version_of t version c)) ;;;
  publish (MENTPUB (published (version_of t version c))) ;;;
  ret version.

Definition get_contract_version (q : GetMentorshipContractQuery) : M MentorshipContractVersion :=
  version <- (match q_version q with
              | Some version => ret version
              | None => o <- load (λ st, latest_version st !! q_agreement_id q) ;; ok_or o ContractNotFound
              end) ;;
  o <- load (λ st, contract_version st !! (q_agreement_id q, version)) ;;
  ok_or o VersionNotFound.

(** The loop of [list_contract_versions]. *)
Fixpoint versions_after (fuel : nat) (a : BytesN32) (current latest n : Z) (out : list MentorshipContractVersion) :
    M (Z * list MentorshipContractVersion) :=
  match fuel with
  | O => trap
  | S fuel =>
      if (current <? latest) && (Z.of_nat (length out) <? n) then
        current <- ok_or (checked_add_u32 current 1) VersionOverflow ;;
        o <- load (λ st, contract_version st !! (a, current)) ;;
        record <- ok_or o VersionNotFound ;;
        versions_after fuel a current latest n (out ++ [record])
      else ret (current, out)
  end.

Definition list_contract_versions (q : ListMentorshipContractsQuery) : M ContractVersionPage :=
  reject_if ((limit (page q) =? 0) || (MAX_PAGE_SIZE <? limit (page q))) InvalidPage ;;;
  o <- load (λ st, latest_version st !! l_agreement_id q) ;;
  latest <- ok_or o ContractNotFound ;;
  reject_if (latest <? after_version (page q)) InvalidCursor ;;;
  r <- versions_after (S (Z.to_nat (limit (page q)))) (l_agreement_id q) (after_version (page q)) latest (limit (page q)) [] ;;
  ret (mkPage r.2 (if r.1 <? latest then Some r.1 else None)).

Definition get_latest_version (a : BytesN32) : M Z := o <- load (λ st, latest_version st !! a) ;; ok_or o ContractNotFound.

(** ** Seats *)

Definition load_program_capacity (p : BytesN32) : M ProgramCapacity :=
  o <- load (λ st, program_capacity st !! p) ;; ok_or o ProgramNotFound.

Definition require_organizer (x : Address) (p : BytesN32) : M ProgramCapacity :=
  program <- load_program_capacity p ;;
  reject_if (negb (bool_decide (organizer program = x))) NotProgramOrganizer ;;;
  require_auth x ;;;
  ret program.

Definition committed_of (program : ProgramCapacity) : M Z :=
  ok_or (checked_add_u32 (reserved_seats program) (confirmed_seats program)) InvalidCapacity.

Definition promote_next_internal (p : BytesN32) (program : ProgramCapacity) : M (option Address * ProgramCapacity) :=
  committed <- committed_of program ;;
  reject_if (capacity program <=? committed) CapacityFull ;;;
  if waitlist_tail program <=? waitlist_head program then ret (None, program)
  else
    o <- load (λ st, waitlist st !! (p, waitlist_head program)) ;;
    x <- ok_or o WaitlistCorrupt ;;
    head <- ok_or (checked_add_u32 (waitlist_head program) 1) WaitlistCorrupt ;;
    save (remove_waiting p (waitlist_head program)) ;;;
    t <- now ;;
    expires_at <- ok_or (checked_add_u64 t (offer_ttl_seconds program)) InvalidCapacity ;;
    reserved <- ok_or (checked_add_u32 (reserved_seats program) 1) InvalidCapacity ;;
    o <- load (λ st, seats st !! (p, x)) ;;
    record <- ok_or o WaitlistCorrupt ;;
    reject_if (negb (bool_decide (state record = Waitlisted))) WaitlistCorrupt ;;;
    save (put_seat p x (mkSeat Offered (requested_at record) (Some expires_at))) ;;;
    publish (SEATOFR p x expires_at) ;;;
    ret (Some x, with_seats reserved (confirmed_seats program) (with_queue head (waitlist_tail program) program)).

Definition create_program (x : Address) (p : BytesN32) (n ttl : Z) (auto : bool) : M unit :=
  require_auth x ;;;
  reject_if ((n =? 0) || (ttl =? 0)) InvalidCapacity ;;;
  o <- load (λ st, program_capacity st !! p) ;;
  reject_if (bool_decide (is_Some o)) ProgramAlreadyExists ;;;
  save (put_capacity p (mkCapacity x n 0 0 0 0 ttl auto)) ;;;
  publish (CAPSET p n auto).

(** The loop of [configure_program]; every round moves the head of the queue. *)
Fixpoint promote_all (fuel : nat) (p : BytesN32) (program : ProgramCapacity) : M ProgramCapacity :=
  match fuel with
  | O => trap
  | S fuel =>
      if waitlist_head program <? waitlist_tail program then
        committed <- committed_of program ;;
        if committed <? capacity program then
          r <- promote_next_internal p program ;;
          promote_all fuel p r.2
        else ret program
      else ret program
  end.

Definition configure_program (x : Address) (p : BytesN32) (n ttl : Z) (auto : bool) : M unit :=
  program <- require_organizer x p ;;
  reject_if ((n =? 0) || (ttl =? 0)) InvalidCapacity ;;;
  committed <- committed_of program ;;
  reject_if (n <? committed) CapacityBelowCommitted ;;;
  program <- (if auto then
                promote_all (S (Z.to_nat (waitlist_tail program - waitlist_head program))) p (with_policy n ttl auto program)
              else ret (with_policy n ttl auto program)) ;;
  save (put_capacity p program) ;;;
  publish (CAPSET p n auto).

Definition get_program_capacity (p : BytesN32) : M ProgramCapacity := load_program_capacity p.
Definition get_seat_record (p : BytesN32) (x : Address) : M (option SeatRecord) := load (λ st, seats st !! (p, x)).

(** The loop of [get_waitlist_page]. *)
Fixpoint waiting_from (fuel : nat) (p : BytesN32) (sequence tail n : Z) (last : option Z) (out : list Address) :
    M (Z * option Z * list Address) :=
  match fuel with
  | O => trap
  | S fuel =>
      if (sequence <? tail) && (Z.of_nat (length out) <? n) then
        o <- load (λ st, waitlist st !! (p, sequence)) ;;
        x <- ok_or o WaitlistCorrupt ;;
        next <- ok_or (checked_add_u32 sequence 1) InvalidWaitlistCursor ;;
        waiting_from fuel p next tail n (Some sequence) (out ++ [x])
      else ret (sequence, last, out)
  end.

Definition get_waitlist_page (p : BytesN32) (q : WaitlistPageRequest) : M WaitlistPage :=
  reject_if ((wl_limit q =? 0) || (MAX_PAGE_SIZE <? wl_limit q)) InvalidPage ;;;
  program <- load_program_capacity p ;;
  sequence <- (match after_sequence q with
               | Some cursor =>
                   reject_if (waitlist_tail program <=? cursor) InvalidWaitlistCursor ;;;
                   next <- ok_or (checked_add_u32 cursor 1) InvalidWaitlistCursor ;;
                   ret (Z.max next (waitlist_head program))
               | None => ret (waitlist_head program)
               end) ;;
  r <- waiting_from (S (Z.to_nat (wl_limit q))) p sequence (waitlist_tail program) (wl_limit q) None [] ;;
  ret (mkWaitPage r.2 (if r.1.1 <? waitlist_tail program then r.1.2 else None)).

Definition request_seat (x : Address) (p : BytesN32) : M SeatState :=
  require_auth x ;;;
  program <- load_program_capacity p ;;
  o <- load (λ st, seats st !! (p, x)) ;;
  reject_if (bool_decide (is_Some o)) SeatAlreadyRequested ;;;
  committed <- committed_of program ;;
  t <- now ;;
  if (committed <? capacity program) && negb (waitlist_head program <? waitlist_tail program) then
    expires_at <- ok_or (checked_add_u64 t (offer_ttl_seconds program)) InvalidCapacity ;;
    reserved <- ok_or (checked_add_u32 (reserved_seats program) 1) InvalidCapacity ;;
    save (put_seat p x (mkSeat Offered t (Some expires_at))) ;;;
    publish (SEATOFR p x expires_at) ;;;
    save (put_capacity p (with_seats reserved (confirmed_seats program) program)) ;;;
    ret Offered
  else
    queued <- ok_or (checked_sub_u32 (waitlist_tail program) (waitlist_head program)) WaitlistCorrupt ;;
    reject_if (MAX_WAITLIST_SIZE <=? queued) WaitlistFull ;;;
    tail <- ok_or (checked_add_u32 (waitlist_tail program) 1) WaitlistFull ;;
    save (put_waiting p (waitlist_tail program) x) ;;;
    save (put_seat p x (mkSeat Waitlisted t None)) ;;;
    publish (WAITADD p x (waitlist_tail program)) ;;;
    save (put_capacity p (with_queue (waitlist_head program) tail program)) ;;;
    ret Waitlisted.

(** The offer of a seat that stands: its expiry. *)
Definition load_offer (p : BytesN32) (x : Address) : M (SeatRecord * Z) :=
  o <- load (λ st, seats st !! (p, x)) ;;
  record <- ok_or o OfferNotFound ;;
  reject_if (negb (bool_decide (state record = Offered))) OfferNotFound ;;;
  expires_at <- ok_or (offer_expires_at record) OfferNotFound ;;
  ret (record, expires_at).

Definition confirm_seat (x : Address) (p : BytesN32) : M unit :=
  require_auth x ;;;
  program <- load_program_capacity p ;;
  offer <- load_offer p x ;;
  t <- now ;;
  reject_if (offer.2 <=? t) OfferExpired ;;;
  reserved <- ok_or (checked_sub_u32 (reserved_seats program) 1) InvalidCapacity ;;
  confirmed <- ok_or (checked_add_u32 (confirmed_seats program) 1) InvalidCapacity ;;
  save (put_seat p x (mkSeat Confirmed (requested_at offer.1) None)) ;;;
  save (put_capacity p (with_seats reserved confirmed program)) ;;;
  publish (SEATCNF p x).

Definition promote_if_automatic (p : BytesN32) (program : ProgramCapacity) : M ProgramCapacity :=
  if automatic_promotion program then r <- promote_next_internal p program ;; ret r.2 else ret program.

Definition release_offer (x : Address) (p : BytesN32) (require_expired : bool) : M unit :=
  program <- load_program_capacity p ;;
  offer <- load_offer p x ;;
  t <- now ;;
  reject_if (require_expired && negb (offer.2 <=? t)) OfferNotExpired ;;;
  reject_if (negb require_expired && (offer.2 <=? t)) OfferExpired ;;;
  reserved <- ok_or (checked_sub_u32 (reserved_seats program) 1) InvalidCapacity ;;
  save (remove_seat p x) ;;;
  program <- promote_if_automatic p (with_seats reserved (confirmed_seats program) program) ;;
  save (put_capacity p program) ;;;
  publish (if require_expired then SEATEXP p x else SEATREL p x).

Definition decline_offer (x : Address) (p : BytesN32) : M unit := require_auth x ;;; release_offer x p false.
Definition expire_offer (p : BytesN32) (x : Address) : M unit := release_offer x p true.

Definition release_confirmed_seat (x : Address) (p : BytesN32) : M unit :=
  require_auth x ;;;
  program <- load_program_capacity p ;;
  o <- load (λ st, seats st !! (p, x)) ;;
  record <- ok_or o SeatNotConfirmed ;;
  reject_if (negb (bool_decide (state record = Confirmed))) SeatNotConfirmed ;;;
  confirmed <- ok_or (checked_sub_u32 (confirmed_seats program) 1) InvalidCapacity ;;
  save (remove_seat p x) ;;;
  program <- promote_if_automatic p (with_seats (reserved_seats program) confirmed program) ;;
  save (put_capacity p program) ;;;
  publish (SEATREL p x).

Definition promote_next (x : Address) (p : BytesN32) : M Address :=
  program <- require_organizer x p ;;
  r <- promote_next_internal p program ;;
  promoted <- ok_or r.1 WaitlistEmpty ;;
  save (put_capacity p r.2) ;;;
  ret promoted.

Definition version : M Z := ret CONTRACT_VERSION.

(** ** Calls *)

Inductive Call :=
| CPublish (c : PublishMentorshipCommand)
| CCreate (x : Address) (p : BytesN32) (n ttl : Z) (auto : bool)
| CConfigure (x : Address) (p : BytesN32) (n ttl : Z) (auto : bool)
| CRequest (x : Address) (p : BytesN32)
| CConfirm (x : Address) (p : BytesN32)
| CDecline (x : Address) (p : BytesN32)
| CExpire (p : BytesN32) (x : Address)
| CLeave (x : Address) (p : BytesN32)
| CPromote (x : Address) (p : BytesN32).

Definition exec (c : Call) : M unit :=
  match c with
  | CPublish c => ignore (publish_terms c)
  | CCreate x p n ttl auto => create_program x p n ttl auto
  | CConfigure x p n ttl auto => configure_program x p n ttl auto
  | CRequest x p => ignore (request_seat x p)
  | CConfirm x p => confirm_seat x p
  | CDecline x p => decline_offer x p
  | CExpire p x => expire_offer p x
  | CLeave x p => release_confirmed_seat x p
  | CPromote x p => ignore (promote_next x p)
  end.
End Contract.

(** The declared widths of the arguments. *)
Definition valid (e : Env) (c : Call) : Prop :=
  0 ≤ timestamp e ≤ u64_max ∧
  match c with
  | CCreate _ _ n ttl _ | CConfigure _ _ n ttl _ => 0 ≤ n ≤ u32_max ∧ 0 ≤ ttl ≤ u64_max
  | _ => True
  end.
