(* ===== verification/MentorContractsTheorems.v ===== *)
(** * Mentorship contracts: invariant and properties

    Each call on a program is a sequence of steps: a request reserves a seat or joins the queue, an
    offer is confirmed or released, the head of the queue is offered a seat.  The invariant: the
    counters of a program are the numbers of its seats, at most its capacity; its queue holds, in one
    place each, the participants that wait.

    Programs are never oversold, their queue is first come, first served, and an automatic program
    has no free seat while someone waits; an offer that expired can be taken back by anyone; published
    terms never change and stay between the same parties; pages are exact. *)
From S2P Require Import Prelude Machine Host Versions MentorContracts.

(** ** Steps *)

Definition committed (c : ProgramCapacity) : Z := reserved_seats c + confirmed_seats c.
Definition queued (c : ProgramCapacity) : Z := waitlist_tail c - waitlist_head c.

Inductive step (e : Env) (p : BytesN32) (st : Store) : Store → Prop :=
| S_create x n ttl auto :
    program_capacity st !! p = None → 0 < n ≤ u32_max → 0 < ttl →
    step e p st (put_capacity p (mkCapacity x n 0 0 0 0 ttl auto) st)
| S_policy c n ttl auto :
    program_capacity st !! p = Some c → 0 < n ≤ u32_max → 0 < ttl → committed c ≤ n →
    step e p st (put_capacity p (with_policy n ttl auto c) st)
| S_offer c x :
    program_capacity st !! p = Some c → seats st !! (p, x) = None → committed c < capacity c → waitlist_tail c ≤ waitlist_head c →
    timestamp e + offer_ttl_seconds c ≤ u64_max →
    step e p st (put_capacity p (with_seats (reserved_seats c + 1) (confirmed_seats c) c)
      (put_seat p x (mkSeat Offered (timestamp e) (Some (timestamp e + offer_ttl_seconds c))) st))
| S_enqueue c x :
    program_capacity st !! p = Some c → seats st !! (p, x) = None → (capacity c ≤ committed c ∨ waitlist_head c < waitlist_tail c) →
    queued c < MAX_WAITLIST_SIZE → waitlist_tail c + 1 ≤ u32_max →
    step e p st (put_capacity p (with_queue (waitlist_head c) (waitlist_tail c + 1) c)
      (put_seat p x (mkSeat Waitlisted (timestamp e) None) (put_waiting p (waitlist_tail c) x st)))
| S_confirm c x r t :
    program_capacity st !! p = Some c → seats st !! (p, x) = Some r → state r = Offered → offer_expires_at r = Some t → timestamp e < t →
    1 ≤ reserved_seats c → confirmed_seats c + 1 ≤ u32_max →
    step e p st (put_capacity p (with_seats (reserved_seats c - 1) (confirmed_seats c + 1) c)
      (put_seat p x (mkSeat Confirmed (requested_at r) None) st))
| S_release c x r t :
    program_capacity st !! p = Some c → seats st !! (p, x) = Some r → state r = Offered → offer_expires_at r = Some t →
    1 ≤ reserved_seats c →
    step e p st (put_capacity p (with_seats (reserved_seats c - 1) (confirmed_seats c) c) (remove_seat p x st))
| S_leave c x r :
    program_capacity st !! p = Some c → seats st !! (p, x) = Some r → state r = Confirmed → 1 ≤ confirmed_seats c →
    step e p st (put_capacity p (with_seats (reserved_seats c) (confirmed_seats c - 1) c) (remove_seat p x st))
| S_promote c x r :
    program_capacity st !! p = Some c → committed c < capacity c → waitlist_head c < waitlist_tail c →
    waitlist st !! (p, waitlist_head c) = Some x → seats st !! (p, x) = Some r → state r = Waitlisted →
    timestamp e + offer_ttl_seconds c ≤ u64_max →
    step e p st (put_capacity p (with_seats (reserved_seats c + 1) (confirmed_seats c) (with_queue (waitlist_head c + 1) (waitlist_tail c) c))
      (put_seat p x (mkSeat Offered (requested_at r) (Some (timestamp e + offer_ttl_seconds c))) (remove_waiting p (waitlist_head c) st))).

(** A step that is a promotion of the head of the queue. *)
Definition promotes (e : Env) (p : BytesN32) (st st' : Store) : Prop :=
  ∃ c, program_capacity st !! p = Some c ∧ waitlist_head c < waitlist_tail c ∧ committed c < capacity c ∧ step e p st st' ∧
    ∃ x, waitlist st !! (p, waitlist_head c) = Some x ∧ seats st !! (p, x) ≠ None ∧
      seats st' !! (p, x) = Some (mkSeat Offered (from_option requested_at 0 (seats st !! (p, x))) (Some (timestamp e + offer_ttl_seconds c))) ∧
      program_capacity st' !! p = Some (with_seats (reserved_seats c + 1) (confirmed_seats c) (with_queue (waitlist_head c + 1) (waitlist_tail c) c)).
(** The queue of the program is empty or its seats are all taken. *)
Definition saturated (c : ProgramCapacity) : Prop := waitlist_tail c ≤ waitlist_head c ∨ capacity c ≤ committed c.
Definition is_saturated (p : BytesN32) (st : Store) : Prop := ∀ c, program_capacity st !! p = Some c → saturated c.

(** What follows the release of a seat. *)
Definition refilled (e : Env) (p : BytesN32) (st st' : Store) : Prop :=
  ∃ c, program_capacity st !! p = Some c ∧
    if automatic_promotion c then (waitlist_tail c ≤ waitlist_head c ∧ st' = st) ∨ promotes e p st st' else st' = st.

(** ** What one call does *)

Inductive effect (e : Env) (st : Store) : Call → Store → Prop :=
| E_publish c :
    authorized e (c_mentor c) = true → authorized e (c_mentee c) = true → c_schema_version c = SUPPORTED_SCHEMA_VERSION →
    bad_terms c = false → latest_of (c_agreement_id c) st < MAX_VERSIONS_PER_CONTRACT →
    (0 < latest_of (c_agreement_id c) st → ∃ y, contract_version st !! (c_agreement_id c, latest_of (c_agreement_id c) st) = Some y ∧
      mentor y = c_mentor c ∧ mentee y = c_mentee c) →
    effect e st (CPublish c) (put_version (version_of (timestamp e) (latest_of (c_agreement_id c) st + 1) c) st)
| E_create x p n ttl auto :
    authorized e x = true → program_capacity st !! p = None → n ≠ 0 → ttl ≠ 0 →
    effect e st (CCreate x p n ttl auto) (put_capacity p (mkCapacity x n 0 0 0 0 ttl auto) st)
| E_configure x p n ttl (auto : bool) c st' :
    program_capacity st !! p = Some c → organizer c = x → authorized e x = true → n ≠ 0 → ttl ≠ 0 → committed c ≤ n →
    (if auto then rtc (promotes e p) (put_capacity p (with_policy n ttl auto c) st) st' ∧ is_saturated p st'
     else st' = put_capacity p (with_policy n ttl auto c) st) →
    effect e st (CConfigure x p n ttl auto) st'
| E_request x p st' :
    authorized e x = true → step e p st st' → seats st !! (p, x) = None → is_Some (seats st' !! (p, x)) → 
    (∀ c c', program_capacity st !! p = Some c → program_capacity st' !! p = Some c' →
      automatic_promotion c' = automatic_promotion c ∧ (saturated c → saturated c')) →
    effect e st (CRequest x p) st'
| E_confirm x p c r t :
    authorized e x = true →
    program_capacity st !! p = Some c → seats st !! (p, x) = Some r → state r = Offered → offer_expires_at r = Some t → timestamp e < t →
    1 ≤ reserved_seats c → confirmed_seats c + 1 ≤ u32_max →
    effect e st (CConfirm x p) (put_capacity p (with_seats (reserved_seats c - 1) (confirmed_seats c + 1) c)
      (put_seat p x (mkSeat Confirmed (requested_at r) None) st))
| E_decline x p c r t st' :
    authorized e x = true →
    program_capacity st !! p = Some c → seats st !! (p, x) = Some r → state r = Offered → offer_expires_at r = Some t → timestamp e < t →
    1 ≤ reserved_seats c →
    refilled e p (put_capacity p (with_seats (reserved_seats c - 1) (confirmed_seats c) c) (remove_seat p x st)) st' →
    effect e st (CDecline x p) st'
| E_expire x p c r t st' :
    program_capacity st !! p = Some c → seats st !! (p, x) = Some r → state r = Offered → offer_expires_at r = Some t → t ≤ timestamp e →
    1 ≤ reserved_seats c →
    refilled e p (put_capacity p (with_seats (reserved_seats c - 1) (confirmed_seats c) c) (remove_seat p x st)) st' →
    effect e st (CExpire p x) st'
| E_leave x p c r st' :
    authorized e x = true →
    program_capacity st !! p = Some c → seats st !! (p, x) = Some r → state r = Confirmed → 1 ≤ confirmed_seats c →
    refilled e p (put_capacity p (with_seats (reserved_seats c) (confirmed_seats c - 1) c) (remove_seat p x st)) st' →
    effect e st (CLeave x p) st'
| E_promote x p c st' :
    program_capacity st !! p = Some c → organizer c = x → authorized e x = true → promotes e p st st' →
    effect e st (CPromote x p) st'.

Section Effects.
Context {L : Type}.
Abbreviation W := (World L Store Event).
Abbreviation M := (Contract L Store Event ContractError).
Implicit Types (w : W).

Lemma put_capacity_twice p c c' st : put_capacity p c' (put_capacity p c st) = put_capacity p c' st.
Proof. unfold put_capacity. simpl. by rewrite insert_insert_eq. Qed.

Lemma put_capacity_id p c st : program_capacity st !! p = Some c → put_capacity p c st = st.
Proof. intros Hc. unfold put_capacity. rewrite insert_id by done. by destruct st. Qed.

(** The program in memory is the one that will be saved. *)
Lemma promote_done p c e w w' o c' :
  (promote_next_internal p c : M _) e w = Done w' (o, c') →
  ledger w' = ledger w ∧ committed c < capacity c ∧
  ((o = None ∧ c' = c ∧ w' = w ∧ waitlist_tail c ≤ waitlist_head c) ∨
   (is_Some o ∧ waitlist_head c < waitlist_tail c ∧ waitlist_head c' = waitlist_head c + 1 ∧ waitlist_tail c' = waitlist_tail c ∧
    promotes e p (put_capacity p c (store w)) (put_capacity p c' (store w')))).
Proof.
  intros Hrun. unfold promote_next_internal, committed_of in Hrun. run_inv. bool_prop. checked_prop.
  destruct (Z.leb_spec (waitlist_tail c) (waitlist_head c)) as [Hq|Hq]; run_inv; bool_prop.
  { injection Hret as -> ->. split_and!; [done|unfold committed; lia|]. left. done. }
  checked_prop. injection Hret as -> ->.
  split_and!; [done|unfold committed; lia|]. right. split_and!; [by eexists|done|done|done|]. simpl in *.
  match goal with H : waitlist _ !! _ = Some ?y, H' : seats _ !! _ = Some ?z |- _ => rename y into x, z into r, H into Hx, H' into Hr end.
  assert (program_capacity (put_capacity p c (store w)) !! p = Some c) as Hc by apply lookup_insert_eq.
  exists c. split; [done|]. split; [lia|]. split; [unfold committed; lia|]. split.
  - replace (put_capacity p (with_seats _ _ _) (put_seat _ _ _ _)) with (put_capacity p (with_seats (reserved_seats c + 1) (confirmed_seats c) (with_queue (waitlist_head c + 1) (waitlist_tail c) c))
      (put_seat p x (mkSeat Offered (requested_at r) (Some (timestamp e + offer_ttl_seconds c)))
        (remove_waiting p (waitlist_head c) (put_capacity p c (store w))))) by (unfold put_capacity; simpl; by rewrite insert_insert_eq).
    apply S_promote; try done; unfold committed; lia.
  - exists x. simpl. rewrite Hr, !lookup_insert_eq. done.
Qed.

Lemma refill_done p c e w w' c' :
  (promote_if_automatic p c : M _) e w = Done w' c' →
  ledger w' = ledger w ∧ refilled e p (put_capacity p c (store w)) (put_capacity p c' (store w')).
Proof.
  intros Hrun. unfold promote_if_automatic in Hrun. unfold refilled.
  destruct (automatic_promotion c) eqn:Ha; run_inv.
  - match goal with H : promote_next_internal _ _ _ _ = Done _ ?x |- _ => destruct x as [o c1]; apply promote_done in H as (Hl & _ & Hp) end.
    split; [done|]. exists c. split; [apply lookup_insert_eq|]. rewrite Ha.
    destruct Hp as [(-> & -> & -> & Hq)|(_ & _ & _ & _ & Hp)]; [left; done|right; done].
  - split; [done|]. exists c. split; [apply lookup_insert_eq|]. by rewrite Ha.
Qed.

Lemma promote_all_done p fuel c e w w' c' :
  (promote_all fuel p c : M _) e w = Done w' c' →
  ledger w' = ledger w ∧ rtc (promotes e p) (put_capacity p c (store w)) (put_capacity p c' (store w')) ∧ saturated c'.
Proof.
  revert c w. induction fuel as [|fuel IH]; intros c w Hrun; [done|]. simpl in Hrun. unfold saturated, committed.
  destruct (Z.ltb_spec (waitlist_head c) (waitlist_tail c)) as [Hq|Hq]; [|run_inv; split_and!; [done|done|lia]].
  unfold committed_of in Hrun. run_inv. checked_prop.
  destruct (Z.ltb_spec (reserved_seats c + confirmed_seats c) (capacity c)) as [Hc|Hc]; run_inv; [|split_and!; [done|done|lia]].
  match goal with H : promote_next_internal _ _ _ _ = Done _ ?x |- _ => destruct x as [o c1]; apply promote_done in H as (Hl & _ & Hp) end.
  simpl in Hrun. destruct (IH _ _ Hrun) as (Hl' & Hrtc & Hs). split_and!; [congruence| |done].
  destruct Hp as [(-> & -> & -> & Hq')|(_ & _ & _ & _ & Hp)]; [done|]. by eapply rtc_l.
Qed.

Lemma mentor_contracts_effect c e w w' u :
  (exec c : M unit) e w = Done w' u → ledger w' = ledger w ∧ effect e (store w) c (store w').
Proof.
  intros Hrun. destruct c as [c|x p n ttl a|x p n ttl a|x p|x p|x p|p x|x p|x p]; simpl in Hrun; try (apply ignore_done in Hrun as [? Hrun]).
  - unfold publish_terms in Hrun. run_inv. bool_prop. checked_prop.
    destruct (Z.ltb_spec 0 (latest_of (c_agreement_id c) (store w))); run_inv; bool_prop; (split; [done|]); apply E_publish; try done; try lia.
    intros _. by eexists.
  - unfold create_program in Hrun. run_inv. bool_prop. split; [done|]. apply E_create; try done. by apply eq_None_not_Some.
  - unfold configure_program, require_organizer, load_program_capacity, committed_of in Hrun. run_inv. bool_prop. checked_prop.
    match goal with H : program_capacity _ !! _ = Some ?z |- _ => rename z into c end.
    destruct a; run_inv.
    + match goal with H : promote_all _ _ _ _ _ = Done _ _ |- _ => apply promote_all_done in H as (Hl & Hrtc & Hs) end.
      split; [done|]. eapply E_configure; try done. split; [exact Hrtc|].
      intros c1. simpl. rewrite lookup_insert_eq. by intros [= <-].
    + split; [done|]. by eapply E_configure.
  - unfold request_seat, load_program_capacity, committed_of in Hrun. run_inv. bool_prop. checked_prop.
    match goal with H : program_capacity _ !! _ = Some ?z, H' : ¬ is_Some _ |- _ => rename z into c; apply eq_None_not_Some in H' as Hnew end.
    destruct ((reserved_seats c + confirmed_seats c <? capacity c) && negb (waitlist_head c <? waitlist_tail c)) eqn:Hg;
      [apply andb_prop in Hg as [Hg1%Z.ltb_lt Hg2%negb_true_iff%Z.ltb_ge]|apply andb_false_iff in Hg]; run_inv; bool_prop; checked_prop.
    + split; [done|]. apply E_request; try done.
      * apply S_offer; try done; lia.
      * simpl. rewrite lookup_insert_eq. by eexists.
      * intros c0 c1 Hc0. simpl. rewrite lookup_insert_eq. intros [= <-]. simplify_eq. split; [done|]. intros _. left. simpl. lia.
    + assert (capacity c ≤ committed c ∨ waitlist_head c < waitlist_tail c) as Hg'.
      { unfold committed. destruct Hg as [Hg|Hg]; [left|right]; bool_prop; lia. }
      split; [done|]. apply E_request; try done.
      * apply S_enqueue; try done; unfold queued; lia.
      * simpl. rewrite lookup_insert_eq. by eexists.
      * intros c0 c1 Hc0. simpl. rewrite lookup_insert_eq. intros [= <-]. simplify_eq. split; [done|]. unfold saturated, committed. simpl.
        intros [Hs|Hs]; [|by right]. destruct Hg' as [Hg'|Hg']; [by right|lia].
  - unfold confirm_seat, load_program_capacity, load_offer in Hrun. run_inv. bool_prop. checked_prop. split; [done|].
    eapply E_confirm; try done; lia.
  - unfold decline_offer, release_offer, load_program_capacity, load_offer in Hrun. run_inv. bool_prop. checked_prop.
    match goal with H : promote_if_automatic _ _ _ _ = Done _ _ |- _ => apply refill_done in H as (Hl & Href) end.
    simpl in *. split; [done|]. eapply E_decline; try done; lia.
  - unfold expire_offer, release_offer, load_program_capacity, load_offer in Hrun. run_inv. bool_prop. checked_prop.
    match goal with H : promote_if_automatic _ _ _ _ = Done _ _ |- _ => apply refill_done in H as (Hl & Href) end.
    simpl in *. split; [done|]. eapply E_expire; try done; lia.
  - unfold release_confirmed_seat, load_program_capacity in Hrun. run_inv. bool_prop. checked_prop.
    match goal with H : promote_if_automatic _ _ _ _ = Done _ _ |- _ => apply refill_done in H as (Hl & Href) end.
    simpl in *. split; [done|]. eapply E_leave; try done; lia.
  - unfold promote_next, require_organizer, load_program_capacity in Hrun. run_inv. bool_prop.
    match goal with H : promote_next_internal _ _ _ _ = Done _ ?x |- _ => destruct x as [o c1]; apply promote_done in H as (Hl & _ & Hp) end.
    simpl in *. split; [done|]. destruct Hp as [(-> & _)|(_ & _ & _ & _ & Hp)]; [done|].
    eapply E_promote; try done.
    match goal with H : program_capacity (store w) !! _ = Some _ |- _ => rewrite (put_capacity_id _ _ _ H) in Hp end. done.
Qed.
End Effects.

(** ** The invariant *)

(** The seats of [p] in the state [s]. *)
Definition seat_of (p : BytesN32) (s : SeatState) (k : Z * Address) (r : SeatRecord) : Z := if decide (k.1 = p ∧ state r = s) then 1 else 0.
Definition seat_count (p : BytesN32) (s : SeatState) (st : Store) : Z := map_sum (seat_of p s) (seats st).

Definition seat_state (p : BytesN32) (st : Store) (x : Address) : option SeatState := state <$> seats st !! (p, x).

(** The places of the queue are those from the head to the tail; who waits has exactly one. *)
Record queue_ok (p : BytesN32) (st : Store) (c : ProgramCapacity) : Prop := {
  ok_bounds : 0 ≤ waitlist_head c ≤ waitlist_tail c ∧ waitlist_tail c ≤ u32_max ∧ queued c ≤ MAX_WAITLIST_SIZE;
  ok_places n : is_Some (waitlist st !! (p, n)) ↔ waitlist_head c ≤ n < waitlist_tail c;
  ok_waiting n x : waitlist st !! (p, n) = Some x → seat_state p st x = Some Waitlisted;
  ok_one_place n m x : waitlist st !! (p, n) = Some x → waitlist st !! (p, m) = Some x → n = m;
  ok_queued x : seat_state p st x = Some Waitlisted → ∃ n, waitlist st !! (p, n) = Some x
}.
Record program_ok (p : BytesN32) (st : Store) (c : ProgramCapacity) : Prop := {
  ok_capacity : 0 < capacity c ≤ u32_max ∧ committed c ≤ capacity c ∧ 0 < offer_ttl_seconds c;
  ok_reserved : reserved_seats c = seat_count p Offered st;
  ok_confirmed : confirmed_seats c = seat_count p Confirmed st;
  ok_queue : queue_ok p st c
}.
Definition no_program (p : BytesN32) (st : Store) : Prop :=
  (∀ x, seats st !! (p, x) = None) ∧ ∀ n, waitlist st !! (p, n) = None.
Definition seat_ok (r : SeatRecord) : Prop := state r = Offered ↔ is_Some (offer_expires_at r).

(** Terms as they may be published, by the parties of the first version. *)
Definition terms_ok (x : MentorshipContractVersion) : Prop :=
  schema_version x = SUPPORTED_SCHEMA_VERSION ∧ mentor x ≠ mentee x ∧ 0 < amount (fee x) ∧ session_count x ≠ 0 ∧
  starts_at (period x) < ends_at (period x).
Definition parties_ok (st : Store) : Prop :=
  ∀ a n x, contract_version st !! (a, n) = Some x →
    agreement_id x = a ∧ terms_ok x ∧ ∃ y, contract_version st !! (a, 1) = Some y ∧ mentor y = mentor x ∧ mentee y = mentee x.

Record inv (st : Store) : Prop := {
  inv_parties : parties_ok st;
  inv_versions : versions_ok mc_version (latest_version st) (contract_version st);
  inv_programs p : match program_capacity st !! p with Some c => program_ok p st c | None => no_program p st end;
  inv_seats k r : seats st !! k = Some r → seat_ok r
}.

(** What a step leaves alone: the other programs. *)
Definition same_program (q : BytesN32) (st st' : Store) : Prop :=
  program_capacity st' !! q = program_capacity st !! q ∧ (∀ x, seats st' !! (q, x) = seats st !! (q, x)) ∧
  (∀ n, waitlist st' !! (q, n) = waitlist st !! (q, n)) ∧ ∀ s, seat_count q s st' = seat_count q s st.

Lemma seat_count_put p s x r m :
  map_sum (seat_of p s) (<[(p, x) := r]> m) =
  map_sum (seat_of p s) m
    - (if decide (state <$> m !! (p, x) = Some s) then 1 else 0) + (if decide (state r = s) then 1 else 0).
Proof.
  rewrite map_sum_insert. unfold at_key, seat_of. destruct (m !! (p, x)) as [r0|]; simpl; repeat case_decide; naive_solver lia.
Qed.
Lemma seat_count_put_other p q s x r m :
  q ≠ p → map_sum (seat_of q s) (<[(p, x) := r]> m) =
  map_sum (seat_of q s) m.
Proof.
  intros Hq. rewrite map_sum_insert. unfold at_key, seat_of. destruct (m !! (p, x)); simpl; repeat case_decide; naive_solver lia.
Qed.
Lemma seat_count_remove p s x m :
  map_sum (seat_of p s) (delete (p, x) m) =
  map_sum (seat_of p s) m - (if decide (state <$> m !! (p, x) = Some s) then 1 else 0).
Proof.
  rewrite map_sum_delete. unfold at_key, seat_of. destruct (m !! (p, x)) as [r0|]; simpl; repeat case_decide; naive_solver lia.
Qed.
Lemma seat_count_remove_other p q s x m :
  q ≠ p → map_sum (seat_of q s) (delete (p, x) m) =
  map_sum (seat_of q s) m.
Proof.
  intros Hq. rewrite map_sum_delete. unfold at_key, seat_of. destruct (m !! (p, x)); simpl; repeat case_decide; naive_solver lia.
Qed.

Lemma step_other e p q st st' : step e p st st' → q ≠ p → same_program q st st'.
Proof.
  intros Hs Hq. destruct Hs; unfold same_program, seat_count; simpl;
    (split_and!; [by rewrite lookup_insert_ne by congruence|intros y|intros n'|intros s]);
    rewrite ?lookup_insert_ne, ?lookup_delete_ne by congruence; rewrite ?seat_count_put_other, ?seat_count_remove_other by done; done.
Qed.

Lemma queue_kept p st st' c c' :
  queue_ok p st c → waitlist_head c' = waitlist_head c → waitlist_tail c' = waitlist_tail c →
  (∀ n, waitlist st' !! (p, n) = waitlist st !! (p, n)) →
  (∀ x, seat_state p st' x = Some Waitlisted ↔ seat_state p st x = Some Waitlisted) → queue_ok p st' c'.
Proof.
  intros [B C D E F] Hh Ht Hw Hs. split; unfold queued in *; rewrite ?Hh, ?Ht; try done.
  - intros n. by rewrite Hw.
  - intros n x. rewrite Hw, Hs. apply D.
  - intros n m x. rewrite !Hw. apply E.
  - intros x. rewrite Hs. intros [n Hn]%F. exists n. by rewrite Hw.
Qed.

Lemma same_program_ok q st st' c : same_program q st st' → program_ok q st c → program_ok q st' c.
Proof.
  intros (H1 & H2 & H3 & H4) [A B C D]. split; [done|by rewrite H4..|].
  eapply queue_kept; try done. intros x. unfold seat_state. by rewrite H2.
Qed.

Lemma seat_count_nonneg p s st : 0 ≤ seat_count p s st.
Proof. apply map_sum_nonneg. intros k r _. unfold seat_of. case_decide; lia. Qed.

(** A seat that is not waiting changes hands: the queue does not notice. *)
Lemma seat_put_state p st x r y : seat_state p (put_seat p x r st) y = if decide (x = y) then Some (state r) else seat_state p st y.
Proof. unfold seat_state. simpl. rewrite lookup_insert. repeat case_decide; simplify_eq; done. Qed.
Lemma seat_remove_state p st x y : seat_state p (remove_seat p x st) y = if decide (x = y) then None else seat_state p st y.
Proof. unfold seat_state. simpl. rewrite lookup_delete. repeat case_decide; simplify_eq; done. Qed.

Lemma queue_append p st c x t :
  queue_ok p st c → seats st !! (p, x) = None → queued c < MAX_WAITLIST_SIZE → waitlist_tail c + 1 ≤ u32_max →
  queue_ok p (put_seat p x (mkSeat Waitlisted t None) (put_waiting p (waitlist_tail c) x st)) (with_queue (waitlist_head c) (waitlist_tail c + 1) c).
Proof.
  intros [B C D E F] Hnew Hq Hmax. unfold queued in *.
  assert (∀ n y, waitlist st !! (p, n) = Some y → waitlist_head c ≤ n < waitlist_tail c) as Hin. { intros n y Hn. apply C. by eexists. }
  assert (∀ n, waitlist st !! (p, n) ≠ Some x) as Hx. { intros n Hn%D. unfold seat_state in Hn. by rewrite Hnew in Hn. }
  split; unfold queued; simpl.
  - lia.
  - intros n. rewrite lookup_insert. case_decide as Hn; [injection Hn as <-; split; [lia|by eexists]|]. rewrite C.
    assert (n ≠ waitlist_tail c) by congruence. lia.
  - intros n y. change (waitlist (put_seat ?a ?b ?d ?e)) with (waitlist e). rewrite lookup_insert, seat_put_state. case_decide; [intros [= <-]; by rewrite decide_True|].
    intros Hn. rewrite decide_False by (intros <-; by apply (Hx n)). by apply (D n).
  - intros n m y. rewrite !lookup_insert. repeat case_decide; simplify_eq; try done; intros; simplify_eq; try by (exfalso; eapply Hx). by eapply E.
  - intros y. rewrite seat_put_state. case_decide as Hy.
    + intros _. exists (waitlist_tail c). rewrite lookup_insert_eq. by subst y.
    + intros [n Hn]%F. exists n. rewrite lookup_insert_ne; [done|]. apply Hin in Hn. intros [= <-]. lia.
Qed.

Lemma queue_advance p st c x r t :
  queue_ok p st c → waitlist st !! (p, waitlist_head c) = Some x →
  queue_ok p (put_seat p x (mkSeat Offered r t) (remove_waiting p (waitlist_head c) st)) (with_queue (waitlist_head c + 1) (waitlist_tail c) c).
Proof.
  intros [B C D E F] Hx. unfold queued in *. assert (waitlist_head c ≤ waitlist_head c < waitlist_tail c) as Hlt by (apply C; by eexists).
  split; unfold queued; simpl.
  - lia.
  - intros n. rewrite lookup_delete. case_decide as Hn; [injection Hn as <-; split; [by intros [? ?]|lia]|]. rewrite C.
    assert (n ≠ waitlist_head c) by congruence. lia.
  - intros n y. rewrite lookup_delete, seat_put_state. case_decide as Hn; [done|]. intros Hy.
    rewrite decide_False; [by apply (D n)|]. intros <-. apply Hn. by rewrite (E _ _ _ Hx Hy).
  - intros n m y. rewrite !lookup_delete. repeat case_decide; try done. apply E.
  - intros y. rewrite seat_put_state. case_decide as Hy; [done|]. intros [n Hn]%F. exists n. rewrite lookup_delete_ne; [done|].
    intros [= <-]. congruence.
Qed.

Lemma step_program_ok e p st st' :
  (∀ c, program_capacity st !! p = Some c → program_ok p st c) → (program_capacity st !! p = None → no_program p st) → step e p st st' →
  ∃ c', program_capacity st' !! p = Some c' ∧ program_ok p st' c'.
Proof.
  intros Hok Hno Hs. pose proof (seat_count_nonneg p) as Hnn.
  assert (∀ s st1 st2, seats st1 = seats st2 → seat_count p s st1 = seat_count p s st2) as Hsame. { intros s st1 st2. unfold seat_count. by intros ->. }
  destruct Hs as [x n ttl au Hc Hn Httl|c n ttl au Hc Hn Httl Hcom|c x Hc Hx Hcom Hq Hmax|c x Hc Hx Hcom Hq Hmax
    |c x r t Hc Hx Hs Ht Hlt Hr Hmax|c x r t Hc Hx Hs Ht Hr|c x r Hc Hx Hs Hr|c x r Hc Hcom Hq Hw Hx Hs Hmax];
    eexists; (split; [simpl; apply lookup_insert_eq|]);
    [destruct (Hno Hc) as [N1 N2]|destruct (Hok c Hc) as [A B C D]..]; unfold committed in *.
  - assert (∀ s, seat_count p s st = 0) as Hzero.
    { intros s. unfold seat_count. apply map_sum_zero. intros [q y] r Hr. unfold seat_of.
      simpl. rewrite decide_False; [done|]. intros [-> _]. by rewrite N1 in Hr. }
    split; unfold committed; simpl; [lia|symmetry; apply Hzero..|]. split; unfold queued, seat_state; simpl; try done.
    + intros m. rewrite N2. split; [by intros [? ?]|lia].
    + intros m y. by rewrite N2.
    + intros m m' y. by rewrite N2.
    + intros y. by rewrite N1.
  - split; [unfold committed; simpl; lia|done..|]. by eapply queue_kept.
  - split; unfold committed, seat_count in *; simpl; rewrite ?seat_count_put, ?Hx; simpl; [lia|lia|lia|].
    eapply queue_kept; try done. intros y. unfold seat_state. simpl. rewrite lookup_insert. case_decide; simplify_eq; [by rewrite Hx|done].
  - split; unfold committed, seat_count in *; simpl; rewrite ?seat_count_put, ?Hx; simpl; [lia..|].
    pose proof (queue_append p st c x (timestamp e) D Hx Hq Hmax) as [? ? ? ? ?]. by split.
  - assert (Hx' : state <$> seats st !! (p, x) = Some Offered) by (rewrite Hx; simpl; by f_equal).
    split; unfold committed, seat_count in *; simpl; rewrite ?seat_count_put, ?Hx'; simpl; [lia..|].
    eapply queue_kept; try done. intros y. unfold seat_state. simpl. rewrite lookup_insert. case_decide; simplify_eq; [by rewrite Hx'|done].
  - assert (Hx' : state <$> seats st !! (p, x) = Some Offered) by (rewrite Hx; simpl; by f_equal).
    split; unfold committed, seat_count in *; simpl; rewrite ?seat_count_remove, ?Hx'; simpl; [lia..|].
    eapply queue_kept; try done. intros y. unfold seat_state. simpl. rewrite lookup_delete. case_decide; simplify_eq; [by rewrite Hx'|done].
  - assert (Hx' : state <$> seats st !! (p, x) = Some Confirmed) by (rewrite Hx; simpl; by f_equal).
    split; unfold committed, seat_count in *; simpl; rewrite ?seat_count_remove, ?Hx'; simpl; [lia..|].
    eapply queue_kept; try done. intros y. unfold seat_state. simpl. rewrite lookup_delete. case_decide; simplify_eq; [by rewrite Hx'|done].
  - assert (Hx' : state <$> seats st !! (p, x) = Some Waitlisted) by (rewrite Hx; simpl; by f_equal).
    split; unfold committed, seat_count in *; simpl; rewrite ?seat_count_put, ?Hx'; simpl; [lia..|].
    pose proof (queue_advance p st c x (requested_at r) (Some (timestamp e + offer_ttl_seconds c)) D Hw) as [? ? ? ? ?]. by split.
Qed.

Lemma step_seats_ok e p st st' : (∀ k r, seats st !! k = Some r → seat_ok r) → step e p st st' → ∀ k r, seats st' !! k = Some r → seat_ok r.
Proof.
  intros Hok Hs k r. destruct Hs; simpl; try apply Hok; rewrite ?lookup_insert, ?lookup_delete; case_decide; try apply Hok; try done;
    intros [= <-]; unfold seat_ok; simpl; (split; [done || (intros; by eexists)|done || by intros [? ?]]).
Qed.

Lemma seat_step_inv e p st st' : inv st → step e p st st' → inv st'.
Proof.
  intros [T V P S] Hs. split.
  - by destruct Hs.
  - by destruct Hs.
  - intros q. destruct (decide (q = p)) as [->|Hq].
    + pose proof (P p) as Hp. destruct (step_program_ok e p st st') as (c & Hc & Hok); [intros c Hc; by rewrite Hc in Hp|intros Hc; by rewrite Hc in Hp|done|by rewrite Hc].
    + pose proof (step_other e p q st st' Hs Hq) as Hsame. pose proof Hsame as (Hc & Hx & Hw & _). rewrite Hc. specialize (P q). destruct (program_capacity st !! q) as [c|].
      * apply (same_program_ok q st); done.
      * destruct P as [P1 P2]. split; intros y; by rewrite ?Hx, ?Hw.
  - by eapply step_seats_ok.
Qed.

Lemma publish_inv e st c st' : inv st → effect e st (CPublish c) st' → inv st'.
Proof.
  intros [T V P S] Heff. inversion Heff as [? Ha1 Ha2 Hsch Hbad Hmax Hprev| | | | | | | |]. subst.
  set (a := c_agreement_id c) in *. set (x := version_of (timestamp e) (latest_of a st + 1) c).
  destruct (versions_next mc_version (latest_version st) (contract_version st) a (latest_of a st + 1) x V) as [V' Hnew];
    [done|unfold MAX_VERSIONS_PER_CONTRACT in *; range_lia|done|].
  split; [|exact V'| |exact S].
  - assert (terms_ok x) as Hx.
    { unfold bad_terms in Hbad. bool_prop. unfold terms_ok. simpl. split_and!; done || lia. }
    intros b n y. change (contract_version (put_version x st)) with (<[(a, latest_of a st + 1) := x]> (contract_version st)).
    rewrite !lookup_insert. destruct (versions_published mc_version _ _ a (latest_of a st) V) as [_ Hl].
    destruct (V a) as (Hb & _). fold (latest_of a st) in Hb.
    case_decide as Hn.
    + intros [= <-]. injection Hn as <- <-. split_and!; [done|done|]. case_decide as H1; [by exists x|].
      destruct Hprev as (y & Hy & Hm & He); [assert (latest_of a st + 1 ≠ 1) by congruence; lia|]. destruct (T _ _ _ Hy) as (_ & _ & z & Hz & Hzm & Hze).
      exists z. split_and!; [done| |]; simpl; congruence.
    + intros Hy. destruct (T _ _ _ Hy) as (Hid & Hok & z & Hz & Hzm & Hze). split_and!; [done|done|].
      exists z. case_decide as H1; [|done]. injection H1 as -> H1. replace (latest_of b st + 1) with 1 in Hnew by lia. congruence.
  - intros p. specialize (P p). change (program_capacity (put_version x st)) with (program_capacity st).
    destruct (program_capacity st !! p); [by apply (same_program_ok p st)|exact P].
Qed.

Lemma refilled_steps e p st st' : refilled e p st st' → rtc (step e p) st st'.
Proof.
  intros (c & Hc & Href). destruct (automatic_promotion c); [|by subst].
  destruct Href as [[_ ->]|(c' & _ & _ & _ & Hs & _)]; [done|by apply rtc_once].
Qed.

(** Every other call is a sequence of steps of one program. *)
Lemma effect_steps e st c st' :
  valid e c → effect e st c st' → (∃ k, c = CPublish k) ∨ ∃ p, rtc (step e p) st st'.
Proof.
  intros [_ Hv] Heff. destruct Heff as [c Ha1 Ha2 Hsch Hbad Hmax Hprev|x p n ttl au Ha Hc Hn Httl|x p n ttl au c st' Hc Ho Ha Hn Httl Hcom Hst
    |x p st' Ha Hs Hx Hx' Hsat|x p c r t Ha Hc Hx Hs Ht Hlt Hr Hmax|x p c r t st' Ha Hc Hx Hs Ht Hlt Hr Href|x p c r t st' Hc Hx Hs Ht Hlt Hr Href
    |x p c r st' Ha Hc Hx Hs Hr Href|x p c st' Hc Ho Ha Hp]; [left; by eexists|right; exists p; simpl in Hv..].
  - apply rtc_once. apply S_create; [done|lia|lia].
  - eapply rtc_l; [apply (S_policy e p st c n ttl au); [done|lia|lia|done]|]. destruct au; [|by subst]. destruct Hst as [Hst _].
    eapply rtc_subrel, Hst. by intros ? ? (? & ? & ? & ? & ? & _).
  - by apply rtc_once.
  - apply rtc_once. by eapply S_confirm.
  - eapply rtc_l; [by eapply S_release|by apply refilled_steps].
  - eapply rtc_l; [by eapply S_release|by apply refilled_steps].
  - eapply rtc_l; [by eapply S_leave|by apply refilled_steps].
  - destruct Hp as (? & ? & ? & ? & Hp & _). by apply rtc_once.
Qed.

Lemma mentor_contracts_effect_inv e st c st' : inv st → valid e c → effect e st c st' → inv st'.
Proof.
  intros Hi Hv Heff. destruct (effect_steps e st c st' Hv Heff) as [[k ->]|[p Hs]]; [by eapply publish_inv|].
  clear Heff. induction Hs as [|st1 st2 st3 H12 _ IH]; [done|]. apply IH. by eapply seat_step_inv.
Qed.

(** ** Automatic programs keep their seats taken *)
Definition automatic_ok (st : Store) : Prop :=
  ∀ p c, program_capacity st !! p = Some c → automatic_promotion c = true → saturated c.

Lemma refilled_capacity e p st st' q :
  refilled e p st st' → q ≠ p → program_capacity st' !! q = program_capacity st !! q.
Proof.
  intros Href%refilled_steps Hq. induction Href as [|st1 st2 st3 H12 _ IH]; [done|]. rewrite IH. by destruct (step_other e p q st1 st2 H12 Hq) as [-> _].
Qed.

(** The program after a release and a refill: full again, or with an empty queue. *)
Lemma refilled_saturated e p st st' c c' :
  refilled e p st st' → program_capacity st !! p = Some c → capacity c - 1 ≤ committed c → program_capacity st' !! p = Some c' →
  automatic_promotion c' = true → saturated c'.
Proof.
  intros (c0 & Hc0 & Href) Hc Hcom Hc' Hau. rewrite Hc in Hc0. injection Hc0 as <-. destruct (automatic_promotion c) eqn:Ha; [|subst; congruence].
  destruct Href as [[Hq ->]|(c1 & Hc1 & Hq & _ & _ & x & _ & _ & _ & Hst)]; simplify_eq; [by left|].
  right. unfold committed in *. simpl. lia.
Qed.

Lemma refilled_empty e p st st' c c' :
  refilled e p st st' → program_capacity st !! p = Some c → waitlist_tail c ≤ waitlist_head c → program_capacity st' !! p = Some c' → saturated c'.
Proof.
  intros (c0 & Hc0 & Href) Hc Hq Hc'. rewrite Hc in Hc0. injection Hc0 as <-.
  assert (st' = st) as -> by (destruct (automatic_promotion c); [destruct Href as [[_ ->]|(c1 & Hc1 & Hq1 & _)]; [done|simplify_eq; lia]|done]).
  simplify_eq. by left.
Qed.

Lemma refilled_auto e p st st' c c' :
  refilled e p st st' → program_capacity st !! p = Some c → program_capacity st' !! p = Some c' → automatic_promotion c' = automatic_promotion c.
Proof.
  intros (c0 & Hc0 & Href) Hc Hc'. rewrite Hc in Hc0. injection Hc0 as <-. destruct (automatic_promotion c) eqn:Ha; [|subst; congruence].
  destruct Href as [[Hq ->]|(c1 & Hc1 & Hq & _ & _ & x & _ & _ & _ & Hst)]; by simplify_eq.
Qed.

Definition deployed {L} (w : World L Store Event) : Prop := store w = mkStore ∅ ∅ ∅ ∅ ∅.

(** What a program's queue still holds: the places between the head and the tail. *)
Definition still_waiting (p : BytesN32) (st st' : Store) : Prop :=
  ∀ c, program_capacity st !! p = Some c →
    ∃ c', program_capacity st' !! p = Some c' ∧ waitlist_head c ≤ waitlist_head c' ∧ waitlist_tail c ≤ waitlist_tail c' ∧
      ∀ n, waitlist_head c' ≤ n < waitlist_tail c → waitlist st' !! (p, n) = waitlist st !! (p, n).

#[local] Instance still_waiting_preorder p : PreOrder (still_waiting p).
Proof.
  split.
  - intros st c Hc. exists c. split_and!; done.
  - intros st1 st2 st3 H12 H23 c Hc. destruct (H12 c Hc) as (c2 & Hc2 & ? & ? & Hw2). destruct (H23 c2 Hc2) as (c3 & Hc3 & ? & ? & Hw3).
    exists c3. split_and!; [done|lia|lia|]. intros n Hn. rewrite Hw3 by lia. apply Hw2. lia.
Qed.

Lemma step_still_waiting e p q st st' : inv st → step e p st st' → still_waiting q st st'.
Proof.
  intros Hi Hs. destruct (decide (q = p)) as [->|Hq].
  2:{ destruct (step_other e p q st st' Hs Hq) as (Hc & _ & Hw & _). intros c. rewrite <-Hc. intros Hc'. exists c. by split_and!. }
  intros c Hc. destruct Hs as [x n ttl au Hc'|c1 n ttl au Hc'|c1 x Hc'|c1 x Hc'|c1 x r t Hc'|c1 x r t Hc'|c1 x r Hc'|c1 x r Hc']; simpl;
    rewrite lookup_insert_eq; simplify_eq; eexists; (split; [done|]); simpl; (split_and!; [lia..|]); intros k Hk; try done.
  - rewrite lookup_insert_ne; [done|]. intros [= <-]. lia.
  - rewrite lookup_delete_ne; [done|]. intros [= <-]. lia.
Qed.

Lemma effect_still_waiting e c st st' q : inv st → valid e c → effect e st c st' → still_waiting q st st'.
Proof.
  intros Hi Hv Heff. destruct (effect_steps e st c st' Hv Heff) as [[k ->]|[p Hs]].
  { inversion Heff. subst. intros c Hc. exists c. by split_and!. }
  clear Heff. induction Hs as [st|st1 st2 st3 H12 _ IH]; [done|]. transitivity st2; [by eapply step_still_waiting|]. apply IH. by eapply seat_step_inv.
Qed.

Lemma effect_versions e c st st' :
  inv st → effect e st c st' → ∀ a n x, contract_version st !! (a, n) = Some x → contract_version st' !! (a, n) = Some x.
Proof.
  intros Hi Heff a n x Hx. assert (∀ p st1 st2, rtc (step e p) st1 st2 → contract_version st2 = contract_version st1) as Hrtc.
  { intros p st1 st2 H. induction H as [|y1 y2 y3 H12 _ IH]; [done|]. rewrite IH. by destruct H12. }
  assert (∀ p st1 st2, rtc (promotes e p) st1 st2 → contract_version st2 = contract_version st1) as Hprom.
  { intros p st1 st2 H. apply (Hrtc p). eapply rtc_subrel, H. by intros ? ? (? & ? & ? & ? & ? & _). }
  destruct Heff as [c Ha1 Ha2 Hsch Hbad Hmax Hprev|y p m ttl au Ha Hc Hn Httl|y p m ttl au c st' Hc Ho Ha Hn Httl Hcom Hst
    |y p st' Ha Hs Hy Hy' Hsat|y p c r t Ha Hc Hy Hs Ht Hlt Hr Hmax|y p c r t st' Ha Hc Hy Hs Ht Hlt Hr Href|y p c r t st' Hc Hy Hs Ht Hlt Hr Href
    |y p c r st' Ha Hc Hy Hs Hr Href|y p c st' Hc Ho Ha Hp].
  - simpl. rewrite lookup_insert_ne; [done|]. intros Hn. destruct (versions_published mc_version _ _ (c_agreement_id c) (latest_of (c_agreement_id c) st + 1) (inv_versions _ Hi)) as [Hl _].
    rewrite Hn in Hl. unfold latest_of in Hl. lapply Hl; [|by eexists]. lia.
  - done.
  - destruct au; [|by subst]. destruct Hst as [Hst _]. by rewrite (Hprom _ _ _ Hst).
  - by rewrite (Hrtc p st st') by (by apply rtc_once).
  - done.
  - apply refilled_steps in Href. by rewrite (Hrtc _ _ _ Href).
  - apply refilled_steps in Href. by rewrite (Hrtc _ _ _ Href).
  - apply refilled_steps in Href. by rewrite (Hrtc _ _ _ Href).
  - destruct Hp as (? & ? & ? & ? & Hp & _). by rewrite (Hrtc p st st') by (by apply rtc_once).
Qed.

Lemma effect_automatic e c st st' : inv st → valid e c → automatic_ok st → effect e st c st' → automatic_ok st'.
Proof.
  intros Hi Hv Hauto Heff q cq Hcq Hau.
  assert (∀ st1, program_capacity st1 !! q = program_capacity st !! q → program_capacity st' !! q = program_capacity st1 !! q → saturated cq) as Hkeep.
  { intros st1 H1 H2. apply (Hauto q); congruence. }
  assert (∀ p c c1 st1, refilled e p st1 st' → program_capacity st1 = <[p := c1]> (program_capacity st) → program_capacity st !! p = Some c → capacity c1 = capacity c → committed c1 = committed c - 1 → waitlist_head c1 = waitlist_head c →
    waitlist_tail c1 = waitlist_tail c → automatic_promotion c1 = automatic_promotion c → saturated cq) as Hrefill.
  { intros p c0 c1 st1 Href Hst1 Hc Hcap Hcom Hh Ht Ha. destruct (decide (q = p)) as [->|Hq].
    - assert (program_capacity st1 !! p = Some c1) as Hc1 by (rewrite Hst1; apply lookup_insert_eq).
      pose proof (refilled_auto _ _ _ _ _ _ Href Hc1 Hcq) as Ha'. destruct (Hauto p c0 Hc) as [Hq|Hf]; [congruence|..].
      + eapply refilled_empty; try done. lia.
      + eapply refilled_saturated; try done. lia.
    - apply (Hkeep st1); [rewrite Hst1; by apply lookup_insert_ne|]. by apply (refilled_capacity e p). }
  destruct Heff as [c Ha1 Ha2 Hsch Hbad Hmax Hprev|y p m ttl au Ha Hc Hn Httl|y p m ttl au c st' Hc Ho Ha Hn Httl Hcom Hst
    |y p st' Ha Hs Hy Hy' Hsat|y p c r t Ha Hc Hy Hs Ht Hlt Hr Hmax|y p c r t st' Ha Hc Hy Hs Ht Hlt Hr Href|y p c r t st' Hc Hy Hs Ht Hlt Hr Href
    |y p c r st' Ha Hc Hy Hs Hr Href|y p c st' Hc Ho Ha Hp].
  - by apply (Hauto q).
  - simpl in Hcq. rewrite lookup_insert in Hcq. case_decide; [|by apply (Hauto q)]. injection Hcq as <-. by left.
  - destruct (decide (q = p)) as [->|Hq].
    + destruct au; [destruct Hst as [_ Hst]; by apply Hst|]. subst st'. simpl in Hcq. rewrite lookup_insert_eq in Hcq. by injection Hcq as <-.
    + apply (Hkeep st); [done|]. destruct au; [destruct Hst as [Hst _]|subst; simpl; by rewrite lookup_insert_ne].
      transitivity (program_capacity (put_capacity p (with_policy m ttl true c) st) !! q); [|simpl; by rewrite lookup_insert_ne].
      clear -Hst Hq. induction Hst as [|y1 y2 y3 H12 _ IH]; [done|]. rewrite IH. destruct H12 as (? & ? & ? & ? & H12 & _).
      by destruct (step_other _ _ q _ _ H12 Hq) as [-> _].
  - destruct (decide (q = p)) as [->|Hq]; [|apply (Hkeep st); [done|]; by destruct (step_other _ _ q _ _ Hs Hq) as [-> _]].
    assert (∃ c, program_capacity st !! p = Some c) as [c Hc].
    { pose proof (inv_programs _ Hi p) as Hp. destruct (program_capacity st !! p) as [c|] eqn:Hc; [by exists c|]. exfalso.
      destruct Hs; simplify_eq. simpl in Hy'. rewrite Hy in Hy'. by destruct Hy'. }
    destruct (Hsat c cq Hc Hcq) as [H1 H2]. apply H2. apply (Hauto p c Hc). congruence.
  - simpl in Hcq. rewrite lookup_insert in Hcq. case_decide; [|by apply (Hauto q)]. injection Hcq as <-. subst q. simpl in Hau.
    destruct (Hauto p c Hc Hau) as [?|?]; [by left|right; unfold committed in *; simpl; lia].
  - eapply (Hrefill p c); [exact Href|reflexivity|done|..]; unfold committed; simpl; done || lia.
  - eapply (Hrefill p c); [exact Href|reflexivity|done|..]; unfold committed; simpl; done || lia.
  - eapply (Hrefill p c); [exact Href|reflexivity|done|..]; unfold committed; simpl; done || lia.
  - destruct Hp as (c' & Hc' & Hq & Hcom & Hs & x & Hx & _ & _ & Hc2). simplify_eq.
    destruct (decide (q = p)) as [->|Hqp]; [|apply (Hkeep st); [done|]; by destruct (step_other _ _ q _ _ Hs Hqp) as [-> _]].
    simplify_eq. simpl in Hau. destruct (Hauto p c Hc Hau) as [?|?]; [lia|]. right. unfold committed in *. simpl. lia.
Qed.

Section Theorems.
Context {L : Type}.
Abbreviation W := (World L Store Event).
Abbreviation exec := (exec (L := L)).
Abbreviation M := (Contract L Store Event ContractError).
Abbreviation Reach this := (reachable exec valid this (λ _ _, True) deployed).
Implicit Types (w : W).

Lemma mentor_contracts_reachable this w : Reach this w → inv (store w) ∧ automatic_ok (store w).
Proof.
  apply (reachable_inv _ _ _ _ _ (λ w, inv (store w) ∧ automatic_ok (store w))).
  - intros w0 ->. split; [|by intros p c].
    split; [by intros a n x|apply versions_empty|by intros p|by intros k r].
  - intros c e w0 w1 u _ Hv [Hi Ha] Hrun. destruct (mentor_contracts_effect c e w0 w1 u Hrun) as [_ Heff].
    split; [by eapply mentor_contracts_effect_inv|by eapply effect_automatic].
  - done.
Qed.

(** C33: A program is never oversold.  In a reachable world the counters of a program are the numbers of its
    seats on offer and taken, together at most its capacity; the participants that wait are exactly
    those in its queue, each in one place, and at most 256; and a program that promotes automatically
    has a free seat only when nobody waits. *)
Theorem never_oversold this w p c :
  Reach this w → program_capacity (store w) !! p = Some c →
  reserved_seats c = seat_count p Offered (store w) ∧ confirmed_seats c = seat_count p Confirmed (store w) ∧
  seat_count p Offered (store w) + seat_count p Confirmed (store w) ≤ capacity c ∧
  0 ≤ queued c ≤ MAX_WAITLIST_SIZE ∧
  (∀ x, seat_state p (store w) x = Some Waitlisted ↔ ∃ n, waitlist (store w) !! (p, n) = Some x) ∧
  (∀ n m x, waitlist (store w) !! (p, n) = Some x → waitlist (store w) !! (p, m) = Some x → n = m) ∧
  (automatic_promotion c = true → committed c < capacity c → queued c = 0).
Proof.
  intros [Hi Ha]%mentor_contracts_reachable Hc. pose proof (inv_programs _ Hi p) as Hp. rewrite Hc in Hp.
  destruct Hp as [(A1 & A2 & A3) R C [B D E F G]]. unfold committed, queued in *. split_and!; try done; try lia.
  - intros x. split; [apply G|]. intros [n Hn]. by eapply E.
  - intros Hau Hfree. destruct (Ha p c Hc Hau) as [?|?]; unfold committed in *; lia.
Qed.

(** First come, first served.  Over any calls the head of a queue only moves forward and every place
    behind it keeps its participant; so of two who wait, the one that came later does not leave the
    queue before the earlier one. *)
Theorem first_come_first_served this w calls p c :
  Reach this w → Forall (λ ec : Env * Call, self ec.1 = this ∧ valid ec.1 ec.2) calls → program_capacity (store w) !! p = Some c →
  let w' := run_calls exec calls w in
  ∃ c', program_capacity (store w') !! p = Some c' ∧ waitlist_head c ≤ waitlist_head c' ∧
    (∀ n, waitlist_head c' ≤ n < waitlist_tail c → waitlist (store w') !! (p, n) = waitlist (store w) !! (p, n)) ∧
    (∀ n m x y, n < m → waitlist (store w) !! (p, n) = Some x → waitlist (store w) !! (p, m) = Some y →
      waitlist (store w') !! (p, n) = Some x → waitlist (store w') !! (p, m) = Some y).
Proof.
  intros [Hi _]%mentor_contracts_reachable Hcalls Hc w'. rewrite Forall_forall in Hcalls.
  assert (inv (store w') ∧ still_waiting p (store w) (store w')) as [Hi' Hs].
  { apply (run_calls_inv exec (λ w1, inv (store w1) ∧ still_waiting p (store w) (store w1))); [|done].
    intros e k w0 w1 u [H0 H1] Hin Hrun. destruct (mentor_contracts_effect k e w0 w1 u Hrun) as [_ Heff]. destruct (Hcalls _ Hin) as [_ Hv].
    split; [by eapply mentor_contracts_effect_inv|]. transitivity (store w0); [done|]. by eapply effect_still_waiting. }
  destruct (Hs c Hc) as (c' & Hc' & Hh & Ht & Hw). exists c'. split_and!; [done|done|done|].
  intros n m x y Hnm Hx Hy Hx'. pose proof (inv_programs _ Hi' p) as Hp. rewrite Hc' in Hp. destruct Hp as [_ _ _ Hq].
  pose proof (inv_programs _ Hi p) as Hp. rewrite Hc in Hp. destruct Hp as [_ _ _ Hq0].
  assert (waitlist_head c' ≤ n < waitlist_tail c') as Hn by (apply (ok_places _ _ _ Hq); by eexists).
  assert (waitlist_head c ≤ m < waitlist_tail c) as Hm by (apply (ok_places _ _ _ Hq0); by eexists).
  rewrite Hw by lia. done.
Qed.

(** Published terms are final.  Over any calls a published version stays as it was; the versions of an
    agreement are numbered without a gap, each with the parties of the first, two different ones. *)
Theorem terms_final this w calls a n x :
  Reach this w → Forall (λ ec : Env * Call, self ec.1 = this ∧ valid ec.1 ec.2) calls → contract_version (store w) !! (a, n) = Some x →
  let w' := run_calls exec calls w in
  contract_version (store w') !! (a, n) = Some x ∧ mentor x ≠ mentee x ∧ 0 < amount (fee x) ∧
  (∀ m, 1 ≤ m ≤ latest_of a (store w') → ∃ y, contract_version (store w') !! (a, m) = Some y ∧ mc_version y = m ∧
    mentor y = mentor x ∧ mentee y = mentee x).
Proof.
  intros [Hi _]%mentor_contracts_reachable Hcalls Hx w'. rewrite Forall_forall in Hcalls.
  assert (inv (store w') ∧ contract_version (store w') !! (a, n) = Some x) as [Hi' Hx'].
  { apply (run_calls_inv exec (λ w1, inv (store w1) ∧ contract_version (store w1) !! (a, n) = Some x)); [|done].
    intros e k w0 w1 u [H0 H1] Hin Hrun. destruct (mentor_contracts_effect k e w0 w1 u Hrun) as [_ Heff]. destruct (Hcalls _ Hin) as [_ Hv].
    split; [by eapply mentor_contracts_effect_inv|by eapply effect_versions]. }
  destruct (inv_parties _ Hi' _ _ _ Hx') as (_ & (_ & Hm & Hfee & _) & z & Hz & Hzm & Hze). split_and!; [done..|].
  intros m Hlt. pose proof (inv_versions _ Hi') as V. destruct (versions_published _ _ _ a m V) as [_ Hv]. destruct (Hv Hlt) as [y Hy]. exists y.
  destruct (inv_parties _ Hi' _ _ _ Hy) as (_ & _ & z' & Hz' & Hzm' & Hze'). destruct (V a) as (_ & _ & Hnum). specialize (Hnum m). rewrite Hy in Hnum.
  destruct Hnum. split_and!; [done|done|congruence|congruence].
Qed.

(** The [k] versions that follow the version [from]. *)
Fixpoint versions_of (a : BytesN32) (from : Z) (k : nat) (st : Store) : list MentorshipContractVersion :=
  match k with O => [] | S k => option_list (contract_version st !! (a, from + 1)) ++ versions_of a (from + 1) k st end.

Lemma versions_after_run e w a latest n fuel current out :
  (∀ m, 1 ≤ m ≤ latest → is_Some (contract_version (store w) !! (a, m))) → latest ≤ u32_max → 0 ≤ current →
  Z.of_nat (length out) ≤ n → (Z.to_nat (n - Z.of_nat (length out)) < fuel)%nat →
  let k := Z.to_nat (Z.min (latest - current) (n - Z.of_nat (length out))) in
  (versions_after fuel a current latest n out : M _) e w = Done w (current + Z.of_nat k, out ++ versions_of a current k (store w)).
Proof.
  intros Hall Hmax. revert current out. induction fuel as [|fuel IH]; intros current out Hc Hout Hfuel; [lia|]. cbv zeta.
  cbn [versions_after].
  destruct (Z.ltb_spec current latest) as [Hlt|Hge]; [|replace (Z.to_nat _) with O by lia; by rewrite app_nil_r, Z.add_0_r].
  destruct (Z.ltb_spec (Z.of_nat (length out)) n) as [Hn|Hn]; [|replace (Z.to_nat _) with O by lia; by rewrite app_nil_r, Z.add_0_r].
  cbn [andb]. destruct (Hall (current + 1)) as [x Hx]; [lia|]. run_fwd.
  rewrite IH by (rewrite ?length_app; simpl; lia). rewrite length_app. cbn [length].
  replace (Z.to_nat (Z.min (latest - current) (n - Z.of_nat (length out)))) with
    (S (Z.to_nat (Z.min (latest - (current + 1)) (n - Z.of_nat (length out + 1))))) by lia.
  cbn [versions_of]. rewrite Hx, <-app_assoc. simpl. do 2 f_equal. lia.
Qed.

Lemma versions_of_numbers st a from k :
  inv st → 0 ≤ from → from + Z.of_nat k ≤ latest_of a st → mc_version <$> versions_of a from k st = seqZ (from + 1) (Z.of_nat k).
Proof.
  intros Hi. revert from. induction k as [|k IH]; intros from Hf Hk; [done|].
  pose proof (inv_versions _ Hi) as V. destruct (versions_published _ _ _ a (from + 1) V) as [_ Hv]. destruct Hv as [x Hx]; [fold (latest_of a st); lia|].
  destruct (V a) as (_ & _ & Hnum). specialize (Hnum (from + 1)). rewrite Hx in Hnum. destruct Hnum as [Hn _].
  cbn [versions_of]. rewrite Hx. simpl. rewrite IH by lia. rewrite (seqZ_cons (from + 1)) by lia. rewrite Hn. do 2 f_equal; lia.
Qed.

(** Pages are exact.  In a reachable world a page of an agreement is, on every branch, an error or the
    versions that follow the cursor, in order and without a gap, as many as the limit allows, with the
    last number as the next cursor when there are more. *)
Theorem version_pages_exact this w e q :
  Reach this w → 0 ≤ limit (page q) → 0 ≤ after_version (page q) →
  let a := l_agreement_id q in let after := after_version (page q) in let top := latest_of a (store w) in
  let k := Z.to_nat (Z.min (top - after) (limit (page q))) in
  list_contract_versions q e w =
    (if (limit (page q) =? 0) || (MAX_PAGE_SIZE <? limit (page q)) then Failed w InvalidPage
     else if top =? 0 then Failed w ContractNotFound
     else if top <? after then Failed w InvalidCursor
     else Done w (mkPage (versions_of a after k (store w)) (if after + Z.of_nat k <? top then Some (after + Z.of_nat k) else None))) ∧
  (after ≤ top → mc_version <$> versions_of a after k (store w) = seqZ (after + 1) (Z.of_nat k)).
Proof.
  intros [Hi _]%mentor_contracts_reachable Hlim Hafter a after top k. destruct (inv_versions _ Hi a) as (Hb & H0 & _). fold (latest_of a (store w)) in Hb.
  split; [|intros Hle; apply versions_of_numbers; [done|done|]; subst k after top; lia].
  unfold list_contract_versions. fold a after. destruct ((limit (page q) =? 0) || _) eqn:Hl; [done|].
  unfold top, latest_of in *. destruct (latest_version (store w) !! a) as [n|] eqn:Hn; cbn [default from_option id] in *;
    [|run_fwd; unfold bind, ok_or; by rewrite Hn].
  rewrite (proj2 (Z.eqb_neq n 0)) by congruence.
  destruct (n <? after) eqn:Hcur; [run_fwd; by rewrite Hn, ?Hcur|]. bool_prop.
  eapply bind_run; [by apply reject_if_run|]. eapply bind_run; [apply load_run|]. eapply bind_run; [by apply ok_or_run|].
  eapply bind_run; [apply reject_if_run; by apply Z.ltb_ge|].
  assert (Z.to_nat (Z.min (n - after) (limit (page q) - Z.of_nat (@length MentorshipContractVersion []))) = k) as Hk by (subst k; simpl; f_equal; lia).
  eapply bind_run; [apply versions_after_run; [|lia|done|done|simpl; lia]|].
  - intros m Hm. apply (versions_published _ _ _ a m (inv_versions _ Hi)). by rewrite Hn.
  - by rewrite Hk.
Qed.

Lemma promote_run p c e w y r :
  waitlist (store w) !! (p, waitlist_head c) = Some y → seats (store w) !! (p, y) = Some r → state r = Waitlisted →
  0 ≤ reserved_seats c → 0 ≤ confirmed_seats c → committed c < capacity c → capacity c ≤ u32_max →
  0 ≤ waitlist_head c < waitlist_tail c → waitlist_tail c ≤ u32_max → 0 ≤ timestamp e + offer_ttl_seconds c ≤ u64_max →
  ∃ w', (promote_next_internal p c : M _) e w =
      Done w' (Some y, with_seats (reserved_seats c + 1) (confirmed_seats c) (with_queue (waitlist_head c + 1) (waitlist_tail c) c)) ∧
    store w' = put_seat p y (mkSeat Offered (requested_at r) (Some (timestamp e + offer_ttl_seconds c))) (remove_waiting p (waitlist_head c) (store w)).
Proof.
  intros Hy Hr Hs Hres Hconf Hcom Hcap Hq Htail Hexp. unfold committed in *. eexists. split.
  - unfold promote_next_internal, committed_of. run_fwd. rewrite (proj2 (Z.leb_gt _ _)) by lia. run_fwd.
  - reflexivity.
Qed.

(** An offer never blocks its seat.  In a reachable world, once the offer of a participant has expired,
    anyone may take it back and the call succeeds (short of a timestamp overflow): the seat is gone; it
    is offered at once to the head of the queue if the program promotes automatically and someone
    waits, and is free otherwise. *)
Theorem expired_offer_taken_back this w p c x r t e :
  Reach this w → program_capacity (store w) !! p = Some c → seats (store w) !! (p, x) = Some r → state r = Offered →
  offer_expires_at r = Some t → 0 ≤ t ≤ timestamp e →
  (automatic_promotion c = true → 0 < queued c → timestamp e + offer_ttl_seconds c ≤ u64_max) →
  ∃ w', expire_offer p x e w = Done w' tt ∧ seats (store w') !! (p, x) = None ∧
    if automatic_promotion c && (0 <? queued c) then
      ∃ y z, waitlist (store w) !! (p, waitlist_head c) = Some y ∧ seats (store w) !! (p, y) = Some z ∧
        seats (store w') !! (p, y) = Some (mkSeat Offered (requested_at z) (Some (timestamp e + offer_ttl_seconds c))) ∧
        program_capacity (store w') !! p = Some (with_queue (waitlist_head c + 1) (waitlist_tail c) c)
    else program_capacity (store w') !! p = Some (with_seats (reserved_seats c - 1) (confirmed_seats c) c).
Proof.
  intros [Hi _]%mentor_contracts_reachable Hc Hx Hs Ht Hexp Hmax. pose proof (inv_programs _ Hi p) as Hp. rewrite Hc in Hp.
  destruct Hp as [(A1 & A2 & A3) R C [B D E F G]]. unfold committed, queued in *.
  pose proof (seat_count_nonneg p Confirmed (store w)). pose proof (seat_count_nonneg p Offered (store w)).
  assert (1 ≤ reserved_seats c) as Hres.
  { rewrite R. unfold seat_count. pose proof (at_key_le_map_sum (seat_of p Offered) (seats (store w)) (p, x)) as Hle.
    unfold at_key in Hle. rewrite Hx in Hle. unfold seat_of at 2 in Hle. rewrite decide_True in Hle by done. apply Hle.
    intros k v _. unfold seat_of. case_decide; lia. }
  unfold expire_offer, release_offer, load_program_capacity, load_offer.
  assert (∃ w', (promote_if_automatic p (with_seats (reserved_seats c - 1) (confirmed_seats c) c) : M _) e
      (mkWorld (ledger w) (remove_seat p x (store w)) (log w)) =
      Done w' (if automatic_promotion c && (0 <? waitlist_tail c - waitlist_head c) then
        with_seats (reserved_seats c - 1 + 1) (confirmed_seats c) (with_queue (waitlist_head c + 1) (waitlist_tail c) (with_seats (reserved_seats c - 1) (confirmed_seats c) c))
        else with_seats (reserved_seats c - 1) (confirmed_seats c) c) ∧
      seats (store w') !! (p, x) = None ∧
      (automatic_promotion c && (0 <? waitlist_tail c - waitlist_head c) = true →
        ∃ y z, waitlist (store w) !! (p, waitlist_head c) = Some y ∧ seats (store w) !! (p, y) = Some z ∧
        seats (store w') !! (p, y) = Some (mkSeat Offered (requested_at z) (Some (timestamp e + offer_ttl_seconds c))))) as (w' & Hprom & Hgone & Hnext).
  { unfold promote_if_automatic. cbn [automatic_promotion with_seats]. destruct (automatic_promotion c) eqn:Hau; cbn [andb]; cycle 1.
    { eexists. split; [reflexivity|]. split; [simpl; apply lookup_delete_eq|done]. }
    destruct (Z.ltb_spec 0 (waitlist_tail c - waitlist_head c)) as [Hq|Hq]; cycle 1.
    { eexists. split.
      - eapply (bind_run _ _ _ _ _ (None, with_seats (reserved_seats c - 1) (confirmed_seats c) c)); [|apply ret_run]. unfold promote_next_internal, committed_of. simpl. run_fwd.
        rewrite (proj2 (Z.leb_le (waitlist_tail c) _)) by lia. run_fwd.
      - split; [simpl; apply lookup_delete_eq|done]. }
    destruct (D (waitlist_head c)) as [_ Hin]. destruct Hin as [y Hy]; [lia|]. pose proof (E _ _ Hy) as Hst.
    unfold seat_state in Hst. apply fmap_Some in Hst as (z & Hz & Hzs).
    assert (y ≠ x) as Hyx by (intros ->; rewrite Hx in Hz; injection Hz as <-; congruence).
    set (w0 := mkWorld (ledger w) (remove_seat p x (store w)) (log w)).
    destruct (promote_run p (with_seats (reserved_seats c - 1) (confirmed_seats c) c) e w0 y z) as (w' & Hrun & Hst);
      [done|simpl; rewrite lookup_delete_ne by congruence; done|done|unfold committed; simpl; try lia..].
    exists w'. split; [eapply bind_run; [exact Hrun|]; reflexivity|]. rewrite Hst. simpl. split.
    - rewrite lookup_insert_ne by congruence. apply lookup_delete_eq.
    - intros _. exists y, z. rewrite lookup_insert_eq. done. }
  eexists. split_and!.
  - run_fwd.
  - exact Hgone.
  - destruct (_ && _) eqn:Hb.
    + destruct (Hnext eq_refl) as (y & z & Hy & Hz & Hyz). exists y, z. split_and!; [done..|]. simpl. rewrite lookup_insert_eq. f_equal.
      unfold with_seats, with_queue. simpl. f_equal. lia.
    + simpl. by rewrite lookup_insert_eq.
Qed.
End Theorems.

(** ** Concrete runs *)
Module Runs.
Definition this : Address := addr 0.
Definition olga : Address := addr 1.
Definition ann : Address := addr 2.
Definition bob : Address := addr 3.
Definition cat : Address := addr 4.
Abbreviation exec := (exec (L := unit)).
Abbreviation Reach := (reachable exec valid this (λ _ _, True) deployed).

Definition at_time (t : Z) : Env := mkEnv t this (λ _, true).
Definition w0 : World unit Store Event := mkWorld tt (mkStore ∅ ∅ ∅ ∅ ∅) [].
Definition terms (h : Z) : PublishMentorshipCommand := mkCommand 5 1 ann bob (mkMoney olga 100) 3 (mkRange 10 20) h None.
Definition setup : list (Env * Call) :=
  [(at_time 10, CCreate olga 7 1 50 true); (at_time 11, CRequest ann 7); (at_time 12, CRequest bob 7); (at_time 13, CRequest cat 7);
   (at_time 14, CPublish (terms 88)); (at_time 15, CPublish (terms 89))].
Definition later : list (Env * Call) := [(at_time 61, CExpire 7 ann); (at_time 62, CPublish (terms 90)); (at_time 63, CConfirm bob 7)].
Definition w1 : World unit Store Event := run_calls exec setup w0.
Definition program1 : ProgramCapacity := mkCapacity olga 1 1 0 0 2 50 true.

Lemma mentor_contracts_runs calls :
  Forall (λ ec : Env * Call, self ec.1 = this ∧ valid ec.1 ec.2) calls → Reach (run_calls exec calls w0).
Proof. apply reachable_run. by apply reach_init. Qed.

Ltac valid_calls := repeat constructor; simpl; try done; range_lia.

Lemma mentor_contracts_w1_reach : Reach w1.
Proof. apply mentor_contracts_runs. valid_calls. Qed.

Lemma never_oversold_witness : seat_count 7 Offered (store w1) = 1 ∧ seat_state 7 (store w1) cat = Some Waitlisted.
Proof.
  destruct (never_oversold this w1 7 program1 mentor_contracts_w1_reach) as (Ho & _ & _ & _ & Hw & _); [by vm_compute|].
  split; [by rewrite <-Ho|]. apply Hw. exists 1. by vm_compute.
Defined.

(** Cat still has the second place after the offer of ann expired and bob was offered her seat. *)
Lemma first_come_first_served_witness :
  ∃ c, program_capacity (store (run_calls exec later w1)) !! 7 = Some c ∧ 0 ≤ waitlist_head c ∧ waitlist (store (run_calls exec later w1)) !! (7, 1) = Some cat.
Proof.
  destruct (first_come_first_served this w1 later 7 program1) as (c & Hc & Hh & Hw & _); [apply mentor_contracts_w1_reach|valid_calls|by vm_compute|].
  exists c. split; [exact Hc|]. split; [exact Hh|]. rewrite (Hw 1); [by vm_compute|].
  assert (waitlist_head c = 1) as ->; [|simpl; lia].
  assert (waitlist_head <$> program_capacity (store (run_calls exec later w1)) !! 7 = Some 1) as H1 by (by vm_compute).
  rewrite Hc in H1. by injection H1.
Defined.

Lemma terms_final_witness : contract_version (store (run_calls exec later w1)) !! (5, 1) = Some (version_of 14 1 (terms 88)).
Proof.
  destruct (terms_final this w1 later 5 1 (version_of 14 1 (terms 88))) as (H & _); [apply mentor_contracts_w1_reach|valid_calls|by vm_compute|exact H].
Defined.

Lemma version_pages_exact_witness :
  mc_version <$> versions_of 5 1 1 (store w1) = [2] ∧
  list_contract_versions (mkList 5 (mkPageRequest 1 10)) (at_time 16) w1 = Done w1 (mkPage (versions_of 5 1 1 (store w1)) None).
Proof.
  destruct (version_pages_exact this w1 (at_time 16) (mkList 5 (mkPageRequest 1 10)) mentor_contracts_w1_reach) as [Hp Hn]; [simpl; lia..|].
  assert (latest_of 5 (store w1) = 2) as Hl by (by vm_compute). cbn [l_agreement_id page after_version limit] in Hp, Hn. cbv zeta in Hp, Hn.
  rewrite Hl in Hp, Hn. split; [apply Hn; lia|exact Hp].
Defined.

Lemma expired_offer_taken_back_witness :
  ∃ w', expire_offer 7 ann (at_time 61) w1 = Done w' tt ∧ seats (store w') !! (7, ann) = None.
Proof.
  destruct (expired_offer_taken_back this w1 7 program1 ann (mkSeat Offered 11 (Some 61)) 61 (at_time 61)) as (w' & H1 & H2 & _);
    [apply mentor_contracts_w1_reach|by vm_compute|by vm_compute|done|done|simpl; lia|intros _ _; vm_compute; done|].
  exists w'. split; [exact H1|exact H2].
Defined.
End Runs.
