(* ===== verification/Conduct.v ===== *)
(** * Code of conduct ([mentorship-conduct/src/lib.rs])

    Numbered policy versions for an audience, acceptances of a version in a role, engagements whose
    activation asks for the acceptance of the current policies, and references to breach cases. *)
From S2P Require Import Prelude Machine Host.

Definition CONTRACT_VERSION : Z := 1.
Definition MAX_POLICY_VERSION : Z := 1000.

Inductive ContractError :=
| NotInitialized | AlreadyInitialized | NotAdmin | NotAuthorized | PolicyNotFound | PolicyVersionOutOfSequence | PolicyRetired
| PolicyNotApplicable | InvalidPolicyHash | PolicyAlreadyRetired | PolicyVersionCapReached | AcceptanceRequired | AcceptanceNotFound
| EngagementNotFound | EngagementAlreadyExists | EngagementNotPending | EngagementNotActive | EngagementNotSuspended | InvalidParties
| InvalidEngagementId | BreachAlreadyRecorded | BreachNotFound | BreachAlreadyResolved | VersionOverflow | InvalidEffectiveTime
| InvalidEvidenceHash.

Inductive Role := Mentor | Mentee.
#[export] Instance Role_eq_dec : EqDecision Role.
Proof. solve_decision. Defined.
#[export] Program Instance Role_countable : Countable Role :=
  inj_countable' (λ r, match r with Mentor => true | Mentee => false end) (λ b, if b : bool then Mentor else Mentee) _.
Next Obligation. by intros []. Qed.

Inductive Audience := ForMentor | ForMentee | Both.
Definition applies_to (a : Audience) (r : Role) : bool :=
  match a, r with
  | Both, _ | ForMentor, Mentor | ForMentee, Mentee => true
  | _, _ => false
  end.

Record Policy := mkPolicy {
  p_version : Z; audience : Audience; policy_hash : BytesN32; effective_at : Z; mandatory : bool; published_at : Z; retired : bool
}.
Record Acceptance := mkAcceptance { actor : Address; role : Role; policy_version : Z; a_policy_hash : BytesN32; accepted_at : Z }.

Inductive EngagementState := Pending | Active | Suspended | Ended.
#[export] Instance EngagementState_eq_dec : EqDecision EngagementState.
Proof. solve_decision. Defined.

Record Engagement := mkEngagement {
  e_id : BytesN32; mentor : Address; mentee : Address; state : EngagementState; mentor_policy_version : Z; mentee_policy_version : Z;
  created_at : Z; activated_at : Z; updated_at : Z
}.

Inductive BreachSeverity := Low | Medium | High | Critical.
Record BreachRecord := mkBreach {
  case_ref : BytesN32; subject : Address; b_policy_version : Z; severity : BreachSeverity; evidence_hash : BytesN32; recorded_at : Z;
  resolved : bool; resolved_at : Z
}.

Inductive Event :=
| POLPUB (n : Z) (a : Audience)
| POLRTD (n : Z)
| ACCEPT (x : Address) (n : Z) (r : Role)
| ENGNEW (i : BytesN32)
| ENGACT (i : BytesN32) (mentor_version mentee_version : Z)
| ENGSUS (i : BytesN32)
| ENGRES (i : BytesN32)
| ENGEND (i : BytesN32)
| BREACH (c : BytesN32) (x : Address) (s : BreachSeverity)
| BRRES (c : BytesN32).

Record Store := mkStore {
  admin : option Address;
  latest_version : Z;
  latest_for : gmap Role Z;
  policies : gmap Z Policy;
  acceptances : gmap (Address * Z * Role) Acceptance;
  engagements : gmap Z Engagement;
  breaches : gmap Z BreachRecord
}.

Definition put_admin (x : Address) (st : Store) : Store :=
  mkStore (Some x) (latest_version st) (latest_for st) (policies st) (acceptances st) (engagements st) (breaches st).
Definition put_policy (p : Policy) (st : Store) : Store :=
  mkStore (admin st) (latest_version st) (latest_for st) (<[p_version p := p]> (policies st)) (acceptances st) (engagements st) (breaches st).
Definition put_version (n : Z) (st : Store) : Store :=
  mkStore (admin st) n (latest_for st) (policies st) (acceptances st) (engagements st) (breaches st).
Definition put_latest (r : Role) (n : Z) (st : Store) : Store :=
  mkStore (admin st) (latest_version st) (<[r := n]> (latest_for st)) (policies st) (acceptances st) (engagements st) (breaches st).
Definition put_acceptance (x : Acceptance) (st : Store) : Store :=
  mkStore (admin st) (latest_version st) (latest_for st) (policies st) (<[(actor x, policy_version x, role x) := x]> (acceptances st))
    (engagements st) (breaches st).
Definition put_engagement (x : Engagement) (st : Store) : Store :=
  mkStore (admin st) (latest_version st) (latest_for st) (policies st) (acceptances st) (<[e_id x := x]> (engagements st)) (breaches st).
Definition put_breach (x : BreachRecord) (st : Store) : Store :=
  mkStore (admin st) (latest_version st) (latest_for st) (policies st) (acceptances st) (engagements st) (<[case_ref x := x]> (breaches st)).

(** The new latest version, for the roles of its audience. *)
Definition record_latest (p : Policy) (st : Store) : Store :=
  let st := if applies_to (audience p) Mentor then put_latest Mentor (p_version p) st else st in
  if applies_to (audience p) Mentee then put_latest Mentee (p_version p) st else st.

Definition withdrawn (p : Policy) : Policy :=
  mkPolicy (p_version p) (audience p) (policy_hash p) (effective_at p) (mandatory p) (published_at p) true.
Definition in_state (s : EngagementState) (t : Z) (x : Engagement) : Engagement :=
  mkEngagement (e_id x) (mentor x) (mentee x) s (mentor_policy_version x) (mentee_policy_version x) (created_at x) (activated_at x) t.
Definition activated (m n a t : Z) (x : Engagement) : Engagement :=
  mkEngagement (e_id x) (mentor x) (mentee x) Active m n (created_at x) a t.
Definition closed (t : Z) (x : BreachRecord) : BreachRecord :=
  mkBreach (case_ref x) (subject x) (b_policy_version x) (severity x) (evidence_hash x) (recorded_at x) true t.

Definition has_accepted_in (st : Store) (x : Address) (n : Z) (r : Role) : bool := bool_decide (is_Some (acceptances st !! (x, n, r))).
(** [latest_policy_for_role] as a lookup. *)
Definition latest_in (st : Store) (r : Role) : option Policy := latest_for st !! r ≫= λ n, policies st !! n.

Section Contract.
Context {L : Type}.
Abbreviation M := (Contract L Store Event ContractError).

Definition initialize (x : Address) : M unit :=
  o <- load admin ;;
  reject_if (bool_decide (is_Some o)) AlreadyInitialized ;;;
  require_auth x ;;;
  save (put_admin x).

Definition require_admin (caller : Address) : M unit := require_admin_of admin NotInitialized NotAdmin caller.

Definition load_policy (n : Z) : M Policy := o <- load (λ st, policies st !! n) ;; ok_or o PolicyNotFound.

Definition latest_policy_for_role (r : Role) : M Policy :=
  o <- load (λ st, latest_for st !! r) ;;
  n <- ok_or o PolicyNotFound ;;
  load_policy n.

Definition publish_policy (x : Address) (a : Audience) (h : BytesN32) (effective : Z) (must : bool) : M Z :=
  require_admin x ;;;
  reject_if (h =? 0) InvalidPolicyHash ;;;
  reject_if (effective =? 0) InvalidEffectiveTime ;;;
  current <- load latest_version ;;
  n <- ok_or (checked_add_u32 current 1) VersionOverflow ;;
  reject_if (MAX_POLICY_VERSION <? n) PolicyVersionCapReached ;;;
  t <- now ;;
  save (put_policy (mkPolicy n a h effective must t false)) ;;;
  save (put_version n) ;;;
  save (record_latest (mkPolicy n a h effective must t false)) ;;;
  publish (POLPUB n a) ;;;
  ret n.

Definition retire_policy (x : Address) (n : Z) : M unit :=
  require_admin x ;;;
  p <- load_policy n ;;
  reject_if (retired p) PolicyAlreadyRetired ;;;
  save (put_policy (withdrawn p)) ;;;
  publish (POLRTD n).

Definition get_policy (n : Z) : M Policy := load_policy n.
Definition latest_policy (r : Role) : M Policy := latest_policy_for_role r.

Definition has_accepted (x : Address) (n : Z) (r : Role) : M bool := load (λ st, has_accepted_in st x n r).

Definition accept_policy (x : Address) (n : Z) (r : Role) : M unit :=
  require_auth x ;;;
  known <- has_accepted x n r ;;
  if known then ret tt
  else
    p <- load_policy n ;;
    reject_if (retired p) PolicyRetired ;;;
    reject_if (negb (applies_to (audience p) r)) PolicyNotApplicable ;;;
    t <- now ;;
    save (put_acceptance (mkAcceptance x r n (policy_hash p) t)) ;;;
    publish (ACCEPT x n r).

Definition get_acceptance (x : Address) (n : Z) (r : Role) : M Acceptance :=
  o <- load (λ st, acceptances st !! (x, n, r)) ;; ok_or o AcceptanceNotFound.

Definition verify_acceptance (x : Address) (n : Z) (r : Role) (h : BytesN32) : M bool :=
  load (λ st, match acceptances st !! (x, n, r) with Some a => a_policy_hash a =? h | None => false end).

Definition requires_acknowledgement (x : Address) (r : Role) : M bool :=
  load (λ st, match latest_in st r with
              | Some p => mandatory p && negb (retired p) && negb (has_accepted_in st x (p_version p) r)
              | None => false
              end).

Definition require_current_acceptance (x : Address) (r : Role) : M Z :=
  p <- latest_policy_for_role r ;;
  reject_if (retired p) PolicyRetired ;;;
  if negb (mandatory p) then ret (p_version p)
  else
    known <- has_accepted x (p_version p) r ;;
    reject_if (negb known) AcceptanceRequired ;;;
    ret (p_version p).

Definition create_engagement (caller : Address) (i : BytesN32) (m n : Address) : M unit :=
  reject_if (negb (bool_decide (caller = m)) && negb (bool_decide (caller = n))) NotAuthorized ;;;
  reject_if (bool_decide (m = n)) InvalidParties ;;;
  reject_if (i =? 0) InvalidEngagementId ;;;
  o <- load (λ st, engagements st !! i) ;;
  reject_if (bool_decide (is_Some o)) EngagementAlreadyExists ;;;
  require_auth m ;;;
  require_auth n ;;;
  t <- now ;;
  save (put_engagement (mkEngagement i m n Pending 0 0 t 0 t)) ;;;
  publish (ENGNEW i).

Definition load_engagement (i : BytesN32) : M Engagement := o <- load (λ st, engagements st !! i) ;; ok_or o EngagementNotFound.

Definition require_party (caller : Address) (x : Engagement) : M unit :=
  reject_if (negb (bool_decide (caller = mentor x)) && negb (bool_decide (caller = mentee x))) NotAuthorized.

Definition activate_engagement (caller : Address) (i : BytesN32) : M unit :=
  require_auth caller ;;;
  x <- load_engagement i ;;
  require_party caller x ;;;
  reject_if (negb (bool_decide (state x = Pending))) EngagementNotPending ;;;
  m <- require_current_acceptance (mentor x) Mentor ;;
  n <- require_current_acceptance (mentee x) Mentee ;;
  t <- now ;;
  save (put_engagement (activated m n t t x)) ;;;
  publish (ENGACT i m n).

(** A party is current with the policy of its role. *)
Definition current_with (st : Store) (x : Address) (r : Role) : bool :=
  match latest_in st r with
  | Some p => negb (retired p) && negb (mandatory p && negb (has_accepted_in st x (p_version p) r))
  | None => false
  end.

Definition engagement_compliant (i : BytesN32) : M bool :=
  load (λ st, match engagements st !! i with
              | Some x => bool_decide (state x = Active) && current_with st (mentor x) Mentor && current_with st (mentee x) Mentee
              | None => false
              end).

Definition get_engagement (i : BytesN32) : M Engagement := load_engagement i.

Definition suspend_engagement (x : Address) (i : BytesN32) : M unit :=
  require_admin x ;;;
  g <- load_engagement i ;;
  reject_if (negb (bool_decide (state g = Active))) EngagementNotActive ;;;
  t <- now ;;
  save (put_engagement (in_state Suspended t g)) ;;;
  publish (ENGSUS i).

Definition resume_engagement (caller : Address) (i : BytesN32) : M unit :=
  require_auth caller ;;;
  x <- load_engagement i ;;
  require_party caller x ;;;
  reject_if (negb (bool_decide (state x = Suspended))) EngagementNotSuspended ;;;
  m <- require_current_acceptance (mentor x) Mentor ;;
  n <- require_current_acceptance (mentee x) Mentee ;;
  t <- now ;;
  save (put_engagement (activated m n (activated_at x) t x)) ;;;
  publish (ENGRES i).

Definition end_engagement (caller : Address) (i : BytesN32) : M unit :=
  require_auth caller ;;;
  x <- load_engagement i ;;
  require_party caller x ;;;
  reject_if (bool_decide (state x = Ended)) EngagementNotActive ;;;
  t <- now ;;
  save (put_engagement (in_state Ended t x)) ;;;
  publish (ENGEND i).

Definition record_breach (x : Address) (c : BytesN32) (who : Address) (n : Z) (s : BreachSeverity) (h : BytesN32) : M unit :=
  require_admin x ;;;
  reject_if (h =? 0) InvalidEvidenceHash ;;;
  _ <- load_policy n ;;
  o <- load (λ st, breaches st !! c) ;;
  reject_if (bool_decide (is_Some o)) BreachAlreadyRecorded ;;;
  t <- now ;;
  save (put_breach (mkBreach c who n s h t false 0)) ;;;
  publish (BREACH c who s).

Definition resolve_breach (x : Address) (c : BytesN32) : M unit :=
  require_admin x ;;;
  o <- load (λ st, breaches st !! c) ;;
  b <- ok_or o BreachNotFound ;;
  reject_if (resolved b) BreachAlreadyResolved ;;;
  t <- now ;;
  save (put_breach (closed t b)) ;;;
  publish (BRRES c).

Definition get_breach (c : BytesN32) : M BreachRecord := o <- load (λ st, breaches st !! c) ;; ok_or o BreachNotFound.

Definition accepted_versions (x : Address) (r : Role) (l : list Z) : M (list Z) :=
  for_in l [] (λ n out, known <- has_accepted x n r ;; ret (if known then out ++ [n] else out)).

Definition version : M Z := ret CONTRACT_VERSION.

(** ** Calls *)

Inductive Call :=
| CInitialize (x : Address)
| CPublish (x : Address) (a : Audience) (h : BytesN32) (effective : Z) (must : bool)
| CRetire (x : Address) (n : Z)
| CAccept (x : Address) (n : Z) (r : Role)
| CCreate (caller : Address) (i : BytesN32) (m n : Address)
| CActivate (caller : Address) (i : BytesN32)
| CSuspend (x : Address) (i : BytesN32)
| CResume (caller : Address) (i : BytesN32)
| CEnd (caller : Address) (i : BytesN32)
| CBreach (x : Address) (c : BytesN32) (who : Address) (n : Z) (s : BreachSeverity) (h : BytesN32)
| CResolve (x : Address) (c : BytesN32).

Definition exec (c : Call) : M unit :=
  match c with
  | CInitialize x => initialize x
  | CPublish x a h t b => ignore (publish_policy x a h t b)
  | CRetire x n => retire_policy x n
  | CAccept x n r => accept_policy x n r
  | CCreate x i m n => create_engagement x i m n
  | CActivate x i => activate_engagement x i
  | CSuspend x i => suspend_engagement x i
  | CResume x i => resume_engagement x i
  | CEnd x i => end_engagement x i
  | CBreach x c who n s h => record_breach x c who n s h
  | CResolve x c => resolve_breach x c
  end.
End Contract.

(** The declared width of the timestamp. *)
Definition valid (e : Env) (_ : Call) : Prop := 0 ≤ timestamp e ≤ u64_max.
