(* ===== verification/ConductTheorems.v ===== *)
(** * Code of conduct: effects, invariant and properties

    Policies and acceptances are final; activation and resumption leave an engagement in compliance,
    and a new mandatory policy ends that until it is accepted; an engagement ends once, a breach is
    recorded once and resolved at most once. *)
From S2P Require Import Prelude Machine Host Conduct.

Definition is_admin (e : Env) (st : Store) (x : Address) : Prop := admin st = Some x ∧ authorized e x = true.
Definition is_party (x : Engagement) (a : Address) : Prop := a = mentor x ∨ a = mentee x.

Lemma conduct_party_of x a : bool_decide (a = mentor x) = true ∨ bool_decide (a = mentee x) = true → is_party x a.
Proof. by intros [H|H]; bool_prop; [left|right]. Qed.

Inductive effect (e : Env) (st : Store) : Call → Store → Prop :=
| E_initialize x : admin st = None → effect e st (CInitialize x) (put_admin x st)
| E_publish x a h t b p :
    is_admin e st x → h ≠ 0 → latest_version st + 1 ≤ MAX_POLICY_VERSION → p = mkPolicy (latest_version st + 1) a h t b (timestamp e) false →
    effect e st (CPublish x a h t b) (record_latest p (put_version (latest_version st + 1) (put_policy p st)))
| E_retire x n p : is_admin e st x → policies st !! n = Some p → retired p = false → effect e st (CRetire x n) (put_policy (withdrawn p) st)
| E_known x n r : authorized e x = true → has_accepted_in st x n r = true → effect e st (CAccept x n r) st
| E_accept x n r p :
    authorized e x = true → has_accepted_in st x n r = false → policies st !! n = Some p → retired p = false → applies_to (audience p) r = true →
    effect e st (CAccept x n r) (put_acceptance (mkAcceptance x r n (policy_hash p) (timestamp e)) st)
| E_create x i m n :
    authorized e m = true → authorized e n = true → m ≠ n → engagements st !! i = None →
    effect e st (CCreate x i m n) (put_engagement (mkEngagement i m n Pending 0 0 (timestamp e) 0 (timestamp e)) st)
| E_activate x i g p q :
    authorized e x = true → engagements st !! i = Some g → is_party g x → state g = Pending →
    latest_in st Mentor = Some p → latest_in st Mentee = Some q →
    current_with st (mentor g) Mentor = true → current_with st (mentee g) Mentee = true →
    effect e st (CActivate x i) (put_engagement (activated (p_version p) (p_version q) (timestamp e) (timestamp e) g) st)
| E_suspend x i g :
    is_admin e st x → engagements st !! i = Some g → state g = Active →
    effect e st (CSuspend x i) (put_engagement (in_state Suspended (timestamp e) g) st)
| E_resume x i g p q :
    authorized e x = true → engagements st !! i = Some g → is_party g x → state g = Suspended →
    latest_in st Mentor = Some p → latest_in st Mentee = Some q →
    current_with st (mentor g) Mentor = true → current_with st (mentee g) Mentee = true →
    effect e st (CResume x i) (put_engagement (activated (p_version p) (p_version q) (activated_at g) (timestamp e) g) st)
| E_end x i g :
    authorized e x = true → engagements st !! i = Some g → is_party g x → state g ≠ Ended →
    effect e st (CEnd x i) (put_engagement (in_state Ended (timestamp e) g) st)
| E_breach x c who n s h p :
    is_admin e st x → h ≠ 0 → policies st !! n = Some p → breaches st !! c = None →
    effect e st (CBreach x c who n s h) (put_breach (mkBreach c who n s h (timestamp e) false 0) st)
| E_resolve x c b :
    is_admin e st x → breaches st !! c = Some b → resolved b = false → effect e st (CResolve x c) (put_breach (closed (timestamp e) b) st).

Section Effects.
Context {L : Type}.
Abbreviation W := (World L Store Event).
Abbreviation M := (Contract L Store Event ContractError).
Implicit Types (w : W).

Lemma current_done x r e w w' n :
  (require_current_acceptance x r : M Z) e w = Done w' n →
  w' = w ∧ ∃ p, latest_in (store w) r = Some p ∧ n = p_version p ∧ current_with (store w) x r = true.
Proof.
  intros Hrun. unfold require_current_acceptance, latest_policy_for_role, load_policy, has_accepted in Hrun. run_inv.
  match goal with H : latest_for _ !! _ = Some ?k, H' : policies _ !! _ = Some ?y |- _ =>
    rename y into p; assert (latest_in (store w) r = Some p) as Hp by (unfold latest_in; by rewrite H) end.
  unfold current_with. rewrite Hp. destruct (mandatory p) eqn:Hm; simpl in Hrun; run_inv; bool_prop; (split; [done|]); exists p; (split_and!; [done|done|]).
  - match goal with H : retired p = false |- _ => rewrite H end. simpl. by match goal with H : has_accepted_in _ _ _ _ = true |- _ => rewrite H end.
  - match goal with H : retired p = false |- _ => rewrite H end. done.
Qed.

(** Conversely a party that is current passes the gate. *)
Lemma current_run x r e w :
  current_with (store w) x r = true → ∃ p, latest_in (store w) r = Some p ∧ (require_current_acceptance x r : M Z) e w = Done w (p_version p).
Proof.
  unfold current_with, latest_in. destruct (latest_for (store w) !! r) as [n|] eqn:Hn; [|done]. simpl.
  destruct (policies (store w) !! n) as [p|] eqn:Hp; [|done]. intros [Hr%negb_true_iff Hm%negb_true_iff]%andb_prop. exists p. split; [done|].
  unfold require_current_acceptance, latest_policy_for_role, load_policy, has_accepted. run_fwd.
  destruct (mandatory p); simpl in *; [|done]. apply negb_false_iff in Hm. run_fwd.
Qed.

Lemma conduct_effect c e w w' u :
  (exec c : M unit) e w = Done w' u → ledger w' = ledger w ∧ effect e (store w) c (store w').
Proof.
  intros Hrun. destruct c; simpl in Hrun; try (apply ignore_done in Hrun as [? Hrun]).
  - unfold initialize in Hrun. run_inv. bool_prop. split; [done|]. apply E_initialize. by apply eq_None_not_Some.
  - unfold publish_policy, require_admin in Hrun. run_inv. bool_prop. checked_prop. split; [done|]. eapply E_publish; done || lia.
  - unfold retire_policy, require_admin, load_policy in Hrun. run_inv. split; [done|]. by eapply E_retire.
  - unfold accept_policy, has_accepted, load_policy in Hrun. run_inv. destruct (has_accepted_in _ _ _ _) eqn:Hk; run_inv; bool_prop.
    + split; [done|]. by apply E_known.
    + split; [done|]. by eapply E_accept.
  - unfold create_engagement in Hrun. run_inv. bool_prop. split; [done|]. apply E_create; try done. by apply eq_None_not_Some.
  - unfold activate_engagement, load_engagement, require_party in Hrun. run_inv. bool_prop.
    repeat match goal with H : require_current_acceptance _ _ _ _ = Done _ _ |- _ => apply current_done in H as (-> & ? & ? & -> & ?) end.
    split; [done|]. eapply E_activate; try done. by apply conduct_party_of.
  - unfold suspend_engagement, require_admin, load_engagement in Hrun. run_inv. bool_prop. split; [done|]. by apply E_suspend.
  - unfold resume_engagement, load_engagement, require_party in Hrun. run_inv. bool_prop.
    repeat match goal with H : require_current_acceptance _ _ _ _ = Done _ _ |- _ => apply current_done in H as (-> & ? & ? & -> & ?) end.
    split; [done|]. eapply E_resume; try done. by apply conduct_party_of.
  - unfold end_engagement, load_engagement, require_party in Hrun. run_inv. bool_prop. split; [done|]. apply E_end; try done. by apply conduct_party_of.
  - unfold record_breach, require_admin, load_policy in Hrun. run_inv. bool_prop. split; [done|]. eapply E_breach; try done. by apply eq_None_not_Some.
  - unfold resolve_breach, require_admin in Hrun. run_inv. split; [done|]. by apply E_resolve.
Qed.
End Effects.

(** ** The invariant *)

(** The latest version for a role is the highest that applies to it. *)
Definition latest_ok (st : Store) (r : Role) : Prop :=
  match latest_for st !! r with
  | Some n => ∃ p, policies st !! n = Some p ∧ applies_to (audience p) r = true ∧
      ∀ m q, policies st !! m = Some q → applies_to (audience q) r = true → m ≤ n
  | None => ∀ m q, policies st !! m = Some q → applies_to (audience q) r = false
  end.
Definition acceptance_ok (st : Store) (k : Address * Z * Role) (x : Acceptance) : Prop :=
  k = (actor x, policy_version x, role x) ∧
  ∃ p, policies st !! policy_version x = Some p ∧ policy_hash p = a_policy_hash x ∧ applies_to (audience p) (role x) = true.

Record inv (st : Store) : Prop := {
  inv_bound : 0 ≤ latest_version st ≤ MAX_POLICY_VERSION;
  inv_policies n p : policies st !! n = Some p → p_version p = n ∧ policy_hash p ≠ 0;
  inv_numbered n : is_Some (policies st !! n) ↔ 1 ≤ n ≤ latest_version st;
  inv_latest r : latest_ok st r;
  inv_acceptances k x : acceptances st !! k = Some x → acceptance_ok st k x;
  inv_engagements i g : engagements st !! i = Some g → e_id g = i ∧ mentor g ≠ mentee g;
  inv_breaches c b : breaches st !! c = Some b → case_ref b = c ∧ is_Some (policies st !! b_policy_version b)
}.

Definition empty_store : Store := mkStore None 0 ∅ ∅ ∅ ∅ ∅.

Lemma conduct_empty_inv : inv empty_store.
Proof. split; try done; [|intros r; unfold latest_ok, empty_store; cbn [latest_for]; rewrite lookup_empty; done]. intros n. split; [by intros [? ?]|simpl; lia]. Qed.

(** What a publication leaves and what it sets. *)
Lemma record_latest_same p st :
  admin (record_latest p st) = admin st ∧ latest_version (record_latest p st) = latest_version st ∧ policies (record_latest p st) = policies st ∧
  acceptances (record_latest p st) = acceptances st ∧ engagements (record_latest p st) = engagements st ∧ breaches (record_latest p st) = breaches st.
Proof. unfold record_latest. by destruct (audience p). Qed.

Lemma record_latest_for p st r :
  latest_for (record_latest p st) !! r = if applies_to (audience p) r then Some (p_version p) else latest_for st !! r.
Proof. unfold record_latest. destruct (audience p), r; simpl; rewrite ?lookup_insert; simpl; rewrite ?lookup_insert; done. Qed.

(** An engagement is replaced by one with the same parties; the policies are untouched. *)
Lemma engagement_put_inv st g i : inv st → e_id g = i → mentor g ≠ mentee g → inv (put_engagement g st).
Proof.
  intros [I1 I2 I3 I4 I5 I6 I7] Hid Hne. split; try done. intros j x. simpl. rewrite Hid, lookup_insert. case_decide; [|apply I6].
  intros [= <-]. split; [congruence|done].
Qed.

(** A policy is replaced by itself, retired. *)
Lemma withdrawn_lookup n p st m q :
  p_version p = n → policies st !! n = Some p → policies (put_policy (withdrawn p) st) !! m = Some q →
  ∃ q', policies st !! m = Some q' ∧ p_version q = p_version q' ∧ audience q = audience q' ∧ policy_hash q = policy_hash q'.
Proof.
  intros Hn Hp. simpl. rewrite Hn, lookup_insert. case_decide as Hm; [|intros Hq; by exists q]. intros [= <-]. subst m. by exists p.
Qed.
Lemma withdrawn_back n p st m q :
  p_version p = n → policies st !! n = Some p → policies st !! m = Some q →
  ∃ q', policies (put_policy (withdrawn p) st) !! m = Some q' ∧ audience q' = audience q ∧ policy_hash q' = policy_hash q.
Proof.
  intros Hn Hp Hq. simpl. rewrite Hn, lookup_insert. case_decide as Hm; [|by exists q]. subst m. rewrite Hp in Hq. injection Hq as <-. by eexists.
Qed.

Lemma conduct_publish_inv st p : 
  inv st → latest_version st + 1 ≤ MAX_POLICY_VERSION → p_version p = latest_version st + 1 → policy_hash p ≠ 0 →
  inv (record_latest p (put_version (latest_version st + 1) (put_policy p st))).
Proof.
  intros [I1 I2 I3 I4 I5 I6 I7] Hmax Hn Hh.
  assert (policies st !! (latest_version st + 1) = None) as Hnew. { apply eq_None_not_Some. rewrite I3. lia. }
  assert (∀ m q, policies st !! m = Some q → policies (put_policy p st) !! m = Some q) as Hold.
  { intros m q Hq. simpl. rewrite Hn, lookup_insert_ne; [done|]. intros <-. congruence. }
  destruct (record_latest_same p (put_version (latest_version st + 1) (put_policy p st))) as (_ & E2 & E3 & E4 & E5 & E6).
  split; rewrite ?E2, ?E3, ?E4, ?E5, ?E6; simpl; try done.
  - lia.
  - intros m q. rewrite Hn, lookup_insert. case_decide; [|apply I2]. intros [= <-]. by subst m.
  - intros m. rewrite Hn, lookup_insert. case_decide as Hm; [split; [lia|by eexists]|]. rewrite I3. lia.
  - intros r. unfold latest_ok. rewrite record_latest_for, E3. specialize (I4 r). unfold latest_ok in I4. simpl. rewrite Hn.
    destruct (applies_to (audience p) r) eqn:Ha.
    + exists p. rewrite lookup_insert_eq. split_and!; [done|done|]. intros m q. rewrite lookup_insert. case_decide; [lia|]. intros Hq _.
      assert (1 ≤ m ≤ latest_version st) by (apply I3; by eexists). lia.
    + destruct (latest_for st !! r) as [n|].
      * destruct I4 as (q & Hq & Haq & Hall). exists q. split; [by rewrite <-Hn; apply Hold|]. split; [done|]. intros m q'. rewrite lookup_insert.
        case_decide; [intros [= <-]; congruence|apply Hall].
      * intros m q. rewrite lookup_insert. case_decide; [by intros [= <-]|apply I4].
  - intros k x Hx. destruct (I5 k x Hx) as (Hk & q & Hq & ?). split; [done|]. exists q. split; [|done]. rewrite E3. by apply Hold.
  - intros c b Hb. destruct (I7 c b Hb) as [? [q Hq]]. split; [done|]. exists q. by apply Hold.
Qed.

Lemma retire_inv st n p : inv st → policies st !! n = Some p → inv (put_policy (withdrawn p) st).
Proof.
  intros [I1 I2 I3 I4 I5 I6 I7] Hp. destruct (I2 n p Hp) as [Hn Hh].
  pose proof (λ m q, withdrawn_lookup n p st m q Hn Hp) as Hfrom. pose proof (λ m q, withdrawn_back n p st m q Hn Hp) as Hto.
  split; try done.
  - intros m q Hq. destruct (Hfrom m q Hq) as (q' & Hq' & Hv & _ & Hhq). destruct (I2 m q' Hq'). split; congruence.
  - intros m. rewrite <-I3. split; [intros [q Hq]; destruct (Hfrom m q Hq) as (q' & ? & _); by eexists|intros [q Hq]; destruct (Hto m q Hq) as (q' & ? & _); by eexists].
  - intros r. specialize (I4 r). unfold latest_ok in *. change (latest_for (put_policy (withdrawn p) st)) with (latest_for st).
    destruct (latest_for st !! r) as [k|].
    + destruct I4 as (q & Hq & Ha & Hall). destruct (Hto k q Hq) as (q' & Hq' & Hau & _). exists q'. split_and!; [done|congruence|].
      intros m q2 Hq2 Ha2. destruct (Hfrom m q2 Hq2) as (q3 & Hq3 & _ & Hau3 & _). apply (Hall m q3); [done|congruence].
    + intros m q Hq. destruct (Hfrom m q Hq) as (q' & Hq' & _ & Hau & _). rewrite Hau. by apply (I4 m).
  - intros k x Hx. destruct (I5 k x Hx) as (Hk & q & Hq & Hhq & Ha). split; [done|]. destruct (Hto _ q Hq) as (q' & Hq' & Hau & Hhq').
    exists q'. split_and!; [done|congruence|congruence].
  - intros c b Hb. destruct (I7 c b Hb) as [? [q Hq]]. split; [done|]. destruct (Hto _ q Hq) as (q' & ? & _). by eexists.
Qed.

Lemma conduct_effect_inv e st c st' : inv st → effect e st c st' → inv st'.
Proof.
  intros Hi Heff. pose proof Hi as [I1 I2 I3 I4 I5 I6 I7].
  destruct Heff as [x Ha|x a h t b p Ha Hh Hmax ->|x n p Ha Hp Hr|x n r Ha Hk|x n r p Ha Hk Hp Hr Hap|x i m n Ha1 Ha2 Hne Hg|x i g p q Ha Hg Hx Hs Hp Hq Hm Hn
    |x i g Ha Hg Hs|x i g p q Ha Hg Hx Hs Hp Hq Hm Hn|x i g Ha Hg Hx Hs|x c who n s h p Ha Hh Hp Hb|x c b Ha Hb Hr]; try done.
  - by apply conduct_publish_inv.
  - by eapply retire_inv.
  - split; try done. intros k y. simpl. rewrite lookup_insert. case_decide as Hk'; [|apply I5]. intros [= <-]. split; [done|]. by exists p.
  - by eapply engagement_put_inv.
  - destruct (I6 i g Hg). by eapply engagement_put_inv.
  - destruct (I6 i g Hg). by eapply engagement_put_inv.
  - destruct (I6 i g Hg). by eapply engagement_put_inv.
  - destruct (I6 i g Hg). by eapply engagement_put_inv.
  - split; try done. intros d y. simpl. rewrite lookup_insert. case_decide; [|apply I7]. intros [= <-]. split; [done|by eexists].
  - destruct (I7 c b Hb) as [Hc Hpb]. split; try done. intros d y. simpl. rewrite Hc, lookup_insert. case_decide; [|apply I7]. intros [= <-]. subst d. done.
Qed.

(** ** The properties *)

Definition deployed {L} (w : World L Store Event) : Prop := store w = empty_store.
Definition is_ended (st : Store) (i : BytesN32) : bool := from_option (λ g, bool_decide (state g = Ended)) false (engagements st !! i).
Definition is_resolved (st : Store) (c : BytesN32) : bool := from_option resolved false (breaches st !! c).
Definition ends (i : BytesN32) (_ : Env) (c : Call) : bool := match c with CEnd _ j => bool_decide (j = i) | _ => false end.
Definition resolves (b : BytesN32) (_ : Env) (c : Call) : bool := match c with CResolve _ d => bool_decide (d = b) | _ => false end.

(** The text of a policy: what a publication fixes. *)
Definition text (p : Policy) : Audience * BytesN32 * Z * bool * Z := (audience p, policy_hash p, effective_at p, mandatory p, published_at p).
Definition policy_kept (st st' : Store) : Prop :=
  ∀ n p, policies st !! n = Some p → ∃ q, policies st' !! n = Some q ∧ text q = text p ∧ (retired p = true → retired q = true).
Definition acceptance_kept (st st' : Store) : Prop := ∀ k x, acceptances st !! k = Some x → acceptances st' !! k = Some x.
(** Who an engagement binds, and that an ended one stays as it is. *)
Definition engagement_kept (st st' : Store) : Prop :=
  ∀ i g, engagements st !! i = Some g → ∃ h, engagements st' !! i = Some h ∧ mentor h = mentor g ∧ mentee h = mentee g ∧
    created_at h = created_at g ∧ (state g = Ended → h = g).
Definition kept (st st' : Store) : Prop := policy_kept st st' ∧ acceptance_kept st st' ∧ engagement_kept st st'.

#[local] Instance kept_preorder : PreOrder kept.
Proof.
  split.
  - intros st. split_and!; [intros n p Hp; by exists p|by intros k x|intros i g Hg; by exists g].
  - intros st1 st2 st3 (P1 & A1 & G1) (P2 & A2 & G2). split_and!.
    + intros n p Hp. destruct (P1 n p Hp) as (q & Hq & Hqt & Hqr). destruct (P2 n q Hq) as (r & Hr & Hrt & Hrr). exists r.
      split_and!; [done|congruence|auto].
    + intros k x Hx. by apply A2, A1.
    + intros i g Hg. destruct (G1 i g Hg) as (h & Hh & E1 & E2 & E3 & E4). destruct (G2 i h Hh) as (k & Hk & F1 & F2 & F3 & F4). exists k.
      split_and!; [done|congruence..|]. intros Hs. specialize (E4 Hs). subst h. auto.
Qed.

Lemma conduct_effect_kept e c st st' : inv st → effect e st c st' → kept st st'.
Proof.
  intros [I1 I2 I3 I4 I5 I6 I7] Heff.
  assert (∀ i g h, engagements st !! i = Some g → e_id h = e_id g → mentor h = mentor g → mentee h = mentee g → created_at h = created_at g →
    state g ≠ Ended → kept st (put_engagement h st)) as Hput.
  { intros i g h Hg Hid Hm Hn Hc Hs. destruct (I6 i g Hg) as [Hi _]. split_and!; [intros n p Hp; by exists p|by intros k x|].
    intros j y Hy. simpl. rewrite Hid, Hi, lookup_insert. case_decide as Hj; [|by exists y]. subst j. rewrite Hg in Hy. injection Hy as <-.
    exists h. by split_and!. }
  destruct Heff as [x Ha|x a h t b p Ha Hh Hmax ->|x n p Ha Hp Hr|x n r Ha Hk|x n r p Ha Hk Hp Hr Hap|x i m n Ha1 Ha2 Hne Hg|x i g p q Ha Hg Hx Hs Hp Hq Hm Hn
    |x i g Ha Hg Hs|x i g p q Ha Hg Hx Hs Hp Hq Hm Hn|x i g Ha Hg Hx Hs|x c who n s h p Ha Hh Hp Hb|x c b Ha Hb Hr];
    try (by split_and!; [intros ? ? ?; by eexists|by intros ? ?|intros ? ? ?; by eexists]).
  - set (p := mkPolicy _ _ _ _ _ _ _). destruct (record_latest_same p (put_version (latest_version st + 1) (put_policy p st))) as (_ & _ & E3 & E4 & E5 & _).
    split_and!; [|by intros k y; rewrite E4|intros i g Hg; rewrite E5; by exists g].
    intros n q Hq. exists q. rewrite E3. simpl. rewrite lookup_insert_ne; [done|]. intros <-.
    assert (1 ≤ latest_version st + 1 ≤ latest_version st) by (apply I3; by eexists). lia.
  - destruct (I2 n p Hp) as [Hn _]. split_and!; [|by intros k y|intros i g Hg; by exists g].
    intros m q Hq. simpl. rewrite Hn, lookup_insert. case_decide as Hm; [|by exists q]. subst m. rewrite Hp in Hq. injection Hq as <-. by eexists.
  - split_and!; [intros m q Hq; by exists q| |intros i g Hg; by exists g]. intros k y Hy. simpl. rewrite lookup_insert_ne; [done|].
    intros <-. unfold has_accepted_in in Hk. rewrite Hy in Hk. done.
  - split_and!; [intros k q Hq; by exists q|by intros k y|]. intros j g Hj. simpl. rewrite lookup_insert_ne by congruence. by exists g.
  - eapply Hput; try done. by rewrite Hs.
  - eapply Hput; try done. by rewrite Hs.
  - eapply Hput; try done. by rewrite Hs.
  - by eapply Hput.
Qed.

(** An engagement that is not ended is replaced. *)
Lemma put_ended st i j x x' :
  inv st → engagements st !! j = Some x → e_id x' = e_id x → state x ≠ Ended →
  (if is_ended (put_engagement x' st) i then 1 else 0) =
  (if is_ended st i then 1 else 0) + (if bool_decide (j = i) && bool_decide (state x' = Ended) then 1 else 0).
Proof.
  intros Hi Hj Hid Hs. destruct (inv_engagements _ Hi j x Hj) as [Hej _]. unfold is_ended. simpl. rewrite Hid, Hej, lookup_insert. case_decide as Hji.
  - subst j. rewrite Hji in Hj. rewrite Hj, (bool_decide_eq_true_2 (e_id x = i)) by done. simpl. by rewrite (bool_decide_eq_false_2 (state x = Ended)).
  - rewrite (bool_decide_eq_false_2 (j = i)) by done. simpl. lia.
Qed.

(** What one call does to the count of ends and of resolutions. *)
Lemma effect_ends e c st st' i b :
  inv st → effect e st c st' → is_Some (engagements st !! i) → is_Some (breaches st !! b) →
  (if is_ended st' i then 1 else 0) = (if is_ended st i then 1 else 0) + (if ends i e c then 1 else 0) ∧
  (if is_resolved st' b then 1 else 0) = (if is_resolved st b then 1 else 0) + (if resolves b e c then 1 else 0).
Proof.
  intros Hi Heff [g Hg] [d Hd].
  destruct Heff as [x Ha|x a h t m p Ha Hh Hmax ->|x n p Ha Hp Hr|x n r Ha Hkn|x n r p Ha Hkn Hp Hr Hap|x j m n Ha1 Ha2 Hne Hnew|x j y p q Ha Hy Hx Hs Hp Hq Hm Hn
    |x j y Ha Hy Hs|x j y p q Ha Hy Hx Hs Hp Hq Hm Hn|x j y Ha Hy Hx Hs|x c who n s h p Ha Hh Hp Hnew|x c y Ha Hy Hr];
    try (unfold is_ended, is_resolved; simpl; split; lia).
  - set (p := mkPolicy _ _ _ _ _ _ _). destruct (record_latest_same p (put_version (latest_version st + 1) (put_policy p st))) as (_ & _ & _ & _ & E5 & E6).
    unfold is_ended, is_resolved. rewrite E5, E6. simpl. split; lia.
  - unfold is_ended, is_resolved. simpl. rewrite lookup_insert_ne by congruence. split; lia.
  - rewrite (put_ended st i j y) by (done || by rewrite Hs). simpl. rewrite andb_false_r. unfold is_resolved. simpl. split; lia.
  - rewrite (put_ended st i j y) by (done || by rewrite Hs). simpl. rewrite andb_false_r. unfold is_resolved. simpl. split; lia.
  - rewrite (put_ended st i j y) by (done || by rewrite Hs). simpl. rewrite andb_false_r. unfold is_resolved. simpl. split; lia.
  - rewrite (put_ended st i j y) by done. simpl. rewrite andb_true_r. unfold is_resolved. simpl. split; lia.
  - unfold is_ended, is_resolved. simpl. rewrite lookup_insert_ne by congruence. split; lia.
  - destruct (inv_breaches _ Hi c y Hy) as [Hc _]. unfold is_ended, is_resolved. simpl. rewrite Hc, lookup_insert. case_decide as Hcb.
    + rewrite Hcb in Hy. rewrite Hy, (bool_decide_eq_true_2 (c = b)) by done. simpl. rewrite Hr. split; lia.
    + rewrite (bool_decide_eq_false_2 (c = b)) by done. split; lia.
Qed.

Lemma effect_breaches e c st st' b : inv st → effect e st c st' → is_Some (breaches st !! b) → is_Some (breaches st' !! b).
Proof.
  intros Hi Heff Hb. destruct Heff; try done; simpl; rewrite ?lookup_insert; try (case_decide; [by eexists|done]).
  by rewrite (proj2 (proj2 (proj2 (proj2 (proj2 (record_latest_same _ _)))))).
Qed.

Section Theorems.
Context {L : Type}.
Abbreviation W := (World L Store Event).
Abbreviation exec := (exec (L := L)).
Abbreviation M := (Contract L Store Event ContractError).
Abbreviation Reach this := (reachable exec valid this (λ _ _, True) deployed).
Implicit Types (w : W).

Lemma conduct_reachable this w : Reach this w → inv (store w).
Proof.
  apply (reachable_inv _ _ _ _ _ (λ w, inv (store w))).
  - intros w0 ->. apply conduct_empty_inv.
  - intros c e w0 w1 u _ Hv Hi Hrun. destruct (conduct_effect c e w0 w1 u Hrun) as [_ Heff]. by eapply conduct_effect_inv.
  - done.
Qed.

(** An acceptance comes from a call of the participant it names. *)
Lemma effect_accepts e st c st' x n r a :
  effect e st c st' → acceptances st !! (x, n, r) = None → acceptances st' !! (x, n, r) = Some a →
  c = CAccept x n r ∧ authorized e x = true ∧ accepted_at a = timestamp e.
Proof.
  intros Heff H0 Ha. destruct Heff; simpl in Ha; try congruence.
  - match type of Ha with context [record_latest ?p ?st0] =>
      destruct (record_latest_same p st0) as (_ & _ & _ & E & _); rewrite E in Ha end. simpl in Ha. congruence.
  - rewrite lookup_insert in Ha. case_decide; [|congruence]. by simplify_eq.
Qed.

(** C34: Acceptance is provable.  Take any calls from a reachable world.  An acceptance stays as it was
    given.  Wherever one stands at the end, the policy it names has the very hash that was accepted and
    addresses the role, so that the proof is verified for that hash and no other, whether the policy has
    been retired or not; accepting again returns and changes nothing; and if it was not there before, a
    call of the participant, with his authorisation, gave it at the time it bears.  Where none stands
    nothing is verified. *)
Theorem acceptance_provable this w calls x n r :
  Reach this w →
  let w' := run_calls exec calls w in
  (∀ a, acceptances (store w) !! (x, n, r) = Some a → acceptances (store w') !! (x, n, r) = Some a) ∧
  match acceptances (store w') !! (x, n, r) with
  | Some a =>
      (∃ p, policies (store w') !! n = Some p ∧ policy_hash p = a_policy_hash a ∧ applies_to (audience p) r = true) ∧
      (∀ e h, verify_acceptance x n r h e w' = Done w' (a_policy_hash a =? h)) ∧
      (∀ e, authorized e x = true → invoke (accept_policy x n r) e w' = (w', Returned tt)) ∧
      (acceptances (store w) !! (x, n, r) = None →
        ∃ e, (e, CAccept x n r) ∈ calls ∧ authorized e x = true ∧ accepted_at a = timestamp e)
  | None => ∀ e h, verify_acceptance x n r h e w' = Done w' false
  end.
Proof.
  intros Hi%conduct_reachable w'.
  assert (inv (store w') ∧ kept (store w) (store w') ∧ ∀ a, acceptances (store w) !! (x, n, r) = None →
    acceptances (store w') !! (x, n, r) = Some a →
    ∃ e, (e, CAccept x n r) ∈ calls ∧ authorized e x = true ∧ accepted_at a = timestamp e) as (Hi' & (_ & Hacc & _) & Hgiven).
  { apply (run_calls_inv exec (λ w1, inv (store w1) ∧ kept (store w) (store w1) ∧ ∀ a, acceptances (store w) !! (x, n, r) = None →
      acceptances (store w1) !! (x, n, r) = Some a →
      ∃ e, (e, CAccept x n r) ∈ calls ∧ authorized e x = true ∧ accepted_at a = timestamp e)).
    - intros e k w0 w1 u (H0 & H1 & H2) Hin Hrun. destruct (conduct_effect k e w0 w1 u Hrun) as [_ Heff].
      pose proof (conduct_effect_kept _ _ _ _ H0 Heff) as Hk.
      split; [by eapply conduct_effect_inv|]. split; [by transitivity (store w0)|].
      intros a Hnone Ha. destruct (acceptances (store w0) !! (x, n, r)) as [b|] eqn:Hb.
      + destruct Hk as (_ & Hk & _). pose proof (Hk _ _ Hb). simplify_eq. by apply H2.
      + destruct (effect_accepts _ _ _ _ _ _ _ _ Heff Hb Ha) as (-> & ? & ?). by exists e.
    - split_and!; [done|reflexivity|congruence]. }
  split; [intros a Ha; by apply Hacc|].
  destruct (acceptances (store w') !! (x, n, r)) as [a|] eqn:Ha.
  - split_and!.
    + destruct (inv_acceptances _ Hi' _ _ Ha) as (Hk & p & Hp & Hh & Hap). injection Hk as -> -> ->. by exists p.
    + intros e h. unfold verify_acceptance, load. by rewrite Ha.
    + intros e Hau. apply invoke_run. unfold accept_policy, has_accepted. run_fwd.
      unfold has_accepted_in. by rewrite Ha, bool_decide_eq_true_2.
    + intros Hnone. by apply Hgiven.
  - intros e h. unfold verify_acceptance, load. by rewrite Ha.
Qed.

(** The activation gate of the code.  A party's call activates a pending engagement if and only if
    both parties are current with the latest policies of their roles, optional or mandatory; the
    engagement is then active, and in compliance.  The documentation speaks of the authorisation of
    both parties and of the latest mandatory policy instead. *)
Theorem activation_gate this w e x i g :
  Reach this w → engagements (store w) !! i = Some g → state g = Pending → is_party g x → authorized e x = true →
  let r := invoke (activate_engagement x i) e w in
  (r.2 = Returned tt ↔ current_with (store w) (mentor g) Mentor = true ∧ current_with (store w) (mentee g) Mentee = true) ∧
  (r.2 = Returned tt → state <$> engagements (store r.1) !! i = Some Active ∧ engagement_compliant i e r.1 = Done r.1 true).
Proof.
  intros Hi%conduct_reachable Hg Hs Hx Ha r. destruct (inv_engagements _ Hi i g Hg) as [Hid _].
  assert (∀ g' st, mentor g' = mentor g → mentee g' = mentee g → state g' = Active → e_id g' = i → st = put_engagement g' (store w) →
    current_with (store w) (mentor g) Mentor = true → current_with (store w) (mentee g) Mentee = true →
    state <$> engagements st !! i = Some Active ∧ ∀ l evs, (engagement_compliant i : M bool) e (mkWorld l st evs) = Done (mkWorld l st evs) true) as Hcomp.
  { intros g' st Hm Hn Hst Hid' -> H1 H2. simpl. rewrite Hid', lookup_insert_eq. simpl. split; [by f_equal|]. intros l evs.
    unfold engagement_compliant, load. simpl. rewrite Hid', lookup_insert_eq, Hst, Hm, Hn. simpl.
    change (current_with (put_engagement g' (store w))) with (current_with (store w)). by rewrite H1, H2. }
  assert (negb (bool_decide (x = mentor g)) && negb (bool_decide (x = mentee g)) = false) as Hparty.
  { destruct Hx as [-> | ->]; [by rewrite (bool_decide_eq_true_2 (mentor g = mentor g))|]. rewrite (bool_decide_eq_true_2 (mentee g = mentee g)) by done. by rewrite andb_false_r. }
  subst r. split; [split|].
  - intros Hret. apply invoke_pair, invoke_returned in Hret. destruct (conduct_effect (CActivate x i) e w _ tt Hret) as [_ Heff].
    inversion Heff. simplify_eq. done.
  - intros [H1 H2]. destruct (current_run (mentor g) Mentor e w H1) as (p & Hp & Hrun1). destruct (current_run (mentee g) Mentee e w H2) as (q & Hq & Hrun2).
    erewrite invoke_run; [done|]. unfold activate_engagement, load_engagement, require_party. run_fwd.
  - destruct (invoke (activate_engagement x i) e w) as [w1 r] eqn:Hinv. simpl. intros ->. apply invoke_returned in Hinv.
    destruct (conduct_effect (CActivate x i) e w w1 tt Hinv) as [_ Heff].
    inversion Heff as [| | | | | |? ? g0 p q _ Hg0 _ _ _ _ H1 H2 Hst| | | | |]. rewrite Hg in Hg0. injection Hg0 as <-.
    destruct (Hcomp (activated (p_version p) (p_version q) (timestamp e) (timestamp e) g) (store w1)) as [Hst' Hc]; try done.
    match goal with H : put_engagement _ _ = store w1 |- _ => rewrite H end. split; [exact Hst'|]. destruct w1. apply Hc.
Qed.

(** What a publication and a retirement do to the parties.  Once a policy is published, whoever is in a
    role of its audience is current exactly when it is optional (nobody has accepted the new version
    yet, and an earlier mandatory one is no longer asked for), other roles as before; once the latest
    policy of a role is retired, nobody is current in it, and no acceptance of it can be added. *)
Theorem publication_exact this w w1 e e' x a h t must n r y :
  Reach this w →
  (publish_policy x a h t must e w = Done w1 n →
    n = latest_version (store w) + 1 ∧
    current_with (store w1) y r = (if applies_to a r then negb must else current_with (store w) y r) ∧
    (applies_to a r = true → requires_acknowledgement y r e' w1 = Done w1 must)) ∧
  (retire_policy x n e w = Done w1 tt → latest_for (store w) !! r = Some n →
    current_with (store w1) y r = false ∧
    (has_accepted_in (store w) y n r = false → authorized e' y = true → accept_policy y n r e' w1 = Failed w1 PolicyRetired)).
Proof.
  intros Hi%conduct_reachable. split.
  - intros Hrun. assert (exec (CPublish x a h t must) e w = Done w1 tt) as Hex. { simpl. unfold ignore, bind. by rewrite Hrun. }
    assert (n = latest_version (store w) + 1) as ->. { unfold publish_policy, require_admin in Hrun. run_inv. checked_prop. done. }
    destruct (conduct_effect _ e w w1 tt Hex) as [_ Heff]. inversion Heff as [|? ? ? ? ? p Ha Hh Hmax Hp| | | | | | | | | |]. subst.
    set (p := mkPolicy _ _ _ _ _ _ _) in *. set (st0 := put_version _ _) in *.
    destruct (record_latest_same p st0) as (_ & _ & E3 & E4 & _ & _).
    assert (∀ m r', has_accepted_in (record_latest p st0) y m r' = has_accepted_in (store w) y m r') as Hacc by (intros; unfold has_accepted_in; by rewrite E4).
    assert (has_accepted_in (store w) y (latest_version (store w) + 1) r = false) as Hnone.
    { unfold has_accepted_in. apply bool_decide_eq_false_2. intros [z Hz]. destruct (inv_acceptances _ Hi _ _ Hz) as (Hk & q & Hq & _).
      injection Hk as _ Hn _. rewrite <-Hn in Hq. assert (1 ≤ latest_version (store w) + 1 ≤ latest_version (store w)) by (apply (inv_numbered _ Hi); by eexists). lia. }
    assert (latest_in (record_latest p st0) r = if applies_to a r then Some p else latest_in (store w) r) as Hlat.
    { unfold latest_in. rewrite record_latest_for, E3. cbn [audience p]. destruct (applies_to a r); simpl; [by rewrite lookup_insert_eq|].
      destruct (latest_for (store w) !! r) as [k|] eqn:Hk; [|done]. simpl. rewrite lookup_insert_ne; [done|]. intros <-.
      pose proof (inv_latest _ Hi r) as Hl. unfold latest_ok in Hl. rewrite Hk in Hl. destruct Hl as (q & Hq & _).
      assert (1 ≤ latest_version (store w) + 1 ≤ latest_version (store w)) by (apply (inv_numbered _ Hi); by eexists). lia. }
    split; [done|]. unfold requires_acknowledgement, load, current_with.
    match goal with H : _ = store w1 |- _ => rewrite <-?H end. rewrite Hlat.
    destruct (applies_to a r); simpl; rewrite ?Hacc, ?Hnone; simpl; rewrite ?andb_true_r; [done|]. split; [|done].
    destruct (latest_in (store w) r); by rewrite ?Hacc.
  - intros Hrun Hn. destruct (conduct_effect (CRetire x n) e w w1 tt Hrun) as [_ Heff]. inversion Heff as [| |? ? p Ha Hp Hr Hst| | | | | | | | |]. subst.
    destruct (inv_policies _ Hi n p Hp) as [Hv _]. pose proof (inv_latest _ Hi r) as Hl. unfold latest_ok in Hl. rewrite Hn in Hl. destruct Hl as (p' & Hp' & Hap & _). simplify_eq.
    match goal with H : _ = store w1 |- _ => rename H into Hst end. split.
    + unfold current_with, latest_in. rewrite <-?Hst. simpl. rewrite Hn. simpl. rewrite lookup_insert_eq. done.
    + intros Hacc Hau. unfold accept_policy, has_accepted, load_policy.
      assert (has_accepted_in (store w1) y (p_version p) r = false) as Hacc' by (unfold has_accepted_in; by rewrite <-Hst).
      assert (policies (store w1) !! p_version p = Some (withdrawn p)) as Hp'' by (rewrite <-Hst; simpl; by rewrite lookup_insert_eq).
      run_fwd. rewrite Hacc'. run_fwd.
Qed.

(** Engagements end once.  Over any calls an engagement keeps its parties, it is ended by exactly the
    calls to end it that return, at most one, and once ended it stays as it is; a breach is resolved by
    exactly the calls to resolve it that return, at most one. *)
Theorem ended_once this w calls i g c :
  Reach this w → engagements (store w) !! i = Some g → is_Some (breaches (store w) !! c) →
  let w' := run_calls exec calls w in
  (∃ h, engagements (store w') !! i = Some h ∧ mentor h = mentor g ∧ mentee h = mentee g ∧ (state g = Ended → h = g)) ∧
  accepted exec (ends i) calls w = (if is_ended (store w') i then 1 else 0) - (if is_ended (store w) i then 1 else 0) ∧
  accepted exec (resolves c) calls w = (if is_resolved (store w') c then 1 else 0) - (if is_resolved (store w) c then 1 else 0).
Proof.
  intros Hi%conduct_reachable Hg Hb w'.
  set (I := λ w1 : W, inv (store w1) ∧ kept (store w) (store w1) ∧ is_Some (breaches (store w1) !! c)).
  assert (∀ e k w0 w1 u, I w0 → exec k e w0 = Done w1 u → I w1 ∧
    (if is_ended (store w1) i then 1 else 0) = (if is_ended (store w0) i then 1 else 0) + (if ends i e k then 1 else 0) ∧
    (if is_resolved (store w1) c then 1 else 0) = (if is_resolved (store w0) c then 1 else 0) + (if resolves c e k then 1 else 0)) as Hstep.
  { intros e k w0 w1 u (H0 & H1 & Hb0) Hrun. destruct (conduct_effect k e w0 w1 u Hrun) as [_ Heff]. split.
    - split_and!; [by eapply conduct_effect_inv|transitivity (store w0); [done|by eapply conduct_effect_kept]|by eapply effect_breaches].
    - destruct H1 as (_ & _ & H1). destruct (H1 i g Hg) as (g0 & Hg0 & _). apply (effect_ends e k _ _ i c H0 Heff); [by eexists|done]. }
  assert (I w) as Hw by done.
  destruct (accepted_counts exec I (λ w, if is_ended (store w) i then 1 else 0) (ends i) calls w) as [(_ & (_ & _ & Hk) & _) H1];
    [intros e k w0 w1 u H0 _ Hrun; destruct (Hstep e k w0 w1 u H0 Hrun) as (? & ? & _); done|done|].
  destruct (accepted_counts exec I (λ w, if is_resolved (store w) c then 1 else 0) (resolves c) calls w) as [_ H2];
    [intros e k w0 w1 u H0 _ Hrun; destruct (Hstep e k w0 w1 u H0 Hrun) as (? & _ & ?); done|done|].
  destruct (Hk i g Hg) as (h & Hh & Hm & Hn & _ & He). subst w'. split; [by exists h|]. split; lia.
Qed.
End Theorems.

(** ** Concrete runs *)
Module Runs.
Definition this : Address := addr 0.
Definition boss : Address := addr 1.
Definition mia : Address := addr 2.
Definition ned : Address := addr 3.
Abbreviation exec := (exec (L := unit)).
Abbreviation Reach := (reachable exec valid this (λ _ _, True) deployed).

Definition at_time (t : Z) : Env := mkEnv t this (λ _, true).
Definition w0 : World unit Store Event := mkWorld tt empty_store [].
Definition setup : list (Env * Call) :=
  [(at_time 10, CInitialize boss); (at_time 11, CPublish boss Both 77 5000 true); (at_time 12, CCreate mia 5 mia ned);
   (at_time 13, CAccept mia 1 Mentor); (at_time 14, CBreach boss 9 ned 1 High 66)].
Definition later : list (Env * Call) :=
  [(at_time 15, CResolve boss 9); (at_time 16, CEnd ned 5); (at_time 17, CEnd mia 5); (at_time 18, CResolve boss 9)].
Definition w1 : World unit Store Event := run_calls exec setup w0.
Definition acceptance1 : Acceptance := mkAcceptance mia Mentor 1 77 13.
Definition engagement1 : Engagement := mkEngagement 5 mia ned Pending 0 0 12 0 12.

Lemma conduct_runs calls :
  Forall (λ ec : Env * Call, self ec.1 = this ∧ valid ec.1 ec.2) calls → Reach (run_calls exec calls w0).
Proof. apply reachable_run. by apply reach_init. Qed.

Ltac valid_calls := repeat constructor; simpl; try done; range_lia.

Lemma conduct_w1_reach : Reach w1.
Proof. apply conduct_runs. valid_calls. Qed.

(** Mia's acceptance outlives the retirement of its policy. *)
Lemma acceptance_provable_witness :
  let w2 := run_calls exec (later ++ [(at_time 19, CRetire boss 1)]) w1 in
  verify_acceptance mia 1 Mentor 77 (at_time 20) w2 = Done w2 true ∧
  invoke (accept_policy mia 1 Mentor) (at_time 21) w2 = (w2, Returned tt) ∧
  ∃ e, (e, CAccept mia 1 Mentor) ∈ setup ∧ timestamp e = 13.
Proof.
  destruct (acceptance_provable this w1 (later ++ [(at_time 19, CRetire boss 1)]) mia 1 Mentor conduct_w1_reach) as (Hk & Hm).
  specialize (Hk acceptance1 ltac:(by vm_compute)). rewrite Hk in Hm. destruct Hm as (_ & Hv & Hr & _).
  split; [exact (Hv (at_time 20) 77)|]. split; [exact (Hr (at_time 21) eq_refl)|].
  destruct (acceptance_provable this w0 setup mia 1 Mentor ltac:(by apply reach_init)) as (_ & Hm).
  change (run_calls exec setup w0) with w1 in Hm.
  assert (acceptances (store w1) !! (mia, 1, Mentor) = Some acceptance1) as Ha by (by vm_compute).
  rewrite Ha in Hm. destruct Hm as (_ & _ & _ & (e & Hin & _ & Ht)); [done|]. exists e. split; [exact Hin|by rewrite <-Ht].
Defined.

(** Ned has not accepted; he activates the engagement once he has. *)
Definition w2 : World unit Store Event := run_calls exec (setup ++ [(at_time 15, CAccept ned 1 Mentee)]) w0.
Lemma conduct_w2_reach : Reach w2.
Proof. apply conduct_runs. valid_calls. Qed.

Lemma activation_gate_witness :
  (invoke (activate_engagement ned 5) (at_time 16) w2).2 = Returned tt ∧
  (invoke (activate_engagement ned 5) (at_time 16) w1).2 = Errored AcceptanceRequired.
Proof.
  split; [|by vm_compute].
  destruct (activation_gate this w2 (at_time 16) ned 5 engagement1 conduct_w2_reach) as [[_ Hg] _]; [by vm_compute|done|by right|done|].
  apply Hg. split; by vm_compute.
Defined.

(** An optional version published after the mandatory one: the engagement is activated although ned
    has accepted nothing. *)
Definition w3 : World unit Store Event := (invoke (publish_policy boss Both 78 9000 false) (at_time 15) w1).1.
Lemma publication_exact_witness :
  current_with (store w3) ned Mentee = true ∧ has_accepted_in (store w3) ned 1 Mentee = false ∧
  (invoke (activate_engagement ned 5) (at_time 16) w3).2 = Returned tt.
Proof.
  split; [|by vm_compute].
  destruct (publication_exact this w1 w3 (at_time 15) (at_time 16) boss Both 78 9000 false 2 Mentee ned conduct_w1_reach) as [Hp _].
  destruct Hp as (_ & Hc & _); [apply invoke_returned, invoke_pair; by vm_compute|]. rewrite Hc. done.
Defined.

Lemma ended_once_witness : accepted exec (ends 5) later w1 = 1 ∧ accepted exec (resolves 9) later w1 = 1.
Proof.
  destruct (ended_once this w1 later 5 engagement1 9 conduct_w1_reach) as (_ & He & Hr); [by vm_compute|vm_compute; by eexists|].
  cbv zeta in He, Hr. split; [rewrite He|rewrite Hr]; vm_compute; reflexivity.
Defined.
End Runs.
