(* ===== verification/AgreementExport.v ===== *)
(** * Export of agreement records ([mentorship-agreement-export/src/lib.rs])

    A registrar projects the terms, amendments, sessions and sums of an agreement; its participants
    approve the terms and ask for personal, expiring grants, a few per window, to download the record;
    every request and download is written to a bounded audit log. *)
From S2P Require Import Prelude Machine Host.

Definition CONTRACT_VERSION : Z := 1.
Definition MAX_AMENDMENTS : Z := 32.
Definition MAX_APPROVALS : Z := 32.
Definition MAX_SESSION_SUMMARIES : Z := 64.
Definition MAX_AUDIT_ENTRIES : Z := 96.
Definition MIN_WINDOW_SECONDS : Z := 60.
Definition MAX_WINDOW_SECONDS : Z := 2592000.
Definition MIN_GRANT_TTL_SECONDS : Z := 60.
Definition MAX_GRANT_TTL_SECONDS : Z := 604800.

Inductive ContractError :=
| NotInitialized | AlreadyInitialized | NotAdmin | NotRegistrar | NotAuthorized | AgreementNotFound | AgreementAlreadyRegistered
| AmendmentVersionNotIncreasing | AmendmentLimitReached | DuplicateApproval | SessionSummaryLimitReached | InvalidAmount
| ExportRateLimited | GrantNotFound | GrantAlreadyExists | GrantExpired | InvalidPolicy | AuditLimitReached.

Record ExportPolicy := mkPolicy { max_exports_per_window : Z; window_seconds : Z; grant_ttl_seconds : Z }.
Record Amendment := mkAmendment { am_version : Z; am_terms_hash : BytesN32; reason_hash : BytesN32; amended_at : Z }.
Record Approval := mkApproval { approver : Address; ap_terms_version : Z; approval_hash : BytesN32; approved_at : Z }.
Record SessionSummary := mkSession { session_id : BytesN32; summary_hash : BytesN32; held_at : Z; duration_minutes : Z }.
Record FinancialSummary := mkFinancial { currency : Symbol; gross : Z; fees : Z; net : Z }.
Record AgreementRecord := mkAgreement {
  agreement_id : BytesN32; mentor : Address; mentee : Address; terms_hash : BytesN32; terms_version : Z; accepted_at : Z;
  amendments : list Amendment; approvals : list Approval; session_summaries : list SessionSummary; financial : FinancialSummary;
  registered_at : Z
}.
Record ExportManifest := mkManifest {
  m_agreement_id : BytesN32; m_mentor : Address; m_mentee : Address; m_terms_hash : BytesN32; m_terms_version : Z; m_accepted_at : Z;
  m_amendments : list Amendment; m_approvals : list Approval; m_session_summaries : list SessionSummary; m_financial : FinancialSummary;
  generated_at : Z; generated_for : Address
}.
Record ExportGrant := mkGrant {
  grant_id : BytesN32; g_agreement_id : BytesN32; requester : Address; g_created_at : Z; expires_at : Z
}.
Record ExportQuota := mkQuota { window_started_at : Z; used : Z }.
Inductive AuditKind := Requested | Downloaded.
#[export] Instance AuditKind_eq_dec : EqDecision AuditKind.
Proof. solve_decision. Defined.
Record AuditEntry := mkEntry { at_ : Z; au_actor : Address; au_grant_id : BytesN32; kind : AuditKind }.

Inductive Event :=
| REGISTRAR (x : Address)
| EXPOLICY (max window ttl : Z)
| AGREG (a : BytesN32)
| APPROVED (a : BytesN32) (x : Address) (version : Z)
| AMENDED (a : BytesN32) (version : Z)
| SUMMARY (a session : BytesN32)
| EXPREQ (g a : BytesN32) (x : Address) (expires : Z)
| EXPDL (g a : BytesN32) (x : Address) (t : Z)
| UPGRADED (h : BytesN32).

Record Store := mkStore {
  admin_of : option Address;
  registrar_of : option Address;
  policy_of : option ExportPolicy;
  agreements : gmap Z AgreementRecord;
  grants : gmap Z ExportGrant;
  quotas : gmap Address ExportQuota;
  audits : gmap Z (list AuditEntry);
  code : option BytesN32
}.

Definition init_store (x : Address) (p : ExportPolicy) (st : Store) : Store :=
  mkStore (Some x) (Some x) (Some p) (agreements st) (grants st) (quotas st) (audits st) (code st).
Definition put_registrar (x : Address) (st : Store) : Store :=
  mkStore (admin_of st) (Some x) (policy_of st) (agreements st) (grants st) (quotas st) (audits st) (code st).
Definition put_policy (p : ExportPolicy) (st : Store) : Store :=
  mkStore (admin_of st) (registrar_of st) (Some p) (agreements st) (grants st) (quotas st) (audits st) (code st).
Definition put_agreement (r : AgreementRecord) (st : Store) : Store :=
  mkStore (admin_of st) (registrar_of st) (policy_of st) (<[agreement_id r := r]> (agreements st)) (grants st) (quotas st) (audits st) (code st).
Definition put_grant (g : ExportGrant) (st : Store) : Store :=
  mkStore (admin_of st) (registrar_of st) (policy_of st) (agreements st) (<[grant_id g := g]> (grants st)) (quotas st) (audits st) (code st).
Definition put_quota (x : Address) (q : ExportQuota) (st : Store) : Store :=
  mkStore (admin_of st) (registrar_of st) (policy_of st) (agreements st) (grants st) (<[x := q]> (quotas st)) (audits st) (code st).
Definition put_audit (a : BytesN32) (l : list AuditEntry) (st : Store) : Store :=
  mkStore (admin_of st) (registrar_of st) (policy_of st) (agreements st) (grants st) (quotas st) (<[a := l]> (audits st)) (code st).
Definition set_code (h : BytesN32) (st : Store) : Store :=
  mkStore (admin_of st) (registrar_of st) (policy_of st) (agreements st) (grants st) (quotas st) (audits st) (Some h).

Definition audit_of (a : BytesN32) (st : Store) : list AuditEntry := default [] (audits st !! a).

(** Changes of a record. *)
Definition with_approval (p : Approval) (r : AgreementRecord) : AgreementRecord :=
  mkAgreement (agreement_id r) (mentor r) (mentee r) (terms_hash r) (terms_version r) (accepted_at r) (amendments r) (approvals r ++ [p])
    (session_summaries r) (financial r) (registered_at r).
Definition with_amendment (p : Amendment) (r : AgreementRecord) : AgreementRecord :=
  mkAgreement (agreement_id r) (mentor r) (mentee r) (am_terms_hash p) (am_version p) (accepted_at r) (amendments r ++ [p]) (approvals r)
    (session_summaries r) (financial r) (registered_at r).
Definition with_session (s : SessionSummary) (f : FinancialSummary) (r : AgreementRecord) : AgreementRecord :=
  mkAgreement (agreement_id r) (mentor r) (mentee r) (terms_hash r) (terms_version r) (accepted_at r) (amendments r) (approvals r)
    (session_summaries r ++ [s]) f (registered_at r).
Definition manifest_of (t : Z) (x : Address) (r : AgreementRecord) : ExportManifest :=
  mkManifest (agreement_id r) (mentor r) (mentee r) (terms_hash r) (terms_version r) (accepted_at r) (amendments r) (approvals r)
    (session_summaries r) (financial r) t x.

Definition is_approved (l : list Approval) (x : Address) (n : Z) : bool :=
  existsb (λ p, bool_decide (approver p = x) && (ap_terms_version p =? n)) l.
Definition bad_policy (p : ExportPolicy) : bool :=
  (max_exports_per_window p =? 0) || (window_seconds p <? MIN_WINDOW_SECONDS) || (MAX_WINDOW_SECONDS <? window_seconds p) ||
  (grant_ttl_seconds p <? MIN_GRANT_TTL_SECONDS) || (MAX_GRANT_TTL_SECONDS <? grant_ttl_seconds p).

(** The quota a request at the time [t] counts against. *)
Definition current_quota (t : Z) (p : ExportPolicy) (o : option ExportQuota) : ExportQuota :=
  let q := default (mkQuota t 0) o in
  let elapsed := match checked_sub_u64 t (window_started_at q) with Some age => window_seconds p <=? age | None => true end in
  if elapsed then mkQuota t 0 else q.

Section Contract.
Context {L : Type}.
Abbreviation M := (Contract L Store Event ContractError).

Definition require_admin (caller : Address) : M unit := require_admin_of admin_of NotInitialized NotAdmin caller.
Definition require_registrar (caller : Address) : M unit := require_admin_of registrar_of NotInitialized NotRegistrar caller.
Definition validate_policy (p : ExportPolicy) : M unit := reject_if (bad_policy p) InvalidPolicy.
Definition load_agreement (a : BytesN32) : M AgreementRecord := o <- load (λ st, agreements st !! a) ;; ok_or o AgreementNotFound.
Definition push_audit (a : BytesN32) (x : AuditEntry) : M unit :=
  l <- load (audit_of a) ;;
  reject_if (MAX_AUDIT_ENTRIES <=? Z.of_nat (length l)) AuditLimitReached ;;;
  save (put_audit a (l ++ [x])).
Definition require_participant (caller : Address) (r : AgreementRecord) : M unit :=
  reject_if (negb (bool_decide (caller = mentor r)) && negb (bool_decide (caller = mentee r))) NotAuthorized ;;;
  require_auth caller.

Definition initialize (x : Address) (n window ttl : Z) : M unit :=
  o <- load admin_of ;;
  reject_if (bool_decide (is_Some o)) AlreadyInitialized ;;;
  require_auth x ;;;
  validate_policy (mkPolicy n window ttl) ;;;
  save (init_store x (mkPolicy n window ttl)).

Definition admin : M Address := o <- load admin_of ;; ok_or o NotInitialized.
Definition registrar : M Address := o <- load registrar_of ;; ok_or o NotInitialized.
Definition policy : M ExportPolicy := o <- load policy_of ;; ok_or o NotInitialized.
Definition version : M Z := ret CONTRACT_VERSION.

Definition set_registrar (x y : Address) : M unit := require_admin x ;;; save (put_registrar y) ;;; publish (REGISTRAR y).

Definition set_policy (x : Address) (n window ttl : Z) : M unit :=
  require_admin x ;;;
  validate_policy (mkPolicy n window ttl) ;;;
  save (put_policy (mkPolicy n window ttl)) ;;;
  publish (EXPOLICY n window ttl).

Definition register_agreement (caller : Address) (a : BytesN32) (m n : Address) (h : BytesN32) (v : Z) : M unit :=
  require_registrar caller ;;;
  o <- load (λ st, agreements st !! a) ;;
  reject_if (bool_decide (is_Some o)) AgreementAlreadyRegistered ;;;
  reject_if (bool_decide (m = n)) NotAuthorized ;;;
  t <- now ;;
  save (put_agreement (mkAgreement a m n h v t [] [] [] (mkFinancial "XLM" 0 0 0) t)) ;;;
  publish (AGREG a).

Definition record_approval (caller : Address) (a h : BytesN32) : M unit :=
  r <- load_agreement a ;;
  require_participant caller r ;;;
  reject_if (is_approved (approvals r) caller (terms_version r)) DuplicateApproval ;;;
  reject_if (MAX_APPROVALS <=? Z.of_nat (length (approvals r))) DuplicateApproval ;;;
  t <- now ;;
  save (put_agreement (with_approval (mkApproval caller (terms_version r) h t) r)) ;;;
  publish (APPROVED a caller (terms_version r)).

Definition record_amendment (caller : Address) (a : BytesN32) (v : Z) (h why : BytesN32) : M unit :=
  require_registrar caller ;;;
  r <- load_agreement a ;;
  reject_if (v <=? terms_version r) AmendmentVersionNotIncreasing ;;;
  reject_if (MAX_AMENDMENTS <=? Z.of_nat (length (amendments r))) AmendmentLimitReached ;;;
  t <- now ;;
  save (put_agreement (with_amendment (mkAmendment v h why t) r)) ;;;
  publish (AMENDED a v).

Definition record_session_summary (caller : Address) (a s h : BytesN32) (held minutes g f : Z) : M unit :=
  require_registrar caller ;;;
  reject_if ((g <? 0) || (f <? 0) || (g <? f)) InvalidAmount ;;;
  r <- load_agreement a ;;
  reject_if (MAX_SESSION_SUMMARIES <=? Z.of_nat (length (session_summaries r))) SessionSummaryLimitReached ;;;
  g' <- ok_or (checked_add_i128 (gross (financial r)) g) InvalidAmount ;;
  f' <- ok_or (checked_add_i128 (fees (financial r)) f) InvalidAmount ;;
  d <- ok_or (checked_sub_i128 g f) InvalidAmount ;;
  n' <- ok_or (checked_add_i128 (net (financial r)) d) InvalidAmount ;;
  save (put_agreement (with_session (mkSession s h held minutes) (mkFinancial (currency (financial r)) g' f' n') r)) ;;;
  publish (SUMMARY a s).

Definition request_export (caller : Address) (a g : BytesN32) : M ExportGrant :=
  r <- load_agreement a ;;
  require_participant caller r ;;;
  t <- now ;;
  o <- load (λ st, grants st !! g) ;;
  match o with
  | Some existing => if (g_agreement_id existing =? a) && bool_decide (requester existing = caller) then ret existing else fail GrantAlreadyExists
  | None =>
      o <- load policy_of ;;
      p <- ok_or o NotInitialized ;;
      stored <- load (λ st, quotas st !! caller) ;;
      reject_if (max_exports_per_window p <=? used (current_quota t p stored)) ExportRateLimited ;;;
      n <- ok_or (checked_add_u32 (used (current_quota t p stored)) 1) ExportRateLimited ;;
      save (put_quota caller (mkQuota (window_started_at (current_quota t p stored)) n)) ;;;
      expires <- ok_or (checked_add_u64 t (grant_ttl_seconds p)) GrantExpired ;;
      save (put_grant (mkGrant g a caller t expires)) ;;;
      push_audit a (mkEntry t caller g Requested) ;;;
      publish (EXPREQ g a caller expires) ;;;
      ret (mkGrant g a caller t expires)
  end.

Definition get_export (caller : Address) (g : BytesN32) : M ExportManifest :=
  o <- load (λ st, grants st !! g) ;;
  grant <- ok_or o GrantNotFound ;;
  reject_if (negb (bool_decide (caller = requester grant))) NotAuthorized ;;;
  require_auth caller ;;;
  t <- now ;;
  reject_if (expires_at grant <? t) GrantExpired ;;;
  r <- load_agreement (g_agreement_id grant) ;;
  push_audit (g_agreement_id grant) (mkEntry t caller g Downloaded) ;;;
  publish (EXPDL g (g_agreement_id grant) caller t) ;;;
  ret (manifest_of t caller r).

Definition get_agreement (a : BytesN32) : M AgreementRecord := load_agreement a.
Definition get_grant (caller : Address) (g : BytesN32) : M ExportGrant :=
  o <- load (λ st, grants st !! g) ;;
  grant <- ok_or o GrantNotFound ;;
  reject_if (negb (bool_decide (caller = requester grant))) NotAuthorized ;;;
  require_auth caller ;;;
  ret grant.
Definition get_audit (caller : Address) (a : BytesN32) : M (list AuditEntry) :=
  r <- load_agreement a ;;
  require_participant caller r ;;;
  load (audit_of a).
Definition upgrade (x : Address) (h : BytesN32) : M unit := require_admin x ;;; save (set_code h) ;;; publish (UPGRADED h).

(** ** Calls *)

Inductive Call :=
| CInitialize (x : Address) (n window ttl : Z)
| CRegistrar (x y : Address)
| CPolicy (x : Address) (n window ttl : Z)
| CRegister (caller : Address) (a : BytesN32) (m n : Address) (h : BytesN32) (v : Z)
| CApprove (caller : Address) (a h : BytesN32)
| CAmend (caller : Address) (a : BytesN32) (v : Z) (h why : BytesN32)
| CSession (caller : Address) (a s h : BytesN32) (held minutes g f : Z)
| CRequest (caller : Address) (a g : BytesN32)
| CExport (caller : Address) (g : BytesN32)
| CUpgrade (x : Address) (h : BytesN32).

Definition exec (c : Call) : M unit :=
  match c with
  | CInitialize x n w t => initialize x n w t
  | CRegistrar x y => set_registrar x y
  | CPolicy x n w t => set_policy x n w t
  | CRegister x a m n h v => register_agreement x a m n h v
  | CApprove x a h => record_approval x a h
  | CAmend x a v h why => record_amendment x a v h why
  | CSession x a s h held minutes g f => record_session_summary x a s h held minutes g f
  | CRequest x a g => ignore (request_export x a g)
  | CExport x g => ignore (get_export x g)
  | CUpgrade x h => upgrade x h
  end.
End Contract.

(** The declared widths of the arguments. *)
Definition valid (e : Env) (c : Call) : Prop :=
  0 ≤ timestamp e ≤ u64_max ∧
  match c with
  | CInitialize _ n w t | CPolicy _ n w t => 0 ≤ n ≤ u32_max ∧ 0 ≤ w ≤ u32_max ∧ 0 ≤ t ≤ u32_max
  | _ => True
  end.
