(* ===== verification/AgreementExportTheorems.v ===== *)
(** * Export of agreement records: effects, invariant and properties

    Records stay well formed and their sums agree; every grant and download is in the audit log, which
    only grows; a participant gets no more grants in a window than the policy allows; a download is
    for the requester of the grant, before it expires. *)
From stdpp Require Import sorting.
From S2P Require Import Prelude Machine Host AgreementExport.

Definition is_admin (e : Env) (st : Store) (x : Address) : Prop := admin_of st = Some x ∧ authorized e x = true.
Definition is_registrar (e : Env) (st : Store) (x : Address) : Prop := registrar_of st = Some x ∧ authorized e x = true.
Definition is_participant (e : Env) (r : AgreementRecord) (x : Address) : Prop := (x = mentor r ∨ x = mentee r) ∧ authorized e x = true.
Definition policy_ok (p : ExportPolicy) : Prop :=
  1 ≤ max_exports_per_window p ≤ u32_max ∧ MIN_WINDOW_SECONDS ≤ window_seconds p ≤ MAX_WINDOW_SECONDS ∧
  MIN_GRANT_TTL_SECONDS ≤ grant_ttl_seconds p ≤ MAX_GRANT_TTL_SECONDS.
Definition settled (r : AgreementRecord) (s : SessionSummary) (g f : Z) : AgreementRecord :=
  with_session s (mkFinancial (currency (financial r)) (gross (financial r) + g) (fees (financial r) + f) (net (financial r) + (g - f))) r.
Definition has_room (a : BytesN32) (st : Store) : Prop := Z.of_nat (length (audit_of a st)) < MAX_AUDIT_ENTRIES.

Inductive effect (e : Env) (st : Store) : Call → Store → Prop :=
| E_initialize x n w t : admin_of st = None → bad_policy (mkPolicy n w t) = false → effect e st (CInitialize x n w t) (init_store x (mkPolicy n w t) st)
| E_registrar x y : is_admin e st x → effect e st (CRegistrar x y) (put_registrar y st)
| E_policy x n w t : is_admin e st x → bad_policy (mkPolicy n w t) = false → effect e st (CPolicy x n w t) (put_policy (mkPolicy n w t) st)
| E_register x a m n h v :
    is_registrar e st x → agreements st !! a = None → m ≠ n →
    effect e st (CRegister x a m n h v) (put_agreement (mkAgreement a m n h v (timestamp e) [] [] [] (mkFinancial "XLM" 0 0 0) (timestamp e)) st)
| E_approve x a h r :
    agreements st !! a = Some r → is_participant e r x → is_approved (approvals r) x (terms_version r) = false →
    Z.of_nat (length (approvals r)) < MAX_APPROVALS →
    effect e st (CApprove x a h) (put_agreement (with_approval (mkApproval x (terms_version r) h (timestamp e)) r) st)
| E_amend x a v h why r :
    is_registrar e st x → agreements st !! a = Some r → terms_version r < v → Z.of_nat (length (amendments r)) < MAX_AMENDMENTS →
    effect e st (CAmend x a v h why) (put_agreement (with_amendment (mkAmendment v h why (timestamp e)) r) st)
| E_session x a s h held minutes g f r :
    is_registrar e st x → agreements st !! a = Some r → 0 ≤ f ≤ g → gross (financial r) + g ≤ i128_max →
    Z.of_nat (length (session_summaries r)) < MAX_SESSION_SUMMARIES →
    effect e st (CSession x a s h held minutes g f) (put_agreement (settled r (mkSession s h held minutes) g f) st)
| E_retry x a g r y :
    agreements st !! a = Some r → is_participant e r x → grants st !! g = Some y → g_agreement_id y = a → requester y = x →
    effect e st (CRequest x a g) st
| E_request x a g r p q :
    agreements st !! a = Some r → is_participant e r x → grants st !! g = None → policy_of st = Some p →
    q = current_quota (timestamp e) p (quotas st !! x) → used q < max_exports_per_window p → timestamp e + grant_ttl_seconds p ≤ u64_max → has_room a st →
    effect e st (CRequest x a g) (put_audit a (audit_of a st ++ [mkEntry (timestamp e) x g Requested])
      (put_grant (mkGrant g a x (timestamp e) (timestamp e + grant_ttl_seconds p)) (put_quota x (mkQuota (window_started_at q) (used q + 1)) st)))
| E_export x g y r :
    grants st !! g = Some y → requester y = x → authorized e x = true → timestamp e ≤ expires_at y → agreements st !! g_agreement_id y = Some r →
    has_room (g_agreement_id y) st →
    effect e st (CExport x g) (put_audit (g_agreement_id y) (audit_of (g_agreement_id y) st ++ [mkEntry (timestamp e) x g Downloaded]) st)
| E_upgrade x h : is_admin e st x → effect e st (CUpgrade x h) (set_code h st).

Section Effects.
Context {L : Type}.
Abbreviation W := (World L Store Event).
Abbreviation M := (Contract L Store Event ContractError).
Implicit Types (w : W).

Lemma participant_done x r e w w' u :
  (require_participant x r : M unit) e w = Done w' u → w' = w ∧ is_participant e r x.
Proof.
  intros Hrun. unfold require_participant in Hrun. run_inv. split; [done|]. split; [|done].
  bool_prop. destruct Hrun0 as [H|H]; bool_prop; [by left|by right].
Qed.

Lemma push_done a x e w w' u :
  (push_audit a x : M unit) e w = Done w' u →
  ledger w' = ledger w ∧ has_room a (store w) ∧ store w' = put_audit a (audit_of a (store w) ++ [x]) (store w).
Proof. intros Hrun. unfold push_audit in Hrun. run_inv. bool_prop. done. Qed.

Lemma agreement_export_effect c e w w' u :
  (exec c : M unit) e w = Done w' u → ledger w' = ledger w ∧ effect e (store w) c (store w').
Proof.
  intros Hrun. destruct c; simpl in Hrun; try (apply ignore_done in Hrun as [? Hrun]).
  - unfold initialize, validate_policy in Hrun. run_inv. bool_prop. split; [done|]. apply E_initialize; [by apply eq_None_not_Some|done].
  - unfold set_registrar, require_admin in Hrun. run_inv. split; [done|]. by apply E_registrar.
  - unfold set_policy, require_admin, validate_policy in Hrun. run_inv. split; [done|]. by apply E_policy.
  - unfold register_agreement, require_registrar in Hrun. run_inv. bool_prop. split; [done|]. apply E_register; try done. by apply eq_None_not_Some.
  - unfold record_approval, load_agreement in Hrun. run_inv. bool_prop.
    match goal with H : require_participant _ _ _ _ = Done _ _ |- _ => apply participant_done in H as [-> H] end.
    split; [done|]. by apply E_approve.
  - unfold record_amendment, require_registrar, load_agreement in Hrun. run_inv. bool_prop. split; [done|]. by apply E_amend.
  - unfold record_session_summary, require_registrar, load_agreement in Hrun. run_inv. bool_prop. checked_prop. split; [done|].
    apply E_session; try done; lia.
  - unfold request_export, load_agreement in Hrun. run_inv.
    match goal with H : require_participant _ _ _ _ = Done _ _ |- _ => apply participant_done in H as [-> H] end.
    match goal with H : agreements _ !! _ = Some ?z |- _ => rename z into r end.
    destruct (grants (store w) !! g) as [y|] eqn:Hg.
    + destruct ((g_agreement_id y =? a) && _) eqn:Hc; run_inv. bool_prop. split; [done|]. by eapply E_retry.
    + run_inv. bool_prop. checked_prop.
      match goal with H : push_audit _ _ _ _ = Done _ _ |- _ => apply push_done in H as (Hl & Hroom & Hst) end.
      cbn [ledger store] in *. split; [done|]. rewrite Hst.
      match goal with H : policy_of _ = Some ?z |- _ => refine (E_request e (store w) caller a g r z _ _ _ _ _ eq_refl _ _ _); done || lia end.
  - unfold get_export, load_agreement in Hrun. run_inv. bool_prop.
    match goal with H : push_audit _ _ _ _ = Done _ _ |- _ => apply push_done in H as (Hl & Hroom & Hst) end.
    cbn [ledger store] in *. split; [done|]. rewrite Hst. by eapply E_export.
  - unfold upgrade, require_admin in Hrun. run_inv. split; [done|]. by apply E_upgrade.
Qed.
End Effects.

(** ** The invariant *)

Definition approval_key (p : Approval) : Address * Z := (approver p, ap_terms_version p).
(** The versions of the terms, the current one last. *)
Definition amended_ok (r : AgreementRecord) : Prop :=
  StronglySorted Z.lt (am_version <$> amendments r) ∧ Forall (λ p, am_version p ≤ terms_version r) (amendments r) ∧
  (∀ p, last (amendments r) = Some p → am_version p = terms_version r ∧ am_terms_hash p = terms_hash r).
Definition financial_ok (f : FinancialSummary) : Prop := net f = gross f - fees f ∧ 0 ≤ fees f ≤ gross f ∧ gross f ≤ i128_max.
Definition record_ok (a : BytesN32) (r : AgreementRecord) : Prop :=
  agreement_id r = a ∧ mentor r ≠ mentee r ∧ financial_ok (financial r) ∧ amended_ok r ∧
  NoDup (approval_key <$> approvals r) ∧ Forall (λ p, (approver p = mentor r ∨ approver p = mentee r) ∧ ap_terms_version p ≤ terms_version r) (approvals r) ∧
  Z.of_nat (length (amendments r)) ≤ MAX_AMENDMENTS ∧ Z.of_nat (length (approvals r)) ≤ MAX_APPROVALS ∧
  Z.of_nat (length (session_summaries r)) ≤ MAX_SESSION_SUMMARIES.
Definition grant_ok (st : Store) (g : BytesN32) (y : ExportGrant) : Prop :=
  grant_id y = g ∧ ∃ r, agreements st !! g_agreement_id y = Some r ∧ (requester y = mentor r ∨ requester y = mentee r).

(** The entries of a kind, and those of a grant. *)
Definition requested_in (l : list AuditEntry) : Z := list_sum (λ x, if decide (kind x = Requested) then 1 else 0) l.
Definition downloads_in (g : BytesN32) (l : list AuditEntry) : Z :=
  list_sum (λ x, if decide (kind x = Downloaded ∧ au_grant_id x = g) then 1 else 0) l.
Definition grant_of (a : BytesN32) (_ : Z) (y : ExportGrant) : Z := if decide (g_agreement_id y = a) then 1 else 0.
Definition grant_by (x : Address) (_ : Z) (y : ExportGrant) : Z := if decide (requester y = x) then 1 else 0.

Record inv (st : Store) : Prop := {
  inv_admin : admin_of st = None → policy_of st = None;
  inv_policy p : policy_of st = Some p → policy_ok p;
  inv_records a r : agreements st !! a = Some r → record_ok a r;
  inv_grants g y : grants st !! g = Some y → grant_ok st g y;
  inv_quotas x q : quotas st !! x = Some q → 0 ≤ used q;
  inv_audits a : Z.of_nat (length (audit_of a st)) ≤ MAX_AUDIT_ENTRIES ∧ requested_in (audit_of a st) = map_sum (grant_of a) (grants st)
}.

Definition empty_store : Store := mkStore None None None ∅ ∅ ∅ ∅ None.

Lemma agreement_export_empty_inv : inv empty_store.
Proof. split; done. Qed.

Lemma policy_valid n w t : bad_policy (mkPolicy n w t) = false → 0 ≤ n ≤ u32_max → policy_ok (mkPolicy n w t).
Proof. intros Hb Hn. unfold bad_policy in Hb. bool_prop. unfold policy_ok. simpl in *. lia. Qed.

Lemma audit_put a b l st : audit_of b (put_audit a l st) = if decide (a = b) then l else audit_of b st.
Proof. unfold audit_of. simpl. rewrite lookup_insert. by case_decide. Qed.

(** A record is replaced by one of the same parties. *)
Lemma record_put_inv st r r' a :
  inv st → (agreements st !! a = Some r ∧ mentor r' = mentor r ∧ mentee r' = mentee r ∨ agreements st !! a = None) → record_ok a r' →
  inv (put_agreement r' st).
Proof.
  intros [I1 I2 I3 I4 I5 I6] Hr Hok. pose proof Hok as [Hid _]. split; try done.
  - intros b y. simpl. rewrite Hid, lookup_insert. case_decide; [|apply I3]. intros [= <-]. by subst b.
  - intros g y Hy. destruct (I4 g y Hy) as (Hg & z & Hz & Hreq). split; [done|]. simpl. rewrite Hid, lookup_insert.
    case_decide as Ha; [|by exists z]. subst a. exists r'. split; [done|]. destruct Hr as [(Hr & -> & ->)|Hr]; [|congruence].
    rewrite <-Ha, Hr in Hz. by injection Hz as <-.
Qed.

Lemma is_approved_false l x n : is_approved l x n = false → (x, n) ∉ approval_key <$> l.
Proof.
  intros Hf (p & Hp & Hin)%list_elem_of_fmap. unfold is_approved in Hf.
  assert (existsb (λ p, bool_decide (approver p = x) && (ap_terms_version p =? n)) l = true); [|congruence].
  apply existsb_exists. exists p. split; [by apply list_elem_of_In|]. injection Hp as -> ->.
  by rewrite bool_decide_eq_true_2, Z.eqb_refl.
Qed.

Lemma last_snoc_ok {A} (l : list A) x y : last (l ++ [x]) = Some y → x = y.
Proof. rewrite last_snoc. by injection 1. Qed.

Lemma export_amend_ok r p : amended_ok r → terms_version r < am_version p → amended_ok (with_amendment p r).
Proof.
  intros (Hs & Hf & Hl) Hlt. unfold amended_ok. simpl. split_and!.
  - rewrite fmap_app. simpl. apply StronglySorted_app. split_and!; [|done|repeat constructor]. intros x y (q & -> & Hq)%list_elem_of_fmap ->%list_elem_of_singleton.
    rewrite Forall_forall in Hf. specialize (Hf q Hq). lia.
  - apply Forall_app. split; [|by repeat constructor]. eapply Forall_impl; [done|]. simpl. lia.
  - by intros q <-%last_snoc_ok.
Qed.

Lemma requested_snoc l x : requested_in (l ++ [x]) = requested_in l + (if decide (kind x = Requested) then 1 else 0).
Proof. unfold requested_in. rewrite list_sum_app, list_sum_cons, list_sum_nil. lia. Qed.
Lemma downloads_snoc g l x : downloads_in g (l ++ [x]) = downloads_in g l + (if decide (kind x = Downloaded ∧ au_grant_id x = g) then 1 else 0).
Proof. unfold downloads_in. rewrite list_sum_app, list_sum_cons, list_sum_nil. lia. Qed.

Lemma current_quota_nonneg t p o : (∀ q, o = Some q → 0 ≤ used q) → 0 ≤ used (current_quota t p o).
Proof. intros Hq. unfold current_quota. cbv zeta. destruct o as [q|]; simpl; repeat case_match; simpl; done || by apply Hq. Qed.

(** A grant and its entry are written together. *)
Lemma export_grant_inv st a g x r t exp q :
  inv st → agreements st !! a = Some r → (x = mentor r ∨ x = mentee r) → grants st !! g = None → has_room a st → 0 ≤ used q →
  inv (put_audit a (audit_of a st ++ [mkEntry t x g Requested]) (put_grant (mkGrant g a x t exp) (put_quota x q st))).
Proof.
  intros [I1 I2 I3 I4 I5 I6] Hr Hx Hg Hroom Hq. unfold has_room in Hroom. split; try done.
  - intros h y. simpl. rewrite lookup_insert. case_decide; [|apply I4]. intros [= <-]. split; [done|]. by exists r.
  - intros y q0. simpl. rewrite lookup_insert. case_decide; [|apply I5]. by intros [= <-].
  - intros b. rewrite audit_put. destruct (I6 b) as [Hlen Hreq]. change (grants (put_audit ?k ?l ?s)) with (grants s). simpl.
    rewrite map_sum_insert_new by done. unfold grant_of at 1. simpl. destruct (I6 a). case_decide; subst.
    + rewrite length_app, requested_snoc. simpl. lia.
    + change (audit_of b (put_grant ?y (put_quota ?z ?u ?s))) with (audit_of b s). lia.
Qed.

Lemma download_inv st a x t g : inv st → has_room a st → inv (put_audit a (audit_of a st ++ [mkEntry t x g Downloaded]) st).
Proof.
  intros [I1 I2 I3 I4 I5 I6] Hroom. unfold has_room in Hroom. split; try done. intros b. rewrite audit_put. destruct (I6 b), (I6 a). simpl.
  case_decide; subst; [|done]. rewrite length_app, requested_snoc. simpl. lia.
Qed.

Lemma agreement_export_effect_inv e st c st' : inv st → valid e c → effect e st c st' → inv st'.
Proof.
  intros Hi [Ht Hv] Heff. pose proof Hi as [I1 I2 I3 I4 I5 I6].
  destruct Heff as [x n w t Ha Hb|x y Ha|x n w t Ha Hb|x a m n h v Ha Hr Hne|x a h r Hr Hx Hap Hlen|x a v h why r Ha Hr Hv' Hlen
    |x a s h held minutes g f r Ha Hr Hf Hmax Hlen|x a g r y Hr Hx Hy Hya Hyx|x a g r p q Hr [Hx Hau] Hg Hp -> Hu Hmax Hroom|x g y r Hy Hx Hau Hexp Hr Hroom|x h Ha]; simpl in Hv.
  - split; try done. intros p [= <-]. destruct Hv. by apply policy_valid.
  - by split.
  - split; try done; [intros Hn; destruct Ha; simpl in Hn; congruence|]. intros p [= <-]. destruct Hv. by apply policy_valid.
  - apply (record_put_inv st (mkAgreement a m n h v (timestamp e) [] [] [] (mkFinancial "XLM" 0 0 0) (timestamp e)) _ a); [done|by right|].
    unfold record_ok, financial_ok, amended_ok. simpl. split_and!; try done; try constructor.
  - pose proof (I3 a r Hr) as (H1 & H2 & H3 & H4 & H5 & H6 & H7 & H8 & H9). apply (record_put_inv st r _ a); [done|by left|].
    unfold record_ok. simpl. split_and!; try done.
    + rewrite fmap_app. simpl. apply NoDup_app. split_and!; [done| |apply NoDup_singleton]. intros k Hk ->%list_elem_of_singleton. by eapply is_approved_false.
    + apply Forall_app. split; [done|]. constructor; [|done]. simpl. destruct Hx as [Hx _]. split; [done|lia].
    + rewrite length_app. simpl. lia.
  - pose proof (I3 a r Hr) as (H1 & H2 & H3 & H4 & H5 & H6 & H7 & H8 & H9). apply (record_put_inv st r _ a); [done|by left|].
    unfold record_ok. simpl. split_and!; try done.
    + by apply export_amend_ok.
    + eapply Forall_impl; [done|]. intros p [? ?]. split; [done|]. simpl. lia.
    + rewrite length_app. simpl. lia.
  - pose proof (I3 a r Hr) as (H1 & H2 & H3 & H4 & H5 & H6 & H7 & H8 & H9). apply (record_put_inv st r _ a); [done|by left|].
    unfold record_ok. simpl. split_and!; try done.
    + unfold financial_ok in *. simpl. lia.
    + rewrite length_app. simpl. lia.
  - done.
  - eapply export_grant_inv; try done. simpl. pose proof (current_quota_nonneg (timestamp e) p (quotas st !! x) (I5 x)). lia.
  - by apply download_inv.
  - by split.
Qed.

(** ** The properties *)

Definition deployed {L} (w : World L Store Event) : Prop := store w = empty_store.
Definition downloads (g : BytesN32) (_ : Env) (c : Call) : bool := match c with CExport _ h => bool_decide (h = g) | _ => false end.
Definition is_policy_call (c : Call) : bool := match c with CInitialize _ _ _ _ | CPolicy _ _ _ _ => true | _ => false end.

(** What one call does to the logs and the grants. *)
Lemma effect_audit e c st st' a : effect e st c st' → audit_of a st `prefix_of` audit_of a st'.
Proof.
  intros Heff. destruct Heff; try done; rewrite audit_put; (case_decide; [subst|done]); by eexists.
Qed.
Lemma effect_grants e c st st' g y : effect e st c st' → grants st !! g = Some y → grants st' !! g = Some y.
Proof. intros Heff Hy. destruct Heff; try done. simpl. rewrite lookup_insert_ne; [done|]. congruence. Qed.
Lemma effect_downloads e c st st' g y :
  inv st → effect e st c st' → grants st !! g = Some y →
  downloads_in g (audit_of (g_agreement_id y) st') = downloads_in g (audit_of (g_agreement_id y) st) + (if downloads g e c then 1 else 0).
Proof.
  intros Hi Heff Hg. destruct Heff; simpl; try (change (audit_of (g_agreement_id y)) with (λ st, audit_of (g_agreement_id y) st); simpl; unfold audit_of; simpl; lia).
  - rewrite audit_put. case_decide as Ha; [|unfold audit_of; simpl; lia]. subst a. rewrite downloads_snoc, decide_False by (by intros [? ?]). unfold audit_of. simpl. lia.
  - rewrite audit_put. destruct (decide (g0 = g)) as [->|Hne].
    + simplify_eq. rewrite decide_True by done. rewrite downloads_snoc, decide_True by done. by rewrite bool_decide_eq_true_2.
    + rewrite bool_decide_eq_false_2 by done. case_decide as Ha; [|lia]. rewrite Ha, downloads_snoc, decide_False by (by intros [? ?]). lia.
Qed.

Section Theorems.
Context {L : Type}.
Abbreviation W := (World L Store Event).
Abbreviation exec := (exec (L := L)).
Abbreviation M := (Contract L Store Event ContractError).
Abbreviation Reach this := (reachable exec valid this (λ _ _, True) deployed).
Implicit Types (w : W).

Lemma agreement_export_reachable this w : Reach this w → inv (store w).
Proof.
  apply (reachable_inv _ _ _ _ _ (λ w, inv (store w))).
  - intros w0 ->. apply agreement_export_empty_inv.
  - intros c e w0 w1 u _ Hv Hi Hrun. destruct (agreement_export_effect c e w0 w1 u Hrun) as [_ Heff]. by eapply agreement_export_effect_inv.
  - done.
Qed.

(** Records are well formed.  In a reachable world the net sum of a record is its gross sum less the fees,
    neither negative; nobody has approved one version twice, and only the two parties have; the versions
    of the amendments increase strictly and the last one is the current terms. *)
Theorem record_wellformed this w a r :
  Reach this w → agreements (store w) !! a = Some r →
  net (financial r) = gross (financial r) - fees (financial r) ∧ 0 ≤ fees (financial r) ≤ gross (financial r) ∧
  mentor r ≠ mentee r ∧ NoDup (approval_key <$> approvals r) ∧ Forall (λ p, approver p = mentor r ∨ approver p = mentee r) (approvals r) ∧
  StronglySorted Z.lt (am_version <$> amendments r) ∧
  (∀ p, last (amendments r) = Some p → am_version p = terms_version r ∧ am_terms_hash p = terms_hash r).
Proof.
  intros Hi%agreement_export_reachable Hr. destruct (inv_records _ Hi a r Hr) as (_ & H2 & (F1 & F2 & _) & (A1 & _ & A3) & H5 & H6 & _).
  split_and!; try done; [apply F2|apply F2|]. eapply Forall_impl; [done|]. by intros p [? _].
Qed.

(** Every export is audited.  Over any calls the log of an agreement only grows, up to ninety-six
    entries; it holds one request for each grant there is; and the downloads it holds of a grant
    increase by exactly the calls to download it that return. *)
Theorem exports_audited this w calls a g y :
  Reach this w → Forall (λ ec : Env * Call, self ec.1 = this ∧ valid ec.1 ec.2) calls → grants (store w) !! g = Some y → g_agreement_id y = a →
  let w' := run_calls exec calls w in
  audit_of a (store w) `prefix_of` audit_of a (store w') ∧ Z.of_nat (length (audit_of a (store w'))) ≤ MAX_AUDIT_ENTRIES ∧
  requested_in (audit_of a (store w')) = map_sum (grant_of a) (grants (store w')) ∧
  accepted exec (downloads g) calls w = downloads_in g (audit_of a (store w')) - downloads_in g (audit_of a (store w)).
Proof.
  intros Hi%agreement_export_reachable Hcalls Hg <- w'. rewrite Forall_forall in Hcalls.
  destruct (accepted_counts exec (λ w1, inv (store w1) ∧ grants (store w1) !! g = Some y ∧
      audit_of (g_agreement_id y) (store w) `prefix_of` audit_of (g_agreement_id y) (store w1))
    (λ w1, downloads_in g (audit_of (g_agreement_id y) (store w1))) (downloads g) calls w) as [(Hi' & _ & Hpre) Hn].
  - intros e c w0 w1 u (H0 & H1 & H2) Hin Hrun. destruct (agreement_export_effect c e w0 w1 u Hrun) as [_ Heff].
    destruct (Hcalls _ Hin) as [_ Hv]. split; [|by apply effect_downloads]. split_and!.
    + by eapply agreement_export_effect_inv.
    + by eapply effect_grants.
    + etrans; [done|by eapply effect_audit].
  - done.
  - destruct (inv_audits _ Hi' (g_agreement_id y)). subst w'. split_and!; [done|done|done|lia].
Qed.

(** The download of a grant, on every branch: for its requester only, with his authorisation, before it
    expires and while the log of the agreement has room, the record as it stands; and the request that
    made the grant may be repeated, which changes nothing and returns the grant. *)
Theorem export_exact this w e x g y :
  Reach this w → grants (store w) !! g = Some y →
  ∃ r, agreements (store w) !! g_agreement_id y = Some r ∧
  get_export x g e w =
    (if negb (bool_decide (x = requester y)) then Failed w NotAuthorized
     else if negb (authorized e x) then Trapped
     else if expires_at y <? timestamp e then Failed w GrantExpired
     else if MAX_AUDIT_ENTRIES <=? Z.of_nat (length (audit_of (g_agreement_id y) (store w))) then Failed w AuditLimitReached
     else Done (mkWorld (ledger w)
       (put_audit (g_agreement_id y) (audit_of (g_agreement_id y) (store w) ++ [mkEntry (timestamp e) x g Downloaded]) (store w))
       (log w ++ [EXPDL g (g_agreement_id y) x (timestamp e)])) (manifest_of (timestamp e) x r)) ∧
  (authorized e (requester y) = true → request_export (requester y) (g_agreement_id y) g e w = Done w y).
Proof.
  intros Hi%agreement_export_reachable Hg. destruct (inv_grants _ Hi g y Hg) as (Hid & r & Hr & Hreq). exists r. split; [done|]. split.
  - unfold get_export. eapply bind_run; [apply load_run|]. eapply bind_run; [by apply ok_or_run|].
    destruct (bool_decide (x = requester y)) eqn:Hx; [|done]. cbn [negb]. eapply bind_run; [by apply reject_if_run|].
    destruct (authorized e x) eqn:Ha; cbn [negb]; [|unfold bind, require_auth; by rewrite Ha].
    eapply bind_run; [by rewrite require_auth_run|]. eapply bind_run; [apply now_run|].
    destruct (expires_at y <? timestamp e) eqn:He; [done|]. eapply bind_run; [by apply reject_if_run|].
    unfold load_agreement. eapply bind_run; [eapply bind_run; [apply load_run|by apply ok_or_run]|].
    unfold push_audit. destruct (MAX_AUDIT_ENTRIES <=? _) eqn:Hm; [|run_fwd]. unfold bind, load, reject_if. by rewrite Hm.
  - intros Ha. unfold request_export, load_agreement, require_participant.
    assert (negb (bool_decide (requester y = mentor r)) && negb (bool_decide (requester y = mentee r)) = false) as Hp.
    { destruct Hreq as [H | H]; rewrite (bool_decide_eq_true_2 _ H); [done|]. by rewrite andb_false_r. }
    run_fwd. rewrite Hg. rewrite Z.eqb_refl, bool_decide_eq_true_2 by done. done.
Qed.

Lemma current_quota_same t p q :
  window_started_at q ≤ t < window_started_at q + window_seconds p → t - window_started_at q ≤ u64_max → current_quota t p (Some q) = q.
Proof.
  intros Ht Hmax. unfold current_quota. simpl. unfold checked_sub_u64, checked, in_range.
  rewrite (proj2 (Z.leb_le 0 (t - window_started_at q))) by lia. rewrite (proj2 (Z.leb_le (t - window_started_at q) u64_max)) by lia.
  simpl. by rewrite (proj2 (Z.leb_gt (window_seconds p) _)) by lia.
Qed.

(** C35: Exports are rate limited.  During one window of a participant, under one policy, whatever the calls,
    the participant gets at most as many new grants as the policy leaves; each counts, and no retry
    does. *)
Theorem rate_limited this w calls x p q :
  Reach this w → policy_of (store w) = Some p → quotas (store w) !! x = Some q → used q ≤ max_exports_per_window p →
  Forall (λ ec : Env * Call, self ec.1 = this ∧ valid ec.1 ec.2 ∧ is_policy_call ec.2 = false ∧
    window_started_at q ≤ timestamp ec.1 < window_started_at q + window_seconds p) calls →
  0 ≤ window_started_at q →
  let w' := run_calls exec calls w in
  ∃ q', quotas (store w') !! x = Some q' ∧ window_started_at q' = window_started_at q ∧ used q' ≤ max_exports_per_window p ∧
    map_sum (grant_by x) (grants (store w')) = map_sum (grant_by x) (grants (store w)) + (used q' - used q).
Proof.
  intros Hi%agreement_export_reachable Hp Hq Hu Hcalls H0 w'. rewrite Forall_forall in Hcalls.
  refine (proj2 (proj2 (run_calls_inv exec (λ w1, inv (store w1) ∧ policy_of (store w1) = Some p ∧
    ∃ q', quotas (store w1) !! x = Some q' ∧ window_started_at q' = window_started_at q ∧ used q' ≤ max_exports_per_window p ∧
      map_sum (grant_by x) (grants (store w1)) = map_sum (grant_by x) (grants (store w)) + (used q' - used q)) calls w _ _))).
  - intros e c w0 w1 u (Hi0 & Hp0 & q' & Hq' & Hstart & Hu' & Hsum) Hin Hrun.
    destruct (agreement_export_effect c e w0 w1 u Hrun) as [_ Heff]. destruct (Hcalls _ Hin) as (_ & Hv & Hpc & Ht). simpl in *.
    split; [by eapply agreement_export_effect_inv|].
    destruct Heff as [y n ww t Ha Hb|y z Ha|y n ww t Ha Hb|y a m n h v Ha Hr Hne|y a h r Hr Hx Hap Hlen|y a v h why r Ha Hr Hv' Hlen
      |y a s h held minutes g f r Ha Hr Hf Hmax Hlen|y a g r z Hr Hx Hy Hya Hyx|y a g r p0 q0 Hr Hx Hg Hp1 Hq0 Hu0 Hmax Hroom|y g z r Hy Hx Hau Hexp Hr Hroom|y h Ha];
      try done; try (split; [done|]; by exists q').
    split; [done|]. simpl. rewrite Hp0 in Hp1. injection Hp1 as <-. rewrite map_sum_insert_new by done. unfold grant_by at 1. simpl. rewrite lookup_insert.
    case_decide as Hyx.
    + subst y. rewrite Hq', current_quota_same in Hq0 by (destruct Hv; lia). subst q0. eexists. split; [done|]. simpl. split_and!; [done|lia|lia].
    + exists q'. split_and!; [done|done|done|lia].
  - split; [done|]. split; [done|]. exists q. split_and!; [done|done|done|lia].
Qed.
End Theorems.

(** ** Concrete runs *)
Module Runs.
Definition this : Address := addr 0.
Definition boss : Address := addr 1.
Definition mia : Address := addr 2.
Definition ned : Address := addr 3.
Abbreviation exec := (exec (L := unit)).
Abbreviation Reach := (reachable exec valid this (λ _ _, True) deployed).

Definition at_time (t : Z) : Env := mkEnv t this (λ _, true).
Definition w0 : World unit Store Event := mkWorld tt empty_store [].
Definition setup : list (Env * Call) :=
  [(at_time 10, CInitialize boss 2 60 100); (at_time 11, CRegister boss 5 mia ned 77 1); (at_time 12, CApprove mia 5 88);
   (at_time 13, CAmend boss 5 2 78 99); (at_time 14, CSession boss 5 31 32 9 60 1000 50); (at_time 15, CRequest mia 5 41)].
Definition later : list (Env * Call) :=
  [(at_time 16, CExport mia 41); (at_time 17, CRequest mia 5 41); (at_time 18, CRequest mia 5 42); (at_time 19, CRequest mia 5 43);
   (at_time 20, CExport ned 41); (at_time 21, CExport mia 41)].
Definition w1 : World unit Store Event := run_calls exec setup w0.
Definition grant1 : ExportGrant := mkGrant 41 5 mia 15 115.

Lemma agreement_export_runs calls :
  Forall (λ ec : Env * Call, self ec.1 = this ∧ valid ec.1 ec.2) calls → Reach (run_calls exec calls w0).
Proof. apply reachable_run. by apply reach_init. Qed.

Ltac valid_calls := repeat constructor; simpl; try done; range_lia.

Lemma agreement_export_w1_reach : Reach w1.
Proof. apply agreement_export_runs. valid_calls. Qed.

Definition record1 : AgreementRecord :=
  mkAgreement 5 mia ned 78 2 11 [mkAmendment 2 78 99 13] [mkApproval mia 1 88 12] [mkSession 31 32 9 60] (mkFinancial "XLM" 1000 50 950) 11.

Lemma record_wellformed_witness : agreements (store w1) !! 5 = Some record1 ∧ StronglySorted Z.lt (am_version <$> amendments record1).
Proof.
  assert (agreements (store w1) !! 5 = Some record1) as Hr by (by vm_compute). split; [done|].
  destruct (record_wellformed this w1 5 record1 agreement_export_w1_reach Hr) as (_ & _ & _ & _ & _ & Hs & _). exact Hs.
Defined.

Lemma exports_audited_witness : accepted exec (downloads 41) later w1 = 2.
Proof.
  destruct (exports_audited this w1 later 5 41 grant1 agreement_export_w1_reach) as (_ & _ & _ & Hn); [valid_calls|by vm_compute|done|].
  etrans; [exact Hn|]. vm_compute. reflexivity.
Defined.

(** An hour later the grant has expired; ned was never its requester. *)
Lemma export_exact_witness : get_export mia 41 (at_time 116) w1 = Failed w1 GrantExpired ∧ get_export ned 41 (at_time 20) w1 = Failed w1 NotAuthorized.
Proof.
  assert (grants (store w1) !! 41 = Some grant1) as Hg by (by vm_compute). split.
  - destruct (export_exact this w1 (at_time 116) mia 41 grant1 agreement_export_w1_reach Hg) as (r & _ & H & _). exact H.
  - destruct (export_exact this w1 (at_time 20) ned 41 grant1 agreement_export_w1_reach Hg) as (r & _ & H & _). exact H.
Defined.

(** The retry does not count and the third request is refused: two grants in the window. *)
Lemma rate_limited_witness :
  ∃ q, quotas (store (run_calls exec later w1)) !! mia = Some q ∧ used q ≤ 2 ∧
    map_sum (grant_by mia) (grants (store (run_calls exec later w1))) = 1 + (used q - 1).
Proof.
  destruct (rate_limited this w1 later mia (mkPolicy 2 60 100) (mkQuota 15 1) agreement_export_w1_reach) as (q & Hq & _ & Hu & Hs);
    [by vm_compute|by vm_compute|done|valid_calls|done|].
  exists q. split; [exact Hq|]. split; [exact Hu|]. etrans; [exact Hs|]. f_equal.
Defined.
End Runs.
