(* ===== verification/Agreements.v ===== *)
(** * Mentorship agreements ([mentorship-agreements/src])

    Two parties that do not block each other create an agreement, accept it with a nonce each, cancel
    or complete it, and amend it: a proposal, the approval of the other party, an activation.  The
    storage keys are bytes the contract composes itself ([storage.rs]): [to_key]. *)
From S2P Require Import Prelude Machine Host.

Inductive MentorshipError :=
| Unauthorized | AlreadyInitialized | NotInitialized | AgreementNotFound | InvalidStatus | InvalidTimeRange | InvalidPrice
| InvalidCadence | SameParticipant | AlreadyAccepted | NotFullyAccepted | AmendmentNotFound | AmendmentAlreadyProcessed
| InvalidProposer | NoChanges | RequiresApproval | MustBeActive | InvalidNonce | HashMismatch | TermsVersionMismatch | UsersBlocked
| BlockAlreadyExists | BlockNotFound | CannotBlockSelf | InvalidHash | Overflow | InvalidToken.

Inductive AgreementStatus := Pending | Active | Completed | Cancelled | Suspended.
#[export] Instance AgreementStatus_eq_dec : EqDecision AgreementStatus.
Proof. solve_decision. Defined.
Inductive AmendmentStatus := Proposed | Approved | Activated | Rejected | Expired.
#[export] Instance AmendmentStatus_eq_dec : EqDecision AmendmentStatus.
Proof. solve_decision. Defined.
Inductive MatchingAllowed := Allowed | BlockedByFirst | BlockedBySecond | MutualBlock.
#[export] Instance MatchingAllowed_eq_dec : EqDecision MatchingAllowed.
Proof. solve_decision. Defined.

Record Agreement := mkAgreement {
  id : Z; mentor : Address; mentee : Address; program_hash : BytesN32; scope_hash : BytesN32; start_time : Z; end_time : Z;
  cadence_seconds : Z; price_per_session : Z; token : Address; cancellation_policy_hash : BytesN32; conduct_hash : BytesN32;
  evidence_hash : BytesN32; terms_version : Z; status : AgreementStatus; created_at : Z; updated_at : Z
}.
Record Acceptance := mkAcceptance {
  actor : Address; ac_agreement_id : Z; agreement_hash : BytesN32; ac_terms_version : Z; timestamp_ : Z; nonce : Z
}.
(** What an amendment asks for. *)
Record Changes := mkChanges {
  new_cadence : option Z; new_scope_hash : option BytesN32; new_start_time : option Z; new_end_time : option Z; new_price : option Z;
  new_cancellation_hash : option BytesN32
}.
Record Amendment := mkAmendment {
  am_id : Z; am_agreement_id : Z; proposer : Address; changes : Changes; impact_hash : BytesN32; proposed_at : Z;
  am_status : AmendmentStatus; mentor_approved : bool; mentee_approved : bool; activated_at : option Z
}.
Record Block := mkBlock { blocker : Address; blocked : Address; blocked_at : Z; reason_hash : option BytesN32 }.

Inductive Event :=
| initialized (x : Address)
| user_blocked (x y : Address) (t : Z)
| user_unblocked (x y : Address)
| agreement_created (i : Z) (m n : Address) (start finish : Z)
| agreement_accepted (i : Z) (x : Address) (h : BytesN32) (nonce : Z)
| agreement_status_changed (i : Z) (s s' : AgreementStatus)
| amendment_proposed (j i : Z) (x : Address) (impact : BytesN32)
| amendment_approved (j : Z) (x : Address) (full : bool)
| amendment_rejected (j : Z) (x : Address)
| amendment_activated (j i t : Z).

(** ** Storage keys *)

Inductive DataKey :=
| KAdmin
| KNextAgreementId
| KNextAmendmentId
| KAgreement (i : Z)
| KAcceptanceRecord (i : Z) (x : Address)
| KAmendment (j : Z)
| KBlockRelation (x y : Address)
| KUserNonce (x : Address)
| KInitialized.

(** [address] is the bytes of an address as a string. *)
Definition to_key (address : Address → list Z) (k : DataKey) : list Z :=
  match k with
  | KAdmin => str_bytes "Admin"
  | KNextAgreementId => str_bytes "NextAgmtId"
  | KNextAmendmentId => str_bytes "NextAmendId"
  | KAgreement i => str_bytes "Agmt" ++ be_bytes 8 i
  | KAcceptanceRecord i x => str_bytes "Accept" ++ be_bytes 8 i ++ address x
  | KAmendment j => str_bytes "Amend" ++ be_bytes 8 j
  | KBlockRelation x y => str_bytes "Block" ++ address x ++ address y
  | KUserNonce x => str_bytes "Nonce" ++ address x
  | KInitialized => str_bytes "Init"
  end.

Record Store := mkStore {
  admin : option Address;
  is_initialized : bool;
  next_agreement_id : Z;
  next_amendment_id : Z;
  agreements : gmap Z Agreement;
  acceptances : gmap (Z * Address) Acceptance;
  amendments : gmap Z Amendment;
  blocks : gmap (Address * Address) Block;
  nonces : gmap Address Z
}.

Definition set_admin (x : Address) (st : Store) : Store :=
  mkStore (Some x) (is_initialized st) (next_agreement_id st) (next_amendment_id st) (agreements st) (acceptances st) (amendments st) (blocks st) (nonces st).
Definition set_initialized (st : Store) : Store :=
  mkStore (admin st) true (next_agreement_id st) (next_amendment_id st) (agreements st) (acceptances st) (amendments st) (blocks st) (nonces st).
Definition put_next_agreement (n : Z) (st : Store) : Store :=
  mkStore (admin st) (is_initialized st) n (next_amendment_id st) (agreements st) (acceptances st) (amendments st) (blocks st) (nonces st).
Definition put_next_amendment (n : Z) (st : Store) : Store :=
  mkStore (admin st) (is_initialized st) (next_agreement_id st) n (agreements st) (acceptances st) (amendments st) (blocks st) (nonces st).
Definition set_agreement (x : Agreement) (st : Store) : Store :=
  mkStore (admin st) (is_initialized st) (next_agreement_id st) (next_amendment_id st) (<[id x := x]> (agreements st)) (acceptances st) (amendments st)
    (blocks st) (nonces st).
Definition set_acceptance (x : Acceptance) (st : Store) : Store :=
  mkStore (admin st) (is_initialized st) (next_agreement_id st) (next_amendment_id st) (agreements st)
    (<[(ac_agreement_id x, actor x) := x]> (acceptances st)) (amendments st) (blocks st) (nonces st).
Definition set_amendment (x : Amendment) (st : Store) : Store :=
  mkStore (admin st) (is_initialized st) (next_agreement_id st) (next_amendment_id st) (agreements st) (acceptances st) (<[am_id x := x]> (amendments st))
    (blocks st) (nonces st).
Definition set_block (x : Block) (st : Store) : Store :=
  mkStore (admin st) (is_initialized st) (next_agreement_id st) (next_amendment_id st) (agreements st) (acceptances st) (amendments st)
    (<[(blocker x, blocked x) := x]> (blocks st)) (nonces st).
Definition remove_block (x y : Address) (st : Store) : Store :=
  mkStore (admin st) (is_initialized st) (next_agreement_id st) (next_amendment_id st) (agreements st) (acceptances st) (amendments st)
    (delete (x, y) (blocks st)) (nonces st).
Definition put_nonce (x : Address) (n : Z) (st : Store) : Store :=
  mkStore (admin st) (is_initialized st) (next_agreement_id st) (next_amendment_id st) (agreements st) (acceptances st) (amendments st) (blocks st)
    (<[x := n]> (nonces st)).

Definition nonce_of (x : Address) (st : Store) : Z := default 0 (nonces st !! x).

(** Changes of an agreement and of an amendment. *)
Definition with_status (s : AgreementStatus) (t : Z) (x : Agreement) : Agreement :=
  mkAgreement (id x) (mentor x) (mentee x) (program_hash x) (scope_hash x) (start_time x) (end_time x) (cadence_seconds x)
    (price_per_session x) (token x) (cancellation_policy_hash x) (conduct_hash x) (evidence_hash x) (terms_version x) s (created_at x) t.
Definition amended (c : Changes) (t : Z) (x : Agreement) : Agreement :=
  mkAgreement (id x) (mentor x) (mentee x) (program_hash x) (default (scope_hash x) (new_scope_hash c))
    (default (start_time x) (new_start_time c)) (default (end_time x) (new_end_time c)) (default (cadence_seconds x) (new_cadence c))
    (default (price_per_session x) (new_price c)) (token x) (default (cancellation_policy_hash x) (new_cancellation_hash c))
    (conduct_hash x) (evidence_hash x) (terms_version x) (status x) (created_at x) t.
Definition approved_by (is_mentor : bool) (x : Amendment) : Amendment :=
  let m := if is_mentor then true else mentor_approved x in
  let n := if is_mentor then mentee_approved x else true in
  mkAmendment (am_id x) (am_agreement_id x) (proposer x) (changes x) (impact_hash x) (proposed_at x)
    (if m && n then Approved else am_status x) m n (activated_at x).
Definition refused (x : Amendment) : Amendment :=
  mkAmendment (am_id x) (am_agreement_id x) (proposer x) (changes x) (impact_hash x) (proposed_at x) Rejected (mentor_approved x)
    (mentee_approved x) (activated_at x).
Definition in_force (t : Z) (x : Amendment) : Amendment :=
  mkAmendment (am_id x) (am_agreement_id x) (proposer x) (changes x) (impact_hash x) (proposed_at x) Activated (mentor_approved x)
    (mentee_approved x) (Some t).

Definition has_changes (c : Changes) : bool :=
  bool_decide (is_Some (new_cadence c)) || bool_decide (is_Some (new_scope_hash c)) || bool_decide (is_Some (new_start_time c)) ||
  bool_decide (is_Some (new_end_time c)) || bool_decide (is_Some (new_price c)) || bool_decide (is_Some (new_cancellation_hash c)).

(** The terms of a new agreement: the arguments of its creation. *)
Record Terms := mkTerms {
  t_mentor : Address; t_mentee : Address; t_program_hash : BytesN32; t_scope_hash : BytesN32; t_start_time : Z; t_end_time : Z;
  t_cadence_seconds : Z; t_price_per_session : Z; t_token : Address; t_cancellation_policy_hash : BytesN32; t_conduct_hash : BytesN32;
  t_evidence_hash : BytesN32; t_terms_version : Z
}.
Definition agreement_of (i now : Z) (t : Terms) : Agreement :=
  mkAgreement i (t_mentor t) (t_mentee t) (t_program_hash t) (t_scope_hash t) (t_start_time t) (t_end_time t) (t_cadence_seconds t)
    (t_price_per_session t) (t_token t) (t_cancellation_policy_hash t) (t_conduct_hash t) (t_evidence_hash t) (t_terms_version t) Pending now now.

Definition is_blocked (st : Store) (x y : Address) : bool := bool_decide (is_Some (blocks st !! (x, y))).
Definition matching_allowed (st : Store) (x y : Address) : MatchingAllowed :=
  match is_blocked st x y, is_blocked st y x with
  | false, false => Allowed
  | true, false => BlockedByFirst
  | false, true => BlockedBySecond
  | true, true => MutualBlock
  end.
Definition accepted_in (st : Store) (i : Z) (x : Address) : bool := bool_decide (is_Some (acceptances st !! (i, x))).

Section Contract.
Context {L : Type}.
Abbreviation M := (Contract L Store Event MentorshipError).

Definition get_admin : M Address := o <- load admin ;; ok_or o NotInitialized.
Definition require_admin (caller : Address) : M unit := x <- get_admin ;; reject_if (negb (bool_decide (x = caller))) Unauthorized.
Definition increment_agreement_id : M Z :=
  current <- load next_agreement_id ;;
  next <- or_trap (checked_add_u64 current 1) ;;
  save (put_next_agreement next) ;;;
  ret current.
Definition increment_amendment_id : M Z :=
  current <- load next_amendment_id ;;
  next <- or_trap (checked_add_u64 current 1) ;;
  save (put_next_amendment next) ;;;
  ret current.
Definition get_agreement (i : Z) : M Agreement := o <- load (λ st, agreements st !! i) ;; ok_or o AgreementNotFound.
Definition get_amendment (j : Z) : M Amendment := o <- load (λ st, amendments st !! j) ;; ok_or o AmendmentNotFound.
Definition get_acceptance (i : Z) (x : Address) : M (option Acceptance) := load (λ st, acceptances st !! (i, x)).
Definition get_block (x y : Address) : M (option Block) := load (λ st, blocks st !! (x, y)).
Definition get_user_nonce (x : Address) : M Z := load (nonce_of x).
Definition increment_user_nonce (x : Address) : M Z :=
  current <- get_user_nonce x ;;
  next <- or_trap (checked_add_u64 current 1) ;;
  save (put_nonce x next) ;;;
  ret next.

Definition init (x : Address) : M unit :=
  b <- load is_initialized ;;
  reject_if b AlreadyInitialized ;;;
  save (set_admin x) ;;;
  save set_initialized ;;;
  publish (initialized x).

(** ** Blocking *)

Definition block_user (x y : Address) (why : option BytesN32) : M unit :=
  require_auth x ;;;
  reject_if (bool_decide (x = y)) CannotBlockSelf ;;;
  o <- get_block x y ;;
  reject_if (bool_decide (is_Some o)) BlockAlreadyExists ;;;
  t <- now ;;
  save (set_block (mkBlock x y t why)) ;;;
  publish (user_blocked x y t).

Definition unblock_user (x y : Address) : M unit :=
  require_auth x ;;;
  reject_if (bool_decide (x = y)) CannotBlockSelf ;;;
  o <- get_block x y ;;
  reject_if (negb (bool_decide (is_Some o))) BlockNotFound ;;;
  save (remove_block x y) ;;;
  publish (user_unblocked x y).

Definition check_matching_allowed (x y : Address) : M MatchingAllowed := load (λ st, matching_allowed st x y).
Definition get_block_info (x y : Address) : M (option Block) := get_block x y.

(** ** Agreements *)

Definition create_agreement (t : Terms) : M Z :=
  require_auth (t_mentor t) ;;;
  require_auth (t_mentee t) ;;;
  reject_if (bool_decide (t_mentor t = t_mentee t)) SameParticipant ;;;
  matching <- check_matching_allowed (t_mentor t) (t_mentee t) ;;
  reject_if (negb (bool_decide (matching = Allowed))) UsersBlocked ;;;
  reject_if (t_end_time t <=? t_start_time t) InvalidTimeRange ;;;
  reject_if (t_cadence_seconds t =? 0) InvalidCadence ;;;
  reject_if (t_price_per_session t <? 0) InvalidPrice ;;;
  i <- increment_agreement_id ;;
  now_ <- now ;;
  save (set_agreement (agreement_of i now_ t)) ;;;
  publish (agreement_created i (t_mentor t) (t_mentee t) (t_start_time t) (t_end_time t)) ;;;
  ret i.

Definition not_participant (x : Address) (a : Agreement) : bool := negb (bool_decide (x = mentor a)) && negb (bool_decide (x = mentee a)).

Definition accept_agreement (x : Address) (i : Z) (h : BytesN32) (expected_nonce : Z) : M unit :=
  require_auth x ;;;
  a <- get_agreement i ;;
  reject_if (negb (bool_decide (status a = Pending)) && negb (bool_decide (status a = Active))) InvalidStatus ;;;
  reject_if (not_participant x a) Unauthorized ;;;
  o <- get_acceptance i x ;;
  reject_if (bool_decide (is_Some o)) AlreadyAccepted ;;;
  current_nonce <- increment_user_nonce x ;;
  reject_if (negb (current_nonce =? expected_nonce)) InvalidNonce ;;;
  t <- now ;;
  save (set_acceptance (mkAcceptance x i h (terms_version a) t current_nonce)) ;;;
  publish (agreement_accepted i x h current_nonce) ;;;
  mentor_accepted <- load (λ st, accepted_in st i (mentor a)) ;;
  mentee_accepted <- load (λ st, accepted_in st i (mentee a)) ;;
  if mentor_accepted && mentee_accepted && bool_decide (status a = Pending) then
    save (set_agreement (with_status Active t a)) ;;;
    publish (agreement_status_changed i (status a) Active)
  else ret tt.

Definition get_agreement_info (i : Z) : M Agreement := get_agreement i.
Definition has_accepted (i : Z) (x : Address) : M bool := load (λ st, accepted_in st i x).

Definition cancel_agreement (x : Address) (i : Z) : M unit :=
  require_auth x ;;;
  a <- get_agreement i ;;
  reject_if (negb (bool_decide (status a = Active)) && negb (bool_decide (status a = Pending))) InvalidStatus ;;;
  reject_if (not_participant x a) Unauthorized ;;;
  t <- now ;;
  save (set_agreement (with_status Cancelled t a)) ;;;
  publish (agreement_status_changed i (status a) Cancelled).

Definition complete_agreement (x : Address) (i : Z) : M unit :=
  require_auth x ;;;
  a <- get_agreement i ;;
  reject_if (negb (bool_decide (status a = Active))) InvalidStatus ;;;
  reject_if (not_participant x a) Unauthorized ;;;
  t <- now ;;
  save (set_agreement (with_status Completed t a)) ;;;
  publish (agreement_status_changed i (status a) Completed).

(** ** Amendments *)

Definition propose_amendment (x : Address) (i : Z) (c : Changes) (impact : BytesN32) : M Z :=
  require_auth x ;;;
  a <- get_agreement i ;;
  reject_if (negb (bool_decide (status a = Active))) MustBeActive ;;;
  reject_if (not_participant x a) InvalidProposer ;;;
  reject_if (negb (has_changes c)) NoChanges ;;;
  reject_if (from_option (λ p, p <? 0) false (new_price c)) InvalidPrice ;;;
  reject_if (from_option (λ k, k =? 0) false (new_cadence c)) InvalidCadence ;;;
  reject_if (default (end_time a) (new_end_time c) <=? default (start_time a) (new_start_time c)) InvalidTimeRange ;;;
  j <- increment_amendment_id ;;
  t <- now ;;
  save (set_amendment (mkAmendment j i x c impact t Proposed (bool_decide (x = mentor a)) (negb (bool_decide (x = mentor a))) None)) ;;;
  publish (amendment_proposed j i x impact) ;;;
  ret j.

Definition approve_amendment (x : Address) (j : Z) : M unit :=
  require_auth x ;;;
  m <- get_amendment j ;;
  reject_if (negb (bool_decide (am_status m = Proposed))) AmendmentAlreadyProcessed ;;;
  a <- get_agreement (am_agreement_id m) ;;
  reject_if (negb (bool_decide (status a = Active))) MustBeActive ;;;
  reject_if (not_participant x a) Unauthorized ;;;
  reject_if ((bool_decide (x = mentor a) && mentor_approved m) || (bool_decide (x = mentee a) && mentee_approved m)) AlreadyAccepted ;;;
  save (set_amendment (approved_by (bool_decide (x = mentor a)) m)) ;;;
  publish (amendment_approved j x (mentor_approved (approved_by (bool_decide (x = mentor a)) m) && mentee_approved (approved_by (bool_decide (x = mentor a)) m))).

Definition reject_amendment (x : Address) (j : Z) : M unit :=
  require_auth x ;;;
  m <- get_amendment j ;;
  reject_if (negb (bool_decide (am_status m = Proposed))) AmendmentAlreadyProcessed ;;;
  a <- get_agreement (am_agreement_id m) ;;
  reject_if (not_participant x a) Unauthorized ;;;
  save (set_amendment (refused m)) ;;;
  publish (amendment_rejected j x).

Definition activate_amendment (x : Address) (j : Z) : M unit :=
  require_auth x ;;;
  m <- get_amendment j ;;
  reject_if (negb (bool_decide (am_status m = Approved))) RequiresApproval ;;;
  a <- get_agreement (am_agreement_id m) ;;
  reject_if (negb (bool_decide (status a = Active))) MustBeActive ;;;
  reject_if (not_participant x a) Unauthorized ;;;
  t <- now ;;
  save (set_agreement (amended (changes m) t a)) ;;;
  save (set_amendment (in_force t m)) ;;;
  publish (amendment_activated j (id a) t).

Definition get_amendment_info (j : Z) : M Amendment := get_amendment j.

(** ** Calls *)

Inductive Call :=
| CInit (x : Address)
| CBlock (x y : Address) (why : option BytesN32)
| CUnblock (x y : Address)
| CCreate (t : Terms)
| CAccept (x : Address) (i : Z) (h : BytesN32) (expected : Z)
| CCancel (x : Address) (i : Z)
| CComplete (x : Address) (i : Z)
| CPropose (x : Address) (i : Z) (c : Changes) (impact : BytesN32)
| CApprove (x : Address) (j : Z)
| CReject (x : Address) (j : Z)
| CActivate (x : Address) (j : Z).

Definition exec (c : Call) : M unit :=
  match c with
  | CInit x => init x
  | CBlock x y why => block_user x y why
  | CUnblock x y => unblock_user x y
  | CCreate t => ignore (create_agreement t)
  | CAccept x i h n => accept_agreement x i h n
  | CCancel x i => cancel_agreement x i
  | CComplete x i => complete_agreement x i
  | CPropose x i c h => ignore (propose_amendment x i c h)
  | CApprove x j => approve_amendment x j
  | CReject x j => reject_amendment x j
  | CActivate x j => activate_amendment x j
  end.
End Contract.

(** The declared width of the timestamp. *)
Definition valid (e : Env) (_ : Call) : Prop := 0 ≤ timestamp e ≤ u64_max.
