(* ===== verification/AgreementsTheorems.v ===== *)
(** * Mentorship agreements: effects, invariant and properties

    An agreement in force has been accepted by both parties, once each and with fresh nonces; its terms
    change only by an amendment both have approved; the composed storage keys do not collide. *)
From S2P Require Import Prelude Machine Host Agreements.

Definition is_party (a : Agreement) (x : Address) : Prop := x = mentor a ∨ x = mentee a.
Definition terms_good (start finish cadence price : Z) : Prop := start < finish ∧ cadence ≠ 0 ∧ 0 ≤ price.

Lemma participant x a : not_participant x a = false → is_party a x.
Proof. unfold not_participant. intros Hp. bool_prop. destruct Hp as [H|H]; bool_prop; [by left|by right]. Qed.

(** The agreement after the acceptance of [x]: in force if both have accepted. *)
Definition after_acceptance (t : Z) (st : Store) (a : Agreement) : Store :=
  if accepted_in st (id a) (mentor a) && accepted_in st (id a) (mentee a) && bool_decide (status a = Pending)
  then set_agreement (with_status Active t a) st else st.

Inductive effect (e : Env) (st : Store) : Call → Store → Prop :=
| E_init x : is_initialized st = false → effect e st (CInit x) (set_initialized (set_admin x st))
| E_block x y why : authorized e x = true → x ≠ y → blocks st !! (x, y) = None → effect e st (CBlock x y why) (set_block (mkBlock x y (timestamp e) why) st)
| E_unblock x y : authorized e x = true → x ≠ y → is_Some (blocks st !! (x, y)) → effect e st (CUnblock x y) (remove_block x y st)
| E_create t :
    authorized e (t_mentor t) = true → authorized e (t_mentee t) = true → t_mentor t ≠ t_mentee t → matching_allowed st (t_mentor t) (t_mentee t) = Allowed →
    terms_good (t_start_time t) (t_end_time t) (t_cadence_seconds t) (t_price_per_session t) → next_agreement_id st + 1 ≤ u64_max →
    effect e st (CCreate t) (set_agreement (agreement_of (next_agreement_id st) (timestamp e) t) (put_next_agreement (next_agreement_id st + 1) st))
| E_accept x i h n a :
    authorized e x = true → agreements st !! i = Some a → (status a = Pending ∨ status a = Active) → is_party a x → acceptances st !! (i, x) = None →
    n = nonce_of x st + 1 → n ≤ u64_max → id a = i →
    effect e st (CAccept x i h n) (after_acceptance (timestamp e) (set_acceptance (mkAcceptance x i h (terms_version a) (timestamp e) n) (put_nonce x n st)) a)
| E_cancel x i a :
    authorized e x = true → agreements st !! i = Some a → (status a = Active ∨ status a = Pending) → is_party a x →
    effect e st (CCancel x i) (set_agreement (with_status Cancelled (timestamp e) a) st)
| E_complete x i a :
    authorized e x = true → agreements st !! i = Some a → status a = Active → is_party a x →
    effect e st (CComplete x i) (set_agreement (with_status Completed (timestamp e) a) st)
| E_propose x i c h a m :
    authorized e x = true → agreements st !! i = Some a → status a = Active → is_party a x → has_changes c = true →
    terms_good (default (start_time a) (new_start_time c)) (default (end_time a) (new_end_time c)) (default 1 (new_cadence c)) (default 0 (new_price c)) →
    next_amendment_id st + 1 ≤ u64_max →
    m = mkAmendment (next_amendment_id st) i x c h (timestamp e) Proposed (bool_decide (x = mentor a)) (negb (bool_decide (x = mentor a))) None →
    effect e st (CPropose x i c h) (set_amendment m (put_next_amendment (next_amendment_id st + 1) st))
| E_approve x j m a :
    authorized e x = true → amendments st !! j = Some m → am_status m = Proposed → agreements st !! am_agreement_id m = Some a → status a = Active →
    is_party a x → (x = mentor a → mentor_approved m = false) → (x = mentee a → mentee_approved m = false) →
    effect e st (CApprove x j) (set_amendment (approved_by (bool_decide (x = mentor a)) m) st)
| E_reject x j m a :
    authorized e x = true → amendments st !! j = Some m → am_status m = Proposed → agreements st !! am_agreement_id m = Some a → is_party a x →
    effect e st (CReject x j) (set_amendment (refused m) st)
| E_activate x j m a :
    authorized e x = true → amendments st !! j = Some m → am_status m = Approved → agreements st !! am_agreement_id m = Some a → status a = Active → is_party a x →
    effect e st (CActivate x j) (set_amendment (in_force (timestamp e) m) (set_agreement (amended (changes m) (timestamp e) a) st)).

(** Agreements are stored under their numbers. *)
Definition numbered (st : Store) : Prop := ∀ i a, agreements st !! i = Some a → id a = i.

Section Effects.
Context {L : Type}.
Abbreviation W := (World L Store Event).
Abbreviation M := (Contract L Store Event MentorshipError).
Implicit Types (w : W).

Lemma agreements_effect c e w w' u :
  numbered (store w) → (exec c : M unit) e w = Done w' u → ledger w' = ledger w ∧ effect e (store w) c (store w').
Proof.
  intros Hnum Hrun. destruct c as [x|x y why|x y|t|x i h n|x i|x i|x i c h|x j|x j|x j]; simpl in Hrun; try (apply ignore_done in Hrun as [? Hrun]).
  - unfold init in Hrun. run_inv. split; [done|]. by apply E_init.
  - unfold block_user, get_block in Hrun. run_inv. bool_prop. split; [done|]. apply E_block; try done. by apply eq_None_not_Some.
  - unfold unblock_user, get_block in Hrun. run_inv. bool_prop. split; [done|]. by apply E_unblock.
  - unfold create_agreement, check_matching_allowed, increment_agreement_id in Hrun. run_inv. bool_prop. checked_prop. split; [done|].
    apply E_create; try done; unfold terms_good; lia.
  - unfold accept_agreement, get_agreement, get_acceptance, increment_user_nonce, get_user_nonce in Hrun. run_inv.
    match goal with H : agreements _ !! _ = Some ?z, H' : not_participant _ _ = false |- _ => rename z into a, H into Ha; apply participant in H' end.
    bool_prop. checked_prop.
    match goal with H : ¬ is_Some (acceptances _ !! _) |- _ => apply eq_None_not_Some in H as Hnew end.
    assert (status a = Pending ∨ status a = Active) as Hs. { match goal with H : bool_decide (status a = _) = true ∨ _ |- _ => destruct H; bool_prop; tauto end. }
    subst n. set (st1 := set_acceptance (mkAcceptance x i h (terms_version a) (timestamp e) (nonce_of x (store w) + 1)) (put_nonce x (nonce_of x (store w) + 1) (store w))).
    assert (ledger w' = ledger w ∧ store w' = after_acceptance (timestamp e) st1 a) as [Hl ->].
    { unfold after_acceptance. rewrite (Hnum i a Ha). match type of Hrun with (if ?b then _ else _) _ _ = _ => change b with
        (accepted_in st1 i (mentor a) && accepted_in st1 i (mentee a) && bool_decide (status a = Pending)) in Hrun end.
      destruct (_ && _); run_inv; done. }
    split; [done|]. apply E_accept; try done; [lia|by apply Hnum].
  - unfold cancel_agreement, get_agreement in Hrun. run_inv.
    match goal with H : agreements _ !! _ = Some ?z, H' : not_participant _ _ = false |- _ => rename z into a; apply participant in H' end.
    bool_prop. split; [done|]. apply E_cancel; try done. match goal with H : bool_decide (status a = _) = true ∨ _ |- _ => destruct H; bool_prop; tauto end.
  - unfold complete_agreement, get_agreement in Hrun. run_inv. match goal with H' : not_participant _ _ = false |- _ => apply participant in H' end.
    bool_prop. split; [done|]. by apply E_complete.
  - unfold propose_amendment, get_agreement, increment_amendment_id in Hrun. run_inv. match goal with H' : not_participant _ _ = false |- _ => apply participant in H' end.
    bool_prop. checked_prop. split; [done|]. eapply E_propose; try done; [|lia].
    unfold terms_good. destruct (new_cadence c), (new_price c); simpl in *; bool_prop; lia.
  - unfold approve_amendment, get_agreement, get_amendment in Hrun. run_inv. match goal with H' : not_participant _ _ = false |- _ => apply participant in H' end.
    bool_prop. split; [done|]. eapply E_approve; try done; intros Hx; [rewrite (bool_decide_eq_true_2 _ Hx) in *|rewrite (bool_decide_eq_true_2 _ Hx) in *];
      simpl in *; naive_solver.
  - unfold reject_amendment, get_agreement, get_amendment in Hrun. run_inv. match goal with H' : not_participant _ _ = false |- _ => apply participant in H' end.
    bool_prop. split; [done|]. by eapply E_reject.
  - unfold activate_amendment, get_agreement, get_amendment in Hrun. run_inv. match goal with H' : not_participant _ _ = false |- _ => apply participant in H' end.
    bool_prop. split; [done|]. by eapply E_activate.
Qed.
End Effects.

(** ** The invariant *)

Definition both_accepted (st : Store) (a : Agreement) : bool := accepted_in st (id a) (mentor a) && accepted_in st (id a) (mentee a).
Definition in_effect (s : AgreementStatus) : bool := match s with Active | Completed | Suspended => true | _ => false end.
Definition agreement_ok (st : Store) (i : Z) (a : Agreement) : Prop :=
  id a = i ∧ 1 ≤ i < next_agreement_id st ∧ mentor a ≠ mentee a ∧ cadence_seconds a ≠ 0 ∧ 0 ≤ price_per_session a.
(** An agreement is pending until both parties have accepted it. *)
Definition status_ok (st : Store) (a : Agreement) : Prop :=
  (in_effect (status a) = true → both_accepted st a = true) ∧ (status a = Pending → both_accepted st a = false).
Definition acceptance_ok (st : Store) (k : Z * Address) (c : Acceptance) : Prop :=
  k = (ac_agreement_id c, actor c) ∧ (∃ a, agreements st !! ac_agreement_id c = Some a ∧ is_party a (actor c)) ∧
  1 ≤ nonce c ≤ nonce_of (actor c) st.
Definition approvals_ok (a : Agreement) (m : Amendment) : Prop :=
  match am_status m with
  | Proposed => mentor_approved m = bool_decide (proposer m = mentor a) ∧ mentee_approved m = negb (bool_decide (proposer m = mentor a))
  | Approved | Activated => mentor_approved m = true ∧ mentee_approved m = true
  | Rejected => True
  | Expired => False
  end.
Definition amendment_ok (st : Store) (j : Z) (m : Amendment) : Prop :=
  am_id m = j ∧ 1 ≤ j < next_amendment_id st ∧ default 1 (new_cadence (changes m)) ≠ 0 ∧ 0 ≤ default 0 (new_price (changes m)) ∧
  ∃ a, agreements st !! am_agreement_id m = Some a ∧ is_party a (proposer m) ∧ approvals_ok a m.
Definition of_actor (x : Address) (_ : Z * Address) (c : Acceptance) : Z := if decide (actor c = x) then 1 else 0.

Record base (st : Store) : Prop := {
  inv_next : 1 ≤ next_agreement_id st ∧ 1 ≤ next_amendment_id st;
  inv_agreements i a : agreements st !! i = Some a → agreement_ok st i a;
  inv_acceptances k c : acceptances st !! k = Some c → acceptance_ok st k c;
  inv_nonces x : nonce_of x st = map_sum (of_actor x) (acceptances st);
  inv_amendments j m : amendments st !! j = Some m → amendment_ok st j m
}.
Definition inv (st : Store) : Prop := base st ∧ ∀ i a, agreements st !! i = Some a → status_ok st a.

Definition empty_store : Store := mkStore None false 1 1 ∅ ∅ ∅ ∅ ∅.

Lemma agreements_empty_inv : inv empty_store.
Proof. split; [by split|done]. Qed.

Lemma inv_numbered st : inv st → numbered st.
Proof. intros [Hi _] i a Ha. by destruct (inv_agreements _ Hi i a Ha). Qed.

(** The same agreements, acceptances, nonces and amendments. *)
Lemma inv_same st st' :
  inv st → next_agreement_id st' = next_agreement_id st → next_amendment_id st' = next_amendment_id st → agreements st' = agreements st →
  acceptances st' = acceptances st → nonces st' = nonces st → amendments st' = amendments st → inv st'.
Proof.
  intros [[I1 I2 I3 I4 I5] I6] E1 E2 E3 E4 E5 E6.
  split; [split|]; unfold agreement_ok, acceptance_ok, amendment_ok, status_ok, both_accepted, accepted_in, nonce_of in *;
    rewrite ?E1, ?E2, ?E3, ?E4, ?E5, ?E6; done.
Qed.

(** An agreement is replaced by one with the same parties. *)
Lemma agreement_put_base st a b :
  base st → agreements st !! id a = Some a → id b = id a → mentor b = mentor a → mentee b = mentee a → cadence_seconds b ≠ 0 → 0 ≤ price_per_session b →
  base (set_agreement b st).
Proof.
  intros [I1 I2 I3 I4 I5] Ha Hid Hm Hn Hc Hp. pose proof (I2 _ _ Ha) as (H1 & H2 & H3 & H4 & H5).
  assert (∀ i x, agreements st !! i = Some x → ∃ y, agreements (set_agreement b st) !! i = Some y ∧ mentor y = mentor x ∧ mentee y = mentee x) as Hkeep.
  { intros i x Hx. simpl. rewrite Hid, lookup_insert. case_decide as Hi; [|by exists x]. subst i. rewrite Ha in Hx. injection Hx as <-. by exists b. }
  split; try done.
  - intros i x. simpl. rewrite Hid, lookup_insert. case_decide as Hi; [|apply I2]. intros [= <-]. unfold agreement_ok.
    rewrite Hm, Hn. split_and!; try done; [congruence|simpl; lia..].
  - intros k c Hk. destruct (I3 k c Hk) as (E1 & (x & Hx & Hpar) & E3). split; [done|]. split; [|done].
    destruct (Hkeep _ _ Hx) as (y & Hy & Hym & Hyn). exists y. split; [done|]. unfold is_party. by rewrite Hym, Hyn.
  - intros j m Hm'. destruct (I5 j m Hm') as (E1 & E2 & E3 & E4 & x & Hx & Hpar & Hap). repeat (split; [done|]).
    destruct (Hkeep _ _ Hx) as (y & Hy & Hym & Hyn). exists y. split; [done|]. unfold is_party, approvals_ok in *. rewrite Hym, Hyn. done.
Qed.
Lemma agreement_put_inv st a b :
  inv st → agreements st !! id a = Some a → id b = id a → mentor b = mentor a → mentee b = mentee a → cadence_seconds b ≠ 0 → 0 ≤ price_per_session b →
  (in_effect (status b) = true → in_effect (status a) = true) → status b ≠ Pending → inv (set_agreement b st).
Proof.
  intros [Hb Hs] Ha Hid Hm Hn Hc Hp Heff Hpend. split; [by eapply agreement_put_base|].
  intros i x. simpl. rewrite Hid, lookup_insert. case_decide as Hi; [|apply Hs]. intros [= <-]. unfold status_ok, both_accepted.
  rewrite Hid, Hm, Hn. split; [|done]. intros Hb'. apply (Hs _ a Ha). auto.
Qed.

(** An amendment is added or replaced. *)
Lemma amendment_put_inv st m : inv st → amendment_ok st (am_id m) m → inv (set_amendment m st).
Proof.
  intros [[I1 I2 I3 I4 I5] Hs] Hok. split; [split|]; try done. intros j x. simpl. rewrite lookup_insert. case_decide as Hj; [|apply I5]. intros [= <-]. by subst j.
Qed.

Definition with_acceptance (x : Address) (i : Z) (h : BytesN32) (v t n : Z) (st : Store) : Store :=
  set_acceptance (mkAcceptance x i h v t n) (put_nonce x n st).

Lemma acceptance_base st x i h v t a :
  base st → agreements st !! i = Some a → is_party a x → acceptances st !! (i, x) = None → base (with_acceptance x i h v t (nonce_of x st + 1) st).
Proof.
  intros [I1 I2 I3 I4 I5] Ha Hx Hnew.
  assert (∀ y, nonce_of y (with_acceptance x i h v t (nonce_of x st + 1) st) = nonce_of y st + (if decide (x = y) then 1 else 0)) as Hnonce.
  { intros y. unfold nonce_of. simpl. rewrite lookup_insert. case_decide as Hy; [subst y; done|lia]. }
  assert (∀ y, 0 ≤ nonce_of y st) as Hnn.
  { intros y. rewrite I4. apply map_sum_nonneg. intros k c _. unfold of_actor. case_decide; lia. }
  split; try done.
  - intros k c. simpl. rewrite lookup_insert. case_decide as Hk.
    + intros [= <-]. split; [done|]. split; [by exists a|]. rewrite Hnonce. simpl. rewrite decide_True by done. specialize (Hnn x). lia.
    + intros Hc. destruct (I3 k c Hc) as (E1 & E2 & E3). split; [done|]. split; [done|]. rewrite Hnonce. case_decide; lia.
  - intros y. rewrite Hnonce, I4. simpl. rewrite map_sum_insert_new by done. unfold of_actor at 2. simpl. lia.
Qed.

Lemma acceptance_accepted st x i h v t n j y :
  accepted_in (with_acceptance x i h v t n st) j y = accepted_in st j y || bool_decide (j = i ∧ y = x).
Proof.
  unfold accepted_in. simpl. rewrite lookup_insert. case_decide as Hk.
  - injection Hk as <- <-. rewrite (bool_decide_eq_true_2 (i = i ∧ x = x)) by done. by rewrite orb_true_r.
  - rewrite (bool_decide_eq_false_2 (j = i ∧ y = x)) by naive_solver. by rewrite orb_false_r.
Qed.

Lemma accept_inv st x i h t a n :
  inv st → agreements st !! i = Some a → is_party a x → acceptances st !! (i, x) = None → n = nonce_of x st + 1 →
  (status a = Pending ∨ status a = Active) →
  inv (after_acceptance t (set_acceptance (mkAcceptance x i h (terms_version a) t n) (put_nonce x n st)) a).
Proof.
  intros [Hb Hst] Ha Hx Hnew -> Hs. pose proof (acceptance_base st x i h (terms_version a) t a Hb Ha Hx Hnew) as Hb1.
  fold (with_acceptance x i h (terms_version a) t (nonce_of x st + 1) st). set (st1 := with_acceptance _ _ _ _ _ _ _) in *.
  destruct (inv_agreements _ Hb _ _ Ha) as (H1 & H2 & H3 & H4 & H5).
  assert (∀ j b, agreements st !! j = Some b → j ≠ i → status_ok st1 b) as Hother.
  { intros j b Hjb Hj. destruct (Hst j b Hjb) as [G1 G2]. destruct (inv_agreements _ Hb _ _ Hjb) as (Hid & _).
    unfold status_ok, both_accepted. subst st1. rewrite !acceptance_accepted, Hid, !(bool_decide_eq_false_2 (j = i ∧ _)) by naive_solver.
    rewrite !orb_false_r, <-Hid. by split. }
  unfold after_acceptance. destruct (_ && _) eqn:Hg.
  - apply andb_prop in Hg as [Hboth Hp]. split; [by apply (agreement_put_base st1 a); try rewrite H1|].
    clear Hp. intros j b. simpl. rewrite lookup_insert, H1. case_decide as Hj; [|intros Hjb; apply (Hother j b); [done|congruence]].
    intros [= <-]. split; [|done]. intros _. exact Hboth.
  - split; [done|]. intros j b Hjb. destruct (decide (j = i)) as [->|Hj]; [|by apply (Hother j b)].
    change (agreements st1) with (agreements st) in Hjb. rewrite Ha in Hjb. injection Hjb as <-. destruct (Hst i a Ha) as [G1 G2]. split.
    + intros He. specialize (G1 He). unfold both_accepted in *. subst st1. rewrite !acceptance_accepted. by apply andb_prop in G1 as [-> ->].
    + intros Hpend. rewrite Hpend, (bool_decide_eq_true_2 (Pending = Pending)), andb_true_r in Hg by done. exact Hg.
Qed.

Lemma agreements_effect_inv e st c st' : inv st → effect e st c st' → inv st'.
Proof.
  intros Hi Heff. pose proof Hi as [[I1 I2 I3 I4 I5] I6].
  destruct Heff as [x Hin|x y why Ha Hne Hb|x y Ha Hne Hb|t Ha1 Ha2 Hne Hmatch [Ht1 [Ht2 Ht3]] Hmax|x i h n a Ha Hag Hs Hx Hnew Hn Hmax Hid|x i a Ha Hag Hs Hx|x i a Ha Hag Hs Hx
    |x i c h a m Ha Hag Hs Hx Hch [Ht1 [Ht2 Ht3]] Hmax ->|x j m a Ha Hm Hms Hag Hs Hx Hap1 Hap2|x j m a Ha Hm Hms Hag Hx|x j m a Ha Hm Hms Hag Hs Hx].
  - by apply (inv_same st).
  - by apply (inv_same st).
  - by apply (inv_same st).
  - assert (agreements st !! next_agreement_id st = None) as Hnew.
    { apply eq_None_not_Some. intros [b Hb]. destruct (I2 _ _ Hb) as (_ & ? & _). lia. }
    assert (∀ j y, accepted_in st j y = true → j ≠ next_agreement_id st) as Hacc.
    { intros j y Hj%bool_decide_eq_true. destruct Hj as [c Hc]. destruct (I3 _ _ Hc) as (Hk & (b & Hb & _) & _). injection Hk as -> ->. intros Heq. congruence. }
    split; [split|]; simpl; try done; try lia.
    + intros j b. rewrite lookup_insert. case_decide as Hj.
      * intros [= <-]. subst j. unfold agreement_ok. simpl. split_and!; done || lia.
      * intros Hb. destruct (I2 j b Hb) as (G1 & G2 & G3 & G4 & G5). unfold agreement_ok. simpl. split_and!; done || lia.
    + intros k c Hk. destruct (I3 k c Hk) as (E1 & (b & Hb & Hp) & E3). split; [done|]. split; [|done]. exists b. split; [|done]. simpl.
      rewrite lookup_insert_ne; [done|]. congruence.
    + intros j m Hm. destruct (I5 j m Hm) as (E1 & E2 & E3 & E4 & b & Hb & Hp). unfold amendment_ok. repeat (split; [done|]). exists b. split; [|done]. simpl.
      rewrite lookup_insert_ne; [done|]. congruence.
    + intros j b. rewrite lookup_insert. case_decide as Hj; [|apply (I6 j b)]. intros [= <-]. split; [done|]. intros _. unfold both_accepted. simpl.
      change (accepted_in (set_agreement ?u (put_next_agreement ?v ?s))) with (accepted_in s).
      destruct (accepted_in st (next_agreement_id st) (t_mentor t)) eqn:Hc; [|done]. by apply Hacc in Hc.
  - by apply accept_inv.
  - destruct (I2 _ _ Hag) as (G1 & G2 & G3 & G4 & G5). apply (agreement_put_inv st a); try done; by rewrite G1.
  - destruct (I2 _ _ Hag) as (G1 & G2 & G3 & G4 & G5). apply (agreement_put_inv st a); try done; [by rewrite G1|]. simpl. by rewrite Hs.
  - apply amendment_put_inv.
    + split; [split|]; try done; [simpl; lia|]. intros j m Hm. destruct (I5 j m Hm) as (E1 & E2 & E3 & E4 & E5). unfold amendment_ok. simpl. split_and!; done || lia.
    + unfold amendment_ok. simpl. split_and!; try done; try lia. exists a. done.
  - destruct (I5 j m Hm) as (E1 & E2 & E3 & E4 & b & Hb & Hp & Hap). simplify_eq.
    unfold approvals_ok in Hap. rewrite Hms in Hap. destruct Hap as [Hap3 Hap4]. apply amendment_put_inv; [done|]. unfold amendment_ok. simpl. split_and!; try (done || lia).
    exists a. split; [done|]. split; [done|]. unfold approvals_ok, approved_by. simpl.
    destruct (I2 _ _ Hag) as (_ & _ & Hne & _).
    destruct Hx as [-> | ->].
    + rewrite (bool_decide_eq_true_2 (mentor a = mentor a)) by done. specialize (Hap1 eq_refl). rewrite Hap3 in Hap1. apply bool_decide_eq_false in Hap1.
      rewrite Hap4, bool_decide_eq_false_2 by done. done.
    + rewrite (bool_decide_eq_false_2 (mentee a = mentor a)) by done. specialize (Hap2 eq_refl). rewrite Hap4 in Hap2. apply negb_false_iff in Hap2.
      rewrite Hap3, Hap2. done.
  - destruct (I5 j m Hm) as (E1 & E2 & E3 & E4 & b & Hb & Hp & Hap). subst j. apply amendment_put_inv; [done|]. unfold amendment_ok. simpl. split_and!; try (done || lia). by exists b.
  - destruct (I5 j m Hm) as (E1 & E2 & E3 & E4 & b & Hb & Hp & Hap). rewrite Hag in Hb. injection Hb as <-. destruct (I2 _ _ Hag) as (G1 & G2 & G3 & G4 & G5).
    unfold approvals_ok in Hap. rewrite Hms in Hap. apply amendment_put_inv.
    + apply (agreement_put_inv st a); try done; [by rewrite G1| | |simpl; by rewrite Hs].
      * simpl. by destruct (new_cadence (changes m)).
      * simpl. by destruct (new_price (changes m)).
    + unfold amendment_ok. simpl. split_and!; try (done || lia). exists (amended (changes m) (timestamp e) a). rewrite G1, lookup_insert_eq. done.
Qed.

(** ** The properties *)

Definition deployed {L} (w : World L Store Event) : Prop := store w = empty_store.
Definition accepts (x : Address) (_ : Env) (c : Call) : bool := match c with CAccept y _ _ _ => bool_decide (y = x) | _ => false end.
Definition activates (j : Z) (_ : Env) (c : Call) : bool := match c with CActivate _ k => bool_decide (k = j) | _ => false end.
Definition is_activation (c : Call) : bool := match c with CActivate _ _ => true | _ => false end.
Definition is_activated (st : Store) (j : Z) : bool := from_option (λ m, bool_decide (am_status m = Activated)) false (amendments st !! j).

(** What the parties agreed on. *)
Definition terms_of (a : Agreement) : Address * Address * (BytesN32 * BytesN32 * BytesN32 * BytesN32 * BytesN32) * (Z * Z * Z * Z) * Address * Z :=
  (mentor a, mentee a, (program_hash a, scope_hash a, cancellation_policy_hash a, conduct_hash a, evidence_hash a),
    (start_time a, end_time a, cadence_seconds a, price_per_session a), token a, terms_version a).

(** What one call does to the terms, to the amendments and to the nonces. *)
Lemma effect_terms e c st st' i a :
  inv st → effect e st c st' → agreements st !! i = Some a →
  ∃ b, agreements st' !! i = Some b ∧
    (terms_of b = terms_of a ∨ ∃ x j m, c = CActivate x j ∧ amendments st !! j = Some m ∧ am_agreement_id m = i ∧
      mentor_approved m = true ∧ mentee_approved m = true ∧ b = amended (changes m) (timestamp e) a).
Proof.
  intros [[I1 I2 I3 I4 I5] I6] Heff Ha.
  assert (∀ b c0 t st1, agreements st1 = agreements st → agreements st !! id b = Some b →
    ∃ d, agreements (set_agreement (with_status c0 t b) st1) !! i = Some d ∧ terms_of d = terms_of a) as Hput.
  { intros b c0 t st1 Hst1 Hb. simpl. rewrite lookup_insert, Hst1. case_decide as Hi; [|by exists a]. subst i. rewrite Ha in Hb. injection Hb as <-. by eexists. }
  destruct Heff as [x Hin|x y why Hau Hne Hb|x y Hau Hne Hb|t Ha1 Ha2 Hne Hmatch Ht Hmax|x k h n b Hau Hag Hs Hx Hnew Hn Hmax Hid|x k b Hau Hag Hs Hx|x k b Hau Hag Hs Hx
    |x k c h b m Hau Hag Hs Hx Hch Ht Hmax ->|x j m b Hau Hm Hms Hag Hs Hx Hap1 Hap2|x j m b Hau Hm Hms Hag Hx|x j m b Hau Hm Hms Hag Hs Hx];
    try (exists a; split; [done|by left]).
  - exists a. split; [|by left]. simpl. rewrite lookup_insert_ne; [done|]. intros <-. destruct (I2 _ _ Ha) as (_ & ? & _). lia.
  - unfold after_acceptance. destruct (_ && _); [|exists a; split; [done|by left]].
    destruct (Hput b Active (timestamp e) (set_acceptance (mkAcceptance x k h (terms_version b) (timestamp e) n) (put_nonce x n st))) as (d & ? & ?); [done|by rewrite Hid|].
    exists d. split; [done|by left].
  - destruct (I2 _ _ Hag) as (G1 & _). destruct (Hput b Cancelled (timestamp e) st) as (d & ? & ?); [done|by rewrite G1|]. exists d. split; [done|by left].
  - destruct (I2 _ _ Hag) as (G1 & _). destruct (Hput b Completed (timestamp e) st) as (d & ? & ?); [done|by rewrite G1|]. exists d. split; [done|by left].
  - destruct (I2 _ _ Hag) as (G1 & _). simpl. rewrite G1, lookup_insert. case_decide as Hi; [|exists a; split; [done|by left]].
    rewrite Hi, Ha in Hag. injection Hag as <-. eexists. split; [done|]. right. exists x, j, m.
    destruct (I5 _ _ Hm) as (_ & _ & _ & _ & d & _ & _ & Hap). unfold approvals_ok in Hap. rewrite Hms in Hap. destruct Hap. done.
Qed.

Lemma effect_activates e c st st' j :
  inv st → effect e st c st' → is_Some (amendments st !! j) →
  is_Some (amendments st' !! j) ∧
  (if is_activated st' j then 1 else 0) = (if is_activated st j then 1 else 0) + (if activates j e c then 1 else 0).
Proof.
  intros [[I1 I2 I3 I4 I5] I6] Heff [m0 Hm0]. unfold is_activated.
  assert (∀ x st1, amendments st1 = amendments st → amendments st !! am_id x = Some x → ∀ x', am_id x' = am_id x →
    is_Some (amendments (set_amendment x' st1) !! j) ∧
    (if from_option (λ m, bool_decide (am_status m = Activated)) false (amendments (set_amendment x' st1) !! j) then 1 else 0) =
    (if decide (am_id x = j) then (if bool_decide (am_status x' = Activated) then 1 else 0)
     else (if from_option (λ m, bool_decide (am_status m = Activated)) false (amendments st !! j) then 1 else 0))) as Hput.
  { intros x st1 Hst1 Hx x' Hid. simpl. rewrite Hid, Hst1, lookup_insert. case_decide; [split; [by eexists|done]|]. split; [by eexists|done]. }
  destruct Heff as [x Hin|x y why Hau Hne Hb|x y Hau Hne Hb|t Ha1 Ha2 Hne Hmatch Ht Hmax|x k h n b Hau Hag Hs Hx Hnew Hn Hmax Hid|x k b Hau Hag Hs Hx|x k b Hau Hag Hs Hx
    |x k c h b m Hau Hag Hs Hx Hch Ht Hmax ->|x k m b Hau Hm Hms Hag Hs Hx Hap1 Hap2|x k m b Hau Hm Hms Hag Hx|x k m b Hau Hm Hms Hag Hs Hx];
    try (simpl; split; [by eexists|lia]).
  - unfold after_acceptance. destruct (_ && _); simpl; (split; [by eexists|lia]).
  - simpl. rewrite lookup_insert_ne; [split; [by eexists|lia]|]. intros <-. destruct (I5 _ _ Hm0) as (_ & ? & _). lia.
  - destruct (I5 _ _ Hm) as (G1 & _). pose proof (Hput m st eq_refl) as HP. rewrite G1 in HP. destruct (HP Hm (approved_by (bool_decide (x = mentor b)) m) G1) as [H1 H2]. split; [exact H1|].
    rewrite H2. cbn [activates]. destruct (decide (k = j)) as [->|]; [|lia]. rewrite Hm. simpl. rewrite Hms. unfold approved_by. destruct (bool_decide (x = mentor b)); simpl; repeat case_match; done.
  - destruct (I5 _ _ Hm) as (G1 & _). pose proof (Hput m st eq_refl) as HP. rewrite G1 in HP. destruct (HP Hm (refused m) G1) as [H1 H2]. split; [exact H1|].
    rewrite H2. cbn [activates]. destruct (decide (k = j)) as [->|]; [|lia]. rewrite Hm. simpl. by rewrite Hms.
  - destruct (I5 _ _ Hm) as (G1 & _). pose proof (Hput m (set_agreement (amended (changes m) (timestamp e) b) st) eq_refl) as HP. rewrite G1 in HP. destruct (HP Hm (in_force (timestamp e) m) G1) as [H1 H2].
    split; [exact H1|]. rewrite H2. cbn [activates]. destruct (decide (k = j)) as [->|].
    + rewrite Hm, (bool_decide_eq_true_2 (j = j)) by done. simpl. by rewrite Hms.
    + rewrite (bool_decide_eq_false_2 (k = j)) by done. lia.
Qed.

Lemma effect_nonces e c st st' x :
  effect e st c st' → nonce_of x st' = nonce_of x st + (if accepts x e c then 1 else 0).
Proof.
  intros Heff. destruct Heff as [y Hin|y z why Hau Hne Hb|y z Hau Hne Hb|t Ha1 Ha2 Hne Hmatch Ht Hmax|y k h n b Hau Hag Hs Hx Hnew Hn Hmax Hid|y k b Hau Hag Hs Hx|y k b Hau Hag Hs Hx
    |y k c h b m Hau Hag Hs Hx Hch Ht Hmax ->|y k m b Hau Hm Hms Hag Hs Hx Hap1 Hap2|y k m b Hau Hm Hms Hag Hx|y k m b Hau Hm Hms Hag Hs Hx];
    try (unfold nonce_of; simpl; lia).
  transitivity (nonce_of x (put_nonce y n st)); [unfold after_acceptance; by destruct (_ && _)|].
  unfold nonce_of at 1. simpl. rewrite lookup_insert. case_decide as Hyx.
  - subst y. rewrite bool_decide_eq_true_2 by done. done.
  - rewrite bool_decide_eq_false_2 by done. unfold nonce_of. lia.
Qed.

(** Addresses as strings have one length and differ. *)
Definition address_strings (address : Address → list Z) (n : nat) : Prop :=
  (∀ x, length (address x) = n) ∧ ∀ x y, address x = address y → x = y.
Definition key_valid (k : DataKey) : Prop :=
  match k with KAgreement i | KAmendment i | KAcceptanceRecord i _ => 0 ≤ i ≤ u64_max | _ => True end.

(** The composed keys of the storage do not collide: for addresses that are strings of one length, two
    keys with the same bytes are the same key, so each record has a place of its own. *)
Theorem to_key_injective address n k k' :
  address_strings address n → key_valid k → key_valid k' → to_key address k = to_key address k' → k = k'.
Proof.
  intros [Hlen Hinj] Hk Hk' Heq.
  assert (∀ i i', 0 ≤ i ≤ u64_max → 0 ≤ i' ≤ u64_max → be_bytes 8 i = be_bytes 8 i' → i = i') as Hbe.
  { intros i i' Hi Hi' H. apply (be_bytes_inj 8) in H; [done|range_lia..]. }
  assert (∀ i, length (be_bytes 8 i) = 8%nat) as Hlb by (intros; apply length_be_bytes).
  unfold to_key in Heq. revert Heq Hbe Hlb. generalize (be_bytes 8) as be. intros be Heq Hbe Hlb.
  destruct k as [| | |i|i x|j|x y|x|], k' as [| | |i'|i' x'|j'|x' y'|x'|]; simpl in Heq; try done; simplify_eq; try done; simpl in Hk, Hk'.
  - f_equal. auto.
  - apply app_inj_1 in Heq as [H1 H2]; [|by rewrite !Hlb]. f_equal; auto.
  - f_equal. auto.
  - apply app_inj_1 in Heq as [H1 H2]; [|by rewrite !Hlen]. f_equal; auto.
  - f_equal. auto.
Qed.

Section Theorems.
Context {L : Type}.
Abbreviation W := (World L Store Event).
Abbreviation exec := (exec (L := L)).
Abbreviation M := (Contract L Store Event MentorshipError).
Abbreviation Reach this := (reachable exec valid this (λ _ _, True) deployed).
Implicit Types (w : W).

Lemma agreements_step e c w w' u : inv (store w) → exec c e w = Done w' u → inv (store w') ∧ effect e (store w) c (store w').
Proof.
  intros Hi Hrun. destruct (agreements_effect c e w w' u (inv_numbered _ Hi) Hrun) as [_ Heff]. split; [by eapply agreements_effect_inv|done].
Qed.

Lemma agreements_reachable this w : Reach this w → inv (store w).
Proof.
  apply (reachable_inv _ _ _ _ _ (λ w, inv (store w))).
  - intros w0 ->. apply agreements_empty_inv.
  - intros c e w0 w1 u _ _ Hi Hrun. by destruct (agreements_step e c w0 w1 u Hi Hrun).
  - done.
Qed.

(** C36: Nobody is bound without accepting.  In a reachable world an agreement that is active or completed has
    been accepted by its two parties, which differ, one that is pending has not; every acceptance is by
    a party of its agreement; an amendment in force, or ready to be, has been approved by both. *)
Theorem bound_by_acceptance this w :
  Reach this w →
  (∀ i a, agreements (store w) !! i = Some a → mentor a ≠ mentee a ∧ 0 ≤ price_per_session a ∧ cadence_seconds a ≠ 0 ∧
    (in_effect (status a) = true → accepted_in (store w) i (mentor a) = true ∧ accepted_in (store w) i (mentee a) = true) ∧
    (status a = Pending → accepted_in (store w) i (mentor a) && accepted_in (store w) i (mentee a) = false)) ∧
  (∀ i x c, acceptances (store w) !! (i, x) = Some c → ∃ a, agreements (store w) !! i = Some a ∧ is_party a x) ∧
  (∀ j m, amendments (store w) !! j = Some m → am_status m = Approved ∨ am_status m = Activated → mentor_approved m = true ∧ mentee_approved m = true).
Proof.
  intros [[I1 I2 I3 I4 I5] I6]%agreements_reachable. split_and!.
  - intros i a Ha. destruct (I2 i a Ha) as (H1 & H2 & H3 & H4 & H5). destruct (I6 i a Ha) as [H6 H7]. unfold both_accepted in *. rewrite H1 in *.
    split_and!; try done. intros He. apply andb_prop, H6, He.
  - intros i x c Hc. destruct (I3 _ _ Hc) as (Hk & Ha & _). by injection Hk as -> ->.
  - intros j m Hm Hs. destruct (I5 j m Hm) as (_ & _ & _ & _ & a & _ & _ & Hap). unfold approvals_ok in Hap. by destruct Hs as [Hs|Hs]; rewrite Hs in Hap.
Qed.

(** Acceptances are not replayed.  Over any calls the nonce of a user rises by exactly his acceptances
    that return, and it is the number of acceptances recorded of him; so a call that expects a nonce
    he has used already never returns. *)
Theorem nonces_never_reused this w calls x i h n e :
  Reach this w → n ≤ nonce_of x (store w) →
  let w' := run_calls exec calls w in
  nonce_of x (store w') = nonce_of x (store w) + accepted exec (accepts x) calls w ∧
  nonce_of x (store w') = map_sum (of_actor x) (acceptances (store w')) ∧
  (invoke (accept_agreement x i h n) e w').2 ≠ Returned tt.
Proof.
  intros Hi%agreements_reachable Hn w'.
  destruct (accepted_counts exec (λ w, inv (store w)) (λ w, nonce_of x (store w)) (accepts x) calls w) as [Hi' Hc]; [|done|].
  { intros k c w0 w1 u H0 _ Hrun. destruct (agreements_step k c w0 w1 u H0 Hrun). split; [done|by apply effect_nonces]. }
  fold w' in Hi', Hc. split_and!; [done|apply Hi'|]. intros Hret. apply invoke_pair, invoke_returned in Hret.
  destruct (agreements_step e (CAccept x i h n) w' _ tt Hi' Hret) as [_ Heff]. inversion Heff; subst.
  pose proof (accepted_nonneg exec (accepts x) calls w). lia.
Qed.

(** The old terms govern until an amendment is activated.  Over calls none of which is an activation the
    terms of an agreement stay as they are, whatever is proposed, approved or rejected; and over any
    calls an amendment is activated by exactly the calls that return, at most once. *)
Theorem terms_until_activation this w calls i a j :
  Reach this w → agreements (store w) !! i = Some a → is_Some (amendments (store w) !! j) →
  let w' := run_calls exec calls w in
  (Forall (λ ec : Env * Call, is_activation ec.2 = false) calls → terms_of <$> agreements (store w') !! i = Some (terms_of a)) ∧
  accepted exec (activates j) calls w = (if is_activated (store w') j then 1 else 0) - (if is_activated (store w) j then 1 else 0).
Proof.
  intros Hi%agreements_reachable Ha Hj w'. split.
  - intros Hcalls. rewrite Forall_forall in Hcalls.
    destruct (run_calls_inv exec (λ w, inv (store w) ∧ terms_of <$> agreements (store w) !! i = Some (terms_of a)) calls w) as [_ H]; [|split; [done|by rewrite Ha]|done].
    intros e c w0 w1 u [H0 H1] Hin Hrun. destruct (agreements_step e c w0 w1 u H0 Hrun) as [Hi1 Heff]. split; [done|].
    apply fmap_Some in H1 as (b & Hb & Hab). destruct (effect_terms e c _ _ i b H0 Heff Hb) as (d & Hd & [Ht|(x & k & m & -> & _)]).
    + rewrite Hd. simpl. by rewrite Ht, <-Hab.
    + by specialize (Hcalls _ Hin).
  - destruct (accepted_counts exec (λ w, inv (store w) ∧ is_Some (amendments (store w) !! j)) (λ w, if is_activated (store w) j then 1 else 0) (activates j) calls w) as [_ Hc];
      [|done|subst w'; lia].
    intros e c w0 w1 u [H0 H1] _ Hrun. destruct (agreements_step e c w0 w1 u H0 Hrun) as [Hi1 Heff].
    destruct (effect_activates e c _ _ j H0 Heff H1). done.
Qed.
End Theorems.

(** ** Concrete runs *)
Module Runs.
Definition this : Address := addr 0.
Definition mia : Address := addr 2.
Definition ned : Address := addr 3.
Abbreviation exec := (exec (L := unit)).
Abbreviation Reach := (reachable exec valid this (λ _ _, True) deployed).

Definition at_time (t : Z) : Env := mkEnv t this (λ _, true).
Definition w0 : World unit Store Event := mkWorld tt empty_store [].
Definition terms1 : Terms := mkTerms mia ned 71 72 100 200 7 50 (addr 9) 73 74 75 1.
Definition later_start : Changes := mkChanges None None (Some 180) None None None.
Definition earlier_end : Changes := mkChanges None None None (Some 150) None None.
Definition setup : list (Env * Call) :=
  [(at_time 10, CInit mia); (at_time 11, CCreate terms1); (at_time 12, CAccept mia 1 81 1); (at_time 13, CAccept ned 1 82 1);
   (at_time 14, CPropose mia 1 later_start 91); (at_time 15, CPropose ned 1 earlier_end 92); (at_time 16, CApprove ned 1); (at_time 17, CApprove mia 2)].
Definition later : list (Env * Call) := [(at_time 18, CActivate mia 1); (at_time 19, CActivate ned 2); (at_time 20, CActivate ned 1); (at_time 21, CAccept mia 1 81 1)].
Definition w1 : World unit Store Event := run_calls exec setup w0.

Lemma agreements_runs calls :
  Forall (λ ec : Env * Call, self ec.1 = this ∧ valid ec.1 ec.2) calls → Reach (run_calls exec calls w0).
Proof. apply reachable_run. by apply reach_init. Qed.

Ltac valid_calls := repeat constructor; simpl; try done; range_lia.

Lemma agreements_w1_reach : Reach w1.
Proof. apply agreements_runs. valid_calls. Qed.

(** Two amendments, each with a valid range of time, leave the agreement in force with an end before its
    start: the range is checked against the terms at the time of the proposal only.  The parties have
    moreover accepted different hashes. *)
Theorem range_can_invert :
  ∃ calls a, Forall (λ ec : Env * Call, self ec.1 = this ∧ valid ec.1 ec.2) calls ∧ agreements (store (run_calls exec calls w0)) !! 1 = Some a ∧
    status a = Active ∧ end_time a < start_time a ∧
    agreement_hash <$> acceptances (store (run_calls exec calls w0)) !! (1, mia) ≠ agreement_hash <$> acceptances (store (run_calls exec calls w0)) !! (1, ned).
Proof.
  exists (setup ++ later). eexists. split; [valid_calls|]. split; [vm_compute; reflexivity|]. split; [done|]. split; [done|]. vm_compute. done.
Qed.

Definition string_of (x : Address) : list Z := [Z.of_N (addr_id x)].
Lemma to_key_injective_witness : to_key string_of (KBlockRelation mia ned) = to_key string_of (KBlockRelation mia ned) ∧ KBlockRelation mia ned = KBlockRelation mia ned.
Proof.
  split; [done|]. apply (to_key_injective string_of 1); [|done|done|done].
  split; [done|]. intros [x] [y]. unfold string_of. simpl. intros [= H]. f_equal. lia.
Defined.

Lemma bound_by_acceptance_witness : accepted_in (store w1) 1 ned = true.
Proof.
  destruct (bound_by_acceptance this w1 agreements_w1_reach) as (Ha & _ & _).
  destruct (agreements (store w1) !! 1) as [a|] eqn:Hag; [|vm_compute in Hag; done].
  destruct (Ha 1 a Hag) as (_ & _ & _ & Hb & _).
  assert (status a = Active ∧ mentee a = ned) as [Hs Hn] by (vm_compute in Hag; injection Hag as <-; done).
  rewrite <-Hn. apply Hb. by rewrite Hs.
Defined.

Lemma nonces_never_reused_witness : (invoke (accept_agreement mia 2 83 1) (at_time 30) (run_calls exec later w1)).2 ≠ Returned tt.
Proof.
  destruct (nonces_never_reused this w1 later mia 2 83 1 (at_time 30) agreements_w1_reach) as (_ & _ & H); [by vm_compute|exact H].
Defined.

Lemma terms_until_activation_witness : accepted exec (activates 1) later w1 = 1.
Proof.
  destruct (agreements (store w1) !! 1) as [a|] eqn:Ha; [|vm_compute in Ha; done].
  destruct (terms_until_activation this w1 later 1 a 1 agreements_w1_reach Ha) as [_ Hn]; [vm_compute; by eexists|].
  etrans; [exact Hn|]. vm_compute. reflexivity.
Defined.
End Runs.
