(* ===== verification/Identity.v ===== *)
(** * Applicant identity and enrollment ([scholarship-identity/src/lib.rs])

    A vocabulary of claim types, providers and verifiers of the admin, and claims of an issuer about a
    subject for a scope, each until its expiry or its revocation. *)
From S2P Require Import Prelude Machine Host.

Definition CONTRACT_VERSION : Z := 1.
(** Claims counted per subject. *)
Definition MAX_CLAIMS_PER_SUBJECT : Z := 32.

(** The scope of platform-wide claims, and the provider of manual ones. *)
Definition global_scope : BytesN32 := 0.

Inductive ContractError :=
| NotInitialized | AlreadyInitialized | NotAdmin | NotAuthorizedIssuer | ProviderNotFound | ProviderRevoked | UnknownClaimType
| InvalidExpiry | ClaimNotFound | NotClaimIssuer | ClaimLimitExceeded | Overflow | VersionOverflow.

Record Provider := mkProvider { pv_id : BytesN32; label : Symbol; active : bool; registered_at : Z; registered_by : Address }.

Inductive ClaimSource := FromProvider | ManualVerifier.

Record Claim := mkClaim {
  issuer : Address; provider_id : BytesN32; claim_type : Symbol; scope : BytesN32; source : ClaimSource; expiry : Z; issued_at : Z;
  revoked : bool; revoked_at : Z
}.

Inductive Event :=
| CTYPEREQ (ty : Symbol)
| PROVREG (p : BytesN32) (x : Address)
| PROVRVK (p : BytesN32)
| VRFYADD (x : Address)
| VRFYRVK (x : Address)
| CLMISSUE (i s : Address) (ty : Symbol) (sc : BytesN32)
| CLMRVK (x s : Address) (ty : Symbol) (sc : BytesN32).

(** The key of a claim: its subject, its issuer, its scope and its type. *)
Abbreviation ClaimKey := (Address * Address * BytesN32 * Symbol)%type (only parsing).

Record Store := mkStore {
  admin : option Address;
  providers : gmap Z Provider;
  verifiers : gmap Address bool;
  claim_types : gmap Symbol bool;
  claims : gmap ClaimKey Claim;
  claim_counts : gmap Address Z
}.

Definition put_admin (x : Address) (st : Store) : Store :=
  mkStore (Some x) (providers st) (verifiers st) (claim_types st) (claims st) (claim_counts st).
Definition put_provider (p : Provider) (st : Store) : Store :=
  mkStore (admin st) (<[pv_id p := p]> (providers st)) (verifiers st) (claim_types st) (claims st) (claim_counts st).
Definition put_verifier (x : Address) (b : bool) (st : Store) : Store :=
  mkStore (admin st) (providers st) (<[x := b]> (verifiers st)) (claim_types st) (claims st) (claim_counts st).
Definition put_type (ty : Symbol) (b : bool) (st : Store) : Store :=
  mkStore (admin st) (providers st) (verifiers st) (<[ty := b]> (claim_types st)) (claims st) (claim_counts st).
Definition put_claim (k : ClaimKey) (c : Claim) (st : Store) : Store :=
  mkStore (admin st) (providers st) (verifiers st) (claim_types st) (<[k := c]> (claims st)) (claim_counts st).
Definition put_count (s : Address) (n : Z) (st : Store) : Store :=
  mkStore (admin st) (providers st) (verifiers st) (claim_types st) (claims st) (<[s := n]> (claim_counts st)).

Definition count_of (st : Store) (s : Address) : Z := default 0 (claim_counts st !! s).
Definition known_type (st : Store) (ty : Symbol) : bool := default false (claim_types st !! ty).
Definition verifier_in (st : Store) (x : Address) : bool := default false (verifiers st !! x).

Definition inactive (p : Provider) : Provider := mkProvider (pv_id p) (label p) false (registered_at p) (registered_by p).
Definition withdrawn (t : Z) (c : Claim) : Claim :=
  mkClaim (issuer c) (provider_id c) (claim_type c) (scope c) (source c) (expiry c) (issued_at c) true t.

(** A claim that is neither revoked nor expired. *)
Definition valid_at (t : Z) (c : Claim) : bool := negb (revoked c) && (t <? expiry c).
Definition valid_claim (t : Z) (st : Store) (k : ClaimKey) : bool :=
  match claims st !! k with Some c => valid_at t c | None => false end.

(** The loop over the issuers: the scoped claim, then the global one. *)
Fixpoint verified_by (t : Z) (st : Store) (s : Address) (sc : BytesN32) (ty : Symbol) (issuers : list Address) : bool :=
  match issuers with
  | [] => false
  | i :: issuers =>
      if valid_claim t st (s, i, sc, ty) then true
      else if valid_claim t st (s, i, global_scope, ty) then true
      else verified_by t st s sc ty issuers
  end.

Section Contract.
Context {L : Type}.
Abbreviation M := (Contract L Store Event ContractError).

Definition initialize (x : Address) : M unit :=
  o <- load admin ;;
  reject_if (bool_decide (is_Some o)) AlreadyInitialized ;;;
  require_auth x ;;;
  save (put_admin x).

Definition require_admin (caller : Address) : M unit := require_admin_of admin NotInitialized NotAdmin caller.

Definition register_claim_type (x : Address) (ty : Symbol) : M unit :=
  require_admin x ;;;
  save (put_type ty true) ;;;
  publish (CTYPEREQ ty).

Definition deregister_claim_type (x : Address) (ty : Symbol) : M unit :=
  require_admin x ;;;
  save (put_type ty false).

Definition is_known_claim_type (ty : Symbol) : M bool := load (λ st, known_type st ty).

(** ** Providers and verifiers *)

Definition register_provider (x : Address) (p : BytesN32) (l : Symbol) : M unit :=
  require_admin x ;;;
  reject_if (p =? 0) ProviderNotFound ;;;
  t <- now ;;
  save (put_provider (mkProvider p l true t x)) ;;;
  publish (PROVREG p x).

Definition revoke_provider (x : Address) (p : BytesN32) : M unit :=
  require_admin x ;;;
  o <- load (λ st, providers st !! p) ;;
  provider <- ok_or o ProviderNotFound ;;
  save (put_provider (inactive provider)) ;;;
  publish (PROVRVK p).

Definition get_provider (p : BytesN32) : M Provider := o <- load (λ st, providers st !! p) ;; ok_or o ProviderNotFound.

Definition add_verifier (x v : Address) : M unit :=
  require_admin x ;;;
  save (put_verifier v true) ;;;
  publish (VRFYADD v).

Definition remove_verifier (x v : Address) : M unit :=
  require_admin x ;;;
  save (put_verifier v false) ;;;
  publish (VRFYRVK v).

Definition is_authorized_verifier (v : Address) : M bool := load (λ st, verifier_in st v).

(** ** Claims *)

Definition write_claim (i s : Address) (p sc : BytesN32) (ty : Symbol) (until : Z) (src : ClaimSource) : M unit :=
  old <- load (λ st, claims st !! (s, i, sc, ty)) ;;
  (if bool_decide (is_Some old) then ret tt
   else
     count <- load (λ st, count_of st s) ;;
     reject_if (MAX_CLAIMS_PER_SUBJECT <=? count) ClaimLimitExceeded ;;;
     new_count <- ok_or (checked_add_u32 count 1) Overflow ;;
     save (put_count s new_count)) ;;;
  t <- now ;;
  save (put_claim (s, i, sc, ty) (mkClaim i p ty sc src until t false 0)) ;;;
  publish (CLMISSUE i s ty sc).

Definition issue_claim (i s : Address) (p sc : BytesN32) (ty : Symbol) (until : Z) : M unit :=
  require_auth i ;;;
  provider <- get_provider p ;;
  reject_if (negb (active provider)) ProviderRevoked ;;;
  known <- is_known_claim_type ty ;;
  reject_if (negb known) UnknownClaimType ;;;
  t <- now ;;
  reject_if (until <=? t) InvalidExpiry ;;;
  write_claim i s p sc ty until FromProvider.

Definition issue_manual_claim (v s : Address) (sc : BytesN32) (ty : Symbol) (until : Z) : M unit :=
  require_auth v ;;;
  ok <- is_authorized_verifier v ;;
  reject_if (negb ok) NotAuthorizedIssuer ;;;
  known <- is_known_claim_type ty ;;
  reject_if (negb known) UnknownClaimType ;;;
  t <- now ;;
  reject_if (until <=? t) InvalidExpiry ;;;
  write_claim v s global_scope sc ty until ManualVerifier.

Definition revoke_claim (x s i : Address) (sc : BytesN32) (ty : Symbol) : M unit :=
  require_auth x ;;;
  o <- load (λ st, claims st !! (s, i, sc, ty)) ;;
  c <- ok_or o ClaimNotFound ;;
  a <- load admin ;;
  reject_if (negb (bool_decide (x = issuer c)) && negb (bool_decide (a = Some x))) NotClaimIssuer ;;;
  t <- now ;;
  save (put_claim (s, i, sc, ty) (withdrawn t c)) ;;;
  count <- load (λ st, count_of st s) ;;
  (if 0 <? count then save (put_count s (count - 1)) else ret tt) ;;;
  publish (CLMRVK x s ty sc).

Definition get_claim (s i : Address) (sc : BytesN32) (ty : Symbol) : M Claim :=
  o <- load (λ st, claims st !! (s, i, sc, ty)) ;; ok_or o ClaimNotFound.

Definition has_valid_claim (s i : Address) (sc : BytesN32) (ty : Symbol) : M bool :=
  t <- now ;; load (λ st, valid_claim t st (s, i, sc, ty)).

Definition is_verified (s : Address) (sc : BytesN32) (ty : Symbol) (issuers : list Address) : M bool :=
  t <- now ;; load (λ st, verified_by t st s sc ty issuers).

Definition version : Z := CONTRACT_VERSION.

(** ** Calls *)

Inductive Call :=
| CInitialize (x : Address)
| CRegisterType (x : Address) (ty : Symbol)
| CDeregisterType (x : Address) (ty : Symbol)
| CRegisterProvider (x : Address) (p : BytesN32) (l : Symbol)
| CRevokeProvider (x : Address) (p : BytesN32)
| CAddVerifier (x v : Address)
| CRemoveVerifier (x v : Address)
| CIssue (i s : Address) (p sc : BytesN32) (ty : Symbol) (until : Z)
| CManual (v s : Address) (sc : BytesN32) (ty : Symbol) (until : Z)
| CRevoke (x s i : Address) (sc : BytesN32) (ty : Symbol).

Definition exec (c : Call) : M unit :=
  match c with
  | CInitialize x => initialize x
  | CRegisterType x ty => register_claim_type x ty
  | CDeregisterType x ty => deregister_claim_type x ty
  | CRegisterProvider x p l => register_provider x p l
  | CRevokeProvider x p => revoke_provider x p
  | CAddVerifier x v => add_verifier x v
  | CRemoveVerifier x v => remove_verifier x v
  | CIssue i s p sc ty until => issue_claim i s p sc ty until
  | CManual v s sc ty until => issue_manual_claim v s sc ty until
  | CRevoke x s i sc ty => revoke_claim x s i sc ty
  end.
End Contract.

(** The declared width of the timestamp. *)
Definition valid (e : Env) (_ : Call) : Prop := 0 ≤ timestamp e ≤ u64_max.
