(* ===== verification/IdentityTheorems.v ===== *)
(** * Applicant identity: the properties

    A verification is the word of an issuer of the list; a claim stays as it was issued until it is
    revoked or issued again; the limit of a subject is on a counter that revocations lower. *)
From S2P Require Import Prelude Machine Host Identity.

(** ** The effect of a call that returns *)

Definition is_admin (e : Env) (st : Store) (x : Address) : Prop := admin st = Some x ∧ authorized e x = true.

(** A claim put in its place; a new one is counted. *)
Definition written (k : ClaimKey) (c : Claim) (st : Store) : Store :=
  put_claim k c (if bool_decide (is_Some (claims st !! k)) then st else put_count k.1.1.1 (count_of st k.1.1.1 + 1) st).
Definition lowered (s : Address) (st : Store) : Store := if 0 <? count_of st s then put_count s (count_of st s - 1) st else st.
Definition may_write (st : Store) (k : ClaimKey) : Prop := is_Some (claims st !! k) ∨ count_of st k.1.1.1 < MAX_CLAIMS_PER_SUBJECT.

Inductive effect (e : Env) (st : Store) : Call → Store → Prop :=
| E_initialize x : authorized e x = true → admin st = None → effect e st (CInitialize x) (put_admin x st)
| E_register_type x ty : is_admin e st x → effect e st (CRegisterType x ty) (put_type ty true st)
| E_deregister_type x ty : is_admin e st x → effect e st (CDeregisterType x ty) (put_type ty false st)
| E_provider x p l : is_admin e st x → p ≠ 0 → effect e st (CRegisterProvider x p l) (put_provider (mkProvider p l true (timestamp e) x) st)
| E_revoke_provider x p pv : is_admin e st x → providers st !! p = Some pv → effect e st (CRevokeProvider x p) (put_provider (inactive pv) st)
| E_add_verifier x v : is_admin e st x → effect e st (CAddVerifier x v) (put_verifier v true st)
| E_remove_verifier x v : is_admin e st x → effect e st (CRemoveVerifier x v) (put_verifier v false st)
| E_issue i s p sc ty until pv :
    authorized e i = true → providers st !! p = Some pv → active pv = true → known_type st ty = true → timestamp e < until →
    may_write st (s, i, sc, ty) →
    effect e st (CIssue i s p sc ty until) (written (s, i, sc, ty) (mkClaim i p ty sc FromProvider until (timestamp e) false 0) st)
| E_manual v s sc ty until :
    authorized e v = true → verifier_in st v = true → known_type st ty = true → timestamp e < until → may_write st (s, v, sc, ty) →
    effect e st (CManual v s sc ty until) (written (s, v, sc, ty) (mkClaim v global_scope ty sc ManualVerifier until (timestamp e) false 0) st)
| E_revoke x s i sc ty c :
    authorized e x = true → claims st !! (s, i, sc, ty) = Some c → x = issuer c ∨ admin st = Some x →
    effect e st (CRevoke x s i sc ty) (lowered s (put_claim (s, i, sc, ty) (withdrawn (timestamp e) c) st)).

(** ** The invariant *)

Definition of_subject (s : Address) (k : ClaimKey) (_ : Claim) : Z := if decide (k.1.1.1 = s) then 1 else 0.
Definition claim_ok (st : Store) (k : ClaimKey) (c : Claim) : Prop :=
  k.1.1.2 = issuer c ∧ k.1.2 = scope c ∧ k.2 = claim_type c ∧ issued_at c < expiry c ∧ (revoked c = false → revoked_at c = 0) ∧
  match source c with FromProvider => is_Some (providers st !! provider_id c) | ManualVerifier => provider_id c = 0 end.

Record inv (st : Store) : Prop := {
  inv_providers p pv : providers st !! p = Some pv → pv_id pv = p ∧ p ≠ 0;
  inv_claims k c : claims st !! k = Some c → claim_ok st k c;
  inv_counts s : 0 ≤ count_of st s ≤ MAX_CLAIMS_PER_SUBJECT ∧ count_of st s ≤ map_sum (of_subject s) (claims st)
}.

Definition empty_store : Store := mkStore None ∅ ∅ ∅ ∅ ∅.
Definition deployed {L} (w : World L Store Event) : Prop := store w = empty_store.

Definition issues (k : ClaimKey) (c : Call) : bool :=
  match c with
  | CIssue i s _ sc ty _ | CManual i s sc ty _ => bool_decide ((s, i, sc, ty) = k)
  | _ => false
  end.
Definition revokes (k : ClaimKey) (c : Call) : bool := match c with CRevoke _ s i sc ty => bool_decide ((s, i, sc, ty) = k) | _ => false end.

Lemma identity_empty_inv : inv empty_store.
Proof. split; try done. Qed.

Lemma count_put s n st s' : count_of (put_count s n st) s' = if decide (s = s') then n else count_of st s'.
Proof. unfold count_of. simpl. rewrite lookup_insert. by case_decide. Qed.

(** Replacing or adding a claim changes the claims of its subject by what is new. *)
Lemma of_subject_put s k c m :
  map_sum (of_subject s) (<[k := c]> m) =
  map_sum (of_subject s) m + (if bool_decide (is_Some (m !! k)) then 0 else if decide (k.1.1.1 = s) then 1 else 0).
Proof.
  rewrite map_sum_insert. unfold at_key. destruct (m !! k) as [d|]; simpl.
  - unfold of_subject. lia.
  - unfold of_subject. lia.
Qed.

Lemma claim_put_inv st k c st1 :
  inv st → claims st1 = claims st → providers st1 = providers st → claim_ok st k c →
  (∀ s, 0 ≤ count_of st1 s ≤ MAX_CLAIMS_PER_SUBJECT ∧
    count_of st1 s ≤ map_sum (of_subject s) (claims st) + (if bool_decide (is_Some (claims st !! k)) then 0 else if decide (k.1.1.1 = s) then 1 else 0)) →
  inv (put_claim k c st1).
Proof.
  intros [I1 I2 I3] Hcl Hpr Hc Hcount. split; simpl.
  - rewrite Hpr. apply I1.
  - intros k' c'. rewrite Hcl, lookup_insert. unfold claim_ok. simpl. rewrite Hpr. case_decide as Hk; [|apply I2].
    intros [= <-]. subst k'. apply Hc.
  - intros s. rewrite Hcl, of_subject_put. apply Hcount.
Qed.

Lemma written_inv st k c : inv st → claim_ok st k c → may_write st k → inv (written k c st).
Proof.
  intros Hi Hc Hm. unfold written. apply (claim_put_inv st); [done|by case_bool_decide|by case_bool_decide|done|].
  intros s. pose proof (inv_counts _ Hi s) as H3. case_bool_decide as Hk; [lia|]. rewrite count_put. destruct Hm as [|Hm]; [done|].
  case_decide as Hs; [|lia]. rewrite Hs in *. unfold MAX_CLAIMS_PER_SUBJECT in *. lia.
Qed.

Lemma lowered_put s k c st : lowered s (put_claim k c st) = put_claim k c (lowered s st).
Proof. unfold lowered. change (count_of (put_claim k c st) s) with (count_of st s). by destruct (0 <? _). Qed.

Lemma revoked_inv st k c t : inv st → claims st !! k = Some c → inv (lowered k.1.1.1 (put_claim k (withdrawn t c) st)).
Proof.
  intros Hi Hk. rewrite lowered_put. destruct (inv_claims _ Hi k c Hk) as (H1 & H2 & H3 & H4 & H5 & H6).
  apply (claim_put_inv st); [done|unfold lowered; by destruct (0 <? _)|unfold lowered; by destruct (0 <? _)|by split_and!|].
  intros s. pose proof (inv_counts _ Hi s) as Hc. rewrite bool_decide_eq_true_2 by (rewrite Hk; by eexists).
  unfold lowered. destruct (Z.ltb_spec 0 (count_of st k.1.1.1)); [|lia]. rewrite count_put. case_decide as Hs; [rewrite Hs in *; lia|lia].
Qed.

Lemma identity_effect_inv e c st st' : inv st → effect e st c st' → inv st'.
Proof.
  intros Hi Heff. destruct Heff; [by destruct Hi| by destruct Hi|by destruct Hi| | |by destruct Hi|by destruct Hi| | |].
  - destruct Hi as [I1 I2 I3]. split; simpl; [|intros k c Hk; specialize (I2 k c Hk)|done].
    + intros q pv. rewrite lookup_insert. case_decide as Hq; [|apply I1]. intros [= <-]. simpl. by subst.
    + destruct I2 as (? & ? & ? & ? & ? & Hs). split_and!; try done. destruct (source c); [|done]. simpl. rewrite lookup_insert. by case_decide.
  - destruct Hi as [I1 I2 I3]. destruct (I1 p pv) as [Hid Hne]; [done|]. split; simpl; [|intros k c Hk; specialize (I2 k c Hk)|done].
    + intros q pv'. rewrite Hid, lookup_insert. case_decide as Hq; [|apply I1]. intros [= <-]. simpl. by subst.
    + destruct I2 as (? & ? & ? & ? & ? & Hs). split_and!; try done. destruct (source c); [|done]. simpl. rewrite lookup_insert. by case_decide.
  - apply written_inv; [done| |done]. split_and!; try done. simpl. by eexists.
  - apply written_inv; [done| |done]. by split_and!.
  - by apply (revoked_inv st (s, i, sc, ty)).
Qed.

Section Effects.
Context {L : Type}.
Abbreviation W := (World L Store Event).
Abbreviation M := (Contract L Store Event ContractError).
Abbreviation exec := (exec (L := L)).
Abbreviation Reach this := (reachable exec valid this (λ _ _, True) deployed).
Implicit Types (w : W).

Lemma write_claim_done i s p sc ty until src e w w' u :
  inv (store w) → (write_claim i s p sc ty until src : M unit) e w = Done w' u →
  ledger w' = ledger w ∧ may_write (store w) (s, i, sc, ty) ∧
  store w' = written (s, i, sc, ty) (mkClaim i p ty sc src until (timestamp e) false 0) (store w).
Proof.
  intros Hi Hrun. unfold write_claim in Hrun. run_inv. unfold may_write, written. case_bool_decide as Hk; run_inv; checked_prop; bool_prop.
  - split_and!; [done|by left|done].
  - split_and!; [done|right; simpl; lia|]. simpl. by subst.
Qed.

Lemma write_claim_run i s p sc ty until src e w :
  inv (store w) → may_write (store w) (s, i, sc, ty) →
  ∃ w', (write_claim i s p sc ty until src : M unit) e w = Done w' tt ∧
    store w' = written (s, i, sc, ty) (mkClaim i p ty sc src until (timestamp e) false 0) (store w).
Proof.
  intros Hi Hm. unfold write_claim, written, may_write in *. cbv [bind load]. case_bool_decide as Hk; [by eexists|]. destruct Hm as [|Hm]; [done|].
  simpl in Hm. pose proof (inv_counts _ Hi s) as [[Hs _] _]. cbv [reject_if]. rewrite (proj2 (Z.leb_gt _ _)) by done.
  unfold checked_add_u32. rewrite checked_in by (unfold MAX_CLAIMS_PER_SUBJECT in Hm; range_lia). by eexists.
Qed.

Lemma identity_effect c e w w' u :
  inv (store w) → exec c e w = Done w' u → ledger w' = ledger w ∧ effect e (store w) c (store w').
Proof.
  intros Hi Hrun. destruct c; simpl in Hrun.
  - unfold initialize in Hrun. run_inv. bool_prop. split; [done|]. apply E_initialize; [done|]. by apply eq_None_not_Some.
  - unfold register_claim_type, require_admin in Hrun. run_inv. split; [done|]. by apply E_register_type.
  - unfold deregister_claim_type, require_admin in Hrun. run_inv. split; [done|]. by apply E_deregister_type.
  - unfold register_provider, require_admin in Hrun. run_inv. bool_prop. split; [done|]. by apply E_provider.
  - unfold revoke_provider, require_admin in Hrun. run_inv. split; [done|]. by apply E_revoke_provider.
  - unfold add_verifier, require_admin in Hrun. run_inv. split; [done|]. by apply E_add_verifier.
  - unfold remove_verifier, require_admin in Hrun. run_inv. split; [done|]. by apply E_remove_verifier.
  - unfold issue_claim, get_provider, is_known_claim_type in Hrun. run_inv. bool_prop. apply write_claim_done in Hrun as (Hl & Hm & ->); [|done].
    split; [done|]. by eapply E_issue.
  - unfold issue_manual_claim, is_authorized_verifier, is_known_claim_type in Hrun. run_inv. bool_prop.
    apply write_claim_done in Hrun as (Hl & Hm & ->); [|done]. split; [done|]. by eapply E_manual.
  - unfold revoke_claim in Hrun. run_inv. match goal with H : _ !! _ = Some ?c |- _ => assert (x = issuer c ∨ admin (store w) = Some x) as Hx end.
    { bool_prop. match goal with H : negb _ && negb _ = false |- _ => apply andb_false_iff in H as [H|H]; bool_prop; auto | H : _ ∨ _ |- _ => destruct H; bool_prop; auto end. }
    match goal with H : (if ?b then _ else _) _ _ = Done _ _ |- _ => destruct b eqn:Hb; run_inv end;
      (split; [done|]); pose proof (E_revoke e (store w) x s i sc ty) as HE; simpl in Hb; unfold lowered in HE; simpl in HE;
      change (count_of (put_claim _ _ (store w)) s) with (count_of (store w) s) in *; rewrite Hb in HE; by eapply HE.
Qed.

Lemma identity_step e c w w' u : inv (store w) → exec c e w = Done w' u → inv (store w') ∧ effect e (store w) c (store w').
Proof. intros Hi Hrun. destruct (identity_effect c e w w' u Hi Hrun) as [_ Heff]. split; [by eapply identity_effect_inv|done]. Qed.

Lemma identity_reachable this w : Reach this w → inv (store w).
Proof.
  apply (reachable_inv _ _ _ _ _ (λ w, inv (store w))).
  - intros w0 ->. apply identity_empty_inv.
  - intros c e w0 w1 u _ _ Hi Hrun. by destruct (identity_step e c w0 w1 u Hi Hrun).
  - done.
Qed.
End Effects.

(** A call on another claim, or none, leaves a claim as it is. *)
Lemma effect_claim_same e c st st' k :
  effect e st c st' → issues k c = false → revokes k c = false → claims st' !! k = claims st !! k.
Proof.
  intros Heff Hs Hr. destruct Heff; try done; cbn [issues revokes] in *; bool_prop.
  - unfold written. simpl. rewrite lookup_insert_ne by done. by case_bool_decide.
  - unfold written. simpl. rewrite lookup_insert_ne by done. by case_bool_decide.
  - rewrite lowered_put. simpl. rewrite lookup_insert_ne by done. unfold lowered. by destruct (0 <? _).
Qed.

Lemma valid_claim_iff t st k : valid_claim t st k = true ↔ ∃ c, claims st !! k = Some c ∧ revoked c = false ∧ t < expiry c.
Proof.
  unfold valid_claim, valid_at. destruct (claims st !! k) as [c|]; [|naive_solver].
  rewrite andb_true_iff, negb_true_iff, Z.ltb_lt. naive_solver.
Qed.

Lemma verified_by_iff t st s sc ty l :
  verified_by t st s sc ty l = true ↔ ∃ i sc', i ∈ l ∧ (sc' = sc ∨ sc' = global_scope) ∧ valid_claim t st (s, i, sc', ty) = true.
Proof.
  induction l as [|i l IH]; simpl; [split; [done|]; by intros (? & ? & ?%elem_of_nil & _)|].
  destruct (valid_claim t st (s, i, sc, ty)) eqn:H1; [split; [|done]; intros _; exists i, sc; split_and!; [left|by left|done]|].
  destruct (valid_claim t st (s, i, global_scope, ty)) eqn:H2; [split; [|done]; intros _; exists i, global_scope; split_and!; [left|by right|done]|].
  rewrite IH. split.
  - intros (j & sc' & Hj & H). exists j, sc'. split; [by right|done].
  - intros (j & sc' & [->|Hj]%elem_of_cons & [->| ->] & H); [congruence|congruence|exists j, sc; auto|exists j, global_scope; auto].
Qed.

Section Theorems.
Context {L : Type}.
Abbreviation W := (World L Store Event).
Abbreviation M := (Contract L Store Event ContractError).
Abbreviation exec := (exec (L := L)).
Abbreviation Reach this := (reachable exec valid this (λ _ _, True) deployed).
Implicit Types (w : W).

(** What a stored claim says.  In a reachable world a claim stands under its own subject, issuer, scope
    and type, was issued before its expiry, and names a provider that was registered or, when it is
    manual, none; the counter of a subject is at most 32 and at most the claims stored of him. *)
Theorem claims_wellformed this w :
  Reach this w →
  (∀ s i sc ty c, claims (store w) !! (s, i, sc, ty) = Some c →
    issuer c = i ∧ scope c = sc ∧ claim_type c = ty ∧ issued_at c < expiry c ∧ (revoked c = false → revoked_at c = 0) ∧
    match source c with FromProvider => is_Some (providers (store w) !! provider_id c) ∧ provider_id c ≠ 0 | ManualVerifier => provider_id c = 0 end) ∧
  (∀ s, 0 ≤ count_of (store w) s ≤ MAX_CLAIMS_PER_SUBJECT ∧ count_of (store w) s ≤ map_sum (of_subject s) (claims (store w))).
Proof.
  intros [I1 I2 I3]%identity_reachable. split; [|done]. intros s i sc ty c Hc. destruct (I2 _ _ Hc) as (H1 & H2 & H3 & H4 & H5 & H6).
  simpl in H1, H2, H3. split_and!; [done..|]. destruct (source c); [|done]. split; [done|]. destruct H6 as [pv H6]. by destruct (I1 _ _ H6).
Qed.

(** What a verification means.  [is_verified] changes nothing and answers whether one of the issuers asked
    about holds, for the scope or globally, a claim that is not revoked and whose expiry lies ahead. *)
Theorem is_verified_exact s sc ty issuers e w :
  ∃ b, (is_verified s sc ty issuers : M bool) e w = Done w b ∧
    (b = true ↔ ∃ i sc' c, i ∈ issuers ∧ (sc' = sc ∨ sc' = global_scope) ∧ claims (store w) !! (s, i, sc', ty) = Some c ∧
      revoked c = false ∧ timestamp e < expiry c).
Proof.
  eexists. split; [done|]. rewrite verified_by_iff. split.
  - intros (i & sc' & Hi & Hsc & (c & Hc)%valid_claim_iff). by exists i, sc', c.
  - intros (i & sc' & c & Hi & Hsc & Hc). exists i, sc'. split_and!; [done|done|]. apply valid_claim_iff. by exists c.
Qed.

(** Claims live until their expiry or their revocation.  Over any calls among which none issues or revokes a
    claim, it stays as it is: withdrawing its provider, its verifier or its type does not touch it; so
    no verification is gained without a call of the issuer itself. *)
Theorem claim_kept this w calls k :
  Reach this w → Forall (λ ec : Env * Call, issues k ec.2 = false ∧ revokes k ec.2 = false) calls →
  claims (store (run_calls exec calls w)) !! k = claims (store w) !! k.
Proof.
  intros Hi%identity_reachable Hcalls. rewrite Forall_forall in Hcalls.
  destruct (run_calls_inv exec (λ w', inv (store w') ∧ claims (store w') !! k = claims (store w) !! k) calls w) as [_ H]; [|done|done].
  intros e c w0 w1 u [H0 H1] Hin Hrun. destruct (identity_step e c w0 w1 u H0 Hrun) as [Hi1 Heff]. split; [done|].
  destruct (Hcalls _ Hin) as [Hs Hr]. simpl in Hs, Hr. by rewrite (effect_claim_same e c _ _ k Heff Hs Hr).
Qed.

(** Who may issue.  In a reachable world a provider's claim is issued to any address that asks for it, whether
    or not the admin has approved it: an active provider, a known type, an expiry ahead and room in the
    counter are all it takes; the subject is then verified by that address until the expiry. *)
Theorem anyone_can_issue this w e i s p pv sc ty until :
  Reach this w → authorized e i = true → providers (store w) !! p = Some pv → active pv = true → known_type (store w) ty = true →
  timestamp e < until → is_Some (claims (store w) !! (s, i, sc, ty)) ∨ count_of (store w) s < MAX_CLAIMS_PER_SUBJECT →
  ∃ w', invoke (issue_claim i s p sc ty until : M unit) e w = (w', Returned tt) ∧
    ∀ e' l, timestamp e' < until → i ∈ l → (is_verified s sc ty l : M bool) e' w' = Done w' true.
Proof.
  intros Hi%identity_reachable Ha Hp Hact Hty Ht Hroom.
  destruct (write_claim_run i s p sc ty until FromProvider e w Hi Hroom) as (w' & Hw & Hst).
  exists w'. split.
  - apply invoke_returned. unfold issue_claim, get_provider, is_known_claim_type. run_fwd.
  - intros e' l Ht' Hl. unfold is_verified. cbv [bind now load]. f_equal. apply verified_by_iff. exists i, sc. split_and!; [done|by left|].
    apply valid_claim_iff. eexists. rewrite Hst. unfold written. simpl. rewrite lookup_insert_eq. by split_and!.
Qed.

(** What a revocation does.  The issuer of a claim, and the admin, can revoke it at any time; from then on,
    over any calls that do not issue it again, it is not valid. *)
Theorem revocation_lasts this w e x s i sc ty c calls :
  Reach this w → authorized e x = true → claims (store w) !! (s, i, sc, ty) = Some c → x = i ∨ admin (store w) = Some x →
  Forall (λ ec : Env * Call, issues (s, i, sc, ty) ec.2 = false) calls →
  ∃ w', invoke (revoke_claim x s i sc ty : M unit) e w = (w', Returned tt) ∧
    ∀ t, valid_claim t (store (run_calls exec calls w')) (s, i, sc, ty) = false.
Proof.
  intros Hi%identity_reachable Ha Hc Hx Hcalls. rewrite Forall_forall in Hcalls.
  pose proof (inv_claims _ Hi _ _ Hc) as (Hiss & _). simpl in Hiss.
  assert (∃ w', exec (CRevoke x s i sc ty) e w = Done w' tt) as [w' Hrun].
  { simpl. unfold revoke_claim. cbv [bind load require_auth]. rewrite Ha. cbv [ok_or]. rewrite Hc. cbv [ret].
    assert (negb (bool_decide (x = issuer c)) && negb (bool_decide (admin (store w) = Some x)) = false) as ->.
    { apply andb_false_iff. rewrite !negb_false_iff, !bool_decide_eq_true. destruct Hx; [left; congruence|by right]. }
    cbn [reject_if ret now save]. match goal with |- context [if ?b then _ else _] => destruct b end; by eexists. }
  exists w'. split; [by apply invoke_run|].
  destruct (identity_step e _ w w' tt Hi Hrun) as [Hi1 Heff].
  set (dead := λ w1 : W, inv (store w1) ∧ ∃ d, claims (store w1) !! (s, i, sc, ty) = Some d ∧ revoked d = true).
  destruct (run_calls_inv exec dead calls w') as [_ (d & Hd & Hrev)].
  - intros e1 c1 w0 w1 u [H0 (d & Hd & Hrev)] Hin Hrun1. destruct (identity_step e1 c1 w0 w1 u H0 Hrun1) as [Hi2 Heff1]. split; [done|].
    specialize (Hcalls _ Hin). simpl in Hcalls. destruct (revokes (s, i, sc, ty) c1) eqn:Hr; [|exists d; by rewrite (effect_claim_same _ _ _ _ _ Heff1 Hcalls Hr)].
    destruct Heff1; try done. cbn [revokes] in Hr. bool_prop. injection Hr as -> -> -> ->. rewrite lowered_put. simpl. rewrite lookup_insert_eq. by eexists.
  - split; [done|]. inversion Heff; subst. rewrite lowered_put. simpl. rewrite lookup_insert_eq. by eexists.
  - intros t. unfold valid_claim, valid_at. by rewrite Hd, Hrev.
Qed.
End Theorems.

(** ** Concrete runs *)
Module Runs.
Definition this : Address := addr 0.
Definition boss : Address := addr 1.
Definition stranger : Address := addr 5.
Definition sue : Address := addr 6.
Abbreviation exec := (exec (L := unit)).
Abbreviation Reach := (reachable exec valid this (λ _ _, True) deployed).

Definition at_time (t : Z) : Env := mkEnv t this (λ _, true).
Definition w0 : World unit Store Event := mkWorld tt empty_store [].
Definition setup : list (Env * Call) :=
  [(at_time 10, CInitialize boss); (at_time 11, CRegisterType boss "enrolled"); (at_time 12, CRegisterProvider boss 7 "uni")].
Definition w1 : World unit Store Event := run_calls exec setup w0.
Definition one : list (Env * Call) := [(at_time 13, CIssue stranger sue 7 9 "enrolled" 100)].
Definition w2 : World unit Store Event := run_calls exec one w1.

Lemma identity_runs calls :
  Forall (λ ec : Env * Call, self ec.1 = this ∧ valid ec.1 ec.2) calls → Reach (run_calls exec calls w0).
Proof. apply reachable_run. by apply reach_init. Qed.

Ltac valid_calls := repeat constructor; simpl; try done; range_lia.

Lemma identity_w1_reach : Reach w1.
Proof. apply identity_runs. valid_calls. Qed.
Lemma identity_w2_reach : Reach w2.
Proof. apply (identity_runs (setup ++ one)). valid_calls. Qed.

(** Thirty-two claims of a subject, one for a scope each; then one of them is revoked and issued again, which
    is not counted, and there is room for another. *)
Definition issue_at (n : nat) : Env * Call := (at_time 20, CIssue stranger sue 7 (Z.of_nat n) "enrolled" 100).
Definition overfull : list (Env * Call) :=
  setup ++ (issue_at <$> seq 1 32) ++ [(at_time 21, CRevoke stranger sue stranger 1 "enrolled"); issue_at 1; issue_at 33].
Definition live (s : Address) (k : ClaimKey) (c : Claim) : Z := if decide (k.1.1.1 = s) then (if valid_at 30 c then 1 else 0) else 0.

(** The limit on the active claims of a subject can be passed. *)
Theorem ceiling_can_break :
  ∃ calls, Forall (λ ec : Env * Call, self ec.1 = this ∧ valid ec.1 ec.2) calls ∧
    MAX_CLAIMS_PER_SUBJECT < map_sum (live sue) (claims (store (run_calls exec calls w0))).
Proof. exists overfull. split; [valid_calls|]. vm_compute. reflexivity. Qed.

Lemma claims_wellformed_witness : 0 ≤ count_of (store w2) sue ≤ 32.
Proof. destruct (claims_wellformed this w2 identity_w2_reach) as [_ H]. apply (H sue). Defined.

Lemma claim_kept_witness :
  claims (store (run_calls exec [(at_time 14, CRevokeProvider boss 7); (at_time 15, CDeregisterType boss "enrolled")] w2)) !! (sue, stranger, 9, "enrolled") =
  claims (store w2) !! (sue, stranger, 9, "enrolled").
Proof. apply (claim_kept this w2); [exact identity_w2_reach|repeat constructor]. Defined.

Lemma anyone_can_issue_witness : ∃ w', invoke (issue_claim stranger sue 7 9 "enrolled" 100) (at_time 13) w1 = (w', Returned tt).
Proof.
  destruct (providers (store w1) !! 7) as [pv|] eqn:Hp; [|vm_compute in Hp; done].
  assert (active pv = true) by (vm_compute in Hp; by injection Hp as <-).
  destruct (anyone_can_issue this w1 (at_time 13) stranger sue 7 pv 9 "enrolled" 100) as (w' & Hw & _);
    [exact identity_w1_reach|done|done|done|by vm_compute|done|right; by vm_compute|by exists w'].
Defined.

Lemma revocation_lasts_witness : ∃ w', invoke (revoke_claim boss sue stranger 9 "enrolled") (at_time 14) w2 = (w', Returned tt).
Proof.
  destruct (claims (store w2) !! (sue, stranger, 9, "enrolled")) as [c|] eqn:Hc; [|vm_compute in Hc; done].
  destruct (revocation_lasts this w2 (at_time 14) boss sue stranger 9 "enrolled" c []) as (w' & Hw & _);
    [exact identity_w2_reach|done|done|right; by vm_compute|constructor|by exists w'].
Defined.
End Runs.
