(* ===== verification/MentorIdentity.v ===== *)
(** * Mentor identity ([mentorship-identity/src/lib.rs])

    Profile commitments with a completion count, performance and safety attestations of the configured
    roles, and a verification that runs from the mentor's consent to a review, a cancellation or its expiry. *)
From S2P Require Import Prelude Machine Host.

Definition CONTRACT_VERSION : Z := 1.
Definition REQUIRED_PROFILE_SECTIONS : Z := 6.
Definition MAX_RATE_BASIS_POINTS : Z := 10000.

Inductive ContractError :=
| NotInitialized | AlreadyInitialized | NotAdmin | NotAuthorizedRecorder | NotAuthorizedVerifier | NotAuthorizedModerator | ProfileNotFound
| InvalidCompletion | InvalidCommitment | InvalidWindow | InvalidRate | InvalidExpiry | VerificationNotFound | VerificationAlreadyRevoked
| ConsentRequired | VerificationPending | VerificationStillValid | VerificationNotActive | InvalidReview | Overflow.

Record MentorProfile := mkProfile { profile_commitment : BytesN32; completed_sections : Z; completion_basis_points : Z; p_updated_at : Z }.
Record MenteeLearningProfile := mkMentee {
  goals_commitment : BytesN32; current_level_commitment : BytesN32; interests_commitment : BytesN32;
  preferred_language_commitment : BytesN32; time_zone_commitment : BytesN32; accessibility_needs_commitment : BytesN32;
  matching_preferences_commitment : BytesN32; created_at : Z; m_updated_at : Z
}.
Record PerformanceAttestation := mkPerformance {
  response_rate_basis_points : Z; delivery_rate_basis_points : Z; pf_evidence_commitment : BytesN32; window_start : Z; window_end : Z;
  recorder : Address; recorded_at : Z
}.

Inductive VerificationStatus := Pending | Approved | Rejected | Cancelled | Expired.
#[export] Instance VerificationStatus_eq_dec : EqDecision VerificationStatus.
Proof. solve_decision. Defined.
Inductive VerificationDecision := Approve | Reject.

Record VerificationAttestation := mkVerification {
  provider_reference : BytesN32; evidence_commitment : BytesN32; consent_given : bool; consent_version : Z; consent_given_at : Z;
  consent_revoked_at : option Z; status : VerificationStatus; reviewer : option Address; reviewed_at : option Z; expires_at : Z;
  rejection_reason_commitment : BytesN32; attempt : Z
}.

Inductive SafetyStatus := Unassessed | Clear | Review | Restricted.
#[export] Instance SafetyStatus_eq_dec : EqDecision SafetyStatus.
Proof. solve_decision. Defined.
Record SafetyAssessment := mkSafety { s_status : SafetyStatus; s_evidence_commitment : BytesN32; moderator : Address; s_updated_at : Z }.

Record MentorIndicators := mkIndicators {
  subject : Address; profile : MentorProfile; required_profile_sections : Z; is_verified : bool; performance : option PerformanceAttestation;
  verification : option VerificationAttestation; safety : option SafetyAssessment; safety_status : SafetyStatus
}.

Inductive Event :=
| MID_INIT (admin rec ver md : Address)
| MID_ROLE (role : Symbol) (x : Address)
| MID_PROF (x : Address) (sections bps t : Z)
| MID_MENT (x : Address) (t : Z)
| MID_PERF (x : Address) (response delivery : Z) (h : BytesN32) (start finish : Z) (rec : Address) (t : Z)
| VF_SUBMIT (x : Address) (n : Z) (provider evidence : BytesN32) (consent : Z) (t : Z)
| VF_REVIEW (x : Address) (n : Z) (d : VerificationDecision) (until : Z) (reason : BytesN32) (ver : Address) (t : Z)
| VF_CANCEL (x : Address) (n t : Z)
| MID_SAFE (x : Address) (s : SafetyStatus) (h : BytesN32) (md : Address) (t : Z).

Record Store := mkStore {
  admin : option Address;
  recorder_role : option Address;
  verifier_role : option Address;
  moderator_role : option Address;
  profiles : gmap Address MentorProfile;
  mentees : gmap Address MenteeLearningProfile;
  performances : gmap Address PerformanceAttestation;
  verifications : gmap Address VerificationAttestation;
  safeties : gmap Address SafetyAssessment
}.

Definition put_admin (x : Address) (st : Store) : Store :=
  mkStore (Some x) (recorder_role st) (verifier_role st) (moderator_role st) (profiles st) (mentees st) (performances st) (verifications st) (safeties st).
Definition put_recorder (x : Address) (st : Store) : Store :=
  mkStore (admin st) (Some x) (verifier_role st) (moderator_role st) (profiles st) (mentees st) (performances st) (verifications st) (safeties st).
Definition put_verifier (x : Address) (st : Store) : Store :=
  mkStore (admin st) (recorder_role st) (Some x) (moderator_role st) (profiles st) (mentees st) (performances st) (verifications st) (safeties st).
Definition put_moderator (x : Address) (st : Store) : Store :=
  mkStore (admin st) (recorder_role st) (verifier_role st) (Some x) (profiles st) (mentees st) (performances st) (verifications st) (safeties st).
Definition put_profile (x : Address) (p : MentorProfile) (st : Store) : Store :=
  mkStore (admin st) (recorder_role st) (verifier_role st) (moderator_role st) (<[x := p]> (profiles st)) (mentees st) (performances st) (verifications st)
    (safeties st).
Definition put_mentee (x : Address) (p : MenteeLearningProfile) (st : Store) : Store :=
  mkStore (admin st) (recorder_role st) (verifier_role st) (moderator_role st) (profiles st) (<[x := p]> (mentees st)) (performances st) (verifications st)
    (safeties st).
Definition put_performance (x : Address) (p : PerformanceAttestation) (st : Store) : Store :=
  mkStore (admin st) (recorder_role st) (verifier_role st) (moderator_role st) (profiles st) (mentees st) (<[x := p]> (performances st)) (verifications st)
    (safeties st).
Definition put_verification (x : Address) (v : VerificationAttestation) (st : Store) : Store :=
  mkStore (admin st) (recorder_role st) (verifier_role st) (moderator_role st) (profiles st) (mentees st) (performances st) (<[x := v]> (verifications st))
    (safeties st).
Definition put_safety (x : Address) (s : SafetyAssessment) (st : Store) : Store :=
  mkStore (admin st) (recorder_role st) (verifier_role st) (moderator_role st) (profiles st) (mentees st) (performances st) (verifications st)
    (<[x := s]> (safeties st)).

Definition is_zero_commitment (h : BytesN32) : bool := h =? 0.
Definition zero_commitment : BytesN32 := 0.

(** The changes of a verification. *)
Definition submitted (provider evidence : BytesN32) (v t n : Z) : VerificationAttestation :=
  mkVerification provider evidence true v t None Pending None None 0 zero_commitment n.
Definition reviewed (s : VerificationStatus) (x : Address) (t until : Z) (reason : BytesN32) (a : VerificationAttestation) : VerificationAttestation :=
  mkVerification (provider_reference a) (evidence_commitment a) (consent_given a) (consent_version a) (consent_given_at a) (consent_revoked_at a) s
    (Some x) (Some t) until reason (attempt a).
Definition cancelled (t : Z) (a : VerificationAttestation) : VerificationAttestation :=
  mkVerification (provider_reference a) (evidence_commitment a) false (consent_version a) (consent_given_at a) (Some t) Cancelled (reviewer a)
    (reviewed_at a) (expires_at a) (rejection_reason_commitment a) (attempt a).
(** What a reader sees: an approval past its expiry shows as expired. *)
Definition shown (t : Z) (a : VerificationAttestation) : VerificationAttestation :=
  if bool_decide (status a = Approved) && (expires_at a <=? t) then
    mkVerification (provider_reference a) (evidence_commitment a) (consent_given a) (consent_version a) (consent_given_at a) (consent_revoked_at a) Expired
      (reviewer a) (reviewed_at a) (expires_at a) (rejection_reason_commitment a) (attempt a)
  else a.
Definition verified_at (t : Z) (a : VerificationAttestation) : bool :=
  bool_decide (status a = Approved) && consent_given a && negb (bool_decide (is_Some (consent_revoked_at a))) && (t <? expires_at a).

(** The answer of [get_indicators] for a stored profile. *)
Definition indicators_of (t : Z) (st : Store) (x : Address) (p : MentorProfile) : MentorIndicators :=
  let v := shown t <$> verifications st !! x in
  mkIndicators x p REQUIRED_PROFILE_SECTIONS (from_option (verified_at t) false v) (performances st !! x) v (safeties st !! x)
    (from_option s_status Unassessed (safeties st !! x)).

(** The seven commitments of a mentee. *)
Record Commitments := mkCommitments { c_goals : BytesN32; c_level : BytesN32; c_interests : BytesN32; c_language : BytesN32; c_zone : BytesN32;
  c_needs : BytesN32; c_preferences : BytesN32 }.
Definition some_zero (c : Commitments) : bool :=
  is_zero_commitment (c_goals c) || is_zero_commitment (c_level c) || is_zero_commitment (c_interests c) || is_zero_commitment (c_language c) ||
  is_zero_commitment (c_zone c) || is_zero_commitment (c_needs c) || is_zero_commitment (c_preferences c).
Definition mentee_of (c : Commitments) (since t : Z) : MenteeLearningProfile :=
  mkMentee (c_goals c) (c_level c) (c_interests c) (c_language c) (c_zone c) (c_needs c) (c_preferences c) since t.

(** The keys [require_role] is called with. *)
Inductive Role := Recorder | Verifier | Moderator.
Definition role_in (r : Role) (st : Store) : option Address :=
  match r with Recorder => recorder_role st | Verifier => verifier_role st | Moderator => moderator_role st end.
Definition role_error (r : Role) : ContractError :=
  match r with Recorder => NotAuthorizedRecorder | Verifier => NotAuthorizedVerifier | Moderator => NotAuthorizedModerator end.

Section Contract.
Context {L : Type}.
Abbreviation M := (Contract L Store Event ContractError).

Definition require_admin (caller : Address) : M unit := require_admin_of admin NotInitialized NotAdmin caller.
Definition require_role (caller : Address) (r : Role) : M unit := require_admin_of (role_in r) NotInitialized (role_error r) caller.
Definition require_profile (x : Address) : M MentorProfile := o <- load (λ st, profiles st !! x) ;; ok_or o ProfileNotFound.

Definition initialize (x rec ver md : Address) : M unit :=
  o <- load admin ;;
  reject_if (bool_decide (is_Some o)) AlreadyInitialized ;;;
  require_auth x ;;;
  save (put_admin x) ;;;
  save (put_recorder rec) ;;;
  save (put_verifier ver) ;;;
  save (put_moderator md) ;;;
  publish (MID_INIT x rec ver md).

Definition set_recorder (x y : Address) : M unit := require_admin x ;;; save (put_recorder y) ;;; publish (MID_ROLE "REC" y).
Definition set_verifier (x y : Address) : M unit := require_admin x ;;; save (put_verifier y) ;;; publish (MID_ROLE "VER" y).
Definition set_moderator (x y : Address) : M unit := require_admin x ;;; save (put_moderator y) ;;; publish (MID_ROLE "MOD" y).

(** ** Profiles *)

Definition update_profile (x : Address) (h : BytesN32) (n : Z) : M unit :=
  require_auth x ;;;
  reject_if (is_zero_commitment h) InvalidCommitment ;;;
  reject_if (REQUIRED_PROFILE_SECTIONS <? n) InvalidCompletion ;;;
  scaled <- or_trap (checked 0 u32_max (n * MAX_RATE_BASIS_POINTS)) ;;
  let bps := Z.quot scaled REQUIRED_PROFILE_SECTIONS in
  t <- now ;;
  save (put_profile x (mkProfile h n bps t)) ;;;
  publish (MID_PROF x n bps t).

Definition set_mentee_learning_profile (x : Address) (c : Commitments) : M unit :=
  require_auth x ;;;
  reject_if (some_zero c) InvalidCommitment ;;;
  previous <- load (λ st, mentees st !! x) ;;
  t <- now ;;
  save (put_mentee x (mentee_of c (from_option created_at t previous) t)) ;;;
  publish (MID_MENT x t).

Definition get_mentee_learning_profile (x : Address) : M MenteeLearningProfile :=
  o <- load (λ st, mentees st !! x) ;; ok_or o ProfileNotFound.

Definition attest_performance (rec x : Address) (response delivery : Z) (h : BytesN32) (start finish : Z) : M unit :=
  require_role rec Recorder ;;;
  require_profile x ;;;
  reject_if ((MAX_RATE_BASIS_POINTS <? response) || (MAX_RATE_BASIS_POINTS <? delivery)) InvalidRate ;;;
  t <- now ;;
  reject_if ((finish <=? start) || (t <? finish)) InvalidWindow ;;;
  reject_if (is_zero_commitment h) InvalidCommitment ;;;
  save (put_performance x (mkPerformance response delivery h start finish rec t)) ;;;
  publish (MID_PERF x response delivery h start finish rec t).

(** ** Verification *)

Definition submit_verification (x : Address) (provider evidence : BytesN32) (consent : bool) (v : Z) : M unit :=
  require_auth x ;;;
  require_profile x ;;;
  reject_if (negb consent || (v =? 0)) ConsentRequired ;;;
  reject_if (is_zero_commitment provider || is_zero_commitment evidence) InvalidCommitment ;;;
  t <- now ;;
  previous <- load (λ st, verifications st !! x) ;;
  n <- (match previous with
        | Some a =>
            reject_if (bool_decide (status a = Pending)) VerificationPending ;;;
            reject_if (bool_decide (status a = Approved) && negb (bool_decide (is_Some (consent_revoked_at a))) && (t <? expires_at a)) VerificationStillValid ;;;
            ok_or (checked_add_u32 (attempt a) 1) Overflow
        | None => ret 1
        end) ;;
  save (put_verification x (submitted provider evidence v t n)) ;;;
  publish (VF_SUBMIT x n provider evidence v t).

Definition review_verification (ver x : Address) (d : VerificationDecision) (until : Z) (reason : BytesN32) : M unit :=
  require_role ver Verifier ;;;
  o <- load (λ st, verifications st !! x) ;;
  a <- ok_or o VerificationNotFound ;;
  reject_if (negb (bool_decide (status a = Pending)) || negb (consent_given a)) InvalidReview ;;;
  t <- now ;;
  s <- (match d with
        | Approve => reject_if ((until <=? t) || negb (is_zero_commitment reason)) InvalidReview ;;; ret Approved
        | Reject => reject_if (negb (until =? 0) || is_zero_commitment reason) InvalidReview ;;; ret Rejected
        end) ;;
  save (put_verification x (reviewed s ver t until reason a)) ;;;
  publish (VF_REVIEW x (attempt a) d until reason ver t).

Definition cancel_verification (x : Address) : M unit :=
  require_auth x ;;;
  o <- load (λ st, verifications st !! x) ;;
  a <- ok_or o VerificationNotFound ;;
  reject_if (negb (consent_given a) || bool_decide (is_Some (consent_revoked_at a))) VerificationNotActive ;;;
  t <- now ;;
  save (put_verification x (cancelled t a)) ;;;
  publish (VF_CANCEL x (attempt a) t).

Definition attest_safety (md x : Address) (s : SafetyStatus) (h : BytesN32) : M unit :=
  require_role md Moderator ;;;
  require_profile x ;;;
  reject_if (negb (Bool.eqb (bool_decide (s = Unassessed)) (is_zero_commitment h))) InvalidCommitment ;;;
  t <- now ;;
  save (put_safety x (mkSafety s h md t)) ;;;
  publish (MID_SAFE x s h md t).

Definition get_indicators (x : Address) : M MentorIndicators :=
  p <- require_profile x ;;
  t <- now ;;
  load (λ st, indicators_of t st x p).

Definition version : Z := CONTRACT_VERSION.

(** ** Calls *)

Inductive Call :=
| CInitialize (x rec ver md : Address)
| CRole (x : Address) (r : Role) (y : Address)
| CProfile (x : Address) (h : BytesN32) (n : Z)
| CMentee (x : Address) (c : Commitments)
| CPerformance (rec x : Address) (response delivery : Z) (h : BytesN32) (start finish : Z)
| CSubmit (x : Address) (provider evidence : BytesN32) (consent : bool) (v : Z)
| CReview (ver x : Address) (d : VerificationDecision) (until : Z) (reason : BytesN32)
| CCancel (x : Address)
| CSafety (md x : Address) (s : SafetyStatus) (h : BytesN32).

Definition exec (c : Call) : M unit :=
  match c with
  | CInitialize x rec ver md => initialize x rec ver md
  | CRole x Recorder y => set_recorder x y
  | CRole x Verifier y => set_verifier x y
  | CRole x Moderator y => set_moderator x y
  | CProfile x h n => update_profile x h n
  | CMentee x c => set_mentee_learning_profile x c
  | CPerformance rec x p q h start finish => attest_performance rec x p q h start finish
  | CSubmit x provider evidence consent v => submit_verification x provider evidence consent v
  | CReview ver x d until reason => review_verification ver x d until reason
  | CCancel x => cancel_verification x
  | CSafety md x s h => attest_safety md x s h
  end.
End Contract.

(** The declared widths: the timestamp, the section count and the rates. *)
Definition valid (e : Env) (c : Call) : Prop :=
  0 ≤ timestamp e ≤ u64_max ∧
  match c with CProfile _ _ n => 0 ≤ n ≤ u32_max | CPerformance _ _ p q _ _ _ => 0 ≤ p ≤ u32_max ∧ 0 ≤ q ≤ u32_max | _ => True end.
