(* ===== verification/MentorIdentityTheorems.v ===== *)
(** * Mentor identity: the properties

    What the stored attestations say; a mentor is verified exactly while an approval of the verifier
    is in force; the mentor's withdrawal of consent ends it; the attempts are the submissions. *)
From S2P Require Import Prelude Machine Host MentorIdentity.

(** ** The effect of a call that returns *)

Definition is_admin (e : Env) (st : Store) (x : Address) : Prop := admin st = Some x ∧ authorized e x = true.
Definition has_role (e : Env) (st : Store) (r : Role) (x : Address) : Prop := role_in r st = Some x ∧ authorized e x = true.
Definition put_role (r : Role) (x : Address) (st : Store) : Store :=
  match r with Recorder => put_recorder x st | Verifier => put_verifier x st | Moderator => put_moderator x st end.
Definition attempts_of (st : Store) (x : Address) : Z := from_option attempt 0 (verifications st !! x).
Definition may_submit (t : Z) (o : option VerificationAttestation) : Prop :=
  ∀ a, o = Some a → status a ≠ Pending ∧ attempt a < u32_max ∧ ¬ (status a = Approved ∧ consent_revoked_at a = None ∧ t < expires_at a).
Definition outcome_of (d : VerificationDecision) : VerificationStatus := match d with Approve => Approved | Reject => Rejected end.
Definition decision_ok (t : Z) (d : VerificationDecision) (until : Z) (reason : BytesN32) : Prop :=
  match d with Approve => t < until ∧ reason = 0 | Reject => until = 0 ∧ reason ≠ 0 end.

Inductive effect (e : Env) (st : Store) : Call → Store → Prop :=
| E_initialize x rec ver md :
    authorized e x = true → admin st = None →
    effect e st (CInitialize x rec ver md) (put_moderator md (put_verifier ver (put_recorder rec (put_admin x st))))
| E_role x r y : is_admin e st x → effect e st (CRole x r y) (put_role r y st)
| E_profile x h n :
    authorized e x = true → h ≠ 0 → n ≤ REQUIRED_PROFILE_SECTIONS →
    effect e st (CProfile x h n) (put_profile x (mkProfile h n (Z.quot (n * MAX_RATE_BASIS_POINTS) REQUIRED_PROFILE_SECTIONS) (timestamp e)) st)
| E_mentee x c :
    authorized e x = true → some_zero c = false →
    effect e st (CMentee x c) (put_mentee x (mentee_of c (from_option created_at (timestamp e) (mentees st !! x)) (timestamp e)) st)
| E_performance rec x p q h start finish :
    has_role e st Recorder rec → is_Some (profiles st !! x) → p ≤ MAX_RATE_BASIS_POINTS → q ≤ MAX_RATE_BASIS_POINTS → start < finish ≤ timestamp e → h ≠ 0 →
    effect e st (CPerformance rec x p q h start finish) (put_performance x (mkPerformance p q h start finish rec (timestamp e)) st)
| E_submit x provider evidence v :
    authorized e x = true → is_Some (profiles st !! x) → v ≠ 0 → provider ≠ 0 → evidence ≠ 0 → may_submit (timestamp e) (verifications st !! x) →
    effect e st (CSubmit x provider evidence true v) (put_verification x (submitted provider evidence v (timestamp e) (attempts_of st x + 1)) st)
| E_review ver x d until reason a :
    has_role e st Verifier ver → verifications st !! x = Some a → status a = Pending → consent_given a = true → decision_ok (timestamp e) d until reason →
    effect e st (CReview ver x d until reason) (put_verification x (reviewed (outcome_of d) ver (timestamp e) until reason a) st)
| E_cancel x a :
    authorized e x = true → verifications st !! x = Some a → consent_given a = true → consent_revoked_at a = None →
    effect e st (CCancel x) (put_verification x (cancelled (timestamp e) a) st)
| E_safety md x s h :
    has_role e st Moderator md → is_Some (profiles st !! x) → (s = Unassessed ↔ h = 0) →
    effect e st (CSafety md x s h) (put_safety x (mkSafety s h md (timestamp e)) st).

Section Effects.
Context {L : Type}.
Abbreviation W := (World L Store Event).
Abbreviation M := (Contract L Store Event ContractError).
Implicit Types (w : W).

(** The number of a new attempt. *)
Lemma attempt_done x e w w' n :
  (∀ a, verifications (store w) !! x = Some a → 1 ≤ attempt a) →
  (match verifications (store w) !! x with
   | Some a =>
       reject_if (bool_decide (status a = Pending)) VerificationPending ;;;
       reject_if (bool_decide (status a = Approved) && negb (bool_decide (is_Some (consent_revoked_at a))) && (timestamp e <? expires_at a)) VerificationStillValid ;;;
       ok_or (checked_add_u32 (attempt a) 1) Overflow
   | None => ret 1
   end : M Z) e w = Done w' n →
  may_submit (timestamp e) (verifications (store w) !! x) ∧ n = attempts_of (store w) x + 1 ∧ w' = w.
Proof.
  intros Hpos Hrun. unfold may_submit, attempts_of. destruct (verifications (store w) !! x) as [a|] eqn:Ha; run_inv; [|done].
  match goal with H : _ && _ && _ = false |- _ => rename H into Hv end. bool_prop. checked_prop.
  split_and!; [|done|done]. intros ? [= <-]. split_and!; [done|lia|]. intros (Hs & Hn & Ht). rewrite Hs, Hn in Hv. simpl in Hv.
  rewrite ?(proj2 (Z.ltb_lt _ _)) in Hv by done. naive_solver lia.
Qed.

Lemma mentor_identity_effect c e w w' u :
  (∀ x a, verifications (store w) !! x = Some a → 1 ≤ attempt a) →
  (exec c : M unit) e w = Done w' u → ledger w' = ledger w ∧ effect e (store w) c (store w').
Proof.
  intros Hpos Hrun. destruct c; simpl in Hrun.
  - unfold initialize in Hrun. run_inv. bool_prop. split; [done|]. apply E_initialize; [done|]. by apply eq_None_not_Some.
  - destruct r; unfold set_recorder, set_verifier, set_moderator, require_admin in Hrun; run_inv; (split; [done|]); by apply (E_role e _ x).
  - unfold update_profile in Hrun. run_inv. unfold is_zero_commitment in *. bool_prop. checked_prop. split; [done|]. by apply E_profile.
  - unfold set_mentee_learning_profile in Hrun. run_inv. split; [done|]. by apply E_mentee.
  - unfold attest_performance, require_role, require_profile in Hrun. run_inv. unfold is_zero_commitment in *. bool_prop. split; [done|].
    apply E_performance; try done; by eexists.
  - unfold submit_verification, require_profile in Hrun. run_inv. unfold is_zero_commitment in *. bool_prop. subst.
    match goal with H : context [VerificationStillValid] |- _ => apply (attempt_done _ _ _ _ _ (Hpos _)) in H as (Hm & -> & ->) end.
    split; [done|]. apply E_submit; try done; by eexists.
  - unfold review_verification, require_role in Hrun. run_inv. bool_prop. destruct d; run_inv; unfold is_zero_commitment in *; bool_prop; (split; [done|]).
    + by apply (E_review e _ ver x Approve).
    + by apply (E_review e _ ver x Reject).
  - unfold cancel_verification in Hrun. run_inv. bool_prop. split; [done|]. eapply E_cancel; try done. by apply eq_None_not_Some.
  - unfold attest_safety, require_role, require_profile in Hrun. run_inv. unfold is_zero_commitment in *. split; [done|]. apply E_safety; [done|by eexists|].
    match goal with H : negb (Bool.eqb _ _) = false |- _ => apply negb_false_iff, Bool.eqb_prop in H; rewrite <-Z.eqb_eq, <-H, bool_decide_eq_true; done end.
Qed.
End Effects.

(** ** The invariant *)

Definition verification_ok (a : VerificationAttestation) : Prop :=
  1 ≤ attempt a ∧ consent_version a ≠ 0 ∧ provider_reference a ≠ 0 ∧ evidence_commitment a ≠ 0 ∧
  (consent_given a = true ↔ consent_revoked_at a = None) ∧
  match status a with
  | Pending => consent_given a = true ∧ reviewer a = None ∧ reviewed_at a = None ∧ expires_at a = 0 ∧ rejection_reason_commitment a = 0
  | Approved => consent_given a = true ∧ is_Some (reviewer a) ∧ rejection_reason_commitment a = 0 ∧ ∃ t, reviewed_at a = Some t ∧ t < expires_at a
  | Rejected => consent_given a = true ∧ is_Some (reviewer a) ∧ is_Some (reviewed_at a) ∧ expires_at a = 0 ∧ rejection_reason_commitment a ≠ 0
  | Cancelled => consent_given a = false
  | Expired => False
  end.
Definition profile_ok (p : MentorProfile) : Prop :=
  profile_commitment p ≠ 0 ∧ 0 ≤ completed_sections p ≤ REQUIRED_PROFILE_SECTIONS ∧
  completion_basis_points p * REQUIRED_PROFILE_SECTIONS ≤ completed_sections p * MAX_RATE_BASIS_POINTS
    < (completion_basis_points p + 1) * REQUIRED_PROFILE_SECTIONS ∧
  0 ≤ completion_basis_points p ≤ MAX_RATE_BASIS_POINTS.
Definition performance_ok (p : PerformanceAttestation) : Prop :=
  0 ≤ response_rate_basis_points p ≤ MAX_RATE_BASIS_POINTS ∧ 0 ≤ delivery_rate_basis_points p ≤ MAX_RATE_BASIS_POINTS ∧
  window_start p < window_end p ≤ recorded_at p ∧ pf_evidence_commitment p ≠ 0.
Definition safety_ok (s : SafetyAssessment) : Prop := s_status s = Unassessed ↔ s_evidence_commitment s = 0.

(** A record about a mentor other than the profile is about one with a profile. *)
Record inv (st : Store) : Prop := {
  inv_profiles x p : profiles st !! x = Some p → profile_ok p;
  inv_performances x p : performances st !! x = Some p → performance_ok p ∧ is_Some (profiles st !! x);
  inv_verifications x a : verifications st !! x = Some a → verification_ok a ∧ is_Some (profiles st !! x);
  inv_safeties x s : safeties st !! x = Some s → safety_ok s ∧ is_Some (profiles st !! x)
}.

Definition empty_store : Store := mkStore None None None None ∅ ∅ ∅ ∅ ∅.
Definition deployed {L} (w : World L Store Event) : Prop := store w = empty_store.

Lemma mentor_identity_empty_inv : inv empty_store.
Proof. by split. Qed.

Lemma profile_fits h n t : h ≠ 0 → 0 ≤ n ≤ REQUIRED_PROFILE_SECTIONS →
  profile_ok (mkProfile h n (Z.quot (n * MAX_RATE_BASIS_POINTS) REQUIRED_PROFILE_SECTIONS) t).
Proof.
  unfold REQUIRED_PROFILE_SECTIONS, MAX_RATE_BASIS_POINTS. intros Hh Hn. split; [done|]. simpl. split; [done|].
  unfold REQUIRED_PROFILE_SECTIONS, MAX_RATE_BASIS_POINTS. rewrite quot_floor by lia. pose proof (Z.div_mod (n * 10000) 6). pose proof (Z.mod_pos_bound (n * 10000) 6). lia.
Qed.

(** A verification put in its place. *)
Lemma verification_put_inv st x a : inv st → verification_ok a → is_Some (profiles st !! x) → inv (put_verification x a st).
Proof.
  intros [I1 I2 I3 I4] Ha Hx. split; try done. intros y b. simpl. rewrite lookup_insert. case_decide as Hy; [|apply I3].
  intros [= <-]. by rewrite <-Hy.
Qed.

Lemma mentor_identity_effect_inv e c st st' : inv st → valid e c → effect e st c st' → inv st'.
Proof.
  intros Hi [Ht Hv] Heff. pose proof Hi as [I1 I2 I3 I4].
  destruct Heff as [x rec ver md Ha Hn|x r y Hx|x h n Ha Hh Hn|x c Ha Hc|rec x p q h start finish Hr Hx Hp Hq Hw Hh|x provider evidence v Ha Hx Hv0 Hp He Hm
    |ver x d until reason a Hr Ha Hs Hc Hd|x a Ha Hx Hc Hn|md x s h Hr Hx Hs]; [done|by destruct r| |done| | | | |].
  - assert (∀ y, is_Some (profiles st !! y) → is_Some (<[x := mkProfile h n (Z.quot (n * MAX_RATE_BASIS_POINTS) REQUIRED_PROFILE_SECTIONS) (timestamp e)]> (profiles st) !! y)) as Hkeep.
    { intros y Hy. rewrite lookup_insert. by case_decide. }
    split; simpl; [|intros y p Hy; destruct (I2 y p Hy); auto|intros y p Hy; destruct (I3 y p Hy); auto|intros y p Hy; destruct (I4 y p Hy); auto].
    intros y p. rewrite lookup_insert. case_decide; [|apply I1]. intros [= <-]. apply profile_fits; [done|lia].
  - split; try done. intros y b. simpl. rewrite lookup_insert. case_decide as Hy; [|apply I2]. intros [= <-]. rewrite <-Hy. split; [|done].
    unfold performance_ok. simpl. lia.
  - apply verification_put_inv; [done| |done]. unfold verification_ok. simpl. split_and!; try done.
    unfold attempts_of. destruct (verifications st !! x) as [a|] eqn:Hva; simpl; [|lia]. destruct (I3 x a Hva) as [(? & _) _]. lia.
  - destruct (I3 x a Ha) as [(V1 & V2 & V3 & V4 & V5 & _) Hx]. apply verification_put_inv; [done| |done]. unfold verification_ok. simpl.
    split_and!; try done; destruct d; simpl in Hd |- *; destruct Hd; naive_solver.
  - destruct (I3 x a Hx) as [(V1 & V2 & V3 & V4 & V5 & _) Hp]. apply verification_put_inv; [done| |done]. unfold verification_ok. simpl. by split_and!.
  - split; try done. intros y b. simpl. rewrite lookup_insert. case_decide as Hy; [|apply I4]. intros [= <-]. rewrite <-Hy. by split.
Qed.

(** ** Verifications *)

Definition submits (x : Address) (_ : Env) (c : Call) : bool := match c with CSubmit y _ _ _ _ => bool_decide (y = x) | _ => false end.
Definition approves (x : Address) (c : Call) : bool := match c with CReview _ y Approve _ _ => bool_decide (y = x) | _ => false end.
Definition in_force (t : Z) (st : Store) (x : Address) : bool := from_option (verified_at t) false (verifications st !! x).

(** How one call moves the verification of a mentor. *)
Inductive moved (e : Env) (st : Store) (x : Address) : Call → option VerificationAttestation → Prop :=
| M_same c : moved e st x c (verifications st !! x)
| M_submit provider evidence v :
    authorized e x = true → may_submit (timestamp e) (verifications st !! x) →
    moved e st x (CSubmit x provider evidence true v) (Some (submitted provider evidence v (timestamp e) (attempts_of st x + 1)))
| M_review ver d until reason a :
    has_role e st Verifier ver → verifications st !! x = Some a → status a = Pending → consent_given a = true → decision_ok (timestamp e) d until reason →
    moved e st x (CReview ver x d until reason) (Some (reviewed (outcome_of d) ver (timestamp e) until reason a))
| M_cancel a :
    authorized e x = true → verifications st !! x = Some a → consent_given a = true → moved e st x (CCancel x) (Some (cancelled (timestamp e) a)).

Lemma verification_moves e c st st' x :
  effect e st c st' → moved e st x c (verifications st' !! x) ∧ attempts_of st' x = attempts_of st x + (if submits x e c then 1 else 0).
Proof.
  intros Heff. unfold attempts_of at 1.
  destruct Heff as [y rec ver md Ha Hn|y r z Hy|y h n Ha Hh Hn|y c Ha Hc|rec y p q h start finish Hr Hy Hp Hq Hw Hh|y provider evidence v Ha Hy Hv0 Hp He Hm
    |ver y d until reason a Hr Ha Hs Hc Hd|y a Ha Hy Hc Hn|md y s h Hr Hy Hs];
    try (split; [exact (M_same e st x _)|unfold attempts_of; cbn [submits]; simpl; lia]).
  - unfold attempts_of. destruct r; (split; [exact (M_same e st x _)|simpl; lia]).
  - simpl. rewrite lookup_insert. case_decide as Hxy; [subst y; rewrite bool_decide_eq_true_2 by done; split; [by apply M_submit|done]|].
    rewrite bool_decide_eq_false_2 by done. split; [apply M_same|unfold attempts_of; lia].
  - simpl. rewrite lookup_insert. case_decide as Hxy; [subst y; split; [by apply M_review|unfold attempts_of; rewrite Ha; simpl; lia]|].
    split; [apply M_same|unfold attempts_of; lia].
  - simpl. rewrite lookup_insert. case_decide as Hxy; [subst y; split; [by apply M_cancel|unfold attempts_of; rewrite Hy; simpl; lia]|].
    split; [apply M_same|unfold attempts_of; lia].
Qed.

Lemma in_force_gained e c st st' x t :
  effect e st c st' → approves x c = false → in_force t st' x = true → in_force t st x = true.
Proof.
  intros Heff Hap. destruct (verification_moves e c st st' x Heff) as [Hm _]. unfold in_force.
  destruct Hm as [c|provider evidence v Ha Hs|ver d until reason a Hr Ha Hs Hc Hd|a Ha Hx Hc]; [done|done| |done].
  destruct d; [cbn in Hap; by rewrite bool_decide_eq_true_2 in Hap|done].
Qed.

(** An approval in force is a matter of its status and its expiry: the consent is implied. *)
Lemma verified_at_iff t a : verification_ok a → verified_at t a = true ↔ status a = Approved ∧ t < expires_at a.
Proof.
  intros (_ & _ & _ & _ & Hc & Hs). unfold verified_at. rewrite !andb_true_iff, negb_true_iff, bool_decide_eq_true, bool_decide_eq_false, Z.ltb_lt.
  split; [naive_solver|]. intros [Ha Ht]. rewrite Ha in Hs. destruct Hs as (Hg & _). split_and!; try done. apply Hc in Hg as ->. by intros [? ?].
Qed.

Lemma shown_verified t a : verified_at t (shown t a) = verified_at t a.
Proof.
  unfold shown. case_bool_decide as Hs; simpl; [|done]. destruct (Z.leb_spec (expires_at a) t); [|done].
  unfold verified_at. simpl. rewrite (proj2 (Z.ltb_ge t (expires_at a))) by lia. by rewrite andb_false_r.
Qed.

Section Theorems.
Context {L : Type}.
Abbreviation W := (World L Store Event).
Abbreviation M := (Contract L Store Event ContractError).
Abbreviation exec := (exec (L := L)).
Abbreviation Reach this := (reachable exec valid this (λ _ _, True) deployed).
Implicit Types (w : W).

Lemma mentor_identity_step e c w w' u :
  inv (store w) → valid e c → exec c e w = Done w' u → inv (store w') ∧ effect e (store w) c (store w').
Proof.
  intros Hi Hv Hrun. destruct (mentor_identity_effect c e w w' u) as [_ Heff]; [|done|split; [by eapply mentor_identity_effect_inv|done]].
  intros x a Ha. by destruct (inv_verifications _ Hi x a Ha) as [(? & _) _].
Qed.

Lemma mentor_identity_reachable this w : Reach this w → inv (store w).
Proof.
  apply (reachable_inv _ _ _ _ _ (λ w, inv (store w))).
  - intros w0 ->. apply mentor_identity_empty_inv.
  - intros c e w0 w1 u _ Hv Hi Hrun. by destruct (mentor_identity_step e c w0 w1 u Hi Hv Hrun).
  - done.
Qed.

Lemma mentor_identity_run_inv (I : W → Prop) calls w :
  inv (store w) → I w → Forall (λ ec : Env * Call, valid ec.1 ec.2) calls →
  (∀ e c w w', inv (store w) → I w → (e, c) ∈ calls → effect e (store w) c (store w') → I w') → inv (store (run_calls exec calls w)) ∧ I (run_calls exec calls w).
Proof.
  intros Hi HI Hv Hstep. rewrite Forall_forall in Hv. apply (run_calls_inv exec (λ w, inv (store w) ∧ I w)); [|done].
  intros e c w0 w1 u [H0 H1] Hin Hrun. destruct (mentor_identity_step e c w0 w1 u H0 (Hv _ Hin) Hrun). split; [done|by apply (Hstep e c w0)].
Qed.

(** What the attestations say.  In a reachable world a profile has a commitment, at most six sections and
    the rounded-down share of them; rates are at most 10,000 basis points over a window that is past;
    a verification has the fields of its status; each is about a mentor with a profile. *)
Theorem attestations_wellformed this w :
  Reach this w →
  (∀ x p, profiles (store w) !! x = Some p → profile_ok p) ∧
  (∀ x p, performances (store w) !! x = Some p → performance_ok p ∧ is_Some (profiles (store w) !! x)) ∧
  (∀ x a, verifications (store w) !! x = Some a → verification_ok a ∧ is_Some (profiles (store w) !! x)) ∧
  (∀ x s, safeties (store w) !! x = Some s → safety_ok s ∧ is_Some (profiles (store w) !! x)).
Proof. by intros []%mentor_identity_reachable. Qed.

(** What a reader of the indicators sees.  In a reachable world they are there exactly for a mentor with a
    profile; he shows as verified exactly if his stored verification is approved and its expiry lies
    ahead; no shown approval is past its expiry; and his safety status is the stored one. *)
Theorem indicators_exact this w e x :
  Reach this w →
  match profiles (store w) !! x with
  | None => invoke (get_indicators x : M MentorIndicators) e w = (w, Errored ProfileNotFound)
  | Some p => ∃ r, invoke (get_indicators x : M MentorIndicators) e w = (w, Returned r) ∧ profile r = p ∧
      (is_verified r = true ↔ ∃ a, verifications (store w) !! x = Some a ∧ status a = Approved ∧ timestamp e < expires_at a) ∧
      (∀ a, verification r = Some a → status a = Approved → timestamp e < expires_at a) ∧
      safety_status r = from_option s_status Unassessed (safeties (store w) !! x)
  end.
Proof.
  intros Hi%mentor_identity_reachable. destruct (profiles (store w) !! x) as [p|] eqn:Hp.
  - eexists. split; [apply invoke_run; unfold get_indicators, require_profile; run_fwd|]. simpl. split_and!; [done| | |done].
    + destruct (verifications (store w) !! x) as [a|] eqn:Ha; simpl; [|naive_solver]. rewrite shown_verified.
      rewrite (verified_at_iff _ a) by (by destruct (inv_verifications _ Hi x a Ha)). naive_solver.
    + intros a Ha. apply fmap_Some in Ha as (b & _ & ->). unfold shown. case_bool_decide as Hs; simpl; [|done]. destruct (Z.leb_spec (expires_at b) (timestamp e)); simpl; [done|lia].
  - unfold invoke, get_indicators, require_profile. cbv [bind load ok_or]. by rewrite Hp.
Qed.

(** Verified by the verifier alone, attempts by the mentor alone.  Over valid calls the attempts of a mentor
    rise by exactly his submissions that return; and if none of the calls is an approval of him, he is
    verified afterwards, at any time, only if he was before. *)
Theorem verified_by_review this w calls x :
  Reach this w → Forall (λ ec : Env * Call, valid ec.1 ec.2) calls →
  let w' := run_calls exec calls w in
  attempts_of (store w') x = attempts_of (store w) x + accepted exec (submits x) calls w ∧
  (Forall (λ ec : Env * Call, approves x ec.2 = false) calls → ∀ t, in_force t (store w') x = true → in_force t (store w) x = true).
Proof.
  intros Hi%mentor_identity_reachable Hv w'. split.
  - rewrite Forall_forall in Hv.
    destruct (accepted_counts exec (λ w, inv (store w)) (λ w, attempts_of (store w) x) (submits x) calls w) as [_ Hc]; [|done|done].
    intros e c w0 w1 u H0 Hin Hrun. destruct (mentor_identity_step e c w0 w1 u H0 (Hv _ Hin) Hrun) as [H1 Heff]. split; [done|].
    apply (verification_moves e c _ _ x Heff).
  - intros Hap t. rewrite Forall_forall in Hap.
    apply (mentor_identity_run_inv (λ w1, in_force t (store w1) x = true → in_force t (store w) x = true) calls w Hi); [done|done|].
    intros e c w0 w1 _ H0 Hin Heff H1. apply H0, (in_force_gained e c _ _ x t Heff); [apply (Hap _ Hin)|done].
Qed.

(** C40: Consent can be withdrawn.  A mentor whose verification is not cancelled can cancel it at any time; from
    then on, over any valid calls, he is not verified until the verifier approves a new submission. *)
Theorem withdrawal_lasts this w e x a calls :
  Reach this w → 0 ≤ timestamp e ≤ u64_max → authorized e x = true → verifications (store w) !! x = Some a → status a ≠ Cancelled →
  Forall (λ ec : Env * Call, valid ec.1 ec.2 ∧ approves x ec.2 = false) calls →
  ∃ w', invoke (cancel_verification x : M unit) e w = (w', Returned tt) ∧ ∀ t, in_force t (store (run_calls exec calls w')) x = false.
Proof.
  intros Hi%mentor_identity_reachable Ht Ha Hv Hs Hcalls. destruct (inv_verifications _ Hi x a Hv) as [(_ & _ & _ & _ & Hc & Hst) _].
  assert (consent_given a = true) as Hg by (destruct (status a); naive_solver).
  assert (∃ w', exec (CCancel x) e w = Done w' tt ∧ store w' = put_verification x (cancelled (timestamp e) a) (store w)) as (w' & Hrun & Hw').
  { simpl. unfold cancel_verification. cbv [bind load require_auth]. rewrite Ha. cbv [ok_or ret]. rewrite Hv. rewrite Hg, (proj1 Hc Hg). by eexists. }
  exists w'. split; [by apply invoke_run|]. intros t.
  destruct (mentor_identity_step e (CCancel x) w w' tt Hi (conj Ht I) Hrun) as [Hi1 _].
  apply not_true_iff_false. intros Hin. apply Forall_and in Hcalls as [Hval Hap]. rewrite Forall_forall in Hap.
  destruct (mentor_identity_run_inv (λ w1, in_force t (store w1) x = false) calls w' Hi1) as [_ Hno]; [|done| |by rewrite Hno in Hin].
  - unfold in_force. rewrite Hw'. simpl. by rewrite lookup_insert_eq.
  - intros e1 c w0 w1 _ H0 Hin1 Heff. apply not_true_iff_false. intros H1.
    rewrite (in_force_gained e1 c _ _ x t Heff (Hap _ Hin1) H1) in H0. done.
Qed.
End Theorems.

(** ** Concrete runs *)
Module Runs.
Definition this : Address := addr 0.
Definition boss : Address := addr 1.
Definition rita : Address := addr 2.
Definition vera : Address := addr 3.
Definition mona : Address := addr 4.
Definition mia : Address := addr 5.
Abbreviation exec := (exec (L := unit)).
Abbreviation Reach := (reachable exec valid this (λ _ _, True) deployed).

Definition at_time (t : Z) : Env := mkEnv t this (λ _, true).
Definition w0 : World unit Store Event := mkWorld tt empty_store [].
Definition setup : list (Env * Call) :=
  [(at_time 10, CInitialize boss rita vera mona); (at_time 11, CProfile mia 71 5); (at_time 12, CPerformance rita mia 9000 9500 72 1 9);
   (at_time 13, CSafety mona mia Clear 73); (at_time 14, CSubmit mia 81 82 true 1)].
Definition review : list (Env * Call) := [(at_time 15, CReview vera mia Approve 100 0)].
Definition w1 : World unit Store Event := run_calls exec setup w0.
Definition w2 : World unit Store Event := run_calls exec (setup ++ review) w0.
Definition after : list (Env * Call) := [(at_time 30, CSubmit mia 83 84 true 1); (at_time 31, CProfile mia 74 6)].

Lemma mentor_identity_runs calls :
  Forall (λ ec : Env * Call, self ec.1 = this ∧ valid ec.1 ec.2) calls → Reach (run_calls exec calls w0).
Proof. apply reachable_run. by apply reach_init. Qed.

Ltac valid_calls := repeat constructor; simpl; try done; range_lia.

Lemma mentor_identity_w1_reach : Reach w1.
Proof. apply mentor_identity_runs. valid_calls. Qed.
Lemma mentor_identity_w2_reach : Reach w2.
Proof. apply mentor_identity_runs. valid_calls. Qed.

Lemma attestations_wellformed_witness : ∃ p, profiles (store w2) !! mia = Some p ∧ completed_sections p ≤ 6.
Proof.
  destruct (attestations_wellformed this w2 mentor_identity_w2_reach) as (Hp & _).
  destruct (profiles (store w2) !! mia) as [p|] eqn:Hm; [|vm_compute in Hm; done]. exists p. split; [done|]. apply (Hp mia p Hm).
Defined.

Lemma indicators_exact_witness : ∃ r, (invoke (get_indicators mia) (at_time 20) w2).2 = Returned r ∧ is_verified r = true.
Proof.
  pose proof (indicators_exact this w2 (at_time 20) mia mentor_identity_w2_reach) as H.
  destruct (profiles (store w2) !! mia) as [p|] eqn:Hm; [|vm_compute in Hm; done]. destruct H as (r & -> & _ & Hv & _). exists r. split; [done|]. apply Hv.
  destruct (verifications (store w2) !! mia) as [a|] eqn:Ha; [|vm_compute in Ha; done]. exists a. vm_compute in Ha. injection Ha as <-. done.
Defined.

Lemma verified_by_review_witness : ∀ t, in_force t (store (run_calls exec after w1)) mia = true → in_force t (store w1) mia = true.
Proof.
  destruct (verified_by_review this w1 after mia mentor_identity_w1_reach) as [_ H]; [valid_calls|]. apply H. repeat constructor.
Defined.

Lemma withdrawal_lasts_witness : ∃ w', invoke (cancel_verification mia) (at_time 21) w2 = (w', Returned tt) ∧ in_force 50 (store (run_calls exec after w')) mia = false.
Proof.
  destruct (verifications (store w2) !! mia) as [a|] eqn:Ha; [|vm_compute in Ha; done].
  assert (status a ≠ Cancelled) by (vm_compute in Ha; by injection Ha as <-).
  destruct (withdrawal_lasts this w2 (at_time 21) mia a after) as (w' & Hw & Hn); [exact mentor_identity_w2_reach|vm_compute; done|done|done|done|valid_calls|].
  exists w'. split; [exact Hw|apply Hn].
Defined.
End Runs.
